(* ===== verification/_CoqProject ===== *)
-Q . S2P
Prelude.v
Util.v
Splitter.v
Shape.v
NdIndex.v
TensorSlice.v
NdSbp.v
NdSbpSpec.v
CopyNd.v
Ids.v
BinAllocator.v
BinAllocatorRep.v
BinAllocatorSpec.v
BinAllocatorGc.v
VmEngine.v
VmEngineSpec.v
VmEngineRun.v
VmFuse.v
VmSchedule.v
RegstSlot.v
Actor.v
ActorSpec.v
ActorTrace.v
ActorSafe.v
StrUtil.v
Placement.v
PlacementSpec.v
SendRecv.v
SendRecvSpec.v
BinarySet.v
FastMath.v
Broadcast.v
BroadcastKernels.v
Permute.v
PermuteSpec.v
BroadcastUnary.v
BroadcastUnarySpec.v
MemReuse.v
MemLifetime.v
MemLifetimeSpec.v
MemStrategy.v
MemStrategySpec.v
MemCompress.v
MemShare.v
MemShareSpec.v
Digraph.v
Autograd.v
AutogradDeps.v
AutogradSpec.v
AutogradPrune.v
AutogradBuild.v
AutogradChain.v
AutogradGrad.v
GraphAlgo.v
GraphTopo.v
GraphReach.v
GraphSearch.v
GraphFfs.v
GraphScc.v
GraphStore.v
ListHook.v
IntrusiveList.v
IntrusiveListSpec.v
SkipList.v
SkipListSpec.v
