(* ===== verification/Prelude.v ===== *)
(** * OneFlow core: a verification development

    OneFlow is a deep-learning framework.  A user's program becomes either a stream
    of instructions for a virtual machine (eager mode) or a plan of tasks that
    actors execute (lazy mode).  Below both are the primitives that move and combine
    tensors, the allocators that hand out memory, and the identifiers by which
    devices, streams and tasks refer to each other.  This development models the
    C++ core of these parts ([src/oneflow/core]) and proves what makes them correct.

    ** How code is translated

    A C++ function is a Rocq function.  A call returns a value, returns a [Maybe]
    that holds an error, or aborts the process (a failed [CHECK], [.at] out of
    range): this is the type [outcome] of this file, with the notation
    [let* x := m in k].  Undefined behaviour that the source can reach (an index out
    of range of [operator[]]) is an abort too.  Objects are records, a method that
    changes its object returns the new record; objects that are shared by pointers
    (pieces of the allocator, instructions, registers, register descriptions) are
    numbers that index a store.  Machine integers are [Z]; where overflow can happen
    the wrap-around is written out ([i32], [i64], [u64] of this file).  Hash maps
    and sets are stdpp's [gmap] and [gset], visited in the order of [map_to_list]
    and [elements].  [std::sort] of keys with ties, functors, device answers and the
    backend allocator are arguments; what is assumed of them is stated where they
    are introduced.

    ** Files

    Prelude
    - [Prelude]: outcomes, checks, vectors and their access, machine integers, the
      tactics and hints that the components share.

    Shapes, indices and slices
    - [Util]: [common/math_util.cpp], [util.h], [wrap_dim_utils.h].
    - [Splitter]: [common/range.*], [balanced_splitter.*].
    - [Shape]: [common/shape.*], [stride.*], [shape_view.*].
    - [NdIndex]: [common/nd_index_offset_helper.h]; offsets and index tuples are
      inverse to each other.
    - [TensorSlice]: [register/tensor_slice_view.*]; slices are boxes, their
      operations are those of boxes.

    Tensor primitives (CPU)
    - [CopyNd]: [ep/common/primitive/copy_nd.h], [ep/cpu/primitive/copy_nd.cpp] and
      [register/tensor_slice_copier.cpp].  The merged and widened copy is the copy
      of a slice ([copy_nd_correct], [slice_copier_correct]), where 32-bit indices are
      not chosen for tensors they cannot index ([copy_nd_index_overflow]).
    - [FastMath]: [ep/include/primitive/fast_integer_math.h] and the calculator of
      [constant_pad.h]; the multiply-and-shift division is division, but for the
      64-bit powers of two from 2^32 on ([fast_division_exact]).
    - [Broadcast], [BroadcastKernels]: [ep/common/primitive/util.h] and
      [ep/cpu/primitive/broadcast_elementwise_binary.cpp]; every kernel computes the
      broadcast of the functor ([binary_broadcast_correct]).
    - [Permute], [PermuteSpec]: [ep/common/primitive/permute.h], [permute_impl.h] and
      the CPU kernel; the coalesced permutation transposes ([permute_correct]), if no run
      of coalesced axes has 2^31 elements or more.
    - [BroadcastUnary], [BroadcastUnarySpec]: the strided unary primitive with its permute
      path; [strided_unary_correct] holds under the decidable conditions that keep four
      defects away, two of them shown on concrete views there and two inherited from
      [FastMath] and [Permute].

    Identifiers
    - [Ids]: [device/device_id.*], [graph/stream_id.*], [graph/task_id.*], the
      generators of [graph/] and [job/id_manager.*].  Encodings have inverses, ids
      are never issued twice, also after saving and loading a generator.

    Memory at run time
    - [BinAllocator]: [vm/bin_allocator.h] over a backend with the contract of
      [vm/allocator.h] (a type class).  [BinAllocatorRep]: the linked pieces, bins
      and indices represent one map of pieces.  [BinAllocatorSpec]: allocation and
      deallocation keep the tiling of the blocks.  [BinAllocatorGc]: garbage
      collection, and the theorem on all histories ([allocator_safe]).

    Memory of a plan
    - [MemLifetime], [MemLifetimeSpec]: the lifetimes of registers
      ([job/intra_job_mem_sharing_util.cpp]) cover their uses and those of the
      registers computed in them.
    - [MemReuse]: the allocation algorithms of [job/intra_job_mem_sharing_util.h] and
      [.cpp]; registers alive at the same time are disjoint
      ([shared_block_disjoint]).
    - [MemStrategy], [MemStrategySpec], [MemCompress]: [job/memory_share_strategy.*],
      which compresses a block ([compression_safe]; an empty register can make it
      abort).
    - [MemShare], [MemShareSpec]: [InferMemBlockId4MemReusedRegst] composes them, with
      block ids from [Ids] ([memory_sharing_safe]).

    The virtual machine
    - [VmEngine]: [vm/virtual_machine_engine.*] and the fusing policy.
      [VmEngineSpec], [VmEngineRun]: the invariant of the engine and its
      preservation.  [VmFuse]: fusing keeps the program order.  [VmSchedule]:
      conflicting instructions are dispatched in program order, barriers run last,
      nothing waits for ever ([conflicts_dispatched_in_order], [no_deadlock], ...).

    Actors
    - [RegstSlot]: [lazy/actor/register_slot.*].  [Actor]: [lazy/actor/actor.*] and
      [naive_actor.cpp].  [ActorSpec]: the invariant of an actor.  [ActorTrace]: the
      ends an actor waits for as a function of the messages it was sent.  [ActorSafe]:
      no register is written while it is read; no CHECK fails while memory can be
      allocated and the other actors keep the protocol, which forbids a register of a
      naive input after the end, the one message that aborts a zombie actor; an actor
      ends only when the end of every input was told and all is returned.

    Tensors on several devices
    - [NdSbp], [NdSbpSpec]: [job/nd_sbp_util.cpp] and the physical shapes of
      [operator/operator.cpp].  The boxes of the devices tile the logical tensor
      ([nd_sbp_views_tile]), physical shapes are the shapes of the boxes, logical
      shapes can be computed back.
    - [StrUtil]: [common/str_util.*] and the integer casts of [common/util.cpp].
    - [Placement], [PlacementSpec]: [job/parallel_desc.*] and
      [framework/parallel_conf_util.cpp].  A placement parses from its configuration,
      numbers its devices one to one and writes a configuration that parses back to it.
    - [SendRecv], [SendRecvSpec]: [operator/nccl_send_recv_boxing_op_util.cpp], on top of
      these.  Senders and receivers agree ([send_recv_agree]) and nothing is lost or
      doubled ([reshard_complete]).

    Automatic differentiation
    - [Autograd]: [autograd/autograd_engine.*], [autograd_meta.*] and
      [framework/tensor_arg.*]: graph building, the two searches and the backward pass,
      over abstract tensor data.  [AutogradDeps], [AutogradPrune]: the edges are counted
      and nodes that lead to no input are pruned.  [AutogradBuild]: the graph that
      [AddNode] builds is well formed ([AddNodes_wf]).  [AutogradSpec]: the invariant of
      the queue.  [AutogradChain]: a backward pass runs every node once and computes the
      chain rule ([backward_chain_rule]) when nothing is left over from an earlier pass and
      the outputs are of distinct nodes; three requests that are served wrongly.
      [AutogradGrad]: the gradients that [autograd.grad] returns ([grad_chain_rule]).

    Graphs
    - [Digraph]: edges of a graph given by successor lists, counted; shared by the autograd
      engine and the graph library.
    - [GraphAlgo]: [graph/graph.h] and [graph/node.h], the template of the graphs of
      operators and tasks: its stores and every traversal.  [GraphTopo]: topological orders.
      [GraphReach]: the bit sets of the reachability predicate ([is_reachable_exact]).
      [GraphSearch]: breadth and depth first search ([connected_components]).  [GraphFfs],
      [GraphScc]: the finish time order and the search for circles built on it, started
      from all nodes as its callers do ([find_first_scc]).  [GraphStore]: the operations that build a graph keep its edges
      consistent, so that the theorems apply to it ([built_graph_topo]).

    Intrusive containers
    - [ListHook]: the hooks of [intrusive/list_hook.h]; rings of hooks, and what linking,
      unlinking and splicing do to them.
    - [IntrusiveList], [IntrusiveListSpec]: [ListHead], [intrusive/list.h],
      [mutexed_list.h], [ref.h] and [shared_ptr.h] over one store of hooks, sizes and
      counts.  Histories of list and pointer operations compute what sequences compute, and
      the reference counts are those of the holders
      ([intrusive_lists_implement_sequences]).  Three uses that break this are examples.
    - [SkipList], [SkipListSpec]: [intrusive/skiplist_hook.h]; a skip list is an ordered
      set, whatever the random levels ([skip_list_is_ordered_set]).

    Search
    - [BinarySet]: [auto_parallel/binary_set.*]; the bit vectors implement finite
      sets over one range, and what operands over different ranges give
      ([BinarySet_refines_sets]).

    ** Fuel

    Recursion that is not structural runs on fuel.  Where running out of it is an
    abort, a theorem that a function returns also says that the fuel is enough;
    elsewhere ([Erase], [FastMath], the running lists) the lemmas show that the loop
    ends before the fuel does.  The bounds: twice the logarithm of the smaller
    argument for [Gcd]; the number of entries for [Erase]; the number of pieces for
    the walks of the allocator; the length of the running list for the release of a
    stream; for the act loop of an actor any number from a bound on that the theorem
    on it states; the bits of the word for the loops of [BinarySet] and [FastMath];
    the number of tasks for the chain of in-place hints; the number of registers for
    the recursion of [MemStrategy]; the number of axes of the hierarchy for the
    traversals of [SendRecv] and [Placement]; the number of roots and edges for the
    searches and the queue of [Autograd]; the number of nodes for the graph traversals that
    queue a node once, and the numbers of nodes and edges that the theorems state for the
    depth first and finish time searches; the number of elements for walking and clearing a
    list and for the searches of a skip list.

    ** Not modelled

    Python bindings, the MLIR dialect, operators and kernels of [src/oneflow/user],
    the functional API: glue, generated code or floating-point and CUDA code.
    Networking, files, inter-process communication, profiling: input and output.
    The graph compiler above the graph template, job passes and operator inference work on
    protobuf messages whose generated classes are not in the repository.  Worker threads appear as
    answers of the device and as the statement that an operation is atomic.
    Logging, debug strings and hash functions are left out throughout.  Symbols and
    thread-local caches of placements are values.  The memory
    chains that [InferMemBlockId4MemReusedRegst] starts from are an argument.

    ** Plan

    Next are the memory chains of a plan, the object pools of the intrusive containers and
    the rematerialisation allocator ([vm/remat]). *)
From stdpp Require Export base tactics list numbers option gmap strings.
From Stdlib Require Export ZArith Lia.

Declare Scope oneflow_scope.
Delimit Scope oneflow_scope with oneflow.
#[global] Open Scope Z_scope.
#[global] Open Scope oneflow_scope.

(** ** Outcomes: values, [Maybe] errors and fatal checks *)

(** The error kinds that [oneflow::Error] attaches to a failed [Maybe]. *)
Inductive error_kind : Type :=
| CheckFailedError
| RuntimeError
| IndexError
| OutOfMemoryError
| UnimplementedError
| DeviceTagNotFoundError.

#[export] Instance error_kind_eq_dec : EqDecision error_kind.
Proof. solve_decision. Defined.

(** What a C++ call does: it returns a value, it returns a [Maybe] holding an
    error, or it aborts the process ([CHECK] failed, [LOG(FATAL)], [.at] out of
    range, division by zero). *)
Inductive outcome (A : Type) : Type :=
| Ret (a : A)
| Fail (e : error_kind)
| Crash.
Arguments Ret {A} a.
Arguments Fail {A} e.
Arguments Crash {A}.

#[export] Instance outcome_eq_dec `{EqDecision A} : EqDecision (outcome A).
Proof. solve_decision. Defined.

Definition obind {A B : Type} (m : outcome A) (k : A → outcome B) : outcome B :=
  match m with
  | Ret a => k a
  | Fail e => Fail e
  | Crash => Crash
  end.

Notation "'let*' x := m 'in' k" := (obind m (λ x, k))
  (at level 10, x pattern, m at level 100, k at level 200,
   format "'let*'  x  :=  m  'in' '//' k") : oneflow_scope.

(** [CHECK(b)]: abort unless [b]. *)
Definition CHECK (b : bool) : outcome unit := if b then Ret tt else Crash.
(** [CHECK_OR_RETURN(b) << e]: return the error unless [b]. *)
Definition CHECK_OR_RETURN (b : bool) (e : error_kind) : outcome unit :=
  if b then Ret tt else Fail e.
(** [v.at(i)] on a standard container. *)
Definition at_ {A : Type} (l : list A) (i : Z) : outcome A :=
  if i <? 0 then Crash else
  match l !! Z.to_nat i with Some a => Ret a | None => Crash end.

Fixpoint omap_list {A B : Type} (f : A → outcome B) (l : list A) : outcome (list B) :=
  match l with
  | [] => Ret []
  | x :: l => let* y := f x in let* ys := omap_list f l in Ret (y :: ys)
  end.

Fixpoint ofold {A S : Type} (f : S → A → outcome S) (l : list A) (s : S) : outcome S :=
  match l with
  | [] => Ret s
  | x :: l => let* s' := f s x in ofold f l s'
  end.

Definition is_ret {A : Type} (m : outcome A) : bool :=
  match m with Ret _ => true | _ => false end.

(** ** Machine integers *)

Definition u64_modulus : Z := 2 ^ 64.
Definition u64 (z : Z) : Z := z mod u64_modulus.
Definition u32 (z : Z) : Z := z mod 2 ^ 32.
(** Two's complement reading of the low 64 or 32 bits. *)
Definition i64 (z : Z) : Z := (z + 2 ^ 63) mod 2 ^ 64 - 2 ^ 63.
Definition i32 (z : Z) : Z := (z + 2 ^ 31) mod 2 ^ 32 - 2 ^ 31.
Definition is_u64 (z : Z) : Prop := 0 ≤ z < u64_modulus.
Definition is_u32 (z : Z) : Prop := 0 ≤ z < 2 ^ 32.
Definition is_i64 (z : Z) : Prop := - 2 ^ 63 ≤ z < 2 ^ 63.

(** ** Lists of integers *)

Definition prodZ (l : list Z) : Z := foldr Z.mul 1 l.
Definition sumZ (l : list Z) : Z := foldr Z.add 0 l.

(** ** Automation *)

Create HintDb oneflow.

(** Split a [let*] chain that is known to return. *)
Lemma obind_Ret {A B : Type} (m : outcome A) (k : A → outcome B) (b : B) :
  obind m k = Ret b ↔ ∃ a, m = Ret a ∧ k a = Ret b.
Proof. destruct m; simpl; naive_solver. Qed.

Lemma CHECK_Ret (b : bool) (u : unit) : CHECK b = Ret u ↔ b = true.
Proof. destruct b, u; simpl; naive_solver. Qed.

Lemma CHECK_OR_RETURN_Ret (b : bool) (e : error_kind) (u : unit) :
  CHECK_OR_RETURN b e = Ret u ↔ b = true.
Proof. destruct b, u; simpl; naive_solver. Qed.

Lemma at_Ret {A : Type} (l : list A) (i : Z) (a : A) :
  at_ l i = Ret a ↔ 0 ≤ i ∧ l !! Z.to_nat i = Some a.
Proof.
  unfold at_. destruct (Z.ltb_spec i 0).
  - split; [done | intros []; lia].
  - destruct (l !! Z.to_nat i); naive_solver.
Qed.

Lemma at_nat {A : Type} (l : list A) (i : nat) (a : A) :
  l !! i = Some a → at_ l (Z.of_nat i) = Ret a.
Proof. intros H. apply at_Ret. rewrite Nat2Z.id. split; [lia | done]. Qed.

(** [inv_ret]: take apart every hypothesis saying that a computation returned. *)
Ltac inv_ret :=
  repeat match goal with
  | H : obind _ _ = Ret _ |- _ => apply obind_Ret in H as (? & ? & H)
  | H : Ret _ = obind _ _ |- _ => symmetry in H
  | H : CHECK _ = Ret _ |- _ => apply CHECK_Ret in H
  | H : CHECK_OR_RETURN _ _ = Ret _ |- _ => apply CHECK_OR_RETURN_Ret in H
  | H : at_ _ _ = Ret _ |- _ => apply at_Ret in H as [? H]
  | H : Ret _ = Ret _ |- _ => injection H as H
  | H : Crash = Ret _ |- _ => discriminate H
  | H : Fail _ = Ret _ |- _ => discriminate H
  end; simplify_eq.

(** [bool_lia]: linear arithmetic over the boolean comparisons of the code. *)
Ltac bool_lia :=
  repeat match goal with
  | H : _ && _ = true |- _ => apply andb_true_iff in H as [? H]
  | H : negb _ = true |- _ => apply negb_true_iff in H
  | H : bool_decide _ = true |- _ => apply bool_decide_eq_true in H
  | H : bool_decide _ = false |- _ => apply bool_decide_eq_false in H
  end; lia.

(** ** Lemmas on machine integers *)

Lemma u64_small (z : Z) : is_u64 z → u64 z = z.
Proof. unfold u64, is_u64. intros. by apply Z.mod_small. Qed.

Lemma u64_range (z : Z) : is_u64 (u64 z).
Proof. unfold u64, is_u64. apply Z.mod_pos_bound. done. Qed.

Lemma i64_small (z : Z) : is_i64 z → i64 z = z.
Proof. unfold i64, is_i64. intros. rewrite Z.mod_small; lia. Qed.

Lemma i32_small (z : Z) : - 2 ^ 31 ≤ z < 2 ^ 31 → i32 z = z.
Proof. intros. unfold i32. rewrite Z.mod_small; lia. Qed.

(** A [size_t] result read as an [int64_t]. *)
Lemma i64_u64 (z : Z) : i64 (u64 z) = i64 z.
Proof. unfold i64, u64, u64_modulus. by rewrite Zplus_mod_idemp_l. Qed.

Lemma i64_range (z : Z) : is_i64 (i64 z).
Proof.
  unfold i64, is_i64.
  pose proof (Z.mod_pos_bound (z + 2 ^ 63) (2 ^ 64)). lia.
Qed.

#[export] Hint Resolve u64_range i64_range : oneflow.
Create Rewrite HintDb oneflow.
#[export] Hint Rewrite @length_app @length_map @length_insert : oneflow.

(** ** Lemmas on lists *)

Lemma prodZ_app (l k : list Z) : prodZ (l ++ k) = prodZ l * prodZ k.
Proof. induction l as [|x l IH]; cbn [prodZ foldr app]; [unfold prodZ; lia|].
  fold (prodZ (l ++ k)) (prodZ l). rewrite IH. lia. Qed.

Lemma prodZ_cons (x : Z) (l : list Z) : prodZ (x :: l) = x * prodZ l.
Proof. done. Qed.

Lemma prodZ_nil : prodZ [] = 1.
Proof. done. Qed.

Lemma prodZ_singleton (x : Z) : prodZ [x] = x.
Proof. unfold prodZ; simpl. lia. Qed.

Lemma sumZ_nil : sumZ [] = 0.
Proof. done. Qed.

Lemma sumZ_cons (x : Z) (l : list Z) : sumZ (x :: l) = x + sumZ l.
Proof. done. Qed.

Arguments prodZ : simpl never.
Arguments sumZ : simpl never.

Lemma prodZ_pos (l : list Z) : Forall (λ d, 0 < d) l → 0 < prodZ l.
Proof. induction 1; [done|]. rewrite prodZ_cons. lia. Qed.

Lemma prodZ_nonneg (l : list Z) : Forall (λ d, 0 ≤ d) l → 0 ≤ prodZ l.
Proof. induction 1; [done|]. rewrite prodZ_cons. lia. Qed.

Lemma prodZ_rev (l : list Z) : prodZ (rev l) = prodZ l.
Proof.
  induction l as [|x l IH]; [done|].
  cbn [rev]. rewrite prodZ_app, IH, prodZ_singleton, prodZ_cons. lia.
Qed.

Lemma fold_left_mul (l : list Z) (a : Z) : fold_left Z.mul l a = a * prodZ l.
Proof.
  revert a. induction l as [|x l IH]; intros a; [simpl; rewrite prodZ_nil; lia|].
  simpl. rewrite IH, prodZ_cons. lia.
Qed.

Lemma sumZ_app (l k : list Z) : sumZ (l ++ k) = sumZ l + sumZ k.
Proof.
  induction l as [|x l IH]; [done|].
  change (sumZ ((x :: l) ++ k)) with (x + sumZ (l ++ k)).
  change (sumZ (x :: l)) with (x + sumZ l). lia.
Qed.

Lemma sumZ_perm (l k : list Z) : l ≡ₚ k → sumZ l = sumZ k.
Proof. unfold sumZ. induction 1; simpl; lia. Qed.

Lemma omap_list_length {A B : Type} (f : A → outcome B) l ys :
  omap_list f l = Ret ys → length ys = length l.
Proof.
  revert ys. induction l as [|x l IH]; simpl; intros ys H; inv_ret; simpl; auto.
Qed.

Lemma omap_list_lookup {A B : Type} (f : A → outcome B) l ys i y :
  omap_list f l = Ret ys → ys !! i = Some y →
  ∃ x, l !! i = Some x ∧ f x = Ret y.
Proof.
  revert ys i. induction l as [|x l IH]; simpl; intros ys i H Hy; inv_ret.
  destruct i as [|i]; simpl in *; [naive_solver | eauto].
Qed.

Lemma omap_list_Ret {A B : Type} (f : A → outcome B) (g : A → B) l :
  Forall (λ x, f x = Ret (g x)) l → omap_list f l = Ret (map g l).
Proof. induction 1 as [|x l Hx _ IH]; simpl; [done|]. by rewrite Hx, IH. Qed.

Lemma ofold_app {A S : Type} (f : S → A → outcome S) l k s :
  ofold f (l ++ k) s = (let* s' := ofold f l s in ofold f k s').
Proof.
  revert s. induction l as [|x l IH]; simpl; intros s; [done|].
  destruct (f s x); simpl; auto.
Qed.

(** An invariant of the loop body is an invariant of the loop. *)
Lemma ofold_invariant {A S : Type} (P : S → Prop) (f : S → A → outcome S) l s s' :
  (∀ s x s', x ∈ l → P s → f s x = Ret s' → P s') →
  P s → ofold f l s = Ret s' → P s'.
Proof.
  revert s. induction l as [|x l IH]; simpl; intros s Hstep Hs H; inv_ret; auto.
  eapply IH; [|eapply Hstep; [left|done|done]|done].
  intros ??? Hin. apply Hstep. by right.
Qed.

Lemma filter_all {A : Type} (P : A → Prop) `{!∀ x, Decision (P x)} (l : list A) :
  Forall P l → filter P l = l.
Proof. induction 1 as [|x l Hx _ IH]; [done|]. by rewrite filter_cons_True, IH. Qed.

Lemma filter_none {A : Type} (P : A → Prop) `{!∀ x, Decision (P x)} (l : list A) :
  Forall (λ x, ¬ P x) l → filter P l = [].
Proof. induction 1 as [|x l Hx _ IH]; [done|]. by rewrite filter_cons_False. Qed.

Lemma filter_ext_in {A : Type} (P Q : A → Prop)
    `{!∀ x, Decision (P x), !∀ x, Decision (Q x)} (l : list A) :
  (∀ x, x ∈ l → (P x ↔ Q x)) → filter P l = filter Q l.
Proof.
  induction l as [|x l IH]; intros HPQ; [done|].
  rewrite !filter_cons, IH by (intros; apply HPQ; by right).
  specialize (HPQ x (list_elem_of_here _ _)).
  destruct (decide (P x)), (decide (Q x)); tauto || done.
Qed.

Lemma filter_map_comm {A B : Type} (f : A → B) (P : B → Prop)
    `{!∀ x, Decision (P x)} (l : list A) :
  filter P (map f l) = map f (filter (λ x, P (f x)) l).
Proof.
  induction l as [|x l IH]; [done|]. cbn [map]. rewrite !filter_cons, IH.
  by destruct (decide (P (f x))).
Qed.
