(* ===== verification/Util.v ===== *)
(** * Integer and container utilities

    Models [oneflow/core/common/math_util.cpp] ([Gcd], [Lcm]),
    [oneflow/core/common/util.h] ([RoundUp], [Erase]) and
    [oneflow/core/common/wrap_dim_utils.h] ([maybe_wrap_dim],
    [dim_list_to_bitset]).  Signed 64-bit values are integers [Z] with C++'s
    truncating division; [size_t] arithmetic wraps modulo 2^64. *)
From S2P Require Import Prelude.

(** ** Greatest common divisor *)

(** One activation per unit of fuel; [std::swap] first, then the guards. *)
Fixpoint Gcd_fuel (fuel : nat) (m n : Z) : outcome Z :=
  match fuel with
  | O => Crash
  | S fuel =>
      let (m, n) := if m <? n then (n, m) else (m, n) in
      if n =? 0 then Ret m
      else
        let* _ := CHECK (0 <? m) in
        let* _ := CHECK (0 <? n) in
        Gcd_fuel fuel n (Z.rem m n)
  end.

(** The recursion halves its second argument every two calls, so twice the
    bit length of the smaller argument is enough. *)
Definition Gcd (m n : Z) : outcome Z :=
  Gcd_fuel (2 * Z.to_nat (Z.log2 (Z.min m n)) + 4) m n.

Definition Lcm (m n : Z) : outcome Z :=
  let* g := Gcd m n in
  if g =? 0 then Crash else Ret (Z.quot (m * n) g).

(** ** Rounding up, on [size_t] *)

Definition RoundUp (n val : Z) : Z := u64 ((u64 (u64 (n + val) - 1) / val) * val).

(** ** Partition-and-truncate: [Erase(container, NeedErase, Handler)] *)

Section Erase.
Context {A : Type} (NeedErase : A → bool).

Definition swap_at (c : list A) (i j : nat) : list A :=
  match c !! i, c !! j with
  | Some x, Some y => <[i := y]> (<[j := x]> c)
  | _, _ => c
  end.

(** The [while (iter != erase_from)] loop: final container and cursors. *)
Fixpoint Erase_loop (fuel : nat) (c : list A) (iter erase_from : nat) : list A * nat * nat :=
  match fuel with
  | O => (c, iter, erase_from)
  | S fuel =>
      if Nat.eqb iter erase_from then (c, iter, erase_from) else
      match c !! iter with
      | None => (c, iter, erase_from)
      | Some x =>
          if NeedErase x then
            let erase_from := (erase_from - 1)%nat in
            if Nat.eqb iter erase_from then (c, iter, erase_from)
            else Erase_loop fuel (swap_at c iter erase_from) iter erase_from
          else Erase_loop fuel c (iter + 1)%nat erase_from
      end
  end.

(** The container that is left, and the elements handed to
    [EraseElementHandler], in order. *)
Definition Erase (c : list A) : list A * list A :=
  let '(c', iter, erase_from) := Erase_loop (length c) c 0%nat (length c) in
  (take erase_from c', drop iter c').
End Erase.

(** ** Wrapping of negative dimensions *)

Definition maybe_wrap_dim (dim dim_post_expr : Z) (wrap_scalar : bool) : outcome Z :=
  let* dim_post_expr :=
    (if dim_post_expr <=? 0
     then if negb wrap_scalar then Fail RuntimeError else Ret 1
     else Ret dim_post_expr) in
  let min := - dim_post_expr in
  let max := dim_post_expr - 1 in
  if (dim <? min) || (max <? dim) then Fail IndexError
  else Ret (if dim <? 0 then dim + dim_post_expr else dim).

Definition dim_bitset_size : nat := 64%nat.

(** [std::bitset<64>] as its 64 booleans; [seen[dim]] with a dimension the
    bitset does not have is out of its domain. *)
Definition dim_list_to_bitset (dims : list Z) (ndims : Z) : outcome (list bool) :=
  let* _ := CHECK_OR_RETURN (ndims <=? Z.of_nat dim_bitset_size) RuntimeError in
  ofold (λ seen d,
           let* dim := maybe_wrap_dim d ndims true in
           let* b := at_ seen dim in
           let* _ := CHECK_OR_RETURN (negb b) RuntimeError in
           Ret (<[Z.to_nat dim := true]> seen))
        dims (replicate dim_bitset_size false).

(** ** Proofs: [Gcd] *)

Lemma Gcd_step (m n : Z) : 0 < n ≤ m → Z.gcd n (Z.rem m n) = Z.gcd m n.
Proof.
  intros. rewrite Z.rem_mod_nonneg by lia.
  rewrite Z.gcd_comm, Z.gcd_mod by lia. apply Z.gcd_comm.
Qed.

(** Two activations halve the smaller argument. *)
Lemma Gcd_halves (m n : Z) : 0 < n ≤ m → 2 * (n mod (m mod n)) < n ∨ m mod n = 0.
Proof.
  intros. destruct (Z.eq_dec (m mod n) 0); [by right|left].
  pose proof (Z.mod_pos_bound m n). pose proof (Z.mod_pos_bound n (m mod n)).
  pose proof (Z.div_mod n (m mod n)).
  assert (1 ≤ n / (m mod n)) by (apply Z.div_le_lower_bound; lia). nia.
Qed.

Lemma Gcd_fuel_ordered (k : nat) (m n : Z) (fuel : nat) :
  0 ≤ n ≤ m → n < 2 ^ Z.of_nat k → (2 * k + 2 ≤ fuel)%nat →
  Gcd_fuel fuel m n = Ret (Z.gcd m n).
Proof.
  revert m n fuel. induction k as [|k IH]; intros m n fuel Hmn Hk Hf.
  - destruct fuel as [|fuel]; [lia|]. simpl in *.
    replace n with 0 in * by lia.
    destruct (Z.ltb_spec m 0); [lia|]. simpl. rewrite Z.gcd_0_r. f_equal. lia.
  - destruct fuel as [|[|fuel]]; [lia..|].
    rewrite Nat2Z.inj_succ, Z.pow_succ_r in Hk by lia.
    simpl. destruct (Z.ltb_spec m n); [lia|].
    destruct (Z.eqb_spec n 0) as [->|]; [rewrite Z.gcd_0_r; f_equal; lia|].
    unfold CHECK. rewrite (proj2 (Z.ltb_lt 0 m)), (proj2 (Z.ltb_lt 0 n)) by lia. simpl.
    pose proof (Z.mod_pos_bound m n). rewrite <- (Gcd_step m n) by lia.
    rewrite Z.rem_mod_nonneg by lia. destruct (Z.ltb_spec n (m mod n)); [lia|].
    destruct (Z.eqb_spec (m mod n) 0) as [->|]; [rewrite Z.gcd_0_r; f_equal; lia|].
    rewrite (proj2 (Z.ltb_lt 0 (m mod n))) by lia. rewrite (proj2 (Z.ltb_lt 0 n)) by lia. simpl.
    rewrite <- (Gcd_step n (m mod n)) by lia.
    rewrite Z.rem_mod_nonneg by lia.
    pose proof (Z.mod_pos_bound n (m mod n)).
    destruct (Gcd_halves m n); [lia| |lia].
    apply IH; lia.
Qed.

Lemma Gcd_fuel_swap (fuel : nat) (m n : Z) : Gcd_fuel fuel m n = Gcd_fuel fuel n m.
Proof.
  destruct fuel as [|fuel]; [done|]. simpl.
  destruct (Z.ltb_spec m n), (Z.ltb_spec n m); try lia; [done..|].
  replace n with m by lia. done.
Qed.

Lemma Gcd_fuel_neg (fuel : nat) (m n : Z) : Z.min m n < 0 → Gcd_fuel fuel m n = Crash.
Proof.
  intros. destruct fuel as [|fuel]; [done|]. simpl.
  destruct (Z.ltb_spec m n); simpl.
  - destruct (Z.eqb_spec m 0); [lia|]. unfold CHECK.
    destruct (0 <? n); simpl; [|done]. by rewrite (proj2 (Z.ltb_ge 0 m)) by lia.
  - destruct (Z.eqb_spec n 0); [lia|]. unfold CHECK.
    destruct (0 <? m); simpl; [|done]. by rewrite (proj2 (Z.ltb_ge 0 n)) by lia.
Qed.

Lemma Gcd_nonneg (m n : Z) : 0 ≤ m → 0 ≤ n → Gcd m n = Ret (Z.gcd m n).
Proof.
  intros. unfold Gcd.
  assert (∀ a b, 0 ≤ b ≤ a →
    Gcd_fuel (2 * Z.to_nat (Z.log2 (Z.min m n)) + 4) a b = Ret (Z.gcd a b)
    ∨ b ≠ Z.min m n) as H1.
  { intros a b Hab. destruct (Z.eq_dec b (Z.min m n)) as [->|]; [left|by right].
    apply Gcd_fuel_ordered with (k := S (Z.to_nat (Z.log2 (Z.min m n)))); [lia| |lia].
    rewrite Nat2Z.inj_succ, Z2Nat.id by apply Z.log2_nonneg.
    destruct (Z.eq_dec (Z.min m n) 0) as [->|]; [done|].
    apply Z.log2_spec. lia. }
  destruct (Z.le_ge_cases n m).
  - destruct (H1 m n); [lia|done|lia].
  - rewrite Gcd_fuel_swap, Z.gcd_comm. destruct (H1 n m); [lia|done|lia].
Qed.

(** [Gcd] is total: on every pair of arguments it either returns the
    greatest common divisor, when neither is negative, or aborts on a [CHECK],
    when one is. *)
Theorem Gcd_spec (m n : Z) :
  Gcd m n = if Z.min m n <? 0 then Crash else Ret (Z.gcd m n).
Proof.
  destruct (Z.ltb_spec (Z.min m n) 0); [by apply Gcd_fuel_neg|].
  apply Gcd_nonneg; lia.
Qed.

Theorem Lcm_spec (m n : Z) : 0 < m → 0 < n → Lcm m n = Ret (Z.lcm m n).
Proof.
  intros. unfold Lcm. rewrite Gcd_nonneg by lia. simpl.
  assert (0 < Z.gcd m n).
  { pose proof (Z.gcd_nonneg m n). destruct (Z.eq_dec (Z.gcd m n) 0) as [E|]; [|lia].
    apply Z.gcd_eq_0_l in E. lia. }
  destruct (Z.eqb_spec (Z.gcd m n) 0); [lia|]. f_equal.
  rewrite Z.quot_div_nonneg by nia. unfold Z.lcm.
  destruct (Z.gcd_divide_r m n) as [k Hk]. rewrite Hk at 1.
  rewrite Z.mul_assoc, Z.div_mul by lia. rewrite Hk at 1.
  rewrite Z.div_mul by lia. assert (0 ≤ k) by nia. rewrite Z.abs_eq; lia.
Qed.

(** ** Proofs: [RoundUp] *)

Lemma RoundUp_small (n val : Z) :
  0 ≤ n → 0 < val → n + val - 1 < u64_modulus - 1 →
  RoundUp n val = (n + val - 1) / val * val.
Proof.
  intros. unfold RoundUp. rewrite (u64_small (n + val)) by (unfold is_u64; lia).
  rewrite (u64_small (n + val - 1)) by (unfold is_u64; lia).
  apply u64_small. unfold is_u64.
  pose proof (Z.div_mod (n + val - 1) val). pose proof (Z.mod_pos_bound (n + val - 1) val).
  pose proof (Z.div_pos (n + val - 1) val). nia.
Qed.

(** [RoundUp] gives the least multiple of [val] that is at least [n], as long
    as [n + val] does not wrap. *)
Lemma RoundUp_least (n val : Z) :
  0 ≤ n → 0 < val → n + val - 1 < u64_modulus - 1 →
  (val | RoundUp n val) ∧ n ≤ RoundUp n val < n + val ∧
  ∀ k, (val | k) → n ≤ k → RoundUp n val ≤ k.
Proof.
  intros Hn Hv Hb. rewrite RoundUp_small by done.
  pose proof (Z.div_mod (n + val - 1) val). pose proof (Z.mod_pos_bound (n + val - 1) val).
  split; [exists ((n + val - 1) / val); lia|]. split; [lia|].
  intros k [q ->] Hle.
  assert ((n + val - 1) / val < q + 1) by (apply Z.div_lt_upper_bound; lia). nia.
Qed.

(** ** Proofs: [Erase] *)

Section EraseProofs.
Context {A : Type} (NeedErase : A → bool).

Lemma swap_at_ends (pre mid post : list A) (x y : A) :
  swap_at (pre ++ x :: (mid ++ [y]) ++ post) (length pre) (length pre + S (length mid))
  = pre ++ y :: mid ++ x :: post.
Proof.
  unfold swap_at.
  rewrite list_lookup_middle by done.
  replace (pre ++ x :: (mid ++ [y]) ++ post) with ((pre ++ x :: mid) ++ y :: post)
    by (by simplify_list_eq).
  rewrite (list_lookup_middle (pre ++ x :: mid)) by (rewrite length_app; simpl; lia).
  rewrite insert_app_r_alt by (rewrite length_app; simpl; lia).
  rewrite length_app. simpl. replace (_ - _)%nat with 0%nat by lia. simpl.
  rewrite <- app_assoc. rewrite insert_app_r_alt by lia.
  rewrite Nat.sub_diag. by simplify_list_eq.
Qed.

Definition erased_state (c : list A) (k : nat) (c0 : list A) : Prop :=
  c ≡ₚ c0 ∧ (k ≤ length c)%nat ∧
  Forall (λ x, NeedErase x = false) (take k c) ∧ Forall (λ x, NeedErase x = true) (drop k c).

Lemma erased_state_split (pre post c0 : list A) (k : nat) :
  pre ++ post ≡ₚ c0 → k = length pre →
  Forall (λ x, NeedErase x = false) pre → Forall (λ x, NeedErase x = true) post →
  erased_state (pre ++ post) k c0.
Proof.
  intros ? -> ??. split; [done|]. rewrite length_app, take_app_length, drop_app_length.
  split; [lia|done].
Qed.

Lemma Erase_loop_correct (fuel : nat) : ∀ pre mid post c0,
  (length mid ≤ fuel)%nat → pre ++ mid ++ post ≡ₚ c0 →
  Forall (λ x, NeedErase x = false) pre → Forall (λ x, NeedErase x = true) post →
  ∃ c' k, Erase_loop NeedErase fuel (pre ++ mid ++ post) (length pre) (length pre + length mid)
          = (c', k, k) ∧ erased_state c' k c0.
Proof.
  induction fuel as [|fuel IH]; intros pre mid post c0 Hf Hp Hpre Hpost.
  { destruct mid; [|simpl in Hf; lia]. simpl. rewrite Nat.add_0_r.
    eauto 10 using erased_state_split. }
  simpl. destruct mid as [|x mid].
  { simpl. rewrite Nat.add_0_r, Nat.eqb_refl. eauto 10 using erased_state_split. }
  rewrite (proj2 (Nat.eqb_neq _ _)) by (simpl; lia).
  rewrite (list_lookup_middle pre (mid ++ post) x) by done.
  destruct (NeedErase x) eqn:Hx.
  - destruct mid as [|y mid _] using rev_ind; simpl.
    + replace (length pre + 1 - 1)%nat with (length pre) by lia. rewrite Nat.eqb_refl.
      eexists _, _. split; [done|].
      apply erased_state_split; [done..|]. by constructor.
    + rewrite length_app. simpl.
      replace (length pre + S (length mid + 1) - 1)%nat
        with (length pre + S (length mid))%nat by lia.
      rewrite (proj2 (Nat.eqb_neq _ _)) by lia.
      rewrite (swap_at_ends pre mid post x y).
      destruct (IH pre (y :: mid) (x :: post) c0) as (c' & k & E & ?); [..|by eauto].
      * simpl in *. rewrite length_app in Hf. simpl in Hf. lia.
      * rewrite <- Hp. solve_Permutation.
      * done.
      * by constructor.
  - destruct (IH (pre ++ [x]) mid post c0) as (c' & k & E & ?); [..|exists c', k; split; [|done]].
    + simpl in Hf. lia.
    + rewrite <- app_assoc. done.
    + apply Forall_app. by repeat constructor.
    + done.
    + rewrite <- E. rewrite <- app_assoc, length_app. simpl. f_equal. lia.
Qed.

Lemma erased_state_filter (c : list A) (k : nat) (c0 : list A) :
  erased_state c k c0 →
  take k c ≡ₚ filter (λ x, NeedErase x = false) c0 ∧
  drop k c ≡ₚ filter (λ x, NeedErase x = true) c0.
Proof.
  intros (Hp & _ & Hl & Hr).
  rewrite <- Hp. rewrite <- (take_drop k c) at 2 4. rewrite !filter_app.
  rewrite (filter_all _ (take k c)), (filter_none _ (drop k c)), app_nil_r by
    (done || (eapply Forall_impl; [done|]; simpl; congruence)).
  rewrite (filter_none _ (take k c)), (filter_all _ (drop k c)) by
    (done || (eapply Forall_impl; [done|]; simpl; congruence)).
  done.
Qed.

(** [Erase] keeps exactly the elements that need not be erased and hands
    exactly the others to the handler, each with its multiplicity; the loop
    ends within [container.size()] rounds. *)
Theorem Erase_partition (c : list A) :
  (Erase NeedErase c).1 ≡ₚ filter (λ x, NeedErase x = false) c ∧
  (Erase NeedErase c).2 ≡ₚ filter (λ x, NeedErase x = true) c.
Proof.
  unfold Erase.
  destruct (Erase_loop_correct (length c) [] c [] c) as (c' & k & E & Hs);
    [lia|by rewrite app_nil_r|constructor..|].
  simpl in E. rewrite app_nil_r in E. rewrite E. simpl. by apply erased_state_filter.
Qed.
End EraseProofs.

(** ** Proofs: dimension wrapping *)

(** [maybe_wrap_dim] returns the dimension modulo the rank exactly on
    [-rank, rank) and an index error elsewhere. *)
Lemma maybe_wrap_dim_spec (d n : Z) (w : bool) :
  0 < n →
  maybe_wrap_dim d n w =
  if bool_decide (- n ≤ d < n) then Ret (d mod n) else Fail IndexError.
Proof.
  intros. unfold maybe_wrap_dim. rewrite (proj2 (Z.leb_gt n 0)) by lia. simpl.
  case_bool_decide.
  - destruct (Z.ltb_spec d (- n)), (Z.ltb_spec (n - 1) d); try lia. simpl. f_equal.
    destruct (Z.ltb_spec d 0); [|symmetry; apply Z.mod_small; lia].
    apply Z.mod_unique with (q := -1); lia.
  - by destruct (Z.ltb_spec d (- n)), (Z.ltb_spec (n - 1) d); try lia.
Qed.

(** The bitset whose bits are the members of [S]. *)
Definition bitset_of (S : list Z) : list bool :=
  map (λ i, bool_decide (Z.of_nat i ∈ S)) (seq 0 dim_bitset_size).

Lemma bitset_of_lookup (S : list Z) (i : nat) :
  (i < dim_bitset_size)%nat → bitset_of S !! i = Some (bool_decide (Z.of_nat i ∈ S)).
Proof.
  intros. unfold bitset_of. rewrite list_lookup_fmap, lookup_seq_lt by done. done.
Qed.

Lemma bitset_of_insert (S : list Z) (k : Z) :
  0 ≤ k < Z.of_nat dim_bitset_size →
  <[Z.to_nat k := true]> (bitset_of S) = bitset_of (k :: S).
Proof.
  intros Hk. apply list_eq_same_length with dim_bitset_size;
    [unfold bitset_of; by rewrite length_map, length_seq
    |unfold bitset_of; by rewrite length_insert, length_map, length_seq|].
  intros i x y Hi Hx Hy. rewrite bitset_of_lookup in Hy by done. injection Hy as <-.
  destruct (decide (i = Z.to_nat k)) as [->|Hne].
  - rewrite list_lookup_insert_eq in Hx by
      (unfold bitset_of; rewrite length_map, length_seq; lia).
    injection Hx as <-. symmetry. apply bool_decide_eq_true. rewrite Z2Nat.id by lia. left.
  - rewrite list_lookup_insert_ne, bitset_of_lookup in Hx by done. injection Hx as <-.
    apply bool_decide_ext. rewrite elem_of_cons. split; [by right|].
    intros [?|?]; [lia|done].
Qed.

Lemma dim_list_fold (n : Z) (dims S : list Z) (seen : list bool) :
  0 < n ≤ Z.of_nat dim_bitset_size →
  ofold (λ seen d,
           let* dim := maybe_wrap_dim d n true in
           let* b := at_ seen dim in
           let* _ := CHECK_OR_RETURN (negb b) RuntimeError in
           Ret (<[Z.to_nat dim := true]> seen)) dims (bitset_of S) = Ret seen ↔
  Forall (λ d, - n ≤ d < n) dims ∧ NoDup (map (λ d, d mod n) dims) ∧
  (∀ d, d ∈ dims → d mod n ∉ S) ∧ seen = bitset_of (reverse (map (λ d, d mod n) dims) ++ S).
Proof.
  intros Hn. revert S. induction dims as [|d dims IH]; intros S; simpl.
  { split; [intros [= <-]|naive_solver].
    split_and!; [constructor|constructor|intros d Hd; inversion Hd|done]. }
  pose proof (Z.mod_pos_bound d n).
  rewrite maybe_wrap_dim_spec by lia. case_bool_decide; simpl;
    [|split; [done|intros (Hf%Forall_cons&_); naive_solver]].
  unfold at_. rewrite (proj2 (Z.ltb_ge (d mod n) 0)) by lia.
  rewrite bitset_of_lookup by lia. simpl. rewrite Z2Nat.id by lia.
  case_bool_decide as Hin; simpl.
  - split; [done|]. intros (_&_&Hd&_). by destruct (Hd d); [left|].
  - rewrite bitset_of_insert by lia. rewrite IH, Forall_cons, NoDup_cons, reverse_cons.
    setoid_rewrite elem_of_cons. rewrite <- app_assoc. simpl. split.
    + intros (?&?&Hnot&->). split_and!; try (done || lia); [|naive_solver].
      intros (d'&Heq&Hd')%list_elem_of_fmap. destruct (Hnot d' Hd'). auto.
    + intros ([_ ?]&[Hd ?]&Hnot&->). split_and!; try done.
      intros d' Hd' [Heq|?]; [|naive_solver].
      apply Hd. apply list_elem_of_fmap. by exists d'.
Qed.

(** [dim_list_to_bitset] succeeds exactly when every dimension is in range and
    no two of them name the same axis, and then sets exactly the named bits. *)
Theorem dim_list_to_bitset_spec (dims : list Z) (n : Z) (seen : list bool) :
  0 < n →
  dim_list_to_bitset dims n = Ret seen ↔
  n ≤ Z.of_nat dim_bitset_size ∧
  Forall (λ d, - n ≤ d < n) dims ∧ NoDup (map (λ d, d mod n) dims) ∧
  seen = bitset_of (map (λ d, d mod n) dims).
Proof.
  intros Hn. unfold dim_list_to_bitset. unfold CHECK_OR_RETURN at 1.
  destruct (Z.leb_spec n (Z.of_nat dim_bitset_size)); cbn [obind]; [|split; [done|lia]].
  change (replicate dim_bitset_size false) with (bitset_of []).
  rewrite dim_list_fold by lia.
  assert (bitset_of (reverse (map (λ d, d mod n) dims) ++ []) =
          bitset_of (map (λ d, d mod n) dims)) as ->.
  { unfold bitset_of. apply map_ext. intros i. apply bool_decide_ext.
    rewrite app_nil_r. apply elem_of_reverse. }
  set_solver.
Qed.
