(* ===== verification/Splitter.v ===== *)
(** * Ranges and balanced splitting

    Models [oneflow/core/common/range.h], [range.cpp] ([Range],
    [ForEachSubRange], [FindIntersectant]) and
    [oneflow/core/common/balanced_splitter.cpp] ([BalancedSplitter]), which
    decides how every dimension of a tensor is cut over the devices. *)
From S2P Require Import Prelude.

(** ** Half-open ranges of [int64_t] *)

Record Range := mkRange { begin : Z; end_ : Z }.
Record RangeProto := mkRangeProto { proto_begin : Z; proto_end : Z }.

#[export] Instance Range_eq_dec : EqDecision Range.
Proof. solve_decision. Defined.

Definition Range_of_proto (p : RangeProto) : Range := mkRange (proto_begin p) (proto_end p).
Definition Range_ToProto (r : Range) : RangeProto := mkRangeProto (begin r) (end_ r).
Definition Range_eqb (lhs rhs : Range) : bool :=
  (begin lhs =? begin rhs) && (end_ lhs =? end_ rhs).
Definition Range_size (r : Range) : Z := end_ r - begin r.

(** The points of a range. *)
Definition in_range (v : Z) (r : Range) : Prop := begin r ≤ v < end_ r.

Definition FindIntersectant (lhs rhs : Range) : Range :=
  if (begin rhs <? end_ lhs) && (begin lhs <? end_ rhs) then
    let left := if begin rhs <? begin lhs then begin lhs else begin rhs in
    let right := if end_ lhs <? end_ rhs then end_ lhs else end_ rhs in
    mkRange left right
  else mkRange 0 0.

(** [ForEachSubRange]: the callback threads a state of its own.  The loop makes
    at most [size()] rounds when the step is positive; with a negative step the
    C++ loop counts down until signed overflow, which is undefined. *)
Section ForEachSubRange.
Context {S : Type} (DoEachRange : Range → S → outcome S).

Fixpoint sub_range_loop (fuel : nat) (start end_ sub : Z) (s : S) : outcome (Z * S) :=
  if start <? end_ then
    match fuel with
    | O => Crash
    | Datatypes.S fuel =>
        let* s' := DoEachRange (mkRange start (start + sub)) s in
        sub_range_loop fuel (start + sub) end_ sub s'
    end
  else Ret (start, s).

Definition ForEachSubRange (r : Range) (sub_range_size : Z) (s : S) : outcome S :=
  if sub_range_size =? 0 then Crash else
  let* _ := CHECK_OR_RETURN (Z.rem (Range_size r) sub_range_size =? 0) CheckFailedError in
  let* res := sub_range_loop (Z.to_nat (Range_size r)) (begin r) (end_ r) sub_range_size s in
  let* _ := CHECK_OR_RETURN (fst res =? end_ r) CheckFailedError in
  Ret (snd res).
End ForEachSubRange.

(** ** The balanced splitter *)

Record BalancedSplitter := mkSplitter {
  base_part_size_ : Z;
  base_begin_idx_ : Z;
  split_num_ : Z
}.

Definition At (s : BalancedSplitter) (idx : Z) : outcome Range :=
  let* _ := CHECK (idx <? split_num_ s) in
  if idx <? base_begin_idx_ s then
    let left_bound := (base_part_size_ s + 1) * idx in
    Ret (mkRange left_bound (left_bound + (base_part_size_ s + 1)))
  else
    let left_bound := (base_part_size_ s + 1) * base_begin_idx_ s
                      + base_part_size_ s * (idx - base_begin_idx_ s) in
    Ret (mkRange left_bound (left_bound + base_part_size_ s)).

Definition At2 (s : BalancedSplitter) (first_idx last_idx : Z) : outcome Range :=
  let* _ := CHECK (first_idx <=? last_idx) in
  let* _ := CHECK (last_idx <? split_num_ s) in
  let* first_range := At s first_idx in
  let* last_range := At s last_idx in
  Ret (mkRange (begin first_range) (end_ last_range)).

Definition total_num (s : BalancedSplitter) : outcome Z :=
  let* r := At s (split_num_ s - 1) in Ret (end_ r).

Definition new_BalancedSplitter (total split_num : Z) : outcome BalancedSplitter :=
  if split_num =? 0 then Crash else
  let s := mkSplitter (Z.quot total split_num) (Z.rem total split_num) split_num in
  let* t := total_num s in
  let* _ := CHECK (t =? total) in
  Ret s.

Definition GetRangeIndexForVal (s : BalancedSplitter) (value : Z) : outcome Z :=
  let* _ := CHECK (0 <=? value) in
  let* t := total_num s in
  let* _ := CHECK (value <? t) in
  let base_size := (base_part_size_ s + 1) * base_begin_idx_ s in
  if value <? base_size then
    if base_part_size_ s + 1 =? 0 then Crash
    else Ret (Z.quot value (base_part_size_ s + 1))
  else
    if base_part_size_ s =? 0 then Crash
    else Ret (base_begin_idx_ s + Z.quot (value - base_size) (base_part_size_ s)).

(** ** Proofs: ranges *)

Lemma Range_eqb_eq (a b : Range) : Range_eqb a b = true ↔ a = b.
Proof.
  unfold Range_eqb. rewrite andb_true_iff, !Z.eqb_eq. destruct a, b; simpl. naive_solver.
Qed.

(** The intersection has exactly the common points. *)
Lemma FindIntersectant_points (a b : Range) (v : Z) :
  in_range v (FindIntersectant a b) ↔ in_range v a ∧ in_range v b.
Proof.
  unfold FindIntersectant, in_range.
  destruct (Z.ltb_spec (begin b) (end_ a)), (Z.ltb_spec (begin a) (end_ b)); simpl;
    destruct (Z.ltb_spec (begin b) (begin a)), (Z.ltb_spec (end_ a) (end_ b)); lia.
Qed.

(** It equals [Range(0, 0)], the value the callers test for, exactly when two
    non-empty ranges have no common point. *)
Lemma FindIntersectant_zero (a b : Range) :
  begin a < end_ a → begin b < end_ b →
  FindIntersectant a b = mkRange 0 0 ↔ ∀ v, ¬ (in_range v a ∧ in_range v b).
Proof.
  intros Ha Hb. split.
  - intros E v Hv. apply FindIntersectant_points in Hv. rewrite E in Hv.
    unfold in_range in Hv. simpl in Hv. lia.
  - intros Hno. specialize (Hno (Z.max (begin a) (begin b))). unfold in_range in Hno.
    unfold FindIntersectant.
    destruct (Z.ltb_spec (begin b) (end_ a)), (Z.ltb_spec (begin a) (end_ b)); simpl; try done.
    lia.
Qed.

Section ForEachSubRangeProofs.
Context {S : Type} (DoEachRange : Range → S → outcome S).

Definition sub_ranges (b sub : Z) (k : nat) : list Range :=
  map (λ i, mkRange (b + Z.of_nat i * sub) (b + Z.of_nat i * sub + sub)) (seq 0 k).

Lemma sub_ranges_S (b sub : Z) (k : nat) :
  sub_ranges b sub (Datatypes.S k) = mkRange b (b + sub) :: sub_ranges (b + sub) sub k.
Proof.
  unfold sub_ranges. simpl. f_equal; [f_equal; lia|].
  rewrite <- seq_shift, map_map. apply map_ext. intros. f_equal; lia.
Qed.

Lemma sub_range_loop_fold (sub : Z) (k fuel : nat) (b : Z) (s : S) :
  0 < sub → (k ≤ fuel)%nat →
  sub_range_loop DoEachRange fuel b (b + Z.of_nat k * sub) sub s =
  (let* s' := ofold (λ s r, DoEachRange r s) (sub_ranges b sub k) s in
   Ret (b + Z.of_nat k * sub, s')).
Proof.
  intros Hs. revert b fuel s. induction k as [|k IH]; intros b fuel s Hf.
  - destruct fuel; simpl; rewrite Z.add_0_r, Z.ltb_irrefl; done.
  - destruct fuel as [|fuel]; [lia|]. rewrite sub_ranges_S. cbn [sub_range_loop ofold].
    rewrite (proj2 (Z.ltb_lt _ _)) by nia.
    destruct (DoEachRange (mkRange b (b + sub)) s) as [s'| |]; simpl; [|done..].
    replace (b + Z.of_nat (Datatypes.S k) * sub) with (b + sub + Z.of_nat k * sub) by lia.
    apply IH. lia.
Qed.

(** [ForEachSubRange] calls the callback on the consecutive chunks of the
    range, in order, each exactly once, and propagates its first error; it
    returns a check error, without calling it, when the chunk size does not
    divide the range. *)
Theorem ForEachSubRange_chunks (r : Range) (sub : Z) (s : S) :
  0 < sub → begin r ≤ end_ r →
  ForEachSubRange DoEachRange r sub s =
  if Range_size r mod sub =? 0
  then ofold (λ s c, DoEachRange c s) (sub_ranges (begin r) sub (Z.to_nat (Range_size r / sub))) s
  else Fail CheckFailedError.
Proof.
  intros Hs Hr. unfold ForEachSubRange. destruct (Z.eqb_spec sub 0); [lia|].
  unfold Range_size in *. rewrite Z.rem_mod_nonneg by lia.
  destruct (Z.eqb_spec ((end_ r - begin r) mod sub) 0) as [E|]; simpl; [|done].
  pose proof (Z.div_mod (end_ r - begin r) sub) as D.
  pose proof (Z.div_pos (end_ r - begin r) sub).
  pose proof (sub_range_loop_fold sub (Z.to_nat ((end_ r - begin r) / sub))
                (Z.to_nat (end_ r - begin r)) (begin r) s Hs) as L.
  replace (begin r + Z.of_nat (Z.to_nat ((end_ r - begin r) / sub)) * sub)
    with (end_ r) in L by lia.
  rewrite L by (apply Z2Nat.inj_le; nia).
  destruct (ofold _ _ _) as [s'| |]; simpl; [|done..]. by rewrite Z.eqb_refl.
Qed.
End ForEachSubRangeProofs.

(** ** Proofs: the splitter *)

(** The field invariant the constructor establishes. *)
Definition splitter_wf (s : BalancedSplitter) : Prop :=
  0 ≤ base_part_size_ s ∧ 0 ≤ base_begin_idx_ s < split_num_ s.

Definition splitter_total (s : BalancedSplitter) : Z :=
  base_part_size_ s * split_num_ s + base_begin_idx_ s.

(** Where chunk [idx] starts. *)
Definition bound (s : BalancedSplitter) (idx : Z) : Z :=
  base_part_size_ s * idx + Z.min idx (base_begin_idx_ s).

Lemma At_bounds (s : BalancedSplitter) (idx : Z) :
  At s idx = if idx <? split_num_ s then Ret (mkRange (bound s idx) (bound s (idx + 1))) else Crash.
Proof.
  unfold At, CHECK, bound. destruct (Z.ltb_spec idx (split_num_ s)); simpl; [|done].
  destruct (Z.ltb_spec idx (base_begin_idx_ s)); f_equal; f_equal; lia.
Qed.

Lemma total_num_wf (s : BalancedSplitter) :
  splitter_wf s → total_num s = Ret (splitter_total s).
Proof.
  intros [? ?]. unfold total_num. rewrite At_bounds, (proj2 (Z.ltb_lt _ _)) by lia.
  simpl. unfold bound, splitter_total. f_equal. lia.
Qed.

(** Construction succeeds for every non-negative size and positive part
    count, and the invariant and the total hold. *)
Lemma new_BalancedSplitter_wf (total n : Z) :
  0 ≤ total → 0 < n →
  ∃ s, new_BalancedSplitter total n = Ret s ∧ splitter_wf s ∧
       split_num_ s = n ∧ splitter_total s = total.
Proof.
  intros. exists (mkSplitter (Z.quot total n) (Z.rem total n) n).
  assert (splitter_wf (mkSplitter (Z.quot total n) (Z.rem total n) n)) as Hwf.
  { split; simpl; [apply Z.quot_pos; lia|apply Z.rem_bound_pos; lia]. }
  assert (splitter_total (mkSplitter (Z.quot total n) (Z.rem total n) n) = total) as Ht.
  { unfold splitter_total; simpl. pose proof (Z.quot_rem' total n). lia. }
  unfold new_BalancedSplitter. destruct (Z.eqb_spec n 0); [lia|].
  rewrite total_num_wf, Ht by done. simpl. by rewrite Z.eqb_refl.
Qed.

Lemma bound_mono (s : BalancedSplitter) (i j : Z) :
  0 ≤ base_part_size_ s → i ≤ j → bound s i ≤ bound s j.
Proof. unfold bound. nia. Qed.

Lemma GetRangeIndexForVal_in (s : BalancedSplitter) (v : Z) :
  splitter_wf s → 0 ≤ v < splitter_total s →
  ∃ i, GetRangeIndexForVal s v = Ret i ∧ 0 ≤ i < split_num_ s ∧ bound s i ≤ v < bound s (i + 1).
Proof.
  intros Hwf Hv. destruct (id Hwf) as [Hp Hb]. unfold GetRangeIndexForVal, CHECK.
  rewrite (proj2 (Z.leb_le 0 v)), total_num_wf by (done || lia). cbn [obind].
  rewrite (proj2 (Z.ltb_lt v _)) by lia. cbn [obind]. unfold splitter_total, bound in *.
  destruct (Z.ltb_spec v ((base_part_size_ s + 1) * base_begin_idx_ s)) as [Hlt|Hge].
  - destruct (Z.eqb_spec (base_part_size_ s + 1) 0); [lia|].
    rewrite Z.quot_div_nonneg by lia.
    pose proof (Z.div_mod v (base_part_size_ s + 1)).
    pose proof (Z.mod_pos_bound v (base_part_size_ s + 1)).
    pose proof (Z.div_pos v (base_part_size_ s + 1)).
    assert (v / (base_part_size_ s + 1) < base_begin_idx_ s)
      by (apply Z.div_lt_upper_bound; lia).
    eexists. split; [done|]. rewrite !Z.min_l by lia. nia.
  - destruct (Z.eqb_spec (base_part_size_ s) 0) as [E|]; [rewrite E in *; lia|].
    set (w := v - (base_part_size_ s + 1) * base_begin_idx_ s) in *.
    rewrite Z.quot_div_nonneg by lia.
    pose proof (Z.div_mod w (base_part_size_ s)).
    pose proof (Z.mod_pos_bound w (base_part_size_ s)).
    pose proof (Z.div_pos w (base_part_size_ s)).
    assert (w / base_part_size_ s < split_num_ s - base_begin_idx_ s)
      by (apply Z.div_lt_upper_bound; lia).
    eexists. split; [done|]. rewrite !Z.min_r by lia. nia.
Qed.

(** The splitter cuts [0, total) into exactly [split_num] consecutive
    chunks: construction succeeds, chunk 0 starts at 0, each chunk starts where
    the previous one ends, the last one ends at [total], and every value is
    looked up to the one chunk that contains it. *)
Theorem splitter_partition (total n : Z) :
  0 ≤ total → 0 < n →
  ∃ s, new_BalancedSplitter total n = Ret s ∧ total_num s = Ret total ∧
  (∃ b, b 0 = 0 ∧ b n = total ∧ ∀ i, 0 ≤ i < n → At s i = Ret (mkRange (b i) (b (i + 1)))) ∧
  ∀ v, 0 ≤ v < total →
    ∃ i r, GetRangeIndexForVal s v = Ret i ∧ 0 ≤ i < n ∧ At s i = Ret r ∧ in_range v r ∧
    ∀ j r', 0 ≤ j < n → At s j = Ret r' → in_range v r' → j = i.
Proof.
  intros H0 Hn. destruct (new_BalancedSplitter_wf total n H0 Hn) as (s & Hs & Hwf & <- & <-).
  exists s. split; [done|]. split; [by apply total_num_wf|]. destruct (id Hwf) as [Hp Hb]. split.
  - exists (bound s). split; [unfold bound; lia|]. split; [unfold bound, splitter_total; lia|].
    intros i Hi. by rewrite At_bounds, (proj2 (Z.ltb_lt _ _)) by lia.
  - intros v Hv. destruct (GetRangeIndexForVal_in s v Hwf Hv) as (i & Hg & Hi & Hin).
    exists i, (mkRange (bound s i) (bound s (i + 1))).
    rewrite At_bounds, (proj2 (Z.ltb_lt _ _)) by lia. do 4 (split; [done|]).
    intros j r' Hj. rewrite At_bounds, (proj2 (Z.ltb_lt _ _)) by lia.
    intros [= <-]. unfold in_range; simpl. intros Hin'.
    destruct (Z.lt_trichotomy i j) as [|[|]]; [|done|].
    + pose proof (bound_mono s (i + 1) j). lia.
    + pose proof (bound_mono s (j + 1) i). lia.
Qed.

(** Balance and width: any two chunks differ in size by at most one, earlier
    chunks are never smaller, and every bound computed for a total that fits
    [int64_t] fits too, so no signed overflow occurs. *)
Theorem splitter_balanced (total n i j : Z) (s : BalancedSplitter) (ri rj : Range) :
  0 ≤ total → 0 < n → total < 2 ^ 63 → new_BalancedSplitter total n = Ret s →
  0 ≤ i ≤ j → j < n → At s i = Ret ri → At s j = Ret rj →
  Range_size rj ≤ Range_size ri ≤ Range_size rj + 1 ∧
  is_i64 (begin ri) ∧ is_i64 (end_ ri) ∧
  is_i64 ((base_part_size_ s + 1) * base_begin_idx_ s).
Proof.
  intros H0 Hn H63 Hs Hij Hj Hi Hrj.
  destruct (new_BalancedSplitter_wf total n H0 Hn) as (s' & Hs' & [Hp Hb] & Hnum & Htot).
  rewrite Hs in Hs'. injection Hs' as <-. rewrite At_bounds in Hi, Hrj. rewrite Hnum in *.
  rewrite (proj2 (Z.ltb_lt _ _)) in Hi by lia. rewrite (proj2 (Z.ltb_lt _ _)) in Hrj by lia.
  injection Hi as <-. injection Hrj as <-. unfold Range_size, is_i64; simpl.
  unfold splitter_total in Htot. rewrite Hnum in Htot.
  pose proof (bound_mono s 0 i Hp). pose proof (bound_mono s i (i + 1) Hp).
  pose proof (bound_mono s (i + 1) n Hp).
  assert (bound s 0 = 0 ∧ bound s n = total) as [? ?] by (unfold bound; lia).
  split; [unfold bound; lia|]. split; [lia|]. split; [lia|]. nia.
Qed.

Lemma splitter_partition_witness :
  ∃ s, new_BalancedSplitter 20 6 = Ret s ∧ total_num s = Ret 20.
Proof.
  destruct (splitter_partition 20 6 ltac:(lia) ltac:(lia)) as (s & H1 & H2 & _). eauto.
Defined.

Lemma splitter_balanced_witness :
  Range_size (mkRange 8 11) ≤ Range_size (mkRange 4 8) ≤ Range_size (mkRange 8 11) + 1.
Proof.
  refine (proj1 (splitter_balanced 20 6 1 2 (mkSplitter 3 2 6) (mkRange 4 8) (mkRange 8 11)
    _ _ _ _ _ _ _ _)); try reflexivity; lia.
Defined.
