(* ===== verification/Shape.v ===== *)
(** * Shapes and strides

    Models [oneflow/core/common/shape.h], [shape.cpp] and
    [oneflow/core/common/stride.cpp].  A [Shape] is its dimension vector and
    the [is_initialized_] flag that [NumAxes] checks; a [ShapeView] behaves as
    an initialised shape over the same dimensions, so the methods of
    [ConstShapeMixIn] are written once, for [Shape]. *)
From S2P Require Import Prelude.

Record Shape := mkShape { dim_vec : list Z; is_initialized : bool }.

#[export] Instance Shape_eq_dec : EqDecision Shape.
Proof. solve_decision. Defined.

(** [Shape(DimVector)], [Shape(ShapeProto)] and [Shape(ShapeView)]. *)
Definition Shape_of (dims : list Z) : Shape := mkShape dims true.

Definition NumAxes (s : Shape) : outcome Z :=
  let* _ := CHECK (is_initialized s) in Ret (Z.of_nat (length (dim_vec s))).

Definition elem_cnt (s : Shape) : Z := fold_left Z.mul (dim_vec s) 1.

Definition shape_At (s : Shape) (index : Z) : outcome Z :=
  let* _ := CHECK (0 <=? index) in
  let* n := NumAxes s in
  let* _ := CHECK (index <? n) in
  at_ (dim_vec s) index.

(** The indices [b, b+1, ..., e-1] of a [for] loop. *)
Definition range_list (b e : Z) : list Z :=
  map (λ i, b + Z.of_nat i) (seq 0 (Z.to_nat (e - b))).

Definition Count (s : Shape) (begin_axis end_axis : Z) : outcome Z :=
  let* n := NumAxes s in
  let* _ := CHECK ((0 <=? begin_axis) && (begin_axis <=? end_axis) && (end_axis <=? n)) in
  ofold (λ cnt i, let* d := shape_At s i in Ret (cnt * d)) (range_list begin_axis end_axis) 1.

Definition Count_from (s : Shape) (begin_axis : Z) : outcome Z :=
  let* n := NumAxes s in Count s begin_axis n.

(** A [for] loop over axes that returns [false] at the first difference. *)
Fixpoint axes_agree (axes : list Z) (a b : Shape) : outcome bool :=
  match axes with
  | [] => Ret true
  | i :: axes =>
      let* x := shape_At a i in
      let* y := shape_At b i in
      if negb (x =? y) then Ret false else axes_agree axes a b
  end.

Definition Containing (s small_shape : Shape) : outcome bool :=
  let* n := NumAxes s in
  let* m := NumAxes small_shape in
  if n <? m then Ret false else axes_agree (range_list 0 m) s small_shape.

Definition MatchBeforeLastDim (s next_shape : Shape) : outcome bool :=
  let* n := NumAxes s in
  let* m := NumAxes next_shape in
  if negb (n =? m) then Ret false else axes_agree (range_list 0 (n - 1)) next_shape s.

(** [ConstShapeMixIn<T>::operator==]. *)
Definition mixin_eqb (s rhs : Shape) : outcome bool :=
  let* n := NumAxes s in
  let* m := NumAxes rhs in
  if negb (n =? m) then Ret false else axes_agree (range_list 0 n) s rhs.

(** [Shape::operator==]. *)
Definition Shape_eqb (s rhs : Shape) : outcome bool :=
  if negb (Bool.eqb (is_initialized s) (is_initialized rhs)) then Ret false
  else if negb (is_initialized s) then Ret true
  else mixin_eqb s rhs.

(** [MutShapeMixIn::Set]. *)
Definition Shape_Set (s : Shape) (index val : Z) : outcome Shape :=
  let* _ := CHECK (0 <=? index) in
  let* n := NumAxes s in
  let* _ := CHECK (index <? n) in
  Ret (mkShape (<[Z.to_nat index := val]> (dim_vec s)) (is_initialized s)).

Definition ShiftNegativeAxis (axis num_axes : Z) : outcome Z :=
  let axis := if axis <? 0 then axis + num_axes else axis in
  let* _ := CHECK (0 <=? axis) in
  let* _ := CHECK (axis <? num_axes) in
  Ret axis.

Definition CreateReducedShape (shape : Shape) (axis_vec : list Z) : outcome Shape :=
  match axis_vec with
  | [] => Ret (Shape_of [])
  | _ =>
      let* n := NumAxes shape in
      let* dims := ofold (λ dims axis,
                            let* a := ShiftNegativeAxis axis n in
                            Ret (<[Z.to_nat a := 1]> dims)) axis_vec (dim_vec shape) in
      Ret (Shape_of dims)
  end.

Definition CreateLeftExtendedShape (shape : Shape) (ndims_left_extend_to : Z) : outcome Shape :=
  let* n := NumAxes shape in
  let* _ := CHECK (n <=? ndims_left_extend_to) in
  let left_ones_num := ndims_left_extend_to - n in
  let* tl := omap_list (λ i, shape_At shape (i - left_ones_num))
                       (range_list left_ones_num ndims_left_extend_to) in
  Ret (Shape_of (replicate (Z.to_nat left_ones_num) 1 ++ tl)).

Definition ExpandDimIf0D (shape : Shape) : outcome Shape :=
  let* n := NumAxes shape in
  if n =? 0 then Ret (Shape_of [1]) else Ret shape.

Definition Ones (num_axes : Z) : Shape := Shape_of (replicate (Z.to_nat num_axes) 1).

Definition CreateReducedShapeOrOnesShape (shape : Shape) (axis_vec : list Z) : outcome Shape :=
  match axis_vec with
  | [] => let* n := NumAxes shape in Ret (Ones n)
  | _ => CreateReducedShape shape axis_vec
  end.

Definition CheckNumAxesIdenticalAndAssign (s view : Shape) : outcome Shape :=
  let* n := NumAxes s in
  let* m := NumAxes view in
  let* _ := CHECK (n =? m) in
  Ret (mkShape (dim_vec view) (is_initialized s)).

Definition LeftOnesExtendedAssign (s view : Shape) : outcome Shape :=
  let* n := NumAxes s in
  let* m := NumAxes view in
  let* _ := CHECK (m <=? n) in
  Ret (mkShape (replicate (Z.to_nat (n - m)) 1 ++ dim_vec view) (is_initialized s)).

Definition ShiftNegativeAxisVec (s : Shape) (axis_vec : list Z) : outcome (list Z) :=
  let* n := NumAxes s in
  omap_list (λ a, ShiftNegativeAxis a n) axis_vec.

Definition RemoveOnes (s : Shape) (axis_vec : list Z) : outcome Shape :=
  let* shifted := ShiftNegativeAxisVec s axis_vec in
  let* dims := ofold (λ acc (p : nat * Z),
                        if bool_decide (Z.of_nat p.1 ∈ shifted)
                        then let* _ := CHECK (p.2 =? 1) in Ret acc
                        else Ret (acc ++ [p.2]))
                     (zip (seq 0 (length (dim_vec s))) (dim_vec s)) [] in
  Ret (Shape_of dims).

Definition Axes4BroadcastTo (s broadcast_shape : Shape) : outcome (list Z) :=
  let* m := NumAxes broadcast_shape in
  let* n := NumAxes s in
  let* _ := CHECK (m =? n) in
  let* axes := ofold (λ acc i,
                        let* d := at_ (dim_vec s) i in
                        let* e := at_ (dim_vec broadcast_shape) i in
                        if negb (d =? e) && (d =? 1) then Ret (acc ++ [i])
                        else let* _ := CHECK (d =? e) in Ret acc)
                     (range_list 0 n) [] in
  let* _ := CHECK (match axes with [] => false | _ => true end) in
  Ret axes.

Definition Slice (s : Shape) (start_dim end_dim : Z) : outcome Shape :=
  let* _ := CHECK_OR_RETURN ((0 <=? start_dim) && (start_dim <=? end_dim)) CheckFailedError in
  let* ndims := NumAxes s in
  let start_dim := if ndims <? start_dim then ndims else start_dim in
  let end_dim := if ndims <? end_dim then ndims else end_dim in
  Ret (Shape_of (take (Z.to_nat (end_dim - start_dim)) (drop (Z.to_nat start_dim) (dim_vec s)))).

Definition Slice_from (s : Shape) (start_dim : Z) : outcome Shape :=
  let* n := NumAxes s in Slice s start_dim n.

(** ** Strides *)

(** [std::exclusive_scan(l.begin(), l.end(), ..., init, multiplies)]. *)
Fixpoint exclusive_scan_mul (l : list Z) (init : Z) : list Z :=
  match l with
  | [] => []
  | x :: l => init :: exclusive_scan_mul l (init * x)
  end.

(** [Stride(const ShapeView&)]: both scans run over reverse iterators. *)
Definition Stride_of_view (shape : Shape) : outcome (list Z) :=
  let* ndim := NumAxes shape in
  if (0 <? ndim) && (0 <? elem_cnt shape) then
    Ret (reverse (exclusive_scan_mul (reverse (dim_vec shape)) 1))
  else if (0 <? ndim) && (elem_cnt shape =? 0) then
    let tmp_shape := map (λ d, if 0 <? d then d else 1) (dim_vec shape) in
    Ret (reverse (exclusive_scan_mul (reverse tmp_shape) 1))
  else Ret (replicate (Z.to_nat ndim) 0).

(** [Stride(const Shape&)]: an uninitialised shape leaves the vector empty. *)
Definition Stride_of_shape (shape : Shape) : outcome (list Z) :=
  if is_initialized shape then Stride_of_view (Shape_of (dim_vec shape)) else Ret [].

Definition Stride_CheckNumAxesIdenticalAndAssign (s stride : list Z) : outcome (list Z) :=
  let* _ := CHECK (Nat.eqb (length s) (length stride)) in Ret stride.

(** ** Basic facts *)

Lemma NumAxes_init (s : Shape) :
  is_initialized s = true → NumAxes s = Ret (Z.of_nat (length (dim_vec s))).
Proof. unfold NumAxes, CHECK. by intros ->. Qed.

Lemma elem_cnt_prod (s : Shape) : elem_cnt s = prodZ (dim_vec s).
Proof. unfold elem_cnt. rewrite fold_left_mul. lia. Qed.

Lemma shape_At_Ret (s : Shape) (i d : Z) :
  is_initialized s = true → shape_At s i = Ret d ↔ at_ (dim_vec s) i = Ret d.
Proof.
  intros Hi. unfold shape_At, CHECK. rewrite NumAxes_init by done. unfold at_.
  destruct (Z.leb_spec 0 i), (Z.ltb_spec i 0); try lia; simpl; [|done].
  destruct (Z.ltb_spec i (Z.of_nat (length (dim_vec s)))); simpl; [done|].
  rewrite lookup_ge_None_2 by lia. done.
Qed.

Lemma shape_At_nat (s : Shape) (i : nat) (d : Z) :
  is_initialized s = true → dim_vec s !! i = Some d → shape_At s (Z.of_nat i) = Ret d.
Proof. intros ??. apply shape_At_Ret; [done|]. by apply at_nat. Qed.

Lemma range_list_S (b e : Z) : b < e → range_list b e = b :: range_list (b + 1) e.
Proof.
  intros. unfold range_list.
  replace (Z.to_nat (e - b)) with (S (Z.to_nat (e - (b + 1)))) by lia. simpl.
  f_equal; [lia|]. rewrite <- seq_shift, map_map. apply map_ext. intros. lia.
Qed.

Lemma range_list_nil (b e : Z) : e ≤ b → range_list b e = [].
Proof. intros. unfold range_list. by replace (Z.to_nat (e - b)) with 0%nat by lia. Qed.

Lemma range_list_elem (b e i : Z) : i ∈ range_list b e ↔ b ≤ i < e.
Proof.
  unfold range_list. rewrite list_elem_of_fmap. setoid_rewrite elem_of_seq. split.
  - intros (k & -> & ?). lia.
  - intros. exists (Z.to_nat (i - b)). lia.
Qed.

Lemma Count_loop (s : Shape) (k b : nat) (acc : Z) :
  is_initialized s = true → (b + k ≤ length (dim_vec s))%nat →
  ofold (λ cnt i, let* d := shape_At s i in Ret (cnt * d))
        (range_list (Z.of_nat b) (Z.of_nat (b + k))) acc
  = Ret (acc * prodZ (take k (drop b (dim_vec s)))).
Proof.
  intros Hi. revert b acc. induction k as [|k IH]; intros b acc Hk.
  - rewrite range_list_nil by lia. simpl. rewrite take_0, prodZ_nil. f_equal. lia.
  - rewrite range_list_S by lia. cbn [ofold].
    destruct (lookup_lt_is_Some_2 (dim_vec s) b) as [d Hd]; [lia|].
    rewrite (shape_At_nat s b d) by done. cbn [obind].
    replace (Z.of_nat b + 1) with (Z.of_nat (S b)) by lia.
    replace (b + S k)%nat with (S b + k)%nat by lia. rewrite IH by lia.
    rewrite (drop_S _ d b) by done. cbn [take]. rewrite prodZ_cons. f_equal. lia.
Qed.

(** [Count] multiplies exactly the axes of the half-open interval. *)
Lemma Count_prod (s : Shape) (b e : nat) :
  is_initialized s = true → (b ≤ e ≤ length (dim_vec s))%nat →
  Count s (Z.of_nat b) (Z.of_nat e) = Ret (prodZ (take (e - b) (drop b (dim_vec s)))).
Proof.
  intros Hi Hbe. unfold Count. rewrite NumAxes_init by done. cbn [obind]. unfold CHECK.
  rewrite (proj2 (Z.leb_le 0 _)), !(proj2 (Z.leb_le _ _)) by lia. cbn [obind andb].
  pose proof (Count_loop s (e - b) b 1 Hi) as L.
  replace (b + (e - b))%nat with e in L by lia. rewrite L by lia. f_equal. lia.
Qed.

(** [Count] is multiplicative over adjacent axis intervals, and over all
    axes it is the element count. *)
Theorem Count_split (s : Shape) (b m e : nat) :
  is_initialized s = true → (b ≤ m ≤ e)%nat → (e ≤ length (dim_vec s))%nat →
  ∃ x y, Count s (Z.of_nat b) (Z.of_nat m) = Ret x ∧ Count s (Z.of_nat m) (Z.of_nat e) = Ret y ∧
         Count s (Z.of_nat b) (Z.of_nat e) = Ret (x * y) ∧ Count_from s 0 = Ret (elem_cnt s).
Proof.
  intros Hi Hbm Hme.
  exists (prodZ (take (m - b) (drop b (dim_vec s)))), (prodZ (take (e - m) (drop m (dim_vec s)))).
  rewrite !Count_prod by (done || lia). do 2 (split; [done|]). split.
  - f_equal. rewrite <- prodZ_app. f_equal.
    replace (drop m (dim_vec s)) with (drop (m - b) (drop b (dim_vec s)))
      by (rewrite drop_drop; f_equal; lia).
    rewrite <- (take_drop (m - b) (drop b (dim_vec s))) at 1.
    rewrite take_app. rewrite length_take, length_drop.
    rewrite take_take. f_equal; [f_equal; lia|]. f_equal. lia.
  - unfold Count_from. rewrite NumAxes_init by done. cbn [obind].
    change 0 with (Z.of_nat 0). rewrite Count_prod by (done || lia).
    rewrite Nat.sub_0_r, drop_0, take_ge by lia. by rewrite elem_cnt_prod.
Qed.

(** ** Shifting axes *)

Lemma ShiftNegativeAxis_Ret (a n r : Z) :
  ShiftNegativeAxis a n = Ret r ↔ - n ≤ a < n ∧ r = a mod n.
Proof.
  unfold ShiftNegativeAxis, CHECK. destruct (Z.ltb_spec a 0).
  - destruct (Z.leb_spec 0 (a + n)); simpl; [|split; [done|lia]].
    destruct (Z.ltb_spec (a + n) n); simpl; [|split; [done|lia]].
    assert (a mod n = a + n) as -> by (symmetry; apply Z.mod_unique with (q := -1); lia).
    split; [intros [= <-]; lia|intros [_ ->]; done].
  - destruct (Z.leb_spec 0 a); simpl; [|lia].
    destruct (Z.ltb_spec a n); simpl; [|split; [done|lia]].
    rewrite (Z.mod_small a n) by lia. split; [intros [= <-]; lia|intros [_ ->]; done].
Qed.

Lemma ShiftNegativeAxis_id (a n : Z) : 0 ≤ a < n → ShiftNegativeAxis a n = Ret a.
Proof. intros. apply ShiftNegativeAxis_Ret. rewrite Z.mod_small; lia. Qed.

(** Setting a list of non-negative axes to one. *)
Definition set_ones (axes : list Z) (dims : list Z) : list Z :=
  fold_left (λ d a, <[Z.to_nat a := 1]> d) axes dims.

Lemma set_ones_lookup (axes dims : list Z) (i : nat) :
  Forall (λ a, 0 ≤ a) axes → (i < length dims)%nat →
  set_ones axes dims !! i =
  if decide (Z.of_nat i ∈ axes) then Some 1 else dims !! i.
Proof.
  intros Hf. revert dims. induction Hf as [|a axes Ha _ IH]; intros dims Hi.
  - rewrite decide_False; [done|]. inversion 1.
  - change (set_ones (a :: axes) dims) with (set_ones axes (<[Z.to_nat a := 1]> dims)).
    rewrite IH by (by rewrite length_insert).
    destruct (decide (Z.of_nat i ∈ axes)) as [Hin|Hin].
    + rewrite decide_True by (by right). done.
    + destruct (decide (i = Z.to_nat a)) as [->|Hne].
      * rewrite decide_True by (rewrite Z2Nat.id by lia; left).
        by apply list_lookup_insert_eq.
      * rewrite decide_False; [by apply list_lookup_insert_ne|].
        rewrite elem_of_cons. intros [E|?]; [|done]. lia.
Qed.

Lemma set_ones_length (axes dims : list Z) : length (set_ones axes dims) = length dims.
Proof.
  unfold set_ones. revert dims. induction axes as [|a axes IH]; intros dims; [done|].
  simpl. by rewrite IH, length_insert.
Qed.

Lemma reduce_loop (n : Z) (axes dims : list Z) :
  Forall (λ a, - n ≤ a < n) axes →
  ofold (λ dims axis, let* a := ShiftNegativeAxis axis n in
                      Ret (<[Z.to_nat a := 1]> dims)) axes dims
  = Ret (set_ones (map (λ a, a mod n) axes) dims).
Proof.
  intros Hf. revert dims. induction Hf as [|a axes Ha _ IH]; intros dims; [done|].
  cbn [ofold]. rewrite (proj2 (ShiftNegativeAxis_Ret a n (a mod n))) by done.
  cbn [obind]. apply IH.
Qed.

(** [CreateReducedShape] succeeds when every axis is in [-rank, rank) and
    replaces exactly the named axes by 1. *)
Lemma CreateReducedShape_spec (s : Shape) (axes : list Z) :
  is_initialized s = true → axes ≠ [] →
  Forall (λ a, - Z.of_nat (length (dim_vec s)) ≤ a < Z.of_nat (length (dim_vec s))) axes →
  CreateReducedShape s axes =
  Ret (Shape_of (set_ones (map (λ a, a mod Z.of_nat (length (dim_vec s))) axes) (dim_vec s))).
Proof.
  intros Hi Hne Hf. unfold CreateReducedShape. destruct axes; [done|].
  rewrite NumAxes_init by done. cbn [obind]. by rewrite reduce_loop.
Qed.

(** ** Comparison loops *)

Lemma axes_agree_prefix (a b : Shape) (k i : nat) :
  is_initialized a = true → is_initialized b = true →
  (i + k ≤ length (dim_vec a))%nat → (i + k ≤ length (dim_vec b))%nat →
  axes_agree (range_list (Z.of_nat i) (Z.of_nat (i + k))) a b =
  Ret (bool_decide (take k (drop i (dim_vec a)) = take k (drop i (dim_vec b)))).
Proof.
  intros Ha Hb. revert i. induction k as [|k IH]; intros i Hla Hlb.
  { rewrite range_list_nil by lia. simpl. done. }
  rewrite range_list_S by lia. cbn [axes_agree].
  destruct (lookup_lt_is_Some_2 (dim_vec a) i) as [x Hx]; [lia|].
  destruct (lookup_lt_is_Some_2 (dim_vec b) i) as [y Hy]; [lia|].
  rewrite (shape_At_nat a i x), (shape_At_nat b i y) by done. cbn [obind].
  rewrite (drop_S _ x i), (drop_S _ y i) by done. cbn [take].
  destruct (Z.eqb_spec x y) as [->|Hne]; simpl.
  - replace (Z.of_nat i + 1) with (Z.of_nat (S i)) by lia.
    replace (i + S k)%nat with (S i + k)%nat by lia. rewrite IH by lia.
    f_equal. apply bool_decide_ext. split; congruence.
  - f_equal. symmetry. apply bool_decide_eq_false. congruence.
Qed.

Lemma mixin_eqb_eq (a b : Shape) :
  is_initialized a = true → is_initialized b = true →
  mixin_eqb a b = Ret (bool_decide (dim_vec a = dim_vec b)).
Proof.
  intros Ha Hb. unfold mixin_eqb. rewrite !NumAxes_init by done. cbn [obind].
  destruct (Z.eqb_spec (Z.of_nat (length (dim_vec a))) (Z.of_nat (length (dim_vec b)))) as [E|E]; simpl.
  - apply Nat2Z.inj in E.
    pose proof (axes_agree_prefix a b (length (dim_vec a)) 0 Ha Hb) as L. cbn [Nat.add] in L. change (Z.of_nat 0) with 0 in L.
    rewrite L by lia. rewrite !drop_0, take_ge, take_ge by lia. done.
  - f_equal. symmetry. apply bool_decide_eq_false. congruence.
Qed.

(** [Shape::operator==] never aborts and is equality of shapes, where all
    uninitialised shapes are equal to each other and to no initialised one. *)
Theorem Shape_eqb_spec (a b : Shape) :
  Shape_eqb a b = Ret (bool_decide
    (is_initialized a = is_initialized b ∧ (is_initialized a = true → dim_vec a = dim_vec b))).
Proof.
  unfold Shape_eqb. destruct (is_initialized a) eqn:Ea, (is_initialized b) eqn:Eb; simpl.
  - rewrite mixin_eqb_eq by done. f_equal. apply bool_decide_ext. naive_solver.
  - done.
  - done.
  - done.
Qed.

Lemma Containing_prefix (a b : Shape) :
  is_initialized a = true → is_initialized b = true →
  Containing a b = Ret (bool_decide (dim_vec b `prefix_of` dim_vec a)).
Proof.
  intros Ha Hb. unfold Containing. rewrite !NumAxes_init by done. cbn [obind].
  destruct (Z.ltb_spec (Z.of_nat (length (dim_vec a))) (Z.of_nat (length (dim_vec b)))).
  - f_equal. symmetry. apply bool_decide_eq_false. intros ?%prefix_length. lia.
  - pose proof (axes_agree_prefix a b (length (dim_vec b)) 0 Ha Hb) as L. cbn [Nat.add] in L. change (Z.of_nat 0) with 0 in L.
    rewrite L by lia. rewrite !drop_0, (take_ge (dim_vec b)) by lia. f_equal.
    apply bool_decide_ext. split.
    + intros E. exists (drop (length (dim_vec b)) (dim_vec a)). rewrite <- E at 1.
      by rewrite take_drop.
    + intros [k ->]. by rewrite take_app_length.
Qed.

Lemma MatchBeforeLastDim_spec (a b : Shape) :
  is_initialized a = true → is_initialized b = true → dim_vec a ≠ [] →
  MatchBeforeLastDim a b = Ret (bool_decide
    (length (dim_vec a) = length (dim_vec b) ∧
     take (length (dim_vec a) - 1) (dim_vec a) = take (length (dim_vec a) - 1) (dim_vec b))).
Proof.
  intros Ha Hb Hne. unfold MatchBeforeLastDim. rewrite !NumAxes_init by done. cbn [obind].
  assert (length (dim_vec a) ≠ 0%nat) by (by destruct (dim_vec a)).
  destruct (Z.eqb_spec (Z.of_nat (length (dim_vec a))) (Z.of_nat (length (dim_vec b)))) as [E|E]; simpl.
  - pose proof (axes_agree_prefix b a (length (dim_vec a) - 1) 0 Hb Ha) as L. cbn [Nat.add] in L. change (Z.of_nat 0) with 0 in L.
    replace (Z.of_nat (length (dim_vec a) - 1)) with (Z.of_nat (length (dim_vec a)) - 1) in L by lia.
    rewrite L by lia. rewrite !drop_0. f_equal. apply bool_decide_ext. naive_solver lia.
  - f_equal. symmetry. apply bool_decide_eq_false. intros [? _]. lia.
Qed.

(** ** Broadcasting *)

Lemma broadcast_loop (s b : list Z) (k i : nat) (acc axes : list Z) :
  ofold (λ acc i, let* d := at_ s i in let* e := at_ b i in
                  if negb (d =? e) && (d =? 1) then Ret (acc ++ [i])
                  else let* _ := CHECK (d =? e) in Ret acc)
        (range_list (Z.of_nat i) (Z.of_nat (i + k))) acc = Ret axes →
  ∃ new, axes = acc ++ new ∧ Forall (λ a, Z.of_nat i ≤ a < Z.of_nat (i + k)) new ∧
  ∀ j, (i ≤ j < i + k)%nat → ∃ d e, s !! j = Some d ∧ b !! j = Some e ∧
    (Z.of_nat j ∈ new → d = 1 ∧ e ≠ 1) ∧ (Z.of_nat j ∉ new → d = e).
Proof.
  revert i acc. induction k as [|k IH]; intros i acc H.
  { rewrite range_list_nil in H by lia. simpl in H. inv_ret. exists []. rewrite app_nil_r.
    split_and!; [done|constructor|lia]. }
  rewrite range_list_S in H by lia. cbn [ofold] in H.
  replace (Z.of_nat i + 1) with (Z.of_nat (S i)) in H by lia.
  replace (i + S k)%nat with (S i + k)%nat in H by lia.
  apply obind_Ret in H as (acc' & Hstep & H).
  apply obind_Ret in Hstep as (d & Hd & Hstep). apply obind_Ret in Hstep as (e & He & Hstep).
  inv_ret. rewrite !Nat2Z.id in *.
  apply IH in H as (new & -> & Hf & Hall).
  destruct (Z.eqb_spec d e) as [->|Hne]; simpl in Hstep; [inv_ret; exists new; split; [done|]|].
  - split; [eapply Forall_impl; [done|]; simpl; lia|]. intros j Hj.
    destruct (decide (j = i)) as [->|]; [|apply Hall; lia].
    exists e, e. split_and!; try done. intros Hin.
    eapply Forall_forall in Hf; [|done]. simpl in Hf. lia.
  - destruct (Z.eqb_spec d 1) as [->|]; [|done]. inv_ret. exists (Z.of_nat i :: new).
    split; [by rewrite <- app_assoc|].
    split; [constructor; [lia|]; eapply Forall_impl; [done|]; simpl; lia|]. intros j Hj.
    destruct (decide (j = i)) as [->|Hji].
    + exists 1, e. split_and!; try done. intros Hn. destruct Hn. left.
    + destruct (Hall j) as (d' & e' & ? & ? & Hin & Hout); [lia|].
      exists d', e'. split_and!; try done; rewrite elem_of_cons; [|naive_solver].
      intros [?|?]; [lia|auto].
Qed.

(** Reducing the broadcast shape over the axes that [Axes4BroadcastTo]
    reports gives back the original dimensions: the axes found are exactly the
    broadcast ones, and there is at least one. *)
Theorem broadcast_reduce_roundtrip (s b : Shape) (axes : list Z) :
  Axes4BroadcastTo s b = Ret axes →
  axes ≠ [] ∧ CreateReducedShape b axes = Ret (Shape_of (dim_vec s)).
Proof.
  unfold Axes4BroadcastTo. intros H.
  apply obind_Ret in H as (m & Hm & H). apply obind_Ret in H as (n & Hn & H).
  apply obind_Ret in H as (u & Hmn & H). apply obind_Ret in H as (ax & Hloop & H).
  unfold NumAxes in Hm, Hn. inv_ret. apply Z.eqb_eq, Nat2Z.inj in Hmn.
  apply (broadcast_loop _ _ (length (dim_vec s)) 0 []) in Hloop as (new & -> & Hf & Hall).
  simpl in *. assert (new ≠ []) by (by destruct new). split; [done|].
  rewrite CreateReducedShape_spec; [|done|done|].
  2:{ eapply Forall_impl; [done|]. simpl. lia. }
  f_equal. f_equal.
  assert (map (λ a, a mod Z.of_nat (length (dim_vec b))) new = new) as ->.
  { transitivity (map id new); [|apply map_id]. apply map_ext_Forall.
    eapply Forall_impl; [done|]. simpl. intros a Ha. apply Z.mod_small. unfold id. lia. }
  apply list_eq_same_length with (length (dim_vec s)); [done|by rewrite set_ones_length|].
  intros i xv yv Hlt Hx Hy. rewrite set_ones_lookup in Hx;
    [|eapply Forall_impl; [done|]; simpl; lia|lia].
  destruct (Hall i) as (d & e & Hd & He & Hin & Hout); [lia|].
  destruct (decide _) as [HH|HH]; [destruct (Hin HH)|specialize (Hout HH)]; congruence.
Qed.

(** ** Element counts under extension, removal of ones and slicing *)

Lemma prodZ_ones (k : nat) : prodZ (replicate k 1) = 1.
Proof. induction k as [|k IH]; [done|]. cbn [replicate]. by rewrite prodZ_cons, IH. Qed.

Lemma left_extend_tail (s : Shape) (ext : nat) :
  is_initialized s = true → 
  omap_list (λ i, shape_At s (i - Z.of_nat ext))
    (range_list (Z.of_nat ext) (Z.of_nat (ext + length (dim_vec s)))) = Ret (dim_vec s).
Proof.
  intros Hi. rewrite (omap_list_Ret _ (λ i, default 0 (dim_vec s !! Z.to_nat (i - Z.of_nat ext)))).
  - f_equal. unfold range_list. rewrite map_map.
    replace (Z.to_nat _) with (length (dim_vec s)) by lia.
    apply list_eq_same_length with (length (dim_vec s)); [done|by rewrite length_map, length_seq|].
    intros i x y Hlt Hx Hy. rewrite list_lookup_fmap, lookup_seq_lt in Hx by done.
    simpl in Hx. replace (Z.to_nat _) with i in Hx by lia. rewrite Hy in Hx. naive_solver.
  - apply Forall_forall. intros i Hin%range_list_elem.
    destruct (lookup_lt_is_Some_2 (dim_vec s) (Z.to_nat (i - Z.of_nat ext))) as [d Hd]; [lia|].
    rewrite Hd. simpl. apply shape_At_Ret; [done|]. apply at_Ret. split; [lia|done].
Qed.

Lemma CreateLeftExtendedShape_spec (s : Shape) (n : Z) :
  is_initialized s = true → Z.of_nat (length (dim_vec s)) ≤ n →
  CreateLeftExtendedShape s n =
  Ret (Shape_of (replicate (Z.to_nat (n - Z.of_nat (length (dim_vec s)))) 1 ++ dim_vec s)).
Proof.
  intros Hi Hn. unfold CreateLeftExtendedShape. rewrite NumAxes_init by done. cbn [obind].
  unfold CHECK. rewrite (proj2 (Z.leb_le _ _)) by done. cbn [obind].
  pose proof (left_extend_tail s (Z.to_nat (n - Z.of_nat (length (dim_vec s)))) Hi) as L.
  rewrite Z2Nat.id in L by lia.
  replace (Z.of_nat (_ + _)) with n in L by lia. by rewrite L.
Qed.

Lemma RemoveOnes_loop (axes : list Z) (k : nat) (ds acc out : list Z) :
  ofold (λ acc (p : nat * Z),
           if bool_decide (Z.of_nat p.1 ∈ axes)
           then let* _ := CHECK (p.2 =? 1) in Ret acc
           else Ret (acc ++ [p.2])) (zip (seq k (length ds)) ds) acc = Ret out →
  prodZ out = prodZ acc * prodZ ds ∧
  Z.of_nat (length out) + Z.of_nat (length (filter (λ i, Z.of_nat i ∈ axes) (seq k (length ds))))
  = Z.of_nat (length acc) + Z.of_nat (length ds).
Proof.
  revert k acc. induction ds as [|d ds IH]; intros k acc H.
  { simpl in *. inv_ret. rewrite prodZ_nil. lia. }
  cbn [length seq zip zip_with ofold fst snd] in H. cbn [length seq].
  rewrite prodZ_cons, filter_cons.
  case_bool_decide as Hin.
  - rewrite decide_True by done. cbn [length]. unfold CHECK in H.
    destruct (Z.eqb_spec d 1) as [->|]; [|done]. cbn [obind] in H.
    apply IH in H as [? ?]. split; nia.
  - rewrite decide_False by done. cbn [obind] in H. apply IH in H as [-> ?].
    rewrite prodZ_app, prodZ_singleton, length_app in *. simpl in *. split; nia.
Qed.

Lemma Slice_spec (s : Shape) (b e : Z) :
  is_initialized s = true →
  Slice s b e =
  if (0 <=? b) && (b <=? e)
  then let n := Z.of_nat (length (dim_vec s)) in
       Ret (Shape_of (take (Z.to_nat (Z.min e n - Z.min b n)) (drop (Z.to_nat (Z.min b n)) (dim_vec s))))
  else Fail CheckFailedError.
Proof.
  intros Hi. unfold Slice, CHECK_OR_RETURN. destruct ((0 <=? b) && (b <=? e)); simpl; [|done].
  rewrite NumAxes_init by done. cbn [obind].
  set (n := Z.of_nat (length (dim_vec s))).
  assert (∀ x, (if n <? x then n else x) = Z.min x n) as Hmin
    by (intros x; destruct (Z.ltb_spec n x); lia).
  by rewrite !Hmin.
Qed.

(** Reshaping helpers keep the number of elements: left extension with
    ones, removal of unit axes (which drops exactly the named axes), and the
    two halves of a slice multiply to the whole. *)
Theorem elem_cnt_preserved (s : Shape) (n k : Z) (axes : list Z) (r lo hi : Shape) :
  is_initialized s = true → Z.of_nat (length (dim_vec s)) ≤ n → 0 ≤ k →
  RemoveOnes s axes = Ret r → Slice s 0 k = Ret lo → Slice_from s k = Ret hi →
  (∃ e, CreateLeftExtendedShape s n = Ret e ∧ elem_cnt e = elem_cnt s) ∧
  elem_cnt r = elem_cnt s ∧ elem_cnt lo * elem_cnt hi = elem_cnt s.
Proof.
  intros Hi Hn Hk Hr Hlo Hhi. split_and!.
  - rewrite CreateLeftExtendedShape_spec by done. eexists; split; [done|].
    rewrite !elem_cnt_prod. simpl. rewrite prodZ_app, prodZ_ones. lia.
  - unfold RemoveOnes in Hr. apply obind_Ret in Hr as (sh & _ & Hr).
    apply obind_Ret in Hr as (dims & Hl & Hr). inv_ret.
    apply RemoveOnes_loop in Hl as [E _]. rewrite !elem_cnt_prod. simpl. rewrite E, prodZ_nil. lia.
  - unfold Slice_from in Hhi. rewrite NumAxes_init in Hhi by done. cbn [obind] in Hhi.
    rewrite Slice_spec in Hlo, Hhi by done.
    rewrite (proj2 (Z.leb_le 0 k)) in Hlo, Hhi by lia. simpl in Hlo, Hhi.
    destruct (Z.leb_spec k (Z.of_nat (length (dim_vec s)))); [|done].
    injection Hlo as <-. injection Hhi as <-. rewrite !elem_cnt_prod. cbn [dim_vec Shape_of].
    rewrite Z.min_id, !Z.min_l by lia. rewrite Z2Nat.inj_0, drop_0, Z.sub_0_r.
    rewrite (take_ge (drop _ _)) by (rewrite length_drop; lia).
    by rewrite <- prodZ_app, take_drop.
Qed.

(** ** Strides *)

Lemma exclusive_scan_mul_spec (l : list Z) (init : Z) :
  exclusive_scan_mul l init = map (λ i, init * prodZ (take i l)) (seq 0 (length l)).
Proof.
  revert init. induction l as [|x l IH]; intros init; [done|].
  cbn [exclusive_scan_mul length seq map]. f_equal; [rewrite take_0, prodZ_nil; lia|].
  rewrite IH, <- seq_shift, map_map. apply map_ext. intros i. cbn [take].
  rewrite prodZ_cons. lia.
Qed.

(** Row-major strides: each is the product of the dimensions to its right. *)
Definition row_major (dims : list Z) : list Z :=
  map (λ i, prodZ (drop (S i) dims)) (seq 0 (length dims)).

Lemma reverse_scan_row_major (dims : list Z) :
  reverse (exclusive_scan_mul (reverse dims) 1) = row_major dims.
Proof.
  rewrite exclusive_scan_mul_spec, length_reverse. unfold row_major.
  apply list_eq_same_length with (length dims);
    [by rewrite length_map, length_seq|by rewrite length_reverse, length_map, length_seq|].
  intros i x y Hi Hx Hy.
  rewrite reverse_lookup in Hx by (by rewrite length_map, length_seq).
  rewrite length_map, length_seq, list_lookup_fmap, lookup_seq_lt in Hx by lia.
  rewrite list_lookup_fmap, lookup_seq_lt in Hy by lia. simpl in *. simplify_eq.
  rewrite take_reverse, <- prodZ_rev. unfold reverse. rewrite <- rev_alt.
  rewrite rev_involutive, Z.mul_1_l. do 2 f_equal. lia.
Qed.

(** The stride of a shape without zero or negative dimensions is the
    row-major one, and for an empty tensor it is the row-major stride of the
    shape whose zero dimensions are read as one. *)
Theorem Stride_row_major (dims : list Z) :
  Forall (λ d, 0 ≤ d) dims →
  Stride_of_shape (Shape_of dims) =
  Ret (row_major (if decide (0 ∈ dims) then map (λ d, Z.max d 1) dims else dims)).
Proof.
  intros Hf. unfold Stride_of_shape, Stride_of_view. cbn [is_initialized dim_vec Shape_of].
  rewrite NumAxes_init by done. cbn [obind dim_vec]. rewrite elem_cnt_prod. cbn [dim_vec Shape_of].
  destruct (decide (dims = [])) as [->|Hne]; [done|].
  assert (length dims ≠ 0%nat) by (by destruct dims).
  rewrite (proj2 (Z.ltb_lt 0 (Z.of_nat _))) by lia. cbn [andb].
  destruct (decide (0 ∈ dims)) as [H0|H0].
  - assert (prodZ dims = 0) as ->.
    { apply list_elem_of_split in H0 as (l & k & ->). rewrite prodZ_app, prodZ_cons. lia. }
    cbn [Z.ltb Z.compare Z.eqb]. rewrite reverse_scan_row_major. do 2 f_equal. apply map_ext_Forall.
    eapply Forall_impl; [done|]. simpl. intros d Hd. destruct (Z.ltb_spec 0 d); lia.
  - rewrite (proj2 (Z.ltb_lt 0 (prodZ dims))); [by rewrite reverse_scan_row_major|].
    apply prodZ_pos. apply Forall_forall. intros d Hd. 
    eapply Forall_forall in Hf; [|done]. simpl in Hf.
    destruct (Z.eq_dec d 0) as [->|]; [done|lia].
Qed.
