(* ===== verification/NdIndex.v ===== *)
(** * N-dimensional index arithmetic

    Models [oneflow/core/common/nd_index_offset_helper.h]: the helper every CPU
    and GPU kernel uses to go between a linear offset and an index tuple.  The
    class template [NdIndexOffsetHelper<T, N>] is its array [stride_] of length
    [N]; [T] is an integer type, so division truncates. *)
From S2P Require Import Prelude Shape.

(** [InitStrides(dims, n)]: two loops over the (uninitialised) array. *)
Definition InitStrides (N : nat) (dims : list Z) (n : nat) : list Z :=
  let stride0 := replicate N 0 in
  let stride1 := foldl (λ st i, <[i := 1]> st) stride0 (seq (n - 1) (N - (n - 1))) in
  foldl (λ st i, <[i := default 0 (dims !! S i) * default 0 (st !! S i)]> st)
        stride1 (reverse (seq 0 (n - 1))).

(** [NdIndexStrideOffsetHelper(strides, n)]: the first [n] entries are given. *)
Definition StrideOffsetHelper (N : nat) (stride0 strides : list Z) (n : nat) : list Z :=
  foldl (λ st i, if Nat.ltb i n then <[i := default 0 (strides !! i)]> st else st)
        stride0 (seq 0 N).

(** [NdIndexToOffset(index, n)]; with [n = N] this is [NdIndexToOffset(index)]. *)
Definition NdIndexToOffset (stride index : list Z) (n : nat) : Z :=
  foldl (λ offset i, if Nat.ltb i n
                     then offset + default 0 (index !! i) * default 0 (stride !! i)
                     else offset) 0 (seq 0 (length stride)).

(** The variadic overload: the last term is not multiplied when all [N]
    coordinates are given. *)
Definition NdIndexToOffset_args (stride index : list Z) : Z :=
  let n := length index in
  let offset := foldl (λ offset i, offset + default 0 (index !! i) * default 0 (stride !! i))
                      0 (seq 0 (n - 1)) in
  if Nat.eqb n (length stride) then offset + default 0 (index !! (n - 1)%nat)
  else offset + default 0 (index !! (n - 1)%nat) * default 0 (stride !! (n - 1)%nat).

(** The division loop shared by the [OffsetToNdIndex] overloads: the quotients
    by the given strides and what remains. *)
Fixpoint offset_loop (strides : list Z) (remaining : Z) : list Z * Z :=
  match strides with
  | [] => ([], remaining)
  | st :: strides =>
      let idx := Z.quot remaining st in
      let '(rest, r) := offset_loop strides (remaining - idx * st) in
      (idx :: rest, r)
  end.

(** [OffsetToNdIndex(offset, index)]: the last coordinate takes the rest. *)
Definition OffsetToNdIndex (stride : list Z) (offset : Z) : list Z :=
  let '(idx, r) := offset_loop (take (length stride - 1) stride) offset in idx ++ [r].

(** [OffsetToNdIndex(offset, index, n)]: every coordinate is a quotient. *)
Definition OffsetToNdIndex_n (stride : list Z) (offset : Z) (n : nat) : list Z :=
  (offset_loop (take n stride) offset).1.

(** The variadic overload with [n] output references. *)
Definition OffsetToNdIndex_args (stride : list Z) (offset : Z) (n : nat) : list Z :=
  let '(idx, r) := offset_loop (take (n - 1) stride) offset in
  if Nat.eqb n (length stride) then idx ++ [r]
  else idx ++ [Z.quot r (default 0 (stride !! (n - 1)%nat))].

(** ** Strides *)

(** Indices that are in bounds for the dimensions. *)
Definition index_in (index dims : list Z) : Prop := Forall2 (λ i d, 0 ≤ i < d) index dims.

Lemma row_major_cons (d : Z) (dims : list Z) :
  row_major (d :: dims) = prodZ dims :: row_major dims.
Proof.
  unfold row_major. cbn [length seq map drop]. rewrite drop_0. f_equal.
  rewrite <- seq_shift, map_map. done.
Qed.

Lemma row_major_length (dims : list Z) : length (row_major dims) = length dims.
Proof. unfold row_major. by rewrite length_map, length_seq. Qed.

Lemma row_major_lookup (dims : list Z) (i : nat) :
  (i < length dims)%nat → row_major dims !! i = Some (prodZ (drop (S i) dims)).
Proof. intros. unfold row_major. by rewrite list_lookup_fmap, lookup_seq_lt. Qed.

Lemma fill_ones (b k : nat) (st : list Z) (i : nat) :
  (i < length st)%nat →
  foldl (λ st i, <[i := 1]> st) st (seq b k) !! i =
  if decide (b ≤ i < b + k)%nat then Some 1 else st !! i.
Proof.
  revert b st. induction k as [|k IH]; intros b st Hi; cbn [seq foldl].
  - rewrite decide_False by lia. done.
  - rewrite IH by (by rewrite length_insert).
    destruct (decide (i = b)) as [->|Hne].
    + rewrite decide_False, decide_True by lia. by apply list_lookup_insert_eq.
    + rewrite list_lookup_insert_ne by done.
      destruct (decide (S b ≤ i < S b + k)%nat); [rewrite decide_True by lia|rewrite decide_False by lia]; done.
Qed.

Lemma fill_ones_length (b k : nat) (st : list Z) :
  length (foldl (λ st i, <[i := 1]> st) st (seq b k)) = length st.
Proof. revert b st. induction k as [|k IH]; intros; simpl; [done|]. by rewrite IH, length_insert. Qed.

(** The downward loop writes the row-major stride below an already correct
    suffix. *)
Lemma stride_loop (dims : list Z) (k : nat) (st : list Z) :
  (S k ≤ length dims)%nat → (length dims ≤ length st)%nat →
  (∀ i, (k ≤ i < length dims)%nat → st !! i = Some (prodZ (drop (S i) dims))) →
  let r := foldl (λ st i, <[i := default 0 (dims !! S i) * default 0 (st !! S i)]> st)
                 st (reverse (seq 0 k)) in
  length r = length st ∧
  (∀ i, (i < length dims)%nat → r !! i = Some (prodZ (drop (S i) dims))) ∧
  (∀ i, (length dims ≤ i)%nat → r !! i = st !! i).
Proof.
  revert st. induction k as [|k IH]; intros st Hk Hl Hst; cbv zeta.
  { split_and!; [done|intros; apply Hst; lia|done]. }
  rewrite seq_S, reverse_snoc. cbn [foldl Nat.add].
  destruct (lookup_lt_is_Some_2 dims (S k)) as [d Hd]; [lia|].
  rewrite Hd, (Hst (S k)) by lia. simpl.
  destruct (IH (<[k := d * prodZ (drop (S (S k)) dims)]> st)) as (Hlen & Hin & Hout).
  - lia.
  - by rewrite length_insert.
  - intros i Hi. destruct (decide (i = k)) as [->|].
    + rewrite list_lookup_insert_eq by lia. by rewrite (drop_S _ d (S k)), prodZ_cons.
    + rewrite list_lookup_insert_ne by done. apply Hst. lia.
  - rewrite length_insert in Hlen. split_and!; [done|done|].
    intros i Hi. rewrite Hout by done. apply list_lookup_insert_ne. lia.
Qed.

(** [InitStrides] gives the row-major strides of the [n] given dimensions,
    padded with ones to [N]. *)
Lemma InitStrides_row_major (N : nat) (dims : list Z) :
  (1 ≤ length dims ≤ N)%nat →
  InitStrides N dims (length dims) = row_major dims ++ replicate (N - length dims) 1.
Proof.
  intros Hn. unfold InitStrides.
  set (n := length dims) in *.
  set (st1 := foldl _ (replicate N 0) (seq (n - 1) (N - (n - 1)))).
  assert (length st1 = N) as Hl1 by (unfold st1; by rewrite fill_ones_length, length_replicate).
  assert (∀ i, (n - 1 ≤ i < N)%nat → st1 !! i = Some 1) as Hst1.
  { intros i Hi. unfold st1. rewrite fill_ones by (rewrite length_replicate; lia).
    by rewrite decide_True by lia. }
  destruct (stride_loop dims (n - 1) st1) as (Hlen & Hin & Hout); [lia|lia| |].
  { intros i Hi. rewrite Hst1 by lia. rewrite drop_ge by lia. done. }
  apply list_eq_same_length with N.
  { rewrite length_app, row_major_length, length_replicate. lia. }
  { by rewrite Hlen. }
  intros i x y Hi Hx Hy. destruct (decide (i < n)%nat).
  - rewrite Hin in Hx by lia. rewrite lookup_app_l, row_major_lookup in Hy
      by (rewrite ?row_major_length; lia). congruence.
  - rewrite Hout, Hst1 in Hx by lia.
    rewrite lookup_app_r in Hy by (rewrite row_major_length; lia).
    rewrite lookup_replicate_2 in Hy by (rewrite row_major_length; lia). congruence.
Qed.

(** ** Offsets *)

Lemma foldl_sum (f : nat → Z) (l : list nat) (a : Z) :
  foldl (λ off i, off + f i) a l = a + sumZ (map f l).
Proof.
  revert a. induction l as [|i l IH]; intros a; simpl; [rewrite sumZ_nil; lia|].
  rewrite IH, sumZ_cons. lia.
Qed.

(** The offset of an index tuple, as a Horner evaluation. *)
Fixpoint offset_of (index dims : list Z) : Z :=
  match index, dims with
  | i :: index, _ :: dims => i * prodZ dims + offset_of index dims
  | _, _ => 0
  end.

Lemma offset_of_sum (index dims : list Z) :
  length index = length dims →
  sumZ (map (λ i, default 0 (index !! i) * default 0 (row_major dims !! i))
            (seq 0 (length dims))) = offset_of index dims.
Proof.
  revert index. induction dims as [|d dims IH]; intros [|i index] Hl; try done.
  cbn [length seq map offset_of]. rewrite sumZ_cons, row_major_cons. simpl.
  rewrite <- seq_shift, map_map. simpl. rewrite <- IH by (simpl in Hl; lia). done.
Qed.

Lemma offset_of_range (index dims : list Z) :
  index_in index dims → 0 ≤ offset_of index dims < prodZ dims.
Proof.
  induction 1 as [|i d index dims Hi _ IH]; cbn [offset_of]; [rewrite prodZ_nil; lia|].
  rewrite prodZ_cons. nia.
Qed.

(** The padded strides do not change an offset of [n] coordinates. *)
Lemma NdIndexToOffset_eq (N : nat) (dims index : list Z) :
  (1 ≤ length dims ≤ N)%nat → length index = length dims →
  NdIndexToOffset (InitStrides N dims (length dims)) index (length dims) = offset_of index dims.
Proof.
  intros HN Hl. rewrite InitStrides_row_major by done. unfold NdIndexToOffset.
  rewrite length_app, row_major_length, length_replicate.
  rewrite seq_app, foldl_app. simpl.
  assert (∀ a, foldl (λ off i, if Nat.ltb i (length dims)
     then off + default 0 (index !! i) *
       default 0 ((row_major dims ++ replicate (N - length dims) 1) !! i) else off) a
     (seq (length dims) (N - length dims)) = a) as Htail.
  { intros a. assert (∀ l, Forall (λ i, (length dims ≤ i)%nat) l →
      foldl (λ off i, if Nat.ltb i (length dims)
        then off + default 0 (index !! i) *
          default 0 ((row_major dims ++ replicate (N - length dims) 1) !! i) else off) a l = a) as G.
    { induction 1 as [|i l Hi _ IH]; [done|]. simpl.
      by rewrite (proj2 (Nat.ltb_ge i (length dims))). }
    apply G, Forall_forall. intros i ?%elem_of_seq. lia. }
  rewrite Htail. rewrite <- offset_of_sum by done.
  assert (∀ l a, Forall (λ i, (i < length dims)%nat) l →
    foldl (λ off i, if Nat.ltb i (length dims)
        then off + default 0 (index !! i) *
          default 0 ((row_major dims ++ replicate (N - length dims) 1) !! i) else off) a l =
    a + sumZ (map (λ i, default 0 (index !! i) * default 0 (row_major dims !! i)) l)) as G.
  { intros l a Hf. revert a. induction Hf as [|i l Hi _ IH]; intros a; simpl;
      [rewrite sumZ_nil; lia|].
    rewrite (proj2 (Nat.ltb_lt _ _)) by done. rewrite IH, sumZ_cons.
    rewrite lookup_app_l by (by rewrite row_major_length). lia. }
  rewrite G; [lia|]. apply Forall_forall. intros i ?%elem_of_seq. lia.
Qed.

(** The division loop undoes the Horner evaluation. *)
Lemma offset_loop_row_major (index dims : list Z) :
  index_in index dims →
  offset_loop (row_major dims) (offset_of index dims) = (index, 0).
Proof.
  induction 1 as [|i d index dims Hi Hrest IH]; [done|].
  rewrite row_major_cons. cbn [offset_loop offset_of].
  pose proof (offset_of_range index dims Hrest) as Hr.
  assert (Z.quot (i * prodZ dims + offset_of index dims) (prodZ dims) = i) as ->.
  { rewrite Z.quot_div_nonneg by nia. rewrite Z.div_add_l by lia.
    rewrite Z.div_small; lia. }
  replace (i * prodZ dims + offset_of index dims - i * prodZ dims)
    with (offset_of index dims) by lia.
  by rewrite IH.
Qed.

Lemma offset_loop_app (l k : list Z) (x : Z) :
  offset_loop (l ++ k) x =
  let '(i, r) := offset_loop l x in let '(j, r') := offset_loop k r in (i ++ j, r').
Proof.
  revert x. induction l as [|s l IH]; intros x; simpl.
  - by destruct (offset_loop k x).
  - rewrite IH. destruct (offset_loop l _) as [i r]. by destruct (offset_loop k r).
Qed.

(** Every in-range offset is the offset of some in-bounds index. *)
Lemma offset_of_surj (dims : list Z) (x : Z) :
  Forall (λ d, 0 < d) dims → 0 ≤ x < prodZ dims →
  ∃ index, index_in index dims ∧ offset_of index dims = x.
Proof.
  intros Hf. revert x. induction Hf as [|d dims Hd Hds IH]; intros x Hx.
  - exists []. rewrite prodZ_nil in Hx. split; [constructor|simpl; lia].
  - rewrite prodZ_cons in Hx. pose proof (prodZ_pos dims Hds).
    pose proof (Z.div_mod x (prodZ dims)). pose proof (Z.mod_pos_bound x (prodZ dims)).
    destruct (IH (x mod prodZ dims)) as (index & Hin & Ho); [lia|].
    exists (x / prodZ dims :: index). cbn [offset_of]. split; [|lia].
    constructor; [|done]. split; [apply Z.div_pos; lia|apply Z.div_lt_upper_bound; lia].
Qed.

Lemma take_row_major_last (dims : list Z) :
  dims ≠ [] → row_major dims = take (length dims - 1) (row_major dims) ++ [1].
Proof.
  intros Hne. assert (length dims ≠ 0%nat) by (by destruct dims).
  rewrite <- (take_drop (length dims - 1) (row_major dims)) at 1. f_equal.
  apply list_eq_same_length with 1%nat; [done|rewrite length_drop, row_major_length; lia|].
  intros [|i] x y Hi Hx Hy; [|lia]. rewrite lookup_drop, Nat.add_0_r, row_major_lookup in Hx by lia.
  rewrite drop_ge in Hx by lia. rewrite prodZ_nil in Hx. simpl in Hy. congruence.
Qed.

(** The array overload with all [N] coordinates. *)
Lemma OffsetToNdIndex_offset_of (dims index : list Z) :
  dims ≠ [] → index_in index dims →
  OffsetToNdIndex (InitStrides (length dims) dims (length dims)) (offset_of index dims) = index.
Proof.
  intros Hne Hin. assert (length dims ≠ 0%nat) by (by destruct dims).
  unfold OffsetToNdIndex. rewrite InitStrides_row_major by lia.
  rewrite Nat.sub_diag. simpl. rewrite app_nil_r, row_major_length.
  pose proof (offset_loop_row_major index dims Hin) as HL.
  rewrite (take_row_major_last dims) in HL by done.
  rewrite offset_loop_app in HL. destruct (offset_loop (take _ _) _) as [i r]. simpl in HL.
  injection HL as <- _. do 2 f_equal. by rewrite Z.quot_1_r.
Qed.

(** Index and offset are inverse: for dimensions of rank at most [N] and an
    index in bounds, the offset lies in [0, elem_cnt), the [n]-coordinate
    overload of [OffsetToNdIndex] recovers the index, and with [n = N] so does
    the array overload; conversely every offset below [elem_cnt] is the offset
    of the in-bounds index it is converted to. *)
Theorem nd_index_roundtrip (N : nat) (dims index : list Z) (x : Z) :
  (1 ≤ length dims ≤ N)%nat → Forall (λ d, 0 < d) dims →
  index_in index dims → 0 ≤ x < prodZ dims →
  let n := length dims in
  let stride := InitStrides N dims n in
  let offset := NdIndexToOffset stride index n in
  0 ≤ offset < prodZ dims ∧
  OffsetToNdIndex_n stride offset n = index ∧
  (n = N → OffsetToNdIndex stride offset = index) ∧
  index_in (OffsetToNdIndex_n stride x n) dims ∧
  NdIndexToOffset stride (OffsetToNdIndex_n stride x n) n = x.
Proof.
  intros HN Hd Hin Hx. cbv zeta.
  assert (∀ y, OffsetToNdIndex_n (InitStrides N dims (length dims)) y (length dims)
               = (offset_loop (row_major dims) y).1) as Hn.
  { intros y. unfold OffsetToNdIndex_n. rewrite InitStrides_row_major by done.
    by rewrite take_app_le, take_ge by (rewrite row_major_length; lia). }
  rewrite NdIndexToOffset_eq by (done || by apply Forall2_length in Hin).
  split; [by apply offset_of_range|].
  split; [by rewrite Hn, offset_loop_row_major|]. split.
  - intros <-. apply OffsetToNdIndex_offset_of; [by intros ->; simpl in HN; lia|done].
  - destruct (offset_of_surj dims x Hd Hx) as (idx & Hidx & <-).
    rewrite Hn, offset_loop_row_major by done. split; [done|].
    rewrite NdIndexToOffset_eq; [done..|]. by apply Forall2_length in Hidx.
Qed.

Lemma nd_index_roundtrip_witness :
  NdIndexToOffset (InitStrides 4 [2; 3; 4] 3) [1; 2; 3] 3 = 23 ∧
  OffsetToNdIndex_n (InitStrides 4 [2; 3; 4] 3) 23 3 = [1; 2; 3].
Proof.
  destruct (nd_index_roundtrip 4 [2; 3; 4] [1; 2; 3] 7) as (_ & H & _).
  - simpl. lia.
  - repeat constructor.
  - repeat constructor; lia.
  - vm_compute. split; [discriminate|reflexivity].
  - split; [reflexivity|exact H].
Defined.
