(* ===== verification/TensorSlice.v ===== *)
(** * Slices of a logical tensor

    Models [oneflow/core/register/tensor_slice_view.cpp]: a
    [TensorSliceView] is the box of a logical tensor that one device holds.
    Boxing intersects such boxes, checks containment and computes relative
    positions before it copies data. *)
From S2P Require Import Prelude Splitter Shape.

Record TensorSliceView := mkView { range_vec : list Range; view_shape : Shape }.

(** [TensorSliceView()]: no ranges, and a default (uninitialised) shape. *)
Definition empty_view : TensorSliceView := mkView [] (mkShape [] false).

(** The constructors end in [UpdateShape()]. *)
Definition UpdateShape (ranges : list Range) : Shape := Shape_of (map Range_size ranges).
Definition view_of_ranges (ranges : list Range) : TensorSliceView :=
  mkView ranges (UpdateShape ranges).
Definition view_of_proto (proto : list RangeProto) : TensorSliceView :=
  view_of_ranges (map Range_of_proto proto).
Definition view_of_shape (shape : Shape) : TensorSliceView :=
  view_of_ranges (map (λ d, mkRange 0 d) (dim_vec shape)).
Definition view_assign (other : TensorSliceView) : TensorSliceView :=
  view_of_ranges (range_vec other).

Definition view_eqb (a b : TensorSliceView) : bool := bool_decide (range_vec a = range_vec b).
Definition IsEmpty (v : TensorSliceView) : bool :=
  match range_vec v with [] => true | _ => false end.
Definition view_NumAxes (v : TensorSliceView) : nat := length (range_vec v).
Definition view_At (v : TensorSliceView) (i : Z) : outcome Range := at_ (range_vec v) i.

(** The [FOR_RANGE] loop of [Contains]. *)
Fixpoint contains_loop (a b : list Range) : bool :=
  match a, b with
  | ra :: a, rb :: b =>
      if (begin rb <? begin ra) || (end_ ra <? end_ rb) then false else contains_loop a b
  | _, _ => true
  end.

Definition Contains (v other : TensorSliceView) : outcome bool :=
  if IsEmpty other then Ret true else
  let* _ := CHECK (Nat.eqb (view_NumAxes v) (view_NumAxes other)) in
  Ret (contains_loop (range_vec v) (range_vec other)).

(** The loop of [Intersect]: [None] stands for the early [return
    TensorSliceView()] at the first empty axis. *)
Fixpoint intersect_loop (a b : list Range) : option (list Range) :=
  match a, b with
  | ra :: a, rb :: b =>
      let intersection := FindIntersectant ra rb in
      if Range_eqb intersection (mkRange 0 0) then None
      else match intersect_loop a b with
           | Some l => Some (intersection :: l)
           | None => None
           end
  | _, _ => Some []
  end.

Definition Intersect (v other : TensorSliceView) : outcome TensorSliceView :=
  if IsEmpty v || IsEmpty other then Ret empty_view else
  let* _ := CHECK (Nat.eqb (view_NumAxes other) (view_NumAxes v)) in
  match intersect_loop (range_vec v) (range_vec other) with
  | None => Ret empty_view
  | Some l => Ret (view_of_ranges l)
  end.

Definition OffsetTo (v other : TensorSliceView) : outcome (list Z) :=
  let* _ := CHECK (Nat.eqb (view_NumAxes other) (view_NumAxes v)) in
  Ret (zip_with (λ l r, begin l - begin r) (range_vec v) (range_vec other)).

Definition view_ToProto (v : TensorSliceView) : list RangeProto := map Range_ToProto (range_vec v).

(** [std::adjacent_find(first, last - 1, differ) == last - 1] over all slices
    but the last one. *)
Fixpoint no_adjacent (differ : TensorSliceView → TensorSliceView → outcome bool)
    (l : list TensorSliceView) : outcome bool :=
  match l with
  | a :: ((b :: _) as l') =>
      let* d := differ a b in if d then Ret false else no_adjacent differ l'
  | _ => Ret true
  end.

(** [Concatenate].  On the axes that are not concatenated the code calls
    [std::all_of(slices.cbegin() + 1, slices.cbegin(), ...)]: the iterators are
    in the wrong order, so no slice is compared (libstdc++ finds nothing in a
    range of negative length) and the [CHECK] always passes. *)
Definition Concatenate (slices : list TensorSliceView) (axis : Z) : outcome TensorSliceView :=
  match slices with
  | [] => Crash
  | front :: rest =>
      let* num_axes := NumAxes (view_shape front) in
      let* _ := CHECK (forallb (λ s, Z.of_nat (view_NumAxes s) =? num_axes) rest) in
      let* _ := CHECK (0 <=? axis) in
      let* _ := CHECK (axis <? num_axes) in
      let* ok := no_adjacent (λ lhs rhs,
                   let* l := view_At lhs axis in
                   let* r := view_At rhs axis in
                   Ret (negb (end_ l =? begin r))) (removelast slices) in
      let* _ := CHECK ok in
      let* a := view_At front axis in
      let* b := view_At (List.last slices front) axis in
      Ret (view_of_ranges (<[Z.to_nat axis := mkRange (begin a) (end_ b)]> (range_vec front)))
  end.

(** ** Points of a box *)

Definition in_view (p : list Z) (v : TensorSliceView) : Prop :=
  Forall2 in_range p (range_vec v).

(** A box over at least one axis, with no empty side. *)
Definition proper_view (v : TensorSliceView) : Prop :=
  range_vec v ≠ [] ∧ Forall (λ r, begin r < end_ r) (range_vec v) ∧
  view_shape v = UpdateShape (range_vec v).

Lemma IsEmpty_spec (v : TensorSliceView) : IsEmpty v = bool_decide (range_vec v = []).
Proof. unfold IsEmpty. by destruct (range_vec v). Qed.

Lemma proper_not_empty (v : TensorSliceView) : proper_view v → IsEmpty v = false.
Proof. intros [H _]. rewrite IsEmpty_spec. by apply bool_decide_eq_false. Qed.

Lemma intersect_loop_Some (a b l : list Range) :
  length a = length b → intersect_loop a b = Some l →
  l = zip_with FindIntersectant a b ∧ length l = length a.
Proof.
  revert b l. induction a as [|ra a IH]; intros [|rb b] l Hl H; simpl in *; try done.
  { by injection H as <-. }
  { destruct (Range_eqb _ _); [done|]. destruct (intersect_loop a b) as [l'|] eqn:E; [|done].
    injection H as <-. injection Hl as Hl. destruct (IH b l' Hl E) as [-> ?].
    split; [done|]. simpl. lia. }
Qed.

Lemma intersect_points (a b : list Range) (p : list Z) :
  Forall2 in_range p (zip_with FindIntersectant a b) → length a = length b →
  Forall2 in_range p a ∧ Forall2 in_range p b.
Proof.
  revert b p. induction a as [|ra a IH]; intros [|rb b] p H Hl; simpl in *; try done.
  inversion H as [|x y p' l Hx Hp]; subst. apply FindIntersectant_points in Hx as [? ?].
  injection Hl as Hl. destruct (IH b p' Hp Hl). split; by constructor.
Qed.

Lemma points_intersect (a b : list Range) (p : list Z) :
  Forall2 in_range p a → Forall2 in_range p b →
  Forall2 in_range p (zip_with FindIntersectant a b) ∧
  (∃ l, intersect_loop a b = Some l).
Proof.
  intros Ha. revert b. induction Ha as [|x r p a Hx _ IH]; intros b Hb.
  - inversion Hb; subst. simpl. split; [constructor|eauto].
  - inversion Hb as [|? rb ? b' Hxb Hb']; subst. destruct (IH b' Hb') as [Hp [l El]].
    assert (in_range x (FindIntersectant r rb)) by (by apply FindIntersectant_points).
    split; [by constructor|]. simpl.
    destruct (Range_eqb _ _) eqn:E; [|rewrite El; eauto].
    apply Range_eqb_eq in E. rewrite E in *. unfold in_range in *. simpl in *. lia.
Qed.

Lemma FindIntersectant_nonempty (a b : Range) :
  FindIntersectant a b ≠ mkRange 0 0 → begin a < end_ a → begin b < end_ b →
  begin (FindIntersectant a b) < end_ (FindIntersectant a b).
Proof.
  unfold FindIntersectant.
  destruct (Z.ltb_spec (begin b) (end_ a)), (Z.ltb_spec (begin a) (end_ b)); simpl; try done.
  destruct (Z.ltb_spec (begin b) (begin a)), (Z.ltb_spec (end_ a) (end_ b)); simpl; lia.
Qed.

Lemma intersect_loop_sides (a b l : list Range) :
  intersect_loop a b = Some l → Forall (λ r, begin r < end_ r) a →
  Forall (λ r, begin r < end_ r) b → Forall (λ r, begin r < end_ r) l.
Proof.
  revert b l. induction a as [|ra a IH]; intros [|rb b] l H Ha Hb; simpl in *;
    [by injection H as <-..|].
  destruct (Range_eqb _ _) eqn:E; [done|]. destruct (intersect_loop a b) as [l'|] eqn:El; [|done].
  injection H as <-. apply Forall_cons in Ha as [? ?], Hb as [? ?].
  constructor; [|eauto]. apply FindIntersectant_nonempty; [|done..].
  intros E'. rewrite E' in E. done.
Qed.

(** [Intersect] of two proper boxes of the same rank never aborts; its
    points are exactly the common points, and it is the empty view exactly when
    there is none. *)
Lemma Intersect_points (v w : TensorSliceView) :
  proper_view v → proper_view w → view_NumAxes v = view_NumAxes w →
  ∃ r, Intersect v w = Ret r ∧
  (IsEmpty r = true ↔ ∀ p, ¬ (in_view p v ∧ in_view p w)) ∧
  (IsEmpty r = false → proper_view r ∧ ∀ p, in_view p r ↔ in_view p v ∧ in_view p w).
Proof.
  intros Hv Hw Hn. unfold Intersect. rewrite !proper_not_empty by done. simpl.
  unfold CHECK. rewrite (proj2 (Nat.eqb_eq _ _)) by done. simpl.
  unfold view_NumAxes in Hn. destruct Hv as (Hv0 & Hvs & _), Hw as (Hw0 & Hws & _).
  destruct (intersect_loop (range_vec v) (range_vec w)) as [l|] eqn:E.
  - destruct (intersect_loop_Some _ _ _ Hn E) as [Hl Hlen].
    assert (l ≠ []) as Hl0 by (intros ->; by destruct (range_vec v)).
    pose proof (intersect_loop_sides _ _ _ E Hvs Hws) as Hsides.
    eexists. split; [done|]. rewrite IsEmpty_spec. simpl.
    rewrite bool_decide_eq_false_2 by done. split.
    + split; [done|]. intros Hno. exfalso.
      apply (Hno (map begin l)). apply (intersect_points _ _ (map begin l)); [|done].
      rewrite <- Hl. clear -Hsides. induction Hsides; constructor; [unfold in_range; lia|done].
    + intros _. split; [split; [done|split; done]|]. intros p. unfold in_view. simpl. split.
      * rewrite Hl. intros. by apply intersect_points.
      * intros [Hp1 Hp2]. rewrite Hl. by apply points_intersect.
  - eexists. split; [done|]. split; [|done]. split; [|done]. intros _ p [Hp1 Hp2].
    destruct (points_intersect _ _ _ Hp1 Hp2) as [_ [l El]]. congruence.
Qed.

(** [Contains] of two views of the same rank, axis by axis. *)
Lemma contains_loop_spec (a b : list Range) :
  length a = length b →
  contains_loop a b = true ↔ Forall2 (λ ra rb, begin ra ≤ begin rb ∧ end_ rb ≤ end_ ra) a b.
Proof.
  revert b. induction a as [|ra a IH]; intros [|rb b] Hl; simpl in *; try done.
  injection Hl as Hl. rewrite Forall2_cons, <- (IH b Hl).
  destruct (Z.ltb_spec (begin rb) (begin ra)), (Z.ltb_spec (end_ ra) (end_ rb)); simpl;
    split; try done; naive_solver lia.
Qed.

(** [Contains] decides inclusion of the point sets, for a proper inner box. *)
Lemma Contains_points (v w : TensorSliceView) :
  proper_view w → view_NumAxes v = view_NumAxes w →
  ∃ b, Contains v w = Ret b ∧ (b = true ↔ ∀ p, in_view p w → in_view p v).
Proof.
  intros Hw Hn. unfold Contains. rewrite proper_not_empty by done. unfold CHECK.
  rewrite (proj2 (Nat.eqb_eq _ _)) by done. simpl. eexists. split; [done|].
  unfold view_NumAxes in Hn. rewrite contains_loop_spec by done. unfold in_view.
  destruct Hw as (_ & Hs & _). revert Hn Hs. generalize (range_vec v) (range_vec w).
  intros a b. revert a. induction b as [|rb b IH]; intros [|ra a] Hl Hs; simpl in *; try done.
  injection Hl as Hl. apply Forall_cons in Hs as [Hrb Hs]. rewrite Forall2_cons, (IH a Hl Hs). split.
  - intros [Hab Hin] p Hp. inversion Hp; subst. constructor; [unfold in_range in *; lia|auto].
  - intros Hin. assert (Forall2 in_range (map begin b) b) as Hb.
    { clear -Hs. induction Hs; constructor; [unfold in_range; lia|done]. }
    assert (∀ x, in_range x rb → in_range x ra) as Hx.
    { intros x Hx. specialize (Hin (x :: map begin b)). 
      assert (Forall2 in_range (x :: map begin b) (ra :: a)) as H by (apply Hin; by constructor).
      by inversion H. }
    split.
    + pose proof (Hx (begin rb)). pose proof (Hx (end_ rb - 1)). unfold in_range in *. lia.
    + intros p Hp. assert (Forall2 in_range (begin rb :: p) (ra :: a)) as H.
      { apply Hin. constructor; [unfold in_range; lia|done]. }
      by inversion H.
Qed.

(** ** Concatenation *)

(** Two slices: no adjacency is required, because the only pair is the one the
    [adjacent_find] leaves out. *)
Lemma Concatenate_two (a b : TensorSliceView) (axis : Z) (ra rb : Range) :
  proper_view a → view_NumAxes b = view_NumAxes a →
  at_ (range_vec a) axis = Ret ra → at_ (range_vec b) axis = Ret rb →
  Concatenate [a; b] axis =
  Ret (view_of_ranges (<[Z.to_nat axis := mkRange (begin ra) (end_ rb)]> (range_vec a))).
Proof.
  intros (Ha0 & Has & Hsh) Hn Hra Hrb. unfold Concatenate. rewrite Hsh.
  rewrite NumAxes_init by done. unfold UpdateShape. cbn [obind dim_vec Shape_of].
  rewrite length_map. unfold CHECK. simpl. unfold view_NumAxes in *.
  rewrite Hn, Z.eqb_refl. simpl. apply at_Ret in Hra as Hra'. destruct Hra' as [H0 Hlk].
  apply lookup_lt_Some in Hlk as Hlt.
  rewrite (proj2 (Z.leb_le 0 axis)), (proj2 (Z.ltb_lt axis _)) by lia. simpl.
  unfold view_At. rewrite Hra. simpl. by rewrite Hrb.
Qed.

(** [Concatenate] accepts two slices that are not adjacent on the concatenated
    axis (the last pair is never compared): the box it returns contains points
    of neither slice.  Here [0,2) and [5,9) give [0,9). *)
Theorem Concatenate_accepts_gap :
  let a := view_of_ranges [mkRange 0 2] in
  let b := view_of_ranges [mkRange 5 9] in
  ∃ r, Concatenate [a; b] 0 = Ret r ∧ in_view [3] r ∧ ¬ in_view [3] a ∧ ¬ in_view [3] b.
Proof.
  intros a b. exists (view_of_ranges [mkRange 0 9]).
  split; [reflexivity|]. unfold in_view, a, b; simpl. split.
  - repeat constructor; unfold in_range; simpl; lia.
  - split; intros H; inversion H as [|?? ?? Hx _]; subst;
      unfold in_range in *; simpl in *; lia.
Qed.
