(* ===== verification/NdSbp.v ===== *)
(** * Placing a logical tensor on a grid of devices

    Models [oneflow/core/job/nd_sbp_util.cpp] and the physical shapes of
    [oneflow/core/operator/operator.cpp] ([GetPhysicalShape], [GetLogicalShape]) with
    [CalcIndex4Axis] of [framework/placement_sbp_util.cpp].  The devices of a
    placement form a grid, the parallel hierarchy; an [NdSbp] says for every axis of
    the grid whether the tensor is split over it along one of its own axes,
    broadcast, or a partial sum.  [GetTensorSliceView] computes the box of the
    logical tensor that each device holds.

    The repeated field of an [NdSbp] is a list; reading it or a vector out of range
    is an abort.  A [BlobDesc] is its shape, a placement its hierarchy. *)
From S2P Require Import Prelude Splitter Shape NdIndex TensorSlice.

(** ** Signatures *)

(** [oneof parallel_type]. *)
Inductive SbpParallel :=
| split_parallel (axis : Z)
| broadcast_parallel
| partial_sum_parallel
| parallel_type_not_set.

#[export] Instance SbpParallel_eq_dec : EqDecision SbpParallel.
Proof. solve_decision. Defined.

Definition has_split_parallel (s : SbpParallel) : bool := match s with split_parallel _ => true | _ => false end.
Definition has_broadcast_parallel (s : SbpParallel) : bool := match s with broadcast_parallel => true | _ => false end.
Definition has_partial_sum_parallel (s : SbpParallel) : bool :=
  match s with partial_sum_parallel => true | _ => false end.

Definition NdSbpHasPartialParallel (nd_sbp : list SbpParallel) : outcome bool :=
  let* _ := CHECK (Nat.ltb 0 (length nd_sbp)) in Ret (existsb has_partial_sum_parallel nd_sbp).
Definition NdSbpHasBroadcastParallel (nd_sbp : list SbpParallel) : outcome bool :=
  let* _ := CHECK (Nat.ltb 0 (length nd_sbp)) in Ret (existsb has_broadcast_parallel nd_sbp).
Definition NdSbpIsAllBroadcast (nd_sbp : list SbpParallel) : bool := forallb has_broadcast_parallel nd_sbp.
Definition NdSbpIsAllPartialSum (nd_sbp : list SbpParallel) : bool := forallb has_partial_sum_parallel nd_sbp.
Definition NdSbpIsAllSplit (nd_sbp : list SbpParallel) (axis : Z) : bool :=
  forallb (λ s, bool_decide (s = split_parallel axis)) nd_sbp.

(** ** One-dimensional hierarchies *)

Definition full_ranges (shape : Shape) : outcome (list Range) :=
  let* _ := NumAxes shape in Ret (map (mkRange 0) (dim_vec shape)).

(** The body of the loop over the parts of a split axis. *)
Definition part_view (ranges : list Range) (axis : Z) (bs : BalancedSplitter) (i : Z) : outcome TensorSliceView :=
  let* r := At bs i in
  if Range_size r =? 0 then Ret empty_view else Ret (view_of_ranges (<[Z.to_nat axis := r]> ranges)).

Definition GetTensorSliceView1d (parallel_num : Z) (sbp_parallel : SbpParallel) (shape : Shape)
    : outcome (list TensorSliceView) :=
  let* n := NumAxes shape in
  let* ranges := full_ranges shape in
  let ranges := if n =? 0 then ranges ++ [mkRange 0 1] else ranges in
  match sbp_parallel with
  | partial_sum_parallel | broadcast_parallel =>
      Ret (map (λ _, view_of_ranges ranges) (range_list 0 parallel_num))
  | split_parallel axis =>
      let* _ := CHECK (axis <? n) in
      let* dim := shape_At shape axis in
      let* bs := new_BalancedSplitter dim parallel_num in
      omap_list (part_view ranges axis bs) (range_list 0 parallel_num)
  | parallel_type_not_set => Crash
  end.

(** ** Any hierarchy *)

(** One axis of the hierarchy: [physical_shape] and [ranges]. *)
Definition split_axis_step (parallel_hierarchy : Shape) (nd_sbp : list SbpParallel) (parallel_rank : list Z)
    (st : Shape * list Range) (i : Z) : outcome (Shape * list Range) :=
  let '(physical_shape, ranges) := st in
  let* sbp_parallel := at_ nd_sbp i in
  match sbp_parallel with
  | split_parallel split_axis =>
      let* _ := CHECK (0 <=? split_axis) in
      let* _ := CHECK (split_axis <? Z.of_nat (length ranges)) in
      let* h := shape_At parallel_hierarchy i in
      let* cur := at_ ranges split_axis in
      let* _ := CHECK (h <=? Range_size cur) in
      let* dim := shape_At physical_shape split_axis in
      let* bs := new_BalancedSplitter dim h in
      let* rank := at_ parallel_rank i in
      let* range := At bs rank in
      let range_size := Range_size range in
      let dim_start := begin cur + begin range in
      let* physical_shape := Shape_Set physical_shape split_axis range_size in
      Ret (physical_shape, <[Z.to_nat split_axis := mkRange dim_start (dim_start + range_size)]> ranges)
  | _ => Ret st
  end.

Definition GetTensorSliceView4ParallelRank (parallel_hierarchy : Shape) (nd_sbp : list SbpParallel)
    (logical_shape : Shape) (parallel_rank : list Z) : outcome TensorSliceView :=
  let* ranges := full_ranges logical_shape in
  if elem_cnt parallel_hierarchy =? 1 then Ret (view_of_ranges ranges) else
  let* n := NumAxes parallel_hierarchy in
  if n =? 1 then
    let* sbp_parallel := at_ nd_sbp 0 in
    match sbp_parallel with
    | split_parallel split_axis =>
        let* _ := CHECK (0 <=? split_axis) in
        let* _ := CHECK (split_axis <? Z.of_nat (length ranges)) in
        let* id := at_ parallel_rank 0 in
        let* _ := CHECK (0 <=? id) in
        let* _ := CHECK (id <? elem_cnt parallel_hierarchy) in
        let* dim := shape_At logical_shape split_axis in
        let* bs := new_BalancedSplitter dim (elem_cnt parallel_hierarchy) in
        let* range := At bs id in
        let* _ := CHECK (0 <? Range_size range) in
        Ret (view_of_ranges (<[Z.to_nat split_axis := range]> ranges))
    | _ => Ret (view_of_ranges ranges)
    end
  else
    let* (_, ranges) := ofold (split_axis_step parallel_hierarchy nd_sbp parallel_rank) (range_list 0 n)
                          (logical_shape, ranges) in
    Ret (view_of_ranges ranges).

Definition SHAPE_MAX_AXIS_SIZE : nat := 20.

Definition GetTensorSliceView4ParallelId (parallel_hierarchy : Shape) (nd_sbp : list SbpParallel)
    (logical_shape : Shape) (parallel_id : Z) : outcome TensorSliceView :=
  let stride := InitStrides SHAPE_MAX_AXIS_SIZE (dim_vec parallel_hierarchy) (length (dim_vec parallel_hierarchy)) in
  GetTensorSliceView4ParallelRank parallel_hierarchy nd_sbp logical_shape (OffsetToNdIndex stride parallel_id).

Definition GetTensorSliceView (parallel_hierarchy : Shape) (nd_sbp : list SbpParallel) (logical_shape : Shape)
    : outcome (list TensorSliceView) :=
  omap_list (GetTensorSliceView4ParallelId parallel_hierarchy nd_sbp logical_shape)
    (range_list 0 (elem_cnt parallel_hierarchy)).

Definition GetBroadcastTensorSliceView (shape : Shape) : TensorSliceView := view_of_shape shape.

(** ** Physical shapes *)

Definition CalcIndex4Axis (offset : Z) (stride : list Z) (axis : Z) : outcome Z :=
  let* _ := CHECK (axis <? Z.of_nat (length stride)) in
  if axis =? 0 then
    let* s := at_ stride 0 in
    if s =? 0 then Crash else Ret (Z.quot offset s)
  else
    let* s0 := at_ stride (axis - 1) in
    let* s := at_ stride axis in
    if (s0 =? 0) || (s =? 0) then Crash else Ret (Z.quot (Z.rem offset s0) s).

Definition Get1dHierarchyPhysicalShape (logical_shape : Shape) (sbp_parallel : SbpParallel)
    (parallel_num parallel_id : Z) : outcome Shape :=
  match sbp_parallel with
  | split_parallel axis =>
      let* dim := shape_At logical_shape axis in
      if 0 <? dim then
        let* _ := CHECK_OR_RETURN (parallel_num <=? dim) CheckFailedError in
        let* bs := new_BalancedSplitter dim parallel_num in
        let* r := At bs parallel_id in
        Shape_Set logical_shape axis (Range_size r)
      else Ret logical_shape
  | broadcast_parallel | partial_sum_parallel => Ret logical_shape
  | parallel_type_not_set => Crash
  end.

Definition physical_step (parallel_hierarchy : Shape) (nd_sbp : list SbpParallel) (hierarch_stride : list Z)
    (parallel_id : Z) (physical : Shape) (i : Z) : outcome Shape :=
  let* sbp_parallel := at_ nd_sbp i in
  match sbp_parallel with
  | split_parallel split_axis =>
      let* dim := shape_At physical split_axis in
      if 0 <? dim then
        let* h := shape_At parallel_hierarchy i in
        let* _ := CHECK_OR_RETURN (h <=? dim) RuntimeError in
        let* bs := new_BalancedSplitter dim h in
        let* index := CalcIndex4Axis parallel_id hierarch_stride i in
        let* r := At bs index in
        Shape_Set physical split_axis (Range_size r)
      else Ret physical
  | _ => Ret physical
  end.

Definition GetNdHierarchyPhysicalShape (logical_shape : Shape) (nd_sbp : list SbpParallel)
    (parallel_hierarchy : Shape) (parallel_id : Z) : outcome Shape :=
  let* hierarch_stride := Stride_of_shape parallel_hierarchy in
  let* n := NumAxes parallel_hierarchy in
  ofold (physical_step parallel_hierarchy nd_sbp hierarch_stride parallel_id) (range_list 0 n) logical_shape.

Definition GetPhysicalShape (logical_shape : Shape) (nd_sbp : list SbpParallel) (hierarchy : Shape)
    (parallel_id : Z) : outcome Shape :=
  let* _ := CHECK_OR_RETURN (0 <=? parallel_id) CheckFailedError in
  let* _ := CHECK_OR_RETURN (parallel_id <? elem_cnt hierarchy) CheckFailedError in
  let* n := NumAxes hierarchy in
  let* _ := CHECK_OR_RETURN (n =? Z.of_nat (length nd_sbp)) CheckFailedError in
  if n =? 1 then
    let* s := at_ nd_sbp 0 in
    Get1dHierarchyPhysicalShape logical_shape s (elem_cnt hierarchy) parallel_id
  else GetNdHierarchyPhysicalShape logical_shape nd_sbp hierarchy parallel_id.

(** [for (int i = NumAxes() - 1; i >= 0; --i)]. *)
Definition logical_step (hierarchy : Shape) (nd_sbp : list SbpParallel) (s : Shape) (i : Z) : outcome Shape :=
  let* sbp_parallel := at_ nd_sbp i in
  match sbp_parallel with
  | split_parallel split_axis =>
      let* dim := shape_At s split_axis in
      let* h := shape_At hierarchy i in
      Shape_Set s split_axis (i64 (dim * h))
  | _ => Ret s
  end.

Definition GetLogicalShape (physical_shape : Shape) (nd_sbp : list SbpParallel) (hierarchy : Shape) : outcome Shape :=
  let* n := NumAxes hierarchy in
  let* _ := CHECK_OR_RETURN (n =? Z.of_nat (length nd_sbp)) CheckFailedError in
  ofold (logical_step hierarchy nd_sbp) (reverse (range_list 0 n)) physical_shape.

(** A 2 x 3 grid: the first axis splits the rows, the second the columns. *)
Example grid_views :
  (let* vs := GetTensorSliceView (Shape_of [2; 3]) [split_parallel 0; split_parallel 1] (Shape_of [5; 7]) in
   Ret (map range_vec vs)) =
  Ret [[mkRange 0 3; mkRange 0 3]; [mkRange 0 3; mkRange 3 5]; [mkRange 0 3; mkRange 5 7];
       [mkRange 3 5; mkRange 0 3]; [mkRange 3 5; mkRange 3 5]; [mkRange 3 5; mkRange 5 7]] ∧
  GetPhysicalShape (Shape_of [5; 7]) [split_parallel 0; split_parallel 1] (Shape_of [2; 3]) 5 = Ret (Shape_of [2; 2]).
Proof. split; vm_compute; reflexivity. Qed.

(** Both axes of the grid split the same axis of the tensor. *)
Example nested_split :
  (let* vs := GetTensorSliceView (Shape_of [2; 2]) [split_parallel 0; split_parallel 0] (Shape_of [5]) in
   Ret (map range_vec vs)) =
  Ret [[mkRange 0 2]; [mkRange 2 3]; [mkRange 3 4]; [mkRange 4 5]].
Proof. vm_compute. reflexivity. Qed.
