(* ===== verification/NdSbpSpec.v ===== *)
(** * The pieces of a logical tensor tile it

    The boxes that [NdSbp] gives to the devices of a grid: every element of the
    logical tensor lies in the box of exactly one device for each choice of the
    coordinates along which the tensor is not split; and the physical shape that
    [GetPhysicalShape] computes on its own is the shape of that box. *)
From S2P Require Import Prelude Splitter Shape NdIndex TensorSlice NdSbp.

(** ** Cutting one range *)

Definition splitter_of (R : Range) (h : Z) : BalancedSplitter :=
  mkSplitter (Z.quot (Range_size R) h) (Z.rem (Range_size R) h) h.

(** Part [k] of [h] of a range. *)
Definition chunk (R : Range) (h k : Z) : Range :=
  mkRange (begin R + bound (splitter_of R h) k) (begin R + bound (splitter_of R h) (k + 1)).

Section Chunk.
Context (R : Range) (h : Z) (Hh : 0 < h) (HR : 0 ≤ Range_size R).

Lemma splitter_of_new : new_BalancedSplitter (Range_size R) h = Ret (splitter_of R h) ∧
  splitter_wf (splitter_of R h) ∧ splitter_total (splitter_of R h) = Range_size R.
Proof.
  destruct (new_BalancedSplitter_wf (Range_size R) h HR Hh) as (s & E & Hwf & Hn & Ht).
  assert (Es : s = splitter_of R h).
  { unfold new_BalancedSplitter in E. destruct (h =? 0); [done|]. inv_ret. done. }
  by subst s.
Qed.

Lemma chunk_bounds (k : Z) : 0 ≤ k < h →
  begin R ≤ begin (chunk R h k) ∧ end_ (chunk R h k) ≤ end_ R ∧
  Range_size R / h ≤ Range_size (chunk R h k).
Proof.
  intros Hk. destruct splitter_of_new as (_ & [Hp Hb] & Ht). set (s := splitter_of R h) in *.
  assert (E0 : bound s 0 = 0) by (unfold bound; lia).
  assert (Eh : bound s h = Range_size R).
  { unfold bound. unfold splitter_total in Ht. change (split_num_ s) with h in *. lia. }
  pose proof (bound_mono s 0 k Hp). pose proof (bound_mono s (k + 1) h Hp).
  unfold chunk. fold s. cbn [begin end_]. unfold Range_size at 2. cbn [begin end_].
  assert (Eq : base_part_size_ s = Range_size R / h) by (unfold s; cbn; apply Z.quot_div_nonneg; lia).
  unfold Range_size in *. split_and!; [lia|lia|]. rewrite <- Eq. unfold bound. lia.
Qed.

Lemma chunk_sub (v k : Z) : 0 ≤ k < h → in_range v (chunk R h k) → in_range v R.
Proof. intros Hk. pose proof (chunk_bounds k Hk). unfold in_range. lia. Qed.

Lemma chunk_find (v : Z) : in_range v R → ∃ k, 0 ≤ k < h ∧ in_range v (chunk R h k).
Proof.
  intros Hv. destruct splitter_of_new as (_ & Hwf & Ht).
  destruct (GetRangeIndexForVal_in (splitter_of R h) (v - begin R) Hwf) as (k & _ & Hk & Hin).
  { rewrite Ht. unfold in_range, Range_size in *. lia. }
  exists k. split; [exact Hk|]. unfold in_range, chunk. cbn [begin end_]. lia.
Qed.

Lemma chunk_unique (v k1 k2 : Z) : in_range v (chunk R h k1) → in_range v (chunk R h k2) → k1 = k2.
Proof.
  destruct splitter_of_new as (_ & [Hp _] & _). unfold in_range, chunk. cbn [begin end_]. intros H1 H2.
  destruct (Z.lt_trichotomy k1 k2) as [|[|]]; [|done|].
  - pose proof (bound_mono (splitter_of R h) (k1 + 1) k2 Hp). lia.
  - pose proof (bound_mono (splitter_of R h) (k2 + 1) k1 Hp). lia.
Qed.
End Chunk.

Lemma chunk_one (R : Range) : chunk R 1 0 = R.
Proof.
  unfold chunk, bound, splitter_of. cbn [base_part_size_ base_begin_idx_ split_num_].
  rewrite Z.quot_1_r, Z.rem_1_r. destruct R as [b e]. unfold Range_size. cbn [begin end_]. f_equal; lia.
Qed.

(** ** Cutting a box *)

(** The box of the device at [ks] in the grid [hs]. *)
Fixpoint split_ranges (sbps : list SbpParallel) (hs ks : list Z) (ranges : list Range) : list Range :=
  match sbps, hs, ks with
  | split_parallel a :: sbps, h :: hs, k :: ks =>
      split_ranges sbps hs ks (alter (λ R, chunk R h k) (Z.to_nat a) ranges)
  | _ :: sbps, _ :: hs, _ :: ks => split_ranges sbps hs ks ranges
  | _, _, _ => ranges
  end.

(** Into how many parts axis [a] is cut. *)
Fixpoint parts (a : nat) (sbps : list SbpParallel) (hs : list Z) : Z :=
  match sbps, hs with
  | split_parallel x :: sbps, h :: hs => if decide (Z.to_nat x = a) then h * parts a sbps hs else parts a sbps hs
  | _ :: sbps, _ :: hs => parts a sbps hs
  | _, _ => 1
  end.

(** Split axes are axes of the tensor. *)
Definition valid_axes (n : nat) (sbps : list SbpParallel) : Prop :=
  Forall (λ s, match s with split_parallel x => 0 ≤ x < Z.of_nat n | _ => True end) sbps.

(** Every axis is long enough for the parts it is cut into. *)
Definition enough (sbps : list SbpParallel) (hs : list Z) (ranges : list Range) : Prop :=
  ∀ a R, ranges !! a = Some R → parts a sbps hs ≤ Range_size R.

(** Coordinates that agree where the tensor is not split, and where it is. *)
Definition same_unsplit (sbps : list SbpParallel) (ks ks' : list Z) : Prop :=
  Forall3 (λ s k k', has_split_parallel s = false → k = k') sbps ks ks'.
Definition same_split (sbps : list SbpParallel) (ks ks' : list Z) : Prop :=
  Forall3 (λ s k k', has_split_parallel s = true → k = k') sbps ks ks'.

Definition in_box (p : list Z) (ranges : list Range) : Prop := Forall2 in_range p ranges.

Lemma in_box_alter (p : list Z) (ranges : list Range) (a : nat) (f : Range → Range) (v : Z) (R : Range) :
  p !! a = Some v → ranges !! a = Some R → in_box p ranges → in_range v (f R) → in_box p (alter f a ranges).
Proof.
  intros Hv HR Hin Hf. apply Forall2_same_length_lookup_2.
  - rewrite length_alter. by eapply Forall2_length.
  - intros i x S Hx HS. destruct (decide (i = a)) as [->|Hne].
    + rewrite list_lookup_alter_eq, HR in HS. by simplify_eq/=.
    + rewrite list_lookup_alter_ne in HS by done. by eapply Forall2_lookup_lr.
Qed.

Lemma in_box_at (p : list Z) (ranges : list Range) (a : nat) (f : Range → Range) (R : Range) :
  ranges !! a = Some R → in_box p (alter f a ranges) → ∃ v, p !! a = Some v ∧ in_range v (f R).
Proof.
  intros HR Hin. assert (HfR : alter f a ranges !! a = Some (f R)) by (by rewrite list_lookup_alter_eq, HR).
  by destruct (Forall2_lookup_r _ _ _ _ _ Hin HfR) as (v & ? & ?); exists v.
Qed.

Lemma in_box_sub (p : list Z) (ranges : list Range) (a : nat) (f : Range → Range) :
  (∀ v R, ranges !! a = Some R → in_range v (f R) → in_range v R) → in_box p (alter f a ranges) → in_box p ranges.
Proof.
  intros Hf Hin. apply Forall2_same_length_lookup_2.
  - apply Forall2_length in Hin. by rewrite length_alter in Hin.
  - intros i x S Hx HS. destruct (decide (i = a)) as [->|Hne].
    + apply (Hf x S HS). eapply Forall2_lookup_lr; [exact Hin|exact Hx|]. by rewrite list_lookup_alter_eq, HS.
    + eapply Forall2_lookup_lr; [exact Hin|exact Hx|]. by rewrite list_lookup_alter_ne.
Qed.

Lemma parts_pos (a : nat) (sbps : list SbpParallel) (hs : list Z) : Forall (λ h, 0 < h) hs → 1 ≤ parts a sbps hs.
Proof.
  intros Hh. revert sbps. induction Hh as [|h hs Hh _ IH]; intros [|[x| | |] sbps]; cbn [parts]; try lia; try apply IH.
  case_decide; [|apply IH]. specialize (IH sbps). nia.
Qed.

(** One cut leaves enough for the cuts to come. *)
Lemma enough_cut (x h k : Z) (sbps : list SbpParallel) (hs : list Z) (ranges : list Range) :
  0 < h → 0 ≤ k < h → Forall (λ h, 0 < h) hs → enough (split_parallel x :: sbps) (h :: hs) ranges →
  enough sbps hs (alter (λ R, chunk R h k) (Z.to_nat x) ranges).
Proof.
  intros Hh Hk Hhs He a S HS. destruct (decide (a = Z.to_nat x)) as [->|Hne].
  - rewrite list_lookup_alter_eq in HS. apply fmap_Some in HS as (R & HR & ->). specialize (He _ R HR).
    cbn [parts] in He. rewrite decide_True in He by done. pose proof (parts_pos (Z.to_nat x) sbps hs Hhs).
    destruct (chunk_bounds R h Hh ltac:(nia) k Hk) as (_ & _ & Hc).
    assert (parts (Z.to_nat x) sbps hs ≤ Range_size R / h) by (apply Z.div_le_lower_bound; lia). lia.
  - rewrite list_lookup_alter_ne in HS by done. specialize (He a S HS). cbn [parts] in He.
    by rewrite decide_False in He by done.
Qed.

Lemma enough_skip (s : SbpParallel) (h : Z) (sbps : list SbpParallel) (hs : list Z) (ranges : list Range) :
  has_split_parallel s = false → enough (s :: sbps) (h :: hs) ranges → enough sbps hs ranges.
Proof. intros Hs He a R HR. specialize (He a R HR). by destruct s. Qed.

Lemma index_in_pos (ks hs : list Z) : index_in ks hs → Forall (λ h, 0 < h) hs.
Proof. induction 1 as [|k h ks hs Hk _ IH]; constructor; [lia|done]. Qed.

Lemma split_ranges_sub (sbps : list SbpParallel) (hs ks : list Z) (ranges : list Range) (p : list Z) :
  index_in ks hs → enough sbps hs ranges → in_box p (split_ranges sbps hs ks ranges) → in_box p ranges.
Proof.
  intros Hk. revert sbps ranges. induction Hk as [|k h ks hs Hk Hks IH]; intros [|s sbps] ranges He; try done.
  { by destruct s. }
  assert (Hhs : Forall (λ h, 0 < h) hs) by (by eapply index_in_pos).
  destruct s as [x| | |]; cbn [split_ranges]; [|intros; eapply IH; [eapply enough_skip; [|exact He]; done|done]..].
  intros Hin. assert (Hsub : in_box p (alter (λ R, chunk R h k) (Z.to_nat x) ranges)).
  { eapply IH; [|exact Hin]. apply enough_cut; (done || lia). }
  eapply in_box_sub; [|exact Hsub]. intros v R HR. apply chunk_sub; [lia| |lia].
  specialize (He _ R HR). pose proof (parts_pos (Z.to_nat x) (split_parallel x :: sbps) (h :: hs)
    ltac:(constructor; [lia|done])). lia.
Qed.

(** Every element is somewhere, whatever the coordinates that do not matter. *)
Lemma split_ranges_find (sbps : list SbpParallel) (hs ks : list Z) (ranges : list Range) (p : list Z) :
  index_in ks hs → length sbps = length hs → valid_axes (length ranges) sbps → enough sbps hs ranges → in_box p ranges →
  ∃ ks', index_in ks' hs ∧ same_unsplit sbps ks ks' ∧ in_box p (split_ranges sbps hs ks' ranges).
Proof.
  intros Hk. revert sbps ranges.
  induction Hk as [|k h ks hs Hk Hks IH]; intros [|s sbps] ranges Hl Hv He Hin; try done.
  { exists []. split_and!; [constructor..|done]. }
  apply Forall_cons in Hv as [Hs Hv]. cbn [length] in Hl.
  assert (Hhs : Forall (λ h, 0 < h) hs) by (by eapply index_in_pos).
  destruct (has_split_parallel s) eqn:Esp.
  - destruct s as [x| | |]; try done. destruct (lookup_lt_is_Some_2 ranges (Z.to_nat x)) as [R HR]; [lia|].
    destruct (Forall2_lookup_r _ _ _ _ _ Hin HR) as (v & Hpv & HvR).
    assert (HRn : 0 ≤ Range_size R) by (unfold in_range, Range_size in *; lia).
    destruct (chunk_find R h ltac:(lia) HRn v HvR) as (k' & Hk' & Hvk).
    destruct (IH sbps (alter (λ R, chunk R h k') (Z.to_nat x) ranges)) as (ks' & H1 & H2 & H3).
    + lia.
    + by rewrite length_alter.
    + apply enough_cut; (done || lia).
    + by eapply in_box_alter.
    + exists (k' :: ks'). split_and!; [by constructor|by constructor|done].
  - destruct (IH sbps ranges) as (ks' & H1 & H2 & H3); [lia|done|eapply enough_skip; [|exact He]; done|done|].
    exists (k :: ks'). split_and!; [by constructor|by constructor|]. by destruct s.
Qed.

(** Two devices that hold the same element differ only where the tensor is not split. *)
Lemma split_ranges_unique (sbps : list SbpParallel) (hs ks1 ks2 : list Z) (ranges : list Range) (p : list Z) :
  index_in ks1 hs → index_in ks2 hs → length sbps = length hs → valid_axes (length ranges) sbps →
  enough sbps hs ranges →
  in_box p (split_ranges sbps hs ks1 ranges) → in_box p (split_ranges sbps hs ks2 ranges) → same_split sbps ks1 ks2.
Proof.
  intros Hk1. revert sbps ks2 ranges. induction Hk1 as [|k1 h ks1 hs Hk1 Hks1 IH]; intros [|s sbps] ks2 ranges Hk2 Hl Hv He;
    try done.
  { apply Forall2_nil_inv_r in Hk2 as ->. constructor. }
  apply Forall2_cons_inv_r in Hk2 as (k2 & ks2' & Hk2 & Hks2 & ->). apply Forall_cons in Hv as [Hs Hv]. cbn [length] in Hl.
  assert (Hhs : Forall (λ h, 0 < h) hs) by (by eapply index_in_pos).
  destruct (has_split_parallel s) eqn:Esp.
  - destruct s as [x| | |]; try done. cbn [split_ranges]. intros H1 H2.
    destruct (lookup_lt_is_Some_2 ranges (Z.to_nat x)) as [R HR]; [lia|].
    assert (HRn : 0 ≤ Range_size R).
    { specialize (He _ R HR). pose proof (parts_pos (Z.to_nat x) (split_parallel x :: sbps) (h :: hs)
        ltac:(constructor; [lia|done])). lia. }
    assert (He' : ∀ k, 0 ≤ k < h → enough sbps hs (alter (λ R, chunk R h k) (Z.to_nat x) ranges))
      by (intros; apply enough_cut; (done || lia)).
    pose proof (split_ranges_sub _ _ _ _ _ Hks1 (He' k1 Hk1) H1) as B1.
    pose proof (split_ranges_sub _ _ _ _ _ Hks2 (He' k2 Hk2) H2) as B2.
    destruct (in_box_at _ _ _ _ _ HR B1) as (v & Hpv & V1). destruct (in_box_at _ _ _ _ _ HR B2) as (v' & Hpv' & V2).
    simplify_eq. assert (k1 = k2) as -> by (eapply (chunk_unique R h); [lia|done|exact V1|exact V2]).
    constructor; [done|]. eapply IH; [exact Hks2|lia| |by apply (He' k2)|exact H1|exact H2]. by rewrite length_alter.
  - intros H1 H2. constructor; [by rewrite Esp|].
    eapply (IH sbps ks2' ranges); [done|lia|done|eapply enough_skip; [|exact He]; done|by destruct s|by destruct s].
Qed.

(** ** The loops compute the cuts *)

Lemma alter_insert_at {A : Type} (f : A → A) (a : nat) (l : list A) (x : A) :
  l !! a = Some x → <[a := f x]> l = alter f a l.
Proof.
  intros Hx. apply list_eq. intros i. destruct (decide (i = a)) as [->|Hne].
  - rewrite list_lookup_insert_eq, list_lookup_alter_eq, Hx by (by eapply lookup_lt_Some). done.
  - by rewrite list_lookup_insert_ne, list_lookup_alter_ne.
Qed.

Lemma map_alter_at {A B : Type} (g : A → B) (f : A → A) (a : nat) (l : list A) (x : A) :
  l !! a = Some x → map g (alter f a l) = <[a := g (f x)]> (map g l).
Proof. intros Hx. rewrite <- (alter_insert_at f a l x Hx). apply (list_fmap_insert g). Qed.

Lemma chunk_shift (R : Range) (h k : Z) :
  mkRange (begin R + bound (splitter_of R h) k)
    (begin R + bound (splitter_of R h) k + (bound (splitter_of R h) (k + 1) - bound (splitter_of R h) k)) = chunk R h k.
Proof. unfold chunk. f_equal. lia. Qed.

(** The part that a splitter of a side gives. *)
Lemma splitter_At (R : Range) (h k : Z) : 0 < h → 0 ≤ Range_size R → 0 ≤ k < h →
  (let* bs := new_BalancedSplitter (Range_size R) h in At bs k) =
  Ret (mkRange (bound (splitter_of R h) k) (bound (splitter_of R h) (k + 1))).
Proof.
  intros Hh HR Hk. destruct (splitter_of_new R h Hh HR) as (-> & _). cbn [obind].
  rewrite At_bounds. change (split_num_ (splitter_of R h)) with h. destruct (Z.ltb_spec k h); [done|lia].
Qed.

Lemma shape_At_ok (dims : list Z) (x d : Z) : 0 ≤ x → dims !! Z.to_nat x = Some d → shape_At (Shape_of dims) x = Ret d.
Proof. intros Hx Hd. apply shape_At_Ret; [done|]. by apply at_Ret. Qed.

Lemma Shape_Set_ok (dims : list Z) (x v : Z) : 0 ≤ x < Z.of_nat (length dims) →
  Shape_Set (Shape_of dims) x v = Ret (Shape_of (<[Z.to_nat x := v]> dims)).
Proof.
  intros Hx. unfold Shape_Set, NumAxes, CHECK. cbn [is_initialized Shape_of obind].
  destruct (Z.leb_spec 0 x); [|lia]. cbn [obind dim_vec Shape_of].
  destruct (Z.ltb_spec x (Z.of_nat (length dims))); [done|lia].
Qed.

(** What a cut needs of the axis it cuts. *)
Lemma cut_axis (x h k : Z) (sbps : list SbpParallel) (hs : list Z) (ranges : list Range) :
  0 ≤ x < Z.of_nat (length ranges) → 0 < h → Forall (λ h, 0 < h) hs →
  enough (split_parallel x :: sbps) (h :: hs) ranges →
  ∃ R, ranges !! Z.to_nat x = Some R ∧ h ≤ Range_size R.
Proof.
  intros Hx Hh Hhs He. destruct (lookup_lt_is_Some_2 ranges (Z.to_nat x)) as [R HR]; [lia|].
  exists R. split; [done|]. specialize (He _ R HR). cbn [parts] in He. rewrite decide_True in He by done.
  pose proof (parts_pos (Z.to_nat x) sbps hs Hhs). nia.
Qed.

Lemma drop_step {A : Type} (i : nat) (l t : list A) (x : A) : drop i l = x :: t →
  l !! i = Some x ∧ drop (S i) l = t ∧ (i < length l)%nat.
Proof.
  intros E. assert (Hx : l !! i = Some x) by (by rewrite <- (Nat.add_0_r i), <- lookup_drop, E).
  split_and!; [done| |by eapply lookup_lt_Some]. replace (S i) with (i + 1)%nat by lia. by rewrite <- drop_drop, E.
Qed.

Lemma take_drop_step {A : Type} (i n : nat) (l t : list A) (x : A) : take (S n) (drop i l) = x :: t →
  l !! i = Some x ∧ take n (drop (S i) l) = t.
Proof.
  intros E. destruct (drop i l) as [|y r] eqn:Ed; [done|]. cbn in E. simplify_eq.
  destruct (drop_step _ _ _ _ Ed) as (? & -> & _). done.
Qed.

Section Loops.
Context (hierarchy : list Z) (nd_sbp : list SbpParallel) (rank : list Z).

Lemma split_axis_step_cut (i : nat) (x h k : Z) (R : Range) (ranges : list Range) :
  nd_sbp !! i = Some (split_parallel x) → hierarchy !! i = Some h → rank !! i = Some k →
  0 ≤ x < Z.of_nat (length ranges) → ranges !! Z.to_nat x = Some R → 0 ≤ k < h → h ≤ Range_size R →
  split_axis_step (Shape_of hierarchy) nd_sbp rank (Shape_of (map Range_size ranges), ranges) (Z.of_nat i) =
  let ranges' := alter (λ R, chunk R h k) (Z.to_nat x) ranges in Ret (Shape_of (map Range_size ranges'), ranges').
Proof.
  intros Hs Hh Hk Hx HR Hkh HhR. cbv zeta. unfold split_axis_step. rewrite (at_nat _ _ _ Hs). cbn [obind].
  unfold CHECK. destruct (Z.leb_spec 0 x); [|lia]. destruct (Z.ltb_spec x (Z.of_nat (length ranges))); [|lia].
  cbn [obind]. rewrite (shape_At_nat (Shape_of hierarchy) i h) by done. cbn [obind].
  rewrite (proj2 (at_Ret ranges x R)) by done. cbn [obind]. destruct (Z.leb_spec h (Range_size R)); [|lia]. cbn [obind].
  rewrite (shape_At_ok _ x (Range_size R)) by (lia || by rewrite list_lookup_fmap, HR). cbn [obind].
  destruct (splitter_of_new R h ltac:(lia) ltac:(lia)) as (-> & _). cbn [obind].
  rewrite (at_nat _ _ _ Hk). cbn [obind]. rewrite At_bounds. change (split_num_ (splitter_of R h)) with h.
  destruct (Z.ltb_spec k h); [|lia]. cbn [obind]. rewrite Shape_Set_ok by (by rewrite length_map). cbn [obind].
  unfold Range_size at 1 3. cbn [begin end_]. rewrite chunk_shift.
  rewrite (alter_insert_at (λ R, chunk R h k) _ _ R HR). do 3 f_equal.
  rewrite (map_alter_at Range_size _ _ _ R HR). f_equal. unfold chunk, Range_size. cbn [begin end_]. lia.
Qed.

Lemma split_loop (sbps : list SbpParallel) (hs ks : list Z) (i : nat) (ranges : list Range) :
  drop i nd_sbp = sbps → drop i hierarchy = hs → take (length hs) (drop i rank) = ks →
  length sbps = length hs → index_in ks hs → valid_axes (length ranges) sbps → enough sbps hs ranges →
  ofold (split_axis_step (Shape_of hierarchy) nd_sbp rank) (range_list (Z.of_nat i) (Z.of_nat (length hierarchy)))
    (Shape_of (map Range_size ranges), ranges) =
  Ret (Shape_of (map Range_size (split_ranges sbps hs ks ranges)), split_ranges sbps hs ks ranges).
Proof.
  intros Es Eh Ek Hl Hk. revert sbps i ranges Es Eh Ek Hl.
  induction Hk as [|k h ks hs Hk Hks IH]; intros [|s sbps] i ranges Es Eh Ek Hl Hv He; try done.
  { rewrite range_list_nil; [done|]. apply (f_equal length) in Eh. rewrite length_drop in Eh. cbn in Eh. lia. }
  destruct (drop_step _ _ _ _ Es) as (Hs_i & Es' & _), (drop_step _ _ _ _ Eh) as (Hh_i & Eh' & Hi).
  destruct (take_drop_step _ _ _ _ _ Ek) as [Hk_i Ek'].
  apply Forall_cons in Hv as [Hs Hv]. cbn [length] in Hl. assert (Hhs : Forall (λ h, 0 < h) hs) by (by eapply index_in_pos).
  rewrite range_list_S by lia. replace (Z.of_nat i + 1) with (Z.of_nat (S i)) by lia. cbn [ofold].
  destruct (has_split_parallel s) eqn:Esp.
  - destruct s as [x| | |]; try done. destruct (cut_axis x h k sbps hs ranges Hs ltac:(lia) Hhs He) as (R & HR & HhR).
    rewrite (split_axis_step_cut i x h k R ranges) by (done || lia). cbv zeta. cbn [obind].
    rewrite (IH sbps (S i)); [done|done|done|done|lia|by rewrite length_alter|]. apply enough_cut; (done || lia).
  - assert (Est : split_axis_step (Shape_of hierarchy) nd_sbp rank (Shape_of (map Range_size ranges), ranges) (Z.of_nat i)
      = Ret (Shape_of (map Range_size ranges), ranges)).
    { unfold split_axis_step. rewrite (at_nat _ _ _ Hs_i). cbn [obind]. by destruct s. }
    rewrite Est. cbn [obind]. rewrite (IH sbps (S i)); [by destruct s|done|done|done|lia|done|].
    eapply enough_skip; [|exact He]; done.
Qed.
End Loops.

(** ** Coordinates of a device *)

Lemma offset_of_app (k1 k2 h1 h2 : list Z) : length k1 = length h1 →
  offset_of (k1 ++ k2) (h1 ++ h2) = offset_of k1 h1 * prodZ h2 + offset_of k2 h2.
Proof.
  revert h1. induction k1 as [|k k1 IH]; intros [|h h1] Hl; try done. cbn [length] in Hl.
  rewrite <- !app_comm_cons. cbn [offset_of]. rewrite IH, prodZ_app by lia. lia.
Qed.

Lemma offset_of_head (k h : Z) (ks hs : list Z) : 0 ≤ k → index_in ks hs →
  Z.quot (offset_of (k :: ks) (h :: hs)) (prodZ hs) = k.
Proof.
  intros Hk Hks. pose proof (offset_of_range _ _ Hks). cbn [offset_of].
  rewrite Z.quot_div_nonneg by nia. rewrite Z.div_add_l by lia. rewrite Z.div_small; lia.
Qed.

Lemma index_in_split (i : nat) (k : Z) (ks hs : list Z) : index_in ks hs → ks !! i = Some k →
  ∃ k1 k2 h1 h h2, ks = k1 ++ k :: k2 ∧ hs = h1 ++ h :: h2 ∧ length k1 = i ∧ length h1 = i ∧
    index_in k1 h1 ∧ 0 ≤ k < h ∧ index_in k2 h2.
Proof.
  intros Hin. revert i. induction Hin as [|k0 h0 ks hs Hk Hks IH]; intros [|i] Hi; try done.
  - simplify_eq/=. exists [], ks, [], h0, hs. split_and!; try done; try constructor; lia.
  - destruct (IH i Hi) as (k1 & k2 & h1 & h & h2 & -> & -> & <- & El & H1 & H2 & H3).
    exists (k0 :: k1), k2, (h0 :: h1), h, h2. split_and!; [done|done|done|by cbn; rewrite El|by constructor|lia|lia|done].
Qed.

(** [CalcIndex4Axis] reads a coordinate back from a parallel id. *)
Lemma CalcIndex4Axis_ok (i : nat) (k : Z) (ks hs : list Z) : index_in ks hs → ks !! i = Some k →
  CalcIndex4Axis (offset_of ks hs) (row_major hs) (Z.of_nat i) = Ret k.
Proof.
  intros Hin Hi. destruct (index_in_split i k ks hs Hin Hi) as (k1 & k2 & h1 & h & h2 & -> & -> & L1 & L2 & H1 & Hk & H2).
  pose proof (prodZ_pos h2 (index_in_pos _ _ H2)) as Hp.
  assert (Hs : row_major (h1 ++ h :: h2) !! i = Some (prodZ h2)).
  { rewrite row_major_lookup by (rewrite length_app; cbn; lia). do 2 f_equal. subst i.
    replace (S (length k1)) with (length h1 + 1)%nat by lia. by rewrite <- drop_drop, drop_app_length. }
  unfold CalcIndex4Axis, CHECK. rewrite row_major_length, length_app. cbn [length].
  destruct (Z.ltb_spec (Z.of_nat i) (Z.of_nat (length h1 + S (length h2)))); [|lia]. cbn [obind].
  rewrite offset_of_app by lia. destruct i as [|i].
  - destruct k1, h1; try done. change (Z.of_nat 0 =? 0) with true. cbn iota. pose proof (at_nat _ 0 _ Hs) as Ha.
    change (Z.of_nat 0) with 0 in Ha. rewrite Ha. cbn [obind].
    destruct (Z.eqb_spec (prodZ h2) 0); [lia|]. f_equal. change (offset_of [] []) with 0. rewrite Z.mul_0_l, Z.add_0_l.
    apply offset_of_head; [lia|done].
  - destruct (Z.eqb_spec (Z.of_nat (S i)) 0); [lia|]. replace (Z.of_nat (S i) - 1) with (Z.of_nat i) by lia.
    assert (Hs0 : row_major (h1 ++ h :: h2) !! i = Some (prodZ (h :: h2))).
    { rewrite row_major_lookup by (rewrite length_app; cbn; lia). do 2 f_equal. rewrite <- L2. by rewrite drop_app_length. }
    rewrite (at_nat _ _ _ Hs0). cbn [obind]. rewrite (at_nat _ _ _ Hs). cbn [obind].
    assert (Hp0 : 0 < prodZ (h :: h2)) by (rewrite prodZ_cons; nia).
    destruct (Z.eqb_spec (prodZ (h :: h2)) 0); [lia|]. destruct (Z.eqb_spec (prodZ h2) 0); [lia|]. cbn [orb]. f_equal.
    assert (H2' : index_in (k :: k2) (h :: h2)) by (by constructor).
    pose proof (offset_of_range _ _ H1). pose proof (offset_of_range _ _ H2').
    rewrite Z.rem_mod_nonneg by nia. rewrite Z.add_comm, Z.mod_add, Z.mod_small by lia. apply offset_of_head; [lia|done].
Qed.

Lemma offset_loop_ones (n : nat) : offset_loop (replicate n 1) 0 = (replicate n 0, 0).
Proof. induction n as [|n IH]; [done|]. cbn [replicate offset_loop]. change (0 - 0 ÷ 1 * 1) with 0. by rewrite IH. Qed.

Lemma OffsetToNdIndex_last_one (stride : list Z) (x : Z) :
  OffsetToNdIndex (stride ++ [1]) x = (offset_loop (stride ++ [1]) x).1.
Proof.
  unfold OffsetToNdIndex. rewrite length_app. cbn [length]. rewrite Nat.add_sub, take_app_length, offset_loop_app.
  destruct (offset_loop stride x) as [i r]. cbn. by rewrite Z.quot_1_r.
Qed.

(** The rank vector of a device: its coordinates and zeros. *)
Lemma rank_vector (N : nat) (ks hs : list Z) : (1 ≤ length hs ≤ N)%nat → index_in ks hs →
  OffsetToNdIndex (InitStrides N hs (length hs)) (offset_of ks hs) = ks ++ replicate (N - length hs) 0.
Proof.
  intros Hl Hin. rewrite InitStrides_row_major by done.
  assert (∃ st, row_major hs ++ replicate (N - length hs) 1 = st ++ [1]) as [st Est].
  { destruct (N - length hs)%nat as [|m].
    - rewrite app_nil_r. eexists. apply take_row_major_last. by intros ->; cbn in Hl; lia.
    - rewrite replicate_S_end, app_assoc. by eexists. }
  rewrite Est, OffsetToNdIndex_last_one, <- Est, offset_loop_app, offset_loop_row_major by done.
  by rewrite offset_loop_ones.
Qed.

(** ** The box of a device *)

(** A signature that fits a grid and a tensor: one entry per axis of the grid, split
    axes that the tensor has, and no axis cut into more parts than it is long. *)
Record sbp_valid (hierarchy : list Z) (nd_sbp : list SbpParallel) (shape : list Z) : Prop := mkValid {
  valid_rank : (1 ≤ length hierarchy ≤ SHAPE_MAX_AXIS_SIZE)%nat;
  valid_pos : Forall (λ h, 0 < h) hierarchy;
  valid_len : length nd_sbp = length hierarchy;
  valid_axis : valid_axes (length shape) nd_sbp;
  valid_parts : ∀ a d, shape !! a = Some d → parts a nd_sbp hierarchy ≤ d
}.

Definition whole (shape : list Z) : list Range := map (mkRange 0) shape.

Definition slice_at (hierarchy : list Z) (nd_sbp : list SbpParallel) (shape ks : list Z) : list Range :=
  split_ranges nd_sbp hierarchy ks (whole shape).

Lemma whole_size (shape : list Z) : map Range_size (whole shape) = shape.
Proof.
  unfold whole. rewrite map_map. rewrite <- (map_id shape) at 2. apply map_ext. intros d.
  unfold Range_size. cbn [begin end_]. lia.
Qed.

Lemma split_ranges_ones (sbps : list SbpParallel) (hs ks : list Z) (ranges : list Range) :
  index_in ks hs → prodZ hs = 1 → split_ranges sbps hs ks ranges = ranges.
Proof.
  intros Hk. revert sbps ranges. induction Hk as [|k h ks hs Hk Hks IH]; intros [|s sbps] ranges Hp; try done.
  { by destruct s. }
  rewrite prodZ_cons in Hp. pose proof (prodZ_pos hs (index_in_pos _ _ Hks)).
  assert (h = 1) as -> by nia. assert (k = 0) as -> by lia. assert (Hp' : prodZ hs = 1) by lia.
  destruct s as [x| | |]; cbn [split_ranges]; rewrite IH by done; try done.
  apply list_eq. intros i. destruct (decide (i = Z.to_nat x)) as [->|Hne]; [|by rewrite list_lookup_alter_ne].
  rewrite list_lookup_alter_eq. destruct (ranges !! Z.to_nat x) as [R|]; [|done]. cbn. by rewrite chunk_one.
Qed.

Section Box.
Context (hierarchy : list Z) (nd_sbp : list SbpParallel) (shape : list Z) (HV : sbp_valid hierarchy nd_sbp shape).

Lemma whole_enough : enough nd_sbp hierarchy (whole shape).
Proof.
  intros a R HR. unfold whole in HR. rewrite list_lookup_fmap in HR. apply fmap_Some in HR as (d & Hd & ->).
  pose proof (valid_parts _ _ _ HV a d Hd). unfold Range_size. cbn [begin end_]. lia.
Qed.

Lemma whole_length : length (whole shape) = length shape.
Proof. unfold whole. by rewrite length_map. Qed.

(** The one-dimensional case, written out in the source. *)
Lemma one_axis_cut (x h k : Z) : hierarchy = [h] → nd_sbp = [split_parallel x] → 0 ≤ k < h →
  ∃ d, shape !! Z.to_nat x = Some d ∧ 0 ≤ x < Z.of_nat (length shape) ∧ h ≤ d ∧
    new_BalancedSplitter d h = Ret (splitter_of (mkRange 0 d) h) ∧
    At (splitter_of (mkRange 0 d) h) k = Ret (chunk (mkRange 0 d) h k) ∧
    0 < Range_size (chunk (mkRange 0 d) h k).
Proof.
  intros Eh Es Hk. pose proof (valid_axis _ _ _ HV) as Hv. pose proof (valid_parts _ _ _ HV) as Hp.
  rewrite Eh, Es in *. apply Forall_cons in Hv as [Hx _]. destruct (lookup_lt_is_Some_2 shape (Z.to_nat x)) as [d Hd]; [lia|].
  specialize (Hp _ d Hd). cbn [parts] in Hp. rewrite decide_True in Hp by done.
  exists d. assert (Esz : Range_size (mkRange 0 d) = d) by (unfold Range_size; cbn; lia).
  destruct (splitter_of_new (mkRange 0 d) h ltac:(lia) ltac:(rewrite Esz; lia)) as (En & _). rewrite Esz in En.
  destruct (chunk_bounds (mkRange 0 d) h ltac:(lia) ltac:(rewrite Esz; lia) k Hk) as (_ & _ & Hc). rewrite Esz in Hc.
  assert (1 ≤ d / h) by (apply Z.div_le_lower_bound; lia).
  split_and!; [done|lia|lia|lia|exact En| |lia].
  rewrite At_bounds. change (split_num_ (splitter_of (mkRange 0 d) h)) with h. by destruct (Z.ltb_spec k h); [|lia].
Qed.

Lemma slice_one_axis (x h k d : Z) : hierarchy = [h] → nd_sbp = [split_parallel x] → shape !! Z.to_nat x = Some d →
  slice_at hierarchy nd_sbp shape [k] = <[Z.to_nat x := chunk (mkRange 0 d) h k]> (whole shape).
Proof.
  intros -> -> Hd. unfold slice_at. cbn [split_ranges].
  assert (HR : whole shape !! Z.to_nat x = Some (mkRange 0 d)) by (unfold whole; by rewrite list_lookup_fmap, Hd).
  by rewrite <- (alter_insert_at _ _ _ _ HR).
Qed.

Lemma one_axis_grid (ks : list Z) : length hierarchy = 1%nat → index_in ks hierarchy →
  ∃ h s k, hierarchy = [h] ∧ nd_sbp = [s] ∧ ks = [k] ∧ 0 ≤ k < h.
Proof.
  intros En Hk. pose proof (valid_len _ _ _ HV) as Hl. rewrite En in Hl.
  destruct Hk as [|k h ks hs Hk Hks]; [done|]. destruct Hks; [|done].
  destruct nd_sbp as [|s [|]]; [done| |done]. by exists h, s, k.
Qed.

Lemma GetTensorSliceView4ParallelRank_ok (ks zs : list Z) : index_in ks hierarchy →
  GetTensorSliceView4ParallelRank (Shape_of hierarchy) nd_sbp (Shape_of shape) (ks ++ zs) =
  Ret (view_of_ranges (slice_at hierarchy nd_sbp shape ks)).
Proof.
  intros Hk. unfold GetTensorSliceView4ParallelRank. rewrite elem_cnt_prod. change (dim_vec (Shape_of hierarchy)) with hierarchy.
  assert (Ef : full_ranges (Shape_of shape) = Ret (whole shape)) by done. rewrite Ef. cbn [obind].
  destruct (Z.eqb_spec (prodZ hierarchy) 1) as [E1|E1].
  { unfold slice_at. by rewrite split_ranges_ones. }
  rewrite NumAxes_init by done. cbn [obind dim_vec Shape_of]. pose proof (valid_len _ _ _ HV) as Hl.
  destruct (Z.eqb_spec (Z.of_nat (length hierarchy)) 1) as [En|En].
  - destruct (one_axis_grid ks ltac:(lia) Hk) as (h & s & k & Eh & Es & -> & Hk1). clear Hk.
    assert (Ea : at_ nd_sbp 0 = Ret s) by (by rewrite Es). rewrite Ea. cbn [obind].
    destruct s as [x| | |]; [|unfold slice_at; by rewrite Eh, Es..].
    destruct (one_axis_cut x h k Eh Es Hk1) as (d & Hd & Hx & Hhd & Enew & EAt & Hsz).
    rewrite whole_length. unfold CHECK. destruct (Z.leb_spec 0 x); [|lia].
    destruct (Z.ltb_spec x (Z.of_nat (length shape))); [|lia]. cbn [obind].
    change (at_ ([k] ++ zs) 0) with (@Ret Z k). cbn [obind]. destruct (Z.leb_spec 0 k); [|lia].
    rewrite Eh, prodZ_cons, prodZ_nil, Z.mul_1_r, <- Eh. destruct (Z.ltb_spec k h); [|lia]. cbn [obind].
    rewrite (shape_At_ok shape x d) by (done || lia). cbn [obind]. rewrite Enew. cbn [obind]. rewrite EAt. cbn [obind].
    destruct (Z.ltb_spec 0 (Range_size (chunk (mkRange 0 d) h k))); [|lia]. cbn [obind].
    by rewrite (slice_one_axis x h k d).
  - pose proof (Forall2_length _ _ _ Hk) as Hkl.
    pose proof (split_loop hierarchy nd_sbp (ks ++ zs) nd_sbp hierarchy ks 0 (whole shape)) as HL.
    rewrite whole_size in HL. change (Z.of_nat 0) with 0 in HL. rewrite HL; [done|done|done| |done|done| |apply whole_enough].
    + rewrite drop_0. by rewrite <- Hkl, take_app_length.
    + rewrite whole_length. apply (valid_axis _ _ _ HV).
Qed.

Lemma GetTensorSliceView4ParallelId_ok (ks : list Z) : index_in ks hierarchy →
  GetTensorSliceView4ParallelId (Shape_of hierarchy) nd_sbp (Shape_of shape) (offset_of ks hierarchy) =
  Ret (view_of_ranges (slice_at hierarchy nd_sbp shape ks)).
Proof.
  intros Hk. unfold GetTensorSliceView4ParallelId. cbn [dim_vec Shape_of].
  rewrite rank_vector by (done || apply (valid_rank _ _ _ HV)). by apply GetTensorSliceView4ParallelRank_ok.
Qed.

(** The physical shape, cut axis by axis. *)
Lemma physical_loop (ks0 : list Z) (sbps : list SbpParallel) (hs ks : list Z) (i : nat) (ranges : list Range) :
  index_in ks0 hierarchy → drop i nd_sbp = sbps → drop i hierarchy = hs → drop i ks0 = ks →
  length sbps = length hs → index_in ks hs → valid_axes (length ranges) sbps → enough sbps hs ranges →
  ofold (physical_step (Shape_of hierarchy) nd_sbp (row_major hierarchy) (offset_of ks0 hierarchy))
    (range_list (Z.of_nat i) (Z.of_nat (length hierarchy))) (Shape_of (map Range_size ranges)) =
  Ret (Shape_of (map Range_size (split_ranges sbps hs ks ranges))).
Proof.
  intros Hk0 Es Eh Ek Hl Hk. revert sbps i ranges Es Eh Ek Hl.
  induction Hk as [|k h ks hs Hk Hks IH]; intros [|s sbps] i ranges Es Eh Ek Hl Hv He; try done.
  { rewrite range_list_nil; [done|]. apply (f_equal length) in Eh. rewrite length_drop in Eh. cbn in Eh. lia. }
  destruct (drop_step _ _ _ _ Es) as (Hs_i & Es' & _), (drop_step _ _ _ _ Eh) as (Hh_i & Eh' & Hi).
  destruct (drop_step _ _ _ _ Ek) as (Hk_i & Ek' & _).
  apply Forall_cons in Hv as [Hs Hv]. cbn [length] in Hl. assert (Hhs : Forall (λ h, 0 < h) hs) by (by eapply index_in_pos).
  rewrite range_list_S by lia. replace (Z.of_nat i + 1) with (Z.of_nat (S i)) by lia. cbn [ofold].
  unfold physical_step at 1. rewrite (at_nat _ _ _ Hs_i). cbn [obind].
  destruct (has_split_parallel s) eqn:Esp.
  - destruct s as [x| | |]; try done. destruct (cut_axis x h k sbps hs ranges Hs ltac:(lia) Hhs He) as (R & HR & HhR).
    rewrite (shape_At_ok _ x (Range_size R)) by (lia || by rewrite list_lookup_fmap, HR). cbn [obind].
    destruct (Z.ltb_spec 0 (Range_size R)); [|lia].
    rewrite (shape_At_nat (Shape_of hierarchy) i h) by done. cbn [obind]. unfold CHECK_OR_RETURN.
    destruct (Z.leb_spec h (Range_size R)); [|lia]. cbn [obind].
    destruct (splitter_of_new R h ltac:(lia) ltac:(lia)) as (-> & _). cbn [obind].
    rewrite (CalcIndex4Axis_ok i k ks0 hierarchy Hk0 Hk_i). cbn [obind]. rewrite At_bounds.
    change (split_num_ (splitter_of R h)) with h. destruct (Z.ltb_spec k h); [|lia]. cbn [obind].
    rewrite Shape_Set_ok by (by rewrite length_map). cbn [obind split_ranges].
    rewrite <- (IH sbps (S i) (alter (λ R, chunk R h k) (Z.to_nat x) ranges)); [|done|done|done|lia|by rewrite length_alter|].
    + do 2 f_equal. rewrite (map_alter_at Range_size _ _ _ R HR). f_equal. unfold chunk, Range_size. cbn [begin end_]. lia.
    + apply enough_cut; (done || lia).
  - assert (He' : enough sbps hs ranges) by (eapply enough_skip; [|exact He]; done).
    pose proof (IH sbps (S i) ranges Es' Eh' Ek' ltac:(lia) Hv He') as HI. by destruct s.
Qed.

Lemma GetPhysicalShape_ok (ks : list Z) : (∀ s, s ∈ nd_sbp → s ≠ parallel_type_not_set) → index_in ks hierarchy →
  GetPhysicalShape (Shape_of shape) nd_sbp (Shape_of hierarchy) (offset_of ks hierarchy) =
  Ret (Shape_of (map Range_size (slice_at hierarchy nd_sbp shape ks))).
Proof.
  intros Hset Hk. pose proof (offset_of_range _ _ Hk) as Hr. pose proof (valid_len _ _ _ HV) as Hl.
  unfold GetPhysicalShape, CHECK_OR_RETURN. rewrite elem_cnt_prod. cbn [dim_vec Shape_of].
  destruct (Z.leb_spec 0 (offset_of ks hierarchy)); [|lia].
  destruct (Z.ltb_spec (offset_of ks hierarchy) (prodZ hierarchy)); [|lia]. cbn [obind].
  rewrite NumAxes_init by done. cbn [obind dim_vec Shape_of]. rewrite Hl, Z.eqb_refl. cbn [obind].
  destruct (Z.eqb_spec (Z.of_nat (length hierarchy)) 1) as [En|En].
  - destruct (one_axis_grid ks ltac:(lia) Hk) as (h & s & k & Eh & Es & -> & Hk1). clear Hk.
    assert (Ea : at_ nd_sbp 0 = Ret s) by (by rewrite Es). rewrite Ea. cbn [obind].
    assert (Eo : offset_of [k] hierarchy = k) by (rewrite Eh; cbn [offset_of]; rewrite prodZ_nil; lia).
    rewrite Eo. unfold Get1dHierarchyPhysicalShape.
    destruct s as [x| | |]; [|unfold slice_at; rewrite Eh, Es; cbn [split_ranges]; by rewrite whole_size..|].
    + destruct (one_axis_cut x h k Eh Es Hk1) as (d & Hd & Hx & Hhd & Enew & EAt & Hsz).
      rewrite (shape_At_ok shape x d) by (done || lia). cbn [obind]. destruct (Z.ltb_spec 0 d); [|lia].
      rewrite Eh, prodZ_cons, prodZ_nil, Z.mul_1_r, <- Eh. unfold CHECK_OR_RETURN. destruct (Z.leb_spec h d); [|lia].
      cbn [obind]. rewrite Enew. cbn [obind]. rewrite EAt. cbn [obind]. rewrite Shape_Set_ok by lia.
      rewrite (slice_one_axis x h k d Eh Es Hd). do 2 f_equal. rewrite <- (whole_size shape) at 1.
      symmetry. apply (list_fmap_insert Range_size).
    + by destruct (Hset parallel_type_not_set); [rewrite Es; left|].
  - unfold GetNdHierarchyPhysicalShape. rewrite Stride_row_major.
    2: { eapply Forall_impl; [apply (valid_pos _ _ _ HV)|]. cbn. lia. }
    rewrite decide_False. 2: { intros Hz. pose proof (valid_pos _ _ _ HV) as Hp. rewrite Forall_forall in Hp. by apply Hp in Hz. }
    cbn [obind]. rewrite NumAxes_init by done. cbn [obind dim_vec Shape_of].
    pose proof (physical_loop ks nd_sbp hierarchy ks 0 (whole shape)) as HL. rewrite whole_size in HL.
    apply HL; try done; [rewrite whole_length; apply (valid_axis _ _ _ HV)|apply whole_enough].
Qed.
End Box.

Section Views.
Context (hierarchy : list Z) (nd_sbp : list SbpParallel) (shape : list Z) (HV : sbp_valid hierarchy nd_sbp shape).

Lemma GetTensorSliceView_ok : ∃ views,
  GetTensorSliceView (Shape_of hierarchy) nd_sbp (Shape_of shape) = Ret views ∧
  length views = Z.to_nat (prodZ hierarchy) ∧
  ∀ ks, index_in ks hierarchy →
    views !! Z.to_nat (offset_of ks hierarchy) = Some (view_of_ranges (slice_at hierarchy nd_sbp shape ks)).
Proof.
  set (g := λ id, view_of_ranges (slice_at hierarchy nd_sbp shape (offset_loop (row_major hierarchy) id).1)).
  exists (map g (range_list 0 (prodZ hierarchy))). unfold GetTensorSliceView. rewrite elem_cnt_prod. cbn [dim_vec Shape_of].
  split_and!.
  - apply omap_list_Ret, Forall_forall. intros id Hid. apply range_list_elem in Hid.
    destruct (offset_of_surj hierarchy id (valid_pos _ _ _ HV) Hid) as (ks & Hk & <-).
    rewrite GetTensorSliceView4ParallelId_ok by done. unfold g. by rewrite offset_loop_row_major.
  - rewrite length_map. unfold range_list. rewrite length_map, length_seq. lia.
  - intros ks Hk. pose proof (offset_of_range _ _ Hk) as Hr. rewrite list_lookup_fmap. unfold range_list.
    rewrite list_lookup_fmap, lookup_seq_lt by lia. cbn. unfold g.
    replace (0 + Z.of_nat (Z.to_nat (offset_of ks hierarchy))) with (offset_of ks hierarchy) by lia.
    by rewrite offset_loop_row_major.
Qed.

Lemma in_whole (p : list Z) : in_box p (whole shape) ↔ index_in p shape.
Proof.
  unfold in_box, whole, index_in. rewrite Forall2_fmap_r.
  split; intros H; (eapply Forall2_impl; [exact H|]); intros v d; unfold compose, in_range; cbn [begin end_]; lia.
Qed.
End Views.

Lemma same_split_unsplit (sbps : list SbpParallel) (k0 ks ks' : list Z) :
  same_unsplit sbps k0 ks → same_unsplit sbps k0 ks' → same_split sbps ks ks' → ks = ks'.
Proof.
  intros H1. revert ks'. induction H1 as [|s k k1 sbps k0 ks Hs H1 IH]; intros ks' H2 H3.
  - by inversion H2.
  - inversion H2; subst. inversion H3; subst. f_equal; [|by apply IH].
    destruct (has_split_parallel s) eqn:E; [naive_solver|]. rewrite <- Hs by done. naive_solver.
Qed.

(** C18 [GetTensorSliceView] hands the logical tensor to the grid completely and without
    overlap: it returns one box per device, every point of a box is an element of the
    tensor, and for every element and every choice of coordinates on the axes of the
    grid over which the tensor is not split, exactly one device with those coordinates
    has the element in its box. *)
Theorem nd_sbp_views_tile (hierarchy : list Z) (nd_sbp : list SbpParallel) (shape : list Z) :
  sbp_valid hierarchy nd_sbp shape →
  ∃ views, GetTensorSliceView (Shape_of hierarchy) nd_sbp (Shape_of shape) = Ret views ∧
    length views = Z.to_nat (prodZ hierarchy) ∧
    (∀ p v, v ∈ views → in_view p v → index_in p shape) ∧
    ∀ p ks, index_in p shape → index_in ks hierarchy →
      let holds ks' := index_in ks' hierarchy ∧ same_unsplit nd_sbp ks ks' ∧
        ∃ v, views !! Z.to_nat (offset_of ks' hierarchy) = Some v ∧ in_view p v in
      ∃ ks', holds ks' ∧ ∀ ks'', holds ks'' → ks'' = ks'.
Proof.
  intros HV. destruct (GetTensorSliceView_ok _ _ _ HV) as (views & E & Hl & Hat). exists views.
  pose proof (whole_enough _ _ _ HV) as He. pose proof (valid_len _ _ _ HV) as Hn.
  assert (Hax : valid_axes (length (whole shape)) nd_sbp) by (rewrite whole_length; apply (valid_axis _ _ _ HV)).
  split_and!; [done|done| |].
  - intros p v (j & Hj)%list_elem_of_lookup Hp. pose proof (lookup_lt_Some _ _ _ Hj) as Hlt.
    destruct (offset_of_surj hierarchy (Z.of_nat j) (valid_pos _ _ _ HV)) as (ks & Hk & Ek); [lia|].
    pose proof (Hat ks Hk) as Hv. rewrite Ek, Nat2Z.id, Hj in Hv. simplify_eq.
    apply in_whole. by eapply split_ranges_sub.
  - intros p ks Hp Hk holds. apply in_whole in Hp.
    destruct (split_ranges_find nd_sbp hierarchy ks (whole shape) p Hk Hn Hax He Hp) as (ks' & Hk' & Hu & Hin).
    exists ks'. split; [unfold holds; split_and!; [done|done|]; eexists; split; [by apply Hat|exact Hin]|].
    intros ks'' (Hk'' & Hu'' & v & Hv & Hin''). rewrite Hat in Hv by done. simplify_eq.
    symmetry. eapply same_split_unsplit; [exact Hu|exact Hu''|]. by eapply (split_ranges_unique _ hierarchy).
Qed.

Lemma demo_valid : sbp_valid [2; 3] [split_parallel 1; broadcast_parallel] [5; 7].
Proof.
  split; [vm_compute; lia|repeat constructor|done|repeat constructor; lia|].
  intros [|[|]] d Hd; simplify_eq/=; vm_compute; discriminate.
Qed.

Lemma nd_sbp_views_tile_witness :
  ∃ views, GetTensorSliceView (Shape_of [2; 3]) [split_parallel 1; broadcast_parallel] (Shape_of [5; 7]) = Ret views ∧
    length views = 6%nat.
Proof.
  destruct (nd_sbp_views_tile [2; 3] [split_parallel 1; broadcast_parallel] [5; 7] demo_valid) as (views & E & Hl & _).
  by exists views.
Defined.

(** ** Shapes *)

Lemma split_ranges_proper (sbps : list SbpParallel) (hs ks : list Z) (ranges : list Range) :
  index_in ks hs → enough sbps hs ranges → Forall (λ R, 0 < Range_size R) (split_ranges sbps hs ks ranges).
Proof.
  intros Hk. revert sbps ranges. induction Hk as [|k h ks hs Hk Hks IH]; intros [|s sbps] ranges He.
  - apply Forall_lookup. intros i R HR. specialize (He i R HR). cbn in He. lia.
  - destruct s; apply Forall_lookup; intros i R HR; specialize (He i R HR); cbn in He; lia.
  - apply Forall_lookup. intros i R HR. specialize (He i R HR). cbn in He. lia.
  - pose proof (index_in_pos _ _ Hks) as Hhs.
    destruct s as [x| | |]; cbn [split_ranges]; apply IH; [apply enough_cut; (done || lia)|..];
      (eapply enough_skip; [|exact He]; done).
Qed.

(** The two computations of what a device holds agree: for every device of the grid
    [GetTensorSliceView4ParallelId] and [GetPhysicalShape] both return, no side of
    the device's box is empty, and the physical shape is the shape of the box. *)
Theorem physical_shape_is_view_shape (hierarchy : list Z) (nd_sbp : list SbpParallel) (shape : list Z) (id : Z) :
  sbp_valid hierarchy nd_sbp shape → parallel_type_not_set ∉ nd_sbp → 0 ≤ id < prodZ hierarchy →
  ∃ v, GetTensorSliceView4ParallelId (Shape_of hierarchy) nd_sbp (Shape_of shape) id = Ret v ∧
    Forall (λ R, 0 < Range_size R) (range_vec v) ∧
    GetPhysicalShape (Shape_of shape) nd_sbp (Shape_of hierarchy) id = Ret (view_shape v).
Proof.
  intros HV Hset Hid. destruct (offset_of_surj hierarchy id (valid_pos _ _ _ HV) Hid) as (ks & Hk & <-).
  eexists. split; [by apply GetTensorSliceView4ParallelId_ok|]. split.
  - apply split_ranges_proper; [done|by apply whole_enough].
  - rewrite (GetPhysicalShape_ok _ _ _ HV); [done| |done]. intros s Hs ->. done.
Qed.

Lemma physical_shape_is_view_shape_witness :
  ∃ v, GetTensorSliceView4ParallelId (Shape_of [2; 3]) [split_parallel 1; broadcast_parallel] (Shape_of [5; 7]) 4 = Ret v ∧
    GetPhysicalShape (Shape_of [5; 7]) [split_parallel 1; broadcast_parallel] (Shape_of [2; 3]) 4 = Ret (view_shape v).
Proof.
  destruct (physical_shape_is_view_shape [2; 3] [split_parallel 1; broadcast_parallel] [5; 7] 4 demo_valid)
    as (v & E & _ & Ep).
  - apply (bool_decide_unpack _). vm_compute. exact I.
  - vm_compute. split; [discriminate|reflexivity].
  - by exists v.
Defined.

(** Every axis is a multiple of the number of its parts. *)
Definition even_parts (sbps : list SbpParallel) (hs : list Z) (ranges : list Range) : Prop :=
  ∀ a R, ranges !! a = Some R → (parts a sbps hs | Range_size R) ∧ 0 ≤ Range_size R < 2 ^ 63.

Lemma chunk_even (R : Range) (h k : Z) : 0 < h → 0 ≤ k → 0 ≤ Range_size R → (h | Range_size R) →
  Range_size (chunk R h k) = Range_size R / h.
Proof.
  intros Hh Hk HR [q Hq]. unfold chunk, bound, splitter_of. unfold Range_size at 1.
  cbn [begin end_ base_part_size_ base_begin_idx_ split_num_]. rewrite Z.rem_mod_nonneg, Z.quot_div_nonneg by lia.
  rewrite Hq, Z.mod_mul, Z.div_mul by lia. lia.
Qed.

Lemma even_cut (x h k : Z) (sbps : list SbpParallel) (hs : list Z) (ranges : list Range) (R : Range) :
  0 ≤ k < h → even_parts (split_parallel x :: sbps) (h :: hs) ranges → ranges !! Z.to_nat x = Some R →
  Range_size R = Range_size (chunk R h k) * h ∧
  even_parts sbps hs (alter (λ R, chunk R h k) (Z.to_nat x) ranges).
Proof.
  intros Hk He HR. destruct (He _ R HR) as [[q Hq] Hb]. cbn [parts] in Hq. rewrite decide_True in Hq by done.
  assert (Ec : Range_size (chunk R h k) = q * parts (Z.to_nat x) sbps hs).
  { rewrite chunk_even; [|lia|lia|lia|exists (q * parts (Z.to_nat x) sbps hs); lia].
    rewrite Hq. replace (q * (h * parts (Z.to_nat x) sbps hs)) with (q * parts (Z.to_nat x) sbps hs * h) by lia.
    apply Z.div_mul. lia. }
  split; [lia|]. intros a S HS. destruct (decide (a = Z.to_nat x)) as [->|Hne].
  - rewrite list_lookup_alter_eq, HR in HS. simplify_eq/=. rewrite Ec. split; [by exists q|]. nia.
  - rewrite list_lookup_alter_ne in HS by done. specialize (He a S HS). cbn [parts] in He.
    by rewrite decide_False in He by done.
Qed.

Lemma even_skip (s : SbpParallel) (h : Z) (sbps : list SbpParallel) (hs : list Z) (ranges : list Range) :
  has_split_parallel s = false → even_parts (s :: sbps) (h :: hs) ranges → even_parts sbps hs ranges.
Proof. intros Hs He a R HR. specialize (He a R HR). by destruct s. Qed.

(** Walking the grid backwards undoes the cuts. *)
Lemma logical_loop (hierarchy : list Z) (nd_sbp sbps : list SbpParallel) (hs ks : list Z) (i : nat) (ranges : list Range) :
  drop i nd_sbp = sbps → drop i hierarchy = hs → length sbps = length hs → index_in ks hs →
  valid_axes (length ranges) sbps → even_parts sbps hs ranges →
  ofold (logical_step (Shape_of hierarchy) nd_sbp) (reverse (range_list (Z.of_nat i) (Z.of_nat (length hierarchy))))
    (Shape_of (map Range_size (split_ranges sbps hs ks ranges))) = Ret (Shape_of (map Range_size ranges)).
Proof.
  intros Es Eh Hl Hk. revert sbps i ranges Es Eh Hl.
  induction Hk as [|k h ks hs Hk Hks IH]; intros [|s sbps] i ranges Es Eh Hl Hv He; try done.
  { rewrite range_list_nil; [done|]. apply (f_equal length) in Eh. rewrite length_drop in Eh. cbn in Eh. lia. }
  destruct (drop_step _ _ _ _ Es) as (Hs_i & Es' & _), (drop_step _ _ _ _ Eh) as (Hh_i & Eh' & Hi).
  apply Forall_cons in Hv as [Hs Hv]. cbn [length] in Hl.
  rewrite range_list_S by lia. replace (Z.of_nat i + 1) with (Z.of_nat (S i)) by lia.
  rewrite reverse_cons, ofold_app. destruct (has_split_parallel s) eqn:Esp.
  - destruct s as [x| | |]; try done. destruct (lookup_lt_is_Some_2 ranges (Z.to_nat x)) as [R HR]; [lia|].
    destruct (even_cut x h k sbps hs ranges R Hk He HR) as [Hsz He'].
    cbn [split_ranges]. rewrite (IH sbps (S i)); [|done|done|lia|by rewrite length_alter|done]. cbn [obind ofold].
    unfold logical_step. rewrite (at_nat _ _ _ Hs_i). cbn [obind].
    rewrite (map_alter_at Range_size _ _ _ R HR).
    rewrite (shape_At_ok _ x (Range_size (chunk R h k)))
      by (lia || (apply list_lookup_insert_eq; rewrite length_map; lia)). cbn [obind].
    rewrite (shape_At_nat (Shape_of hierarchy) i h) by done. cbn [obind].
    rewrite Shape_Set_ok by (rewrite length_insert, length_map; lia). cbn [obind].
    rewrite list_insert_insert_eq, <- Hsz. destruct (He _ R HR) as [_ Hb].
    rewrite i64_small by (unfold is_i64; lia). do 2 f_equal. apply list_insert_id. by rewrite list_lookup_fmap, HR.
  - assert (He' : even_parts sbps hs ranges) by (eapply even_skip; [|exact He]; done).
    pose proof (IH sbps (S i) ranges Es' Eh' ltac:(lia) Hv He') as HI.
    replace (split_ranges (s :: sbps) (h :: hs) (k :: ks) ranges) with (split_ranges sbps hs ks ranges) by (by destruct s).
    rewrite HI. cbn [obind ofold]. unfold logical_step. rewrite (at_nat _ _ _ Hs_i). cbn [obind]. by destruct s.
Qed.

(** C36 The logical shape can be computed back from the physical shape of any device: when
    every axis is a multiple of the number of parts it is cut into, [GetLogicalShape]
    of what [GetPhysicalShape] returns is the shape it started from. *)
Theorem logical_physical_roundtrip (hierarchy : list Z) (nd_sbp : list SbpParallel) (shape : list Z) (id : Z) :
  sbp_valid hierarchy nd_sbp shape → parallel_type_not_set ∉ nd_sbp → 0 ≤ id < prodZ hierarchy →
  (∀ a d, shape !! a = Some d → (parts a nd_sbp hierarchy | d) ∧ d < 2 ^ 63) →
  (let* physical := GetPhysicalShape (Shape_of shape) nd_sbp (Shape_of hierarchy) id in
   GetLogicalShape physical nd_sbp (Shape_of hierarchy)) = Ret (Shape_of shape).
Proof.
  intros HV Hset Hid Hdiv. destruct (offset_of_surj hierarchy id (valid_pos _ _ _ HV) Hid) as (ks & Hk & <-).
  rewrite (GetPhysicalShape_ok _ _ _ HV); [|by intros s Hs ->|done]. cbn [obind].
  unfold GetLogicalShape. rewrite NumAxes_init by done. cbn [obind dim_vec Shape_of].
  rewrite (valid_len _ _ _ HV), Z.eqb_refl. cbn [CHECK_OR_RETURN obind].
  pose proof (logical_loop hierarchy nd_sbp nd_sbp hierarchy ks 0 (whole shape)) as HL. rewrite whole_size in HL.
  apply HL; try done; [apply (valid_len _ _ _ HV)|rewrite whole_length; apply (valid_axis _ _ _ HV)|].
  intros a R HR. unfold whole in HR. rewrite list_lookup_fmap in HR. apply fmap_Some in HR as (d & Hd & ->).
  unfold Range_size. cbn [begin end_]. rewrite Z.sub_0_r. destruct (Hdiv a d Hd) as [Hq Hb].
  pose proof (valid_parts _ _ _ HV a d Hd). pose proof (parts_pos a nd_sbp hierarchy (valid_pos _ _ _ HV)).
  split; [done|lia].
Qed.

Lemma logical_physical_roundtrip_witness :
  (let* physical := GetPhysicalShape (Shape_of [5; 8]) [split_parallel 1; split_parallel 1] (Shape_of [2; 2]) 3 in
   GetLogicalShape physical [split_parallel 1; split_parallel 1] (Shape_of [2; 2])) = Ret (Shape_of [5; 8]).
Proof.
  apply logical_physical_roundtrip.
  - split; [vm_compute; lia|repeat constructor|done|repeat constructor; lia|].
    intros [|[|]] d Hd; simplify_eq/=; vm_compute; discriminate.
  - apply (bool_decide_unpack _). vm_compute. exact I.
  - vm_compute. split; [discriminate|reflexivity].
  - intros [|[|]] d Hd; simplify_eq/=; (split; [|lia]); [exists 5|exists 2]; vm_compute; reflexivity.
Defined.
