(* ===== verification/CopyNd.v ===== *)
(** * The N-dimensional copy primitive

    Models [oneflow/core/ep/common/primitive/copy_nd.h], its CPU kernel
    [oneflow/core/ep/cpu/primitive/copy_nd.cpp] and the client
    [oneflow/core/register/tensor_slice_copier.cpp].  The primitive first merges
    axes, then widens the unit of movement from one element to up to 16 bytes,
    and copies unit by unit; the theorems show that the bytes moved, and their
    order, are those of the direct element-by-element copy. *)
From S2P Require Import Prelude Splitter Shape NdIndex TensorSlice.

(** One axis of the parallel arrays [dst_dims], [dst_pos], [src_dims],
    [src_pos] and [extent]. *)
Record axis5 := mkAxis { dst_dim : Z; dst_pos : Z; src_dim : Z; src_pos : Z; extent : Z }.

(** Multiply or divide every entry of an axis, as the code does on [int64_t]s
    ([int64_t / size_t] is an unsigned division); [scale] and [shrink] are the same over
    the integers, for the proofs. *)
Definition on_entries (f : Z → Z) (a : axis5) : axis5 :=
  mkAxis (f (dst_dim a)) (f (dst_pos a)) (f (src_dim a)) (f (src_pos a)) (f (extent a)).
Definition scale64 (k : Z) : axis5 → axis5 := on_entries (λ x, i64 (x * k)).
Definition shrink64 (k : Z) : axis5 → axis5 := on_entries (λ x, i64 (u64 x / k)).
Definition scale (k : Z) (a : axis5) : axis5 :=
  mkAxis (dst_dim a * k) (dst_pos a * k) (src_dim a * k) (src_pos a * k) (extent a * k).
Definition shrink (k : Z) (a : axis5) : axis5 :=
  mkAxis (dst_dim a / k) (dst_pos a / k) (src_dim a / k) (src_pos a / k) (extent a / k).

(** The test of [SimplifyCopyNdDims]: the axis is copied whole. *)
Definition whole_axis (a : axis5) : bool :=
  (dst_dim a =? src_dim a) && (dst_dim a =? extent a) && (src_pos a =? 0) && (dst_pos a =? 0).

(** One round of the loop: merge axis [i] into the last simplified axis, or
    append it. *)
Definition simplify_step (acc : list axis5) (p : nat * axis5) : list axis5 :=
  let '(i, a) := p in
  if negb (Nat.eqb i 0) && whole_axis a
  then alter (scale64 (extent a)) (length acc - 1)%nat acc
  else acc ++ [a].

Definition SimplifyCopyNdDims (axes : list axis5) : outcome (list axis5) :=
  let* _ := CHECK (negb (Nat.eqb (length axes) 0)) in
  Ret (foldl simplify_step [] (zip (seq 0 (length axes)) axes)).

(** [GetMovementSize]: the first size of [max, max/2, ...] above [elem_size]
    that divides every byte quantity of the last axis and both addresses. *)
Definition movement_ok (size elem_size dst src : Z) (a : axis5) : bool :=
  (u64 (dst_dim a * elem_size) mod size =? 0) && (u64 (dst_pos a * elem_size) mod size =? 0)
  && (u64 (src_dim a * elem_size) mod size =? 0) && (u64 (src_pos a * elem_size) mod size =? 0)
  && (u64 (extent a * elem_size) mod size =? 0) && (src mod size =? 0) && (dst mod size =? 0).

Fixpoint movement_loop (fuel : nat) (size elem_size dst src : Z) (a : axis5) : Z :=
  match fuel with
  | O => elem_size
  | S fuel =>
      if elem_size <? size then
        if movement_ok size elem_size dst src a then size
        else movement_loop fuel (size / 2) elem_size dst src a
      else elem_size
  end.

Definition GetMovementSize (max_movement_size elem_size dst src : Z) (axes : list axis5) : outcome Z :=
  let* _ := CHECK (0 <? elem_size) in
  let* _ := CHECK (Z.land elem_size (elem_size - 1) =? 0) in
  let* _ := CHECK (max_movement_size mod elem_size =? 0) in
  let* a := at_ axes (Z.of_nat (length axes) - 1) in
  Ret (movement_loop (Z.to_nat max_movement_size) max_movement_size elem_size dst src a).

Definition kMaxMovementSize : Z := 16.
Definition kMaxNumDims : nat := 8%nat.

Definition SimplifyCopyNd (axes : list axis5) (elem_size dst src : Z) : outcome (list axis5 * Z) :=
  let* simplified := SimplifyCopyNdDims axes in
  let* movement_size := GetMovementSize kMaxMovementSize elem_size dst src simplified in
  let movement_elem_num := movement_size / elem_size in
  Ret (alter (shrink64 movement_elem_num) (length simplified - 1)%nat simplified, movement_size).

(** ** The kernel *)

Section Kernel.
Context {B : Type}.

(** Copy one byte between two buffers. *)
Definition copy_byte (src dst : list B) (p : Z * Z) : outcome (list B) :=
  let* b := at_ src (snd p) in
  let* _ := at_ dst (fst p) in
  Ret (<[Z.to_nat (fst p) := b]> dst).

(** [dst[dst_offset] = src[src_offset]] at type [aligned_storage<m, m>]. *)
Definition copy_unit (m : Z) (src dst : list B) (p : Z * Z) : outcome (list B) :=
  ofold (λ d r, copy_byte src d (fst p * m + r, snd p * m + r)) (range_list 0 m) dst.

(** Representable in an [IndexType] of the given width. *)
Definition fits (bits z : Z) : bool := (- 2 ^ (bits - 1) <=? z) && (z <? 2 ^ (bits - 1)).

(** [CopyNdKernel<num_dims, movement_size, IndexType>] together with the
    [NdIndexOffsetHelper]s its caller builds.  Strides, positions and offsets
    are [IndexType]s: a value that does not fit is truncated or overflows, and
    the model stops there. *)
Definition CopyNdKernel (bits m : Z) (axes : list axis5) (count : Z) (src dst : list B)
    : outcome (list B) :=
  let n := length axes in
  let dst_stride := InitStrides n (map dst_dim axes) n in
  let src_stride := InitStrides n (map src_dim axes) n in
  let copy_stride := InitStrides n (map extent axes) n in
  let* _ := CHECK (forallb (fits bits) (dst_stride ++ src_stride ++ copy_stride
                                        ++ map dst_pos axes ++ map src_pos axes ++ [count])) in
  ofold (λ d i,
           let copy_index := OffsetToNdIndex copy_stride i in
           let src_index := zip_with Z.add (map src_pos axes) copy_index in
           let dst_index := zip_with Z.add (map dst_pos axes) copy_index in
           let src_offset := NdIndexToOffset src_stride src_index n in
           let dst_offset := NdIndexToOffset dst_stride dst_index n in
           let* _ := CHECK (fits bits src_offset && fits bits dst_offset) in
           copy_unit m src d (dst_offset, src_offset))
        (range_list 0 count) dst.

(** [DispatchIndexType]: 32-bit indices when the {e copied} count is small. *)
Definition DispatchIndexType (m : Z) (axes : list axis5) (src dst : list B) : outcome (list B) :=
  let count := foldl (λ c e, u64 (c * e)) 1 (map extent axes) in
  if count <? 2 ^ 31 - 1 then CopyNdKernel 32 m axes count src dst
  else CopyNdKernel 64 m axes count src dst.

Definition DispatchMovementSize (m : Z) (axes : list axis5) (src dst : list B) : outcome (list B) :=
  let* _ := CHECK (bool_decide (m ∈ [1; 2; 4; 8; 16])) in
  DispatchIndexType m axes src dst.

Definition LaunchWithSimplified (m : Z) (axes : list axis5) (src dst : list B) : outcome (list B) :=
  let* _ := CHECK (Nat.leb 1 (length axes) && Nat.leb (length axes) 8) in
  DispatchMovementSize m axes src dst.

(** [SimplifyThenLaunch], with the addresses of the two buffers. *)
Definition SimplifyThenLaunch (elem_size : Z) (axes : list axis5) (dst_ptr src_ptr : Z)
    (src dst : list B) : outcome (list B) :=
  let* _ := CHECK (Nat.ltb 0 (length axes)) in
  let* _ := CHECK (Nat.leb (length axes) kMaxNumDims) in
  let* sm := SimplifyCopyNd axes elem_size dst_ptr src_ptr in
  LaunchWithSimplified (snd sm) (fst sm) src dst.
End Kernel.

(** ** [TensorSliceCopier] *)

Record TensorSliceCopier := mkCopier {
  copier_dst_view : TensorSliceView;
  copier_src_view : TensorSliceView;
  copier_dst_pos : list Z;
  copier_src_pos : list Z;
  copier_extent : Shape
}.

Definition new_TensorSliceCopier3 (dst_view src_view copy_view : TensorSliceView)
    : outcome TensorSliceCopier :=
  let* c1 := Contains dst_view copy_view in
  let* _ := CHECK c1 in
  let* c2 := Contains src_view copy_view in
  let* _ := CHECK c2 in
  let* dp := OffsetTo copy_view dst_view in
  let* sp := OffsetTo copy_view src_view in
  Ret (mkCopier dst_view src_view dp sp (view_shape copy_view)).

Definition new_TensorSliceCopier (dst_view src_view : TensorSliceView) : outcome TensorSliceCopier :=
  let* copy_view := Intersect dst_view src_view in
  new_TensorSliceCopier3 dst_view src_view copy_view.

(** The arrays [Copy] passes to the primitive. *)
Definition copier_axes (c : TensorSliceCopier) : list axis5 :=
  zip_with (λ p q, mkAxis p.1 p.2 q.1.1 q.1.2 q.2)
    (zip (dim_vec (view_shape (copier_dst_view c))) (copier_dst_pos c))
    (zip (zip (dim_vec (view_shape (copier_src_view c))) (copier_src_pos c))
         (dim_vec (copier_extent c))).

Definition Copier_Copy {B : Type} (c : TensorSliceCopier) (elem_size dst_ptr src_ptr : Z)
    (src dst : list B) : outcome (list B) :=
  SimplifyThenLaunch elem_size (copier_axes c) dst_ptr src_ptr src dst.

(** ** The reference copy *)

(** The index tuples below the given extents, in row-major order. *)
Fixpoint all_indices (es : list Z) : list (list Z) :=
  match es with
  | [] => [[]]
  | e :: es => i ← range_list 0 e; (cons i) <$> all_indices es
  end.

(** The (destination, source) offsets visited by a row-major walk. *)
Fixpoint walk (axes : list axis5) : list (Z * Z) :=
  match axes with
  | [] => [(0, 0)]
  | a :: axes =>
      i ← range_list 0 (extent a);
      (λ p, ((dst_pos a + i) * prodZ (map dst_dim axes) + fst p,
             (src_pos a + i) * prodZ (map src_dim axes) + snd p)) <$> walk axes
  end.

(** An axis of [k] units that is copied whole: the bytes of an element. *)
Definition unit_axis (k : Z) : axis5 := mkAxis k 0 k 0 k.

(** The byte moves of an element-wise copy. *)
Definition byte_walk (elem_size : Z) (axes : list axis5) : list (Z * Z) :=
  walk (axes ++ [unit_axis elem_size]).

Definition reference_copy {B : Type} (elem_size : Z) (axes : list axis5) (src dst : list B)
    : outcome (list B) :=
  ofold (copy_byte src) (byte_walk elem_size axes) dst.

(** ** Walks under merging of axes *)

Lemma range_list_mul (e k : Z) :
  0 ≤ e → 0 ≤ k →
  range_list 0 (e * k) = (i ← range_list 0 e; (λ j, i * k + j) <$> range_list 0 k).
Proof.
  intros He Hk. rewrite <- (Z2Nat.id e) by done. generalize (Z.to_nat e) as n. clear e He.
  induction n as [|n IH].
  { done. }
  assert (∀ a b, 0 ≤ a ≤ b → range_list 0 b = range_list 0 a ++ ((λ j, a + j) <$> range_list 0 (b - a))) as Happ.
  { intros a b Hab. unfold range_list.
    replace (Z.to_nat (b - 0)) with (Z.to_nat (a - 0) + Z.to_nat (b - a - 0))%nat by lia.
    rewrite seq_app, map_app. f_equal. simpl.
    rewrite <- list_fmap_compose, <- (Nat.add_0_r (Z.to_nat (a - 0))), <- fmap_add_seq.
    rewrite map_map. apply map_ext. intros i. simpl. lia. }
  rewrite (Happ (Z.of_nat n) (Z.of_nat (S n))) by lia.
  rewrite (Happ (Z.of_nat n * k) (Z.of_nat (S n) * k)) by nia.
  rewrite bind_app, <- IH. f_equal.
  replace (Z.of_nat (S n) - Z.of_nat n) with 1 by lia.
  replace (Z.of_nat (S n) * k - Z.of_nat n * k) with k by lia.
  change (range_list 0 1) with [0]. simpl. rewrite app_nil_r, Z.add_0_r. done.
Qed.

Lemma bind_fmap_assoc {A B C : Type} (f : A → B) (g : B → list C) (l : list A) :
  ((f <$> l) ≫= g) = (l ≫= (λ x, g (f x))).
Proof. apply list_fmap_bind. Qed.

Lemma bind_bind_assoc {A B C : Type} (f : A → list B) (g : B → list C) (l : list A) :
  ((l ≫= f) ≫= g) = (l ≫= (λ x, f x ≫= g)).
Proof. induction l as [|x l IH]; [done|]. rewrite !bind_cons. by rewrite bind_app, IH. Qed.

Lemma fmap_bind_assoc {A B C : Type} (f : A → list B) (g : B → C) (l : list A) :
  g <$> (l ≫= f) = (l ≫= (λ x, g <$> f x)).
Proof. induction l as [|x l IH]; [done|]. rewrite !bind_cons. by rewrite fmap_app, IH. Qed.

Lemma bind_ext_all {A B : Type} (f g : A → list B) (l : list A) :
  (∀ x, f x = g x) → (l ≫= f) = (l ≫= g).
Proof. intros H. induction l as [|x l IH]; [done|]. rewrite !bind_cons. by rewrite H, IH. Qed.

(** Merging a whole axis into the one before it moves the same units in the
    same order. *)
Lemma walk_merge_head (a : axis5) (k : Z) (post : list axis5) :
  0 ≤ extent a → 0 ≤ k →
  walk (a :: unit_axis k :: post) = walk (scale k a :: post).
Proof.
  intros He Hk. cbn [walk]. unfold unit_axis, scale; cbn [extent dst_pos src_pos dst_dim src_dim map].
  rewrite range_list_mul, bind_bind_assoc by done. apply bind_ext_all. intros i.
  rewrite fmap_bind_assoc, bind_fmap_assoc. apply bind_ext_all. intros j.
  rewrite <- list_fmap_compose. apply list_fmap_ext. intros _ p _. simpl. rewrite !prodZ_cons.
  f_equal; lia.
Qed.

Lemma walk_merge (pre post : list axis5) (a : axis5) (k : Z) :
  0 ≤ extent a → 0 ≤ k →
  walk (pre ++ a :: unit_axis k :: post) = walk (pre ++ scale k a :: post).
Proof.
  intros He Hk. induction pre as [|b pre IH]; [by apply walk_merge_head|].
  cbn [app walk]. rewrite IH.
  assert (∀ f : axis5 → Z, f (unit_axis k) = k → (∀ a, f (scale k a) = f a * k) →
    prodZ (map f (pre ++ a :: unit_axis k :: post)) = prodZ (map f (pre ++ scale k a :: post))) as Hf.
  { intros f Hu Hs. rewrite !map_app, !prodZ_app. cbn [map]. rewrite !prodZ_cons, Hu, Hs. lia. }
  by rewrite (Hf dst_dim), (Hf src_dim) by done.
Qed.

Lemma whole_axis_unit (a : axis5) : whole_axis a = true → a = unit_axis (extent a).
Proof.
  unfold whole_axis, unit_axis. rewrite !andb_true_iff, !Z.eqb_eq.
  destruct a; simpl. intros (((? & ?) & ?) & ?). f_equal; lia.
Qed.

(** The copied box lies inside both tensors. *)
Definition ok_axis (a : axis5) : Prop :=
  0 < dst_dim a ∧ 0 < src_dim a ∧ 0 ≤ dst_pos a ∧ 0 ≤ src_pos a ∧ 0 ≤ extent a ∧
  dst_pos a + extent a ≤ dst_dim a ∧ src_pos a + extent a ≤ src_dim a.

Lemma scale_ok (k : Z) (a : axis5) : 0 < k → ok_axis a ↔ ok_axis (scale k a).
Proof. unfold ok_axis, scale. simpl. intros. split; intros; split_and!; nia. Qed.

(** An axis whose entries are [int64_t]s that are not negative. *)
Definition small_axis (a : axis5) : Prop := ok_axis a ∧ dst_dim a < 2 ^ 63 ∧ src_dim a < 2 ^ 63.

Lemma scale64_small (k : Z) (a : axis5) : small_axis (scale k a) → scale64 k a = scale k a.
Proof.
  unfold small_axis, ok_axis, scale64, on_entries, scale. simpl. intros. f_equal; apply i64_small; unfold is_i64; lia.
Qed.

Lemma shrink64_small (k : Z) (a : axis5) : 0 < k → small_axis a → shrink64 k a = shrink k a.
Proof.
  intros Hk Ha. assert (H : ∀ x, 0 ≤ x < 2 ^ 63 → i64 (u64 x / k) = x / k).
  { intros x Hx. rewrite u64_small by (unfold is_u64, u64_modulus; lia).
    pose proof (Z.div_pos x k ltac:(lia) Hk). pose proof (Z.div_le_upper_bound x k x Hk ltac:(nia)).
    apply i64_small. unfold is_i64. lia. }
  unfold small_axis, ok_axis in Ha. unfold shrink64, on_entries, shrink. rewrite !H by lia. done.
Qed.

(** Both tensors have fewer than 2^63 elements. *)
Definition small_tensors (axes : list axis5) : Prop :=
  prodZ (map dst_dim axes) < 2 ^ 63 ∧ prodZ (map src_dim axes) < 2 ^ 63.

Lemma factor_le_prodZ (f : axis5 → Z) (pre post : list axis5) (a : axis5) :
  (∀ x, ok_axis x → 0 < f x) → Forall ok_axis (pre ++ a :: post) → f a ≤ prodZ (map f (pre ++ a :: post)).
Proof.
  intros Hf Hok. apply Forall_app in Hok as [Hpre [Ha Hpost]%Forall_cons].
  assert (H : ∀ l, Forall ok_axis l → 0 < prodZ (map f l)) by (intros l Hl; by apply prodZ_pos, Forall_map, (Forall_impl _ _ _ Hl)).
  rewrite map_app, prodZ_app. cbn [map]. rewrite prodZ_cons. pose proof (H _ Hpre) as Hp. pose proof (H _ Hpost) as Hq. pose proof (Hf _ Ha).
  set (p := prodZ (map f pre)) in *. set (q := prodZ (map f post)) in *. clearbody p q.
  assert (1 ≤ p * q) by nia. replace (p * (f a * q)) with (f a * (p * q)) by ring. apply Z.le_mul_diag_r; lia.
Qed.

Lemma small_member (pre post : list axis5) (a : axis5) :
  Forall ok_axis (pre ++ a :: post) → small_tensors (pre ++ a :: post) → small_axis a.
Proof.
  intros Hok [H1 H2]. pose proof Hok as Hok'. apply Forall_app in Hok' as [_ [Ha _]%Forall_cons].
  pose proof (factor_le_prodZ dst_dim pre post a ltac:(by intros x (?&?&_)) Hok).
  pose proof (factor_le_prodZ src_dim pre post a ltac:(by intros x (?&?&_)) Hok). split; [done|lia].
Qed.

(** The axis products that the kernel's strides depend on. *)
Definition same_products (xs ys : list axis5) : Prop :=
  prodZ (map dst_dim xs) = prodZ (map dst_dim ys) ∧
  prodZ (map src_dim xs) = prodZ (map src_dim ys) ∧
  prodZ (map extent xs) = prodZ (map extent ys).

Lemma simplify_fold (rest : list axis5) : ∀ (acc : list axis5) (k : nat) (tl : list axis5),
  acc ≠ [] → (0 < k)%nat → Forall ok_axis acc → Forall ok_axis rest → small_tensors (acc ++ rest) →
  let out := foldl simplify_step acc (zip (seq k (length rest)) rest) in
  out ≠ [] ∧ (length out ≤ length acc + length rest)%nat ∧ Forall ok_axis out ∧
  walk (out ++ tl) = walk (acc ++ rest ++ tl) ∧ same_products out (acc ++ rest).
Proof.
  induction rest as [|a rest IH]; intros acc k tl Hne Hk Hacc Hrest Hsm; cbv zeta.
  { cbn [length seq zip zip_with foldl]. rewrite app_nil_r. repeat split; try done. simpl. lia. }
  apply Forall_cons in Hrest as [Ha Hrest].
  cbn [length seq zip zip_with foldl].
  assert (simplify_step acc (k, a) =
          if whole_axis a then alter (scale64 (extent a)) (length acc - 1)%nat acc else acc ++ [a]) as ->.
  { unfold simplify_step. by rewrite (proj2 (Nat.eqb_neq k 0)) by lia. }
  destruct (whole_axis a) eqn:Hw.
  - destruct acc as [|b acc _] using rev_ind; [done|]. clear Hne.
    rewrite length_app. cbn [length]. replace (length acc + 1 - 1)%nat with (length acc + 0)%nat by lia.
    rewrite alter_app_r. cbn [alter list_alter].
    apply Forall_app in Hacc as [Hacc [Hb _]%Forall_cons].
    assert (0 < extent a).
    { destruct Ha as (? & _). pose proof (f_equal dst_dim (whole_axis_unit a Hw)). simpl in *. lia. }
    assert (small_tensors ((acc ++ [scale (extent a) b]) ++ rest)) as Hsm'.
    { unfold small_tensors in *. rewrite (whole_axis_unit a Hw) in Hsm. revert Hsm.
      rewrite !map_app, !prodZ_app. cbn [map]. rewrite !prodZ_cons, !prodZ_nil. cbn. intros Hsm.
      set (u := prodZ (map dst_dim acc)) in *. set (v := prodZ (map dst_dim rest)) in *.
      set (u' := prodZ (map src_dim acc)) in *. set (v' := prodZ (map src_dim rest)) in *. lia. }
    assert (ok_axis (scale (extent a) b)) as Hokb by (by apply scale_ok).
    rewrite scale64_small.
    2: { apply (small_member acc rest); rewrite <- app_assoc in Hsm'; [|exact Hsm'].
         apply Forall_app. split; [done|]. by apply Forall_cons. }
    destruct (IH (acc ++ [scale (extent a) b]) (S k) tl) as (? & ? & ? & Hwalk & Hp);
      [by destruct acc|lia|apply Forall_app; split; [done|by apply Forall_singleton]|done|exact Hsm'|].
    rewrite length_app in *. cbn [length] in *. split_and!; [done|lia|done|..].
    + rewrite Hwalk. rewrite <- !app_assoc. cbn [app].
      rewrite (whole_axis_unit a Hw) at 2. symmetry. apply walk_merge; [apply Hb|lia].
    + destruct Hp as (Hp1 & Hp2 & Hp3). unfold same_products. rewrite Hp1, Hp2, Hp3. rewrite <- !app_assoc. cbn [app].
      rewrite !map_app, !prodZ_app. cbn [map]. rewrite !prodZ_cons.
      rewrite (whole_axis_unit a Hw). cbn. split_and!; lia.
  - destruct (IH (acc ++ [a]) (S k) tl) as (? & ? & ? & Hwalk & Hp);
      [by destruct acc|lia|apply Forall_app; split; [done|by apply Forall_singleton]|done|by rewrite <- app_assoc|].
    rewrite length_app in *. cbn [length] in *. rewrite <- app_assoc in Hwalk, Hp.
    split_and!; [done|lia|done|done|done].
Qed.

Lemma SimplifyCopyNdDims_walk (axes : list axis5) (tl : list axis5) :
  axes ≠ [] → Forall ok_axis axes → small_tensors axes →
  ∃ s, SimplifyCopyNdDims axes = Ret s ∧ s ≠ [] ∧ (length s ≤ length axes)%nat ∧
       Forall ok_axis s ∧ walk (s ++ tl) = walk (axes ++ tl) ∧ same_products s axes.
Proof.
  intros Hne Hf Hsm. destruct axes as [|a axes]; [done|]. apply Forall_cons in Hf as [Ha Hf].
  unfold SimplifyCopyNdDims, CHECK. cbn [length Nat.eqb negb obind seq zip zip_with foldl].
  eexists. split; [done|].
  destruct (simplify_fold axes (simplify_step [] (0%nat, a)) 1 tl) as (? & ? & ? & ? & ?);
    [done|lia|by apply Forall_singleton|done|exact Hsm|]. by split_and!.
Qed.

(** ** The unit of movement *)

Definition unit_sizes : list Z := [1; 2; 4; 8; 16].

Lemma movement_loop_spec (fuel : nat) (size elem dst src : Z) (a : axis5) :
  let m := movement_loop fuel size elem dst src a in
  m = elem ∨ (elem < m ∧ movement_ok m elem dst src a = true ∧
              ∃ j : nat, m = size / 2 ^ Z.of_nat j).
Proof.
  revert size. induction fuel as [|fuel IH]; intros size; simpl; [by left|].
  destruct (Z.ltb_spec elem size); [|by left].
  destruct (movement_ok size elem dst src a) eqn:E.
  - right. split_and!; [done|done|]. exists 0%nat. by rewrite Z.div_1_r.
  - destruct (IH (size / 2)) as [?|(? & ? & j & Hj)]; [by left|right].
    split_and!; [done|done|]. exists (S j). rewrite Hj, Z.div_div by lia.
    by rewrite Nat2Z.inj_succ, Z.pow_succ_r by lia.
Qed.

Lemma unit_sizes_divide (x y : Z) : x ∈ unit_sizes → y ∈ unit_sizes → x < y → (x | y).
Proof.
  unfold unit_sizes. intros Hx%list_elem_of_In Hy%list_elem_of_In Hlt.
  apply Z.mod_divide; simpl in *; intuition (subst; try lia; reflexivity).
Qed.

Lemma unit_sizes_pos (x : Z) : x ∈ unit_sizes → 0 < x.
Proof. unfold unit_sizes. intros Hx%list_elem_of_In. simpl in Hx. lia. Qed.

Lemma sixteen_halved (j : nat) : 0 < 16 / 2 ^ Z.of_nat j → 16 / 2 ^ Z.of_nat j ∈ unit_sizes.
Proof.
  intros H. do 5 (destruct j as [|j]; [apply list_elem_of_In; vm_compute; tauto|]).
  exfalso. rewrite Z.div_small in H; [lia|]. split; [lia|].
  replace (Z.of_nat (S (S (S (S (S j)))))) with (5 + Z.of_nat j) by lia.
  rewrite Z.pow_add_r by lia. pose proof (Z.pow_pos_nonneg 2 (Z.of_nat j)). lia.
Qed.

Lemma GetMovementSize_spec (elem dst src : Z) (axes : list axis5) (a : axis5) :
  elem ∈ unit_sizes → last axes = Some a →
  ∃ m, GetMovementSize kMaxMovementSize elem dst src axes = Ret m ∧ m ∈ unit_sizes ∧
       (elem | m) ∧ (m = elem ∨ movement_ok m elem dst src a = true).
Proof.
  intros He Hl. unfold GetMovementSize.
  assert (at_ axes (Z.of_nat (length axes) - 1) = Ret a) as ->.
  { rewrite last_lookup in Hl. apply lookup_lt_Some in Hl as ?. apply at_Ret.
    replace (Z.to_nat (Z.of_nat (length axes) - 1)) with (Nat.pred (length axes)) by lia.
    split; [lia|done]. }
  eexists. split.
  { apply list_elem_of_In in He. simpl in He. intuition (subst; reflexivity). }
  pose proof (unit_sizes_pos elem He).
  destruct (movement_loop_spec (Z.to_nat kMaxMovementSize) kMaxMovementSize elem dst src a)
    as [->|(Hlt & Hok & j & Hj)]; [split; [done|split; [apply Z.divide_refl|by left]]|].
  assert (movement_loop (Z.to_nat kMaxMovementSize) kMaxMovementSize elem dst src a ∈ unit_sizes).
  { rewrite Hj. apply sixteen_halved. change 16 with kMaxMovementSize. lia. }
  split; [done|]. split; [by apply unit_sizes_divide|by right].
Qed.

(** Wrapping does not change remainders by a width. *)
Lemma u64_mod_unit (x m : Z) : m ∈ unit_sizes → u64 x mod m = x mod m.
Proof.
  intros Hm. unfold u64, u64_modulus. symmetry. apply Znumtheory.Zmod_div_mod; [by apply unit_sizes_pos|lia|].
  unfold unit_sizes in Hm. apply list_elem_of_In in Hm. simpl in Hm.
  apply Z.mod_divide; intuition (subst; try lia; reflexivity).
Qed.

Lemma shrink_field (x elem q : Z) :
  0 < elem → 0 < q → x * elem mod (elem * q) = 0 → x / q * (elem * q) = x * elem.
Proof.
  intros He Hq H. apply Z.mod_divide in H as [c Hc]; [|nia].
  assert (x = c * q) as -> by nia. rewrite Z.div_mul by lia. lia.
Qed.

Lemma shrink_scale (elem m dst src : Z) (a : axis5) :
  0 < elem → m ∈ unit_sizes → (elem | m) → m = elem ∨ movement_ok m elem dst src a = true →
  scale m (shrink (m / elem) a) = scale elem a.
Proof.
  intros He Hmu Hdiv Hcase. pose proof (unit_sizes_pos m Hmu) as Hm. revert Hmu Hm Hcase. destruct Hdiv as [q ->].
  intros Hmu Hm [Heq|Hok].
  - assert (q = 1) as -> by nia. rewrite Z.mul_1_l, Z.div_same by lia.
    unfold scale, shrink; simpl. by rewrite !Z.div_1_r.
  - unfold movement_ok in Hok. rewrite !u64_mod_unit in Hok by done. rewrite !andb_true_iff, !Z.eqb_eq in Hok.
    destruct Hok as ((((((? & ?) & ?) & ?) & ?) & _) & _).
    rewrite Z.div_mul by lia. rewrite (Z.mul_comm q elem) in *.
    unfold scale, shrink; simpl. by rewrite !shrink_field by nia.
Qed.

Lemma last_split {A : Type} (l : list A) (a : A) :
  last l = Some a → l = take (length l - 1) l ++ [a].
Proof.
  intros H. apply last_Some in H as [k ->]. rewrite length_app. simpl.
  rewrite Nat.add_sub. by rewrite take_app_length.
Qed.

(** The simplified copy, with its unit: same bytes, same order, still inside
    both tensors, and no more units than elements. *)
Lemma SimplifyCopyNd_walk (axes : list axis5) (elem dst src : Z) :
  axes ≠ [] → Forall ok_axis axes → small_tensors axes → elem ∈ unit_sizes →
  ∃ s m, SimplifyCopyNd axes elem dst src = Ret (s, m) ∧ s ≠ [] ∧
    (length s ≤ length axes)%nat ∧ Forall ok_axis s ∧ m ∈ unit_sizes ∧
    byte_walk m s = byte_walk elem axes ∧ small_tensors s ∧ 0 < m / elem ∧
    ∀ f, f ∈ [dst_dim; src_dim; extent] → prodZ (map f s) * (m / elem) = prodZ (map f axes).
Proof.
  intros Hne Hok Hsm He. unfold byte_walk.
  destruct (SimplifyCopyNdDims_walk axes [unit_axis elem] Hne Hok Hsm)
    as (s & Hs & Hsne & Hlen & Hsok & Hwalk & (Hp1 & Hp2 & Hp3)).
  destruct (last s) as [a|] eqn:Hl; [|by apply last_None in Hl].
  destruct (GetMovementSize_spec elem dst src s a He Hl) as (m & Hm & Hmin & Hdiv & Hcase).
  apply last_split in Hl as Es. set (pre := take (length s - 1) s) in *.
  assert (length s = length pre + 1)%nat as Hls by (rewrite Es at 1; by rewrite length_app).
  pose proof (unit_sizes_pos elem He). pose proof (unit_sizes_pos m Hmin).
  pose proof (shrink_scale elem m dst src a ltac:(done) Hmin Hdiv Hcase) as Hsc.
  assert (0 < m / elem) as Hq by (destruct Hdiv as [q ->]; rewrite Z.div_mul by lia; nia).
  assert (small_axis a) as Hsa.
  { apply (small_member pre []); rewrite <- Es; [done|]. destruct Hsm as [? ?]. split; congruence. }
  rewrite Es in Hsok. apply Forall_app in Hsok as [Hpre Ha]. rewrite Forall_singleton in Ha.
  set (a' := shrink (m / elem) a) in *.
  assert (ok_axis a') as Ha' by (apply (proj2 (scale_ok m a' ltac:(lia))); rewrite Hsc; exact (proj1 (scale_ok elem a ltac:(lia)) Ha)).
  exists (pre ++ [a']), m. unfold SimplifyCopyNd. rewrite Hs. cbn [obind]. rewrite Hm. cbn [obind].
  split; [do 2 f_equal; rewrite Es at 2; rewrite Hls, Nat.add_sub, <- (Nat.add_0_r (length pre));
          rewrite alter_app_r; cbn [alter list_alter]; by rewrite shrink64_small|].
  split; [by destruct pre|]. split; [rewrite length_app in *; simpl; lia|].
  split; [apply Forall_app; split; [done|by apply Forall_singleton]|]. split; [done|]. split.
  - rewrite <- Hwalk, Es, <- !app_assoc. simpl.
    rewrite !(walk_merge pre []) by (first [apply Ha|apply Ha'|lia]). by rewrite Hsc.
  - assert (∀ f, f ∈ [dst_dim; src_dim; extent] → prodZ (map f (pre ++ [a'])) * (m / elem) = prodZ (map f axes)) as Hprods.
    { intros f Hf. assert (f a' * (m / elem) = f a ∧ prodZ (map f s) = prodZ (map f axes)) as [Ef <-].
      { destruct Hdiv as [q Hdq]. rewrite Hdq, Z.div_mul in * by lia.
        assert (∀ x y, x * (q * elem) = y * elem → x * q = y) as Hcancel by (intros; nia).
        rewrite !elem_of_cons, elem_of_nil in Hf. destruct Hf as [->|[->|[->|[]]]]; (split; [apply Hcancel|done]).
        - exact (f_equal dst_dim Hsc).
        - exact (f_equal src_dim Hsc).
        - exact (f_equal extent Hsc). }
      rewrite Es, !map_app, !prodZ_app. cbn [map]. rewrite !prodZ_singleton. lia. }
    split_and!; [|done|done].
    assert (∀ f, (∀ x, ok_axis x → 0 < f x) → f ∈ [dst_dim; src_dim; extent] → prodZ (map f axes) < 2 ^ 63 → prodZ (map f (pre ++ [a'])) < 2 ^ 63) as Hle.
    { intros f Hf Hin Hb. rewrite <- Hprods in Hb by done.
      assert (0 < prodZ (map f (pre ++ [a']))); [|nia]. apply prodZ_pos, Forall_map.
      assert (Forall ok_axis (pre ++ [a'])) as Hall by (apply Forall_app; split; [done|by apply Forall_singleton]).
      eapply Forall_impl; [exact Hall|]. auto. }
    destruct Hsm as [Hs1 Hs2]. split; (apply Hle; [by intros x (?&?&_)|set_solver|done]).
Qed.

(** ** The kernel walks the row-major order *)

Lemma all_indices_offsets (es : list Z) :
  Forall (λ e, 0 ≤ e) es →
  (λ idx, offset_of idx es) <$> all_indices es = range_list 0 (prodZ es).
Proof.
  induction 1 as [|e es He Hes IH]; [done|].
  cbn [all_indices]. rewrite fmap_bind_assoc, prodZ_cons.
  rewrite range_list_mul by (done || by apply prodZ_nonneg).
  apply bind_ext_all. intros i. rewrite <- list_fmap_compose, <- IH, <- list_fmap_compose.
  apply list_fmap_ext. intros _ idx _. simpl. lia.
Qed.

Lemma all_indices_in (es idx : list Z) : idx ∈ all_indices es → index_in idx es.
Proof.
  revert idx. induction es as [|e es IH]; intros idx Hin; cbn [all_indices] in Hin.
  - apply list_elem_of_singleton in Hin as ->. constructor.
  - apply list_elem_of_bind in Hin as (i & Hin & Hi).
    apply list_elem_of_fmap in Hin as (idx' & -> & Hin). apply range_list_elem in Hi.
    constructor; [lia|]. by apply IH.
Qed.

(** Offsets of the two tensors for one index of the copied box. *)
Definition both_offsets (axes : list axis5) (idx : list Z) : Z * Z :=
  (offset_of (zip_with Z.add (map dst_pos axes) idx) (map dst_dim axes),
   offset_of (zip_with Z.add (map src_pos axes) idx) (map src_dim axes)).

Lemma walk_indices (axes : list axis5) :
  walk axes = both_offsets axes <$> all_indices (map extent axes).
Proof.
  induction axes as [|a axes IH]; [done|]. cbn [walk map all_indices].
  rewrite fmap_bind_assoc. apply bind_ext_all. intros i. rewrite IH, <- !list_fmap_compose. done.
Qed.

Lemma both_offsets_range (axes : list axis5) (idx : list Z) :
  Forall ok_axis axes → index_in idx (map extent axes) →
  0 ≤ fst (both_offsets axes idx) < prodZ (map dst_dim axes) ∧
  0 ≤ snd (both_offsets axes idx) < prodZ (map src_dim axes).
Proof.
  intros Hok Hin. assert (index_in (zip_with Z.add (map dst_pos axes) idx) (map dst_dim axes) ∧
                          index_in (zip_with Z.add (map src_pos axes) idx) (map src_dim axes)) as [? ?].
  { revert idx Hin. induction Hok as [|a axes Ha _ IH]; intros idx Hin; simpl in *;
      inversion Hin as [|i e idx' es Hi Hrest]; subst; [split; constructor|].
    destruct (IH _ Hrest). destruct Ha as (? & ? & ? & ? & ? & ? & ?).
    split; (constructor; [lia|done]). }
  split; by apply offset_of_range.
Qed.

Lemma walk_unit (axes : list axis5) (m : Z) :
  walk (axes ++ [unit_axis m]) =
  (p ← walk axes; (λ r, (fst p * m + r, snd p * m + r)) <$> range_list 0 m).
Proof.
  induction axes as [|a axes IH].
  - cbn [app walk]. rewrite bind_singleton. simpl.
    induction (range_list 0 m) as [|i l IHl]; [done|].
    rewrite bind_cons, fmap_cons, IHl. simpl. rewrite prodZ_nil. do 2 f_equal; lia.
  - cbn [app walk]. rewrite bind_bind_assoc. apply bind_ext_all. intros i.
    rewrite IH, fmap_bind_assoc, bind_fmap_assoc. apply bind_ext_all. intros p.
    rewrite <- list_fmap_compose. apply list_fmap_ext. intros _ r _. simpl.
    rewrite !map_app, !prodZ_app. simpl. rewrite !prodZ_singleton. f_equal; lia.
Qed.

Lemma ofold_fmap {A S T : Type} (f : S → T → outcome S) (g : A → T) l s :
  ofold f (g <$> l) s = ofold (λ s x, f s (g x)) l s.
Proof. revert s. induction l as [|x l IH]; intros s; [done|]. simpl. by destruct (f s (g x)); simpl. Qed.

Lemma ofold_bind {A S T : Type} (f : S → T → outcome S) (h : A → list T) l s :
  ofold f (l ≫= h) s = ofold (λ s x, ofold f (h x) s) l s.
Proof.
  revert s. induction l as [|x l IH]; intros s; [done|]. rewrite bind_cons, ofold_app. simpl.
  by destruct (ofold f (h x) s); simpl.
Qed.

Lemma ofold_ext_in {A S : Type} (f g : S → A → outcome S) l s :
  (∀ s x, x ∈ l → f s x = g s x) → ofold f l s = ofold g l s.
Proof.
  revert s. induction l as [|x l IH]; intros s H; [done|]. simpl. rewrite H by left.
  destruct (g s x); simpl; [|done..]. apply IH. intros. apply H. by right.
Qed.

Lemma prodZ_drop_bound (l : list Z) (i : nat) :
  Forall (λ d, 0 < d) l → 0 < prodZ (drop i l) ≤ prodZ l.
Proof.
  intros H. split; [apply prodZ_pos; by apply Forall_drop|].
  rewrite <- (take_drop i l) at 2. rewrite prodZ_app.
  pose proof (prodZ_pos (take i l) ltac:(by apply Forall_take)).
  pose proof (prodZ_pos (drop i l) ltac:(by apply Forall_drop)). nia.
Qed.

Lemma prodZ_mono (xs ys : list Z) :
  Forall2 (λ x y, 0 ≤ x ≤ y) xs ys → 0 ≤ prodZ xs ≤ prodZ ys.
Proof. induction 1; [done|]. rewrite !prodZ_cons. nia. Qed.

Lemma ok_axes_extents (axes : list axis5) :
  Forall ok_axis axes → Forall2 (λ x y, 0 ≤ x ≤ y) (map extent axes) (map dst_dim axes).
Proof. induction 1 as [|a axes Ha _ IH]; constructor; [destruct Ha; lia|done]. Qed.

Lemma ok_axes_dims (axes : list axis5) :
  Forall ok_axis axes →
  Forall (λ d, 0 < d) (map dst_dim axes) ∧ Forall (λ d, 0 < d) (map src_dim axes) ∧
  Forall (λ e, 0 ≤ e) (map extent axes).
Proof. induction 1 as [|a axes Ha _ IH]; repeat constructor; destruct Ha; naive_solver lia. Qed.

Lemma fits_range (bits z b : Z) : 0 ≤ z < b → b ≤ 2 ^ (bits - 1) → fits bits z = true.
Proof. unfold fits. intros. pose proof (Z.pow_nonneg 2 (bits - 1)). apply andb_true_iff. lia. Qed.

(** Every value the kernel keeps in an [IndexType] is below the larger of the
    two tensors' sizes. *)
Lemma kernel_fits (bits bound : Z) (axes : list axis5) (count : Z) :
  Forall ok_axis axes → axes ≠ [] → prodZ (map dst_dim axes) < bound →
  prodZ (map src_dim axes) < bound → bound ≤ 2 ^ (bits - 1) → 0 ≤ count < bound →
  let n := length axes in
  forallb (fits bits) (InitStrides n (map dst_dim axes) n ++ InitStrides n (map src_dim axes) n
    ++ InitStrides n (map extent axes) n ++ map dst_pos axes ++ map src_pos axes ++ [count]) = true.
Proof.
  intros Hok Hne Hd Hs Hb Hc n. apply forallb_forall. intros z Hz%list_elem_of_In.
  assert (n ≠ 0%nat) by (by destruct axes).
  assert (∀ f : axis5 → Z, InitStrides n (map f axes) n = row_major (map f axes)) as Hrm.
  { intros f. pose proof (InitStrides_row_major n (map f axes)) as L.
    rewrite length_map in L. fold n in L. rewrite L by lia. by rewrite Nat.sub_diag, app_nil_r. }
  rewrite !Hrm in Hz. destruct (ok_axes_dims axes Hok) as (Hdp & Hsp & Hep).
  assert (∀ l z, z ∈ row_major l → ∃ i, z = prodZ (drop i l)) as Hrow.
  { intros l z' [i Hi]%list_elem_of_lookup. apply lookup_lt_Some in Hi as Hlt.
    rewrite row_major_length in Hlt. rewrite row_major_lookup in Hi by done. injection Hi as <-. eauto. }
  assert (∀ a, a ∈ axes → 0 ≤ dst_pos a < bound ∧ 0 ≤ src_pos a < bound) as Hpos.
  { intros a [i Hi]%list_elem_of_lookup.
    assert (ok_axis a) as (? & ? & ? & ? & ? & ? & ?) by (eapply Forall_lookup_1; done).
    pose proof (prodZ_drop_bound (map dst_dim axes) i Hdp) as Q1.
    pose proof (prodZ_drop_bound (map src_dim axes) i Hsp) as Q2.
    pose proof (prodZ_drop_bound (map dst_dim axes) (S i) Hdp) as Q3.
    pose proof (prodZ_drop_bound (map src_dim axes) (S i) Hsp) as Q4.
    rewrite (drop_S _ (dst_dim a) i), prodZ_cons in Q1 by (by rewrite list_lookup_fmap, Hi).
    rewrite (drop_S _ (src_dim a) i), prodZ_cons in Q2 by (by rewrite list_lookup_fmap, Hi). nia. }
  apply fits_range with bound; [|done].
  rewrite !elem_of_app, list_elem_of_singleton in Hz.
  destruct Hz as [Hz|[Hz|[Hz|[Hz|[Hz|Hz]]]]].
  - apply Hrow in Hz as [i ->]. pose proof (prodZ_drop_bound _ i Hdp). lia.
  - apply Hrow in Hz as [i ->]. pose proof (prodZ_drop_bound _ i Hsp). lia.
  - apply Hrow in Hz as [i ->].
    pose proof (prodZ_mono _ _ (Forall2_drop _ _ _ i (ok_axes_extents axes Hok))).
    pose proof (prodZ_drop_bound _ i Hdp). lia.
  - apply list_elem_of_fmap in Hz as (a & -> & Ha). by apply Hpos.
  - apply list_elem_of_fmap in Hz as (a & -> & Ha). by apply Hpos.
  - by subst.
Qed.

Lemma CopyNdKernel_walk {B : Type} (bits bound m : Z) (axes : list axis5) (src dst : list B) :
  Forall ok_axis axes → axes ≠ [] → prodZ (map dst_dim axes) < bound →
  prodZ (map src_dim axes) < bound → bound ≤ 2 ^ (bits - 1) →
  CopyNdKernel bits m axes (prodZ (map extent axes)) src dst =
  ofold (copy_byte src) (byte_walk m axes) dst.
Proof.
  intros Hok Hne Hd Hs Hb. pose proof (prodZ_mono _ _ (ok_axes_extents axes Hok)).
  destruct (ok_axes_dims axes Hok) as (_ & _ & Hep).
  unfold CopyNdKernel. rewrite kernel_fits with (bound := bound) by (done || lia).
  cbn [CHECK obind]. unfold byte_walk. rewrite walk_unit, ofold_bind, walk_indices, ofold_fmap.
  rewrite <- all_indices_offsets, ofold_fmap by done.
  apply ofold_ext_in. intros d idx Hin%all_indices_in.
  assert (length idx = length axes) as Hlen
    by (apply Forall2_length in Hin; by rewrite length_map in Hin).
  assert (length axes ≠ 0%nat) by (by destruct axes).
  pose proof (OffsetToNdIndex_offset_of (map extent axes) idx) as HO.
  rewrite !length_map in HO. rewrite HO by (done || by destruct axes).
  pose proof (NdIndexToOffset_eq (length axes) (map src_dim axes)
                (zip_with Z.add (map src_pos axes) idx)) as HS.
  pose proof (NdIndexToOffset_eq (length axes) (map dst_dim axes)
                (zip_with Z.add (map dst_pos axes) idx)) as HD.
  rewrite !length_map in HS, HD.
  rewrite HS, HD by (try (rewrite length_zip_with, length_map); lia).
  destruct (both_offsets_range axes idx Hok Hin) as [Ho1 Ho2]. simpl in Ho1, Ho2.
  rewrite !fits_range with (b := bound) by lia. cbn [andb CHECK obind].
  unfold copy_unit. rewrite ofold_fmap. done.
Qed.

Lemma count_no_wrap (es ds : list Z) (acc : Z) :
  Forall2 (λ x y, 0 ≤ x ≤ y) es ds → Forall (λ d, 0 < d) ds →
  0 ≤ acc → acc * prodZ ds < u64_modulus →
  foldl (λ c e, u64 (c * e)) acc es = acc * prodZ es.
Proof.
  intros Hed. revert acc. induction Hed as [|e d es ds He Hrest IH]; intros acc Hd Ha Hb; simpl.
  { rewrite prodZ_nil. lia. }
  apply Forall_cons in Hd as [Hd Hds]. rewrite !prodZ_cons in *.
  pose proof (prodZ_pos ds Hds).
  assert (acc * e ≤ acc * (d * prodZ ds)) by (apply Z.mul_le_mono_nonneg_l; nia).
  assert (acc * e * prodZ ds ≤ acc * (d * prodZ ds)).
  { rewrite <- Z.mul_assoc. apply Z.mul_le_mono_nonneg_l; nia. }
  rewrite u64_small by (unfold is_u64; nia). rewrite IH; [lia|done|nia|lia].
Qed.

(** 32-bit indices are chosen only for tensors they can index.  The code chooses them when
    it moves fewer than 2^31 - 1 units, whatever the sizes of the tensors. *)
Definition index_fits (s : list axis5) : Prop :=
  prodZ (map extent s) < 2 ^ 31 - 1 → prodZ (map dst_dim s) < 2 ^ 31 ∧ prodZ (map src_dim s) < 2 ^ 31.
Definition index_type_suffices (elem dst_ptr src_ptr : Z) (axes : list axis5) : Prop :=
  ∀ s m, SimplifyCopyNd axes elem dst_ptr src_ptr = Ret (s, m) → index_fits s.

(** It suffices that both tensors have fewer than 2^31 elements, or that they are copied
    whole. *)
Lemma index_type_suffices_small (elem dp sp : Z) (axes : list axis5) :
  axes ≠ [] → Forall ok_axis axes → elem ∈ unit_sizes →
  prodZ (map dst_dim axes) < 2 ^ 31 → prodZ (map src_dim axes) < 2 ^ 31 → index_type_suffices elem dp sp axes.
Proof.
  intros Hne Hok He Hd Hs s m E _.
  destruct (SimplifyCopyNd_walk axes elem dp sp) as (s' & m' & E' & _ & _ & Hsok & _ & _ & _ & Hk & Hp);
    [done|done|split; lia|done|]. rewrite E in E'. injection E' as <- <-.
  destruct (ok_axes_dims s Hsok) as (Hsd & Hss & _). apply prodZ_pos in Hsd, Hss.
  pose proof (Hp dst_dim ltac:(set_solver)). pose proof (Hp src_dim ltac:(set_solver)). split; nia.
Qed.

Lemma index_type_suffices_whole (elem dp sp : Z) (axes : list axis5) :
  axes ≠ [] → Forall ok_axis axes → small_tensors axes → elem ∈ unit_sizes →
  prodZ (map dst_dim axes) = prodZ (map extent axes) → prodZ (map src_dim axes) = prodZ (map extent axes) →
  index_type_suffices elem dp sp axes.
Proof.
  intros Hne Hok Hsm He Hd Hs s m E Hlt.
  destruct (SimplifyCopyNd_walk axes elem dp sp) as (s' & m' & E' & _ & _ & Hsok & _ & _ & _ & Hk & Hp);
    [done|done|done|done|]. rewrite E in E'. injection E' as <- <-.
  pose proof (Hp dst_dim ltac:(set_solver)). pose proof (Hp src_dim ltac:(set_solver)). pose proof (Hp extent ltac:(set_solver)).
  split; nia.
Qed.

Lemma DispatchIndexType_walk {B : Type} (m : Z) (s : list axis5) (src dst : list B) :
  Forall ok_axis s → s ≠ [] → small_tensors s → index_fits s →
  DispatchIndexType m s src dst = ofold (copy_byte src) (byte_walk m s) dst.
Proof.
  intros Hok Hne [Hd Hs] Hfit. unfold DispatchIndexType. destruct (ok_axes_dims s Hok) as (Hsd & _ & _).
  rewrite (count_no_wrap _ (map dst_dim s)) by (by apply ok_axes_extents || done || lia || (unfold u64_modulus; lia)).
  rewrite Z.mul_1_l. destruct (Z.ltb_spec (prodZ (map extent s)) (2 ^ 31 - 1)) as [Hlt|_].
  - destruct (Hfit Hlt). apply CopyNdKernel_walk with (bound := 2 ^ 31); done || lia.
  - apply CopyNdKernel_walk with (bound := 2 ^ 63); done || lia.
Qed.

(** The whole primitive is the reference copy. *)
Lemma SimplifyThenLaunch_walk {B : Type} (elem dp sp : Z) (axes : list axis5) (src dst : list B) :
  (1 ≤ length axes ≤ 8)%nat → Forall ok_axis axes → elem ∈ unit_sizes →
  small_tensors axes → index_type_suffices elem dp sp axes →
  SimplifyThenLaunch elem axes dp sp src dst = reference_copy elem axes src dst.
Proof.
  intros Hlen Hok He Hsm Hfit. unfold SimplifyThenLaunch, kMaxNumDims.
  rewrite (proj2 (Nat.ltb_lt 0 _)), (proj2 (Nat.leb_le _ 8)) by lia. cbn [CHECK obind].
  destruct (SimplifyCopyNd_walk axes elem dp sp) as
    (s & m & Es & Hne & Hsl & Hsok & Hm & Hwalk & Hssm & _); [by destruct axes; [simpl in Hlen; lia|]|done|done|done|].
  rewrite Es. cbn [obind fst snd]. assert (length s ≠ 0%nat) by (by destruct s).
  unfold LaunchWithSimplified, DispatchMovementSize, reference_copy.
  rewrite (proj2 (Nat.leb_le 1 _)), (proj2 (Nat.leb_le _ 8)) by lia. cbn [andb CHECK obind].
  rewrite bool_decide_eq_true_2 by done. cbn [CHECK obind]. rewrite <- Hwalk.
  apply DispatchIndexType_walk; try done. by apply (Hfit s m).
Qed.

(** ** What a sequence of byte moves does *)

Lemma copies_correct {B : Type} (src : list B) (ps : list (Z * Z)) (dst : list B) :
  Forall (λ p, 0 ≤ fst p < Z.of_nat (length dst) ∧ 0 ≤ snd p < Z.of_nat (length src)) ps →
  NoDup ps.*1 →
  ∃ d', ofold (copy_byte src) ps dst = Ret d' ∧ length d' = length dst ∧
  (∀ p, p ∈ ps → d' !! Z.to_nat (fst p) = src !! Z.to_nat (snd p)) ∧
  (∀ i, 0 ≤ i → i ∉ ps.*1 → d' !! Z.to_nat i = dst !! Z.to_nat i).
Proof.
  revert dst. induction ps as [|p ps IH]; intros dst Hf Hnd.
  { exists dst. split_and!; [done|done|by intros p Hp; inversion Hp|done]. }
  apply Forall_cons in Hf as [[Hd Hs] Hf]. rewrite fmap_cons in Hnd. apply NoDup_cons in Hnd as [Hni Hnd].
  destruct (lookup_lt_is_Some_2 src (Z.to_nat (snd p))) as [b Hb]; [lia|].
  destruct (lookup_lt_is_Some_2 dst (Z.to_nat (fst p))) as [c Hc]; [lia|].
  assert (copy_byte src dst p = Ret (<[Z.to_nat (fst p) := b]> dst)) as Hcopy.
  { unfold copy_byte. rewrite (proj2 (at_Ret src _ b)) by (split; [lia|done]). cbn [obind].
    by rewrite (proj2 (at_Ret dst _ c)) by (split; [lia|done]). }
  cbn [ofold]. rewrite Hcopy. cbn [obind].
  destruct (IH (<[Z.to_nat (fst p) := b]> dst)) as (d' & E & Hl & Hin & Hout).
  { eapply Forall_impl; [exact Hf|]. intros q. by rewrite length_insert. }
  { done. }
  rewrite length_insert in Hl. exists d'. split_and!; [done|done|..].
  - intros q [->|Hq]%elem_of_cons; [|by apply Hin].
    rewrite Hout by (done || lia). rewrite list_lookup_insert_eq by lia. done.
  - intros i Hi0 Hi. rewrite fmap_cons, not_elem_of_cons in Hi. destruct Hi as [Hne Hi].
    rewrite Hout by done. apply list_lookup_insert_ne. lia.
Qed.

Lemma offset_of_inj (dims i j : list Z) :
  index_in i dims → index_in j dims → offset_of i dims = offset_of j dims → i = j.
Proof.
  intros Hi Hj E. pose proof (offset_loop_row_major i dims Hi) as H1.
  rewrite E, offset_loop_row_major in H1 by done. congruence.
Qed.

Lemma zip_add_inj (pos i j : list Z) :
  length i = length pos → length j = length pos →
  zip_with Z.add pos i = zip_with Z.add pos j → i = j.
Proof.
  revert i j. induction pos as [|p pos IH]; intros [|x i] [|y j] Hi Hj E; simpl in *; try done.
  injection E as E1 E2. f_equal; [lia|]. apply IH; lia || done.
Qed.

Lemma dst_index_in (axes : list axis5) (idx : list Z) :
  Forall ok_axis axes → index_in idx (map extent axes) →
  index_in (zip_with Z.add (map dst_pos axes) idx) (map dst_dim axes).
Proof.
  intros Hok. revert idx. induction Hok as [|a axes Ha _ IH]; intros idx Hin; simpl in *;
    inversion Hin as [|i e idx' es Hi Hrest]; subst; [constructor|].
  destruct Ha as (? & ? & ? & ? & ? & ? & ?). constructor; [lia|exact (IH _ Hrest)].
Qed.

Lemma walk_dst_NoDup (axes : list axis5) : Forall ok_axis axes → NoDup (walk axes).*1.
Proof.
  intros Hok. destruct (ok_axes_dims axes Hok) as (_ & _ & He).
  rewrite walk_indices, <- list_fmap_compose.
  apply NoDup_fmap_2_strong.
  - intros i j Hi%all_indices_in Hj%all_indices_in E. simpl in E.
    apply offset_of_inj in E; [|by apply dst_index_in..].
    apply Forall2_length in Hi, Hj. rewrite length_map in Hi, Hj.
    apply zip_add_inj in E; [done|by rewrite length_map..].
  - apply (NoDup_fmap_1 (λ idx, offset_of idx (map extent axes))).
    rewrite all_indices_offsets by done. unfold range_list.
    apply NoDup_fmap_2; [intros ???; lia|apply NoDup_seq].
Qed.

Lemma unit_axis_ok (k : Z) : 0 < k → ok_axis (unit_axis k).
Proof. intros. unfold ok_axis, unit_axis. simpl. lia. Qed.

Lemma all_indices_complete (es idx : list Z) : index_in idx es → idx ∈ all_indices es.
Proof.
  induction 1 as [|i e idx es Hi _ IH]; [by apply list_elem_of_singleton|].
  cbn [all_indices]. apply list_elem_of_bind. exists i.
  split; [by apply list_elem_of_fmap_2|by apply range_list_elem].
Qed.

Lemma reference_copy_correct {B : Type} (elem : Z) (axes : list axis5) (src dst : list B) :
  Forall ok_axis axes → elem ∈ unit_sizes →
  Z.of_nat (length dst) = prodZ (map dst_dim axes) * elem →
  Z.of_nat (length src) = prodZ (map src_dim axes) * elem →
  ∃ d', reference_copy elem axes src dst = Ret d' ∧ length d' = length dst ∧
  (∀ idx r, index_in idx (map extent axes) → 0 ≤ r < elem →
     d' !! Z.to_nat (fst (both_offsets axes idx) * elem + r) =
     src !! Z.to_nat (snd (both_offsets axes idx) * elem + r)) ∧
  (∀ i, 0 ≤ i → i ∉ (byte_walk elem axes).*1 → d' !! Z.to_nat i = dst !! Z.to_nat i).
Proof.
  intros Hok He Hdl Hsl.
  pose proof (unit_sizes_pos elem He) as Hpos.
  assert (Forall ok_axis (axes ++ [unit_axis elem])) as Hok'.
  { apply Forall_app. split; [done|]. rewrite Forall_singleton. by apply unit_axis_ok. }
  destruct (copies_correct src (byte_walk elem axes) dst) as (d' & E & Hl & Hin & Hout).
  - apply Forall_forall. intros p Hp. unfold byte_walk in Hp. rewrite walk_indices in Hp.
    apply list_elem_of_fmap in Hp as (idx & -> & Hidx%all_indices_in).
    pose proof (both_offsets_range _ idx Hok' Hidx) as HR.
    rewrite !map_app, !prodZ_app in HR. simpl in HR. rewrite !prodZ_singleton in HR.
    simpl. lia.
  - by apply walk_dst_NoDup.
  - exists d'. split_and!; [done|done|..|done].
    intros idx r Hidx Hr.
    apply (Hin (fst (both_offsets axes idx) * elem + r, snd (both_offsets axes idx) * elem + r)).
    unfold byte_walk. rewrite walk_unit. apply list_elem_of_bind.
    exists (both_offsets axes idx). split.
    + apply list_elem_of_fmap. exists r. split; [done|]. by apply range_list_elem.
    + rewrite walk_indices. apply list_elem_of_fmap_2. by apply all_indices_complete.
Qed.

(** C4 The copy primitive, with its axis merging and wide moves, does exactly an
    N-dimensional slice copy, with 32-bit and with 64-bit indices: for up to eight axes,
    elements of 1, 2, 4, 8 or 16 bytes, a box inside both tensors, fewer than 2^63
    elements, and 32-bit indices only where they can index both tensors, it returns,
    every byte of every element of the copied box ends up at its place in the
    destination, and every other byte of the destination is unchanged. *)
Theorem copy_nd_correct {B : Type} (elem dp sp : Z) (axes : list axis5) (src dst : list B) :
  (1 ≤ length axes ≤ 8)%nat → Forall ok_axis axes → elem ∈ unit_sizes →
  small_tensors axes → index_type_suffices elem dp sp axes →
  Z.of_nat (length dst) = prodZ (map dst_dim axes) * elem →
  Z.of_nat (length src) = prodZ (map src_dim axes) * elem →
  ∃ d', SimplifyThenLaunch elem axes dp sp src dst = Ret d' ∧ length d' = length dst ∧
  (∀ idx r, index_in idx (map extent axes) → 0 ≤ r < elem →
     d' !! Z.to_nat (fst (both_offsets axes idx) * elem + r) =
     src !! Z.to_nat (snd (both_offsets axes idx) * elem + r)) ∧
  (∀ i, 0 ≤ i → i ∉ (byte_walk elem axes).*1 → d' !! Z.to_nat i = dst !! Z.to_nat i).
Proof.
  intros Hlen Hok He Hsm Hfit Hdl Hsl. rewrite SimplifyThenLaunch_walk by done.
  by apply reference_copy_correct.
Qed.

(** ** The slice copier *)

(** The axes of a copy of the box [c] between views [a] and [b]. *)
Fixpoint box_axes (a b c : list Range) : list axis5 :=
  match a, b, c with
  | ra :: a, rb :: b, rc :: c =>
      mkAxis (Range_size ra) (begin rc - begin ra) (Range_size rb) (begin rc - begin rb)
             (Range_size rc) :: box_axes a b c
  | _, _, _ => []
  end.

Lemma box_axes_ok (a b c : list Range) :
  Forall2 (λ r s, begin r ≤ begin s ∧ end_ s ≤ end_ r) a c →
  Forall2 (λ r s, begin r ≤ begin s ∧ end_ s ≤ end_ r) b c →
  Forall (λ r, begin r < end_ r) c →
  Forall ok_axis (box_axes a b c) ∧ length (box_axes a b c) = length c ∧
  map dst_dim (box_axes a b c) = map Range_size a ∧
  map src_dim (box_axes a b c) = map Range_size b ∧
  map extent (box_axes a b c) = map Range_size c.
Proof.
  intros Ha. revert b. induction Ha as [|ra rc a c Hac _ IH]; intros b Hb Hs.
  { inversion Hb; subst. by repeat split. }
  inversion Hb as [|rb ? b' ? Hbc Hb']; subst. apply Forall_cons in Hs as [Hrc Hs].
  destruct (IH b' Hb' Hs) as (Hok & Hl & E1 & E2 & E3). cbn [box_axes map length].
  rewrite Hl, E1, E2, E3. split_and!; [|done..].
  constructor; [unfold ok_axis, Range_size; simpl; lia|done].
Qed.

Lemma box_axes_offsets (a b c : list Range) (p : list Z) :
  length a = length c → length b = length c → Forall2 in_range p c →
  index_in (zip_with (λ x r, x - begin r) p c) (map Range_size c) ∧
  both_offsets (box_axes a b c) (zip_with (λ x r, x - begin r) p c) =
  (offset_of (zip_with (λ x r, x - begin r) p a) (map Range_size a),
   offset_of (zip_with (λ x r, x - begin r) p b) (map Range_size b)).
Proof.
  intros Hla Hlb Hp.
  assert (index_in (zip_with (λ x r, x - begin r) p c) (map Range_size c)) as Hidx.
  { clear -Hp. induction Hp as [|x r p c Hx _ IH]; constructor; [|done].
    unfold in_range, Range_size in *. lia. }
  split; [done|]. clear Hidx. revert a b Hla Hlb.
  induction Hp as [|x r p c Hx _ IH]; intros [|ra a] [|rb b] Hla Hlb; simpl in *; try done.
  unfold both_offsets in *. cbn [map zip_with offset_of box_axes dst_pos src_pos dst_dim src_dim].
  specialize (IH a b ltac:(lia) ltac:(lia)). injection IH as IH1 IH2.
  assert (map dst_dim (box_axes a b c) = map Range_size a ∧
          map src_dim (box_axes a b c) = map Range_size b) as [Ed Es].
  { clear -Hla Hlb. injection Hla as Hla. injection Hlb as Hlb. revert b c Hla Hlb.
    induction a as [|ra a IH]; intros [|rb b] [|rc c] Hla Hlb; simpl in *; try done.
    destruct (IH b c) as [-> ->]; lia || done. }
  rewrite Ed in *. rewrite Es in *. rewrite IH1, IH2. do 2 f_equal; lia.
Qed.

Lemma copier_axes_box (v w r : TensorSliceView) (dp sp : list Z) :
  view_shape v = UpdateShape (range_vec v) → view_shape w = UpdateShape (range_vec w) →
  view_shape r = UpdateShape (range_vec r) →
  dp = zip_with (λ l r, begin l - begin r) (range_vec r) (range_vec v) →
  sp = zip_with (λ l r, begin l - begin r) (range_vec r) (range_vec w) →
  length (range_vec v) = length (range_vec r) → length (range_vec w) = length (range_vec r) →
  copier_axes (mkCopier v w dp sp (view_shape r)) =
  box_axes (range_vec v) (range_vec w) (range_vec r).
Proof.
  intros Hv Hw Hr -> ->. unfold copier_axes. simpl. rewrite Hv, Hw, Hr. simpl.
  generalize (range_vec v) (range_vec w) (range_vec r). clear.
  intros a b c. revert a b. induction c as [|rc c IH]; intros [|ra a] [|rb b] Hla Hlb; simpl in *; try done.
  f_equal. apply IH; lia.
Qed.

Lemma Contains_true (v w : TensorSliceView) :
  proper_view w → view_NumAxes v = view_NumAxes w → (∀ p, in_view p w → in_view p v) →
  Contains v w = Ret true ∧
  Forall2 (λ r s, begin r ≤ begin s ∧ end_ s ≤ end_ r) (range_vec v) (range_vec w).
Proof.
  intros Hw Hn Hp. destruct (Contains_points v w Hw Hn) as (b & Hb & Hiff).
  assert (b = true) as -> by tauto. split; [done|].
  apply contains_loop_spec; [done|]. unfold Contains in Hb.
  rewrite proper_not_empty in Hb by done. unfold CHECK in Hb.
  rewrite (proj2 (Nat.eqb_eq _ _)) in Hb by done. simpl in Hb. congruence.
Qed.

(** C38 Copying between two slices of the same logical tensor that have a common
    point, of at most eight axes and fewer than 2^63 elements each: the copier is built
    without aborting and, when 32-bit indices are chosen only where they can index both
    slices, the copy returns, and afterwards every logical element both slices hold has,
    in the destination's local layout, the bytes it has in the source's. *)
Theorem slice_copier_correct {B : Type} (v w : TensorSliceView) (p0 : list Z)
    (elem dptr sptr : Z) (src dst : list B) :
  proper_view v → proper_view w → view_NumAxes v = view_NumAxes w → (view_NumAxes v ≤ 8)%nat →
  in_view p0 v → in_view p0 w → elem ∈ unit_sizes →
  prodZ (map Range_size (range_vec v)) < 2 ^ 63 → prodZ (map Range_size (range_vec w)) < 2 ^ 63 →
  Z.of_nat (length dst) = prodZ (map Range_size (range_vec v)) * elem →
  Z.of_nat (length src) = prodZ (map Range_size (range_vec w)) * elem →
  ∃ c, new_TensorSliceCopier v w = Ret c ∧
  (index_type_suffices elem dptr sptr (copier_axes c) →
   ∃ d', Copier_Copy c elem dptr sptr src dst = Ret d' ∧ length d' = length dst ∧
   ∀ p k, in_view p v → in_view p w → 0 ≤ k < elem →
     d' !! Z.to_nat (offset_of (zip_with (λ x r, x - begin r) p (range_vec v))
                               (map Range_size (range_vec v)) * elem + k) =
     src !! Z.to_nat (offset_of (zip_with (λ x r, x - begin r) p (range_vec w))
                                (map Range_size (range_vec w)) * elem + k)).
Proof.
  intros Hv Hw Hn Hn8 Hp0v Hp0w He Hdv Hdw Hdl Hsl.
  destruct (Intersect_points v w Hv Hw Hn) as (r & Hr & Hempty & Hpts).
  destruct (IsEmpty r) eqn:Hre; [exfalso; by apply (proj1 Hempty eq_refl p0)|].
  destruct (Hpts eq_refl) as [Hrp Hrpts]. clear Hempty Hpts.
  assert (in_view p0 r) as Hp0 by (by apply Hrpts).
  assert (∀ u, in_view p0 u → view_NumAxes u = view_NumAxes r) as Hrank.
  { intros u Hu. apply Forall2_length in Hu, Hp0. unfold view_NumAxes. lia. }
  destruct (Contains_true v r) as [Hc1 Hb1]; [done|by apply Hrank|naive_solver|].
  destruct (Contains_true w r) as [Hc2 Hb2]; [done|by apply Hrank|naive_solver|].
  unfold new_TensorSliceCopier, new_TensorSliceCopier3, OffsetTo. rewrite Hr. cbn [obind].
  rewrite Hc1, Hc2. cbn [CHECK obind].
  rewrite !(proj2 (Nat.eqb_eq _ _)) by (by apply Hrank). cbn [CHECK obind].
  eexists. split; [done|]. destruct (box_axes_ok _ _ _ Hb1 Hb2 (proj1 (proj2 Hrp))) as (Hok & Hlen & Hm1 & Hm2 & Hm3).
  unfold Copier_Copy.
  rewrite (copier_axes_box v w r) by
    (done || apply Hv || apply Hw || apply Hrp || by (apply Forall2_length in Hb1, Hb2)).
  intros Hfit. assert (small_tensors (box_axes (range_vec v) (range_vec w) (range_vec r))) as Hsm by (unfold small_tensors; by rewrite Hm1, Hm2).
  rewrite SimplifyThenLaunch_walk by
    (try done; rewrite Hlen; unfold view_NumAxes in *;
     destruct Hrp as [Hr0 _]; specialize (Hrank v Hp0v);
     (assert (length (range_vec r) ≠ 0%nat) by (by destruct (range_vec r))); lia).
  destruct (reference_copy_correct elem (box_axes (range_vec v) (range_vec w) (range_vec r)) src dst)
    as (d' & Hd' & Hl' & Hin & _); [done|done|by rewrite Hm1|by rewrite Hm2|].
  exists d'. split_and!; [done|done|].
  intros p k Hpv Hpw Hk.
  destruct (box_axes_offsets (range_vec v) (range_vec w) (range_vec r) p) as [Hidx Hoff];
    [by apply Hrank in Hp0v|by apply Hrank in Hp0w|by apply Hrpts|].
  pose proof (Hin _ k ltac:(by rewrite Hm3) Hk) as HH. by rewrite Hoff in HH.
Qed.

(** ** Where 32-bit indices overflow *)

Lemma ofold_crashes {A S : Type} (f : S → A → outcome S) (l : list A) (x : A) (s : S) :
  x ∈ l → (∀ s, f s x = Crash) → (∀ s y e, f s y ≠ Fail e) → ofold f l s = Crash.
Proof.
  intros Hx Hc Hf. revert s. induction l as [|y l IH]; intros s; [by apply not_elem_of_nil in Hx|]. cbn [ofold].
  apply elem_of_cons in Hx as [<-|Hx]; [by rewrite Hc|].
  destruct (f s y) as [s'|e|] eqn:E; cbn [obind]; [by apply IH|by apply Hf in E|done].
Qed.

Lemma at_no_fail {A : Type} (l : list A) (i : Z) (e : error_kind) : at_ l i ≠ Fail e.
Proof. unfold at_. by repeat case_match. Qed.

Lemma ofold_no_fail {A S : Type} (f : S → A → outcome S) (l : list A) (s : S) (e : error_kind) :
  (∀ s y e, f s y ≠ Fail e) → ofold f l s ≠ Fail e.
Proof.
  intros Hf. revert s. induction l as [|y l IH]; intros s; [done|]. cbn [ofold].
  destruct (f s y) as [s'|e'|] eqn:E; cbn [obind]; [apply IH|by apply Hf in E|done].
Qed.

Lemma copy_unit_no_fail {B : Type} (m : Z) (src dst : list B) (p : Z * Z) (e : error_kind) : copy_unit m src dst p ≠ Fail e.
Proof.
  apply ofold_no_fail. intros d r e'. unfold copy_byte. cbn [fst snd].
  destruct (at_ src _) eqn:E1; cbn [obind]; [|by apply at_no_fail in E1|done].
  destruct (at_ d _) eqn:E2; cbn [obind]; [done|by apply at_no_fail in E2|done].
Qed.

(** C40 The index type is chosen from the number of copied units alone: whenever fewer
    than 2^31 - 1 units are copied and one of them lies at an offset of 2^31 or more in
    either tensor (inside it), the 32-bit indices overflow. *)
Theorem copy_nd_index_overflow {B : Type} (m : Z) (axes : list axis5) (idx : list Z) (src dst : list B) :
  axes ≠ [] → Forall ok_axis axes → prodZ (map extent axes) < 2 ^ 31 - 1 → prodZ (map dst_dim axes) < 2 ^ 63 →
  index_in idx (map extent axes) →
  2 ^ 31 ≤ fst (both_offsets axes idx) ∨ 2 ^ 31 ≤ snd (both_offsets axes idx) →
  DispatchIndexType m axes src dst = Crash.
Proof.
  intros Hne Hok Hlt Hd Hidx Hbig. unfold DispatchIndexType. destruct (ok_axes_dims axes Hok) as (Hsd & _ & Hep).
  rewrite (count_no_wrap _ (map dst_dim axes)) by (by apply ok_axes_extents || done || lia || (unfold u64_modulus; lia)).
  rewrite Z.mul_1_l, (proj2 (Z.ltb_lt _ _)) by done. unfold CopyNdKernel.
  destruct (forallb _ _); cbn [CHECK obind]; [|done].
  rewrite <- all_indices_offsets, ofold_fmap by done.
  apply ofold_crashes with (x := idx); [by apply all_indices_complete| |].
  - intros d. assert (length axes ≠ 0%nat) by (by destruct axes).
    assert (length idx = length axes) as Hl by (apply Forall2_length in Hidx; by rewrite length_map in Hidx).
    pose proof (OffsetToNdIndex_offset_of (map extent axes) idx) as HO. rewrite !length_map in HO. rewrite HO by (done || by destruct axes).
    pose proof (NdIndexToOffset_eq (length axes) (map src_dim axes) (zip_with Z.add (map src_pos axes) idx)) as HS.
    pose proof (NdIndexToOffset_eq (length axes) (map dst_dim axes) (zip_with Z.add (map dst_pos axes) idx)) as HD.
    rewrite !length_map in HS, HD. rewrite HS, HD by (try (rewrite length_zip_with, length_map); lia).
    unfold both_offsets in Hbig. cbn [fst snd] in Hbig.
    assert (∀ z, 2 ^ 31 ≤ z → fits 32 z = false) as Hf by (intros z Hz; apply andb_false_iff; right; apply Z.ltb_ge; simpl; lia).
    destruct Hbig as [Hb|Hb]; rewrite (Hf _ Hb), ?andb_false_r; done.
  - intros d idx' e. destruct (fits _ _ && fits _ _); cbn [CHECK obind]; [apply copy_unit_no_fail|done].
Qed.

(** A one-element copy out of a source of 2^40 elements. *)
Lemma copy_nd_index_overflow_witness :
  DispatchIndexType 1 [mkAxis 1 0 (2 ^ 20) (2 ^ 20 - 1) 1; mkAxis 1 0 (2 ^ 20) 5 1] [] [0] = Crash.
Proof.
  apply (copy_nd_index_overflow 1 _ [0; 0]); [done|repeat constructor; simpl; lia|done|done|repeat constructor; simpl; lia|].
  right. vm_compute. discriminate.
Defined.

Lemma copy_nd_correct_witness :
  ∃ d', SimplifyThenLaunch 2 [mkAxis 2 0 3 1 2; mkAxis 2 0 2 0 2] 0 0
          [1;2;3;4;5;6;7;8;9;10;11;12] (replicate 8 0) = Ret d' ∧ d' !! 0%nat = Some 5.
Proof.
  destruct (copy_nd_correct 2 0 0 [mkAxis 2 0 3 1 2; mkAxis 2 0 2 0 2]
    [1;2;3;4;5;6;7;8;9;10;11;12] (replicate 8 0)) as (d' & H & _ & Hin & _);
    [simpl; lia|repeat constructor; simpl; lia|apply list_elem_of_In; simpl; tauto|done
    |apply index_type_suffices_small; [done|repeat constructor; simpl; lia|apply list_elem_of_In; simpl; tauto|done|done]|reflexivity..|].
  exists d'. split; [exact H|].
  refine (Hin [0; 0] 0 _ _); [repeat constructor; simpl; lia|lia].
Defined.

(** Rows 1..3 of a 4x2 tensor, copied out of a buffer that holds rows 0..2. *)
Lemma slice_copier_correct_witness :
  let v := view_of_ranges [mkRange 1 4; mkRange 0 2] in
  let w := view_of_ranges [mkRange 0 3; mkRange 0 2] in
  ∃ c d', new_TensorSliceCopier v w = Ret c ∧
    Copier_Copy c 1 0 0 [10; 11; 20; 21; 30; 31] (replicate 6 0) = Ret d' ∧
    d' !! 0%nat = Some 20.
Proof.
  intros v w.
  destruct (slice_copier_correct v w [1; 0] 1 0 0 [10; 11; 20; 21; 30; 31] (replicate 6 0))
    as (c & Hc & Hcopy);
    [unfold proper_view; split_and!; [done|repeat constructor; simpl; lia|reflexivity]
    |unfold proper_view; split_and!; [done|repeat constructor; simpl; lia|reflexivity]
    |reflexivity|unfold view_NumAxes; simpl; lia
    |unfold in_view, in_range; repeat constructor; simpl; lia
    |unfold in_view, in_range; repeat constructor; simpl; lia
    |apply list_elem_of_In; simpl; tauto|reflexivity..|].
  destruct Hcopy as (d' & Hd & _ & Hin).
  { assert (copier_axes c = [mkAxis 3 0 3 1 2; mkAxis 2 0 2 0 2]) as -> by (injection Hc as <-; reflexivity).
    apply index_type_suffices_small; [done|repeat constructor; simpl; lia|apply list_elem_of_In; simpl; tauto|done|done]. }
  exists c, d'. split; [exact Hc|]. split; [exact Hd|].
  refine (Hin [1; 0] 0 _ _ _); [repeat constructor; simpl; lia..|lia].
Defined.
