(* ===== verification/Ids.v ===== *)
(** * Identifiers: devices, streams, tasks and the generators that number them

    [core/device/device_id.{h,cpp}], [core/graph/stream_id.{h,cpp}],
    [core/graph/task_id.{h,cpp}] pack a rank, a device, a stream and a task
    number into one [int64_t]; [core/graph/task_id_generator.cpp],
    [core/graph/stream_index_generator.cpp],
    [core/graph/task_stream_index_manager.cpp] and [core/job/id_manager.cpp]
    hand the numbers out.  An execution is a sequence of operations: [Generate] of
    a generator and the stream index operations hold a mutex, [GetTaskIndex] and
    [TryUpdateTaskIndex] take none and must not run beside others. *)
From Stdlib Require Import Btauto.
From S2P Require Import Prelude.

(** ** [DeviceId] *)

Definition kRankBits : Z := 16.
Definition kDeviceTypeBits : Z := 5.
Definition kDeviceIndexBits : Z := 7.
Definition kMaxRank : Z := Z.shiftl 1 kRankBits - 1.
Definition kMaxDeviceTypeVal : Z := Z.shiftl 1 kDeviceTypeBits - 1.
Definition kMaxDeviceIndex : Z := Z.shiftl 1 kDeviceIndexBits - 1.

Record DeviceId := mkDeviceId { rank : Z; device_type : Z; device_index : Z }.

#[export] Instance DeviceId_eq_dec : EqDecision DeviceId.
Proof. solve_decision. Defined.
#[export] Instance DeviceId_countable : Countable DeviceId.
Proof.
  refine (inj_countable' (λ d, (rank d, device_type d, device_index d))
                         (λ '(a, b, c), mkDeviceId a b c) _); by intros [].
Defined.

(** The constructor; its arguments are [uint32_t]. *)
Definition new_DeviceId (rank device_type device_index : Z) : outcome DeviceId :=
  let* _ := CHECK (rank <=? kMaxRank) in
  let* _ := CHECK (device_type <=? kMaxDeviceTypeVal) in
  let* _ := CHECK (device_index <=? kMaxDeviceIndex) in
  Ret (mkDeviceId rank device_type device_index).

(** [EncodeDeviceIdToInt64]; [kDeviceIndexShift] is 0. *)
Definition EncodeDeviceIdToInt64 (d : DeviceId) : Z :=
  let kDeviceTypeShift := 0 + kDeviceIndexBits in
  let kRankShift := kDeviceTypeShift + kDeviceTypeBits in
  let id := device_index d in
  let id := Z.lor id (i64 (Z.shiftl (device_type d) kDeviceTypeShift)) in
  Z.lor id (i64 (Z.shiftl (rank d) kRankShift)).

(** ** [StreamId] *)

Definition kStreamIndexBits : Z := 15.
Definition kMaxStreamIndex : Z := Z.shiftl 1 kStreamIndexBits - 1.

Record StreamId := mkStreamId { device_id : DeviceId; stream_index : Z }.

#[export] Instance StreamId_eq_dec : EqDecision StreamId.
Proof. solve_decision. Defined.
#[export] Instance StreamId_countable : Countable StreamId.
Proof.
  refine (inj_countable' (λ s, (device_id s, stream_index s)) (λ '(a, b), mkStreamId a b) _);
    by intros [].
Defined.

Definition new_StreamId (d : DeviceId) (stream_index : Z) : outcome StreamId :=
  let* _ := CHECK (stream_index <=? kMaxStreamIndex) in
  Ret (mkStreamId d stream_index).

Definition new_StreamId4 (rank device_type device_index stream_index : Z) : outcome StreamId :=
  let* d := new_DeviceId rank device_type device_index in
  new_StreamId d stream_index.

(** A mask of [bits] ones at bit [shift], as an [int64_t] constant. *)
Definition int64_mask (bits shift : Z) : Z := i64 (Z.shiftl (Z.shiftl 1 bits - 1) shift).

Module StreamLayout.
Definition kDeviceIndexShift : Z := kStreamIndexBits.
Definition kDeviceTypeShift : Z := kDeviceIndexShift + kDeviceIndexBits.
Definition kRankShift : Z := kDeviceTypeShift + kDeviceTypeBits.
End StreamLayout.

Definition EncodeStreamIdToInt64 (s : StreamId) : Z :=
  let id := stream_index s in
  let id := Z.lor id (i64 (Z.shiftl (device_index (device_id s)) StreamLayout.kDeviceIndexShift)) in
  let id := Z.lor id (i64 (Z.shiftl (device_type (device_id s)) StreamLayout.kDeviceTypeShift)) in
  Z.lor id (i64 (Z.shiftl (rank (device_id s)) StreamLayout.kRankShift)).

Definition DecodeStreamIdFromInt64 (v : Z) : outcome StreamId :=
  let rank := Z.shiftr (Z.land v (int64_mask kRankBits StreamLayout.kRankShift))
                       StreamLayout.kRankShift in
  let device_type := Z.shiftr (Z.land v (int64_mask kDeviceTypeBits StreamLayout.kDeviceTypeShift))
                              StreamLayout.kDeviceTypeShift in
  let device_index := Z.shiftr (Z.land v (int64_mask kDeviceIndexBits StreamLayout.kDeviceIndexShift))
                               StreamLayout.kDeviceIndexShift in
  let stream_index := Z.land v (int64_mask kStreamIndexBits 0) in
  new_StreamId4 (u32 rank) (u32 device_type) (u32 device_index) (u32 stream_index).

(** ** [TaskId] *)

Definition kTaskIndexBits : Z := 21.
Definition kMaxTaskIndex : Z := Z.shiftl 1 kTaskIndexBits - 1.

Record TaskId := mkTaskId { stream_id : StreamId; task_index : Z }.

#[export] Instance TaskId_eq_dec : EqDecision TaskId.
Proof. solve_decision. Defined.

Definition new_TaskId (s : StreamId) (task_index : Z) : outcome TaskId :=
  let* _ := CHECK (task_index <=? kMaxTaskIndex) in
  Ret (mkTaskId s task_index).

Module TaskLayout.
Definition kStreamIndexShift : Z := kTaskIndexBits.
Definition kDeviceIndexShift : Z := kStreamIndexShift + kStreamIndexBits.
Definition kDeviceTypeShift : Z := kDeviceIndexShift + kDeviceIndexBits.
Definition kRankShift : Z := kDeviceTypeShift + kDeviceTypeBits.
End TaskLayout.

Definition EncodeTaskIdToInt64 (t : TaskId) : Z :=
  let s := stream_id t in
  let id := task_index t in
  let id := Z.lor id (i64 (Z.shiftl (stream_index s) TaskLayout.kStreamIndexShift)) in
  let id := Z.lor id (i64 (Z.shiftl (device_index (device_id s)) TaskLayout.kDeviceIndexShift)) in
  let id := Z.lor id (i64 (Z.shiftl (device_type (device_id s)) TaskLayout.kDeviceTypeShift)) in
  Z.lor id (i64 (Z.shiftl (rank (device_id s)) TaskLayout.kRankShift)).

(** [>>] on a negative [int64_t] is an arithmetic shift, as is [Z.shiftr]. *)
Definition DecodeTaskIdFromInt64 (v : Z) : outcome TaskId :=
  let rank := Z.shiftr (Z.land v (int64_mask kRankBits TaskLayout.kRankShift))
                       TaskLayout.kRankShift in
  let device_type := Z.shiftr (Z.land v (int64_mask kDeviceTypeBits TaskLayout.kDeviceTypeShift))
                              TaskLayout.kDeviceTypeShift in
  let device_index := Z.shiftr (Z.land v (int64_mask kDeviceIndexBits TaskLayout.kDeviceIndexShift))
                               TaskLayout.kDeviceIndexShift in
  let stream_index := Z.shiftr (Z.land v (int64_mask kStreamIndexBits TaskLayout.kStreamIndexShift))
                               TaskLayout.kStreamIndexShift in
  let task_index := Z.land v (int64_mask kTaskIndexBits 0) in
  let* s := new_StreamId4 (u32 rank) (u32 device_type) (u32 device_index) (u32 stream_index) in
  new_TaskId s (u32 task_index).

Definition MachineId4ActorId (actor_id : Z) : outcome Z :=
  let* t := DecodeTaskIdFromInt64 actor_id in Ret (rank (device_id (stream_id t))).

Definition ThrdId4ActorId (actor_id : Z) : outcome Z :=
  let* t := DecodeTaskIdFromInt64 actor_id in Ret (EncodeStreamIdToInt64 (stream_id t)).

(** ** Saved counters *)

(** The loop that stores every counter under the encoding of its key. *)
Definition save_counters {K V : Type} `{Countable K} (encode : K → Z) (value : V → Z)
    (counters : gmap K V) (state : gmap Z Z) : gmap Z Z :=
  map_fold (λ k v acc, <[encode k := value v]> acc) state counters.

(** The saved value for a key, 0 when there is none. *)
Definition saved_or_0 (state : gmap Z Z) (key : Z) : Z :=
  match state !! key with Some v => v | None => 0 end.

(** The loop that merges a saved state into the [*_init_state_] map. *)
Definition merge_init_state (init state : gmap Z Z) : gmap Z Z :=
  map_fold (λ key val acc,
    match acc !! key with
    | Some old => <[key := Z.max old val]> acc
    | None => <[key := val]> acc
    end) init state.

(** ** [TaskIdGenerator] *)

Record TaskIdGenerator := mkTaskIdGenerator {
  stream_id2task_index_counter : gmap StreamId Z;
  task_index_init_state : gmap Z Z;
}.

Definition new_TaskIdGenerator : TaskIdGenerator := mkTaskIdGenerator ∅ ∅.

Definition GetTaskIndex (g : TaskIdGenerator) (task_index_state : gmap Z Z) : gmap Z Z :=
  save_counters EncodeStreamIdToInt64 id (stream_id2task_index_counter g) task_index_state.

Definition TryUpdateTaskIndex (g : TaskIdGenerator) (task_index_state : gmap Z Z) : TaskIdGenerator :=
  mkTaskIdGenerator
    (map_imap (λ s c, Some (Z.max c (saved_or_0 task_index_state (EncodeStreamIdToInt64 s))))
              (stream_id2task_index_counter g))
    (merge_init_state (task_index_init_state g) task_index_state).

(** [Generate]; the counter is a [uint32_t] and is bumped before the [TaskId]
    constructor checks it. *)
Definition Generate (g : TaskIdGenerator) (s : StreamId) : outcome (TaskId * TaskIdGenerator) :=
  let c := stream_id2task_index_counter g in
  let c := match c !! s with
           | Some _ => c
           | None => <[s := saved_or_0 (task_index_init_state g) (EncodeStreamIdToInt64 s)]> c
           end in
  let task_index := match c !! s with Some i => i | None => 0 end in
  let g' := mkTaskIdGenerator (<[s := u32 (task_index + 1)]> c) (task_index_init_state g) in
  let* t := new_TaskId s task_index in
  Ret (t, g').

(** ** [StreamIndexGenerator] *)

Record RoundRobinRange := mkRR { rr_begin : Z; rr_size : Z; rr_offset : Z }.

Record StreamIndexGenerator := mkSIG {
  next_stream_index : Z;
  name2rr_range : gmap string RoundRobinRange;
}.

Definition new_StreamIndexGenerator (stream_index : Z) : StreamIndexGenerator :=
  mkSIG stream_index ∅.

Definition GenerateAnonymous (g : StreamIndexGenerator) : Z * StreamIndexGenerator :=
  (next_stream_index g, mkSIG (u32 (next_stream_index g + 1)) (name2rr_range g)).

Definition GenerateNamedRoundRobin (g : StreamIndexGenerator) (name : string) (size : Z) :
    outcome (Z * StreamIndexGenerator) :=
  let* _ := CHECK (0 <? size) in
  let* (r, next) :=
    match name2rr_range g !! name with
    | None => Ret (mkRR (next_stream_index g) size 0, u32 (next_stream_index g + size))
    | Some r => let* _ := CHECK (rr_size r =? size) in Ret (r, next_stream_index g)
    end in
  let '(cur, r') :=
    if 1 <? size then
      let offset := rr_offset r + 1 in
      (u32 (rr_begin r + rr_offset r),
       mkRR (rr_begin r) (rr_size r) (if size <=? offset then 0 else offset))
    else (rr_begin r, r) in
  Ret (cur, mkSIG next (<[name := r']> (name2rr_range g))).

Definition GenerateNamed (g : StreamIndexGenerator) (name : string) :=
  GenerateNamedRoundRobin g name 1.

Definition GetCurrStreamIndex (g : StreamIndexGenerator) : Z := next_stream_index g.

Definition TryUpdateNextStreamIndex (g : StreamIndexGenerator) (next : Z) : StreamIndexGenerator :=
  mkSIG (Z.max (next_stream_index g) next) (name2rr_range g).

(** ** [TaskStreamIndexManager] *)

Record TaskStreamIndexManager := mkTSIM {
  generators : gmap DeviceId StreamIndexGenerator;
  stream_index_init_state : gmap Z Z;
}.

(** [GetGenerator] returns the generator of a device and creates it first when
    there is none. *)
Definition GetGenerator (m : TaskStreamIndexManager) (d : DeviceId) :
    StreamIndexGenerator * TaskStreamIndexManager :=
  match generators m !! d with
  | Some g => (g, m)
  | None =>
      let g := new_StreamIndexGenerator
                 (saved_or_0 (stream_index_init_state m) (EncodeDeviceIdToInt64 d)) in
      (g, mkTSIM (<[d := g]> (generators m)) (stream_index_init_state m))
  end.

(** The generator is shared through its pointer: what an operation does to it
    is seen by the manager. *)
Definition with_generator {A : Type} (m : TaskStreamIndexManager) (d : DeviceId)
    (f : StreamIndexGenerator → outcome (A * StreamIndexGenerator)) :
    outcome (A * TaskStreamIndexManager) :=
  let '(g, m) := GetGenerator m d in
  let* (a, g') := f g in
  Ret (a, mkTSIM (<[d := g']> (generators m)) (stream_index_init_state m)).

Definition kCPU : Z := 1.

(** [GenerateComputeTaskStreamIndex]; the session's CPU device number is a
    configuration value. *)
Definition GenerateComputeTaskStreamIndex (cpu_device_num device_type : Z)
    (g : StreamIndexGenerator) : outcome (Z * StreamIndexGenerator) :=
  if device_type =? kCPU then GenerateNamedRoundRobin g "CPU_COMPUTE" cpu_device_num
  else GenerateNamed g "COMPUTE".

Definition GetComputeTaskStreamIndex (cpu_device_num : Z) (m : TaskStreamIndexManager)
    (d : DeviceId) : outcome (Z * TaskStreamIndexManager) :=
  with_generator m d (GenerateComputeTaskStreamIndex cpu_device_num (device_type d)).

Definition GetNamedTaskStreamIndex (m : TaskStreamIndexManager) (d : DeviceId) (name : string) :
    outcome (Z * TaskStreamIndexManager) :=
  with_generator m d (λ g, GenerateNamed g name).

(** The registry of getters, keyed by device and task type. *)
Definition stream_index_getter : Type := StreamIndexGenerator → outcome (Z * StreamIndexGenerator).
Definition getter_map : Type := gmap (Z * Z) stream_index_getter.

Definition Register_getter (r : getter_map) (key : Z * Z) (f : stream_index_getter) :
    outcome getter_map :=
  match r !! key with
  | Some _ => Crash
  | None => Ret (<[key := f]> r)
  end.

Definition Dispatch_getter (r : getter_map) (device_type task_type : Z) (g : StreamIndexGenerator) :
    outcome (Z * StreamIndexGenerator) :=
  match r !! (device_type, task_type) with
  | None => Fail CheckFailedError
  | Some f => f g
  end.

(** [CHECK_JUST] turns an error of the dispatch into an abort. *)
Definition CHECK_JUST {A : Type} (m : outcome A) : outcome A :=
  match m with Fail _ => Crash | m => m end.

Definition GetTaskStreamIndex (r : getter_map) (m : TaskStreamIndexManager) (task_type : Z)
    (d : DeviceId) : outcome (Z * TaskStreamIndexManager) :=
  with_generator m d (λ g, CHECK_JUST (Dispatch_getter r (device_type d) task_type g)).

Definition SaveTaskStreamIndex (m : TaskStreamIndexManager) (state : gmap Z Z) : gmap Z Z :=
  save_counters EncodeDeviceIdToInt64 GetCurrStreamIndex (generators m) state.

Definition TryUpdateTaskStreamIndex (m : TaskStreamIndexManager) (state : gmap Z Z) :
    TaskStreamIndexManager :=
  mkTSIM
    (map_imap (λ d g, Some (TryUpdateNextStreamIndex g (saved_or_0 state (EncodeDeviceIdToInt64 d))))
              (generators m))
    (merge_init_state (stream_index_init_state m) state).

(** ** [IDMgr] *)

Definition kRankLimitShift : Z := 16.
Definition kIdLimitShift : Z := 64 - kRankLimitShift.

Definition AddCurrentRankOffset (my_rank x : Z) : outcome Z :=
  let* _ := CHECK (0 <=? x) in
  let* _ := CHECK (x <? Z.shiftl 1 kIdLimitShift) in
  Ret (i64 (i64 (Z.shiftl my_rank kIdLimitShift) + x)).

Record IDMgr := mkIDMgr {
  regst_desc_id_count : Z;
  mem_block_id_count : Z;
  chunk_id_count : Z;
  task_id_gen : TaskIdGenerator;
}.

Record IdState := mkIdState {
  regst_desc_id_state : Z;
  mem_block_id_state : Z;
  chunk_id_state : Z;
  task_index_state : gmap Z Z;
}.

Definition new_IDMgr (world_size : Z) : outcome IDMgr :=
  let* _ := CHECK (world_size <=? Z.shiftl 1 kRankLimitShift) in
  Ret (mkIDMgr 0 0 0 new_TaskIdGenerator).

Definition NewRegstDescId (my_rank : Z) (m : IDMgr) : outcome (Z * IDMgr) :=
  let* i := AddCurrentRankOffset my_rank (regst_desc_id_count m) in
  Ret (i, mkIDMgr (regst_desc_id_count m + 1) (mem_block_id_count m) (chunk_id_count m) (task_id_gen m)).

Definition NewMemBlockId (my_rank : Z) (m : IDMgr) : outcome (Z * IDMgr) :=
  let* i := AddCurrentRankOffset my_rank (mem_block_id_count m) in
  Ret (i, mkIDMgr (regst_desc_id_count m) (mem_block_id_count m + 1) (chunk_id_count m) (task_id_gen m)).

Definition NewChunkId (my_rank : Z) (m : IDMgr) : outcome (Z * IDMgr) :=
  let* i := AddCurrentRankOffset my_rank (chunk_id_count m) in
  Ret (i, mkIDMgr (regst_desc_id_count m) (mem_block_id_count m) (chunk_id_count m + 1) (task_id_gen m)).

Definition SaveIdAndTaskIndex (m : IDMgr) (s : IdState) : IdState :=
  mkIdState (regst_desc_id_count m) (mem_block_id_count m) (chunk_id_count m)
            (GetTaskIndex (task_id_gen m) (task_index_state s)).

Definition TryUpdateIdAndTaskIndex (m : IDMgr) (s : IdState) : IDMgr :=
  mkIDMgr (Z.max (regst_desc_id_count m) (regst_desc_id_state s))
          (Z.max (mem_block_id_count m) (mem_block_id_state s))
          (Z.max (chunk_id_count m) (chunk_id_state s))
          (TryUpdateTaskIndex (task_id_gen m) (task_index_state s)).

(** ** Bit fields *)

Lemma lor_shiftl_add (a b k : Z) :
  0 ≤ k → 0 ≤ a < 2 ^ k → Z.lor a (Z.shiftl b k) = a + b * 2 ^ k.
Proof.
  intros Hk Ha. rewrite <- Z.shiftl_mul_pow2 by done.
  rewrite <- (Z.add_lor_land a (Z.shiftl b k)).
  enough (Z.land a (Z.shiftl b k) = 0) by lia.
  apply Z.bits_inj'. intros n Hn. rewrite Z.land_spec, Z.bits_0, Z.shiftl_spec by done.
  destruct (Z.lt_ge_cases n k); [rewrite (Z.testbit_neg_r b) by lia; btauto|].
  destruct (decide (a = 0)) as [->|]; [by rewrite Z.bits_0|].
  rewrite (Z.bits_above_log2 a n); [btauto|lia|].
  apply Z.log2_lt_pow2; [lia|]. apply Z.lt_le_trans with (2 ^ k); [lia|].
  apply Z.pow_le_mono_r; lia.
Qed.

(** Reading [bits] bits at [shift] through a mask. *)
Lemma read_field (v bits shift : Z) :
  0 ≤ bits → 0 ≤ shift → bits + shift < 64 →
  Z.shiftr (Z.land v (int64_mask bits shift)) shift = (v / 2 ^ shift) mod 2 ^ bits.
Proof.
  intros Hb Hs Hw. unfold int64_mask. rewrite i64_small.
  - rewrite Z.shiftr_land, Z.shiftr_shiftl_l, Z.sub_diag, Z.shiftl_0_r by lia.
    rewrite Z.shiftr_div_pow2 by lia. rewrite Z.shiftl_mul_pow2 by lia.
    rewrite Z.mul_1_l, Z.sub_1_r, <- Z.ones_equiv by lia. by apply Z.land_ones.
  - unfold is_i64. rewrite !Z.shiftl_mul_pow2, Z.mul_1_l by lia.
    assert (0 < 2 ^ bits) by (apply Z.pow_pos_nonneg; lia).
    assert (0 < 2 ^ shift) by (apply Z.pow_pos_nonneg; lia).
    assert (2 ^ bits * 2 ^ shift ≤ 2 ^ 63).
    { rewrite <- Z.pow_add_r by lia. apply Z.pow_le_mono_r; lia. }
    nia.
Qed.

Lemma read_low_field (v bits : Z) :
  0 ≤ bits < 64 → Z.land v (int64_mask bits 0) = v mod 2 ^ bits.
Proof.
  intros. rewrite <- (Z.shiftr_0_r (Z.land _ _)), read_field by lia.
  by rewrite Z.pow_0_r, Z.div_1_r.
Qed.

(** ** Round trips of the encodings *)

Definition valid_device (d : DeviceId) : Prop :=
  0 ≤ rank d ≤ kMaxRank ∧ 0 ≤ device_type d ≤ kMaxDeviceTypeVal ∧
  0 ≤ device_index d ≤ kMaxDeviceIndex.
Definition valid_stream (s : StreamId) : Prop :=
  valid_device (device_id s) ∧ 0 ≤ stream_index s ≤ kMaxStreamIndex.
Definition valid_task (t : TaskId) : Prop :=
  valid_stream (stream_id t) ∧ 0 ≤ task_index t ≤ kMaxTaskIndex.

(** Expose the numbers: field widths, shifts and maxima. *)
Ltac unfold_ids :=
  unfold valid_task, valid_stream, valid_device in *;
  change kMaxTaskIndex with 2097151 in *; change kMaxStreamIndex with 32767 in *;
  change kMaxRank with 65535 in *; change kMaxDeviceTypeVal with 31 in *;
  change kMaxDeviceIndex with 127 in *;
  change TaskLayout.kRankShift with 48 in *; change TaskLayout.kDeviceTypeShift with 43 in *;
  change TaskLayout.kDeviceIndexShift with 36 in *; change TaskLayout.kStreamIndexShift with 21 in *;
  change StreamLayout.kRankShift with 27 in *; change StreamLayout.kDeviceTypeShift with 22 in *;
  change StreamLayout.kDeviceIndexShift with 15 in *;
  change kTaskIndexBits with 21 in *; change kStreamIndexBits with 15 in *;
  change kRankBits with 16 in *; change kDeviceTypeBits with 5 in *;
  change kDeviceIndexBits with 7 in *;
  cbn [rank device_type device_index device_id stream_index stream_id task_index] in *.

(** A chain of disjoint fields is their sum; innermost field first. *)
Ltac sum_fields :=
  rewrite ?(i64_small (Z.shiftl _ _)) by (unfold is_i64; rewrite Z.shiftl_mul_pow2 by lia; lia);
  repeat match goal with
  | |- context [Z.lor ?a (Z.shiftl ?b ?k)] =>
      lazymatch a with
      | context [Z.lor _ _] => fail
      | _ => rewrite (lor_shiftl_add a b k) by lia
      end
  end.

Lemma EncodeDeviceId_sum (d : DeviceId) :
  valid_device d →
  EncodeDeviceIdToInt64 d = device_index d + 2 ^ 7 * (device_type d + 2 ^ 5 * rank d).
Proof.
  destruct d as [r t i]. intros Hv. unfold EncodeDeviceIdToInt64. unfold_ids.
  change (0 + 7) with 7. change (7 + 5) with 12. sum_fields. lia.
Qed.

Lemma EncodeStreamId_sum (s : StreamId) :
  valid_stream s →
  EncodeStreamIdToInt64 s = stream_index s + 2 ^ 15 * EncodeDeviceIdToInt64 (device_id s).
Proof.
  intros Hv. rewrite EncodeDeviceId_sum by apply Hv.
  destruct s as [[r t i] k]. unfold EncodeStreamIdToInt64. unfold_ids. sum_fields. lia.
Qed.

(** The shift of the rank into the sign bit wraps: ranks from 2^15 on give
    negative task ids. *)
Lemma EncodeTaskId_sum (t : TaskId) :
  valid_task t →
  EncodeTaskIdToInt64 t = i64 (task_index t + 2 ^ 21 * EncodeStreamIdToInt64 (stream_id t)).
Proof.
  intros Hv. rewrite EncodeStreamId_sum, EncodeDeviceId_sum by apply Hv.
  destruct t as [[[r d i] k] n]. unfold EncodeTaskIdToInt64. unfold_ids.
  assert (i64 (Z.shiftl r 48) = Z.shiftl (if r <? 2 ^ 15 then r else r - 2 ^ 16) 48) as ->.
  { rewrite !Z.shiftl_mul_pow2 by lia. unfold i64. destruct (Z.ltb_spec r (2 ^ 15));
      [rewrite Z.mod_small|rewrite <- (Z.mod_unique _ (2 ^ 64) 1 ((r - 2 ^ 16) * 2 ^ 48 + 2 ^ 63))]; lia. }
  sum_fields. unfold i64. destruct (Z.ltb_spec r (2 ^ 15)).
  - rewrite Z.mod_small; lia.
  - match goal with |- _ = ?x mod _ - _ => 
      rewrite <- (Z.mod_unique x (2 ^ 64) 1 (x - 2 ^ 64)) by lia end. lia.
Qed.

Lemma new_StreamId4_valid (s : StreamId) :
  valid_stream s →
  new_StreamId4 (rank (device_id s)) (device_type (device_id s)) (device_index (device_id s))
                (stream_index s) = Ret s.
Proof.
  destruct s as [[r t i] k]. intros Hv. unfold new_StreamId4, new_DeviceId, new_StreamId.
  unfold_ids. rewrite !(proj2 (Z.leb_le _ _)) by lia. done.
Qed.

Lemma new_StreamId4_inv (r t i k : Z) (s : StreamId) :
  is_u32 r → is_u32 t → is_u32 i → is_u32 k → new_StreamId4 r t i k = Ret s →
  s = mkStreamId (mkDeviceId r t i) k ∧ valid_stream s.
Proof.
  unfold is_u32, new_StreamId4, new_DeviceId, new_StreamId. intros ???? H. inv_ret.
  unfold_ids. split; [done|]. lia.
Qed.

Lemma u32_small (z : Z) : is_u32 z → u32 z = z.
Proof. unfold u32, is_u32. intros. by apply Z.mod_small. Qed.

(** What the decoder reads out of an encoded stream id. *)
Lemma decode_encode_stream (s : StreamId) :
  valid_stream s → DecodeStreamIdFromInt64 (EncodeStreamIdToInt64 s) = Ret s.
Proof.
  intros Hv. rewrite EncodeStreamId_sum, EncodeDeviceId_sum by apply Hv.
  unfold DecodeStreamIdFromInt64. unfold_ids.
  rewrite !read_field, read_low_field by lia.
  etransitivity; [|apply (new_StreamId4_valid s); unfold_ids; lia].
  destruct s as [[r t i] k]. unfold_ids.
  f_equal; unfold u32; Z.to_euclidean_division_equations; lia.
Qed.

Lemma top_mask_read (v : Z) :
  Z.shiftr (Z.land v (int64_mask 16 48)) 48 = v / 2 ^ 48.
Proof.
  change (int64_mask 16 48) with (Z.shiftl (-1) 48).
  rewrite Z.shiftr_land, Z.shiftr_shiftl_l by lia. simpl (48 - 48).
  rewrite Z.shiftl_0_r, Z.land_m1_r. by apply Z.shiftr_div_pow2.
Qed.

(** What the task decoder computes on an encoded id, with the rank read back
    through the sign bit. *)
Lemma decode_encode_task (t : TaskId) :
  valid_task t →
  DecodeTaskIdFromInt64 (EncodeTaskIdToInt64 t) =
  if rank (device_id (stream_id t)) <? 2 ^ 15 then Ret t else Crash.
Proof.
  intros Hv. rewrite EncodeTaskId_sum, EncodeStreamId_sum, EncodeDeviceId_sum by apply Hv.
  unfold DecodeTaskIdFromInt64. unfold_ids.
  rewrite top_mask_read, !read_field, read_low_field by lia.
  destruct t as [[[r d i] k] n]. unfold_ids.
  set (v := n + _). unfold i64. destruct (Z.ltb_spec r (2 ^ 15)) as [Hr|Hr].
  - rewrite (Z.mod_small (v + 2 ^ 63)) by lia.
    assert (new_StreamId4 (u32 r) (u32 d) (u32 i) (u32 k) = Ret (mkStreamId (mkDeviceId r d i) k)) as E.
    { rewrite !u32_small by (unfold is_u32; lia).
      apply (new_StreamId4_valid (mkStreamId (mkDeviceId r d i) k)). unfold_ids. lia. }
    replace (_ / 2 ^ 48) with r by (subst v; Z.to_euclidean_division_equations; lia).
    replace ((_ / 2 ^ 43) mod 2 ^ 5) with d by (subst v; Z.to_euclidean_division_equations; lia).
    replace ((_ / 2 ^ 36) mod 2 ^ 7) with i by (subst v; Z.to_euclidean_division_equations; lia).
    replace ((_ / 2 ^ 21) mod 2 ^ 15) with k by (subst v; Z.to_euclidean_division_equations; lia).
    replace (_ mod 2 ^ 21) with n by (subst v; Z.to_euclidean_division_equations; lia).
    rewrite E, u32_small by (unfold is_u32; lia). unfold new_TaskId. unfold_ids. simpl.
    by rewrite (proj2 (Z.leb_le _ _)) by lia.
  - rewrite <- (Z.mod_unique (v + 2 ^ 63) (2 ^ 64) 1 (v - 2 ^ 63)) by lia.
    unfold new_StreamId4, new_DeviceId. unfold_ids.
    rewrite (proj2 (Z.leb_gt _ 65535)); [done|]. unfold u32.
    subst v. Z.to_euclidean_division_equations; lia.
Qed.

(** Stream ids survive the round trip through [int64_t], and the encoding is
    never negative. *)
Theorem stream_id_roundtrip (s : StreamId) :
  valid_stream s →
  DecodeStreamIdFromInt64 (EncodeStreamIdToInt64 s) = Ret s ∧
  0 ≤ EncodeStreamIdToInt64 s < 2 ^ 43.
Proof.
  intros Hv. split; [by apply decode_encode_stream|].
  rewrite EncodeStreamId_sum, EncodeDeviceId_sum by apply Hv. unfold_ids. lia.
Qed.

Lemma stream_id_roundtrip_witness :
  DecodeStreamIdFromInt64 (EncodeStreamIdToInt64 (mkStreamId (mkDeviceId 65535 2 7) 9)) =
  Ret (mkStreamId (mkDeviceId 65535 2 7) 9).
Proof. apply (stream_id_roundtrip (mkStreamId (mkDeviceId 65535 2 7) 9)). repeat split; vm_compute; discriminate. Defined.

(** A task (actor) id of a rank below 2^15 decodes to itself, and the machine
    and thread an actor message is routed to are the rank and the stream the
    task was created on. *)
Theorem task_id_roundtrip (t : TaskId) :
  valid_task t → rank (device_id (stream_id t)) < 2 ^ 15 →
  DecodeTaskIdFromInt64 (EncodeTaskIdToInt64 t) = Ret t ∧
  MachineId4ActorId (EncodeTaskIdToInt64 t) = Ret (rank (device_id (stream_id t))) ∧
  ThrdId4ActorId (EncodeTaskIdToInt64 t) = Ret (EncodeStreamIdToInt64 (stream_id t)).
Proof.
  intros Hv Hr. unfold MachineId4ActorId, ThrdId4ActorId.
  rewrite decode_encode_task, (proj2 (Z.ltb_lt _ _)) by done. done.
Qed.

Lemma task_id_roundtrip_witness :
  MachineId4ActorId (EncodeTaskIdToInt64 (mkTaskId (mkStreamId (mkDeviceId 3 2 1) 4) 5)) = Ret 3.
Proof.
  apply (task_id_roundtrip (mkTaskId (mkStreamId (mkDeviceId 3 2 1) 4) 5));
    [repeat split; vm_compute; discriminate|vm_compute; reflexivity].
Defined.

(** The constructors accept ranks up to 2^16 - 1, but the ids of tasks on ranks
    from 2^15 on cannot be decoded: the encoded id is negative, the rank comes
    back sign-extended and the process aborts. *)
Theorem task_id_high_rank_aborts (t : TaskId) :
  valid_task t → 2 ^ 15 ≤ rank (device_id (stream_id t)) →
  EncodeTaskIdToInt64 t < 0 ∧ DecodeTaskIdFromInt64 (EncodeTaskIdToInt64 t) = Crash.
Proof.
  intros Hv Hr. split.
  - rewrite EncodeTaskId_sum, EncodeStreamId_sum, EncodeDeviceId_sum by apply Hv.
    unfold_ids. unfold i64. set (v := task_index t + _).
    rewrite <- (Z.mod_unique (v + 2 ^ 63) (2 ^ 64) 1 (v - 2 ^ 63)); lia.
  - by rewrite decode_encode_task, (proj2 (Z.ltb_ge _ _)).
Qed.

Lemma task_id_high_rank_aborts_witness :
  DecodeTaskIdFromInt64 (EncodeTaskIdToInt64 (mkTaskId (mkStreamId (mkDeviceId 32768 1 0) 0) 0)) = Crash.
Proof.
  apply (task_id_high_rank_aborts (mkTaskId (mkStreamId (mkDeviceId 32768 1 0) 0) 0));
    [repeat split; vm_compute; discriminate|vm_compute; discriminate].
Defined.

(** ** The interface of an encoding, and saved counters *)

(** What the generators need of an encoding: it tells valid keys apart. *)
Class IdEncoding (K : Type) := {
  id_valid : K → Prop;
  id_encode : K → Z;
  id_encode_inj (a b : K) : id_valid a → id_valid b → id_encode a = id_encode b → a = b;
}.

Lemma EncodeDeviceId_inj (a b : DeviceId) :
  valid_device a → valid_device b → EncodeDeviceIdToInt64 a = EncodeDeviceIdToInt64 b → a = b.
Proof.
  revert a b. intros [r t i] [r' t' i'] Ha Hb. rewrite !EncodeDeviceId_sum by done. unfold_ids. intros.
  f_equal; lia.
Qed.

Lemma EncodeStreamId_inj (a b : StreamId) :
  valid_stream a → valid_stream b → EncodeStreamIdToInt64 a = EncodeStreamIdToInt64 b → a = b.
Proof.
  intros Ha Hb H. apply decode_encode_stream in Ha, Hb. congruence.
Qed.

#[export] Instance DeviceId_encoding : IdEncoding DeviceId :=
  {| id_encode_inj := EncodeDeviceId_inj |}.
#[export] Instance StreamId_encoding : IdEncoding StreamId :=
  {| id_encode_inj := EncodeStreamId_inj |}.

(** All task ids, of high ranks too, are told apart by their encoding. *)
Theorem task_id_injective (t u : TaskId) :
  valid_task t → valid_task u → EncodeTaskIdToInt64 t = EncodeTaskIdToInt64 u → t = u.
Proof.
  intros Ht Hu. rewrite !EncodeTaskId_sum by done.
  pose proof (EncodeStreamId_sum (stream_id t) (proj1 Ht)) as Es.
  pose proof (EncodeStreamId_sum (stream_id u) (proj1 Hu)) as Eu.
  rewrite EncodeDeviceId_sum in Es by apply Ht. rewrite EncodeDeviceId_sum in Eu by apply Hu.
  intros E. assert (EncodeStreamIdToInt64 (stream_id t) = EncodeStreamIdToInt64 (stream_id u) ∧
                    task_index t = task_index u) as [E1 E2].
  { unfold_ids. unfold i64 in E. Z.to_euclidean_division_equations. lia. }
  apply (EncodeStreamId_inj _ _ (proj1 Ht) (proj1 Hu)) in E1.
  destruct t, u; simpl in *; congruence.
Qed.

Section saved_counters.
Context {K V : Type} `{Countable K} `{!IdEncoding K} (value : V → Z).

Lemma save_counters_lookup (m : gmap K V) (state : gmap Z Z) (k : K) (v : V) :
  (∀ k, is_Some (m !! k) → id_valid k) → m !! k = Some v →
  save_counters id_encode value m state !! id_encode k = Some (value v).
Proof.
  intros Hv Hk. revert k v Hk Hv. unfold save_counters.
  induction m as [|i x m Hi Hf IH] using map_first_key_ind; intros k v Hk Hv.
  { by rewrite lookup_empty in Hk. }
  rewrite map_fold_insert_first_key by done.
  destruct (decide (i = k)) as [->|Hne].
  - rewrite lookup_insert_eq in Hk. rewrite lookup_insert_eq. congruence.
  - rewrite lookup_insert_ne in Hk by done. rewrite lookup_insert_ne.
    + apply IH; [done|]. intros j Hj. apply Hv. destruct Hj as [y Hj].
      exists y. rewrite lookup_insert_ne; [done|]. intros ->. congruence.
    + intros E. apply Hne. apply id_encode_inj; [| |done].
      * apply Hv. rewrite lookup_insert_eq. eauto.
      * apply Hv. rewrite lookup_insert_ne by done. eauto.
Qed.
End saved_counters.

Lemma merge_init_state_union (init state : gmap Z Z) :
  merge_init_state init state = union_with (λ a b, Some (Z.max a b)) init state.
Proof.
  unfold merge_init_state. induction state as [|k v state Hk Hf IH] using map_first_key_ind.
  { apply map_eq. intros i. rewrite lookup_union_with, lookup_empty.
    rewrite map_fold_empty. by destruct (init !! i). }
  rewrite map_fold_insert_first_key, IH by done. apply map_eq. intros i.
  rewrite !lookup_union_with. rewrite Hk.
  destruct (decide (i = k)) as [->|Hne].
  - rewrite lookup_insert_eq. destruct (init !! k); simpl; by rewrite lookup_insert_eq.
  - rewrite (lookup_insert_ne state) by done.
    destruct (init !! k); simpl; by rewrite lookup_insert_ne, lookup_union_with.
Qed.

Definition nonneg_state (m : gmap Z Z) : Prop := map_Forall (λ _ v, 0 ≤ v) m.

Lemma saved_or_0_nonneg (m : gmap Z Z) (k : Z) : nonneg_state m → 0 ≤ saved_or_0 m k.
Proof. intros Hm. unfold saved_or_0. destruct (m !! k) eqn:E; [by apply (Hm _ _ E)|lia]. Qed.

Lemma saved_or_0_merge (a b : gmap Z Z) (k : Z) :
  nonneg_state a → nonneg_state b →
  saved_or_0 (merge_init_state a b) k = Z.max (saved_or_0 a k) (saved_or_0 b k).
Proof.
  intros Ha Hb. rewrite merge_init_state_union. unfold saved_or_0. rewrite lookup_union_with.
  destruct (a !! k) eqn:Ea, (b !! k) eqn:Eb; simpl;
    try pose proof (Ha _ _ Ea); try pose proof (Hb _ _ Eb); simpl in *; lia.
Qed.

(** ** Task ids are never issued twice *)

(** The index the next [Generate] on a stream hands out. *)
Definition next_index (g : TaskIdGenerator) (s : StreamId) : Z :=
  match stream_id2task_index_counter g !! s with
  | Some c => c
  | None => saved_or_0 (task_index_init_state g) (EncodeStreamIdToInt64 s)
  end.

Definition generator_wf (g : TaskIdGenerator) : Prop :=
  map_Forall (λ s c, valid_stream s ∧ 0 ≤ c) (stream_id2task_index_counter g) ∧
  nonneg_state (task_index_init_state g).

Lemma next_index_nonneg (g : TaskIdGenerator) (s : StreamId) :
  generator_wf g → 0 ≤ next_index g s.
Proof.
  intros [Hc Hi]. unfold next_index. destruct (_ !! s) eqn:E.
  - apply (Hc _ _ E).
  - by apply saved_or_0_nonneg.
Qed.

Lemma Generate_next (g g' : TaskIdGenerator) (s : StreamId) (t : TaskId) :
  generator_wf g → valid_stream s → Generate g s = Ret (t, g') →
  t = mkTaskId s (next_index g s) ∧ generator_wf g' ∧
  ∀ s', next_index g' s' = next_index g s' + (if decide (s = s') then 1 else 0).
Proof.
  intros Hg Hs H. pose proof (next_index_nonneg g s Hg) as H0. revert H H0.
  unfold Generate, new_TaskId. set (c := match stream_id2task_index_counter g !! s with
    | Some _ => _ | None => _ end).
  assert (c !! s = Some (next_index g s) ∧
          ∀ s', s ≠ s' → c !! s' = stream_id2task_index_counter g !! s') as [Ec Ec'].
  { unfold c, next_index. destruct (stream_id2task_index_counter g !! s) eqn:E; [by rewrite E|].
    rewrite lookup_insert_eq. split; [done|]. intros. by apply lookup_insert_ne. }
  rewrite Ec. intros H H0. inv_ret. unfold_ids.
  assert (u32 (next_index g s + 1) = next_index g s + 1) as -> by (apply u32_small; unfold is_u32; bool_lia).
  split; [done|]. split.
  - split; [|apply Hg]. intros s' i. simpl. rewrite lookup_insert_Some.
    intros [[-> <-]|[Hne Hi]]; [unfold_ids; lia|]. rewrite Ec' in Hi by done. by apply Hg.
  - intros s'. unfold next_index at 1. simpl. destruct (decide (s = s')) as [<-|Hne].
    + by rewrite lookup_insert_eq.
    + rewrite lookup_insert_ne, Ec' by done. unfold next_index. lia.
Qed.

Lemma TryUpdateTaskIndex_next (g : TaskIdGenerator) (state : gmap Z Z) :
  generator_wf g → nonneg_state state →
  generator_wf (TryUpdateTaskIndex g state) ∧
  ∀ s, next_index (TryUpdateTaskIndex g state) s =
       Z.max (next_index g s) (saved_or_0 state (EncodeStreamIdToInt64 s)).
Proof.
  intros [Hc Hi] Hst. split; [split|].
  - intros s c. simpl. rewrite map_lookup_imap. intros (c0 & Hc0 & E)%bind_Some.
    apply Hc in Hc0 as [? ?]. simplify_eq. split; [done|lia].
  - simpl. rewrite merge_init_state_union. intros k v.
    rewrite lookup_union_with. destruct (task_index_init_state g !! k) eqn:Ea, (state !! k) eqn:Eb;
      simpl; intros; simplify_eq; try apply Hi in Ea; try apply Hst in Eb; simpl in *; lia.
  - intros s. unfold next_index. simpl. rewrite map_lookup_imap.
    destruct (stream_id2task_index_counter g !! s); simpl; [done|]. by apply saved_or_0_merge.
Qed.

(** A sequence of calls on a generator, in the order the mutex admits them. *)
Inductive gen_op : Type :=
| OpGenerate (s : StreamId)
| OpTryUpdate (state : gmap Z Z).

Definition op_ok (o : gen_op) : Prop :=
  match o with
  | OpGenerate s => valid_stream s
  | OpTryUpdate state => nonneg_state state
  end.

Fixpoint run_generator (g : TaskIdGenerator) (ops : list gen_op) : outcome (list TaskId * TaskIdGenerator) :=
  match ops with
  | [] => Ret ([], g)
  | OpGenerate s :: ops =>
      let* (t, g) := Generate g s in
      let* (ts, g) := run_generator g ops in
      Ret (t :: ts, g)
  | OpTryUpdate state :: ops => run_generator (TryUpdateTaskIndex g state) ops
  end.

Lemma run_generator_ids (ops : list gen_op) (g g' : TaskIdGenerator) (ids : list TaskId) :
  generator_wf g → Forall op_ok ops → run_generator g ops = Ret (ids, g') →
  generator_wf g' ∧ NoDup ids ∧ (∀ s, next_index g s ≤ next_index g' s) ∧
  Forall (λ t, valid_stream (stream_id t) ∧
               next_index g (stream_id t) ≤ task_index t < next_index g' (stream_id t)) ids.
Proof.
  revert g g' ids. induction ops as [|[s|state] ops IH]; intros g g' ids Hg Hops H;
    cbn [run_generator] in H.
  - inv_ret. split_and!; [done|constructor|lia|constructor].
  - apply Forall_cons in Hops as [Hs Hops].
    apply obind_Ret in H as ([t g1] & Hgen & H). apply obind_Ret in H as ([ts g2] & Hrun & H).
    inv_ret. destruct (Generate_next _ _ _ _ Hg Hs Hgen) as (-> & Hg1 & Hn).
    destruct (IH _ _ _ Hg1 Hops Hrun) as (Hg2 & Hnd & Hle & Hall).
    pose proof (Hn s) as Hns. rewrite decide_True in Hns by done.
    split_and!; [done| | |].
    + constructor; [|done]. intros Hin. rewrite Forall_forall in Hall.
      destruct (Hall _ Hin) as [_ Hr]. simpl in Hr. lia.
    + intros s'. specialize (Hle s'). specialize (Hn s'). destruct (decide (s = s')); lia.
    + constructor; [simpl; specialize (Hle s); split; [done|lia]|].
      eapply Forall_impl; [exact Hall|]. intros t [? Ht]. split; [done|].
      specialize (Hn (stream_id t)). destruct (decide _); lia.
  - apply Forall_cons in Hops as [Hs Hops].
    destruct (TryUpdateTaskIndex_next _ _ Hg Hs) as [Hg1 Hn].
    destruct (IH _ _ _ Hg1 Hops H) as (Hg2 & Hnd & Hle & Hall).
    split_and!; [done|done| |].
    + intros s. specialize (Hle s). specialize (Hn s). lia.
    + eapply Forall_impl; [exact Hall|]. intros t [? Ht]. split; [done|].
      specialize (Hn (stream_id t)). lia.
Qed.

Lemma GetTaskIndex_saved (g : TaskIdGenerator) (state : gmap Z Z) (s : StreamId) (c : Z) :
  generator_wf g → stream_id2task_index_counter g !! s = Some c →
  saved_or_0 (GetTaskIndex g state) (EncodeStreamIdToInt64 s) = c.
Proof.
  intros [Hc _] Hs. unfold saved_or_0, GetTaskIndex.
  change EncodeStreamIdToInt64 with (id_encode (K := StreamId)).
  rewrite (save_counters_lookup _ _ _ _ c); [done| |done].
  intros k [v Hk]. by apply Hc in Hk as [? _].
Qed.

Lemma Generate_counted (g g' : TaskIdGenerator) (s : StreamId) (t : TaskId) :
  Generate g s = Ret (t, g') →
  stream_id t = s ∧ is_Some (stream_id2task_index_counter g' !! s) ∧
  ∀ s', is_Some (stream_id2task_index_counter g !! s') →
        is_Some (stream_id2task_index_counter g' !! s').
Proof.
  unfold Generate, new_TaskId. intros H. inv_ret. simpl.
  split_and!; [done|rewrite lookup_insert_eq; eauto|].
  intros s' Hs'. apply lookup_insert_is_Some. destruct (decide (s = s')); [by left|right].
  split; [done|]. destruct (stream_id2task_index_counter g !! s); [done|]. by rewrite lookup_insert_ne.
Qed.

Lemma run_generator_counted (ops : list gen_op) (g g' : TaskIdGenerator) (ids : list TaskId) :
  run_generator g ops = Ret (ids, g') →
  (∀ s, is_Some (stream_id2task_index_counter g !! s) →
        is_Some (stream_id2task_index_counter g' !! s)) ∧
  Forall (λ t, is_Some (stream_id2task_index_counter g' !! stream_id t)) ids.
Proof.
  revert g g' ids. induction ops as [|[s|state] ops IH]; intros g g' ids H;
    cbn [run_generator] in H.
  - inv_ret. by split; [|constructor].
  - apply obind_Ret in H as ([t g1] & Hgen & H). apply obind_Ret in H as ([ts g2] & Hrun & H).
    inv_ret. apply Generate_counted in Hgen as (Ht & Hs & Hmono).
    destruct (IH _ _ _ Hrun) as [Hm Hall].
    split; [by eauto|]. constructor; [rewrite Ht; by eauto|done].
  - destruct (IH _ _ _ H) as [Hm Hall]. split; [|done]. intros s Hs. apply Hm. simpl.
    rewrite map_lookup_imap. destruct Hs as [c ->]. by eexists.
Qed.

Lemma save_counters_nonneg {K V : Type} `{Countable K} (enc : K → Z) (value : V → Z)
    (m : gmap K V) (state : gmap Z Z) :
  map_Forall (λ _ v, 0 ≤ value v) m → nonneg_state state →
  nonneg_state (save_counters enc value m state).
Proof.
  intros Hm Hs. unfold save_counters.
  induction m as [|i x m Hi Hf IH] using map_first_key_ind; [done|].
  rewrite map_fold_insert_first_key by done.
  apply map_Forall_insert in Hm as [Hx Hm]; [|done].
  intros k v. rewrite lookup_insert_Some. intros [[_ <-]|[_ Hv]]; [done|]. by apply (IH Hm k).
Qed.

(** C21 Task ids are never issued twice, not even by two processes' generators one
    of which was handed the saved counters of the other: if a fresh generator
    issued [ids1] and its saved state is loaded into another generator, no id
    that generator issues from then on is in [ids1], and neither of them
    repeats an id. *)
Theorem task_ids_never_clash (ops1 ops2 : list gen_op) (g1 g2 g2' : TaskIdGenerator)
    (ids1 ids2 : list TaskId) (state : gmap Z Z) :
  Forall op_ok ops1 → Forall op_ok ops2 → generator_wf g2 → nonneg_state state →
  run_generator new_TaskIdGenerator ops1 = Ret (ids1, g1) →
  run_generator (TryUpdateTaskIndex g2 (GetTaskIndex g1 state)) ops2 = Ret (ids2, g2') →
  NoDup (ids1 ++ ids2).
Proof.
  intros Ho1 Ho2 Hg2 Hst H1 H2.
  assert (generator_wf new_TaskIdGenerator) as Hnew by (split; apply map_Forall_empty).
  destruct (run_generator_ids _ _ _ _ Hnew Ho1 H1) as (Hg1 & Hnd1 & _ & Hall1).
  apply run_generator_counted in H1 as [_ Hcnt].
  assert (nonneg_state (GetTaskIndex g1 state)) as Hsv.
  { apply save_counters_nonneg; [|done]. intros s c Hc. by apply Hg1 in Hc as [_ ?]. }
  destruct (TryUpdateTaskIndex_next _ _ Hg2 Hsv) as [Hwf Hn].
  destruct (run_generator_ids _ _ _ _ Hwf Ho2 H2) as (_ & Hnd2 & _ & Hall2).
  apply NoDup_app. split; [done|]. split; [|done]. intros t Hin1 Hin2.
  rewrite Forall_forall in Hall1, Hall2, Hcnt.
  destruct (Hall1 _ Hin1) as [_ Hr1]. destruct (Hall2 _ Hin2) as [_ Hr2].
  destruct (Hcnt _ Hin1) as [c Hc]. rewrite Hn in Hr2.
  rewrite (GetTaskIndex_saved _ _ _ _ Hg1 Hc) in Hr2.
  unfold next_index at 2 in Hr1. rewrite Hc in Hr1. lia.
Qed.

Lemma task_ids_never_clash_witness :
  let s := mkStreamId (mkDeviceId 0 1 0) 0 in
  NoDup ([mkTaskId s 0; mkTaskId s 1] ++ [mkTaskId s 2]).
Proof.
  intros s.
  eapply (task_ids_never_clash [OpGenerate s; OpGenerate s] [OpGenerate s]
            _ new_TaskIdGenerator _ _ _ ∅);
    [repeat constructor; vm_compute; discriminate | repeat constructor; vm_compute; discriminate
    | split; apply map_Forall_empty | apply map_Forall_empty
    | vm_compute; reflexivity | vm_compute; reflexivity].
Defined.

(** ** Stream indices are shared only under one name *)

(** The calls on a stream index generator, with the log of what was handed out:
    the name it was asked for ([None] for an anonymous stream) and the index.
    The [uint32_t] counter is assumed not to wrap. *)
Inductive sig_step : StreamIndexGenerator * list (option string * Z) →
                     StreamIndexGenerator * list (option string * Z) → Prop :=
| step_anonymous g log :
    next_stream_index g + 1 < 2 ^ 32 →
    sig_step (g, log) (snd (GenerateAnonymous g), log ++ [(None, fst (GenerateAnonymous g))])
| step_named g log name size i g' :
    next_stream_index g + size < 2 ^ 32 →
    GenerateNamedRoundRobin g name size = Ret (i, g') →
    sig_step (g, log) (g', log ++ [(Some name, i)])
| step_update g log next :
    next < 2 ^ 32 → sig_step (g, log) (TryUpdateNextStreamIndex g next, log).

Definition in_rr (i : Z) (r : RoundRobinRange) : Prop := rr_begin r ≤ i < rr_begin r + rr_size r.

Record sig_inv (g : StreamIndexGenerator) (log : list (option string * Z)) : Prop := {
  inv_next : 0 ≤ next_stream_index g < 2 ^ 32;
  inv_range name r : name2rr_range g !! name = Some r →
    0 < rr_size r ∧ 0 ≤ rr_offset r < rr_size r ∧ 0 ≤ rr_begin r ∧
    rr_begin r + rr_size r ≤ next_stream_index g;
  inv_disjoint n1 n2 r1 r2 i : name2rr_range g !! n1 = Some r1 → name2rr_range g !! n2 = Some r2 →
    in_rr i r1 → in_rr i r2 → n1 = n2;
  inv_log tag i : (tag, i) ∈ log → i < next_stream_index g;
  inv_named name i : (Some name, i) ∈ log → ∃ r, name2rr_range g !! name = Some r ∧ in_rr i r;
  inv_anonymous name i r : (None, i) ∈ log → name2rr_range g !! name = Some r → ¬ in_rr i r;
  inv_unique j1 j2 t i : log !! j1 = Some (None, i) → log !! j2 = Some (t, i) → j1 = j2;
}.

(** The range a name owns after a call: the old one, or a new one at the end. *)
Lemma GenerateNamedRoundRobin_range (g g' : StreamIndexGenerator) (name : string) (size i : Z) log :
  sig_inv g log → next_stream_index g + size < 2 ^ 32 →
  GenerateNamedRoundRobin g name size = Ret (i, g') →
  ∃ r, rr_size r = size ∧ 0 < size ∧ 0 ≤ rr_offset r < size ∧ in_rr i r ∧ 0 ≤ rr_begin r ∧
    name2rr_range g' = <[name := r]> (name2rr_range g) ∧
    (name2rr_range g !! name = None ∧ rr_begin r = next_stream_index g ∧
       next_stream_index g' = next_stream_index g + size ∨
     (∃ r0, name2rr_range g !! name = Some r0 ∧ rr_begin r = rr_begin r0 ∧ rr_size r = rr_size r0 ∧
       next_stream_index g' = next_stream_index g)).
Proof.
  intros Hinv Hb. unfold GenerateNamedRoundRobin. intros H.
  apply obind_Ret in H as ([] & Hsz & H). apply CHECK_Ret in Hsz.
  apply obind_Ret in H as ([r next] & Hr & H).
  pose proof (inv_next _ _ Hinv) as Hn.
  assert (rr_size r = size ∧ 0 ≤ rr_offset r < size ∧ 0 ≤ rr_begin r ∧
          rr_begin r + size < 2 ^ 32 ∧
          (name2rr_range g !! name = None ∧ rr_begin r = next_stream_index g ∧
             next = next_stream_index g + size ∨
           name2rr_range g !! name = Some r ∧ next = next_stream_index g))
    as (Es & Ho & Hbeg & Hlt & Hcase).
  { destruct (name2rr_range g !! name) as [r0|] eqn:E; inv_ret; simpl.
    - pose proof (inv_range _ _ Hinv _ _ E) as (?&?&?&?). split_and!; try bool_lia. right. by split.
    - rewrite u32_small by (unfold is_u32; bool_lia). split_and!; try bool_lia. by left. }
  assert (∃ r', Ret (i, g') = Ret (i, mkSIG next (<[name := r']> (name2rr_range g))) ∧ in_rr i r' ∧
          rr_begin r' = rr_begin r ∧ rr_size r' = size ∧ 0 ≤ rr_offset r' < size)
    as (r' & E & Hin & Eb & Es' & Ho').
  { destruct (Z.ltb_spec 1 size); inv_ret.
    - eexists. split; [done|]. simpl. rewrite u32_small by (unfold is_u32; lia).
      unfold in_rr. simpl. split_and!; try lia; destruct (Z.leb_spec (rr_size r) (rr_offset r + 1)); lia.
    - eexists. split; [done|]. unfold in_rr. lia. }
  injection E as ->. exists r'. simpl. split_and!; try done; try bool_lia.
  destruct Hcase as [(?&?&?)|(?&?)]; [left; split_and!; [done|lia|done]|].
  right. exists r. split_and!; [done|lia|lia|done].
Qed.

(** Extending the log by one entry keeps anonymous indices unique. *)
Lemma log_extend_unique (log : list (option string * Z)) (t0 : option string) (i0 : Z) :
  (∀ j1 j2 t i, log !! j1 = Some (None, i) → log !! j2 = Some (t, i) → j1 = j2) →
  (t0 = None → ∀ t, (t, i0) ∉ log) → (None, i0) ∉ log →
  ∀ j1 j2 t i, (log ++ [(t0, i0)]) !! j1 = Some (None, i) →
               (log ++ [(t0, i0)]) !! j2 = Some (t, i) → j1 = j2.
Proof.
  intros Hu Ht0 Hn j1 j2 t i. rewrite !lookup_app_Some, !list_lookup_singleton_Some.
  intros [Ha|(Ha & Ea & Ea')] [Hb|(Hb & Eb & Eb')]; simplify_eq; [by eapply Hu| | |lia].
  - by apply list_elem_of_lookup_2 in Ha.
  - exfalso. by apply list_elem_of_lookup_2, Ht0 in Hb.
Qed.

Lemma sig_inv_anonymous (g : StreamIndexGenerator) log :
  sig_inv g log → next_stream_index g + 1 < 2 ^ 32 →
  sig_inv (snd (GenerateAnonymous g)) (log ++ [(None, fst (GenerateAnonymous g))]).
Proof.
  intros Hinv Hb. pose proof (inv_next _ _ Hinv) as Hn. unfold GenerateAnonymous. simpl.
  rewrite u32_small by (unfold is_u32; lia).
  assert (∀ t, (t, next_stream_index g) ∉ log) as Hfresh.
  { intros t Hin. apply (inv_log _ _ Hinv) in Hin. lia. }
  constructor; simpl.
  - lia.
  - intros name r Hr. pose proof (inv_range _ _ Hinv _ _ Hr). lia.
  - apply Hinv.
  - intros tag i. rewrite elem_of_app, list_elem_of_singleton. intros [Hin|Hin]; simplify_eq; [|lia].
    pose proof (inv_log _ _ Hinv _ _ Hin). lia.
  - intros name i. rewrite elem_of_app, list_elem_of_singleton. intros [Hin|Hin]; [|done].
    by apply (inv_named _ _ Hinv).
  - intros name i r. rewrite elem_of_app, list_elem_of_singleton. intros [Hin|Hin] Hr.
    + by apply (inv_anonymous _ _ Hinv name).
    + simplify_eq. pose proof (inv_range _ _ Hinv _ _ Hr). unfold in_rr. lia.
  - apply log_extend_unique; [apply (inv_unique _ _ Hinv)|done|done].
Qed.

Lemma sig_inv_named (g g' : StreamIndexGenerator) log (name : string) (size i : Z) :
  sig_inv g log → next_stream_index g + size < 2 ^ 32 →
  GenerateNamedRoundRobin g name size = Ret (i, g') → sig_inv g' (log ++ [(Some name, i)]).
Proof.
  intros Hinv Hb H. pose proof (inv_next _ _ Hinv) as Hn.
  destruct (GenerateNamedRoundRobin_range _ _ _ _ _ _ Hinv Hb H)
    as (r & Es & Hs & Ho & Hi & H0 & Emap & Hcase).
  (* the range of [name] is fresh, or the one it had *)
  assert (next_stream_index g ≤ next_stream_index g' < 2 ^ 32 ∧
          rr_begin r + size ≤ next_stream_index g') as [Hnext Hend].
  { destruct Hcase as [(?&?&?)|(r0&Hr0&?&?&?)]; [lia|].
    pose proof (inv_range _ _ Hinv _ _ Hr0). lia. }
  assert (∀ n r2 k, n ≠ name → name2rr_range g !! n = Some r2 → in_rr k r → ¬ in_rr k r2) as Hsep.
  { intros n r2 k Hne Hr2 Hk Hk2. pose proof (inv_range _ _ Hinv _ _ Hr2).
    destruct Hcase as [(?&?&?)|(r0&Hr0&?&?&?)]; [unfold in_rr in *; lia|].
    apply Hne. apply (inv_disjoint _ _ Hinv n name r2 r0 k Hr2 Hr0 Hk2). unfold in_rr in *. lia. }
  assert (∀ k, (None, k) ∈ log → ¬ in_rr k r) as Hanon.
  { intros k Hk Hkr. pose proof (inv_log _ _ Hinv _ _ Hk).
    destruct Hcase as [(?&?&?)|(r0&Hr0&?&?&?)]; [unfold in_rr in *; lia|].
    apply (inv_anonymous _ _ Hinv _ _ _ Hk Hr0). unfold in_rr in *. lia. }
  constructor; rewrite ?Emap.
  - lia.
  - intros n r2. rewrite lookup_insert_Some. intros [[<- <-]|[Hne Hr2]]; [lia|].
    pose proof (inv_range _ _ Hinv _ _ Hr2). lia.
  - intros n1 n2 r1 r2 k. rewrite !lookup_insert_Some.
    intros [[<- <-]|[Hne1 Hr1]] [[<- <-]|[Hne2 Hr2]] Hk1 Hk2; [done| | |by eapply (inv_disjoint _ _ Hinv)].
    + exfalso. by apply (Hsep n2 r2 k).
    + exfalso. by apply (Hsep n1 r1 k).
  - intros tag k. rewrite elem_of_app, list_elem_of_singleton. intros [Hin|Hin].
    + pose proof (inv_log _ _ Hinv _ _ Hin). lia.
    + simplify_eq. unfold in_rr in Hi. lia.
  - intros n k. rewrite elem_of_app, list_elem_of_singleton. intros [Hin|Hin].
    + apply (inv_named _ _ Hinv) in Hin as (r2 & Hr2 & Hk). destruct (decide (n = name)) as [->|Hne].
      * exists r. rewrite lookup_insert_eq. split; [done|].
        destruct Hcase as [(?&?&?)|(r0&Hr0&?&?&?)]; simplify_eq. unfold in_rr in *. lia.
      * exists r2. by rewrite lookup_insert_ne.
    + simplify_eq. exists r. by rewrite lookup_insert_eq.
  - intros n k r2. rewrite elem_of_app, list_elem_of_singleton. intros [Hin|Hin]; [|done].
    rewrite lookup_insert_Some. intros [[<- <-]|[_ Hr2]]; [by apply Hanon|].
    by apply (inv_anonymous _ _ Hinv n).
  - apply log_extend_unique; [apply (inv_unique _ _ Hinv)|done|]. intros Hin. by apply (Hanon i).
Qed.

Lemma sig_inv_step (p q : StreamIndexGenerator * list (option string * Z)) :
  sig_inv p.1 p.2 → sig_step p q → sig_inv q.1 q.2.
Proof.
  intros Hinv Hstep. destruct Hstep as [g log Hb|g log name size i g' Hb Hg|g log next Hb]; simpl in *.
  - by apply sig_inv_anonymous.
  - by eapply sig_inv_named.
  - pose proof (inv_next _ _ Hinv). constructor; simpl; [lia| | |..]; try apply Hinv.
    + intros name r Hr. pose proof (inv_range _ _ Hinv _ _ Hr). lia.
    + intros tag i Hin. pose proof (inv_log _ _ Hinv _ _ Hin). lia.
Qed.

Lemma sig_inv_reachable (n0 : Z) (p : StreamIndexGenerator * list (option string * Z)) :
  0 ≤ n0 < 2 ^ 32 → rtc sig_step (new_StreamIndexGenerator n0, []) p → sig_inv p.1 p.2.
Proof.
  intros Hn Hrtc. assert (sig_inv (new_StreamIndexGenerator n0) []) as H0.
  { constructor; simpl; try done; intros *; rewrite ?lookup_empty; try done; intros; set_solver. }
  remember (new_StreamIndexGenerator n0, []) as p0. revert Heqp0 H0.
  change (sig_inv (new_StreamIndexGenerator n0) []) with
    (sig_inv (new_StreamIndexGenerator n0, @nil (option string * Z)).1
             (new_StreamIndexGenerator n0, @nil (option string * Z)).2).
  intros <- H0. induction Hrtc; [done|]. eauto using sig_inv_step.
Qed.

(** In every reachable state of a stream index generator, two requests that
    were given the same stream index asked for it under the same name: named
    round-robin ranges never overlap each other or an anonymous stream. *)
Theorem stream_index_sharing (n0 : Z) (g : StreamIndexGenerator) (log : list (option string * Z))
    (j1 j2 : nat) (t1 t2 : option string) (i : Z) :
  0 ≤ n0 < 2 ^ 32 → rtc sig_step (new_StreamIndexGenerator n0, []) (g, log) →
  log !! j1 = Some (t1, i) → log !! j2 = Some (t2, i) → j1 ≠ j2 →
  ∃ name, t1 = Some name ∧ t2 = Some name.
Proof.
  intros Hn Hrtc H1 H2 Hne. apply sig_inv_reachable in Hrtc as Hinv; [|done]. simpl in Hinv.
  destruct t1 as [n1|]; [|by destruct Hne; apply (inv_unique _ _ Hinv j1 j2 t2 i)].
  destruct t2 as [n2|]; [|by destruct Hne; symmetry; apply (inv_unique _ _ Hinv j2 j1 (Some n1) i)].
  apply list_elem_of_lookup_2, (inv_named _ _ Hinv) in H1 as (r1 & Hr1 & Hi1).
  apply list_elem_of_lookup_2, (inv_named _ _ Hinv) in H2 as (r2 & Hr2 & Hi2).
  pose proof (inv_disjoint _ _ Hinv _ _ _ _ _ Hr1 Hr2 Hi1 Hi2) as ->. by exists n2.
Qed.

Lemma stream_index_sharing_witness :
  ∃ g log, rtc sig_step (new_StreamIndexGenerator 0, []) (g, log) ∧
    log !! 0%nat = Some (Some "COMPUTE"%string, 0) ∧ log !! 1%nat = Some (Some "COMPUTE"%string, 0) ∧
    ∃ name, Some "COMPUTE"%string = Some name ∧ Some "COMPUTE"%string = Some name.
Proof.
  assert (rtc sig_step (new_StreamIndexGenerator 0, [])
            (mkSIG 1 {["COMPUTE"%string := mkRR 0 1 0]}, [(Some "COMPUTE"%string, 0); (Some "COMPUTE"%string, 0)]))
    as Hrtc.
  { eapply rtc_l; [eapply (step_named _ _ "COMPUTE" 1); vm_compute; reflexivity|].
    eapply rtc_l; [eapply (step_named _ _ "COMPUTE" 1); vm_compute; reflexivity|]. apply rtc_refl. }
  eexists _, _. split; [exact Hrtc|]. split; [reflexivity|]. split; [reflexivity|].
  exact (stream_index_sharing 0 _ _ 0 1 _ _ 0 ltac:(lia) Hrtc eq_refl eq_refl ltac:(done)).
Defined.

(** ** Register, block and chunk ids *)

Lemma rank_offset_value (r x i : Z) :
  0 ≤ r < 2 ^ 16 → AddCurrentRankOffset r x = Ret i →
  0 ≤ x < 2 ^ 48 ∧ i = (if r <? 2 ^ 15 then r else r - 2 ^ 16) * 2 ^ 48 + x.
Proof.
  intros Hr H. unfold AddCurrentRankOffset in H. inv_ret.
  change (Z.shiftl 1 kIdLimitShift) with (2 ^ 48) in *. change kIdLimitShift with 48 in *.
  split; [bool_lia|]. rewrite Z.shiftl_mul_pow2 by lia.
  assert (i64 (r * 2 ^ 48) = (if r <? 2 ^ 15 then r else r - 2 ^ 16) * 2 ^ 48) as ->.
  { unfold i64. destruct (Z.ltb_spec r (2 ^ 15)); Z.to_euclidean_division_equations; lia. }
  apply i64_small. unfold is_i64. destruct (Z.ltb_spec r (2 ^ 15)); bool_lia.
Qed.

Lemma rank_offset_inj (r1 r2 x1 x2 i : Z) :
  0 ≤ r1 < 2 ^ 16 → 0 ≤ r2 < 2 ^ 16 →
  AddCurrentRankOffset r1 x1 = Ret i → AddCurrentRankOffset r2 x2 = Ret i → r1 = r2 ∧ x1 = x2.
Proof.
  intros Hr1 Hr2 [Hx1 E1]%rank_offset_value [Hx2 E2]%rank_offset_value; [|done..].
  destruct (Z.ltb_spec r1 (2 ^ 15)), (Z.ltb_spec r2 (2 ^ 15)); lia.
Qed.

(** Ids that [IDMgr]s hand out are unique across the ranks of a job: equal ids
    come from the same rank and the same counter value. *)
Theorem rank_offset_unique (r1 r2 x1 x2 i : Z) :
  0 ≤ r1 < 2 ^ 16 → 0 ≤ r2 < 2 ^ 16 →
  AddCurrentRankOffset r1 x1 = Ret i → AddCurrentRankOffset r2 x2 = Ret i → r1 = r2 ∧ x1 = x2.
Proof. apply rank_offset_inj. Qed.

Lemma rank_offset_unique_witness :
  AddCurrentRankOffset 1 5 = Ret (2 ^ 48 + 5) ∧ (1 = 1 ∧ 5 = 5).
Proof.
  split; [vm_compute; reflexivity|].
  apply (rank_offset_unique 1 1 5 5 (2 ^ 48 + 5)); [lia|lia|vm_compute; reflexivity..].
Defined.

(** The three counters of an [IDMgr] give fresh ids, call after call, also
    after the counters of a saved session were merged in. *)
Theorem IDMgr_fresh (my_rank : Z) (m m1 m2 : IDMgr) (s : IdState) (i j : Z) :
  0 ≤ my_rank < 2 ^ 16 →
  NewRegstDescId my_rank m = Ret (i, m1) →
  NewRegstDescId my_rank (TryUpdateIdAndTaskIndex m1 s) = Ret (j, m2) →
  i ≠ j ∧ mem_block_id_count m1 = mem_block_id_count m ∧ chunk_id_count m1 = chunk_id_count m ∧
  regst_desc_id_state s < regst_desc_id_count m2.
Proof.
  intros Hr H1 H2. unfold NewRegstDescId in *.
  apply obind_Ret in H1 as (i' & Hi & H1). apply obind_Ret in H2 as (j' & Hj & H2).
  injection H1 as <- <-. injection H2 as <- <-. simpl in *. split_and!; [|done|done|lia]. intros ->.
  destruct (rank_offset_inj _ _ _ _ _ Hr Hr Hi Hj); lia.
Qed.
