(* ===== verification/BinAllocator.v ===== *)
(** * The caching device-memory allocator

    [core/vm/bin_allocator.h].  A [BinAllocator] gets large blocks from a
    backend allocator, cuts them into pieces and keeps the free pieces in 20
    bins by size.  Pieces are heap objects linked to their neighbours in memory;
    here a piece is an entry of the vector [pieces_] and a [Piece*] is its index
    ([None] for [nullptr]).  Pointers and sizes are 64-bit numbers.

    [ThreadLock] makes every public operation atomic, so a concurrent history is
    a sequence of operations. *)
From S2P Require Import Prelude Util.

(** ** The backend: the interface of [vm::Allocator] *)

(** [Allocate] reports the address through [mem_ptr] (0 for [nullptr]) or
    returns an error; [Deallocate] gives a region back. *)
Class Backend (B : Type) := {
  b_allocate : B → Z → outcome (Z * B);
  b_deallocate : B → Z → Z → outcome B;
  (** the regions handed out and not yet returned: address to size *)
  b_live : B → gmap Z Z;
}.

(** The contract of an allocator: what it hands out is a fresh non-null region
    of the address space that no live region meets, a failure leaves the live
    regions alone, and a live region can be given back. *)
Class BackendSpec (B : Type) `{!Backend B} := {
  b_allocate_no_abort b n : b_allocate b n ≠ Crash;
  b_allocate_fresh b n p b' : 0 < n → b_allocate b n = Ret (p, b') → p ≠ 0 →
    0 < p ∧ p + n < u64_modulus ∧
    (∀ q m, b_live b !! q = Some m → p + n ≤ q ∨ q + m ≤ p) ∧ b_live b !! p = None ∧
    b_live b' = <[p := n]> (b_live b);
  b_allocate_null b n b' : b_allocate b n = Ret (0, b') → b_live b' = b_live b;
  b_deallocate_live b p n : b_live b !! p = Some n →
    ∃ b', b_deallocate b p n = Ret b' ∧ b_live b' = delete p (b_live b);
}.

(** ** Data *)

Definition kInvalidBinNum : Z := -1.
Definition kBinNumSize : Z := 20.
Definition kCudaMemAllocAlignSize : Z := 512.
Definition kPieceSplitThreshold : Z := Z.shiftl 128 20.

Record Piece := mkPiece {
  size : Z;
  ptr : Z;
  is_free : bool;
  prev : option nat;
  next : option nat;
  bin_num : Z;
}.

(** [new Piece()] *)
Definition empty_piece : Piece := mkPiece 0 0 false None None kInvalidBinNum.

Record Block := mkBlock { block_size : Z; block_ptr : Z; start_piece : nat }.

(** Field assignments. *)
Definition set_size (z : Z) (p : Piece) : Piece :=
  mkPiece z (ptr p) (is_free p) (prev p) (next p) (bin_num p).
Definition set_free (b : bool) (p : Piece) : Piece :=
  mkPiece (size p) (ptr p) b (prev p) (next p) (bin_num p).
Definition set_prev (q : option nat) (p : Piece) : Piece :=
  mkPiece (size p) (ptr p) (is_free p) q (next p) (bin_num p).
Definition set_next (q : option nat) (p : Piece) : Piece :=
  mkPiece (size p) (ptr p) (is_free p) (prev p) q (bin_num p).
Definition set_bin_num (k : Z) (p : Piece) : Piece :=
  mkPiece (size p) (ptr p) (is_free p) (prev p) (next p) k.

(** [Bin::PieceCmp]: by size, then by address. *)
Definition PieceCmp (lhs rhs : Piece) : bool :=
  if negb (size lhs =? size rhs) then size lhs <? size rhs else ptr lhs <? ptr rhs.

(** Neither is below the other: [std::set] holds one of them at most. *)
Definition same_key (lhs rhs : Piece) : bool :=
  negb (PieceCmp lhs rhs) && negb (PieceCmp rhs lhs).

Section allocator.
Context {B : Type} `{!Backend B}.

Record allocator := mkAllocator {
  alignment : Z;
  backend : B;
  total_memory_bytes : Z;
  mem_ptr2block : gmap Z Block;
  bins : list (list nat);
  pieces : list Piece;
  ptr2piece : gmap Z nat;
  recycle_piece_list : option nat;
}.

Definition set_backend (b : B) (s : allocator) : allocator :=
  mkAllocator (alignment s) b (total_memory_bytes s) (mem_ptr2block s) (bins s) (pieces s)
              (ptr2piece s) (recycle_piece_list s).
Definition set_total (z : Z) (s : allocator) : allocator :=
  mkAllocator (alignment s) (backend s) z (mem_ptr2block s) (bins s) (pieces s)
              (ptr2piece s) (recycle_piece_list s).
Definition set_blocks (m : gmap Z Block) (s : allocator) : allocator :=
  mkAllocator (alignment s) (backend s) (total_memory_bytes s) m (bins s) (pieces s)
              (ptr2piece s) (recycle_piece_list s).
Definition set_bins (l : list (list nat)) (s : allocator) : allocator :=
  mkAllocator (alignment s) (backend s) (total_memory_bytes s) (mem_ptr2block s) l (pieces s)
              (ptr2piece s) (recycle_piece_list s).
Definition set_pieces (l : list Piece) (s : allocator) : allocator :=
  mkAllocator (alignment s) (backend s) (total_memory_bytes s) (mem_ptr2block s) (bins s) l
              (ptr2piece s) (recycle_piece_list s).
Definition set_ptr2piece (m : gmap Z nat) (s : allocator) : allocator :=
  mkAllocator (alignment s) (backend s) (total_memory_bytes s) (mem_ptr2block s) (bins s) (pieces s)
              m (recycle_piece_list s).
Definition set_recycle (q : option nat) (s : allocator) : allocator :=
  mkAllocator (alignment s) (backend s) (total_memory_bytes s) (mem_ptr2block s) (bins s) (pieces s)
              (ptr2piece s) q.

(** Reading and writing through a [Piece*]. *)
Definition get_piece (s : allocator) (i : nat) : outcome Piece :=
  match pieces s !! i with Some p => Ret p | None => Crash end.
Definition write_piece (s : allocator) (i : nat) (f : Piece → Piece) : outcome allocator :=
  let* p := get_piece s i in Ret (set_pieces (<[i := f p]> (pieces s)) s).

(** ** Bins *)

Definition BinSize4BinNum (bin_num : Z) : Z := u64 (Z.shiftl kCudaMemAllocAlignSize bin_num).

(** [__builtin_clzll] *)
Definition clzll (v : Z) : Z := 63 - Z.log2 v.

Definition BinNum4BinSize (size : Z) : Z :=
  let value := Z.shiftr (Z.max size kCudaMemAllocAlignSize) 9 in
  Z.min (kBinNumSize - 1) (Z.lxor 63 (clzll value)).

Definition MemAlignedBytes (bytes alignment : Z) : Z := RoundUp bytes alignment.
Definition IsAlignedSize (size alignment : Z) : bool := size mod alignment =? 0.

(** [BinAllocator::BinAllocator] *)
Definition new_BinAllocator (alignment : Z) (b : B) : outcome allocator :=
  let* _ := CHECK (1 <=? alignment) in
  let* _ := CHECK (Z.shiftl 1 (Z.log2 alignment) =? alignment) in
  let* _ := CHECK (forallb (λ i : nat,
      let i := Z.of_nat i in
      let bin_size := BinSize4BinNum i in
      (BinNum4BinSize bin_size =? i) &&
      (BinNum4BinSize (u64 (u64 (bin_size + alignment) - 1)) =? i) &&
      (BinNum4BinSize (u64 (u64 (bin_size * 2) - 1)) =? i) &&
      (BinNum4BinSize (u64 (bin_size * 2)) =? (if i =? kBinNumSize - 1 then i else i + 1)))
    (seq 0 (Z.to_nat kBinNumSize))) in
  Ret (mkAllocator alignment b 0 ∅ (replicate (Z.to_nat kBinNumSize) []) [] ∅ None).

(** [std::set::insert]: the sorted position, or failure on an equal key. *)
Fixpoint bin_insert (ps : list Piece) (i : nat) (p : Piece) (l : list nat) : option (list nat) :=
  match l with
  | [] => Some [i]
  | j :: l' =>
      match ps !! j with
      | None => None
      | Some q =>
          if PieceCmp p q then Some (i :: l)
          else if PieceCmp q p then
            match bin_insert ps i p l' with Some l'' => Some (j :: l'') | None => None end
          else None
      end
  end.

(** [std::set::erase(key)]: what is left, and whether something was erased. *)
Fixpoint bin_erase (ps : list Piece) (p : Piece) (l : list nat) : option (list nat) :=
  match l with
  | [] => None
  | j :: l' =>
      match ps !! j with
      | None => None
      | Some q =>
          if same_key p q then Some l'
          else match bin_erase ps p l' with Some l'' => Some (j :: l'') | None => None end
      end
  end.

(** [bins_.at(k).pieces] *)
Definition bin_at (s : allocator) (k : Z) : outcome (list nat) := at_ (bins s) k.

Definition InsertPiece2Bin (s : allocator) (i : nat) : outcome allocator :=
  let* p := get_piece s i in
  let* _ := CHECK (is_free p && (bin_num p =? kInvalidBinNum)) in
  let k := BinNum4BinSize (size p) in
  let* s := write_piece s i (set_bin_num k) in
  let* l := bin_at s k in
  match bin_insert (pieces s) i (set_bin_num k p) l with
  | None => Crash
  | Some l' => Ret (set_bins (<[Z.to_nat k := l']> (bins s)) s)
  end.

Definition RemovePieceFromBin (s : allocator) (i : nat) : outcome allocator :=
  let* p := get_piece s i in
  let* _ := CHECK (is_free p) in
  let* _ := CHECK (negb (bin_num p =? kInvalidBinNum)) in
  let* l := bin_at s (bin_num p) in
  match bin_erase (pieces s) p l with
  | None => Crash
  | Some l' =>
      let s := set_bins (<[Z.to_nat (bin_num p) := l']> (bins s)) s in
      write_piece s i (set_bin_num kInvalidBinNum)
  end.

Definition AllocatePiece (s : allocator) : outcome (nat * allocator) :=
  match recycle_piece_list s with
  | Some i =>
      let* p := get_piece s i in
      Ret (i, set_recycle (next p) s)
  | None => Ret (length (pieces s), set_pieces (pieces s ++ [empty_piece]) s)
  end.

Definition DeallocatePiece (s : allocator) (i : nat) : outcome allocator :=
  let* s := write_piece s i (λ _, mkPiece 0 0 true None (recycle_piece_list s) kInvalidBinNum) in
  Ret (set_recycle (Some i) s).

Definition MarkPiece (s : allocator) (i : nat) : outcome allocator :=
  let* p := get_piece s i in
  let* _ := CHECK (negb (ptr p =? 0)) in
  match ptr2piece s !! ptr p with
  | Some _ => Crash
  | None => Ret (set_ptr2piece (<[ptr p := i]> (ptr2piece s)) s)
  end.

Definition UnMarkPiece (s : allocator) (i : nat) : outcome allocator :=
  let* p := get_piece s i in
  let* _ := CHECK (negb (ptr p =? 0)) in
  match ptr2piece s !! ptr p with
  | None => Crash
  | Some _ => Ret (set_ptr2piece (delete (ptr p) (ptr2piece s)) s)
  end.

(** ** [FindPiece] *)

(** The scan of one bin, in the order of [PieceCmp]. *)
Fixpoint scan_bin (s : allocator) (k aligned_size : Z) (l : list nat) : outcome (option nat) :=
  match l with
  | [] => Ret None
  | i :: l =>
      let* p := get_piece s i in
      let* _ := CHECK (is_free p) in
      let* _ := CHECK (negb (ptr p =? 0)) in
      let* _ := CHECK (bin_num p =? k) in
      let* _ := CHECK (IsAlignedSize (size p) (alignment s)) in
      if aligned_size <=? size p then Ret (Some i) else scan_bin s k aligned_size l
  end.

(** The bins from the one of the requested size upwards. *)
Fixpoint scan_bins (s : allocator) (aligned_size : Z) (ks : list Z) : outcome (option nat) :=
  match ks with
  | [] => Ret None
  | k :: ks =>
      let* l := bin_at s k in
      let* r := scan_bin s k aligned_size l in
      match r with
      | Some i => Ret (Some i)
      | None => scan_bins s aligned_size ks
      end
  end.

(** [bin->pieces.erase(it)] *)
Definition erase_from_bin (s : allocator) (k : Z) (i : nat) : outcome allocator :=
  let* l := bin_at s k in
  Ret (set_bins (<[Z.to_nat k := filter (λ j, j ≠ i) l]> (bins s)) s).

(** The piece that is taken gives its tail back when it is much too large. *)
Definition SplitPiece (s : allocator) (i : nat) (aligned_size : Z) : outcome allocator :=
  let* p := get_piece s i in
  let* (n, s) := AllocatePiece s in
  let next_p := next p in
  let* s := write_piece s n (λ _, mkPiece (u64 (size p - aligned_size)) (u64 (ptr p + aligned_size))
                                          true (Some i) next_p kInvalidBinNum) in
  let* s := write_piece s i (set_size aligned_size) in
  let* s := write_piece s i (set_next (Some n)) in
  let* s := match next_p with
            | Some j => write_piece s j (set_prev (Some n))
            | None => Ret s
            end in
  let* p := get_piece s i in
  let* q := get_piece s n in
  let* _ := CHECK (IsAlignedSize (size p) (alignment s)) in
  let* _ := CHECK (IsAlignedSize (size q) (alignment s)) in
  let* s := InsertPiece2Bin s n in
  MarkPiece s n.

Definition FindPiece (s : allocator) (aligned_size : Z) : outcome (option nat * allocator) :=
  let* _ := CHECK (IsAlignedSize aligned_size (alignment s)) in
  let first := BinNum4BinSize aligned_size in
  let* r := scan_bins s aligned_size
              (map Z.of_nat (seq (Z.to_nat first) (Z.to_nat (kBinNumSize - first)))) in
  match r with
  | None => Ret (None, s)
  | Some i =>
      let* p := get_piece s i in
      let* s := erase_from_bin s (bin_num p) i in
      let* s := write_piece s i (set_bin_num kInvalidBinNum) in
      let* s := write_piece s i (set_free false) in
      let* s :=
        if (u64 (aligned_size * 2) <=? size p) || (kPieceSplitThreshold <=? u64 (size p - aligned_size))
        then SplitPiece s i aligned_size else Ret s in
      Ret (Some i, s)
  end.

Definition MergeNeighbourFreePiece (s : allocator) (lhs rhs : nat) : outcome allocator :=
  let* l := get_piece s lhs in
  let* r := get_piece s rhs in
  let* _ := CHECK (is_free l) in
  let* _ := CHECK (is_free r) in
  let* _ := CHECK (bool_decide (next l = Some rhs)) in
  let* _ := CHECK (bool_decide (prev r = Some lhs)) in
  let* _ := CHECK (u64 (ptr l + size l) =? ptr r) in
  let* s := write_piece s lhs (set_size (u64 (size l + size r))) in
  let* s := write_piece s lhs (set_next (next r)) in
  let* s := match next r with
            | Some j => write_piece s j (set_prev (Some lhs))
            | None => Ret s
            end in
  let* s := UnMarkPiece s rhs in
  DeallocatePiece s rhs.

(** How many bytes the backend is asked for. *)
Definition block_bytes (aligned_size alignment : Z) : Z :=
  let allocate_bytes :=
    if aligned_size <? 1048576 then 2097152
    else if aligned_size <? 10485760 then 20971520
    else RoundUp aligned_size 2097152 in
  MemAlignedBytes allocate_bytes alignment.

Definition AllocateBlockToExtendTotalMem (s : allocator) (aligned_size : Z) : outcome (bool * allocator) :=
  let* _ := CHECK_OR_RETURN (IsAlignedSize aligned_size (alignment s)) CheckFailedError in
  let final_allocate_bytes := block_bytes aligned_size (alignment s) in
  if final_allocate_bytes <? aligned_size then Ret (false, s) else
  let* (mem_ptr, b) := b_allocate (backend s) final_allocate_bytes in
  let s := set_backend b s in
  if mem_ptr =? 0 then Ret (false, s) else
  let s := set_total (u64 (total_memory_bytes s + final_allocate_bytes)) s in
  let* (i, s) := AllocatePiece s in
  let* s := write_piece s i (λ _, mkPiece final_allocate_bytes mem_ptr true None None kInvalidBinNum) in
  let* s := InsertPiece2Bin s i in
  let* s := MarkPiece s i in
  let* p := get_piece s i in
  match mem_ptr2block s !! mem_ptr with
  | Some _ => Fail CheckFailedError
  | None => Ret (true, set_blocks (<[mem_ptr := mkBlock (size p) (ptr p) i]> (mem_ptr2block s)) s)
  end.

(** ** Garbage collection *)

(** [while (p != nullptr)]: are all pieces of a block free?  The walk visits
    each piece once, so the number of pieces bounds it. *)
Fixpoint all_free (fuel : nat) (s : allocator) (p : option nat) : outcome bool :=
  match p with
  | None => Ret true
  | Some i =>
      match fuel with
      | O => Crash
      | S fuel =>
          let* q := get_piece s i in
          if is_free q then all_free fuel s (next q) else Ret false
      end
  end.

(** The loop that deletes the pieces of a block and adds up their sizes. *)
Fixpoint delete_pieces (fuel : nat) (s : allocator) (p : option nat) (sum : Z) : outcome (Z * allocator) :=
  match p with
  | None => Ret (sum, s)
  | Some i =>
      match fuel with
      | O => Crash
      | S fuel =>
          let* q := get_piece s i in
          let next_p := next q in
          let* s := RemovePieceFromBin s i in
          let* s := UnMarkPiece s i in
          let* s := DeallocatePiece s i in
          delete_pieces fuel s next_p (u64 (sum + size q))
      end
  end.

Definition delete_block (s : allocator) (p : Z) : outcome allocator :=
  match mem_ptr2block s !! p with
  | None => Crash
  | Some block =>
      let* q := get_piece s (start_piece block) in
      let* _ := CHECK (block_ptr block =? ptr q) in
      let* _ := CHECK (block_ptr block =? p) in
      let* (piece_size_sum, s) :=
        delete_pieces (length (pieces s)) s (Some (start_piece block)) 0 in
      let* _ := CHECK (block_size block =? piece_size_sum) in
      let s := set_blocks (delete p (mem_ptr2block s)) s in
      let* b := b_deallocate (backend s) p (block_size block) in
      Ret (set_backend b s)
  end.

(** The scan for blocks without a used piece: their total size and addresses. *)
Fixpoint free_blocks (s : allocator) (blocks : list (Z * Block)) : outcome (Z * list Z) :=
  match blocks with
  | [] => Ret (0, [])
  | (p, block) :: blocks =>
      let* f := all_free (length (pieces s)) s (Some (start_piece block)) in
      let* (total, l) := free_blocks s blocks in
      Ret (if f then (u64 (block_size block + total), p :: l) else (total, l))
  end.

Definition DeallocateFreeBlockForGarbageCollection (s : allocator) : outcome (bool * allocator) :=
  let* (total_free_bytes, free_block_ptrs) := free_blocks s (map_to_list (mem_ptr2block s)) in
  let s := set_total (u64 (total_memory_bytes s - total_free_bytes)) s in
  let* s := if 0 <? total_free_bytes then ofold delete_block free_block_ptrs s else Ret s in
  Ret (0 <? total_free_bytes, s).

Definition Shrink (s : allocator) : outcome allocator :=
  let* (_, s) := DeallocateFreeBlockForGarbageCollection s in Ret s.

(** ** The public operations *)

(** On an error the state of the caller is the one before the call: the search
    writes nothing before it finds a piece, and so does an extension that
    fails.  (The backend, which is not code of this class, may have changed: an
    execution lets it.) *)
Definition Allocate (s : allocator) (n : Z) : outcome (Z * allocator) :=
  if n =? 0 then Ret (0, s) else
  let aligned_size := MemAlignedBytes n (alignment s) in
  let* (r, s) := FindPiece s aligned_size in
  let* (r, s) :=
    match r with
    | Some i => Ret (Some i, s)
    | None =>
        let* (ok, s) := AllocateBlockToExtendTotalMem s aligned_size in
        if ok then FindPiece s aligned_size else Ret (None, s)
    end in
  match r with
  | None => Fail OutOfMemoryError
  | Some i =>
      let* p := get_piece s i in
      let* _ := CHECK_OR_RETURN (negb (ptr p =? 0)) CheckFailedError in
      let* _ := CHECK_OR_RETURN (bool_decide (is_Some (ptr2piece s !! ptr p))) CheckFailedError in
      Ret (ptr p, s)
  end.

(** The freed piece [i] absorbs its right neighbour when that is free: the part
    of [Deallocate] before [prev_p] is looked at. *)
Definition absorb_next (s : allocator) (i : nat) (p : Piece) : outcome allocator :=
  match next p with
  | None => Ret s
  | Some j =>
      let* q := get_piece s j in
      if is_free q then
        let* _ := CHECK (ptr q =? u64 (ptr p + size p)) in
        let* s := RemovePieceFromBin s j in
        MergeNeighbourFreePiece s i j
      else Ret s
  end.

(** ... and is absorbed by its left neighbour when that is free. *)
Definition absorb_prev (s : allocator) (i : nat) (prev_p : option nat) : outcome (nat * allocator) :=
  match prev_p with
  | None => Ret (i, s)
  | Some j =>
      let* q := get_piece s j in
      if is_free q then
        let* p := get_piece s i in
        let* _ := CHECK (ptr p =? u64 (ptr q + size q)) in
        let* s := RemovePieceFromBin s j in
        let* s := MergeNeighbourFreePiece s j i in
        Ret (j, s)
      else Ret (i, s)
  end.

Definition Deallocate (s : allocator) (mem_ptr : Z) : outcome allocator :=
  if mem_ptr =? 0 then Ret s else
  match ptr2piece s !! mem_ptr with
  | None => Crash
  | Some i =>
      let* p := get_piece s i in
      let* _ := CHECK (ptr p =? mem_ptr) in
      let* _ := CHECK (negb (is_free p)) in
      let* s := write_piece s i (set_free true) in
      let* s := absorb_next s i p in
      let* (last_piece_insert_to_bin, s) := absorb_prev s i (prev p) in
      InsertPiece2Bin s last_piece_insert_to_bin
  end.

(** The destructor returns every block to the backend. *)
Definition Destroy (s : allocator) : outcome B :=
  if total_memory_bytes s =? 0 then
    let* _ := CHECK (bool_decide (mem_ptr2block s = ∅)) in Ret (backend s)
  else ofold (λ b '(p, block), b_deallocate b p (block_size block)) (map_to_list (mem_ptr2block s)) (backend s).

End allocator.
