(* ===== verification/BinAllocatorRep.v ===== *)
(** * The allocator's heap: representation

    The linked pieces, the bins, the address index and the recycle list of a
    [BinAllocator] represent one finite map [M] from piece ids to pieces.  Every
    private operation is shown to do one update of [M] and not to abort; the
    memory-safety argument then works on [M] alone. *)
From S2P Require Import Prelude Util BinAllocator.

(** ** Bin numbers *)

Lemma lxor_63 (k : Z) : 0 ≤ k ≤ 63 → Z.lxor 63 (63 - k) = k.
Proof.
  intros Hk.
  assert (forallb (λ n : nat, Z.lxor 63 (63 - Z.of_nat n) =? Z.of_nat n) (seq 0 64) = true) as H
    by (vm_compute; reflexivity).
  rewrite forallb_forall in H. specialize (H (Z.to_nat k)).
  rewrite Z2Nat.id in H by lia. apply Z.eqb_eq, H, in_seq. lia.
Qed.

Lemma BinNum_log2 (n : Z) :
  0 ≤ n < u64_modulus → BinNum4BinSize n = Z.min 19 (Z.log2 (Z.max n 512 / 512)).
Proof.
  intros Hn. unfold BinNum4BinSize, clzll, kBinNumSize, kCudaMemAllocAlignSize.
  rewrite Z.shiftr_div_pow2 by lia. change (2 ^ 9) with 512.
  pose proof (Z.log2_nonneg (Z.max n 512 / 512)).
  rewrite lxor_63; [done|]. split; [done|].
  assert (0 < Z.max n 512 / 512) by (apply Z.div_str_pos; lia).
  apply Z.lt_succ_r, Z.log2_lt_pow2; [done|].
  apply Z.div_lt_upper_bound; [lia|]. unfold u64_modulus in Hn. lia.
Qed.

Lemma BinNum_range (n : Z) : 0 ≤ n < u64_modulus → 0 ≤ BinNum4BinSize n < 20.
Proof.
  intros Hn. rewrite BinNum_log2 by done. pose proof (Z.log2_nonneg (Z.max n 512 / 512)). lia.
Qed.

Lemma BinNum_mono (m n : Z) :
  0 ≤ m ≤ n → n < u64_modulus → BinNum4BinSize m ≤ BinNum4BinSize n.
Proof.
  intros Hm Hn. rewrite !BinNum_log2 by lia.
  apply Z.min_le_compat_l, Z.log2_le_mono, Z.div_le_mono; lia.
Qed.

(** ** [std::set] as a sorted list *)

Lemma PieceCmp_total (p q : Piece) : ptr p ≠ ptr q → PieceCmp p q = negb (PieceCmp q p).
Proof.
  intros Hne. unfold PieceCmp.
  destruct (Z.eqb_spec (size p) (size q)), (Z.eqb_spec (size q) (size p)); simpl; try lia;
    destruct (Z.ltb_spec (ptr p) (ptr q)), (Z.ltb_spec (ptr q) (ptr p));
    destruct (Z.ltb_spec (size p) (size q)), (Z.ltb_spec (size q) (size p)); simpl; lia || done.
Qed.

Lemma same_key_ptr (p q : Piece) : same_key p q = true ↔ size p = size q ∧ ptr p = ptr q.
Proof.
  unfold same_key, PieceCmp.
  destruct (Z.eqb_spec (size p) (size q)), (Z.eqb_spec (size q) (size p)); simpl; try lia;
    destruct (Z.ltb_spec (ptr p) (ptr q)), (Z.ltb_spec (ptr q) (ptr p));
    destruct (Z.ltb_spec (size p) (size q)), (Z.ltb_spec (size q) (size p)); simpl; split; lia || done.
Qed.

Lemma bin_insert_perm (ps : list Piece) (i : nat) (p : Piece) (l : list nat) :
  (∀ j, j ∈ l → ∃ q, ps !! j = Some q ∧ ptr q ≠ ptr p) →
  ∃ l', bin_insert ps i p l = Some l' ∧ l' ≡ₚ i :: l.
Proof.
  induction l as [|j l IH]; intros Hl; simpl; [by eexists|].
  destruct (Hl j) as (q & -> & Hq); [left|].
  rewrite (PieceCmp_total p q) by done. destruct (PieceCmp q p); simpl; [|by eexists].
  destruct IH as (l' & -> & Hp); [intros; apply Hl; by right|].
  eexists. split; [done|]. rewrite Hp. apply Permutation_swap.
Qed.

Lemma bin_erase_perm (ps : list Piece) (i : nat) (p : Piece) (l : list nat) :
  ps !! i = Some p → i ∈ l →
  (∀ j, j ∈ l → ∃ q, ps !! j = Some q ∧ (ptr q = ptr p → j = i)) →
  ∃ l', bin_erase ps p l = Some l' ∧ l ≡ₚ i :: l'.
Proof.
  intros Hp. induction l as [|j l IH]; intros Hin Hl; [by apply not_elem_of_nil in Hin|].
  cbn [bin_erase]. destruct (Hl j) as (q & Hj & Hq); [left|]. rewrite Hj.
  destruct (same_key p q) eqn:E.
  - apply same_key_ptr in E as [_ E]. exists l. split; [done|]. by rewrite (Hq (eq_sym E)).
  - destruct IH as (l' & -> & Hperm).
    + apply elem_of_cons in Hin as [->|]; [|done]. exfalso.
      assert (same_key p q = true) by (apply same_key_ptr; naive_solver). congruence.
    + intros k Hk. apply Hl. by right.
    + eexists. split; [done|]. rewrite Hperm. apply Permutation_swap.
Qed.

(** ** The representation *)

Section rep.
Context {B : Type} `{!Backend B}.
#[local] Abbreviation state := (allocator (B := B)).

(** The recycled pieces, linked through [next]. *)
Fixpoint recycled (ps : list Piece) (head : option nat) (R : list nat) : Prop :=
  match R with
  | [] => head = None
  | i :: R => head = Some i ∧ ∃ p, ps !! i = Some p ∧ recycled ps (next p) R
  end.

Record Rep (s : state) (M : gmap nat Piece) (R : list nat) : Prop := {
  rep_pieces i p : M !! i = Some p → pieces s !! i = Some p;
  rep_marks a i : ptr2piece s !! a = Some i ↔ ∃ p, M !! i = Some p ∧ ptr p = a;
  rep_ptr i p : M !! i = Some p → ptr p ≠ 0;
  rep_bins_length : length (bins s) = 20%nat;
  rep_bins k l i : bins s !! k = Some l → i ∈ l ↔ ∃ p, M !! i = Some p ∧ bin_num p = Z.of_nat k;
  rep_bins_nodup k l : bins s !! k = Some l → NoDup l;
  rep_bin_num i p : M !! i = Some p → bin_num p = -1 ∨ 0 ≤ bin_num p < 20;
  rep_recycled : recycled (pieces s) (recycle_piece_list s) R;
  rep_recycled_nodup : NoDup R;
  rep_recycled_free i : i ∈ R → M !! i = None;
}.

(** The parts of the state the private operations leave alone. *)
Definition same_outer (s s' : state) : Prop :=
  alignment s' = alignment s ∧ backend s' = backend s ∧
  total_memory_bytes s' = total_memory_bytes s ∧ mem_ptr2block s' = mem_ptr2block s.

#[global] Instance same_outer_preorder : PreOrder same_outer.
Proof. split; [done|]. unfold same_outer. intros ???. naive_solver congruence. Qed.

Lemma Rep_ptr_inj s M R i j p q :
  Rep s M R → M !! i = Some p → M !! j = Some q → ptr p = ptr q → i = j.
Proof.
  intros HR Hi Hj E.
  assert (ptr2piece s !! ptr p = Some i) as H1 by (apply (rep_marks _ _ _ HR); eauto).
  assert (ptr2piece s !! ptr p = Some j) as H2 by (apply (rep_marks _ _ _ HR); eauto).
  congruence.
Qed.

Lemma get_piece_Rep s M R i p : Rep s M R → M !! i = Some p → get_piece s i = Ret p.
Proof. intros HR Hi. unfold get_piece. by rewrite (rep_pieces _ _ _ HR _ _ Hi). Qed.

Lemma recycled_frame (ps ps' : list Piece) (head : option nat) (R : list nat) :
  (∀ i, i ∈ R → ps' !! i = ps !! i) → recycled ps head R → recycled ps' head R.
Proof.
  revert head. induction R as [|i R IH]; simpl; intros head Hf; [done|].
  intros (-> & p & Hp & HR). split; [done|]. exists p. rewrite Hf by left. split; [done|].
  apply IH; [|done]. intros j Hj. apply Hf. by right.
Qed.

(** A write to one piece that keeps its address, with the bins it needs. *)
Lemma Rep_update s s' M R i p p' :
  Rep s M R → M !! i = Some p → ptr p' = ptr p → (bin_num p' = -1 ∨ 0 ≤ bin_num p' < 20) →
  pieces s' = <[i := p']> (pieces s) → ptr2piece s' = ptr2piece s →
  recycle_piece_list s' = recycle_piece_list s → length (bins s') = 20%nat →
  (∀ k l, bins s' !! k = Some l → NoDup l ∧
     ∀ j, j ∈ l ↔ ∃ q, <[i := p']> M !! j = Some q ∧ bin_num q = Z.of_nat k) →
  Rep s' (<[i := p']> M) R.
Proof.
  intros HR Hi Hptr Hbin Hps Hmk Hrc Hlen Hbins. constructor; rewrite ?Hps, ?Hmk, ?Hrc.
  - intros j q. rewrite lookup_insert_Some. intros [[<- <-]|[Hne Hj]].
    + apply list_lookup_insert_eq, lookup_lt_is_Some. rewrite (rep_pieces _ _ _ HR _ _ Hi). eauto.
    + rewrite list_lookup_insert_ne by done. by apply (rep_pieces _ _ _ HR).
  - intros a j. rewrite (rep_marks _ _ _ HR). destruct (decide (i = j)) as [->|].
    + rewrite lookup_insert_eq, Hi. split; intros (q & [= <-] & E); eexists; (split; [done|congruence]).
    + by rewrite lookup_insert_ne.
  - intros j q. rewrite lookup_insert_Some.
    intros [[<- <-]|[Hne Hj]]; [rewrite Hptr|]; by eapply (rep_ptr _ _ _ HR).
  - done.
  - intros k l j Hk. exact (proj2 (Hbins k l Hk) j).
  - intros k l Hk. exact (proj1 (Hbins k l Hk)).
  - intros j q. rewrite lookup_insert_Some.
    intros [[<- <-]|[Hne Hj]]; [done|]. by eapply (rep_bin_num _ _ _ HR).
  - eapply recycled_frame; [|apply HR]. intros j Hj. apply list_lookup_insert_ne. intros ->.
    by rewrite (rep_recycled_free _ _ _ HR _ Hj) in Hi.
  - apply HR.
  - intros j Hj. rewrite lookup_insert_ne; [by apply (rep_recycled_free _ _ _ HR)|]. intros ->.
    by rewrite (rep_recycled_free _ _ _ HR _ Hj) in Hi.
Qed.

(** Writing a field other than the address and the bin number. *)
Lemma write_piece_Rep s M R i p (f : Piece → Piece) :
  Rep s M R → M !! i = Some p → ptr (f p) = ptr p → bin_num (f p) = bin_num p →
  ∃ s', write_piece s i f = Ret s' ∧ Rep s' (<[i := f p]> M) R ∧ same_outer s s' ∧
        pieces s' = <[i := f p]> (pieces s).
Proof.
  intros HR Hi Hptr Hbin. unfold write_piece. rewrite (get_piece_Rep _ _ _ _ _ HR Hi). simpl.
  eexists. split; [done|]. split; [|done].
  apply (Rep_update s _ M R i p); simpl; try done; try apply HR.
  - rewrite Hbin. by apply (rep_bin_num _ _ _ HR i).
  - intros k l Hk. split; [by apply (rep_bins_nodup _ _ _ HR k)|]. intros j.
    rewrite (rep_bins _ _ _ HR k l j Hk). destruct (decide (i = j)) as [->|].
    + rewrite lookup_insert_eq, Hi. split; intros (q & [= <-] & E); eexists; (split; [done|congruence]).
    + by rewrite lookup_insert_ne.
Qed.

(** The bins after [i] moved: bin [k] holds [l'], the others are unchanged. *)
Lemma bins_insert s M R i p' (k : nat) (l l' : list nat) :
  Rep s M R → bins s !! k = Some l → NoDup l' →
  (∀ j, j ∈ l' ↔ ∃ q, <[i := p']> M !! j = Some q ∧ bin_num q = Z.of_nat k) →
  (∀ k' l0, k' ≠ k → bins s !! k' = Some l0 → i ∉ l0 ∧ bin_num p' ≠ Z.of_nat k') →
  ∀ k' l0, <[k := l']> (bins s) !! k' = Some l0 → NoDup l0 ∧
    ∀ j, j ∈ l0 ↔ ∃ q, <[i := p']> M !! j = Some q ∧ bin_num q = Z.of_nat k'.
Proof.
  intros HR Hk Hnd Hl' Hother k' l0. destruct (decide (k' = k)) as [->|Hne].
  - rewrite list_lookup_insert_eq by (apply lookup_lt_is_Some; eauto). intros [= <-]. by split.
  - rewrite list_lookup_insert_ne by done. intros Hk'.
    split; [by apply (rep_bins_nodup _ _ _ HR k')|]. intros j.
    destruct (Hother _ _ Hne Hk') as [Hi Hb]. rewrite (rep_bins _ _ _ HR k' l0 j Hk').
    destruct (decide (i = j)) as [<-|Hij]; [|by rewrite lookup_insert_ne].
    rewrite lookup_insert_eq. rewrite (rep_bins _ _ _ HR k' l0 i Hk') in Hi. naive_solver.
Qed.

Lemma bin_at_Rep s M R (k : Z) :
  Rep s M R → 0 ≤ k < 20 → ∃ l, bin_at s k = Ret l ∧ bins s !! Z.to_nat k = Some l.
Proof.
  intros HR Hk. destruct (lookup_lt_is_Some_2 (bins s) (Z.to_nat k)) as [l Hl].
  { rewrite (rep_bins_length _ _ _ HR). lia. }
  exists l. split; [|done]. apply at_Ret. split; [lia|done].
Qed.

Lemma InsertPiece2Bin_Rep s M R i p :
  Rep s M R → M !! i = Some p → is_free p = true → bin_num p = -1 → 0 ≤ size p < u64_modulus →
  ∃ s', InsertPiece2Bin s i = Ret s' ∧
        Rep s' (<[i := set_bin_num (BinNum4BinSize (size p)) p]> M) R ∧ same_outer s s'.
Proof.
  intros HR Hi Hf Hb Hsz. pose proof (BinNum_range _ Hsz) as Hk.
  set (k := BinNum4BinSize (size p)) in *.
  unfold InsertPiece2Bin. rewrite (get_piece_Rep _ _ _ _ _ HR Hi). cbn [obind].
  rewrite Hf, Hb. cbn [andb Z.eqb CHECK obind kInvalidBinNum]. simpl (-1 =? kInvalidBinNum).
  unfold write_piece. rewrite (get_piece_Rep _ _ _ _ _ HR Hi). cbn [CHECK obind].
  fold k. destruct (bin_at_Rep _ _ _ k HR Hk) as (l & Hl & Hlk). unfold bin_at in *.
  change (bins (set_pieces _ s)) with (bins s). rewrite Hl. cbn [obind].
  change (pieces (set_pieces ?x s)) with x.
  assert (i ∉ l) as Hnil.
  { rewrite (rep_bins _ _ _ HR _ _ _ Hlk). intros (q & Hq & Eq). simplify_eq. lia. }
  destruct (bin_insert_perm (<[i:=set_bin_num k p]> (pieces s)) i (set_bin_num k p) l) as (l' & -> & Hperm).
  { intros j Hj. apply (rep_bins _ _ _ HR _ _ _ Hlk) in Hj as (q & Hq & Eq).
    exists q. assert (i ≠ j) as Hij by naive_solver lia.
    rewrite list_lookup_insert_ne by done. split; [by apply (rep_pieces _ _ _ HR)|].
    simpl. intros E. by apply Hij, (Rep_ptr_inj s M R i j p q). }
  eexists. split; [done|]. split; [|done].
  apply (Rep_update s _ M R i p); simpl; try done; [by right| |].
  - rewrite length_insert. apply HR.
  - apply (bins_insert s M R i _ (Z.to_nat k) l l'); [done|done| | |].
    + rewrite Hperm. constructor; [done|]. by apply (rep_bins_nodup _ _ _ HR (Z.to_nat k)).
    + intros j. rewrite Hperm, elem_of_cons, (rep_bins _ _ _ HR _ _ j Hlk).
      destruct (decide (i = j)) as [<-|Hij].
      * rewrite lookup_insert_eq. split; [|by left]. intros _. eexists. split; [done|]. simpl. lia.
      * rewrite lookup_insert_ne by done. naive_solver.
    + intros k' l0 Hne Hk'. simpl. split; [|lia].
      rewrite (rep_bins _ _ _ HR _ _ _ Hk'). intros (q & Hq & Eq). simplify_eq. lia.
Qed.

(** Taking a piece out of its bin: what both [RemovePieceFromBin] and the
    erasure in [FindPiece] leave behind. *)
Lemma unbin_Rep s M R i p l l' :
  Rep s M R → M !! i = Some p → 0 ≤ bin_num p < 20 → bins s !! Z.to_nat (bin_num p) = Some l →
  l ≡ₚ i :: l' →
  Rep (set_pieces (<[i := set_bin_num (-1) p]> (pieces s))
         (set_bins (<[Z.to_nat (bin_num p) := l']> (bins s)) s))
      (<[i := set_bin_num (-1) p]> M) R.
Proof.
  intros HR Hi Hb Hl Hperm.
  assert (NoDup (i :: l')) as [Hni Hnd]%NoDup_cons.
  { rewrite <- Hperm. by apply (rep_bins_nodup _ _ _ HR (Z.to_nat (bin_num p))). }
  apply (Rep_update s _ M R i p); simpl; try done; [by left| |].
  - rewrite length_insert. apply HR.
  - apply (bins_insert s M R i _ (Z.to_nat (bin_num p)) l l'); [done|done|done| |].
    + intros j. destruct (decide (i = j)) as [<-|Hij].
      * rewrite lookup_insert_eq. split; [done|]. intros (q & [= <-] & Eq). simpl in Eq. lia.
      * rewrite lookup_insert_ne by done. rewrite <- (rep_bins _ _ _ HR _ _ j Hl), Hperm, elem_of_cons.
        naive_solver.
    + intros k' l0 Hne Hk'. simpl. split; [|lia].
      rewrite (rep_bins _ _ _ HR _ _ _ Hk'). intros (q & Hq & Eq). simplify_eq. lia.
Qed.

Lemma RemovePieceFromBin_Rep s M R i p :
  Rep s M R → M !! i = Some p → is_free p = true → bin_num p ≠ -1 →
  ∃ s', RemovePieceFromBin s i = Ret s' ∧ Rep s' (<[i := set_bin_num (-1) p]> M) R ∧ same_outer s s'.
Proof.
  intros HR Hi Hf Hb. destruct (rep_bin_num _ _ _ HR _ _ Hi) as [|Hbr]; [done|].
  unfold RemovePieceFromBin. rewrite (get_piece_Rep _ _ _ _ _ HR Hi). cbn [obind].
  rewrite Hf. cbn [CHECK obind]. rewrite (proj2 (Z.eqb_neq _ _)) by done. cbn [negb CHECK obind].
  destruct (bin_at_Rep _ _ _ _ HR Hbr) as (l & -> & Hl). cbn [obind].
  destruct (bin_erase_perm (pieces s) i p l) as (l' & -> & Hperm).
  { by apply (rep_pieces _ _ _ HR). }
  { apply (rep_bins _ _ _ HR _ _ _ Hl). exists p. split; [done|lia]. }
  { intros j Hj. apply (rep_bins _ _ _ HR _ _ _ Hl) in Hj as (q & Hq & _). exists q.
    split; [by apply (rep_pieces _ _ _ HR)|]. intros E. by apply (Rep_ptr_inj s M R j i q p). }
  unfold write_piece, get_piece. simpl. rewrite (rep_pieces _ _ _ HR _ _ Hi). simpl.
  eexists. split; [done|]. split; [|done]. by apply (unbin_Rep s M R i p l l').
Qed.

(** A piece id that is neither live nor recycled. *)
Definition fresh_id (M : gmap nat Piece) (R : list nat) (n : nat) : Prop := M !! n = None ∧ n ∉ R.

Lemma AllocatePiece_Rep s M R :
  Rep s M R →
  ∃ n s' R', AllocatePiece s = Ret (n, s') ∧ Rep s' M R' ∧ same_outer s s' ∧
    fresh_id M R' n ∧ is_Some (pieces s' !! n).
Proof.
  intros HR. unfold AllocatePiece. pose proof (rep_recycled _ _ _ HR) as Hrec.
  destruct R as [|i R]; simpl in Hrec.
  - rewrite Hrec. eexists _, _, []. split; [done|].
    assert (M !! length (pieces s) = None) as Hnone.
    { destruct (M !! _) eqn:E; [|done]. apply (rep_pieces _ _ _ HR) in E.
      apply lookup_lt_Some in E. lia. }
    split; [|split; [done|]].
    + constructor; simpl; try apply HR; try done.
      intros i p Hi. apply lookup_app_l_Some. by apply (rep_pieces _ _ _ HR).
    + split; [split; [done|apply not_elem_of_nil]|]. simpl.
      rewrite lookup_app_r, Nat.sub_diag by lia. by eexists.
  - destruct Hrec as (Hh & p & Hp & Hrec). rewrite Hh. unfold get_piece. rewrite Hp. simpl.
    eexists _, _, R. split; [done|].
    pose proof (rep_recycled_nodup _ _ _ HR) as [Hni Hnd]%NoDup_cons.
    split; [|split; [done|split; [split; [|done]|simpl; eauto]]].
    + constructor; simpl; try apply HR; try done.
      intros j Hj. apply (rep_recycled_free _ _ _ HR). by right.
    + apply (rep_recycled_free _ _ _ HR). left.
Qed.

(** Writing a piece that is not live changes nothing that is represented. *)
Lemma write_fresh_Rep s M R n (f : Piece → Piece) p0 :
  Rep s M R → fresh_id M R n → pieces s !! n = Some p0 →
  ∃ s', write_piece s n f = Ret s' ∧ Rep s' M R ∧ same_outer s s' ∧ pieces s' !! n = Some (f p0).
Proof.
  intros HR [HM HnR] Hn. unfold write_piece, get_piece. rewrite Hn. simpl.
  eexists. split; [done|]. split; [|split; [done|]].
  - constructor; simpl; try apply HR.
    + intros i p Hi. rewrite list_lookup_insert_ne by congruence. by apply (rep_pieces _ _ _ HR).
    + eapply recycled_frame; [|apply HR]. intros j Hj. apply list_lookup_insert_ne. by intros ->.
  - simpl. apply list_lookup_insert_eq. by eapply lookup_lt_Some.
Qed.

(** A new free piece is put into its bin and into the address index. *)
Lemma add_piece_Rep s M R n p :
  Rep s M R → fresh_id M R n → pieces s !! n = Some p →
  is_free p = true → bin_num p = -1 → 0 ≤ size p < u64_modulus → ptr p ≠ 0 →
  (∀ j q, M !! j = Some q → ptr q ≠ ptr p) →
  ∃ s', (let* s1 := InsertPiece2Bin s n in MarkPiece s1 n) = Ret s' ∧
    Rep s' (<[n := set_bin_num (BinNum4BinSize (size p)) p]> M) R ∧ same_outer s s' ∧
    pieces s' !! n = Some (set_bin_num (BinNum4BinSize (size p)) p).
Proof.
  intros HR [HM HnR] Hn Hf Hb Hsz Hptr Hfresh. pose proof (BinNum_range _ Hsz) as Hk.
  set (k := BinNum4BinSize (size p)) in *. set (p' := set_bin_num k p).
  assert (n < length (pieces s))%nat as Hlt by (by eapply lookup_lt_Some).
  destruct (bin_at_Rep _ _ _ k HR Hk) as (l & Hl & Hlk).
  destruct (bin_insert_perm (<[n:=p']> (pieces s)) n p' l) as (l' & Hins & Hperm).
  { intros j Hj. apply (rep_bins _ _ _ HR _ _ _ Hlk) in Hj as (q & Hq & _). exists q.
    rewrite list_lookup_insert_ne by congruence. split; [by apply (rep_pieces _ _ _ HR)|]. by apply (Hfresh j). }
  assert (ptr2piece s !! ptr p = None) as Hmk.
  { destruct (ptr2piece s !! ptr p) eqn:E; [|done]. apply (rep_marks _ _ _ HR) in E as (q & Hq & E).
    by apply Hfresh in Hq. }
  assert (n ∉ l) as Hnl.
  { rewrite (rep_bins _ _ _ HR _ _ _ Hlk). intros (q & Hq & _). congruence. }
  exists (set_ptr2piece (<[ptr p := n]> (ptr2piece s))
           (set_bins (<[Z.to_nat k := l']> (bins s)) (set_pieces (<[n := p']> (pieces s)) s))).
  split; [|split; [|split; [done|]]].
  - unfold InsertPiece2Bin, write_piece, get_piece, MarkPiece. rewrite Hn. cbn [obind].
    rewrite Hf, Hb. simpl (true && (-1 =? kInvalidBinNum)). cbn [CHECK obind]. fold k. fold p'.
    unfold bin_at in *. change (bins (set_pieces _ s)) with (bins s). rewrite Hl. cbn [obind].
    change (pieces (set_pieces ?x s)) with x. rewrite Hins. cbn [obind]. unfold get_piece. simpl.
    rewrite list_lookup_insert_eq by done. simpl. rewrite (proj2 (Z.eqb_neq _ _)) by done. simpl.
    by rewrite Hmk.
  - constructor; simpl.
    + intros j q. rewrite lookup_insert_Some. intros [[<- <-]|[Hne Hj]].
      * by apply list_lookup_insert_eq.
      * rewrite list_lookup_insert_ne by done. by apply (rep_pieces _ _ _ HR).
    + intros a j. rewrite lookup_insert_Some, (rep_marks _ _ _ HR). split.
      * intros [[<- <-]|[Hne (q & Hq & Eq)]]; [exists p'; by rewrite lookup_insert_eq|].
        exists q. rewrite lookup_insert_ne by congruence. done.
      * intros (q & Hq & Eq). apply lookup_insert_Some in Hq as [[<- <-]|[Hne Hq]]; [by left|].
        right. split; [|by exists q]. intros E. by apply (Hfresh j q Hq); congruence.
    + intros j q. rewrite lookup_insert_Some. intros [[<- <-]|[Hne Hj]]; [done|]. by eapply (rep_ptr _ _ _ HR).
    + rewrite length_insert. apply HR.
    + intros k' l0 j Hk'. destruct (decide (k' = Z.to_nat k)) as [->|Hne].
      * rewrite list_lookup_insert_eq in Hk' by (apply lookup_lt_is_Some; eauto). injection Hk' as <-.
        rewrite Hperm, elem_of_cons, (rep_bins _ _ _ HR _ _ j Hlk).
        destruct (decide (n = j)) as [<-|Hij].
        -- rewrite lookup_insert_eq. split; [|by left]. intros _. eexists. split; [done|]. simpl. lia.
        -- rewrite lookup_insert_ne by done. naive_solver.
      * rewrite list_lookup_insert_ne in Hk' by done. rewrite (rep_bins _ _ _ HR _ _ j Hk').
        destruct (decide (n = j)) as [<-|Hij]; [|by rewrite lookup_insert_ne].
        rewrite lookup_insert_eq, HM. split; [naive_solver|]. intros (q & [= <-] & Eq). simpl in Eq. lia.
    + intros k' l0 Hk'. destruct (decide (k' = Z.to_nat k)) as [->|Hne].
      * rewrite list_lookup_insert_eq in Hk' by (apply lookup_lt_is_Some; eauto). injection Hk' as <-.
        rewrite Hperm. constructor; [done|]. by apply (rep_bins_nodup _ _ _ HR (Z.to_nat k)).
      * rewrite list_lookup_insert_ne in Hk' by done. by apply (rep_bins_nodup _ _ _ HR k').
    + intros j q. rewrite lookup_insert_Some. intros [[<- <-]|[Hne Hj]]; [by right|].
      by eapply (rep_bin_num _ _ _ HR).
    + eapply recycled_frame; [|apply HR]. intros j Hj. apply list_lookup_insert_ne. by intros ->.
    + apply HR.
    + intros j Hj. rewrite lookup_insert_ne by (by intros ->). by apply (rep_recycled_free _ _ _ HR).
  - simpl. by apply list_lookup_insert_eq.
Qed.

(** A piece outside the bins is unmarked and recycled. *)
Lemma drop_piece_Rep s M R i p :
  Rep s M R → M !! i = Some p → bin_num p = -1 →
  ∃ s', (let* s1 := UnMarkPiece s i in DeallocatePiece s1 i) = Ret s' ∧
    Rep s' (delete i M) (i :: R) ∧ same_outer s s' ∧ length (pieces s') = length (pieces s).
Proof.
  intros HR Hi Hb. pose proof (rep_pieces _ _ _ HR _ _ Hi) as Hp.
  pose proof (rep_ptr _ _ _ HR _ _ Hi) as Hptr.
  assert (ptr2piece s !! ptr p = Some i) as Hmk by (apply (rep_marks _ _ _ HR); eauto).
  assert (i ∉ R) as HiR by (intros Hin; apply (rep_recycled_free _ _ _ HR) in Hin; congruence).
  unfold UnMarkPiece, get_piece. rewrite Hp. cbn [obind].
  rewrite (proj2 (Z.eqb_neq _ _)) by done. cbn [negb CHECK obind]. rewrite Hmk. cbn [obind].
  unfold DeallocatePiece, write_piece, get_piece. simpl. rewrite Hp. simpl.
  eexists. split; [done|]. split; [|split; [done|apply length_insert]].
  constructor; simpl.
  - intros j q. rewrite lookup_delete_Some. intros [Hne Hj].
    rewrite list_lookup_insert_ne by done. by apply (rep_pieces _ _ _ HR).
  - intros a j. rewrite lookup_delete_Some, (rep_marks _ _ _ HR). split.
    + intros [Hne (q & Hq & Eq)]. exists q. split; [|done]. rewrite lookup_delete_ne; [done|].
      intros ->. congruence.
    + intros (q & Hq & Eq). apply lookup_delete_Some in Hq as [Hne Hq].
      split; [|by exists q]. intros E. apply Hne. apply (Rep_ptr_inj s M R i j p q); [done..|congruence].
  - intros j q. rewrite lookup_delete_Some. intros [_ Hj]. by eapply (rep_ptr _ _ _ HR).
  - apply HR.
  - intros k l j Hk. rewrite (rep_bins _ _ _ HR _ _ _ Hk). destruct (decide (i = j)) as [<-|Hij].
    + rewrite lookup_delete_eq. split; [|naive_solver]. intros (q & Hq & Eq). simplify_eq. lia.
    + by rewrite lookup_delete_ne.
  - apply HR.
  - intros j q. rewrite lookup_delete_Some. intros [_ Hj]. by eapply (rep_bin_num _ _ _ HR).
  - split; [done|]. eexists. split; [apply list_lookup_insert_eq; by eapply lookup_lt_Some|]. simpl.
    eapply recycled_frame; [|apply HR]. intros j Hj. apply list_lookup_insert_ne. by intros ->.
  - constructor; [done|apply HR].
  - intros j. rewrite elem_of_cons. intros [->|Hj]; [apply lookup_delete_eq|].
    rewrite lookup_delete_None. right. by apply (rep_recycled_free _ _ _ HR).
Qed.
End rep.
