(* ===== verification/BinAllocatorSpec.v ===== *)
(** * The allocator: memory safety

    The well-formedness of the map of pieces that a [BinAllocator] represents:
    the pieces of a block tile it, neighbours are linked, free neighbours are
    merged, and no two pieces overlap.  Every public operation preserves it and
    does what the contract of an allocator says. *)
From S2P Require Import Prelude Util BinAllocator BinAllocatorRep.

(** ** Well-formed maps of pieces *)

Definition inside (p : Piece) (b : Block) : Prop :=
  block_ptr b ≤ ptr p ∧ ptr p + size p ≤ block_ptr b + block_size b.

(** [X] lists free pieces that are being worked on: they are out of their bins
    and may have free neighbours. *)
Record wf (al : Z) (blocks : gmap Z Block) (X : list nat) (M : gmap nat Piece) : Prop := {
  wf_size i p : M !! i = Some p →
    0 < size p ∧ (al | size p) ∧ 0 < ptr p ∧ ptr p + size p < u64_modulus;
  wf_next i p j : M !! i = Some p → next p = Some j →
    ∃ q, M !! j = Some q ∧ prev q = Some i ∧ ptr q = ptr p + size p;
  wf_prev i p j : M !! i = Some p → prev p = Some j → ∃ q, M !! j = Some q ∧ next q = Some i;
  wf_bin i p : M !! i = Some p →
    bin_num p = if is_free p && bool_decide (i ∉ X) then BinNum4BinSize (size p) else -1;
  wf_coalesced i p j q : M !! i = Some p → next p = Some j → M !! j = Some q →
    i ∉ X → j ∉ X → is_free p = true → is_free q = true → False;
  wf_disjoint i j p q : M !! i = Some p → M !! j = Some q → i ≠ j →
    ptr p + size p ≤ ptr q ∨ ptr q + size q ≤ ptr p;
  wf_block i p : M !! i = Some p → ∃ b, blocks !! block_ptr b = Some b ∧ inside p b ∧
    (prev p = None ↔ ptr p = block_ptr b) ∧
    (next p = None ↔ ptr p + size p = block_ptr b + block_size b);
  wf_blocks a b : blocks !! a = Some b →
    block_ptr b = a ∧ 0 < block_size b < u64_modulus ∧ ∃ p, M !! start_piece b = Some p ∧ ptr p = a;
  wf_blocks_disjoint a a' b b' : blocks !! a = Some b → blocks !! a' = Some b' → a ≠ a' →
    a + block_size b ≤ a' ∨ a' + block_size b' ≤ a;
}.

(** The block a piece lies in is determined by any of its addresses. *)
Lemma block_unique al blocks X M (b b' : Block) (a : Z) :
  wf al blocks X M → blocks !! block_ptr b = Some b → blocks !! block_ptr b' = Some b' →
  block_ptr b ≤ a < block_ptr b + block_size b →
  block_ptr b' ≤ a < block_ptr b' + block_size b' → b = b'.
Proof.
  intros Hwf Hb Hb' H1 H2. destruct (decide (block_ptr b = block_ptr b')) as [E|Hne].
  - rewrite E in Hb. congruence.
  - pose proof (wf_blocks_disjoint _ _ _ _ Hwf _ _ _ _ Hb Hb' Hne). lia.
Qed.

(** Changing the free flag and the bin of one piece; its size, address and links
    stay. *)
Lemma wf_flags al blocks X X' M i p p' :
  wf al blocks X M → M !! i = Some p →
  size p' = size p → ptr p' = ptr p → prev p' = prev p → next p' = next p →
  bin_num p' = (if is_free p' && bool_decide (i ∉ X') then BinNum4BinSize (size p') else -1) →
  (∀ j, j ≠ i → j ∈ X' ↔ j ∈ X) →
  (i ∈ X' ∨ is_free p' = false ∨
     (∀ j q, next p = Some j → M !! j = Some q → is_free q = false) ∧
     (∀ j q, prev p = Some j → M !! j = Some q → is_free q = false)) →
  wf al blocks X' (<[i := p']> M).
Proof.
  intros Hwf Hi Hsz Hptr Hprev Hnext Hbin HX Hco.
  assert (∀ j q, <[i := p']> M !! j = Some q → ∃ q0, M !! j = Some q0 ∧ size q = size q0 ∧
            ptr q = ptr q0 ∧ prev q = prev q0 ∧ next q = next q0 ∧ (j = i ∧ q = p' ∨ j ≠ i ∧ q = q0)) as Hback.
  { intros j q. rewrite lookup_insert_Some. intros [[<- <-]|[Hne Hj]]; [exists p|exists q]; naive_solver. }
  assert (∀ j q0, M !! j = Some q0 → ∃ q, <[i := p']> M !! j = Some q ∧ size q = size q0 ∧
            ptr q = ptr q0 ∧ prev q = prev q0 ∧ next q = next q0) as Hforw.
  { intros j q0 Hj. destruct (decide (i = j)) as [<-|Hne].
    - exists p'. rewrite lookup_insert_eq. simplify_eq. done.
    - exists q0. by rewrite lookup_insert_ne. }
  constructor.
  - intros j q (q0 & Hj & -> & -> & _)%Hback. by apply (wf_size _ _ _ _ Hwf j).
  - intros j q k (q0 & Hj & E1 & E2 & _ & E4 & _)%Hback Hk. rewrite E4 in Hk.
    destruct (wf_next _ _ _ _ Hwf _ _ _ Hj Hk) as (r & Hr & Hp & Ha).
    destruct (Hforw _ _ Hr) as (r' & Hr' & F1 & F2 & F3 & F4).
    exists r'. split_and!; [done|congruence|lia].
  - intros j q k (q0 & Hj & _ & _ & E3 & _)%Hback Hk. rewrite E3 in Hk.
    destruct (wf_prev _ _ _ _ Hwf _ _ _ Hj Hk) as (r & Hr & Hp).
    destruct (Hforw _ _ Hr) as (r' & Hr' & F1 & F2 & F3 & F4).
    exists r'. split; [done|congruence].
  - intros j q (q0 & Hj & _ & _ & _ & _ & [[-> ->]|[Hne ->]])%Hback; [done|].
    rewrite (wf_bin _ _ _ _ Hwf _ _ Hj). by rewrite (bool_decide_ext _ _ (not_iff_compat (HX j Hne))).
  - intros j q k r (q0 & Hj & _ & _ & _ & E4 & Hjc)%Hback Hk (r0 & Hr & _ & _ & E3 & _ & Hkc)%Hback HjX HkX Hfq Hfr.
    rewrite E4 in Hk. pose proof (wf_next _ _ _ _ Hwf _ _ _ Hj Hk) as (r1 & Hr1 & Hpr & Har).
    pose proof (wf_size _ _ _ _ Hwf _ _ Hj) as Hsj.
    assert (r1 = r0) as -> by congruence.
    destruct Hjc as [[-> ->]|[Hnej ->]], Hkc as [[-> ->]|[Hnek ->]].
    + assert (q0 = r0) as -> by congruence. lia.
    + assert (q0 = p) as -> by congruence. destruct Hco as [?|[?|[Hn _]]]; [done|congruence|].
      specialize (Hn k r0 Hk Hr). congruence.
    + assert (r0 = p) as -> by congruence. destruct Hco as [?|[?|[_ Hp]]]; [done|congruence|].
      specialize (Hp j q0 Hpr Hj). congruence.
    + apply (wf_coalesced _ _ _ _ Hwf j q0 k r0); try done; rewrite <- HX; done.
  - intros j k q r (q0 & Hj & -> & -> & _)%Hback (r0 & Hr & -> & -> & _)%Hback Hne.
    by apply (wf_disjoint _ _ _ _ Hwf j k).
  - intros j q (q0 & Hj & E1 & E2 & E3 & E4 & _)%Hback.
    destruct (wf_block _ _ _ _ Hwf _ _ Hj) as (b & Hb & Hin & Hp & Hn). exists b.
    unfold inside. rewrite E1, E2, E3, E4. done.
  - intros a b Hb. destruct (wf_blocks _ _ _ _ Hwf _ _ Hb) as (Ea & Hbs & q & Hq & Eq).
    split; [done|]. split; [done|]. destruct (Hforw _ _ Hq) as (q' & Hq' & _ & E & _). exists q'. split; [done|lia].
  - apply Hwf.
Qed.

(** The neighbour whose [prev] is redirected when a piece is split or merged. *)
Definition redirect (o : option nat) (v : nat) (x : nat) (q : Piece) : Piece :=
  set_prev (if decide (o = Some x) then Some v else prev q) q.

(** *** Two free neighbours [l] and [r] become one piece *)

Section merge.
Context (al : Z) (blocks : gmap Z Block) (X X' : list nat) (M M' : gmap nat Piece).
Context (l r : nat) (pl pr : Piece).
Context (Hwf : wf al blocks X M) (Hl : M !! l = Some pl) (Hr : M !! r = Some pr).
Context (Hlr : next pl = Some r) (Hfl : is_free pl = true) (Hfr : is_free pr = true).
Context (HlX : l ∈ X) (HrX : r ∈ X) (HX : ∀ j, j ≠ r → j ∈ X' ↔ j ∈ X).
Let pl' := set_next (next pr) (set_size (size pl + size pr) pl).
Context (Hl' : M' !! l = Some pl') (Hr' : M' !! r = None).
Context (Hx' : ∀ x, x ≠ l → x ≠ r → M' !! x = redirect (next pr) l x <$> M !! x).

Lemma merge_adjacent : prev pr = Some l ∧ ptr pr = ptr pl + size pl ∧ l ≠ r.
Proof.
  clear - Hwf Hl Hr Hlr.
  destruct (wf_next _ _ _ _ Hwf _ _ _ Hl Hlr) as (pr0 & E & Hprr & Hadj).
  assert (pr0 = pr) as -> by congruence. split_and!; [done|done|].
  intros ->. pose proof (wf_size _ _ _ _ Hwf _ _ Hr). assert (pl = pr) as -> by congruence. lia.
Qed.

Lemma merge_back x q' : M' !! x = Some q' → x ≠ r ∧ ∃ q, M !! x = Some q ∧
  (x = l ∧ q = pl ∧ q' = pl' ∨ x ≠ l ∧ q' = redirect (next pr) l x q).
Proof.
  intros Hx. destruct (decide (x = r)) as [->|Hxr]; [congruence|]. split; [done|].
  destruct (decide (x = l)) as [->|Hxl]; [exists pl; naive_solver congruence|].
  rewrite Hx' in Hx by done. apply fmap_Some in Hx as (q & Hq & ->). eauto.
Qed.

Lemma merge_forward x q :
  M !! x = Some q → x ≠ r → x ≠ l → M' !! x = Some (redirect (next pr) l x q).
Proof. intros Hq ??. rewrite Hx' by done. by rewrite Hq. Qed.

(** The piece after [r] is neither of the two. *)
Lemma merge_after x q :
  next pr = Some x → M !! x = Some q →
  x ≠ l ∧ x ≠ r ∧ prev q = Some r ∧ ptr q = ptr pr + size pr.
Proof.
  clear - Hwf Hl Hr Hlr.
  intros Hnx Hq. destruct (wf_next _ _ _ _ Hwf _ _ _ Hr Hnx) as (q0 & Hq0 & Hp & Ha).
  pose proof merge_adjacent as (_ & Hadj & _).
  pose proof (wf_size _ _ _ _ Hwf _ _ Hl). pose proof (wf_size _ _ _ _ Hwf _ _ Hr).
  assert (q0 = q) as -> by congruence. split_and!; [| |done|done]; intros ->.
  - assert (q = pl) as -> by congruence. lia.
  - assert (q = pr) as -> by congruence. lia.
Qed.

Lemma merge_wf_next x q' j :
  M' !! x = Some q' → next q' = Some j →
  ∃ q, M' !! j = Some q ∧ prev q = Some x ∧ ptr q = ptr q' + size q'.
Proof.
  pose proof merge_adjacent as (Hprr & Hadj & Hne).
  intros (Hxr & q & Hq & [(-> & -> & ->)|(Hxl & ->)])%merge_back Hj; simpl in *.
  - destruct (wf_next _ _ _ _ Hwf _ _ _ Hr Hj) as (qj & Hqj & Hpj & Haj).
    destruct (merge_after _ _ Hj Hqj) as (? & ? & _ & _). exists (redirect (next pr) l j qj).
    split; [by apply merge_forward|]. unfold redirect. rewrite decide_True by done. simpl.
    split; [done|lia].
  - destruct (wf_next _ _ _ _ Hwf _ _ _ Hq Hj) as (qj & Hqj & Hpj & Haj).
    assert (j ≠ r) by (intros ->; congruence).
    destruct (decide (j = l)) as [->|Hjl].
    + exists pl'. assert (qj = pl) as -> by congruence. done.
    + exists (redirect (next pr) l j qj). split; [by apply merge_forward|]. unfold redirect.
      rewrite decide_False; [done|]. intros Hnj.
      destruct (merge_after _ _ Hnj Hqj) as (_ & _ & E & _). congruence.
Qed.

Lemma merge_wf_prev x q' j :
  M' !! x = Some q' → prev q' = Some j → ∃ q, M' !! j = Some q ∧ next q = Some x.
Proof.
  intros (Hxr & q & Hq & [(-> & -> & ->)|(Hxl & ->)])%merge_back Hj; simpl in *.
  - destruct (wf_prev _ _ _ _ Hwf _ _ _ Hl Hj) as (qj & Hqj & Hnj).
    assert (j ≠ r).
    { intros ->. assert (qj = pr) as -> by congruence. by destruct (merge_after l pl Hnj Hl). }
    assert (j ≠ l) by (intros ->; congruence).
    exists (redirect (next pr) l j qj). split; [by apply merge_forward|done].
  - destruct (decide (next pr = Some x)) as [Hnx|Hnx].
    + injection Hj as <-. exists pl'. by split.
    + destruct (wf_prev _ _ _ _ Hwf _ _ _ Hq Hj) as (qj & Hqj & Hnj).
      assert (j ≠ r) by (intros ->; congruence).
      destruct (decide (j = l)) as [->|Hjl]; [congruence|].
      exists (redirect (next pr) l j qj). split; [by apply merge_forward|done].
Qed.

Lemma merge_wf_disjoint x j q' q'' :
  M' !! x = Some q' → M' !! j = Some q'' → x ≠ j →
  ptr q' + size q' ≤ ptr q'' ∨ ptr q'' + size q'' ≤ ptr q'.
Proof.
  pose proof merge_adjacent as (_ & Hadj & _).
  intros (Hxr & q & Hq & Hqc)%merge_back (Hjr & qj & Hqj & Hjc)%merge_back Hne.
  pose proof (wf_size _ _ _ _ Hwf _ _ Hq). pose proof (wf_size _ _ _ _ Hwf _ _ Hqj).
  pose proof (wf_disjoint _ _ _ _ Hwf _ _ _ _ Hq Hqj Hne).
  pose proof (wf_disjoint _ _ _ _ Hwf _ _ _ _ Hq Hr Hxr).
  pose proof (wf_disjoint _ _ _ _ Hwf _ _ _ _ Hqj Hr Hjr).
  destruct Hqc as [(-> & -> & ->)|(Hxl & ->)], Hjc as [(-> & -> & ->)|(Hjl & ->)]; simpl in *;
    try done; lia.
Qed.

Lemma merge_wf_block x q' :
  M' !! x = Some q' → ∃ b, blocks !! block_ptr b = Some b ∧ inside q' b ∧
    (prev q' = None ↔ ptr q' = block_ptr b) ∧
    (next q' = None ↔ ptr q' + size q' = block_ptr b + block_size b).
Proof.
  pose proof merge_adjacent as (_ & Hadj & _). pose proof (wf_size _ _ _ _ Hwf _ _ Hr).
  intros (Hxr & q & Hq & [(-> & -> & ->)|(Hxl & ->)])%merge_back; simpl.
  - destruct (wf_block _ _ _ _ Hwf _ _ Hl) as (b & Hb & Hin & Hp & Hn).
    destruct (wf_block _ _ _ _ Hwf _ _ Hr) as (b' & Hb' & Hin' & Hp' & Hn').
    unfold inside in *. simpl. pose proof (wf_size _ _ _ _ Hwf _ _ Hl).
    assert (ptr pl + size pl ≠ block_ptr b + block_size b) by (rewrite <- Hn; congruence).
    assert (b = b') as <- by (apply (block_unique _ _ _ _ b b' (ptr pr) Hwf); lia || done).
    exists b. split_and!; [done|lia|lia|done|].
    split; [intros E; apply Hn' in E; lia|]. intros E. apply Hn'. lia.
  - destruct (wf_block _ _ _ _ Hwf _ _ Hq) as (b & Hb & Hin & Hp & Hn). exists b.
    split; [done|]. split; [exact Hin|]. split; [|done].
    destruct (decide (next pr = Some x)) as [Hnx|]; [|done]. split; [done|].
    intros E. apply Hp in E. destruct (merge_after _ _ Hnx Hq) as (_ & _ & E' & _). congruence.
Qed.

Lemma merge_wf_blocks a b :
  blocks !! a = Some b →
  block_ptr b = a ∧ 0 < block_size b < u64_modulus ∧ ∃ p, M' !! start_piece b = Some p ∧ ptr p = a.
Proof.
  pose proof merge_adjacent as (Hprr & Hadj & _). pose proof (wf_size _ _ _ _ Hwf _ _ Hr).
  intros Hb. destruct (wf_blocks _ _ _ _ Hwf _ _ Hb) as (Ea & Hbs & q & Hq & Eq).
  split; [done|]. split; [done|].
  assert (start_piece b ≠ r).
  { intros E. rewrite E in Hq. assert (q = pr) as -> by congruence.
    destruct (wf_block _ _ _ _ Hwf _ _ Hr) as (b' & Hb' & Hin' & Hp' & _). unfold inside in *.
    rewrite <- Ea in Hb.
    assert (b' = b) as -> by (apply (block_unique _ _ _ _ b' b (ptr pr) Hwf); lia || done).
    assert (prev pr = None) by (apply Hp'; lia). congruence. }
  destruct (decide (start_piece b = l)) as [E|Hne].
  - exists pl'. rewrite E in *. split; [done|]. simpl. congruence.
  - exists (redirect (next pr) l (start_piece b) q). split; [by apply merge_forward|done].
Qed.

Lemma wf_merge : wf al blocks X' M'.
Proof.
  pose proof merge_adjacent as (_ & Hadj & _).
  pose proof (wf_size _ _ _ _ Hwf _ _ Hl) as (Hsl & Hal & Hpl0 & Hpl1).
  pose proof (wf_size _ _ _ _ Hwf _ _ Hr) as (Hsr & Har & Hpr0 & Hpr1).
  constructor; [|exact merge_wf_next|exact merge_wf_prev| | |exact merge_wf_disjoint
               |exact merge_wf_block|exact merge_wf_blocks|apply Hwf].
  - intros x q' (Hxr & q & Hq & [(-> & -> & ->)|(Hxl & ->)])%merge_back; simpl.
    + split_and!; [lia|by apply Z.divide_add_r|lia|lia].
    + by apply (wf_size _ _ _ _ Hwf x).
  - intros x q' (Hxr & q & Hq & [(-> & -> & ->)|(Hxl & ->)])%merge_back; simpl.
    + rewrite (wf_bin _ _ _ _ Hwf _ _ Hl), Hfl, !bool_decide_false by (rewrite ?HX by done; tauto). done.
    + rewrite (wf_bin _ _ _ _ Hwf _ _ Hq). by rewrite (bool_decide_ext _ _ (not_iff_compat (HX x Hxr))).
  - intros x q' j q'' (Hxr & q & Hq & Hqc)%merge_back Hj (Hjr & qj & Hqj & Hjc)%merge_back HxX HjX Hf1 Hf2.
    rewrite HX in HxX, HjX by done.
    destruct Hqc as [(-> & _)|(Hxl & ->)]; [done|]. destruct Hjc as [(-> & _)|(Hjl & ->)]; [done|].
    by apply (wf_coalesced _ _ _ _ Hwf x q j qj).
Qed.
End merge.

(** *** A used piece [i] gives its tail to a new free piece [n] *)

Section split.
Context (al : Z) (blocks : gmap Z Block) (M M' : gmap nat Piece) (i n : nat) (p : Piece) (a : Z).
Context (Hwf : wf al blocks [] M) (Hi : M !! i = Some p) (Hused : is_free p = false).
Context (Hn : M !! n = None) (Ha : 0 < a < size p) (Hal : (al | a)).
Context (Hafter : ∀ j q, next p = Some j → M !! j = Some q → is_free q = false).
Let p1 := set_next (Some n) (set_size a p).
Let q1 := mkPiece (size p - a) (ptr p + a) true (Some i) (next p) (BinNum4BinSize (size p - a)).
Context (Hi' : M' !! i = Some p1) (Hn' : M' !! n = Some q1).
Context (Hx' : ∀ x, x ≠ i → x ≠ n → M' !! x = redirect (next p) n x <$> M !! x).

Lemma split_back x q' : M' !! x = Some q' →
  (x = i ∧ q' = p1) ∨ (x = n ∧ q' = q1) ∨
  (x ≠ i ∧ x ≠ n ∧ ∃ q, M !! x = Some q ∧ q' = redirect (next p) n x q).
Proof.
  intros Hx. destruct (decide (x = i)) as [->|Hxi]; [left; split; [done|congruence]|].
  destruct (decide (x = n)) as [->|Hxn]; [right; left; split; [done|congruence]|].
  right; right. rewrite Hx' in Hx by done. apply fmap_Some in Hx as (q & Hq & ->). eauto.
Qed.

Lemma split_forward x q : M !! x = Some q → x ≠ i → M' !! x = Some (redirect (next p) n x q).
Proof. intros Hq ?. rewrite Hx' by congruence. by rewrite Hq. Qed.

Lemma split_ne : i ≠ n ∧ ∀ j, next p = Some j → j ≠ i.
Proof.
  split; [congruence|]. intros j Hj ->.
  destruct (wf_next _ _ _ _ Hwf _ _ _ Hi Hj) as (q & Hq & _ & E).
  assert (q = p) as -> by congruence. lia.
Qed.

Lemma split_wf_next x q' j :
  M' !! x = Some q' → next q' = Some j →
  ∃ q, M' !! j = Some q ∧ prev q = Some x ∧ ptr q = ptr q' + size q'.
Proof.
  pose proof split_ne as [Hin Hnext].
  intros [(-> & ->)|[(-> & ->)|(Hxi & Hxn & q & Hq & ->)]]%split_back Hj; simpl in *.
  - injection Hj as <-. by exists q1.
  - destruct (wf_next _ _ _ _ Hwf _ _ _ Hi Hj) as (qj & Hqj & Hpj & Haj).
    exists (redirect (next p) n j qj). split; [apply split_forward; auto|]. unfold redirect.
    rewrite decide_True by done. simpl. split; [done|lia].
  - destruct (wf_next _ _ _ _ Hwf _ _ _ Hq Hj) as (qj & Hqj & Hpj & Haj).
    destruct (decide (j = i)) as [->|Hji].
    + exists p1. assert (qj = p) as -> by congruence. done.
    + exists (redirect (next p) n j qj). split; [by apply split_forward|]. unfold redirect.
      rewrite decide_False; [done|]. intros Hnj.
      destruct (wf_next _ _ _ _ Hwf _ _ _ Hi Hnj) as (q2 & Hq2 & E & _). congruence.
Qed.

Lemma split_wf_prev x q' j :
  M' !! x = Some q' → prev q' = Some j → ∃ q, M' !! j = Some q ∧ next q = Some x.
Proof.
  pose proof split_ne as [Hin Hnext].
  intros [(-> & ->)|[(-> & ->)|(Hxi & Hxn & q & Hq & ->)]]%split_back Hj; simpl in *.
  - destruct (wf_prev _ _ _ _ Hwf _ _ _ Hi Hj) as (qj & Hqj & Hnj).
    destruct (decide (j = i)) as [->|Hji].
    { exfalso. apply (Hnext i); [congruence|done]. }
    exists (redirect (next p) n j qj). split; [by apply split_forward|done].
  - injection Hj as <-. by exists p1.
  - destruct (decide (next p = Some x)) as [Hnx|Hnx].
    + injection Hj as <-. by exists q1.
    + destruct (wf_prev _ _ _ _ Hwf _ _ _ Hq Hj) as (qj & Hqj & Hnj).
      destruct (decide (j = i)) as [->|Hji]; [congruence|].
      exists (redirect (next p) n j qj). split; [by apply split_forward|done].
Qed.

Lemma split_wf_disjoint x j q' q'' :
  M' !! x = Some q' → M' !! j = Some q'' → x ≠ j →
  ptr q' + size q' ≤ ptr q'' ∨ ptr q'' + size q'' ≤ ptr q'.
Proof.
  intros Hx%split_back Hj%split_back Hne.
  destruct Hx as [(-> & ->)|[(-> & ->)|(Hxi & Hxn & q & Hq & ->)]],
    Hj as [(-> & ->)|[(-> & ->)|(Hji & Hjn & qj & Hqj & ->)]]; simpl; try done; try lia.
  - pose proof (wf_disjoint _ _ _ _ Hwf _ _ _ _ Hi Hqj Hne). lia.
  - pose proof (wf_disjoint _ _ _ _ Hwf _ _ _ _ Hi Hqj (not_eq_sym Hji)). lia.
  - pose proof (wf_disjoint _ _ _ _ Hwf _ _ _ _ Hq Hi Hxi). lia.
  - pose proof (wf_disjoint _ _ _ _ Hwf _ _ _ _ Hq Hi Hxi). lia.
  - exact (wf_disjoint _ _ _ _ Hwf _ _ _ _ Hq Hqj Hne).
Qed.

Lemma split_wf_block x q' :
  M' !! x = Some q' → ∃ b, blocks !! block_ptr b = Some b ∧ inside q' b ∧
    (prev q' = None ↔ ptr q' = block_ptr b) ∧
    (next q' = None ↔ ptr q' + size q' = block_ptr b + block_size b).
Proof.
  destruct (wf_block _ _ _ _ Hwf _ _ Hi) as (b & Hb & Hin & Hp & Hnx).
  intros [(-> & ->)|[(-> & ->)|(Hxi & Hxn & q & Hq & ->)]]%split_back; simpl.
  - exists b. unfold inside in *. simpl. split_and!; [done|lia|lia|done|]. split; [done|lia].
  - exists b. unfold inside in *. simpl. split_and!; [done|lia|lia| |].
    + split; [done|lia].
    + rewrite Hnx. lia.
  - destruct (wf_block _ _ _ _ Hwf _ _ Hq) as (b' & Hb' & Hin' & Hp' & Hn2). exists b'.
    split; [done|]. split; [exact Hin'|]. split; [|done].
    destruct (decide (next p = Some x)) as [Hpx|]; [|done]. split; [done|]. intros E. apply Hp' in E.
    destruct (wf_next _ _ _ _ Hwf _ _ _ Hi Hpx) as (q2 & Hq2 & E2 & _). congruence.
Qed.

Lemma wf_split : wf al blocks [] M'.
Proof.
  pose proof split_ne as [Hin Hnext].
  pose proof (wf_size _ _ _ _ Hwf _ _ Hi) as (Hsi & Hai & Hpi0 & Hpi1).
  constructor; [|exact split_wf_next|exact split_wf_prev| | |exact split_wf_disjoint
               |exact split_wf_block| |apply Hwf].
  - intros x q' [(-> & ->)|[(-> & ->)|(Hxi & Hxn & q & Hq & ->)]]%split_back; simpl.
    + split_and!; [lia|done|lia|lia].
    + split_and!; [lia|by apply Z.divide_sub_r|lia|lia].
    + by apply (wf_size _ _ _ _ Hwf x).
  - intros x q' [(-> & ->)|[(-> & ->)|(Hxi & Hxn & q & Hq & ->)]]%split_back; simpl; [|done|].
    + by rewrite (wf_bin _ _ _ _ Hwf _ _ Hi), Hused.
    + exact (wf_bin _ _ _ _ Hwf _ _ Hq).
  - intros x q' j q'' Hx%split_back Hj Hj'%split_back _ _ Hf1 Hf2.
    destruct Hx as [(-> & ->)|[(-> & ->)|(Hxi & Hxn & q & Hq & ->)]]; simpl in *; [congruence| |].
    + destruct Hj' as [(-> & ->)|[(-> & ->)|(Hji & Hjn & qj & Hqj & ->)]]; simpl in *; [congruence| |].
      * destruct (wf_next _ _ _ _ Hwf _ _ _ Hi Hj) as (q2 & Hq2 & _). congruence.
      * specialize (Hafter _ _ Hj Hqj). congruence.
    + destruct Hj' as [(-> & ->)|[(-> & ->)|(Hji & Hjn & qj & Hqj & ->)]]; simpl in *; [congruence| |].
      * destruct (wf_next _ _ _ _ Hwf _ _ _ Hq Hj) as (q2 & Hq2 & _). congruence.
      * by eapply (wf_coalesced _ _ _ _ Hwf x q j qj); eauto using not_elem_of_nil.
  - intros c b Hb. destruct (wf_blocks _ _ _ _ Hwf _ _ Hb) as (Ea & Hbs & q & Hq & Eq).
    split; [done|]. split; [done|]. destruct (decide (start_piece b = i)) as [E|Hne].
    + exists p1. rewrite E in *. split; [done|]. simpl. congruence.
    + exists (redirect (next p) n (start_piece b) q). split; [by apply split_forward|done].
Qed.
End split.

(** ** The private operations *)

Section operations.
Context {B : Type} `{!Backend B}.
#[local] Abbreviation state := (allocator (B := B)).

(** [next_p->prev = v], when there is a next piece. *)
Lemma write_prev_Rep (s : state) M R (o : option nat) (v : nat) :
  Rep s M R → (∀ j, o = Some j → is_Some (M !! j)) →
  ∃ s' M', match o with
           | Some j => write_piece s j (set_prev (Some v))
           | None => Ret s
           end = Ret s' ∧ Rep s' M' R ∧ same_outer s s' ∧
    (∀ x, M' !! x = redirect o v x <$> M !! x) ∧
    (∀ x, M !! x = None → pieces s' !! x = pieces s !! x).
Proof.
  intros HR Ho. destruct o as [j|].
  - destruct (Ho j eq_refl) as [q Hq].
    destruct (write_piece_Rep s M R j q (set_prev (Some v)) HR Hq eq_refl eq_refl)
      as (s' & E & HR' & Hout & Hps).
    exists s', (<[j := set_prev (Some v) q]> M). split_and!; [done|done|done| |].
    + intros x. unfold redirect. destruct (decide (j = x)) as [<-|Hne].
      * rewrite lookup_insert_eq, Hq. simpl. by rewrite decide_True.
      * rewrite lookup_insert_ne by done. destruct (M !! x) as [[]|]; simpl; [|done].
        by rewrite decide_False by congruence.
    + intros x Hx. rewrite Hps. apply list_lookup_insert_ne. congruence.
  - exists s, M. split_and!; [done|done|done| |done].
    intros x. unfold redirect. destruct (M !! x) as [[]|]; done.
Qed.

Lemma MergeNeighbourFreePiece_Rep (s : state) M R l r pl pr :
  Rep s M R → M !! l = Some pl → M !! r = Some pr → l ≠ r →
  is_free pl = true → is_free pr = true → bin_num pr = -1 →
  next pl = Some r → prev pr = Some l → ptr pr = ptr pl + size pl →
  0 ≤ ptr pl → 0 < size pl → 0 < size pr → ptr pr + size pr < u64_modulus →
  (∀ j, next pr = Some j → is_Some (M !! j) ∧ j ≠ l ∧ j ≠ r) →
  ∃ s' M', MergeNeighbourFreePiece s l r = Ret s' ∧ Rep s' M' (r :: R) ∧ same_outer s s' ∧
    M' !! l = Some (set_next (next pr) (set_size (size pl + size pr) pl)) ∧ M' !! r = None ∧
    (∀ x, x ≠ l → x ≠ r → M' !! x = redirect (next pr) l x <$> M !! x).
Proof.
  intros HR Hl Hr Hlr Hfl Hfr Hbr Hn Hp Ha H0 Hsl Hsr Hu Hnext.
  unfold MergeNeighbourFreePiece.
  rewrite (get_piece_Rep _ _ _ _ _ HR Hl), (get_piece_Rep _ _ _ _ _ HR Hr). cbn [obind].
  rewrite Hfl, Hfr, !bool_decide_true by done.
  rewrite (u64_small (ptr pl + size pl)), (proj2 (Z.eqb_eq _ _)) by (unfold is_u64; lia || done).
  cbn [CHECK obind]. rewrite (u64_small (size pl + size pr)) by (unfold is_u64; lia).
  destruct (write_piece_Rep s M R l pl (set_size (size pl + size pr)) HR Hl eq_refl eq_refl)
    as (s1 & -> & HR1 & Ho1 & _). cbn [obind].
  destruct (write_piece_Rep s1 _ R l (set_size (size pl + size pr) pl) (set_next (next pr)) HR1
    ltac:(by rewrite lookup_insert_eq) eq_refl eq_refl) as (s2 & -> & HR2 & Ho2 & _). cbn [obind].
  rewrite insert_insert_eq in HR2.
  destruct (write_prev_Rep s2 _ R (next pr) l HR2) as (s3 & M3 & -> & HR3 & Ho3 & HM3 & _).
  { intros j Hj. apply lookup_insert_is_Some'. right. by apply Hnext. }
  cbn [obind].
  assert (∀ x, x = l ∨ x = r → next pr ≠ Some x) as Hnx by (intros x [->| ->] E; by apply Hnext in E as (_ & ? & ?)).
  assert (M3 !! r = Some pr) as Hr3.
  { rewrite HM3, lookup_insert_ne, Hr by done. unfold redirect. simpl.
    rewrite decide_False by auto. by destruct pr. }
  destruct (drop_piece_Rep s3 M3 R r pr HR3 Hr3 Hbr) as (s4 & -> & HR4 & Ho4 & _).
  exists s4, (delete r M3). split_and!; [done|done|by do 3 (etransitivity; [eassumption|])| | |].
  - rewrite lookup_delete_ne, HM3, lookup_insert_eq by done. unfold redirect. simpl.
    by rewrite decide_False by auto.
  - apply lookup_delete_eq.
  - intros x Hxl Hxr. by rewrite lookup_delete_ne, HM3, lookup_insert_ne.
Qed.

Lemma IsAlignedSize_divide (n al : Z) : 0 < al → (al | n) → IsAlignedSize n al = true.
Proof. intros. unfold IsAlignedSize. apply Z.eqb_eq, Z.mod_divide; [lia|done]. Qed.

Lemma SplitPiece_Rep (s : state) M R i p a :
  Rep s M R → M !! i = Some p → 0 < alignment s → (alignment s | a) → (alignment s | size p) →
  0 < a < size p → 0 < ptr p → ptr p + size p < u64_modulus →
  (∀ j, next p = Some j → is_Some (M !! j) ∧ j ≠ i) →
  (∀ j q, M !! j = Some q → ptr q ≠ ptr p + a) →
  ∃ n s' M' R', SplitPiece s i a = Ret s' ∧ Rep s' M' R' ∧ same_outer s s' ∧ M !! n = None ∧
    M' !! i = Some (set_next (Some n) (set_size a p)) ∧
    M' !! n = Some (mkPiece (size p - a) (ptr p + a) true (Some i) (next p) (BinNum4BinSize (size p - a))) ∧
    (∀ x, x ≠ i → x ≠ n → M' !! x = redirect (next p) n x <$> M !! x).
Proof.
  intros HR Hi Hal Ha Hs Hlt Hptr Hu Hnext Hfresh. unfold SplitPiece.
  rewrite (get_piece_Rep _ _ _ _ _ HR Hi). cbn [obind].
  destruct (AllocatePiece_Rep s M R HR) as (n & s1 & R1 & -> & HR1 & Ho1 & Hfr1 & [p0 Hp0]). cbn [obind].
  rewrite (u64_small (size p - a)), (u64_small (ptr p + a)) by (unfold is_u64; lia).
  set (q := mkPiece (size p - a) (ptr p + a) true (Some i) (next p) kInvalidBinNum).
  assert (n ≠ i) as Hni by (intros ->; destruct Hfr1; congruence).
  destruct (write_fresh_Rep s1 M R1 n (λ _, q) p0 HR1 Hfr1 Hp0) as (s2 & -> & HR2 & Ho2 & Hq2). cbn [obind].
  destruct (write_piece_Rep s2 M R1 i p (set_size a) HR2 Hi eq_refl eq_refl)
    as (s3 & -> & HR3 & Ho3 & Hps3). cbn [obind].
  destruct (write_piece_Rep s3 _ R1 i (set_size a p) (set_next (Some n)) HR3
    ltac:(by rewrite lookup_insert_eq) eq_refl eq_refl) as (s4 & -> & HR4 & Ho4 & Hps4). cbn [obind].
  rewrite insert_insert_eq in HR4. set (p1 := set_next (Some n) (set_size a p)) in *.
  destruct (write_prev_Rep s4 _ R1 (next p) n HR4) as (s5 & M5 & -> & HR5 & Ho5 & HM5 & Hps5).
  { intros j Hj. apply lookup_insert_is_Some'. right. by apply Hnext. }
  cbn [obind].
  assert (M5 !! i = Some p1) as Hi5.
  { rewrite HM5, lookup_insert_eq. unfold redirect. simpl.
    rewrite decide_False by (intros E; by apply Hnext in E as [_ ?]). done. }
  assert (fresh_id M5 R1 n) as Hfr5.
  { split; [|apply Hfr1]. rewrite HM5, lookup_insert_ne, (proj1 Hfr1) by done. done. }
  assert (pieces s5 !! n = Some q) as Hq5.
  { rewrite Hps5 by (rewrite lookup_insert_ne by done; apply Hfr1).
    rewrite Hps4, Hps3, !list_lookup_insert_ne by done. done. }
  rewrite (get_piece_Rep _ _ _ _ _ HR5 Hi5). cbn [obind]. unfold get_piece at 1. rewrite Hq5. cbn [obind].
  assert (same_outer s s5) as Hos by (by do 4 (etransitivity; [eassumption|])).
  rewrite (proj1 Hos), !IsAlignedSize_divide by (simpl; try apply Z.divide_sub_r; done). cbn [CHECK obind].
  destruct (add_piece_Rep s5 M5 R1 n q HR5 Hfr5 Hq5 eq_refl eq_refl) as (s6 & -> & HR6 & Ho6 & _).
  { simpl. lia. }
  { simpl. lia. }
  { intros j q' Hj E. simpl in E. rewrite HM5 in Hj. apply fmap_Some in Hj as (q'' & Hj & ->).
    simpl in E. apply lookup_insert_Some in Hj as [[<- <-]|[_ Hj]]; [simpl in E; lia|].
    by apply (Hfresh j q'' Hj). }
  exists n, s6, (<[n := set_bin_num (BinNum4BinSize (size q)) q]> M5), R1.
  split_and!; [done|done|by etransitivity|apply Hfr1| | |].
  - by rewrite lookup_insert_ne.
  - by rewrite lookup_insert_eq.
  - intros x Hxi Hxn. by rewrite lookup_insert_ne, HM5, lookup_insert_ne.
Qed.

(** ** Live allocations *)

(** The address and size of a piece in use. *)
Definition used_at (M : gmap nat Piece) (x : nat) : option (Z * Z) :=
  match M !! x with
  | Some p => if is_free p then None else Some (ptr p, size p)
  | None => None
  end.

Definition live_in (M : gmap nat Piece) (a m : Z) : Prop := ∃ x, used_at M x = Some (a, m).

(** The size of the live allocation at an address, as the allocator sees it. *)
Definition live_size (s : state) (a : Z) : option Z :=
  match ptr2piece s !! a with
  | Some i =>
      match pieces s !! i with
      | Some p => if is_free p then None else Some (size p)
      | None => None
      end
  | None => None
  end.

Lemma live_size_Rep (s : state) M R a m : Rep s M R → live_size s a = Some m ↔ live_in M a m.
Proof.
  intros HR. unfold live_size, live_in, used_at. split.
  - destruct (ptr2piece s !! a) as [i|] eqn:E; [|done].
    apply (rep_marks _ _ _ HR) in E as (p & Hp & <-).
    rewrite (rep_pieces _ _ _ HR _ _ Hp). intros H. exists i. rewrite Hp.
    destruct (is_free p); [done|]. congruence.
  - intros (x & Hx). destruct (M !! x) as [p|] eqn:Hp; [|done].
    destruct (is_free p) eqn:Hf; [done|]. injection Hx as <- <-.
    assert (ptr2piece s !! ptr p = Some x) as -> by (apply (rep_marks _ _ _ HR); eauto).
    by rewrite (rep_pieces _ _ _ HR _ _ Hp), Hf.
Qed.

Lemma used_at_redirect (M M' : gmap nat Piece) (o : option nat) (v x : nat) :
  M' !! x = redirect o v x <$> M !! x → used_at M' x = used_at M x.
Proof. intros E. unfold used_at. rewrite E. by destruct (M !! x). Qed.

(** One piece starts to be used, the others are as before. *)
Lemma live_in_take (M M' : gmap nat Piece) (i : nat) (c m : Z) :
  used_at M i = None → used_at M' i = Some (c, m) → (∀ x, x ≠ i → used_at M' x = used_at M x) →
  ∀ a n, live_in M' a n ↔ live_in M a n ∨ (a = c ∧ n = m).
Proof.
  intros Hi Hi' Hx a n. split.
  - intros (x & E). destruct (decide (x = i)) as [->|Hne].
    + right. by simplify_eq.
    + left. exists x. by rewrite <- Hx.
  - intros [(x & E)|[-> ->]]; [|by exists i]. exists x. rewrite Hx; [done|]. intros ->. congruence.
Qed.

(** ** [FindPiece] *)

Lemma scan_bin_spec (s : state) M R X k a l :
  Rep s M R → wf (alignment s) (mem_ptr2block s) X M → 0 < alignment s →
  (∀ i, i ∈ l → ∃ p, M !! i = Some p ∧ is_free p = true ∧ bin_num p = k) →
  (scan_bin s k a l = Ret None ∧ ∀ i p, i ∈ l → M !! i = Some p → size p < a) ∨
  ∃ i p, scan_bin s k a l = Ret (Some i) ∧ i ∈ l ∧ M !! i = Some p ∧ a ≤ size p.
Proof.
  intros HR Hwf Hal. induction l as [|i l IH]; intros Hl; cbn [scan_bin].
  { left. split; [done|]. intros i p Hin. by apply not_elem_of_nil in Hin. }
  destruct (Hl i) as (p & Hp & Hf & Hk); [left|].
  rewrite (get_piece_Rep _ _ _ _ _ HR Hp). cbn [obind].
  pose proof (wf_size _ _ _ _ Hwf _ _ Hp) as (_ & Hdiv & Hptr & _).
  rewrite Hf, (proj2 (Z.eqb_neq _ 0)), (proj2 (Z.eqb_eq _ k)), IsAlignedSize_divide by (lia || done).
  cbn [CHECK negb obind]. destruct (Z.leb_spec a (size p)).
  - right. exists i, p. split_and!; [done|left|done|done].
  - destruct IH as [[-> Hall]|(j & q & -> & Hj & Hq & Hle)]; [intros; apply Hl; by right| |].
    + left. split; [done|]. intros j q. rewrite elem_of_cons. intros [->|Hj] Hq; [|by eapply Hall].
      assert (q = p) as -> by congruence. lia.
    + right. exists j, q. split_and!; [done|by right|done|done].
Qed.

Lemma scan_bins_spec (s : state) M R X a ks :
  Rep s M R → wf (alignment s) (mem_ptr2block s) X M → 0 < alignment s →
  Forall (λ k, 0 ≤ k < 20) ks →
  (scan_bins s a ks = Ret None ∧
     ∀ i p, M !! i = Some p → bin_num p ∈ ks → size p < a) ∨
  ∃ i p, scan_bins s a ks = Ret (Some i) ∧ M !! i = Some p ∧ bin_num p ∈ ks ∧ a ≤ size p.
Proof.
  intros HR Hwf Hal. induction ks as [|k ks IH]; intros Hks; cbn [scan_bins].
  { left. split; [done|]. intros i p _ Hin. by apply not_elem_of_nil in Hin. }
  apply Forall_cons in Hks as [Hk Hks]. destruct (bin_at_Rep _ _ _ k HR Hk) as (l & -> & Hl). cbn [obind].
  assert (∀ i, i ∈ l → ∃ p, M !! i = Some p ∧ is_free p = true ∧ bin_num p = k) as Hbin.
  { intros i (p & Hp & E)%(rep_bins _ _ _ HR _ _ _ Hl). exists p. split_and!; [done| |lia].
    pose proof (wf_bin _ _ _ _ Hwf _ _ Hp) as E'. destruct (is_free p); [done|]. simpl in E'. lia. }
  destruct (scan_bin_spec s M R X k a l HR Hwf Hal Hbin) as [[-> Hall]|(i & p & -> & Hi & Hp & Hle)];
    cbn [obind].
  - destruct (IH Hks) as [[-> Hall']|(i & p & -> & Hp & Hin & Hle)].
    + left. split; [done|]. intros i p Hp. rewrite elem_of_cons. intros [E|Hin]; [|by eapply Hall'].
      apply (Hall i p); [|done]. apply (rep_bins _ _ _ HR _ _ _ Hl). exists p. split; [done|lia].
    + right. exists i, p. split_and!; [done|done|by right|done].
  - right. exists i, p. split_and!; [done|done| |done].
    destruct (Hbin i Hi) as (p' & Hp' & _ & E). assert (p' = p) as -> by congruence. rewrite E. left.
Qed.

Lemma range_elem (k first : Z) :
  0 ≤ first → k ∈ map Z.of_nat (seq (Z.to_nat first) (Z.to_nat (kBinNumSize - first))) ↔ first ≤ k < 20.
Proof.
  intros Hf. rewrite list_elem_of_fmap. unfold kBinNumSize. split.
  - intros (n & -> & Hn%elem_of_seq). lia.
  - intros Hk. exists (Z.to_nat k). split; [lia|]. apply elem_of_seq. lia.
Qed.

(** Taking a free piece out of its bin and marking it used. *)
Lemma take_piece_Rep (s : state) M R i p :
  Rep s M R → wf (alignment s) (mem_ptr2block s) [] M → M !! i = Some p → is_free p = true →
  ∃ s', (let* s := erase_from_bin s (bin_num p) i in
         let* s := write_piece s i (set_bin_num kInvalidBinNum) in
         write_piece s i (set_free false)) = Ret s' ∧ same_outer s s' ∧
    let M' := <[i := set_free false (set_bin_num (-1) p)]> M in
    Rep s' M' R ∧ wf (alignment s) (mem_ptr2block s) [] M'.
Proof.
  intros HR Hwf Hi Hf. pose proof (wf_size _ _ _ _ Hwf _ _ Hi) as Hsz.
  pose proof (wf_bin _ _ _ _ Hwf _ _ Hi) as Hb. rewrite Hf, bool_decide_true in Hb by apply not_elem_of_nil.
  simpl in Hb. pose proof (BinNum_range (size p) ltac:(lia)) as Hk. rewrite <- Hb in Hk.
  unfold erase_from_bin. destruct (bin_at_Rep _ _ _ _ HR Hk) as (l & -> & Hl). cbn [obind].
  unfold write_piece at 1, get_piece at 1. simpl (pieces (set_bins _ _)).
  rewrite (rep_pieces _ _ _ HR _ _ Hi). cbn [obind].
  assert (l ≡ₚ i :: filter (λ j, j ≠ i) l) as Hperm.
  { apply NoDup_Permutation.
    - by apply (rep_bins_nodup _ _ _ HR (Z.to_nat (bin_num p))).
    - constructor; [rewrite list_elem_of_filter; tauto|].
      apply NoDup_filter. by apply (rep_bins_nodup _ _ _ HR (Z.to_nat (bin_num p))).
    - intros j. rewrite elem_of_cons, list_elem_of_filter. destruct (decide (j = i)) as [->|]; [|tauto].
      split; [by left|]. intros _. apply (rep_bins _ _ _ HR _ _ _ Hl). exists p. split; [done|lia]. }
  pose proof (unbin_Rep s M R i p l _ HR Hi Hk Hl Hperm) as HR1.
  destruct (write_piece_Rep _ _ R i (set_bin_num (-1) p) (set_free false) HR1
    ltac:(by rewrite lookup_insert_eq) eq_refl eq_refl) as (s2 & E & HR2 & Ho2 & _).
  rewrite insert_insert_eq in HR2. exists s2.
  split; [exact E|]. split; [exact Ho2|]. split; [exact HR2|].
  apply (wf_flags _ _ [] [] M i p); simpl; auto.
Qed.

(** Splitting a used piece whose right neighbour is in use. *)
Lemma SplitPiece_wf (s : state) M R i p a :
  Rep s M R → wf (alignment s) (mem_ptr2block s) [] M → 0 < alignment s → (alignment s | a) →
  M !! i = Some p → is_free p = false → 0 < a < size p →
  (∀ j q, next p = Some j → M !! j = Some q → is_free q = false) →
  ∃ s' M' R', SplitPiece s i a = Ret s' ∧ Rep s' M' R' ∧ wf (alignment s) (mem_ptr2block s) [] M' ∧
    same_outer s s' ∧ used_at M' i = Some (ptr p, a) ∧ (∀ x, x ≠ i → used_at M' x = used_at M x).
Proof.
  intros HR Hwf Hal Hdiv Hi Hf Ha Hafter.
  pose proof (wf_size _ _ _ _ Hwf _ _ Hi) as (Hsz & Hdp & Hptr & Hend).
  destruct (SplitPiece_Rep s M R i p a HR Hi) as (n & s2 & M2 & R2 & -> & HR2 & Ho2 & Hn2 & Hi2 & Hnew & Hx2);
    try done.
  { intros j Hj. destruct (wf_next _ _ _ _ Hwf _ _ _ Hi Hj) as (q & Hq & _ & E).
    split; [by eexists|]. intros ->. assert (q = p) as -> by congruence. lia. }
  { intros j q Hj E. pose proof (wf_size _ _ _ _ Hwf _ _ Hj). destruct (decide (j = i)) as [->|Hne].
    - assert (q = p) as -> by congruence. lia.
    - pose proof (wf_disjoint _ _ _ _ Hwf _ _ _ _ Hj Hi Hne). lia. }
  exists s2, M2, R2. split_and!; try done.
  - by apply (wf_split (alignment s) (mem_ptr2block s) M M2 i n p a).
  - unfold used_at. rewrite Hi2. simpl. by rewrite Hf.
  - intros x Hx. destruct (decide (x = n)) as [->|Hxn].
    + unfold used_at. by rewrite Hnew, Hn2.
    + by rewrite (used_at_redirect _ _ _ _ _ (Hx2 x Hx Hxn)).
Qed.

Lemma FindPiece_spec (s : state) M R a :
  Rep s M R → wf (alignment s) (mem_ptr2block s) [] M → 0 < alignment s → (alignment s | a) →
  0 < a < 2 ^ 63 →
  (FindPiece s a = Ret (None, s) ∧ ∀ i p, M !! i = Some p → is_free p = true → size p < a) ∨
  ∃ i p s' M' R' m, FindPiece s a = Ret (Some i, s') ∧ Rep s' M' R' ∧
    wf (alignment s) (mem_ptr2block s) [] M' ∧ same_outer s s' ∧
    M !! i = Some p ∧ is_free p = true ∧ a ≤ m ∧ m ≤ size p ∧ (alignment s | m) ∧
    used_at M' i = Some (ptr p, m) ∧ (∀ x, x ≠ i → used_at M' x = used_at M x).
Proof.
  intros HR Hwf Hal Hdiv Ha. unfold FindPiece. rewrite IsAlignedSize_divide by done. cbn [CHECK obind].
  pose proof (BinNum_range a ltac:(unfold u64_modulus; lia)) as Hfirst.
  set (ks := map Z.of_nat _). assert (∀ k, k ∈ ks ↔ BinNum4BinSize a ≤ k < 20) as Hks by (intros; apply range_elem; lia).
  destruct (scan_bins_spec s M R [] a ks HR Hwf Hal) as [[-> Hall]|(i & p & -> & Hi & Hin & Hle)]; cbn [obind].
  - apply Forall_forall. intros k Hk%Hks. lia.
  - left. split; [done|]. intros i p Hi Hf. destruct (Z.lt_ge_cases (size p) a) as [|Hge]; [done|].
    apply (Hall i p Hi). pose proof (wf_size _ _ _ _ Hwf _ _ Hi) as Hsz.
    rewrite (wf_bin _ _ _ _ Hwf _ _ Hi), Hf, bool_decide_true by apply not_elem_of_nil.
    apply Hks. pose proof (BinNum_range (size p) ltac:(lia)).
    pose proof (BinNum_mono a (size p) ltac:(lia) ltac:(lia)). simpl. lia.
  - right. apply Hks in Hin. assert (is_free p = true) as Hf.
    { pose proof (wf_bin _ _ _ _ Hwf _ _ Hi) as E. destruct (is_free p); [done|]. simpl in E. lia. }
    pose proof (wf_size _ _ _ _ Hwf _ _ Hi) as (Hsz & Hdp & Hptr & Hend).
    rewrite (get_piece_Rep _ _ _ _ _ HR Hi). cbn [obind].
    destruct (take_piece_Rep s M R i p HR Hwf Hi Hf) as (s1 & Etake & Ho1 & HR1 & Hwf1).
    apply obind_Ret in Etake as (sa & -> & Etake). cbn [obind].
    apply obind_Ret in Etake as (sb & -> & Etake). cbn [obind]. rewrite Etake. cbn [obind].
    set (p1 := set_free false (set_bin_num (-1) p)) in *.
    assert (<[i := p1]> M !! i = Some p1) as Hi1 by (by rewrite lookup_insert_eq).
    assert (∀ x, x ≠ i → used_at (<[i := p1]> M) x = used_at M x) as Hx1
      by (intros; unfold used_at; by rewrite lookup_insert_ne).
    rewrite !u64_small by (unfold is_u64, u64_modulus in *; lia).
    destruct ((a * 2 <=? size p) || (kPieceSplitThreshold <=? size p - a)) eqn:Hsplit.
    + assert (a < size p).
      { change kPieceSplitThreshold with 134217728 in Hsplit. apply orb_true_iff in Hsplit as [E|E]; lia. }
      rewrite <- (proj1 Ho1), <- (proj2 (proj2 (proj2 Ho1))) in Hwf1. rewrite <- (proj1 Ho1) in Hal, Hdiv.
      destruct (SplitPiece_wf s1 _ R i p1 a HR1 Hwf1 Hal Hdiv Hi1 eq_refl) as
        (s2 & M2 & R2 & -> & HR2 & Hwf2 & Ho2 & Hu2 & Hx2).
      { simpl. lia. }
      { intros j q Hj Hq. destruct (wf_next _ _ _ _ Hwf _ _ _ Hi Hj) as (q0 & Hq0 & _ & Eq0).
        assert (j ≠ i) as Hji by (intros ->; assert (q0 = p) as -> by congruence; lia).
        rewrite lookup_insert_ne in Hq by done.
        destruct (is_free q) eqn:Hfq; [|done]. exfalso.
        by eapply (wf_coalesced _ _ _ _ Hwf i p j q); eauto using not_elem_of_nil. }
      rewrite (proj1 Ho1), (proj2 (proj2 (proj2 Ho1))) in Hwf2. rewrite (proj1 Ho1) in Hdiv.
      exists i, p, s2, M2, R2, a. split_and!; try done; try lia; [by etransitivity|].
      intros x Hx. by rewrite Hx2, Hx1.
    + cbn [obind]. exists i, p, s1, (<[i := p1]> M), R, (size p). split_and!; try done; try lia.
      unfold used_at. by rewrite Hi1.
Qed.

(** ** New blocks *)

Lemma wf_add_block al blocks M n p :
  wf al blocks [] M → M !! n = None →
  0 < size p → (al | size p) → 0 < ptr p → ptr p + size p < u64_modulus →
  is_free p = true → prev p = None → next p = None → bin_num p = BinNum4BinSize (size p) →
  blocks !! ptr p = None →
  (∀ a b, blocks !! a = Some b → ptr p + size p ≤ a ∨ a + block_size b ≤ ptr p) →
  wf al (<[ptr p := mkBlock (size p) (ptr p) n]> blocks) [] (<[n := p]> M).
Proof.
  intros Hwf Hn Hs Hd Hp He Hf Hpr Hnx Hb Hnew Hdis.
  assert (∀ j q, M !! j = Some q → j ≠ n ∧ <[n := p]> M !! j = Some q) as Hforw.
  { intros j q Hj. assert (j ≠ n) by congruence. by rewrite lookup_insert_ne. }
  assert (∀ j q, M !! j = Some q → ptr p + size p ≤ ptr q ∨ ptr q + size q ≤ ptr p) as Hold.
  { intros j q Hj. destruct (wf_block _ _ _ _ Hwf _ _ Hj) as (b & Hbl & Hin & _).
    pose proof (Hdis _ _ Hbl). pose proof (wf_size _ _ _ _ Hwf _ _ Hj). unfold inside in Hin. lia. }
  constructor.
  - intros j q. rewrite lookup_insert_Some. intros [[<- <-]|[_ Hj]]; [done|]. by apply (wf_size _ _ _ _ Hwf j).
  - intros j q k. rewrite lookup_insert_Some. intros [[<- <-]|[_ Hj]] Hk; [congruence|].
    destruct (wf_next _ _ _ _ Hwf _ _ _ Hj Hk) as (r & Hr & ?). exists r. split; [|done]. by apply Hforw.
  - intros j q k. rewrite lookup_insert_Some. intros [[<- <-]|[_ Hj]] Hk; [congruence|].
    destruct (wf_prev _ _ _ _ Hwf _ _ _ Hj Hk) as (r & Hr & ?). exists r. split; [|done]. by apply Hforw.
  - intros j q. rewrite lookup_insert_Some. intros [[<- <-]|[_ Hj]].
    + by rewrite Hf, bool_decide_true by apply not_elem_of_nil.
    + by apply (wf_bin _ _ _ _ Hwf).
  - intros j q k r. rewrite !lookup_insert_Some. intros [[<- <-]|[_ Hj]] Hk [[<- <-]|[_ Hr]]; try congruence.
    + destruct (wf_next _ _ _ _ Hwf _ _ _ Hj Hk) as (r & Hr & _). congruence.
    + by apply (wf_coalesced _ _ _ _ Hwf j q k r).
  - intros j k q r. rewrite !lookup_insert_Some. intros [[<- <-]|[_ Hj]] [[<- <-]|[_ Hr]] Hne; [done| | |].
    + by apply (Hold k).
    + pose proof (Hold _ _ Hj). lia.
    + by apply (wf_disjoint _ _ _ _ Hwf j k).
  - intros j q. rewrite lookup_insert_Some. intros [[<- <-]|[_ Hj]].
    + exists (mkBlock (size p) (ptr p) n). simpl. rewrite lookup_insert_eq, Hpr, Hnx. unfold inside. simpl.
      split_and!; [done|lia|lia|done|done].
    + destruct (wf_block _ _ _ _ Hwf _ _ Hj) as (b & Hbl & ?). exists b. split; [|done].
      rewrite lookup_insert_ne; [done|]. intros E. congruence.
  - intros a b. rewrite lookup_insert_Some. intros [[<- <-]|[_ Hbl]]; simpl.
    + split; [done|]. split; [lia|]. exists p. by rewrite lookup_insert_eq.
    + destruct (wf_blocks _ _ _ _ Hwf _ _ Hbl) as (? & ? & q & Hq & ?). split; [done|]. split; [done|].
      exists q. split; [by apply Hforw|done].
  - intros a a' b b'. rewrite !lookup_insert_Some. intros [[<- <-]|[_ Hbl]] [[<- <-]|[_ Hbl']] Hne; simpl.
    + done.
    + by apply Hdis.
    + pose proof (Hdis _ _ Hbl). lia.
    + by apply (wf_blocks_disjoint _ _ _ _ Hwf a a').
Qed.

Lemma block_bytes_spec (a al : Z) :
  0 < al ≤ 512 → 0 < a ≤ 2 ^ 62 →
  a ≤ block_bytes a al < 2 ^ 63 ∧ (al | block_bytes a al) ∧ 0 < block_bytes a al.
Proof.
  intros Hal Ha. unfold block_bytes, MemAlignedBytes.
  set (n := if a <? 1048576 then _ else _).
  assert (a ≤ n < 2 ^ 62 + 2 ^ 22) as Hn.
  { subst n. destruct (Z.ltb_spec a 1048576); [lia|]. destruct (Z.ltb_spec a 10485760); [lia|].
    destruct (RoundUp_least a 2097152) as (_ & ? & _); unfold u64_modulus in *; lia. }
  destruct (RoundUp_least n al) as (? & ? & _); [lia|lia|unfold u64_modulus; lia|].
  split_and!; [lia|lia|done|lia].
Qed.
End operations.

(** ** The public operations *)

Section public.
Context {B : Type} `{!Backend B} `{!BackendSpec B}.
#[local] Abbreviation state := (allocator (B := B)).

(** The invariant of an allocator: its heap represents a well-formed map of
    pieces, and its blocks are what the backend handed out. *)
Record Inv (s : state) (M : gmap nat Piece) (R : list nat) : Prop := {
  Inv_rep : Rep s M R;
  Inv_wf : wf (alignment s) (mem_ptr2block s) [] M;
  Inv_alignment : 0 < alignment s ≤ 512;
  Inv_backend : b_live (backend s) = block_size <$> mem_ptr2block s;
}.

Definition AllocatorInv (s : state) : Prop := ∃ M R, Inv s M R.

Lemma Inv_outer (s s' : state) M' R' :
  same_outer s s' → Rep s' M' R' → wf (alignment s) (mem_ptr2block s) [] M' →
  0 < alignment s ≤ 512 → b_live (backend s) = block_size <$> mem_ptr2block s → Inv s' M' R'.
Proof.
  intros (E1 & E2 & _ & E4) HR Hwf Hal Hb. constructor; rewrite ?E1, ?E2, ?E4; done.
Qed.

(** Extending the memory: a new free piece that is large enough, or the
    backend could not provide the block. *)
Lemma AllocateBlock_spec (s : state) M R a :
  Inv s M R → (alignment s | a) → 0 < a ≤ 2 ^ 62 →
  let n := block_bytes a (alignment s) in
  (∃ s' M' R' i p, AllocateBlockToExtendTotalMem s a = Ret (true, s') ∧ Inv s' M' R' ∧
     M' !! i = Some p ∧ is_free p = true ∧ a ≤ size p ∧ alignment s' = alignment s ∧
     (∀ x, used_at M' x = used_at M x)) ∨
  (∃ b, b_allocate (backend s) n = Ret (0, b) ∧
     AllocateBlockToExtendTotalMem s a = Ret (false, set_backend b s)) ∨
  (∃ e, b_allocate (backend s) n = Fail e ∧ AllocateBlockToExtendTotalMem s a = Fail e).
Proof.
  intros HI Hdiv Ha n. pose proof (Inv_alignment _ _ _ HI) as Hal.
  destruct (block_bytes_spec a _ Hal Ha) as (Hn & Hdn & Hn0). fold n in Hn, Hdn, Hn0.
  unfold AllocateBlockToExtendTotalMem. rewrite IsAlignedSize_divide by (lia || done). cbn [CHECK_OR_RETURN obind].
  fold n. rewrite (proj2 (Z.ltb_ge _ _)) by lia.
  destruct (b_allocate (backend s) n) as [[c b]|e|] eqn:Eb; cbn [obind];
    [|right; right; by exists e|by apply b_allocate_no_abort in Eb].
  destruct (Z.eqb_spec c 0) as [->|Hc]; [right; left; by exists b|left].
  destruct (b_allocate_fresh _ _ _ _ Hn0 Eb Hc) as (Hc0 & Hce & Hfresh & Hnone & Hlive).
  rewrite (Inv_backend _ _ _ HI) in Hfresh, Hnone, Hlive.
  assert (∀ d bl, mem_ptr2block s !! d = Some bl → c + n ≤ d ∨ d + block_size bl ≤ c) as Hblocks.
  { intros d bl Hd. apply (Hfresh d). by rewrite lookup_fmap, Hd. }
  rewrite lookup_fmap, fmap_None in Hnone.
  set (s0 := set_total _ (set_backend b s)).
  assert (Rep s0 M R) as HR0 by (destruct (Inv_rep _ _ _ HI); constructor; done).
  destruct (AllocatePiece_Rep s0 M R HR0) as (i & s1 & R1 & -> & HR1 & Ho1 & Hfr & [p0 Hp0]). cbn [obind].
  set (p := mkPiece n c true None None kInvalidBinNum).
  destruct (write_fresh_Rep s1 M R1 i (λ _, p) p0 HR1 Hfr Hp0) as (s2 & -> & HR2 & Ho2 & Hp2). cbn [obind].
  destruct (add_piece_Rep s2 M R1 i p HR2 Hfr Hp2 eq_refl eq_refl) as (s3 & E & HR3 & Ho3 & Hp3);
    [simpl; unfold u64_modulus; lia|simpl; lia| |].
  { intros j q Hj E. destruct (wf_block _ _ _ _ (Inv_wf _ _ _ HI) _ _ Hj) as (bl & Hbl & Hin & _).
    pose proof (Hblocks _ _ Hbl). pose proof (wf_size _ _ _ _ (Inv_wf _ _ _ HI) _ _ Hj).
    unfold inside in Hin. simpl in E. lia. }
  apply obind_Ret in E as (s2' & -> & E). cbn [obind]. rewrite E. cbn [obind].
  unfold get_piece. rewrite Hp3. cbn [obind]. simpl (size _). simpl (ptr _).
  assert (same_outer s0 s3) as Hos by (by do 2 (etransitivity; [eassumption|])).
  destruct Hos as (E1 & E2 & E3 & E4). simpl in E1, E2, E4. rewrite E4, Hnone.
  set (p' := set_bin_num (BinNum4BinSize n) p) in *.
  eexists _, (<[i := p']> M), R1, i, p'. split; [done|]. split_and!; try done; [|by rewrite lookup_insert_eq|simpl; lia|].
  - constructor; simpl; rewrite ?E1, ?E2.
    + destruct HR3; constructor; done.
    + apply (wf_add_block (alignment s) (mem_ptr2block s) M i p'); simpl; try done; try lia; [apply HI|apply Hfr].
    + done.
    + by rewrite Hlive, fmap_insert.
  - intros x. unfold used_at. destruct (decide (i = x)) as [<-|Hne]; [|by rewrite lookup_insert_ne].
    by rewrite lookup_insert_eq, (proj1 Hfr).
Qed.

Lemma used_at_disjoint al blocks X M x y a k a' k' :
  wf al blocks X M → used_at M x = Some (a, k) → used_at M y = Some (a', k') → x ≠ y →
  a + k ≤ a' ∨ a' + k' ≤ a.
Proof.
  intros Hwf Hx Hy Hne. unfold used_at in *.
  destruct (M !! x) as [p|] eqn:Ep; [|done]. destruct (M !! y) as [q|] eqn:Eq; [|done].
  destruct (is_free p), (is_free q); simplify_eq. by apply (wf_disjoint _ _ _ _ Hwf x y).
Qed.

(** What a successful search means for the live allocations. *)
Lemma found_live (s s' : state) al blocks M M' R R' i p m :
  Rep s M R → Rep s' M' R' → wf al blocks [] M' →
  used_at M i = None → used_at M' i = Some (p, m) → (∀ x, x ≠ i → used_at M' x = used_at M x) →
  live_size s p = None ∧ live_size s' p = Some m ∧
  (∀ a, a ≠ p → live_size s' a = live_size s a) ∧
  (∀ a k, live_size s a = Some k → p + m ≤ a ∨ a + k ≤ p).
Proof.
  intros HR HR' Hwf Hi Hi' Hx.
  pose proof (live_in_take M M' i p m Hi Hi' Hx) as Hlive.
  assert (0 < m) as Hm.
  { unfold used_at in Hi'. destruct (M' !! i) as [q|] eqn:E; [|done].
    pose proof (wf_size _ _ _ _ Hwf _ _ E). destruct (is_free q); simplify_eq. lia. }
  assert (∀ a k, live_size s a = Some k → p + m ≤ a ∨ a + k ≤ p) as Hdis.
  { intros a k Ha. apply (live_size_Rep _ _ _ _ _ HR) in Ha as (x & Hxa).
    assert (x ≠ i) by congruence. rewrite <- Hx in Hxa by done.
    by apply (used_at_disjoint _ _ _ M' i x _ _ _ _ Hwf). }
  split_and!; [| | |done].
  - destruct (live_size s p) as [k|] eqn:E; [|done]. exfalso. pose proof (Hdis _ _ E).
    apply (live_size_Rep _ _ _ _ _ HR) in E as (x & Hxa). assert (x ≠ i) by congruence.
    rewrite <- Hx in Hxa by done. unfold used_at in Hxa. destruct (M' !! x) as [q|] eqn:Eq; [|done].
    pose proof (wf_size _ _ _ _ Hwf _ _ Eq). destruct (is_free q); simplify_eq. lia.
  - apply (live_size_Rep _ _ _ _ _ HR'). apply Hlive. by right.
  - intros a Ha. apply option_eq. intros k.
    rewrite (live_size_Rep _ _ _ _ _ HR'), (live_size_Rep _ _ _ _ _ HR), Hlive. naive_solver.
Qed.

Lemma used_at_free M i p : M !! i = Some p → is_free p = true → used_at M i = None.
Proof. intros E Hf. unfold used_at. by rewrite E, Hf. Qed.

(** A piece starts a multiple of the alignment behind the start of its block. *)
Lemma piece_aligned al blocks X M (i : nat) (p : Piece) : wf al blocks X M → M !! i = Some p →
  ∃ b, blocks !! block_ptr b = Some b ∧ inside p b ∧ (al | ptr p - block_ptr b).
Proof.
  intros Hwf. remember (Z.to_nat (ptr p)) as n eqn:Hn. revert i p Hn. induction n as [n IH] using lt_wf_ind. intros i p Hn Hi.
  destruct (wf_block _ _ _ _ Hwf i p Hi) as (b & Hb & Hin & Hfirst & _).
  exists b. split; [done|]. split; [done|]. destruct (prev p) as [j|] eqn:Ej.
  2: { rewrite (proj1 Hfirst eq_refl), Z.sub_diag. apply Z.divide_0_r. }
  destruct (wf_prev _ _ _ _ Hwf i p j Hi Ej) as (q & Hq & Hnext).
  destruct (wf_next _ _ _ _ Hwf j q i Hq Hnext) as (p' & Hp' & _ & Hpq). rewrite Hi in Hp'. injection Hp' as <-.
  pose proof (wf_size _ _ _ _ Hwf _ _ Hq) as (Hs1 & Hsd & Hs2 & _).
  destruct (IH (Z.to_nat (ptr q)) ltac:(lia) j q eq_refl Hq) as (b' & Hb' & Hin' & Hd).
  pose proof (wf_size _ _ _ _ Hwf _ _ Hi) as (Hs3 & _).
  destruct (wf_block _ _ _ _ Hwf j q Hq) as (b2 & Hb2 & Hin2 & _ & Hlast).
  unfold inside in Hin, Hin', Hin2. assert (b2 = b') as -> by (apply (block_unique al blocks X M b2 b' (ptr q)); try done; lia).
  assert (ptr q + size q ≠ block_ptr b' + block_size b') as Hnl by (intros E; apply Hlast in E; congruence).
  assert (b' = b) as -> by (apply (block_unique al blocks X M b' b (ptr p)); try done; lia).
  rewrite Hpq. replace (ptr q + size q - block_ptr b) with ((ptr q - block_ptr b) + size q) by lia. by apply Z.divide_add_r.
Qed.

(** What [Allocate] promises, on success and on failure.  The region lies inside a block,
    and at a multiple of the alignment from its start, so that it is aligned when the
    backend aligns its blocks. *)
Definition allocate_ok (s : state) (n p m : Z) (s' : state) : Prop :=
  n ≤ m ∧ (alignment s | m) ∧ alignment s' = alignment s ∧
  (∃ b, mem_ptr2block s' !! block_ptr b = Some b ∧ block_ptr b ≤ p ∧ p + m ≤ block_ptr b + block_size b ∧
     (alignment s | p - block_ptr b)) ∧
  ((∀ a b, mem_ptr2block s' !! a = Some b → (alignment s | a)) → (alignment s | p)) ∧
  live_size s p = None ∧ live_size s' p = Some m ∧
  (∀ a, a ≠ p → live_size s' a = live_size s a) ∧
  (∀ a k, live_size s a = Some k → p + m ≤ a ∨ a + k ≤ p).

Lemma Allocate_found (s s1 s' : state) M M' R R' n i p m :
  Inv s M R → wf (alignment s1) (mem_ptr2block s1) [] M' → Rep s' M' R' → same_outer s1 s' →
  alignment s1 = alignment s → 0 < alignment s ≤ 512 →
  b_live (backend s1) = block_size <$> mem_ptr2block s1 →
  used_at M i = None → used_at M' i = Some (p, m) → (∀ x, x ≠ i → used_at M' x = used_at M x) →
  n ≤ m → (alignment s | m) →
  (let* q := get_piece s' i in
   let* _ := CHECK_OR_RETURN (negb (ptr q =? 0)) CheckFailedError in
   let* _ := CHECK_OR_RETURN (bool_decide (is_Some (ptr2piece s' !! ptr q))) CheckFailedError in
   Ret (ptr q, s')) = Ret (p, s') ∧ Inv s' M' R' ∧ allocate_ok s n p m s'.
Proof.
  intros HI Hwf HR' Ho Eal Hal Hb Hi Hi' Hx Hnm Hdm.
  assert (∃ q, M' !! i = Some q ∧ ptr q = p) as (q & Hq & Eq).
  { unfold used_at in Hi'. destruct (M' !! i) as [q|] eqn:E; [|done]. exists q.
    destruct (is_free q); naive_solver. }
  pose proof (wf_size _ _ _ _ Hwf _ _ Hq) as Hsz.
  rewrite (get_piece_Rep _ _ _ _ _ HR' Hq). cbn [obind]. rewrite (proj2 (Z.eqb_neq _ 0)) by lia.
  cbn [negb CHECK_OR_RETURN obind]. rewrite bool_decide_true.
  2: { exists i. apply (rep_marks _ _ _ HR'). eauto. }
  cbn [CHECK_OR_RETURN obind]. rewrite Eq. split; [done|]. split.
  - apply (Inv_outer s1); try done. by rewrite Eal.
  - destruct (found_live s s' _ _ M M' R R' i p m (Inv_rep _ _ _ HI) HR' Hwf) as (? & ? & ? & ?); [done..|].
    assert (∃ b, mem_ptr2block s' !! block_ptr b = Some b ∧ block_ptr b ≤ p ∧ p + m ≤ block_ptr b + block_size b ∧
      (alignment s | p - block_ptr b)) as Hblk.
    { unfold used_at in Hi'. rewrite Hq in Hi'. destruct (is_free q); [done|]. injection Hi' as <- <-.
      destruct (piece_aligned _ _ _ _ i q Hwf Hq) as (bl & Hbl & Hin & Hdiv). exists bl. rewrite <- Eal.
      destruct Ho as (_ & _ & _ & ->). split; [done|]. split; [apply Hin|]. split; [apply Hin|done]. }
    split_and!; try done; [by rewrite (proj1 Ho)|]. intros Hal'. destruct Hblk as (bl & Hbl & _ & _ & Hdiv).
    replace p with (p - block_ptr bl + block_ptr bl) by lia. apply Z.divide_add_r; [done|]. by eapply Hal'.
Qed.

Lemma Allocate_spec (s : state) M R n :
  Inv s M R → 0 < n ≤ 2 ^ 61 →
  (∃ p m s' M' R', Allocate s n = Ret (p, s') ∧ Inv s' M' R' ∧ allocate_ok s n p m s') ∨
  (∃ e, Allocate s n = Fail e ∧
     let c := block_bytes (MemAlignedBytes n (alignment s)) (alignment s) in
     ((∃ b, b_allocate (backend s) c = Ret (0, b)) ∨ b_allocate (backend s) c = Fail e)).
Proof.
  intros HI Hn. pose proof (Inv_alignment _ _ _ HI) as Hal.
  destruct (RoundUp_least n (alignment s)) as (Hdiv & Hge & _); [lia|lia|unfold u64_modulus; lia|].
  unfold Allocate. rewrite (proj2 (Z.eqb_neq _ _)) by lia. unfold MemAlignedBytes.
  set (a := RoundUp n (alignment s)) in *.
  destruct (FindPiece_spec s M R a (Inv_rep _ _ _ HI) (Inv_wf _ _ _ HI)) as
    [[-> Hnone]|(i & p & s' & M' & R' & m & -> & HR' & Hwf' & Ho & Hi & Hf & Ham & Hms & Hdm & Hu & Hx)];
    [lia|done|lia| |].
  - cbn [obind]. destruct (AllocateBlock_spec s M R a HI Hdiv ltac:(lia)) as
      [(s1 & M1 & R1 & j & q & -> & HI1 & Hj & Hfj & Hsj & Eal & Hu1)|[(b & Eb & ->)|(e & Eb & ->)]];
      cbn [obind]; [left| |].
    + destruct (FindPiece_spec s1 M1 R1 a (Inv_rep _ _ _ HI1) (Inv_wf _ _ _ HI1)) as
        [[_ Hnone1]|(i & p & s' & M' & R' & m & -> & HR' & Hwf' & Ho & Hi & Hf & Ham & Hms & Hdm & Hu & Hx)];
        [rewrite Eal; lia|by rewrite Eal|lia| |].
      { specialize (Hnone1 _ _ Hj Hfj). lia. }
      cbn [obind]. rewrite Eal in Hdm.
      destruct (Allocate_found s s1 s' M M' R R' n i (ptr p) m HI) as (E & HI' & Hok);
        try done; try lia; [apply HI1|rewrite <- Hu1; by eapply used_at_free| |].
      { intros x Hne. by rewrite Hx, Hu1. }
      exists (ptr p), m, s', M', R'. done.
    + right. exists OutOfMemoryError. split; [done|]. left. by exists b.
    + right. exists e. split; [done|]. by right.
  - cbn [obind]. left.
    destruct (Allocate_found s s s' M M' R R' n i (ptr p) m HI) as (E & HI' & Hok);
      try done; try lia; [apply HI|by eapply used_at_free|].
    exists (ptr p), m, s', M', R'. done.
Qed.

(** C26 An allocation never aborts.  It returns a region of at least the requested size, a
    multiple of the alignment, inside a block of the backend and at a multiple of the
    alignment from the block's start (so it is aligned when the backend's blocks are), that
    overlaps no live allocation, and the other allocations are untouched; or it reports an
    error, and then only when the backend could not provide the block it was asked for. *)
Theorem Allocate_correct (s : state) (n : Z) :
  AllocatorInv s → 0 < n ≤ 2 ^ 61 →
  (∃ p m s', Allocate s n = Ret (p, s') ∧ AllocatorInv s' ∧ allocate_ok s n p m s') ∨
  (∃ e, Allocate s n = Fail e ∧
     let c := block_bytes (MemAlignedBytes n (alignment s)) (alignment s) in
     ((∃ b, b_allocate (backend s) c = Ret (0, b)) ∨ b_allocate (backend s) c = Fail e)).
Proof.
  intros (M & R & HI) Hn. destruct (Allocate_spec s M R n HI Hn) as [(p & m & s' & M' & R' & E & HI' & Hok)|H].
  - left. exists p, m, s'. split_and!; [done|by exists M', R'|apply Hok..].
  - by right.
Qed.

(** ** [Deallocate] *)

(** Merging two free neighbours that are out of the bins. *)
Lemma merge_op (s : state) M R X X' l r pl pr :
  Rep s M R → wf (alignment s) (mem_ptr2block s) X M → M !! l = Some pl → M !! r = Some pr →
  next pl = Some r → is_free pl = true → is_free pr = true → l ∈ X → r ∈ X →
  (∀ j, j ≠ r → j ∈ X' ↔ j ∈ X) →
  ∃ s' M', MergeNeighbourFreePiece s l r = Ret s' ∧ Rep s' M' (r :: R) ∧ same_outer s s' ∧
    wf (alignment s) (mem_ptr2block s) X' M' ∧
    M' !! l = Some (set_next (next pr) (set_size (size pl + size pr) pl)) ∧
    (∀ x, used_at M' x = used_at M x) ∧
    (∀ x, x ≠ l → x ≠ r → M' !! x = redirect (next pr) l x <$> M !! x).
Proof.
  intros HR Hwf Hl Hr Hn Hfl Hfr HlX HrX HX.
  pose proof (wf_size _ _ _ _ Hwf _ _ Hl) as Hsl. pose proof (wf_size _ _ _ _ Hwf _ _ Hr) as Hsr.
  destruct (merge_adjacent _ _ _ _ _ _ _ _ Hwf Hl Hr Hn) as (Hp & Ha & Hne).
  destruct (MergeNeighbourFreePiece_Rep s M R l r pl pr HR Hl Hr) as (s' & M' & E & HR' & Ho & Hl' & Hr' & Hx');
    try done; try lia.
  { rewrite (wf_bin _ _ _ _ Hwf _ _ Hr), Hfr, bool_decide_false by tauto. done. }
  { intros j Hj. destruct (wf_next _ _ _ _ Hwf _ _ _ Hr Hj) as (q & Hq & _).
    destruct (merge_after _ _ _ _ _ _ _ _ Hwf Hl Hr Hn j q Hj Hq) as (? & ? & _). split; [by eexists|done]. }
  exists s', M'. split_and!; try done.
  - by apply (wf_merge _ _ X X' M M' l r pl pr).
  - intros x. destruct (decide (x = l)) as [->|Hxl].
    + unfold used_at. by rewrite Hl', Hl, Hfl; simpl; rewrite Hfl.
    + destruct (decide (x = r)) as [->|Hxr]; [unfold used_at; by rewrite Hr', Hr, Hfr|].
      exact (used_at_redirect _ _ _ _ _ (Hx' x Hxl Hxr)).
Qed.

(** Taking a binned neighbour out of its bin. *)
Lemma unbin_op (s : state) M R X j q :
  Rep s M R → wf (alignment s) (mem_ptr2block s) X M → M !! j = Some q → is_free q = true → j ∉ X →
  ∃ s', RemovePieceFromBin s j = Ret s' ∧ same_outer s s' ∧
    Rep s' (<[j := set_bin_num (-1) q]> M) R ∧
    wf (alignment s) (mem_ptr2block s) (j :: X) (<[j := set_bin_num (-1) q]> M) ∧
    (∀ x, used_at (<[j := set_bin_num (-1) q]> M) x = used_at M x).
Proof.
  intros HR Hwf Hj Hf HjX. pose proof (wf_size _ _ _ _ Hwf _ _ Hj) as Hsz.
  destruct (RemovePieceFromBin_Rep s M R j q HR Hj Hf) as (s' & E & HR' & Ho).
  { rewrite (wf_bin _ _ _ _ Hwf _ _ Hj), Hf, bool_decide_true by done. simpl.
    pose proof (BinNum_range (size q) ltac:(lia)). lia. }
  exists s'. split_and!; try done.
  - apply (wf_flags _ _ X (j :: X) M j q); simpl; try done.
    + rewrite bool_decide_false, andb_false_r; [done|]. intros Hnot. apply Hnot. left.
    + intros k Hk. rewrite elem_of_cons. tauto.
    + left. left.
  - intros x. unfold used_at. destruct (decide (j = x)) as [<-|Hne]; [|by rewrite lookup_insert_ne].
    by rewrite lookup_insert_eq, Hj.
Qed.

Lemma redirect_free (M M' : gmap nat Piece) o v x q q' :
  M' !! x = redirect o v x <$> M !! x → M' !! x = Some q' → M !! x = Some q → is_free q' = is_free q.
Proof. intros E H1 H2. rewrite E, H2 in H1. by injection H1 as <-. Qed.

Lemma absorb_next_spec (s : state) M R i p :
  Rep s M R → wf (alignment s) (mem_ptr2block s) [i] M → M !! i = Some p → is_free p = true →
  ∃ s' M' R' p', absorb_next s i p = Ret s' ∧ same_outer s s' ∧ Rep s' M' R' ∧
    wf (alignment s) (mem_ptr2block s) [i] M' ∧ M' !! i = Some p' ∧ is_free p' = true ∧
    prev p' = prev p ∧ ptr p' = ptr p ∧
    (∀ j q, next p' = Some j → M' !! j = Some q → is_free q = false) ∧
    (∀ x, used_at M' x = used_at M x).
Proof.
  intros HR Hwf Hi Hf. unfold absorb_next. destruct (next p) as [j|] eqn:Hj.
  2: { exists s, M, R, p. rewrite Hj. done. }
  destruct (wf_next _ _ _ _ Hwf _ _ _ Hi Hj) as (q & Hq & Hpq & Haq).
  pose proof (wf_size _ _ _ _ Hwf _ _ Hi) as Hsi. pose proof (wf_size _ _ _ _ Hwf _ _ Hq) as Hsq.
  assert (j ≠ i) as Hji by (intros ->; assert (q = p) as -> by congruence; lia).
  rewrite (get_piece_Rep _ _ _ _ _ HR Hq). cbn [obind]. destruct (is_free q) eqn:Hfq.
  2: { exists s, M, R, p. rewrite Hj. split_and!; try done. intros ?? [= <-]. congruence. }
  rewrite u64_small, (proj2 (Z.eqb_eq _ _)) by (unfold is_u64; lia). cbn [CHECK obind].
  destruct (unbin_op s M R [i] j q HR Hwf Hq Hfq) as (s1 & -> & Ho1 & HR1 & Hwf1 & Hu1).
  { by rewrite list_elem_of_singleton. }
  cbn [obind]. set (M1 := <[j := set_bin_num (-1) q]> M) in *.
  assert (M1 !! i = Some p) as Hi1 by (unfold M1; by rewrite lookup_insert_ne).
  assert (M1 !! j = Some (set_bin_num (-1) q)) as Hj1 by (unfold M1; by rewrite lookup_insert_eq).
  rewrite <- (proj1 Ho1), <- (proj2 (proj2 (proj2 Ho1))) in Hwf1.
  destruct (merge_op s1 M1 R [j; i] [i] i j p (set_bin_num (-1) q) HR1 Hwf1 Hi1 Hj1) as
    (s2 & M2 & -> & HR2 & Ho2 & Hwf2 & Hi2 & Hu2 & Hx2); try done; [set_solver|set_solver|set_solver|].
  rewrite (proj1 Ho1), (proj2 (proj2 (proj2 Ho1))) in Hwf2.
  eexists s2, M2, _, _. split_and!; try done; [by etransitivity| |].
  - simpl. intros k r Hk Hr. destruct (wf_next _ _ _ _ Hwf _ _ _ Hq Hk) as (r0 & Hr0 & Hpr0 & Har0).
    assert (k ≠ i) as Hki by (intros ->; assert (r0 = p) as -> by congruence; lia).
    assert (k ≠ j) as Hkj by (intros ->; assert (r0 = q) as -> by congruence; lia).
    specialize (Hx2 k Hki Hkj). unfold M1 in Hx2. rewrite lookup_insert_ne in Hx2 by done.
    rewrite (redirect_free _ _ _ _ _ _ _ Hx2 Hr Hr0). destruct (is_free r0) eqn:Hfr; [|done].
    exfalso. by eapply (wf_coalesced _ _ _ _ Hwf j q k r0); try done; rewrite list_elem_of_singleton.
  - intros x. by rewrite Hu2, Hu1.
Qed.

Lemma absorb_prev_spec (s : state) M R i p :
  Rep s M R → wf (alignment s) (mem_ptr2block s) [i] M → M !! i = Some p → is_free p = true →
  (∀ j q, next p = Some j → M !! j = Some q → is_free q = false) →
  ∃ l s' M' R' p', absorb_prev s i (prev p) = Ret (l, s') ∧ same_outer s s' ∧ Rep s' M' R' ∧
    wf (alignment s) (mem_ptr2block s) [l] M' ∧ M' !! l = Some p' ∧ is_free p' = true ∧
    (∀ j q, next p' = Some j → M' !! j = Some q → is_free q = false) ∧
    (∀ j q, prev p' = Some j → M' !! j = Some q → is_free q = false) ∧
    (∀ x, used_at M' x = used_at M x).
Proof.
  intros HR Hwf Hi Hf Hnext. unfold absorb_prev. destruct (prev p) as [j|] eqn:Hj.
  2: { exists i, s, M, R, p. rewrite Hj. done. }
  destruct (wf_prev _ _ _ _ Hwf _ _ _ Hi Hj) as (q & Hq & Hnq).
  destruct (wf_next _ _ _ _ Hwf _ _ _ Hq Hnq) as (p0 & Hp0 & _ & Hap). assert (p0 = p) as -> by congruence.
  pose proof (wf_size _ _ _ _ Hwf _ _ Hi) as Hsi. pose proof (wf_size _ _ _ _ Hwf _ _ Hq) as Hsq.
  assert (j ≠ i) as Hji by (intros ->; assert (q = p) as -> by congruence; lia).
  rewrite (get_piece_Rep _ _ _ _ _ HR Hq). cbn [obind]. destruct (is_free q) eqn:Hfq.
  2: { exists i, s, M, R, p. rewrite Hj. split_and!; try done. intros ?? [= <-]. congruence. }
  rewrite (get_piece_Rep _ _ _ _ _ HR Hi). cbn [obind].
  rewrite u64_small, (proj2 (Z.eqb_eq _ _)) by (unfold is_u64; lia). cbn [CHECK obind].
  destruct (unbin_op s M R [i] j q HR Hwf Hq Hfq) as (s1 & -> & Ho1 & HR1 & Hwf1 & Hu1).
  { by rewrite list_elem_of_singleton. }
  cbn [obind]. set (M1 := <[j := set_bin_num (-1) q]> M) in *.
  assert (M1 !! i = Some p) as Hi1 by (unfold M1; by rewrite lookup_insert_ne).
  assert (M1 !! j = Some (set_bin_num (-1) q)) as Hj1 by (unfold M1; by rewrite lookup_insert_eq).
  rewrite <- (proj1 Ho1), <- (proj2 (proj2 (proj2 Ho1))) in Hwf1.
  destruct (merge_op s1 M1 R [j; i] [j] j i (set_bin_num (-1) q) p HR1 Hwf1 Hj1 Hi1) as
    (s2 & M2 & -> & HR2 & Ho2 & Hwf2 & Hj2 & Hu2 & Hx2); try done; [set_solver|set_solver|set_solver|].
  rewrite (proj1 Ho1), (proj2 (proj2 (proj2 Ho1))) in Hwf2.
  assert (∀ k r r0, M !! k = Some r0 → k ≠ i → k ≠ j → M2 !! k = Some r → is_free r = is_free r0) as Hsame.
  { intros k r r0 Hr0 Hki Hkj Hr. specialize (Hx2 k Hkj Hki). unfold M1 in Hx2.
    rewrite lookup_insert_ne in Hx2 by done. by apply (redirect_free _ _ _ _ _ _ _ Hx2). }
  cbn [obind]. eexists j, s2, M2, _, _. split_and!; try done; [by etransitivity| | |].
  - simpl. intros k r Hk Hr. destruct (wf_next _ _ _ _ Hwf _ _ _ Hi Hk) as (r0 & Hr0 & Hpr0 & Har0).
    rewrite (Hsame k r r0 Hr0); [by apply (Hnext k)| | |done];
      intros ->; [assert (r0 = p) as -> by congruence|assert (r0 = q) as -> by congruence]; lia.
  - simpl. intros k r Hk Hr. destruct (wf_prev _ _ _ _ Hwf _ _ _ Hq Hk) as (r0 & Hr0 & Hnr0).
    destruct (wf_next _ _ _ _ Hwf _ _ _ Hr0 Hnr0) as (q0 & Hq0 & _ & Haq). assert (q0 = q) as -> by congruence.
    pose proof (wf_size _ _ _ _ Hwf _ _ Hr0) as Hsr.
    assert (k ≠ i) as Hki by (intros ->; assert (r0 = p) as -> by congruence; lia).
    assert (k ≠ j) as Hkj by (intros ->; assert (r0 = q) as -> by congruence; lia).
    rewrite (Hsame k r r0 Hr0 Hki Hkj Hr). destruct (is_free r0) eqn:Hfr; [|done].
    exfalso. by eapply (wf_coalesced _ _ _ _ Hwf k r0 j q); try done; rewrite list_elem_of_singleton.
  - intros x. by rewrite Hu2, Hu1.
Qed.

Lemma Deallocate_spec (s : state) M R i p :
  Inv s M R → M !! i = Some p → is_free p = false →
  ∃ s' M' R', Deallocate s (ptr p) = Ret s' ∧ Inv s' M' R' ∧ same_outer s s' ∧
    used_at M' i = None ∧ (∀ x, x ≠ i → used_at M' x = used_at M x).
Proof.
  intros HI Hi Hf. pose proof (Inv_rep _ _ _ HI) as HR. pose proof (Inv_wf _ _ _ HI) as Hwf.
  unfold Deallocate. rewrite (proj2 (Z.eqb_neq _ _)) by (by eapply (rep_ptr _ _ _ HR)).
  assert (ptr2piece s !! ptr p = Some i) as -> by (apply (rep_marks _ _ _ HR); eauto).
  rewrite (get_piece_Rep _ _ _ _ _ HR Hi). cbn [obind]. rewrite Z.eqb_refl, Hf. cbn [negb CHECK obind].
  destruct (write_piece_Rep s M R i p (set_free true) HR Hi eq_refl eq_refl) as (s1 & -> & HR1 & Ho1 & _).
  cbn [obind]. set (p1 := set_free true p) in *. set (M1 := <[i := p1]> M) in *.
  assert (wf (alignment s1) (mem_ptr2block s1) [i] M1) as Hwf1.
  { rewrite (proj1 Ho1), (proj2 (proj2 (proj2 Ho1))).
    apply (wf_flags _ _ [] [i] M i p); try done.
    - change (bin_num p1) with (bin_num p). rewrite (wf_bin _ _ _ _ Hwf _ _ Hi), Hf.
      rewrite (bool_decide_false (i ∉ [i])) by set_solver. done.
    - intros j Hj. set_solver.
    - left. set_solver. }
  assert (M1 !! i = Some p1) as Hi1 by (unfold M1; by rewrite lookup_insert_eq).
  destruct (absorb_next_spec s1 M1 R i p1 HR1 Hwf1 Hi1 eq_refl) as
    (s2 & M2 & R2 & p2 & E2 & Ho2 & HR2 & Hwf2 & Hi2 & Hf2 & Hpr2 & Hpt2 & Hnx2 & Hu2).
  change (absorb_next s1 i p1) with (absorb_next s1 i p) in E2. rewrite E2. cbn [obind].
  rewrite <- (proj1 Ho2), <- (proj2 (proj2 (proj2 Ho2))) in Hwf2.
  destruct (absorb_prev_spec s2 M2 R2 i p2 HR2 Hwf2 Hi2 Hf2 Hnx2) as
    (l & s3 & M3 & R3 & p3 & E3 & Ho3 & HR3 & Hwf3 & Hl3 & Hf3 & Hnx3 & Hpv3 & Hu3).
  rewrite Hpr2 in E3. change (prev p1) with (prev p) in E3. rewrite E3. cbn [obind].
  pose proof (wf_size _ _ _ _ Hwf3 _ _ Hl3) as Hsz3.
  destruct (InsertPiece2Bin_Rep s3 M3 R3 l p3 HR3 Hl3 Hf3) as (s4 & -> & HR4 & Ho4).
  { rewrite (wf_bin _ _ _ _ Hwf3 _ _ Hl3), Hf3, bool_decide_false by set_solver. done. }
  { lia. }
  set (p4 := set_bin_num _ p3) in *. set (M4 := <[l := p4]> M3) in *.
  assert (same_outer s s4) as Hos by (by do 3 (etransitivity; [eassumption|])).
  assert (∀ x, used_at M4 x = used_at M1 x) as Hu.
  { intros x. rewrite <- Hu2, <- Hu3. unfold used_at, M4. destruct (decide (l = x)) as [<-|Hne].
    - rewrite lookup_insert_eq, Hl3. done.
    - by rewrite lookup_insert_ne. }
  assert (wf (alignment s) (mem_ptr2block s) [] M4) as Hwf4.
  { rewrite <- (proj1 (transitivity Ho1 Ho2 : same_outer s s2)),
      <- (proj2 (proj2 (proj2 (transitivity Ho1 Ho2 : same_outer s s2)))).
    apply (wf_flags _ _ [l] [] M3 l p3); try done.
    - change (is_free p4) with (is_free p3).
      rewrite Hf3, (bool_decide_true (l ∉ [])) by apply not_elem_of_nil. done.
    - intros j Hj. set_solver.
    - right. right. done. }
  exists s4, M4, R3. split; [done|]. split; [apply (Inv_outer s s4); try done; apply HI|].
  split; [done|]. split.
  - rewrite Hu. unfold used_at. by rewrite Hi1.
  - intros x Hx. rewrite Hu. unfold used_at, M1. by rewrite lookup_insert_ne.
Qed.

(** C22 Freeing a live allocation never aborts: it ends that allocation, leaves all
    the others as they are and keeps the invariant (so the freed piece has been
    merged with its free neighbours and is in the right bin). *)
Theorem Deallocate_correct (s : state) (p m : Z) :
  AllocatorInv s → live_size s p = Some m →
  ∃ s', Deallocate s p = Ret s' ∧ AllocatorInv s' ∧ mem_ptr2block s' = mem_ptr2block s ∧
    live_size s' p = None ∧ ∀ a, a ≠ p → live_size s' a = live_size s a.
Proof.
  intros (M & R & HI) Hp. apply (live_size_Rep _ _ _ _ _ (Inv_rep _ _ _ HI)) in Hp as (i & Hi).
  assert (∃ q, M !! i = Some q ∧ is_free q = false ∧ ptr q = p) as (q & Hq & Hf & <-).
  { unfold used_at in Hi. destruct (M !! i) as [q|]; [|done]. exists q. destruct (is_free q); naive_solver. }
  destruct (Deallocate_spec s M R i q HI Hq Hf) as (s' & M' & R' & E & HI' & Ho & Hui & Hx).
  exists s'. split; [done|]. split; [by exists M', R'|]. split; [apply Ho|].
  assert (∀ a k, live_in M' a k ↔ live_in M a k ∧ a ≠ ptr q) as Hlive.
  { intros a k. split.
    - intros (x & Hxa). assert (x ≠ i) as Hxi by congruence. rewrite Hx in Hxa by done.
      split; [by exists x|]. intros ->. apply Hxi.
      unfold used_at in Hxa. destruct (M !! x) as [r|] eqn:Er; [|done].
      apply (Rep_ptr_inj s M R x i r q (Inv_rep _ _ _ HI) Er Hq). destruct (is_free r); naive_solver.
    - intros [(x & Hxa) Hne]. exists x. rewrite Hx; [done|]. intros ->.
      unfold used_at in Hxa. rewrite Hq, Hf in Hxa. naive_solver. }
  split.
  - destruct (live_size s' (ptr q)) as [k|] eqn:Ek; [|done]. exfalso.
    apply (live_size_Rep _ _ _ _ _ (Inv_rep _ _ _ HI')), Hlive in Ek. tauto.
  - intros a Ha. apply option_eq. intros k.
    rewrite (live_size_Rep _ _ _ _ _ (Inv_rep _ _ _ HI')), (live_size_Rep _ _ _ _ _ (Inv_rep _ _ _ HI)), Hlive.
    tauto.
Qed.
End public.
