(* ===== verification/BinAllocatorGc.v ===== *)
(** * The allocator: garbage collection and histories

    [DeallocateFreeBlockForGarbageCollection] returns the blocks without a used
    piece to the backend.  It walks the linked pieces of a block; the walk is
    shown to visit exactly the pieces inside the block, so it terminates and
    removes all of them.  The last section puts the operations together into
    histories of an allocator. *)
From S2P Require Import Prelude Util BinAllocator BinAllocatorRep BinAllocatorSpec.

(** ** The chain of pieces of a block *)

Fixpoint path (M : gmap nat Piece) (o : option nat) (c : list nat) : Prop :=
  match c with
  | [] => o = None
  | i :: c => o = Some i ∧ ∃ p, M !! i = Some p ∧ path M (next p) c
  end.

Definition size_at (M : gmap nat Piece) (x : nat) : Z :=
  match M !! x with Some p => size p | None => 0 end.

Lemma path_frame (M M' : gmap nat Piece) o c :
  (∀ x, x ∈ c → M' !! x = M !! x) → path M o c → path M' o c.
Proof.
  revert o. induction c as [|i c IH]; simpl; intros o Hf; [done|].
  intros (-> & p & Hp & Hc). split; [done|]. exists p. rewrite Hf by left. split; [done|].
  apply IH; [|done]. intros x Hx. apply Hf. by right.
Qed.

Section chain.
Context (al : Z) (blocks : gmap Z Block) (X : list nat) (M : gmap nat Piece) (b : Block).
Context (Hwf : wf al blocks X M) (Hb : blocks !! block_ptr b = Some b).

(** A piece with an address inside a block lies inside it, and its links say
    where the block begins and ends. *)
Lemma inside_block x q a :
  M !! x = Some q → ptr q ≤ a < ptr q + size q → block_ptr b ≤ a < block_ptr b + block_size b →
  inside q b ∧ (prev q = None ↔ ptr q = block_ptr b) ∧
  (next q = None ↔ ptr q + size q = block_ptr b + block_size b).
Proof.
  intros Hq Ha Hab. destruct (wf_block _ _ _ _ Hwf _ _ Hq) as (b' & Hb' & Hin & Hp & Hn).
  unfold inside in *.
  assert (b = b') as <- by (apply (block_unique _ _ _ _ b b' a Hwf); lia || done). done.
Qed.

(** The next piece of a piece inside the block is inside the block too. *)
Lemma inside_next x q j :
  M !! x = Some q → inside q b → next q = Some j →
  ∃ r, M !! j = Some r ∧ inside r b ∧ ptr r = ptr q + size q.
Proof.
  intros Hq Hin Hj. destruct (wf_next _ _ _ _ Hwf _ _ _ Hq Hj) as (r & Hr & _ & Ha).
  pose proof (wf_size _ _ _ _ Hwf _ _ Hq) as Hs. pose proof (wf_size _ _ _ _ Hwf _ _ Hr) as Hsr.
  unfold inside in Hin.
  destruct (inside_block x q (ptr q) Hq ltac:(lia) ltac:(lia)) as (_ & _ & Hn).
  assert (ptr q + size q ≠ block_ptr b + block_size b) by (rewrite <- Hn; congruence).
  exists r. split_and!; [done| |done]. apply (inside_block j r (ptr r) Hr); lia.
Qed.

Lemma block_chain (n : nat) i p :
  M !! i = Some p → inside p b → block_ptr b + block_size b - ptr p ≤ Z.of_nat n →
  ∃ c, path M (Some i) c ∧ NoDup c ∧
    (∀ x, x ∈ c ↔ ∃ q, M !! x = Some q ∧ inside q b ∧ ptr p ≤ ptr q) ∧
    sumZ (map (size_at M) c) = block_ptr b + block_size b - ptr p.
Proof.
  revert i p. induction n as [|n IH]; intros i p Hi Hin Hn;
    pose proof (wf_size _ _ _ _ Hwf _ _ Hi) as Hs; [unfold inside in Hin; lia|].
  destruct (inside_block i p (ptr p) Hi ltac:(lia) ltac:(unfold inside in Hin; lia)) as (_ & _ & Hend).
  assert (∀ x q, M !! x = Some q → ptr p ≤ ptr q → x = i ∨ ptr p + size p ≤ ptr q) as Hafter.
  { intros x q Hq Hle. destruct (decide (x = i)); [by left|right].
    pose proof (wf_disjoint _ _ _ _ Hwf _ _ _ _ Hq Hi ltac:(done)).
    pose proof (wf_size _ _ _ _ Hwf _ _ Hq). lia. }
  destruct (next p) as [j|] eqn:Hj.
  - destruct (inside_next i p j Hi Hin Hj) as (r & Hr & Hinr & Har).
    destruct (IH j r Hr Hinr ltac:(lia)) as (c & Hpath & Hnd & Hc & Hsum).
    exists (i :: c). split_and!.
    + split; [done|]. exists p. by rewrite Hj.
    + constructor; [|done]. rewrite Hc. intros (q & Hq & _ & Hle). assert (q = p) as -> by congruence. lia.
    + intros x. rewrite elem_of_cons, Hc. split.
      * intros [->|(q & Hq & Hinq & Hle)]; [by exists p|]. exists q. split_and!; [done|done|lia].
      * intros (q & Hq & Hinq & Hle). destruct (Hafter x q Hq Hle) as [->|]; [by left|right].
        exists q. split_and!; [done|done|lia].
    + cbn [map]. rewrite sumZ_cons, Hsum. unfold size_at at 1. rewrite Hi. lia.
  - exists [i]. assert (ptr p + size p = block_ptr b + block_size b) by tauto. split_and!.
    + simpl. eauto.
    + apply NoDup_singleton.
    + intros x. rewrite list_elem_of_singleton. split; [intros ->; by exists p|].
      intros (q & Hq & Hinq & Hle). destruct (Hafter x q Hq Hle) as [->|]; [done|].
      pose proof (wf_size _ _ _ _ Hwf _ _ Hq). unfold inside in Hinq. lia.
    + cbn [map]. rewrite sumZ_cons, sumZ_nil. unfold size_at. rewrite Hi. lia.
Qed.

(** The chain of a whole block. *)
Lemma whole_chain :
  ∃ c, path M (Some (start_piece b)) c ∧ NoDup c ∧
    (∀ x, x ∈ c ↔ ∃ q, M !! x = Some q ∧ inside q b) ∧ sumZ (map (size_at M) c) = block_size b.
Proof.
  destruct (wf_blocks _ _ _ _ Hwf _ _ Hb) as (_ & Hbs & p & Hp & Ep).
  pose proof (wf_size _ _ _ _ Hwf _ _ Hp) as Hs.
  destruct (inside_block _ p (ptr p) Hp ltac:(lia) ltac:(lia)) as (Hin & _).
  destruct (block_chain (Z.to_nat (block_size b)) _ p Hp Hin ltac:(lia)) as (c & Hpath & Hnd & Hc & Hsum).
  exists c. split_and!; [done|done| |lia]. intros x. rewrite Hc. split.
  - intros (q & ? & ? & ?). eauto.
  - intros (q & ? & Hinq). exists q. split_and!; [done|done|]. unfold inside in Hinq. lia.
Qed.

(** Removing a block with all its pieces. *)
Lemma wf_drop_block M' :
  X = [] → (∀ x q, M' !! x = Some q ↔ M !! x = Some q ∧ ¬ inside q b) →
  wf al (delete (block_ptr b) blocks) [] M'.
Proof.
  intros EX HM. rewrite <- EX. constructor.
  - intros i p [Hi _]%HM. by apply (wf_size _ _ _ _ Hwf i).
  - intros i p j [Hi Hout]%HM Hj. destruct (wf_next _ _ _ _ Hwf _ _ _ Hi Hj) as (q & Hq & Hpq & Ha).
    exists q. split_and!; [|done|done]. apply HM. split; [done|]. intros Hin. apply Hout.
    destruct (wf_block _ _ _ _ Hwf _ _ Hi) as (b0 & Hb0 & Hin0 & _ & Hn0).
    pose proof (wf_size _ _ _ _ Hwf _ _ Hi). pose proof (wf_size _ _ _ _ Hwf _ _ Hq). unfold inside in *.
    assert (ptr p + size p ≠ block_ptr b0 + block_size b0) by (rewrite <- Hn0; congruence).
    assert (b0 = b) as -> by (apply (block_unique _ _ _ _ b0 b (ptr q) Hwf); lia || done). done.
  - intros i p j [Hi Hout]%HM Hj. destruct (wf_prev _ _ _ _ Hwf _ _ _ Hi Hj) as (q & Hq & Hnq).
    exists q. split; [|done]. apply HM. split; [done|]. intros Hin. apply Hout.
    destruct (inside_next j q i Hq Hin Hnq) as (r & Hr & Hinr & _). by assert (r = p) as <- by congruence.
  - intros i p [Hi _]%HM. by apply (wf_bin _ _ _ _ Hwf).
  - intros i p j q [Hi _]%HM Hj [Hq _]%HM. by apply (wf_coalesced _ _ _ _ Hwf i p j q).
  - intros i j p q [Hi _]%HM [Hj _]%HM. by apply (wf_disjoint _ _ _ _ Hwf i j).
  - intros i p [Hi Hout]%HM. destruct (wf_block _ _ _ _ Hwf _ _ Hi) as (b0 & Hb0 & Hin0 & ?).
    exists b0. split; [|done]. rewrite lookup_delete_ne; [done|]. intros E. rewrite <- E in Hb0.
    assert (b0 = b) as -> by congruence. done.
  - intros a b0. rewrite lookup_delete_Some. intros [Hne Hb0].
    destruct (wf_blocks _ _ _ _ Hwf _ _ Hb0) as (Ea & Hbs & p & Hp & Ep). split; [done|]. split; [done|].
    exists p. split; [|done]. apply HM. split; [done|]. intros Hin. apply Hne.
    pose proof (wf_size _ _ _ _ Hwf _ _ Hp). unfold inside in Hin. rewrite <- Ea in Hb0.
    assert (b0 = b) as -> by (apply (block_unique _ _ _ _ b0 b (ptr p) Hwf); lia || done). done.
  - intros a a' b0 b1. rewrite !lookup_delete_Some. intros [_ H0] [_ H1].
    by apply (wf_blocks_disjoint _ _ _ _ Hwf a a').
Qed.
End chain.

Section gc.
Context {B : Type} `{!Backend B} `{!BackendSpec B}.
#[local] Abbreviation state := (allocator (B := B)).

(** The walk fits into the vector of pieces. *)
Lemma chain_fuel (s : state) M R c :
  Rep s M R → NoDup c → (∀ x, x ∈ c → is_Some (M !! x)) → (length c ≤ length (pieces s))%nat.
Proof.
  intros HR Hnd Hc.
  assert (c ⊆ seq 0 (length (pieces s))) as Hsub.
  { intros x Hx. apply elem_of_seq. destruct (Hc x Hx) as [p Hp].
    apply (rep_pieces _ _ _ HR), lookup_lt_Some in Hp. lia. }
  rewrite <- (length_seq (length (pieces s)) 0). by apply NoDup_incl_length; [apply NoDup_ListNoDup|intros x Hx; apply list_elem_of_In, Hsub, list_elem_of_In].
Qed.

Lemma all_free_spec (s : state) M R (c : list nat) (o : option nat) (fuel : nat) :
  Rep s M R → path M o c → (length c ≤ fuel)%nat →
  ∃ f, all_free fuel s o = Ret f ∧
    if f then ∀ x q, x ∈ c → M !! x = Some q → is_free q = true
    else ∃ x q, x ∈ c ∧ M !! x = Some q ∧ is_free q = false.
Proof.
  intros HR. revert o fuel. induction c as [|i c IH]; intros o fuel Hp Hlen; simpl in Hp.
  - subst o. exists true. destruct fuel; (split; [done|]); intros x q Hx;
      by apply not_elem_of_nil in Hx.
  - destruct Hp as (-> & p & Hi & Hp). destruct fuel as [|fuel]; simpl in Hlen; [lia|].
    cbn [all_free]. rewrite (get_piece_Rep _ _ _ _ _ HR Hi). cbn [obind].
    destruct (is_free p) eqn:Hf.
    + destruct (IH (next p) fuel Hp ltac:(lia)) as (f & -> & Hf'). exists f. split; [done|]. destruct f.
      * intros x q. rewrite elem_of_cons. intros [->|Hx] Hq; [congruence|by eapply Hf'].
      * destruct Hf' as (x & q & Hx & ?). exists x, q. split; [by right|done].
    + exists false. split; [done|]. exists i, p. split_and!; [left|done|done].
Qed.

(** The deletion loop removes the pieces of the chain and adds up their sizes. *)
Lemma delete_pieces_spec (s : state) M R (c : list nat) (o : option nat) (fuel : nat) (sum : Z) :
  Rep s M R → path M o c → NoDup c → (length c ≤ fuel)%nat →
  (∀ x q, x ∈ c → M !! x = Some q → is_free q = true ∧ bin_num q ≠ -1 ∧ 0 < size q) →
  0 ≤ sum → sum + sumZ (map (size_at M) c) < u64_modulus →
  ∃ s' M' R', delete_pieces fuel s o sum = Ret (sum + sumZ (map (size_at M) c), s') ∧
    Rep s' M' R' ∧ same_outer s s' ∧ (∀ x, M' !! x = if decide (x ∈ c) then None else M !! x).
Proof.
  revert s M R o fuel sum. induction c as [|i c IH]; intros s M R o fuel sum HR Hp Hnd Hlen Hall H0 Hsum;
    simpl in Hp.
  - subst o. exists s, M, R. cbn [map]. rewrite sumZ_nil, Z.add_0_r. destruct fuel; split_and!; try done;
      intros x; by rewrite decide_False by apply not_elem_of_nil.
  - destruct Hp as (-> & p & Hi & Hp). destruct fuel as [|fuel]; simpl in Hlen; [lia|].
    apply NoDup_cons in Hnd as [Hni Hnd].
    destruct (Hall i p ltac:(left) Hi) as (Hf & Hb & Hs).
    cbn [delete_pieces]. rewrite (get_piece_Rep _ _ _ _ _ HR Hi). cbn [obind].
    destruct (RemovePieceFromBin_Rep s M R i p HR Hi Hf Hb) as (s1 & -> & HR1 & Ho1). cbn [obind].
    destruct (drop_piece_Rep s1 _ R i (set_bin_num (-1) p) HR1 ltac:(by rewrite lookup_insert_eq) eq_refl)
      as (s2 & E & HR2 & Ho2 & _).
    apply obind_Ret in E as (s1' & -> & E). cbn [obind]. rewrite E. cbn [obind].
    rewrite delete_insert_eq in HR2.
    assert (∀ x, x ∈ c → delete i M !! x = M !! x) as Hfr
      by (intros x Hx; rewrite lookup_delete_ne; [done|congruence]).
    assert (map (size_at (delete i M)) c = map (size_at M) c) as Hmap.
    { apply map_ext_in. intros x Hx%list_elem_of_In. unfold size_at. by rewrite Hfr. }
    assert (0 ≤ sumZ (map (size_at M) c)) as Hnn.
    { unfold sumZ. clear -Hall. induction c as [|j c IH]; simpl; [lia|].
      assert (0 ≤ size_at M j).
      { unfold size_at. destruct (M !! j) eqn:E; [|lia].
        destruct (Hall j p ltac:(right; left) E) as (_ & _ & ?). lia. }
      assert (0 ≤ foldr Z.add 0 (map (size_at M) c)); [|lia].
      apply IH. intros x q Hx. apply Hall. rewrite elem_of_cons in Hx |- *. destruct Hx; [by left|right; by right]. }
    assert (size_at M i = size p) as Hsi by (unfold size_at; by rewrite Hi).
    cbn [map] in Hsum |- *. rewrite sumZ_cons, Hsi in *.
    destruct (IH s2 (delete i M) (i :: R) (next p) fuel (u64 (sum + size p))) as (s3 & M3 & R3 & -> & HR3 & Ho3 & HM3);
      try done; rewrite ?Hmap, ?u64_small by (unfold is_u64; lia); try lia.
    { by apply (path_frame M). }
    { intros x q Hx. rewrite Hfr by done. apply Hall. by right. }
    exists s3, M3, R3.
    split_and!; [do 2 f_equal; lia|done|by do 2 (etransitivity; [eassumption|])|].
    intros x. rewrite HM3. destruct (decide (x ∈ c)) as [Hx|Hx].
    + by rewrite decide_True by (by right).
    + destruct (decide (x = i)) as [->|Hne].
      * rewrite lookup_delete_eq. by rewrite decide_True by left.
      * rewrite lookup_delete_ne by done. rewrite decide_False; [done|]. rewrite elem_of_cons. tauto.
Qed.

(** A block all of whose pieces are free goes back to the backend. *)
Definition free_block (M : gmap nat Piece) (b : Block) : Prop :=
  ∀ x q, M !! x = Some q → inside q b → is_free q = true.

Lemma delete_block_spec (s : state) M R a b :
  Inv s M R → mem_ptr2block s !! a = Some b → free_block M b →
  ∃ s' M' R', delete_block s a = Ret s' ∧ Inv s' M' R' ∧
    mem_ptr2block s' = delete a (mem_ptr2block s) ∧ (∀ x, used_at M' x = used_at M x) ∧
    (∀ x q, M' !! x = Some q ↔ M !! x = Some q ∧ ¬ inside q b).
Proof.
  intros HI Hb Hfree. pose proof (Inv_rep _ _ _ HI) as HR. pose proof (Inv_wf _ _ _ HI) as Hwf.
  destruct (wf_blocks _ _ _ _ Hwf _ _ Hb) as (Ea & Hbs & p & Hp & Ep).
  pose proof Hb as Hb0. rewrite <- Ea in Hb. destruct (whole_chain _ _ _ _ _ Hwf Hb) as (c & Hpath & Hnd & Hc & Hsum).
  unfold delete_block. rewrite Hb0.
  rewrite (get_piece_Rep _ _ _ _ _ HR Hp). cbn [obind].
  rewrite Ep, !Ea, Z.eqb_refl. cbn [CHECK obind].
  destruct (delete_pieces_spec s M R c (Some (start_piece b)) (length (pieces s)) 0 HR Hpath Hnd)
    as (s1 & M1 & R1 & -> & HR1 & Ho1 & HM1); [| |lia|lia|].
  { apply (chain_fuel s M R); try done. intros x (q & Hq & _)%Hc. eauto. }
  { intros x q (q' & Hq' & Hin)%Hc Hq. assert (q' = q) as -> by congruence.
    pose proof (wf_size _ _ _ _ Hwf _ _ Hq). pose proof (Hfree _ _ Hq Hin) as Hf. split_and!; [done| |lia].
    rewrite (wf_bin _ _ _ _ Hwf _ _ Hq), Hf, bool_decide_true by apply not_elem_of_nil. simpl.
    pose proof (BinNum_range (size q) ltac:(lia)). lia. }
  cbn [obind]. rewrite Z.add_0_l, Hsum, Z.eqb_refl. cbn [CHECK obind].
  destruct Ho1 as (E1 & E2 & E3 & E4). rewrite E4.
  destruct (b_deallocate_live (backend s) a (block_size b)) as (bk & Hbk & Hlive).
  { rewrite (Inv_backend _ _ _ HI), lookup_fmap, <- Ea, Hb. done. }
  change (backend (set_blocks ?x s1)) with (backend s1). rewrite E2, Hbk. cbn [obind].
  assert (∀ x q, M1 !! x = Some q ↔ M !! x = Some q ∧ ¬ inside q b) as HMq.
  { intros x q. rewrite HM1. destruct (decide (x ∈ c)) as [Hx|Hx].
    - apply Hc in Hx as (q' & Hq' & Hin). naive_solver congruence.
    - rewrite Hc in Hx. naive_solver. }
  eexists _, M1, R1. split; [done|]. split_and!; [|done| |done].
  - constructor; simpl; rewrite ?E1.
    + destruct HR1; constructor; done.
    + rewrite <- Ea. by apply (wf_drop_block (alignment s) (mem_ptr2block s) [] M b Hwf Hb).
    + apply HI.
    + by rewrite Hlive, (Inv_backend _ _ _ HI), fmap_delete.
  - intros x. unfold used_at. rewrite HM1. destruct (decide (x ∈ c)) as [Hx|Hx]; [|done].
    apply Hc in Hx as (q & Hq & Hin). by rewrite Hq, (Hfree x q Hq Hin).
Qed.

(** *** The sizes of disjoint blocks do not add up beyond the address space *)

Fixpoint block_bytes_sum (bl : list (Z * Block)) : Z :=
  match bl with [] => 0 | (_, b) :: bl => block_size b + block_bytes_sum bl end.

Lemma path_end (M : gmap nat Piece) (c : list nat) : ∀ i, path M (Some i) c →
  ∃ x p, x ∈ c ∧ M !! x = Some p ∧ next p = None.
Proof.
  induction c as [|i c IH]; intros j; cbn [path]; [done|]. intros (_ & p & Hp & Hc).
  destruct (next p) as [k|] eqn:En; [|exists i, p; split_and!; [left|done|done]].
  destruct (IH k Hc) as (x & q & Hx & ? & ?). exists x, q. split_and!; [by right|done|done].
Qed.

Lemma block_end (s : state) M R (a : Z) (b : Block) : Inv s M R → mem_ptr2block s !! a = Some b →
  0 < a ∧ 0 < block_size b ∧ a + block_size b < u64_modulus.
Proof.
  intros HI Hb. pose proof (Inv_wf _ _ _ HI) as Hwf. destruct (wf_blocks _ _ _ _ Hwf _ _ Hb) as (Ea & Hbs & p0 & Hp0 & Ep0).
  pose proof (wf_size _ _ _ _ Hwf _ _ Hp0). rewrite <- Ea in Hb. destruct (whole_chain _ _ _ _ _ Hwf Hb) as (c & Hpath & _ & Hc & _).
  destruct (path_end M c _ Hpath) as (x & p & Hx & Hp & Hn). apply Hc in Hx as (p' & Hp' & Hin). rewrite Hp in Hp'. injection Hp' as <-.
  destruct (wf_block _ _ _ _ Hwf x p Hp) as (b' & Hb' & Hin' & _ & Hlast). pose proof (wf_size _ _ _ _ Hwf _ _ Hp) as (Hs & _ & _ & He).
  unfold inside in *. assert (b' = b) as -> by (apply (block_unique _ _ _ M b' b (ptr p) Hwf); try done; lia).
  apply Hlast in Hn. lia.
Qed.

(** The addresses of disjoint blocks. *)
Lemma block_addresses (bl : list (Z * Block)) :
  NoDup bl.*1 → (∀ a b, (a, b) ∈ bl → 0 < a ∧ 0 < block_size b ∧ a + block_size b < u64_modulus) →
  (∀ a b a' b', (a, b) ∈ bl → (a', b') ∈ bl → a ≠ a' → a + block_size b ≤ a' ∨ a' + block_size b' ≤ a) →
  0 ≤ block_bytes_sum bl ∧ ∃ U : gset Z, base.size U = Z.to_nat (block_bytes_sum bl) ∧
    ∀ x, x ∈ U → ∃ a b, (a, b) ∈ bl ∧ a ≤ x < a + block_size b.
Proof.
  induction bl as [|[a b] bl IH]; intros Hnd Hb Hdis; cbn [block_bytes_sum].
  { split; [done|]. exists ∅. split; [done|]. by intros x ?%elem_of_empty. }
  cbn in Hnd. apply NoDup_cons in Hnd as [Hna Hnd]. destruct (Hb a b ltac:(left)) as (H1 & H2 & H3).
  destruct IH as (Hs & U & HU & Hx); [done|intros; apply Hb; by right|intros a1 b1 a2 b2 ? ?; apply Hdis; by right|].
  split; [lia|]. exists (list_to_set (seqZ a (block_size b)) ∪ U). split.
  - rewrite size_union; [rewrite size_list_to_set, length_seqZ, HU by apply NoDup_seqZ; lia|].
    intros x Hxa%elem_of_list_to_set%elem_of_seqZ (a' & b' & Hin & Hx')%Hx.
    assert (a ≠ a') as Hne by (intros ->; apply Hna; by apply (list_elem_of_fmap_2 fst) in Hin).
    destruct (Hdis a b a' b' ltac:(left) ltac:(by right) Hne); lia.
  - intros x [Hxa%elem_of_list_to_set%elem_of_seqZ|(a' & b' & Hin & Hx')%Hx]%elem_of_union.
    + exists a, b. split; [left|lia].
    + exists a', b'. split; [by right|done].
Qed.

Lemma block_bytes_bound (bl : list (Z * Block)) :
  NoDup bl.*1 → (∀ a b, (a, b) ∈ bl → 0 < a ∧ 0 < block_size b ∧ a + block_size b < u64_modulus) →
  (∀ a b a' b', (a, b) ∈ bl → (a', b') ∈ bl → a ≠ a' → a + block_size b ≤ a' ∨ a' + block_size b' ≤ a) →
  block_bytes_sum bl < u64_modulus.
Proof.
  intros Hnd Hb Hdis. destruct (block_addresses bl Hnd Hb Hdis) as (Hs & U & HU & Hx).
  assert (U ⊆ list_to_set (seqZ 1 (u64_modulus - 1))) as Hsub%subseteq_size.
  { intros x (a & b & Hin & Hx')%Hx. apply elem_of_list_to_set, elem_of_seqZ. pose proof (Hb a b Hin). lia. }
  rewrite size_list_to_set, length_seqZ, HU in Hsub by apply NoDup_seqZ.
  apply Z2Nat.inj_le in Hsub; [|done|unfold u64_modulus; lia]. unfold u64_modulus in *. lia.
Qed.

(** The scan finds exactly the blocks without a used piece. *)
Lemma free_blocks_spec (s : state) M R (bl : list (Z * Block)) :
  Inv s M R → (∀ a b, (a, b) ∈ bl → mem_ptr2block s !! a = Some b) → NoDup bl.*1 → block_bytes_sum bl < u64_modulus →
  ∃ total l, free_blocks s bl = Ret (total, l) ∧ 0 ≤ total ≤ block_bytes_sum bl ∧ (total = 0 ↔ l = []) ∧ NoDup l ∧ (∀ a, a ∈ l → a ∈ bl.*1) ∧
    (∀ a b, (a, b) ∈ bl → a ∈ l → free_block M b) ∧
    (∀ a b, (a, b) ∈ bl → a ∉ l → ∃ x q, M !! x = Some q ∧ inside q b ∧ is_free q = false).
Proof.
  intros HI. pose proof (Inv_rep _ _ _ HI) as HR. pose proof (Inv_wf _ _ _ HI) as Hwf.
  induction bl as [|[a b] bl IH]; intros Hbl Hnd Hsum; cbn [free_blocks block_bytes_sum] in *.
  { exists 0, []. split_and!; [done|done|done|done|constructor|set_solver|set_solver|set_solver]. }
  cbn in Hnd. apply NoDup_cons in Hnd as [Hna Hnd].
  pose proof (Hbl a b ltac:(left)) as Hb. destruct (wf_blocks _ _ _ _ Hwf _ _ Hb) as (Ea & Hbs & _).
  rewrite <- Ea in Hb. destruct (whole_chain _ _ _ _ _ Hwf Hb) as (c & Hpath & Hndc & Hc & _).
  destruct (all_free_spec s M R c _ (length (pieces s)) HR Hpath) as (f & -> & Hf).
  { apply (chain_fuel s M R); try done. intros x (q & Hq & _)%Hc. eauto. }
  destruct IH as (total & l & -> & Ht & Htl & Hndl & Hsub & Hin & Hout);
    [intros a' b' H; apply Hbl; by right|done|lia|].
  cbn [obind]. destruct f.
  - rewrite u64_small by (unfold is_u64; lia). eexists _, _. split; [done|]. split; [lia|].
    split; [split; [intros; exfalso; lia|done]|]. split_and!.
    + constructor; [|done]. intros H. by apply Hsub in H.
    + intros a'. cbn. rewrite !elem_of_cons. intros [->|H]; [by left|right; by apply Hsub].
    + intros a' b'. rewrite !elem_of_cons. intros [E|H] Hl.
      * injection E as -> ->. intros x q Hq Hinq. apply (Hf x q); [apply Hc; eauto|done].
      * destruct Hl as [->|Hl]; [|by apply (Hin a')]. exfalso. apply Hna. by apply (list_elem_of_fmap_2 fst) in H.
    + intros a' b'. rewrite !elem_of_cons. intros [E|H] Hl; [injection E as -> ->; tauto|].
      apply (Hout a' b' H). tauto.
  - eexists _, _. split; [done|]. split; [lia|]. split_and!; [exact Htl|done| | |].
    + intros a' H. cbn. right. by apply Hsub.
    + intros a' b'. rewrite elem_of_cons. intros [E|H] Hl; [|by apply (Hin a')].
      injection E as -> ->. by apply Hsub in Hl.
    + intros a' b'. rewrite elem_of_cons. intros [E|H] Hl; [|by apply (Hout a')].
      injection E as -> ->. destruct Hf as (x & q & Hx & Hq & Hfq). apply Hc in Hx as (q' & Hq' & Hinq).
      exists x, q. split_and!; [done|congruence|done].
Qed.

Lemma delete_blocks_spec (l : list Z) (s : state) M R :
  Inv s M R → NoDup l → (∀ a, a ∈ l → ∃ b, mem_ptr2block s !! a = Some b ∧ free_block M b) →
  ∃ s' M' R', ofold delete_block l s = Ret s' ∧ Inv s' M' R' ∧ (∀ x, used_at M' x = used_at M x) ∧
    (∀ a, mem_ptr2block s' !! a = if decide (a ∈ l) then None else mem_ptr2block s !! a).
Proof.
  revert s M R. induction l as [|a l IH]; intros s M R HI Hnd Hl; cbn [ofold].
  { exists s, M, R. by split_and!. }
  apply NoDup_cons in Hnd as [Hna Hnd]. destruct (Hl a ltac:(left)) as (b & Hb & Hfree).
  destruct (delete_block_spec s M R a b HI Hb Hfree) as (s1 & M1 & R1 & -> & HI1 & Hbl & Hu1 & HM1). cbn [obind].
  destruct (IH s1 M1 R1 HI1 Hnd) as (s2 & M2 & R2 & -> & HI2 & Hu2 & Hbl2).
  { intros a' Ha'. destruct (Hl a' ltac:(by right)) as (b' & Hb' & Hfree'). exists b'. split.
    - rewrite Hbl, lookup_delete_ne; [done|]. congruence.
    - intros x q [Hq _]%HM1. by apply (Hfree' x). }
  exists s2, M2, R2. split_and!; [done|done|intros x; by rewrite Hu2, Hu1|].
  intros a'. rewrite Hbl2, Hbl. destruct (decide (a' ∈ l)) as [Hin|Hnin].
  - by rewrite decide_True by (by right).
  - destruct (decide (a' = a)) as [->|Hne].
    + rewrite lookup_delete_eq. by rewrite decide_True by left.
    + rewrite lookup_delete_ne by done. rewrite decide_False; [done|]. rewrite elem_of_cons. tauto.
Qed.

(** A block with a live allocation inside. *)
Definition in_use (s : state) (a : Z) (b : Block) : Prop :=
  ∃ p m, live_size s p = Some m ∧ a ≤ p ∧ p + m ≤ a + block_size b.

Lemma in_use_piece (s : state) M R (a : Z) (b : Block) : Inv s M R → mem_ptr2block s !! a = Some b →
  in_use s a b ↔ ∃ x q, M !! x = Some q ∧ inside q b ∧ is_free q = false.
Proof.
  intros HI Hb. destruct (wf_blocks _ _ _ _ (Inv_wf _ _ _ HI) _ _ Hb) as (Ea & _). unfold in_use, inside. rewrite Ea. split.
  - intros (p & m & Hl & H1 & H2). apply (live_size_Rep _ _ _ _ _ (Inv_rep _ _ _ HI)) in Hl as (x & Hx).
    unfold used_at in Hx. destruct (M !! x) as [q|] eqn:Hq; [|done]. destruct (is_free q) eqn:Hf; [done|]. injection Hx as <- <-. by exists x, q.
  - intros (x & q & Hq & Hin & Hf). exists (ptr q), (size q). split; [|exact Hin].
    apply (live_size_Rep _ _ _ _ _ (Inv_rep _ _ _ HI)). exists x. unfold used_at. by rewrite Hq, Hf.
Qed.

Lemma gc_spec (s : state) M R :
  Inv s M R → ∃ r s' M' R', DeallocateFreeBlockForGarbageCollection s = Ret (r, s') ∧ Inv s' M' R' ∧
    (∀ x, used_at M' x = used_at M x) ∧
    (∀ a b, mem_ptr2block s' !! a = Some b ↔ mem_ptr2block s !! a = Some b ∧ in_use s a b) ∧
    (r = true ↔ mem_ptr2block s' ≠ mem_ptr2block s).
Proof.
  intros HI. unfold DeallocateFreeBlockForGarbageCollection.
  destruct (free_blocks_spec s M R (map_to_list (mem_ptr2block s)) HI) as (total & l & -> & Ht0 & Htl & Hnd & Hsub & Hin & Hout).
  { intros a b. by rewrite elem_of_map_to_list. }
  { apply NoDup_fst_map_to_list. }
  { pose proof (Inv_wf _ _ _ HI) as Hwf. apply block_bytes_bound; [apply NoDup_fst_map_to_list| |].
    - intros a b Hb%elem_of_map_to_list. by apply (block_end s M R).
    - intros a b a' b' Hb%elem_of_map_to_list Hb'%elem_of_map_to_list. by apply (wf_blocks_disjoint _ _ _ _ Hwf). }
  cbn [obind]. set (s0 := set_total _ s).
  assert (Inv s0 M R) as HI0.
  { destruct HI as [HR Hwf Hal Hb]. constructor; try done. destruct HR; constructor; done. }
  assert (Hl : ∀ a, a ∈ l → ∃ b, mem_ptr2block s !! a = Some b ∧ free_block M b).
  { intros a Ha. specialize (Hsub a Ha) as Ha'. apply list_elem_of_fmap in Ha' as ([a' b] & -> & Hab). simpl in *.
    exists b. split; [by apply elem_of_map_to_list in Hab|]. by apply (Hin a'). }
  assert (Huse : ∀ a b, mem_ptr2block s !! a = Some b → a ∉ l ↔ in_use s a b).
  { intros a b Hb. rewrite (in_use_piece s M R a b HI Hb). split; [apply Hout; by apply elem_of_map_to_list|].
    intros (x & q & Hq & Hinq & Hf) Ha. destruct (Hl a Ha) as (b' & Hb' & Hfree). rewrite Hb in Hb'. injection Hb' as <-.
    by rewrite (Hfree x q Hq Hinq) in Hf. }
  destruct (Z.ltb_spec 0 total) as [Ht|Ht].
  - destruct (delete_blocks_spec l s0 M R HI0 Hnd Hl) as (s1 & M1 & R1 & -> & HI1 & Hu & Hbl).
    cbn [obind]. exists true, s1, M1, R1. split; [done|]. split; [done|]. split; [done|]. split; [|split; [|done]].
    + intros a b. rewrite Hbl. change (mem_ptr2block s0) with (mem_ptr2block s). destruct (decide (a ∈ l)) as [Ha|Ha].
      * split; [done|]. intros [Hb Hiu]. by apply (Huse a b Hb) in Hiu.
      * split; [|by intros [? _]]. intros Hb. split; [done|]. by apply Huse.
    + intros _ E. destruct l as [|a l]; [by assert (total = 0) by (by apply Htl); lia|].
      destruct (Hl a ltac:(left)) as (b & Hb & _). rewrite <- E, Hbl, decide_True in Hb by left. done.
  - assert (l = []) as -> by (apply Htl; lia).
    cbn [obind]. exists false, s0, M, R. split; [done|]. split; [done|]. split; [done|]. split; [|by split].
    intros a b. split; [|by intros [? _]]. intros Hb. split; [done|]. apply (Huse a b Hb), not_elem_of_nil.
Qed.

(** C27 Garbage collection never aborts, never touches a live allocation and gives back
    exactly the blocks without one: the blocks that stay are those with a live allocation
    inside, they are what the backend still has lent out, and the result says whether
    anything was given back. *)
Theorem Shrink_correct (s : state) :
  AllocatorInv s →
  ∃ r s', DeallocateFreeBlockForGarbageCollection s = Ret (r, s') ∧ Shrink s = Ret s' ∧ AllocatorInv s' ∧
    (∀ a, live_size s' a = live_size s a) ∧
    (∀ a b, mem_ptr2block s' !! a = Some b ↔ mem_ptr2block s !! a = Some b ∧ in_use s a b) ∧
    b_live (backend s') = block_size <$> mem_ptr2block s' ∧
    (r = true ↔ mem_ptr2block s' ≠ mem_ptr2block s).
Proof.
  intros (M & R & HI). destruct (gc_spec s M R HI) as (r & s' & M' & R' & E & HI' & Hu & Hbl & Hr).
  exists r, s'. unfold Shrink. rewrite E. cbn [obind]. split; [done|]. split; [done|]. split; [by exists M', R'|].
  split; [|split; [done|split; [apply HI'|done]]].
  intros a. apply option_eq. intros k.
  rewrite (live_size_Rep _ _ _ _ _ (Inv_rep _ _ _ HI')), (live_size_Rep _ _ _ _ _ (Inv_rep _ _ _ HI)).
  unfold live_in. by setoid_rewrite Hu.
Qed.

(** ** Histories *)

Lemma Rep_new (al : Z) (b : B) :
  Rep (mkAllocator al b 0 ∅ (replicate (Z.to_nat kBinNumSize) []) [] ∅ None) ∅ [].
Proof.
  assert (∀ k l, replicate (Z.to_nat kBinNumSize) ([] : list nat) !! k = Some l → l = []) as Hbins
    by (intros k l Hk; by apply lookup_replicate in Hk as [-> _]).
  constructor; cbn [pieces ptr2piece bins recycle_piece_list]; try done.
  - intros a i. rewrite lookup_empty. split; [done|]. intros (p & Hp & _). by rewrite lookup_empty in Hp.
  - intros k l i ->%Hbins. split; [by intros ?%not_elem_of_nil|].
    intros (p & Hp & _). by rewrite lookup_empty in Hp.
  - intros k l ->%Hbins. constructor.
  - constructor.
Qed.

(** The constructor's checks bound the alignment. *)
Lemma new_BinAllocator_Inv (al : Z) (b : B) (s : state) :
  al < 2 ^ 63 → b_live b = ∅ → new_BinAllocator al b = Ret s → Inv s ∅ [].
Proof.
  intros Hal Hb H. unfold new_BinAllocator in H. inv_ret.
  match goal with H : forallb _ _ = true |- _ => rename H into Hbins end.
  match goal with H : (1 <=? al) = true |- _ => apply Z.leb_le in H as Hal1 end.
  constructor; simpl; [apply Rep_new| | |by rewrite Hb, fmap_empty].
  - constructor; intros *; rewrite ?lookup_empty; done.
  - split; [lia|]. cbn [seq Z.to_nat kBinNumSize Pos.to_nat Pos.iter_op Nat.add forallb] in Hbins.
    apply andb_true_iff in Hbins as [Hb0 _].
    apply andb_true_iff in Hb0 as [Hb0 _]. apply andb_true_iff in Hb0 as [Hb0 _].
    apply andb_true_iff in Hb0 as [_ Hb0]. apply Z.eqb_eq in Hb0.
    change (BinSize4BinNum (Z.of_nat 0)) with 512 in Hb0.
    rewrite !u64_small in Hb0 by (unfold is_u64, u64_modulus; rewrite ?u64_small; unfold is_u64, u64_modulus; lia).
    rewrite BinNum_log2 in Hb0 by (unfold u64_modulus; lia).
    destruct (Z.le_gt_cases al 512) as [|Hgt]; [done|exfalso].
    assert (1 ≤ Z.log2 (Z.max (512 + al - 1) 512 / 512)); [|lia].
    apply (Z.log2_le_mono 2). apply Z.div_le_lower_bound; lia.
Qed.

(** The steps of a client: it frees only what it holds.  An allocation that fails leaves
    the allocator as it was; its backend may be in another state with the same regions. *)
Inductive alloc_step : state → state → Prop :=
| step_allocate s n p s' : 0 ≤ n ≤ 2 ^ 61 → Allocate s n = Ret (p, s') → alloc_step s s'
| step_allocate_fails s n e b : Allocate s n = Fail e → b_live b = b_live (backend s) → alloc_step s (set_backend b s)
| step_deallocate s p m s' : live_size s p = Some m → Deallocate s p = Ret s' → alloc_step s s'
| step_shrink s s' : Shrink s = Ret s' → alloc_step s s'.

Lemma alloc_step_Inv (s s' : state) : AllocatorInv s → alloc_step s s' → AllocatorInv s'.
Proof.
  intros HA Hstep. revert HA.
  destruct Hstep as [s0 n p s1 Hn E|s0 n e b _ Hb|s0 p m s1 Hp E|s0 s1 E]; intros (M & R & HI).
  - destruct (Z.eq_dec n 0) as [->|Hne].
    + unfold Allocate in E. simpl in E. injection E as _ <-. by exists M, R.
    + destruct (Allocate_spec s0 M R n HI ltac:(lia)) as [(p' & m & s' & M' & R' & E' & HI' & _)|(e & E' & _)];
        [|congruence]. rewrite E in E'. injection E' as <- <-. by exists M', R'.
  - exists M, R. destruct HI as [HR Hwf Hal Hlive]. constructor; cbn; [|done|done|by rewrite Hb].
    destruct HR; constructor; done.
  - apply (live_size_Rep _ _ _ _ _ (Inv_rep _ _ _ HI)) in Hp as (i & Hi). unfold used_at in Hi.
    destruct (M !! i) as [q|] eqn:Hq; [|done]. destruct (is_free q) eqn:Hf; [done|]. injection Hi as <- <-.
    destruct (Deallocate_spec s0 M R i q HI Hq Hf) as (s' & M' & R' & E' & HI' & _).
    rewrite E in E'. injection E' as <-. by exists M', R'.
  - destruct (gc_spec s0 M R HI) as (r & s' & M' & R' & E' & HI' & _). unfold Shrink in E.
    rewrite E' in E. injection E as <-. by exists M', R'.
Qed.

(** C1 In every state an allocator can reach through any sequence of allocations,
    frees and shrinks, the live allocations do not overlap, each lies inside one
    region the backend handed out, and no further operation of the client can
    abort. *)
Theorem allocator_safe (al : Z) (b : B) (s0 s : state) :
  al < 2 ^ 63 → b_live b = ∅ → new_BinAllocator al b = Ret s0 → rtc alloc_step s0 s →
  (∀ p m q k, live_size s p = Some m → live_size s q = Some k → p ≠ q → p + m ≤ q ∨ q + k ≤ p) ∧
  (∀ p m, live_size s p = Some m →
     ∃ a k, b_live (backend s) !! a = Some k ∧ a ≤ p ∧ p + m ≤ a + k) ∧
  (∀ n, 0 ≤ n ≤ 2 ^ 61 → Allocate s n ≠ Crash) ∧
  (∀ p m, live_size s p = Some m → Deallocate s p ≠ Crash) ∧ Shrink s ≠ Crash.
Proof.
  intros Hal Hb Hnew Hrtc.
  assert (AllocatorInv s) as (M & R & HI).
  { apply new_BinAllocator_Inv in Hnew as H0; [|done..].
    assert (AllocatorInv s0) as HI0 by (by eexists _, _). clear -HI0 Hrtc BackendSpec0.
    induction Hrtc; eauto using alloc_step_Inv. }
  pose proof (Inv_rep _ _ _ HI) as HR. pose proof (Inv_wf _ _ _ HI) as Hwf. split_and!.
  - intros p m q k (x & Hx)%(live_size_Rep _ _ _ _ _ HR) (y & Hy)%(live_size_Rep _ _ _ _ _ HR) Hne.
    apply (used_at_disjoint _ _ _ _ _ _ _ _ _ _ Hwf Hx Hy). intros ->. naive_solver.
  - intros p m (x & Hx)%(live_size_Rep _ _ _ _ _ HR). unfold used_at in Hx.
    destruct (M !! x) as [q|] eqn:Hq; [|done]. destruct (is_free q); [done|]. injection Hx as <- <-.
    destruct (wf_block _ _ _ _ Hwf _ _ Hq) as (bl & Hbl & Hin & _).
    exists (block_ptr bl), (block_size bl). rewrite (Inv_backend _ _ _ HI), lookup_fmap, Hbl. done.
  - intros n Hn. destruct (Z.eq_dec n 0) as [->|Hne]; [done|].
    destruct (Allocate_spec s M R n HI ltac:(lia)) as [(?&?&?&?&?&E&_)|(?&E&_)]; by rewrite E.
  - intros p m (i & Hi)%(live_size_Rep _ _ _ _ _ HR). unfold used_at in Hi.
    destruct (M !! i) as [q|] eqn:Hq; [|done]. destruct (is_free q) eqn:Hf; [done|]. injection Hi as <- <-.
    destruct (Deallocate_spec s M R i q HI Hq Hf) as (?&?&?&E&_). by rewrite E.
  - destruct (gc_spec s M R HI) as (?&?&?&?&E&_). unfold Shrink. by rewrite E.
Qed.
End gc.

(** ** A backend *)

(** A backend that hands out addresses above everything it handed out and still
    has: the contract can be met, and the examples run on it. *)
Definition top_of (live : gmap Z Z) : Z := map_fold (λ q m acc, Z.max acc (Z.max (q + 1) (q + m))) 512 live.

#[export] Instance bump_backend : Backend (gmap Z Z) := {|
  b_allocate live n :=
    let p := top_of live in
    if p + n <? u64_modulus then Ret (p, <[p := n]> live) else Ret (0, live);
  b_deallocate live p n :=
    match live !! p with
    | Some m => if m =? n then Ret (delete p live) else Crash
    | None => Crash
    end;
  b_live live := live;
|}.

Lemma top_of_above (live : gmap Z Z) :
  512 ≤ top_of live ∧ ∀ q m, live !! q = Some m → q + 1 ≤ top_of live ∧ q + m ≤ top_of live.
Proof.
  unfold top_of. induction live as [|q m live Hq Hf IH] using map_first_key_ind.
  - rewrite map_fold_empty. split; [lia|]. intros q m. by rewrite lookup_empty.
  - rewrite map_fold_insert_first_key by done. destruct IH as [IH1 IH2]. split; [lia|].
    intros q' m'. rewrite lookup_insert_Some. intros [[<- <-]|[_ H]]; [lia|].
    apply IH2 in H. lia.
Qed.

#[export] Instance bump_backend_spec : BackendSpec (gmap Z Z).
Proof.
  constructor; cbn [b_allocate b_deallocate b_live bump_backend].
  - intros live n. by destruct (_ <? _).
  - intros live n p live' Hn. destruct (Z.ltb_spec (top_of live + n) u64_modulus); [|naive_solver].
    intros [= <- <-] _. pose proof (top_of_above live) as [H1 H2]. split_and!; [lia|lia| | |done].
    + intros q m Hq. apply H2 in Hq. lia.
    + destruct (live !! top_of live) eqn:E; [|done]. apply H2 in E. lia.
  - intros live n live'. pose proof (top_of_above live) as [H1 _].
    destruct (Z.ltb_spec (top_of live + n) u64_modulus); intros [=]; [lia|done].
  - intros live p n ->. rewrite Z.eqb_refl. by eexists.
Qed.

(** ** Examples *)

(** A new allocator, and the same after an allocation of 1000 bytes. *)
Definition demo0 : allocator (B := gmap Z Z) :=
  mkAllocator 512 ∅ 0 ∅ (replicate (Z.to_nat kBinNumSize) []) [] ∅ None.
Definition demo1 : Z * allocator (B := gmap Z Z) :=
  match Allocate demo0 1000 with Ret r => r | _ => (0, demo0) end.

Lemma demo0_new : new_BinAllocator 512 (∅ : gmap Z Z) = Ret demo0.
Proof. vm_compute. reflexivity. Qed.

Lemma demo1_run : Allocate demo0 1000 = Ret demo1.
Proof. vm_compute. reflexivity. Qed.

Lemma demo0_Inv : AllocatorInv demo0.
Proof. eexists _, _. by apply (new_BinAllocator_Inv 512 ∅ demo0); [lia|reflexivity|apply demo0_new]. Qed.

Lemma demo1_Inv : AllocatorInv demo1.2.
Proof.
  apply (alloc_step_Inv demo0); [apply demo0_Inv|].
  apply (step_allocate demo0 1000 demo1.1); [lia|]. rewrite demo1_run. apply f_equal, surjective_pairing.
Qed.

Lemma Allocate_correct_witness :
  ∃ p m s', Allocate demo0 1000 = Ret (p, s') ∧ AllocatorInv s' ∧ allocate_ok demo0 1000 p m s'.
Proof.
  destruct (Allocate_correct demo0 1000 demo0_Inv ltac:(lia)) as [H|(e & E & _)]; [exact H|].
  rewrite demo1_run in E. discriminate.
Defined.

Lemma Deallocate_correct_witness :
  ∃ s', Deallocate demo1.2 demo1.1 = Ret s' ∧ AllocatorInv s' ∧ live_size s' demo1.1 = None.
Proof.
  destruct (Deallocate_correct demo1.2 demo1.1 1024 demo1_Inv) as (s' & E & HI & _ & Hl & _);
    [vm_compute; reflexivity|]. exists s'. exact (conj E (conj HI Hl)).
Defined.

(** The allocation is freed: its block goes back. *)
Definition demo2 : allocator (B := gmap Z Z) :=
  match Deallocate demo1.2 demo1.1 with Ret s => s | _ => demo0 end.

Lemma demo2_run : Deallocate demo1.2 demo1.1 = Ret demo2.
Proof. vm_compute. reflexivity. Qed.

Lemma demo2_Inv : AllocatorInv demo2.
Proof.
  assert (Hl : live_size demo1.2 demo1.1 = Some 1024) by (vm_compute; reflexivity).
  exact (alloc_step_Inv demo1.2 demo2 demo1_Inv (step_deallocate demo1.2 demo1.1 1024 demo2 Hl demo2_run)).
Qed.

Lemma Shrink_correct_witness :
  ∃ s', DeallocateFreeBlockForGarbageCollection demo2 = Ret (true, s') ∧ mem_ptr2block s' ≠ mem_ptr2block demo2 ∧
    ∀ a b, mem_ptr2block s' !! a = Some b → in_use demo2 a b.
Proof.
  destruct (Shrink_correct demo2 demo2_Inv) as (r & s' & E & _ & _ & _ & Hb & _ & Hr).
  assert (r = true) as ->.
  { assert (E1 : match DeallocateFreeBlockForGarbageCollection demo2 with Ret (b, _) => b | _ => false end = true)
      by (vm_compute; reflexivity). rewrite E in E1. exact E1. }
  exists s'. split; [exact E|]. split; [by apply Hr|]. intros a b H. by apply (Hb a b).
Defined.

Lemma allocator_safe_witness :
  Allocate demo1.2 5000 ≠ Crash ∧ Deallocate demo1.2 demo1.1 ≠ Crash.
Proof.
  destruct (allocator_safe 512 ∅ demo0 demo1.2) as (_ & _ & Ha & Hd & _);
    [lia|reflexivity|apply demo0_new| |].
  - apply rtc_once. apply (step_allocate demo0 1000 demo1.1); [lia|]. rewrite demo1_run. apply f_equal, surjective_pairing.
  - split; [apply Ha; lia|]. apply (Hd demo1.1 1024). vm_compute. reflexivity.
Defined.
