(* ===== verification/VmEngine.v ===== *)
(** * The virtual machine's scheduler

    [core/vm/virtual_machine_engine.cpp]: instructions are received in program
    order, fused, connected by their accesses to shared dependences, dispatched
    to streams when their predecessors allow it and released when the device is
    done with them.  Instructions, streams and dependences are numbered; the
    intrusive lists of the engine are lists, and a list hook that is not empty is
    membership of the list the hook links into.

    The engine runs on the scheduler thread alone; [Receive] only appends to the
    mutex-protected list [pending], so an execution is a sequence of [Receive]
    and [Schedule] steps.  Probes (callbacks inserted for tests and shutdown) are
    not modelled. *)
From S2P Require Import Prelude.

(** ** Instructions *)

Inductive InstructionFuseType :=
| kInvalidInstructionFuseType
| kDisableInstructionFuse
| kEnableInstructionFuseAtAnyPosition
| kEnableInstructionFuseAsTailOnly.

#[export] Instance InstructionFuseType_eq_dec : EqDecision InstructionFuseType.
Proof. solve_decision. Defined.

(** An instruction with what its policy says of it; [members] are the
    instructions a fused instruction was made of. *)
Record Instr := mkInstr {
  stream : nat;
  stream_sequential_dependence : option nat;
  output_dependences : list nat;
  input_dependences : list nat;
  IsBarrier : bool;
  fuse_type : InstructionFuseType;
  Prescheduleable : nat → nat → bool;
  members : list nat;
}.

(** [InstructionPolicy::Prescheduleable]: on the same stream. *)
Definition same_stream (src dst : nat) : bool := Nat.eqb src dst.

(** [running] maps a stream to its running list, [in_edges] an instruction to the
    sources of its edges, [out_edges] to their targets, [accesses] a dependence
    to its access list ([true]: mutable access).  [tmp_ready] is the local list
    of [DispatchAndPrescheduleInstructions].  The last three are history
    variables that no operation reads. *)
Record engine := mkEngine {
  instrs : list Instr;
  pending : list nat;
  local_pending : list nat;
  ready : list nat;
  tmp_ready : list nat;
  lively : list nat;
  barriers : list nat;
  running : gmap nat (list nat);
  active : list nat;
  in_edges : gmap nat (list nat);
  out_edges : gmap nat (list nat);
  accesses : gmap nat (list (nat * bool));
  inserted_cnt : Z;
  erased_cnt : Z;
  h_handled : list nat;
  h_dispatched : list nat;
  h_finished : list nat;
}.

Definition set_instrs (v : list Instr) (s : engine) : engine :=
  mkEngine v (pending s) (local_pending s) (ready s) (tmp_ready s) (lively s) (barriers s)
           (running s) (active s) (in_edges s) (out_edges s) (accesses s) (inserted_cnt s)
           (erased_cnt s) (h_handled s) (h_dispatched s) (h_finished s).
Definition set_pending (v : list nat) (s : engine) : engine :=
  mkEngine (instrs s) v (local_pending s) (ready s) (tmp_ready s) (lively s) (barriers s)
           (running s) (active s) (in_edges s) (out_edges s) (accesses s) (inserted_cnt s)
           (erased_cnt s) (h_handled s) (h_dispatched s) (h_finished s).
Definition set_local_pending (v : list nat) (s : engine) : engine :=
  mkEngine (instrs s) (pending s) v (ready s) (tmp_ready s) (lively s) (barriers s)
           (running s) (active s) (in_edges s) (out_edges s) (accesses s) (inserted_cnt s)
           (erased_cnt s) (h_handled s) (h_dispatched s) (h_finished s).
Definition set_ready (v : list nat) (s : engine) : engine :=
  mkEngine (instrs s) (pending s) (local_pending s) v (tmp_ready s) (lively s) (barriers s)
           (running s) (active s) (in_edges s) (out_edges s) (accesses s) (inserted_cnt s)
           (erased_cnt s) (h_handled s) (h_dispatched s) (h_finished s).
Definition set_tmp_ready (v : list nat) (s : engine) : engine :=
  mkEngine (instrs s) (pending s) (local_pending s) (ready s) v (lively s) (barriers s)
           (running s) (active s) (in_edges s) (out_edges s) (accesses s) (inserted_cnt s)
           (erased_cnt s) (h_handled s) (h_dispatched s) (h_finished s).
Definition set_lively (v : list nat) (s : engine) : engine :=
  mkEngine (instrs s) (pending s) (local_pending s) (ready s) (tmp_ready s) v (barriers s)
           (running s) (active s) (in_edges s) (out_edges s) (accesses s) (inserted_cnt s)
           (erased_cnt s) (h_handled s) (h_dispatched s) (h_finished s).
Definition set_barriers (v : list nat) (s : engine) : engine :=
  mkEngine (instrs s) (pending s) (local_pending s) (ready s) (tmp_ready s) (lively s) v
           (running s) (active s) (in_edges s) (out_edges s) (accesses s) (inserted_cnt s)
           (erased_cnt s) (h_handled s) (h_dispatched s) (h_finished s).
Definition set_running (v : gmap nat (list nat)) (s : engine) : engine :=
  mkEngine (instrs s) (pending s) (local_pending s) (ready s) (tmp_ready s) (lively s)
           (barriers s) v (active s) (in_edges s) (out_edges s) (accesses s) (inserted_cnt s)
           (erased_cnt s) (h_handled s) (h_dispatched s) (h_finished s).
Definition set_active (v : list nat) (s : engine) : engine :=
  mkEngine (instrs s) (pending s) (local_pending s) (ready s) (tmp_ready s) (lively s)
           (barriers s) (running s) v (in_edges s) (out_edges s) (accesses s) (inserted_cnt s)
           (erased_cnt s) (h_handled s) (h_dispatched s) (h_finished s).
Definition set_in_edges (v : gmap nat (list nat)) (s : engine) : engine :=
  mkEngine (instrs s) (pending s) (local_pending s) (ready s) (tmp_ready s) (lively s)
           (barriers s) (running s) (active s) v (out_edges s) (accesses s) (inserted_cnt s)
           (erased_cnt s) (h_handled s) (h_dispatched s) (h_finished s).
Definition set_out_edges (v : gmap nat (list nat)) (s : engine) : engine :=
  mkEngine (instrs s) (pending s) (local_pending s) (ready s) (tmp_ready s) (lively s)
           (barriers s) (running s) (active s) (in_edges s) v (accesses s) (inserted_cnt s)
           (erased_cnt s) (h_handled s) (h_dispatched s) (h_finished s).
Definition set_accesses (v : gmap nat (list (nat * bool))) (s : engine) : engine :=
  mkEngine (instrs s) (pending s) (local_pending s) (ready s) (tmp_ready s) (lively s)
           (barriers s) (running s) (active s) (in_edges s) (out_edges s) v (inserted_cnt s)
           (erased_cnt s) (h_handled s) (h_dispatched s) (h_finished s).
Definition set_inserted_cnt (v : Z) (s : engine) : engine :=
  mkEngine (instrs s) (pending s) (local_pending s) (ready s) (tmp_ready s) (lively s)
           (barriers s) (running s) (active s) (in_edges s) (out_edges s) (accesses s) v
           (erased_cnt s) (h_handled s) (h_dispatched s) (h_finished s).
Definition set_erased_cnt (v : Z) (s : engine) : engine :=
  mkEngine (instrs s) (pending s) (local_pending s) (ready s) (tmp_ready s) (lively s)
           (barriers s) (running s) (active s) (in_edges s) (out_edges s) (accesses s)
           (inserted_cnt s) v (h_handled s) (h_dispatched s) (h_finished s).
Definition set_h_handled (v : list nat) (s : engine) : engine :=
  mkEngine (instrs s) (pending s) (local_pending s) (ready s) (tmp_ready s) (lively s)
           (barriers s) (running s) (active s) (in_edges s) (out_edges s) (accesses s)
           (inserted_cnt s) (erased_cnt s) v (h_dispatched s) (h_finished s).
Definition set_h_dispatched (v : list nat) (s : engine) : engine :=
  mkEngine (instrs s) (pending s) (local_pending s) (ready s) (tmp_ready s) (lively s)
           (barriers s) (running s) (active s) (in_edges s) (out_edges s) (accesses s)
           (inserted_cnt s) (erased_cnt s) (h_handled s) v (h_finished s).
Definition set_h_finished (v : list nat) (s : engine) : engine :=
  mkEngine (instrs s) (pending s) (local_pending s) (ready s) (tmp_ready s) (lively s)
           (barriers s) (running s) (active s) (in_edges s) (out_edges s) (accesses s)
           (inserted_cnt s) (erased_cnt s) (h_handled s) (h_dispatched s) v.

Definition list_at {A : Type} (m : gmap nat (list A)) (i : nat) : list A :=
  match m !! i with Some l => l | None => [] end.

(** Erasing one element of an intrusive list. *)
Fixpoint remove_one (i : nat) (l : list nat) : list nat :=
  match l with
  | [] => []
  | j :: l => if Nat.eqb j i then l else j :: remove_one i l
  end.

Definition stream_of (s : engine) (i : nat) : nat :=
  match instrs s !! i with Some x => stream x | None => O end.

Definition get_instr (s : engine) (i : nat) : outcome Instr :=
  match instrs s !! i with Some x => Ret x | None => Crash end.

(** [!instruction->dispatched_instruction_hook().empty()] *)
Definition hooked (s : engine) (i : nat) : bool :=
  bool_decide (i ∈ ready s) || bool_decide (i ∈ tmp_ready s) ||
  bool_decide (i ∈ list_at (running s) (stream_of s i)).

(** ** Dependences and edges *)

Definition EdgeDispatchable (s : engine) (src dst : nat) : bool :=
  match instrs s !! dst with
  | Some x => Prescheduleable x (stream_of s src) (stream x) && hooked s src
  | None => false
  end.

Definition Dispatchable (s : engine) (i : nat) : bool :=
  if hooked s i then false
  else forallb (λ src, EdgeDispatchable s src i) (list_at (in_edges s) i).

Definition push_ready (s : engine) (i : nat) : engine := set_ready (ready s ++ [i]) s.

Definition TryConnectInstruction (s : engine) (src dst : nat) : engine :=
  if Nat.eqb src dst then s
  else if EdgeDispatchable s src dst then s
  else set_in_edges (<[dst := list_at (in_edges s) dst ++ [src]]> (in_edges s))
         (set_out_edges (<[src := list_at (out_edges s) src ++ [dst]]> (out_edges s)) s).

Definition AccessDependence (s : engine) (mut : bool) (d i : nat) : engine :=
  set_accesses (<[d := list_at (accesses s) d ++ [(i, mut)]]> (accesses s)) s.

(** Every access before the new one is connected and erased from the list. *)
Definition ConnectInstructionsByWrite (s : engine) (d i : nat) : engine :=
  let l := list_at (accesses s) d in
  let s := foldl (λ s src, TryConnectInstruction s src i) s (map fst (removelast l)) in
  set_accesses (<[d := [(i, true)]]> (accesses s)) s.

Definition ConnectInstructionsByRead (s : engine) (d i : nat) : engine :=
  match list_at (accesses s) d with
  | (src, true) :: _ => TryConnectInstruction s src i
  | _ => s
  end.

Definition access_write (i : nat) (s : engine) (d : nat) : engine :=
  ConnectInstructionsByWrite (AccessDependence s true d i) d i.
Definition access_read (i : nat) (s : engine) (d : nat) : engine :=
  ConnectInstructionsByRead (AccessDependence s false d i) d i.

Definition ConsumeDependences (s : engine) (i : nat) (x : Instr) : engine :=
  let s := match stream_sequential_dependence x with
           | Some d => access_write i s d
           | None => s
           end in
  let s := foldl (access_write i) s (output_dependences x) in
  foldl (access_read i) s (input_dependences x).

(** The dependences an instruction accesses: its access list. *)
Definition access_list (x : Instr) : list nat :=
  match stream_sequential_dependence x with Some d => [d] | None => [] end ++
  output_dependences x ++ input_dependences x.

(** ** Release *)

(** Erase one edge and try its target. *)
Definition release_edge (i : nat) (s : engine) (out : nat) : engine :=
  let s := set_in_edges (<[out := remove_one i (list_at (in_edges s) out)]> (in_edges s)) s in
  if Dispatchable s out then push_ready s out else s.

Definition ReleaseInstruction (s : engine) (i : nat) : outcome engine :=
  let* x := get_instr s i in
  let s := foldl (λ s d,
             set_accesses (<[d := filter (λ a, a.1 ≠ i) (list_at (accesses s) d)]> (accesses s)) s)
             s (access_list x) in
  let outs := list_at (out_edges s) i in
  let s := set_out_edges (<[i := []]> (out_edges s)) s in
  Ret (foldl (release_edge i) s outs).

Definition LivelyInstructionListPushBack (s : engine) (i : nat) : engine :=
  set_inserted_cnt (inserted_cnt s + 1) (set_lively (lively s ++ [i]) s).

Definition LivelyInstructionListErase (s : engine) (i : nat) : engine :=
  set_erased_cnt (erased_cnt s + 1) (set_lively (filter (λ j, j ≠ i) (lively s)) s).

(** [DeleteStatusAndCheckEdges]: an edge that is left is fatal. *)
Definition check_edges (s : engine) (i : nat) : outcome unit :=
  let* _ := CHECK (bool_decide (list_at (in_edges s) i = [])) in
  CHECK (bool_decide (list_at (out_edges s) i = [])).

(** The loop on the front of a stream's running list; [done] is what
    [QueryInstructionStatusDone] answers during this call. *)
Fixpoint release_stream (fuel : nat) (done : nat → bool) (s : engine) (st : nat) : outcome engine :=
  match fuel, list_at (running s) st with
  | S fuel, i :: rest =>
      if bool_decide (list_at (in_edges s) i = []) && done i then
        let* s := ReleaseInstruction s i in
        let s := set_running (<[st := rest]> (running s)) s in
        let s := LivelyInstructionListErase s i in
        let s := set_h_finished (h_finished s ++ [i]) s in
        let* _ := check_edges s i in
        release_stream fuel done s st
      else Ret s
  | _, _ => Ret s
  end.

Definition ReleaseFinishedInstructions (done : nat → bool) (s : engine) : outcome engine :=
  ofold (λ s st,
    let* s := release_stream (length (list_at (running s) st)) done s st in
    Ret (if bool_decide (list_at (running s) st = [])
         then set_active (filter (λ t, t ≠ st) (active s)) s else s))
    (active s) s.

(** ** Fusing *)

Definition FusableBetween (s : engine) (ft : InstructionFuseType) (i : nat) (prev : option nat) :
    outcome bool :=
  let* x := get_instr s i in
  if negb (bool_decide (fuse_type x = ft)) then Ret false else
  match stream_sequential_dependence x with
  | None => Ret false
  | Some d =>
      match prev with
      | None => Ret true
      | Some j =>
          let* y := get_instr s j in
          if negb (Nat.eqb (stream x) (stream y)) then Ret false
          else Ret (bool_decide (stream_sequential_dependence y = Some d))
      end
  end.

(** [InstructionPolicyUtil::SetInserter] *)
Definition set_insert (l : list nat) (d : nat) : list nat :=
  if bool_decide (d ∈ l) then l else l ++ [d].

(** The constructor of [FuseInstructionPolicy]: the sequential dependence and the
    union of the accesses of the members. *)
Fixpoint fuse_deps (xs : list Instr) (seq : option nat) (ins outs : list nat) :
    outcome (option nat * list nat * list nat) :=
  match xs with
  | [] => Ret (seq, ins, outs)
  | x :: xs =>
      let* _ := CHECK (match xs with
                       | [] => bool_decide (fuse_type x = kEnableInstructionFuseAsTailOnly) ||
                               bool_decide (fuse_type x = kEnableInstructionFuseAtAnyPosition)
                       | _ => bool_decide (fuse_type x = kEnableInstructionFuseAtAnyPosition)
                       end) in
      let* _ := CHECK (match seq with
                       | None => true
                       | Some _ => bool_decide (seq = stream_sequential_dependence x)
                       end) in
      let seq := match seq with None => stream_sequential_dependence x | Some _ => seq end in
      fuse_deps xs seq (foldl set_insert ins (input_dependences x))
                (foldl set_insert outs (output_dependences x))
  end.

Definition new_FuseInstruction (s : engine) (l : list nat) : outcome Instr :=
  let* xs := omap_list (get_instr s) l in
  let* sio := fuse_deps xs None [] [] in
  let '(seq, ins, outs) := sio in
  match xs with
  | [] => Crash
  | x :: _ => Ret (mkInstr (stream x) seq outs ins false kDisableInstructionFuse same_stream l)
  end.

(** Appends to [out] the single instruction, or a new fused one. *)
Definition MakeAndAppendFusedInstruction (s : engine) (fused out : list nat) :
    outcome (list nat * engine) :=
  match fused with
  | [] => Ret (out, s)
  | [i] => Ret (out ++ [i], s)
  | _ =>
      let* x := new_FuseInstruction s fused in
      Ret (out ++ [length (instrs s)], set_instrs (instrs s ++ [x]) s)
  end.

(** The loop over the local pending list, for at most [window] instructions. *)
Fixpoint fetch_loop (window : nat) (s : engine) (fused out : list nat) : outcome (list nat * engine) :=
  match window, local_pending s with
  | S window, i :: rest =>
      let s := set_local_pending rest s in
      let* any := FusableBetween s kEnableInstructionFuseAtAnyPosition i (head fused) in
      if any then fetch_loop window s (fused ++ [i]) out else
      let* tail := FusableBetween s kEnableInstructionFuseAsTailOnly i (head fused) in
      if tail then
        let* (out, s) := MakeAndAppendFusedInstruction s (fused ++ [i]) out in
        fetch_loop window s [] out
      else
        let* (out, s) := MakeAndAppendFusedInstruction s fused out in
        fetch_loop window s [] (out ++ [i])
  | _, _ => MakeAndAppendFusedInstruction s fused out
  end.

Definition FetchAndTryFusePendingInstructions (window : nat) (s : engine) : outcome (list nat * engine) :=
  fetch_loop window s [] [].

(** ** Scheduling *)

Definition handle_pending (s : engine) (i : nat) : outcome engine :=
  let* x := get_instr s i in
  let s := LivelyInstructionListPushBack s i in
  let s := set_h_handled (h_handled s ++ [i]) s in
  if IsBarrier x then Ret (set_barriers (barriers s ++ [i]) s)
  else
    let s := ConsumeDependences s i x in
    Ret (if Dispatchable s i then push_ready s i else s).

Definition HandleLocalPending (window : nat) (s : engine) : outcome engine :=
  let* (l, s) := FetchAndTryFusePendingInstructions window s in
  ofold handle_pending l s.

(** [DispatchInstruction]; [prepare_ok] is whether [Prepare] succeeds (an error
    aborts).  Running on the scheduler thread and handing over to a worker both
    append to the stream's running list. *)
Definition DispatchInstruction (prepare_ok : nat → bool) (s : engine) (i : nat) : outcome engine :=
  let* _ := CHECK (prepare_ok i) in
  let st := stream_of s i in
  let s := set_running (<[st := list_at (running s) st ++ [i]]> (running s)) s in
  let s := if bool_decide (st ∈ active s) then s else set_active (active s ++ [st]) s in
  Ret (set_h_dispatched (h_dispatched s ++ [i]) s).

Definition preschedule (s : engine) (out : nat) : engine :=
  if Dispatchable s out then push_ready s out else s.

Fixpoint dispatch_loop (prepare_ok : nat → bool) (l : list nat) (s : engine) : outcome engine :=
  match l with
  | [] => Ret s
  | i :: l =>
      let s := set_tmp_ready l s in
      let* s := DispatchInstruction prepare_ok s i in
      dispatch_loop prepare_ok l (foldl preschedule s (list_at (out_edges s) i))
  end.

Definition DispatchAndPrescheduleInstructions (prepare_ok : nat → bool) (s : engine) : outcome engine :=
  let l := ready s in
  dispatch_loop prepare_ok l (set_tmp_ready l (set_ready [] s)).

(** The client's new instruction objects [xs] are appended; returns true if the
    old list is empty. *)
Definition Receive (s : engine) (xs : list Instr) : bool * engine :=
  (bool_decide (pending s = []),
   set_pending (pending s ++ seq (length (instrs s)) (length xs)) (set_instrs (instrs s ++ xs) s)).

Definition TryRunBarrierInstruction (on_scheduler_thread : nat → bool) (s : engine) : outcome engine :=
  match barriers s with
  | [] => Crash
  | i :: _ =>
      if negb (bool_decide (head (lively s) = Some i)) then Ret s else
      let* x := get_instr s i in
      let* _ := CHECK (IsBarrier x) in
      let* _ := CHECK (on_scheduler_thread (stream x)) in
      let s := set_barriers (filter (λ j, j ≠ i) (barriers s)) s in
      let s := LivelyInstructionListErase s i in
      Ret (set_h_finished (h_finished s ++ [i]) s)
  end.

(** What a call of [Schedule] meets: the answers of the devices, the window size
    and the threads of the streams. *)
Record world := mkWorld {
  done : nat → bool;
  prepare_ok : nat → bool;
  on_scheduler_thread : nat → bool;
  window : nat;
}.

Definition Schedule (w : world) (s : engine) : outcome engine :=
  let* s := if bool_decide (active s = []) then Ret s else ReleaseFinishedInstructions (done w) s in
  let* s := if bool_decide (barriers s = []) then Ret s
            else TryRunBarrierInstruction (on_scheduler_thread w) s in
  let* s :=
    if negb (bool_decide (local_pending s = [])) then HandleLocalPending (window w) s
    else if negb (bool_decide (pending s = [])) then
      let s := set_pending [] (set_local_pending (local_pending s ++ pending s) s) in
      if negb (bool_decide (local_pending s = [])) then HandleLocalPending (window w) s else Ret s
    else Ret s in
  if bool_decide (ready s = []) then Ret s else DispatchAndPrescheduleInstructions (prepare_ok w) s.

Definition SchedulerEmpty (s : engine) : bool :=
  bool_decide (pending s = []) && bool_decide (local_pending s = []) &&
  bool_decide (lively s = []) && bool_decide (active s = []).

Definition flying_instruction_cnt (s : engine) : Z :=
  Z.of_nat (length (pending s)) + Z.of_nat (length (local_pending s)) + (inserted_cnt s - erased_cnt s).

Definition new_engine : engine := mkEngine [] [] [] [] [] [] [] ∅ [] ∅ ∅ ∅ 0 0 [] [] [].
