(* ===== verification/VmEngineSpec.v ===== *)
(** * The scheduler: instructions run in dependence order

    The invariant of the engine and its preservation by every operation.  It
    relates the order in which instructions are handled, the order in which they
    are dispatched and the order in which they finish, and is stated with a
    relation [links] that records every connection the engine ever made, also
    those whose edge was never created or is already erased. *)
From Stdlib Require Import Relations.
From S2P Require Import Prelude VmEngine.

(** ** Conflicts *)

Definition writes (x : Instr) : list nat :=
  match stream_sequential_dependence x with Some d => [d] | None => [] end ++ output_dependences x.

Lemma access_list_writes (x : Instr) (d : nat) :
  d ∈ access_list x ↔ d ∈ writes x ∨ d ∈ input_dependences x.
Proof. unfold access_list, writes. set_solver. Qed.

(** Two instructions conflict when they access a dependence and one of them
    mutably. *)
Definition conflict (x y : Instr) : Prop :=
  ∃ d, d ∈ access_list x ∧ d ∈ access_list y ∧ (d ∈ writes x ∨ d ∈ writes y).

(** ** Orders *)

(** [a] is before [b] in the list [l]. *)
Definition before (l : list nat) (a b : nat) : Prop :=
  ∃ j k, (j < k)%nat ∧ l !! j = Some a ∧ l !! k = Some b.

(** [a] is ahead of [b] in the queue [q], now and whatever is appended. *)
Definition ahead (q : list nat) (a b : nat) : Prop :=
  ∃ k, a ∈ take k q ∧ b ∉ take k q.

Lemma before_app (l r : list nat) (a b : nat) : before l a b → before (l ++ r) a b.
Proof.
  intros (j & k & ? & ? & ?). exists j, k. split_and!; [done|by apply lookup_app_l_Some|by apply lookup_app_l_Some].
Qed.

Lemma before_end (l : list nat) (a b : nat) : a ∈ l → before (l ++ [b]) a b.
Proof.
  intros (j & Hj)%list_elem_of_lookup. exists j, (length l). split_and!.
  - by eapply lookup_lt_Some.
  - by apply lookup_app_l_Some.
  - by rewrite lookup_app_r, Nat.sub_diag.
Qed.

Lemma before_in (l : list nat) (a b : nat) : before l a b → a ∈ l ∧ b ∈ l.
Proof. intros (j & k & _ & ? & ?). split; by eapply list_elem_of_lookup_2. Qed.

Lemma elem_of_take_mono (q : list nat) (j k : nat) (a : nat) : (j ≤ k)%nat → a ∈ take j q → a ∈ take k q.
Proof. intros Hle (n & Hn & Hlt)%elem_of_take. apply elem_of_take. exists n. split; [done|lia]. Qed.

Lemma ahead_app (q r : list nat) (a b : nat) : ahead q a b → ahead (q ++ r) a b.
Proof.
  intros (k & Ha & Hb). exists (k `min` length q)%nat. rewrite take_app_le by lia.
  rewrite <- take_take, firstn_all. done.
Qed.

Lemma ahead_end (q : list nat) (a b : nat) : a ∈ q → b ∉ q → ahead q a b.
Proof. intros Ha Hb. exists (length q). by rewrite firstn_all. Qed.

Lemma ahead_in (q : list nat) (a b : nat) : ahead q a b → a ∈ q.
Proof. intros (k & (n & Hn & _)%elem_of_take & _). by eapply list_elem_of_lookup_2. Qed.

Lemma ahead_app_inv (q r : list nat) (a b : nat) : b ∈ q → ahead (q ++ r) a b → ahead q a b.
Proof.
  intros Hb (k & Ha & Hnb). destruct (decide (k ≤ length q)%nat) as [Hk|Hk].
  - rewrite take_app_le in Ha, Hnb by done. by exists k.
  - destruct Hnb. rewrite take_app_ge by lia. apply elem_of_app. by left.
Qed.

Lemma ahead_trans (q : list nat) (a b c : nat) : ahead q a b → ahead q b c → ahead q a c.
Proof.
  intros (j & Ha & Hnb) (k & Hb & Hnc). exists j. split; [done|]. intros Hc.
  destruct (decide (k ≤ j)%nat) as [Hle|Hgt].
  - by apply Hnb, (elem_of_take_mono _ k).
  - by apply Hnc, (elem_of_take_mono _ j); [lia|].
Qed.

(** In a list without duplicates it is the order of the positions. *)
Lemma ahead_lookup (q : list nat) (a b : nat) (k : nat) :
  ahead q a b → q !! k = Some b → ∃ j, (j < k)%nat ∧ q !! j = Some a.
Proof.
  intros (n & (j & Hj & Hlt)%elem_of_take & Hb) Hk. exists j. split; [|done].
  destruct (decide (j < k)%nat); [done|]. destruct Hb. apply elem_of_take. exists k. split; [done|lia].
Qed.

Lemma before_ahead (l : list nat) (a b : nat) : NoDup l → before l a b → ahead l a b.
Proof.
  intros Hnd (j & k & Hjk & Hj & Hk). exists k. split.
  - apply elem_of_take. by exists j.
  - intros (n & Hn & Hlt)%elem_of_take. pose proof (NoDup_lookup _ _ _ _ Hnd Hn Hk). lia.
Qed.

(** The first element of a filtered list: nothing before it passes the filter. *)
Lemma filter_head (P : nat → Prop) `{!∀ i, Decision (P i)} (l rest : list nat) (i a : nat) :
  filter P l = i :: rest → ahead l a i → ¬ P a.
Proof.
  induction l as [|j l IH]; [done|]. rewrite filter_cons. intros Hf (k & Ha & Hi) HP.
  destruct k as [|k]; [by apply not_elem_of_nil in Ha|]. cbn in Ha, Hi.
  apply elem_of_cons in Ha. apply not_elem_of_cons in Hi as [Hij Hi].
  destruct (decide (P j)); [by injection Hf as -> _|].
  destruct Ha as [->|Ha]; [done|]. apply IH; [done| |done]. by exists k.
Qed.

(** Taking the first element out of a filtered list. *)
Lemma filter_tail (P : nat → Prop) `{!∀ i, Decision (P i)} (l rest : list nat) (i : nat) :
  NoDup l → filter P l = i :: rest → filter (λ j, P j ∧ j ≠ i) l = rest.
Proof.
  intros Hnd Hf. transitivity (filter (λ j, j ≠ i) (filter P l)).
  - rewrite list_filter_filter. apply list_filter_iff. tauto.
  - assert (NoDup (i :: rest)) as Hnd' by (rewrite <- Hf; by apply NoDup_filter).
    apply NoDup_cons in Hnd' as [Hi _]. rewrite Hf, filter_cons_False by tauto.
    clear -Hi. induction rest as [|j rest IH]; [done|].
    apply not_elem_of_cons in Hi as [? Hi]. rewrite filter_cons_True by done. by rewrite IH.
Qed.

(** ** The invariant *)

(** What is or will be dispatched, in this order. *)
Definition queue (s : engine) : list nat := h_dispatched s ++ tmp_ready s ++ ready s.

Definition barrier_of (s : engine) (i : nat) : bool :=
  match instrs s !! i with Some x => IsBarrier x | None => false end.
Definition plain (s : engine) (i : nat) : Prop := ∃ x, instrs s !! i = Some x ∧ IsBarrier x = false.

(** No instruction is dispatched early across streams (only a [StreamWait] is). *)
Definition strict (s : engine) : Prop :=
  ∀ i x a b, instrs s !! i = Some x → Prescheduleable x a b = true → a = b.

(** [EdgeDispatchable] on the history: [a] is dispatched and not finished. *)
Definition edge_ok (s : engine) (a b : nat) : Prop :=
  ∃ x, instrs s !! b = Some x ∧ Prescheduleable x (stream_of s a) (stream x) = true ∧
       a ∈ queue s ∧ a ∉ h_finished s.

(** In [T] the temporary ready list and the instruction being released. *)
Record extra := mkExtra { ex_tmp : list nat; ex_released : list nat }.

(** [a] is dispatched, and finished when no instruction is dispatched early. *)
Definition behind (T : extra) (s : engine) (a : nat) : Prop :=
  a ∈ queue s ∧ (strict s → a ∈ ex_released T ∨ a ∈ h_finished s).

(** [a]'s access to [d] is behind it, or covered by an access in the list: the
    first one if [a] writes. *)
Definition covered (links : relation nat) (T : extra) (s : engine) (a d : nat) : Prop :=
  behind T s a ∨ ∃ c m, (c, m) ∈ list_at (accesses s) d ∧ (a = c ∨ clos_trans _ links a c).
Definition covered_first (links : relation nat) (T : extra) (s : engine) (a d : nat) : Prop :=
  behind T s a ∨ ∃ c l, list_at (accesses s) d = (c, true) :: l ∧ (a = c ∨ clos_trans _ links a c).

Definition ordered (links : relation nat) (s : engine) (a b : nat) : Prop :=
  (ahead (queue s) a b ∧ (strict s → ahead (h_finished s) a b)) ∨ clos_trans _ links a b.

(** [D]: the instructions whose accesses are recorded, in the order they were
    handled; [W]: those still to be examined for dispatch; [X]: fetched, to be
    handled. *)
Record inv (links : relation nat) (D W X : list nat) (T : extra) (s : engine) : Prop := {
  iv_D : D `prefix_of` h_handled s;
  iv_fresh : NoDup (h_handled s ++ X ++ local_pending s ++ pending s);
  iv_known i : i ∈ h_handled s ++ X ++ local_pending s ++ pending s → (i < length (instrs s))%nat;
  iv_tmp : tmp_ready s = ex_tmp T;
  iv_queue_nodup : NoDup (queue s);
  iv_queue i : i ∈ queue s → i ∈ D ∧ plain s i;
  iv_finished i : i ∈ h_finished s → i ∈ D ∧ i ∉ tmp_ready s ∧ i ∉ ready s;
  iv_running st : list_at (running s) st =
    filter (λ i, stream_of s i = st ∧ i ∉ h_finished s) (h_dispatched s);
  iv_edges a b : count_occ Nat.eq_dec (list_at (out_edges s) a) b =
                 count_occ Nat.eq_dec (list_at (in_edges s) b) a;
  iv_edges_known a b : a ∈ list_at (in_edges s) b →
    before (h_handled s) a b ∧ plain s a ∧ plain s b ∧ a ∉ h_finished s;
  iv_edges_finished b : b ∈ h_finished s → list_at (in_edges s) b = [];
  iv_links_known a b : links a b → a ∈ h_handled s ∧ b ∈ h_handled s ∧ plain s b;
  iv_links_edge a b : links a b → a ∈ queue s ∨ a ∈ list_at (in_edges s) b;
  iv_links_ahead a b : links a b → b ∈ queue s → ahead (queue s) a b;
  iv_strict_edge a b : strict s → links a b →
    a ∈ ex_released T ∨ a ∈ h_finished s ∨ stream_of s a = stream_of s b ∨ a ∈ list_at (in_edges s) b;
  iv_strict_ahead a b : strict s → links a b → b ∈ queue s →
    a ∈ ex_released T ∨ a ∈ h_finished s ∨ stream_of s a = stream_of s b;
  iv_strict_finished a b : strict s → links a b → b ∈ h_finished s → ahead (h_finished s) a b;
  iv_fifo a b : b ∈ h_finished s → b ∈ queue s → stream_of s a = stream_of s b →
    ahead (queue s) a b → ahead (h_finished s) a b;
  iv_access_known c m d : (c, m) ∈ list_at (accesses s) d →
    c ∈ h_handled s ∧ plain s c ∧ c ∉ h_finished s;
  iv_access_own c m d x : (c, m) ∈ list_at (accesses s) d → instrs s !! c = Some x → d ∈ access_list x;
  iv_covered a x d : a ∈ D → instrs s !! a = Some x → IsBarrier x = false → d ∈ access_list x →
    covered links T s a d;
  iv_covered_first a x d : a ∈ D → instrs s !! a = Some x → IsBarrier x = false → d ∈ writes x →
    covered_first links T s a d;
  iv_ordered a b x y : before D a b → instrs s !! a = Some x → instrs s !! b = Some y →
    IsBarrier x = false → IsBarrier y = false → conflict x y → ordered links s a b;
  iv_lively : lively s = filter (λ i, i ∉ h_finished s) (h_handled s);
  iv_barriers : barriers s = filter (λ i, barrier_of s i = true ∧ i ∉ h_finished s) (h_handled s);
  iv_barrier a b : before D a b → barrier_of s b = true → b ∈ h_finished s → ahead (h_finished s) a b;
  iv_wait b : b ∈ D → plain s b → b ∉ queue s →
    b ∈ W ∨ ∃ a, a ∈ list_at (in_edges s) b ∧ (¬ edge_ok s a b ∨ a ∈ tmp_ready s ∨ a ∈ ready s);
}.
Arguments iv_D {_ _ _ _ _ _} _.
Arguments iv_fresh {_ _ _ _ _ _} _.
Arguments iv_known {_ _ _ _ _ _} _.
Arguments iv_tmp {_ _ _ _ _ _} _.
Arguments iv_queue_nodup {_ _ _ _ _ _} _.
Arguments iv_queue {_ _ _ _ _ _} _.
Arguments iv_finished {_ _ _ _ _ _} _.
Arguments iv_running {_ _ _ _ _ _} _.
Arguments iv_edges {_ _ _ _ _ _} _.
Arguments iv_edges_known {_ _ _ _ _ _} _.
Arguments iv_edges_finished {_ _ _ _ _ _} _.
Arguments iv_links_known {_ _ _ _ _ _} _.
Arguments iv_links_edge {_ _ _ _ _ _} _.
Arguments iv_links_ahead {_ _ _ _ _ _} _.
Arguments iv_strict_edge {_ _ _ _ _ _} _.
Arguments iv_strict_ahead {_ _ _ _ _ _} _.
Arguments iv_strict_finished {_ _ _ _ _ _} _.
Arguments iv_fifo {_ _ _ _ _ _} _.
Arguments iv_access_known {_ _ _ _ _ _} _.
Arguments iv_access_own {_ _ _ _ _ _} _.
Arguments iv_covered {_ _ _ _ _ _} _.
Arguments iv_covered_first {_ _ _ _ _ _} _.
Arguments iv_ordered {_ _ _ _ _ _} _.
Arguments iv_lively {_ _ _ _ _ _} _.
Arguments iv_barriers {_ _ _ _ _ _} _.
Arguments iv_barrier {_ _ _ _ _ _} _.
Arguments iv_wait {_ _ _ _ _ _} _.

(** The fields an operation leaves as they are. *)
Ltac keep H :=
  first [ exact (iv_D H) | exact (iv_fresh H) | exact (iv_known H) | exact (iv_tmp H)
        | exact (iv_queue_nodup H) | exact (iv_queue H) | exact (iv_finished H)
        | exact (iv_running H) | exact (iv_edges H) | exact (iv_edges_known H)
        | exact (iv_edges_finished H) | exact (iv_links_known H) | exact (iv_links_edge H)
        | exact (iv_links_ahead H) | exact (iv_strict_edge H) | exact (iv_strict_ahead H)
        | exact (iv_strict_finished H) | exact (iv_fifo H) | exact (iv_access_known H)
        | exact (iv_access_own H) | exact (iv_covered H) | exact (iv_covered_first H)
        | exact (iv_ordered H) | exact (iv_lively H) | exact (iv_barriers H)
        | exact (iv_barrier H) | exact (iv_wait H) ].

Lemma inv_handled_nodup {links D W X T s} : inv links D W X T s → NoDup (h_handled s).
Proof. intros H. pose proof (iv_fresh H) as Hf. by apply NoDup_app in Hf as [? _]. Qed.

Lemma inv_D_handled {links D W X T s i} : inv links D W X T s → i ∈ D → i ∈ h_handled s.
Proof. intros H Hi. destruct (iv_D H) as [r ->]. apply elem_of_app. by left. Qed.

Lemma inv_handled_lt {links D W X T s i} :
  inv links D W X T s → i ∈ h_handled s → (i < length (instrs s))%nat.
Proof. intros H Hi. apply (iv_known H), elem_of_app. by left. Qed.

Lemma plain_not_barrier s i : plain s i → barrier_of s i = false.
Proof. intros (x & Hx & Hb). unfold barrier_of. by rewrite Hx. Qed.

Lemma links_trans_ahead {links D W X T s a b} :
  inv links D W X T s → clos_trans _ links a b → b ∈ queue s → ahead (queue s) a b.
Proof.
  intros Hinv Hab. induction Hab as [a b Hab|a c b Hac IH1 Hcb IH2]; intros Hb.
  - by apply (iv_links_ahead Hinv).
  - pose proof (IH2 Hb) as H2. eapply ahead_trans; [|done]. apply IH1. by eapply ahead_in.
Qed.

Lemma links_trans_finished {links D W X T s a b} :
  inv links D W X T s → strict s → clos_trans _ links a b → b ∈ h_finished s → ahead (h_finished s) a b.
Proof.
  intros Hinv Hs Hab. induction Hab as [a b Hab|a c b Hac IH1 Hcb IH2]; intros Hb.
  - by apply (iv_strict_finished Hinv).
  - pose proof (IH2 Hb) as H2. eapply ahead_trans; [|done]. apply IH1. by eapply ahead_in.
Qed.

(** What leads to an instruction that is released is behind. *)
Lemma links_trans_behind {links D W X T s a b} :
  inv links D W X T s → b ∈ queue s → b ∈ ex_released T → (strict s → ∀ a, links a b → a ∈ h_finished s) →
  a = b ∨ clos_trans _ links a b → behind T s a.
Proof.
  intros Hinv Hb Hr Hpred [->|Hab]; [split; auto|]. split; [eapply ahead_in; by eapply links_trans_ahead|].
  intros Hs. right. apply clos_trans_tn1 in Hab. destruct Hab as [b Hab|c b Hcb Hac]; [by apply (Hpred Hs)|].
  apply clos_tn1_trans in Hac. eapply ahead_in, (links_trans_finished Hinv Hs Hac). by apply (Hpred Hs).
Qed.

(** The hook says: queued and not finished. *)
Lemma hooked_spec {links D W X T s} i :
  inv links D W X T s → hooked s i = true ↔ i ∈ queue s ∧ i ∉ h_finished s.
Proof.
  intros Hinv. unfold hooked, queue. rewrite !orb_true_iff, !bool_decide_eq_true.
  rewrite (iv_running Hinv), list_elem_of_filter, !elem_of_app.
  split.
  - intros [[H|H]|[[_ H] H']].
    + split; [tauto|]. intros Hf. by apply (iv_finished Hinv) in Hf as (_ & _ & ?).
    + split; [tauto|]. intros Hf. by apply (iv_finished Hinv) in Hf as (_ & ? & _).
    + tauto.
  - intros [[H|[H|H]] Hf]; tauto.
Qed.

Lemma EdgeDispatchable_spec {links D W X T s} a b :
  inv links D W X T s → EdgeDispatchable s a b = true ↔ edge_ok s a b.
Proof.
  intros Hinv. unfold EdgeDispatchable, edge_ok. destruct (instrs s !! b) as [x|]; [|naive_solver].
  rewrite andb_true_iff, (hooked_spec a Hinv). naive_solver.
Qed.

(** An edge that is dispatchable joins instructions of a stream. *)
Lemma edge_ok_stream s a b : strict s → edge_ok s a b → stream_of s a = stream_of s b.
Proof.
  intros Hs (x & Hx & Hp & _ & _). apply (Hs _ _ _ _ Hx) in Hp. rewrite Hp.
  unfold stream_of. by rewrite Hx.
Qed.

Lemma Dispatchable_spec {links D W X T s} i :
  inv links D W X T s → i ∉ h_finished s →
  if Dispatchable s i then i ∉ queue s ∧ ∀ a, a ∈ list_at (in_edges s) i → edge_ok s a i
  else i ∈ queue s ∨ ∃ a, a ∈ list_at (in_edges s) i ∧ ¬ edge_ok s a i.
Proof.
  intros Hinv Hf. unfold Dispatchable. destruct (hooked s i) eqn:Hh.
  { left. by apply (hooked_spec i Hinv) in Hh as [? _]. }
  assert (i ∉ queue s) as Hq.
  { intros Hq. assert (hooked s i = true) by (by apply (hooked_spec i Hinv)). congruence. }
  destruct (forallb _ _) eqn:Ha.
  - split; [done|]. intros a Hin. apply (EdgeDispatchable_spec a i Hinv).
    rewrite forallb_forall in Ha. by apply Ha, list_elem_of_In.
  - right. apply not_true_iff_false in Ha. rewrite forallb_forall in Ha.
    destruct (decide (Forall (λ a, EdgeDispatchable s a i = true) (list_at (in_edges s) i))) as [HF|HF].
    + destruct Ha. intros a Hin%list_elem_of_In. by eapply Forall_forall in HF.
    + apply not_Forall_Exists in HF; [|apply _]. apply Exists_exists in HF as (a & Hin & Hne).
      exists a. split; [done|]. by rewrite <- (EdgeDispatchable_spec a i Hinv).
Qed.

(** ** Examining an instruction for dispatch *)

Lemma queue_push s i : queue (push_ready s i) = queue s ++ [i].
Proof. unfold queue, push_ready. cbn. by rewrite !app_assoc. Qed.

Lemma covered_mono links T T' s s' a d :
  (∀ i, behind T s i → behind T' s' i) → accesses s' = accesses s →
  covered links T s a d → covered links T' s' a d.
Proof. intros Hq Ha [H|H]; [left; by apply Hq|right; by rewrite Ha]. Qed.

Lemma covered_first_mono links T T' s s' a d :
  (∀ i, behind T s i → behind T' s' i) → accesses s' = accesses s →
  covered_first links T s a d → covered_first links T' s' a d.
Proof. intros Hq Ha [H|H]; [left; by apply Hq|right; by rewrite Ha]. Qed.

Lemma push_ready_inv links D W X T s i :
  inv links D (i :: W) X T s → i ∈ D → plain s i → i ∉ h_finished s → i ∉ queue s →
  (∀ a, a ∈ list_at (in_edges s) i → edge_ok s a i) →
  inv links D W X T (push_ready s i).
Proof.
  intros Hinv HD Hp Hf Hq He.
  assert (∀ j, j ∈ queue s → j ∈ queue (push_ready s i)) as Hmono
    by (intros j Hj; rewrite queue_push; apply elem_of_app; by left).
  constructor; try keep Hinv.
  - rewrite queue_push. apply NoDup_app. split_and!; [apply (iv_queue_nodup Hinv)| |apply NoDup_singleton].
    intros j Hj ->%list_elem_of_singleton. done.
  - intros j. rewrite queue_push, elem_of_app, list_elem_of_singleton. intros [Hj| ->]; [by apply (iv_queue Hinv)|done].
  - intros j Hj. cbn. destruct (iv_finished Hinv j Hj) as (? & ? & ?). split_and!; [done..|].
    rewrite elem_of_app, list_elem_of_singleton. intros [?| ->]; done.
  - intros a b Hab. destruct (iv_links_edge Hinv a b Hab) as [H|H]; [left; by apply Hmono|by right].
  - intros a b Hab. rewrite queue_push, elem_of_app, list_elem_of_singleton.
    intros [Hb| ->]; [by apply ahead_app, (iv_links_ahead Hinv)|].
    apply ahead_app, ahead_end; [|done].
    destruct (iv_links_edge Hinv a i Hab) as [H|H]; [done|]. by destruct (He a H) as (x & _ & _ & ? & _).
  - intros a b Hs Hab. rewrite queue_push, elem_of_app, list_elem_of_singleton.
    intros [Hb| ->]; [by apply (iv_strict_ahead Hinv)|].
    destruct (iv_strict_edge Hinv a i Hs Hab) as [H|[H|[H|H]]]; [tauto..|].
    right; right. apply (edge_ok_stream s a i Hs), He, H.
  - intros a b Hb Hbq Hst Hab. rewrite queue_push in *. apply (iv_fifo Hinv); [done| |done|].
    + apply elem_of_app in Hbq as [?| ->%list_elem_of_singleton]; done.
    + eapply ahead_app_inv; [|done]. by apply elem_of_app in Hbq as [?| ->%list_elem_of_singleton].
  - intros a x d ????. apply (covered_mono links T T s); [intros j []; split; auto|done|by eapply (iv_covered Hinv)].
  - intros a x d ????. apply (covered_first_mono links T T s); [intros j []; split; auto|done|by eapply (iv_covered_first Hinv)].
  - intros a b x y ??????. destruct (iv_ordered Hinv a b x y) as [Ho|Ho]; try done; [left|by right].
    destruct Ho. rewrite queue_push. split; [by apply ahead_app|done].
  - intros b HbD Hbp. rewrite queue_push, not_elem_of_app, list_elem_of_singleton. intros [Hbq Hbi].
    destruct (iv_wait Hinv b HbD Hbp Hbq) as [[?|?]%elem_of_cons|(a & Ha & Hw)]; [done|by left|].
    right. exists a. split; [done|]. cbn. rewrite elem_of_app, list_elem_of_singleton.
    destruct (decide (a = i)) as [->|Hai]; [tauto|]. destruct Hw as [Hw|[Hw|Hw]]; [|tauto..].
    left. intros (x & Hx & Hpx & Haq & Haf). apply Hw. exists x. split_and!; try done.
    rewrite queue_push, elem_of_app, list_elem_of_singleton in Haq. tauto.
Qed.

Lemma preschedule_inv links D W X T s i :
  inv links D (i :: W) X T s → i ∈ D → plain s i → i ∉ h_finished s →
  inv links D W X T (preschedule s i).
Proof.
  intros Hinv HD Hp Hf. pose proof (Dispatchable_spec i Hinv Hf) as Hd. unfold preschedule.
  destruct (Dispatchable s i).
  - destruct Hd. by apply push_ready_inv.
  - constructor; try keep Hinv. intros b HbD Hbp Hbq.
    destruct (iv_wait Hinv b HbD Hbp Hbq) as [[->|?]%elem_of_cons|?]; [|by left|by right].
    right. destruct Hd as [?|(a & Ha & He)]; [done|]. exists a. tauto.
Qed.

(** ** Connecting instructions *)

Definition rel_sub (r r' : relation nat) : Prop := ∀ a b, r a b → r' a b.

Lemma clos_trans_sub (r r' : relation nat) a b :
  rel_sub r r' → clos_trans _ r a b → clos_trans _ r' a b.
Proof. intros Hs H. induction H; [by apply t_step, Hs|by eapply t_trans]. Qed.

Lemma covered_sub (r r' : relation nat) T s a d : rel_sub r r' → covered r T s a d → covered r' T s a d.
Proof.
  intros Hs [H|(c & m & Hc & [->|H])]; [by left|right; eauto|].
  right. exists c, m. split; [done|]. right. by eapply clos_trans_sub.
Qed.

Lemma covered_first_sub (r r' : relation nat) T s a d :
  rel_sub r r' → covered_first r T s a d → covered_first r' T s a d.
Proof.
  intros Hs [H|(c & l & Hc & [->|H])]; [by left|right; eauto|].
  right. exists c, l. split; [done|]. right. by eapply clos_trans_sub.
Qed.

Lemma ordered_sub (r r' : relation nat) s a b : rel_sub r r' → ordered r s a b → ordered r' s a b.
Proof. intros Hs [H|H]; [by left|right]. by eapply clos_trans_sub. Qed.

Lemma list_at_insert {A : Type} (m : gmap nat (list A)) (i j : nat) (l : list A) :
  list_at (<[i := l]> m) j = if decide (i = j) then l else list_at m j.
Proof.
  unfold list_at. destruct (decide (i = j)) as [->|]; [by rewrite lookup_insert_eq|by rewrite lookup_insert_ne].
Qed.

(** The relation after connecting [src] to [i]. *)
Definition add_link (links : relation nat) (src i : nat) : relation nat :=
  λ a b, links a b ∨ (a = src ∧ b = i).

Lemma add_link_sub links src i : rel_sub links (add_link links src i).
Proof. intros a b H. by left. Qed.

(** What connecting does not change. *)
Definition same_but_edges (s s' : engine) : Prop :=
  ∃ e o, s' = set_in_edges e (set_out_edges o s).

Section connect.
Context (links : relation nat) (D W X : list nat) (T : extra) (s : engine) (i : nat).
Context (Hinv : inv links D W X T s) (Hh : h_handled s = D ++ [i]) (Hp : plain s i).

Lemma current_fresh : i ∉ D.
Proof.
  pose proof (inv_handled_nodup Hinv) as H. rewrite Hh in H. apply NoDup_app in H as (_ & H & _).
  intros Hi. by apply (H i Hi), list_elem_of_singleton.
Qed.

Lemma current_not_queued : i ∉ queue s.
Proof. intros H. by apply (iv_queue Hinv) in H as [?%current_fresh _]. Qed.

Lemma current_not_finished : i ∉ h_finished s.
Proof. intros H. by apply (iv_finished Hinv) in H as [?%current_fresh _]. Qed.

(** A new link into the current instruction, with the edge it stands for. *)
Lemma add_link_inv src :
  src ∈ D → src ∈ queue s ∨ src ∈ list_at (in_edges s) i →
  (strict s → stream_of s src = stream_of s i ∨ src ∈ list_at (in_edges s) i) →
  inv (add_link links src i) D W X T s.
Proof.
  intros Hsrc He Hse. pose proof current_not_queued as Hq. pose proof current_not_finished as Hf.
  pose proof (add_link_sub links src i) as Hsub.
  constructor; try keep Hinv.
  - intros a b [H|[-> ->]]; [by apply (iv_links_known Hinv)|]. rewrite Hh, !elem_of_app, !list_elem_of_singleton. tauto.
  - intros a b [H|[-> ->]]; [by apply (iv_links_edge Hinv)|done].
  - intros a b [H|[-> ->]] Hb; [by apply (iv_links_ahead Hinv)|done].
  - intros a b Hs [H|[-> ->]]; [by apply (iv_strict_edge Hinv)|]. right; right. by apply Hse.
  - intros a b Hs [H|[-> ->]] Hb; [by apply (iv_strict_ahead Hinv)|done].
  - intros a b Hs [H|[-> ->]] Hb; [by apply (iv_strict_finished Hinv)|done].
  - intros a x d ????. eapply covered_sub; [done|by eapply (iv_covered Hinv)].
  - intros a x d ????. eapply covered_first_sub; [done|by eapply (iv_covered_first Hinv)].
  - intros a b x y ??????. eapply ordered_sub; [done|by eapply (iv_ordered Hinv a b)].
Qed.

(** A new edge into the current instruction. *)
Lemma add_edge_inv src :
  src ∈ D → plain s src → src ∉ h_finished s →
  inv links D W X T
    (set_in_edges (<[i := list_at (in_edges s) i ++ [src]]> (in_edges s))
       (set_out_edges (<[src := list_at (out_edges s) src ++ [i]]> (out_edges s)) s)).
Proof.
  intros Hsrc Hsp Hsf. pose proof current_fresh as HiD. set (s' := set_in_edges _ _).
  assert (∀ b, list_at (in_edges s') b =
            if decide (i = b) then list_at (in_edges s) i ++ [src] else list_at (in_edges s) b) as Hin
    by (intros b; unfold s'; cbn; by rewrite list_at_insert).
  assert (∀ a, list_at (out_edges s') a =
            if decide (src = a) then list_at (out_edges s) src ++ [i] else list_at (out_edges s) a) as Hout
    by (intros a; unfold s'; cbn; by rewrite list_at_insert).
  assert (∀ a b, a ∈ list_at (in_edges s) b → a ∈ list_at (in_edges s') b) as Hmono.
  { intros a b H. rewrite Hin. destruct (decide (i = b)) as [<-|]; [|done]. apply elem_of_app. by left. }
  constructor; try keep Hinv.
  - intros a b. rewrite Hin, Hout. pose proof (iv_edges Hinv a b) as E.
    destruct (decide (src = a)) as [<-|], (decide (i = b)) as [<-|]; rewrite ?count_occ_app; simpl;
      repeat (destruct (Nat.eq_dec _ _); try congruence); lia.
  - intros a b. rewrite Hin. destruct (decide (i = b)) as [<-|]; [|by apply (iv_edges_known Hinv)].
    rewrite elem_of_app, list_elem_of_singleton. intros [H| ->]; [by apply (iv_edges_known Hinv)|].
    split_and!; [|done|done|done]. change (h_handled s') with (h_handled s). rewrite Hh. by apply before_end.
  - intros b Hb. rewrite Hin. destruct (decide (i = b)) as [<-|]; [|by apply (iv_edges_finished Hinv)].
    by apply current_not_finished in Hb.
  - intros a b Hab. destruct (iv_links_edge Hinv a b Hab) as [?|?]; [by left|right; by apply Hmono].
  - intros a b Hs Hab. destruct (iv_strict_edge Hinv a b Hs Hab) as [?|[?|[?|?]]]; [tauto..|].
    do 3 right. by apply Hmono.
  - intros b HbD Hbp Hbq. destruct (iv_wait Hinv b HbD Hbp Hbq) as [?|(a & Ha & Hw)]; [by left|right].
    exists a. split; [by apply Hmono|done].
Qed.

End connect.

Lemma TryConnect_inv links D W X T s i src :
  inv links D W X T s → h_handled s = D ++ [i] → plain s i →
  src ∈ D → plain s src → src ∉ h_finished s →
  inv (add_link links src i) D W X T (TryConnectInstruction s src i).
Proof.
  intros Hinv Hh Hp Hsrc Hsp Hsf. unfold TryConnectInstruction. rewrite (proj2 (Nat.eqb_neq _ _)); cycle 1.
  { intros ->. by eapply (current_fresh links D). }
  destruct (EdgeDispatchable s src i) eqn:He.
  - apply (EdgeDispatchable_spec src i Hinv) in He. apply add_link_inv; [done..| |].
    + left. by destruct He as (x & _ & _ & ? & _).
    + intros Hs. left. by apply edge_ok_stream.
  - assert (src ∈ list_at (<[i := list_at (in_edges s) i ++ [src]]> (in_edges s)) i) as Hin
      by (rewrite list_at_insert, decide_True by done; apply elem_of_app; right; by apply list_elem_of_singleton).
    apply add_link_inv; [by apply add_edge_inv|done|done|done|by right|by right].
Qed.

Lemma TryConnect_same s src i : same_but_edges s (TryConnectInstruction s src i).
Proof.
  unfold TryConnectInstruction, same_but_edges. destruct (Nat.eqb src i); [exists (in_edges s), (out_edges s); by destruct s|].
  destruct (EdgeDispatchable s src i); [exists (in_edges s), (out_edges s); by destruct s|by do 2 eexists].
Qed.

Lemma same_but_edges_trans s1 s2 s3 : same_but_edges s1 s2 → same_but_edges s2 s3 → same_but_edges s1 s3.
Proof. intros (e & o & ->) (e' & o' & ->). by exists e', o'. Qed.

(** Connecting a list of sources. *)
Lemma TryConnect_list_inv links D W X T s (srcs : list nat) i :
  inv links D W X T s → h_handled s = D ++ [i] → plain s i →
  (∀ c, c ∈ srcs → c ∈ h_handled s ∧ plain s c ∧ c ∉ h_finished s) →
  let s' := foldl (λ s src, TryConnectInstruction s src i) s srcs in
  ∃ links', rel_sub links links' ∧ inv links' D W X T s' ∧ same_but_edges s s' ∧
    (∀ c, c ∈ srcs → c ≠ i → links' c i).
Proof.
  revert links s. induction srcs as [|c srcs IH]; intros links s Hinv Hh Hp Hc; cbn [foldl].
  { exists links. split_and!; [by intros ??|done|exists (in_edges s), (out_edges s); by destruct s|]. intros c H. by apply not_elem_of_nil in H. }
  destruct (decide (c = i)) as [->|Hne].
  - assert (TryConnectInstruction s i i = s) as -> by (unfold TryConnectInstruction; by rewrite Nat.eqb_refl).
    destruct (IH links s Hinv Hh Hp) as (l' & ? & ? & ? & Hl); [intros; apply Hc; by right|].
    exists l'. split_and!; try done. intros c. rewrite elem_of_cons. intros [->|Hin] ?; [done|by apply Hl].
  - destruct (Hc c) as (HcU & Hcp & Hcf); [left|].
    pose proof (TryConnect_same s c i) as Hsame.
    assert (inv (add_link links c i) D W X T (TryConnectInstruction s c i)) as Hinv1.
    { apply TryConnect_inv; try done. rewrite Hh in HcU. apply elem_of_app in HcU as [?|?%list_elem_of_singleton]; done. }
    destruct (IH (add_link links c i) (TryConnectInstruction s c i) Hinv1) as (l' & Hsub & Hinv2 & Hsame2 & Hl).
    { by destruct Hsame as (? & ? & ->). } { by destruct Hsame as (? & ? & ->). }
    { destruct Hsame as (? & ? & ->). intros c' ?. apply Hc. by right. }
    exists l'. split_and!; [|done|by eapply same_but_edges_trans|].
    + intros a b H. apply Hsub. by left.
    + intros c'. rewrite elem_of_cons. intros [->|Hin] ?; [apply Hsub; by right|by apply Hl].
Qed.

(** ** Recording an access *)

(** What recording accesses does not change. *)
Definition same_but_deps (s s' : engine) : Prop :=
  ∃ acc e o, s' = set_accesses acc (set_in_edges e (set_out_edges o s)).

Lemma same_but_deps_refl s : same_but_deps s s.
Proof. exists (accesses s), (in_edges s), (out_edges s). by destruct s. Qed.

Lemma same_but_deps_trans s1 s2 s3 : same_but_deps s1 s2 → same_but_deps s2 s3 → same_but_deps s1 s3.
Proof. intros (a & e & o & ->) (a' & e' & o' & ->). by exists a', e', o'. Qed.

Lemma same_but_deps_queue s s' : same_but_deps s s' → queue s' = queue s.
Proof. by intros (? & ? & ? & ->). Qed.

Lemma same_but_deps_instrs s s' : same_but_deps s s' → instrs s' = instrs s.
Proof. by intros (? & ? & ? & ->). Qed.

Lemma same_but_deps_handled s s' : same_but_deps s s' → h_handled s' = h_handled s.
Proof. by intros (? & ? & ? & ->). Qed.

(** The access of [i] at the end of the list of [d]. *)
Lemma AccessDependence_inv links D W X T s i x m d :
  inv links D W X T s → h_handled s = D ++ [i] →
  instrs s !! i = Some x → IsBarrier x = false → d ∈ access_list x →
  inv links D W X T (AccessDependence s m d i).
Proof.
  intros Hinv Hh Hx Hb Hd. set (s' := AccessDependence s m d i).
  assert (∀ d', list_at (accesses s') d' =
            list_at (accesses s) d' ++ if decide (d = d') then [(i, m)] else []) as Hacc.
  { intros d'. unfold s'; cbn. rewrite list_at_insert. destruct (decide (d = d')) as [->|]; [done|by rewrite app_nil_r]. }
  assert (∀ c m' d', (c, m') ∈ list_at (accesses s') d' →
            (c, m') ∈ list_at (accesses s) d' ∨ (c = i ∧ d' = d)) as Hnew.
  { intros c m' d'. rewrite Hacc, elem_of_app. destruct (decide (d = d')) as [<-|].
    - rewrite list_elem_of_singleton. intros [?|?]; [by left|right; by simplify_eq].
    - intros [?|H%not_elem_of_nil]; [by left|done]. }
  constructor; try keep Hinv.
  - intros c m' d' [H|[-> ->]]%Hnew; [by apply (iv_access_known Hinv) in H|].
    split_and!; [|by exists x|by eapply (current_not_finished links D W X T s)].
    change (h_handled s') with (h_handled s). rewrite Hh. apply elem_of_app. right. by apply list_elem_of_singleton.
  - intros c m' d' y [H|[-> ->]]%Hnew Hy; [by eapply (iv_access_own Hinv)|].
    change (instrs s') with (instrs s) in Hy. congruence.
  - intros a y d' ????. destruct (iv_covered Hinv a y d') as [?|(c & m' & ? & ?)]; try done; [by left|right].
    exists c, m'. split; [|done]. rewrite Hacc. apply elem_of_app. by left.
  - intros a y d' ????. destruct (iv_covered_first Hinv a y d') as [?|(c & l & Hl & ?)]; try done; [by left|right].
    rewrite Hacc, Hl. by eexists c, _.
Qed.

(** After a write, the writer's access stands for all the accesses before it. *)
Lemma claim_access_inv links D W X T s i d :
  inv links D W X T s → (i, true) ∈ list_at (accesses s) d →
  (∀ c m, (c, m) ∈ list_at (accesses s) d → c ≠ i → links c i) →
  inv links D W X T (set_accesses (<[d := [(i, true)]]> (accesses s)) s).
Proof.
  intros Hinv Hi Hl. set (s' := set_accesses _ _).
  assert (∀ d', list_at (accesses s') d' = if decide (d = d') then [(i, true)] else list_at (accesses s) d') as Hacc
    by (intros d'; unfold s'; cbn; by rewrite list_at_insert).
  assert (∀ c m d', (c, m) ∈ list_at (accesses s') d' → ∃ m', (c, m') ∈ list_at (accesses s) d') as Hnew.
  { intros c m d'. rewrite Hacc. destruct (decide (d = d')) as [<-|]; [|by exists m].
    intros H%list_elem_of_singleton. simplify_eq. by exists true. }
  assert (∀ a c m, (c, m) ∈ list_at (accesses s) d → a = c ∨ clos_trans nat links a c →
            a = i ∨ clos_trans nat links a i) as Htr.
  { intros a c m Hc Hac. destruct (decide (c = i)) as [->|Hne]; [done|]. right.
    pose proof (t_step _ _ _ _ (Hl _ _ Hc Hne)). destruct Hac as [->|?]; [done|by eapply t_trans]. }
  constructor; try keep Hinv.
  - intros c m d' (m' & H)%Hnew. by apply (iv_access_known Hinv) in H.
  - intros c m d' y (m' & H)%Hnew. by apply (iv_access_own Hinv c m' d' y H).
  - intros a y d' ????. destruct (iv_covered Hinv a y d') as [?|(c & m & Hc & Hac)]; try done; [by left|right].
    rewrite Hacc. destruct (decide (d = d')) as [<-|]; [|by exists c, m].
    exists i, true. split; [by apply list_elem_of_singleton|]. by eapply Htr.
  - intros a y d' ????. destruct (iv_covered_first Hinv a y d') as [?|(c & l & Hc & Hac)]; try done; [by left|right].
    rewrite Hacc. destruct (decide (d = d')) as [<-|]; [|by exists c, l].
    exists i, []. split; [done|]. eapply Htr; [|done]. rewrite Hc. by left.
Qed.

Lemma access_write_spec links D W X T s i x d :
  inv links D W X T s → h_handled s = D ++ [i] →
  instrs s !! i = Some x → IsBarrier x = false → d ∈ access_list x →
  ∃ links', rel_sub links links' ∧ inv links' D W X T (access_write i s d) ∧
    same_but_deps s (access_write i s d) ∧
    (∀ d', list_at (accesses (access_write i s d)) d' =
           if decide (d = d') then [(i, true)] else list_at (accesses s) d') ∧
    (∀ c m, (c, m) ∈ list_at (accesses s) d → c ≠ i → links' c i).
Proof.
  intros Hinv Hh Hx Hb Hd. unfold access_write, ConnectInstructionsByWrite.
  pose proof (AccessDependence_inv _ _ _ _ _ _ _ _ true _ Hinv Hh Hx Hb Hd) as H1.
  set (s1 := AccessDependence s true d i) in *.
  assert (list_at (accesses s1) d = list_at (accesses s) d ++ [(i, true)]) as E1
    by (unfold s1; cbn; by rewrite list_at_insert, decide_True).
  rewrite E1, removelast_last.
  destruct (TryConnect_list_inv links D W X T s1 (map fst (list_at (accesses s) d)) i H1)
    as (links' & Hsub & H2 & (e & o & Hs2) & Hl); [done|by exists x| |].
  { intros c ((c' & m) & -> & Hc)%list_elem_of_fmap. by apply (iv_access_known Hinv) in Hc. }
  revert H2 Hs2. set (s2 := foldl _ _ _). intros H2 Hs2.
  assert (list_at (accesses s2) d = list_at (accesses s) d ++ [(i, true)]) as E2 by (rewrite Hs2; exact E1).
  assert (∀ c m, (c, m) ∈ list_at (accesses s) d → c ≠ i → links' c i) as Hlinks.
  { intros c m Hc Hne. apply Hl; [|done]. apply list_elem_of_fmap. by exists (c, m). }
  exists links'. split_and!; [done| | | |done].
  - apply claim_access_inv; [done| |].
    + rewrite E2. apply elem_of_app. right. by apply list_elem_of_singleton.
    + intros c m Hc Hne. rewrite E2 in Hc. apply elem_of_app in Hc as [Hc|Hc%list_elem_of_singleton]; [by eapply Hlinks|].
      by simplify_eq.
  - rewrite Hs2. by do 3 eexists.
  - intros d'. cbn. rewrite list_at_insert. destruct (decide (d = d')) as [->|Hne]; [done|].
    rewrite Hs2. unfold s1; cbn. by rewrite list_at_insert, decide_False.
Qed.

Lemma access_read_spec links D W X T s i x d :
  inv links D W X T s → h_handled s = D ++ [i] →
  instrs s !! i = Some x → IsBarrier x = false → d ∈ access_list x →
  ∃ links', rel_sub links links' ∧ inv links' D W X T (access_read i s d) ∧
    same_but_deps s (access_read i s d) ∧
    (∀ d', list_at (accesses (access_read i s d)) d' =
           list_at (accesses s) d' ++ if decide (d = d') then [(i, false)] else []) ∧
    (∀ c l, list_at (accesses s) d = (c, true) :: l → c ≠ i → links' c i).
Proof.
  intros Hinv Hh Hx Hb Hd. unfold access_read, ConnectInstructionsByRead.
  pose proof (AccessDependence_inv _ _ _ _ _ _ _ _ false _ Hinv Hh Hx Hb Hd) as H1.
  set (s1 := AccessDependence s false d i) in *.
  assert (∀ d', list_at (accesses s1) d' = list_at (accesses s) d' ++ if decide (d = d') then [(i, false)] else []) as E1.
  { intros d'. unfold s1; cbn. rewrite list_at_insert. destruct (decide (d = d')) as [->|]; [done|by rewrite app_nil_r]. }
  assert (same_but_deps s s1) as S1 by (by exists (accesses s1), (in_edges s), (out_edges s); destruct s).
  rewrite E1, decide_True by done.
  destruct (list_at (accesses s) d) as [|[c [|]] l] eqn:El; cbn [app].
  - exists links. by split_and!; [intros ??|..].
  - destruct (TryConnect_list_inv links D W X T s1 [c] i H1) as (links' & Hsub & H2 & (e & o & Hs2) & Hl);
      [done|by exists x| |].
    { intros c' ->%list_elem_of_singleton. apply (iv_access_known Hinv c true d). rewrite El. by left. }
    cbn [foldl] in *. exists links'. split_and!; [done..| | |].
    + rewrite Hs2. eapply same_but_deps_trans; [done|]. by exists (accesses s1), e, o.
    + intros d'. rewrite Hs2. exact (E1 d').
    + intros c' l' [= -> _] Hne. apply Hl; [|done]. by left.
  - exists links. by split_and!; [intros ??|..].
Qed.

(** ** Recording all the accesses of an instruction *)

Lemma covered_ordered links links' D W X T s i a d :
  inv links D W X T s → ex_released T = [] → i ∉ queue s → i ∉ h_finished s → rel_sub links links' →
  (∀ c m, (c, m) ∈ list_at (accesses s) d → c ≠ i → links' c i) → a ≠ i →
  covered links T s a d → ordered links' s a i.
Proof.
  intros Hinv HT Hiq Hif Hsub Hl Hai [[Hq Hf]|(c & m & Hc & Hac)]; [left|right].
  { split; [by apply ahead_end|]. intros Hs. apply ahead_end; [|done]. destruct (Hf Hs) as [H|H]; [|done].
    rewrite HT in H. by apply not_elem_of_nil in H. }
  destruct (decide (c = i)) as [->|Hne].
  - destruct Hac as [?|?]; [done|by eapply clos_trans_sub].
  - pose proof (t_step _ _ _ _ (Hl c m Hc Hne)). destruct Hac as [->|?]; [done|].
    eapply t_trans; [by eapply clos_trans_sub|done].
Qed.

Lemma covered_first_ordered links links' D W X T s i a d :
  inv links D W X T s → ex_released T = [] → i ∉ queue s → i ∉ h_finished s → rel_sub links links' →
  (∀ c l, list_at (accesses s) d = (c, true) :: l → c ≠ i → links' c i) → a ≠ i →
  covered_first links T s a d → ordered links' s a i.
Proof.
  intros Hinv HT Hiq Hif Hsub Hl Hai [[Hq Hf]|(c & l & Hc & Hac)]; [left|right].
  { split; [by apply ahead_end|]. intros Hs. apply ahead_end; [|done]. destruct (Hf Hs) as [H|H]; [|done].
    rewrite HT in H. by apply not_elem_of_nil in H. }
  destruct (decide (c = i)) as [->|Hne].
  - destruct Hac as [?|?]; [done|by eapply clos_trans_sub].
  - pose proof (t_step _ _ _ _ (Hl c l Hc Hne)). destruct Hac as [->|?]; [done|].
    eapply t_trans; [by eapply clos_trans_sub|done].
Qed.

Lemma ordered_same links s s' a b :
  queue s' = queue s → h_finished s' = h_finished s → instrs s' = instrs s →
  ordered links s a b → ordered links s' a b.
Proof. unfold ordered, strict. by intros -> -> ->. Qed.

Lemma ordered_forth links s s' a b : same_but_deps s s' → ordered links s a b → ordered links s' a b.
Proof. intros (? & ? & ? & ->). by apply ordered_same. Qed.

Lemma ordered_back links s s' a b : same_but_deps s s' → ordered links s' a b → ordered links s a b.
Proof. intros (? & ? & ? & ->). by apply ordered_same. Qed.

Section consume.
Context (D W X : list nat) (T : extra) (i : nat) (x : Instr) (Hb : IsBarrier x = false).
Context (HT : ex_released T = []).

Lemma access_writes_spec ds : ∀ links s,
  inv links D W X T s → h_handled s = D ++ [i] → instrs s !! i = Some x →
  (∀ d, d ∈ ds → d ∈ access_list x) →
  let s' := foldl (access_write i) s ds in
  ∃ links', rel_sub links links' ∧ inv links' D W X T s' ∧ same_but_deps s s' ∧
    (∀ d, list_at (accesses s') d = if decide (d ∈ ds) then [(i, true)] else list_at (accesses s) d) ∧
    (∀ a y d, a ∈ D → instrs s !! a = Some y → IsBarrier y = false → d ∈ ds → d ∈ access_list y →
       ordered links' s a i).
Proof.
  induction ds as [|d ds IH]; intros links s Hinv Hh Hx Hds; cbn [foldl].
  { exists links. split_and!; [by intros ??|done|apply same_but_deps_refl| |].
    - intros d. rewrite decide_False; [done|apply not_elem_of_nil].
    - intros a y d _ _ _ []%not_elem_of_nil. }
  destruct (access_write_spec links D W X T s i x d) as (l1 & Hsub1 & H1 & Hs1 & Hacc1 & Hl1); try done.
  { apply Hds. by left. }
  destruct (IH l1 (access_write i s d) H1) as (l2 & Hsub2 & H2 & Hs2 & Hacc2 & Hl2).
  { by rewrite (same_but_deps_handled _ _ Hs1). } { by rewrite (same_but_deps_instrs _ _ Hs1). }
  { intros d' ?. apply Hds. by right. }
  exists l2. split_and!; [|done|by eapply same_but_deps_trans| |].
  - intros a b H. by apply Hsub2, Hsub1.
  - intros d'. rewrite Hacc2, Hacc1. destruct (decide (d' ∈ ds)), (decide (d = d')), (decide (d' ∈ d :: ds)); set_solver.
  - intros a y d' HaD Hy Hyb Hd' Hin. apply elem_of_cons in Hd' as [->|Hd'].
    + eapply ordered_sub; [exact Hsub2|]. eapply covered_ordered; [done|done| | |exact Hsub1|done| |].
      * by eapply (current_not_queued links D W X T s).
      * by eapply (current_not_finished links D W X T s).
      * intros ->. by eapply (current_fresh links D W X T s).
      * by eapply (iv_covered Hinv).
    + eapply (ordered_back _ _ _ _ _ Hs1).
      eapply Hl2; [done| |done|done|done]. by rewrite (same_but_deps_instrs _ _ Hs1).
Qed.

Lemma access_reads_spec ds : ∀ links s,
  inv links D W X T s → h_handled s = D ++ [i] → instrs s !! i = Some x →
  (∀ d, d ∈ ds → d ∈ access_list x) →
  let s' := foldl (access_read i) s ds in
  ∃ links', rel_sub links links' ∧ inv links' D W X T s' ∧ same_but_deps s s' ∧
    (∀ d, ∃ r, list_at (accesses s') d = list_at (accesses s) d ++ r ∧ (d ∈ ds → (i, false) ∈ r)) ∧
    (∀ a y d, a ∈ D → instrs s !! a = Some y → IsBarrier y = false → d ∈ ds → d ∈ writes y →
       ordered links' s a i).
Proof.
  induction ds as [|d ds IH]; intros links s Hinv Hh Hx Hds; cbn [foldl].
  { exists links. split_and!; [by intros ??|done|apply same_but_deps_refl| |].
    - intros d. exists []. rewrite app_nil_r. split; [done|]. by intros ?%not_elem_of_nil.
    - intros a y d _ _ _ []%not_elem_of_nil. }
  destruct (access_read_spec links D W X T s i x d) as (l1 & Hsub1 & H1 & Hs1 & Hacc1 & Hl1); try done.
  { apply Hds. by left. }
  destruct (IH l1 (access_read i s d) H1) as (l2 & Hsub2 & H2 & Hs2 & Hacc2 & Hl2).
  { by rewrite (same_but_deps_handled _ _ Hs1). } { by rewrite (same_but_deps_instrs _ _ Hs1). }
  { intros d' ?. apply Hds. by right. }
  exists l2. split_and!; [|done|by eapply same_but_deps_trans| |].
  - intros a b H. by apply Hsub2, Hsub1.
  - intros d'. destruct (Hacc2 d') as (r & -> & Hr). rewrite Hacc1, <- app_assoc. eexists. split; [done|].
    rewrite elem_of_cons, elem_of_app. destruct (decide (d = d')) as [->|Hne].
    + left. by left.
    + intros [?|?]; [done|right; by apply Hr].
  - intros a y d' HaD Hy Hyb Hd' Hin. apply elem_of_cons in Hd' as [->|Hd'].
    + eapply ordered_sub; [exact Hsub2|]. eapply covered_first_ordered; [done|done| | |exact Hsub1|done| |].
      * by eapply (current_not_queued links D W X T s).
      * by eapply (current_not_finished links D W X T s).
      * intros ->. by eapply (current_fresh links D W X T s).
      * by eapply (iv_covered_first Hinv).
    + eapply (ordered_back _ _ _ _ _ Hs1).
      eapply Hl2; [done| |done|done|done]. by rewrite (same_but_deps_instrs _ _ Hs1).
Qed.

Lemma ConsumeDependences_writes s :
  ConsumeDependences s i x = foldl (access_read i) (foldl (access_write i) s (writes x)) (input_dependences x).
Proof. unfold ConsumeDependences, writes. rewrite foldl_app. by destruct (stream_sequential_dependence x). Qed.

(** All conflicts of the new instruction are ordered, all its accesses covered. *)
Lemma ConsumeDependences_spec links s :
  inv links D W X T s → h_handled s = D ++ [i] → instrs s !! i = Some x →
  let s' := ConsumeDependences s i x in
  ∃ links', inv links' D W X T s' ∧ same_but_deps s s' ∧
    (∀ d, d ∈ access_list x → covered links' T s' i d) ∧
    (∀ d, d ∈ writes x → covered_first links' T s' i d) ∧
    (∀ a y, a ∈ D → instrs s !! a = Some y → IsBarrier y = false → conflict y x → ordered links' s' a i).
Proof.
  intros Hinv Hh Hx. rewrite ConsumeDependences_writes. cbn zeta.
  destruct (access_writes_spec (writes x) links s) as (l1 & Hsub1 & H1 & Hs1 & Hacc1 & Hl1); try done.
  { intros d Hd. apply access_list_writes. by left. }
  set (s1 := foldl (access_write i) s (writes x)) in *.
  destruct (access_reads_spec (input_dependences x) l1 s1) as (l2 & Hsub2 & H2 & Hs2 & Hacc2 & Hl2); try done.
  { by rewrite (same_but_deps_handled _ _ Hs1). } { by rewrite (same_but_deps_instrs _ _ Hs1). }
  { intros d Hd. apply access_list_writes. by right. }
  set (s2 := foldl (access_read i) s1 (input_dependences x)) in *.
  assert (∀ d, d ∈ writes x → covered_first l2 T s2 i d) as Hw.
  { intros d Hd. right. destruct (Hacc2 d) as (r & -> & _). rewrite Hacc1, decide_True by done.
    exists i, r. split; [done|by left]. }
  exists l2. split_and!; [done|by eapply same_but_deps_trans| |done|].
  - intros d [Hd|Hd]%access_list_writes.
    + destruct (Hw d Hd) as [?|(c & l & Hc & ?)]; [by left|right]. exists c, true. split; [|done]. rewrite Hc. by left.
    + right. destruct (Hacc2 d) as (r & -> & Hr). exists i, false. split; [|by left]. apply elem_of_app. right. by apply Hr.
  - intros a y HaD Hy Hyb (d & Hdy & Hdx & Hdw).
    assert (d ∈ writes x ∨ (d ∈ input_dependences x ∧ d ∈ writes y)) as [H|[H H']].
    { apply access_list_writes in Hdx. tauto. }
    + eapply (ordered_forth _ _ _ _ _ (same_but_deps_trans _ _ _ Hs1 Hs2)).
      eapply ordered_sub; [exact Hsub2|]. by eapply Hl1.
    + eapply (ordered_forth _ _ _ _ _ Hs2).
      eapply Hl2; [done| |done|done|done]. by rewrite (same_but_deps_instrs _ _ Hs1).
Qed.
End consume.

Lemma before_snoc_inv (l : list nat) (i a b : nat) :
  NoDup (l ++ [i]) → before (l ++ [i]) a b → before l a b ∨ (a ∈ l ∧ b = i).
Proof.
  intros Hnd (j & k & Hjk & Hj & Hk).
  pose proof (lookup_lt_Some _ _ _ Hk) as Hlt. rewrite length_app in Hlt. cbn in Hlt.
  rewrite lookup_app_l in Hj by lia. destruct (decide (k < length l)%nat) as [Hkl|Hkl].
  - rewrite lookup_app_l in Hk by done. left. by exists j, k.
  - right. split; [by eapply list_elem_of_lookup_2|].
    rewrite lookup_app_r in Hk by lia. replace (k - length l)%nat with O in Hk by lia. by injection Hk.
Qed.

(** The instruction whose accesses are recorded joins [D]; it is to be examined. *)
Lemma ConsumeDependences_inv links D W X T s i x :
  inv links D W X T s → ex_released T = [] →
  h_handled s = D ++ [i] → instrs s !! i = Some x → IsBarrier x = false →
  ∃ links', inv links' (D ++ [i]) (i :: W) X T (ConsumeDependences s i x) ∧
            same_but_deps s (ConsumeDependences s i x).
Proof.
  intros Hinv HT Hh Hx Hb.
  pose proof (current_not_finished links D W X T s i Hinv Hh) as Hif.
  destruct (ConsumeDependences_spec D W X T i x Hb HT links s) as (l' & H' & Hs & Hc & Hcf & Ho); try done.
  exists l'. split; [|done]. set (s' := ConsumeDependences s i x) in *.
  pose proof (same_but_deps_handled _ _ Hs) as Eh. pose proof (same_but_deps_instrs _ _ Hs) as Ei.
  assert (∀ a, a ∈ D ++ [i] → a ∈ D ∨ a = i) as Hsnoc
    by (intros a [?|?%list_elem_of_singleton]%elem_of_app; tauto).
  assert (∀ a, a ∈ D → a ∈ D ++ [i]) as Hmono by (intros a ?; apply elem_of_app; by left).
  assert (NoDup (D ++ [i])) as Hnd by (rewrite <- Hh; by eapply inv_handled_nodup).
  constructor; try keep H'.
  - by rewrite Eh, Hh.
  - intros j Hj. destruct (iv_queue H' j Hj). split; [by apply Hmono|done].
  - intros j Hj. destruct (iv_finished H' j Hj). split; [by apply Hmono|done].
  - intros a y d [Ha| ->]%Hsnoc Hy Hyb Hd; [by eapply (iv_covered H')|]. rewrite Ei, Hx in Hy. simplify_eq. by apply Hc.
  - intros a y d [Ha| ->]%Hsnoc Hy Hyb Hd; [by eapply (iv_covered_first H')|]. rewrite Ei, Hx in Hy. simplify_eq. by apply Hcf.
  - intros a b y z [Hab|[Ha ->]]%before_snoc_inv Hy Hz Hyb Hzb Hyz; [|..|done].
    + by eapply (iv_ordered H' a b y z).
    + rewrite Ei in Hy, Hz. simplify_eq. by eapply Ho.
  - intros a b [Hab|[Ha ->]]%before_snoc_inv Hbb Hf; [by apply (iv_barrier H')| |done].
    destruct Hs as (? & ? & ? & Hs). by rewrite Hs in Hf.
  - intros b [HbD| ->]%Hsnoc Hbp Hbq; [|left; by left].
    destruct (iv_wait H' b HbD Hbp Hbq) as [?|?]; [left; by right|by right].
Qed.
