(* ===== verification/VmEngineRun.v ===== *)
(** * The scheduler: every operation keeps the invariant

    Handling, releasing, dispatching, running a barrier, fetching and fusing, and
    their composition in [Schedule]; then what the invariant says of every
    reachable state. *)
From Stdlib Require Import Relations.
From S2P Require Import Prelude VmEngine VmEngineSpec.

(** ** Handling a pending instruction *)

Definition enter (s : engine) (i : nat) (x : Instr) : engine :=
  let s1 := set_h_handled (h_handled s ++ [i]) (LivelyInstructionListPushBack s i) in
  if IsBarrier x then set_barriers (barriers s1 ++ [i]) s1 else s1.

Lemma filter_snoc (P : nat → Prop) `{!∀ j, Decision (P j)} (l : list nat) (i : nat) :
  filter P (l ++ [i]) = filter P l ++ (if decide (P i) then [i] else []).
Proof. by rewrite filter_app, filter_cons, filter_nil. Qed.

Lemma enter_inv links D X T s i x :
  inv links D [] (i :: X) T s → h_handled s = D → instrs s !! i = Some x →
  inv links D [] X T (enter s i x).
Proof.
  intros Hinv Hh Hx. set (s' := enter s i x).
  assert (h_handled s' = h_handled s ++ [i]) as Eh by (unfold s', enter; by destruct (IsBarrier x)).
  assert (instrs s' = instrs s) as Ei by (unfold s', enter; by destruct (IsBarrier x)).
  assert (h_finished s' = h_finished s) as Ef by (unfold s', enter; by destruct (IsBarrier x)).
  assert (i ∉ h_handled s) as Hi.
  { pose proof (iv_fresh Hinv) as H. apply NoDup_app in H as (_ & H & _). intros Hi. apply (H i Hi). by left. }
  assert (i ∉ h_finished s) as Hif.
  { intros H. apply (iv_finished Hinv) in H as [H _]. by apply Hi; rewrite Hh. }
  assert (h_handled s' ++ X ++ local_pending s' ++ pending s' =
          h_handled s ++ (i :: X) ++ local_pending s ++ pending s) as Eall
    by (rewrite Eh, <- app_assoc; unfold s', enter; by destruct (IsBarrier x)).
  assert (∀ j, j ∈ h_handled s → j ∈ h_handled s') as Hmono
    by (intros j Hj; rewrite Eh; apply elem_of_app; by left).
  assert (lively s' = lively s ++ [i]) as El by (unfold s', enter; by destruct (IsBarrier x)).
  assert (barriers s' = barriers s ++ if IsBarrier x then [i] else []) as Eb
    by (unfold s', enter; destruct (IsBarrier x); [done|by rewrite app_nil_r]).
  unfold enter in s'.
  assert (inv links D [] (i :: X) T s) as Hinv' by done.
  constructor; try (destruct (IsBarrier x); keep Hinv).
  - rewrite Eh, Hh. by apply prefix_app_r.
  - rewrite Eall. apply (iv_fresh Hinv).
  - rewrite Eall, Ei. apply (iv_known Hinv).
  - intros a b Hab. destruct (iv_edges_known Hinv a b) as (? & ? & ? & ?); [by destruct (IsBarrier x)|].
    unfold plain. rewrite Eh, Ef, Ei. split_and!; [by apply before_app|done..].
  - intros a b Hab. destruct (iv_links_known Hinv a b Hab) as (? & ? & ?). unfold plain. rewrite Ei. auto.
  - intros c m d Hc. destruct (iv_access_known Hinv c m d) as (? & ? & ?); [by destruct (IsBarrier x)|].
    unfold plain. rewrite Ei, Ef. auto.
  - rewrite El, Eh, Ef, filter_snoc, decide_True by done. by rewrite (iv_lively Hinv).
  - rewrite Eb, Eh, Ef, filter_snoc. unfold barrier_of. rewrite Ei, Hx. f_equal.
    + rewrite (iv_barriers Hinv). done.
    + destruct (IsBarrier x); [by rewrite decide_True|rewrite decide_False; [done|by intros [? _]]].
Qed.

Lemma barrier_joins links D W X T s i :
  inv links D W X T s → h_handled s = D ++ [i] → barrier_of s i = true → inv links (D ++ [i]) W X T s.
Proof.
  intros Hinv Hh Hb. unfold barrier_of in Hb.
  pose proof (current_not_finished links D W X T s i Hinv Hh) as Hif.
  assert (∀ a, a ∈ D ++ [i] → a ∈ D ∨ a = i) as Hsnoc
    by (intros a [?|?%list_elem_of_singleton]%elem_of_app; tauto).
  assert (∀ a, a ∈ D → a ∈ D ++ [i]) as Hmono by (intros a ?; apply elem_of_app; by left).
  assert (NoDup (D ++ [i])) as Hnd by (rewrite <- Hh; by eapply inv_handled_nodup).
  assert (∀ x, instrs s !! i = Some x → IsBarrier x = true) as Hib by (intros x Hx; by rewrite Hx in Hb).
  constructor; try keep Hinv.
  - by rewrite Hh.
  - intros j Hj. destruct (iv_queue Hinv j Hj). split; [by apply Hmono|done].
  - intros j Hj. destruct (iv_finished Hinv j Hj). split; [by apply Hmono|done].
  - intros a y d [Ha| ->]%Hsnoc Hy Hyb Hd; [by eapply (iv_covered Hinv)|]. apply Hib in Hy. congruence.
  - intros a y d [Ha| ->]%Hsnoc Hy Hyb Hd; [by eapply (iv_covered_first Hinv)|]. apply Hib in Hy. congruence.
  - intros a b y z [Hab|[Ha ->]]%before_snoc_inv Hy Hz Hyb Hzb Hyz; [|..|done].
    + by eapply (iv_ordered Hinv a b y z).
    + apply Hib in Hz. congruence.
  - intros a b [Hab|[Ha ->]]%before_snoc_inv Hbb Hf; [by apply (iv_barrier Hinv)|done|done].
  - intros b [HbD| ->]%Hsnoc Hbp Hbq; [by apply (iv_wait Hinv)|].
    destruct Hbp as (x & Hx & Hxb). apply Hib in Hx. congruence.
Qed.

(** Between the steps all that is handled is recorded and nothing waits for
    examination. *)
Definition steady (X : list nat) (T : extra) (s : engine) : Prop := ∃ links, inv links (h_handled s) [] X T s.

Lemma steady_known X T s i :
  steady X T s → i ∈ h_handled s ++ X ++ local_pending s ++ pending s → ∃ x, get_instr s i = Ret x ∧ instrs s !! i = Some x.
Proof.
  intros (links & Hinv) Hi. apply (iv_known Hinv) in Hi. apply lookup_lt_is_Some_2 in Hi as [x Hx].
  exists x. unfold get_instr. by rewrite Hx.
Qed.

Lemma handle_pending_steady X T s i :
  ex_released T = [] → steady (i :: X) T s →
  ∃ s', handle_pending s i = Ret s' ∧ steady X T s' ∧ h_handled s' = h_handled s ++ [i].
Proof.
  intros HT Hst. destruct (steady_known _ _ _ i Hst) as (x & Hg & Hx).
  { rewrite !elem_of_app, elem_of_cons. tauto. }
  destruct Hst as (links & Hinv). pose proof (enter_inv _ _ _ _ _ _ _ Hinv eq_refl Hx) as H1.
  unfold handle_pending. rewrite Hg. cbn [obind]. unfold enter in H1. destruct (IsBarrier x) eqn:Hb.
  - eexists. split_and!; [done| |done]. exists links. refine (barrier_joins links _ [] X T _ i H1 eq_refl _).
    unfold barrier_of. cbn. by rewrite Hx.
  - set (s1 := set_h_handled _ _) in *.
    destruct (ConsumeDependences_inv links (h_handled s) [] X T s1 i x H1) as (l' & H2 & Hs); try done.
    set (s2 := ConsumeDependences s1 i x) in *.
    assert (h_handled s2 = h_handled s ++ [i]) as Eh by (rewrite (same_but_deps_handled _ _ Hs); done).
    eexists. split_and!; [done| |by destruct (Dispatchable s2 i)]. exists l'.
    change (inv l' (h_handled (preschedule s2 i)) [] X T (preschedule s2 i)).
    replace (h_handled (preschedule s2 i)) with (h_handled s ++ [i]) by (unfold preschedule; by destruct (Dispatchable s2 i)).
    apply preschedule_inv; [done| | |].
    + apply elem_of_app. right. by apply list_elem_of_singleton.
    + exists x. by rewrite (same_but_deps_instrs _ _ Hs).
    + destruct Hs as (? & ? & ? & ->). exact (current_not_finished _ _ _ _ _ _ _ H1 eq_refl).
Qed.

Lemma handle_pending_list X T l s :
  ex_released T = [] → steady (l ++ X) T s →
  ∃ s', ofold handle_pending l s = Ret s' ∧ steady X T s' ∧ h_handled s' = h_handled s ++ l.
Proof.
  intros HT. revert s. induction l as [|i l IH]; intros s Hst; cbn [ofold].
  { exists s. by rewrite app_nil_r. }
  destruct (handle_pending_steady _ _ _ _ HT Hst) as (s1 & -> & H1 & E1). cbn [obind].
  destruct (IH s1 H1) as (s' & -> & H' & E'). exists s'. by rewrite E', E1, <- app_assoc.
Qed.

(** ** Finishing an instruction *)

Definition finish (s : engine) (i : nat) (run : gmap nat (list nat)) (bars : list nat) : engine :=
  set_h_finished (h_finished s ++ [i])
    (LivelyInstructionListErase (set_running run (set_barriers bars s)) i).

Section finish.
Context (links : relation nat) (X : list nat) (T T' : extra) (s : engine) (i : nat).
Context (run : gmap nat (list nat)) (bars : list nat).
Context (Hinv : inv links (h_handled s) [] X T s).
Context (HT : ex_tmp T' = ex_tmp T) (HR : ∀ a, a ∈ ex_released T → a = i ∨ a ∈ ex_released T').
Context (Hi : i ∈ h_handled s) (Hif : i ∉ h_finished s) (Hit : i ∉ tmp_ready s) (Hir : i ∉ ready s).
Context (Hin : list_at (in_edges s) i = []) (Hout : ∀ b, i ∉ list_at (in_edges s) b).
Context (Hacc : ∀ m d, (i, m) ∉ list_at (accesses s) d).
Context (Hrun : ∀ st, list_at run st =
  filter (λ j, stream_of s j = st ∧ j ∉ h_finished s ++ [i]) (h_dispatched s)).
Context (Hbars : bars = filter (λ j, barrier_of s j = true ∧ j ∉ h_finished s ++ [i]) (h_handled s)).
Context (Hfifo : i ∈ queue s → ∀ a, stream_of s a = stream_of s i → ahead (queue s) a i → a ∈ h_finished s).
Context (Hstrict : strict s → ∀ a, links a i → a ∈ h_finished s).
Context (Hbar : barrier_of s i = true → ∀ a, before (h_handled s) a i → a ∈ h_finished s).

Lemma finish_ahead a b :
  (b ∈ h_finished s → ahead (h_finished s) a b) → (b = i → a ∈ h_finished s) →
  b ∈ h_finished s ++ [i] → ahead (h_finished s ++ [i]) a b.
Proof.
  intros H1 H2 [Hb| ->%list_elem_of_singleton]%elem_of_app; [by apply ahead_app, H1|].
  apply ahead_app, ahead_end; [by apply H2|done].
Qed.

Lemma finish_inv : inv links (h_handled s) [] X T' (finish s i run bars).
Proof.
  assert (∀ j, j ∈ h_finished s → j ∈ h_finished s ++ [i]) as Hmono by (intros; apply elem_of_app; by left).
  assert (∀ j, j ∉ h_finished s → j ≠ i → j ∉ h_finished s ++ [i]) as Hnot
    by (intros j ??; rewrite not_elem_of_app, list_elem_of_singleton; done).
  assert (i ∈ h_finished s ++ [i]) as Hii by (apply elem_of_app; right; by apply list_elem_of_singleton).
  assert (∀ j, behind T s j → behind T' (finish s i run bars) j) as Hbehind.
  { intros j [Hq Hf]. split; [done|]. intros Hs. destruct (Hf Hs) as [[->|?]%HR|?]; cbn; auto. }
  constructor; try keep Hinv.
  - rewrite HT. apply (iv_tmp Hinv).
  - intros j [Hj| ->%list_elem_of_singleton]%elem_of_app; [by apply (iv_finished Hinv)|done].
  - exact Hrun.
  - intros a b Hab. destruct (iv_edges_known Hinv a b Hab) as (? & ? & ? & ?). split_and!; [done..|].
    apply Hnot; [done|]. intros ->. by apply Hout in Hab.
  - intros b [Hb| ->%list_elem_of_singleton]%elem_of_app; [by apply (iv_edges_finished Hinv)|done].
  - intros a b Hs Hab. destruct (iv_strict_edge Hinv a b Hs Hab) as [[->|?]%HR|[?|?]]; auto.
  - intros a b Hs Hab Hq. destruct (iv_strict_ahead Hinv a b Hs Hab Hq) as [[->|?]%HR|[?|?]]; auto.
  - intros a b Hs Hab. apply finish_ahead; [by apply (iv_strict_finished Hinv)|]. intros ->. by apply Hstrict.
  - intros a b Hb Hbq Hst Hab. revert Hb. apply finish_ahead; [intros; by apply (iv_fifo Hinv)|].
    intros ->. by apply Hfifo.
  - intros c m d Hc. destruct (iv_access_known Hinv c m d Hc) as (? & ? & ?). split_and!; [done|done|].
    apply Hnot; [done|]. intros ->. by apply Hacc in Hc.
  - intros a x d ????. apply (covered_mono links T T' s); [exact Hbehind|done|by eapply (iv_covered Hinv)].
  - intros a x d ????. apply (covered_first_mono links T T' s); [exact Hbehind|done|by eapply (iv_covered_first Hinv)].
  - intros a b x y ??????. destruct (iv_ordered Hinv a b x y) as [[Ho1 Ho2]|Ho]; try done; [left|by right].
    split; [done|]. intros Hs. by apply ahead_app, Ho2.
  - cbn. rewrite (iv_lively Hinv), list_filter_filter. apply list_filter_iff. intros j.
    rewrite not_elem_of_app, list_elem_of_singleton. tauto.
  - exact Hbars.
  - intros a b Hab Hbb. apply finish_ahead; [by apply (iv_barrier Hinv)|]. intros ->. by apply Hbar.
  - intros b HbD Hbp Hbq. destruct (iv_wait Hinv b HbD Hbp Hbq) as [?|(a & Ha & Hw)]; [by left|right].
    exists a. split; [done|]. destruct Hw as [Hw|Hw]; [left|by right].
    intros (x & Hx & Hp & Hq & Hf). apply Hw. exists x. split_and!; try done. intros ?. by apply Hf, Hmono.
Qed.
End finish.

(** A barrier runs when it is the oldest instruction alive. *)
Lemma TryRunBarrier_steady X T on_thread s :
  steady X T s → barriers s ≠ [] →
  match TryRunBarrierInstruction on_thread s with
  | Ret s' => steady X T s'
  | Fail _ => False
  | Crash => ∃ i, barrier_of s i = true ∧ on_thread (stream_of s i) = false
  end.
Proof.
  intros (links & Hinv) Hne. unfold TryRunBarrierInstruction.
  destruct (barriers s) as [|i bars] eqn:Eb; [done|].
  destruct (bool_decide (head (lively s) = Some i)) eqn:Eh; cbn [negb]; [|by exists links].
  apply bool_decide_eq_true in Eh.
  assert (i ∈ h_handled s ∧ i ∉ h_finished s ∧ barrier_of s i = true) as (Hi & Hif & Hb).
  { assert (i ∈ barriers s) as H by (rewrite Eb; left). rewrite (iv_barriers Hinv) in H.
    apply list_elem_of_filter in H as [[? ?] ?]. done. }
  assert (¬ plain s i) as Hnp by (intros ?%plain_not_barrier; congruence).
  unfold get_instr. destruct (instrs s !! i) as [x|] eqn:Hx; cbn [obind]; cycle 1.
  { unfold barrier_of in Hb. by rewrite Hx in Hb. }
  assert (IsBarrier x = true) as -> by (unfold barrier_of in Hb; by rewrite Hx in Hb). cbn [CHECK obind].
  assert (stream_of s i = stream x) as Est by (unfold stream_of; by rewrite Hx).
  destruct (on_thread (stream x)) eqn:Eo; cbn [CHECK obind]; [|exists i; by rewrite Est].
  assert (i ∉ queue s) as Hiq by (intros [_ ?]%(iv_queue Hinv); done).
  exists links. change (h_handled _) with (h_handled s) at 1.
  replace (set_h_finished _ _) with (finish s i (running s) (filter (λ j, j ≠ i) (i :: bars)))
    by (unfold finish; by destruct s).
  unfold queue in Hiq. rewrite !not_elem_of_app in Hiq. destruct Hiq as (Hid & Hit & Hir).
  apply (finish_inv links X T T); try done.
  - tauto.
  - destruct (list_at (in_edges s) i) as [|a l] eqn:E; [done|].
    destruct (iv_edges_known Hinv a i) as (_ & _ & ? & _); [rewrite E; left|done].
  - intros b (_ & ? & _)%(iv_edges_known Hinv). done.
  - intros m d (_ & ? & _)%(iv_access_known Hinv). done.
  - intros st. rewrite (iv_running Hinv). apply filter_ext_in. intros j Hj.
    rewrite not_elem_of_app, list_elem_of_singleton. assert (j ≠ i) by (by intros ->). tauto.
  - rewrite <- Eb, (iv_barriers Hinv), list_filter_filter. apply list_filter_iff. intros j.
    rewrite not_elem_of_app, list_elem_of_singleton. tauto.
  - intros [?|[?|?]%elem_of_app]%elem_of_app; done.
  - intros _ a (_ & _ & ?)%(iv_links_known Hinv). done.
  - intros _ a Hab%before_ahead; [|by eapply inv_handled_nodup].
    destruct (lively s) as [|j l] eqn:El; [done|]. injection Eh as ->. rewrite (iv_lively Hinv) in El.
    pose proof (filter_head _ _ _ _ a El Hab) as Hn. destruct (decide (a ∈ h_finished s)); [done|by destruct Hn].
Qed.

(** ** Releasing an instruction *)

Lemma remove_one_count i l a :
  count_occ Nat.eq_dec (remove_one i l) a =
  (count_occ Nat.eq_dec l a - if decide (a = i) then 1 else 0)%nat.
Proof.
  induction l as [|j l IH]; cbn [remove_one]; [cbn; lia|].
  destruct (Nat.eqb_spec j i) as [->|Hne]; cbn [count_occ].
  - destruct (Nat.eq_dec i a), (decide (a = i)); try congruence; lia.
  - destruct (Nat.eq_dec j a) as [->|]; [|done]. rewrite IH. destruct (decide (a = i)); [congruence|lia].
Qed.

Lemma remove_one_sub i l a : a ∈ remove_one i l → a ∈ l.
Proof.
  induction l as [|j l IH]; cbn [remove_one]; [done|]. destruct (Nat.eqb_spec j i) as [->|Hne].
  - intros ?. by right.
  - rewrite !elem_of_cons. tauto.
Qed.

Lemma remove_one_keep i l a : a ∈ l → a ≠ i → a ∈ remove_one i l.
Proof.
  intros Ha Hne. induction l as [|j l IH]; cbn [remove_one]; [done|]. apply elem_of_cons in Ha.
  destruct (Nat.eqb_spec j i) as [->|Hji]; [by destruct Ha|]. rewrite elem_of_cons. tauto.
Qed.

Definition drop_access (i : nat) (s : engine) (d : nat) : engine :=
  set_accesses (<[d := filter (λ a, a.1 ≠ i) (list_at (accesses s) d)]> (accesses s)) s.

Lemma drop_accesses_spec i ds : ∀ s, ∃ acc, foldl (drop_access i) s ds = set_accesses acc s ∧
  ∀ d, list_at acc d = if decide (d ∈ ds) then filter (λ a, a.1 ≠ i) (list_at (accesses s) d)
                       else list_at (accesses s) d.
Proof.
  induction ds as [|d ds IH]; intros s; cbn [foldl].
  { exists (accesses s). split; [by destruct s|]. intros d. by rewrite decide_False by apply not_elem_of_nil. }
  destruct (IH (drop_access i s d)) as (acc & -> & Hacc). exists acc. split; [done|]. intros d'.
  rewrite Hacc. cbn. rewrite list_at_insert. destruct (decide (d = d')) as [->|Hne].
  - rewrite (decide_True (P := d' ∈ d' :: ds)) by left. destruct (decide (d' ∈ ds)); [|done].
    rewrite list_filter_filter. apply list_filter_iff. tauto.
  - destruct (decide (d' ∈ ds)), (decide (d' ∈ d :: ds)); set_solver.
Qed.

(** Erasing the accesses of a dispatched instruction. *)
Lemma drop_accesses_inv links D X T s i acc :
  inv links D [] X T s → i ∈ queue s → i ∈ ex_released T → (strict s → ∀ a, links a i → a ∈ h_finished s) →
  (∀ d, list_at acc d = filter (λ a, a.1 ≠ i) (list_at (accesses s) d)) →
  inv links D [] X T (set_accesses acc s).
Proof.
  intros Hinv Hiq Hr Hpred Hacc. constructor; try keep Hinv.
  - intros c m d. cbn. rewrite Hacc, list_elem_of_filter. intros [_ H]. by eapply (iv_access_known Hinv).
  - intros c m d x. cbn. rewrite Hacc, list_elem_of_filter. intros [_ H]. by eapply (iv_access_own Hinv).
  - intros a x d ????. destruct (iv_covered Hinv a x d) as [?|(c & m & Hc & Hac)]; try done; [by left|].
    destruct (decide (c = i)) as [->|Hne]; [left; by apply (links_trans_behind Hinv Hiq)|right].
    exists c, m. split; [|done]. cbn. by rewrite Hacc, list_elem_of_filter.
  - intros a x d ????. destruct (iv_covered_first Hinv a x d) as [?|(c & l & Hc & Hac)]; try done; [by left|].
    destruct (decide (c = i)) as [->|Hne]; [left; by apply (links_trans_behind Hinv Hiq)|right].
    exists c. eexists. split; [|done]. cbn. by rewrite Hacc, Hc, filter_cons_True.
Qed.

Section release_edge.
Context (links : relation nat) (D X : list nat) (T : extra) (i : nat) (Hrel : i ∈ ex_released T).

(** Erasing one edge, with the list [o] of out edges already shortened. *)
Lemma erase_edge_inv s out rest :
  inv links D (out :: rest) X T (set_out_edges (<[i := out :: rest]> (out_edges s)) s) →
  i ∈ queue s →
  inv links D (out :: rest) X T (set_out_edges (<[i := rest]> (out_edges s))
    (set_in_edges (<[out := remove_one i (list_at (in_edges s) out)]> (in_edges s)) s)).
Proof.
  intros Hinv Hiq. set (s' := set_out_edges (<[i := rest]> _) _).
  assert (∀ b, list_at (in_edges s') b =
            if decide (out = b) then remove_one i (list_at (in_edges s) out) else list_at (in_edges s) b) as Ein
    by (intros b; unfold s'; cbn; by rewrite list_at_insert).
  assert (∀ a b, a ∈ list_at (in_edges s') b → a ∈ list_at (in_edges s) b) as Hsub.
  { intros a b. rewrite Ein. destruct (decide (out = b)) as [<-|]; [apply remove_one_sub|done]. }
  assert (∀ a b, a ∈ list_at (in_edges s) b → (a = i ∧ b = out) ∨ a ∈ list_at (in_edges s') b) as Hkeep.
  { intros a b H. rewrite Ein. destruct (decide (out = b)) as [<-|]; [|by right].
    destruct (decide (a = i)) as [->|]; [by left|right; by apply remove_one_keep]. }
  constructor; try keep Hinv.
  - intros a b. pose proof (iv_edges Hinv a b) as E. cbn in E. rewrite Ein. unfold s'. cbn.
    rewrite list_at_insert in E |- *. destruct (decide (i = a)) as [<-|], (decide (out = b)) as [<-|];
      rewrite ?remove_one_count; cbn [count_occ] in E; repeat (destruct (Nat.eq_dec _ _); try congruence);
      try (destruct (decide (_ = _)); try congruence); lia.
  - intros a b Hab%Hsub. by apply (iv_edges_known Hinv).
  - intros b Hb. destruct (list_at (in_edges s') b) as [|a l] eqn:E; [done|].
    assert (a ∈ list_at (in_edges s) b) as H by (apply Hsub; rewrite E; left).
    by rewrite (iv_edges_finished Hinv b Hb : list_at (in_edges s) b = []) in H; apply not_elem_of_nil in H.
  - intros a b Hab. destruct (iv_links_edge Hinv a b Hab) as [?|[[-> ->]|?]%Hkeep]; [by left|by left|by right].
  - intros a b Hs Hab. destruct (iv_strict_edge Hinv a b Hs Hab) as [?|[?|[?|[[-> ->]|?]%Hkeep]]]; auto.
  - intros b HbD Hbp Hbq. destruct (iv_wait Hinv b HbD Hbp Hbq) as [?|(a & [[-> ->]|Ha]%Hkeep & Hw)];
      [by left|left; left|right]. by exists a.
Qed.

Lemma release_edges_inv outs : ∀ s,
  inv links D outs X T (set_out_edges (<[i := outs]> (out_edges s)) s) → D = h_handled s → i ∈ queue s →
  ∃ e r, foldl (release_edge i) s outs = set_ready r (set_in_edges e s) ∧
    inv links D [] X T (set_out_edges (<[i := []]> (out_edges s)) (set_ready r (set_in_edges e s))) ∧
    (∃ r', r = ready s ++ r') ∧ (list_at (in_edges s) i = [] → list_at e i = []).
Proof.
  induction outs as [|out outs IH]; intros s Hinv HD Hiq; cbn [foldl].
  { exists (in_edges s), (ready s). split_and!; [by destruct s|by destruct s|exists []; by rewrite app_nil_r|done]. }
  pose proof (erase_edge_inv s out outs Hinv Hiq) as H1.
  assert (i ∈ list_at (in_edges s) out) as Hin.
  { pose proof (iv_edges Hinv i out) as E. cbn in E. rewrite list_at_insert, decide_True in E by done.
    cbn in E. destruct (Nat.eq_dec out out); [|done]. apply list_elem_of_In, (count_occ_In Nat.eq_dec). lia. }
  destruct (iv_edges_known Hinv i out Hin) as (Hbef & _ & Hp & _).
  assert (out ∈ D) as HoD by (rewrite HD; by apply before_in in Hbef as [_ ?]).
  assert (out ∉ h_finished s) as Hof.
  { intros Hf%(iv_edges_finished Hinv). cbn in Hf. rewrite Hf in Hin. by apply not_elem_of_nil in Hin. }
  apply preschedule_inv in H1; [|done..].
  set (e1 := <[out := remove_one i (list_at (in_edges s) out)]> (in_edges s)) in *.
  assert (∃ r1, release_edge i s out = set_ready r1 (set_in_edges e1 s) ∧
      preschedule (set_out_edges (<[i := outs]> (out_edges s)) (set_in_edges e1 s)) out =
      set_out_edges (<[i := outs]> (out_edges s)) (set_ready r1 (set_in_edges e1 s)) ∧
      ∃ r', r1 = ready s ++ r') as (r1 & E1 & E2 & (r' & Er)).
  { unfold release_edge, preschedule. fold e1.
    change (Dispatchable (set_out_edges _ ?z) out) with (Dispatchable z out).
    destruct (Dispatchable (set_in_edges e1 s) out).
    - exists (ready s ++ [out]). split_and!; [done|done|by exists [out]].
    - exists (ready s). split_and!; [by destruct s|by destruct s|exists []; by rewrite app_nil_r]. }
  rewrite E1, E2 in *. destruct (IH (set_ready r1 (set_in_edges e1 s))) as (e & r & -> & H2 & (r'' & Er') & He); [done|done| |].
  { unfold queue in *. cbn. rewrite Er, !elem_of_app in *. tauto. }
  exists e, r. split_and!; [by destruct s|by destruct s| |].
  - exists (r' ++ r''). rewrite Er'. cbn. by rewrite Er, app_assoc.
  - intros H. apply He. cbn. unfold e1. rewrite list_at_insert. destruct (decide (out = i)) as [->|]; [|done].
    rewrite H. done.
Qed.
End release_edge.

(** What the release of an instruction leaves as it is. *)
Definition released_frame (s s' : engine) : Prop :=
  instrs s' = instrs s ∧ h_handled s' = h_handled s ∧ h_finished s' = h_finished s ∧
  h_dispatched s' = h_dispatched s ∧ tmp_ready s' = tmp_ready s ∧ running s' = running s ∧
  barriers s' = barriers s ∧ ∃ r, ready s' = ready s ++ r.

Lemma release_begins links D X tmp s i :
  inv links D [] X (mkExtra tmp []) s → inv links D [] X (mkExtra tmp [i]) s.
Proof.
  intros Hinv.
  assert (∀ j, behind (mkExtra tmp []) s j → behind (mkExtra tmp [i]) s j) as Hbehind.
  { intros j [Hq Hf]. split; [done|]. intros Hs. destruct (Hf Hs) as [[]%not_elem_of_nil|?]. by right. }
  constructor; try keep Hinv.
  - intros a b Hs Hab. destruct (iv_strict_edge Hinv a b Hs Hab) as [[]%not_elem_of_nil|?]. by right.
  - intros a b Hs Hab Hq. destruct (iv_strict_ahead Hinv a b Hs Hab Hq) as [[]%not_elem_of_nil|?]. by right.
  - intros a x d ????. apply (covered_mono links (mkExtra tmp []) _ s); [done|done|by eapply (iv_covered Hinv)].
  - intros a x d ????. apply (covered_first_mono links (mkExtra tmp []) _ s); [done|done|by eapply (iv_covered_first Hinv)].
Qed.

(** The predecessors of the first instruction of a running list are finished. *)
Lemma head_fifo links D W X T s st i rest a :
  inv links D W X T s → list_at (running s) st = i :: rest →
  stream_of s a = stream_of s i → ahead (h_dispatched s) a i → a ∈ h_finished s.
Proof.
  intros Hinv Hrun Hsa Ha. assert (i ∈ list_at (running s) st) as Hi by (rewrite Hrun; left).
  rewrite (iv_running Hinv) in Hrun, Hi. apply list_elem_of_filter in Hi as [[Hst _] _].
  destruct (decide (a ∈ h_finished s)) as [|Hn]; [done|exfalso].
  eapply (filter_head _ _ _ _ a Hrun); [done|]. by rewrite Hsa, Hst.
Qed.

Lemma head_preds links D W X tmp s st i rest :
  inv links D W X (mkExtra tmp []) s → list_at (running s) st = i :: rest → list_at (in_edges s) i = [] →
  strict s → ∀ a, links a i → a ∈ h_finished s.
Proof.
  intros Hinv Hrun Hin Hs a Hab. assert (i ∈ list_at (running s) st) as Hi by (rewrite Hrun; left).
  rewrite (iv_running Hinv) in Hi. apply list_elem_of_filter in Hi as [_ Hid].
  destruct (iv_strict_edge Hinv a i Hs Hab) as [[]%not_elem_of_nil|[H|[H|H]]];
    [done| |rewrite Hin in H; by apply not_elem_of_nil in H].
  eapply head_fifo; [done|done|done|]. eapply ahead_app_inv; [done|]. apply (iv_links_ahead Hinv); [done|].
  apply elem_of_app. by left.
Qed.

Lemma ReleaseInstruction_inv links X tmp s i :
  inv links (h_handled s) [] X (mkExtra tmp []) s → i ∈ queue s → list_at (in_edges s) i = [] →
  (strict s → ∀ a, links a i → a ∈ h_finished s) →
  ∃ s', ReleaseInstruction s i = Ret s' ∧ inv links (h_handled s') [] X (mkExtra tmp [i]) s' ∧
    released_frame s s' ∧ list_at (in_edges s') i = [] ∧ list_at (out_edges s') i = [] ∧
    (∀ m d, (i, m) ∉ list_at (accesses s') d).
Proof.
  intros Hinv Hiq Hin Hpred. destruct (iv_queue Hinv i Hiq) as [_ (x & Hx & Hb)].
  unfold ReleaseInstruction, get_instr. rewrite Hx. cbn [obind]. fold (drop_access i).
  destruct (drop_accesses_spec i (access_list x) s) as (acc & Es & Hacc).
  assert (∀ d, list_at acc d = filter (λ a, a.1 ≠ i) (list_at (accesses s) d)) as Hacc'.
  { intros d. rewrite Hacc. destruct (decide (d ∈ access_list x)); [done|]. symmetry.
    apply filter_all, Forall_forall. intros [c m] Hc. cbn. intros ->. by destruct n; eapply (iv_access_own Hinv). }
  change (foldl _ s (access_list x)) with (foldl (drop_access i) s (access_list x)). rewrite Es. cbn zeta.
  pose proof (release_begins links _ X tmp s i Hinv) as H0.
  assert (inv links (h_handled s) [] X (mkExtra tmp [i]) (set_accesses acc s)) as H1
    by (apply (drop_accesses_inv links _ X _ s i acc H0); [done|left|done|done]).
  set (s1 := set_accesses acc s) in *. set (outs := list_at (out_edges s1) i).
  set (s2 := set_out_edges (<[i := []]> (out_edges s1)) s1).
  destruct (release_edges_inv links (h_handled s2) X (mkExtra tmp [i]) i) with (outs := outs) (s := s2)
    as (e & r & -> & H2 & (r' & Er) & He); [by left| |done|done|].
  { constructor; try keep H1.
    - intros a b. cbn. rewrite !list_at_insert. pose proof (iv_edges H1 a b) as E. cbn in E. rewrite <- E.
      destruct (decide (i = a)) as [<-|]; done.
    - intros b HbD Hbp Hbq. destruct (iv_wait H1 b HbD Hbp Hbq) as [[]%not_elem_of_nil|?]. by right. }
  eexists. split_and!; [done| | |by apply He| |].
  - constructor; try keep H2. intros a b. pose proof (iv_edges H2 a b) as E. cbn in E |- *.
    rewrite insert_insert_eq in E. done.
  - split_and!; try done. by exists r'.
  - cbn. by rewrite list_at_insert, decide_True.
  - intros m d. cbn. rewrite Hacc', list_elem_of_filter. by intros [? _].
Qed.

Lemma no_edges_from links D W X T s i b :
  inv links D W X T s → list_at (out_edges s) i = [] → i ∉ list_at (in_edges s) b.
Proof.
  intros Hinv Ho Hi. pose proof (iv_edges Hinv i b) as E. rewrite Ho in E. cbn in E.
  apply list_elem_of_In, (count_occ_In Nat.eq_dec) in Hi. lia.
Qed.

(** One turn of the loop on a stream's running list. *)
Lemma release_one links X tmp s st i rest :
  inv links (h_handled s) [] X (mkExtra tmp []) s → list_at (running s) st = i :: rest →
  list_at (in_edges s) i = [] →
  ∃ s', ReleaseInstruction s i = Ret s' ∧ released_frame s s' ∧
    let s2 := finish s' i (<[st := rest]> (running s')) (barriers s') in
    steady X (mkExtra tmp []) s2 ∧ list_at (in_edges s2) i = [] ∧ list_at (out_edges s2) i = [].
Proof.
  intros Hinv Hrun Hin.
  assert (i ∈ list_at (running s) st) as Hir by (rewrite Hrun; left).
  rewrite (iv_running Hinv), list_elem_of_filter in Hir. destruct Hir as [[Hst Hif] Hid].
  assert (i ∈ queue s) as Hiq by (apply elem_of_app; by left).
  destruct (ReleaseInstruction_inv links X tmp s i Hinv Hiq Hin) as (s' & -> & H1 & Hfr & Hin' & Hout' & Hacc');
    [by eapply head_preds|].
  exists s'. split; [done|]. split; [done|]. cbn zeta. split; [|done]. exists links.
  destruct Hfr as (Ei & Eh & Ef & Ed & Et & Er & Eb & (r & Erd)).
  assert (queue s' = queue s ++ r) as Eq by (unfold queue; by rewrite Ed, Et, Erd, !app_assoc).
  assert (∀ j, stream_of s' j = stream_of s j) as Es by (intros j; unfold stream_of; by rewrite Ei).
  pose proof (iv_queue_nodup H1) as Hnd.
  assert (i ∉ tmp_ready s' ∧ i ∉ ready s') as [Hnt Hnr].
  { unfold queue in Hnd. apply NoDup_app in Hnd as (_ & Hd & _). rewrite <- not_elem_of_app. apply Hd. by rewrite Ed. }
  assert (NoDup (h_dispatched s')) as Hndd by (unfold queue in Hnd; by apply NoDup_app in Hnd as [? _]).
  assert (∀ a, stream_of s a = stream_of s i → ahead (queue s') a i → a ∈ h_finished s') as Hfifo.
  { intros a Hsa Ha. rewrite Ef. eapply head_fifo; [done|done|done|]. rewrite <- Ed. eapply ahead_app_inv; [by rewrite Ed|exact Ha]. }
  change (inv links (h_handled s') [] X (mkExtra tmp []) (finish s' i (<[st := rest]> (running s')) (barriers s'))).
  apply (finish_inv links X (mkExtra tmp [i])); try done.
  - intros a ->%list_elem_of_singleton. by left.
  - rewrite Eh. by apply (iv_queue Hinv) in Hiq as [? _].
  - by rewrite Ef.
  - intros b. by eapply no_edges_from.
  - intros st'. rewrite Er, list_at_insert, Ed, Ef. destruct (decide (st = st')) as [<-|Hne].
    + rewrite (iv_running Hinv) in Hrun. rewrite <- Ed in Hrun. rewrite <- (filter_tail _ _ _ _ Hndd Hrun), Ed.
      apply list_filter_iff. intros j. rewrite Es, not_elem_of_app, list_elem_of_singleton. tauto.
    + rewrite (iv_running Hinv). apply list_filter_iff. intros j. rewrite Es, not_elem_of_app, list_elem_of_singleton.
      split; [|tauto]. intros [? ?]. split; [done|]. split; [done|]. intros ->. congruence.
  - rewrite (iv_barriers H1). apply filter_ext_in. intros j _. rewrite not_elem_of_app, list_elem_of_singleton.
    split; [|tauto]. intros [? ?]. split; [done|]. split; [done|]. intros ->.
    destruct (iv_queue Hinv i Hiq) as [_ (x & Hx & Hxb)]. unfold barrier_of in *. rewrite Ei, Hx in *. congruence.
  - intros _ a. rewrite !Es. apply Hfifo.
  - intros Hs a Hab. rewrite Ef. assert (strict s) as Hs0 by (unfold strict in *; by rewrite <- Ei).
    by eapply (head_preds links _ _ _ _ s).
  - intros Hb. destruct (iv_queue Hinv i Hiq) as [_ (x & Hx & Hxb)]. unfold barrier_of in Hb. rewrite Ei, Hx in Hb. congruence.
Qed.

Definition idle : extra := mkExtra [] [].

(** The loop on a stream keeps the invariant and stops at an instruction that is
    not done or has predecessors. *)
Lemma release_stream_steady X fuel done st : ∀ s,
  steady X idle s → ∃ s', release_stream fuel done s st = Ret s' ∧ steady X idle s' ∧
    ((length (list_at (running s) st) ≤ fuel)%nat →
      ∀ i rest, list_at (running s') st = i :: rest → list_at (in_edges s') i = [] → done i = false).
Proof.
  induction fuel as [|fuel IH]; intros s Hst; cbn [release_stream].
  { exists s. split_and!; [done|done|]. intros Hl i rest Er. rewrite Er in Hl. cbn in Hl. lia. }
  destruct (list_at (running s) st) as [|i rest] eqn:Er.
  { exists s. split_and!; [done|done|]. intros _ j r. congruence. }
  destruct (bool_decide _ && done i) eqn:Ec.
  - apply andb_true_iff in Ec as [Hin%bool_decide_eq_true _]. destruct Hst as (links & Hinv).
    destruct (release_one links X [] s st i rest Hinv Er Hin) as (s1 & -> & _ & Hst2 & Hin2 & Hout2).
    cbn [obind]. set (s2 := finish _ _ _ _) in *.
    replace (set_h_finished _ _) with s2 by (unfold s2, finish; by destruct s1).
    unfold check_edges. rewrite Hin2, Hout2. cbn [bool_decide CHECK obind decide_rel list_eq_nil_dec].
    destruct (IH s2 Hst2) as (s' & E' & H' & Hend). exists s'. split_and!; [exact E'|done|].
    intros Hl. apply Hend. unfold s2, finish. cbn. rewrite list_at_insert, decide_True by done. cbn in Hl. lia.
  - exists s. split_and!; [done|done|]. intros _ j r Ej Hin. assert (j = i) as -> by congruence.
    rewrite Hin, bool_decide_true in Ec by done. done.
Qed.

Lemma set_active_steady X T s l : steady X T s → steady X T (set_active l s).
Proof. intros (links & H). exists links. constructor; keep H. Qed.

Lemma ReleaseFinished_steady X done s :
  steady X idle s → ∃ s', ReleaseFinishedInstructions done s = Ret s' ∧ steady X idle s'.
Proof.
  unfold ReleaseFinishedInstructions. generalize (active s) as l. intros l. revert s.
  induction l as [|st l IH]; intros s Hst; cbn [ofold]; [by exists s|].
  destruct (release_stream_steady X (length (list_at (running s) st)) done st s Hst) as (s1 & -> & H1 & _).
  cbn [obind]. apply IH. case_bool_decide; [by apply set_active_steady|done].
Qed.

(** ** Dispatching *)

Lemma DispatchInstruction_inv links X ok s i l :
  inv links (h_handled s) [] X (mkExtra (i :: l) []) s →
  match DispatchInstruction ok (set_tmp_ready l s) i with
  | Ret s' => inv links (h_handled s') (list_at (out_edges s') i) X (mkExtra l []) s' ∧ ok i = true
  | Fail _ => False
  | Crash => ok i = false
  end.
Proof.
  intros Hinv. unfold DispatchInstruction. destruct (ok i); cbn [CHECK obind]; [|done]. split; [|done].
  set (s1 := set_running _ (set_tmp_ready l s)). set (s2 := if bool_decide _ then s1 else _).
  set (s' := set_h_dispatched _ s2).
  assert (∃ act, s' = set_h_dispatched (h_dispatched s ++ [i]) (set_active act s1)) as (act & Es).
  { unfold s', s2. case_bool_decide; [exists (active s1); by destruct s|by eexists]. }
  clearbody s'. subst s'. clear s2.
  assert (tmp_ready s = i :: l) as Et by apply (iv_tmp Hinv).
  set (s' := set_h_dispatched _ _).
  assert (queue s' = queue s) as Eq.
  { unfold queue. cbn. rewrite Et. by rewrite <- !app_assoc. }
  assert (i ∉ h_finished s) as Hif.
  { intros (_ & H & _)%(iv_finished Hinv). apply H. rewrite Et. left. }
  assert (∀ j, stream_of s' j = stream_of s j) as Esr by done.
  constructor; try keep Hinv.
  - done.
  - rewrite Eq. apply (iv_queue_nodup Hinv).
  - rewrite Eq. apply (iv_queue Hinv).
  - intros j Hj. destruct (iv_finished Hinv j Hj) as (? & Hn & ?). rewrite Et in Hn. cbn.
    apply not_elem_of_cons in Hn as [_ ?]. done.
  - intros st. cbn. rewrite list_at_insert, filter_snoc. change (stream_of (set_tmp_ready l s) i) with (stream_of s i).
    rewrite !(iv_running Hinv). destruct (decide (stream_of s i = st)) as [<-|Hne].
    + rewrite decide_True by done. done.
    + rewrite decide_False by (by intros [? _]). by rewrite app_nil_r.
  - rewrite Eq. apply (iv_links_edge Hinv).
  - rewrite Eq. apply (iv_links_ahead Hinv).
  - rewrite Eq. apply (iv_strict_ahead Hinv).
  - rewrite Eq. apply (iv_fifo Hinv).
  - intros a x d ????. apply (covered_mono links (mkExtra (i :: l) []) _ s); [unfold behind; by rewrite Eq|done|by eapply (iv_covered Hinv)].
  - intros a x d ????. apply (covered_first_mono links (mkExtra (i :: l) []) _ s); [unfold behind; by rewrite Eq|done|by eapply (iv_covered_first Hinv)].
  - intros a b x y ??????. apply (ordered_same links s); [exact Eq|done|done|]. by eapply (iv_ordered Hinv a b x y).
  - intros b HbD Hbp. rewrite Eq. intros Hbq.
    destruct (iv_wait Hinv b HbD Hbp Hbq) as [[]%not_elem_of_nil|(a & Ha & Hw)].
    destruct (decide (a = i)) as [->|Hai].
    + left. apply list_elem_of_In, (count_occ_In Nat.eq_dec). pose proof (iv_edges Hinv i b) as E.
      change (out_edges s') with (out_edges s). rewrite E. by apply (count_occ_In Nat.eq_dec), list_elem_of_In.
    + right. exists a. split; [done|]. unfold edge_ok. rewrite Eq. change (tmp_ready s') with l.
      rewrite Et, elem_of_cons in Hw. tauto.
Qed.

Lemma preschedule_list_inv links D X T outs : ∀ s,
  inv links D outs X T s → (∀ b, b ∈ outs → b ∈ D ∧ plain s b ∧ b ∉ h_finished s) →
  inv links D [] X T (foldl preschedule s outs).
Proof.
  induction outs as [|b outs IH]; intros s Hinv Hb; cbn [foldl]; [done|].
  destruct (Hb b) as (? & ? & ?); [left|].
  assert (instrs (preschedule s b) = instrs s ∧ h_finished (preschedule s b) = h_finished s) as [Ei Ef]
    by (unfold preschedule; by destruct (Dispatchable s b)).
  apply IH; [by apply preschedule_inv|]. unfold plain. rewrite Ei, Ef. intros c ?. apply Hb. by right.
Qed.

Lemma preschedule_list_frame outs : ∀ s,
  h_handled (foldl preschedule s outs) = h_handled s.
Proof.
  induction outs as [|b outs IH]; intros s; cbn [foldl]; [done|]. rewrite IH. unfold preschedule. by destruct (Dispatchable s b).
Qed.

Lemma out_edge_target links D W X T s i b :
  inv links D W X T s → b ∈ list_at (out_edges s) i →
  b ∈ h_handled s ∧ plain s b ∧ b ∉ h_finished s.
Proof.
  intros Hinv Hb. apply list_elem_of_In, (count_occ_In Nat.eq_dec) in Hb. rewrite (iv_edges Hinv) in Hb.
  apply (count_occ_In Nat.eq_dec), list_elem_of_In in Hb. destruct (iv_edges_known Hinv i b Hb) as (Hbef & _ & ? & _).
  split_and!; [by apply before_in in Hbef as [_ ?]|done|]. intros Hf%(iv_edges_finished Hinv). rewrite Hf in Hb.
  by apply not_elem_of_nil in Hb.
Qed.

Lemma dispatch_loop_steady X ok l : ∀ s,
  steady X (mkExtra l []) s →
  match dispatch_loop ok l s with
  | Ret s' => steady X idle s'
  | Fail _ => False
  | Crash => ∃ i, ok i = false
  end.
Proof.
  induction l as [|i l IH]; intros s (links & Hinv); cbn [dispatch_loop]; [by exists links|].
  pose proof (DispatchInstruction_inv links X ok s i l Hinv) as H1.
  destruct (DispatchInstruction ok (set_tmp_ready l s) i) as [s1| |]; cbn [obind]; [|done|by exists i].
  destruct H1 as [H1 _]. apply IH. exists links. rewrite preschedule_list_frame.
  apply preschedule_list_inv; [done|]. intros b. by eapply out_edge_target.
Qed.

Lemma Dispatch_steady X ok s :
  steady X idle s →
  match DispatchAndPrescheduleInstructions ok s with
  | Ret s' => steady X idle s'
  | Fail _ => False
  | Crash => ∃ i, ok i = false
  end.
Proof.
  intros (links & Hinv). apply dispatch_loop_steady. exists links.
  pose proof (iv_tmp Hinv) as Et. cbn in Et. set (s' := set_tmp_ready _ _).
  assert (queue s' = queue s) as Eq by (unfold queue, s'; cbn; by rewrite Et, app_nil_r).
  constructor; try keep Hinv; try (rewrite Eq; keep Hinv).
  - done.
  - intros i Hi. destruct (iv_finished Hinv i Hi) as (? & _ & ?). split_and!; [done|done|apply not_elem_of_nil].
  - intros a x d ????. apply (covered_mono links idle _ s); [unfold behind; by rewrite Eq|done|by eapply (iv_covered Hinv)].
  - intros a x d ????. apply (covered_first_mono links idle _ s); [unfold behind; by rewrite Eq|done|by eapply (iv_covered_first Hinv)].
  - intros a b x y ??????. apply (ordered_same links s); [exact Eq|done|done|]. by eapply (iv_ordered Hinv a b x y).
  - intros b HbD Hbp. rewrite Eq. intros Hbq. destruct (iv_wait Hinv b HbD Hbp Hbq) as [?|(a & Ha & Hw)]; [by left|right].
    exists a. split; [done|]. unfold edge_ok. rewrite Eq. change (tmp_ready s') with (ready s).
    rewrite Et in Hw. destruct Hw as [Hw|[Hw|Hw]]; [by left|by apply not_elem_of_nil in Hw|right; by left].
Qed.
