(* ===== verification/VmFuse.v ===== *)
(** * The scheduler: fetching and fusing

    Fusing merges runs of the pending list into single instructions.  It never
    fails, it keeps the program order, and a fused instruction accesses all that
    its members access. *)
From S2P Require Import Prelude VmEngine VmEngineSpec.

(** The instructions of the client that [i] stands for. *)
Definition expand_one (ins : list Instr) (i : nat) : list nat :=
  match ins !! i with
  | Some x => match members x with [] => [i] | l => l end
  | None => [i]
  end.
Definition expand (ins : list Instr) (l : list nat) : list nat := l ≫= expand_one ins.

Definition raw (ins : list Instr) (i : nat) : Prop := ∃ x, ins !! i = Some x ∧ members x = [].

(** [y] accesses no more than [x]. *)
Definition includes (x y : Instr) : Prop :=
  (∀ d, d ∈ writes y → d ∈ writes x) ∧ (∀ d, d ∈ access_list y → d ∈ access_list x).

(** A fused instruction is no barrier and accesses what its members access. *)
Definition covers (ins : list Instr) (x : Instr) : Prop :=
  members x ≠ [] → IsBarrier x = false ∧ ∀ m, m ∈ members x → ∃ y, ins !! m = Some y ∧ includes x y.

(** The instructions that may be fused with each other: one stream and one
    sequential dependence. *)
Definition linked (s : engine) (st d : nat) (l : list nat) : Prop :=
  ∀ i, i ∈ l → ∃ x, instrs s !! i = Some x ∧ stream x = st ∧ stream_sequential_dependence x = Some d.
Definition of_type (s : engine) (ts : list InstructionFuseType) (l : list nat) : Prop :=
  ∀ i, i ∈ l → ∃ x, instrs s !! i = Some x ∧ fuse_type x ∈ ts.

Definition any_ts : list InstructionFuseType := [kEnableInstructionFuseAtAnyPosition].
Definition tail_ts : list InstructionFuseType :=
  [kEnableInstructionFuseAsTailOnly; kEnableInstructionFuseAtAnyPosition].

Lemma set_insert_spec l ds e : e ∈ foldl set_insert l ds ↔ e ∈ l ∨ e ∈ ds.
Proof.
  revert l. induction ds as [|d ds IH]; intros l; cbn [foldl]; [set_solver|].
  rewrite IH. unfold set_insert. case_bool_decide; set_solver.
Qed.

(** ** The constructor of a fused instruction *)

Lemma fuse_deps_spec d xs : ∀ seq ins outs,
  (∀ x, x ∈ xs → stream_sequential_dependence x = Some d ∧ fuse_type x ∈ tail_ts) →
  (∀ x, x ∈ removelast xs → fuse_type x ∈ any_ts) →
  (seq = None ∨ seq = Some d) → (xs ≠ [] ∨ seq = Some d) →
  ∃ ins' outs', fuse_deps xs seq ins outs = Ret (Some d, ins', outs') ∧
    (∀ e, e ∈ ins' ↔ e ∈ ins ∨ ∃ x, x ∈ xs ∧ e ∈ input_dependences x) ∧
    (∀ e, e ∈ outs' ↔ e ∈ outs ∨ ∃ x, x ∈ xs ∧ e ∈ output_dependences x).
Proof.
  induction xs as [|x xs IH]; intros seq ins outs Hx Hl Hs Hne; cbn [fuse_deps].
  { destruct Hne as [?| ->]; [done|]. exists ins, outs. split_and!; [done|set_solver..]. }
  destruct (Hx x) as [Hd Ht]; [left|].
  assert ((match xs with
           | [] => bool_decide (fuse_type x = kEnableInstructionFuseAsTailOnly) ||
                   bool_decide (fuse_type x = kEnableInstructionFuseAtAnyPosition)
           | _ => bool_decide (fuse_type x = kEnableInstructionFuseAtAnyPosition)
           end) = true) as ->.
  { destruct xs as [|y xs].
    - unfold tail_ts in Ht. rewrite orb_true_iff, !bool_decide_eq_true. set_solver.
    - apply bool_decide_eq_true. specialize (Hl x). unfold any_ts in Hl.
      apply list_elem_of_singleton, Hl. cbn. left. }
  assert ((match seq with None => true | Some _ => bool_decide (seq = stream_sequential_dependence x) end) = true) as ->.
  { destruct Hs as [-> | ->]; [done|]. apply bool_decide_eq_true. congruence. }
  cbn [CHECK obind].
  assert ((match seq with None => stream_sequential_dependence x | Some _ => seq end) = Some d) as -> by (destruct Hs as [-> | ->]; congruence).
  destruct (IH (Some d) (foldl set_insert ins (input_dependences x)) (foldl set_insert outs (output_dependences x)))
    as (ins' & outs' & -> & Hi & Ho); [| |by right|by right|].
  { intros y Hy. apply Hx. by right. }
  { intros y Hy. apply Hl. destruct xs; [by apply not_elem_of_nil in Hy|]. cbn [removelast] in *. by right. }
  exists ins', outs'. split_and!; [done|..]; intros e; rewrite ?Hi, ?Ho, set_insert_spec; set_solver.
Qed.

Lemma omap_get_instr s l xs :
  (∀ i, i ∈ l → ∃ x, instrs s !! i = Some x) → xs = omap (λ i, instrs s !! i) l →
  omap_list (get_instr s) l = Ret xs.
Proof.
  revert xs. induction l as [|i l IH]; intros xs Hl ->; [done|]. cbn.
  destruct (Hl i) as [x Hx]; [left|]. unfold get_instr at 1. rewrite Hx. cbn.
  rewrite (IH (omap (λ i, instrs s !! i) l)); [done| |done]. intros j ?. apply Hl. by right.
Qed.

Lemma new_FuseInstruction_spec s st d l i :
  linked s st d (l ++ [i]) → of_type s any_ts l → of_type s tail_ts [i] →
  ∃ x, new_FuseInstruction s (l ++ [i]) = Ret x ∧ members x = l ++ [i] ∧ covers (instrs s) x.
Proof.
  intros Hl Ha Ht. set (xs := omap (λ i, instrs s !! i) (l ++ [i])).
  assert (∀ y, y ∈ xs ↔ ∃ j, j ∈ l ++ [i] ∧ instrs s !! j = Some y) as Hxs
    by (intros y; unfold xs; by rewrite list_elem_of_omap).
  destruct (Ht i) as (xi & Hxi & Hti); [left|].
  assert (xs = omap (λ i, instrs s !! i) l ++ [xi]) as Exs
    by (unfold xs; rewrite omap_app; f_equal; cbn; by rewrite Hxi).
  assert (∀ y, y ∈ removelast xs → fuse_type y ∈ any_ts) as Hany.
  { rewrite Exs, removelast_last. intros y (j & Hj & Hy)%list_elem_of_omap. destruct (Ha j Hj) as (x & ? & ?). congruence. }
  destruct (fuse_deps_spec d xs None [] []) as (ins & outs & E & Hi & Ho); [|done|by left|left|].
  { intros y Hy. split.
    - apply Hxs in Hy as (j & Hj & Hy). destruct (Hl j Hj) as (x & ? & ? & ?). congruence.
    - rewrite Exs in Hy. apply elem_of_app in Hy as [Hy| ->%list_elem_of_singleton]; [|done].
      rewrite Exs, removelast_last in Hany. apply Hany in Hy. unfold any_ts, tail_ts in *. set_solver. }
  { rewrite Exs. by destruct (omap _ l). }
  unfold new_FuseInstruction. rewrite (omap_get_instr s _ xs); [|intros j Hj; destruct (Hl j Hj) as (x & ? & _); by exists x|done].
  cbn [obind]. rewrite E. cbn [obind]. destruct xs as [|x0 xs'] eqn:Ex; [by destruct (omap _ l)|].
  eexists. split_and!; [done|done|]. intros _. split; [done|]. cbn [members]. intros m Hm.
  destruct (Hl m Hm) as (y & Hy & _ & Hd). exists y. split; [done|].
  assert (y ∈ x0 :: xs') as Hyin by (apply Hxs; by exists m).
  assert (∀ e, e ∈ input_dependences y → e ∈ ins) as H1 by (intros e ?; apply Hi; right; by exists y).
  assert (∀ e, e ∈ output_dependences y → e ∈ outs) as H2 by (intros e ?; apply Ho; right; by exists y).
  unfold includes, writes, access_list. rewrite Hd. cbn.
  split; intros e; specialize (H1 e); specialize (H2 e); rewrite !elem_of_cons, ?elem_of_app; tauto.
Qed.

(** ** Appending a run to the output *)

Lemma expand_app ins l k : expand ins (l ++ k) = expand ins l ++ expand ins k.
Proof. unfold expand. apply bind_app. Qed.

Lemma expand_grow ins xs l : (∀ i, i ∈ l → (i < length ins)%nat) → expand (ins ++ xs) l = expand ins l.
Proof.
  intros H. unfold expand. induction l as [|i l IH]; [done|]. cbn. f_equal; [|apply IH; intros; apply H; by right].
  unfold expand_one. rewrite lookup_app_l; [done|]. apply H. left.
Qed.

Lemma expand_raw ins l : (∀ i, i ∈ l → raw ins i) → expand ins l = l.
Proof.
  intros H. unfold expand. induction l as [|i l IH]; [done|]. cbn. rewrite IH by (intros; apply H; by right).
  destruct (H i) as (x & Hx & Hm); [left|]. unfold expand_one. by rewrite Hx, Hm.
Qed.

(** [l] replaced by [add] keeps the numbers distinct and known. *)
Definition fresh_step (n n' : nat) (l add : list nat) : Prop :=
  ∀ P Q, NoDup (P ++ l ++ Q) → (∀ i, i ∈ P ++ l ++ Q → (i < n)%nat) →
         NoDup (P ++ add ++ Q) ∧ ∀ i, i ∈ P ++ add ++ Q → (i < n')%nat.

Lemma fresh_step_new n l : fresh_step n (S n) l [n].
Proof.
  intros P Q Hnd Hlt. assert (∀ i, i ∈ P ++ Q → (i < n)%nat) as Hlt'.
  { intros i Hi. apply Hlt. rewrite !elem_of_app in *. tauto. }
  split.
  - apply (NoDup_Permutation_proper _ (n :: P ++ Q)); [cbn; symmetry; apply Permutation_middle|].
    apply NoDup_cons. split; [intros Hn%Hlt'; lia|].
    apply NoDup_app in Hnd as (H1 & H2 & H3). apply NoDup_app in H3 as (_ & _ & H3).
    apply NoDup_app. split_and!; [done| |done]. intros i Hi Hq. apply (H2 i Hi), elem_of_app. by right.
  - intros i. rewrite !elem_of_app, list_elem_of_singleton. intros [Hi|[->|Hi]]; [|lia|];
      specialize (Hlt' i); rewrite elem_of_app in Hlt'; lia || (assert (i < n)%nat by tauto; lia).
Qed.

Lemma Make_spec s st d l out :
  (∀ i, i ∈ l → raw (instrs s) i) → linked s st d l → of_type s any_ts (removelast l) → of_type s tail_ts l →
  ∃ add xs, MakeAndAppendFusedInstruction s l out = Ret (out ++ add, set_instrs (instrs s ++ xs) s) ∧
    expand (instrs s ++ xs) add = l ∧ fresh_step (length (instrs s)) (length (instrs s ++ xs)) l add ∧
    ∀ x, x ∈ xs → covers (instrs s) x.
Proof.
  intros Hraw Hl Ha Ht. destruct l as [|i [|j l]].
  - exists [], []. rewrite !app_nil_r. split_and!; [by destruct s|done|by intros P Q|intros x []%not_elem_of_nil].
  - exists [i], []. rewrite !app_nil_r. split_and!; [by destruct s|by apply expand_raw|by intros P Q|intros x []%not_elem_of_nil].
  - destruct (exists_last (l := i :: j :: l)) as (l' & k & E); [done|].
    unfold MakeAndAppendFusedInstruction. rewrite E in *. rewrite removelast_last in Ha.
    destruct (new_FuseInstruction_spec s st d l' k) as (x & -> & Hm & Hc); [done|done| |].
    { intros k' Hk. apply Ht, elem_of_app. by right. }
    cbn [obind]. exists [length (instrs s)], [x]. split_and!; [done| | |].
    + unfold expand, expand_one. cbn. rewrite lookup_app_r, Nat.sub_diag by lia. cbn. rewrite Hm, app_nil_r. by destruct l'.
    + rewrite length_app. cbn. rewrite Nat.add_1_r. apply fresh_step_new.
    + by intros y ->%list_elem_of_singleton.
Qed.

(** ** The fetch loop *)

Definition fetched (s : engine) (lp : list nat) (xs : list Instr) : engine :=
  set_local_pending lp (set_instrs (instrs s ++ xs) s).

Lemma raw_grow ins xs i : raw ins i → raw (ins ++ xs) i.
Proof. intros (x & Hx & Hm). exists x. split; [|done]. by apply lookup_app_l_Some. Qed.

Lemma covers_grow ins xs x : covers ins x → covers (ins ++ xs) x.
Proof.
  intros H Hne. destruct (H Hne) as [Hb Hm]. split; [done|]. intros m Hin. destruct (Hm m Hin) as (y & ? & ?).
  exists y. split; [|done]. by apply lookup_app_l_Some.
Qed.

Lemma FusableBetween_spec s ft i prev x :
  instrs s !! i = Some x → (∀ j, prev = Some j → ∃ y, instrs s !! j = Some y) →
  ∃ b, FusableBetween s ft i prev = Ret b ∧
    (b = true → fuse_type x = ft ∧ ∃ d, stream_sequential_dependence x = Some d ∧
       ∀ j y, prev = Some j → instrs s !! j = Some y → stream y = stream x ∧ stream_sequential_dependence y = Some d).
Proof.
  intros Hx Hprev. unfold FusableBetween, get_instr. rewrite Hx. cbn [obind].
  case_bool_decide as Hft; cbn [negb]; [|by exists false].
  destruct (stream_sequential_dependence x) as [d|]; [|by exists false].
  destruct prev as [j|].
  - destruct (Hprev j) as [y Hy]; [done|]. rewrite Hy. cbn [obind].
    destruct (Nat.eqb_spec (stream x) (stream y)) as [Hst|]; cbn [negb]; [|by exists false].
    eexists. split; [done|]. intros Hd%bool_decide_eq_true. split; [done|]. exists d. split; [done|].
    intros j' y' [= <-] Hy'. by simplify_eq.
  - exists true. split; [done|]. intros _. split; [done|]. exists d. split; [done|]. by intros.
Qed.

Lemma linked_snoc s st d l i x :
  linked s st d l → instrs s !! i = Some x → stream x = st → stream_sequential_dependence x = Some d →
  linked s st d (l ++ [i]).
Proof. intros Hl ??? j [Hj| ->%list_elem_of_singleton]%elem_of_app; [by apply Hl|by exists x]. Qed.

Lemma of_type_snoc s ts l i x :
  of_type s ts l → instrs s !! i = Some x → fuse_type x ∈ ts → of_type s ts (l ++ [i]).
Proof. intros Hl ?? j [Hj| ->%list_elem_of_singleton]%elem_of_app; [by apply Hl|by exists x]. Qed.

Lemma of_type_sub s ts l k : of_type s ts l → (∀ i, i ∈ k → i ∈ l) → of_type s ts k.
Proof. intros H Hs i Hi. by apply H, Hs. Qed.

Lemma any_tail s l : of_type s any_ts l → of_type s tail_ts l.
Proof.
  intros H i Hi. destruct (H i Hi) as (x & ? & ?). exists x. split; [done|]. unfold any_ts, tail_ts in *. set_solver.
Qed.

Lemma removelast_sub {A : Type} (l : list A) i : i ∈ removelast l → i ∈ l.
Proof.
  induction l as [|a [|b l] IH]; [done|by intros ?%not_elem_of_nil|]. cbn [removelast] in *.
  rewrite !elem_of_cons in *. naive_solver.
Qed.

(** A run that takes one more instruction is still a run. *)
Lemma run_snoc s st d fused i x b ft :
  linked s st d fused → instrs s !! i = Some x →
  (b = true → fuse_type x = ft ∧ ∃ d', stream_sequential_dependence x = Some d' ∧
     ∀ j y, head fused = Some j → instrs s !! j = Some y → stream y = stream x ∧ stream_sequential_dependence y = Some d') →
  b = true → fuse_type x = ft ∧ ∃ st' d', linked s st' d' (fused ++ [i]).
Proof.
  intros Hl Hx Hb Ht. destruct (Hb Ht) as (Hft & d' & Hd & Hh). split; [done|].
  destruct fused as [|j fused].
  - exists (stream x), d'. intros k ->%list_elem_of_singleton. by exists x.
  - destruct (Hl j) as (y & Hy & Hst & Hyd); [left|]. destruct (Hh j y eq_refl Hy) as [E1 E2].
    exists st, d. eapply linked_snoc; [done|done|congruence|congruence].
Qed.

Definition fetch_pre (s : engine) (fused out : list nat) : Prop :=
  NoDup ((h_handled s ++ out) ++ fused ++ (local_pending s ++ pending s)) ∧
  (∀ i, i ∈ (h_handled s ++ out) ++ fused ++ (local_pending s ++ pending s) → (i < length (instrs s))%nat) ∧
  (∀ i, i ∈ fused ++ local_pending s → raw (instrs s) i) ∧
  (∃ st d, linked s st d fused) ∧ of_type s any_ts fused.

Definition fetch_post (s : engine) (fused out out' taken lp : list nat) (xs : list Instr) : Prop :=
  local_pending s = taken ++ lp ∧
  NoDup (h_handled s ++ out' ++ lp ++ pending s) ∧
  (∀ i, i ∈ h_handled s ++ out' ++ lp ++ pending s → (i < length (instrs s ++ xs))%nat) ∧
  expand (instrs s ++ xs) out' = expand (instrs s) out ++ fused ++ taken ∧
  ∀ x, x ∈ xs → covers (instrs s ++ xs) x.

Definition fetch_result (w : nat) (s : engine) (fused out : list nat) (m : outcome (list nat * engine)) : Prop :=
  ∃ out' taken lp xs, m = Ret (out', fetched s lp xs) ∧ fetch_post s fused out out' taken lp xs ∧
    (lp = [] ∨ length taken = w).

(** The run ends: it is appended to the output, as one instruction. *)
Lemma flush_spec s fused out st d Q :
  NoDup ((h_handled s ++ out) ++ fused ++ Q) →
  (∀ i, i ∈ (h_handled s ++ out) ++ fused ++ Q → (i < length (instrs s))%nat) →
  (∀ i, i ∈ fused → raw (instrs s) i) →
  linked s st d fused → of_type s any_ts (removelast fused) → of_type s tail_ts fused →
  ∃ out' xs, MakeAndAppendFusedInstruction s fused out = Ret (out', set_instrs (instrs s ++ xs) s) ∧
    NoDup ((h_handled s ++ out') ++ Q) ∧
    (∀ i, i ∈ (h_handled s ++ out') ++ Q → (i < length (instrs s ++ xs))%nat) ∧
    expand (instrs s ++ xs) out' = expand (instrs s) out ++ fused ∧
    ∀ x, x ∈ xs → covers (instrs s ++ xs) x.
Proof.
  intros Hnd Hlt Hraw Hl Ha Ht.
  destruct (Make_spec s st d fused out) as (add & xs & -> & He & Hf & Hc); [done..|].
  destruct (Hf _ _ Hnd Hlt) as [Hnd' Hlt'].
  exists (out ++ add), xs. rewrite !app_assoc in *. split_and!; [done|done|done| |].
  - rewrite expand_app, He, expand_grow; [done|]. intros i Hi. apply Hlt. rewrite !elem_of_app. tauto.
  - intros x Hx. by apply covers_grow, Hc.
Qed.

Lemma fetch_compose w s s1 m xs1 fused out fused1 out1 i :
  s1 = set_instrs (instrs s ++ xs1) (set_local_pending (local_pending s1) s) → local_pending s = i :: local_pending s1 →
  expand (instrs s ++ xs1) out1 ++ fused1 = expand (instrs s) out ++ fused ++ [i] →
  (∀ x, x ∈ xs1 → covers (instrs s ++ xs1) x) →
  fetch_result w s1 fused1 out1 m → fetch_result (S w) s fused out m.
Proof.
  intros Es Hlp He Hc (out' & taken & lp & xs & -> & (H1 & H2 & H3 & H4 & H5) & Hend).
  exists out', (i :: taken), lp, (xs1 ++ xs). rewrite Es in H2, H3, H4, H5 |- *. cbn in *. unfold fetched, fetch_post. cbn.
  rewrite (app_assoc (instrs s)). split_and!; [done|by rewrite Hlp, H1|done|done| | |].
  - rewrite H4, app_assoc, He, <- !app_assoc. done.
  - intros x [Hx|Hx]%elem_of_app; [by apply covers_grow, Hc|by apply H5].
  - destruct Hend; [by left|right; cbn; lia].
Qed.

(** The loop stops: the window or the list is exhausted. *)
Lemma fetch_stop w s fused out :
  fetch_pre s fused out → (local_pending s = [] ∨ w = O) →
  fetch_result w s fused out (MakeAndAppendFusedInstruction s fused out).
Proof.
  intros (Hnd & Hlt & Hraw & (st & d & Hl) & Ha) Hw.
  destruct (flush_spec s fused out st d (local_pending s ++ pending s)) as (out' & xs & -> & Hnd' & Hlt' & He & Hc); try done.
  { intros i Hi. apply Hraw, elem_of_app. by left. }
  { eapply of_type_sub; [done|]. intros i. apply removelast_sub. } { by apply any_tail. }
  exists out', [], (local_pending s), xs. rewrite <- app_assoc in Hnd', Hlt'.
  split_and!; [by destruct s|by split_and!; rewrite ?app_nil_r|]. destruct Hw; [by left|by right].
Qed.

Section fetch_step.
Context (w : nat) (s : engine) (fused out : list nat) (i : nat) (rest : list nat) (x : Instr) (st d : nat).
Context (IH : ∀ s fused out, fetch_pre s fused out → fetch_result w s fused out (fetch_loop w s fused out)).
Context (Elp : local_pending s = i :: rest) (Hx : instrs s !! i = Some x).
Context (Hnd : NoDup ((h_handled s ++ out) ++ fused ++ (i :: rest) ++ pending s)).
Context (Hlt : ∀ j, j ∈ (h_handled s ++ out) ++ fused ++ (i :: rest) ++ pending s → (j < length (instrs s))%nat).
Context (Hraw : ∀ j, j ∈ fused ++ i :: rest → raw (instrs s) j).
Context (Ha : of_type s any_ts fused).

Lemma set_local_pending_instrs : set_local_pending rest s = set_instrs (instrs s ++ []) (set_local_pending rest s).
Proof. rewrite app_nil_r. by destruct s. Qed.

Lemma fetch_step_any :
  linked s st d (fused ++ [i]) → fuse_type x = kEnableInstructionFuseAtAnyPosition →
  fetch_result (S w) s fused out (fetch_loop w (set_local_pending rest s) (fused ++ [i]) out).
Proof.
  intros Hl Hft. apply (fetch_compose w s (set_local_pending rest s) _ [] fused out (fused ++ [i]) out i).
  - apply set_local_pending_instrs.
  - done.
  - by rewrite app_nil_r.
  - intros y []%not_elem_of_nil.
  - apply IH. split_and!; cbn; rewrite <- ?(app_assoc fused); [done|done|done|by exists st, d|].
    eapply of_type_snoc; [done|done|]. rewrite Hft. by left.
Qed.

Lemma fetch_step_tail :
  linked s st d (fused ++ [i]) → fuse_type x = kEnableInstructionFuseAsTailOnly →
  fetch_result (S w) s fused out
    (let* (out, s) := MakeAndAppendFusedInstruction (set_local_pending rest s) (fused ++ [i]) out in
     fetch_loop w s [] out).
Proof.
  intros Hl Hft.
  destruct (flush_spec (set_local_pending rest s) (fused ++ [i]) out st d (rest ++ pending s))
    as (out' & xs & -> & Hnd' & Hlt' & He & Hc); cbn; rewrite <- ?(app_assoc fused); try done.
  { intros j Hj. apply Hraw. rewrite elem_of_app, list_elem_of_singleton in Hj. rewrite elem_of_app, elem_of_cons. tauto. }
  { rewrite removelast_last. exact Ha. }
  { eapply of_type_snoc; [by apply any_tail|done|]. rewrite Hft. left. }
  apply (fetch_compose w s (set_instrs (instrs s ++ xs) (set_local_pending rest s)) _ xs fused out [] out' i); [done|done|by rewrite app_nil_r|done|].
  apply IH. split_and!; cbn; [done|done| |exists st, d|]; [|by intros j ?%not_elem_of_nil..].
  intros j Hj. apply raw_grow, Hraw. rewrite elem_of_app, elem_of_cons. tauto.
Qed.

Lemma fetch_step_none :
  linked s st d fused →
  fetch_result (S w) s fused out
    (let* (out, s) := MakeAndAppendFusedInstruction (set_local_pending rest s) fused out in
     fetch_loop w s [] (out ++ [i])).
Proof.
  intros Hl.
  destruct (flush_spec (set_local_pending rest s) fused out st d ((i :: rest) ++ pending s))
    as (out' & xs & -> & Hnd' & Hlt' & He & Hc); try done.
  { intros j Hj. apply Hraw. rewrite elem_of_app. tauto. }
  { eapply of_type_sub; [done|]. intros j. apply removelast_sub. } { by apply any_tail. }
  cbn [obind] in *. assert (raw (instrs s ++ xs) i) as Hri by (apply raw_grow, Hraw; rewrite elem_of_app, elem_of_cons; tauto).
  apply (fetch_compose w s (set_instrs (instrs s ++ xs) (set_local_pending rest s)) _ xs fused out [] (out' ++ [i]) i); [done|done| |done|].
  - rewrite app_nil_r, expand_app. cbn in He. rewrite He, (expand_raw _ [i]); [by rewrite <- app_assoc|].
    by intros j ->%list_elem_of_singleton.
  - assert (((h_handled s ++ out' ++ [i]) ++ [] ++ rest ++ pending s) = (h_handled s ++ out') ++ (i :: rest) ++ pending s) as E
      by (cbn; by rewrite <- !app_assoc).
    apply IH. split_and!; cbn -[app]; rewrite ?E; [done|done| |exists st, d|]; [|by intros j ?%not_elem_of_nil..].
    intros j Hj. apply raw_grow, Hraw. cbn in Hj. rewrite elem_of_app, elem_of_cons. tauto.
Qed.
End fetch_step.

Lemma fetch_loop_spec w : ∀ s fused out,
  fetch_pre s fused out → fetch_result w s fused out (fetch_loop w s fused out).
Proof.
  induction w as [|w IH]; intros s fused out Hpre; cbn [fetch_loop]; [by apply fetch_stop; [|right]|].
  destruct (local_pending s) as [|i rest] eqn:Elp; [apply fetch_stop; [done|by left]|].
  destruct Hpre as (Hnd & Hlt & Hraw & (st & d & Hl) & Ha). rewrite Elp in Hnd, Hlt, Hraw.
  destruct (Hraw i) as (x & Hx & _); [apply elem_of_app; right; left|].
  assert (∀ j, head fused = Some j → ∃ y, instrs (set_local_pending rest s) !! j = Some y) as Hhead.
  { intros j Hj. destruct fused as [|k fused]; [done|]. injection Hj as <-. destruct (Hl k) as (y & ? & _); [left|by exists y]. }
  destruct (FusableBetween_spec (set_local_pending rest s) kEnableInstructionFuseAtAnyPosition i (head fused) x Hx Hhead) as (any & -> & Hany).
  cbn [obind]. destruct any.
  { destruct (run_snoc s st d fused i x true _ Hl Hx Hany eq_refl) as (Hft & st' & d' & Hl').
    by eapply fetch_step_any. }
  destruct (FusableBetween_spec (set_local_pending rest s) kEnableInstructionFuseAsTailOnly i (head fused) x Hx Hhead) as (tail & -> & Htail).
  cbn [obind]. destruct tail.
  - destruct (run_snoc s st d fused i x true _ Hl Hx Htail eq_refl) as (Hft & st' & d' & Hl').
    by eapply fetch_step_tail.
  - by eapply fetch_step_none.
Qed.
