(* ===== verification/VmSchedule.v ===== *)
(** * The scheduler: programs run in order

    What the scheduler leaves of the client's program, the states it can reach,
    and the theorems: the program order is kept by fusing, conflicting
    instructions are dispatched and finish in program order, a barrier runs after
    everything received before it, nothing waits for ever on a dependence. *)
From Stdlib Require Import Relations.
From S2P Require Import Prelude VmEngine VmEngineSpec VmEngineRun VmFuse.

(** ** Frames *)

(** [s'] differs from [s] in nothing the client sees but that [h] was handled. *)
Definition frame (h : list nat) (s s' : engine) : Prop :=
  instrs s' = instrs s ∧ local_pending s' = local_pending s ∧ pending s' = pending s ∧
  h_handled s' = h_handled s ++ h.

Lemma frame_id s s' :
  instrs s' = instrs s → local_pending s' = local_pending s → pending s' = pending s →
  h_handled s' = h_handled s → frame [] s s'.
Proof. intros. unfold frame. by rewrite app_nil_r. Qed.

Lemma frame_refl s : frame [] s s.
Proof. by apply frame_id. Qed.

Lemma frame_trans h k s1 s2 s3 : frame h s1 s2 → frame k s2 s3 → frame (h ++ k) s1 s3.
Proof.
  intros (E1 & E2 & E3 & E4) (F1 & F2 & F3 & F4). unfold frame.
  rewrite F1, F2, F3, F4, E1, E2, E3, E4, app_assoc. done.
Qed.

Lemma frame_foldl {A : Type} (f : engine → A → engine) l s :
  (∀ s a, frame [] s (f s a)) → frame [] s (foldl f s l).
Proof.
  intros Hf. revert s. induction l as [|a l IH]; intros s; cbn [foldl]; [apply frame_refl|].
  apply (frame_trans [] [] _ (f s a)); [apply Hf|apply IH].
Qed.

Lemma frame_ofold {A : Type} (f : engine → A → outcome engine) l s s' :
  (∀ s a s', f s a = Ret s' → frame [] s s') → ofold f l s = Ret s' → frame [] s s'.
Proof.
  intros Hf. revert s. induction l as [|a l IH]; intros s; cbn [ofold].
  - intros [= ->]. apply frame_refl.
  - intros (s1 & H1 & H2)%obind_Ret. apply (frame_trans [] [] _ s1); [by eapply Hf|by apply IH].
Qed.

Lemma TryConnect_frame s a i : frame [] s (TryConnectInstruction s a i).
Proof. destruct (TryConnect_same s a i) as (e & o & ->). by apply frame_id. Qed.

Lemma preschedule_frame s i : frame [] s (preschedule s i).
Proof. unfold preschedule. destruct (Dispatchable s i); by apply frame_id. Qed.

Lemma access_write_frame i s d : frame [] s (access_write i s d).
Proof.
  unfold access_write, ConnectInstructionsByWrite. set (s1 := AccessDependence s true d i).
  apply (frame_trans [] [] _ s1); [by apply frame_id|].
  eapply (frame_trans [] []); [|by apply frame_id]. apply frame_foldl. intros. apply TryConnect_frame.
Qed.

Lemma access_read_frame i s d : frame [] s (access_read i s d).
Proof.
  unfold access_read, ConnectInstructionsByRead. set (s1 := AccessDependence s false d i).
  apply (frame_trans [] [] _ s1); [by apply frame_id|].
  destruct (list_at _ d) as [|[c [|]] l]; [apply frame_refl|apply TryConnect_frame|apply frame_refl].
Qed.

Lemma handle_pending_frame s i s' : handle_pending s i = Ret s' → frame [i] s s'.
Proof.
  unfold handle_pending. intros (x & _ & H)%obind_Ret. destruct (IsBarrier x); [injection H as <-; done|].
  injection H as <-. set (s1 := set_h_handled _ _). apply (frame_trans [i] [] _ s1); [done|].
  apply (frame_trans [] [] _ (ConsumeDependences s1 i x)); [|apply preschedule_frame].
  rewrite ConsumeDependences_writes. apply (frame_trans [] [] _ (foldl (access_write i) s1 (writes x)));
    apply frame_foldl; intros; [apply access_write_frame|apply access_read_frame].
Qed.

Lemma handle_list_frame l : ∀ s s', ofold handle_pending l s = Ret s' → frame l s s'.
Proof.
  induction l as [|i l IH]; intros s s'; cbn [ofold].
  - intros [= ->]. apply frame_refl.
  - intros (s1 & H1 & H2)%obind_Ret. apply (frame_trans [i] l _ s1); [by apply handle_pending_frame|by apply IH].
Qed.

Lemma release_edge_frame i s out : frame [] s (release_edge i s out).
Proof. unfold release_edge. destruct (Dispatchable _ _); by apply frame_id. Qed.

Lemma ReleaseInstruction_frame s i s' : ReleaseInstruction s i = Ret s' → frame [] s s'.
Proof.
  unfold ReleaseInstruction. intros (x & _ & H)%obind_Ret. injection H as <-.
  eapply (frame_trans [] []); [|apply frame_foldl; intros; apply release_edge_frame].
  eapply (frame_trans [] [] _ (foldl (drop_access i) s (access_list x))); [|by apply frame_id].
  apply frame_foldl. intros. by apply frame_id.
Qed.

Lemma release_stream_frame done st fuel : ∀ s s', release_stream fuel done s st = Ret s' → frame [] s s'.
Proof.
  induction fuel as [|fuel IH]; intros s s'; cbn [release_stream]; [intros [= ->]; apply frame_refl|].
  destruct (list_at (running s) st) as [|i rest]; [intros [= ->]; apply frame_refl|].
  destruct (_ && _); [|intros [= ->]; apply frame_refl].
  intros (s1 & H1 & H)%obind_Ret. apply obind_Ret in H as (? & _ & H).
  apply (frame_trans [] [] _ s1); [by eapply ReleaseInstruction_frame|].
  apply IH in H. eapply (frame_trans [] []); [|exact H]. by apply frame_id.
Qed.

Lemma ReleaseFinished_frame done s s' : ReleaseFinishedInstructions done s = Ret s' → frame [] s s'.
Proof.
  apply frame_ofold. clear. intros s st s' (s1 & H1 & H)%obind_Ret. injection H as <-.
  apply (frame_trans [] [] _ s1); [by eapply release_stream_frame|]. case_bool_decide; by apply frame_id.
Qed.

Lemma TryRunBarrier_frame ot s s' : TryRunBarrierInstruction ot s = Ret s' → frame [] s s'.
Proof.
  unfold TryRunBarrierInstruction. destruct (barriers s); [done|]. destruct (negb _).
  - intros [= ->]. apply frame_refl.
  - intros (x & _ & H)%obind_Ret. apply obind_Ret in H as (? & _ & H). apply obind_Ret in H as (? & _ & H).
    injection H as <-. by apply frame_id.
Qed.

Lemma dispatch_loop_frame ok l : ∀ s s', dispatch_loop ok l s = Ret s' → frame [] s s'.
Proof.
  induction l as [|i l IH]; intros s s'; cbn [dispatch_loop]; [intros [= ->]; apply frame_refl|].
  intros (s1 & H1 & H%IH)%obind_Ret. eapply (frame_trans [] []); [|exact H].
  apply (frame_trans [] [] _ s1); [|apply frame_foldl; intros; apply preschedule_frame].
  unfold DispatchInstruction in H1. apply obind_Ret in H1 as (? & _ & H1). injection H1 as <-.
  case_bool_decide; by apply frame_id.
Qed.

Lemma Dispatch_frame ok s s' : DispatchAndPrescheduleInstructions ok s = Ret s' → frame [] s s'.
Proof. intros H%dispatch_loop_frame. eapply (frame_trans [] []); [|exact H]. by apply frame_id. Qed.

(** ** New instructions *)

Definition grown (s : engine) (lp p : list nat) (xs : list Instr) : engine :=
  set_pending p (set_local_pending lp (set_instrs (instrs s ++ xs) s)).

Section grow.
Context (s : engine) (lp p : list nat) (xs : list Instr).

Lemma grown_lookup i : (i < length (instrs s))%nat → instrs (grown s lp p xs) !! i = instrs s !! i.
Proof. intros H. cbn. by rewrite lookup_app_l. Qed.

Lemma grown_stream i : (i < length (instrs s))%nat → stream_of (grown s lp p xs) i = stream_of s i.
Proof. intros H. unfold stream_of. by rewrite grown_lookup. Qed.

Lemma grown_barrier i : (i < length (instrs s))%nat → barrier_of (grown s lp p xs) i = barrier_of s i.
Proof. intros H. unfold barrier_of. by rewrite grown_lookup. Qed.

Lemma grown_plain i : plain s i → plain (grown s lp p xs) i.
Proof. intros (x & Hx & Hb). exists x. split; [|done]. cbn. by apply lookup_app_l_Some. Qed.

Lemma grown_strict : strict (grown s lp p xs) → strict s.
Proof. intros H i x a b Hx. apply (H i x a b). cbn. by apply lookup_app_l_Some. Qed.

Lemma grow_inv links D W X X' T :
  inv links D W X T s →
  NoDup (h_handled s ++ X' ++ lp ++ p) → (∀ i, i ∈ h_handled s ++ X' ++ lp ++ p → (i < length (instrs s ++ xs))%nat) →
  inv links D W X' T (grown s lp p xs).
Proof.
  intros Hinv Hnd Hlt.
  assert (∀ i, i ∈ h_handled s → (i < length (instrs s))%nat) as Hh by (intros i; by eapply inv_handled_lt).
  assert (∀ i, i ∈ D → (i < length (instrs s))%nat) as HDl by (intros i ?; eapply Hh, inv_D_handled; done).
  assert (∀ i, i ∈ queue s → (i < length (instrs s))%nat) as Hq by (intros i [? _]%(iv_queue Hinv); by apply HDl).
  pose proof grown_strict as Hstr.
  assert (∀ j, behind T s j → behind T (grown s lp p xs) j) as Hbehind by (intros j []; split; auto).
  constructor; try keep Hinv; [exact Hnd|exact Hlt|..].
  - intros i Hi. destruct (iv_queue Hinv i Hi). split; [done|by apply grown_plain].
  - intros st. cbn. rewrite (iv_running Hinv). apply filter_ext_in. intros j Hj.
    rewrite grown_stream; [done|]. apply Hq, elem_of_app. by left.
  - intros a b Hab. destruct (iv_edges_known Hinv a b Hab) as (? & ? & ? & ?). split_and!; auto using grown_plain.
  - intros a b Hab. destruct (iv_links_known Hinv a b Hab) as (? & ? & ?). auto using grown_plain.
  - intros a b Hs Hab. destruct (iv_links_known Hinv a b Hab) as (? & ? & _).
    rewrite !grown_stream by auto. apply (iv_strict_edge Hinv); auto.
  - intros a b Hs Hab Hbq. destruct (iv_links_known Hinv a b Hab) as (? & ? & _).
    rewrite !grown_stream by auto. apply (iv_strict_ahead Hinv); auto.
  - intros a b Hs. apply (iv_strict_finished Hinv); auto.
  - intros a b Hb Hbq Hst Hab. apply (iv_fifo Hinv); [done|done| |done].
    rewrite !grown_stream in Hst; [done|by apply Hq|]. apply Hq. by eapply ahead_in.
  - intros c m d Hc. destruct (iv_access_known Hinv c m d Hc) as (? & ? & ?). auto using grown_plain.
  - intros c m d x Hc. rewrite grown_lookup; [by apply (iv_access_own Hinv c m)|].
    by apply Hh, (iv_access_known Hinv c m d Hc).
  - intros a x d Ha. rewrite grown_lookup by auto. intros ???.
    apply (covered_mono links T T s); [exact Hbehind|done|by eapply (iv_covered Hinv)].
  - intros a x d Ha. rewrite grown_lookup by auto. intros ???.
    apply (covered_first_mono links T T s); [exact Hbehind|done|by eapply (iv_covered_first Hinv)].
  - intros a b x y Hab. pose proof (before_in _ _ _ Hab) as [? ?]. rewrite !grown_lookup by auto. intros ?????.
    destruct (iv_ordered Hinv a b x y) as [[Ho1 Ho2]|Ho]; try done; [left; split; auto|by right].
  - cbn. rewrite (iv_barriers Hinv). apply filter_ext_in. intros j Hj. by rewrite grown_barrier by auto.
  - intros a b Hab. pose proof (before_in _ _ _ Hab) as [? ?]. rewrite grown_barrier by auto. by apply (iv_barrier Hinv).
  - intros b HbD Hbp Hbq. assert (plain s b) as Hbp'.
    { destruct Hbp as (x & Hx & ?). rewrite grown_lookup in Hx by auto. by exists x. }
    destruct (iv_wait Hinv b HbD Hbp' Hbq) as [?|(a & Ha & Hw)]; [by left|right]. exists a. split; [done|].
    destruct Hw as [Hw|Hw]; [left|by right]. intros (x & Hx & Hp & Haq & Haf). apply Hw. exists x.
    rewrite grown_lookup in Hx by auto. rewrite grown_stream in Hp by (by apply Hq). done.
Qed.
End grow.

(** ** States between the steps *)

(** The client's program, as far as it was received. *)
Definition program (s : engine) : list nat :=
  expand (instrs s) (h_handled s) ++ local_pending s ++ pending s.

Record good (s : engine) : Prop := {
  gd_steady : steady [] idle s;
  gd_raw i : i ∈ local_pending s ++ pending s → raw (instrs s) i;
  gd_covers x : x ∈ instrs s → covers (instrs s) x;
  gd_distinct : NoDup (program s);
  gd_known i : i ∈ program s → (i < length (instrs s))%nat;
}.

Lemma good_frame s s' : good s → frame [] s s' → steady [] idle s' → good s' ∧ program s' = program s.
Proof.
  intros Hg (E1 & E2 & E3 & E4) Hs. rewrite app_nil_r in E4.
  assert (program s' = program s) as Ep by (unfold program; by rewrite E1, E2, E3, E4).
  split; [|done]. constructor; [done|rewrite E1, E2, E3; apply (gd_raw _ Hg)|rewrite E1; apply (gd_covers _ Hg)|..].
  - rewrite Ep. apply (gd_distinct _ Hg).
  - rewrite Ep, E1. apply (gd_known _ Hg).
Qed.

Lemma new_engine_good : good new_engine.
Proof.
  constructor; [|by intros i ?%not_elem_of_nil|by intros x ?%not_elem_of_nil|apply NoDup_nil_2|by intros i ?%not_elem_of_nil].
  exists (λ _ _, False). constructor; try done; cbn; try (by intros ? ?%not_elem_of_nil).
  - apply NoDup_nil_2.
  - apply NoDup_nil_2.
  - by intros a b ?%not_elem_of_nil.
  - by intros c m d ?%not_elem_of_nil.
Qed.

Lemma HandleLocalPending_good w s :
  good s → ∃ s', HandleLocalPending w s = Ret s' ∧ good s' ∧ program s' = program s.
Proof.
  intros Hg. destruct (gd_steady _ Hg) as (links & Hinv).
  destruct (fetch_loop_spec w s [] []) as (out & taken & lp & xs & E & (Hlp & Hnd & Hlt & He & Hc) & _).
  { split_and!; rewrite ?app_nil_r; [apply (iv_fresh Hinv)|apply (iv_known Hinv)| |exists O, O|];
      [|by intros i ?%not_elem_of_nil..]. intros i Hi. apply (gd_raw _ Hg), elem_of_app. by left. }
  unfold HandleLocalPending, FetchAndTryFusePendingInstructions. rewrite E. cbn [obind].
  assert (steady out idle (fetched s lp xs)) as Hst.
  { exists links. replace (fetched s lp xs) with (grown s lp (pending s) xs) by (by destruct s).
    by apply (grow_inv s lp (pending s) xs links _ [] []). }
  destruct (handle_pending_list [] idle out (fetched s lp xs)) as (s' & E' & Hs' & Eh); [done|by rewrite app_nil_r|].
  exists s'. split; [done|]. destruct (handle_list_frame _ _ _ E') as (F1 & F2 & F3 & F4). cbn in F1, F2, F3, F4.
  assert (program s' = program s) as Ep.
  { unfold program. rewrite F1, F2, F3, F4, expand_app, He, Hlp, expand_grow; [|intros i; by eapply inv_handled_lt].
    cbn. by rewrite <- !app_assoc. }
  split; [|done]. constructor; [done|rewrite F1, F2, F3|rewrite F1|rewrite Ep; apply (gd_distinct _ Hg)|].
    + intros i Hi. apply raw_grow, (gd_raw _ Hg). rewrite Hlp. rewrite !elem_of_app in *. tauto.
    + intros x [Hx|Hx]%elem_of_app; [by apply covers_grow, (gd_covers _ Hg)|by apply Hc].
    + intros i. rewrite Ep, F1, length_app. intros ?%(gd_known _ Hg). lia.
Qed.

Lemma load_pending_good s :
  good s → let s' := set_pending [] (set_local_pending (local_pending s ++ pending s) s) in
  good s' ∧ program s' = program s.
Proof.
  intros Hg. destruct (gd_steady _ Hg) as (links & Hinv). cbn zeta.
  assert (program (set_pending [] (set_local_pending (local_pending s ++ pending s) s)) = program s) as Ep
    by (unfold program; cbn; by rewrite app_nil_r).
  split; [|done].
  - constructor; rewrite ?Ep; cbn -[program]; rewrite ?app_nil_r;
      [|apply (gd_raw _ Hg)|apply (gd_covers _ Hg)|apply (gd_distinct _ Hg)|apply (gd_known _ Hg)].
    exists links. replace (set_pending _ _) with (grown s (local_pending s ++ pending s) [] [])
      by (unfold grown; rewrite app_nil_r; by destruct s).
    apply (grow_inv s _ _ _ _ _ _ []); [done|..]; rewrite !app_nil_r; [apply (iv_fresh Hinv)|apply (iv_known Hinv)].
Qed.

Lemma Receive_good s xs :
  good s → (∀ x, x ∈ xs → members x = []) →
  good (Receive s xs).2 ∧ program (Receive s xs).2 = program s ++ seq (length (instrs s)) (length xs).
Proof.
  intros Hg Hm. destruct (gd_steady _ Hg) as (links & Hinv).
  set (new := seq (length (instrs s)) (length xs)).
  assert (∀ i, i ∈ new ↔ (length (instrs s) ≤ i < length (instrs s) + length xs)%nat) as Hnew
    by (intros i; apply elem_of_seq).
  assert (program (Receive s xs).2 = program s ++ new) as Ep.
  { unfold program. cbn -[expand]. rewrite expand_grow by (intros i; by eapply inv_handled_lt). by rewrite <- !app_assoc. }
  split; [|done].
  - constructor; rewrite ?Ep; cbn -[program].
    + exists links. replace (Receive s xs).2 with (grown s (local_pending s) (pending s ++ new) xs) by (by destruct s).
      assert (h_handled s ++ [] ++ local_pending s ++ pending s ++ new =
              (h_handled s ++ [] ++ local_pending s ++ pending s) ++ new) as E by (cbn; by rewrite <- !app_assoc).
      apply (grow_inv s _ _ _ _ _ _ [] []); [done|fold new; rewrite E|intros i; fold new; rewrite E].
      * apply NoDup_app. split_and!; [apply (iv_fresh Hinv)| |apply NoDup_seq].
        intros i Hi%(iv_known Hinv) ?%Hnew. lia.
      * intros [Hi%(iv_known Hinv)|Hi%Hnew]%elem_of_app; rewrite length_app; lia.
    + intros i. rewrite app_assoc, elem_of_app. intros [Hi|Hi%Hnew]; [by apply raw_grow, (gd_raw _ Hg)|].
      destruct (lookup_lt_is_Some_2 xs (i - length (instrs s))) as [x Hx]; [lia|].
      exists x. split; [rewrite lookup_app_r by lia; done|]. by eapply Hm, list_elem_of_lookup_2.
    + intros x [Hx|Hx]%elem_of_app; [by apply covers_grow, (gd_covers _ Hg)|].
      intros Hne. by apply Hm in Hx.
    + apply NoDup_app. split_and!; [apply (gd_distinct _ Hg)| |apply NoDup_seq]. intros i Hi%(gd_known _ Hg) ?%Hnew. lia.
    + intros i [Hi%(gd_known _ Hg)|Hi%Hnew]%elem_of_app; rewrite length_app; lia.
Qed.

(** What [Schedule] needs of the devices: preparing succeeds, and a barrier's
    stream runs on the scheduler thread. *)
Definition able (w : world) (s : engine) : Prop :=
  (∀ i, prepare_ok w i = true) ∧
  (∀ x, x ∈ instrs s → IsBarrier x = true → on_scheduler_thread w (stream x) = true).

Definition schedule_result (w : world) (s : engine) (m : outcome engine) : Prop :=
  match m with
  | Ret s' => good s' ∧ program s' = program s
  | Fail _ => False
  | Crash => ¬ able w s
  end.

Lemma barrier_instr s i : barrier_of s i = true → ∃ x, x ∈ instrs s ∧ IsBarrier x = true ∧ stream x = stream_of s i.
Proof.
  unfold barrier_of, stream_of. destruct (instrs s !! i) as [x|] eqn:E; [|done]. intros Hb.
  exists x. split_and!; [by eapply list_elem_of_lookup_2|done|done].
Qed.

Lemma Schedule_good w s : good s → schedule_result w s (Schedule w s).
Proof.
  intros Hg. unfold Schedule.
  assert (∃ s1, (if bool_decide (active s = []) then Ret s else ReleaseFinishedInstructions (done w) s) = Ret s1 ∧
     good s1 ∧ program s1 = program s ∧ instrs s1 = instrs s) as (s1 & -> & Hg1 & Ep1 & Ei1).
  { case_bool_decide; [by exists s|].
    destruct (ReleaseFinished_steady [] (done w) s (gd_steady _ Hg)) as (s1 & E & Hs1).
    pose proof (ReleaseFinished_frame _ _ _ E) as Hf. destruct (good_frame s s1 Hg Hf Hs1) as [? ?].
    exists s1. destruct Hf as (? & _). done. }
  cbn [obind].
  assert (match (if bool_decide (barriers s1 = []) then Ret s1 else TryRunBarrierInstruction (on_scheduler_thread w) s1) with
    | Ret s2 => good s2 ∧ program s2 = program s1 | Fail _ => False | Crash => ¬ able w s1 end) as H2.
  { case_bool_decide as Hb; [done|].
    pose proof (TryRunBarrier_steady [] idle (on_scheduler_thread w) s1 (gd_steady _ Hg1) Hb) as H.
    destruct (TryRunBarrierInstruction _ s1) as [s2| |] eqn:E; [|done|].
    - by eapply good_frame; [|eapply TryRunBarrier_frame|].
    - destruct H as (i & (x & Hx & Hxb & Ex)%barrier_instr & Ho). intros [_ Ha]. by rewrite <- Ex, (Ha x Hx Hxb) in Ho. }
  destruct (if bool_decide (barriers s1 = []) then _ else _) as [s2| |]; cbn [obind]; [|done|].
  2: { intros [? Ha]. apply H2. split; [done|]. by rewrite Ei1. }
  destruct H2 as [Hg2 Ep2]. set (m := if negb (bool_decide (local_pending s2 = [])) then _ else _).
  assert (∃ s3, m = Ret s3 ∧ good s3 ∧ program s3 = program s2) as (s3 & -> & Hg3 & Ep3).
  { unfold m. destruct (negb (bool_decide (local_pending s2 = []))); [by apply HandleLocalPending_good|].
    destruct (negb (bool_decide (pending s2 = []))); [|by exists s2].
    destruct (load_pending_good s2 Hg2) as [Hg' Ep']. cbn zeta in *. set (s2' := set_pending _ _) in *.
    destruct (negb _); [|by exists s2'].
    destruct (HandleLocalPending_good (window w) s2' Hg') as (s3 & E & ? & ?). exists s3. split_and!; [done..|congruence]. }
  cbn [obind]. case_bool_decide as Hr; [split; [done|congruence]|].
  pose proof (Dispatch_steady [] (prepare_ok w) s3 (gd_steady _ Hg3)) as H4.
  destruct (DispatchAndPrescheduleInstructions (prepare_ok w) s3) as [s4| |] eqn:E; [|done|].
  - destruct (good_frame s3 s4 Hg3 (Dispatch_frame _ _ _ E) H4). split; [done|congruence].
  - destruct H4 as (i & Hi). intros [Ha _]. by rewrite Ha in Hi.
Qed.

(** ** Executions *)

(** The client hands over instructions, the scheduler makes a step. *)
Inductive vm_step : engine → engine → Prop :=
| step_receive s xs : (∀ x, x ∈ xs → members x = []) → vm_step s (Receive s xs).2
| step_schedule s w s' : Schedule w s = Ret s' → vm_step s s'.

Definition reachable (s : engine) : Prop := rtc vm_step new_engine s.

Lemma reachable_good s : reachable s → good s.
Proof.
  unfold reachable. intros H. assert (good new_engine) as Hg by apply new_engine_good. revert Hg.
  induction H as [|s s1 s2 Hstep _ IH]; [done|]. intros Hg. apply IH. destruct Hstep as [s xs Hm|s w s' E].
  - by apply Receive_good.
  - pose proof (Schedule_good w s Hg) as H. rewrite E in H. by destruct H.
Qed.

(** ** The order of the client's instructions *)

(** The client's instructions in the order in which they were dispatched, and in
    the order in which they finished. *)
Definition dispatch_order (s : engine) : list nat := expand (instrs s) (h_dispatched s).
Definition finish_order (s : engine) : list nat := expand (instrs s) (h_finished s).

Lemma before_cons (l : list nat) i a b : before l a b → before (i :: l) a b.
Proof. intros (j & k & ? & ? & ?). exists (S j), (S k). split_and!; [lia|done|done]. Qed.

Lemma before_app_r (l r : list nat) a b : before r a b → before (l ++ r) a b.
Proof. intros H. induction l as [|i l IH]; [done|]. by apply before_cons. Qed.

Lemma before_app_cross (l r : list nat) a b : a ∈ l → b ∈ r → before (l ++ r) a b.
Proof.
  intros (j & Hj)%list_elem_of_lookup (k & Hk)%list_elem_of_lookup. exists j, (length l + k)%nat.
  pose proof (lookup_lt_Some _ _ _ Hj). split_and!; [lia|by apply lookup_app_l_Some|].
  rewrite lookup_app_r by lia. by replace (length l + k - length l)%nat with k by lia.
Qed.

Lemma before_app_inv (l r : list nat) a b :
  before (l ++ r) a b → before l a b ∨ before r a b ∨ (a ∈ l ∧ b ∈ r).
Proof.
  intros (j & k & Hjk & Hj & Hk). destruct (decide (k < length l)%nat) as [Hkl|Hkl].
  - rewrite lookup_app_l in Hj, Hk by lia. left. by exists j, k.
  - rewrite lookup_app_r in Hk by lia. destruct (decide (j < length l)%nat) as [Hjl|Hjl].
    + rewrite lookup_app_l in Hj by lia. right; right. split; by eapply list_elem_of_lookup_2.
    + rewrite lookup_app_r in Hj by lia. right; left. eexists _, _. split_and!; [|done|done]. lia.
Qed.

Lemma ahead_before (q : list nat) a b : ahead q a b → b ∈ q → before q a b.
Proof.
  intros Hab (k & Hk)%list_elem_of_lookup. destruct (ahead_lookup q a b k Hab Hk) as (j & ? & ?). by exists j, k.
Qed.

Lemma before_expand ins l a b : before (expand ins l) a b →
  ∃ A B, A ∈ l ∧ B ∈ l ∧ a ∈ expand_one ins A ∧ b ∈ expand_one ins B ∧
    ((A = B ∧ before (expand_one ins A) a b) ∨ before l A B).
Proof.
  unfold expand. induction l as [|i l IH]; [by intros (j & k & _ & ? & _)|]. cbn.
  intros [H|[H|[Ha Hb]]]%before_app_inv.
  - destruct (before_in _ _ _ H). exists i, i. split_and!; [left|left|done|done|by left].
  - destruct (IH H) as (A & B & ? & ? & ? & ? & HAB). exists A, B. split_and!; [by right|by right|done|done|].
    destruct HAB as [?|?]; [by left|right; by apply before_cons].
  - apply list_elem_of_bind in Hb as (B & HB & Hin). exists i, B. split_and!; [left|by right|done|done|right].
    apply (before_app_cross [i] l); [left|done].
Qed.

Lemma expand_before ins l A B a b :
  a ∈ expand_one ins A → b ∈ expand_one ins B → before l A B → before (expand ins l) a b.
Proof.
  intros Ha Hb (j & k & Hjk & Hj & Hk). apply list_elem_of_split_length in Hj as (l1 & l2 & -> & ->).
  rewrite lookup_app_r in Hk by lia. destruct (k - length l1)%nat as [|n] eqn:E; [lia|]. cbn in Hk.
  rewrite expand_app. apply before_app_r. apply (before_app_cross (expand_one ins A) (expand ins l2)); [done|].
  apply list_elem_of_bind. exists B. split; [done|]. by eapply list_elem_of_lookup_2.
Qed.

Lemma expand_before_one ins l A a b : A ∈ l → before (expand_one ins A) a b → before (expand ins l) a b.
Proof.
  intros (l1 & l2 & ->)%list_elem_of_split Hab. rewrite expand_app. apply before_app_r.
  apply (before_app (expand_one ins A)). done.
Qed.

Lemma expand_in ins l a : a ∈ expand ins l ↔ ∃ A, A ∈ l ∧ a ∈ expand_one ins A.
Proof. unfold expand. rewrite list_elem_of_bind. naive_solver. Qed.

(** Distinct instructions stand for distinct instructions of the client. *)
Lemma expand_inj ins l A B a :
  NoDup (expand ins l) → A ∈ l → B ∈ l → a ∈ expand_one ins A → a ∈ expand_one ins B → A = B.
Proof.
  unfold expand. induction l as [|i l IH]; [by intros _ ?%not_elem_of_nil|]. cbn.
  intros (_ & Hd & Hnd)%NoDup_app HA HB HaA HaB.
  apply elem_of_cons in HA as [->|HA]; apply elem_of_cons in HB as [->|HB]; [done|exfalso|exfalso|by apply IH].
  - apply (Hd a HaA), list_elem_of_bind. by exists B.
  - apply (Hd a HaB), list_elem_of_bind. by exists A.
Qed.

Section order.
Context (s : engine) (Hg : good s).

(** What a handled instruction accesses for the client. *)
Lemma holder_conflict A a x :
  a ∈ expand_one (instrs s) A → instrs s !! a = Some x → IsBarrier x = false →
  A ∈ h_handled s → ∃ X, instrs s !! A = Some X ∧ IsBarrier X = false ∧ includes X x.
Proof.
  intros Ha Hx Hb HA. destruct (gd_steady _ Hg) as (links & Hinv).
  apply (inv_handled_lt Hinv), lookup_lt_is_Some_2 in HA as [X HX]. exists X.
  unfold expand_one in Ha. rewrite HX in Ha. destruct (members X) as [|m l] eqn:Em.
  - apply list_elem_of_singleton in Ha as ->. split_and!; [done| |]; simplify_eq; [done|by split].
  - destruct (gd_covers _ Hg X) as [HbX Hm]; [by eapply list_elem_of_lookup_2|by rewrite Em|].
    rewrite Em in Hm. destruct (Hm a Ha) as (y & Hy & Hi). by simplify_eq.
Qed.

Lemma includes_conflict X Y x y : includes X x → includes Y y → conflict x y → conflict X Y.
Proof. intros [H1 H2] [H3 H4] (d & ? & ? & Hd). exists d. split_and!; [auto..|]. destruct Hd; auto. Qed.

(** Two conflicting instructions of the client, the second one handled: their
    holders are ordered. *)
Lemma holders_ordered a b x y B :
  before (program s) a b → instrs s !! a = Some x → instrs s !! b = Some y →
  IsBarrier x = false → IsBarrier y = false → conflict x y →
  B ∈ h_handled s → b ∈ expand_one (instrs s) B →
  ∃ A, A ∈ h_handled s ∧ a ∈ expand_one (instrs s) A ∧
    ((A = B ∧ before (expand_one (instrs s) A) a b) ∨
     ∃ links, inv links (h_handled s) [] [] idle s ∧ ordered links s A B).
Proof.
  intros Hab Hx Hy Hxb Hyb Hc HB Hb. destruct (gd_steady _ Hg) as (links & Hinv).
  pose proof (gd_distinct _ Hg) as Hnd. unfold program in *. apply NoDup_app in Hnd as (Hnd & Hdis & _).
  assert (b ∈ expand (instrs s) (h_handled s)) as HbE by (apply expand_in; by exists B).
  apply before_app_inv in Hab as [Hab|[Hab|[_ Hab]]]; [|exfalso..].
  - apply before_expand in Hab as (A & B' & HA & HB' & Ha & Hb' & HAB).
    assert (B' = B) as -> by by eapply expand_inj. exists A. split_and!; [done..|].
    destruct HAB as [?|HAB]; [by left|right]. exists links. split; [done|].
    destruct (holder_conflict A a x) as (X & HX & HXb & HXi); try done.
    destruct (holder_conflict B b y) as (Y & HY & HYb & HYi); try done.
    eapply (iv_ordered Hinv A B X Y); try done. by eapply includes_conflict.
  - apply (Hdis b HbE). by apply before_in in Hab as [_ ?].
  - by apply (Hdis b HbE).
Qed.
End order.

(** ** Theorems *)

(** C2 Of two instructions of the client that access a common dependence, one of
    them mutably, the one received first is dispatched first (fused instructions
    count for their members). *)
Theorem conflicts_dispatched_in_order s a b x y :
  reachable s → before (program s) a b → instrs s !! a = Some x → instrs s !! b = Some y →
  IsBarrier x = false → IsBarrier y = false → conflict x y →
  b ∈ dispatch_order s → before (dispatch_order s) a b.
Proof.
  intros Hr Hab Hx Hy Hxb Hyb Hc (B & HB & Hb)%expand_in. apply reachable_good in Hr as Hg.
  assert (B ∈ queue s) as HBq by (apply elem_of_app; by left).
  assert (B ∈ h_handled s) as HBh by (destruct (gd_steady _ Hg) as (? & Hi); by apply (iv_queue Hi) in HBq as [? _]).
  destruct (holders_ordered s Hg a b x y B) as (A & HA & Ha & [[-> Hone]|(links & Hinv & Ho)]); try done.
  - by eapply expand_before_one.
  - eapply expand_before; [done|done|]. apply ahead_before; [|done].
    eapply ahead_app_inv; [done|]. destruct Ho as [[? _]|?]; [done|by eapply (links_trans_ahead Hinv)].
Qed.

(** When no instruction is dispatched early across streams, conflicting
    instructions also finish in program order. *)
Theorem conflicts_finish_in_order s a b x y :
  reachable s → strict s → before (program s) a b → instrs s !! a = Some x → instrs s !! b = Some y →
  IsBarrier x = false → IsBarrier y = false → conflict x y →
  b ∈ finish_order s → before (finish_order s) a b.
Proof.
  intros Hr Hs Hab Hx Hy Hxb Hyb Hc (B & HB & Hb)%expand_in. apply reachable_good in Hr as Hg.
  assert (B ∈ h_handled s) as HBh by (destruct (gd_steady _ Hg) as (? & Hi); by apply (iv_finished Hi) in HB as [? _]).
  destruct (holders_ordered s Hg a b x y B) as (A & HA & Ha & [[-> Hone]|(links & Hinv & Ho)]); try done.
  - by eapply expand_before_one.
  - eapply expand_before; [done|done|]. apply ahead_before; [|done].
    destruct Ho as [[_ ?]|?]; [by auto|by eapply (links_trans_finished Hinv)].
Qed.

(** C28 As long as no instruction may be prescheduled across streams (only the
    StreamWait instructions may), when an instruction is dispatched, every earlier
    instruction it conflicts with is finished, is a member of the same fused instruction or runs on the
    same stream (where the device executes in order). *)
Theorem conflicts_finished_or_same_stream s a b x y B :
  reachable s → strict s → before (program s) a b → instrs s !! a = Some x → instrs s !! b = Some y →
  IsBarrier x = false → IsBarrier y = false → conflict x y →
  B ∈ h_dispatched s → b ∈ expand_one (instrs s) B →
  ∃ A, a ∈ expand_one (instrs s) A ∧ (A = B ∨ A ∈ h_finished s ∨ stream_of s A = stream_of s B).
Proof.
  intros Hr Hs Hab Hx Hy Hxb Hyb Hc HB Hb. apply reachable_good in Hr as Hg.
  assert (B ∈ queue s) as HBq by (apply elem_of_app; by left).
  assert (B ∈ h_handled s) as HBh by (destruct (gd_steady _ Hg) as (? & Hi); by apply (iv_queue Hi) in HBq as [? _]).
  destruct (holders_ordered s Hg a b x y B) as (A & HA & Ha & [[-> _]|(links & Hinv & Ho)]); try done; [eauto|].
  exists A. split; [done|]. right. destruct Ho as [[_ Hf]|Ht]; [left; eapply ahead_in; by apply Hf|].
  clear -Hinv Hs HBq Ht. apply clos_trans_tn1 in Ht. induction Ht as [B Hl|C B Hl Ht IH].
  - by destruct (iv_strict_ahead Hinv A B Hs Hl HBq) as [[]%not_elem_of_nil|?].
  - assert (C ∈ queue s) as HC by (eapply ahead_in; by apply (iv_links_ahead Hinv)).
    destruct (iv_strict_ahead Hinv C B Hs Hl HBq) as [[]%not_elem_of_nil|[HCf|<-]]; [left|by apply IH].
    apply clos_tn1_trans in Ht. by eapply ahead_in, (links_trans_finished Hinv Hs Ht).
Qed.

(** C29 A barrier runs after everything that was handled before it is finished. *)
Theorem barrier_runs_last s a b :
  reachable s → before (h_handled s) a b → barrier_of s b = true → b ∈ h_finished s →
  before (h_finished s) a b.
Proof.
  intros Hr Hab Hb Hf. destruct (gd_steady _ (reachable_good _ Hr)) as (links & Hinv).
  apply ahead_before; [|done]. by apply (iv_barrier Hinv).
Qed.

(** C8 Nothing waits for ever on a dependence: when all that was dispatched is
    finished and nothing is ready, the oldest instruction alive is the barrier
    that runs next. *)
Theorem no_deadlock s i rest :
  reachable s → (∀ j, j ∈ h_dispatched s → j ∈ h_finished s) → ready s = [] → lively s = i :: rest →
  barrier_of s i = true ∧ head (barriers s) = Some i.
Proof.
  intros Hr Hd Hrd Hl. destruct (gd_steady _ (reachable_good _ Hr)) as (links & Hinv).
  pose proof (iv_lively Hinv) as El. rewrite Hl in El. symmetry in El.
  assert (i ∈ i :: rest) as Hi by left. rewrite <- El in Hi. apply list_elem_of_filter in Hi as [Hif Hi].
  pose proof (iv_tmp Hinv) as Et. cbn in Et.
  assert (barrier_of s i = true) as Hb.
  { destruct (barrier_of s i) eqn:Eb; [done|exfalso].
    assert (plain s i) as Hp.
    { destruct (lookup_lt_is_Some_2 (instrs s) i) as [x Hx]; [by eapply inv_handled_lt|].
      exists x. unfold barrier_of in Eb. by rewrite Hx in Eb. }
    assert (i ∉ queue s) as Hq by (unfold queue; rewrite Et, Hrd, !app_nil_r; intros ?%Hd; done).
    destruct (iv_wait Hinv i Hi Hp Hq) as [[]%not_elem_of_nil|(a & Ha & _)].
    destruct (iv_edges_known Hinv a i Ha) as (Hbef & _ & _ & Haf).
    eapply (filter_head _ _ _ _ a El); [|done]. apply before_ahead; [by eapply inv_handled_nodup|done]. }
  split; [done|]. rewrite (iv_barriers Hinv).
  rewrite <- (list_filter_filter (λ j, barrier_of s j = true) (λ j, j ∉ h_finished s)), El.
  by rewrite filter_cons_True.
Qed.

(** C30 A step of the scheduler never fails as long as instructions can be prepared
    and barriers are on the scheduler thread, and fusing keeps the program order. *)
Theorem Schedule_total s w :
  reachable s → able w s → ∃ s', Schedule w s = Ret s' ∧ program s' = program s.
Proof.
  intros Hr Ha. pose proof (Schedule_good w s (reachable_good _ Hr)) as H. unfold schedule_result in H.
  destruct (Schedule w s) as [s'| |]; [|done|done]. exists s'. by destruct H.
Qed.

(** ** A program of four instructions *)

Definition run (n : nat) (w : world) (s : engine) : engine :=
  match ofold (λ s _, Schedule w s) (seq 0 n) s with Ret s' => s' | _ => s end.

Lemma run_reachable n w s : reachable s → reachable (run n w s).
Proof.
  intros Hr. unfold run. destruct (ofold _ _ s) as [s'| |] eqn:E; [|done|done].
  revert s Hr E. induction (seq 0 n) as [|k l IH]; intros s Hr; cbn [ofold]; [by intros [= ->]|].
  intros (s1 & H1 & H2)%obind_Ret. apply (IH s1); [|done]. eapply rtc_r; [exact Hr|by eapply step_schedule].
Qed.

Lemma strict_forall s : Forall (λ x, Prescheduleable x = same_stream) (instrs s) → strict s.
Proof.
  intros H i x a b Hx Hp. rewrite Forall_forall in H. rewrite (H x) in Hp by (by eapply list_elem_of_lookup_2).
  by apply Nat.eqb_eq in Hp.
Qed.

(** Two instructions of stream 0 that are fused, a reader of what the first one
    writes on stream 1, a barrier. *)
Definition demo_client : list Instr :=
  [ mkInstr 0 (Some 0%nat) [10%nat] [] false kEnableInstructionFuseAtAnyPosition same_stream [];
    mkInstr 0 (Some 0%nat) [11%nat] [10%nat] false kEnableInstructionFuseAtAnyPosition same_stream [];
    mkInstr 1 (Some 1%nat) [12%nat] [10%nat] false kDisableInstructionFuse same_stream [];
    mkInstr 1 None [] [] true kDisableInstructionFuse same_stream [] ].
Definition demo_world : world := mkWorld (λ _, true) (λ _, true) (λ _, true) 10.
Definition demo (n : nat) : engine := run n demo_world (Receive new_engine demo_client).2.

Lemma demo_reachable n : reachable (demo n).
Proof.
  apply run_reachable. eapply rtc_l; [apply (step_receive new_engine demo_client)|apply rtc_refl].
  apply Forall_forall. unfold demo_client. repeat constructor.
Qed.

Lemma demo_strict n : (n < 5)%nat → strict (demo n).
Proof.
  intros Hn. apply strict_forall. do 5 (destruct n as [|n]; [vm_compute; repeat constructor|]). lia.
Qed.

Lemma conflicts_dispatched_in_order_witness :
  dispatch_order (demo 3) = [0; 1; 2]%nat ∧ before (dispatch_order (demo 3)) 0 2.
Proof.
  split; [vm_compute; reflexivity|].
  eapply (conflicts_dispatched_in_order (demo 3) 0 2).
  - apply demo_reachable.
  - exists 0%nat, 2%nat. vm_compute. auto.
  - vm_compute. reflexivity.
  - vm_compute. reflexivity.
  - reflexivity.
  - reflexivity.
  - exists 10%nat. vm_compute. split_and!; [right; left|right; right; left|left; right; left].
  - apply (bool_decide_unpack _). vm_compute. exact I.
Defined.

Lemma conflicts_finish_in_order_witness :
  finish_order (demo 3) = [0; 1; 2; 3]%nat ∧ before (finish_order (demo 3)) 0 2.
Proof.
  split; [vm_compute; reflexivity|].
  eapply (conflicts_finish_in_order (demo 3) 0 2).
  - apply demo_reachable.
  - apply demo_strict. lia.
  - exists 0%nat, 2%nat. vm_compute. auto.
  - vm_compute. reflexivity.
  - vm_compute. reflexivity.
  - reflexivity.
  - reflexivity.
  - exists 10%nat. vm_compute. split_and!; [right; left|right; right; left|left; right; left].
  - apply (bool_decide_unpack _). vm_compute. exact I.
Defined.

Lemma conflicts_finished_or_same_stream_witness :
  ∃ A, 0%nat ∈ expand_one (instrs (demo 2)) A ∧
       (A = 2%nat ∨ A ∈ h_finished (demo 2) ∨ stream_of (demo 2) A = stream_of (demo 2) 2).
Proof.
  eapply (conflicts_finished_or_same_stream (demo 2) 0 2).
  - apply demo_reachable.
  - apply demo_strict. lia.
  - exists 0%nat, 2%nat. vm_compute. auto.
  - vm_compute. reflexivity.
  - vm_compute. reflexivity.
  - reflexivity.
  - reflexivity.
  - exists 10%nat. vm_compute. split_and!; [right; left|right; right; left|left; right; left].
  - apply (bool_decide_unpack _). vm_compute. exact I.
  - apply (bool_decide_unpack _). vm_compute. exact I.
Defined.

Lemma barrier_runs_last_witness :
  h_finished (demo 3) = [4; 2; 3]%nat ∧ before (h_finished (demo 3)) 2 3.
Proof.
  split; [vm_compute; reflexivity|]. apply barrier_runs_last.
  - apply demo_reachable.
  - exists 1%nat, 2%nat. vm_compute. auto.
  - vm_compute. reflexivity.
  - apply (bool_decide_unpack _). vm_compute. exact I.
Defined.

(** A lone barrier on an idle engine. *)
Definition demo_barrier : engine :=
  run 1 demo_world (Receive new_engine [mkInstr 1 None [] [] true kDisableInstructionFuse same_stream []]).2.

Lemma no_deadlock_witness : barrier_of demo_barrier 0 = true ∧ head (barriers demo_barrier) = Some 0%nat.
Proof.
  apply (no_deadlock demo_barrier 0 []).
  - apply run_reachable. eapply rtc_l; [|apply rtc_refl]. apply step_receive.
    intros x ->%list_elem_of_singleton. reflexivity.
  - intros j Hj. vm_compute in Hj. by apply not_elem_of_nil in Hj.
  - vm_compute. reflexivity.
  - vm_compute. reflexivity.
Defined.

Lemma Schedule_total_witness : ∃ s', Schedule demo_world (demo 1) = Ret s' ∧ program s' = program (demo 1).
Proof.
  apply Schedule_total; [apply demo_reachable|]. split; [reflexivity|]. intros. reflexivity.
Defined.
