(* ===== verification/RegstSlot.v ===== *)
(** * Register slots

    [core/lazy/actor/register_slot.{h,cpp}]: the registers an actor can read or
    write, one queue per register descriptor, with a count of the descriptors
    whose queue is not empty.  A register is the number of its object.  The hash
    map is a finite map; its iteration order is the one of [map_to_list]. *)
From S2P Require Import Prelude.

(** ** Data and operations *)

Record RegstSlot := mkSlot {
  regst_desc_id2regsts : gmap Z (list nat);
  available_regst_desc_cnt : Z;
  is_inited : bool;
}.

Definition new_RegstSlot : RegstSlot := mkSlot ∅ 0 false.

Definition total_regst_desc_cnt (rs : RegstSlot) : Z := Z.of_nat (size (regst_desc_id2regsts rs)).
Definition IsCurSlotReady (rs : RegstSlot) : bool :=
  Z.eqb (available_regst_desc_cnt rs) (total_regst_desc_cnt rs).

Definition GetReadyRegstSize (rs : RegstSlot) (id : Z) : outcome Z :=
  let* _ := CHECK (is_inited rs) in
  Ret (match regst_desc_id2regsts rs !! id with None => -1 | Some q => Z.of_nat (length q) end).

Definition HasRegstDescId (rs : RegstSlot) (id : Z) : outcome bool :=
  let* _ := CHECK (is_inited rs) in
  Ret (bool_decide (is_Some (regst_desc_id2regsts rs !! id))).

Definition RegstDeq4RegstDescId (rs : RegstSlot) (id : Z) : outcome (list nat) :=
  let* _ := CHECK (is_inited rs) in
  match regst_desc_id2regsts rs !! id with Some q => Ret q | None => Crash end.

(** 0: success, -1: cannot find [id]. *)
Definition TryPushBackRegst (rs : RegstSlot) (r : nat) (id : Z) : outcome (Z * RegstSlot) :=
  let* _ := CHECK (is_inited rs) in
  match regst_desc_id2regsts rs !! id with
  | None => Ret (-1, rs)
  | Some q =>
      let cnt := if bool_decide (q = []) then available_regst_desc_cnt rs + 1
                 else available_regst_desc_cnt rs in
      Ret (0, mkSlot (<[id := q ++ [r]]> (regst_desc_id2regsts rs)) cnt (is_inited rs))
  end.

Definition TryPopFrontRegst (rs : RegstSlot) (id : Z) : outcome (Z * RegstSlot) :=
  let* _ := CHECK (is_inited rs) in
  match regst_desc_id2regsts rs !! id with
  | None => Ret (-1, rs)
  | Some [] => Crash
  | Some (_ :: q) =>
      let cnt := if bool_decide (q = []) then available_regst_desc_cnt rs - 1
                 else available_regst_desc_cnt rs in
      Ret (0, mkSlot (<[id := q]> (regst_desc_id2regsts rs)) cnt (is_inited rs))
  end.

Definition pop_checked (rs : RegstSlot) (id : Z) : outcome RegstSlot :=
  let* (rc, rs) := TryPopFrontRegst rs id in
  let* _ := CHECK (Z.eqb 0 rc) in
  Ret rs.

Definition PopFrontRegsts (rs : RegstSlot) (ids : list Z) : outcome RegstSlot :=
  let* _ := CHECK (is_inited rs) in
  ofold pop_checked ids rs.

Definition InsertRegstDescId (rs : RegstSlot) (id : Z) : outcome RegstSlot :=
  let* _ := CHECK (negb (is_inited rs)) in
  let* _ := CHECK (bool_decide (regst_desc_id2regsts rs !! id = None)) in
  Ret (mkSlot (<[id := []]> (regst_desc_id2regsts rs)) (available_regst_desc_cnt rs) (is_inited rs)).

Definition Front (rs : RegstSlot) (id : Z) : outcome (option nat) :=
  let* _ := CHECK (is_inited rs) in
  Ret (match regst_desc_id2regsts rs !! id with Some q => head q | None => None end).

Definition SoleFront (rs : RegstSlot) : outcome (option nat) :=
  let* _ := CHECK (is_inited rs) in
  let* _ := CHECK (Z.eqb 1 (total_regst_desc_cnt rs)) in
  Ret (match map_to_list (regst_desc_id2regsts rs) with (_, q) :: _ => head q | [] => None end).

Definition FirstFront (rs : RegstSlot) : outcome (option nat) :=
  let* _ := CHECK (is_inited rs) in
  let* _ := CHECK (Z.leb 1 (total_regst_desc_cnt rs)) in
  Ret (match map_to_list (regst_desc_id2regsts rs) with (_, q) :: _ => head q | [] => None end).

Definition InitedDone (rs : RegstSlot) : outcome RegstSlot :=
  let* _ := CHECK (negb (is_inited rs)) in
  Ret (mkSlot (regst_desc_id2regsts rs) (available_regst_desc_cnt rs) true).

(** The handlers pass a state along. *)
Definition ForChosenFrontRegst {A : Type} (rs : RegstSlot) (chosen : Z → bool)
    (handler : A → Z → nat → outcome A) (a : A) : outcome A :=
  ofold (λ a '(id, q),
    if chosen id then match q with r :: _ => handler a id r | [] => Crash end else Ret a)
    (map_to_list (regst_desc_id2regsts rs)) a.

Definition ForChosenRegstDeq {A : Type} (rs : RegstSlot) (chosen : Z → bool)
    (handler : A → Z → list nat → outcome A) (a : A) : outcome A :=
  ofold (λ a '(id, q), if chosen id then handler a id q else Ret a)
    (map_to_list (regst_desc_id2regsts rs)) a.

Definition ForEachFrontRegst {A : Type} (rs : RegstSlot) (handler : A → Z → nat → outcome A) (a : A) : outcome A :=
  ForChosenFrontRegst rs (λ _, true) handler a.

Definition ForEachRegstDeq {A : Type} (rs : RegstSlot) (handler : A → Z → list nat → outcome A) (a : A) : outcome A :=
  ForChosenRegstDeq rs (λ _, true) handler a.

(** ** The invariant: the count is right *)

Definition nonempty (kv : Z * list nat) : Prop := kv.2 ≠ [].
#[export] Instance nonempty_dec kv : Decision (nonempty kv).
Proof. unfold nonempty. apply _. Defined.

Definition filled (m : gmap Z (list nat)) : gmap Z (list nat) := filter nonempty m.

Definition slot_ok (rs : RegstSlot) : Prop :=
  is_inited rs = true ∧ available_regst_desc_cnt rs = Z.of_nat (size (filled (regst_desc_id2regsts rs))).

Lemma filled_insert_nonempty m id q : q ≠ [] → filled (<[id := q]> m) = <[id := q]> (filled m).
Proof. intros Hq. unfold filled. by rewrite map_filter_insert_True. Qed.

Lemma filled_insert_empty m id : filled (<[id := []]> m) = delete id (filled m).
Proof. unfold filled. rewrite map_filter_insert_False by (intros H; by apply H). by rewrite map_filter_delete. Qed.

Lemma filled_lookup m id q : filled m !! id = Some q ↔ m !! id = Some q ∧ q ≠ [].
Proof. unfold filled. by rewrite map_lookup_filter_Some. Qed.

Lemma filled_lookup_None m id q : m !! id = Some q → q = [] → filled m !! id = None.
Proof. intros H ->. apply eq_None_not_Some. intros [q [H1 H2]%filled_lookup]. simplify_eq. Qed.

(** The slot is ready exactly when every descriptor has a register. *)
Lemma IsCurSlotReady_spec rs :
  slot_ok rs → IsCurSlotReady rs = true ↔ ∀ id q, regst_desc_id2regsts rs !! id = Some q → q ≠ [].
Proof.
  intros [_ Hc]. unfold IsCurSlotReady, total_regst_desc_cnt. rewrite Z.eqb_eq, Hc, Nat2Z.inj_iff. split.
  - intros Hs id q Hq ->.
    assert (filled (regst_desc_id2regsts rs) ⊂ regst_desc_id2regsts rs) as Hsub%map_subset_size; [|lia].
    split; [apply map_filter_subseteq|]. intros Hincl.
    apply (lookup_weaken _ _ _ _ Hq), filled_lookup in Hincl as [_ ?]. done.
  - intros H. unfold filled. f_equal. apply map_filter_id. intros id q Hq. by apply (H id q).
Qed.

(** ** What the operations do *)

Lemma push_spec rs r id q :
  slot_ok rs → regst_desc_id2regsts rs !! id = Some q →
  ∃ rs', TryPushBackRegst rs r id = Ret (0, rs') ∧ slot_ok rs' ∧
    regst_desc_id2regsts rs' = <[id := q ++ [r]]> (regst_desc_id2regsts rs).
Proof.
  intros [Hi Hc] Hq. unfold TryPushBackRegst. rewrite Hi, Hq. cbn [CHECK obind].
  eexists. split_and!; [done| |done]. split; [done|]. cbn [available_regst_desc_cnt regst_desc_id2regsts].
  rewrite filled_insert_nonempty by (by destruct q). case_bool_decide as Hn.
  - rewrite map_size_insert_None by (by eapply filled_lookup_None). lia.
  - rewrite map_size_insert_Some; [done|]. exists q. by apply filled_lookup.
Qed.

Lemma push_absent rs r id :
  slot_ok rs → regst_desc_id2regsts rs !! id = None → TryPushBackRegst rs r id = Ret (-1, rs).
Proof. intros [Hi _] Hq. unfold TryPushBackRegst. by rewrite Hi, Hq. Qed.

Lemma pop_spec rs id r q :
  slot_ok rs → regst_desc_id2regsts rs !! id = Some (r :: q) →
  ∃ rs', TryPopFrontRegst rs id = Ret (0, rs') ∧ slot_ok rs' ∧
    regst_desc_id2regsts rs' = <[id := q]> (regst_desc_id2regsts rs).
Proof.
  intros [Hi Hc] Hq. unfold TryPopFrontRegst. rewrite Hi, Hq. cbn [CHECK obind].
  eexists. split_and!; [done| |done]. split; [done|]. cbn [available_regst_desc_cnt regst_desc_id2regsts].
  assert (is_Some (filled (regst_desc_id2regsts rs) !! id)) as Hs by (exists (r :: q); by apply filled_lookup).
  case_bool_decide as Hn.
  - subst q. rewrite filled_insert_empty, map_size_delete_Some by done.
    assert (size (filled (regst_desc_id2regsts rs)) ≠ 0%nat); [|lia].
    rewrite map_size_non_empty_iff. intros He. rewrite He in Hs. by destruct Hs.
  - by rewrite filled_insert_nonempty, map_size_insert_Some.
Qed.

Lemma pop_absent rs id :
  slot_ok rs → regst_desc_id2regsts rs !! id = None → TryPopFrontRegst rs id = Ret (-1, rs).
Proof. intros [Hi _] Hq. unfold TryPopFrontRegst. by rewrite Hi, Hq. Qed.

(** The map after popping the front of every queue in [ids]. *)
Definition pop_all (m : gmap Z (list nat)) (ids : list Z) : gmap Z (list nat) :=
  map_imap (λ id q, Some (if bool_decide (id ∈ ids) then tail q else q)) m.

Lemma pop_all_lookup m ids id :
  pop_all m ids !! id = (λ q, if bool_decide (id ∈ ids) then tail q else q) <$> (m !! id).
Proof. unfold pop_all. rewrite map_lookup_imap. by destruct (m !! id). Qed.

Lemma PopFrontRegsts_spec rs ids :
  slot_ok rs → NoDup ids → (∀ id, id ∈ ids → ∃ r q, regst_desc_id2regsts rs !! id = Some (r :: q)) →
  ∃ rs', PopFrontRegsts rs ids = Ret rs' ∧ slot_ok rs' ∧
    regst_desc_id2regsts rs' = pop_all (regst_desc_id2regsts rs) ids.
Proof.
  intros Hok Hnd Hids. assert (is_inited rs = true) as Hi by apply Hok. unfold PopFrontRegsts. rewrite Hi. cbn [CHECK obind].
  clear Hi. revert rs Hok Hids. induction Hnd as [|id ids Hid Hnd IH]; intros rs Hok Hids; cbn [ofold].
  - exists rs. split_and!; [done|done|]. apply map_eq. intros id. rewrite pop_all_lookup.
    rewrite bool_decide_false by apply not_elem_of_nil. by destruct (_ !! id).
  - destruct (Hids id) as (r & q & Hq); [left|]. destruct (pop_spec rs id r q Hok Hq) as (rs1 & E1 & Hok1 & Em1).
    unfold pop_checked at 1. rewrite E1. cbn [obind CHECK Z.eqb].
    destruct (IH rs1 Hok1) as (rs' & E' & Hok' & Em').
    { intros id' Hin. destruct (Hids id') as (r' & q' & Hq'); [by right|]. exists r', q'.
      rewrite Em1, lookup_insert_ne; [done|]. by intros ->. }
    exists rs'. split_and!; [done|done|]. rewrite Em', Em1. apply map_eq. intros id'.
    rewrite !pop_all_lookup. destruct (decide (id = id')) as [<-|Hne].
    + rewrite lookup_insert_eq, Hq. cbn. rewrite bool_decide_false by done. by rewrite bool_decide_true by left.
    + rewrite lookup_insert_ne by done. destruct (_ !! id') as [q'|]; [|done]. cbn. f_equal.
      repeat case_bool_decide; set_solver.
Qed.

Lemma InsertRegstDescId_spec rs id :
  is_inited rs = false → regst_desc_id2regsts rs !! id = None →
  InsertRegstDescId rs id =
    Ret (mkSlot (<[id := []]> (regst_desc_id2regsts rs)) (available_regst_desc_cnt rs) false).
Proof. intros Hi Hq. unfold InsertRegstDescId. rewrite Hi, bool_decide_true by done. done. Qed.

(** Iterating over the fronts of the chosen queues, when they are not empty: [P]
    relates the descriptors seen so far to the state. *)
Section iterate.
Context {A : Type} (m : gmap Z (list nat)) (chosen : Z → bool) (P : list Z → A → Prop).

Lemma ofold_map_ind (f : A → Z * list nat → outcome A) (l : list (Z * list nat)) : ∀ ids a,
  NoDup (ids ++ l.*1) → (∀ kv, kv ∈ l → m !! kv.1 = Some kv.2) → P ids a →
  (∀ ids a id q, m !! id = Some q → id ∉ ids → P ids a → ∃ a', f a (id, q) = Ret a' ∧ P (ids ++ [id]) a') →
  ∃ a', ofold f l a = Ret a' ∧ P (ids ++ l.*1) a'.
Proof.
  induction l as [|[id q] l IH]; intros ids a Hnd Hl HP Hf; cbn [ofold].
  { exists a. by rewrite app_nil_r. }
  assert (m !! id = Some q) as Hq by (apply (Hl (id, q)); left).
  assert (id ∉ ids) as Hid.
  { intros Hin. apply NoDup_app in Hnd as (_ & Hd & _). apply (Hd id Hin). left. }
  destruct (Hf ids a id q Hq Hid HP) as (a1 & -> & HP1). cbn [obind].
  destruct (IH (ids ++ [id]) a1) as (a' & E & HP'); [by rewrite <- app_assoc| |done|done|].
  { intros kv ?. apply Hl. by right. }
  exists a'. split; [done|]. by rewrite <- app_assoc in HP'.
Qed.

Lemma ofold_map_to_list (f : A → Z * list nat → outcome A) a :
  P [] a →
  (∀ ids a id q, m !! id = Some q → id ∉ ids → P ids a → ∃ a', f a (id, q) = Ret a' ∧ P (ids ++ [id]) a') →
  ∃ a' ids, ofold f (map_to_list m) a = Ret a' ∧ P ids a' ∧ NoDup ids ∧ ∀ id, id ∈ ids ↔ is_Some (m !! id).
Proof.
  intros H0 Hf. destruct (ofold_map_ind f (map_to_list m) [] a) as (a' & E & HP); [|..|done|done|].
  - apply NoDup_fst_map_to_list.
  - intros [id q]. apply elem_of_map_to_list.
  - exists a', ((map_to_list m).*1). split_and!; [done|done|apply NoDup_fst_map_to_list|].
    intros id. rewrite list_elem_of_fmap. split.
    + intros ([id' q] & -> & H%elem_of_map_to_list). by exists q.
    + intros [q Hq]. exists (id, q). split; [done|]. by apply elem_of_map_to_list.
Qed.
End iterate.

Lemma ForChosenFront_ind {A : Type} rs chosen (handler : A → Z → nat → outcome A) (P : list Z → A → Prop) a :
  (∀ id, chosen id = true → regst_desc_id2regsts rs !! id ≠ Some []) →
  P [] a →
  (∀ ids a id, chosen id = false → P ids a → P (ids ++ [id]) a) →
  (∀ ids a id r q, regst_desc_id2regsts rs !! id = Some (r :: q) → chosen id = true → id ∉ ids → P ids a →
     ∃ a', handler a id r = Ret a' ∧ P (ids ++ [id]) a') →
  ∃ a' ids, ForChosenFrontRegst rs chosen handler a = Ret a' ∧ P ids a' ∧ NoDup ids ∧
    ∀ id, id ∈ ids ↔ is_Some (regst_desc_id2regsts rs !! id).
Proof.
  intros Hne H0 Hskip Hstep. apply ofold_map_to_list; [done|]. intros ids b id q Hq Hid HP.
  destruct (chosen id) eqn:Hc; [|by eauto]. destruct q as [|r q]; [by apply Hne in Hq|]. by eapply Hstep.
Qed.
