(* ===== verification/Actor.v ===== *)
(** * Actors of the lazy runtime

    [core/lazy/actor/actor.{h,cpp}] with the overrides of [NaiveActor]
    ([naive_actor.cpp]): an actor owns the registers it produces, receives
    registers to read as messages, acts when every slot it reads and writes is
    ready, hands the produced registers to their consumers and gives the consumed
    ones back.  Registers and their descriptors ([Regst], [RegstMgr]) are fixed by
    the plan and are the record [Plan]; a kernel launch is an event of the trace.
    Debug logging is not modelled. *)
From Stdlib Require Import String.
From S2P Require Import Prelude RegstSlot.
#[local] Open Scope Z_scope.

(** ** The plan and the messages *)

Inductive RegstAllocationType := kInvalid | kStatic | kStreamOrdered.

#[export] Instance RegstAllocationType_eq_dec : EqDecision RegstAllocationType.
Proof. solve_decision. Defined.

(** What a register knows of its descriptor, the threads of the actors and the
    producers of control registers. *)
Record Plan := mkPlan {
  regst_desc_id : nat → Z;
  producer_actor_id : nat → Z;
  consumers_actor_id : nat → list Z;
  has_data_regst_desc : nat → bool;
  has_ctrl_regst_desc : nat → bool;
  allocation_type : nat → RegstAllocationType;
  ThrdId4ActorId : Z → Z;
  ProducerTaskId4RegstDescId : Z → option Z;
  Rank : Z;
}.

Inductive ActorCmd := kStart | kStopThread | kConstructActor.

Inductive ActorMsg :=
| kRegstMsg (src_machine_id : Z) (regst : nat) (desc_id : Z)
| kEordMsg (eord_regst_desc_id : Z)
| kCmdMsg (cmd : ActorCmd).

(** Messages sent: [BuildRegstMsgToConsumer] and [BuildRegstMsgToProducer]. *)
Inductive OutMsg :=
| ToConsumer (consumer : Z) (regst : nat)
| ToProducer (producer : Z) (regst : nat).

Definition dst_actor_id (m : OutMsg) : Z :=
  match m with ToConsumer c _ => c | ToProducer p _ => p end.

(** What the actor does to the outside: messages at once, messages and end marks
    by a callback, memory of the stream, and a kernel launch with what it reads
    and writes. *)
Inductive event :=
| SendMsgs (ms : list OutMsg)
| CallbackMsgs (ms : list OutMsg)
| CallbackEord (consumers : list Z) (desc_id : Z)
| AllocAsync (regst : nat) (ptr : Z)
| FreeAsync (ptr : option Z)
| Launch (reads writes : gmap Z (list nat)).

Inductive MsgHandler := HandlerNormal_ | HandlerZombie_.

Record actor := mkActor {
  handler : option MsgHandler;
  eord_regst_desc_ids : gset Z;
  remaining_eord_cnt : Z;
  reading_cnt : gmap nat Z;
  total_reading_cnt : Z;
  naive_produced_rs : RegstSlot;
  naive_consumed_rs : RegstSlot;
  inplace_consumed_rs : RegstSlot;
  inplace_produced_rs : RegstSlot;
  is_naive_consumed_eord : bool;
  is_inplace_consumed_eord : bool;
  async_msg_queue : list OutMsg;
  sync_msg_queue : list OutMsg;
  body : gmap nat Z;
  trace : list event;
}.

Definition set_handler (v : option MsgHandler) (a : actor) : actor :=
  mkActor v (eord_regst_desc_ids a) (remaining_eord_cnt a) (reading_cnt a)
          (total_reading_cnt a) (naive_produced_rs a) (naive_consumed_rs a)
          (inplace_consumed_rs a) (inplace_produced_rs a) (is_naive_consumed_eord a)
          (is_inplace_consumed_eord a) (async_msg_queue a) (sync_msg_queue a) (body a)
          (trace a).
Definition set_eord_regst_desc_ids (v : gset Z) (a : actor) : actor :=
  mkActor (handler a) v (remaining_eord_cnt a) (reading_cnt a) (total_reading_cnt a)
          (naive_produced_rs a) (naive_consumed_rs a) (inplace_consumed_rs a)
          (inplace_produced_rs a) (is_naive_consumed_eord a) (is_inplace_consumed_eord a)
          (async_msg_queue a) (sync_msg_queue a) (body a) (trace a).
Definition set_remaining_eord_cnt (v : Z) (a : actor) : actor :=
  mkActor (handler a) (eord_regst_desc_ids a) v (reading_cnt a) (total_reading_cnt a)
          (naive_produced_rs a) (naive_consumed_rs a) (inplace_consumed_rs a)
          (inplace_produced_rs a) (is_naive_consumed_eord a) (is_inplace_consumed_eord a)
          (async_msg_queue a) (sync_msg_queue a) (body a) (trace a).
Definition set_reading_cnt (v : gmap nat Z) (a : actor) : actor :=
  mkActor (handler a) (eord_regst_desc_ids a) (remaining_eord_cnt a) v (total_reading_cnt a)
          (naive_produced_rs a) (naive_consumed_rs a) (inplace_consumed_rs a)
          (inplace_produced_rs a) (is_naive_consumed_eord a) (is_inplace_consumed_eord a)
          (async_msg_queue a) (sync_msg_queue a) (body a) (trace a).
Definition set_total_reading_cnt (v : Z) (a : actor) : actor :=
  mkActor (handler a) (eord_regst_desc_ids a) (remaining_eord_cnt a) (reading_cnt a) v
          (naive_produced_rs a) (naive_consumed_rs a) (inplace_consumed_rs a)
          (inplace_produced_rs a) (is_naive_consumed_eord a) (is_inplace_consumed_eord a)
          (async_msg_queue a) (sync_msg_queue a) (body a) (trace a).
Definition set_naive_produced_rs (v : RegstSlot) (a : actor) : actor :=
  mkActor (handler a) (eord_regst_desc_ids a) (remaining_eord_cnt a) (reading_cnt a)
          (total_reading_cnt a) v (naive_consumed_rs a) (inplace_consumed_rs a)
          (inplace_produced_rs a) (is_naive_consumed_eord a) (is_inplace_consumed_eord a)
          (async_msg_queue a) (sync_msg_queue a) (body a) (trace a).
Definition set_naive_consumed_rs (v : RegstSlot) (a : actor) : actor :=
  mkActor (handler a) (eord_regst_desc_ids a) (remaining_eord_cnt a) (reading_cnt a)
          (total_reading_cnt a) (naive_produced_rs a) v (inplace_consumed_rs a)
          (inplace_produced_rs a) (is_naive_consumed_eord a) (is_inplace_consumed_eord a)
          (async_msg_queue a) (sync_msg_queue a) (body a) (trace a).
Definition set_inplace_consumed_rs (v : RegstSlot) (a : actor) : actor :=
  mkActor (handler a) (eord_regst_desc_ids a) (remaining_eord_cnt a) (reading_cnt a)
          (total_reading_cnt a) (naive_produced_rs a) (naive_consumed_rs a) v
          (inplace_produced_rs a) (is_naive_consumed_eord a) (is_inplace_consumed_eord a)
          (async_msg_queue a) (sync_msg_queue a) (body a) (trace a).
Definition set_inplace_produced_rs (v : RegstSlot) (a : actor) : actor :=
  mkActor (handler a) (eord_regst_desc_ids a) (remaining_eord_cnt a) (reading_cnt a)
          (total_reading_cnt a) (naive_produced_rs a) (naive_consumed_rs a)
          (inplace_consumed_rs a) v (is_naive_consumed_eord a) (is_inplace_consumed_eord a)
          (async_msg_queue a) (sync_msg_queue a) (body a) (trace a).
Definition set_is_naive_consumed_eord (v : bool) (a : actor) : actor :=
  mkActor (handler a) (eord_regst_desc_ids a) (remaining_eord_cnt a) (reading_cnt a)
          (total_reading_cnt a) (naive_produced_rs a) (naive_consumed_rs a)
          (inplace_consumed_rs a) (inplace_produced_rs a) v (is_inplace_consumed_eord a)
          (async_msg_queue a) (sync_msg_queue a) (body a) (trace a).
Definition set_is_inplace_consumed_eord (v : bool) (a : actor) : actor :=
  mkActor (handler a) (eord_regst_desc_ids a) (remaining_eord_cnt a) (reading_cnt a)
          (total_reading_cnt a) (naive_produced_rs a) (naive_consumed_rs a)
          (inplace_consumed_rs a) (inplace_produced_rs a) (is_naive_consumed_eord a) v
          (async_msg_queue a) (sync_msg_queue a) (body a) (trace a).
Definition set_async_msg_queue (v : list OutMsg) (a : actor) : actor :=
  mkActor (handler a) (eord_regst_desc_ids a) (remaining_eord_cnt a) (reading_cnt a)
          (total_reading_cnt a) (naive_produced_rs a) (naive_consumed_rs a)
          (inplace_consumed_rs a) (inplace_produced_rs a) (is_naive_consumed_eord a)
          (is_inplace_consumed_eord a) v (sync_msg_queue a) (body a) (trace a).
Definition set_sync_msg_queue (v : list OutMsg) (a : actor) : actor :=
  mkActor (handler a) (eord_regst_desc_ids a) (remaining_eord_cnt a) (reading_cnt a)
          (total_reading_cnt a) (naive_produced_rs a) (naive_consumed_rs a)
          (inplace_consumed_rs a) (inplace_produced_rs a) (is_naive_consumed_eord a)
          (is_inplace_consumed_eord a) (async_msg_queue a) v (body a) (trace a).
Definition set_body (v : gmap nat Z) (a : actor) : actor :=
  mkActor (handler a) (eord_regst_desc_ids a) (remaining_eord_cnt a) (reading_cnt a)
          (total_reading_cnt a) (naive_produced_rs a) (naive_consumed_rs a)
          (inplace_consumed_rs a) (inplace_produced_rs a) (is_naive_consumed_eord a)
          (is_inplace_consumed_eord a) (async_msg_queue a) (sync_msg_queue a) v (trace a).
Definition set_trace (v : list event) (a : actor) : actor :=
  mkActor (handler a) (eord_regst_desc_ids a) (remaining_eord_cnt a) (reading_cnt a)
          (total_reading_cnt a) (naive_produced_rs a) (naive_consumed_rs a)
          (inplace_consumed_rs a) (inplace_produced_rs a) (is_naive_consumed_eord a)
          (is_inplace_consumed_eord a) (async_msg_queue a) (sync_msg_queue a) (body a) v.

(** The part of an actor that [Init] fixes. *)
Record Conf := mkConf {
  actor_id : Z;
  thrd_id : Z;
  is_kernel_launch_synchronized : bool;
  name2regst_desc_id : gmap string (list Z);
  produced_regsts : gmap Z (list nat);
  produced_ctrl_regst_desc_ids : gset Z;
  consumed_ctrl_regst_desc_ids : gset Z;
  inplace_in_ids_with_no_out_consumed : gset Z;
  inplace_regst_desc_id_in2out : gmap Z Z;
  inplace_regst_desc_id_out2in : gmap Z Z;
}.

Section actor.
Context (P : Plan) (c : Conf).
(** [AllocAsync] of the stream: the address, if there is memory, of the [n]-th
    request. *)
Context (alloc_async : nat → nat → option Z).

(** ** Sending *)

Definition EnqueueAsyncMsg (a : actor) (m : OutMsg) : actor :=
  if is_kernel_launch_synchronized c && Z.eqb (thrd_id c) (ThrdId4ActorId P (dst_actor_id m))
  then set_sync_msg_queue (sync_msg_queue a ++ [m]) a
  else set_async_msg_queue (async_msg_queue a ++ [m]) a.

Definition AsyncSendQueuedMsg (a : actor) : actor :=
  let a := match sync_msg_queue a with
           | [] => a
           | ms => set_sync_msg_queue [] (set_trace (trace a ++ [SendMsgs ms]) a)
           end in
  match async_msg_queue a with
  | [] => a
  | ms => set_async_msg_queue [] (set_trace (trace a ++ [CallbackMsgs ms]) a)
  end.

(** Counts the consumers as readers of [r]; returns their number. *)
Definition HandleRegstToConsumer (a : actor) (r : nat) : outcome (Z * actor) :=
  match reading_cnt a !! r with
  | None => Crash
  | Some cnt =>
      let* _ := CHECK (Z.eqb cnt 0) in
      let n := Z.of_nat (length (consumers_actor_id P r)) in
      let a := foldl (λ a consumer, EnqueueAsyncMsg a (ToConsumer consumer r)) a (consumers_actor_id P r) in
      let a := set_total_reading_cnt (total_reading_cnt a + n) a in
      Ret (n, set_reading_cnt (<[r := cnt + n]> (reading_cnt a)) a)
  end.

(** The result code of the pop is ignored. *)
Definition AsyncSendRegstMsgToProducer (a : actor) (r : nat) : outcome actor :=
  let a := EnqueueAsyncMsg a (ToProducer (producer_actor_id P r) r) in
  let* (_, rs) := TryPopFrontRegst (naive_consumed_rs a) (regst_desc_id P r) in
  Ret (set_naive_consumed_rs rs a).

Definition free_body (a : actor) (r : nat) : outcome actor :=
  match allocation_type P r with
  | kStreamOrdered =>
      Ret (set_body (delete r (body a)) (set_trace (trace a ++ [FreeAsync (body a !! r)]) a))
  | kStatic => Ret a
  | kInvalid => Crash
  end.

Definition forget_body (a : actor) (r : nat) : outcome actor :=
  match allocation_type P r with
  | kStreamOrdered => Ret (set_body (delete r (body a)) a)
  | kStatic => Ret a
  | kInvalid => Crash
  end.

(** ** Acting *)

Definition IsReadReady (a : actor) : bool :=
  IsCurSlotReady (naive_consumed_rs a) && IsCurSlotReady (inplace_consumed_rs a).
Definition IsWriteReady (a : actor) : bool :=
  IsCurSlotReady (naive_produced_rs a) && IsCurSlotReady (inplace_produced_rs a).

Definition IsConsumedCtrlRegstDescId (id : Z) : bool := bool_decide (id ∈ consumed_ctrl_regst_desc_ids c).
Definition IsProducedCtrlRegstDescId (id : Z) : bool := bool_decide (id ∈ produced_ctrl_regst_desc_ids c).

Definition prepare_naive (a : actor) (id : Z) (r : nat) : outcome actor :=
  if has_data_regst_desc P r then
    match allocation_type P r with
    | kStreamOrdered =>
        let* _ := CHECK (bool_decide (body a !! r = None)) in
        match alloc_async (length (trace a)) r with
        | None => Crash
        | Some ptr => Ret (set_body (<[r := ptr]> (body a)) (set_trace (trace a ++ [AllocAsync r ptr]) a))
        end
    | kStatic => Ret a
    | kInvalid => Crash
    end
  else Ret a.

Definition prepare_inplace (a : actor) (id : Z) (r : nat) : outcome actor :=
  let* _ := CHECK (has_data_regst_desc P r) in
  match inplace_regst_desc_id_out2in c !! regst_desc_id P r with
  | None => Crash
  | Some in_id =>
      let* in_regst := Front (inplace_consumed_rs a) in_id in
      match in_regst with
      | None => Crash
      | Some ir =>
          match allocation_type P r with
          | kStreamOrdered =>
              let* _ := CHECK (bool_decide (body a !! r = None)) in
              Ret (set_body (partial_alter (λ _, body a !! ir) r (body a)) a)
          | kStatic => Ret a
          | kInvalid => Crash
          end
      end
  end.

Definition PrepareProducedNaiveInplaceDataRegst (a : actor) : outcome actor :=
  let* a := ForEachFrontRegst (naive_produced_rs a) prepare_naive a in
  ForEachFrontRegst (inplace_produced_rs a) prepare_inplace a.

(** The kernel reads and writes the registers at the fronts. *)
Definition Act (a : actor) : actor :=
  set_trace (trace a ++ [Launch (regst_desc_id2regsts (naive_consumed_rs a) ∪
                                 regst_desc_id2regsts (inplace_consumed_rs a))
                                (regst_desc_id2regsts (naive_produced_rs a) ∪
                                 regst_desc_id2regsts (inplace_produced_rs a))]) a.

Definition produced_data_handler (free : actor → nat → outcome actor)
    (st : actor * list Z) (r : nat) : outcome (actor * list Z) :=
  let '(a, ids) := st in
  let* (n, a) := HandleRegstToConsumer a r in
  if Z.ltb 0 n then Ret (a, ids ++ [regst_desc_id P r])
  else let* a := free a r in Ret (a, ids).

Definition HandleProducedNaiveDataRegstToConsumer (a : actor) : outcome actor :=
  let* (a, ids) := ForEachFrontRegst (naive_produced_rs a)
    (λ st _ r, if has_data_regst_desc P r then produced_data_handler free_body st r else Ret st) (a, []) in
  let* rs := PopFrontRegsts (naive_produced_rs a) ids in
  Ret (set_naive_produced_rs rs a).

Definition AsyncSendProducedCtrlRegstMsgToConsumer (a : actor) : outcome actor :=
  let* (a, ids) := ForChosenFrontRegst (naive_produced_rs a) IsProducedCtrlRegstDescId
    (λ '(a, ids) _ r,
       let* _ := CHECK (has_ctrl_regst_desc P r) in
       let* (n, a) := HandleRegstToConsumer a r in
       Ret (a, if Z.ltb 0 n then ids ++ [regst_desc_id P r] else ids)) (a, []) in
  let* rs := PopFrontRegsts (naive_produced_rs a) ids in
  Ret (set_naive_produced_rs rs a).

Definition AsyncSendNaiveProducedRegstMsgToConsumer (a : actor) : outcome actor :=
  let* a := HandleProducedNaiveDataRegstToConsumer a in
  AsyncSendProducedCtrlRegstMsgToConsumer a.

Definition HandleProducedInplaceDataRegstToConsumer (a : actor) : outcome actor :=
  let* (a, ids) := ForEachFrontRegst (inplace_produced_rs a)
    (λ st _ r, let* _ := CHECK (has_data_regst_desc P r) in produced_data_handler forget_body st r) (a, []) in
  let* rs := PopFrontRegsts (inplace_produced_rs a) ids in
  Ret (set_inplace_produced_rs rs a).

Definition HandleConsumedNaiveDataRegstToProducer (a : actor) : outcome actor :=
  let* (a, ids) := ForEachFrontRegst (naive_consumed_rs a)
    (λ '(a, ids) id r,
       if IsConsumedCtrlRegstDescId id then Ret (a, ids)
       else if has_data_regst_desc P r then
         Ret (EnqueueAsyncMsg a (ToProducer (producer_actor_id P r) r), ids ++ [regst_desc_id P r])
       else Ret (a, ids)) (a, []) in
  let* rs := PopFrontRegsts (naive_consumed_rs a) ids in
  Ret (set_naive_consumed_rs rs a).

Definition AsyncSendConsumedCtrlRegstMsgToProducer (a : actor) : outcome actor :=
  let* (a, ids) := ForChosenRegstDeq (naive_consumed_rs a) IsConsumedCtrlRegstDescId
    (λ '(a, ids) id q,
       match q, ProducerTaskId4RegstDescId P id with
       | r :: _, Some producer => Ret (EnqueueAsyncMsg a (ToProducer producer r), ids ++ [id])
       | _, _ => Crash
       end) (a, []) in
  let* rs := PopFrontRegsts (naive_consumed_rs a) ids in
  Ret (set_naive_consumed_rs rs a).

Definition AsyncSendNaiveConsumedRegstMsgToProducer (a : actor) : outcome actor :=
  let* a := HandleConsumedNaiveDataRegstToProducer a in
  AsyncSendConsumedCtrlRegstMsgToProducer a.

Definition AsyncRetInplaceConsumedRegstIfNoConsumer (a : actor) : outcome actor :=
  let* (a, ids) := ForChosenRegstDeq (inplace_consumed_rs a)
    (λ id, bool_decide (id ∈ inplace_in_ids_with_no_out_consumed c))
    (λ '(a, ids) _ q,
       match q with
       | [] => Ret (a, ids)
       | r :: _ => let* a := AsyncSendRegstMsgToProducer a r in Ret (a, ids ++ [regst_desc_id P r])
       end) (a, []) in
  let* rs := PopFrontRegsts (inplace_consumed_rs a) ids in
  Ret (set_inplace_consumed_rs rs a).

(** One turn of the loop of [ActUntilFail]. *)
Definition act_once (a : actor) : outcome actor :=
  let* a := PrepareProducedNaiveInplaceDataRegst a in
  let a := Act a in
  let* a := AsyncSendNaiveProducedRegstMsgToConsumer a in
  let* a := HandleProducedInplaceDataRegstToConsumer a in
  let* a := AsyncSendNaiveConsumedRegstMsgToProducer a in
  let* a := AsyncRetInplaceConsumedRegstIfNoConsumer a in
  Ret (AsyncSendQueuedMsg a).

Fixpoint act_loop (fuel : nat) (a : actor) : outcome actor :=
  if IsReadReady a && IsWriteReady a then
    match fuel with
    | O => Crash
    | S fuel => let* a := act_once a in act_loop fuel a
    end
  else Ret a.

(** ** Handling messages *)

(** [TryUpdtStateAsProducedRegst]: -1 if [r] is not a register of this actor. *)
Definition TryUpdtStateAsProducedRegst (a : actor) (r : nat) : outcome (Z * actor) :=
  match reading_cnt a !! r with
  | None => Ret (-1, a)
  | Some cnt =>
      let* _ := CHECK (bool_decide (is_Some (produced_regsts c !! regst_desc_id P r))) in
      let* _ := CHECK (Z.leb 1 cnt) in
      let a := set_reading_cnt (<[r := cnt - 1]> (reading_cnt a)) a in
      let a := set_total_reading_cnt (total_reading_cnt a - 1) a in
      if negb (Z.eqb (cnt - 1) 0) then Ret (0, a) else
      let* (rc, rs) := TryPushBackRegst (inplace_produced_rs a) r (regst_desc_id P r) in
      let a := set_inplace_produced_rs rs a in
      if Z.eqb rc 0 then
        match inplace_regst_desc_id_out2in c !! regst_desc_id P r with
        | None => Crash
        | Some in_id =>
            let* in_regst := Front (inplace_consumed_rs a) in_id in
            match in_regst with
            | None => Crash
            | Some ir =>
                let* a := forget_body a r in
                let* a := AsyncSendRegstMsgToProducer a ir in
                let* (rc, rs) := TryPopFrontRegst (inplace_consumed_rs a) in_id in
                let* _ := CHECK (Z.eqb 0 rc) in
                Ret (0, set_inplace_consumed_rs rs a)
            end
        end
      else
        let* (rc, rs) := TryPushBackRegst (naive_produced_rs a) r (regst_desc_id P r) in
        let a := set_naive_produced_rs rs a in
        if Z.eqb rc 0 then let* a := free_body a r in Ret (0, a) else Crash
  end.

(** [fuel] bounds the loop. *)
Definition ActUntilFail (fuel : nat) (a : actor) : outcome actor :=
  let* a := act_loop fuel a in
  Ret (AsyncSendQueuedMsg a).

Definition AsyncSendEORDMsgForAllProducedRegstDesc (a : actor) : outcome actor :=
  ofold (λ a '(id, regsts),
    match regsts with
    | [] => Crash
    | r :: _ => Ret (set_trace (trace a ++ [CallbackEord (consumers_actor_id P r) (regst_desc_id P r)]) a)
    end) (map_to_list (produced_regsts c)) a.

Definition receive_eord (a : actor) (id : Z) : outcome actor :=
  let a := set_remaining_eord_cnt (remaining_eord_cnt a - 1) a in
  let* _ := CHECK (negb (bool_decide (id ∈ eord_regst_desc_ids a))) in
  let a := set_eord_regst_desc_ids ({[id]} ∪ eord_regst_desc_ids a) a in
  let* naive := HasRegstDescId (naive_consumed_rs a) id in
  if naive then Ret (set_is_naive_consumed_eord true a) else
  let* inplace := HasRegstDescId (inplace_consumed_rs a) id in
  Ret (if inplace then set_is_inplace_consumed_eord true a else a).

Definition push_checked (rs : RegstSlot) (r : nat) (id : Z) : outcome RegstSlot :=
  let* (rc, rs) := TryPushBackRegst rs r id in
  let* _ := CHECK (Z.eqb 0 rc) in
  Ret rs.

Definition receive_regst (a : actor) (src_machine : Z) (r : nat) (desc_id : Z) : outcome actor :=
  if Z.eqb src_machine (Rank P) then
    let id := regst_desc_id P r in
    let* naive := HasRegstDescId (naive_consumed_rs a) id in
    if naive then
      let* rs := push_checked (naive_consumed_rs a) r id in
      let* q := RegstDeq4RegstDescId rs id in
      let* _ := CHECK (negb (bool_decide (q = []))) in
      Ret (set_naive_consumed_rs rs a)
    else
      let* inplace := HasRegstDescId (inplace_consumed_rs a) id in
      if inplace then
        let* rs := push_checked (inplace_consumed_rs a) r id in
        Ret (set_inplace_consumed_rs rs a)
      else
        let* (rc, a) := TryUpdtStateAsProducedRegst a r in
        if Z.eqb rc 0 then Ret a else Crash
  else if IsConsumedCtrlRegstDescId desc_id then
    let* naive := HasRegstDescId (naive_consumed_rs a) desc_id in
    let* _ := CHECK naive in
    let* _ := CHECK (bool_decide (is_Some (ProducerTaskId4RegstDescId P desc_id))) in
    let* rs := push_checked (naive_consumed_rs a) r desc_id in
    let* q := RegstDeq4RegstDescId rs desc_id in
    let* _ := CHECK (negb (bool_decide (q = []))) in
    Ret (set_naive_consumed_rs rs a)
  else
    let* (rc, a) := TryUpdtStateAsProducedRegst a r in
    let* _ := CHECK (Z.eqb rc 0) in
    Ret a.

(** The end of [HandlerNormal]: halt when the inputs are exhausted.  1: the actor
    is finished. *)
Definition try_halt (a : actor) : outcome (Z * actor) :=
  let has_naive_or_inplace := negb (Z.eqb (total_regst_desc_cnt (naive_consumed_rs a)) 0) ||
                              negb (Z.eqb (total_regst_desc_cnt (inplace_consumed_rs a)) 0) in
  let eord_and_empty := (is_naive_consumed_eord a || is_inplace_consumed_eord a) &&
                        (Z.eqb (available_regst_desc_cnt (naive_consumed_rs a)) 0 &&
                         Z.eqb (available_regst_desc_cnt (inplace_consumed_rs a)) 0) in
  if has_naive_or_inplace && eord_and_empty then
    let* _ := CHECK (Z.eqb (available_regst_desc_cnt (naive_consumed_rs a)) 0) in
    let* a := AsyncSendEORDMsgForAllProducedRegstDesc a in
    if Z.eqb (remaining_eord_cnt a) 0 && Z.eqb (total_reading_cnt a) 0
    then Ret (1, set_handler None a)
    else Ret (0, set_handler (Some HandlerZombie_) a)
  else Ret (0, a).

Definition HandlerNormal (fuel : nat) (a : actor) (msg : ActorMsg) : outcome (Z * actor) :=
  let* a := match msg with
            | kEordMsg id => receive_eord a id
            | kRegstMsg src r desc_id =>
                let* a := receive_regst a src r desc_id in
                ActUntilFail fuel a
            | kCmdMsg kStart => ActUntilFail fuel a
            | kCmdMsg _ => Crash
            end in
  try_halt a.

Definition HandlerZombie (a : actor) (msg : ActorMsg) : outcome (Z * actor) :=
  let* a := match msg with
            | kEordMsg _ =>
                let* _ := CHECK (Z.leb 1 (remaining_eord_cnt a)) in
                Ret (set_remaining_eord_cnt (remaining_eord_cnt a - 1) a)
            | kRegstMsg _ r _ =>
                let* (rc, a) := TryUpdtStateAsProducedRegst a r in
                if negb (Z.eqb rc 0) then AsyncSendRegstMsgToProducer a r else Ret a
            | kCmdMsg _ => Crash
            end in
  if Z.eqb (remaining_eord_cnt a) 0 && Z.eqb (total_reading_cnt a) 0
  then Ret (1, set_handler None a) else Ret (0, a).

Definition ProcessMsg (fuel : nat) (a : actor) (msg : ActorMsg) : outcome (Z * actor) :=
  match handler a with
  | Some HandlerNormal_ => HandlerNormal fuel a msg
  | Some HandlerZombie_ => HandlerZombie a msg
  | None => Crash
  end.
End actor.

(** ** Initialisation *)

(** A produced register descriptor with the registers [RegstMgr::NewRegsts] makes
    of it. *)
Record RegstDescProto := mkRegstDescProto {
  rd_regst_desc_id : Z;
  inplace_consumed_regst_desc_id : option Z;
  rd_is_ctrl : bool;
  rd_regsts : list nat;
}.

Record TaskProto := mkTask {
  task_id : Z;
  kernels_launch_synchronized : bool;
  produced_regst_desc : list (string * RegstDescProto);
  consumed_regst_desc_id : list (string * list Z);
}.

Definition CheckInplaceRegstDescId (t : TaskProto) : outcome unit :=
  let consumed := concat (map snd (consumed_regst_desc_id t)) in
  ofold (λ _ '(_, d),
    match inplace_consumed_regst_desc_id d with
    | None => Ret tt
    | Some i => CHECK (bool_decide (i ∈ consumed))
    end) (produced_regst_desc t) tt.

(** [insert] of a hash map keeps an entry that is there. *)
Definition insert_new (k v : Z) (m : gmap Z Z) : gmap Z Z :=
  match m !! k with Some _ => m | None => <[k := v]> m end.

Record inplace_slots := mkInplace {
  is_in2out : gmap Z Z;
  is_out2in : gmap Z Z;
  is_consumed : RegstSlot;
  is_produced : RegstSlot;
  is_no_out : gset Z;
}.

Definition take_inplace_desc (s : inplace_slots) (d : RegstDescProto) : outcome inplace_slots :=
  match inplace_consumed_regst_desc_id d with
  | None => Ret s
  | Some i =>
      let o := rd_regst_desc_id d in
      let* consumed := InsertRegstDescId (is_consumed s) i in
      let* produced := InsertRegstDescId (is_produced s) o in
      Ret (mkInplace (insert_new i o (is_in2out s)) (insert_new o i (is_out2in s)) consumed produced (is_no_out s))
  end.

(** One register of an in-place output; without consumers its input is given back
    at once. *)
Definition take_inplace_regst (P : Plan) (id : Z) (s : inplace_slots) (r : nat) : outcome inplace_slots :=
  let* produced := push_checked (is_produced s) r (regst_desc_id P r) in
  let s := mkInplace (is_in2out s) (is_out2in s) (is_consumed s) produced (is_no_out s) in
  match consumers_actor_id P r with
  | [] =>
      match is_out2in s !! id with
      | None => Crash
      | Some i =>
          let* _ := CHECK (negb (bool_decide (i ∈ is_no_out s))) in
          Ret (mkInplace (is_in2out s) (is_out2in s) (is_consumed s) (is_produced s) ({[i]} ∪ is_no_out s))
      end
  | _ => Ret s
  end.

Definition TakeOverInplaceConsumedAndProduced (P : Plan) (produced : list (string * RegstDescProto))
    (regsts : gmap Z (list nat)) : outcome inplace_slots :=
  let* s := ofold (λ s '(_, d), take_inplace_desc s d) produced
                  (mkInplace ∅ ∅ new_RegstSlot new_RegstSlot ∅) in
  let* ic := InitedDone (is_consumed s) in
  let* ip := InitedDone (is_produced s) in
  ofold (λ s '(id, rs),
    let* has := HasRegstDescId (is_produced s) id in
    if has then ofold (take_inplace_regst P id) rs s else Ret s)
    (map_to_list regsts) (mkInplace (is_in2out s) (is_out2in s) ic ip (is_no_out s)).

(** [GetNaiveOrCustomized...RegstDescName] of the base class: no customized name. *)
Definition is_naive_names : bool := false.
Definition customized_names : gset string := ∅.

Definition TakeOverNaiveConsumed (inplace_consumed : RegstSlot) (consumed : list (string * list Z)) : outcome RegstSlot :=
  let* rs := ofold (λ rs '(name, ids),
      if eqb is_naive_names (bool_decide (name ∈ customized_names)) || bool_decide (name = "in_ctrl"%string) then
        ofold (λ rs id,
          let* has := HasRegstDescId inplace_consumed id in
          if has then Ret rs else InsertRegstDescId rs id) ids rs
      else Ret rs) consumed new_RegstSlot in
  InitedDone rs.

Definition TakeOverNaiveProduced (P : Plan) (inplace_produced : RegstSlot) (produced : list (string * RegstDescProto))
    (regsts : gmap Z (list nat)) : outcome RegstSlot :=
  let* rs := ofold (λ rs '(name, d),
      let* has := HasRegstDescId inplace_produced (rd_regst_desc_id d) in
      if has then Ret rs
      else if eqb is_naive_names (bool_decide (name ∈ customized_names)) ||
              bool_decide (substring 0 9 name = "out_ctrl_"%string)
      then InsertRegstDescId rs (rd_regst_desc_id d) else Ret rs) produced new_RegstSlot in
  let* rs := InitedDone rs in
  ofold (λ rs '(id, l),
    let* has := HasRegstDescId rs id in
    if has then ofold (λ rs r, push_checked rs r (regst_desc_id P r)) l rs else Ret rs)
    (map_to_list regsts) rs.

(** The produced registers, the names and the control outputs. *)
Definition init_produced (st : gmap Z (list nat) * gmap string (list Z) * gset Z) (nd : string * RegstDescProto) :
    outcome (gmap Z (list nat) * gmap string (list Z) * gset Z) :=
  let '(regsts, names, ctrl) := st in
  let '(name, d) := nd in
  let id := rd_regst_desc_id d in
  let regsts := match rd_regsts d with
                | [] => regsts
                | l => <[id := match regsts !! id with Some q => q | None => [] end ++ l]> regsts
                end in
  let* _ := CHECK (bool_decide (names !! name = None)) in
  Ret (regsts, <[name := [id]]> names, if rd_is_ctrl d then {[id]} ∪ ctrl else ctrl).

(** The inputs: how many ends are to come, which are control inputs. *)
Definition init_consumed (st : gmap string (list Z) * Z * gset Z) (nc : string * list Z) :
    outcome (gmap string (list Z) * Z * gset Z) :=
  let '(names, eords, ctrl) := st in
  let '(name, ids) := nc in
  let* _ := CHECK (bool_decide (names !! name = None)) in
  Ret (<[name := ids]> names, eords + Z.of_nat (length ids),
       if bool_decide (name = "in_ctrl"%string) then list_to_set ids ∪ ctrl else ctrl).

Definition zero_readers (regsts : gmap Z (list nat)) : gmap nat Z :=
  list_to_map (map (λ r, (r, 0)) (concat (map snd (map_to_list regsts)))).

Definition Init (P : Plan) (t : TaskProto) : outcome (Conf * actor) :=
  let* pst := ofold init_produced (produced_regst_desc t) (∅, ∅, ∅) in
  let '(regsts, names, pctrl) := pst in
  let* cst := ofold init_consumed (consumed_regst_desc_id t) (names, 0, ∅) in
  let '(names, eords, cctrl) := cst in
  let* _ := CheckInplaceRegstDescId t in
  let* ip := TakeOverInplaceConsumedAndProduced P (produced_regst_desc t) regsts in
  let* nc := TakeOverNaiveConsumed (is_consumed ip) (consumed_regst_desc_id t) in
  let* np := TakeOverNaiveProduced P (is_produced ip) (produced_regst_desc t) regsts in
  Ret (mkConf (task_id t) (ThrdId4ActorId P (task_id t)) (kernels_launch_synchronized t) names regsts
              pctrl cctrl (is_no_out ip) (is_in2out ip) (is_out2in ip),
       mkActor (Some HandlerNormal_) ∅ eords (zero_readers regsts) 0 np nc (is_consumed ip) (is_produced ip)
               false false [] [] ∅ []).
