(* ===== verification/ActorSpec.v ===== *)
(** * Actors: a register is never written while it is read

    The invariant of an actor and its preservation by every handler, with the
    proof that no CHECK can fail as long as the other actors keep the protocol. *)
From S2P Require Import Prelude RegstSlot Actor.
#[local] Open Scope Z_scope.

(** ** Sums over a finite map *)

Definition map_sum (m : gmap nat Z) : Z := map_fold (λ _ v s, v + s) 0 m.

Lemma map_sum_insert_new m k v : m !! k = None → map_sum (<[k := v]> m) = v + map_sum m.
Proof.
  intros Hk. unfold map_sum. apply (map_fold_insert_L (λ _ v s, v + s) 0 k v m); [|done]. intros. lia.
Qed.

Lemma map_sum_update m k v w : m !! k = Some v → map_sum (<[k := w]> m) = map_sum m - v + w.
Proof.
  intros Hk. rewrite <- insert_delete_eq, map_sum_insert_new by apply lookup_delete_eq.
  rewrite <- (insert_delete_id m k v) at 2 by done. rewrite map_sum_insert_new by apply lookup_delete_eq. lia.
Qed.

Lemma map_sum_nonneg m : (∀ k v, m !! k = Some v → 0 ≤ v) → 0 ≤ map_sum m.
Proof.
  induction m as [|k v m Hk IH] using map_ind; intros H; [done|].
  rewrite map_sum_insert_new by done. assert (0 ≤ v) by (apply (H k); by rewrite lookup_insert_eq).
  assert (0 ≤ map_sum m); [|lia]. apply IH. intros k' v' Hk'. apply (H k'). rewrite lookup_insert_ne; [done|congruence].
Qed.

Lemma map_sum_zero m : (∀ k v, m !! k = Some v → 0 ≤ v) → map_sum m = 0 → ∀ k v, m !! k = Some v → v = 0.
Proof.
  induction m as [|k v m Hk IH] using map_ind; intros H Hs k' v'; [done|].
  rewrite map_sum_insert_new in Hs by done. assert (0 ≤ v) by (apply (H k); by rewrite lookup_insert_eq).
  assert (∀ k' v', m !! k' = Some v' → 0 ≤ v') as H'.
  { intros k0 v0 Hk0. apply (H k0). rewrite lookup_insert_ne; [done|congruence]. }
  pose proof (map_sum_nonneg m H'). rewrite lookup_insert_Some. intros [[-> ->]|[_ Hm]]; [lia|].
  eapply IH; [done|lia|done].
Qed.

Section spec.
Context (P : Plan) (c : Conf) (alloc_async : nat → nat → option Z).
(** The descriptors of the four slots and the registers the actor owns. *)
Context (NP NC IP IC : gset Z) (RS : gset nat).

(** ** What the plan guarantees *)

Record conf_ok : Prop := {
  co_np_ip : NP ## IP;
  co_nc_ic : NC ## IC;
  co_owned r : r ∈ RS → regst_desc_id P r ∈ NP ∪ IP ∧ is_Some (produced_regsts c !! regst_desc_id P r);
  co_alloc r : r ∈ RS → allocation_type P r ≠ kInvalid;
  co_data r : r ∈ RS → has_data_regst_desc P r = negb (IsProducedCtrlRegstDescId c (regst_desc_id P r));
  co_ctrl r : r ∈ RS → has_ctrl_regst_desc P r = IsProducedCtrlRegstDescId c (regst_desc_id P r);
  co_inplace id : id ∈ IP → IsProducedCtrlRegstDescId c id = false ∧
    ∃ i, inplace_regst_desc_id_out2in c !! id = Some i ∧ i ∈ IC;
  co_single r r' : r ∈ RS → r' ∈ RS → regst_desc_id P r = regst_desc_id P r' → regst_desc_id P r ∈ IP → r = r';
  co_inj o o' i : inplace_regst_desc_id_out2in c !! o = Some i → inplace_regst_desc_id_out2in c !! o' = Some i → o = o';
  co_no_out i r : i ∈ inplace_in_ids_with_no_out_consumed c → r ∈ RS → regst_desc_id P r ∈ IP →
    inplace_regst_desc_id_out2in c !! regst_desc_id P r = Some i → consumers_actor_id P r = [];
  co_consumed_ctrl id : id ∈ NC → IsConsumedCtrlRegstDescId c id = true → is_Some (ProducerTaskId4RegstDescId P id);
  co_eord id q : produced_regsts c !! id = Some q → q ≠ [];
}.

(** ** The invariant *)

(** The queues of the writable registers. *)
Definition writable (a : actor) : gmap Z (list nat) :=
  regst_desc_id2regsts (naive_produced_rs a) ∪ regst_desc_id2regsts (inplace_produced_rs a).

Definition consumers (r : nat) : Z := Z.of_nat (length (consumers_actor_id P r)).

(** [S]: descriptors whose first register is sent and not yet popped; [B]:
    registers whose memory may be allocated although nobody reads them. *)
Record inv (S : list Z) (B : nat → Prop) (a : actor) : Prop := {
  ai_np : slot_ok (naive_produced_rs a) ∧ dom (regst_desc_id2regsts (naive_produced_rs a)) = NP;
  ai_nc : slot_ok (naive_consumed_rs a) ∧ dom (regst_desc_id2regsts (naive_consumed_rs a)) = NC;
  ai_ip : slot_ok (inplace_produced_rs a) ∧ dom (regst_desc_id2regsts (inplace_produced_rs a)) = IP;
  ai_ic : slot_ok (inplace_consumed_rs a) ∧ dom (regst_desc_id2regsts (inplace_consumed_rs a)) = IC;
  ai_owned r : is_Some (reading_cnt a !! r) ↔ r ∈ RS;
  ai_bound r n : reading_cnt a !! r = Some n → 0 ≤ n ≤ consumers r;
  ai_total : total_reading_cnt a = map_sum (reading_cnt a);
  ai_nodup id q : writable a !! id = Some q → NoDup q;
  ai_queue id q r : writable a !! id = Some q → r ∈ q →
    regst_desc_id P r = id ∧ (reading_cnt a !! r = Some 0 ∨ (id ∈ S ∧ r ∈ RS ∧ head q = Some r));
  ai_free r : reading_cnt a !! r = Some 0 → ∃ q, writable a !! regst_desc_id P r = Some q ∧ r ∈ q;
  ai_sent id : id ∈ S → ∃ r q n, writable a !! id = Some (r :: q) ∧ reading_cnt a !! r = Some n ∧ 0 < n;
  ai_body r : reading_cnt a !! r = Some 0 → allocation_type P r = kStreamOrdered → B r ∨ body a !! r = None;
  ai_consumed id q r : regst_desc_id2regsts (naive_consumed_rs a) !! id = Some q → r ∈ q →
    IsConsumedCtrlRegstDescId c id = false → regst_desc_id P r = id ∧ has_data_regst_desc P r = true;
  ai_inplace id q r : regst_desc_id2regsts (inplace_consumed_rs a) !! id = Some q → r ∈ q → regst_desc_id P r = id;
  ai_held r n i : reading_cnt a !! r = Some n → 0 < n → regst_desc_id P r ∈ IP →
    inplace_regst_desc_id_out2in c !! regst_desc_id P r = Some i →
    regst_desc_id2regsts (inplace_consumed_rs a) !! i ≠ Some [];
}.
End spec.
Arguments ai_np {_ _ _ _ _ _ _ _ _ _} _.
Arguments ai_nc {_ _ _ _ _ _ _ _ _ _} _.
Arguments ai_ip {_ _ _ _ _ _ _ _ _ _} _.
Arguments ai_ic {_ _ _ _ _ _ _ _ _ _} _.
Arguments ai_owned {_ _ _ _ _ _ _ _ _ _} _.
Arguments ai_bound {_ _ _ _ _ _ _ _ _ _} _.
Arguments ai_total {_ _ _ _ _ _ _ _ _ _} _.
Arguments ai_nodup {_ _ _ _ _ _ _ _ _ _} _.
Arguments ai_queue {_ _ _ _ _ _ _ _ _ _} _.
Arguments ai_free {_ _ _ _ _ _ _ _ _ _} _.
Arguments ai_sent {_ _ _ _ _ _ _ _ _ _} _.
Arguments ai_body {_ _ _ _ _ _ _ _ _ _} _.
Arguments ai_consumed {_ _ _ _ _ _ _ _ _ _} _.
Arguments ai_inplace {_ _ _ _ _ _ _ _ _ _} _.
Arguments ai_held {_ _ _ _ _ _ _ _ _ _} _.

(** ** The steps of an act *)

Section steps.
Context (P : Plan) (c : Conf) (alloc_async : nat → nat → option Z).
Context (NP NC IP IC : gset Z) (RS : gset nat).
Context (Hco : conf_ok P c NP NC IP IC RS).
#[local] Abbreviation ainv := (inv P c NP NC IP IC RS).

(** The fields an operation leaves as they are. *)
Ltac keep H :=
  first [ exact (ai_np H) | exact (ai_nc H) | exact (ai_ip H) | exact (ai_ic H) | exact (ai_owned H)
        | exact (ai_bound H) | exact (ai_total H) | exact (ai_nodup H) | exact (ai_queue H)
        | exact (ai_free H) | exact (ai_sent H) | exact (ai_body H) | exact (ai_consumed H)
        | exact (ai_inplace H) | exact (ai_held H) ].

Lemma Enqueue_inv S B a m : ainv S B a → ainv S B (EnqueueAsyncMsg P c a m).
Proof. intros H. unfold EnqueueAsyncMsg. destruct (_ && _); constructor; keep H. Qed.

Lemma Enqueue_list_inv S B a (f : Z → OutMsg) l :
  ainv S B a → ainv S B (foldl (λ a x, EnqueueAsyncMsg P c a (f x)) a l).
Proof. revert a. induction l as [|x l IH]; intros a H; cbn [foldl]; [done|]. by apply IH, Enqueue_inv. Qed.

(** What queueing messages leaves as it is. *)
Definition same_but_msgs (a a' : actor) : Prop :=
  ∃ q1 q2, a' = set_async_msg_queue q1 (set_sync_msg_queue q2 a).

Lemma Enqueue_same a m : same_but_msgs a (EnqueueAsyncMsg P c a m).
Proof.
  unfold EnqueueAsyncMsg. destruct (_ && _);
    [exists (async_msg_queue a), (sync_msg_queue a ++ [m])|exists (async_msg_queue a ++ [m]), (sync_msg_queue a)]; by destruct a.
Qed.

Lemma Enqueue_list_same a (f : Z → OutMsg) l :
  same_but_msgs a (foldl (λ a x, EnqueueAsyncMsg P c a (f x)) a l).
Proof.
  revert a. induction l as [|x l IH]; intros a; cbn [foldl].
  - exists (async_msg_queue a), (sync_msg_queue a). by destruct a.
  - destruct (Enqueue_same a (f x)) as (q1 & q2 & E). destruct (IH (EnqueueAsyncMsg P c a (f x))) as (q3 & q4 & ->).
    rewrite E. by exists q3, q4.
Qed.

Lemma AsyncSendQueuedMsg_inv S B a : ainv S B a → ainv S B (AsyncSendQueuedMsg a).
Proof.
  intros H. unfold AsyncSendQueuedMsg. destruct (sync_msg_queue a); [|set (a1 := set_sync_msg_queue _ _)].
  - destruct (async_msg_queue a); [done|constructor; keep H].
  - assert (ainv S B a1) as H1 by (constructor; keep H). destruct (async_msg_queue a1); [done|constructor; keep H1].
Qed.

(** A register that is written is owned, nobody reads it. *)
Lemma writable_owned S B a id q r : ainv S B a → writable a !! id = Some q → r ∈ q → r ∈ RS.
Proof.
  intros H Hq Hr. destruct (ai_queue H id q r Hq Hr) as [_ [Hc|(_ & ? & _)]]; [|done].
  apply (ai_owned H). by exists 0.
Qed.

Lemma writable_naive a id q :
  regst_desc_id2regsts (naive_produced_rs a) !! id = Some q → writable a !! id = Some q.
Proof. intros Hq. unfold writable. by rewrite lookup_union, Hq, union_Some_l. Qed.

Lemma writable_inplace S B a id q :
  ainv S B a → regst_desc_id2regsts (inplace_produced_rs a) !! id = Some q → writable a !! id = Some q.
Proof.
  intros H Hq. unfold writable. rewrite lookup_union, Hq.
  replace (regst_desc_id2regsts (naive_produced_rs a) !! id) with (@None (list nat)); [done|].
  symmetry. apply not_elem_of_dom. rewrite (proj2 (ai_np H)). intros Hn. apply (co_np_ip _ _ _ _ _ _ _ Hco id Hn).
  rewrite <- (proj2 (ai_ip H)). by apply elem_of_dom.
Qed.

(** The first register of a queue is handed to its consumers. *)
Lemma HandleRegst_spec S B a id r q :
  ainv S B a → writable a !! id = Some (r :: q) → id ∉ S →
  (id ∈ IP → ∀ i, inplace_regst_desc_id_out2in c !! id = Some i →
             regst_desc_id2regsts (inplace_consumed_rs a) !! i ≠ Some []) →
  ∃ a', HandleRegstToConsumer P c a r = Ret (consumers P r, a') ∧
    ainv (if Z.ltb 0 (consumers P r) then S ++ [id] else S) B a' ∧
    (∃ q1 q2 t rc, a' = set_reading_cnt rc (set_total_reading_cnt t (set_async_msg_queue q1 (set_sync_msg_queue q2 a)))) ∧
    (consumers P r = 0 → reading_cnt a' = reading_cnt a) ∧
    (0 < consumers P r → ∃ n, reading_cnt a' !! r = Some n ∧ 0 < n) ∧
    (∀ r', r' ≠ r → reading_cnt a' !! r' = reading_cnt a !! r').
Proof.
  intros Hinv Hq HS Hheld. destruct (ai_queue Hinv id (r :: q) r Hq) as [Hid [Hc|(? & _)]]; [left| |done].
  unfold HandleRegstToConsumer. rewrite Hc. cbn [CHECK obind Z.eqb]. fold (consumers P r).
  destruct (Enqueue_list_same a (λ x, ToConsumer x r) (consumers_actor_id P r)) as (q1 & q2 & E).
  pose proof (Enqueue_list_inv S B a (λ x, ToConsumer x r) (consumers_actor_id P r) Hinv) as H1.
  cbv beta in E, H1. rewrite E in H1 |- *.
  set (a1 := set_async_msg_queue q1 (set_sync_msg_queue q2 a)) in *.
  set (n := consumers P r) in *. assert (0 ≤ n) as Hn by (unfold n, consumers; lia).
  set (a' := set_reading_cnt _ _).
  assert (∀ r', reading_cnt a' !! r' = if decide (r = r') then Some n else reading_cnt a !! r') as Erd.
  { intros r'. unfold a'. cbn. destruct (decide (r = r')) as [->|]; [by rewrite lookup_insert_eq|by rewrite lookup_insert_ne]. }
  exists a'. split; [done|]. split; [|split_and!].
  - constructor; try keep H1.
    + intros r'. rewrite Erd. destruct (decide (r = r')) as [<-|]; [|apply (ai_owned Hinv)].
      split; [intros _; apply (ai_owned Hinv); by exists 0|by exists n].
    + intros r' k. rewrite Erd. destruct (decide (r = r')) as [<-|]; [|apply (ai_bound Hinv)]. intros [= <-]. fold n. lia.
    + unfold a'. cbn. rewrite (map_sum_update _ _ 0) by done. rewrite <- (ai_total Hinv). lia.
    + intros id' q' r' Hq' Hr'. destruct (ai_queue Hinv id' q' r' Hq' Hr') as [Hid' Hcase]. split; [done|].
      rewrite Erd. destruct (decide (r = r')) as [<-|Hne].
      * assert (id' = id) as -> by congruence. change (writable a' !! id) with (writable a !! id) in Hq'.
        rewrite Hq in Hq'. injection Hq' as <-. destruct (Z.ltb_spec 0 n); [right|left; f_equal; lia].
        split_and!; [apply elem_of_app; right; by apply list_elem_of_singleton|apply (ai_owned Hinv); by exists 0|done].
      * destruct Hcase as [?|(HidS & ? & ?)]; [by left|right]. split_and!; [|done|done].
        destruct (Z.ltb 0 n); [apply elem_of_app; by left|done].
    + intros r'. rewrite Erd. destruct (decide (r = r')) as [<-|]; [|apply (ai_free Hinv)].
      intros _. exists (r :: q). rewrite Hid. split; [done|left].
    + intros id' Hin. assert (id' ∈ S ∨ (id' = id ∧ 0 < n)) as [HidS|[-> Hpos]].
      { destruct (Z.ltb_spec 0 n); [|by left]. apply elem_of_app in Hin as [?|?%list_elem_of_singleton]; auto. }
      * destruct (ai_sent Hinv id' HidS) as (r' & q' & k & Hw & Hk & Hpos). exists r', q', k. split_and!; [done| |done].
        rewrite Erd. destruct (decide (r = r')) as [<-|]; [rewrite Hc in Hk; injection Hk as <-; lia|done].
      * exists r, q, n. split_and!; [done| |done]. by rewrite Erd, decide_True.
    + intros r'. rewrite Erd. destruct (decide (r = r')) as [<-|]; [|apply (ai_body Hinv)].
      intros _. by apply (ai_body Hinv).
    + intros r' k i. rewrite Erd. destruct (decide (r = r')) as [<-|]; [|apply (ai_held Hinv)].
      intros _ _ Hip. rewrite Hid in *. by apply Hheld.
  - by exists q1, q2, (total_reading_cnt a1 + n), (<[r := 0 + n]> (reading_cnt a1)).
  - intros H0. unfold a'. cbn. rewrite H0. by apply insert_id.
  - intros Hpos. exists n. by rewrite Erd, decide_True.
  - intros r' Hne. by rewrite Erd, decide_False.
Qed.

Lemma inv_weaken S (B B' : nat → Prop) a :
  ainv S B a → (∀ r, r ∈ RS → reading_cnt a !! r = Some 0 → B r → B' r) → ainv S B' a.
Proof.
  intros H HB. constructor; try keep H. intros r Hr Hs.
  destruct (ai_body H r Hr Hs) as [?|?]; [left|by right]. apply HB; [|done|done]. apply (ai_owned H). by exists 0.
Qed.

(** Giving up the memory of a register. *)
Lemma forget_body_inv S B a r :
  ainv S B a → r ∈ RS → ∃ a', forget_body P a r = Ret a' ∧ ainv S (λ r', B r' ∧ r' ≠ r) a' ∧
    (∃ b, a' = set_body b a).
Proof.
  intros H Hr. unfold forget_body. destruct (allocation_type P r) eqn:Ea.
  - by destruct (co_alloc _ _ _ _ _ _ _ Hco r Hr).
  - exists a. split_and!; [done| |exists (body a); by destruct a]. constructor; try keep H.
    intros r' Hr' Hs. destruct (ai_body H r' Hr' Hs); [left; split; [done|congruence]|by right].
  - eexists. split_and!; [done| |by eexists]. constructor; try keep H. intros r' Hr' Hs. cbn.
    destruct (decide (r' = r)) as [->|Hne]; [right; apply lookup_delete_eq|]. rewrite lookup_delete_ne by done.
    destruct (ai_body H r' Hr' Hs); [left|right]; done.
Qed.

Lemma free_body_inv S B a r :
  ainv S B a → r ∈ RS → ∃ a', free_body P a r = Ret a' ∧ ainv S (λ r', B r' ∧ r' ≠ r) a' ∧
    (∃ b t, a' = set_body b (set_trace t a)).
Proof.
  intros H Hr. destruct (forget_body_inv S B a r H Hr) as (a1 & E1 & H1 & _). unfold forget_body in E1. unfold free_body.
  destruct (allocation_type P r); [done|..]; injection E1 as <-; eexists; (split_and!; [done| |]).
  - done.
  - exists (body a), (trace a). by destruct a.
  - constructor; keep H1.
  - by do 2 eexists.
Qed.

(** ** Popping what was sent *)

Lemma pop_all_dom m ids : dom (pop_all m ids) = dom m.
Proof.
  apply set_eq. intros id. rewrite !elem_of_dom, pop_all_lookup. by destruct (m !! id).
Qed.

Lemma pop_inv B a a' ids :
  ainv ids B a → (∃ np ip, a' = set_naive_produced_rs np (set_inplace_produced_rs ip a)) →
  slot_ok (naive_produced_rs a') → dom (regst_desc_id2regsts (naive_produced_rs a')) = NP →
  slot_ok (inplace_produced_rs a') → dom (regst_desc_id2regsts (inplace_produced_rs a')) = IP →
  writable a' = pop_all (writable a) ids → ainv [] B a'.
Proof.
  intros H (np & ip & ->) Hnp Enp Hip Eip Ew.
  set (a' := set_naive_produced_rs np (set_inplace_produced_rs ip a)) in *.
  assert (∀ id q', writable a' !! id = Some q' →
            ∃ q, writable a !! id = Some q ∧ q' = if bool_decide (id ∈ ids) then tail q else q) as Hinv.
  { intros id q'. rewrite Ew, pop_all_lookup. destruct (writable a !! id) as [q|]; [|done]. intros [= <-]. by exists q. }
  constructor; try keep H; try done.
  - intros id q' (q & Hq & ->)%Hinv. pose proof (ai_nodup H id q Hq) as Hnd. case_bool_decide; [|done].
    destruct q; [done|]. by apply NoDup_cons in Hnd as [_ ?].
  - intros id q' r (q & Hq & ->)%Hinv Hr. case_bool_decide as Hid.
    + destruct q as [|r0 q]; [by apply not_elem_of_nil in Hr|]. cbn in Hr.
      pose proof (ai_nodup H id _ Hq) as Hnd. apply NoDup_cons in Hnd as [Hnot _].
      destruct (ai_queue H id (r0 :: q) r Hq) as [? [?|(_ & _ & [= ->])]]; [by right|by split; [|left]|done].
    + destruct (ai_queue H id q r Hq Hr) as [? [?|(? & _)]]; [by split; [|left]|done].
  - intros r Hr. destruct (ai_free H r Hr) as (q & Hq & Hin). rewrite Ew, pop_all_lookup, Hq. cbn.
    eexists. split; [done|]. case_bool_decide as Hid; [|done].
    destruct (ai_sent H _ Hid) as (r0 & q0 & n & Hw & Hn & Hpos). change (reading_cnt a') with (reading_cnt a) in Hr.
    rewrite Hq in Hw. injection Hw as ->. apply elem_of_cons in Hin as [->|?]; [|done].
    rewrite Hr in Hn. injection Hn as <-. lia.
  - intros id []%not_elem_of_nil.
Qed.

Lemma pop_all_union_l m1 m2 ids :
  (∀ id, id ∈ ids → id ∈ dom m1) → dom m1 ## dom m2 → pop_all m1 ids ∪ m2 = pop_all (m1 ∪ m2) ids.
Proof.
  intros Hids Hdis. apply map_eq. intros id. rewrite lookup_union, !pop_all_lookup, lookup_union.
  destruct (m1 !! id) as [q1|] eqn:E1; cbn.
  - by destruct (m2 !! id).
  - destruct (m2 !! id) as [q2|] eqn:E2; cbn; [|done]. rewrite bool_decide_false; [done|].
    intros Hin%Hids%elem_of_dom. rewrite E1 in Hin. by destruct Hin.
Qed.

Lemma pop_all_union_r m1 m2 ids :
  (∀ id, id ∈ ids → id ∈ dom m2) → dom m1 ## dom m2 → m1 ∪ pop_all m2 ids = pop_all (m1 ∪ m2) ids.
Proof.
  intros Hids Hdis. rewrite (map_union_comm m1 m2), <- pop_all_union_l; [|done|done|by apply map_disjoint_dom].
  apply map_union_comm, map_disjoint_dom. by rewrite pop_all_dom.
Qed.

Lemma sent_poppable (m : gmap Z (list nat)) S B a (ids : list Z) :
  ainv S B a → (∀ id, id ∈ ids → id ∈ S) → (∀ id q, writable a !! id = Some q → id ∈ ids → m !! id = Some q) →
  ∀ id, id ∈ ids → ∃ r q, m !! id = Some (r :: q).
Proof.
  intros H Hsub Hm id Hid. destruct (ai_sent H id (Hsub id Hid)) as (r & q & n & Hw & _). exists r, q. by apply Hm.
Qed.

Lemma pop_naive_inv B a ids :
  ainv ids B a → NoDup ids → (∀ id, id ∈ ids → id ∈ NP) →
  ∃ rs, PopFrontRegsts (naive_produced_rs a) ids = Ret rs ∧ ainv [] B (set_naive_produced_rs rs a) ∧
    regst_desc_id2regsts rs = pop_all (regst_desc_id2regsts (naive_produced_rs a)) ids.
Proof.
  intros H Hnd Hids. destruct (ai_np H) as [Hok Hdom]. destruct (ai_ip H) as [Hok' Hdom'].
  destruct (PopFrontRegsts_spec (naive_produced_rs a) ids Hok Hnd) as (rs & -> & Hrs & Ers).
  { eapply sent_poppable; [done|done|]. intros id q Hw Hin. apply Hids in Hin. rewrite <- Hdom in Hin.
    apply elem_of_dom in Hin as [q' Hq']. rewrite Hq'. apply writable_naive in Hq'. congruence. }
  exists rs. split_and!; [done| |done].
  eapply pop_inv; [done|exists rs, (inplace_produced_rs a); by destruct a|done| |done|done|].
  - cbn. by rewrite Ers, pop_all_dom.
  - unfold writable. cbn. rewrite Ers. apply pop_all_union_l; rewrite ?Hdom, ?Hdom'; [done|apply (co_np_ip _ _ _ _ _ _ _ Hco)].
Qed.

Lemma pop_inplace_inv B a ids :
  ainv ids B a → NoDup ids → (∀ id, id ∈ ids → id ∈ IP) →
  ∃ rs, PopFrontRegsts (inplace_produced_rs a) ids = Ret rs ∧ ainv [] B (set_inplace_produced_rs rs a) ∧
    regst_desc_id2regsts rs = pop_all (regst_desc_id2regsts (inplace_produced_rs a)) ids.
Proof.
  intros H Hnd Hids. destruct (ai_np H) as [Hok Hdom]. destruct (ai_ip H) as [Hok' Hdom'].
  destruct (PopFrontRegsts_spec (inplace_produced_rs a) ids Hok' Hnd) as (rs & -> & Hrs & Ers).
  { eapply sent_poppable; [done|done|]. intros id q Hw Hin. apply Hids in Hin. rewrite <- Hdom' in Hin.
    apply elem_of_dom in Hin as [q' Hq']. rewrite Hq'. apply (writable_inplace _ _ _ _ _ H) in Hq'. congruence. }
  exists rs. split_and!; [done| |done].
  eapply pop_inv; [done|exists (naive_produced_rs a), rs; by destruct a|done|done|done| |].
  - cbn. by rewrite Ers, pop_all_dom.
  - unfold writable. cbn. rewrite Ers. apply pop_all_union_r; rewrite ?Hdom, ?Hdom'; [done|apply (co_np_ip _ _ _ _ _ _ _ Hco)].
Qed.

(** ** Handing over the produced registers *)

Definition same_slots (a a' : actor) : Prop :=
  naive_produced_rs a' = naive_produced_rs a ∧ naive_consumed_rs a' = naive_consumed_rs a ∧
  inplace_produced_rs a' = inplace_produced_rs a ∧ inplace_consumed_rs a' = inplace_consumed_rs a.

Lemma same_slots_trans a1 a2 a3 : same_slots a1 a2 → same_slots a2 a3 → same_slots a1 a3.
Proof. unfold same_slots. intros (? & ? & ? & ?) (? & ? & ? & ?). split_and!; congruence. Qed.

Lemma same_slots_writable a a' : same_slots a a' → writable a' = writable a.
Proof. unfold writable. by intros (-> & _ & -> & _). Qed.

(** What giving up a body must do; [free_body] and [forget_body] do it. *)
Definition frees (free : actor → nat → outcome actor) : Prop :=
  ∀ S B a r, ainv S B a → r ∈ RS → ∃ a', free a r = Ret a' ∧ ainv S (λ r', B r' ∧ r' ≠ r) a' ∧ same_slots a a'.

Lemma free_body_frees : frees (free_body P).
Proof.
  intros S B a r H Hr. destruct (free_body_inv S B a r H Hr) as (a' & ? & ? & b & t & ->). eexists. split_and!; [done|done|repeat split].
Qed.

Lemma forget_body_frees : frees (forget_body P).
Proof.
  intros S B a r H Hr. destruct (forget_body_inv S B a r H Hr) as (a' & ? & ? & b & ->). eexists. split_and!; [done|done|repeat split].
Qed.

Definition inplace_held (a : actor) (id : Z) : Prop :=
  id ∈ IP → ∀ i, inplace_regst_desc_id_out2in c !! id = Some i →
            regst_desc_id2regsts (inplace_consumed_rs a) !! i ≠ Some [].

Lemma produced_data_step free S B a id r q :
  frees free → ainv S B a → writable a !! id = Some (r :: q) → id ∉ S → inplace_held a id →
  ∃ a', produced_data_handler P c free (a, S) r = Ret (a', if Z.ltb 0 (consumers P r) then S ++ [id] else S) ∧
    ainv (if Z.ltb 0 (consumers P r) then S ++ [id] else S) (λ r', B r' ∧ r' ≠ r) a' ∧ same_slots a a'.
Proof.
  intros Hfree H Hq HS Hheld. unfold produced_data_handler.
  destruct (HandleRegst_spec S B a id r q H Hq HS Hheld) as (a1 & -> & H1 & (q1 & q2 & t & rc & E1) & Hz & Hp & _).
  assert (regst_desc_id P r = id) as -> by (apply (ai_queue H id (r :: q) r Hq); left).
  assert (same_slots a a1) as Hs1 by (rewrite E1; repeat split).
  cbn [obind]. destruct (Z.ltb_spec 0 (consumers P r)).
  - exists a1. split_and!; [done| |done..]. apply (inv_weaken _ B); [done|].
    intros r' _ Hr' HB. split; [done|]. intros ->. destruct (Hp ltac:(lia)) as (n & Hn & ?). rewrite Hr' in Hn. injection Hn as <-. lia.
  - assert (r ∈ RS) as Hr by (apply (writable_owned S B a id (r :: q) r H Hq); left).
    destruct (Hfree S B a1 r H1 Hr) as (a2 & -> & H2 & Hs2). exists a2. split_and!; [done|done|by eapply same_slots_trans].
Qed.

(** The registers at the fronts that have a body. *)
Definition fronts (a : actor) (r : nat) : Prop :=
  has_data_regst_desc P r = true ∧ ∃ q, writable a !! regst_desc_id P r = Some (r :: q).

(** After the loop over the descriptors [seen] of one slot. *)
Definition sent_inv (a : actor) (B : nat → Prop) (keys : gset Z) (seen : list Z) (st : actor * list Z) : Prop :=
  ainv st.2 (λ r, B r ∧ regst_desc_id P r ∉ seen) st.1 ∧ same_slots a st.1 ∧ NoDup st.2 ∧
  ∀ id, id ∈ st.2 → id ∈ seen ∧ id ∈ keys ∧ IsProducedCtrlRegstDescId c id = false.

Lemma sent_inv_step free a B keys seen st id r q :
  frees free → (∀ r, B r → fronts a r) → sent_inv a B keys seen st →
  writable a !! id = Some (r :: q) → id ∉ seen → id ∈ keys → inplace_held a id → has_data_regst_desc P r = true →
  ∃ st', produced_data_handler P c free st r = Ret st' ∧ sent_inv a B keys (seen ++ [id]) st'.
Proof.
  intros Hfree HB (H & Hs & Hnd & Hsub) Hq Hid Hkey Hheld Hdata. destruct st as [a1 S]. cbn [fst snd] in *.
  assert (id ∉ S) as HS by (intros ?%Hsub; tauto).
  assert (writable a1 !! id = Some (r :: q)) as Hq1 by (by rewrite (same_slots_writable _ _ Hs)).
  assert (inplace_held a1 id) as Hheld1 by (destruct Hs as (_ & _ & _ & E); unfold inplace_held; by rewrite E).
  destruct (produced_data_step free S _ a1 id r q Hfree H Hq1 HS Hheld1) as (a2 & -> & H2 & Hs2).
  eexists. split; [done|]. split_and!; cbn [fst snd].
  - apply (inv_weaken _ _ _ _ H2). intros r' _ _ [[HBr Hns] Hne]. split; [done|].
    rewrite not_elem_of_app, list_elem_of_singleton. split; [done|]. intros Heq.
    destruct (HB r' HBr) as [_ (q' & Hq')]. rewrite Heq, Hq in Hq'. by injection Hq' as <-.
  - by eapply same_slots_trans.
  - destruct (Z.ltb 0 (consumers P r)); [|done]. apply NoDup_app. split_and!; [done| |apply NoDup_singleton].
    intros x Hx ->%list_elem_of_singleton. done.
  - intros x Hx. assert (x ∈ S ∨ x = id) as [Hin| ->].
    { destruct (Z.ltb 0 (consumers P r)); [|by left]. apply elem_of_app in Hx as [?|?%list_elem_of_singleton]; tauto. }
    + destruct (Hsub x Hin) as (? & ? & ?). split_and!; [apply elem_of_app; by left|done|done].
    + split_and!; [apply elem_of_app; right; by apply list_elem_of_singleton|done|].
      assert (r ∈ RS) as Hr by (apply (writable_owned _ _ a1 id (r :: q) r H Hq1); left).
      rewrite (co_data _ _ _ _ _ _ _ Hco r Hr) in Hdata.
      destruct (ai_queue H id (r :: q) r Hq1) as [<- _]; [left|]. by apply negb_true_iff in Hdata.
Qed.

Lemma sent_inv_skip a B keys seen st id :
  (∀ r, B r → fronts a r) → sent_inv a B keys seen st → IsProducedCtrlRegstDescId c id = true →
  sent_inv a B keys (seen ++ [id]) st.
Proof.
  intros HB (H & Hs & Hnd & Hsub) Hctrl. split_and!; [|done|done|].
  - apply (inv_weaken _ _ _ _ H). intros r Hr _ [HBr Hns]. split; [done|].
    rewrite not_elem_of_app, list_elem_of_singleton. split; [done|]. intros <-.
    destruct (HB r HBr) as [Hd _]. by rewrite (co_data _ _ _ _ _ _ _ Hco r Hr), Hctrl in Hd.
  - intros x Hx. destruct (Hsub x Hx) as (? & ? & ?). split_and!; [apply elem_of_app; by left|done|done].
Qed.

Lemma slot_ready_lookup rs id q :
  slot_ok rs → IsCurSlotReady rs = true → regst_desc_id2regsts rs !! id = Some q → q ≠ [].
Proof. intros Hok Hr. by apply IsCurSlotReady_spec. Qed.

Lemma HandleProducedNaive_inv B a :
  ainv [] B a → (∀ r, B r → fronts a r) → IsCurSlotReady (naive_produced_rs a) = true →
  ∃ a', HandleProducedNaiveDataRegstToConsumer P c a = Ret a' ∧
    ainv [] (λ r, B r ∧ regst_desc_id P r ∉ NP) a' ∧
    naive_consumed_rs a' = naive_consumed_rs a ∧ inplace_produced_rs a' = inplace_produced_rs a ∧
    inplace_consumed_rs a' = inplace_consumed_rs a ∧
    (∀ id, IsProducedCtrlRegstDescId c id = true → regst_desc_id2regsts (naive_produced_rs a') !! id =
                                       regst_desc_id2regsts (naive_produced_rs a) !! id).
Proof.
  intros H HB Hr. destruct (ai_np H) as [Hok Hdom]. unfold HandleProducedNaiveDataRegstToConsumer, ForEachFrontRegst.
  set (h := λ st (_ : Z) r, if has_data_regst_desc P r then produced_data_handler P c (free_body P) st r else Ret st).
  destruct (ForChosenFront_ind (naive_produced_rs a) (λ _, true) h (sent_inv a B NP) (a, []))
    as ([a1 S] & seen & E & (H1 & Hs1 & Hnd & Hsub) & _ & Hseen).
  - intros id _ Hq. by eapply slot_ready_lookup.
  - split_and!; cbn [fst snd]; [|done|apply NoDup_nil_2|intros id []%not_elem_of_nil].
    apply (inv_weaken _ _ _ _ H). intros r _ _ ?. split; [done|apply not_elem_of_nil].
  - done.
  - intros seen st id r q Hq _ Hid Hst. unfold h. pose proof (writable_naive a id _ Hq) as Hw.
    assert (id ∈ NP) as Hnp by (rewrite <- Hdom; by apply elem_of_dom).
    assert (r ∈ RS) as Hrs by (apply (writable_owned _ _ a id (r :: q) r H Hw); left).
    destruct (has_data_regst_desc P r) eqn:Hd.
    + eapply sent_inv_step; [apply free_body_frees|done|done|done|done|done| |done]. intros Hip.
      by destruct (co_np_ip _ _ _ _ _ _ _ Hco id Hnp).
    + exists st. split; [done|]. apply sent_inv_skip; [done|done|].
      rewrite (co_data _ _ _ _ _ _ _ Hco r Hrs) in Hd. destruct (ai_queue H id _ r Hw) as [<- _]; [left|].
      by apply negb_false_iff in Hd.
  - cbn [fst snd] in *. rewrite E. cbn [obind].
    destruct (pop_naive_inv _ a1 S H1 Hnd) as (rs & -> & H2 & Ers); [intros id ?; by apply Hsub|]. cbn [obind].
    destruct Hs1 as (E1 & E2 & E3 & E4).
    eexists. split_and!; [done| |done|done|done|].
    + apply (inv_weaken _ _ _ _ H2). intros r _ _ [HBr Hns]. split; [done|]. intros Hnp. apply Hns, Hseen.
      apply elem_of_dom. by rewrite Hdom.
    + intros id Hc. cbn. rewrite Ers, pop_all_lookup, E1, bool_decide_false; [by destruct (_ !! id)|].
      intros Hin%Hsub. destruct Hin as (_ & _ & ?). congruence.
Qed.

Lemma HandleProducedInplace_inv B a :
  ainv [] B a → (∀ r, B r → fronts a r) → IsCurSlotReady (inplace_produced_rs a) = true →
  (∀ id, inplace_held a id) →
  ∃ a', HandleProducedInplaceDataRegstToConsumer P c a = Ret a' ∧
    ainv [] (λ r, B r ∧ regst_desc_id P r ∉ IP) a' ∧
    naive_consumed_rs a' = naive_consumed_rs a ∧ inplace_consumed_rs a' = inplace_consumed_rs a ∧
    naive_produced_rs a' = naive_produced_rs a.
Proof.
  intros H HB Hr Hheld. destruct (ai_ip H) as [Hok Hdom]. unfold HandleProducedInplaceDataRegstToConsumer, ForEachFrontRegst.
  set (h := λ st (_ : Z) r, let* _ := CHECK (has_data_regst_desc P r) in produced_data_handler P c (forget_body P) st r).
  destruct (ForChosenFront_ind (inplace_produced_rs a) (λ _, true) h (sent_inv a B IP) (a, []))
    as ([a1 S] & seen & E & (H1 & Hs1 & Hnd & Hsub) & _ & Hseen).
  - intros id _ Hq. by eapply slot_ready_lookup.
  - split_and!; cbn [fst snd]; [|done|apply NoDup_nil_2|intros id []%not_elem_of_nil].
    apply (inv_weaken _ _ _ _ H). intros r _ _ ?. split; [done|apply not_elem_of_nil].
  - done.
  - intros seen st id r q Hq _ Hid Hst. unfold h. pose proof (writable_inplace _ _ a id _ H Hq) as Hw.
    assert (id ∈ IP) as Hip by (rewrite <- Hdom; by apply elem_of_dom).
    assert (r ∈ RS) as Hrs by (apply (writable_owned _ _ a id (r :: q) r H Hw); left).
    assert (has_data_regst_desc P r = true) as Hd.
    { rewrite (co_data _ _ _ _ _ _ _ Hco r Hrs). destruct (ai_queue H id _ r Hw) as [-> _]; [left|].
      by destruct (co_inplace _ _ _ _ _ _ _ Hco id Hip) as [-> _]. }
    rewrite Hd. cbn [CHECK obind]. eapply sent_inv_step; [apply forget_body_frees|done..].
  - cbn [fst snd] in *. rewrite E. cbn [obind].
    destruct (pop_inplace_inv _ a1 S H1 Hnd) as (rs & -> & H2 & Ers); [intros id ?; by apply Hsub|]. cbn [obind].
    destruct Hs1 as (E1 & E2 & E3 & E4).
    eexists. split_and!; [done| |done|done|done].
    apply (inv_weaken _ _ _ _ H2). intros r _ _ [HBr Hns]. split; [done|]. intros Hip. apply Hns, Hseen.
    apply elem_of_dom. by rewrite Hdom.
Qed.

Lemma AsyncSendProducedCtrl_inv B a :
  ainv [] B a →
  (∀ id, IsProducedCtrlRegstDescId c id = true → regst_desc_id2regsts (naive_produced_rs a) !! id ≠ Some []) →
  ∃ a', AsyncSendProducedCtrlRegstMsgToConsumer P c a = Ret a' ∧ ainv [] B a' ∧
    naive_consumed_rs a' = naive_consumed_rs a ∧ inplace_produced_rs a' = inplace_produced_rs a ∧
    inplace_consumed_rs a' = inplace_consumed_rs a.
Proof.
  intros H Hne. destruct (ai_np H) as [Hok Hdom]. unfold AsyncSendProducedCtrlRegstMsgToConsumer.
  set (h := λ '(a, ids) (_ : Z) r, let* _ := CHECK (has_ctrl_regst_desc P r) in _).
  destruct (ForChosenFront_ind (naive_produced_rs a) (IsProducedCtrlRegstDescId c) h
    (λ seen st, ainv st.2 B st.1 ∧ same_slots a st.1 ∧ NoDup st.2 ∧ ∀ id, id ∈ st.2 → id ∈ seen ∧ id ∈ NP) (a, []))
    as ([a1 S] & seen & E & (H1 & Hs1 & Hnd & Hsub) & _ & Hseen).
  - done.
  - split_and!; [done|repeat split|apply NoDup_nil_2|intros id []%not_elem_of_nil].
  - intros seen st id _ (? & ? & ? & Hsub). split_and!; [done..|]. intros x Hx. destruct (Hsub x Hx).
    split; [apply elem_of_app; by left|done].
  - intros seen [a1 S] id r q Hq Hctrl Hid (H1 & Hs1 & Hnd & Hsub). cbn [fst snd] in *.
    assert (writable a1 !! id = Some (r :: q)) as Hw by (rewrite (same_slots_writable _ _ Hs1); by apply writable_naive).
    assert (id ∈ NP) as Hnp by (rewrite <- Hdom; by apply elem_of_dom).
    assert (r ∈ RS) as Hr by (apply (writable_owned _ _ a1 id (r :: q) r H1 Hw); left).
    destruct (ai_queue H1 id (r :: q) r Hw) as [Hdesc _]; [left|].
    assert (id ∉ S) as HS by (intros ?%Hsub; tauto).
    unfold h. rewrite (co_ctrl _ _ _ _ _ _ _ Hco r Hr), Hdesc, Hctrl. cbn [CHECK obind].
    destruct (HandleRegst_spec S B a1 id r q H1 Hw HS) as (a2 & -> & H2 & (q1 & q2 & t & rc & E2) & _).
    { intros Hip. by destruct (co_np_ip _ _ _ _ _ _ _ Hco id Hnp). }
    cbn [obind]. eexists. split; [done|]. cbn [fst snd]. split_and!; [done| | |].
    + eapply same_slots_trans; [done|]. rewrite E2. repeat split.
    + destruct (Z.ltb 0 (consumers P r)); [|done]. apply NoDup_app. split_and!; [done| |apply NoDup_singleton].
      by intros x Hx ->%list_elem_of_singleton.
    + intros x Hx. assert (x ∈ S ∨ x = id) as [Hin| ->].
      { destruct (Z.ltb 0 (consumers P r)); [|by left]. apply elem_of_app in Hx as [?|?%list_elem_of_singleton]; tauto. }
      * destruct (Hsub x Hin). split; [apply elem_of_app; by left|done].
      * split; [apply elem_of_app; right; by apply list_elem_of_singleton|done].
  - cbn [fst snd] in *. rewrite E. cbn [obind].
    destruct (pop_naive_inv _ a1 S H1 Hnd) as (rs & -> & H2 & Ers); [intros id ?; by apply Hsub|]. cbn [obind].
    destruct Hs1 as (E1 & E2 & E3 & E4). eexists. by split_and!.
Qed.

(** ** Preparing the memory *)

Context (Halloc : ∀ n r, alloc_async n r ≠ None).

Definition idle (r : nat) : Prop := False.

(** The bodies of registers of descriptors not in [seen] are as in [a]. *)
Definition prepared (a : actor) (seen : list Z) (a' : actor) : Prop :=
  ainv [] (fronts a) a' ∧ same_slots a a' ∧ reading_cnt a' = reading_cnt a ∧
  ∀ r, regst_desc_id P r ∉ seen → body a' !! r = body a !! r.

Lemma prepared_set_body a seen a' r q b v t :
  prepared a seen a' → writable a !! regst_desc_id P r = Some (r :: q) → has_data_regst_desc P r = true →
  b = partial_alter (λ _, v) r (body a') →
  prepared a (seen ++ [regst_desc_id P r]) (set_body b (set_trace t a')).
Proof.
  intros (H & Hs & Hr & Hb) Hq Hd ->. split_and!; [|done|done|].
  - constructor; try keep H. intros r' Hr' Hst. cbn. destruct (decide (r = r')) as [<-|Hne].
    + left. split; [done|by exists q].
    + rewrite lookup_partial_alter_ne by done. by apply (ai_body H).
  - intros r'. rewrite not_elem_of_app, list_elem_of_singleton. intros [Hns Hne]. cbn.
    rewrite lookup_partial_alter_ne by congruence. by apply Hb.
Qed.

Lemma prepared_skip a seen a' id : prepared a seen a' → prepared a (seen ++ [id]) a'.
Proof.
  intros (H & Hs & Hr & Hb). split_and!; [done..|]. intros r [? _]%not_elem_of_app. by apply Hb.
Qed.

Lemma body_none a seen a' id r q :
  ainv [] idle a → prepared a seen a' → writable a !! id = Some (r :: q) → id ∉ seen →
  allocation_type P r = kStreamOrdered → body a' !! r = None.
Proof.
  intros H (_ & _ & _ & Hb) Hq Hid Hst. destruct (ai_queue H id _ r Hq) as [Hd [Hr|([]%not_elem_of_nil & _)]]; [left|].
  rewrite Hb by (by rewrite Hd). by destruct (ai_body H r Hr Hst) as [[]|?].
Qed.

Lemma prepare_naive_step a seen a' id r q :
  ainv [] idle a → prepared a seen a' → writable a !! id = Some (r :: q) → id ∉ seen →
  ∃ a'', prepare_naive P alloc_async a' id r = Ret a'' ∧ prepared a (seen ++ [id]) a''.
Proof.
  intros H Hp Hq Hid. assert (r ∈ RS) as Hr by (apply (writable_owned _ _ a id (r :: q) r H Hq); left).
  destruct (ai_queue H id (r :: q) r Hq) as [Hd _]; [left|].
  unfold prepare_naive. destruct (has_data_regst_desc P r) eqn:Hdata; [|exists a'; split; [done|by apply prepared_skip]].
  destruct (allocation_type P r) eqn:Ea.
  - by destruct (co_alloc _ _ _ _ _ _ _ Hco r Hr).
  - exists a'. split; [done|by apply prepared_skip].
  - rewrite bool_decide_true by (by eapply body_none). cbn [CHECK obind].
    destruct (alloc_async (length (trace a')) r) as [ptr|] eqn:El; [|by destruct (Halloc _ _ El)].
    eexists. split; [done|]. rewrite <- Hd in *. by eapply prepared_set_body.
Qed.

Lemma prepare_inplace_step a seen a' id r q :
  ainv [] idle a → prepared a seen a' → writable a !! id = Some (r :: q) → id ∉ seen → id ∈ IP →
  inplace_held a id →
  ∃ a'', prepare_inplace P c a' id r = Ret a'' ∧ prepared a (seen ++ [id]) a''.
Proof.
  intros H Hp Hq Hid Hip Hheld. assert (r ∈ RS) as Hr by (apply (writable_owned _ _ a id (r :: q) r H Hq); left).
  destruct (ai_queue H id (r :: q) r Hq) as [Hd _]; [left|].
  destruct (co_inplace _ _ _ _ _ _ _ Hco id Hip) as (Hctrl & i & Hi & Hic).
  assert (has_data_regst_desc P r = true) as Hdata by (by rewrite (co_data _ _ _ _ _ _ _ Hco r Hr), Hd, Hctrl).
  unfold prepare_inplace. rewrite Hdata, Hd, Hi. cbn [CHECK obind].
  destruct (ai_ic H) as [Hok Hdom]. assert (inplace_consumed_rs a' = inplace_consumed_rs a) as Eic by (by destruct Hp as (_ & (_ & _ & _ & ?) & _)).
  unfold Front. rewrite Eic, (proj1 Hok). cbn [CHECK obind].
  assert (∃ ir q', regst_desc_id2regsts (inplace_consumed_rs a) !! i = Some (ir :: q')) as (ir & q' & Hir).
  { rewrite <- Hdom in Hic. apply elem_of_dom in Hic as [[|ir q'] Hq']; [by destruct (Hheld Hip i Hi)|by exists ir, q']. }
  rewrite Hir. cbn [head]. destruct (allocation_type P r) eqn:Ea.
  - by destruct (co_alloc _ _ _ _ _ _ _ Hco r Hr).
  - exists a'. split; [done|by apply prepared_skip].
  - rewrite bool_decide_true by (by eapply body_none). cbn [CHECK obind].
    eexists. split; [done|]. rewrite <- Hd in *.
    replace (set_body _ a') with (set_body (partial_alter (λ _, body a' !! ir) r (body a')) (set_trace (trace a') a')) by (by destruct a').
    by eapply prepared_set_body.
Qed.

Lemma ready_held a : ainv [] idle a → IsCurSlotReady (inplace_consumed_rs a) = true → ∀ id, inplace_held a id.
Proof.
  intros H Hr id _ i _ Hq. by apply (slot_ready_lookup _ _ _ (proj1 (ai_ic H)) Hr Hq).
Qed.

Lemma Prepare_inv a :
  ainv [] idle a → IsReadReady a = true → IsWriteReady a = true →
  ∃ a', PrepareProducedNaiveInplaceDataRegst P c alloc_async a = Ret a' ∧ ainv [] (fronts a) a' ∧ same_slots a a'.
Proof.
  unfold IsReadReady, IsWriteReady. rewrite !andb_true_iff. intros H [_ Hic] [Hnp Hip].
  destruct (ai_np H) as [Hok1 Hdom1]. destruct (ai_ip H) as [Hok2 Hdom2].
  unfold PrepareProducedNaiveInplaceDataRegst, ForEachFrontRegst.
  destruct (ForChosenFront_ind (naive_produced_rs a) (λ _, true) (prepare_naive P alloc_async)
             (prepared a) a) as (a1 & seen1 & -> & Hp1 & _ & Hseen1).
  - intros id _ Hq. by apply (slot_ready_lookup _ _ _ Hok1 Hnp Hq).
  - split_and!; [|repeat split|done|done]. apply (inv_weaken _ _ _ _ H). by intros r _ _ [].
  - done.
  - intros seen a1 id r q Hq _ Hid Hp. eapply prepare_naive_step; [done|done| |done]. by apply writable_naive.
  - cbn [obind]. pose proof Hp1 as (_ & Hs1 & _). destruct Hs1 as (E1 & E2 & E3 & E4).
    destruct (ForChosenFront_ind (inplace_produced_rs a1) (λ _, true) (prepare_inplace P c)
               (λ seen, prepared a (seen1 ++ seen)) a1) as (a2 & seen2 & -> & Hp2 & _ & _).
    + rewrite E3. intros id _ Hq. by apply (slot_ready_lookup _ _ _ Hok2 Hip Hq).
    + by rewrite app_nil_r.
    + done.
    + rewrite E3. intros seen a2 id r q Hq _ Hid Hp. rewrite app_assoc.
      assert (id ∈ IP) as Hin by (rewrite <- Hdom2; by apply elem_of_dom).
      eapply prepare_inplace_step; [done|done| | |done|by apply ready_held].
      * by eapply writable_inplace.
      * rewrite not_elem_of_app. split; [|done]. rewrite Hseen1. intros Hn%elem_of_dom. rewrite Hdom1 in Hn.
        by destruct (co_np_ip _ _ _ _ _ _ _ Hco id Hn).
    + exists a2. split; [done|]. by destruct Hp2 as (? & ? & _).
Qed.

(** ** Giving the consumed registers back *)

Lemma set_nc_inv S B a rs :
  ainv S B a → slot_ok rs → dom (regst_desc_id2regsts rs) = NC →
  (∀ id q r, regst_desc_id2regsts rs !! id = Some q → r ∈ q →
     IsConsumedCtrlRegstDescId c id = false → regst_desc_id P r = id ∧ has_data_regst_desc P r = true) →
  ainv S B (set_naive_consumed_rs rs a).
Proof. intros H Hok Hdom Hq. constructor; try keep H; done. Qed.

Lemma set_ic_inv S B a rs :
  ainv S B a → slot_ok rs → dom (regst_desc_id2regsts rs) = IC →
  (∀ id q r, regst_desc_id2regsts rs !! id = Some q → r ∈ q → regst_desc_id P r = id) →
  (∀ r n i, reading_cnt a !! r = Some n → 0 < n → regst_desc_id P r ∈ IP →
     inplace_regst_desc_id_out2in c !! regst_desc_id P r = Some i → regst_desc_id2regsts rs !! i ≠ Some []) →
  ainv S B (set_inplace_consumed_rs rs a).
Proof. intros H Hok Hdom Hq Hh. constructor; try keep H; done. Qed.

Lemma tail_in (q : list nat) r : r ∈ tail q → r ∈ q.
Proof. destruct q; [done|]. intros ?. by right. Qed.

Lemma pop_all_in m ids id q r : pop_all m ids !! id = Some q → r ∈ q → ∃ q', m !! id = Some q' ∧ r ∈ q'.
Proof.
  rewrite pop_all_lookup. destruct (m !! id) as [q'|]; [|done]. cbn. intros [= <-] Hr. exists q'. split; [done|].
  case_bool_decide; [by apply tail_in|done].
Qed.

Lemma pop_consumed_inv S B a ids :
  ainv S B a → NoDup ids → (∀ id, id ∈ ids → ∃ r q, regst_desc_id2regsts (naive_consumed_rs a) !! id = Some (r :: q)) →
  ∃ rs, PopFrontRegsts (naive_consumed_rs a) ids = Ret rs ∧ ainv S B (set_naive_consumed_rs rs a) ∧
    regst_desc_id2regsts rs = pop_all (regst_desc_id2regsts (naive_consumed_rs a)) ids.
Proof.
  intros H Hnd Hids. destruct (ai_nc H) as [Hok Hdom].
  destruct (PopFrontRegsts_spec _ ids Hok Hnd Hids) as (rs & -> & Hrs & Ers). exists rs. split_and!; [done| |done].
  apply set_nc_inv; [done|done|by rewrite Ers, pop_all_dom|]. intros id q r. rewrite Ers. intros Hq Hr.
  destruct (pop_all_in _ _ _ _ _ Hq Hr) as (q' & ? & ?). by eapply (ai_consumed H).
Qed.

(** Slots and readers are as before. *)
Definition same_but_consumed (a a' : actor) : Prop :=
  naive_produced_rs a' = naive_produced_rs a ∧ inplace_produced_rs a' = inplace_produced_rs a ∧
  inplace_consumed_rs a' = inplace_consumed_rs a ∧ reading_cnt a' = reading_cnt a.

(** What the loops over the consumed registers keep: they only queue messages. *)
Definition collecting (S : list Z) (B : nat → Prop) (a : actor) (chosen : Z → bool) (seen : list Z) (st : actor * list Z) : Prop :=
  ainv S B st.1 ∧ same_slots a st.1 ∧ reading_cnt st.1 = reading_cnt a ∧ NoDup st.2 ∧ ∀ id, id ∈ st.2 ↔ id ∈ seen ∧ chosen id = true.

Lemma collecting_start S B a chosen : ainv S B a → collecting S B a chosen [] (a, []).
Proof.
  intros H. split_and!; [done|repeat split|done|apply NoDup_nil_2|]. intros id. cbn. rewrite !elem_of_nil. tauto.
Qed.

Lemma collecting_skip S B a chosen seen st id :
  collecting S B a chosen seen st → chosen id = false → collecting S B a chosen (seen ++ [id]) st.
Proof.
  intros (H & Hs & Hr & Hnd & Hids) Hc. split_and!; [done..|]. intros x. rewrite Hids, elem_of_app, list_elem_of_singleton.
  split; [tauto|]. intros [[?| ->] ?]; [done|congruence].
Qed.

Lemma collecting_step S B a chosen seen a1 ids id m :
  collecting S B a chosen seen (a1, ids) → id ∉ seen → chosen id = true →
  collecting S B a chosen (seen ++ [id]) (EnqueueAsyncMsg P c a1 m, ids ++ [id]).
Proof.
  intros (H & Hs & Hr & Hnd & Hids) Hid Hc. cbn [fst snd] in *.
  destruct (Enqueue_same a1 m) as (q1 & q2 & E). split_and!; cbn [fst snd].
  - by apply Enqueue_inv.
  - eapply same_slots_trans; [done|]. rewrite E. repeat split.
  - by rewrite E.
  - apply NoDup_app. split_and!; [done| |apply NoDup_singleton]. intros x Hx ->%list_elem_of_singleton. apply Hids in Hx. tauto.
  - intros x. rewrite !elem_of_app, !list_elem_of_singleton, Hids. split; [|tauto]. intros [?| ->]; tauto.
Qed.

Definition data_chosen (id : Z) : bool := negb (IsConsumedCtrlRegstDescId c id).

Lemma HandleConsumedNaive_inv S B a :
  ainv S B a → IsCurSlotReady (naive_consumed_rs a) = true →
  ∃ a', HandleConsumedNaiveDataRegstToProducer P c a = Ret a' ∧ ainv S B a' ∧ same_but_consumed a a' ∧
    ∀ id, regst_desc_id2regsts (naive_consumed_rs a') !! id =
      (λ q, if data_chosen id then tail q else q) <$> regst_desc_id2regsts (naive_consumed_rs a) !! id.
Proof.
  intros H Hr. destruct (ai_nc H) as [Hok Hdom]. unfold HandleConsumedNaiveDataRegstToProducer, ForEachFrontRegst.
  set (h := λ '(a, ids) (id : Z) r, if IsConsumedCtrlRegstDescId c id then Ret (a, ids) else _).
  destruct (ForChosenFront_ind (naive_consumed_rs a) (λ _, true) h (collecting S B a data_chosen) (a, []))
    as ([a1 ids] & seen & -> & (H1 & Hs1 & Hr1 & Hnd & Hids) & _ & Hseen).
  - intros id _ Hq. by apply (slot_ready_lookup _ _ _ Hok Hr Hq).
  - by apply collecting_start.
  - done.
  - intros seen [a1 ids] id r q Hq _ Hid Hc. unfold h. destruct (IsConsumedCtrlRegstDescId c id) eqn:Ectrl.
    + exists (a1, ids). split; [done|]. apply collecting_skip; [done|]. unfold data_chosen. by rewrite Ectrl.
    + destruct (ai_consumed H id (r :: q) r Hq) as [Hd Hdata]; [left|done|]. rewrite Hdata, Hd.
      eexists. split; [done|]. apply collecting_step; [done|done|]. unfold data_chosen. by rewrite Ectrl.
  - cbn [fst snd obind] in *. destruct Hs1 as (E1 & E2 & E3 & E4).
    destruct (pop_consumed_inv S B a1 ids H1 Hnd) as (rs & -> & H2 & Ers).
    { rewrite E2. intros id [[q Hq]%Hseen _]%Hids. destruct q as [|r q]; [|by exists r, q].
      by destruct (slot_ready_lookup _ _ _ Hok Hr Hq). }
    cbn [obind]. eexists. split_and!; [done|done|done|]. intros id. cbn. rewrite Ers, pop_all_lookup, E2.
    destruct (_ !! id) as [q|] eqn:Eq; [|done]. cbn. f_equal.
    destruct (data_chosen id) eqn:Ed; [rewrite bool_decide_true|rewrite bool_decide_false]; [done| |done|].
    + apply Hids. split; [apply Hseen; by exists q|done].
    + intros [_ ?]%Hids. congruence.
Qed.

Lemma AsyncSendConsumedCtrl_inv S B a :
  ainv S B a →
  (∀ id, IsConsumedCtrlRegstDescId c id = true → regst_desc_id2regsts (naive_consumed_rs a) !! id ≠ Some []) →
  ∃ a', AsyncSendConsumedCtrlRegstMsgToProducer P c a = Ret a' ∧ ainv S B a' ∧ same_but_consumed a a' ∧
    ∀ id, regst_desc_id2regsts (naive_consumed_rs a') !! id =
      (λ q, if IsConsumedCtrlRegstDescId c id then tail q else q) <$> regst_desc_id2regsts (naive_consumed_rs a) !! id.
Proof.
  intros H Hne. destruct (ai_nc H) as [Hok Hdom]. unfold AsyncSendConsumedCtrlRegstMsgToProducer, ForChosenRegstDeq.
  set (f := λ (st : actor * list Z) '(id, q), if IsConsumedCtrlRegstDescId c id then _ else Ret st).
  destruct (ofold_map_to_list (regst_desc_id2regsts (naive_consumed_rs a)) (collecting S B a (IsConsumedCtrlRegstDescId c)) f (a, []))
    as ([a1 ids] & seen & -> & (H1 & Hs1 & Hr1 & Hnd & Hids) & _ & Hseen).
  - by apply collecting_start.
  - intros seen [a1 ids] id q Hq Hid Hc. unfold f. destruct (IsConsumedCtrlRegstDescId c id) eqn:Ectrl.
    + destruct q as [|r q]; [by destruct (Hne id Ectrl)|].
      destruct (co_consumed_ctrl _ _ _ _ _ _ _ Hco id) as [p ->]; [rewrite <- Hdom; by apply elem_of_dom|done|].
      eexists. split; [done|]. by apply collecting_step.
    + exists (a1, ids). split; [done|]. by apply collecting_skip.
  - cbn [fst snd obind] in *. destruct Hs1 as (E1 & E2 & E3 & E4).
    destruct (pop_consumed_inv S B a1 ids H1 Hnd) as (rs & -> & H2 & Ers).
    { rewrite E2. intros id [[q Hq]%Hseen Hc]%Hids. destruct q as [|r q]; [by destruct (Hne id Hc)|by exists r, q]. }
    cbn [obind]. eexists. split_and!; [done|done|done|]. intros id. cbn. rewrite Ers, pop_all_lookup, E2.
    destruct (_ !! id) as [q|] eqn:Eq; [|done]. cbn. f_equal.
    destruct (IsConsumedCtrlRegstDescId c id) eqn:Ed; [rewrite bool_decide_true|rewrite bool_decide_false]; [done| |done|].
    + apply Hids. split; [apply Hseen; by exists q|done].
    + intros [_ ?]%Hids. congruence.
Qed.

(** The message to the producer leaves the slots alone: the register is not a
    naive input. *)
Lemma AsyncSendRegstMsg_inplace S B a r :
  ainv S B a → regst_desc_id P r ∉ NC →
  AsyncSendRegstMsgToProducer P c a r = Ret (EnqueueAsyncMsg P c a (ToProducer (producer_actor_id P r) r)).
Proof.
  intros H Hn. unfold AsyncSendRegstMsgToProducer.
  pose proof (Enqueue_inv S B a (ToProducer (producer_actor_id P r) r) H) as H1. set (a1 := EnqueueAsyncMsg P c a _) in *.
  destruct (ai_nc H1) as [Hok Hdom]. rewrite pop_absent; [cbn [obind]; by destruct a1|done|].
  apply not_elem_of_dom. by rewrite Hdom.
Qed.

Lemma AsyncRetInplace_inv B a :
  ainv [] B a →
  ∃ a', AsyncRetInplaceConsumedRegstIfNoConsumer P c a = Ret a' ∧ ainv [] B a' ∧
    naive_consumed_rs a' = naive_consumed_rs a ∧ naive_produced_rs a' = naive_produced_rs a ∧
    inplace_produced_rs a' = inplace_produced_rs a ∧ reading_cnt a' = reading_cnt a.
Proof.
  intros H. destruct (ai_ic H) as [Hok Hdom]. unfold AsyncRetInplaceConsumedRegstIfNoConsumer, ForChosenRegstDeq.
  set (m := regst_desc_id2regsts (inplace_consumed_rs a)).
  set (chosen := λ id, bool_decide (id ∈ inplace_in_ids_with_no_out_consumed c) && negb (bool_decide (m !! id = Some []))).
  set (f := λ (st : actor * list Z) '(id, q), if bool_decide (id ∈ _) then _ else Ret st).
  destruct (ofold_map_to_list m (collecting [] B a chosen) f (a, []))
    as ([a1 ids] & seen & -> & (H1 & (E1 & E2 & E3 & E4) & Hr1 & Hnd & Hids) & _ & Hseen).
  - by apply collecting_start.
  - intros seen [a1 ids] id q Hq Hid Hc. unfold f, chosen in *. case_bool_decide as Hno; cycle 1.
    { exists (a1, ids). split; [done|]. apply collecting_skip; [done|]. by rewrite (bool_decide_false _ Hno). }
    destruct q as [|r q].
    { exists (a1, ids). split; [done|]. apply collecting_skip; [done|]. rewrite (bool_decide_true (m !! id = Some [])) by done. apply andb_false_r. }
    assert (regst_desc_id P r = id) as Hd by (eapply (ai_inplace H); [done|left]).
    rewrite (AsyncSendRegstMsg_inplace [] B); [|by destruct Hc|].
    + cbn [obind]. rewrite Hd. eexists. split; [done|]. apply collecting_step; [done|done|].
      rewrite !(bool_decide_true (id ∈ _)) by done. rewrite bool_decide_false by congruence. done.
    + rewrite Hd. intros Hn. apply (co_nc_ic _ _ _ _ _ _ _ Hco id Hn). rewrite <- Hdom. by apply elem_of_dom.
  - cbn [fst snd obind] in *. destruct (ai_ic H1) as [Hok1 Hdom1].
    destruct (PopFrontRegsts_spec (inplace_consumed_rs a1) ids Hok1 Hnd) as (rs & -> & Hrs & Ers).
    { rewrite E4. fold m. intros id [[q Hq]%Hseen Hc]%Hids. destruct q as [|r q]; [|by exists r, q].
      unfold chosen in Hc. rewrite (bool_decide_true (m !! id = Some [])), andb_false_r in Hc by done. done. }
    cbn [obind]. eexists. split_and!; [done| |done..].
    apply set_ic_inv; [done|done|by rewrite Ers, pop_all_dom| |].
    + intros id q r Hq Hr. rewrite Ers in Hq. destruct (pop_all_in _ _ _ _ _ Hq Hr) as (q' & ? & ?). by eapply (ai_inplace H1).
    + intros r n i Hn Hpos Hip Hi. rewrite Ers, pop_all_lookup.
      case_bool_decide as Hin; [|destruct (_ !! i) eqn:Ei; [|done]; cbn; rewrite <- Ei; by eapply (ai_held H1)].
      exfalso. apply Hids in Hin as [_ Hc]. unfold chosen in Hc. apply andb_true_iff in Hc as [Hno%bool_decide_eq_true _].
      assert (r ∈ RS) as Hr by (apply (ai_owned H1); by exists n).
      pose proof (co_no_out _ _ _ _ _ _ _ Hco i r Hno Hr Hip Hi) as Hcs.
      pose proof (ai_bound H1 r n Hn) as Hb. unfold consumers in Hb. rewrite Hcs in Hb. cbn in Hb. lia.
Qed.

(** ** One act *)

Lemma Act_inv S B a : ainv S B a → ainv S B (Act a).
Proof. intros H. constructor; keep H. Qed.

Lemma writable_not_naive S B a id :
  ainv S B a → id ∉ NP → writable a !! id = regst_desc_id2regsts (inplace_produced_rs a) !! id.
Proof.
  intros H Hn. unfold writable. rewrite lookup_union.
  assert (regst_desc_id2regsts (naive_produced_rs a) !! id = None) as ->
    by (apply not_elem_of_dom; by rewrite (proj2 (ai_np H))).
  by destruct (_ !! id).
Qed.

Lemma act_once_spec a :
  ainv [] idle a → IsReadReady a = true → IsWriteReady a = true →
  ∃ a', act_once P c alloc_async a = Ret a' ∧ ainv [] idle a' ∧
    ∀ id, regst_desc_id2regsts (naive_consumed_rs a') !! id = tail <$> regst_desc_id2regsts (naive_consumed_rs a) !! id.
Proof.
  intros H Hr Hw. destruct (Prepare_inv a H Hr Hw) as (a1 & E1 & H1 & Hs1).
  pose proof Hr as Hr'. pose proof Hw as Hw'. unfold IsReadReady in Hr'. unfold IsWriteReady in Hw'.
  apply andb_true_iff in Hr' as [Hnc Hic]. apply andb_true_iff in Hw' as [Hnp Hip].
  pose proof Hs1 as (En1 & Ec1 & Ei1 & Eic1).
  unfold act_once, AsyncSendNaiveProducedRegstMsgToConsumer, AsyncSendNaiveConsumedRegstMsgToProducer.
  rewrite E1. cbn [obind].
  pose proof (Act_inv _ _ _ H1) as H2. set (a2 := Act a1) in *.
  destruct (HandleProducedNaive_inv (fronts a) a2 H2) as (a3 & -> & H3 & Ec3 & Ei3 & Eic3 & Hctrl3).
  { intros r Hf. unfold fronts. change (writable a2) with (writable a1). by rewrite (same_slots_writable _ _ Hs1). }
  { unfold a2. cbn. by rewrite En1. }
  cbn [obind]. destruct (AsyncSendProducedCtrl_inv _ a3 H3) as (a4 & -> & H4 & Ec4 & Ei4 & Eic4).
  { intros id Hc. rewrite (Hctrl3 id Hc). unfold a2. cbn. rewrite En1. intros Hq.
    by apply (slot_ready_lookup _ _ _ (proj1 (ai_np H)) Hnp Hq). }
  cbn [obind]. assert (inplace_produced_rs a4 = inplace_produced_rs a) as Ei by (rewrite Ei4, Ei3; exact Ei1).
  assert (inplace_consumed_rs a4 = inplace_consumed_rs a) as Eic by (rewrite Eic4, Eic3; exact Eic1).
  assert (naive_consumed_rs a4 = naive_consumed_rs a) as Ec by (rewrite Ec4, Ec3; exact Ec1).
  destruct (HandleProducedInplace_inv _ a4 H4) as (a5 & -> & H5 & Ec5 & Eic5 & _).
  { intros r [[Hd (q & Hq)] Hn]. split; [done|]. exists q.
    rewrite (writable_not_naive _ _ _ _ H4 Hn), Ei. by rewrite (writable_not_naive _ _ _ _ H Hn) in Hq. }
  { by rewrite Ei. }
  { intros id. unfold inplace_held. rewrite Eic. by apply ready_held. }
  cbn [obind]. apply (inv_weaken _ _ idle) in H5; cycle 1.
  { intros r Hrs _ [[_ H6] H7]. destruct (co_owned _ _ _ _ _ _ _ Hco r Hrs) as [[?|?]%elem_of_union _]; done. }
  rewrite Ec in Ec5. destruct (HandleConsumedNaive_inv _ _ a5 H5) as (a6 & -> & H6 & _ & L6); [by rewrite Ec5|].
  cbn [obind]. destruct (AsyncSendConsumedCtrl_inv _ _ a6 H6) as (a7 & -> & H7 & _ & L7).
  { intros id Hc. rewrite L6, Ec5. unfold data_chosen. rewrite Hc. intros Hq.
    destruct (_ !! id) eqn:Eq; [|done]. injection Hq as ->. by apply (slot_ready_lookup _ _ _ (proj1 (ai_nc H)) Hnc Eq). }
  cbn [obind]. destruct (AsyncRetInplace_inv _ a7 H7) as (a8 & -> & H8 & Ec8 & _). cbn [obind].
  eexists. split_and!; [done|by apply AsyncSendQueuedMsg_inv|]. intros id.
  replace (naive_consumed_rs (AsyncSendQueuedMsg a8)) with (naive_consumed_rs a7); cycle 1.
  { rewrite <- Ec8. unfold AsyncSendQueuedMsg. destruct (sync_msg_queue a8); cbn; by destruct (async_msg_queue a8). }
  rewrite L7, L6, Ec5. unfold data_chosen. by destruct (_ !! id), (IsConsumedCtrlRegstDescId c id).
Qed.

(** Every act takes one register of each naive input. *)
Lemma act_loop_spec fuel : ∀ a id q,
  ainv [] idle a → regst_desc_id2regsts (naive_consumed_rs a) !! id = Some q → (length q ≤ fuel)%nat →
  ∃ a', act_loop P c alloc_async fuel a = Ret a' ∧ ainv [] idle a' ∧ IsReadReady a' && IsWriteReady a' = false.
Proof.
  induction fuel as [|fuel IH]; intros a id q H Hq Hl; cbn [act_loop].
  - destruct (IsReadReady a && IsWriteReady a) eqn:E; [|by exists a]. exfalso.
    apply andb_true_iff in E as [Hr _]. unfold IsReadReady in Hr. apply andb_true_iff in Hr as [Hr _].
    destruct q; [|cbn in Hl; lia]. by apply (slot_ready_lookup _ _ _ (proj1 (ai_nc H)) Hr Hq).
  - destruct (IsReadReady a && IsWriteReady a) eqn:E; [|by exists a]. apply andb_true_iff in E as [Hr Hw].
    destruct (act_once_spec a H Hr Hw) as (a1 & -> & H1 & L1). cbn [obind].
    apply (IH a1 id (tail q)); [done| |destruct q; cbn in *; lia]. by rewrite L1, Hq.
Qed.

Lemma ActUntilFail_spec fuel a id q :
  ainv [] idle a → regst_desc_id2regsts (naive_consumed_rs a) !! id = Some q → (length q ≤ fuel)%nat →
  ∃ a', ActUntilFail P c alloc_async fuel a = Ret a' ∧ ainv [] idle a'.
Proof.
  intros H Hq Hl. destruct (act_loop_spec fuel a id q H Hq Hl) as (a' & E & H' & _). unfold ActUntilFail.
  rewrite E. cbn [obind]. eexists. split; [done|]. by apply AsyncSendQueuedMsg_inv.
Qed.

(** ** A register comes back *)

(** One reader less, others are left. *)
Lemma reader_less_inv a r n :
  ainv [] idle a → reading_cnt a !! r = Some n → 1 < n →
  ainv [] idle (set_total_reading_cnt (total_reading_cnt a - 1) (set_reading_cnt (<[r := n - 1]> (reading_cnt a)) a)).
Proof.
  intros H Hn Hpos. set (a' := set_total_reading_cnt _ _).
  assert (∀ r', reading_cnt a' !! r' = if decide (r = r') then Some (n - 1) else reading_cnt a !! r') as Erd.
  { intros r'. unfold a'. cbn. destruct (decide (r = r')) as [->|]; [by rewrite lookup_insert_eq|by rewrite lookup_insert_ne]. }
  constructor; try keep H.
  - intros r'. rewrite Erd. destruct (decide (r = r')) as [<-|]; [|apply (ai_owned H)].
    split; [intros _; apply (ai_owned H); by exists n|by eexists].
  - intros r' k. rewrite Erd. destruct (decide (r = r')) as [<-|]; [|apply (ai_bound H)]. intros [= <-].
    pose proof (ai_bound H r n Hn). lia.
  - unfold a'. cbn. rewrite (map_sum_update _ _ n) by done. rewrite <- (ai_total H). lia.
  - intros id q r' Hq Hr'. destruct (ai_queue H id q r' Hq Hr') as [? [Hz|([]%not_elem_of_nil & _)]]. split; [done|left].
    rewrite Erd. destruct (decide (r = r')) as [<-|]; [|done]. rewrite Hn in Hz. injection Hz as ->. lia.
  - intros r'. rewrite Erd. destruct (decide (r = r')) as [<-|]; [|apply (ai_free H)]. intros [= ?]. lia.
  - intros id []%not_elem_of_nil.
  - intros r'. rewrite Erd. destruct (decide (r = r')) as [<-|]; [|apply (ai_body H)]. intros [= ?]. lia.
  - intros r' k i. rewrite Erd. destruct (decide (r = r')) as [<-|]; [|apply (ai_held H)]. intros _ _. apply (ai_held H r n); [done|lia].
Qed.

(** The last reader gives [r] back: it is writable again. *)
Lemma given_back_inv a a' r q :
  ainv [] idle a → reading_cnt a !! r = Some 1 → writable a !! regst_desc_id P r = Some q →
  (∃ np ip, a' = set_naive_produced_rs np (set_inplace_produced_rs ip
      (set_total_reading_cnt (total_reading_cnt a - 1) (set_reading_cnt (<[r := 0]> (reading_cnt a)) a)))) →
  slot_ok (naive_produced_rs a') → dom (regst_desc_id2regsts (naive_produced_rs a')) = NP →
  slot_ok (inplace_produced_rs a') → dom (regst_desc_id2regsts (inplace_produced_rs a')) = IP →
  writable a' = <[regst_desc_id P r := q ++ [r]]> (writable a) → ainv [] (λ r', r' = r) a'.
Proof.
  intros H Hn Hq (np & ip & ->) Hnp Enp Hip Eip Ew. set (a' := set_naive_produced_rs _ _) in *.
  assert (∀ r', reading_cnt a' !! r' = if decide (r = r') then Some 0 else reading_cnt a !! r') as Erd.
  { intros r'. unfold a'. cbn. destruct (decide (r = r')) as [->|]; [by rewrite lookup_insert_eq|by rewrite lookup_insert_ne]. }
  assert (r ∉ q) as Hrq.
  { intros Hin. destruct (ai_queue H _ q r Hq Hin) as [_ [?|([]%not_elem_of_nil & _)]]. congruence. }
  assert (∀ id q', writable a' !! id = Some q' →
            (id = regst_desc_id P r ∧ q' = q ++ [r]) ∨ writable a !! id = Some q') as Hw.
  { intros id q'. rewrite Ew, lookup_insert_Some. intros [[<- <-]|[_ ?]]; auto. }
  constructor; try keep H; try done.
  - intros r'. rewrite Erd. destruct (decide (r = r')) as [<-|]; [|apply (ai_owned H)].
    split; [intros _; apply (ai_owned H); by exists 1|by eexists].
  - intros r' k. rewrite Erd. destruct (decide (r = r')) as [<-|]; [|apply (ai_bound H)]. intros [= <-].
    unfold consumers. lia.
  - unfold a'. cbn. rewrite (map_sum_update _ _ 1) by done. rewrite <- (ai_total H). lia.
  - intros id q' [[-> ->]|Hq']%Hw; [|by eapply (ai_nodup H)]. apply NoDup_app.
    split_and!; [by eapply (ai_nodup H)| |apply NoDup_singleton]. by intros x Hx ->%list_elem_of_singleton.
  - intros id q' r' Hq' Hr'. assert (regst_desc_id P r' = id ∧ (r' = r ∨ reading_cnt a !! r' = Some 0)) as [Hd Hz].
    { apply Hw in Hq' as [[-> ->]|Hq'].
      - apply elem_of_app in Hr' as [Hr'| ->%list_elem_of_singleton]; [|by auto].
        destruct (ai_queue H _ q r' Hq Hr') as [? [?|([]%not_elem_of_nil & _)]]. auto.
      - destruct (ai_queue H id q' r' Hq' Hr') as [? [?|([]%not_elem_of_nil & _)]]. auto. }
    split; [done|left]. rewrite Erd. destruct (decide (r = r')) as [<-|]; [done|]. by destruct Hz.
  - intros r'. rewrite Erd. destruct (decide (r = r')) as [<-|Hne].
    + intros _. exists (q ++ [r]). rewrite Ew, lookup_insert_eq. split; [done|]. apply elem_of_app. right. by apply list_elem_of_singleton.
    + intros (q' & Hq' & Hin)%(ai_free H). rewrite Ew. destruct (decide (regst_desc_id P r = regst_desc_id P r')) as [E|E].
      * rewrite E, lookup_insert_eq. exists (q ++ [r]). split; [done|]. rewrite <- E, Hq in Hq'. injection Hq' as ->. apply elem_of_app. by left.
      * rewrite lookup_insert_ne by done. by exists q'.
  - intros id []%not_elem_of_nil.
  - intros r'. rewrite Erd. destruct (decide (r = r')) as [<-|]; [by left|]. intros Hz Hs.
    destruct (ai_body H r' Hz Hs) as [[]|?]. by right.
  - intros r' k i. rewrite Erd. destruct (decide (r = r')) as [<-|]; [intros [= <-]; lia|apply (ai_held H)].
Qed.

(** The first reader of the in-place input is given back with its output. *)
Lemma inplace_return_inv a r q :
  ainv [] idle a → reading_cnt a !! r = Some 1 → regst_desc_id P r ∈ IP →
  regst_desc_id2regsts (inplace_produced_rs a) !! regst_desc_id P r = Some q →
  let a1 := set_total_reading_cnt (total_reading_cnt a - 1) (set_reading_cnt (<[r := 0]> (reading_cnt a)) a) in
  ∃ rs a' , TryPushBackRegst (inplace_produced_rs a) r (regst_desc_id P r) = Ret (0, rs) ∧
    (match inplace_regst_desc_id_out2in c !! regst_desc_id P r with
     | None => Crash
     | Some in_id =>
         let* in_regst := Front (inplace_consumed_rs (set_inplace_produced_rs rs a1)) in_id in
         match in_regst with
         | None => Crash
         | Some ir =>
             let* a := forget_body P (set_inplace_produced_rs rs a1) r in
             let* a := AsyncSendRegstMsgToProducer P c a ir in
             let* (rc, rs) := TryPopFrontRegst (inplace_consumed_rs a) in_id in
             let* _ := CHECK (Z.eqb 0 rc) in
             Ret (0, set_inplace_consumed_rs rs a)
         end
     end) = Ret (0, a') ∧ ainv [] idle a' ∧ naive_consumed_rs a' = naive_consumed_rs a.
Proof.
  intros H Hn Hip Hq a1. destruct (ai_ip H) as [Hok Hdom]. destruct (ai_np H) as [Hok' Hdom'].
  assert (r ∈ RS) as Hr by (apply (ai_owned H); by exists 1).
  destruct (push_spec _ r _ q Hok Hq) as (rs & E & Hrs & Ers). exists rs.
  destruct (co_inplace _ _ _ _ _ _ _ Hco _ Hip) as (_ & i & Hi & Hic). rewrite Hi.
  destruct (ai_ic H) as [Hok2 Hdom2].
  assert (∃ ir q', regst_desc_id2regsts (inplace_consumed_rs a) !! i = Some (ir :: q')) as (ir & q' & Hir).
  { rewrite <- Hdom2 in Hic. apply elem_of_dom in Hic as [[|ir q'] Hq']; [|by exists ir, q'].
    by destruct (ai_held H r 1 i Hn ltac:(lia) Hip Hi). }
  assert (ainv [] (λ r', r' = r) (set_inplace_produced_rs rs a1)) as H1.
  { assert (∀ id, id ∈ NP → id ∈ IP → False) as Hdis by (intros id ??; by apply (co_np_ip _ _ _ _ _ _ _ Hco id)).
    eapply (given_back_inv a _ r q); [done|done|by eapply writable_inplace| |done|done|done| |].
    - exists (naive_produced_rs a), rs. unfold a1. by destruct a.
    - cbn. rewrite Ers, dom_insert_L, Hdom. set_solver.
    - unfold writable. cbn. rewrite Ers. symmetry. apply insert_union_r, not_elem_of_dom. rewrite Hdom'. intros ?. by eapply Hdis. }
  unfold Front. cbn [inplace_consumed_rs set_inplace_produced_rs a1 set_total_reading_cnt set_reading_cnt].
  rewrite (proj1 Hok2), Hir. cbn [CHECK obind head].
  destruct (forget_body_inv _ _ _ r H1 Hr) as (a2 & -> & H2 & (b & Ea2)). cbn [obind].
  apply (inv_weaken _ _ idle) in H2; [|by intros r' _ _ [-> ?]].
  assert (regst_desc_id P ir = i) as Hd by (eapply (ai_inplace H); [done|left]).
  rewrite (AsyncSendRegstMsg_inplace [] idle); [|done|].
  2: { rewrite Hd. intros Hnc. by apply (co_nc_ic _ _ _ _ _ _ _ Hco i Hnc). }
  cbn [obind]. destruct (Enqueue_same a2 (ToProducer (producer_actor_id P ir) ir)) as (q1 & q2 & E3).
  pose proof (Enqueue_inv [] idle a2 (ToProducer (producer_actor_id P ir) ir) H2) as H3.
  set (a3 := EnqueueAsyncMsg P c a2 _) in *.
  assert (inplace_consumed_rs a3 = inplace_consumed_rs a) as Eic by (rewrite E3, Ea2; done).
  assert (reading_cnt a3 = <[r := 0]> (reading_cnt a)) as Erd by (rewrite E3, Ea2; done).
  assert (naive_consumed_rs a3 = naive_consumed_rs a) as Enc by (rewrite E3, Ea2; done).
  destruct (pop_spec (inplace_consumed_rs a3) i ir q') as (rs' & -> & Hrs' & Ers'); [by rewrite Eic|by rewrite Eic|].
  cbn [obind Z.eqb CHECK]. eexists. split_and!; [done|done| |done].
  apply set_ic_inv; [done|done| | |].
  - rewrite Ers', Eic, dom_insert_L, Hdom2. set_solver.
  - intros id q0 r'. rewrite Ers', Eic, lookup_insert_Some. intros [[<- <-]|[_ Hl]] Hin; (eapply (ai_inplace H); [done|]); [by right|done].
  - intros r' n' i'. rewrite Erd, Ers', Eic. intros Hn' Hpos Hip' Hi'.
    destruct (decide (r = r')) as [<-|Hne]; [rewrite lookup_insert_eq in Hn'; injection Hn' as <-; lia|].
    rewrite lookup_insert_ne in Hn' by done. destruct (decide (i = i')) as [<-|Hnei].
    + exfalso. assert (r' ∈ RS) as Hr' by (apply (ai_owned H); by exists n').
      pose proof (co_inj _ _ _ _ _ _ _ Hco _ _ _ Hi Hi') as Heq. apply Hne. by eapply (co_single _ _ _ _ _ _ _ Hco).
    + rewrite lookup_insert_ne by done. by eapply (ai_held H).
Qed.

Lemma TryUpdt_spec a r n :
  ainv [] idle a → reading_cnt a !! r = Some n → 1 ≤ n →
  ∃ a', TryUpdtStateAsProducedRegst P c a r = Ret (0, a') ∧ ainv [] idle a' ∧
    naive_consumed_rs a' = naive_consumed_rs a.
Proof.
  intros H Hn Hpos. assert (r ∈ RS) as Hr by (apply (ai_owned H); by exists n).
  destruct (co_owned _ _ _ _ _ _ _ Hco r Hr) as [Hid Hprod]. unfold TryUpdtStateAsProducedRegst. rewrite Hn.
  rewrite bool_decide_true by done. rewrite (proj2 (Z.leb_le 1 n)) by done. cbn [CHECK obind].
  destruct (Z.eqb_spec (n - 1) 0) as [Hz|Hz]; cbn [negb].
  2: { eexists. split_and!; [done| |done]. apply (reader_less_inv a r n); [done|done|lia]. }
  assert (n = 1) as -> by lia. change (1 - 1) with 0.
  destruct (ai_ip H) as [Hok Hdom]. destruct (ai_np H) as [Hok' Hdom'].
  cbn [inplace_produced_rs set_total_reading_cnt set_reading_cnt].
  destruct (decide (regst_desc_id P r ∈ IP)) as [Hip|Hnip].
  - pose proof Hip as Hk. rewrite <- Hdom in Hk. apply elem_of_dom in Hk as [q Hq].
    destruct (inplace_return_inv a r q H Hn Hip Hq) as (rs & a' & -> & E & H' & Enc). cbn [obind Z.eqb].
    exists a'. split_and!; [exact E|done|done].
  - assert (regst_desc_id P r ∈ NP) as Hnp by (apply elem_of_union in Hid as [?|?]; done).
    rewrite push_absent; [|done|apply not_elem_of_dom; by rewrite Hdom]. cbn [obind Z.eqb].
    cbn [naive_produced_rs set_inplace_produced_rs set_total_reading_cnt set_reading_cnt].
    pose proof Hnp as Hk. rewrite <- Hdom' in Hk. apply elem_of_dom in Hk as [q Hq].
    destruct (push_spec _ r _ q Hok' Hq) as (rs & -> & Hrs & Ers). cbn [obind Z.eqb].
    set (a1 := set_naive_produced_rs rs _).
    assert (ainv [] (λ r', r' = r) a1) as H1.
    { eapply (given_back_inv a _ r q); [done|done|by apply writable_naive|by do 2 eexists|done| |done|done|].
      - cbn. rewrite Ers, dom_insert_L, Hdom'. set_solver.
      - unfold writable. cbn. rewrite Ers. symmetry. apply insert_union_l. }
    destruct (free_body_inv _ _ _ r H1 Hr) as (a2 & -> & H2 & (b & t & ->)). cbn [obind].
    eexists. split_and!; [done| |done]. apply (inv_weaken _ _ _ _ H2). by intros r' _ _ [-> ?].
Qed.

(** ** The handlers *)

(** The protocol of the other actors: a register that is handed over is one of the
    inputs, a register that comes back has a reader, the end of an input is told
    once. *)
Definition wf_msg (a : actor) (msg : ActorMsg) : Prop :=
  match msg with
  | kRegstMsg src r d =>
      if Z.eqb src (Rank P) then
        if decide (regst_desc_id P r ∈ NC) then
          IsConsumedCtrlRegstDescId c (regst_desc_id P r) = false → has_data_regst_desc P r = true
        else if decide (regst_desc_id P r ∈ IC) then True
        else ∃ n, reading_cnt a !! r = Some n ∧ 1 ≤ n
      else if IsConsumedCtrlRegstDescId c d then d ∈ NC
      else ∃ n, reading_cnt a !! r = Some n ∧ 1 ≤ n
  | kEordMsg id => id ∉ eord_regst_desc_ids a
  | kCmdMsg cmd => cmd = kStart
  end.

Lemma Has_spec rs keys id :
  slot_ok rs → dom (regst_desc_id2regsts rs) = keys → HasRegstDescId rs id = Ret (bool_decide (id ∈ keys)).
Proof.
  intros [Hi _] <-. unfold HasRegstDescId. rewrite Hi. cbn [CHECK obind]. f_equal. apply bool_decide_ext.
  symmetry. apply elem_of_dom.
Qed.

Lemma push_naive_consumed_inv a r id :
  ainv [] idle a → id ∈ NC →
  (IsConsumedCtrlRegstDescId c id = false → regst_desc_id P r = id ∧ has_data_regst_desc P r = true) →
  ∃ rs q, push_checked (naive_consumed_rs a) r id = Ret rs ∧ RegstDeq4RegstDescId rs id = Ret (q ++ [r]) ∧
    ainv [] idle (set_naive_consumed_rs rs a) ∧
    regst_desc_id2regsts rs = <[id := q ++ [r]]> (regst_desc_id2regsts (naive_consumed_rs a)) ∧
    regst_desc_id2regsts (naive_consumed_rs a) !! id = Some q.
Proof.
  intros H Hid Hd. destruct (ai_nc H) as [Hok Hdom]. rewrite <- Hdom in Hid. apply elem_of_dom in Hid as [q Hq].
  destruct (push_spec _ r id q Hok Hq) as (rs & E & Hrs & Ers). exists rs, q. unfold push_checked. rewrite E.
  cbn [obind Z.eqb CHECK]. split_and!; [done| | |done|done].
  - unfold RegstDeq4RegstDescId. by rewrite (proj1 Hrs), Ers, lookup_insert_eq.
  - apply set_nc_inv; [done|done|rewrite Ers, dom_insert_L, Hdom; apply elem_of_dom_2 in Hq; set_solver|].
    intros id' q' r'. rewrite Ers, lookup_insert_Some. intros [[<- <-]|[_ Hl]] Hin Hc; [|by eapply (ai_consumed H)].
    apply elem_of_app in Hin as [Hin| ->%list_elem_of_singleton]; [by eapply (ai_consumed H)|by apply Hd].
Qed.

Lemma receive_regst_spec a src r d :
  ainv [] idle a → wf_msg a (kRegstMsg src r d) →
  ∃ a', receive_regst P c a src r d = Ret a' ∧ ainv [] idle a' ∧
    ∀ id q, regst_desc_id2regsts (naive_consumed_rs a) !! id = Some q →
      ∃ q', regst_desc_id2regsts (naive_consumed_rs a') !! id = Some q' ∧ (length q' ≤ S (length q))%nat.
Proof.
  intros H Hwf. unfold wf_msg in Hwf. unfold receive_regst. destruct (ai_nc H) as [Hnc Enc]. destruct (ai_ic H) as [Hic Eic].
  assert (∀ n, reading_cnt a !! r = Some n → 1 ≤ n → ∃ a', TryUpdtStateAsProducedRegst P c a r = Ret (0, a') ∧
     ainv [] idle a' ∧ ∀ id q, regst_desc_id2regsts (naive_consumed_rs a) !! id = Some q →
      ∃ q', regst_desc_id2regsts (naive_consumed_rs a') !! id = Some q' ∧ (length q' ≤ S (length q))%nat) as Hback.
  { intros n Hn Hpos. destruct (TryUpdt_spec a r n H Hn Hpos) as (a' & ? & ? & E). exists a'. split_and!; [done..|].
    intros id q Hq. exists q. rewrite E. split; [done|lia]. }
  assert (∀ rs id q, regst_desc_id2regsts rs = <[id := q ++ [r]]> (regst_desc_id2regsts (naive_consumed_rs a)) →
    regst_desc_id2regsts (naive_consumed_rs a) !! id = Some q →
    ∀ id' q0, regst_desc_id2regsts (naive_consumed_rs a) !! id' = Some q0 →
      ∃ q', regst_desc_id2regsts rs !! id' = Some q' ∧ (length q' ≤ S (length q0))%nat) as Hlen.
  { intros rs id q Ers Hq id' q0 Hq0. rewrite Ers. destruct (decide (id = id')) as [<-|].
    - rewrite lookup_insert_eq. eexists. split; [done|]. rewrite Hq in Hq0. injection Hq0 as <-. rewrite length_app. cbn. lia.
    - rewrite lookup_insert_ne by done. exists q0. split; [done|lia]. }
  destruct (Z.eqb src (Rank P)).
  - rewrite (Has_spec _ NC) by done. cbn [obind]. destruct (decide (regst_desc_id P r ∈ NC)) as [Hin|Hnin].
    + rewrite bool_decide_true by done.
      destruct (push_naive_consumed_inv a r (regst_desc_id P r) H Hin) as (rs & q & -> & Edeq & H' & Ers & Hq); [auto|].
      cbn [obind]. rewrite Edeq. cbn [obind]. rewrite bool_decide_false by (by destruct q). cbn [negb CHECK obind].
      eexists. split_and!; [done|done|]. by eapply Hlen.
    + rewrite bool_decide_false by done. rewrite (Has_spec _ IC) by done. cbn [obind].
      destruct (decide (regst_desc_id P r ∈ IC)) as [Hi|Hni].
      * rewrite bool_decide_true by done. rewrite <- Eic in Hi. apply elem_of_dom in Hi as [q Hq].
        destruct (push_spec _ r _ q Hic Hq) as (rs & E & Hrs & Ers). unfold push_checked. rewrite E. cbn [obind Z.eqb CHECK].
        eexists. split_and!; [done| |intros id q0 Hq0; exists q0; split; [done|lia]].
        apply set_ic_inv; [done|done|rewrite Ers, dom_insert_L, Eic; apply elem_of_dom_2 in Hq; set_solver| |].
        -- intros id q' r'. rewrite Ers, lookup_insert_Some. intros [[<- <-]|[_ Hl]] Hin; [|by eapply (ai_inplace H)].
           apply elem_of_app in Hin as [Hin| ->%list_elem_of_singleton]; [by eapply (ai_inplace H)|done].
        -- intros r' n i Hn Hpos Hip Hi'. rewrite Ers. destruct (decide (regst_desc_id P r = i)) as [<-|].
           ++ rewrite lookup_insert_eq. by destruct q.
           ++ rewrite lookup_insert_ne by done. by eapply (ai_held H).
      * rewrite bool_decide_false by done. destruct Hwf as (n & Hn & Hpos). destruct (Hback n Hn Hpos) as (a' & -> & ? & ?).
        cbn [obind Z.eqb]. by exists a'.
  - destruct (IsConsumedCtrlRegstDescId c d) eqn:Ed.
    + rewrite (Has_spec _ NC), bool_decide_true by done. cbn [obind CHECK].
      rewrite bool_decide_true by (by apply (co_consumed_ctrl _ _ _ _ _ _ _ Hco)). cbn [CHECK obind].
      destruct (push_naive_consumed_inv a r d H Hwf) as (rs & q & -> & Edeq & H' & Ers & Hq); [congruence|].
      cbn [obind]. rewrite Edeq. cbn [obind]. rewrite bool_decide_false by (by destruct q). cbn [negb CHECK obind].
      eexists. split_and!; [done|done|]. by eapply Hlen.
    + destruct Hwf as (n & Hn & Hpos). destruct (Hback n Hn Hpos) as (a' & -> & ? & ?). cbn [obind Z.eqb CHECK]. by exists a'.
Qed.

Lemma receive_eord_spec a id :
  ainv [] idle a → id ∉ eord_regst_desc_ids a → ∃ a', receive_eord a id = Ret a' ∧ ainv [] idle a'.
Proof.
  intros H Hid. unfold receive_eord. cbn [eord_regst_desc_ids set_remaining_eord_cnt].
  rewrite bool_decide_false by done. cbn [negb CHECK obind].
  destruct (ai_nc H) as [Hnc Enc]. destruct (ai_ic H) as [Hic Eic].
  cbn [naive_consumed_rs inplace_consumed_rs set_eord_regst_desc_ids set_remaining_eord_cnt].
  rewrite (Has_spec _ NC) by done. cbn [obind]. case_bool_decide; [eexists; split; [done|constructor; keep H]|].
  rewrite (Has_spec _ IC) by done. cbn [obind]. case_bool_decide; eexists; (split; [done|constructor; keep H]).
Qed.

Lemma SendEORD_spec a : ainv [] idle a →
  ∃ a', AsyncSendEORDMsgForAllProducedRegstDesc P c a = Ret a' ∧ ainv [] idle a' ∧
    remaining_eord_cnt a' = remaining_eord_cnt a ∧ total_reading_cnt a' = total_reading_cnt a.
Proof.
  intros H. unfold AsyncSendEORDMsgForAllProducedRegstDesc.
  destruct (ofold_map_to_list (produced_regsts c)
    (λ _ a', ainv [] idle a' ∧ remaining_eord_cnt a' = remaining_eord_cnt a ∧ total_reading_cnt a' = total_reading_cnt a)
    (λ a '(id, regsts), match regsts with [] => Crash
       | r :: _ => Ret (set_trace (trace a ++ [CallbackEord (consumers_actor_id P r) (regst_desc_id P r)]) a) end) a)
    as (a' & ids & -> & ? & _); [done| |by exists a'].
  intros ids a1 id q Hq _ (H1 & ? & ?). destruct q as [|r q]; [by destruct (co_eord _ _ _ _ _ _ _ Hco id [] Hq)|].
  eexists. split; [done|]. split_and!; [constructor; keep H1|done|done].
Qed.

(** A finished actor has received all ends and nobody reads its registers. *)
Definition finished (a : actor) : Prop := remaining_eord_cnt a = 0 ∧ ∀ r n, reading_cnt a !! r = Some n → n = 0.

Lemma total_zero a : ainv [] idle a → total_reading_cnt a = 0 → ∀ r n, reading_cnt a !! r = Some n → n = 0.
Proof.
  intros H Hz. apply map_sum_zero; [|by rewrite <- (ai_total H)]. intros r n Hn. by apply (ai_bound H r n).
Qed.

Lemma try_halt_spec a :
  ainv [] idle a → ∃ rc a', try_halt P c a = Ret (rc, a') ∧ ainv [] idle a' ∧ (rc = 1 → finished a').
Proof.
  intros H. unfold try_halt. destruct (_ && _) eqn:E; [|exists 0, a; by split_and!].
  apply andb_true_iff in E as [_ E]. apply andb_true_iff in E as [_ E]. apply andb_true_iff in E as [E _].
  rewrite E. cbn [CHECK obind]. destruct (SendEORD_spec a H) as (a1 & -> & H1 & Er & Et). cbn [obind].
  destruct (Z.eqb (remaining_eord_cnt a1) 0 && Z.eqb (total_reading_cnt a1) 0) eqn:Ez.
  - apply andb_true_iff in Ez as [Hz1%Z.eqb_eq Hz2%Z.eqb_eq]. eexists _, _. split_and!; [done|constructor; keep H1|].
    intros _. split; [done|]. exact (total_zero a1 H1 Hz2).
  - eexists _, _. split_and!; [done|constructor; keep H1|done].
Qed.

(** [fuel] is enough when some naive input holds fewer registers. *)
Definition enough (fuel : nat) (a : actor) : Prop :=
  ∃ id q, regst_desc_id2regsts (naive_consumed_rs a) !! id = Some q ∧ (length q < fuel)%nat.

Lemma HandlerNormal_spec fuel a msg :
  ainv [] idle a → wf_msg a msg → enough fuel a →
  ∃ rc a', HandlerNormal P c alloc_async fuel a msg = Ret (rc, a') ∧ ainv [] idle a' ∧ (rc = 1 → finished a').
Proof.
  intros H Hwf (id & q & Hq & Hl). unfold HandlerNormal. destruct msg as [src r d|e|cmd].
  - destruct (receive_regst_spec a src r d H Hwf) as (a1 & -> & H1 & Hlen). cbn [obind].
    destruct (Hlen id q Hq) as (q' & Hq' & Hl'). destruct (ActUntilFail_spec fuel a1 id q' H1 Hq') as (a2 & -> & H2); [lia|].
    cbn [obind]. by apply try_halt_spec.
  - destruct (receive_eord_spec a e H Hwf) as (a1 & -> & H1). cbn [obind]. by apply try_halt_spec.
  - rewrite Hwf. destruct (ActUntilFail_spec fuel a id q H Hq) as (a1 & -> & H1); [lia|]. cbn [obind]. by apply try_halt_spec.
Qed.

(** After the end registers come back, registers of inputs that are not naive may
    still arrive, and ends are told. *)
Definition wf_zombie_msg (a : actor) (msg : ActorMsg) : Prop :=
  match msg with
  | kRegstMsg _ r _ =>
      (∃ n, reading_cnt a !! r = Some n ∧ 1 ≤ n) ∨ (reading_cnt a !! r = None ∧ regst_desc_id P r ∉ NC)
  | kEordMsg _ => 1 ≤ remaining_eord_cnt a
  | kCmdMsg _ => False
  end.

Lemma HandlerZombie_spec a msg :
  ainv [] idle a → wf_zombie_msg a msg →
  ∃ rc a', HandlerZombie P c a msg = Ret (rc, a') ∧ ainv [] idle a' ∧ (rc = 1 → finished a').
Proof.
  intros H Hwf. unfold HandlerZombie.
  assert (∀ a1, ainv [] idle a1 → ∃ rc a', (if Z.eqb (remaining_eord_cnt a1) 0 && Z.eqb (total_reading_cnt a1) 0
    then Ret (1, set_handler None a1) else Ret (0, a1)) = Ret (rc, a') ∧ ainv [] idle a' ∧ (rc = 1 → finished a')) as Hend.
  { intros a1 H1. destruct (_ && _) eqn:Ez; [|exists 0, a1; by split_and!].
    apply andb_true_iff in Ez as [Hz1%Z.eqb_eq Hz2%Z.eqb_eq]. eexists _, _. split_and!; [done|constructor; keep H1|].
    intros _. split; [done|]. exact (total_zero a1 H1 Hz2). }
  destruct msg as [src r d|e|cmd]; [|..|done].
  - destruct Hwf as [(n & Hn & Hpos)|[Hn Hid]].
    + destruct (TryUpdt_spec a r n H Hn Hpos) as (a1 & -> & H1 & _). cbn [obind Z.eqb negb]. by apply Hend.
    + unfold TryUpdtStateAsProducedRegst. rewrite Hn. cbn [obind Z.eqb negb].
      rewrite (AsyncSendRegstMsg_inplace [] idle) by done. cbn [obind]. by apply Hend, Enqueue_inv.
  - unfold wf_zombie_msg in Hwf. rewrite (proj2 (Z.leb_le _ _)) by done. cbn [CHECK obind]. apply Hend. constructor; keep H.
Qed.
End steps.
