(* ===== verification/ActorTrace.v ===== *)
(** * Actors: the messages received

    What no act and no returned register changes (the handler, the number of ends
    still to come), hence the number of ends an actor waits for as a function of
    the messages it was sent; the naive inputs of a zombie actor are exhausted. *)
From Stdlib Require Import String.
From S2P Require Import Prelude RegstSlot Actor ActorSpec.
#[local] Open Scope Z_scope.

(** ** What an act leaves as it is *)

Definition frame (a a' : actor) : Prop :=
  handler a' = handler a ∧ remaining_eord_cnt a' = remaining_eord_cnt a ∧ eord_regst_desc_ids a' = eord_regst_desc_ids a.

#[export] Instance frame_preorder : PreOrder frame.
Proof. split; [done|]. intros a b d (? & ? & ?) (? & ? & ?). split_and!; congruence. Qed.

(** A loop whose body keeps the frame keeps it; [pr] is the actor in the state the
    loop carries. *)
Lemma ofold_frame {A X : Type} (pr : A → actor) (f : A → X → outcome A) l s s' :
  (∀ s x s', f s x = Ret s' → frame (pr s) (pr s')) → ofold f l s = Ret s' → frame (pr s) (pr s').
Proof.
  intros Hf. apply (ofold_invariant (λ s', frame (pr s) (pr s'))); [|done].
  intros s1 x s2 _ H1 H2. etrans; [done|by eapply Hf].
Qed.

(** The body of an operation, case by case. *)
Ltac frame_cases :=
  repeat (inv_ret; match goal with
  | H : context [match ?x with _ => _ end] |- _ =>
      lazymatch type of H with _ = Ret _ => destruct x eqn:?; try discriminate H end
  end); inv_ret.

Section frame.
Context (P : Plan) (c : Conf) (alloc_async : nat → nat → option Z).

Lemma Enqueue_frame a m : frame a (EnqueueAsyncMsg P c a m).
Proof. unfold EnqueueAsyncMsg. by destruct (_ && _). Qed.

Lemma Enqueue_list_frame {X : Type} (f : X → OutMsg) l a :
  frame a (foldl (λ a x, EnqueueAsyncMsg P c a (f x)) a l).
Proof.
  revert a. induction l as [|x l IH]; intros a; cbn [foldl]; [done|]. etrans; [apply (Enqueue_frame a (f x))|apply IH].
Qed.

Lemma AsyncSendQueuedMsg_frame a : frame a (AsyncSendQueuedMsg a).
Proof. unfold AsyncSendQueuedMsg. destruct (sync_msg_queue a); cbn; by destruct (async_msg_queue a). Qed.

Lemma HandleRegst_frame a r n a' : HandleRegstToConsumer P c a r = Ret (n, a') → frame a a'.
Proof.
  unfold HandleRegstToConsumer. intros H. frame_cases.
  exact (Enqueue_list_frame (λ x, ToConsumer x r) (consumers_actor_id P r) a).
Qed.

Lemma SendRegst_frame a r a' : AsyncSendRegstMsgToProducer P c a r = Ret a' → frame a a'.
Proof. unfold AsyncSendRegstMsgToProducer. intros H. frame_cases. apply (Enqueue_frame a _). Qed.

Lemma free_body_frame a r a' : free_body P a r = Ret a' → frame a a'.
Proof. unfold free_body. intros H. by frame_cases. Qed.

Lemma forget_body_frame a r a' : forget_body P a r = Ret a' → frame a a'.
Proof. unfold forget_body. intros H. by frame_cases. Qed.

Lemma chosen_front_frame {A : Type} (pr : A → actor) rs chosen (h : A → Z → nat → outcome A) s s' :
  (∀ s id r s', h s id r = Ret s' → frame (pr s) (pr s')) →
  ForChosenFrontRegst rs chosen h s = Ret s' → frame (pr s) (pr s').
Proof.
  intros Hh. unfold ForChosenFrontRegst. apply ofold_frame. intros s1 [id q] s2 H. frame_cases; [by eapply Hh|done].
Qed.

Lemma chosen_deq_frame {A : Type} (pr : A → actor) rs chosen (h : A → Z → list nat → outcome A) s s' :
  (∀ s id q s', h s id q = Ret s' → frame (pr s) (pr s')) →
  ForChosenRegstDeq rs chosen h s = Ret s' → frame (pr s) (pr s').
Proof.
  intros Hh. unfold ForChosenRegstDeq. apply ofold_frame. intros s1 [id q] s2 H. frame_cases; [by eapply Hh|done].
Qed.

Lemma Prepare_frame a a' : PrepareProducedNaiveInplaceDataRegst P c alloc_async a = Ret a' → frame a a'.
Proof.
  unfold PrepareProducedNaiveInplaceDataRegst. intros H. inv_ret. etrans.
  - eapply (chosen_front_frame id); [|done]. unfold prepare_naive. intros s id r s' Hs. by frame_cases.
  - eapply (chosen_front_frame id); [|done]. unfold prepare_inplace. intros s id r s' Hs. by frame_cases.
Qed.

Lemma produced_data_frame free st r st' :
  (∀ a r a', free a r = Ret a' → frame a a') →
  produced_data_handler P c free st r = Ret st' → frame st.1 st'.1.
Proof.
  intros Hfree. unfold produced_data_handler. destruct st as [a ids]. intros H. frame_cases; [by eapply HandleRegst_frame|].
  etrans; [by eapply HandleRegst_frame|by eapply Hfree].
Qed.

Lemma NaiveProduced_frame a a' : AsyncSendNaiveProducedRegstMsgToConsumer P c a = Ret a' → frame a a'.
Proof.
  unfold AsyncSendNaiveProducedRegstMsgToConsumer, HandleProducedNaiveDataRegstToConsumer,
    AsyncSendProducedCtrlRegstMsgToConsumer.
  intros H. frame_cases. destruct_all prod. frame_cases. etrans.
  - match goal with H : ForEachFrontRegst _ _ (a, []) = _ |- _ =>
      eapply (chosen_front_frame fst) in H; [exact H|] end.
    intros s id r s' Hs. destruct (has_data_regst_desc P r); [|by frame_cases].
    eapply produced_data_frame; [|done]. apply free_body_frame.
  - match goal with H : ForChosenFrontRegst _ _ _ _ = _ |- _ =>
      eapply (chosen_front_frame fst) in H; [exact H|] end.
    intros [s ids] id r s' Hs. frame_cases; by eapply HandleRegst_frame.
Qed.

Lemma InplaceProduced_frame a a' : HandleProducedInplaceDataRegstToConsumer P c a = Ret a' → frame a a'.
Proof.
  unfold HandleProducedInplaceDataRegstToConsumer. intros H. frame_cases. destruct_all prod. frame_cases.
  match goal with H : ForEachFrontRegst _ _ (a, []) = _ |- _ =>
    eapply (chosen_front_frame fst) in H; [exact H|] end.
  intros s id r s' Hs. frame_cases. eapply produced_data_frame; [|done]. apply forget_body_frame.
Qed.

Lemma NaiveConsumed_frame a a' : AsyncSendNaiveConsumedRegstMsgToProducer P c a = Ret a' → frame a a'.
Proof.
  unfold AsyncSendNaiveConsumedRegstMsgToProducer, HandleConsumedNaiveDataRegstToProducer,
    AsyncSendConsumedCtrlRegstMsgToProducer.
  intros H. frame_cases. destruct_all prod. frame_cases. etrans.
  - match goal with H : ForEachFrontRegst _ _ (a, []) = _ |- _ =>
      eapply (chosen_front_frame fst) in H; [exact H|] end.
    intros [s ids] id r s' Hs. frame_cases; try done. apply Enqueue_frame.
  - match goal with H : ForChosenRegstDeq _ _ _ _ = _ |- _ =>
      eapply (chosen_deq_frame fst) in H; [exact H|] end.
    intros [s ids] id q s' Hs. frame_cases. apply Enqueue_frame.
Qed.

Lemma RetInplace_frame a a' : AsyncRetInplaceConsumedRegstIfNoConsumer P c a = Ret a' → frame a a'.
Proof.
  unfold AsyncRetInplaceConsumedRegstIfNoConsumer. intros H. frame_cases. destruct_all prod. frame_cases.
  match goal with H : ForChosenRegstDeq _ _ _ _ = _ |- _ =>
    eapply (chosen_deq_frame fst) in H; [exact H|] end.
  intros [s ids] id q s' Hs. frame_cases; [done|by eapply SendRegst_frame].
Qed.

Lemma act_once_frame a a' : act_once P c alloc_async a = Ret a' → frame a a'.
Proof.
  unfold act_once. intros H. inv_ret. rewrite <- AsyncSendQueuedMsg_frame.
  etrans; [|by eapply RetInplace_frame]. etrans; [|by eapply NaiveConsumed_frame].
  etrans; [|by eapply InplaceProduced_frame]. etrans; [|by eapply NaiveProduced_frame].
  etrans; [by eapply Prepare_frame|done].
Qed.

Lemma ActUntilFail_frame fuel a a' : ActUntilFail P c alloc_async fuel a = Ret a' → frame a a'.
Proof.
  unfold ActUntilFail. intros H. inv_ret. rewrite <- AsyncSendQueuedMsg_frame.
  match goal with H : act_loop _ _ _ _ _ = Ret ?b |- _ => revert a H; generalize b end.
  induction fuel as [|fuel IH]; intros b a; cbn [act_loop]; (destruct (_ && _); intros H; inv_ret; try done).
  etrans; [by eapply act_once_frame|by eapply IH].
Qed.

Lemma TryUpdt_frame a r rc a' : TryUpdtStateAsProducedRegst P c a r = Ret (rc, a') → frame a a'.
Proof.
  unfold TryUpdtStateAsProducedRegst. intros H. frame_cases; destruct_all prod; frame_cases; try done.
  - match goal with H : forget_body _ _ _ = _ |- _ => apply forget_body_frame in H as (? & ? & ?) end.
    match goal with H : AsyncSendRegstMsgToProducer _ _ _ _ = _ |- _ => apply SendRegst_frame in H as (? & ? & ?) end.
    split_and!; cbn in *; congruence.
  - match goal with H : free_body _ _ _ = _ |- _ => apply free_body_frame in H as (? & ? & ?) end.
    split_and!; cbn in *; congruence.
Qed.

Lemma receive_regst_frame a src r d a' : receive_regst P c a src r d = Ret a' → frame a a'.
Proof.
  unfold receive_regst. intros H. frame_cases; destruct_all prod; frame_cases; try done; by eapply TryUpdt_frame.
Qed.

Lemma SendEORD_frame a a' : AsyncSendEORDMsgForAllProducedRegstDesc P c a = Ret a' →
  frame a a' ∧ naive_consumed_rs a' = naive_consumed_rs a.
Proof.
  unfold AsyncSendEORDMsgForAllProducedRegstDesc.
  apply (ofold_invariant (λ a', frame a a' ∧ naive_consumed_rs a' = naive_consumed_rs a)); [|done].
  intros s [id q] s' _ [H1 H2] H. by frame_cases.
Qed.

(** ** The naive inputs of a zombie *)

Definition exhausted (a : actor) : Prop :=
  map_Forall (λ _ q, q = []) (regst_desc_id2regsts (naive_consumed_rs a)).

Lemma Enqueue_consumed a m : naive_consumed_rs (EnqueueAsyncMsg P c a m) = naive_consumed_rs a.
Proof. unfold EnqueueAsyncMsg. by destruct (_ && _). Qed.

(** A register given back without a queue to pop it from. *)
Lemma SendRegst_exhausted a r a' :
  exhausted a → AsyncSendRegstMsgToProducer P c a r = Ret a' → naive_consumed_rs a' = naive_consumed_rs a.
Proof.
  intros He. unfold AsyncSendRegstMsgToProducer. rewrite Enqueue_consumed. unfold TryPopFrontRegst.
  destruct (_ !! _) as [q|] eqn:Hq; [|intros; by frame_cases]. rewrite (He _ _ Hq). intros; by frame_cases.
Qed.

Lemma TryUpdt_exhausted a r rc a' :
  exhausted a → TryUpdtStateAsProducedRegst P c a r = Ret (rc, a') → naive_consumed_rs a' = naive_consumed_rs a.
Proof.
  intros He. unfold TryUpdtStateAsProducedRegst, forget_body, free_body. intros H.
  frame_cases; destruct_all prod; frame_cases; try done;
    match goal with H : AsyncSendRegstMsgToProducer _ _ _ _ = _ |- _ => apply SendRegst_exhausted in H; done end.
Qed.

Lemma available_zero rs :
  slot_ok rs → Z.eqb (available_regst_desc_cnt rs) 0 = true → map_Forall (λ _ q, q = []) (regst_desc_id2regsts rs).
Proof.
  intros [_ Ha] Hz%Z.eqb_eq id q Hq. rewrite Ha in Hz. assert (size (filled (regst_desc_id2regsts rs)) = 0%nat) as Hs by lia.
  apply map_size_empty_inv in Hs. destruct (decide (q = [])) as [|Hn]; [done|].
  assert (filled (regst_desc_id2regsts rs) !! id = Some q) as Hf by by apply filled_lookup.
  by rewrite Hs, lookup_empty in Hf.
Qed.

(** ** What a message changes *)

Definition end_of (msg : ActorMsg) : option Z := match msg with kEordMsg id => Some id | _ => None end.
(** The inputs whose end the messages tell. *)
Definition ends (msgs : list ActorMsg) : list Z := omap end_of msgs.

Lemma ends_snoc msgs msg : ends (msgs ++ [msg]) = ends msgs ++ ends [msg].
Proof. apply omap_app. Qed.

Definition received (a : actor) (msg : ActorMsg) (a' : actor) : Prop :=
  remaining_eord_cnt a' = remaining_eord_cnt a - Z.of_nat (length (ends [msg])) ∧
  eord_regst_desc_ids a' ⊆ list_to_set (ends [msg]) ∪ eord_regst_desc_ids a.

Lemma try_halt_received a rc a' : try_halt P c a = Ret (rc, a') →
  remaining_eord_cnt a' = remaining_eord_cnt a ∧ eord_regst_desc_ids a' = eord_regst_desc_ids a ∧
  (handler a' = handler a ∨
   handler a' ≠ Some HandlerNormal_ ∧ naive_consumed_rs a' = naive_consumed_rs a ∧
   Z.eqb (available_regst_desc_cnt (naive_consumed_rs a)) 0 = true).
Proof.
  unfold try_halt. destruct (_ && _); [|intros; inv_ret; by split_and!; try left]. intros H. frame_cases;
    match goal with H : AsyncSendEORDMsgForAllProducedRegstDesc _ _ _ = _ |- _ =>
      apply SendEORD_frame in H as [(? & ? & ?) ?] end; split_and!; try done; by right.
Qed.

Lemma received_nothing a msg a' : frame a a' → end_of msg = None → received a msg a'.
Proof.
  intros (_ & E1 & E2) Hm. unfold received, ends. cbn [omap list_omap]. rewrite Hm. cbn. split; [lia|set_solver].
Qed.

Lemma receive_eord_received a id a' : receive_eord a id = Ret a' →
  handler a' = handler a ∧ received a (kEordMsg id) a'.
Proof.
  unfold receive_eord, received, ends. intros H. cbn [omap list_omap end_of list_to_set length].
  frame_cases; repeat match goal with |- context [if ?b then _ else _] => destruct b end;
    (split; [done|]); cbn; (split; [lia|set_solver]).
Qed.

(** The handler of a running actor up to the test for the end. *)
Lemma HandlerNormal_received fuel a msg rc a' : HandlerNormal P c alloc_async fuel a msg = Ret (rc, a') →
  ∃ a1, handler a1 = handler a ∧ received a msg a1 ∧ try_halt P c a1 = Ret (rc, a').
Proof.
  unfold HandlerNormal. intros H. apply obind_Ret in H as (a1 & E & H). exists a1.
  cut (handler a1 = handler a ∧ received a msg a1); [naive_solver|]. destruct msg as [src r d|id|[| |]]; [..|done|done].
  - apply obind_Ret in E as (a2 & E1 & E2). assert (frame a a1) as Hf; [|by split; [apply Hf|apply received_nothing]].
    etrans; [by eapply receive_regst_frame|by eapply ActUntilFail_frame].
  - by apply receive_eord_received.
  - assert (frame a a1) as Hf by by eapply ActUntilFail_frame. by split; [apply Hf|apply received_nothing].
Qed.

Lemma HandlerZombie_received a msg rc a' : HandlerZombie P c a msg = Ret (rc, a') → received a msg a'.
Proof.
  unfold HandlerZombie. intros H. apply obind_Ret in H as (a1 & E & H).
  assert (received a msg a1) as Hr.
  - clear H. destruct msg as [src r d|id|cmd]; [|unfold received, ends; frame_cases; cbn; (split; [lia|set_solver])|discriminate].
    apply received_nothing; [|done]. frame_cases; destruct_all prod; frame_cases; [|by eapply TryUpdt_frame].
    etrans; [by eapply TryUpdt_frame|by eapply SendRegst_frame].
  - by frame_cases.
Qed.

(** An end counts down what is still to come, nothing else does. *)
Lemma ProcessMsg_received fuel a msg rc a' : ProcessMsg P c alloc_async fuel a msg = Ret (rc, a') → received a msg a'.
Proof.
  unfold ProcessMsg. destruct (handler a) as [[|]|]; [|apply HandlerZombie_received|done].
  intros (a1 & _ & [E1 E2] & (F1 & F2 & _)%try_halt_received)%HandlerNormal_received.
  unfold received. by rewrite F1, F2.
Qed.

Definition zombie_exhausted (a : actor) : Prop := handler a = Some HandlerZombie_ → exhausted a.

(** An actor becomes a zombie, and stays one, with no register of a naive input
    left. *)
Lemma ProcessMsg_zombie fuel a msg rc a' :
  slot_ok (naive_consumed_rs a') → zombie_exhausted a → ProcessMsg P c alloc_async fuel a msg = Ret (rc, a') →
  zombie_exhausted a'.
Proof.
  unfold ProcessMsg, zombie_exhausted. intros Hok Hz H Hh. destruct (handler a) as [[|]|] eqn:Eh; [| |done].
  - apply HandlerNormal_received in H as (a1 & E & _ & (_ & _ & [F|(_ & F1 & F2)])%try_halt_received); [congruence|].
    rewrite <- F1 in F2. by apply available_zero.
  - specialize (Hz eq_refl). unfold HandlerZombie in H.
    apply obind_Ret in H as (a1 & E & H). assert (naive_consumed_rs a1 = naive_consumed_rs a) as En.
    + clear H. destruct msg as [src r d|id|cmd]; frame_cases; destruct_all prod; frame_cases; try done;
        match goal with H : TryUpdtStateAsProducedRegst _ _ _ _ = _ |- _ => apply TryUpdt_exhausted in H as E1; [|done] end;
        [|done]. rewrite <- E1. eapply SendRegst_exhausted; [|done]. unfold exhausted. by rewrite E1.
    + unfold exhausted. destruct (_ && _); frame_cases; try done; cbn; by rewrite En.
Qed.

(** A register of a naive input that reaches a zombie is popped from an empty
    queue. *)
Lemma zombie_late_register a src r d :
  slot_ok (naive_consumed_rs a) → exhausted a → reading_cnt a !! r = None →
  is_Some (regst_desc_id2regsts (naive_consumed_rs a) !! regst_desc_id P r) →
  HandlerZombie P c a (kRegstMsg src r d) = Crash.
Proof.
  intros [Hi _] He Hr [q Hq]. unfold HandlerZombie, TryUpdtStateAsProducedRegst. rewrite Hr. cbn [obind Z.eqb negb].
  unfold AsyncSendRegstMsgToProducer. rewrite Enqueue_consumed. unfold TryPopFrontRegst.
  rewrite Hi, Hq, (He _ _ Hq). done.
Qed.
End frame.

(** ** The ends an actor waits for *)

Definition inputs (t : TaskProto) : list Z := concat (map snd (consumed_regst_desc_id t)).

Lemma init_consumed_count l st st' :
  ofold init_consumed l st = Ret st' → st'.1.2 = st.1.2 + Z.of_nat (length (concat (map snd l))).
Proof.
  revert st. induction l as [|[name ids] l IH]; intros st H; cbn [ofold] in H; inv_ret; [cbn; lia|].
  match goal with H : ofold _ _ _ = _ |- _ => apply IH in H as -> end.
  destruct st as [[names n] ctrl]. unfold init_consumed in *. inv_ret. cbn. rewrite length_app. lia.
Qed.

Lemma Init_waits P t c a : Init P t = Ret (c, a) →
  handler a = Some HandlerNormal_ ∧ eord_regst_desc_ids a = ∅ ∧ remaining_eord_cnt a = Z.of_nat (length (inputs t)).
Proof.
  unfold Init. intros H. frame_cases. destruct_all prod. frame_cases. destruct_all prod. frame_cases.
  match goal with H : ofold init_consumed _ _ = _ |- _ => apply init_consumed_count in H as E end.
  cbn in *. split_and!; [done..|]. unfold inputs. lia.
Qed.
