(* ===== verification/ActorSafe.v ===== *)
(** * Actors: executions

    The states an actor reaches when the other actors keep the protocol, and what
    holds in all of them; the case the zombie handler does not cover; an actor with
    a naive, an in-place and a control input. *)
From Stdlib Require Import String.
From S2P Require Import Prelude RegstSlot Actor ActorSpec ActorTrace.
#[local] Open Scope Z_scope.

(** ** Executions *)

Section run.
Context (P : Plan) (c : Conf) (alloc_async : nat → nat → option Z).
Context (NP NC IP IC : gset Z) (RS : gset nat).

(** A message of the protocol for the handler that is set. *)
Definition protocol (a : actor) (msg : ActorMsg) : Prop :=
  match handler a with
  | Some HandlerNormal_ => wf_msg P c NC IC a msg
  | Some HandlerZombie_ => wf_zombie_msg P NC a msg
  | None => False
  end.

Inductive actor_step : actor → actor → Prop :=
| process a msg fuel rc a' :
    protocol a msg → enough fuel a → ProcessMsg P c alloc_async fuel a msg = Ret (rc, a') → actor_step a a'.

Definition actor_run (a a' : actor) : Prop := rtc actor_step a a'.

(** A message of the protocol, but for which ends were told before. *)
Definition sent_ok (a : actor) (msg : ActorMsg) : Prop :=
  match msg with kEordMsg _ => handler a ≠ None | _ => protocol a msg end.

(** The states after a list of messages. *)
Inductive actor_trace (a0 : actor) : list ActorMsg → actor → Prop :=
| trace_start : actor_trace a0 [] a0
| trace_message msgs a msg fuel rc a' :
    actor_trace a0 msgs a → sent_ok a msg → enough fuel a → ProcessMsg P c alloc_async fuel a msg = Ret (rc, a') →
    actor_trace a0 (msgs ++ [msg]) a'.

(** The other actors tell the end of an input once, and of the inputs only. *)
Definition told_once (t : TaskProto) (msgs : list ActorMsg) : Prop := NoDup (ends msgs) ∧ ends msgs ⊆ inputs t.
Definition actor_inv (a : actor) : Prop := inv P c NP NC IP IC RS [] idle a.
End run.

(** An actor that has received nothing yet: nobody reads, the queues to read are
    empty, all registers can be written, no memory is allocated. *)
Lemma initial_inv P c NP NC IP IC RS a :
  slot_ok (naive_produced_rs a) ∧ dom (regst_desc_id2regsts (naive_produced_rs a)) = NP →
  slot_ok (naive_consumed_rs a) ∧ dom (regst_desc_id2regsts (naive_consumed_rs a)) = NC →
  slot_ok (inplace_produced_rs a) ∧ dom (regst_desc_id2regsts (inplace_produced_rs a)) = IP →
  slot_ok (inplace_consumed_rs a) ∧ dom (regst_desc_id2regsts (inplace_consumed_rs a)) = IC →
  dom (reading_cnt a) = RS → map_Forall (λ _ n, n = 0) (reading_cnt a) →
  total_reading_cnt a = map_sum (reading_cnt a) → body a = ∅ →
  map_Forall (λ id q, NoDup q ∧ Forall (λ r, regst_desc_id P r = id ∧ r ∈ RS) q) (writable a) →
  set_Forall (λ r, r ∈ default [] (writable a !! regst_desc_id P r)) RS →
  map_Forall (λ _ q, q = []) (regst_desc_id2regsts (naive_consumed_rs a)) →
  map_Forall (λ _ q, q = []) (regst_desc_id2regsts (inplace_consumed_rs a)) →
  actor_inv P c NP NC IP IC RS a.
Proof.
  intros Hnp Hnc Hip Hic Hdom Hz Ht Hb Hw Hr Hq1 Hq2.
  assert (∀ r n, reading_cnt a !! r = Some n → n = 0) as Hz' by (intros r n Hn; exact (Hz r n Hn)).
  constructor; try done.
  - intros r. by rewrite <- Hdom, elem_of_dom.
  - intros r n Hn. rewrite (Hz' r n Hn). unfold consumers. lia.
  - intros id q Hq. by apply (Hw id q Hq).
  - intros id q r Hq Hin. destruct (Hw id q Hq) as [_ Hf]. rewrite Forall_forall in Hf. destruct (Hf r Hin) as [? HR].
    split; [done|left]. rewrite <- Hdom in HR. apply elem_of_dom in HR as [n Hn]. by rewrite Hn, (Hz' r n Hn).
  - intros r Hn. assert (r ∈ RS) as HR by (rewrite <- Hdom; by apply elem_of_dom).
    apply Hr in HR. destruct (writable a !! regst_desc_id P r) as [q|]; [by exists q|by apply not_elem_of_nil in HR].
  - intros id []%not_elem_of_nil.
  - intros r _ _. right. by rewrite Hb.
  - intros id q r Hq Hin. rewrite (Hq1 id q Hq) in Hin. by apply not_elem_of_nil in Hin.
  - intros id q r Hq Hin. rewrite (Hq2 id q Hq) in Hin. by apply not_elem_of_nil in Hin.
  - intros r n i Hn. rewrite (Hz' r n Hn). lia.
Qed.

Lemma told_once_prefix t msgs msg : told_once t (msgs ++ [msg]) → told_once t msgs.
Proof.
  unfold told_once. rewrite ends_snoc. intros [[? _]%NoDup_app Hs]. split; [done|]. etrans; [|exact Hs]. set_solver.
Qed.

Lemma told_once_sub t msgs : told_once t msgs → ends msgs ⊆+ inputs t.
Proof. intros [Hn Hs]. by apply NoDup_submseteq. Qed.

Section safe.
Context (P : Plan) (c : Conf) (alloc_async : nat → nat → option Z).
Context (NP NC IP IC : gset Z) (RS : gset nat).
#[local] Abbreviation ok := (conf_ok P c NP NC IP IC RS).
#[local] Abbreviation ainv := (actor_inv P c NP NC IP IC RS).

Lemma process_spec fuel a msg :
  ok → (∀ n r, alloc_async n r ≠ None) → ainv a → protocol P c NC IC a msg → enough fuel a →
  ∃ rc a', ProcessMsg P c alloc_async fuel a msg = Ret (rc, a') ∧ ainv a' ∧ (rc = 1 → finished a').
Proof.
  intros Hco Hal H Hp Hf. unfold protocol in Hp. unfold ProcessMsg. destruct (handler a) as [[|]|]; [| |done].
  - by apply (HandlerNormal_spec P c alloc_async NP NC IP IC RS).
  - by apply (HandlerZombie_spec P c alloc_async NP NC IP IC RS).
Qed.

Lemma run_inv a a' :
  ok → (∀ n r, alloc_async n r ≠ None) → ainv a → actor_run P c alloc_async NC IC a a' → ainv a'.
Proof.
  intros Hco Hal H Hr. induction Hr as [|a a1 a2 Hs _ IH]; [done|]. apply IH.
  destruct Hs as [a msg fuel rc a1 Hp Hf E]. destruct (process_spec fuel a msg) as (rc' & a1' & E' & ? & _); try done.
  rewrite E in E'. by simplify_eq.
Qed.

(** *** Executions from [Init] *)

Section trace.
Context (t : TaskProto) (a0 : actor) (Hi : Init P t = Ret (c, a0)).
#[local] Abbreviation traces := (actor_trace P c alloc_async NC IC a0).

(** What is still to come is what was not told. *)
Lemma trace_waits msgs a : traces msgs a →
  remaining_eord_cnt a = Z.of_nat (length (inputs t)) - Z.of_nat (length (ends msgs)) ∧
  eord_regst_desc_ids a ⊆ list_to_set (ends msgs).
Proof.
  destruct (Init_waits P t c a0 Hi) as (_ & E1 & E2).
  induction 1 as [|msgs a msg fuel rc a' _ [IH1 IH2] _ _ [R1 R2]%ProcessMsg_received]; [rewrite E1, E2; split; [cbn; lia|done]|].
  rewrite ends_snoc, length_app, list_to_set_app_L. split; [lia|set_solver].
Qed.

Lemma told_protocol msgs a msg : traces msgs a → told_once t (msgs ++ [msg]) → sent_ok P c NC IC a msg → protocol P c NC IC a msg.
Proof.
  intros [H1 H2]%trace_waits Ht Hok. destruct msg as [src r d|id|cmd]; [exact Hok| |exact Hok].
  pose proof (submseteq_length _ _ (told_once_sub _ _ Ht)) as Hl. destruct Ht as [Hn _]. rewrite ends_snoc in Hn, Hl. cbn in Hok, Hn.
  unfold protocol. destruct (handler a) as [[|]|]; [..|by apply Hok].
  - cbn. apply NoDup_app in Hn as (_ & Hd & _). intros Hin%H2%elem_of_list_to_set. by eapply Hd; [|left].
  - cbn. rewrite length_app in Hl. cbn in Hl. lia.
Qed.

Lemma trace_inv msgs a :
  ok → (∀ n r, alloc_async n r ≠ None) → ainv a0 → traces msgs a → told_once t msgs → ainv a ∧ zombie_exhausted a.
Proof.
  intros Hco Hal H0. destruct (Init_waits P t c a0 Hi) as (Eh & _).
  induction 1 as [|msgs a msg fuel rc a' Htr IH Hs Hf E]; intros Ht; [split; [done|by intros ?; rewrite Eh in *]|].
  destruct (IH (told_once_prefix _ _ _ Ht)) as [H Hz]. apply (told_protocol msgs a msg Htr Ht) in Hs.
  destruct (process_spec fuel a msg Hco Hal H Hs Hf) as (rc' & a1 & E' & H1 & _). rewrite E in E'. simplify_eq.
  split; [done|]. eapply ProcessMsg_zombie; [exact (proj1 (ai_nc H1))|done|done].
Qed.
End trace.
End safe.

(** ** Theorems *)




(** An act takes exactly the first register of every naive input and keeps the
    invariant. *)
Theorem act_takes_one_of_each P c alloc_async NP NC IP IC RS a :
  conf_ok P c NP NC IP IC RS → (∀ n r, alloc_async n r ≠ None) → actor_inv P c NP NC IP IC RS a →
  IsReadReady a = true → IsWriteReady a = true →
  ∃ a', act_once P c alloc_async a = Ret a' ∧ actor_inv P c NP NC IP IC RS a' ∧
    ∀ id, regst_desc_id2regsts (naive_consumed_rs a') !! id = tail <$> regst_desc_id2regsts (naive_consumed_rs a) !! id.
Proof. intros Hco Hal H Hr Hw. by apply (act_once_spec P c alloc_async NP NC IP IC RS). Qed.

(** A zombie actor that is sent one more register of a naive input aborts: the
    register is to be given back, and giving it back pops the empty queue. *)
Theorem zombie_late_register_aborts P c a src r d :
  slot_ok (naive_consumed_rs a) → reading_cnt a !! r = None →
  regst_desc_id2regsts (naive_consumed_rs a) !! regst_desc_id P r = Some [] →
  HandlerZombie P c a (kRegstMsg src r d) = Crash.
Proof.
  intros [Hi _] Hr Hq. unfold HandlerZombie, TryUpdtStateAsProducedRegst. rewrite Hr. cbn [obind Z.eqb negb].
  unfold AsyncSendRegstMsgToProducer.
  replace (naive_consumed_rs (EnqueueAsyncMsg P c a (ToProducer (producer_actor_id P r) r))) with (naive_consumed_rs a)
    by (unfold EnqueueAsyncMsg; by destruct (_ && _)).
  unfold TryPopFrontRegst. by rewrite Hi, Hq.
Qed.

(** ** Executing the protocol *)

Section exec.
Context (P : Plan) (c : Conf) (alloc_async : nat → nat → option Z) (NC IC : gset Z).

Definition has_reader (a : actor) (r : nat) : bool :=
  match reading_cnt a !! r with Some n => Z.leb 1 n | None => false end.

Definition protocol_b (a : actor) (msg : ActorMsg) : bool :=
  match handler a, msg with
  | Some HandlerNormal_, kRegstMsg src r d =>
      if Z.eqb src (Rank P) then
        if decide (regst_desc_id P r ∈ NC) then
          IsConsumedCtrlRegstDescId c (regst_desc_id P r) || has_data_regst_desc P r
        else if decide (regst_desc_id P r ∈ IC) then true else has_reader a r
      else if IsConsumedCtrlRegstDescId c d then bool_decide (d ∈ NC) else has_reader a r
  | Some HandlerNormal_, kEordMsg id => bool_decide (id ∉ eord_regst_desc_ids a)
  | Some HandlerNormal_, kCmdMsg kStart => true
  | Some HandlerZombie_, kRegstMsg _ r _ =>
      has_reader a r || bool_decide (reading_cnt a !! r = None) && bool_decide (regst_desc_id P r ∉ NC)
  | Some HandlerZombie_, kEordMsg _ => Z.leb 1 (remaining_eord_cnt a)
  | _, _ => false
  end.

Lemma has_reader_spec a r : has_reader a r = true → ∃ n, reading_cnt a !! r = Some n ∧ 1 ≤ n.
Proof. unfold has_reader. destruct (_ !! r) as [n|]; [|done]. intros H%Z.leb_le. by exists n. Qed.

Lemma protocol_b_sound a msg : protocol_b a msg = true → protocol P c NC IC a msg.
Proof.
  unfold protocol_b, protocol, wf_msg, wf_zombie_msg.
  destruct (handler a) as [[|]|]; [..|by destruct msg]; destruct msg as [src r d|id|[| |]]; try done.
  - destruct (Z.eqb src (Rank P)); [destruct (decide _); [|destruct (decide _); [done|apply has_reader_spec]]|].
    + destruct (IsConsumedCtrlRegstDescId c _); [done|]. by intros.
    + destruct (IsConsumedCtrlRegstDescId c d); [by intros ?%bool_decide_eq_true|apply has_reader_spec].
  - by intros ?%bool_decide_eq_true.
  - intros [?%has_reader_spec|[??]%andb_true_iff]%orb_true_iff; [by left|right].
    by split; eapply bool_decide_eq_true.
  - by intros ?%Z.leb_le.
Qed.

Definition enough_b (fuel : nat) (a : actor) : bool :=
  existsb (λ kv, Nat.ltb (length kv.2) fuel) (map_to_list (regst_desc_id2regsts (naive_consumed_rs a))).

Lemma enough_b_sound fuel a : enough_b fuel a = true → enough fuel a.
Proof.
  unfold enough_b. rewrite existsb_exists. intros ([id q] & Hin%list_elem_of_In%elem_of_map_to_list & Hl%Nat.ltb_lt).
  by exists id, q.
Qed.

(** The state after the messages, if all are of the protocol. *)
Fixpoint exec (fuel : nat) (a : actor) (msgs : list ActorMsg) : option actor :=
  match msgs with
  | [] => Some a
  | m :: msgs =>
      if protocol_b a m && enough_b fuel a then
        match ProcessMsg P c alloc_async fuel a m with Ret (_, a') => exec fuel a' msgs | _ => None end
      else None
  end.

Lemma exec_run fuel msgs : ∀ a a', exec fuel a msgs = Some a' → actor_run P c alloc_async NC IC a a'.
Proof.
  induction msgs as [|m msgs IH]; intros a a'; cbn [exec]; [intros [= ->]; apply rtc_refl|].
  destruct (protocol_b a m && enough_b fuel a) eqn:E; [|done]. apply andb_true_iff in E as [Hp Hf].
  destruct (ProcessMsg P c alloc_async fuel a m) as [[rc a1]| |] eqn:Ep; [|done|done]. intros H.
  eapply rtc_l; [|by apply IH]. econstructor; [by apply protocol_b_sound|by apply enough_b_sound|done].
Qed.

Lemma protocol_sent_ok a msg : protocol P c NC IC a msg → sent_ok P c NC IC a msg.
Proof. unfold protocol, sent_ok. destruct msg; [done| |done]. by destruct (handler a). Qed.

Lemma exec_trace a0 fuel msgs : ∀ before a a',
  actor_trace P c alloc_async NC IC a0 before a → exec fuel a msgs = Some a' →
  actor_trace P c alloc_async NC IC a0 (before ++ msgs) a'.
Proof.
  induction msgs as [|m msgs IH]; intros before a a' H; cbn [exec]; [rewrite app_nil_r; by intros [= ->]|].
  destruct (protocol_b a m && enough_b fuel a) eqn:E; [|done]. apply andb_true_iff in E as [Hp Hf].
  destruct (ProcessMsg P c alloc_async fuel a m) as [[rc a1]| |] eqn:Ep; [|done|done]. intros He.
  replace (before ++ m :: msgs) with ((before ++ [m]) ++ msgs) by by rewrite <- app_assoc. eapply IH; [|done].
  econstructor; [done|by apply protocol_sent_ok, protocol_b_sound|by apply enough_b_sound|done].
Qed.
End exec.

(** ** An actor *)

(** Inputs: descriptor 1, the control input 2, the in-place input 3.  Outputs: 10
    with two registers and two consumers, 11 in place of 3, the control output 12. *)
Definition demo_plan : Plan := mkPlan
  (λ r, match r with 100%nat | 101%nat => 10 | 110%nat => 11 | 120%nat => 12 | _ => Z.of_nat r end)
  (λ r, 50 + Z.of_nat r)
  (λ r, match r with 100%nat | 101%nat => [7; 8] | 110%nat => [9] | 120%nat => [7] | _ => [] end)
  (λ r, negb (Nat.eqb r 2 || Nat.eqb r 120))
  (λ r, Nat.eqb r 2 || Nat.eqb r 120)
  (λ r, if Nat.eqb r 110 then kStatic else kStreamOrdered)
  (λ id, id / 100) (λ id, if Z.eqb id 2 then Some 51 else None) 0.

Definition demo_task : TaskProto := mkTask 5 true
  [ ("out"%string, mkRegstDescProto 10 None false [100%nat; 101%nat]);
    ("inplace_out"%string, mkRegstDescProto 11 (Some 3) false [110%nat]);
    ("out_ctrl_0"%string, mkRegstDescProto 12 None true [120%nat]) ]
  [ ("in"%string, [1]); ("in_ctrl"%string, [2]); ("inplace_in"%string, [3]) ].

Definition demo_conf : Conf :=
  match Init demo_plan demo_task with Ret (c, _) => c | _ => mkConf 0 0 false ∅ ∅ ∅ ∅ ∅ ∅ ∅ end.
Definition demo_actor : actor :=
  match Init demo_plan demo_task with
  | Ret (_, a) => a
  | _ => mkActor None ∅ 0 ∅ 0 new_RegstSlot new_RegstSlot new_RegstSlot new_RegstSlot false false [] [] ∅ []
  end.
Definition demo_alloc (n r : nat) : option Z := Some (4096 * Z.of_nat (S n)).

Lemma demo_alloc_ok n r : demo_alloc n r ≠ None.
Proof. done. Qed.

Definition demo_regsts : gset nat := {[100%nat; 101%nat; 110%nat; 120%nat]}.

Lemma all_regsts (Q : nat → Prop) `{!∀ r, Decision (Q r)} :
  bool_decide (set_Forall Q demo_regsts) = true → ∀ r, r ∈ demo_regsts → Q r.
Proof. intros Hall%bool_decide_eq_true. exact Hall. Qed.

Lemma demo_conf_ok : conf_ok demo_plan demo_conf {[10; 12]} {[1; 2]} {[11]} {[3]} demo_regsts.
Proof.
  assert (inplace_regst_desc_id_out2in demo_conf = {[11 := 3]}) as E1 by (vm_compute; reflexivity).
  assert (inplace_in_ids_with_no_out_consumed demo_conf = ∅) as E2 by (vm_compute; reflexivity).
  assert (produced_regsts demo_conf = list_to_map [(10, [100; 101]%nat); (11, [110]%nat); (12, [120]%nat)]) as E3
    by (vm_compute; reflexivity).
  assert (produced_ctrl_regst_desc_ids demo_conf = {[12]}) as E4 by (vm_compute; reflexivity).
  assert (consumed_ctrl_regst_desc_ids demo_conf = {[2]}) as E5 by (vm_compute; reflexivity).
  constructor; unfold IsProducedCtrlRegstDescId, IsConsumedCtrlRegstDescId; rewrite ?E1, ?E2, ?E3, ?E4, ?E5.
  - apply (bool_decide_unpack _). vm_compute. exact I.
  - apply (bool_decide_unpack _). vm_compute. exact I.
  - rewrite <- E3. refine (all_regsts _ _). vm_compute. reflexivity.
  - refine (all_regsts _ _). vm_compute. reflexivity.
  - refine (all_regsts _ _). vm_compute. reflexivity.
  - refine (all_regsts _ _). vm_compute. reflexivity.
  - intros id ->%elem_of_singleton. split; [vm_compute; reflexivity|]. exists 3. by rewrite lookup_singleton_eq, elem_of_singleton.
  - intros r r' Hr Hr' E Hip. assert (∀ x, x ∈ demo_regsts → regst_desc_id demo_plan x ∈ ({[11]} : gset Z) → x = 110%nat) as H.
    { refine (all_regsts _ _). vm_compute. reflexivity. }
    rewrite (H r Hr Hip). symmetry. apply (H r' Hr'). by rewrite <- E.
  - intros o o' i. rewrite !lookup_singleton_Some. intros [<- _] [<- _]. done.
  - intros i r []%elem_of_empty.
  - intros id Hid Hc%bool_decide_eq_true%elem_of_singleton. rewrite Hc. by exists 51.
  - intros id q Hq. apply elem_of_list_to_map_2 in Hq. set_solver.
Qed.

Lemma demo_actor_inv : actor_inv demo_plan demo_conf {[10; 12]} {[1; 2]} {[11]} {[3]} demo_regsts demo_actor.
Proof.
  apply initial_inv; try (split; [split|]; vm_compute; reflexivity); try (vm_compute; reflexivity);
    apply (bool_decide_unpack _); vm_compute; exact I.
Qed.

(** One register of each input: the actor acts. *)
Definition demo_inputs : list ActorMsg := [kRegstMsg 0 1 1; kRegstMsg 0 2 2; kRegstMsg 0 3 3].
(** The readers give the outputs back, then the ends of two inputs arrive. *)
Definition demo_returns : list ActorMsg :=
  [kRegstMsg 0 110 11; kRegstMsg 0 100 10; kRegstMsg 0 100 10; kRegstMsg 0 120 12; kEordMsg 1; kEordMsg 2].

Definition demo_after (msgs : list ActorMsg) : actor :=
  match exec demo_plan demo_conf demo_alloc {[1; 2]} {[3]} 5 demo_actor msgs with Some a => a | None => demo_actor end.

Lemma demo_after_run msgs :
  actor_run demo_plan demo_conf demo_alloc {[1; 2]} {[3]} demo_actor (demo_after msgs).
Proof.
  unfold demo_after. destruct (exec _ _ _ _ _ _ _ msgs) as [a|] eqn:E; [by eapply exec_run|apply rtc_refl].
Qed.


Lemma demo_Init : Init demo_plan demo_task = Ret (demo_conf, demo_actor).
Proof. vm_compute. reflexivity. Qed.

Lemma demo_trace msgs :
  bool_decide (is_Some (exec demo_plan demo_conf demo_alloc {[1; 2]} {[3]} 5 demo_actor msgs)) = true →
  actor_trace demo_plan demo_conf demo_alloc {[1; 2]} {[3]} demo_actor msgs (demo_after msgs).
Proof.
  intros [a E]%bool_decide_eq_true. unfold demo_after. rewrite E. apply (exec_trace _ _ _ _ _ _ 5 msgs [] demo_actor); [constructor|done].
Qed.

Lemma demo_told_once msgs : bool_decide (NoDup (ends msgs)) && forallb (λ i, bool_decide (i ∈ [1; 2; 3])) (ends msgs) = true →
  told_once demo_task msgs.
Proof.
  intros [H1%bool_decide_eq_true H2]%andb_true_iff. split; [done|]. intros i Hi%list_elem_of_In.
  rewrite forallb_forall in H2. by apply H2, bool_decide_eq_true in Hi.
Qed.


Definition demo_last : actor :=
  match ProcessMsg demo_plan demo_conf demo_alloc 5 (demo_after (demo_inputs ++ demo_returns)) (kEordMsg 3) with
  | Ret (_, a) => a
  | _ => demo_actor
  end.


(** Both naive inputs are there, the in-place input too. *)
Definition demo_ready : actor :=
  set_inplace_consumed_rs (mkSlot {[3 := [3%nat]]} 1 true)
    (set_naive_consumed_rs (mkSlot (list_to_map [(1, [1%nat]); (2, [2%nat])]) 2 true) demo_actor).

Lemma demo_ready_inv : actor_inv demo_plan demo_conf {[10; 12]} {[1; 2]} {[11]} {[3]} demo_regsts demo_ready.
Proof.
  apply set_ic_inv; [apply set_nc_inv; [apply demo_actor_inv|..]|..].
  - split; vm_compute; reflexivity.
  - vm_compute; reflexivity.
  - intros id q r Hq Hr Hc. apply elem_of_list_to_map_2 in Hq.
    apply elem_of_cons in Hq as [[= -> ->]|[[= -> ->]|[]%not_elem_of_nil]%elem_of_cons].
    + apply list_elem_of_singleton in Hr as ->. split; reflexivity.
    + vm_compute in Hc. discriminate.
  - split; vm_compute; reflexivity.
  - vm_compute; reflexivity.
  - intros id q r. cbn [regst_desc_id2regsts]. rewrite lookup_singleton_Some. intros [<- <-] ->%list_elem_of_singleton. reflexivity.
  - intros r n i _ _ _ _. cbn [regst_desc_id2regsts]. rewrite lookup_singleton_Some. by intros [_ ?].
Qed.

Lemma act_takes_one_of_each_witness :
  ∃ a', act_once demo_plan demo_conf demo_alloc demo_ready = Ret a' ∧
    actor_inv demo_plan demo_conf {[10; 12]} {[1; 2]} {[11]} {[3]} demo_regsts a' ∧
    ∀ id, regst_desc_id2regsts (naive_consumed_rs a') !! id =
          tail <$> regst_desc_id2regsts (naive_consumed_rs demo_ready) !! id.
Proof.
  apply act_takes_one_of_each.
  - apply demo_conf_ok.
  - apply demo_alloc_ok.
  - apply demo_ready_inv.
  - vm_compute. reflexivity.
  - vm_compute. reflexivity.
Defined.

(** The second control register arrives after the end. *)
Lemma zombie_late_register_aborts_witness :
  handler (demo_after (demo_inputs ++ demo_returns)) = Some HandlerZombie_ ∧
  HandlerZombie demo_plan demo_conf (demo_after (demo_inputs ++ demo_returns)) (kRegstMsg 0 1 1) = Crash.
Proof.
  split; [vm_compute; reflexivity|]. apply zombie_late_register_aborts.
  - split; vm_compute; reflexivity.
  - vm_compute. reflexivity.
  - vm_compute. reflexivity.
Defined.
