(* ===== verification/StrUtil.v ===== *)
(** * Strings

    Models [oneflow/core/common/str_util.h] and [str_util.cpp] with the integer casts of
    [common/util.cpp].  A [std::string] is the list of its character codes, [c_str]
    its part before the first NUL.  [strtoll] and [std::to_string] are those of the
    C++ library: [strtoll] with base 0 skips white space, reads a sign, takes [0x]
    and [0] as hexadecimal and octal prefixes, and clamps to the range of the result.

    Loops over the text run on fuel that the length of the text bounds. *)
From S2P Require Import Prelude.

Abbreviation str := (list Z).

Definition chars (s : string) : str := map (λ c, Z.of_N (Ascii.N_of_ascii c)) (String.list_ascii_of_string s).

Definition ch_nul : Z := 0.
Definition ch_minus : Z := 45.
Definition ch_slash : Z := 47.
Definition ch_dot : Z := 46.
Definition ch_zero : Z := 48.
Definition ch_colon : Z := 58.
Definition ch_at : Z := 64.
Definition ch_underline : Z := 95.

(** ** The C++ library *)

Fixpoint c_str (s : str) : str :=
  match s with
  | [] => []
  | c :: s => if c =? ch_nul then [] else c :: c_str s
  end.

Definition isdigit (c : Z) : bool := (48 <=? c) && (c <=? 57).
Definition isspace (c : Z) : bool := (c =? 32) || (9 <=? c) && (c <=? 13).

(** The value of a digit in any base, [36] for other characters. *)
Definition digit_value (c : Z) : Z :=
  if isdigit c then c - 48
  else if (97 <=? c) && (c <=? 122) then c - 87
  else if (65 <=? c) && (c <=? 90) then c - 55
  else 36.

Fixpoint skip_spaces (s : str) : str :=
  match s with
  | c :: t => if isspace c then skip_spaces t else s
  | [] => []
  end.

(** Digits of a base: the value read so far, whether any was read, the rest. *)
Fixpoint read_digits (base : Z) (s : str) (acc : Z) (any : bool) : Z * bool * str :=
  match s with
  | c :: t => if digit_value c <? base then read_digits base t (acc * base + digit_value c) true else (acc, any, s)
  | [] => (acc, any, [])
  end.

Definition read_sign (s : str) : bool * str :=
  match s with
  | c :: t => if c =? ch_minus then (true, t) else if c =? 43 then (false, t) else (false, s)
  | [] => (false, [])
  end.

(** The base that a prefix selects, and what follows the prefix. *)
Definition read_prefix (s : str) : Z * str :=
  match s with
  | z :: x :: d :: t =>
      if (z =? ch_zero) && ((x =? 120) || (x =? 88)) && (digit_value d <? 16) then (16, d :: t)
      else if z =? ch_zero then (8, s) else (10, s)
  | z :: _ => if z =? ch_zero then (8, s) else (10, s)
  | [] => (10, s)
  end.

(** [strtoll(s, &end, 0)]: the value and what [end] points at. *)
Definition strtoll (s : str) : Z * str :=
  let '(neg, t) := read_sign (skip_spaces s) in
  let '(base, t) := read_prefix t in
  let '(v, any, rest) := read_digits base t 0 false in
  if any then (Z.max (- 2 ^ 63) (Z.min (2 ^ 63 - 1) (if neg then - v else v)), rest) else (0, s).

Fixpoint digits (fuel : nat) (n : Z) (acc : str) : str :=
  match fuel with
  | O => acc
  | S fuel => let acc := (48 + n mod 10) :: acc in if n <? 10 then acc else digits fuel (n / 10) acc
  end.

Definition decimal (n : Z) : str := digits (S (Z.to_nat (Z.log2 n))) n [].

(** [std::to_string]. *)
Definition to_string (n : Z) : str := if n <? 0 then ch_minus :: decimal (- n) else decimal n.

(** [s.find(c)] and [s.rfind(c)]. *)
Fixpoint find (c : Z) (s : str) : option nat :=
  match s with
  | [] => None
  | d :: s => if d =? c then Some 0%nat else match find c s with Some k => Some (S k) | None => None end
  end.
Fixpoint rfind (c : Z) (s : str) : option nat :=
  match s with
  | [] => None
  | d :: s => match rfind c s with
              | Some k => Some (S k)
              | None => if d =? c then Some 0%nat else None
              end
  end.

(** ** Integers in strings *)

(** [oneflow_cast<int64_t>]. *)
Definition oneflow_cast (s : str) : outcome Z :=
  let '(ret, end_ptr) := strtoll (c_str s) in
  let* _ := CHECK (Nat.eqb (length end_ptr) 0) in
  Ret ret.

(** [oneflow_cast<int32_t>]: the [long] result is narrowed. *)
Definition oneflow_cast_i32 (s : str) : outcome Z := let* v := oneflow_cast s in Ret (i32 v).

Definition IsStrInt (s : str) : bool :=
  match s with
  | [] => false
  | c :: _ => if negb (isdigit c) && negb (c =? ch_minus) then false else Nat.eqb (length (strtoll (c_str s)).2) 0
  end.

Definition StrCat (prefix : str) (id : Z) : str := prefix ++ to_string id.

Definition GetHashKeyImpl (integers : list Z) : str := foldl (λ result i, result ++ to_string i ++ chars ",") [] integers.

(** [underline_pos < size() - 1] is on [size_t]. *)
Definition GetPrefixAndIndex (prefix_and_idx : str) : outcome (str * Z) :=
  match rfind ch_underline prefix_and_idx with
  | None => Crash
  | Some underline_pos =>
      let* _ := CHECK (Nat.ltb 0 underline_pos) in
      let* _ := CHECK (Z.of_nat underline_pos <? u64 (Z.of_nat (length prefix_and_idx) - 1)) in
      let* index := oneflow_cast_i32 (drop (S underline_pos) prefix_and_idx) in
      let* _ := CHECK (0 <=? index) in
      Ret (take underline_pos prefix_and_idx, index)
  end.

(** [None] when the source returns [false]; whether the out parameters were written
    is not observed by the callers then. *)
Definition TryGetPrefixAndIndex (prefix_and_idx : str) : outcome (option (str * Z)) :=
  match rfind ch_underline prefix_and_idx with
  | None => Ret None
  | Some underline_pos =>
      if Nat.eqb underline_pos 0 then Ret None
      else if Z.of_nat underline_pos =? u64 (Z.of_nat (length prefix_and_idx) - 1) then Ret None
      else
        let index_str := drop (S underline_pos) prefix_and_idx in
        if negb (IsStrInt index_str) then Ret None
        else
          let* index := oneflow_cast_i32 index_str in
          if 0 <=? index then Ret (Some (take underline_pos prefix_and_idx, index)) else Ret None
  end.

(** ** Cutting and joining *)

Definition StringReplace (s : str) (old_ch new_ch : Z) : str := map (λ c, if c =? old_ch then new_ch else c) s.

Fixpoint skip_delims (delims text : str) : str :=
  match text with
  | c :: t => if bool_decide (c ∈ delims) then skip_delims delims t else text
  | [] => []
  end.
Fixpoint take_token (delims text : str) : str * str :=
  match text with
  | c :: t => if bool_decide (c ∈ delims) then ([], text) else let '(a, b) := take_token delims t in (c :: a, b)
  | [] => ([], [])
  end.
(** The token and the text that is left. *)
Definition StrToToken (text delims : str) : str * str := take_token delims (skip_delims delims (c_str text)).

(** The pieces handed to [Func], in order.  The loop runs to [i = size()]. *)
Fixpoint split_loop (text delims : str) (token_start : nat) (l : list nat) : list str :=
  match l with
  | [] => []
  | i :: l =>
      if Nat.eqb i (length text) || bool_decide (default 0 (text !! i) ∈ delims)
      then take (i - token_start) (drop token_start text) :: split_loop text delims (S i) l
      else split_loop text delims token_start l
  end.
Definition Split (text delims : str) : list str :=
  match text with
  | [] => []
  | _ => split_loop text delims 0 (seq 0 (S (length text)))
  end.

Definition IsAbsolutePath (path : str) : bool := match path with c :: _ => c =? ch_slash | [] => false end.

Definition join_step (result path : str) : str :=
  match path with
  | [] => result
  | _ =>
      match result with
      | [] => path
      | _ =>
          if List.last result 0 =? ch_slash
          then if IsAbsolutePath path then result ++ drop 1 path else result ++ path
          else if IsAbsolutePath path then result ++ path else result ++ ch_slash :: path
      end
  end.
Definition JoinPathImpl (paths : list str) : str := foldl join_step [] paths.

Definition Dirname (path : str) : str :=
  match rfind ch_slash path with
  | None => []
  | Some 0%nat => [ch_slash]
  | Some found => take found path
  end.

Definition Basename (path : str) : str :=
  match rfind ch_slash path with
  | None => path
  | Some found => drop (S found) path
  end.

(** [std::transform] writes at [small.begin()] of an empty string: the first write is
    out of range. *)
Definition ToLower (cap : str) : outcome str :=
  match cap with
  | [] => Ret []
  | _ => Crash
  end.

(** ** Printing and reading integers *)

Definition is_digit (c : Z) : Prop := 48 ≤ c ≤ 57.

Lemma digits_shape (fuel : nat) (n : Z) (acc : str) : 0 ≤ n < 2 ^ Z.of_nat fuel → (0 < fuel)%nat →
  ∃ c t, digits fuel n acc = c :: t ++ acc ∧ is_digit c ∧ Forall is_digit t ∧ (0 < n → c ≠ 48).
Proof.
  revert n acc. induction fuel as [|fuel IH]; intros n acc Hn Hf; [lia|]. cbn [digits].
  pose proof (Z.mod_pos_bound n 10 ltac:(lia)). destruct (Z.ltb_spec n 10) as [Hlt|Hge].
  - exists (48 + n mod 10), []. rewrite Z.mod_small by lia. split_and!; [done|unfold is_digit; lia|constructor|lia].
  - assert (Hf' : (0 < fuel)%nat) by (destruct fuel; [cbn in Hn; lia|lia]).
    destruct (IH (n / 10) ((48 + n mod 10) :: acc)) as (c & t & -> & Hc & Ht & Hnz); [|done|].
    + rewrite Nat2Z.inj_succ, Z.pow_succ_r in Hn by lia. split; [apply Z.div_pos; lia|apply Z.div_lt_upper_bound; lia].
    + exists c, (t ++ [48 + n mod 10]). rewrite <- app_assoc. cbn [app].
      split_and!; [done|done|apply Forall_app; split; [done|repeat constructor; lia]|].
      intros _. apply Hnz. apply Z.div_str_pos. lia.
Qed.

Lemma digit_value_digit (c : Z) : is_digit c → digit_value c = c - 48.
Proof.
  unfold is_digit, digit_value, isdigit. intros Hc.
  destruct (Z.leb_spec 48 c), (Z.leb_spec c 57); cbn [andb]; lia.
Qed.

Lemma read_digits_digits (fuel : nat) (n : Z) (acc : str) (any : bool) : 0 ≤ n < 2 ^ Z.of_nat fuel → (0 < fuel)%nat →
  read_digits 10 (digits fuel n acc) 0 any = read_digits 10 acc n true.
Proof.
  revert n acc any. induction fuel as [|fuel IH]; intros n acc any Hn Hf; [lia|]. cbn [digits].
  pose proof (Z.mod_pos_bound n 10 ltac:(lia)).
  assert (Hd : ∀ a b, read_digits 10 ((48 + n mod 10) :: acc) a b = read_digits 10 acc (a * 10 + n mod 10) true).
  { intros a b. cbn [read_digits]. rewrite digit_value_digit by (unfold is_digit; lia).
    destruct (Z.ltb_spec (48 + n mod 10 - 48) 10); [|lia]. f_equal; lia. }
  destruct (Z.ltb_spec n 10) as [Hlt|Hge].
  - rewrite Hd, Z.mod_small by lia. f_equal; lia.
  - rewrite IH; [|rewrite Nat2Z.inj_succ, Z.pow_succ_r in Hn by lia; split; [apply Z.div_pos; lia|apply Z.div_lt_upper_bound; lia]|].
    + rewrite Hd. f_equal. pose proof (Z.div_mod n 10). lia.
    + destruct fuel; [cbn in Hn; lia|lia].
Qed.

Lemma decimal_fuel (n : Z) : 0 ≤ n → 0 ≤ n < 2 ^ Z.of_nat (S (Z.to_nat (Z.log2 n))).
Proof.
  intros Hn. pose proof (Z.log2_nonneg n). rewrite Nat2Z.inj_succ, Z2Nat.id by done.
  split; [done|]. destruct (Z.eq_dec n 0) as [->|]; [done|]. apply Z.log2_spec. lia.
Qed.

Lemma decimal_shape (n : Z) : 0 ≤ n →
  ∃ c t, decimal n = c :: t ∧ is_digit c ∧ Forall is_digit t ∧ (0 < n → c ≠ 48).
Proof.
  intros Hn. destruct (digits_shape _ n [] (decimal_fuel n Hn)) as (c & t & E & H); [lia|].
  exists c, t. split; [|done]. unfold decimal. by rewrite E, app_nil_r.
Qed.

Lemma decimal_digits (n : Z) : 0 ≤ n → Forall is_digit (decimal n).
Proof. intros Hn. destruct (decimal_shape n Hn) as (c & t & -> & Hc & Ht & _). by constructor. Qed.

Lemma read_decimal (n : Z) : 0 ≤ n →
  (let '(base, t) := read_prefix (decimal n) in read_digits base t 0 false) = (n, true, []).
Proof.
  intros Hn. destruct (decide (n = 0)) as [->|Hnz]; [done|].
  destruct (decimal_shape n Hn) as (c & t & E & Hc & _ & Hc0).
  assert (Ep : read_prefix (decimal n) = (10, decimal n)).
  { rewrite E. specialize (Hc0 ltac:(lia)). unfold read_prefix.
    destruct t as [|x [|y t]]; destruct (Z.eqb_spec c ch_zero); try done. }
  rewrite Ep. unfold decimal. rewrite read_digits_digits by (lia || by apply decimal_fuel). done.
Qed.

Lemma digits_no_nul (s : str) : Forall is_digit s → c_str s = s.
Proof.
  induction 1 as [|c s Hc _ IH]; [done|]. cbn [c_str]. unfold is_digit, ch_nul in *.
  destruct (Z.eqb_spec c 0); [lia|]. by rewrite IH.
Qed.

Lemma digit_not_space (c : Z) : is_digit c → isspace c = false.
Proof.
  unfold is_digit, isspace. intros Hc. destruct (Z.eqb_spec c 32), (Z.leb_spec 9 c), (Z.leb_spec c 13); cbn; (done || lia).
Qed.

(** [strtoll] reads back what [std::to_string] prints. *)
Lemma strtoll_to_string (n : Z) : is_i64 n → strtoll (to_string n) = (n, []).
Proof.
  intros Hn. unfold is_i64 in Hn. unfold to_string. destruct (Z.ltb_spec n 0).
  - unfold strtoll. assert (Es : read_sign (skip_spaces (ch_minus :: decimal (- n))) = (true, decimal (- n))) by done.
    rewrite Es. pose proof (read_decimal (- n) ltac:(lia)) as Hr.
    destruct (read_prefix (decimal (- n))) as [base t]. rewrite Hr. f_equal. lia.
  - destruct (decimal_shape n ltac:(lia)) as (c & t & E & Hc & _).
    assert (Es : read_sign (skip_spaces (decimal n)) = (false, decimal n)).
    { rewrite E. cbn [skip_spaces]. rewrite digit_not_space by done. cbn [read_sign]. unfold is_digit, ch_minus in *.
      destruct (Z.eqb_spec c 45), (Z.eqb_spec c 43); (done || lia). }
    unfold strtoll. rewrite Es. pose proof (read_decimal n ltac:(lia)) as Hr.
    destruct (read_prefix (decimal n)) as [base t']. rewrite Hr. f_equal. lia.
Qed.

Lemma to_string_no_nul (n : Z) : c_str (to_string n) = to_string n.
Proof.
  unfold to_string. destruct (Z.ltb_spec n 0).
  - cbn [c_str]. change (ch_minus =? ch_nul) with false. cbn iota. by rewrite digits_no_nul by (apply decimal_digits; lia).
  - by apply digits_no_nul, decimal_digits.
Qed.

Lemma oneflow_cast_to_string (n : Z) : is_i64 n → oneflow_cast (to_string n) = Ret n.
Proof. intros Hn. unfold oneflow_cast. by rewrite to_string_no_nul, strtoll_to_string. Qed.

Lemma IsStrInt_to_string (n : Z) : is_i64 n → IsStrInt (to_string n) = true.
Proof.
  intros Hn. assert (Hh : ∃ c t, to_string n = c :: t ∧ (c = ch_minus ∨ is_digit c)).
  { unfold to_string. destruct (Z.ltb_spec n 0); [by exists ch_minus, (decimal (- n)); eauto|].
    destruct (decimal_shape n ltac:(lia)) as (c & t & -> & Hc & _). by exists c, t; eauto. }
  destruct Hh as (c & t & E & Hc). unfold IsStrInt. rewrite E, <- E, to_string_no_nul, strtoll_to_string by done.
  destruct Hc as [->|Hc]; [done|]. unfold isdigit, is_digit in *.
  destruct (Z.leb_spec 48 c), (Z.leb_spec c 57); cbn [andb negb]; (done || lia).
Qed.

(** ** Searching *)

Lemma find_app_first (c : Z) (a b : str) : c ∉ a → find c (a ++ c :: b) = Some (length a).
Proof.
  induction a as [|d a IH]; intros Hc; cbn [app find length]; [by rewrite Z.eqb_refl|].
  apply not_elem_of_cons in Hc as [Hne Hc]. destruct (Z.eqb_spec d c) as [->|]; [done|]. by rewrite IH.
Qed.

Lemma find_none (c : Z) (a : str) : c ∉ a → find c a = None.
Proof.
  induction a as [|d a IH]; intros Hc; [done|]. apply not_elem_of_cons in Hc as [Hne Hc]. cbn [find].
  destruct (Z.eqb_spec d c) as [->|]; [done|]. by rewrite IH.
Qed.

Lemma rfind_none (c : Z) (a : str) : c ∉ a → rfind c a = None.
Proof.
  induction a as [|d a IH]; intros Hc; [done|]. apply not_elem_of_cons in Hc as [Hne Hc]. cbn [rfind].
  rewrite IH by done. by destruct (Z.eqb_spec d c) as [->|].
Qed.

Lemma rfind_app_last (c : Z) (a b : str) : c ∉ b → rfind c (a ++ c :: b) = Some (length a).
Proof.
  intros Hc. induction a as [|d a IH]; cbn [app rfind length]; [by rewrite rfind_none, Z.eqb_refl|]. by rewrite IH.
Qed.

Lemma digits_exclude (c : Z) (s : str) : ¬ is_digit c → Forall is_digit s → c ∉ s.
Proof. intros Hc Hs Hin. rewrite Forall_forall in Hs. by apply Hc, Hs. Qed.
