(* ===== verification/Placement.v ===== *)
(** * Placements

    Models [oneflow/core/job/parallel_desc.cpp], [framework/parallel_conf_util.cpp] and
    [SortAndRemoveDuplication] and [EraseIf] of [common/util.h].  A [ParallelConf] names devices in
    strings such as [0:0-3] (node 0, devices 0 to 3) or [@2:1] (process 2, device 1);
    [MaybeInit] parses them into a [ParallelDesc], in which the devices, sorted by
    process and device number, are numbered by consecutive parallel ids.

    A range of devices is a finite list; the loop of the code over one that ends at
    the greatest [int64_t] would overflow its counter instead.

    Hash maps are finite maps; the loops over them compute sums, sorted lists and
    comparisons that do not depend on the order.  The process context ([Rank], the
    number of processes per node) and the registry that maps a device tag to a device
    type, filled at start-up, are parameters. *)
From stdpp Require Import sorting.
From S2P Require Import Prelude Shape StrUtil.

Record ParallelConf := mkConf { device_tag : str; device_name : list str; conf_hierarchy : option (list Z) }.

Record ParallelDesc := mkDesc {
  device_type_ : Z;
  parallel_conf_ : ParallelConf;
  hierarchy_ : Shape;
  sorted_machine_ids_ : list Z;
  machine_id2sorted_dev_phy_ids_ : gmap Z (list Z);
  parallel_num_ : Z;
  device_num_of_each_machine_ : Z;
  parallel_id2machine_id_ : list Z;
  parallel_id2device_id_ : list Z;
  machine_id2device_id2parallel_id_ : gmap Z (gmap Z Z);
  containing_current_rank_ : bool
}.

#[export] Instance ParallelConf_eq_dec : EqDecision ParallelConf.
Proof. solve_decision. Defined.

(** ** Sorting without duplicates *)

(** [std::unique]: the first of every run of equal elements. *)
Fixpoint unique (l : list Z) : list Z :=
  match l with
  | [] => []
  | x :: t => match t with
              | y :: _ => if x =? y then unique t else x :: unique t
              | [] => [x]
              end
  end.

Definition SortAndRemoveDuplication (vec : list Z) : list Z := unique (merge_sort Z.le vec).

Definition EraseIf {V : Type} (cond : V → bool) (hash_map : gmap Z V) : gmap Z V :=
  filter (λ kv, cond kv.2 = false) hash_map.

(** ** Parsing *)

Definition ParseDeviceNameConf (device_name : str) : outcome (Z * str) :=
  match rfind ch_colon device_name with
  | None => Fail CheckFailedError
  | Some delimiter_pos =>
      let* mchn_id := oneflow_cast (take delimiter_pos device_name) in
      Ret (mchn_id, drop (S delimiter_pos) device_name)
  end.

(** Append to the devices of [mchn_id]; the arithmetic mixes [int64_t] and
    [size_t]. *)
Definition add_device (node_id cols : Z) (m : gmap Z (list Z)) (dev_phy_id : Z) : outcome (gmap Z (list Z)) :=
  if cols =? 0 then Crash else
  let mchn_id := i64 (u64 (u64 dev_phy_id mod cols + u64 (node_id * cols))) in
  Ret (<[mchn_id := default [] (m !! mchn_id) ++ [dev_phy_id]]> m).

Definition SetMachineIdAndDeviceIdsByParsingDeviceName (device_name : str) (cols : Z) (m : gmap Z (list Z))
    : outcome (gmap Z (list Z)) :=
  let* (node_id, device_id_str) := ParseDeviceNameConf device_name in
  let device_id_str := match find ch_minus device_id_str with
                       | None => device_id_str ++ ch_minus :: device_id_str
                       | Some _ => device_id_str
                       end in
  let minus_pos := default 0%nat (find ch_minus device_id_str) in
  let* min_id := oneflow_cast (take minus_pos device_id_str) in
  let* max_id := oneflow_cast (drop (S minus_pos) device_id_str) in
  let* _ := CHECK_OR_RETURN (min_id <=? max_id) CheckFailedError in
  ofold (add_device node_id cols) (range_list min_id (max_id + 1)) m.

(** ** Numbering *)

(** The state of the loops that number the devices: the names, the two vectors and
    the inverse map. *)
Definition numbering : Type := list str * list Z * list Z * gmap Z (gmap Z Z) * Z.

Definition add_parallel_id (machine_id : Z) (st : numbering) (device_id : Z) : outcome numbering :=
  let '(names, id2machine, id2device, inverse, parallel_id) := st in
  let name := chars "@" ++ to_string machine_id ++ chars ":" ++ to_string device_id in
  let* _ := CHECK (parallel_id =? Z.of_nat (length id2machine)) in
  let* _ := CHECK (parallel_id =? Z.of_nat (length id2device)) in
  Ret (names ++ [name], id2machine ++ [machine_id], id2device ++ [device_id],
       <[machine_id := <[device_id := parallel_id]> (default ∅ (inverse !! machine_id))]> inverse, parallel_id + 1).

Definition number_machine (m : gmap Z (list Z)) (st : numbering) (machine_id : Z) : outcome numbering :=
  match m !! machine_id with
  | None => Crash
  | Some devices => ofold (add_parallel_id machine_id) devices st
  end.

Definition ClearUp (d : ParallelDesc) : outcome ParallelDesc :=
  let m := EraseIf (λ v, match v with [] => true | _ => false end) (machine_id2sorted_dev_phy_ids_ d) in
  let m := SortAndRemoveDuplication <$> m in
  let machine_ids := map fst (map_to_list m) in
  let parallel_num := sumZ (map (λ kv, Z.of_nat (length kv.2)) (map_to_list m)) in
  let* (hierarchy, proto) :=
    match conf_hierarchy (parallel_conf_ d) with
    | Some ((_ :: _) as dims) =>
        let* _ := CHECK (elem_cnt (Shape_of dims) =? parallel_num) in Ret (Shape_of dims, dims)
    | _ => Ret (Shape_of [parallel_num], [parallel_num])
    end in
  let machine_ids := SortAndRemoveDuplication machine_ids in
  let* (names, id2machine, id2device, inverse, _) :=
    ofold (number_machine m) machine_ids
      ([], parallel_id2machine_id_ d, parallel_id2device_id_ d, machine_id2device_id2parallel_id_ d, 0) in
  Ret (mkDesc (device_type_ d) (mkConf (device_tag (parallel_conf_ d)) names (Some proto)) hierarchy machine_ids m
         parallel_num (device_num_of_each_machine_ d) id2machine id2device inverse (containing_current_rank_ d)).

(** The loop compares every size with the first. *)
Definition sanity_step (n : Z) (kv : Z * list Z) : outcome Z :=
  if n =? -1 then Ret (Z.of_nat (length kv.2))
  else let* _ := CHECK_OR_RETURN (n =? Z.of_nat (length kv.2)) CheckFailedError in Ret n.

Definition SanityCheck (d : ParallelDesc) : outcome ParallelDesc :=
  let* n := ofold sanity_step (map_to_list (machine_id2sorted_dev_phy_ids_ d)) (-1) in
  Ret (mkDesc (device_type_ d) (parallel_conf_ d) (hierarchy_ d) (sorted_machine_ids_ d)
         (machine_id2sorted_dev_phy_ids_ d) (parallel_num_ d) n (parallel_id2machine_id_ d)
         (parallel_id2device_id_ d) (machine_id2device_id2parallel_id_ d) (containing_current_rank_ d)).

(** ** Construction *)

Section Init.
Context (GetDeviceTypeByDeviceTypeName : str → Z) (Rank NumOfProcessPerNode : Z).

Definition kInvalidDevice : Z := 0.

Definition DeviceType4DeviceTag (tag : str) : outcome Z :=
  let device_type := GetDeviceTypeByDeviceTypeName tag in
  if device_type =? kInvalidDevice then Fail DeviceTagNotFoundError else Ret device_type.

Definition parse_device_name (m : gmap Z (list Z)) (name : str) : outcome (gmap Z (list Z)) :=
  match name with
  | c :: t => if c =? ch_at then SetMachineIdAndDeviceIdsByParsingDeviceName t 1 m
              else SetMachineIdAndDeviceIdsByParsingDeviceName name (u64 NumOfProcessPerNode) m
  | [] => SetMachineIdAndDeviceIdsByParsingDeviceName name (u64 NumOfProcessPerNode) m
  end.

(** On a new object, whose vectors are empty. *)
Definition MaybeInit (user_conf : ParallelConf) : outcome ParallelDesc :=
  let* device_type := DeviceType4DeviceTag (device_tag user_conf) in
  let* m := ofold parse_device_name (device_name user_conf) ∅ in
  let containing := match m !! Rank with Some _ => true | None => false end in
  let* d := ClearUp (mkDesc device_type user_conf (mkShape [] false) [] m 0 0 [] [] ∅ containing) in
  SanityCheck d.

(** The constructor [ParallelDesc(user_conf)] is [CHECK_JUST(MaybeInit(user_conf))]. *)
Definition new_ParallelDesc (user_conf : ParallelConf) : outcome ParallelDesc :=
  match MaybeInit user_conf with Ret d => Ret d | _ => Crash end.
End Init.

(** ** Queries *)

Definition MachineId4ParallelId (d : ParallelDesc) (parallel_id : Z) : outcome Z :=
  let* _ := CHECK_OR_RETURN (u64 parallel_id <? Z.of_nat (length (parallel_id2machine_id_ d))) CheckFailedError in
  at_ (parallel_id2machine_id_ d) parallel_id.
Definition DeviceId4ParallelId (d : ParallelDesc) (parallel_id : Z) : outcome Z :=
  let* _ := CHECK_OR_RETURN (u64 parallel_id <? Z.of_nat (length (parallel_id2device_id_ d))) CheckFailedError in
  at_ (parallel_id2device_id_ d) parallel_id.

Definition ParallelId4MachineDeviceId (d : ParallelDesc) (machine_id device_id : Z) : outcome Z :=
  match machine_id2device_id2parallel_id_ d !! machine_id with
  | None => Fail CheckFailedError
  | Some ids => match ids !! device_id with None => Fail CheckFailedError | Some id => Ret id end
  end.

(** The bool result and the out parameter. *)
Definition TryGetParallelId (d : ParallelDesc) (machine_id device_id : Z) : option Z :=
  match machine_id2device_id2parallel_id_ d !! machine_id with
  | None => None
  | Some ids => ids !! device_id
  end.

Definition HasMachineId (d : ParallelDesc) (machine_id : Z) : bool :=
  match machine_id2sorted_dev_phy_ids_ d !! machine_id with Some _ => true | None => false end.

Definition TryGetParallelId_rank (d : ParallelDesc) (rank : Z) : outcome (option Z) :=
  if negb (HasMachineId d rank) then Ret None else
  match machine_id2sorted_dev_phy_ids_ d !! rank with
  | None => Crash
  | Some device_ids =>
      let* _ := CHECK_OR_RETURN (Nat.eqb (length device_ids) 1) CheckFailedError in
      match device_ids !! 0%nat with
      | None => Fail CheckFailedError
      | Some device_id => Ret (TryGetParallelId d rank device_id)
      end
  end.

Definition GetParallelContext (d : ParallelDesc) (machine_id device_id : Z) : outcome (Z * Z) :=
  let* parallel_id := ParallelId4MachineDeviceId d machine_id device_id in
  Ret (parallel_id, parallel_num_ d).

Definition ContainingMachineId := HasMachineId.

Definition Containing (d : ParallelDesc) (machine_id device_id : Z) : bool :=
  match machine_id2sorted_dev_phy_ids_ d !! machine_id with
  | None => false
  | Some vec => bool_decide (device_id ∈ vec)
  end.

Definition GlobalDeviceIdsContaining (bigger smaller : gmap Z (list Z)) : bool :=
  forallb (λ kv, match bigger !! kv.1 with
                 | None => false
                 | Some bigger_device_ids => forallb (λ id, bool_decide (id ∈ bigger_device_ids)) kv.2
                 end) (map_to_list smaller).

Definition Bigger (d rhs : ParallelDesc) : bool :=
  bool_decide (device_tag (parallel_conf_ d) = device_tag (parallel_conf_ rhs)) &&
  GlobalDeviceIdsContaining (machine_id2sorted_dev_phy_ids_ d) (machine_id2sorted_dev_phy_ids_ rhs).

Fixpoint same_devices (a b : gmap Z (list Z)) (machine_ids : list Z) : outcome bool :=
  match machine_ids with
  | [] => Ret true
  | m :: machine_ids =>
      match a !! m, b !! m with
      | Some x, Some y => if bool_decide (x = y) then same_devices a b machine_ids else Ret false
      | _, _ => Crash
      end
  end.
Definition EqualsMachineId2SortedDevPhyIds (d rhs : ParallelDesc) : outcome bool :=
  same_devices (machine_id2sorted_dev_phy_ids_ d) (machine_id2sorted_dev_phy_ids_ rhs) (sorted_machine_ids_ d).

(** Of two different objects; an object equals itself. *)
Definition EqualsOnlyForMachineAndDeviceIds (d rhs : ParallelDesc) : outcome bool :=
  if bool_decide (sorted_machine_ids_ d = sorted_machine_ids_ rhs) then EqualsMachineId2SortedDevPhyIds d rhs
  else Ret false.
Definition EqualsIgnoringHierarchy (d rhs : ParallelDesc) : outcome bool :=
  if device_type_ d =? device_type_ rhs then EqualsOnlyForMachineAndDeviceIds d rhs else Ret false.
Definition EqualsIgnoringDeviceType (d rhs : ParallelDesc) : outcome bool :=
  let* b := EqualsOnlyForMachineAndDeviceIds d rhs in
  if b then Shape_eqb (hierarchy_ d) (hierarchy_ rhs) else Ret false.
Definition Equals (d rhs : ParallelDesc) : outcome bool :=
  if device_type_ d =? device_type_ rhs then EqualsIgnoringDeviceType d rhs else Ret false.

(** ** Checks and printing *)

Definition set_device_type (device_type : Z) (tag : outcome str) (d : ParallelDesc) : outcome ParallelDesc :=
  if device_type =? device_type_ d then Ret d else
  match tag with
  | Ret t => Ret (mkDesc device_type (mkConf t (device_name (parallel_conf_ d)) (conf_hierarchy (parallel_conf_ d)))
                    (hierarchy_ d) (sorted_machine_ids_ d) (machine_id2sorted_dev_phy_ids_ d) (parallel_num_ d)
                    (device_num_of_each_machine_ d) (parallel_id2machine_id_ d) (parallel_id2device_id_ d)
                    (machine_id2device_id2parallel_id_ d) (containing_current_rank_ d))
  | _ => Crash
  end.

Section Process.
(** The process context; [GetDeviceCount] asks the device manager. *)
Context (Rank WorldSize NumOfProcessPerNode : Z) (GetDeviceCount : Z → Z).

Definition kCPU_type : Z := 1.

Definition check_dev_phy_id (device_type dev_phy_id : Z) : outcome unit :=
  if device_type =? kCPU_type then CHECK_OR_RETURN (dev_phy_id <? NumOfProcessPerNode) RuntimeError
  else
    let device_count := GetDeviceCount device_type in
    let* _ := CHECK_OR_RETURN (negb (device_count =? 0)) RuntimeError in
    CHECK_OR_RETURN (dev_phy_id <? Z.min NumOfProcessPerNode device_count) RuntimeError.

(** [WorldSize] is a [size_t]: the comparison is unsigned. *)
Definition CheckDeviceIdsIsValid (d : ParallelDesc) : outcome unit :=
  let* _ := omap_list (λ machine_id, CHECK_OR_RETURN (u64 machine_id <? WorldSize) RuntimeError) (sorted_machine_ids_ d) in
  match machine_id2sorted_dev_phy_ids_ d !! Rank with
  | None => Ret tt
  | Some ids => let* _ := omap_list (check_dev_phy_id (device_type_ d)) ids in Ret tt
  end.

Definition CalcParallelId4CurrentProcessCtx (LocalRank : Z) (d : ParallelDesc) : option Z := TryGetParallelId d Rank LocalRank.
Definition CalcParallelContext4CurrentProcessCtx (LocalRank : Z) (d : ParallelDesc) : outcome (Z * Z) :=
  match TryGetParallelId d Rank LocalRank with
  | None => Fail CheckFailedError
  | Some id => Ret (id, parallel_num_ d)
  end.

(** The pointer [ranks] is an offset; the recursion goes one axis deeper at a time. *)
Fixpoint RanksToString (fuel : nat) (axis : Z) (ranks : list Z) (offset : Z) (shape : Shape) : outcome str :=
  let* n := NumAxes shape in
  if axis =? n then let* r := at_ ranks offset in Ret (to_string r) else
  match fuel with
  | O => Crash
  | S fuel =>
      let* count := Count_from shape axis in
      let* dim := shape_At shape axis in
      if dim =? 0 then Crash else
      let stride := Z.quot count dim in
      let* (body, _) := ofold (λ '(text, offset) i,
        let* part := RanksToString fuel (axis + 1) ranks offset shape in
        Ret (text ++ part ++ (if i =? dim - 1 then [] else chars ", "), offset + stride)) (range_list 0 dim) (chars "[", offset) in
      Ret (body ++ chars "]")
  end.

Definition NodeId (process_id : Z) : outcome Z :=
  if NumOfProcessPerNode =? 0 then Crash else Ret (Z.quot process_id NumOfProcessPerNode).

Definition collect_node (d : ParallelDesc) (st : list Z * gmap Z (list Z)) (machine_id : Z) : outcome (list Z * gmap Z (list Z)) :=
  let '(sorted_node_ids, by_node) := st in
  let* node_id := NodeId machine_id in
  let sorted_node_ids := if bool_decide (node_id ∈ sorted_node_ids) then sorted_node_ids else sorted_node_ids ++ [node_id] in
  match machine_id2sorted_dev_phy_ids_ d !! machine_id with
  | None => Crash
  | Some [] => Ret (sorted_node_ids, by_node)
  | Some devices => Ret (sorted_node_ids, <[node_id := default [] (by_node !! node_id) ++ devices]> by_node)
  end.

Definition RawPlacementToString (d : ParallelDesc) : outcome str :=
  let* (sorted_node_ids, by_node) := ofold (collect_node d) (sorted_machine_ids_ d) ([], ∅) in
  let* ranks := omap_list (λ node_id, match by_node !! node_id with
                                      | None => Crash
                                      | Some devices => Ret (map (λ device_id, i64 (node_id * NumOfProcessPerNode + device_id)) devices)
                                      end) sorted_node_ids in
  let ranks := concat ranks in
  let* _ := CHECK_OR_RETURN (Z.of_nat (length ranks) =? elem_cnt (hierarchy_ d)) CheckFailedError in
  let* n := NumAxes (hierarchy_ d) in
  let* ranks_str := RanksToString (Z.to_nat n) 0 ranks 0 (hierarchy_ d) in
  Ret (chars "oneflow.placement(type=" ++ [34] ++ device_tag (parallel_conf_ d) ++ [34] ++ chars ", ranks=" ++ ranks_str ++ chars ")").
End Process.

(** ** Derived configurations *)

Definition GetParallelIdOnlyParallelConf (tag : str) (d : ParallelDesc) (parallel_id : Z) : outcome ParallelConf :=
  let just {A} (m : outcome A) : outcome A := match m with Ret a => Ret a | _ => Crash end in
  let* rank := just (MachineId4ParallelId d parallel_id) in
  let* device_id := just (DeviceId4ParallelId d parallel_id) in
  Ret (mkConf tag [chars "@" ++ to_string rank ++ chars ":" ++ to_string device_id] None).

Definition GenParallelConfOfCpuZeroOnMaster : ParallelConf := mkConf (chars "cpu") [chars "0:0"] None.
Definition GenParallelConfOfCpuZeroOnAllMachines (process_ranks : list Z) : ParallelConf :=
  mkConf (chars "cpu") (map (λ i, chars "@" ++ to_string i ++ chars ":0") process_ranks) None.
Definition GenParallelConfOfCpuOnAllRanks (NodeSize NumOfProcessPerNode : Z) : ParallelConf :=
  mkConf (chars "cpu")
    (map (λ node_id, to_string node_id ++ chars ":0-" ++ to_string (NumOfProcessPerNode - 1)) (range_list 0 NodeSize)) None.
Definition RawGetParallelDescOfThisRank_conf (Rank LocalRank : Z) (tag : str) : ParallelConf :=
  mkConf tag [to_string Rank ++ chars ":" ++ to_string LocalRank] None.

(** [MakeParallelConf]: what it accepts; [s[0]] of an empty string is NUL. *)
Definition check_machine_device_id (machine_device_id : str) : outcome unit :=
  match find ch_colon machine_device_id with
  | None => Fail CheckFailedError
  | Some pos =>
      let machine_id := take pos machine_device_id in
      let* _ := CHECK_OR_RETURN (IsStrInt machine_id ||
                  match machine_id with c :: t => (c =? ch_at) && IsStrInt t | [] => false end) CheckFailedError in
      let device_id := drop (S pos) machine_device_id in
      match rfind ch_minus device_id with
      | None => CHECK_OR_RETURN (IsStrInt device_id) CheckFailedError
      | Some minus_pos =>
          let* _ := CHECK_OR_RETURN (IsStrInt (take minus_pos device_id)) CheckFailedError in
          CHECK_OR_RETURN (IsStrInt (drop (S minus_pos) device_id)) CheckFailedError
      end
  end.
Definition MakeParallelConf (tag : str) (machine_device_ids : list str) (hierarchy : option Shape) : outcome ParallelConf :=
  let* _ := omap_list check_machine_device_id machine_device_ids in
  Ret (mkConf tag machine_device_ids
         match machine_device_ids, hierarchy with _ :: _, Some h => Some (dim_vec h) | _, _ => None end).
Definition GetDeviceTagAndMachineDeviceIdsAndHierarchy (c : ParallelConf) : str * list str * option (list Z) :=
  (device_tag c, device_name c, conf_hierarchy c).

(** The four devices of two processes on one node. *)
Definition demo_registry (tag : str) : Z := if bool_decide (tag = chars "cpu") then 1 else 0.
Example two_processes :
  (let* d := MaybeInit demo_registry 0 2 (mkConf (chars "cpu") [chars "0:0-3"] None) in
   Ret (sorted_machine_ids_ d, parallel_num_ d, parallel_id2machine_id_ d, parallel_id2device_id_ d,
        device_num_of_each_machine_ d)) = Ret ([0; 1], 4, [0; 0; 1; 1], [0; 2; 1; 3], 2).
Proof. vm_compute. reflexivity. Qed.

Example placement_text :
  (let* d := MaybeInit demo_registry 0 4 (mkConf (chars "cpu") [chars "0:0-3"] (Some [2; 2])) in
   RawPlacementToString 4 d) = Ret (chars "oneflow.placement(type=" ++ [34] ++ chars "cpu" ++ [34] ++ chars ", ranks=[[0, 1], [2, 3]])").
Proof. vm_compute. reflexivity. Qed.
