(* ===== verification/PlacementSpec.v ===== *)
(** * What a placement is

    The parallel ids of a placement number its devices one to one, in the order of
    processes and devices; the configuration that [MaybeInit] writes back describes the
    same placement. *)
From stdpp Require Import sorting.
From S2P Require Import Prelude Shape StrUtil Placement.

(** ** Sorted lists without duplicates *)

Lemma unique_head (x : Z) (t : list Z) : ∃ u, unique (x :: t) = x :: u.
Proof.
  revert x. induction t as [|y t IH]; intros x; [by exists []|].
  change (unique (x :: y :: t)) with (if x =? y then unique (y :: t) else x :: unique (y :: t)).
  destruct (Z.eqb_spec x y) as [->|]; [apply IH|by eexists].
Qed.

Lemma unique_elem (l : list Z) (x : Z) : x ∈ unique l ↔ x ∈ l.
Proof.
  induction l as [|a t IH]; [done|]. destruct t as [|b t]; [done|].
  change (unique (a :: b :: t)) with (if a =? b then unique (b :: t) else a :: unique (b :: t)).
  destruct (Z.eqb_spec a b) as [->|]; rewrite ?elem_of_cons, IH, ?elem_of_cons; tauto.
Qed.

Lemma unique_sorted (l : list Z) : StronglySorted Z.le l → StronglySorted Z.lt (unique l).
Proof.
  induction l as [|a t IH]; intros Hs; [constructor|]. apply StronglySorted_inv in Hs as [Hs Ha].
  specialize (IH Hs). destruct t as [|b t]; [repeat constructor|].
  change (unique (a :: b :: t)) with (if a =? b then unique (b :: t) else a :: unique (b :: t)).
  destruct (Z.eqb_spec a b) as [->|Hne]; [done|]. constructor; [done|].
  apply Forall_forall. intros x Hx. rewrite unique_elem in Hx.
  pose proof (proj1 (Forall_forall _ _) Ha b (list_elem_of_here _ _)) as Hb.
  apply elem_of_cons in Hx as [->|Hx]; [lia|].
  apply StronglySorted_inv in Hs as [_ Hb']. rewrite Forall_forall in Hb'. specialize (Hb' x Hx). lia.
Qed.

Lemma SRD_sorted (l : list Z) : StronglySorted Z.lt (SortAndRemoveDuplication l).
Proof. apply unique_sorted. apply (StronglySorted_merge_sort Z.le). Qed.

Lemma SRD_elem (l : list Z) (x : Z) : x ∈ SortAndRemoveDuplication l ↔ x ∈ l.
Proof. unfold SortAndRemoveDuplication. rewrite unique_elem. by rewrite (merge_sort_Permutation Z.le l). Qed.

Lemma lt_sorted_NoDup (l : list Z) : StronglySorted Z.lt l → NoDup l.
Proof.
  induction 1 as [|x l _ IH Hx]; constructor; [|done]. intros Hin. rewrite Forall_forall in Hx. specialize (Hx x Hin). lia.
Qed.

(** Such a list is determined by its elements. *)
Lemma lt_sorted_eq (a b : list Z) : StronglySorted Z.lt a → StronglySorted Z.lt b → (∀ x, x ∈ a ↔ x ∈ b) → a = b.
Proof.
  intros Ha. revert b. induction Ha as [|x a Ha IH Hx]; intros b Hb Hab.
  - destruct b as [|y b]; [done|]. pose proof (proj2 (Hab y) (list_elem_of_here _ _)) as Hy. by apply elem_of_nil in Hy.
  - destruct Hb as [|y b Hb Hy]; [pose proof (proj1 (Hab x) (list_elem_of_here _ _)) as Hn; by apply elem_of_nil in Hn|].
    rewrite Forall_forall in Hx, Hy. assert (x = y) as ->.
    { destruct (proj1 (elem_of_cons _ _ _) (proj1 (Hab x) (list_elem_of_here _ _))) as [|H1]; [done|].
      destruct (proj1 (elem_of_cons _ _ _) (proj2 (Hab y) (list_elem_of_here _ _))) as [|H2]; [done|].
      specialize (Hx y H2). specialize (Hy x H1). lia. }
    f_equal. apply IH; [done|]. intros z. split; intros Hz.
    + destruct (proj1 (elem_of_cons _ _ _) (proj1 (Hab z) (list_elem_of_further _ _ _ Hz))) as [->|]; [|done].
      specialize (Hx y Hz). lia.
    + destruct (proj1 (elem_of_cons _ _ _) (proj2 (Hab z) (list_elem_of_further _ _ _ Hz))) as [->|]; [|done].
      specialize (Hy y Hz). lia.
Qed.

Lemma SRD_id (l : list Z) : StronglySorted Z.lt l → SortAndRemoveDuplication l = l.
Proof. intros Hl. apply lt_sorted_eq; [apply SRD_sorted|done|]. intros x. apply SRD_elem. Qed.

Lemma SRD_nil (l : list Z) : SortAndRemoveDuplication l = [] → l = [].
Proof.
  intros E. destruct l as [|x l]; [done|]. assert (Hx : x ∈ SortAndRemoveDuplication (x :: l)) by (apply SRD_elem; left).
  rewrite E in Hx. by apply elem_of_nil in Hx.
Qed.

(** ** Numbering *)

(** The devices of the machines [ids], in order. *)
Definition devices_of (m : gmap Z (list Z)) (ids : list Z) : list (Z * Z) :=
  ids ≫= λ a, map (pair a) (default [] (m !! a)).

Definition name_of (ab : Z * Z) : str := chars "@" ++ to_string ab.1 ++ chars ":" ++ to_string ab.2.

Definition inverse_of (inv : gmap Z (gmap Z Z)) (P : list (Z * Z)) : Prop :=
  ∀ a b i, (inv !! a ≫= λ ids, ids !! b) = Some i ↔ 0 ≤ i ∧ P !! Z.to_nat i = Some (a, b).

Definition numbered (P : list (Z * Z)) (st : numbering) : Prop :=
  ∃ inv, st = (map name_of P, P.*1, P.*2, inv, Z.of_nat (length P)) ∧ inverse_of inv P.

Lemma add_parallel_id_ok (P : list (Z * Z)) (st : numbering) (a b : Z) : numbered P st → (a, b) ∉ P →
  ∃ st', add_parallel_id a st b = Ret st' ∧ numbered (P ++ [(a, b)]) st'.
Proof.
  intros (inv & -> & Hinv) Hnew. unfold add_parallel_id. rewrite !length_fmap, Z.eqb_refl. cbn [CHECK obind].
  eexists. split; [reflexivity|]. exists (<[a := <[b := Z.of_nat (length P)]> (default ∅ (inv !! a))]> inv). split.
  { rewrite map_app, !fmap_app, length_app. cbn. f_equal. lia. }
  intros a' b' i. destruct (decide ((a', b') = (a, b))) as [[= -> ->]|Hne].
  - rewrite lookup_insert_eq. cbn. rewrite lookup_insert_eq. split.
    + intros [= <-]. rewrite Nat2Z.id. split; [lia|]. by rewrite list_lookup_middle.
    + intros [Hi Hl]. apply lookup_app_Some in Hl as [Hl|[Hge Hl]]; [by apply list_elem_of_lookup_2 in Hl|].
      apply lookup_lt_Some in Hl. cbn in Hl. f_equal. lia.
  - assert (Hold : (<[a := <[b := Z.of_nat (length P)]> (default ∅ (inv !! a))]> inv !! a' ≫= λ ids, ids !! b') =
      (inv !! a' ≫= λ ids, ids !! b')).
    { destruct (decide (a' = a)) as [->|Ha]; [|by rewrite lookup_insert_ne].
      rewrite lookup_insert_eq. cbn. rewrite lookup_insert_ne by congruence. by destruct (inv !! a). }
    rewrite Hold, (Hinv a' b' i). split; intros [Hi Hl]; (split; [done|]).
    + by apply lookup_app_l_Some.
    + apply lookup_app_Some in Hl as [Hl|[Hge Hl]]; [done|].
      apply list_lookup_singleton_Some in Hl as [_ E]. congruence.
Qed.

Lemma number_devices_ok (a : Z) (l : list Z) (P : list (Z * Z)) (st : numbering) :
  numbered P st → NoDup (P ++ map (pair a) l) →
  ∃ st', ofold (add_parallel_id a) l st = Ret st' ∧ numbered (P ++ map (pair a) l) st'.
Proof.
  revert P st. induction l as [|b l IH]; intros P st Hst Hnd; [exists st; by rewrite app_nil_r|].
  cbn [map] in *. rewrite cons_middle, app_assoc in Hnd |- *.
  destruct (add_parallel_id_ok P st a b Hst) as (st' & E & Hst').
  { apply NoDup_app in Hnd as (Hnd & _ & _). apply NoDup_app in Hnd as (_ & Hd & _). intros Hin.
    by apply (Hd _ Hin), list_elem_of_singleton. }
  destruct (IH (P ++ [(a, b)]) st' Hst' Hnd) as (st'' & E' & Hst''). exists st''. cbn [ofold]. by rewrite E.
Qed.

Lemma number_machines_ok (m : gmap Z (list Z)) (ids : list Z) (P : list (Z * Z)) (st : numbering) :
  Forall (λ a, is_Some (m !! a)) ids → numbered P st → NoDup (P ++ devices_of m ids) →
  ∃ st', ofold (number_machine m) ids st = Ret st' ∧ numbered (P ++ devices_of m ids) st'.
Proof.
  intros Hids. revert P st. induction Hids as [|a ids [l Hl] _ IH]; intros P st Hst Hnd.
  - exists st. unfold devices_of. cbn. by rewrite app_nil_r.
  - unfold devices_of in *. cbn [mbind list_bind] in *. rewrite Hl in *. cbn [default] in *. rewrite app_assoc in Hnd |- *.
    destruct (number_devices_ok a l P st Hst) as (st' & E & Hst'); [by apply NoDup_app in Hnd as (? & _ & _)|].
    destruct (IH (P ++ map (pair a) l) st' Hst' Hnd) as (st'' & E' & Hst''). exists st''. cbn [ofold].
    unfold number_machine at 1. rewrite Hl. rewrite E. done.
Qed.

Lemma devices_of_elem (m : gmap Z (list Z)) (ids : list Z) (a b : Z) :
  (a, b) ∈ devices_of m ids ↔ a ∈ ids ∧ b ∈ default [] (m !! a).
Proof.
  unfold devices_of. rewrite list_elem_of_bind. split.
  - intros (x & Hx & Hin). apply list_elem_of_fmap in Hx as (y & [= -> ->] & Hy). done.
  - intros [Ha Hb]. exists a. split; [|done]. by apply list_elem_of_fmap_2.
Qed.

Lemma devices_of_NoDup (m : gmap Z (list Z)) (ids : list Z) :
  NoDup ids → (∀ a l, m !! a = Some l → NoDup l) → NoDup (devices_of m ids).
Proof.
  intros Hids Hm. induction Hids as [|a ids Ha _ IH]; [constructor|]. unfold devices_of in *. cbn [mbind list_bind].
  apply NoDup_app. split_and!; [|intros [x y] Hx Hin|done].
  - apply NoDup_fmap; [by intros ? ? [=]|]. destruct (m !! a) as [l|] eqn:E; [by apply (Hm a)|constructor].
  - apply list_elem_of_fmap in Hx as (z & [= -> ->] & _). apply (devices_of_elem m ids) in Hin as [Hin _]. done.
Qed.

(** ** The finished description *)

Definition is_empty (v : list Z) : bool := match v with [] => true | _ => false end.
Definition norm_map (m : gmap Z (list Z)) : gmap Z (list Z) := SortAndRemoveDuplication <$> EraseIf is_empty m.
Definition machine_ids (m : gmap Z (list Z)) : list Z := SortAndRemoveDuplication (map fst (map_to_list m)).
Definition device_count (m : gmap Z (list Z)) : Z := sumZ (map (λ kv, Z.of_nat (length kv.2)) (map_to_list m)).

(** Every machine has devices, in order and once. *)
Definition normal (m : gmap Z (list Z)) : Prop := ∀ a l, m !! a = Some l → l ≠ [] ∧ StronglySorted Z.lt l.

Lemma norm_map_normal (m : gmap Z (list Z)) : normal (norm_map m).
Proof.
  intros a l Hl. unfold norm_map, EraseIf in Hl. rewrite lookup_fmap in Hl.
  apply fmap_Some in Hl as (l0 & Hl0 & ->). apply map_lookup_filter_Some in Hl0 as [_ Hne]. cbn in Hne.
  split; [|apply SRD_sorted]. intros E. apply SRD_nil in E. by subst l0.
Qed.

Lemma norm_map_id (m : gmap Z (list Z)) : normal m → norm_map m = m.
Proof.
  intros Hn. apply map_eq. intros a. unfold norm_map, EraseIf. rewrite lookup_fmap. destruct (m !! a) as [l|] eqn:E.
  - destruct (Hn a l E) as [Hne Hs].
    rewrite (proj2 (map_lookup_filter_Some _ m a l)) by (split; [done|]; by destruct l).
    cbn. by rewrite SRD_id.
  - by rewrite (proj2 (map_lookup_filter_None _ m a)) by (by left).
Qed.

Lemma machine_ids_elem (m : gmap Z (list Z)) (a : Z) : a ∈ machine_ids m ↔ is_Some (m !! a).
Proof.
  unfold machine_ids. rewrite SRD_elem. split.
  - intros Ha. apply list_elem_of_fmap in Ha as ([x l] & -> & Hx). apply elem_of_map_to_list in Hx. by eexists.
  - intros [l Hl]. apply list_elem_of_fmap. exists (a, l). split; [done|]. by apply elem_of_map_to_list.
Qed.

Lemma machine_ids_NoDup (m : gmap Z (list Z)) : NoDup (machine_ids m).
Proof. apply lt_sorted_NoDup, SRD_sorted. Qed.

Lemma machine_ids_perm (m : gmap Z (list Z)) : machine_ids m ≡ₚ map fst (map_to_list m).
Proof.
  apply NoDup_Permutation; [apply machine_ids_NoDup|apply NoDup_fst_map_to_list|]. intros x. apply SRD_elem.
Qed.

Lemma devices_of_length (m : gmap Z (list Z)) (ids : list Z) :
  Z.of_nat (length (devices_of m ids)) = sumZ (map (λ a, Z.of_nat (length (default [] (m !! a)))) ids).
Proof.
  induction ids as [|a ids IH]; [done|]. unfold devices_of in *. cbn [mbind list_bind map].
  rewrite length_app, length_map, sumZ_cons, Nat2Z.inj_add. f_equal. exact IH.
Qed.

Lemma device_count_length (m : gmap Z (list Z)) : device_count m = Z.of_nat (length (devices_of m (machine_ids m))).
Proof.
  rewrite devices_of_length. unfold device_count. symmetry.
  rewrite (sumZ_perm _ (map (λ a, Z.of_nat (length (default [] (m !! a)))) (map fst (map_to_list m))))
    by (by rewrite (machine_ids_perm m)).
  rewrite map_map. f_equal. apply map_ext_Forall, Forall_forall. intros [a l] Hin. apply elem_of_map_to_list in Hin.
  cbn. by rewrite Hin.
Qed.

(** What the rest of the program relies on. *)
Record placement_wf (d : ParallelDesc) (P : list (Z * Z)) : Prop := mkWf {
  wf_machines : parallel_id2machine_id_ d = P.*1;
  wf_devices : parallel_id2device_id_ d = P.*2;
  wf_inverse : inverse_of (machine_id2device_id2parallel_id_ d) P;
  wf_nodup : NoDup P;
  wf_num : parallel_num_ d = Z.of_nat (length P);
  wf_hierarchy : elem_cnt (hierarchy_ d) = parallel_num_ d;
  wf_shape : hierarchy_ d = Shape_of (dim_vec (hierarchy_ d));
  wf_containing : ∀ a b, Containing d a b = true ↔ (a, b) ∈ P
}.

(** The inverse map that the loops build. *)
Definition inverse_map (m : gmap Z (list Z)) : gmap Z (gmap Z Z) :=
  match ofold (number_machine m) (machine_ids m) ([], [], [], ∅, 0) with
  | Ret (_, _, _, inverse, _) => inverse
  | _ => ∅
  end.

Lemma numbered_all (m : gmap Z (list Z)) : normal m → let P := devices_of m (machine_ids m) in
  ofold (number_machine m) (machine_ids m) ([], [], [], ∅, 0) =
    Ret (map name_of P, P.*1, P.*2, inverse_map m, Z.of_nat (length P)) ∧
  inverse_of (inverse_map m) P ∧ NoDup P.
Proof.
  intros Hn P. assert (Hnd : NoDup P).
  { apply devices_of_NoDup; [apply machine_ids_NoDup|]. intros a l Hl. destruct (Hn a l Hl). by apply lt_sorted_NoDup. }
  destruct (number_machines_ok m (machine_ids m) [] ([], [], [], ∅, 0)) as (st & E & inv & -> & Hinv).
  - apply Forall_forall. intros a. apply machine_ids_elem.
  - exists ∅. split; [done|]. intros a b i. rewrite lookup_empty. cbn. naive_solver.
  - done.
  - assert (inverse_map m = inv) as -> by (unfold inverse_map; by rewrite E). done.
Qed.

(** [ClearUp] on a new object, in closed form. *)
Lemma ClearUp_closed (dt : Z) (conf : ParallelConf) (h : Shape) (s : list Z) (m : gmap Z (list Z)) (x y : Z) (c : bool) :
  let m' := norm_map m in let P := devices_of m' (machine_ids m') in
  inverse_of (inverse_map m') P ∧ NoDup P ∧
  ClearUp (mkDesc dt conf h s m x y [] [] ∅ c) =
    let finish dims := mkDesc dt (mkConf (device_tag conf) (map name_of P) (Some dims)) (Shape_of dims) (machine_ids m') m'
      (device_count m') y P.*1 P.*2 (inverse_map m') c in
    match conf_hierarchy conf with
    | Some ((_ :: _) as dims) => if elem_cnt (Shape_of dims) =? device_count m' then Ret (finish dims) else Crash
    | _ => Ret (finish [device_count m'])
    end.
Proof.
  destruct (numbered_all (norm_map m) (norm_map_normal m)) as (E & Hinv & Hnd). cbv zeta.
  split_and!; [done|done|]. unfold ClearUp.
  cbn [machine_id2sorted_dev_phy_ids_ parallel_conf_ parallel_id2machine_id_ parallel_id2device_id_
       machine_id2device_id2parallel_id_ device_type_ device_num_of_each_machine_ containing_current_rank_].
  cbv zeta. change (SortAndRemoveDuplication <$> EraseIf _ m) with (norm_map m).
  change (SortAndRemoveDuplication (map fst (map_to_list (norm_map m)))) with (machine_ids (norm_map m)).
  change (sumZ (map (λ kv : Z * list Z, Z.of_nat (length kv.2)) (map_to_list (norm_map m)))) with (device_count (norm_map m)).
  rewrite E. destruct (conf_hierarchy conf) as [[|d0 dims]|]; [done| |done].
  by destruct (elem_cnt (Shape_of (d0 :: dims)) =? device_count (norm_map m)).
Qed.

Lemma SanityCheck_same (d d' : ParallelDesc) : SanityCheck d = Ret d' →
  ∃ n, ofold sanity_step (map_to_list (machine_id2sorted_dev_phy_ids_ d)) (-1) = Ret n ∧
  d' = mkDesc (device_type_ d) (parallel_conf_ d) (hierarchy_ d) (sorted_machine_ids_ d)
         (machine_id2sorted_dev_phy_ids_ d) (parallel_num_ d) n (parallel_id2machine_id_ d)
         (parallel_id2device_id_ d) (machine_id2device_id2parallel_id_ d) (containing_current_rank_ d).
Proof. unfold SanityCheck. intros H. inv_ret. by eexists. Qed.

Section Init.
Context (registry : str → Z) (Rank per_node : Z).

(** The parts of a construction that returned. *)
Lemma MaybeInit_parts (conf : ParallelConf) (d : ParallelDesc) : MaybeInit registry Rank per_node conf = Ret d →
  ∃ dt m dims n, let m' := norm_map m in let P := devices_of m' (machine_ids m') in
  DeviceType4DeviceTag registry (device_tag conf) = Ret dt ∧
  ofold (parse_device_name per_node) (device_name conf) ∅ = Ret m ∧
  ofold sanity_step (map_to_list m') (-1) = Ret n ∧ dims ≠ [] ∧ prodZ dims = device_count m' ∧
  inverse_of (inverse_map m') P ∧ NoDup P ∧
  d = mkDesc dt (mkConf (device_tag conf) (map name_of P) (Some dims)) (Shape_of dims) (machine_ids m') m'
        (device_count m') n P.*1 P.*2 (inverse_map m') (match m !! Rank with Some _ => true | None => false end).
Proof.
  unfold MaybeInit. intros H. inv_ret. apply SanityCheck_same in H as (n & Hn & ->).
  match goal with HC : ClearUp (mkDesc ?dt ?c ?h ?s ?mm ?p ?q [] [] ∅ ?b) = Ret ?dd |- _ =>
    destruct (ClearUp_closed dt c h s mm p q b) as (Hinv & Hnd & E); rewrite E in HC; exists dt, mm; rename HC into HC' end.
  cbv zeta in HC'. destruct (conf_hierarchy conf) as [[|d0 dims]|].
  - inv_ret. exists [device_count (norm_map x0)], n. cbv zeta. split_and!; try done. by rewrite prodZ_cons, prodZ_nil, Z.mul_1_r.
  - destruct (Z.eqb_spec (elem_cnt (Shape_of (d0 :: dims))) (device_count (norm_map x0))) as [Ee|]; [|done]. inv_ret.
    exists (d0 :: dims), n. cbv zeta. split_and!; try done. by rewrite elem_cnt_prod in Ee.
  - inv_ret. exists [device_count (norm_map x0)], n. cbv zeta. split_and!; try done. by rewrite prodZ_cons, prodZ_nil, Z.mul_1_r.
Qed.

Lemma MaybeInit_wf (conf : ParallelConf) (d : ParallelDesc) : MaybeInit registry Rank per_node conf = Ret d →
  ∃ P, placement_wf d P.
Proof.
  intros (dt & m & dims & n & H)%MaybeInit_parts. cbv zeta in H.
  destruct H as (_ & _ & _ & Hd & Hp & Hinv & Hnd & ->). eexists. split; cbn -[elem_cnt]; try done.
  - apply device_count_length.
  - by rewrite elem_cnt_prod.
  - intros a b. unfold Containing. cbn [machine_id2sorted_dev_phy_ids_].
    rewrite devices_of_elem, machine_ids_elem. destruct (norm_map m !! a) as [l|]; cbn.
    + rewrite bool_decide_eq_true. naive_solver.
    + split; [done|]. by intros [[? ?] _].
Qed.

(** ** Reading the names back *)

Lemma read_digits_nonneg (base : Z) (s : str) (a : Z) (any : bool) : 0 < base → 0 ≤ a →
  0 ≤ (read_digits base s a any).1.1.
Proof.
  intros Hb. revert a any. induction s as [|c s IH]; intros a any Ha; [done|]. cbn [read_digits].
  destruct (digit_value c <? base); [|done]. apply IH.
  assert (0 ≤ digit_value c); [|nia]. unfold digit_value, isdigit.
  destruct (Z.leb_spec 48 c), (Z.leb_spec c 57), (Z.leb_spec 97 c), (Z.leb_spec c 122), (Z.leb_spec 65 c), (Z.leb_spec c 90);
    cbn [andb]; lia.
Qed.

Lemma read_prefix_pos (s : str) : 0 < (read_prefix s).1.
Proof. unfold read_prefix. destruct s as [|z [|x [|y s]]]; repeat case_match; cbn; lia. Qed.

Lemma read_sign_none (s : str) : ch_minus ∉ s → (read_sign (skip_spaces s)).1 = false.
Proof.
  intros Hs. assert (Hsk : ch_minus ∉ skip_spaces s).
  { intros Hin. apply Hs. clear Hs. induction s as [|c s IH]; [done|]. cbn [skip_spaces] in Hin.
    destruct (isspace c); [right; by apply IH|done]. }
  destruct (skip_spaces s) as [|c t]; [done|]. cbn [read_sign]. apply not_elem_of_cons in Hsk as [Hne _].
  destruct (Z.eqb_spec c ch_minus) as [->|]; [done|]. by destruct (c =? 43).
Qed.

Lemma strtoll_range (s : str) : is_i64 (strtoll s).1 ∧ (ch_minus ∉ s → 0 ≤ (strtoll s).1).
Proof.
  unfold strtoll. pose proof (read_sign_none s) as Hsg.
  destruct (read_sign (skip_spaces s)) as [neg t]. pose proof (read_prefix_pos t) as Hb.
  destruct (read_prefix t) as [base u]. pose proof (read_digits_nonneg base u 0 false Hb ltac:(lia)) as Hv.
  destruct (read_digits base u 0 false) as [[v any] rest]. cbn in Hsg, Hv. unfold is_i64.
  destruct any; cbn [fst]; [|lia]. split; [lia|]. intros Hs. rewrite (Hsg Hs). lia.
Qed.

Lemma c_str_sub (s : str) (c : Z) : c ∈ c_str s → c ∈ s.
Proof.
  induction s as [|d s IH]; [done|]. cbn [c_str]. destruct (d =? ch_nul); [by intros ?%elem_of_nil|].
  rewrite !elem_of_cons. naive_solver.
Qed.

Lemma oneflow_cast_range (s : str) (v : Z) : oneflow_cast s = Ret v → is_i64 v ∧ (ch_minus ∉ s → 0 ≤ v).
Proof.
  unfold oneflow_cast. destruct (strtoll_range (c_str s)) as [Hr Hn].
  destruct (strtoll (c_str s)) as [r e]. intros H. inv_ret. split; [done|]. intros Hs. apply Hn. intros Hin.
  by apply Hs, c_str_sub.
Qed.

Lemma find_take (c : Z) (s : str) (k : nat) : find c s = Some k → c ∉ take k s.
Proof.
  revert k. induction s as [|d s IH]; intros k; cbn [find]; [done|]. destruct (Z.eqb_spec d c) as [->|Hne].
  - intros [= <-]. cbn. by apply not_elem_of_nil.
  - destruct (find c s) as [j|]; [|done]. intros [= <-]. cbn [take]. apply not_elem_of_cons. split; [done|by apply IH].
Qed.

(** The devices that a parsed map can hold. *)
Definition parsed (m : gmap Z (list Z)) : Prop :=
  ∀ a l, m !! a = Some l → is_i64 a ∧ l ≠ [] ∧ Forall (λ b, 0 ≤ b < 2 ^ 63) l.

Lemma add_device_parsed (node cols : Z) (m m' : gmap Z (list Z)) (b : Z) :
  parsed m → 0 ≤ b < 2 ^ 63 → add_device node cols m b = Ret m' → parsed m'.
Proof.
  intros Hm Hb. unfold add_device. destruct (cols =? 0); [done|]. intros [= <-] a l Hl.
  destruct (decide (a = i64 (u64 (u64 b mod cols + u64 (node * cols))))) as [->|Hne].
  - rewrite lookup_insert_eq in Hl. injection Hl as <-. split_and!; [apply i64_range|by destruct (default [] _)|].
    apply Forall_app. split; [|by apply Forall_singleton].
    destruct (m !! _) as [l0|] eqn:E; [|constructor]. by apply (Hm _ _ E).
  - rewrite lookup_insert_ne in Hl by done. by apply Hm.
Qed.

Lemma set_parsed (name : str) (cols : Z) (m m' : gmap Z (list Z)) : parsed m →
  SetMachineIdAndDeviceIdsByParsingDeviceName name cols m = Ret m' → parsed m'.
Proof.
  intros Hm. unfold SetMachineIdAndDeviceIdsByParsingDeviceName. intros H. apply obind_Ret in H as ([node ids] & _ & H).
  set (s := match find ch_minus ids with None => ids ++ ch_minus :: ids | Some _ => ids end) in *.
  assert (Hs : ∃ k, find ch_minus s = Some k).
  { unfold s. destruct (find ch_minus ids) as [k|] eqn:E; [by exists k|].
    exists (length ids). apply find_app_first. clear -E. induction ids as [|c ids IH]; [apply not_elem_of_nil|].
    cbn [find] in E. destruct (Z.eqb_spec c ch_minus); [done|]. destruct (find ch_minus ids); [done|].
    apply not_elem_of_cons. by split; [|apply IH]. }
  destruct Hs as [k Hk]. rewrite Hk in H. cbn [default] in H.
  apply obind_Ret in H as (min_id & Hmin & H). apply obind_Ret in H as (max_id & Hmax & H).
  apply obind_Ret in H as (u & _ & H). apply oneflow_cast_range in Hmin as [_ Hmin], Hmax as [Hmax _].
  specialize (Hmin (find_take _ _ _ Hk)). unfold is_i64 in Hmax.
  revert H. apply ofold_invariant; [|done]. intros m1 b m2 Hb Hm1. apply range_list_elem in Hb.
  apply add_device_parsed; [done|lia].
Qed.

Lemma parse_names_parsed (names : list str) (m : gmap Z (list Z)) :
  ofold (parse_device_name per_node) names ∅ = Ret m → parsed m.
Proof.
  apply ofold_invariant; [|by intros a l H]. intros m1 name m2 _ Hm1. unfold parse_device_name.
  destruct name as [|c t]; [by apply set_parsed|]. destruct (c =? ch_at); by apply set_parsed.
Qed.
End Init.

(** ** Writing the names and reading them again *)

Lemma not_minus_to_string (n : Z) : 0 ≤ n → ch_minus ∉ to_string n.
Proof.
  intros Hn. unfold to_string. destruct (Z.ltb_spec n 0); [lia|].
  apply digits_exclude; [unfold is_digit, ch_minus; lia|by apply decimal_digits].
Qed.

Lemma not_colon_to_string (n : Z) : ch_colon ∉ to_string n.
Proof.
  assert (Hd : ∀ k, 0 ≤ k → ch_colon ∉ decimal k)
    by (intros; apply digits_exclude; [unfold is_digit, ch_colon; lia|by apply decimal_digits]).
  unfold to_string. destruct (Z.ltb_spec n 0); [|by apply Hd].
  apply not_elem_of_cons. split; [done|apply Hd; lia].
Qed.

Lemma take_length_app {A : Type} (a b : list A) : take (length a) (a ++ b) = a.
Proof. by rewrite take_app_length. Qed.

Lemma drop_S_length_app {A : Type} (a b : list A) (c : A) : drop (S (length a)) (a ++ c :: b) = b.
Proof. replace (S (length a)) with (length a + 1)%nat by lia. by rewrite <- drop_drop, drop_app_length. Qed.

(** A name [machine:device] without an interval adds that device to that machine. *)
Lemma set_one_device (node dev cols : Z) (m : gmap Z (list Z)) : is_i64 node → 0 ≤ dev < 2 ^ 63 →
  SetMachineIdAndDeviceIdsByParsingDeviceName (to_string node ++ chars ":" ++ to_string dev) cols m =
  add_device node cols m dev.
Proof.
  intros Hn Hd. unfold SetMachineIdAndDeviceIdsByParsingDeviceName, ParseDeviceNameConf.
  change (chars ":") with [ch_colon]. cbn [app].
  rewrite rfind_app_last by apply not_colon_to_string. rewrite take_length_app, drop_S_length_app.
  rewrite oneflow_cast_to_string by done. cbn [obind].
  rewrite (find_none ch_minus (to_string dev)) by (apply not_minus_to_string; lia). rewrite find_app_first by (apply not_minus_to_string; lia).
  change (default 0%nat (Some (length (to_string dev)))) with (length (to_string dev)).
  rewrite take_length_app, drop_S_length_app, oneflow_cast_to_string by (unfold is_i64; lia). cbn [obind].
  unfold CHECK_OR_RETURN. rewrite Z.leb_refl. cbn [obind].
  rewrite range_list_S, range_list_nil by lia. cbn [ofold]. by destruct (add_device node cols m dev).
Qed.

Lemma add_device_one (a b : Z) (m : gmap Z (list Z)) : is_i64 a →
  add_device a 1 m b = Ret (<[a := default [] (m !! a) ++ [b]]> m).
Proof.
  intros Ha. unfold add_device. change (1 =? 0) with false. cbn iota. rewrite Z.mod_1_r, Z.mul_1_r, Z.add_0_l.
  by rewrite !i64_u64, i64_small.
Qed.

Section Roundtrip.
Context (registry : str → Z) (Rank per_node : Z).

Definition push (m : gmap Z (list Z)) (ab : Z * Z) : gmap Z (list Z) := <[ab.1 := default [] (m !! ab.1) ++ [ab.2]]> m.

Lemma parse_names (P : list (Z * Z)) (m : gmap Z (list Z)) :
  Forall (λ ab, is_i64 ab.1 ∧ 0 ≤ ab.2 < 2 ^ 63) P →
  ofold (parse_device_name per_node) (map name_of P) m = Ret (foldl push m P).
Proof.
  intros HP. revert m. induction HP as [|[a b] P [Ha Hb] _ IH]; intros m; [done|]. cbn [map ofold foldl].
  assert (E : parse_device_name per_node m (name_of (a, b)) = Ret (push m (a, b))).
  { unfold name_of, parse_device_name. change (chars "@") with [ch_at]. cbn [app fst snd]. rewrite Z.eqb_refl.
    rewrite set_one_device by done. by apply add_device_one. }
  rewrite E. cbn [obind]. apply IH.
Qed.

Lemma push_machine (a : Z) (l : list Z) (m : gmap Z (list Z)) : l ≠ [] →
  foldl push m (map (pair a) l) = <[a := default [] (m !! a) ++ l]> m.
Proof.
  intros Hl. revert m. induction l as [|b l IH]; intros m; [done|]. cbn [map foldl]. destruct l as [|b' l].
  - done.
  - rewrite IH by done. unfold push. cbn [fst snd]. rewrite lookup_insert_eq, insert_insert_eq. cbn [default from_option id].
    by rewrite <- app_assoc.
Qed.

(** Pushing the devices of the machines [ids] gives the map back on them. *)
Lemma push_machines (m m0 : gmap Z (list Z)) (ids : list Z) (a : Z) : normal m → NoDup ids →
  Forall (λ x, is_Some (m !! x)) ids → (∀ x, x ∈ ids → m0 !! x = None) →
  foldl push m0 (devices_of m ids) !! a = if decide (a ∈ ids) then m !! a else m0 !! a.
Proof.
  intros Hn Hnd. revert m0. induction Hnd as [|x ids Hx _ IH]; intros m0 Hsome Hfresh; [done|].
  apply Forall_cons in Hsome as [[l Hl] Hsome]. unfold devices_of in *. cbn [mbind list_bind].
  rewrite Hl. cbn [default]. rewrite foldl_app. destruct (Hn x l Hl) as [Hne _].
  rewrite push_machine by done. rewrite (Hfresh x) by left. cbn [default app]. rewrite IH; [|done|].
  - destruct (decide (a ∈ ids)) as [Ha|Ha].
    + by rewrite decide_True by (by right).
    + destruct (decide (a = x)) as [->|Hax].
      * rewrite decide_True by left. by rewrite lookup_insert_eq.
      * rewrite decide_False by (rewrite elem_of_cons; tauto). by rewrite lookup_insert_ne.
  - intros y Hy. rewrite lookup_insert_ne by (intros ->; done). apply Hfresh. by right.
Qed.

Lemma norm_map_parsed (m : gmap Z (list Z)) : parsed m →
  Forall (λ ab, is_i64 ab.1 ∧ 0 ≤ ab.2 < 2 ^ 63) (devices_of (norm_map m) (machine_ids (norm_map m))) ∧
  ∀ a, is_Some (norm_map m !! a) ↔ is_Some (m !! a).
Proof.
  intros Hp. assert (Hl : ∀ a, norm_map m !! a = SortAndRemoveDuplication <$> m !! a).
  { intros a. unfold norm_map, EraseIf. rewrite lookup_fmap. destruct (m !! a) as [l|] eqn:E.
    - rewrite (proj2 (map_lookup_filter_Some _ m a l)); [done|]. split; [done|].
      destruct (Hp a l E) as (_ & Hne & _). by destruct l.
    - by rewrite (proj2 (map_lookup_filter_None _ m a)) by (by left). }
  split; [|intros a; by rewrite Hl, fmap_is_Some].
  apply Forall_forall. intros [a b] Hab. apply devices_of_elem in Hab as [_ Hb]. rewrite Hl in Hb.
  destruct (m !! a) as [l|] eqn:E; cbn in Hb; [|by apply elem_of_nil in Hb]. rewrite SRD_elem in Hb.
  destruct (Hp a l E) as (Ha & _ & HF). rewrite Forall_forall in HF. split; [done|by apply HF].
Qed.

(** C33 The configuration a placement carries describes that placement: [MaybeInit] on
    the [ParallelConf] that [ClearUp] wrote (names [@process:device] in parallel-id
    order, the hierarchy filled in) returns the very same description, whatever
    intervals, node-relative names or duplicates the user's configuration had. *)
Theorem placement_conf_roundtrip (conf : ParallelConf) (d : ParallelDesc) :
  MaybeInit registry Rank per_node conf = Ret d → MaybeInit registry Rank per_node (parallel_conf_ d) = Ret d.
Proof.
  intros (dt & m & dims & n & H)%MaybeInit_parts. cbv zeta in H.
  destruct H as (Hdt & Hm & Hn & Hd & Hp & Hinv & Hnd & ->). cbn [parallel_conf_].
  set (m' := norm_map m) in *. set (P := devices_of m' (machine_ids m')) in *.
  destruct (norm_map_parsed m) as [HP Hdom]; [by eapply parse_names_parsed|]. fold m' in HP, Hdom. fold P in HP.
  unfold MaybeInit. cbn [device_tag device_name]. rewrite Hdt. cbn [obind]. rewrite parse_names by done. cbn [obind].
  assert (Em : foldl push ∅ P = m').
  { apply map_eq. intros a. unfold P. rewrite push_machines; [|apply norm_map_normal|apply machine_ids_NoDup| |].
    - destruct (decide (a ∈ machine_ids m')) as [|Ha]; [done|]. rewrite machine_ids_elem in Ha.
      destruct (m' !! a); [|done]. destruct Ha. by eexists.
    - apply Forall_forall. intros x. apply machine_ids_elem.
    - intros x _. apply lookup_empty. }
  rewrite Em.
  destruct (ClearUp_closed dt (mkConf (device_tag conf) (map name_of P) (Some dims)) (mkShape [] false) [] m' 0 0
    (match m' !! Rank with Some _ => true | None => false end)) as (_ & _ & E).
  rewrite (norm_map_id m') in E by apply norm_map_normal. fold P in E. cbv zeta in E. rewrite E.
  cbn [conf_hierarchy device_tag]. destruct dims as [|d0 dims]; [done|]. rewrite elem_cnt_prod. cbn [dim_vec Shape_of].
  rewrite Hp, Z.eqb_refl. cbn [obind]. unfold SanityCheck.
  cbn [machine_id2sorted_dev_phy_ids_ device_type_ parallel_conf_ hierarchy_ sorted_machine_ids_ parallel_num_
       parallel_id2machine_id_ parallel_id2device_id_ machine_id2device_id2parallel_id_ containing_current_rank_].
  rewrite Hn. cbn [obind]. f_equal. f_equal.
  specialize (Hdom Rank). destruct (m' !! Rank), (m !! Rank); try done.
  - by destruct (proj1 Hdom (mk_is_Some _ _ eq_refl)).
  - by destruct (proj2 Hdom (mk_is_Some _ _ eq_refl)).
Qed.
End Roundtrip.

(** ** Parallel ids *)

Section Ids.
Context (d : ParallelDesc) (P : list (Z * Z)) (Hwf : placement_wf d P) (Hsmall : parallel_num_ d < 2 ^ 64).

Lemma ids_at (id a b : Z) : 0 ≤ id → P !! Z.to_nat id = Some (a, b) →
  MachineId4ParallelId d id = Ret a ∧ DeviceId4ParallelId d id = Ret b ∧
  ParallelId4MachineDeviceId d a b = Ret id ∧ Containing d a b = true.
Proof.
  intros Hid Hp. pose proof (lookup_lt_Some _ _ _ Hp) as Hlt. pose proof (wf_num _ _ Hwf) as Hn.
  assert (Hu : u64 id = id) by (apply Z.mod_small; unfold u64_modulus; lia).
  unfold MachineId4ParallelId, DeviceId4ParallelId. rewrite (wf_machines _ _ Hwf), (wf_devices _ _ Hwf), !length_fmap, Hu.
  unfold CHECK_OR_RETURN. destruct (Z.ltb_spec id (Z.of_nat (length P))); [|lia]. cbn [obind]. split_and!.
  - apply at_Ret. split; [done|]. by rewrite list_lookup_fmap, Hp.
  - apply at_Ret. split; [done|]. by rewrite list_lookup_fmap, Hp.
  - pose proof (proj2 (wf_inverse _ _ Hwf a b id) (conj Hid Hp)) as Hi. unfold ParallelId4MachineDeviceId.
    destruct (machine_id2device_id2parallel_id_ d !! a) as [ids|]; [|done]. cbn in Hi. by rewrite Hi.
  - apply (wf_containing _ _ Hwf). by eapply list_elem_of_lookup_2.
Qed.

Lemma ids_bound (id : Z) : 0 ≤ id < parallel_num_ d → ∃ a b, P !! Z.to_nat id = Some (a, b).
Proof.
  intros Hid. pose proof (wf_num _ _ Hwf) as Hn. destruct (lookup_lt_is_Some_2 P (Z.to_nat id)) as [[a b] H]; [lia|].
  by exists a, b.
Qed.

Lemma ids_of (a b : Z) : Containing d a b = true → ∃ id, 0 ≤ id < parallel_num_ d ∧ P !! Z.to_nat id = Some (a, b).
Proof.
  intros Hc. apply (wf_containing _ _ Hwf) in Hc. apply list_elem_of_lookup in Hc as [i Hi].
  pose proof (lookup_lt_Some _ _ _ Hi). exists (Z.of_nat i). rewrite (wf_num _ _ Hwf), Nat2Z.id. split; [lia|done].
Qed.
End Ids.

(** C34 Parallel ids number the devices of a placement one to one: every id below
    [parallel_num] has a process and a device, which the placement contains and which
    [ParallelId4MachineDeviceId] takes back to the id; every device that the placement
    contains has such an id; the hierarchy has one cell per id. *)
Theorem parallel_id_roundtrip (registry : str → Z) (Rank per_node : Z) (conf : ParallelConf) (d : ParallelDesc) :
  MaybeInit registry Rank per_node conf = Ret d → parallel_num_ d < 2 ^ 64 →
  elem_cnt (hierarchy_ d) = parallel_num_ d ∧
  (∀ id, 0 ≤ id < parallel_num_ d → ∃ a b,
     MachineId4ParallelId d id = Ret a ∧ DeviceId4ParallelId d id = Ret b ∧ Containing d a b = true ∧
     ParallelId4MachineDeviceId d a b = Ret id) ∧
  (∀ a b, Containing d a b = true → ∃ id, 0 ≤ id < parallel_num_ d ∧
     ParallelId4MachineDeviceId d a b = Ret id ∧ MachineId4ParallelId d id = Ret a ∧ DeviceId4ParallelId d id = Ret b).
Proof.
  intros [P Hwf]%MaybeInit_wf Hs. split_and!; [apply (wf_hierarchy _ _ Hwf)|intros id Hid|intros a b Hc].
  - destruct (ids_bound d P Hwf id Hid) as (a & b & Hp). destruct (ids_at d P Hwf Hs id a b) as (? & ? & ? & ?); [lia|done|].
    by exists a, b.
  - destruct (ids_of d P Hwf a b Hc) as (id & Hid & Hp). destruct (ids_at d P Hwf Hs id a b) as (? & ? & ? & ?); [lia|done|].
    by exists id.
Qed.

(** Two nodes of two processes, the second node named twice. *)
Definition demo_conf : ParallelConf := mkConf (chars "cpu") [chars "1:0-1"; chars "0:0-1"; chars "@3:1"] (Some [2; 2]).

Lemma parallel_id_roundtrip_witness : ∃ d, MaybeInit demo_registry 0 2 demo_conf = Ret d ∧
  parallel_num_ d = 4 ∧ elem_cnt (hierarchy_ d) = 4.
Proof.
  destruct (MaybeInit demo_registry 0 2 demo_conf) as [d| |] eqn:E; [|vm_compute in E; discriminate..].
  assert (Hn : parallel_num_ d = 4) by (vm_compute in E; injection E as <-; reflexivity).
  destruct (parallel_id_roundtrip demo_registry 0 2 demo_conf d E) as (Hh & _); [lia|].
  exists d. split; [done|]. split; [exact Hn|by rewrite Hh].
Defined.

Lemma placement_conf_roundtrip_witness : ∃ d, MaybeInit demo_registry 0 2 demo_conf = Ret d ∧
  device_name (parallel_conf_ d) = [chars "@0:0"; chars "@1:1"; chars "@2:0"; chars "@3:1"] ∧
  MaybeInit demo_registry 0 2 (parallel_conf_ d) = Ret d.
Proof.
  destruct (MaybeInit demo_registry 0 2 demo_conf) as [d| |] eqn:E; [|vm_compute in E; discriminate..].
  exists d. split_and!; [done|vm_compute in E; injection E as <-; reflexivity|].
  by apply (placement_conf_roundtrip demo_registry 0 2 demo_conf).
Defined.

(** The placement of the current process misses it when a node runs several
    processes: the device name [Rank:LocalRank] is read as node-relative, so the
    description built for process [rank] is that of process
    [rank * NumOfProcessPerNode + local_rank], which is another process unless there
    is one process per node or the rank is 0. *)
Theorem this_rank_placement (registry : str → Z) (rank per_node : Z) (tag : str) :
  registry tag ≠ kInvalidDevice → 0 ≤ rank → 0 < per_node → rank * per_node + per_node < 2 ^ 63 →
  let local_rank := rank mod per_node in
  ∃ d, MaybeInit registry rank per_node (RawGetParallelDescOfThisRank_conf rank local_rank tag) = Ret d ∧
    sorted_machine_ids_ d = [rank * per_node + local_rank] ∧
    containing_current_rank_ d = (rank =? 0) || (per_node =? 1).
Proof.
  intros Hreg Hr Hp Hsmall local. pose proof (Z.mod_pos_bound rank per_node Hp) as Hl. fold local in Hl.
  set (x := rank * per_node + local).
  assert (Hm : ofold (parse_device_name per_node) [to_string rank ++ chars ":" ++ to_string local] ∅ = Ret {[x := [local]]}).
  { cbn [ofold]. unfold parse_device_name.
    assert (Hc : ∃ c t, to_string rank = c :: t ∧ c ≠ ch_at).
    { unfold to_string. destruct (Z.ltb_spec rank 0); [lia|].
      destruct (decimal_shape rank Hr) as (c & t & -> & Hc & _). exists c, t. unfold is_digit, ch_at in *. split; [done|lia]. }
    destruct Hc as (c & t & Ec & Hc). rewrite Ec. cbn [app]. destruct (Z.eqb_spec c ch_at) as [|_]; [done|].
    rewrite app_comm_cons, <- Ec. rewrite set_one_device by (unfold is_i64; nia).
    assert (Eu : ∀ z, 0 ≤ z < 2 ^ 63 → u64 z = z) by (intros; apply Z.mod_small; unfold u64_modulus; lia).
    unfold add_device. rewrite !(Eu per_node) by nia. destruct (Z.eqb_spec per_node 0); [lia|]. cbn [obind].
    rewrite (Eu local), (Eu (rank * per_node)), (Z.mod_small local) by nia.
    rewrite Eu, i64_small by (unfold is_i64; nia). rewrite lookup_empty. cbn. by replace (local + rank * per_node) with x by lia. }
  unfold MaybeInit, RawGetParallelDescOfThisRank_conf. cbn [device_tag device_name]. unfold DeviceType4DeviceTag.
  destruct (Z.eqb_spec (registry tag) kInvalidDevice); [done|]. cbn [obind]. rewrite Hm. cbn [obind].
  match goal with |- context [ClearUp (mkDesc ?dt ?c ?h ?s ?mm ?p ?q [] [] ∅ ?b)] =>
    destruct (ClearUp_closed dt c h s mm p q b) as (_ & _ & E) end.
  cbv zeta in E. rewrite E. cbn [conf_hierarchy obind].
  assert (Hn : norm_map {[x := [local]]} = {[x := [local]]}).
  { apply norm_map_id. intros a l. rewrite lookup_singleton_Some. intros [_ <-]. split; [done|]. repeat constructor. }
  rewrite Hn. unfold SanityCheck. cbn [machine_id2sorted_dev_phy_ids_]. rewrite map_to_list_singleton. cbn [ofold].
  eexists. split; [reflexivity|]. cbn [sorted_machine_ids_ containing_current_rank_]. split.
  - unfold machine_ids. by rewrite map_to_list_singleton.
  - destruct (decide (x = rank)) as [Ex|Hx].
    + rewrite <- Ex at 1. rewrite lookup_singleton_eq. unfold x in Ex.
      destruct (Z.eqb_spec rank 0), (Z.eqb_spec per_node 1); (done || nia).
    + rewrite lookup_singleton_ne by done. unfold x in Hx.
      destruct (Z.eqb_spec rank 0) as [E0|]; [exfalso; apply Hx; unfold local; rewrite E0, Zmod_0_l; lia|].
      destruct (Z.eqb_spec per_node 1) as [->|]; [|done]. exfalso. apply Hx. unfold local. rewrite Z.mod_1_r. lia.
Qed.

Lemma this_rank_placement_witness :
  ∃ d, MaybeInit demo_registry 1 2 (RawGetParallelDescOfThisRank_conf 1 1 (chars "cpu")) = Ret d ∧
    sorted_machine_ids_ d = [3] ∧ containing_current_rank_ d = false.
Proof. apply (this_rank_placement demo_registry 1 2 (chars "cpu")); (lia || done). Defined.

(** A device name with a negative device number passes the validation of
    [MakeParallelConf], which looks for the last minus sign, and aborts the process in
    [MaybeInit], which looks for the first. *)
Theorem negative_device_aborts (registry : str → Z) (Rank per_node : Z) :
  registry (chars "cpu") ≠ kInvalidDevice →
  ∃ conf, MakeParallelConf (chars "cpu") [chars "0:-1-3"] None = Ret conf ∧ MaybeInit registry Rank per_node conf = Crash.
Proof.
  intros Hreg. exists (mkConf (chars "cpu") [chars "0:-1-3"] None). split; [reflexivity|]. unfold MaybeInit, DeviceType4DeviceTag. cbn [device_tag device_name].
  destruct (Z.eqb_spec (registry (chars "cpu")) kInvalidDevice) as [|_]; [done|]. reflexivity.
Qed.

Lemma negative_device_aborts_witness :
  ∃ conf, MakeParallelConf (chars "cpu") [chars "0:-1-3"] None = Ret conf ∧ MaybeInit demo_registry 0 2 conf = Crash.
Proof. apply negative_device_aborts. vm_compute. discriminate. Defined.
