(* ===== verification/SendRecv.v ===== *)
(** * Resharding by sends and receives

    Models [oneflow/core/operator/nccl_send_recv_boxing_op_util.cpp]: a tensor that lives on the
    devices of one placement under one [NdSbp] moves to another placement and another
    [NdSbp].  Every process computes on its own which boxes it sends to whom and which
    boxes it receives from whom.

    The visitor of the depth-first traversal is a step on a state; the vector of
    coordinates that the recursion writes is part of the state it threads.  The recursion
    goes one axis deeper at a time: its fuel is the number of axes.  The calls under
    [CHECK_JUST] abort where the callee returns an error; reading a vector at [-1]
    aborts. *)
From S2P Require Import Prelude Splitter Shape NdIndex TensorSlice NdSbp StrUtil Placement.

Definition CHECK_JUST {A : Type} (m : outcome A) : outcome A := match m with Ret a => Ret a | _ => Crash end.

Definition NdSbpNoPartialParallel (nd_sbp : list SbpParallel) : outcome bool :=
  let* _ := CHECK (Nat.ltb 0 (length nd_sbp)) in
  Ret (negb (existsb has_partial_sum_parallel nd_sbp)).

Section Traverse.
Context {S : Type} (out_parallel_ids : list Z) (in_parallel_hierarchy : Shape) (in_hierarchy_stride : list Z)
  (in_nd_sbp : list SbpParallel) (visit : S → Z → outcome S).

Fixpoint DfsTraverseRanks4NdSbp (fuel : nat) (depth : Z) (st : list Z * S) : outcome (list Z * S) :=
  let '(in_parallel_ids, s) := st in
  let* n := NumAxes in_parallel_hierarchy in
  if n <=? depth then
    let* s := visit s (i32 (NdIndexToOffset in_hierarchy_stride in_parallel_ids (Z.to_nat n))) in
    Ret (in_parallel_ids, s)
  else
    match fuel with
    | O => Crash
    | Datatypes.S fuel =>
        let* sbp_parallel := at_ in_nd_sbp depth in
        if has_broadcast_parallel sbp_parallel then
          let* id := at_ out_parallel_ids depth in
          DfsTraverseRanks4NdSbp fuel (depth + 1) (<[Z.to_nat depth := id]> in_parallel_ids, s)
        else
          let* dim := at_ (dim_vec in_parallel_hierarchy) depth in
          ofold (λ st i, DfsTraverseRanks4NdSbp fuel (depth + 1) (<[Z.to_nat depth := i]> st.1, st.2))
            (range_list 0 dim) (in_parallel_ids, s)
    end.
End Traverse.

Definition GetMappedParallelId (from_parallel_id : Z) (from_parallel_desc to_parallel_desc : ParallelDesc) : outcome Z :=
  let* machine_id := CHECK_JUST (MachineId4ParallelId from_parallel_desc from_parallel_id) in
  let* device_index := CHECK_JUST (DeviceId4ParallelId from_parallel_desc from_parallel_id) in
  if Placement.Containing to_parallel_desc machine_id device_index
  then CHECK_JUST (ParallelId4MachineDeviceId to_parallel_desc machine_id device_index)
  else Ret (-1).

Definition resize (v : list TensorSliceView) (n : Z) : list TensorSliceView :=
  take (Z.to_nat n) v ++ replicate (Z.to_nat n - length v) empty_view.

(** [v->at(i) = x]. *)
Definition put_at (v : list TensorSliceView) (i : Z) (x : TensorSliceView) : outcome (list TensorSliceView) :=
  let* _ := at_ v i in Ret (<[Z.to_nat i := x]> v).

Section Rank.
Context (parallel_desc in_parallel_desc out_parallel_desc : ParallelDesc) (in_nd_sbp : list SbpParallel).

(** The id in the producer's placement from which a consumer reads broadcast axes. *)
Definition corresponding_in_id (machine_id device_index out_id : Z) : outcome Z :=
  if Placement.Containing in_parallel_desc machine_id device_index
  then CHECK_JUST (ParallelId4MachineDeviceId in_parallel_desc machine_id device_index)
  else if parallel_num_ in_parallel_desc =? 0 then Crash else Ret (Z.rem out_id (parallel_num_ in_parallel_desc)).

(** The traversal for one consumer: the index helper, the two vectors and the recursion. *)
Definition traverse {S : Type} (corresponding : Z) (visit : S → Z → outcome S) (s : S) : outcome S :=
  let hierarchy := hierarchy_ in_parallel_desc in
  let* n := NumAxes hierarchy in
  let stride := InitStrides SHAPE_MAX_AXIS_SIZE (dim_vec hierarchy) (Z.to_nat n) in
  let out_parallel_ids := OffsetToNdIndex_n stride corresponding (Z.to_nat n) in
  let* (_, s) := DfsTraverseRanks4NdSbp out_parallel_ids hierarchy stride in_nd_sbp visit (Z.to_nat n) 0
                   (replicate (Z.to_nat n) 0, s) in
  Ret s.

Definition add_to_recv_intersections (in_slices : list TensorSliceView) (cur_rank_out_slice : TensorSliceView)
    (recv : list TensorSliceView) (send_id : Z) : outcome (list TensorSliceView) :=
  let* in_slice := at_ in_slices send_id in
  let* intersection := Intersect cur_rank_out_slice in_slice in
  if IsEmpty intersection then Ret recv else
  let* merged_id := GetMappedParallelId send_id in_parallel_desc parallel_desc in
  put_at recv merged_id intersection.

Definition add_to_send_intersections (out_slices : list TensorSliceView) (cur_rank_in_slice : TensorSliceView)
    (in_id recv_i : Z) (send : list TensorSliceView) (send_id : Z) : outcome (list TensorSliceView) :=
  if negb (send_id =? in_id) then Ret send else
  let* out_slice := at_ out_slices recv_i in
  let* intersection := Intersect out_slice cur_rank_in_slice in
  if IsEmpty intersection then Ret send else
  let* merged_id := GetMappedParallelId recv_i out_parallel_desc parallel_desc in
  put_at send merged_id intersection.

(** One round of the loop over the consumers. *)
Definition send_to (out_slices : list TensorSliceView) (cur_rank_in_slice : TensorSliceView) (in_id : Z)
    (send : list TensorSliceView) (recv_i : Z) : outcome (list TensorSliceView) :=
  let* out_device_id := CHECK_JUST (DeviceId4ParallelId out_parallel_desc recv_i) in
  let* out_machine_id := CHECK_JUST (MachineId4ParallelId out_parallel_desc recv_i) in
  let* corresponding := corresponding_in_id out_machine_id out_device_id recv_i in
  traverse corresponding (add_to_send_intersections out_slices cur_rank_in_slice in_id recv_i) send.

(** Returns the two vectors that the caller passed, updated. *)
Definition GetRankSendRecvIntersection (parallel_id : Z) (out_nd_sbp : list SbpParallel) (logical_shape : Shape)
    (send_intersections recv_intersections : list TensorSliceView)
    : outcome (list TensorSliceView * list TensorSliceView) :=
  let parallel_num := parallel_num_ parallel_desc in
  let* _ := CHECK (parallel_id <? parallel_num) in
  let* in_slices := GetTensorSliceView (hierarchy_ in_parallel_desc) in_nd_sbp logical_shape in
  let* out_slices := GetTensorSliceView (hierarchy_ out_parallel_desc) out_nd_sbp logical_shape in
  let* machine_id := CHECK_JUST (MachineId4ParallelId parallel_desc parallel_id) in
  let* device_index := CHECK_JUST (DeviceId4ParallelId parallel_desc parallel_id) in
  let* recv :=
    if Placement.Containing out_parallel_desc machine_id device_index then
      let recv := resize recv_intersections parallel_num in
      let* out_id := CHECK_JUST (ParallelId4MachineDeviceId out_parallel_desc machine_id device_index) in
      let* cur_rank_out_slice := at_ out_slices out_id in
      let* corresponding := corresponding_in_id machine_id device_index out_id in
      traverse corresponding (add_to_recv_intersections in_slices cur_rank_out_slice) recv
    else Ret recv_intersections in
  let* send :=
    if Placement.Containing in_parallel_desc machine_id device_index then
      let send := resize send_intersections parallel_num in
      let* in_id := CHECK_JUST (ParallelId4MachineDeviceId in_parallel_desc machine_id device_index) in
      let* cur_rank_in_slice := at_ in_slices in_id in
      ofold (send_to out_slices cur_rank_in_slice in_id) (range_list 0 (parallel_num_ out_parallel_desc)) send
    else Ret send_intersections in
  Ret (send, recv).
End Rank.

(** Two devices exchange a split by rows for a split by columns. *)
Definition demo_desc : outcome ParallelDesc :=
  MaybeInit demo_registry 0 2 (mkConf (chars "cpu") [chars "0:0-1"] None).
Example rows_to_columns :
  (let* d := demo_desc in
   let* (send, recv) := GetRankSendRecvIntersection d d d [split_parallel 0] 1 [split_parallel 1] (Shape_of [4; 6]) [] [] in
   Ret (map range_vec send, map range_vec recv)) =
  Ret ([[mkRange 2 4; mkRange 0 3]; [mkRange 2 4; mkRange 3 6]], [[mkRange 0 2; mkRange 3 6]; [mkRange 2 4; mkRange 3 6]]).
Proof. vm_compute. reflexivity. Qed.
