(* ===== verification/SendRecvSpec.v ===== *)
(** * Resharding is complete and agreed upon

    Every process computes its sends and receives alone; what one process sends to another is
    what the other expects from it, and a consumer receives every element of its box:
    from exactly one producer for every choice of coordinates on the producer's partial
    sums, from exactly one producer when there are none. *)
From S2P Require Import Prelude Splitter Shape NdIndex TensorSlice NdSbp NdSbpSpec StrUtil Placement PlacementSpec SendRecv.

(** ** The traversal *)

(** The coordinates visited: those of the consumer on broadcast axes, all on the others. *)
Fixpoint choices (sbps : list SbpParallel) (hs os : list Z) : list (list Z) :=
  match sbps, hs, os with
  | s :: sbps, h :: hs, o :: os =>
      if has_broadcast_parallel s then map (cons o) (choices sbps hs os)
      else range_list 0 h ≫= λ i, map (cons i) (choices sbps hs os)
  | _, _, _ => [[]]
  end.

Definition same_broadcast (sbps : list SbpParallel) (os ks : list Z) : Prop :=
  Forall3 (λ s o k, has_broadcast_parallel s = true → k = o) sbps os ks.

Lemma choices_elem (sbps : list SbpParallel) (hs os ks : list Z) : length sbps = length hs → index_in os hs →
  ks ∈ choices sbps hs os ↔ index_in ks hs ∧ same_broadcast sbps os ks.
Proof.
  intros Hl Ho. revert sbps ks Hl. induction Ho as [|o h os hs Ho _ IH]; intros [|s sbps] ks Hl; try done.
  - cbn. rewrite list_elem_of_singleton. split; [intros ->; split; constructor|].
    intros [Hk _]. by apply Forall2_nil_inv_r in Hk.
  - cbn [length] in Hl. cbn [choices]. destruct (has_broadcast_parallel s) eqn:Es.
    + rewrite list_elem_of_fmap. split.
      * intros (ks' & -> & Hk). apply IH in Hk as [H1 H2]; [|lia]. split; constructor; (done || lia).
      * intros [Hk Hb]. apply Forall2_cons_inv_r in Hk as (k & ks' & Hk & Hks & ->). inversion Hb; subst.
        exists ks'. split; [f_equal; naive_solver|]. apply IH; [lia|done].
    + rewrite list_elem_of_bind. split.
      * intros (i & Hin & Hi). apply range_list_elem in Hi. apply list_elem_of_fmap in Hin as (ks' & -> & Hk).
        apply IH in Hk as [H1 H2]; [|lia]. split; constructor; (done || lia || by rewrite Es).
      * intros [Hk Hb]. apply Forall2_cons_inv_r in Hk as (k & ks' & Hk & Hks & ->). inversion Hb; subst.
        exists k. rewrite range_list_elem. split; [|done]. apply list_elem_of_fmap_2. apply IH; [lia|done].
Qed.

Section Traversal.
Context {S : Type} (os : list Z) (hs : list Z) (sbp : list SbpParallel) (stride : list Z) (visit : S → Z → outcome S).

Let offset (ks : list Z) : Z := i32 (NdIndexToOffset stride ks (length hs)).
Let dfs := DfsTraverseRanks4NdSbp os (Shape_of hs) stride sbp visit.

Lemma dfs_leaf (fuel : nat) (ids : list Z) (s : S) :
  dfs fuel (Z.of_nat (length hs)) (ids, s) = (let* s := visit s (offset ids) in Ret (ids, s)).
Proof.
  unfold dfs. destruct fuel; cbn [DfsTraverseRanks4NdSbp]; rewrite NumAxes_init by done; cbn [obind dim_vec Shape_of];
    rewrite Z.leb_refl, Nat2Z.id; done.
Qed.

Lemma insert_at_length {A : Type} (i : nat) (x y : A) (pre l : list A) : length pre = i →
  <[i := x]> (pre ++ y :: l) = (pre ++ [x]) ++ l.
Proof. intros <-. rewrite <- app_assoc. cbn [app]. by rewrite <- (Nat.add_0_r (length pre)), insert_app_r. Qed.

Definition visited (pre : list Z) (l : list (list Z)) : list Z := map (λ ks, offset (pre ++ ks)) l.

Lemma visited_cons (pre : list Z) (i : Z) (l : list (list Z)) : visited pre (map (cons i) l) = visited (pre ++ [i]) l.
Proof. unfold visited. rewrite map_map. apply map_ext. intros ks. by rewrite <- app_assoc. Qed.

(** What the call one axis deeper does. *)
Definition visits_below (fuel depth : nat) (pre : list Z) (l : list (list Z)) (n : nat) : Prop :=
  ∀ i ids s s', length ids = n → ofold visit (visited (pre ++ [i]) l) s = Ret s' →
  ∃ ids', length ids' = n ∧ dfs fuel (Z.of_nat (Datatypes.S depth)) ((pre ++ [i]) ++ ids, s) = Ret ((pre ++ [i]) ++ ids', s').

Lemma dfs_loop (fuel depth n : nat) (pre : list Z) (l : list (list Z)) (range : list Z) (x : Z) (ids : list Z) (s s' : S) :
  length pre = depth → visits_below fuel depth pre l n → length ids = n →
  ofold visit (visited pre (range ≫= λ i, map (cons i) l)) s = Ret s' →
  ∃ ids', length ids' = Datatypes.S n ∧
    ofold (λ st i, dfs fuel (Z.of_nat (Datatypes.S depth)) (<[depth := i]> st.1, st.2)) range (pre ++ x :: ids, s) =
    Ret (pre ++ ids', s').
Proof.
  intros Hp Hrec. revert x ids s s'. induction range as [|i range IH]; intros x ids s s' Hi Hv.
  - cbn in Hv. simplify_eq. by exists (x :: ids).
  - cbn [mbind list_bind] in Hv. unfold visited in Hv. rewrite map_app, ofold_app in Hv.
    apply obind_Ret in Hv as (s1 & H1 & H2). fold (visited pre (map (cons i) l)) in H1. rewrite visited_cons in H1.
    destruct (Hrec i ids s s1 Hi H1) as (ids1 & Hi1 & E1). cbn [ofold fst snd]. rewrite insert_at_length, E1 by done.
    cbn [obind]. rewrite <- app_assoc. cbn [app]. by apply IH.
Qed.

(** The recursion visits, in order, the prefix followed by every choice. *)
Lemma dfs_visits (fuel depth : nat) (sbps : list SbpParallel) (hs' os' pre ids : list Z) (s s' : S) :
  drop depth sbp = sbps → drop depth hs = hs' → drop depth os = os' → length sbps = length hs' → length os' = length hs' →
  (length hs' ≤ fuel)%nat → length pre = depth → length ids = length hs' → (depth ≤ length hs)%nat →
  ofold visit (visited pre (choices sbps hs' os')) s = Ret s' →
  ∃ ids', length ids' = length hs' ∧ dfs fuel (Z.of_nat depth) (pre ++ ids, s) = Ret (pre ++ ids', s').
Proof.
  revert fuel depth sbps os' pre ids s s'. induction hs' as [|h hs' IH];
    intros fuel depth sbps os' pre ids s s' Es Eh Eo Hl Hlo Hf Hp Hi Hd Hv.
  - destruct sbps; [|done]. destruct os'; [|done]. destruct ids; [|done].
    assert (depth = length hs) as -> by (apply (f_equal length) in Eh; rewrite length_drop in Eh; cbn in Eh; lia).
    exists []. split; [done|]. rewrite dfs_leaf. unfold visited in Hv. cbn [choices map ofold] in Hv.
    by destruct (visit s (offset (pre ++ []))); simplify_eq/=.
  - destruct sbps as [|sb sbps]; [done|]. destruct os' as [|o os']; [done|]. destruct ids as [|x ids]; [done|].
    destruct fuel as [|fuel]; [cbn in Hf; lia|].
    destruct (drop_step _ _ _ _ Es) as (Hs_i & Es' & _), (drop_step _ _ _ _ Eh) as (Hh_i & Eh' & Hlt),
      (drop_step _ _ _ _ Eo) as (Ho_i & Eo' & _). cbn [length] in *.
    unfold dfs. cbn [DfsTraverseRanks4NdSbp]. rewrite NumAxes_init by done. cbn [obind dim_vec Shape_of].
    destruct (Z.leb_spec (Z.of_nat (length hs)) (Z.of_nat depth)); [lia|]. rewrite (at_nat _ _ _ Hs_i). cbn [obind].
    rewrite Nat2Z.id. replace (Z.of_nat depth + 1) with (Z.of_nat (Datatypes.S depth)) by lia. fold dfs.
    assert (Hrec : visits_below fuel depth pre (choices sbps hs' os') (length hs')).
    { intros i ids0 s0 s0' Hi0 H0. apply (IH fuel (Datatypes.S depth) sbps os'); try done; try lia. rewrite length_app. cbn. lia. }
    cbn [choices] in Hv. destruct (has_broadcast_parallel sb).
    + rewrite (at_nat _ _ _ Ho_i). cbn [obind]. rewrite insert_at_length by done. rewrite visited_cons in Hv.
      destruct (Hrec o ids s s' ltac:(lia) Hv) as (ids' & Hi' & ->). exists (o :: ids'). cbn [length]. split; [lia|].
      by rewrite <- app_assoc.
    + rewrite (at_nat _ _ _ Hh_i). cbn [obind].
      by apply (dfs_loop fuel depth (length hs') pre (choices sbps hs' os') (range_list 0 h) x ids s s'); [|exact Hrec|lia|].
Qed.
End Traversal.

(** ** Parallel ids of a traversal *)

Definition coords (hs : list Z) (id : Z) : list Z := (offset_loop (row_major hs) id).1.

Lemma coords_spec (hs : list Z) (id : Z) : Forall (λ h, 0 < h) hs → 0 ≤ id < prodZ hs →
  index_in (coords hs id) hs ∧ offset_of (coords hs id) hs = id.
Proof.
  intros Hp Hid. destruct (offset_of_surj hs id Hp Hid) as (ks & Hk & <-). unfold coords.
  by rewrite offset_loop_row_major.
Qed.

Lemma coords_offset (hs ks : list Z) : index_in ks hs → coords hs (offset_of ks hs) = ks.
Proof. intros Hk. unfold coords. by rewrite offset_loop_row_major. Qed.

Definition visit_ids (sbp : list SbpParallel) (hs : list Z) (c : Z) : list Z :=
  map (λ ks, offset_of ks hs) (choices sbp hs (coords hs c)).

Section Ids.
Context (sbp : list SbpParallel) (hs shape : list Z) (HV : sbp_valid hs sbp shape).

Lemma visit_ids_elem (c id : Z) : 0 ≤ c < prodZ hs →
  id ∈ visit_ids sbp hs c ↔ 0 ≤ id < prodZ hs ∧ same_broadcast sbp (coords hs c) (coords hs id).
Proof.
  intros Hc. destruct (coords_spec hs c (valid_pos _ _ _ HV) Hc) as [Hci _]. unfold visit_ids.
  rewrite list_elem_of_fmap. split.
  - intros (ks & -> & Hk). apply choices_elem in Hk as [Hk Hb]; [|apply (valid_len _ _ _ HV)|done].
    rewrite coords_offset by done. split; [by apply offset_of_range|done].
  - intros [Hid Hb]. destruct (coords_spec hs id (valid_pos _ _ _ HV) Hid) as [Hi Ho].
    exists (coords hs id). split; [done|]. apply choices_elem; [apply (valid_len _ _ _ HV)|done|done].
Qed.

(** The traversal is the loop over these ids. *)
Lemma traverse_ok {S : Type} (d : ParallelDesc) (c : Z) (visit : S → Z → outcome S) (s s' : S) :
  hierarchy_ d = Shape_of hs → prodZ hs ≤ 2 ^ 31 → 0 ≤ c < prodZ hs →
  ofold visit (visit_ids sbp hs c) s = Ret s' → traverse d sbp c visit s = Ret s'.
Proof.
  intros Hd Hsmall Hc Hv. destruct (coords_spec hs c (valid_pos _ _ _ HV) Hc) as [Hci Hco].
  pose proof (valid_rank _ _ _ HV) as Hr. pose proof (valid_len _ _ _ HV) as Hl.
  unfold traverse. rewrite Hd, NumAxes_init by done. cbn [obind dim_vec Shape_of]. rewrite Nat2Z.id.
  set (stride := InitStrides SHAPE_MAX_AXIS_SIZE hs (length hs)).
  assert (Eo : OffsetToNdIndex_n stride c (length hs) = coords hs c).
  { unfold OffsetToNdIndex_n, stride. rewrite InitStrides_row_major by done.
    by rewrite take_app_le, take_ge by (rewrite row_major_length; lia). }
  rewrite Eo.
  destruct (dfs_visits (coords hs c) hs sbp stride visit (length hs) 0 sbp hs (coords hs c) [] (replicate (length hs) 0) s s')
    as (ids' & _ & E); try done; try lia.
  - by apply Forall2_length in Hci.
  - by rewrite length_replicate.
  - rewrite <- Hv. f_equal. unfold visited, visit_ids. apply map_ext_Forall, Forall_forall. intros ks Hk.
    apply choices_elem in Hk as [Hk _]; [|done|done]. cbn [app]. unfold stride.
    rewrite NdIndexToOffset_eq by (done || by apply Forall2_length in Hk).
    pose proof (offset_of_range _ _ Hk). unfold i32. rewrite Z.mod_small by lia. lia.
  - change (Z.of_nat 0) with 0 in E. cbn [app] in E. by rewrite E.
Qed.
End Ids.

(** ** Filling a vector of boxes *)

Definition meet (v w : TensorSliceView) : TensorSliceView := match Intersect v w with Ret r => r | _ => empty_view end.

Lemma meet_empty (v w : TensorSliceView) : IsEmpty (meet v w) = true → meet v w = empty_view.
Proof.
  unfold meet, Intersect. destruct (IsEmpty v) eqn:Ev; [done|]. destruct (IsEmpty w) eqn:Ew; [done|]. cbn [orb].
  rewrite IsEmpty_spec in Ev, Ew. apply bool_decide_eq_false in Ev, Ew. destruct (CHECK _); cbn [obind]; try done.
  destruct (range_vec v) as [|r l]; [done|]. destruct (range_vec w) as [|r' k]; [done|]. cbn [intersect_loop].
  destruct (Range_eqb _ _); [done|]. by destruct (intersect_loop l k).
Qed.

Section Fill.
Context (N : nat) (X : Z → TensorSliceView) (dst : Z → Z).

Definition place (V : list TensorSliceView) (id : Z) : list TensorSliceView :=
  if IsEmpty (X id) then V else <[Z.to_nat (dst id) := X id]> V.

Lemma place_length (V : list TensorSliceView) (id : Z) : length (place V id) = length V.
Proof. unfold place. destruct (IsEmpty (X id)); [done|apply length_insert]. Qed.

Lemma place_idem (V : list TensorSliceView) (id : Z) : place (place V id) id = place V id.
Proof. unfold place. destruct (IsEmpty (X id)); [done|]. apply list_insert_insert_eq. Qed.

Lemma place_fold (upd : list TensorSliceView → Z → outcome (list TensorSliceView)) (l : list Z) (V : list TensorSliceView) :
  (∀ V id, length V = N → id ∈ l → upd V id = Ret (place V id)) → length V = N →
  ofold upd l V = Ret (foldl place V l).
Proof.
  revert V. induction l as [|id l IH]; intros V Hu HV; [done|]. cbn [ofold foldl]. rewrite Hu; [|done|left]. cbn [obind].
  apply IH; [|by rewrite place_length]. intros W i HW Hi. apply Hu; [done|by right].
Qed.

Lemma foldl_place_length (l : list Z) (V : list TensorSliceView) : length (foldl place V l) = length V.
Proof. revert V. induction l as [|id l IH]; intros V; [done|]. cbn [foldl]. by rewrite IH, place_length. Qed.

Lemma foldl_place_other (l : list Z) (V : list TensorSliceView) (t : nat) :
  (∀ id, id ∈ l → IsEmpty (X id) = false → Z.to_nat (dst id) ≠ t) → foldl place V l !! t = V !! t.
Proof.
  revert V. induction l as [|id l IH]; intros V Ht; [done|]. cbn [foldl]. rewrite IH by (intros; apply Ht; [by right|done]).
  unfold place. destruct (IsEmpty (X id)) eqn:E; [done|]. apply list_lookup_insert_ne. apply Ht; [left|done].
Qed.

Lemma foldl_place_at (l : list Z) (V : list TensorSliceView) (id : Z) :
  (∀ i, i ∈ l → dst i = dst id → i = id) → id ∈ l → IsEmpty (X id) = false → (Z.to_nat (dst id) < length V)%nat →
  (∀ i, i ∈ l → 0 ≤ dst i) → foldl place V l !! Z.to_nat (dst id) = Some (X id).
Proof.
  revert V. induction l as [|i l IH]; intros V Hinj Hin Hne Hlt Hpos; [by apply elem_of_nil in Hin|]. cbn [foldl].
  destruct (decide (id ∈ l)) as [Hl|Hl].
  - apply IH; [intros; apply Hinj; [by right|done]|done|done|by rewrite place_length|intros; apply Hpos; by right].
  - apply elem_of_cons in Hin as [<-|]; [|done]. rewrite foldl_place_other.
    + unfold place. rewrite Hne. by apply list_lookup_insert_eq.
    + intros j Hj _ E. assert (j = id) as ->; [|done]. apply Hinj; [by right|].
      pose proof (Hpos j (list_elem_of_further _ _ _ Hj)). pose proof (Hpos id (list_elem_of_here _ _)). lia.
Qed.
End Fill.

(** ** What every process computes *)

(** The box of the device with id [id]. *)
Definition view_at (hs : list Z) (sbp : list SbpParallel) (shape : list Z) (id : Z) : TensorSliceView :=
  view_of_ranges (slice_at hs sbp shape (coords hs id)).

Lemma split_ranges_length (sbps : list SbpParallel) (hs ks : list Z) (ranges : list Range) :
  length (split_ranges sbps hs ks ranges) = length ranges.
Proof.
  revert hs ks ranges. induction sbps as [|s sbps IH]; intros [|h hs] [|k ks] ranges; try (by destruct s); [done..|].
  destruct s; cbn [split_ranges]; rewrite IH, ?length_alter; done.
Qed.

Lemma view_at_proper (hs : list Z) (sbp : list SbpParallel) (shape : list Z) (id : Z) :
  sbp_valid hs sbp shape → shape ≠ [] → 0 ≤ id < prodZ hs →
  proper_view (view_at hs sbp shape id) ∧ view_NumAxes (view_at hs sbp shape id) = length shape.
Proof.
  intros HV Hs Hid. destruct (coords_spec hs id (valid_pos _ _ _ HV) Hid) as [Hk _].
  assert (Hl : length (slice_at hs sbp shape (coords hs id)) = length shape)
    by (unfold slice_at; by rewrite split_ranges_length, whole_length).
  pose proof (split_ranges_proper _ _ _ _ Hk (whole_enough _ _ _ HV)) as Hp.
  split; [|done]. split_and!; [|eapply Forall_impl; [exact Hp|]; unfold Range_size; cbn; lia|done].
  intros E. cbn in E. rewrite E in Hl. by destruct shape.
Qed.

Lemma views_lookup (hs : list Z) (sbp : list SbpParallel) (shape : list Z) : sbp_valid hs sbp shape →
  ∃ views, GetTensorSliceView (Shape_of hs) sbp (Shape_of shape) = Ret views ∧
  ∀ id, 0 ≤ id < prodZ hs → at_ views id = Ret (view_at hs sbp shape id).
Proof.
  intros HV. destruct (GetTensorSliceView_ok _ _ _ HV) as (views & E & _ & Hat). exists views. split; [done|].
  intros id Hid. destruct (coords_spec hs id (valid_pos _ _ _ HV) Hid) as [Hk Ho]. apply at_Ret. split; [lia|].
  rewrite <- Ho at 1. by apply Hat.
Qed.

Section Exchange.
Context (D I O : ParallelDesc) (PD PI PO : list (Z * Z)) (in_sbp out_sbp : list SbpParallel) (shape : list Z).
Context (WD : placement_wf D PD) (WI : placement_wf I PI) (WO : placement_wf O PO).
Context (HID : ∀ ab, ab ∈ PI → ab ∈ PD) (HOD : ∀ ab, ab ∈ PO → ab ∈ PD).
Context (SD : parallel_num_ D < 2 ^ 31).
Let hI := dim_vec (hierarchy_ I).
Let hO := dim_vec (hierarchy_ O).
Context (VI : sbp_valid hI in_sbp shape) (VO : sbp_valid hO out_sbp shape) (Hshape : shape ≠ []).

Definition id_in (d : ParallelDesc) (ab : Z * Z) : option Z := TryGetParallelId d ab.1 ab.2.

Lemma id_in_spec (d : ParallelDesc) (P : list (Z * Z)) (ab : Z * Z) (i : Z) : placement_wf d P →
  id_in d ab = Some i ↔ 0 ≤ i ∧ P !! Z.to_nat i = Some ab.
Proof.
  intros W. destruct ab as [a b]. rewrite <- (wf_inverse _ _ W a b i). unfold id_in, TryGetParallelId. cbn [fst snd].
  by destruct (machine_id2device_id2parallel_id_ d !! a).
Qed.

Lemma id_in_none (d : ParallelDesc) (P : list (Z * Z)) (ab : Z * Z) : placement_wf d P → id_in d ab = None ↔ ab ∉ P.
Proof.
  intros W. split.
  - intros E (j & Hj)%list_elem_of_lookup. assert (id_in d ab = Some (Z.of_nat j)); [|congruence].
    apply (id_in_spec d P); [done|]. rewrite Nat2Z.id. split; [lia|done].
  - intros Hn. destruct (id_in d ab) as [i|] eqn:E; [|done]. apply (id_in_spec d P) in E as [_ E]; [|done].
    by apply list_elem_of_lookup_2 in E.
Qed.

Lemma count_le (d : ParallelDesc) (P : list (Z * Z)) : placement_wf d P → (∀ ab, ab ∈ P → ab ∈ PD) →
  parallel_num_ d ≤ parallel_num_ D.
Proof.
  intros W Hsub. rewrite (wf_num _ _ W), (wf_num _ _ WD). apply inj_le, submseteq_length, NoDup_submseteq; [|done].
  apply (wf_nodup _ _ W).
Qed.

Lemma prod_num (d : ParallelDesc) (P : list (Z * Z)) : placement_wf d P → prodZ (dim_vec (hierarchy_ d)) = parallel_num_ d.
Proof. intros W. rewrite <- (wf_hierarchy _ _ W). by rewrite elem_cnt_prod. Qed.

(** The position of a device in the merged placement. *)
Definition pos_of (P : list (Z * Z)) (id : Z) : Z := default (-1) (P !! Z.to_nat id ≫= id_in D).

Lemma mapped_id (d : ParallelDesc) (P : list (Z * Z)) (id : Z) : placement_wf d P → (∀ ab, ab ∈ P → ab ∈ PD) →
  0 ≤ id < parallel_num_ d →
  GetMappedParallelId id d D = Ret (pos_of P id) ∧ 0 ≤ pos_of P id ∧ PD !! Z.to_nat (pos_of P id) = P !! Z.to_nat id.
Proof.
  intros W Hsub Hid. pose proof (count_le d P W Hsub) as Hle. destruct (ids_bound d P W id Hid) as (a & b & Hp).
  destruct (ids_at d P W ltac:(lia) id a b ltac:(lia) Hp) as (E1 & E2 & _ & _).
  assert (Hab : (a, b) ∈ PD) by (eapply Hsub, list_elem_of_lookup_2, Hp).
  destruct (ids_of D PD WD a b (proj2 (wf_containing _ _ WD a b) Hab)) as (j & Hj & Hpj).
  destruct (ids_at D PD WD ltac:(lia) j a b ltac:(lia) Hpj) as (_ & _ & E3 & E4).
  assert (Ej : pos_of P id = j).
  { unfold pos_of. rewrite Hp. cbn. rewrite (proj2 (id_in_spec D PD (a, b) j WD)); [done|]. split; [lia|done]. }
  unfold GetMappedParallelId. rewrite E1, E2. cbn [CHECK_JUST obind]. rewrite E4, E3, Ej. split_and!; [done|lia|by rewrite Hp].
Qed.

(** The traversal of consumer [cd], whose id is [o]. *)
Definition corresponding (cd : Z * Z) (o : Z) : Z :=
  match id_in I cd with Some s => s | None => Z.rem o (parallel_num_ I) end.

(** What the producer [ab] hands to the consumer [cd]. *)
Definition transfer (ab cd : Z * Z) : TensorSliceView :=
  match id_in I ab, id_in O cd with
  | Some s, Some o =>
      if bool_decide (s ∈ visit_ids in_sbp hI (corresponding cd o))
      then meet (view_at hO out_sbp shape o) (view_at hI in_sbp shape s) else empty_view
  | _, _ => empty_view
  end.

Lemma num_pos : 0 < parallel_num_ I.
Proof. rewrite <- (prod_num I PI WI). apply prodZ_pos, (valid_pos _ _ _ VI). Qed.

Lemma corresponding_ok (a b o : Z) : 0 ≤ o →
  corresponding_in_id I a b o = Ret (corresponding (a, b) o) ∧ 0 ≤ corresponding (a, b) o < prodZ hI.
Proof.
  intros Ho. pose proof num_pos as Hn. pose proof (count_le I PI WI HID) as Hle.
  unfold corresponding, corresponding_in_id. unfold hI. rewrite (prod_num I PI WI).
  destruct (Placement.Containing I a b) eqn:Ec.
  - destruct (ids_of I PI WI a b Ec) as (i & Hi & Hp). destruct (ids_at I PI WI ltac:(lia) i a b ltac:(lia) Hp) as (_ & _ & E & _).
    rewrite E, (proj2 (id_in_spec I PI (a, b) i WI)) by (split; [lia|done]). done.
  - rewrite (proj2 (id_in_none I PI (a, b) WI)).
    + destruct (Z.eqb_spec (parallel_num_ I) 0); [lia|]. split; [done|]. apply Z.rem_bound_pos; lia.
    + rewrite <- (wf_containing _ _ WI). by rewrite Ec.
Qed.

Lemma meet_ok (o s : Z) : 0 ≤ o < prodZ hO → 0 ≤ s < prodZ hI →
  Intersect (view_at hO out_sbp shape o) (view_at hI in_sbp shape s) =
  Ret (meet (view_at hO out_sbp shape o) (view_at hI in_sbp shape s)).
Proof.
  intros Ho Hs. destruct (view_at_proper hO out_sbp shape o VO Hshape Ho) as [Po No].
  destruct (view_at_proper hI in_sbp shape s VI Hshape Hs) as [Ps Ns].
  destruct (Intersect_points _ _ Po Ps) as (r & E & _); [congruence|]. unfold meet. by rewrite E.
Qed.

Lemma put_at_ok (V : list TensorSliceView) (i : Z) (x : TensorSliceView) : 0 ≤ i < Z.of_nat (length V) →
  put_at V i x = Ret (<[Z.to_nat i := x]> V).
Proof.
  intros Hi. unfold put_at. destruct (lookup_lt_is_Some_2 V (Z.to_nat i)) as [y Hy]; [lia|].
  rewrite (proj2 (at_Ret V i y)) by (split; [lia|done]). done.
Qed.

Lemma pos_of_inj (d : ParallelDesc) (P : list (Z * Z)) (i j : Z) : placement_wf d P → (∀ ab, ab ∈ P → ab ∈ PD) →
  0 ≤ i < parallel_num_ d → 0 ≤ j < parallel_num_ d → pos_of P i = pos_of P j → i = j.
Proof.
  intros W Hsub Hi Hj E. destruct (mapped_id d P i W Hsub Hi) as (_ & _ & Ei), (mapped_id d P j W Hsub Hj) as (_ & _ & Ej).
  rewrite E, Ej in Ei. destruct (ids_bound d P W i Hi) as (a & b & Hp). rewrite Hp in Ei.
  pose proof (NoDup_lookup _ _ _ _ (wf_nodup _ _ W) Hp Ei). lia.
Qed.

Definition norm (x : TensorSliceView) : TensorSliceView := if IsEmpty x then empty_view else x.

(** What a vector holds once the boxes [X id] of the ids [l] were stored. *)
Definition filled (d : ParallelDesc) (l : list Z) (X : Z → TensorSliceView) (ab : Z * Z) : TensorSliceView :=
  match id_in d ab with
  | Some s => if bool_decide (s ∈ l) then norm (X s) else empty_view
  | None => empty_view
  end.

Lemma fill_map (d : ParallelDesc) (P : list (Z * Z)) (l : list Z) (X : Z → TensorSliceView) :
  placement_wf d P → (∀ ab, ab ∈ P → ab ∈ PD) → (∀ id, id ∈ l → 0 ≤ id < parallel_num_ d) →
  foldl (place X (pos_of P)) (replicate (length PD) empty_view) l = map (filled d l X) PD.
Proof.
  intros W Hsub Hl. apply list_eq. intros t. rewrite list_lookup_fmap. destruct (PD !! t) as [ab|] eqn:Et.
  2: { apply lookup_ge_None in Et. rewrite lookup_ge_None_2; [done|]. by rewrite foldl_place_length, length_replicate. }
  pose proof (lookup_lt_Some _ _ _ Et) as Hlt. cbn. unfold filled.
  assert (Hdst : ∀ id, id ∈ l → Z.to_nat (pos_of P id) = t → id_in d ab = Some id).
  { intros id Hid E. destruct (mapped_id d P id W Hsub (Hl id Hid)) as (_ & _ & Ep). rewrite E, Et in Ep.
    apply (id_in_spec d P); [done|]. specialize (Hl id Hid). split; [lia|done]. }
  assert (Hbase : replicate (length PD) empty_view !! t = Some empty_view) by (by apply lookup_replicate_2).
  destruct (id_in d ab) as [s|] eqn:Es.
  - destruct (bool_decide_reflect (s ∈ l)) as [Hs|Hs]; unfold norm.
    + destruct (IsEmpty (X s)) eqn:Ex.
      * rewrite foldl_place_other; [done|]. intros id Hid Hne E. specialize (Hdst id Hid E). congruence.
      * pose proof (Hl s Hs) as Hs'. destruct (mapped_id d P s W Hsub Hs') as (_ & Hp0 & Ep).
        apply (id_in_spec d P) in Es as [_ Es]; [|done]. rewrite Es in Ep.
        pose proof (NoDup_lookup _ _ _ _ (wf_nodup _ _ WD) Ep Et) as <-. apply foldl_place_at; try done.
        -- intros i Hi. by apply (pos_of_inj d P i s W Hsub (Hl i Hi)).
        -- by rewrite length_replicate.
        -- intros i Hi. by destruct (mapped_id d P i W Hsub (Hl i Hi)) as (_ & ? & _).
    + rewrite foldl_place_other; [done|]. intros id Hid _ E. specialize (Hdst id Hid E). by simplify_eq.
  - rewrite foldl_place_other; [done|]. intros id Hid _ E. by specialize (Hdst id Hid E).
Qed.

Lemma norm_meet (v w : TensorSliceView) : norm (meet v w) = meet v w.
Proof. unfold norm. destruct (IsEmpty (meet v w)) eqn:E; [|done]. by rewrite meet_empty. Qed.

Lemma resize_nil : resize [] (parallel_num_ D) = replicate (length PD) empty_view.
Proof. unfold resize. rewrite take_nil, (wf_num _ _ WD), Nat2Z.id. cbn. by rewrite Nat.sub_0_r. Qed.

Lemma put_mapped (d : ParallelDesc) (P : list (Z * Z)) (V : list TensorSliceView) (id : Z) (x : TensorSliceView) :
  placement_wf d P → (∀ ab, ab ∈ P → ab ∈ PD) → 0 ≤ id < parallel_num_ d → length V = length PD →
  (let* merged_id := GetMappedParallelId id d D in put_at V merged_id x) = Ret (<[Z.to_nat (pos_of P id) := x]> V).
Proof.
  intros W Hsub Hid HV. destruct (mapped_id d P id W Hsub Hid) as (-> & Hp & Ep). cbn [obind].
  destruct (ids_bound d P W id Hid) as (a & b & Hab). rewrite Hab in Ep. apply lookup_lt_Some in Ep.
  apply put_at_ok. lia.
Qed.

(** The receiving half. *)
Lemma recv_ok (o : Z) (a b : Z) (in_slices : list TensorSliceView) : PO !! Z.to_nat o = Some (a, b) → 0 ≤ o < parallel_num_ O →
  (∀ id, 0 ≤ id < prodZ hI → at_ in_slices id = Ret (view_at hI in_sbp shape id)) →
  traverse I in_sbp (corresponding (a, b) o) (add_to_recv_intersections D I in_slices (view_at hO out_sbp shape o))
    (replicate (length PD) empty_view) = Ret (map (λ x, transfer x (a, b)) PD).
Proof.
  intros Hab Ho Hat. destruct (corresponding_ok a b o ltac:(lia)) as [_ Hc].
  pose proof (count_le I PI WI HID) as HleI. pose proof (prod_num I PI WI) as Hpn. pose proof (prod_num O PO WO) as HpO.
  fold hI in Hpn. fold hO in HpO. set (l := visit_ids in_sbp hI (corresponding (a, b) o)).
  assert (Hl : ∀ id, id ∈ l → 0 ≤ id < prodZ hI) by (intros id Hid; by apply (visit_ids_elem _ _ _ VI) in Hid as [? _]).
  set (X := λ s, meet (view_at hO out_sbp shape o) (view_at hI in_sbp shape s)).
  apply (traverse_ok in_sbp hI shape VI); [apply (wf_shape _ _ WI)|lia|done|]. fold l.
  rewrite (place_fold (length PD) X (pos_of PI)); [|intros V id HV Hid|by rewrite length_replicate].
  - rewrite (fill_map I PI l X WI HID) by (rewrite <- Hpn; done). f_equal. apply map_ext. intros x. unfold filled, transfer.
    rewrite (proj2 (id_in_spec O PO (a, b) o WO)) by (split; [lia|done]). fold l.
    destruct (id_in I x) as [s|]; [|done]. case_bool_decide; [|done]. apply norm_meet.
  - specialize (Hl id Hid). unfold add_to_recv_intersections. rewrite Hat by done. cbn [obind].
    rewrite meet_ok by (done || by rewrite HpO). cbn [obind]. fold (X id). unfold place.
    destruct (IsEmpty (X id)); [done|]. apply (put_mapped I PI); (done || lia).
Qed.

(** One consumer, seen from the producer with id [s]. *)
Lemma send_visits (out_slices : list TensorSliceView) (s o : Z) (l : list Z) (V : list TensorSliceView) :
  at_ out_slices o = Ret (view_at hO out_sbp shape o) → 0 ≤ s < prodZ hI → 0 ≤ o < parallel_num_ O → length V = length PD →
  let X o := meet (view_at hO out_sbp shape o) (view_at hI in_sbp shape s) in
  ofold (add_to_send_intersections D O out_slices (view_at hI in_sbp shape s) s o) l V =
  Ret (if bool_decide (s ∈ l) then place X (pos_of PO) V o else V).
Proof.
  intros Hat Hs Ho HV X. pose proof (prod_num O PO WO) as HpO. fold hO in HpO. revert V HV.
  induction l as [|i l IH]; intros V HV; [done|]. cbn [ofold]. unfold add_to_send_intersections at 1.
  destruct (Z.eqb_spec i s) as [->|Hne]; cbn [negb].
  - rewrite Hat. cbn [obind]. rewrite meet_ok by (done || lia). cbn [obind]. fold (X o).
    assert (E : (if IsEmpty (X o) then Ret V else let* merged_id := GetMappedParallelId o O D in put_at V merged_id (X o)) =
      Ret (place X (pos_of PO) V o)).
    { unfold place. destruct (IsEmpty (X o)); [done|]. by apply (put_mapped O PO). }
    rewrite E. cbn [obind]. rewrite IH by (by rewrite place_length). rewrite (bool_decide_eq_true_2 (s ∈ s :: l)) by left.
    case_bool_decide; [|done]. by rewrite place_idem.
  - cbn [obind]. rewrite IH by done. f_equal. destruct (bool_decide_reflect (s ∈ l)) as [Hl|Hl].
    + by rewrite bool_decide_eq_true_2 by (by right).
    + rewrite bool_decide_eq_false_2; [done|]. rewrite elem_of_cons. intros [->|]; done.
Qed.

(** The sending half. *)
Lemma send_ok (s : Z) (a b : Z) (out_slices : list TensorSliceView) : PI !! Z.to_nat s = Some (a, b) → 0 ≤ s < parallel_num_ I →
  (∀ id, 0 ≤ id < prodZ hO → at_ out_slices id = Ret (view_at hO out_sbp shape id)) →
  ofold (send_to D I O in_sbp out_slices (view_at hI in_sbp shape s) s) (range_list 0 (parallel_num_ O))
    (replicate (length PD) empty_view) = Ret (map (transfer (a, b)) PD).
Proof.
  intros Hab Hs Hat. pose proof (count_le I PI WI HID) as HleI. pose proof (count_le O PO WO HOD) as HleO.
  pose proof (prod_num I PI WI) as HpI. pose proof (prod_num O PO WO) as HpO. fold hI in HpI. fold hO in HpO.
  set (c := λ o, corresponding (default (0, 0) (PO !! Z.to_nat o)) o).
  set (X := λ o, if bool_decide (s ∈ visit_ids in_sbp hI (c o))
                 then meet (view_at hO out_sbp shape o) (view_at hI in_sbp shape s) else empty_view).
  rewrite (place_fold (length PD) X (pos_of PO)); [|intros V o HV Hid|by rewrite length_replicate].
  - rewrite (fill_map O PO _ X WO HOD) by (intros id Hid; by apply range_list_elem in Hid). f_equal. apply map_ext. intros cd.
    unfold filled, transfer. rewrite (proj2 (id_in_spec I PI (a, b) s WI)) by (split; [lia|done]).
    destruct (id_in O cd) as [o|] eqn:Eo; [|done]. apply (id_in_spec O PO) in Eo as [Ho Ep]; [|done].
    pose proof (lookup_lt_Some _ _ _ Ep) as Hlt. rewrite bool_decide_eq_true_2.
    + unfold X, c. rewrite Ep. cbn [default from_option id]. case_bool_decide; [apply norm_meet|done].
    + apply range_list_elem. rewrite (wf_num _ _ WO). lia.
  - apply range_list_elem in Hid. destruct (ids_bound O PO WO o Hid) as (a' & b' & Hp).
    destruct (ids_at O PO WO ltac:(lia) o a' b' ltac:(lia) Hp) as (E1 & E2 & _). destruct (corresponding_ok a' b' o ltac:(lia)) as [E3 Hc].
    unfold send_to. rewrite E1, E2. cbn [CHECK_JUST obind]. rewrite E3. cbn [obind].
    apply (traverse_ok in_sbp hI shape VI); [apply (wf_shape _ _ WI)|lia|done|].
    rewrite send_visits by (done || lia || (apply Hat; lia)). f_equal. unfold place, X, c. rewrite Hp. cbn [default from_option id].
    by case_bool_decide.
Qed.

(** Both halves, in closed form. *)
Lemma exchange_ok (r a b : Z) : 0 ≤ r < parallel_num_ D → PD !! Z.to_nat r = Some (a, b) →
  GetRankSendRecvIntersection D I O in_sbp r out_sbp (Shape_of shape) [] [] =
  Ret (if Placement.Containing I a b then map (transfer (a, b)) PD else [],
       if Placement.Containing O a b then map (λ x, transfer x (a, b)) PD else []).
Proof.
  intros Hr Hp. pose proof (count_le I PI WI HID) as HleI. pose proof (count_le O PO WO HOD) as HleO.
  pose proof (prod_num I PI WI) as HpI. pose proof (prod_num O PO WO) as HpO. fold hI in HpI. fold hO in HpO.
  destruct (ids_at D PD WD ltac:(lia) r a b ltac:(lia) Hp) as (E1 & E2 & _).
  destruct (views_lookup hI in_sbp shape VI) as (vi & Evi & Hvi). destruct (views_lookup hO out_sbp shape VO) as (vo & Evo & Hvo).
  unfold GetRankSendRecvIntersection, CHECK. destruct (Z.ltb_spec r (parallel_num_ D)); [|lia]. cbn [obind].
  rewrite (wf_shape _ _ WI), (wf_shape _ _ WO). fold hI hO. rewrite Evi, Evo. cbn [obind]. rewrite E1, E2. cbn [CHECK_JUST obind].
  assert (Hrecv : (if Placement.Containing O a b then
      let* out_id := CHECK_JUST (ParallelId4MachineDeviceId O a b) in
      let* cur_rank_out_slice := at_ vo out_id in
      let* c := corresponding_in_id I a b out_id in
      traverse I in_sbp c (add_to_recv_intersections D I vi cur_rank_out_slice) (resize [] (parallel_num_ D))
    else Ret []) = Ret (if Placement.Containing O a b then map (λ x, transfer x (a, b)) PD else [])).
  { destruct (Placement.Containing O a b) eqn:Ec; [|done]. destruct (ids_of O PO WO a b Ec) as (o & Ho & Hpo).
    destruct (ids_at O PO WO ltac:(lia) o a b ltac:(lia) Hpo) as (_ & _ & E3 & _). rewrite E3. cbn [CHECK_JUST obind].
    rewrite Hvo by lia. cbn [obind]. rewrite (proj1 (corresponding_ok a b o ltac:(lia))). cbn [obind].
    rewrite resize_nil. by apply recv_ok. }
  rewrite Hrecv. cbn [obind]. destruct (Placement.Containing I a b) eqn:Ec; [|done].
  destruct (ids_of I PI WI a b Ec) as (s & Hs & Hps). destruct (ids_at I PI WI ltac:(lia) s a b ltac:(lia) Hps) as (_ & _ & E3 & _).
  rewrite E3. cbn [CHECK_JUST obind]. rewrite Hvi by lia. cbn [obind]. rewrite resize_nil, (send_ok s a b) by done. done.
Qed.

(** What reaches a consumer. *)
Lemma transfer_points (x cd : Z * Z) (o : Z) (p : list Z) : PO !! Z.to_nat o = Some cd → 0 ≤ o < parallel_num_ O → p ≠ [] →
  in_view p (transfer x cd) ↔ ∃ s, id_in I x = Some s ∧
    same_broadcast in_sbp (coords hI (corresponding cd o)) (coords hI s) ∧
    in_view p (view_at hO out_sbp shape o) ∧ in_view p (view_at hI in_sbp shape s).
Proof.
  intros Hcd Ho Hp. pose proof (prod_num I PI WI) as HpI. pose proof (prod_num O PO WO) as HpO. fold hI in HpI. fold hO in HpO.
  destruct cd as [a b]. destruct (corresponding_ok a b o ltac:(lia)) as [_ Hc].
  assert (Hempty : ¬ in_view p empty_view) by (unfold in_view; cbn; intros ->%Forall2_nil_inv_r; done).
  unfold transfer. rewrite (proj2 (id_in_spec O PO (a, b) o WO)) by (split; [lia|done]).
  destruct (id_in I x) as [s|] eqn:Ex; [|split; [done|by intros (? & ? & _)]].
  assert (Hs : 0 ≤ s < prodZ hI).
  { apply (id_in_spec I PI) in Ex as [Hs0 Es]; [|done]. apply lookup_lt_Some in Es. rewrite HpI, (wf_num _ _ WI). lia. }
  pose proof (visit_ids_elem in_sbp hI shape VI _ s Hc) as Hv.
  destruct (view_at_proper hO out_sbp shape o VO Hshape ltac:(lia)) as [Po No].
  destruct (view_at_proper hI in_sbp shape s VI Hshape Hs) as [Ps Ns].
  destruct (Intersect_points _ _ Po Ps) as (m & Em & H1 & H2); [congruence|].
  assert (Emeet : meet (view_at hO out_sbp shape o) (view_at hI in_sbp shape s) = m) by (unfold meet; by rewrite Em).
  case_bool_decide as Hin.
  - rewrite Emeet. apply Hv in Hin as [_ Hb]. destruct (IsEmpty m) eqn:Ee.
    + split; [|intros (s' & [= <-] & _ & Hi1 & Hi2); by destruct (proj1 H1 eq_refl p)].
      intros Hm. rewrite <- Emeet, meet_empty in Hm by (by rewrite Emeet). done.
    + destruct (H2 eq_refl) as [_ Hpts]. rewrite Hpts. split; [by exists s|]. by intros (s' & [= <-] & _ & Hi1 & Hi2).
  - split; [done|]. intros (s' & [= <-] & Hb & _). destruct Hin. by apply Hv.
Qed.

Lemma same_unsplit_broadcast (sbps : list SbpParallel) (c ks ks' : list Z) :
  same_broadcast sbps c ks → same_unsplit sbps ks ks' → same_broadcast sbps c ks'.
Proof.
  intros H1. revert ks'. induction H1 as [|s o k sbps c ks Hs _ IH]; intros ks' H2; inversion H2; subst; constructor.
  - intros Hb. rewrite <- Hs by done. symmetry. match goal with H : _ → _ = _ |- _ => apply H end. by destruct s.
  - by apply IH.
Qed.

Lemma same_broadcast_refl (sbps : list SbpParallel) (c : list Z) : length sbps = length c → same_broadcast sbps c c.
Proof. revert c. induction sbps as [|s sbps IH]; intros [|k c] Hl; try done; constructor; [done|]. apply IH. by injection Hl. Qed.

(** Without partial sums the axes that are not split are broadcast. *)
Definition split_or_broadcast (sbps : list SbpParallel) : Prop :=
  Forall (λ s, has_split_parallel s = true ∨ has_broadcast_parallel s = true) sbps.

Lemma same_broadcast_unsplit (sbps : list SbpParallel) (c ks : list Z) :
  split_or_broadcast sbps → same_broadcast sbps c ks → same_unsplit sbps c ks.
Proof.
  intros HF H. induction H as [|s o k sbps c ks Hs _ IH]; [constructor|].
  apply Forall_cons in HF as [H1 HF]. constructor; [|by apply IH]. intros Hn. symmetry. apply Hs.
  destruct H1; [congruence|done].
Qed.

(** An element of the consumer's box has one producer for every choice of coordinates
    that the consumer may read from. *)
Lemma producer_unique (ks p : list Z) : index_in p shape → index_in ks hI →
  ∃ ks', index_in ks' hI ∧ same_unsplit in_sbp ks ks' ∧ in_box p (slice_at hI in_sbp shape ks') ∧
  ∀ ks'', index_in ks'' hI → same_unsplit in_sbp ks ks'' → in_box p (slice_at hI in_sbp shape ks'') → ks'' = ks'.
Proof.
  intros Hp Hk. pose proof (whole_enough _ _ _ VI) as He. pose proof (valid_len _ _ _ VI) as Hl.
  assert (Hax : valid_axes (length (whole shape)) in_sbp) by (rewrite whole_length; apply (valid_axis _ _ _ VI)).
  apply in_whole in Hp. destruct (split_ranges_find in_sbp hI ks (whole shape) p Hk Hl Hax He Hp) as (ks' & Hk' & Hu & Hin).
  exists ks'. split_and!; [done|done|done|]. intros ks'' Hk'' Hu'' Hin''. symmetry.
  eapply same_split_unsplit; [exact Hu|exact Hu''|]. by eapply (split_ranges_unique _ hI).
Qed.
Section Received.
Context (a b o : Z) (p : list Z) (Hab : PO !! Z.to_nat o = Some (a, b)) (Ho : 0 ≤ o < parallel_num_ O) (Hp : index_in p shape)
  (Hout : in_view p (view_at hO out_sbp shape o)).
Let recv := map (λ x, transfer x (a, b)) PD.
Let c := coords hI (corresponding (a, b) o).

Definition received (r : Z) : Prop := ∃ v, recv !! Z.to_nat r = Some v ∧ in_view p v.

(** The ids of the producers that send the element. *)
Lemma received_iff (r : Z) : 0 ≤ r → received r ↔
  ∃ ks, index_in ks hI ∧ pos_of PI (offset_of ks hI) = r ∧ same_broadcast in_sbp c ks ∧ in_box p (slice_at hI in_sbp shape ks).
Proof.
  intros Hr. pose proof (prod_num I PI WI) as HpI. fold hI in HpI.
  assert (Hne : p ≠ []) by (intros ->; apply Forall2_nil_inv_l in Hp; done). unfold received, recv. split.
  - intros (v & Hv & Hin). rewrite list_lookup_fmap in Hv. apply fmap_Some in Hv as (x & Hx & ->).
    apply (transfer_points x (a, b) o p Hab Ho Hne) in Hin as (s & Es & Hb & _ & Hin).
    apply (id_in_spec I PI) in Es as [Hs Es]; [|done].
    assert (Hs' : 0 ≤ s < prodZ hI) by (pose proof (lookup_lt_Some _ _ _ Es); rewrite HpI, (wf_num _ _ WI); lia).
    destruct (coords_spec hI s (valid_pos _ _ _ VI) Hs') as [Hk Eo]. exists (coords hI s). rewrite Eo. split_and!; try done.
    destruct (mapped_id I PI s WI HID ltac:(lia)) as (_ & Hpos & Ep). rewrite Es in Ep.
    pose proof (NoDup_lookup _ _ _ _ (wf_nodup _ _ WD) Ep Hx). lia.
  - intros (ks & Hk & <- & Hb & Hin). pose proof (offset_of_range _ _ Hk) as Hs.
    destruct (mapped_id I PI (offset_of ks hI) WI HID ltac:(lia)) as (_ & Hpos & Ep).
    destruct (ids_bound I PI WI (offset_of ks hI) ltac:(lia)) as (x & y & Hxy). rewrite Hxy in Ep.
    exists (transfer (x, y) (a, b)). rewrite list_lookup_fmap, Ep. split; [done|].
    apply (transfer_points (x, y) (a, b) o p Hab Ho Hne). exists (offset_of ks hI).
    split; [apply (id_in_spec I PI); [done|]; split; [lia|done]|]. rewrite coords_offset by done. split_and!; [done|done|].
    unfold view_at, in_view. rewrite coords_offset by done. done.
Qed.

Lemma sender_iff (ks : list Z) : index_in ks hI →
  (∃ r, GetMappedParallelId (offset_of ks hI) I D = Ret r ∧ received r) ↔
  same_broadcast in_sbp c ks ∧ in_box p (slice_at hI in_sbp shape ks).
Proof.
  intros Hk. pose proof (prod_num I PI WI) as HpI. fold hI in HpI. pose proof (offset_of_range _ _ Hk) as Hs.
  destruct (mapped_id I PI (offset_of ks hI) WI HID ltac:(lia)) as (Em & Hpos & _). rewrite Em. split.
  - intros (r & [= <-] & Hrec). apply received_iff in Hrec as (ks' & Hk' & Epos & Hb & Hin); [|done].
    pose proof (offset_of_range _ _ Hk'). apply (pos_of_inj I PI) in Epos; [|done|done|lia|lia].
    assert (ks' = ks) as -> by (by rewrite <- (coords_offset hI ks' Hk'), Epos, coords_offset). done.
  - intros [Hb Hin]. eexists. split; [done|]. apply received_iff; [done|]. by exists ks.
Qed.

(** One sender per choice of the coordinates that matter. *)
Lemma sender_unique (ks : list Z) : index_in ks hI → same_broadcast in_sbp c ks →
  let sends ks := ∃ r, GetMappedParallelId (offset_of ks hI) I D = Ret r ∧ received r in
  ∃ ks', (index_in ks' hI ∧ same_unsplit in_sbp ks ks' ∧ sends ks') ∧
  ∀ ks'', index_in ks'' hI → same_unsplit in_sbp ks ks'' → sends ks'' → ks'' = ks'.
Proof.
  intros Hk Hb sends. destruct (producer_unique ks p Hp Hk) as (ks' & Hk' & Hu & Hin & Huniq). exists ks'. split.
  - split_and!; [done|done|]. apply sender_iff; [done|]. split; [by eapply same_unsplit_broadcast|done].
  - intros ks'' Hk'' Hu'' Hs. apply sender_iff in Hs as [_ Hin'']; [|done]. by apply Huniq.
Qed.

Lemma coords_corresponding : index_in c hI.
Proof. destruct (corresponding_ok a b o ltac:(lia)) as [_ Hc]. by apply coords_spec; [apply (valid_pos _ _ _ VI)|]. Qed.

Lemma rank_unique : split_or_broadcast in_sbp → ∃ r, (0 ≤ r ∧ received r) ∧ ∀ r', 0 ≤ r' → received r' → r' = r.
Proof.
  intros Hsb. pose proof coords_corresponding as Hc. pose proof (prod_num I PI WI) as HpI. fold hI in HpI.
  destruct (producer_unique c p Hp Hc) as (ks & Hk & Hu & Hin & Huniq). pose proof (offset_of_range _ _ Hk).
  destruct (mapped_id I PI (offset_of ks hI) WI HID ltac:(lia)) as (_ & Hpos & _).
  assert (Hcc : same_broadcast in_sbp c c).
  { apply same_broadcast_refl. rewrite (valid_len _ _ _ VI). by apply Forall2_length in Hc. }
  exists (pos_of PI (offset_of ks hI)). split.
  - split; [done|]. apply received_iff; [done|]. exists ks. split_and!; try done. by eapply same_unsplit_broadcast.
  - intros r' Hr' Hrec. apply received_iff in Hrec as (ks' & Hk' & <- & Hb' & Hin'); [|done].
    rewrite (Huniq ks'); [done|done|by apply same_broadcast_unsplit|done].
Qed.
End Received.
End Exchange.

(** ** The exchange *)

(** A description that a configuration was parsed into. *)
Definition built (d : ParallelDesc) : Prop :=
  ∃ registry Rank per_node conf, MaybeInit registry Rank per_node conf = Ret d.

(** A merged placement with the devices of both sides, and signatures that fit. *)
Record exchange_valid (D I O : ParallelDesc) (in_sbp out_sbp : list SbpParallel) (shape : list Z) : Prop := mkExchange {
  ex_built : built D ∧ built I ∧ built O;
  ex_in : ∀ a b, Placement.Containing I a b = true → Placement.Containing D a b = true;
  ex_out : ∀ a b, Placement.Containing O a b = true → Placement.Containing D a b = true;
  ex_small : parallel_num_ D < 2 ^ 31;
  ex_in_sbp : sbp_valid (dim_vec (hierarchy_ I)) in_sbp shape;
  ex_out_sbp : sbp_valid (dim_vec (hierarchy_ O)) out_sbp shape;
  ex_shape : shape ≠ []
}.

Lemma exchange_wf (D I O : ParallelDesc) (in_sbp out_sbp : list SbpParallel) (shape : list Z) :
  exchange_valid D I O in_sbp out_sbp shape →
  ∃ PD PI PO, placement_wf D PD ∧ placement_wf I PI ∧ placement_wf O PO ∧
    (∀ ab, ab ∈ PI → ab ∈ PD) ∧ (∀ ab, ab ∈ PO → ab ∈ PD).
Proof.
  intros [(BD & BI & BO) HI HO _ _ _ _]. destruct BD as (? & ? & ? & ? & BD), BI as (? & ? & ? & ? & BI), BO as (? & ? & ? & ? & BO).
  apply MaybeInit_wf in BD as [PD WD], BI as [PI WI], BO as [PO WO]. exists PD, PI, PO. split_and!; try done.
  - intros [a b] Hab. apply (wf_containing _ _ WD), HI. by apply (wf_containing _ _ WI).
  - intros [a b] Hab. apply (wf_containing _ _ WD), HO. by apply (wf_containing _ _ WO).
Qed.

(** C17 Sender and receiver agree: every process of the merged placement computes its
    vectors alone and without aborting, and for all processes [r] and [t] the box that
    [r] sends to [t] is the box that [t] expects from [r] (an entry that a vector does
    not have counts as the empty box), so no process waits for a message that nobody
    sends. *)
Theorem send_recv_agree (D I O : ParallelDesc) (in_sbp out_sbp : list SbpParallel) (shape : list Z) (r t : Z) :
  exchange_valid D I O in_sbp out_sbp shape → 0 ≤ r < parallel_num_ D → 0 ≤ t < parallel_num_ D →
  ∃ send_r recv_r send_t recv_t,
    GetRankSendRecvIntersection D I O in_sbp r out_sbp (Shape_of shape) [] [] = Ret (send_r, recv_r) ∧
    GetRankSendRecvIntersection D I O in_sbp t out_sbp (Shape_of shape) [] [] = Ret (send_t, recv_t) ∧
    default empty_view (send_r !! Z.to_nat t) = default empty_view (recv_t !! Z.to_nat r).
Proof.
  intros HE Hr Ht. destruct (exchange_wf _ _ _ _ _ _ HE) as (PD & PI & PO & WD & WI & WO & HID & HOD).
  destruct HE as [_ _ _ SD VI VO Hs]. destruct (ids_bound D PD WD r Hr) as (a & b & Hab), (ids_bound D PD WD t Ht) as (c & d & Hcd).
  do 4 eexists. split_and!; [by eapply exchange_ok|by eapply exchange_ok|].
  assert (Hno_in : Placement.Containing I a b = false → transfer I O in_sbp out_sbp shape (a, b) (c, d) = empty_view).
  { intros E. unfold transfer. rewrite (proj2 (id_in_none I PI (a, b) WI)); [done|]. rewrite <- (wf_containing _ _ WI). by rewrite E. }
  assert (Hno_out : Placement.Containing O c d = false → transfer I O in_sbp out_sbp shape (a, b) (c, d) = empty_view).
  { intros E. unfold transfer. rewrite (proj2 (id_in_none O PO (c, d) WO)); [by destruct (id_in I (a, b))|].
    rewrite <- (wf_containing _ _ WO). by rewrite E. }
  destruct (Placement.Containing I a b) eqn:EI, (Placement.Containing O c d) eqn:EO;
    rewrite ?list_lookup_fmap, ?Hab, ?Hcd; cbn; auto. symmetry. auto.
Qed.

(** C16 A consumer gets every element of its box, and from where it may: the received boxes
    hold only elements that the sender's own box has; for every element of the
    consumer's box and every choice of producer coordinates that agrees with the
    consumer's on the producer's broadcast axes, exactly one producer with those
    coordinates on the axes that are not split sends the element, so a partial sum gets
    each of its terms once; and when the producer's signature has only splits and
    broadcasts, exactly one process sends it. *)
Theorem reshard_complete (D I O : ParallelDesc) (in_sbp out_sbp : list SbpParallel) (shape : list Z) (t a b : Z) :
  exchange_valid D I O in_sbp out_sbp shape → 0 ≤ t < parallel_num_ D →
  MachineId4ParallelId D t = Ret a → DeviceId4ParallelId D t = Ret b → Placement.Containing O a b = true →
  let hI := dim_vec (hierarchy_ I) in
  ∃ send recv o out_view c,
    GetRankSendRecvIntersection D I O in_sbp t out_sbp (Shape_of shape) [] [] = Ret (send, recv) ∧
    ParallelId4MachineDeviceId O a b = Ret o ∧
    GetTensorSliceView4ParallelId (hierarchy_ O) out_sbp (Shape_of shape) o = Ret out_view ∧
    index_in c hI ∧
    ∀ p, in_view p out_view →
      let received r := ∃ v, recv !! Z.to_nat r = Some v ∧ in_view p v in
      let sends ks := ∃ r, GetMappedParallelId (offset_of ks hI) I D = Ret r ∧ received r in
      (∀ r, 0 ≤ r → received r → ∃ s in_view_s, GetMappedParallelId s I D = Ret r ∧
         GetTensorSliceView4ParallelId (hierarchy_ I) in_sbp (Shape_of shape) s = Ret in_view_s ∧ in_view p in_view_s) ∧
      (∀ ks, index_in ks hI → same_broadcast in_sbp c ks →
         ∃ ks', (index_in ks' hI ∧ same_unsplit in_sbp ks ks' ∧ sends ks') ∧
         ∀ ks'', index_in ks'' hI → same_unsplit in_sbp ks ks'' → sends ks'' → ks'' = ks') ∧
      (split_or_broadcast in_sbp → ∃ r, (0 ≤ r ∧ received r) ∧ ∀ r', 0 ≤ r' → received r' → r' = r).
Proof.
  intros HE Ht Ea Eb Hc hI. destruct (exchange_wf _ _ _ _ _ _ HE) as (PD & PI & PO & WD & WI & WO & HID & HOD).
  destruct HE as [_ _ _ SD VI VO Hs]. destruct (ids_bound D PD WD t Ht) as (a' & b' & Hab).
  destruct (ids_at D PD WD ltac:(lia) t a' b' ltac:(lia) Hab) as (Ea' & Eb' & _). rewrite Ea' in Ea. rewrite Eb' in Eb. simplify_eq.
  destruct (ids_of O PO WO a b Hc) as (o & Ho & Hpo).
  pose proof (count_le D PD WD O PO WO HOD) as HleO.
  destruct (ids_at O PO WO ltac:(lia) o a b ltac:(lia) Hpo) as (_ & _ & Eo & _).
  pose proof (prod_num O PO WO) as HpO.
  assert (Eview : GetTensorSliceView4ParallelId (hierarchy_ O) out_sbp (Shape_of shape) o =
    Ret (view_at (dim_vec (hierarchy_ O)) out_sbp shape o)).
  { destruct (coords_spec _ o (valid_pos _ _ _ VO) ltac:(lia)) as [Hk Ek]. rewrite (wf_shape _ _ WO). cbn [dim_vec Shape_of].
    rewrite <- Ek at 1. by apply GetTensorSliceView4ParallelId_ok. }
  assert (EX := exchange_ok D I O PD PI PO in_sbp out_sbp shape WD WI WO HID HOD SD VI VO Hs t a b Ht Hab). rewrite Hc in EX.
  exists (if Placement.Containing I a b then map (transfer I O in_sbp out_sbp shape (a, b)) PD else []).
  exists (map (λ x, transfer I O in_sbp out_sbp shape x (a, b)) PD), o, (view_at (dim_vec (hierarchy_ O)) out_sbp shape o),
    (coords hI (corresponding I (a, b) o)).
  split_and!; [exact EX|exact Eo|exact Eview|by apply (coords_corresponding D I O PD PI in_sbp shape)|].
  intros p Hout rec sends. assert (Hp : index_in p shape).
  { apply in_whole. eapply split_ranges_sub; [|by apply whole_enough|exact Hout]. apply coords_spec; [apply (valid_pos _ _ _ VO)|lia]. }
  split_and!.
  - intros r Hr Hrec. apply (received_iff D I O PD PI PO in_sbp out_sbp shape WD WI WO HID SD VI VO Hs a b o p Hpo Ho Hp Hout r Hr)
      in Hrec as (ks & Hk & Epos & _ & Hin).
    assert (Hr' : 0 ≤ offset_of ks hI < parallel_num_ I) by (rewrite <- (prod_num I PI WI); by apply offset_of_range).
    destruct (mapped_id D PD WD SD I PI (offset_of ks hI) WI HID Hr') as (Em & _ & _). fold hI in Epos. rewrite Epos in Em.
    exists (offset_of ks hI), (view_of_ranges (slice_at hI in_sbp shape ks)). split_and!; [done| |done].
    rewrite (wf_shape _ _ WI). by apply GetTensorSliceView4ParallelId_ok.
  - intros ks Hk Hb. by apply (sender_unique D I O PD PI PO in_sbp out_sbp shape WD WI WO HID SD VI VO Hs a b o p).
  - intros Hsb. by apply (rank_unique D I O PD PI PO in_sbp out_sbp shape WD WI WO HID SD VI VO Hs a b o p).
Qed.

(** Four devices: a 2 x 2 grid that splits the rows and broadcasts, to a line that splits the columns. *)
Definition the_desc (m : outcome ParallelDesc) : ParallelDesc :=
  match m with Ret d => d | _ => mkDesc 0 (mkConf [] [] None) (mkShape [] false) [] ∅ 0 0 [] [] ∅ false end.
Definition demo_grid : ParallelDesc := the_desc (MaybeInit demo_registry 0 2 (mkConf (chars "cpu") [chars "0:0-3"] (Some [2; 2]))).
Definition demo_line : ParallelDesc := the_desc (MaybeInit demo_registry 0 2 (mkConf (chars "cpu") [chars "0:0-3"] None)).

Lemma demo_built : built demo_line ∧ built demo_grid.
Proof.
  split; exists demo_registry, 0, 2; [exists (mkConf (chars "cpu") [chars "0:0-3"] None)|
    exists (mkConf (chars "cpu") [chars "0:0-3"] (Some [2; 2]))]; vm_compute; reflexivity.
Qed.

Lemma demo_devices : machine_id2sorted_dev_phy_ids_ demo_grid = machine_id2sorted_dev_phy_ids_ demo_line.
Proof. vm_compute. reflexivity. Qed.

Lemma demo_shapes : dim_vec (hierarchy_ demo_grid) = [2; 2] ∧ dim_vec (hierarchy_ demo_line) = [4] ∧ parallel_num_ demo_line < 2 ^ 31.
Proof. split_and!; vm_compute; reflexivity. Qed.

Lemma demo_exchange : exchange_valid demo_line demo_grid demo_line [split_parallel 0; broadcast_parallel] [split_parallel 1] [4; 8].
Proof.
  destruct demo_built as [BL BG]. destruct demo_shapes as (EG & EL & HL).
  constructor; [exact (conj BL (conj BG BL))| |exact (λ a b H, H)|exact HL| | |discriminate].
  - intros a b. unfold Placement.Containing. rewrite demo_devices. exact (λ H, H).
  - rewrite EG. clear. split; [vm_compute; lia|repeat constructor|done|repeat constructor; lia|].
    intros [|[|]] d Hd; simplify_eq/=; vm_compute; discriminate.
  - rewrite EL. clear. split; [vm_compute; lia|repeat constructor|done|repeat constructor; lia|].
    intros [|[|]] d Hd; simplify_eq/=; vm_compute; discriminate.
Qed.

Lemma send_recv_agree_witness : ∃ send_r recv_r send_t recv_t,
  GetRankSendRecvIntersection demo_line demo_grid demo_line [split_parallel 0; broadcast_parallel] 1 [split_parallel 1]
    (Shape_of [4; 8]) [] [] = Ret (send_r, recv_r) ∧
  GetRankSendRecvIntersection demo_line demo_grid demo_line [split_parallel 0; broadcast_parallel] 3 [split_parallel 1]
    (Shape_of [4; 8]) [] [] = Ret (send_t, recv_t) ∧
  default empty_view (send_r !! 3%nat) = default empty_view (recv_t !! 1%nat).
Proof.
  apply (send_recv_agree demo_line demo_grid demo_line [split_parallel 0; broadcast_parallel] [split_parallel 1] [4; 8] 1 3);
    [exact demo_exchange|vm_compute; split; [discriminate|reflexivity]..].
Defined.

Lemma reshard_complete_witness : ∃ send recv,
  GetRankSendRecvIntersection demo_line demo_grid demo_line [split_parallel 0; broadcast_parallel] 1 [split_parallel 1]
    (Shape_of [4; 8]) [] [] = Ret (send, recv) ∧
  ∃ r, 0 ≤ r ∧ ∃ v, recv !! Z.to_nat r = Some v ∧ in_view [3; 2] v.
Proof.
  destruct (reshard_complete demo_line demo_grid demo_line [split_parallel 0; broadcast_parallel] [split_parallel 1] [4; 8] 1 0 2)
    as (send & recv & o & w & c & E & Eo & Ew & _ & H).
  - exact demo_exchange.
  - vm_compute. split; [discriminate|reflexivity].
  - vm_compute. reflexivity.
  - vm_compute. reflexivity.
  - vm_compute. reflexivity.
  - exists send, recv. split; [exact E|].
    assert (Hw : in_view [3; 2] w).
    { vm_compute in Eo. injection Eo as <-. vm_compute in Ew. injection Ew as <-. repeat constructor; cbn; lia. }
    destruct (H [3; 2] Hw) as (_ & _ & Hu). destruct Hu as (r & [Hr Hrec] & _).
    + apply Forall_cons. split; [left; reflexivity|]. apply Forall_singleton. right. reflexivity.
    + exists r. split; [exact Hr|exact Hrec].
Defined.
