(* ===== verification/BinarySet.v ===== *)
(** * Sets of small integers as bit vectors

    Models [oneflow/core/auto_parallel/binary_set.cpp] and [binary_set.h]: every
    operation of [BinarySet].  A set over [0 .. size_of_set) is a vector of 32-bit
    words.  Reading or writing a vector out of range with [operator[]], shifting by
    a negative amount and dereferencing a failed [find] are undefined in C++ and
    [Crash] here.  The abstraction of a set is the finite set of the indices whose
    bit is set; the theorems show that the operations are those of finite sets and
    that the bit tricks of [Total] and [QuickOutput] agree with the plain loop of
    [Output]. *)
From S2P Require Import Prelude.

(** ** The code *)

Record BinarySet : Type := {
  binary_set_values_ : list Z;
  size_of_set_ : Z;
}.

Definition bit_entry_type_ : Z := 32.

(** [InitLog2]: the table from powers of two to their exponents; [1 << i] is an
    [int] converted to [unsigned int]. *)
Definition InitLog2 : gmap Z Z :=
  foldl (λ log_2 i, <[u32 (Z.shiftl 1 i) := i]> log_2) ∅ (seqZ 0 (8 * 4)).

Definition log_2 : gmap Z Z := Eval vm_compute in InitLog2.

(** [v.resize(k, 0)]: a negative length is not a [size_t] any allocator grants. *)
Definition resize (k : Z) (l : list Z) : outcome (list Z) :=
  if k <? 0 then Crash
  else Ret (take (Z.to_nat k) l ++ replicate (Z.to_nat k - length l) 0).

Definition entries_of_size (size_of_set : Z) : Z :=
  Z.quot (size_of_set - 1) bit_entry_type_ + 1.

(** [BinarySet()] leaves the vector empty and the size at [-1]. *)
Definition default_BinarySet : BinarySet :=
  {| binary_set_values_ := []; size_of_set_ := -1 |}.

Definition new_BinarySet (size_of_set : Z) : outcome BinarySet :=
  let* v := resize (entries_of_size size_of_set) [] in
  Ret {| binary_set_values_ := v; size_of_set_ := size_of_set |}.

Definition Initialize (size_of_set : Z) (this : BinarySet) : outcome BinarySet :=
  let* v := resize (entries_of_size size_of_set) (binary_set_values_ this) in
  Ret {| binary_set_values_ := v; size_of_set_ := size_of_set |}.

Definition Clear (this : BinarySet) : BinarySet :=
  {| binary_set_values_ := replicate (length (binary_set_values_ this)) 0;
     size_of_set_ := size_of_set_ this |}.

(** [v[k]] and [v[k] = x] on a vector. *)
Definition entry (this : BinarySet) (k : Z) : outcome Z := at_ (binary_set_values_ this) k.

Definition set_entry (this : BinarySet) (k x : Z) : outcome BinarySet :=
  let* _ := entry this k in
  Ret {| binary_set_values_ := <[Z.to_nat k := x]> (binary_set_values_ this);
         size_of_set_ := size_of_set_ this |}.

(** [1 << j], converted to [unsigned int] by the operator it is used with. *)
Definition one_bit (j : Z) : outcome Z :=
  if j <? 0 then Crash else Ret (u32 (Z.shiftl 1 j)).

Definition CheckExistence (this : BinarySet) (i : Z) : outcome bool :=
  let k := Z.quot i bit_entry_type_ in
  let j := Z.rem i bit_entry_type_ in
  let* v := entry this k in
  if j <? 0 then Crash else Ret (negb (Z.land (Z.shiftr v j) 1 =? 0)).

Definition AddEntry (i : Z) (this : BinarySet) : outcome BinarySet :=
  let k := Z.quot i bit_entry_type_ in
  let j := Z.rem i bit_entry_type_ in
  let* b := one_bit j in
  let* v := entry this k in
  set_entry this k (Z.lor v b).

Definition DeleteEntry (i : Z) (this : BinarySet) : outcome BinarySet :=
  let k := Z.quot i bit_entry_type_ in
  let j := Z.rem i bit_entry_type_ in
  let* b := one_bit j in
  let* v := entry this k in
  set_entry this k (Z.land v (u32 (Z.lnot b))).

(** The loops [for (k = 0; k < size; k++) u[k] = op(this[k], bs[k])]. *)
Definition combine_step (op : Z → Z → Z) (this bs u : BinarySet) (k : Z) : outcome BinarySet :=
  let* x := entry this k in
  let* y := entry bs k in
  set_entry u k (op x y).

Definition word_indices (this : BinarySet) : list Z :=
  seqZ 0 (Z.of_nat (length (binary_set_values_ this))).

Definition UnionTo (this bs u : BinarySet) : outcome BinarySet :=
  ofold (combine_step Z.lor this bs) (word_indices this) u.

Definition min_bs_size (this bs : BinarySet) : Z :=
  Z.min (Z.of_nat (length (binary_set_values_ this)))
        (Z.of_nat (length (binary_set_values_ bs))).

Fixpoint any_common (this bs : BinarySet) (ks : list Z) : outcome bool :=
  match ks with
  | [] => Ret false
  | k :: ks =>
      let* x := entry this k in
      let* y := entry bs k in
      if negb (Z.land x y =? 0) then Ret true else any_common this bs ks
  end.

Definition IfIntersect (this bs : BinarySet) : outcome bool :=
  any_common this bs (seqZ 0 (min_bs_size this bs)).

Definition IntersectionTo (this bs i : BinarySet) : outcome BinarySet :=
  let m := min_bs_size this bs in
  let* i :=
    (if Z.of_nat (length (binary_set_values_ i)) <? m then
       let* v := resize m (binary_set_values_ i) in
       Ret {| binary_set_values_ := v; size_of_set_ := size_of_set_ i |}
     else Ret i) in
  ofold (combine_step Z.land this bs) (word_indices this) i.

(** One folding line of [Total]: the operands are 64-bit, the result is stored
    into a 32-bit word. *)
Definition fold_bits (s mask bsv : Z) : Z :=
  u32 (Z.land bsv mask + Z.land (Z.shiftr bsv s) mask).

Definition count_bits (bsv : Z) : Z :=
  let bsv := fold_bits 1 0x5555555555555555 bsv in
  let bsv := fold_bits 2 0x3333333333333333 bsv in
  let bsv := fold_bits 4 0x0F0F0F0F0F0F0F0F bsv in
  let bsv := fold_bits 8 0x00FF00FF00FF00FF bsv in
  fold_bits 16 0x0000FFFF0000FFFF bsv.

Definition Total (this : BinarySet) : Z :=
  foldl (λ t bsv, t + count_bits bsv) 0 (binary_set_values_ this).

Definition Output (this : BinarySet) : outcome (list Z) :=
  ofold (λ out i, let* b := CheckExistence this i in
                  Ret (if b : bool then out ++ [i] else out))
        (seqZ 0 (size_of_set_ this)) [].

(** [while (x)]: one turn per bit of [x]. *)
Fixpoint quick_word (fuel : nat) (i x : Z) (out : list Z) : outcome (list Z) :=
  match fuel with
  | O => Crash
  | S fuel =>
      if x =? 0 then Ret out
      else
        let y := x in
        let x := Z.land x (u32 (x - 1)) in
        match log_2 !! u32 (y - x) with
        | Some l => quick_word fuel i x (out ++ [i * bit_entry_type_ + l])
        | None => Crash
        end
  end.

Definition QuickOutput (this : BinarySet) : outcome (list Z) :=
  ofold (λ out i, let* x := entry this i in quick_word 33 i x out) (word_indices this) [].

Definition AddEntries (ins : list Z) (this : BinarySet) : outcome BinarySet :=
  ofold (λ s i, AddEntry i s) ins this.

Fixpoint same_words (this rhs : BinarySet) (ks : list Z) : outcome bool :=
  match ks with
  | [] => Ret true
  | k :: ks =>
      let* x := entry this k in
      let* y := entry rhs k in
      if negb (x =? y) then Ret false else same_words this rhs ks
  end.

Definition BinarySet_eqb (this rhs : BinarySet) : outcome bool :=
  if negb (size_of_set_ this =? size_of_set_ rhs) then Ret false
  else same_words this rhs (word_indices this).

(** ** The abstraction *)

Definition mem (this : BinarySet) (i : Z) : bool :=
  match binary_set_values_ this !! Z.to_nat (i / 32) with
  | Some v => Z.testbit v (i mod 32)
  | None => false
  end.

(** The set as an ascending list, and as a finite set. *)
Definition members (this : BinarySet) : list Z :=
  filter (λ i, mem this i = true) (seqZ 0 (size_of_set_ this)).

Definition abs (this : BinarySet) : gset Z := list_to_set (members this).

Record wf (this : BinarySet) : Prop := {
  wf_size : 0 ≤ size_of_set_ this;
  wf_len : Z.of_nat (length (binary_set_values_ this)) = entries_of_size (size_of_set_ this);
  wf_u32 : Forall is_u32 (binary_set_values_ this);
  wf_out : ∀ i, size_of_set_ this ≤ i → mem this i = false;
}.

(** ** Words and entries *)

Lemma testbit_high (w v n : Z) : 0 ≤ v < 2 ^ w → w ≤ n → Z.testbit v n = false.
Proof.
  intros [H0 H1] Hn. destruct (decide (v = 0)) as [->|Hv]; [apply Z.bits_0|].
  apply Z.bits_above_log2; [done|].
  apply Z.lt_le_trans with w; [|done]. apply Z.log2_lt_pow2; lia.
Qed.

Lemma below_of_testbit (w v : Z) :
  0 ≤ w → 0 ≤ v → (∀ n, w ≤ n → Z.testbit v n = false) → 0 ≤ v < 2 ^ w.
Proof.
  intros Hw H0 H. split; [done|].
  destruct (decide (v = 0)) as [->|Hv]; [by apply Z.pow_pos_nonneg|].
  apply Z.log2_lt_pow2; [lia|]. destruct (Z.lt_ge_cases (Z.log2 v) w) as [|Hl]; [done|].
  specialize (H _ Hl). rewrite Z.bit_log2 in H; [done|lia].
Qed.

Lemma u32_testbit_high (v n : Z) : is_u32 v → 32 ≤ n → Z.testbit v n = false.
Proof. apply testbit_high. Qed.

Lemma u32_of_testbit (v : Z) : 0 ≤ v → (∀ n, 32 ≤ n → Z.testbit v n = false) → is_u32 v.
Proof. by apply below_of_testbit. Qed.

Lemma u32_lor (x y : Z) : is_u32 x → is_u32 y → is_u32 (Z.lor x y).
Proof.
  intros Hx Hy. apply u32_of_testbit; [apply Z.lor_nonneg; unfold is_u32 in *; lia|].
  intros n Hn. by rewrite Z.lor_spec, !u32_testbit_high.
Qed.

Lemma u32_land (x y : Z) : is_u32 x → is_u32 (Z.land x y).
Proof.
  intros Hx. apply u32_of_testbit; [apply Z.land_nonneg; unfold is_u32 in *; lia|].
  intros n Hn. by rewrite Z.land_spec, u32_testbit_high.
Qed.

Lemma u32_range (z : Z) : is_u32 (u32 z).
Proof. unfold u32, is_u32. apply Z.mod_pos_bound. done. Qed.

Lemma u32_testbit (z n : Z) : Z.testbit (u32 z) n = (n <? 32) && Z.testbit z n.
Proof. unfold u32. by apply Z.testbit_mod_pow2. Qed.

#[local] Hint Resolve u32_lor u32_land u32_range : oneflow.

Lemma one_bit_Ret (j : Z) : 0 ≤ j < 32 → one_bit j = Ret (2 ^ j).
Proof.
  intros Hj. unfold one_bit. destruct (Z.ltb_spec j 0); [lia|].
  rewrite Z.shiftl_1_l. unfold u32. rewrite Z.mod_small; [done|].
  split; [apply Z.pow_nonneg; lia|]. apply Z.pow_lt_mono_r; lia.
Qed.

Lemma testbit_lor_pow2 (v j n : Z) : 0 ≤ j → 0 ≤ n →
  Z.testbit (Z.lor v (2 ^ j)) n = (n =? j) || Z.testbit v n.
Proof.
  intros Hj Hn. rewrite Z.lor_spec, Z.pow2_bits_eqb by done.
  rewrite (Z.eqb_sym j n). apply orb_comm.
Qed.

Lemma testbit_land_not_pow2 (v j n : Z) : is_u32 v → 0 ≤ j → 0 ≤ n →
  Z.testbit (Z.land v (u32 (Z.lnot (2 ^ j)))) n = negb (n =? j) && Z.testbit v n.
Proof.
  intros Hv Hj Hn. rewrite Z.land_spec, u32_testbit, Z.lnot_spec, Z.pow2_bits_eqb by done.
  rewrite (Z.eqb_sym j n). destruct (Z.ltb_spec n 32).
  - simpl. apply andb_comm.
  - rewrite (u32_testbit_high v n) by done. by destruct (negb (n =? j)).
Qed.

(** Word and bit of an index. *)
Lemma index_split (i j : Z) :
  (i =? j) = (i / 32 =? j / 32) && (i mod 32 =? j mod 32).
Proof.
  apply eq_true_iff_eq. rewrite andb_true_iff, !Z.eqb_eq. split; [by intros ->|].
  intros [Hd Hm]. rewrite (Z.div_mod i 32), (Z.div_mod j 32) by lia. congruence.
Qed.

Lemma index_quot (i : Z) : 0 ≤ i → Z.quot i bit_entry_type_ = i / 32 ∧ Z.rem i bit_entry_type_ = i mod 32.
Proof. intros. split; [apply Z.quot_div_nonneg | apply Z.rem_mod_nonneg]; unfold bit_entry_type_; lia. Qed.

Lemma entries_bound (s i : Z) : 0 ≤ i < s → i / 32 < entries_of_size s.
Proof.
  intros Hi. unfold entries_of_size, bit_entry_type_.
  rewrite Z.quot_div_nonneg by lia.
  assert (i / 32 ≤ (s - 1) / 32) by (apply Z.div_le_mono; lia). lia.
Qed.

Lemma entries_cover (s : Z) : 0 ≤ s → 0 ≤ entries_of_size s ∧ s ≤ 32 * entries_of_size s.
Proof.
  intros Hs. unfold entries_of_size, bit_entry_type_.
  destruct (decide (s = 0)) as [->|]; [done|].
  rewrite Z.quot_div_nonneg by lia.
  pose proof (Z.div_mod (s - 1) 32). pose proof (Z.mod_pos_bound (s - 1) 32).
  pose proof (Z.div_pos (s - 1) 32). lia.
Qed.

Lemma wf_entry (s : BinarySet) (i : Z) : wf s → 0 ≤ i < size_of_set_ s →
  ∃ v, entry s (i / 32) = Ret v ∧ is_u32 v ∧
       binary_set_values_ s !! Z.to_nat (i / 32) = Some v.
Proof.
  intros Hs Hi. pose proof (entries_bound _ _ Hi) as Hb.
  rewrite <- (wf_len _ Hs) in Hb. pose proof (Z.div_pos i 32).
  destruct (lookup_lt_is_Some_2 (binary_set_values_ s) (Z.to_nat (i / 32))) as [v Hv]; [lia|].
  exists v. split; [unfold entry; apply at_Ret; split; [lia | done]|]. split; [|done].
  by eapply Forall_lookup_1; [apply (wf_u32 _ Hs)|].
Qed.

Lemma mem_word (s : BinarySet) (i v : Z) :
  binary_set_values_ s !! Z.to_nat (i / 32) = Some v → mem s i = Z.testbit v (i mod 32).
Proof. unfold mem. by intros ->. Qed.

(** Writing one word: the whole effect on membership. *)
Lemma set_entry_spec (s : BinarySet) (k v x : Z) :
  wf s → entry s k = Ret v → is_u32 x →
  (∀ i, i / 32 = k → size_of_set_ s ≤ i → Z.testbit x (i mod 32) = false) →
  ∃ s', set_entry s k x = Ret s' ∧ wf s' ∧ size_of_set_ s' = size_of_set_ s ∧
    ∀ i, 0 ≤ i → mem s' i = if i / 32 =? k then Z.testbit x (i mod 32) else mem s i.
Proof.
  intros Hs Hv Hx Hout. unfold set_entry. rewrite Hv. simpl.
  apply at_Ret in Hv as [Hk Hv].
  assert (Hm : ∀ i, 0 ≤ i → mem {| binary_set_values_ := <[Z.to_nat k:=x]> (binary_set_values_ s);
    size_of_set_ := size_of_set_ s |} i = if i / 32 =? k then Z.testbit x (i mod 32) else mem s i).
  { intros i Hi. unfold mem; simpl. pose proof (Z.div_pos i 32).
    destruct (Z.eqb_spec (i / 32) k) as [->|Hne].
    - rewrite list_lookup_insert_eq; [done|]. by eapply lookup_lt_Some.
    - rewrite list_lookup_insert_ne; [done|]. lia. }
  eexists. split; [done|]. split; [|by split]. destruct Hs as [H1 H2 H3 H4].
  constructor; simpl; [done | by rewrite length_insert | by apply Forall_insert |].
  intros i Hi. rewrite Hm by lia. destruct (Z.eqb_spec (i / 32) k); auto.
Qed.

Lemma CheckExistence_spec (s : BinarySet) (i : Z) :
  wf s → 0 ≤ i < size_of_set_ s → CheckExistence s i = Ret (mem s i).
Proof.
  intros Hs Hi. destruct (index_quot i) as [Hq Hr]; [lia|].
  destruct (wf_entry s i Hs Hi) as (v & He & _ & Hv).
  unfold CheckExistence. rewrite Hq, Hr, He. cbn [obind].
  pose proof (Z.mod_pos_bound i 32). destruct (Z.ltb_spec (i mod 32) 0); [lia|].
  rewrite (mem_word s i v Hv). f_equal.
  change 1 with (Z.ones 1). rewrite Z.land_ones by done. change (2 ^ 1) with 2.
  rewrite Z.testbit_odd, Zmod_odd.
  by destruct (Z.odd _).
Qed.

Lemma AddEntry_spec (s : BinarySet) (i : Z) : wf s → 0 ≤ i < size_of_set_ s →
  ∃ s', AddEntry i s = Ret s' ∧ wf s' ∧ size_of_set_ s' = size_of_set_ s ∧
    ∀ n, 0 ≤ n → mem s' n = (n =? i) || mem s n.
Proof.
  intros Hs Hi. destruct (index_quot i) as [Hq Hr]; [lia|].
  destruct (wf_entry s i Hs Hi) as (v & He & Hu & Hv).
  pose proof (Z.mod_pos_bound i 32) as Hj.
  assert (Hbit : ∀ n, 0 ≤ n → n / 32 = i / 32 →
    Z.testbit (Z.lor v (2 ^ (i mod 32))) (n mod 32) = (n =? i) || mem s n).
  { intros n Hn Hd. pose proof (Z.mod_pos_bound n 32). rewrite testbit_lor_pow2 by lia.
    rewrite (index_split n i), Hd, Z.eqb_refl. simpl. by rewrite (mem_word s n v) by (by rewrite Hd). }
  destruct (set_entry_spec s (i / 32) v (Z.lor v (2 ^ (i mod 32)))) as (s' & H1 & H2 & H3 & H4);
    [done | done | | |].
  - apply u32_lor; [done|]. unfold is_u32. split; [apply Z.pow_nonneg; lia|].
    apply Z.pow_lt_mono_r; lia.
  - intros n Hd Hn. rewrite Hbit by lia. rewrite (wf_out _ Hs) by done.
    destruct (Z.eqb_spec n i); [lia | done].
  - exists s'. split; [|split_and!; [done..|]].
    + unfold AddEntry. rewrite Hq, Hr, one_bit_Ret, He by lia. done.
    + intros n Hn. rewrite H4 by done. destruct (Z.eqb_spec (n / 32) (i / 32)) as [Hd|Hd]; auto.
      rewrite (index_split n i). destruct (Z.eqb_spec (n / 32) (i / 32)); done.
Qed.

Lemma DeleteEntry_spec (s : BinarySet) (i : Z) : wf s → 0 ≤ i < size_of_set_ s →
  ∃ s', DeleteEntry i s = Ret s' ∧ wf s' ∧ size_of_set_ s' = size_of_set_ s ∧
    ∀ n, 0 ≤ n → mem s' n = negb (n =? i) && mem s n.
Proof.
  intros Hs Hi. destruct (index_quot i) as [Hq Hr]; [lia|].
  destruct (wf_entry s i Hs Hi) as (v & He & Hu & Hv).
  pose proof (Z.mod_pos_bound i 32) as Hj.
  assert (Hbit : ∀ n, 0 ≤ n → n / 32 = i / 32 →
    Z.testbit (Z.land v (u32 (Z.lnot (2 ^ (i mod 32))))) (n mod 32) = negb (n =? i) && mem s n).
  { intros n Hn Hd. pose proof (Z.mod_pos_bound n 32).
    rewrite testbit_land_not_pow2 by (done || lia).
    rewrite (index_split n i), Hd, Z.eqb_refl. simpl. by rewrite (mem_word s n v) by (by rewrite Hd). }
  destruct (set_entry_spec s (i / 32) v (Z.land v (u32 (Z.lnot (2 ^ (i mod 32))))))
    as (s' & H1 & H2 & H3 & H4); [done | done | | |].
  - by apply u32_land.
  - intros n Hd Hn. rewrite Hbit by lia. rewrite (wf_out _ Hs) by done. apply andb_false_r.
  - exists s'. split; [|split_and!; [done..|]].
    + unfold DeleteEntry. rewrite Hq, Hr, one_bit_Ret, He by lia. done.
    + intros n Hn. rewrite H4 by done. destruct (Z.eqb_spec (n / 32) (i / 32)) as [Hd|Hd]; auto.
      rewrite (index_split n i). destruct (Z.eqb_spec (n / 32) (i / 32)); done.
Qed.

(** ** Loops over the words *)

Lemma combine_loop (op : Z → Z → Z) (a b u : BinarySet) (n : nat) :
  (n ≤ length (binary_set_values_ a))%nat →
  (n ≤ length (binary_set_values_ b))%nat →
  (n ≤ length (binary_set_values_ u))%nat →
  ofold (combine_step op a b) (seqZ 0 (Z.of_nat n)) u =
  Ret {| binary_set_values_ :=
           zip_with op (take n (binary_set_values_ a)) (take n (binary_set_values_ b))
           ++ drop n (binary_set_values_ u);
         size_of_set_ := size_of_set_ u |}.
Proof.
  induction n as [|n IH]; intros Ha Hb Hu; [by destruct u|].
  rewrite seqZ_S, ofold_app, IH by lia. clear IH. cbn [obind ofold].
  destruct (lookup_lt_is_Some_2 (binary_set_values_ a) n Ha) as [x Hx].
  destruct (lookup_lt_is_Some_2 (binary_set_values_ b) n Hb) as [y Hy].
  destruct (lookup_lt_is_Some_2 (binary_set_values_ u) n Hu) as [z Hz].
  set (w := zip_with op (take n (binary_set_values_ a)) (take n (binary_set_values_ b))).
  assert (Hw : length w = n) by (unfold w; rewrite length_zip_with, !length_take; lia).
  unfold combine_step, set_entry, entry. rewrite Z.add_0_l.
  rewrite (at_nat _ _ _ Hx), (at_nat _ _ _ Hy). cbn [obind binary_set_values_ size_of_set_].
  rewrite (drop_S _ _ _ Hz).
  rewrite (at_nat _ n z) by (rewrite lookup_app_r by lia; by rewrite Hw, Nat.sub_diag).
  cbn [obind]. rewrite Nat2Z.id, insert_app_r_alt by lia. rewrite Hw, Nat.sub_diag.
  rewrite (take_S_r _ _ _ Hx), (take_S_r _ _ _ Hy).
  rewrite zip_with_app by (rewrite !length_take; lia). fold w. cbn [zip_with list_insert].
  by rewrite <- app_assoc.
Qed.

(** Two sets over the same range have equally many words. *)
Lemma wf_same_length (a b : BinarySet) : wf a → wf b → size_of_set_ a = size_of_set_ b →
  length (binary_set_values_ a) = length (binary_set_values_ b).
Proof. intros Ha Hb He. apply Nat2Z.inj. by rewrite (wf_len _ Ha), (wf_len _ Hb), He. Qed.

Lemma entries_le (m n : Z) : m ≤ n → entries_of_size m ≤ entries_of_size n.
Proof. intros H. unfold entries_of_size. assert (Z.quot (m - 1) bit_entry_type_ ≤ Z.quot (n - 1) bit_entry_type_); [|lia].
  apply Z.quot_le_mono; unfold bit_entry_type_; lia. Qed.

Lemma wf_length_le (a b : BinarySet) : wf a → wf b → size_of_set_ a ≤ size_of_set_ b →
  (length (binary_set_values_ a) ≤ length (binary_set_values_ b))%nat.
Proof. intros Ha Hb He%entries_le. rewrite <- (wf_len _ Ha), <- (wf_len _ Hb) in He. lia. Qed.

(** The elements that share a word with the range [0 .. n). *)
Definition covered (n i : Z) : bool := i <? 32 * entries_of_size n.

(** [op] on the words is [f] on the members; beyond the words of [a] the target
    keeps what it held. *)
Lemma combine_spec_sizes (op : Z → Z → Z) (f : bool → bool → bool) (a b u : BinarySet) :
  (∀ x y n, Z.testbit (op x y) n = f (Z.testbit x n) (Z.testbit y n)) →
  (∀ x y, is_u32 x → is_u32 y → is_u32 (op x y)) →
  wf a → wf b → wf u → size_of_set_ a ≤ size_of_set_ b → size_of_set_ a ≤ size_of_set_ u →
  (∀ i, size_of_set_ u ≤ i → f (mem a i) (mem b i) = false) →
  ∃ u', ofold (combine_step op a b) (word_indices a) u = Ret u' ∧ wf u' ∧
    size_of_set_ u' = size_of_set_ u ∧
    ∀ i, 0 ≤ i → mem u' i = if covered (size_of_set_ a) i then f (mem a i) (mem b i) else mem u i.
Proof.
  intros Hop H32 Ha Hb Hu Hab Hau Hout.
  pose proof (wf_length_le a b Ha Hb Hab) as Lab. pose proof (wf_length_le a u Ha Hu Hau) as Lau.
  eexists. unfold word_indices. split; [apply combine_loop; lia|].
  rewrite (take_ge (binary_set_values_ a)) by lia.
  set (n := length (binary_set_values_ a)) in *. set (w := zip_with op _ _).
  assert (length w = n) as Hw by (unfold w; rewrite length_zip_with, length_take; lia).
  set (u' := {| binary_set_values_ := _ |}).
  assert (Hm : ∀ i, 0 ≤ i → mem u' i = if covered (size_of_set_ a) i then f (mem a i) (mem b i) else mem u i).
  { intros i Hi. unfold covered. rewrite <- (wf_len _ Ha). fold n. unfold mem. cbn [u' binary_set_values_].
    pose proof (Z.div_mod i 32). pose proof (Z.mod_pos_bound i 32). destruct (Z.ltb_spec i (32 * Z.of_nat n)).
    - rewrite lookup_app_l by lia. unfold w. rewrite lookup_zip_with, lookup_take_lt by lia.
      destruct (lookup_lt_is_Some_2 (binary_set_values_ a) (Z.to_nat (i / 32))) as [x ->]; [fold n; lia|].
      destruct (lookup_lt_is_Some_2 (binary_set_values_ b) (Z.to_nat (i / 32))) as [y ->]; [lia|]. apply Hop.
    - rewrite lookup_app_r, lookup_drop by lia. by replace (n + (Z.to_nat (i / 32) - length w))%nat with (Z.to_nat (i / 32)) by lia. }
  split_and!; [|done|done]. constructor; cbn [u' binary_set_values_ size_of_set_].
  - apply (wf_size _ Hu).
  - rewrite length_app, length_drop, Hw, <- (wf_len _ Hu). lia.
  - apply Forall_app. split; [|by apply Forall_drop, wf_u32]. apply Forall_lookup.
    intros k z (x & y & -> & Hx & Hy)%lookup_zip_with_Some. apply lookup_take_Some in Hy as [Hy _].
    apply H32; (eapply Forall_lookup_1; [|done]); by apply wf_u32.
  - intros i Hi. pose proof (wf_size _ Hu). rewrite Hm by lia. destruct (covered _ _); [by apply Hout|by apply (wf_out _ Hu)].
Qed.

Lemma covered_below (n i : Z) : 0 ≤ n → i < n → covered n i = true.
Proof. intros Hn Hi. unfold covered. pose proof (entries_cover n Hn). apply Z.ltb_lt. lia. Qed.

(** Sets over the same range: the target's old elements are gone. *)
Lemma combine_spec (op : Z → Z → Z) (f : bool → bool → bool) (a b u : BinarySet) :
  (∀ x y n, Z.testbit (op x y) n = f (Z.testbit x n) (Z.testbit y n)) → f false false = false →
  (∀ x y, is_u32 x → is_u32 y → is_u32 (op x y)) →
  wf a → wf b → wf u → size_of_set_ a = size_of_set_ b → size_of_set_ u = size_of_set_ a →
  ∃ u', ofold (combine_step op a b) (word_indices a) u = Ret u' ∧ wf u' ∧
    size_of_set_ u' = size_of_set_ a ∧ ∀ i, 0 ≤ i → mem u' i = f (mem a i) (mem b i).
Proof.
  intros Hop Hf H32 Ha Hb Hu Hab Hua.
  assert (∀ i, size_of_set_ u ≤ i → f (mem a i) (mem b i) = false) as Hout.
  { intros i Hi. by rewrite (wf_out _ Ha), (wf_out _ Hb) by lia. }
  destruct (combine_spec_sizes op f a b u) as (u' & E & W & S & M); [done..|lia|lia|done|].
  exists u'. split_and!; [done|done|congruence|]. intros i Hi. rewrite M by done.
  destruct (covered _ i) eqn:Ec; [done|]. destruct (Z.lt_ge_cases i (size_of_set_ a)).
  - rewrite covered_below in Ec; [done| |done]. by apply (wf_size _ Ha).
  - rewrite Hout, (wf_out _ Hu) by lia. done.
Qed.

Lemma UnionTo_spec (a b u : BinarySet) :
  wf a → wf b → wf u → size_of_set_ a = size_of_set_ b → size_of_set_ u = size_of_set_ a →
  ∃ u', UnionTo a b u = Ret u' ∧ wf u' ∧ size_of_set_ u' = size_of_set_ a ∧
    ∀ i, 0 ≤ i → mem u' i = mem a i || mem b i.
Proof. apply combine_spec; auto with oneflow. apply Z.lor_spec. Qed.

Lemma IntersectionTo_spec (a b u : BinarySet) :
  wf a → wf b → wf u → size_of_set_ a = size_of_set_ b → size_of_set_ u = size_of_set_ a →
  ∃ u', IntersectionTo a b u = Ret u' ∧ wf u' ∧ size_of_set_ u' = size_of_set_ a ∧
    ∀ i, 0 ≤ i → mem u' i = mem a i && mem b i.
Proof.
  intros Ha Hb Hu Hab Hua. unfold IntersectionTo, min_bs_size.
  pose proof (wf_same_length u a Hu Ha Hua) as Lua.
  destruct (Z.ltb_spec (Z.of_nat (length (binary_set_values_ u)))
    (Z.min (Z.of_nat (length (binary_set_values_ a))) (Z.of_nat (length (binary_set_values_ b)))));
    [lia|]. cbn [obind].
  apply combine_spec; auto with oneflow. apply Z.land_spec.
Qed.

Lemma any_common_spec (a b : BinarySet) (m : nat) (n : nat) :
  (m + n ≤ length (binary_set_values_ a))%nat → (m + n ≤ length (binary_set_values_ b))%nat →
  ∃ r, any_common a b (seqZ (Z.of_nat m) (Z.of_nat n)) = Ret r ∧
    (r = true ↔ ∃ k x y, (m ≤ k < m + n)%nat ∧ binary_set_values_ a !! k = Some x ∧
       binary_set_values_ b !! k = Some y ∧ Z.land x y ≠ 0).
Proof.
  revert m. induction n as [|n IH]; intros m Ha Hb.
  { exists false. split; [done|]. split; [done|]. intros (k & _ & _ & ? & _). lia. }
  rewrite seqZ_cons by lia. replace (Z.succ (Z.of_nat m)) with (Z.of_nat (S m)) by lia.
  replace (Z.pred (Z.of_nat (S n))) with (Z.of_nat n) by lia.
  destruct (lookup_lt_is_Some_2 (binary_set_values_ a) m) as [x Hx]; [lia|].
  destruct (lookup_lt_is_Some_2 (binary_set_values_ b) m) as [y Hy]; [lia|].
  cbn [any_common]. unfold entry at 1 2.
  rewrite (at_nat _ _ _ Hx), (at_nat _ _ _ Hy). cbn [obind].
  destruct (Z.eqb_spec (Z.land x y) 0) as [Hz|Hz]; cbn [negb].
  - destruct (IH (S m)) as (r & Hr & Hiff); [lia..|]. exists r. split; [done|].
    rewrite Hiff. split; intros (k & x' & y' & Hk & Hx' & Hy' & Hne).
    + exists k, x', y'. split; [lia | done].
    + exists k, x', y'. split; [|done]. destruct (decide (k = m)) as [->|]; [|lia].
      congruence.
  - exists true. split; [done|]. split; [|done]. intros _. exists m, x, y. split_and!; [lia..|done|done|done].
Qed.

Lemma land_nonzero (x y : Z) : is_u32 x →
  Z.land x y ≠ 0 ↔ ∃ n, 0 ≤ n < 32 ∧ Z.testbit x n = true ∧ Z.testbit y n = true.
Proof.
  intros Hx. split.
  - intros Hne. destruct (decide (Exists (λ n, Z.testbit (Z.land x y) n = true) (seqZ 0 32))) as [H|H].
    + apply Exists_exists in H as (n & Hn & Hb). apply elem_of_seqZ in Hn.
      rewrite Z.land_spec, andb_true_iff in Hb. exists n. split; [lia | done].
    + destruct Hne. apply Z.bits_inj'. intros n Hn. rewrite Z.bits_0.
      destruct (Z.lt_ge_cases n 32) as [Hlt|Hge]; [|by rewrite Z.land_spec, u32_testbit_high].
      apply not_true_is_false. intros Ht. apply H, Exists_exists. exists n.
      split; [apply elem_of_seqZ; lia | done].
  - intros (n & Hn & Hx' & Hy') Hz. apply (f_equal (λ z, Z.testbit z n)) in Hz.
    by rewrite Z.land_spec, Z.bits_0, Hx', Hy' in Hz.
Qed.

Lemma IfIntersect_spec (a b : BinarySet) : wf a →
  ∃ r, IfIntersect a b = Ret r ∧
    (r = true ↔ ∃ i, 0 ≤ i ∧ mem a i = true ∧ mem b i = true).
Proof.
  intros Ha. unfold IfIntersect, min_bs_size. rewrite <- Nat2Z.inj_min.
  set (n := Nat.min _ _). destruct (any_common_spec a b 0 n) as (r & Hr & Hiff); [lia..|].
  exists r. split; [done|]. rewrite Hiff. split.
  - intros (k & x & y & _ & Hx & Hy & Hne).
    apply land_nonzero in Hne as (j & Hj & Hbx & Hby);
      [|eapply Forall_lookup_1; [apply (wf_u32 _ Ha)|done]].
    assert (Hd : (Z.of_nat k * 32 + j) / 32 = Z.of_nat k) by (rewrite Z.add_comm, Z.div_add, Z.div_small by lia; lia).
    assert (Hr' : (Z.of_nat k * 32 + j) mod 32 = j) by (rewrite Z.add_comm, Z.mod_add, Z.mod_small by lia; lia).
    exists (Z.of_nat k * 32 + j). unfold mem. rewrite Hd, Hr', Nat2Z.id, Hx, Hy. split; [lia|done].
  - intros (i & Hi & Hma & Hmb). unfold mem in *.
    destruct (binary_set_values_ a !! _) as [x|] eqn:Hx; [|done].
    destruct (binary_set_values_ b !! _) as [y|] eqn:Hy; [|done].
    exists (Z.to_nat (i / 32)), x, y. pose proof (lookup_lt_Some _ _ _ Hx).
    pose proof (lookup_lt_Some _ _ _ Hy). split_and!; [lia..|done|done|].
    apply land_nonzero; [eapply Forall_lookup_1; [apply (wf_u32 _ Ha)|done]|].
    exists (i mod 32). pose proof (Z.mod_pos_bound i 32). split; [lia|done].
Qed.

(** ** Construction, clearing, listing *)

Lemma mem_zeros (n : nat) (sz i : Z) :
  mem {| binary_set_values_ := replicate n 0; size_of_set_ := sz |} i = false.
Proof.
  unfold mem; simpl. destruct (replicate n 0 !! _) as [v|] eqn:Hv; [|done].
  apply lookup_replicate in Hv as [-> _]. apply Z.bits_0.
Qed.

Lemma wf_zeros (n : nat) (sz : Z) : 0 ≤ sz → Z.of_nat n = entries_of_size sz →
  wf {| binary_set_values_ := replicate n 0; size_of_set_ := sz |}.
Proof.
  intros Hs Hn. constructor; simpl; [done | by rewrite length_replicate | |].
  - by apply Forall_replicate.
  - intros. apply mem_zeros.
Qed.

Lemma new_BinarySet_spec (sz : Z) : 0 ≤ sz →
  ∃ s, new_BinarySet sz = Ret s ∧ wf s ∧ size_of_set_ s = sz ∧ ∀ i, mem s i = false.
Proof.
  intros Hs. destruct (entries_cover sz Hs) as [He _]. unfold new_BinarySet, resize.
  destruct (Z.ltb_spec (entries_of_size sz) 0); [lia|]. cbn [obind].
  rewrite take_nil, Nat.sub_0_r. simpl. eexists. split; [done|].
  split_and!; [apply wf_zeros; [done | lia] | done | intros; apply mem_zeros].
Qed.

(** [Initialize] with the size the set already has changes nothing, with a larger
    size it keeps the members. *)
Lemma Initialize_grow (s : BinarySet) (sz : Z) : wf s → size_of_set_ s ≤ sz →
  ∃ s', Initialize sz s = Ret s' ∧ wf s' ∧ size_of_set_ s' = sz ∧ ∀ i, mem s' i = mem s i.
Proof.
  intros Hs Hsz. pose proof (wf_size _ Hs) as H0.
  assert (Hle : entries_of_size (size_of_set_ s) ≤ entries_of_size sz).
  { unfold entries_of_size, bit_entry_type_. apply Z.add_le_mono_r, Z.quot_le_mono; lia. }
  destruct (entries_cover sz) as [He _]; [lia|].
  unfold Initialize, resize. destruct (Z.ltb_spec (entries_of_size sz) 0); [lia|]. cbn [obind].
  pose proof (wf_len _ Hs) as Hl. rewrite take_ge by lia.
  set (s' := {| binary_set_values_ := _ |}).
  assert (Hm : ∀ i, mem s' i = mem s i).
  { intros i. unfold mem, s'; simpl. set (k := Z.to_nat (i / 32)).
    destruct (binary_set_values_ s !! k) as [v|] eqn:Hv; [by rewrite (lookup_app_l_Some _ _ _ _ Hv)|].
    rewrite lookup_app_r by (by apply lookup_ge_None).
    destruct (replicate _ 0 !! _) as [v|] eqn:Hr; [|done].
    apply lookup_replicate in Hr as [-> _]. apply Z.bits_0. }
  exists s'. split_and!; [done| |done|done]. constructor; simpl; [lia | | |].
  - rewrite length_app, length_replicate. lia.
  - apply Forall_app. split; [apply (wf_u32 _ Hs) | by apply Forall_replicate].
  - intros i Hi. rewrite Hm. apply (wf_out _ Hs). lia.
Qed.

Lemma Clear_spec (s : BinarySet) : wf s →
  wf (Clear s) ∧ size_of_set_ (Clear s) = size_of_set_ s ∧ ∀ i, mem (Clear s) i = false.
Proof.
  intros Hs. split_and!; [|done|intros; apply mem_zeros].
  apply wf_zeros; [apply (wf_size _ Hs) | apply (wf_len _ Hs)].
Qed.

Lemma AddEntries_spec (is' : list Z) (s : BinarySet) :
  wf s → Forall (λ i, 0 ≤ i < size_of_set_ s) is' →
  ∃ s', AddEntries is' s = Ret s' ∧ wf s' ∧ size_of_set_ s' = size_of_set_ s ∧
    ∀ n, 0 ≤ n → mem s' n = bool_decide (n ∈ is') || mem s n.
Proof.
  revert s. induction is' as [|i l IH]; intros s Hs Hl.
  { exists s. split_and!; try done. }
  apply Forall_cons in Hl as [Hi Hl].
  destruct (AddEntry_spec s i Hs Hi) as (s1 & E1 & W1 & Z1 & M1).
  destruct (IH s1 W1) as (s2 & E2 & W2 & Z2 & M2); [by rewrite Z1|].
  exists s2. unfold AddEntries in *. cbn [ofold]. rewrite E1. cbn [obind].
  split_and!; [done | done | by rewrite Z2 |].
  intros n Hn. rewrite M2, M1 by done. rewrite orb_assoc. f_equal.
  apply eq_true_iff_eq. rewrite orb_true_iff, !bool_decide_eq_true, Z.eqb_eq, elem_of_cons. tauto.
Qed.

Lemma Output_spec (s : BinarySet) : wf s → Output s = Ret (members s).
Proof.
  intros Hs. unfold Output, members.
  assert (H : ∀ l out, Forall (λ i, 0 ≤ i < size_of_set_ s) l →
    ofold (λ out i, let* b := CheckExistence s i in Ret (if b : bool then out ++ [i] else out)) l out
    = Ret (out ++ filter (λ i, mem s i = true) l)).
  { induction l as [|i l IH]; intros out Hl; [by rewrite app_nil_r|].
    apply Forall_cons in Hl as [Hi Hl]. cbn [ofold]. rewrite CheckExistence_spec by done.
    cbn [obind]. rewrite IH by done. destruct (mem s i) eqn:Hm.
    - rewrite filter_cons_True by done. by rewrite <- app_assoc.
    - rewrite filter_cons_False by congruence. done. }
  rewrite H; [done|]. apply Forall_seqZ. lia.
Qed.

Lemma elem_of_abs (s : BinarySet) (i : Z) : wf s →
  i ∈ abs s ↔ 0 ≤ i ∧ mem s i = true.
Proof.
  intros Hs. unfold abs, members.
  rewrite elem_of_list_to_set, list_elem_of_filter, elem_of_seqZ. split.
  - intros [? ?]. split; [lia | done].
  - intros [H1 H2]. split; [done|]. split; [lia|].
    destruct (Z.lt_ge_cases i (size_of_set_ s)) as [|Hge]; [lia|].
    by rewrite (wf_out _ Hs) in H2.
Qed.

(** ** The bit tricks *)

(** The set bits of a word, ascending. *)
Definition bits (n x : Z) : list Z := filter (λ i, Z.testbit x i = true) (seqZ 0 n).

Lemma low_bit (x : Z) : 0 < x →
  ∃ j q, 0 ≤ j ∧ 0 ≤ q ∧ x = 2 ^ j * (2 * q + 1).
Proof.
  destruct x as [|p|p]; try lia. intros _. induction p as [p IH|p IH|].
  - exists 0, (Z.pos p). lia.
  - destruct IH as (j & q & Hj & Hq & He). exists (j + 1), q.
    rewrite Z.pow_add_r by lia. lia.
  - exists 0, 0. lia.
Qed.

Lemma clear_low_bit (j q : Z) : 0 ≤ j → 0 ≤ q →
  Z.land (2 ^ j * (2 * q + 1)) (2 ^ j * (2 * q + 1) - 1) = 2 ^ j * (2 * q).
Proof.
  intros Hj Hq. apply Z.bits_inj'. intros n Hn. rewrite Z.land_spec.
  replace (2 ^ j * (2 * q + 1) - 1) with (2 ^ j * (2 * q) + (2 ^ j - 1)) by lia.
  rewrite !(Z.mul_comm (2 ^ j)).
  assert (Hp : 0 < 2 ^ j) by (apply Z.pow_pos_nonneg; lia).
  destruct (Z.lt_ge_cases n j) as [Hlt|Hge].
  - rewrite !Z.mul_pow2_bits_low by lia. done.
  - rewrite !Z.mul_pow2_bits by lia.
    replace (Z.testbit (2 * q * 2 ^ j + (2 ^ j - 1)) n) with (Z.testbit (2 * q) (n - j)).
    + destruct (decide (n - j = 0)) as [->|Hne].
      * by rewrite Z.testbit_odd_0, Z.testbit_even_0.
      * replace (n - j) with (Z.succ (n - j - 1)) by lia.
        rewrite Z.testbit_odd_succ, Z.testbit_even_succ by lia. apply andb_diag.
    + replace n with (n - j + j) at 2 by lia. rewrite <- Z.div_pow2_bits by lia.
      by rewrite Z.div_add_l, (Z.div_small (2 ^ j - 1)), Z.add_0_r by lia.
Qed.

Lemma bits_low (j q : Z) : 0 ≤ j < 32 → 0 ≤ q →
  bits 32 (2 ^ j * (2 * q + 1)) = j :: bits 32 (2 ^ j * (2 * q)).
Proof.
  intros Hj Hq. unfold bits.
  assert (Hsplit : seqZ 0 32 = seqZ 0 j ++ j :: seqZ (j + 1) (31 - j)).
  { replace 32 with (j + (32 - j)) by lia. rewrite seqZ_app by lia. f_equal.
    rewrite seqZ_cons by lia. rewrite Z.add_0_l. f_equal. f_equal; lia. }
  rewrite Hsplit, !filter_app, !(Z.mul_comm (2 ^ j)).
  assert (Hlow : ∀ r, filter (λ i, Z.testbit (r * 2 ^ j) i = true) (seqZ 0 j) = []).
  { intros r. apply filter_none, Forall_seqZ. intros n Hn. by rewrite Z.mul_pow2_bits_low by lia. }
  rewrite !Hlow. simpl. rewrite filter_cons_True, filter_cons_False.
  - f_equal. apply filter_ext_in. intros n Hn%elem_of_seqZ.
    rewrite !Z.mul_pow2_bits by lia. replace (n - j) with (Z.succ (n - j - 1)) by lia.
    by rewrite Z.testbit_odd_succ, Z.testbit_even_succ by lia.
  - by rewrite Z.mul_pow2_bits, Z.sub_diag, Z.testbit_even_0 by lia.
  - by rewrite Z.mul_pow2_bits, Z.sub_diag, Z.testbit_odd_0 by lia.
Qed.

Lemma log_2_spec (j : Z) : 0 ≤ j < 32 → log_2 !! (2 ^ j) = Some j.
Proof.
  intros Hj. assert (H : Forall (λ j, log_2 !! (2 ^ j) = Some j) (seqZ 0 32)).
  { apply (bool_decide_unpack _). vm_compute. exact I. }
  apply (proj1 (Forall_seqZ _ _ _) H). lia.
Qed.

Lemma length_bits (x : Z) : (length (bits 32 x) ≤ 32)%nat.
Proof. unfold bits. etransitivity; [apply length_filter|]. by rewrite length_seqZ. Qed.

(** The loop of [QuickOutput] emits the set bits of the word, lowest first. *)
Lemma quick_word_spec (fuel : nat) (i x : Z) (out : list Z) :
  is_u32 x → (length (bits 32 x) < fuel)%nat →
  quick_word fuel i x out = Ret (out ++ map (λ l, i * 32 + l) (bits 32 x)).
Proof.
  revert x out. induction fuel as [|fuel IH]; intros x out Hx Hf; [lia|]. cbn [quick_word].
  destruct (Z.eqb_spec x 0) as [->|Hne].
  { unfold bits. rewrite filter_none; [by rewrite app_nil_r|].
    apply Forall_seqZ. intros. by rewrite Z.bits_0. }
  destruct (low_bit x) as (j & q & Hj & Hq & He); [unfold is_u32 in Hx; lia|].
  assert (Hp : 0 < 2 ^ j) by (apply Z.pow_pos_nonneg; lia).
  assert (Hj32 : j < 32).
  { apply (Z.pow_lt_mono_r_iff 2); [lia..|]. unfold is_u32 in Hx. nia. }
  assert (Hsm : ∀ z, 0 ≤ z ≤ x → u32 z = z) by (intros; apply Z.mod_small; unfold is_u32 in Hx; lia).
  rewrite (Hsm (x - 1)) by lia. subst x. rewrite clear_low_bit by done.
  rewrite (Hsm (2 ^ j * (2 * q + 1) - 2 ^ j * (2 * q))) by nia.
  replace (2 ^ j * (2 * q + 1) - 2 ^ j * (2 * q)) with (2 ^ j) by lia.
  rewrite log_2_spec by lia. rewrite bits_low in Hf |- * by lia. simpl in Hf.
  rewrite IH; [|unfold is_u32 in *; nia|lia].
  by rewrite <- app_assoc.
Qed.

(** Membership word by word. *)
Lemma members_words (s : BinarySet) : wf s →
  members s = concat (imap (λ k v, map (λ l, Z.of_nat k * 32 + l) (bits 32 v)) (binary_set_values_ s)).
Proof.
  intros Hs. destruct (entries_cover _ (wf_size _ Hs)) as [_ Hc]. rewrite <- (wf_len _ Hs) in Hc.
  transitivity (filter (λ i, mem s i = true) (seqZ 0 (32 * Z.of_nat (length (binary_set_values_ s))))).
  { pose proof (wf_size _ Hs).
    replace (32 * Z.of_nat (length (binary_set_values_ s))) with
      (size_of_set_ s + (32 * Z.of_nat (length (binary_set_values_ s)) - size_of_set_ s)) by lia.
    rewrite seqZ_app, filter_app by lia. rewrite (filter_none _ (seqZ (0 + _) _)), app_nil_r; [done|].
    apply Forall_seqZ. intros i Hi. rewrite (wf_out _ Hs); [done | lia]. }
  unfold mem. generalize (binary_set_values_ s). clear. intros l. induction l as [|v l IH] using rev_ind; [done|].
  rewrite length_app, imap_app, concat_app. simpl. rewrite app_nil_r, Nat.add_0_r.
  replace (32 * Z.of_nat (length l + 1)) with (32 * Z.of_nat (length l) + 32) by lia.
  rewrite seqZ_app, filter_app, <- IH by lia. f_equal.
  - apply filter_ext_in. intros i Hi%elem_of_seqZ. rewrite lookup_app_l; [done|].
    assert (i / 32 < Z.of_nat (length l)) by (apply Z.div_lt_upper_bound; lia). lia.
  - rewrite Z.add_0_l. replace (32 * Z.of_nat (length l)) with (32 * Z.of_nat (length l) + 0) by lia.
    rewrite <- fmap_add_seqZ. unfold bits. change (fmap (M := list)) with (@map Z Z).
    rewrite filter_map_comm, (Z.mul_comm 32). f_equal.
    apply filter_ext_in. intros i Hi%elem_of_seqZ.
    rewrite Z.add_comm, Z.div_add, (Z.div_small i), Z.mod_add, Z.mod_small, Z.add_0_l, Nat2Z.id by lia.
    by rewrite lookup_app_r, Nat.sub_diag by lia.
Qed.

Lemma QuickOutput_spec (s : BinarySet) : wf s → QuickOutput s = Ret (members s).
Proof.
  intros Hs. rewrite members_words by done. unfold QuickOutput, word_indices.
  assert (H : ∀ n, (n ≤ length (binary_set_values_ s))%nat →
    ofold (λ out i, let* x := entry s i in quick_word 33 i x out) (seqZ 0 (Z.of_nat n)) [] =
    Ret (concat (imap (λ k v, map (λ l, Z.of_nat k * 32 + l) (bits 32 v)) (take n (binary_set_values_ s))))).
  { induction n as [|n IH]; intros Hn; [done|]. rewrite seqZ_S, ofold_app, IH by lia.
    destruct (lookup_lt_is_Some_2 (binary_set_values_ s) n Hn) as [v Hv].
    cbn [obind ofold]. unfold entry. rewrite Z.add_0_l, (at_nat _ _ _ Hv). cbn [obind].
    rewrite quick_word_spec.
    - cbn [obind]. rewrite (take_S_r _ _ _ Hv), imap_app, concat_app. simpl.
      by rewrite length_take, Nat.min_l, Nat.add_0_r, app_nil_r by lia.
    - eapply Forall_lookup_1; [apply (wf_u32 _ Hs) | done].
    - pose proof (length_bits v). lia. }
  rewrite H by done. by rewrite take_ge.
Qed.

(** *** Counting: a word as two halves *)

Definition join (lo hi : Z) : Z := lo + 2 ^ 16 * hi.
Definition step (s m v : Z) : Z := Z.land v m + Z.land (Z.shiftr v s) m.
Definition is_u16 (z : Z) : Prop := 0 ≤ z < 2 ^ 16.

Lemma join_testbit (lo hi n : Z) : is_u16 lo → 0 ≤ n →
  Z.testbit (join lo hi) n = if n <? 16 then Z.testbit lo n else Z.testbit hi (n - 16).
Proof.
  intros Hlo Hn. unfold join. destruct (Z.ltb_spec n 16).
  - rewrite <- (Z.mod_pow2_bits_low _ 16) by lia. rewrite (Z.mul_comm (2 ^ 16)), Z.mod_add by lia.
    by rewrite Z.mod_pow2_bits_low by lia.
  - replace n with (n - 16 + 16) at 1 by lia. rewrite <- Z.div_pow2_bits by lia.
    rewrite (Z.mul_comm (2 ^ 16)), Z.div_add, Z.div_small by (unfold is_u16 in Hlo; lia). done.
Qed.

Lemma u16_testbit_high (v n : Z) : is_u16 v → 16 ≤ n → Z.testbit v n = false.
Proof. apply testbit_high. Qed.

Lemma u16_land (x m : Z) : 0 ≤ x → is_u16 m → is_u16 (Z.land x m).
Proof.
  intros Hx Hm. apply below_of_testbit; [done | apply Z.land_nonneg; by left |].
  intros n Hn. by rewrite Z.land_spec, (u16_testbit_high m), andb_false_r.
Qed.

Lemma step_join (s m M lo hi : Z) : 0 ≤ s < 16 → is_u16 m → is_u16 lo → is_u16 hi →
  (∀ n, 0 ≤ n < 16 → Z.testbit M n = Z.testbit m n ∧ Z.testbit M (n + 16) = Z.testbit m n) →
  (∀ n, 16 - s ≤ n → Z.testbit m n = false) →
  step s M (join lo hi) = join (step s m lo) (step s m hi).
Proof.
  intros Hs Hm Hlo Hhi HM Hhigh. unfold step.
  assert (Hl1 : is_u16 (Z.land lo m)) by (apply u16_land; [apply Hlo | done]).
  assert (Hl2 : is_u16 (Z.land (Z.shiftr lo s) m))
    by (apply u16_land; [apply Z.shiftr_nonneg, Hlo | done]).
  assert (E1 : Z.land (join lo hi) M = join (Z.land lo m) (Z.land hi m)).
  { apply Z.bits_inj'. intros n Hn. rewrite Z.land_spec, !join_testbit by done.
    destruct (Z.ltb_spec n 16); [by rewrite Z.land_spec, (proj1 (HM n ltac:(lia)))|].
    rewrite Z.land_spec. destruct (Z.lt_ge_cases (n - 16) 16).
    - replace n with (n - 16 + 16) at 2 by lia. by rewrite (proj2 (HM (n - 16) ltac:(lia))).
    - by rewrite (u16_testbit_high hi) by done. }
  assert (E2 : Z.land (Z.shiftr (join lo hi) s) M =
               join (Z.land (Z.shiftr lo s) m) (Z.land (Z.shiftr hi s) m)).
  { apply Z.bits_inj'. intros n Hn.
    rewrite Z.land_spec, Z.shiftr_spec, !join_testbit by (done || lia).
    destruct (Z.ltb_spec n 16).
    - rewrite (proj1 (HM n ltac:(lia))), Z.land_spec, Z.shiftr_spec by done.
      destruct (Z.ltb_spec (n + s) 16); [done|]. rewrite (Hhigh n) by lia. by rewrite !andb_false_r.
    - rewrite Z.land_spec, Z.shiftr_spec by lia. destruct (Z.ltb_spec (n + s) 16); [lia|].
      replace (n - 16 + s) with (n + s - 16) by lia. destruct (Z.lt_ge_cases (n - 16) 16).
      + replace n with (n - 16 + 16) at 2 by lia. by rewrite (proj2 (HM (n - 16) ltac:(lia))).
      + by rewrite (u16_testbit_high hi) by (done || lia). }
  rewrite E1, E2. unfold join. lia.
Qed.

(** The folding lines on a half word, checked on all of its values. *)
Definition half1 (x : Z) : Z := step 1 0x5555 x.
Definition half2 (x : Z) : Z := step 2 0x3333 (half1 x).
Definition half3 (x : Z) : Z := step 4 0x0F0F (half2 x).
Definition half4 (x : Z) : Z := step 8 0x00FF (half3 x).
Definition in16 (x : Z) : bool := (0 <=? x) && (x <? 2 ^ 16).
Definition half_ok (x : Z) : bool :=
  in16 (half1 x) && in16 (half2 x) && in16 (half3 x) && in16 (half4 x)
  && (half4 x =? Z.of_nat (length (bits 16 x))).

Lemma half_ok_all (x : Z) : is_u16 x → half_ok x = true.
Proof.
  intros Hx.
  assert (H : forallb (λ a, forallb (λ b, half_ok (256 * a + b)) (seqZ 0 256)) (seqZ 0 256) = true)
    by (vm_compute; reflexivity).
  rewrite forallb_forall in H. specialize (H (x / 256)).
  rewrite forallb_forall in H. rewrite (Z.div_mod x 256) by lia. unfold is_u16 in Hx.
  apply H; apply list_elem_of_In, elem_of_seqZ.
  - pose proof (Z.div_pos x 256). pose proof (Z.div_lt_upper_bound x 256 256). lia.
  - pose proof (Z.mod_pos_bound x 256). lia.
Qed.

Lemma fold_join (s m M lo hi : Z) : 0 ≤ s < 16 → is_u16 m → is_u16 lo → is_u16 hi →
  forallb (λ n, eqb (Z.testbit M n) (Z.testbit m n) && eqb (Z.testbit M (n + 16)) (Z.testbit m n))
    (seqZ 0 16) = true →
  m < 2 ^ (16 - s) → is_u16 (step s m lo) → is_u16 (step s m hi) →
  fold_bits s M (join lo hi) = join (step s m lo) (step s m hi).
Proof.
  intros Hs Hm Hlo Hhi HM Hhigh H1 H2. unfold fold_bits. fold (step s M (join lo hi)).
  rewrite (step_join s m); try done.
  - unfold u32, join, is_u16 in *. apply Z.mod_small. lia.
  - intros n Hn. rewrite forallb_forall in HM. specialize (HM n).
    rewrite andb_true_iff, !eqb_true_iff in HM. apply HM, list_elem_of_In, elem_of_seqZ. lia.
  - intros n. apply testbit_high. split; [apply Hm | done].
Qed.

Lemma fold_last (lo hi : Z) : is_u16 lo → is_u16 hi →
  fold_bits 16 0x0000FFFF0000FFFF (join lo hi) = lo + hi.
Proof.
  intros Hlo Hhi. unfold fold_bits.
  assert (Hm : ∀ v, is_u32 v → Z.land v 0x0000FFFF0000FFFF = v mod 2 ^ 16).
  { intros v Hv. apply Z.bits_inj'. intros n Hn. rewrite Z.land_spec, Z.testbit_mod_pow2 by done.
    destruct (Z.lt_ge_cases n 32) as [Hlt|Hge].
    - change 0x0000FFFF0000FFFF with (Z.ones 16 + Z.ones 16 * 2 ^ 32).
      rewrite <- (Z.mod_pow2_bits_low (Z.ones 16 + _) 32), Z.mod_add, Z.mod_pow2_bits_low by done.
      rewrite Z.testbit_ones_nonneg by done. apply andb_comm.
    - rewrite (u32_testbit_high v) by done. by rewrite andb_false_r. }
  assert (Hd : Z.shiftr (join lo hi) 16 = hi).
  { rewrite Z.shiftr_div_pow2 by done. unfold join, is_u16 in *.
    by rewrite (Z.mul_comm (2 ^ 16)), Z.div_add, Z.div_small by lia. }
  unfold join, is_u16 in *. rewrite Hd, !Hm by (unfold is_u32; lia).
  rewrite (Z.mul_comm (2 ^ 16)), Z.mod_add, !Z.mod_small by lia.
  unfold u32. apply Z.mod_small. lia.
Qed.

Lemma bits_join (lo hi : Z) : is_u16 lo → is_u16 hi →
  length (bits 32 (join lo hi)) = (length (bits 16 lo) + length (bits 16 hi))%nat.
Proof.
  intros Hlo Hhi. unfold bits. change 32 with (16 + 16) at 1.
  rewrite seqZ_app, filter_app, length_app by done. f_equal.
  - f_equal. apply filter_ext_in. intros n Hn%elem_of_seqZ. rewrite join_testbit by (done || lia).
    destruct (Z.ltb_spec n 16); [done | lia].
  - rewrite <- (Z.add_0_r (0 + 16)), <- fmap_add_seqZ. change (fmap (M := list)) with (@map Z Z).
    rewrite filter_map_comm, length_map. f_equal. apply filter_ext_in. intros n Hn%elem_of_seqZ.
    rewrite join_testbit by (done || lia). destruct (Z.ltb_spec (0 + 16 + n) 16); [lia|].
    by replace (0 + 16 + n - 16) with n by lia.
Qed.

Lemma count_bits_spec (v : Z) : is_u32 v → count_bits v = Z.of_nat (length (bits 32 v)).
Proof.
  intros Hv. unfold is_u32 in Hv.
  assert (Hlo : is_u16 (v mod 2 ^ 16)) by (by apply Z.mod_pos_bound).
  assert (Hhi : is_u16 (v / 2 ^ 16)).
  { split; [apply Z.div_pos; lia | apply Z.div_lt_upper_bound; lia]. }
  replace v with (join (v mod 2 ^ 16) (v / 2 ^ 16))
    by (unfold join; pose proof (Z.div_mod v (2 ^ 16)); lia).
  revert Hlo Hhi. generalize (v mod 2 ^ 16) (v / 2 ^ 16). clear v Hv. intros lo hi Hlo Hhi.
  pose proof (half_ok_all lo Hlo) as Kl. pose proof (half_ok_all hi Hhi) as Kh.
  unfold half_ok, in16 in Kl, Kh. rewrite !andb_true_iff, !Z.leb_le, !Z.ltb_lt, Z.eqb_eq in Kl, Kh.
  destruct Kl as ((((Kl1 & Kl2) & Kl3) & Kl4) & Kl5).
  destruct Kh as ((((Kh1 & Kh2) & Kh3) & Kh4) & Kh5).
  unfold count_bits.
  rewrite (fold_join 1 0x5555); try done. fold (half1 lo) (half1 hi).
  rewrite (fold_join 2 0x3333); try done. fold (half2 lo) (half2 hi).
  rewrite (fold_join 4 0x0F0F); try done. fold (half3 lo) (half3 hi).
  rewrite (fold_join 8 0x00FF); try done. fold (half4 lo) (half4 hi).
  rewrite fold_last, bits_join by done. lia.
Qed.

Lemma Total_spec (s : BinarySet) : wf s → Total s = Z.of_nat (length (members s)).
Proof.
  intros Hs. rewrite members_words by done. pose proof (wf_u32 _ Hs) as H. unfold Total.
  revert H. generalize (binary_set_values_ s). clear. intros l.
  induction l as [|v l IH] using rev_ind; [done|]. intros [Hl Hv]%Forall_app.
  rewrite foldl_app, IH by done. apply Forall_inv in Hv. cbn [foldl].
  rewrite imap_app, concat_app, length_app, (count_bits_spec v Hv). simpl.
  rewrite app_nil_r, length_map. lia.
Qed.

(** A loop one of whose turns always aborts, and none of whose turns returns an
    error. *)
Lemma ofold_crash {A S : Type} (f : S → A → outcome S) l x s :
  (∀ s y e, f s y ≠ Fail e) → x ∈ l → (∀ s, f s x = Crash) → ofold f l s = Crash.
Proof.
  intros Hf Hin Hx. revert s. induction Hin as [l|x y l _ IH]; intros s; cbn [ofold]; [by rewrite Hx|].
  destruct (f s y) as [s'|e|] eqn:E; cbn [obind]; [by apply IH|by apply Hf in E|done].
Qed.

Lemma combine_short (op : Z → Z → Z) (a b u : BinarySet) :
  (length (binary_set_values_ b) < length (binary_set_values_ a))%nat →
  ofold (combine_step op a b) (word_indices a) u = Crash.
Proof.
  intros Hlt. apply (ofold_crash _ _ (Z.of_nat (length (binary_set_values_ b)))).
  - intros s y e. unfold combine_step, set_entry, entry, at_. destruct (y <? 0); [done|]. by repeat (case_match; cbn [obind]).
  - unfold word_indices. rewrite elem_of_seqZ. lia.
  - intros s. unfold combine_step, entry. destruct (lookup_lt_is_Some_2 _ _ Hlt) as [x Hx]. rewrite (at_nat _ _ _ Hx).
    cbn [obind]. unfold at_. destruct (Z.ltb_spec (Z.of_nat (length (binary_set_values_ b))) 0); [done|].
    by rewrite Nat2Z.id, (proj2 (lookup_ge_None _ _)).
Qed.

(** [IntersectionTo] sizes its target by the shorter operand, but its loop runs
    over the words of this set: with an operand of fewer words it reads that
    operand out of range, whatever the sets hold. *)
Theorem IntersectionTo_shorter_operand (a b u : BinarySet) :
  (length (binary_set_values_ b) < length (binary_set_values_ a))%nat →
  IntersectionTo a b u = Crash.
Proof.
  intros Hlt. unfold IntersectionTo, min_bs_size. destruct (_ <? _); [|by apply combine_short].
  unfold resize. destruct (Z.ltb_spec (Z.min (Z.of_nat (length (binary_set_values_ a))) (Z.of_nat (length (binary_set_values_ b)))) 0);
    [done|]. by apply combine_short.
Qed.

(** An index outside the words, or a negative one, is read out of range or shifts
    by a negative amount. *)
Lemma entry_out (s : BinarySet) (i : Z) : wf s → i < 0 ∨ 32 * entries_of_size (size_of_set_ s) ≤ i →
  Z.rem i bit_entry_type_ < 0 ∨ (0 ≤ Z.rem i bit_entry_type_ ∧ entry s (Z.quot i bit_entry_type_) = Crash).
Proof.
  intros Hs Hi. unfold entry, at_, bit_entry_type_. pose proof (Z.quot_rem i 32 ltac:(done)).
  destruct (Z.lt_ge_cases (Z.rem i 32) 0); [by left|right]. split; [done|].
  destruct (Z.ltb_spec (Z.quot i 32) 0); [done|].
  rewrite (proj2 (lookup_ge_None _ _)); [done|]. apply Nat2Z.inj_le. rewrite (wf_len _ Hs), Z2Nat.id by done.
  pose proof (entries_cover _ (wf_size _ Hs)). pose proof (Z.rem_bound_abs i 32). lia.
Qed.

Lemma out_aborts (s : BinarySet) (i : Z) : wf s → i < 0 ∨ 32 * entries_of_size (size_of_set_ s) ≤ i →
  CheckExistence s i = Crash ∧ AddEntry i s = Crash ∧ DeleteEntry i s = Crash.
Proof.
  intros Hs Hi. unfold CheckExistence, AddEntry, DeleteEntry, one_bit.
  destruct (entry_out s i Hs Hi) as [Hj|[Hj ->]].
  - rewrite (proj2 (Z.ltb_lt _ _) Hj). cbn [obind]. split_and!; [|done..]. unfold entry, at_.
    destruct (_ <? 0); [done|]. by destruct (_ !! _).
  - rewrite (proj2 (Z.ltb_ge _ _) Hj). done.
Qed.

(** ** The operations are those of finite sets *)

Lemma abs_eq (s : BinarySet) (X : gset Z) : wf s →
  (∀ i, i ∈ X ↔ 0 ≤ i ∧ mem s i = true) → abs s = X.
Proof. intros Hs H. apply set_eq. intros i. by rewrite elem_of_abs, H. Qed.

(** What the class promises, for sets over [0 .. n): every operation returns and
    computes the operation of finite sets.  Of sets over other ranges: the other
    operand and the target of a union or an intersection must have the words of
    this set, and the target keeps its elements beyond those words. *)
Class SetOps (n : Z) : Prop := {
  ops_new : ∃ s, new_BinarySet n = Ret s ∧ wf s ∧ size_of_set_ s = n ∧ abs s = ∅;
  ops_mem s i : wf s → size_of_set_ s = n → 0 ≤ i < n →
    CheckExistence s i = Ret (bool_decide (i ∈ abs s));
  ops_add s i : wf s → size_of_set_ s = n → 0 ≤ i < n →
    ∃ s', AddEntry i s = Ret s' ∧ wf s' ∧ size_of_set_ s' = n ∧ abs s' = {[i]} ∪ abs s;
  ops_delete s i : wf s → size_of_set_ s = n → 0 ≤ i < n →
    ∃ s', DeleteEntry i s = Ret s' ∧ wf s' ∧ size_of_set_ s' = n ∧ abs s' = abs s ∖ {[i]};
  ops_union a b u : wf a → wf b → wf u →
    size_of_set_ a = n → size_of_set_ b = n → size_of_set_ u = n →
    ∃ u', UnionTo a b u = Ret u' ∧ wf u' ∧ size_of_set_ u' = n ∧ abs u' = abs a ∪ abs b;
  ops_inter a b u : wf a → wf b → wf u →
    size_of_set_ a = n → size_of_set_ b = n → size_of_set_ u = n →
    ∃ u', IntersectionTo a b u = Ret u' ∧ wf u' ∧ size_of_set_ u' = n ∧ abs u' = abs a ∩ abs b;
  ops_disjoint a b : wf a → wf b → IfIntersect a b = Ret (negb (bool_decide (abs a ## abs b)));
  ops_union_sizes a b u : wf a → wf b → wf u →
    size_of_set_ a = n → n ≤ size_of_set_ b → size_of_set_ b ≤ size_of_set_ u →
    ∃ u', UnionTo a b u = Ret u' ∧ wf u' ∧ size_of_set_ u' = size_of_set_ u ∧
      ∀ i, i ∈ abs u' ↔ if covered n i then i ∈ abs a ∨ i ∈ abs b else i ∈ abs u;
  ops_inter_sizes a b u : wf a → wf b → wf u →
    size_of_set_ a = n → n ≤ size_of_set_ b → n ≤ size_of_set_ u →
    ∃ u', IntersectionTo a b u = Ret u' ∧ wf u' ∧ size_of_set_ u' = size_of_set_ u ∧
      ∀ i, i ∈ abs u' ↔ if covered n i then i ∈ abs a ∧ i ∈ abs b else i ∈ abs u;
  ops_short a b u : wf a → wf b → size_of_set_ a = n → entries_of_size (size_of_set_ b) < entries_of_size n →
    UnionTo a b u = Crash ∧ IntersectionTo a b u = Crash;
  ops_out s i : wf s → size_of_set_ s = n → i < 0 ∨ 32 * entries_of_size n ≤ i →
    CheckExistence s i = Crash ∧ AddEntry i s = Crash ∧ DeleteEntry i s = Crash;
  ops_clear s : wf s → size_of_set_ s = n →
    wf (Clear s) ∧ size_of_set_ (Clear s) = n ∧ abs (Clear s) = ∅;
  ops_add_all s l : wf s → size_of_set_ s = n → Forall (λ i, 0 ≤ i < n) l →
    ∃ s', AddEntries l s = Ret s' ∧ wf s' ∧ size_of_set_ s' = n ∧
      abs s' = list_to_set l ∪ abs s;
}.

Lemma abs_of_mem (s : BinarySet) (i : Z) : wf s →
  bool_decide (i ∈ abs s) = (0 <=? i) && mem s i.
Proof.
  intros Hs. apply eq_true_iff_eq.
  rewrite bool_decide_eq_true, andb_true_iff, Z.leb_le. by apply elem_of_abs.
Qed.

Lemma IfIntersect_abs (a b : BinarySet) : wf a → wf b →
  IfIntersect a b = Ret (negb (bool_decide (abs a ## abs b))).
Proof.
  intros Ha Hb. destruct (IfIntersect_spec a b Ha) as (r & -> & Hr). f_equal.
  apply eq_true_iff_eq. rewrite Hr, negb_true_iff, bool_decide_eq_false. split.
  - intros (i & Hi & H1 & H2) Hd. apply (Hd i); by apply elem_of_abs.
  - intros Hd. destruct (set_choose_or_empty (abs a ∩ abs b)) as [[i Hi]|He].
    + apply elem_of_intersection in Hi as [[? ?]%elem_of_abs [? ?]%elem_of_abs]; try done. eauto.
    + destruct Hd. set_solver.
Qed.

(** Other ranges: the words of [a] are combined, the others kept. *)
Lemma UnionTo_sizes (a b u : BinarySet) : wf a → wf b → wf u →
  size_of_set_ a ≤ size_of_set_ b → size_of_set_ b ≤ size_of_set_ u →
  ∃ u', UnionTo a b u = Ret u' ∧ wf u' ∧ size_of_set_ u' = size_of_set_ u ∧
    ∀ i, i ∈ abs u' ↔ if covered (size_of_set_ a) i then i ∈ abs a ∨ i ∈ abs b else i ∈ abs u.
Proof.
  intros Wa Wb Wu Sb Su.
  destruct (combine_spec_sizes Z.lor orb a b u) as (u' & E & W & S & M); auto with oneflow; [apply Z.lor_spec|lia| |].
  { intros i Hi. by rewrite (wf_out _ Wa), (wf_out _ Wb) by lia. }
  exists u'. split_and!; [done..|]. intros i. destruct (Z.lt_ge_cases i 0) as [Hi|Hi].
  - destruct (covered _ _); rewrite !elem_of_abs by done; lia.
  - rewrite elem_of_abs, M by done. destruct (covered _ _); rewrite !elem_of_abs by done; [rewrite orb_true_iff|]; tauto.
Qed.

Lemma IntersectionTo_sizes (a b u : BinarySet) : wf a → wf b → wf u →
  size_of_set_ a ≤ size_of_set_ b → size_of_set_ a ≤ size_of_set_ u →
  ∃ u', IntersectionTo a b u = Ret u' ∧ wf u' ∧ size_of_set_ u' = size_of_set_ u ∧
    ∀ i, i ∈ abs u' ↔ if covered (size_of_set_ a) i then i ∈ abs a ∧ i ∈ abs b else i ∈ abs u.
Proof.
  intros Wa Wb Wu Sb Su. pose proof (wf_length_le a u Wa Wu Su). unfold IntersectionTo, min_bs_size.
  rewrite (proj2 (Z.ltb_ge _ _)) by lia. cbn [obind].
  destruct (combine_spec_sizes Z.land andb a b u) as (u' & E & W & S & M); auto with oneflow; [apply Z.land_spec| |].
  { intros i Hi. by rewrite (wf_out _ Wa) by lia. }
  exists u'. split_and!; [done..|]. intros i. destruct (Z.lt_ge_cases i 0) as [Hi|Hi].
  - destruct (covered _ _); rewrite !elem_of_abs by done; lia.
  - rewrite elem_of_abs, M by done. destruct (covered _ _); rewrite !elem_of_abs by done; [rewrite andb_true_iff|]; tauto.
Qed.

(** C23 On sets over the same range [0 .. n) and indices of that range every
    operation of [BinarySet] returns without touching memory out of range, keeps the
    set well formed, and is the operation of finite sets: construction and [Clear]
    give the empty set, [CheckExistence] is membership, [AddEntry], [AddEntries] and
    [DeleteEntry] insert and remove, [UnionTo] and [IntersectionTo] are union and
    intersection whatever the target held.  [IfIntersect] is non-disjointness of
    sets over any ranges.  With another operand and a target over larger ranges,
    union and intersection are right on the words of this set and the target keeps
    its old elements beyond them; another operand of fewer words, and an index
    outside the words, are accesses out of range. *)
Theorem BinarySet_refines_sets (n : Z) : 0 ≤ n → SetOps n.
Proof.
  intros Hn. constructor.
  - destruct (new_BinarySet_spec n Hn) as (s & E & W & S & M). exists s. split_and!; try done.
    apply abs_eq; [done|]. intros i. rewrite M. set_solver.
  - intros s i W S Hi. rewrite CheckExistence_spec, abs_of_mem by (done || lia).
    destruct (Z.leb_spec 0 i); [done | lia].
  - intros s i W S Hi. destruct (AddEntry_spec s i W) as (s' & E & W' & S' & M); [lia|].
    exists s'. split_and!; [done..|lia|]. apply abs_eq; [done|]. intros j.
    rewrite elem_of_union, elem_of_singleton, elem_of_abs by done.
    destruct (Z.lt_ge_cases j 0); [lia|]. rewrite M, orb_true_iff, Z.eqb_eq by done. naive_solver.
  - intros s i W S Hi. destruct (DeleteEntry_spec s i W) as (s' & E & W' & S' & M); [lia|].
    exists s'. split_and!; [done..|lia|]. apply abs_eq; [done|]. intros j.
    rewrite elem_of_difference, elem_of_singleton, elem_of_abs by done.
    destruct (Z.lt_ge_cases j 0); [lia|].
    rewrite M, andb_true_iff, negb_true_iff, Z.eqb_neq by done. naive_solver.
  - intros a b u Wa Wb Wu Sa Sb Su.
    destruct (UnionTo_spec a b u) as (u' & E & W' & S' & M); [done..|lia|lia|].
    exists u'. split_and!; [done..|lia|]. apply abs_eq; [done|]. intros j.
    rewrite elem_of_union, !elem_of_abs by done. destruct (Z.lt_ge_cases j 0); [lia|].
    rewrite M, orb_true_iff by done. tauto.
  - intros a b u Wa Wb Wu Sa Sb Su.
    destruct (IntersectionTo_spec a b u) as (u' & E & W' & S' & M); [done..|lia|lia|].
    exists u'. split_and!; [done..|lia|]. apply abs_eq; [done|]. intros j.
    rewrite elem_of_intersection, !elem_of_abs by done. destruct (Z.lt_ge_cases j 0); [lia|].
    rewrite M, andb_true_iff by done. tauto.
  - intros a b Wa Wb. by apply IfIntersect_abs.
  - intros a b u Wa Wb Wu <- Sb Su. by apply UnionTo_sizes.
  - intros a b u Wa Wb Wu <- Sb Su. by apply IntersectionTo_sizes.
  - intros a b u Wa Wb <- Hl. rewrite <- (wf_len _ Wa), <- (wf_len _ Wb) in Hl.
    split; [apply combine_short|apply IntersectionTo_shorter_operand]; lia.
  - intros s i W <- Hi. by apply out_aborts.
  - intros s W S. destruct (Clear_spec s W) as (W' & S' & M). split_and!; [done|lia|].
    apply abs_eq; [done|]. intros i. rewrite M. set_solver.
  - intros s l W S Hl. destruct (AddEntries_spec l s W) as (s' & E & W' & S' & M).
    { by rewrite S. }
    exists s'. split_and!; [done..|lia|]. apply abs_eq; [done|]. intros j.
    rewrite elem_of_union, elem_of_list_to_set, elem_of_abs by done.
    rewrite Forall_forall in Hl. split.
    + intros [Hj|[? ?]]; (split; [|rewrite M, orb_true_iff, bool_decide_eq_true; try done; auto]);
        try done; by apply Hl.
    + intros [? Hm]. rewrite M, orb_true_iff, bool_decide_eq_true in Hm by done. tauto.
Qed.

Lemma BinarySet_refines_sets_witness : SetOps 40.
Proof. apply (BinarySet_refines_sets 40). lia. Defined.

(** C37 The two ways of listing a set agree and the bit-parallel counter counts it:
    the lowest-set-bit loop of [QuickOutput] returns (never missing its logarithm
    table) the same ascending list without duplicates as the plain loop of
    [Output], the list of the members of the set, and [Total] is its length. *)
Theorem quick_output_and_total (s : BinarySet) : wf s →
  ∃ l, Output s = Ret l ∧ QuickOutput s = Ret l ∧ Total s = Z.of_nat (length l) ∧
    NoDup l ∧ (∀ i, i ∈ l ↔ i ∈ abs s) ∧ Total s = Z.of_nat (size (abs s)).
Proof.
  intros Hs. exists (members s).
  assert (Hn : NoDup (members s)) by apply NoDup_filter, NoDup_seqZ.
  rewrite Output_spec, QuickOutput_spec, Total_spec by done.
  split_and!; [done..| |].
  - intros i. unfold abs. by rewrite elem_of_list_to_set.
  - unfold abs. by rewrite size_list_to_set.
Qed.

Lemma demo_wf : wf {| binary_set_values_ := [0x80000001; 5]; size_of_set_ := 36 |}.
Proof.
  constructor; simpl; [lia | done | repeat constructor; done |].
  intros i Hi. unfold mem; simpl.
  destruct (Z.to_nat (i / 32)) as [|[|[|k]]] eqn:Hk; simpl; try done.
  - assert (1 ≤ i / 32) by (apply Z.div_le_lower_bound; lia). lia.
  - apply (testbit_high 4); [lia|]. assert (i / 32 = 1) by lia.
    pose proof (Z.div_mod i 32). lia.
Qed.

Lemma quick_output_and_total_witness :
  QuickOutput {| binary_set_values_ := [0x80000001; 5]; size_of_set_ := 36 |} = Ret [0; 31; 32; 34]
  ∧ Total {| binary_set_values_ := [0x80000001; 5]; size_of_set_ := 36 |} = 4.
Proof.
  destruct (quick_output_and_total _ demo_wf) as (l & _ & HQ & HT & _).
  assert (l = [0; 31; 32; 34]) as -> by (vm_compute in HQ; by injection HQ).
  by split.
Defined.

(** *** Equality *)

Lemma same_words_spec (a b : BinarySet) (m n : nat) :
  length (binary_set_values_ a) = (m + n)%nat → length (binary_set_values_ b) = (m + n)%nat →
  same_words a b (seqZ (Z.of_nat m) (Z.of_nat n)) =
  Ret (bool_decide (drop m (binary_set_values_ a) = drop m (binary_set_values_ b))).
Proof.
  revert m. induction n as [|n IH]; intros m Ha Hb.
  { rewrite !drop_ge by lia. done. }
  rewrite seqZ_cons by lia. replace (Z.succ (Z.of_nat m)) with (Z.of_nat (S m)) by lia.
  replace (Z.pred (Z.of_nat (S n))) with (Z.of_nat n) by lia.
  destruct (lookup_lt_is_Some_2 (binary_set_values_ a) m) as [x Hx]; [lia|].
  destruct (lookup_lt_is_Some_2 (binary_set_values_ b) m) as [y Hy]; [lia|].
  cbn [same_words]. unfold entry at 1 2.
  rewrite (at_nat _ _ _ Hx), (at_nat _ _ _ Hy). cbn [obind].
  rewrite (drop_S _ _ _ Hx), (drop_S _ _ _ Hy), IH by lia.
  destruct (Z.eqb_spec x y) as [->|Hne]; cbn [negb]; f_equal.
  - apply bool_decide_ext. split; [by intros -> | by intros [= ->]].
  - symmetry. apply bool_decide_eq_false. by intros [= ? _].
Qed.

Lemma values_of_mem (a b : BinarySet) : wf a → wf b → size_of_set_ a = size_of_set_ b →
  (∀ i, 0 ≤ i → mem a i = mem b i) → binary_set_values_ a = binary_set_values_ b.
Proof.
  intros Ha Hb Hs Hm. pose proof (wf_same_length a b Ha Hb Hs) as Hl.
  apply list_eq_same_length with (length (binary_set_values_ b)); [done..|].
  intros k x y _ Hx Hy. apply Z.bits_inj'. intros j Hj.
  destruct (Z.lt_ge_cases j 32) as [Hlt|Hge].
  - assert (Hd : (Z.of_nat k * 32 + j) / 32 = Z.of_nat k)
      by (rewrite Z.add_comm, Z.div_add, Z.div_small by lia; lia).
    assert (Hr : (Z.of_nat k * 32 + j) mod 32 = j)
      by (rewrite Z.add_comm, Z.mod_add, Z.mod_small by lia; lia).
    specialize (Hm (Z.of_nat k * 32 + j) ltac:(lia)). unfold mem in Hm.
    by rewrite Hd, Hr, Nat2Z.id, Hx, Hy in Hm.
  - rewrite !u32_testbit_high; [done| |done| |done];
      (eapply Forall_lookup_1; [|done]; by apply wf_u32).
Qed.

(** [operator==] of two well formed sets never reads out of range and holds
    exactly when the two sets range over the same size and have the same members. *)
Theorem BinarySet_eqb_spec (a b : BinarySet) : wf a → wf b →
  BinarySet_eqb a b = Ret (bool_decide (size_of_set_ a = size_of_set_ b ∧ abs a = abs b)).
Proof.
  intros Ha Hb. unfold BinarySet_eqb. destruct (Z.eqb_spec (size_of_set_ a) (size_of_set_ b)) as [Hs|Hs]; cbn [negb].
  - unfold word_indices. rewrite (same_words_spec a b 0) by (simpl; auto using eq_sym, wf_same_length).
    f_equal. apply bool_decide_ext. rewrite !drop_0. split.
    + intros Hv. split; [done|]. destruct a, b. simpl in *. by subst.
    + intros [_ He]. apply values_of_mem; try done. intros i Hi.
      apply eq_true_iff_eq.
      pose proof (elem_of_abs a i Ha). pose proof (elem_of_abs b i Hb). rewrite He in *. tauto.
  - f_equal. symmetry. apply bool_decide_eq_false. tauto.
Qed.

Lemma BinarySet_eqb_spec_witness :
  BinarySet_eqb {| binary_set_values_ := [0x80000001; 5]; size_of_set_ := 36 |}
                {| binary_set_values_ := [0x80000001; 5]; size_of_set_ := 36 |} = Ret true.
Proof. rewrite (BinarySet_eqb_spec _ _ demo_wf demo_wf). reflexivity. Defined.

Lemma IntersectionTo_shorter_operand_witness :
  IntersectionTo {| binary_set_values_ := [1; 1]; size_of_set_ := 40 |}
    {| binary_set_values_ := [1]; size_of_set_ := 8 |}
    {| binary_set_values_ := [0; 0]; size_of_set_ := 40 |} = Crash.
Proof. apply IntersectionTo_shorter_operand. simpl. lia. Defined.
