(* ===== verification/FastMath.v ===== *)
(** * Division by an invariant integer

    Models [oneflow/core/ep/include/primitive/fast_integer_math.h] and the
    [OffsetToIndexCalculator] that the broadcast and padding kernels build on it
    ([oneflow/core/ep/common/primitive/constant_pad.h], repeated in
    [broadcast_elementwise_unary.h]).  [FastIntegerMath<int32_t>] divides with a
    multiplication and a shift; the general template shifts when the divisor is a
    power of two.  Both have a host and a device variant, selected by the
    preprocessor.  [assert]s are modelled as checks. *)
From S2P Require Import Prelude Shape NdIndex.

Inductive target := Host | Device.
Inductive IndexType := Int32 | Int64.

#[export] Instance target_eq_dec : EqDecision target.
Proof. solve_decision. Defined.

(** The members of the two class templates. *)
Inductive FastIntegerMath : Type :=
| Fast64 (operand_ log2_operand_ : Z)
| Fast32 (operand_ M_ l_ : Z).

(** ** [FastIntegerMath<int64_t>] *)

(** [__builtin_clz] takes an [unsigned int] and its result is undefined for zero;
    [__clzll] counts in 64 bits and gives 64 for zero. *)
Definition leading_zeroes (tg : target) (operand : Z) : option Z :=
  match tg with
  | Host => let x := u32 operand in if x =? 0 then None else Some (31 - Z.log2 x)
  | Device => let x := u64 operand in if x =? 0 then Some 64 else Some (63 - Z.log2 x)
  end.

(** Using an undefined count is a crash. *)
Definition new_Fast64 (tg : target) (operand : Z) : outcome FastIntegerMath :=
  let is_power_2 := Z.land operand (operand - 1) =? 0 in
  let* log2_operand_ :=
    (if is_power_2
     then match leading_zeroes tg operand with Some lz => Ret (31 - lz) | None => Crash end
     else Ret (-1)) in
  let operand_ := if operand =? 0 then 1 else operand in
  let* _ := CHECK ((1 <=? operand_) && (operand_ <=? 2 ^ 63 - 1)) in
  Ret (Fast64 operand_ log2_operand_).

(** ** [FastIntegerMath<int32_t>] *)

(** [for (l_ = 0; l_ < 32; l_++) if ((1U << l_) >= operand_) break;] *)
Fixpoint shift_loop (fuel : nat) (l operand : Z) : Z :=
  match fuel with
  | O => l
  | S fuel => if operand <=? Z.shiftl 1 l then l else shift_loop fuel (l + 1) operand
  end.

Definition new_Fast32 (operand : Z) : outcome FastIntegerMath :=
  let operand_ := u32 (if operand =? 0 then 1 else operand) in
  let* _ := CHECK ((1 <=? operand_) && (operand_ <=? 2 ^ 32 - 1)) in
  let l_ := shift_loop 32 0 operand_ in
  let m := u64 (u64 (Z.shiftl 1 32 * u64 (Z.shiftl 1 l_ - operand_)) / operand_ + 1) in
  let M_ := u32 m in
  let* _ := CHECK ((0 <? M_) && (M_ =? m)) in
  Ret (Fast32 operand_ M_ l_).

Definition new_FastIntegerMath (tg : target) (T : IndexType) (operand : Z) : outcome FastIntegerMath :=
  match T with Int64 => new_Fast64 tg operand | Int32 => new_Fast32 operand end.

(** ** The operations *)

Definition divides (tg : target) (h : FastIntegerMath) (n : Z) : Z :=
  match h with
  | Fast64 operand_ log2_operand_ =>
      if 0 <=? log2_operand_ then Z.shiftr n log2_operand_ else Z.quot n operand_
  | Fast32 operand_ M_ l_ =>
      match tg with
      | Device =>
          let t := Z.shiftr (M_ * u32 n) 32 in
          i32 (Z.shiftr (u32 (t + n)) l_)
      | Host =>
          let t := Z.shiftr (u64 (M_ * u64 n)) 32 in
          i32 (Z.shiftr (u64 (t + u64 n)) l_)
      end
  end.

Definition mul (h : FastIntegerMath) (n : Z) : Z :=
  match h with
  | Fast64 operand_ log2_operand_ =>
      if 0 <=? log2_operand_ then i64 (Z.shiftl n log2_operand_) else i64 (n * operand_)
  | Fast32 operand_ _ _ => i32 (n * operand_)
  end.

Definition operand_of (h : FastIntegerMath) : Z :=
  match h with Fast64 o _ => o | Fast32 o _ _ => o end.

(** Values of the index type. *)
Definition wrap_like (h : FastIntegerMath) (z : Z) : Z :=
  match h with Fast64 _ _ => i64 z | Fast32 _ _ _ => i32 z end.

Definition mod_ (tg : target) (h : FastIntegerMath) (n : Z) : Z :=
  wrap_like h (n - divides tg h n * operand_of h).
Definition add (h : FastIntegerMath) (n : Z) : Z := wrap_like h (n + operand_of h).
Definition sub (h : FastIntegerMath) (n : Z) : Z := wrap_like h (n - operand_of h).
Definition divmod (tg : target) (h : FastIntegerMath) (n : Z) : Z * Z :=
  let q := divides tg h n in (q, wrap_like h (n - q * operand_of h)).

(** ** [OffsetToIndexCalculator<T, N>] *)

(** [InitFastIntegerMath(dims, n)]: a helper per stride. *)
Definition InitFastIntegerMath (tg : target) (T : IndexType) (N : nat) (dims : list Z) (n : nat)
    : outcome (list FastIntegerMath) :=
  omap_list (new_FastIntegerMath tg T) (InitStrides N dims n).

Fixpoint index_loop (tg : target) (hs : list FastIntegerMath) (remaining : Z) : list Z * Z :=
  match hs with
  | [] => ([], remaining)
  | h :: hs =>
      let idx := divides tg h remaining in
      let '(rest, r) := index_loop tg hs (remaining - mul h idx) in
      (idx :: rest, r)
  end.

(** [OffsetToNdIndex(offset, index, n)]: the last coordinate takes the rest. *)
Definition CalcOffsetToNdIndex (tg : target) (hs : list FastIntegerMath) (offset : Z) (n : nat)
    : list Z :=
  let '(idx, r) := index_loop tg (take (n - 1) hs) offset in idx ++ [r].

(** The variadic overload with [n] output references. *)
Definition CalcOffsetToNdIndex_args (tg : target) (hs : list FastIntegerMath) (offset : Z) (n : nat)
    : list Z :=
  let '(idx, r) := index_loop tg (take (n - 1) hs) offset in
  match hs !! (n - 1)%nat with
  | Some h => if Nat.eqb n (length hs) then idx ++ [r] else idx ++ [divides tg h r]
  | None => idx ++ [r]
  end.

(** ** The multiplicative inverse *)

Lemma shift_loop_spec (fuel : nat) (l d : Z) :
  0 ≤ l → 1 ≤ d ≤ 2 ^ (l + Z.of_nat fuel) → (l = 0 ∨ 2 ^ (l - 1) < d) →
  let r := shift_loop fuel l d in
  l ≤ r ≤ l + Z.of_nat fuel ∧ d ≤ 2 ^ r ∧ (r = 0 ∨ 2 ^ (r - 1) < d).
Proof.
  revert l. induction fuel as [|fuel IH]; intros l Hl Hd Hlow; cbn [shift_loop].
  { rewrite Z.add_0_r in Hd |- *. simpl. split_and!; [lia..|tauto]. }
  rewrite Z.shiftl_1_l. destruct (Z.leb_spec d (2 ^ l)).
  - split_and!; [lia..|tauto].
  - destruct (IH (l + 1)) as (H1 & H2 & H3); [lia| |right; by replace (l + 1 - 1) with l by lia|].
    + by replace (l + 1 + Z.of_nat fuel) with (l + Z.of_nat (S fuel)) by lia.
    + split_and!; [lia..|done].
Qed.

(** Rounding the reciprocal up by less than [d / 2^(32+l)] does not change the
    quotient of 32-bit numerators. *)
Lemma magic_quotient (d l m n : Z) :
  0 < d → 0 ≤ l → d ≤ 2 ^ l → 0 ≤ n < 2 ^ 32 →
  m = 2 ^ (32 + l) / d + 1 →
  m * n / 2 ^ (32 + l) = n / d.
Proof.
  intros Hd Hl Hdl Hn ->. set (P := 2 ^ (32 + l)).
  assert (HP : P = 2 ^ 32 * 2 ^ l) by (apply Z.pow_add_r; lia).
  pose proof (Z.div_mod P d ltac:(lia)) as HPd. pose proof (Z.mod_pos_bound P d Hd) as HPr.
  pose proof (Z.div_mod n d ltac:(lia)) as Hnd. pose proof (Z.mod_pos_bound n d Hd) as Hnr.
  set (q := P / d) in *. set (k := n / d) in *. set (r := n mod d) in *. set (e := P mod d) in *.
  assert (Hk : 0 ≤ k) by (apply Z.div_pos; lia).
  assert (Hl0 : 0 < 2 ^ l) by (apply Z.pow_pos_nonneg; lia).
  symmetry. apply (Z.div_unique _ _ _ ((q + 1) * n - P * k)); [left|lia].
  assert (E : d * ((q + 1) * n - P * k) = n * (d - e) + P * r) by nia.
  assert (0 ≤ n * (d - e) + P * r) by nia.
  assert (n * (d - e) + P * r < d * P) by nia.
  nia.
Qed.

(** What the constructor computes for a positive divisor. *)
Lemma new_Fast32_spec (d : Z) : 0 < d < 2 ^ 31 →
  ∃ M l, new_Fast32 d = Ret (Fast32 d M l) ∧ 0 ≤ l ≤ 31 ∧ d ≤ 2 ^ l ∧
    0 < M < 2 ^ 32 ∧ M + 2 ^ 32 = 2 ^ (32 + l) / d + 1.
Proof.
  intros Hd. unfold new_Fast32. destruct (Z.eqb_spec d 0); [lia|].
  assert (Hu : u32 d = d) by (apply Z.mod_small; lia). rewrite Hu.
  destruct (Z.leb_spec 1 d); [|lia]. destruct (Z.leb_spec d (2 ^ 32 - 1)); [|lia]. cbn [andb CHECK obind].
  destruct (shift_loop_spec 32 0 d) as (Hl & Hdl & Hlow); [lia|simpl; lia|by left|].
  set (l := shift_loop 32 0 d) in *. clearbody l.
  assert (Hl31 : 0 ≤ l ≤ 31).
  { split; [lia|]. destruct Hlow as [->|Hlow]; [lia|].
    destruct (Z.le_gt_cases l 31); [done|]. assert (2 ^ 31 ≤ 2 ^ (l - 1)) by (apply Z.pow_le_mono_r; lia). lia. }
  assert (H2l : 2 ^ l < 2 * d).
  { destruct (decide (l = 0)) as [->|]; [simpl; lia|]. destruct Hlow as [?|Hlow]; [done|].
    replace (2 ^ l) with (2 * 2 ^ (l - 1)); [lia|].
    rewrite <- Z.pow_succ_r by lia. f_equal. lia. }
  assert (2 ^ l ≤ 2 ^ 31) by (apply Z.pow_le_mono_r; lia).
  rewrite !Z.shiftl_1_l, (u64_small (2 ^ l - d)), (u64_small (2 ^ 32 * (2 ^ l - d)))
    by (unfold is_u64, u64_modulus; lia).
  assert (Hsplit : 2 ^ 32 * (2 ^ l - d) / d + 2 ^ 32 = 2 ^ (32 + l) / d).
  { rewrite Z.pow_add_r by lia. rewrite <- (Z.div_add (2 ^ 32 * (2 ^ l - d))) by lia. f_equal. lia. }
  assert (Hm : 0 ≤ 2 ^ 32 * (2 ^ l - d) / d < 2 ^ 32 - 1).
  { split; [apply Z.div_pos; lia|]. apply Z.div_lt_upper_bound; lia. }
  set (m := 2 ^ 32 * (2 ^ l - d) / d) in *. clearbody m.
  rewrite (u64_small (m + 1)) by (unfold is_u64, u64_modulus; lia).
  assert (Hu2 : u32 (m + 1) = m + 1) by (apply Z.mod_small; lia). rewrite Hu2.
  destruct (Z.ltb_spec 0 (m + 1)); [|lia]. rewrite Z.eqb_refl. cbn [andb CHECK obind].
  exists (m + 1), l. split_and!; [done|lia..].
Qed.

Lemma divides32_spec (tg : target) (d M l n : Z) :
  0 < d → 0 ≤ l → d ≤ 2 ^ l → 0 < M < 2 ^ 32 → M + 2 ^ 32 = 2 ^ (32 + l) / d + 1 →
  0 ≤ n < 2 ^ 31 → divides tg (Fast32 d M l) n = n / d.
Proof.
  intros Hd Hl Hdl HM HMe Hn.
  assert (Hq : 0 ≤ n / d ≤ n).
  { split; [apply Z.div_pos; lia|]. apply Z.div_le_upper_bound; nia. }
  assert (Ht : 0 ≤ M * n / 2 ^ 32 ≤ n).
  { split; [apply Z.div_pos; nia|]. apply Z.div_le_upper_bound; nia. }
  assert (Hmain : (M * n / 2 ^ 32 + n) / 2 ^ l = n / d).
  { rewrite <- Z.div_add, Z.div_div by (try apply Z.pow_pos_nonneg; lia).
    rewrite <- Z.pow_add_r by lia. rewrite <- (magic_quotient d l _ n Hd Hl Hdl ltac:(lia) eq_refl).
    rewrite <- HMe. f_equal. lia. }
  assert (Hun : u64 n = n) by (apply u64_small; unfold is_u64, u64_modulus; lia).
  assert (Hun32 : u32 n = n) by (apply Z.mod_small; lia).
  destruct tg; cbn [divides]; rewrite ?Hun, ?Hun32.
  - rewrite (u64_small (M * n)) by (unfold is_u64, u64_modulus; nia).
    rewrite (Z.shiftr_div_pow2 _ 32), u64_small, Z.shiftr_div_pow2, Hmain, i32_small
      by (unfold is_u64, u64_modulus; lia). done.
  - rewrite (Z.shiftr_div_pow2 _ 32) by lia.
    assert (Hu : u32 (M * n / 2 ^ 32 + n) = M * n / 2 ^ 32 + n) by (apply Z.mod_small; lia).
    rewrite Hu, Z.shiftr_div_pow2, Hmain, i32_small by lia. done.
Qed.

(** ** Powers of two *)

Lemma power_2_spec (d : Z) : 0 < d →
  Z.land d (d - 1) = 0 ↔ d = 2 ^ Z.log2 d.
Proof.
  intros Hd. split.
  - intros H. destruct (decide (d = 2 ^ Z.log2 d)) as [|Hnp]; [done|exfalso].
    pose proof (Z.log2_spec d Hd) as [Hlo Hhi]. pose proof (Z.log2_nonneg d).
    assert (Hp : Z.testbit (Z.land d (d - 1)) (Z.log2 d) = true).
    { rewrite Z.land_spec, Z.bit_log2 by done. simpl.
      replace (Z.log2 d) with (Z.log2 (d - 1)) by (apply Z.log2_unique; lia).
      apply Z.bit_log2. pose proof (Z.pow_pos_nonneg 2 (Z.log2 d)). lia. }
    by rewrite H, Z.bits_0 in Hp.
  - intros ->. set (k := Z.log2 d). assert (0 ≤ k) by apply Z.log2_nonneg.
    apply Z.bits_inj'. intros n Hn. rewrite Z.land_spec, Z.bits_0, Z.pow2_bits_eqb by done.
    destruct (Z.eqb_spec k n) as [<-|]; [|done]. simpl.
    replace (2 ^ k - 1) with (Z.ones k) by (rewrite Z.ones_equiv; lia).
    apply Z.ones_spec_high. lia.
Qed.

(** ** Exact division *)

Definition limit (T : IndexType) : Z := match T with Int32 => 2 ^ 31 | Int64 => 2 ^ 63 end.

(** The divisors every variant handles: all 32-bit ones, and 64-bit ones that are
    small or not a power of two. *)
Definition fast_ok (T : IndexType) (d : Z) : Prop :=
  0 < d < limit T ∧ (T = Int64 → d < 2 ^ 32 ∨ d ≠ 2 ^ Z.log2 d).

(** A helper that divides exactly in its index type. *)
Record exact (tg : target) (T : IndexType) (h : FastIntegerMath) (d : Z) : Prop := {
  ex_operand : operand_of h = d;
  ex_div : ∀ n, 0 ≤ n < limit T → divides tg h n = n / d;
  ex_mul : ∀ q, 0 ≤ q → q * d < limit T → mul h q = q * d;
  ex_wrap : ∀ z, 0 ≤ z < limit T → wrap_like h z = z;
}.

Lemma new_Fast64_spec (tg : target) (d : Z) : fast_ok Int64 d →
  ∃ lg, new_Fast64 tg d = Ret (Fast64 d lg) ∧ (0 ≤ lg → d = 2 ^ lg).
Proof.
  intros [Hd Hok]. cbn [limit] in Hd. specialize (Hok eq_refl). unfold new_Fast64.
  destruct (Z.eqb_spec d 0); [lia|]. destruct (Z.leb_spec 1 d); [|lia].
  destruct (Z.leb_spec d (2 ^ 63 - 1)); [|lia]. cbn [andb CHECK].
  destruct (Z.eqb_spec (Z.land d (d - 1)) 0) as [Hp|Hp].
  - apply power_2_spec in Hp; [|lia]. assert (Hsm : d < 2 ^ 32) by tauto.
    destruct tg; cbn [leading_zeroes].
    + assert (Hu : u32 d = d) by (apply Z.mod_small; lia). rewrite Hu.
      destruct (Z.eqb_spec d 0); [lia|]. cbn [obind]. eexists. split; [done|]. intros _.
      by replace (31 - (31 - Z.log2 d)) with (Z.log2 d) by lia.
    + rewrite u64_small by (unfold is_u64, u64_modulus; lia).
      destruct (Z.eqb_spec d 0); [lia|]. cbn [obind]. eexists. split; [done|].
      assert (Z.log2 d < 32) by (apply Z.log2_lt_pow2; lia). lia.
  - cbn [obind]. eexists. split; [done|]. lia.
Qed.

Lemma new_exact (tg : target) (T : IndexType) (d : Z) : fast_ok T d →
  ∃ h, new_FastIntegerMath tg T d = Ret h ∧ exact tg T h d.
Proof.
  intros Hok. destruct T; cbn [new_FastIntegerMath].
  - destruct Hok as [Hd _]. cbn [limit] in Hd.
    destruct (new_Fast32_spec d Hd) as (M & l & -> & Hl & Hdl & HM & HMe).
    eexists. split; [done|]. constructor; cbn [limit operand_of mul wrap_like]; [done|..].
    + intros n Hn. apply divides32_spec; lia.
    + intros q Hq Hqd. apply i32_small. nia.
    + intros z Hz. apply i32_small. lia.
  - destruct (new_Fast64_spec tg d Hok) as (lg & -> & Hlg). destruct Hok as [Hd _]. cbn [limit] in Hd.
    eexists. split; [done|]. constructor; cbn [limit operand_of divides mul wrap_like]; [done|..].
    + intros n Hn. destruct (Z.leb_spec 0 lg) as [Hl|Hl].
      * rewrite Z.shiftr_div_pow2, <- Hlg by done. done.
      * apply Z.quot_div_nonneg; lia.
    + intros q Hq Hqd. destruct (Z.leb_spec 0 lg) as [Hl|Hl].
      * rewrite Z.shiftl_mul_pow2, <- Hlg by done. apply i64_small. unfold is_i64. nia.
      * apply i64_small. unfold is_i64. nia.
    + intros z Hz. apply i64_small. unfold is_i64. lia.
Qed.

(** On the device the 64-bit helper divides wrongly by large powers of two: it
    subtracts a 64-bit count of leading zeroes from 31, so that the divisor [2^k]
    with [32 <= k < 63] is divided by as if it were [2^(k-32)]. *)
Theorem device_power_of_two_division (k n : Z) : 32 ≤ k < 63 → 0 ≤ n →
  ∃ h, new_FastIntegerMath Device Int64 (2 ^ k) = Ret h ∧ divides Device h n = n / 2 ^ (k - 32).
Proof.
  intros Hk Hn. assert (Hp : 0 < 2 ^ k) by (apply Z.pow_pos_nonneg; lia).
  assert (Hlt : 2 ^ k < 2 ^ 63) by (apply Z.pow_lt_mono_r; lia).
  cbn [new_FastIntegerMath]. unfold new_Fast64.
  assert (Hl : Z.land (2 ^ k) (2 ^ k - 1) = 0)
    by (apply power_2_spec; [done|]; rewrite Z.log2_pow2 by lia; done).
  rewrite Hl, Z.eqb_refl. cbn [leading_zeroes].
  rewrite u64_small by (unfold is_u64, u64_modulus; lia).
  destruct (Z.eqb_spec (2 ^ k) 0); [lia|]. cbn [obind].
  destruct (Z.leb_spec 1 (2 ^ k)); [|lia]. destruct (Z.leb_spec (2 ^ k) (2 ^ 63 - 1)); [|lia].
  cbn [andb CHECK obind]. eexists. split; [done|]. cbn [divides]. rewrite Z.log2_pow2 by lia.
  replace (31 - (63 - k)) with (k - 32) by lia.
  destruct (Z.leb_spec 0 (k - 32)); [|lia]. by apply Z.shiftr_div_pow2.
Qed.

(** On the host the helper of such a divisor counts the leading zeroes of its lower 32
    bits, all zero, which is undefined. *)
Lemma host_power_of_two_division (k : Z) : 32 ≤ k < 63 → new_FastIntegerMath Host Int64 (2 ^ k) = Crash.
Proof.
  intros Hk. cbn [new_FastIntegerMath]. unfold new_Fast64.
  assert (Hl : Z.land (2 ^ k) (2 ^ k - 1) = 0)
    by (apply power_2_spec; [apply Z.pow_pos_nonneg; lia|]; rewrite Z.log2_pow2 by lia; done).
  rewrite Hl, Z.eqb_refl. cbn [leading_zeroes].
  assert (u32 (2 ^ k) = 0) as ->.
  { apply Z.mod_divide; [done|]. exists (2 ^ (k - 32)). rewrite <- (Z.pow_add_r 2 (k - 32) 32) by lia. f_equal. lia. }
  done.
Qed.

Lemma not_fast_ok (T : IndexType) (d : Z) : 0 < d < limit T → ¬ fast_ok T d → T = Int64 ∧ ∃ k, 32 ≤ k < 63 ∧ d = 2 ^ k.
Proof.
  intros Hd Hn. destruct T; [destruct Hn; by split|]. split; [done|]. cbn [limit] in Hd.
  destruct (Z.lt_ge_cases d (2 ^ 32)) as [|Hge]; [destruct Hn; split; [done|by intros; left]|].
  destruct (decide (d = 2 ^ Z.log2 d)) as [E|]; [|destruct Hn; split; [done|by intros; right]]. exists (Z.log2 d). split; [|done]. split.
  - apply Z.log2_le_pow2; lia.
  - apply Z.log2_lt_pow2; lia.
Qed.

(** C25 Division by a multiplication and a shift, and by a shift: for every positive divisor
    [d] of the 32-bit and the 64-bit helper, on the host and on the device, and every index
    [n] that is not negative.  If [d] has 32 bits, or is a 64-bit number that is below 2^32
    or not a power of two, the constructor returns (its asserts hold), [divides], [mod] and
    [divmod] are the quotient and the remainder, and [mul] undoes the division.  The divisors
    that are left are the powers of two from 2^32 on, which the 64-bit helper divides by as
    if they were 2^32 times smaller on the device; on the host its constructor is
    undefined. *)
Theorem fast_division_exact (tg : target) (T : IndexType) (d n : Z) :
  0 < d < limit T → 0 ≤ n < limit T →
  (fast_ok T d → ∃ h, new_FastIntegerMath tg T d = Ret h ∧ divides tg h n = n / d ∧
     mod_ tg h n = n mod d ∧ divmod tg h n = (n / d, n mod d) ∧
     mul h (n / d) = n - n mod d) ∧
  (¬ fast_ok T d → T = Int64 ∧ ∃ k, 32 ≤ k < 63 ∧ d = 2 ^ k ∧
     match tg with
     | Host => new_FastIntegerMath tg T d = Crash
     | Device => ∃ h, new_FastIntegerMath tg T d = Ret h ∧ divides tg h n = n / 2 ^ (k - 32)
     end).
Proof.
  intros Hdl Hn. split.
  - intros Hok. destruct (new_exact tg T d Hok) as (h & E & Hex). exists h. split; [done|].
    assert (Hd : 0 < d) by apply Hok. pose proof (Z.div_mod n d ltac:(lia)) as Hdm.
    pose proof (Z.mod_pos_bound n d Hd). pose proof (Z.div_pos n d (proj1 Hn) Hd).
    unfold mod_, divmod. rewrite (ex_div _ _ _ _ Hex), (ex_operand _ _ _ _ Hex) by done.
    replace (n - n / d * d) with (n mod d) by lia.
    rewrite (ex_wrap _ _ _ _ Hex) by lia. split_and!; [done..|].
    rewrite (ex_mul _ _ _ _ Hex); nia.
  - intros Hno. destruct (not_fast_ok T d Hdl Hno) as (-> & k & Hk & ->). split; [done|]. exists k. split; [done|split; [done|]].
    destruct tg; [by apply host_power_of_two_division|apply device_power_of_two_division; [done|apply Hn]].
Qed.

Lemma fast_division_exact_witness :
  ∃ h, new_FastIntegerMath Device Int32 7 = Ret h ∧ divides Device h 2147483647 = 306783378.
Proof.
  destruct (fast_division_exact Device Int32 7 2147483647) as [H _]; [simpl; lia|simpl; lia|].
  destruct H as (h & E & D & _); [split; [simpl; lia|discriminate]|].
  exists h. split; [exact E|]. rewrite D. reflexivity.
Defined.

Lemma device_power_of_two_division_witness :
  ∃ h, new_FastIntegerMath Device Int64 (2 ^ 40) = Ret h ∧ divides Device h (2 ^ 40) = 2 ^ 32.
Proof.
  destruct (device_power_of_two_division 40 (2 ^ 40)) as (h & E & D); [lia|lia|].
  exists h. split; [exact E|]. rewrite D. reflexivity.
Defined.

(** ** The index calculator *)

Lemma index_loop_exact (tg : target) (T : IndexType) (hs : list FastIntegerMath) (ds : list Z) (x : Z) :
  Forall2 (exact tg T) hs ds → Forall (λ d, 0 < d) ds → 0 ≤ x < limit T →
  index_loop tg hs x = offset_loop ds x.
Proof.
  intros Hf. revert x. induction Hf as [|h d hs ds Hex _ IH]; intros x Hd Hx; [done|].
  apply Forall_cons in Hd as [Hd Hds]. cbn [index_loop offset_loop].
  pose proof (Z.div_mod x d ltac:(lia)). pose proof (Z.mod_pos_bound x d Hd).
  pose proof (Z.div_pos x d (proj1 Hx) Hd).
  rewrite (ex_div _ _ _ _ Hex), (ex_mul _ _ _ _ Hex) by nia.
  rewrite Z.quot_div_nonneg by lia. rewrite IH; [done|done|nia].
Qed.

Lemma InitFastIntegerMath_exact (tg : target) (T : IndexType) (N : nat) (dims : list Z) :
  (1 ≤ length dims ≤ N)%nat → Forall (fast_ok T) (row_major dims) →
  ∃ hs, InitFastIntegerMath tg T N dims (length dims) = Ret hs ∧
    Forall2 (exact tg T) hs (row_major dims ++ replicate (N - length dims) 1).
Proof.
  intros HN Hok. unfold InitFastIntegerMath. rewrite InitStrides_row_major by done.
  assert (Hall : Forall (fast_ok T) (row_major dims ++ replicate (N - length dims) 1)).
  { apply Forall_app. split; [done|]. apply Forall_replicate. split; [by destruct T|]. left. done. }
  revert Hall. generalize (row_major dims ++ replicate (N - length dims) 1). clear.
  intros l. induction 1 as [|d l Hd _ (hs & E & IH)]; [by exists []|].
  destruct (new_exact tg T d Hd) as (h & Eh & Hex).
  exists (h :: hs). cbn [omap_list]. rewrite Eh. cbn [obind]. rewrite E. by split; [|constructor].
Qed.

(** The calculator inverts the row-major offset. *)
Lemma CalcOffsetToNdIndex_spec (tg : target) (T : IndexType) (N : nat) (dims index : list Z)
    (hs : list FastIntegerMath) :
  (1 ≤ length dims ≤ N)%nat → Forall (λ d, 0 < d) dims → index_in index dims →
  prodZ dims ≤ limit T →
  Forall2 (exact tg T) hs (row_major dims ++ replicate (N - length dims) 1) →
  CalcOffsetToNdIndex tg hs (offset_of index dims) (length dims) = index.
Proof.
  intros HN Hpos Hin Hlim Hhs. pose proof (offset_of_range index dims Hin) as Ho.
  assert (Hne : dims ≠ []) by (intros ->; simpl in HN; lia).
  unfold CalcOffsetToNdIndex.
  rewrite (index_loop_exact tg T _ (take (length dims - 1) (row_major dims))).
  - pose proof (offset_loop_row_major index dims Hin) as HL.
    rewrite (take_row_major_last dims) in HL by done. rewrite offset_loop_app in HL.
    destruct (offset_loop (take _ _) _) as [i r]. simpl in HL.
    injection HL as <- _. do 2 f_equal. by rewrite Z.quot_1_r.
  - apply (Forall2_take _ _ _ (length dims - 1)) in Hhs.
    by rewrite take_app_le in Hhs by (rewrite row_major_length; lia).
  - apply Forall_take. unfold row_major. apply Forall_map, Forall_forall. intros i _.
    apply prodZ_pos. by apply Forall_drop.
  - lia.
Qed.
