(* ===== verification/Broadcast.v ===== *)
(** * Broadcasting element-wise binary operations (CPU)

    Models [oneflow/core/ep/common/primitive/util.h] (the simplification of
    broadcast dimensions), [IsDimsEquals] of
    [ep/common/primitive/broadcast_elementwise_binary.h] and the CPU primitive
    [oneflow/core/ep/cpu/primitive/broadcast_elementwise_binary.cpp]: axes that are
    broadcast alike are merged, then one of eight kernels is launched.  The
    functor ([BinaryFunctor]) is a parameter; buffers are lists; [ParallelFor]
    splits its range over threads and every iteration writes its own element, so
    the model runs the range in order.  The theorem is that the primitive computes
    the broadcast of the functor over the unsimplified shapes. *)
From S2P Require Import Prelude Shape NdIndex CopyNd FastMath.

(** ** Simplification of the dimensions *)

Definition GetElementCount (dims : list Z) : Z := foldl (λ c d, u64 (c * d)) 1 dims.

(** [CheckInplace]: equal pointers need equal dimensions. *)
Definition CheckInplace (src dst : Z) (src_dims dst_dims : list Z) : outcome unit :=
  if src =? dst then CHECK (bool_decide (src_dims = dst_dims)) else Ret tt.

(** [MakeGetDim]: the padding count is an [int64_t] that is compared with a
    [size_t]. *)
Definition GetDim (num_max_dims : Z) (dims : list Z) (index : Z) : outcome Z :=
  let num_padding_dims := num_max_dims - Z.of_nat (length dims) in
  if index <? u64 num_padding_dims then Ret 1 else at_ dims (index - num_padding_dims).

(** One simplified axis: [simplified_{broadcast,a,b,c}_dims[k]]. *)
Record axis4 := mkAxis4 { bc_dim : Z; a_dim : Z; b_dim : Z; c_dim : Z }.

(** The flags [prev_broadcast_{a,b,c}]. *)
Definition flags : Type := bool * bool * bool.

Definition flags_eqb (x y : flags) : bool := bool_decide (x = y).

Definition flags_of (x : axis4) : flags := (a_dim x =? 1, b_dim x =? 1, c_dim x =? 1).

Definition merge_axis (p x : axis4) : axis4 :=
  mkAxis4 (bc_dim p * bc_dim x) (a_dim p * a_dim x) (b_dim p * b_dim x) (c_dim p * c_dim x).

(** The loop body after the dimensions are read; the axes found so far are kept
    last first. *)
Definition simplify_axis (st : list axis4 * flags) (x : axis4) : list axis4 * flags :=
  let '(acc, prev) := st in
  if bc_dim x =? 1 then st
  else match acc with
       | p :: acc' => if flags_eqb prev (flags_of x) then (merge_axis p x :: acc', prev)
                      else (x :: acc, flags_of x)
       | [] => ([x], flags_of x)
       end.

Definition check_axis (x : axis4) : outcome unit :=
  let* _ := CHECK (0 <? bc_dim x) in
  let* _ := CHECK ((a_dim x =? bc_dim x) || (a_dim x =? 1)) in
  let* _ := CHECK ((b_dim x =? bc_dim x) || (b_dim x =? 1)) in
  CHECK ((c_dim x =? bc_dim x) || (c_dim x =? 1)).

Definition read_axis (num_max_dims : Z) (a_dims b_dims c_dims : list Z) (i : Z) : outcome axis4 :=
  let* a := GetDim num_max_dims a_dims i in
  let* b := GetDim num_max_dims b_dims i in
  let* c := GetDim num_max_dims c_dims i in
  Ret (mkAxis4 (Z.max (Z.max a b) c) a b c).

(** [SimplifyBroadcastDims] on three shapes.  When no axis is left the entry of
    [simplified_broadcast_dims] keeps what the caller's array held. *)
Definition SimplifyBroadcastDims3 (a_dims b_dims c_dims : list Z) (broadcast0 : Z)
    : outcome (list axis4) :=
  let num_max_dims := Z.max (Z.of_nat (length a_dims)) (Z.of_nat (length b_dims)) in
  let* st := ofold (λ st i,
                 let* x := read_axis num_max_dims a_dims b_dims c_dims i in
                 let* _ := check_axis x in
                 Ret (simplify_axis st x))
               (range_list 0 num_max_dims) ([], (false, false, false)) in
  match st.1 with
  | [] => Ret [mkAxis4 broadcast0 1 1 1]
  | acc => Ret (rev acc)
  end.

(** The shape of the result: [dst_dims[i] = std::max(src0_dim, src1_dim)] on
    [size_t]. *)
Definition dst_dim_at (num_dst_dims : Z) (src0_dims src1_dims : list Z) (i : Z) : outcome Z :=
  let pad0 := num_dst_dims - Z.of_nat (length src0_dims) in
  let pad1 := num_dst_dims - Z.of_nat (length src1_dims) in
  let* d0 := (if i <? pad0 then Ret 1 else at_ src0_dims (i - pad0)) in
  let* d1 := (if i <? pad1 then Ret 1 else at_ src1_dims (i - pad1)) in
  Ret (i64 (Z.max (u64 d0) (u64 d1))).

(** [SimplifyBroadcastDims] on two operands: the simplified dimensions of the
    operands and of the result. *)
Definition SimplifyBroadcastDims (src0_dims src1_dims : list Z) (broadcast0 : Z)
    : outcome (list Z * list Z * list Z) :=
  let src0_count := GetElementCount src0_dims in
  let src1_count := GetElementCount src1_dims in
  if (src0_count =? 1) || (src1_count =? 1) then
    Ret ([i64 src0_count], [i64 src1_count], [i64 (Z.max src0_count src1_count)])
  else
    let num_dst_dims := Z.max (Z.of_nat (length src0_dims)) (Z.of_nat (length src1_dims)) in
    let* dst_dims := omap_list (dst_dim_at num_dst_dims src0_dims src1_dims)
                               (range_list 0 num_dst_dims) in
    let* axes := SimplifyBroadcastDims3 src0_dims src1_dims dst_dims broadcast0 in
    let* _ := CHECK (forallb (λ x, bc_dim x =? c_dim x) axes) in
    Ret (map a_dim axes, map b_dim axes, map c_dim axes).

Definition IsDimsEquals (src0_dims src1_dims : list Z) : bool := bool_decide (src0_dims = src1_dims).

(** ** Kernels *)

Section Kernels.
Context {A B : Type} (functor : A → A → B).

(** [dst[i] = v]. *)
Definition write_at (dst : list B) (i : Z) (v : B) : outcome (list B) :=
  if (0 <=? i) && (i <? Z.of_nat (length dst)) then Ret (<[Z.to_nat i := v]> dst) else Crash.

(** [dst[k] = functor(src0[o0], src1[o1])]. *)
Definition store (src0 src1 : list A) (dst : list B) (k o0 o1 : Z) : outcome (list B) :=
  let* x := at_ src0 o0 in
  let* y := at_ src1 o1 in
  write_at dst k (functor x y).

Definition LaunchElementwise (src0_dims : list Z) (src0 src1 : list A) (dst : list B)
    : outcome (list B) :=
  let elem_cnt := i64 (GetElementCount src0_dims) in
  ofold (λ dst i, store src0 src1 dst i i i) (range_list 0 elem_cnt) dst.

Definition LaunchBinaryLhsScalar (src0_value : A) (src1_elem_cnt : Z) (src1 : list A) (dst : list B)
    : outcome (list B) :=
  ofold (λ dst i, let* y := at_ src1 i in write_at dst i (functor src0_value y))
        (range_list 0 src1_elem_cnt) dst.

Definition LaunchBinaryRhsScalar (src1_value : A) (src0_elem_cnt : Z) (src0 : list A) (dst : list B)
    : outcome (list B) :=
  ofold (λ dst i, let* x := at_ src0 i in write_at dst i (functor x src1_value))
        (range_list 0 src0_elem_cnt) dst.

(** The row and column kernels: two nested loops. *)
Definition LaunchRowWithMatrix (src0_dims src1_dims : list Z) (src0 src1 : list A) (dst : list B)
    : outcome (list B) :=
  let* rows := at_ src1_dims 0 in
  let* cols := at_ src0_dims 1 in
  ofold (λ dst row_idx,
           ofold (λ dst col_idx,
                    store src0 src1 dst (row_idx * cols + col_idx) col_idx (row_idx * cols + col_idx))
                 (range_list 0 cols) dst)
        (range_list 0 rows) dst.

Definition LaunchMatrixWithRow (src0_dims src1_dims : list Z) (src0 src1 : list A) (dst : list B)
    : outcome (list B) :=
  let* rows := at_ src0_dims 0 in
  let* cols := at_ src1_dims 1 in
  ofold (λ dst row_idx,
           ofold (λ dst col_idx,
                    store src0 src1 dst (row_idx * cols + col_idx) (row_idx * cols + col_idx) col_idx)
                 (range_list 0 cols) dst)
        (range_list 0 rows) dst.

Definition LaunchColWithMatrix (src0_dims src1_dims : list Z) (src0 src1 : list A) (dst : list B)
    : outcome (list B) :=
  let* rows := at_ src0_dims 0 in
  let* cols := at_ src1_dims 1 in
  ofold (λ dst row_idx,
           ofold (λ dst col_idx,
                    store src0 src1 dst (row_idx * cols + col_idx) row_idx (row_idx * cols + col_idx))
                 (range_list 0 cols) dst)
        (range_list 0 rows) dst.

Definition LaunchMatrixWithCol (src0_dims src1_dims : list Z) (src0 src1 : list A) (dst : list B)
    : outcome (list B) :=
  let* rows := at_ src1_dims 0 in
  let* cols := at_ src0_dims 1 in
  ofold (λ dst row_idx,
           ofold (λ dst col_idx,
                    store src0 src1 dst (row_idx * cols + col_idx) (row_idx * cols + col_idx) row_idx)
                 (range_list 0 cols) dst)
        (range_list 0 rows) dst.

(** The coordinates an operand is read at: zero on its broadcast axes. *)
Definition src_index (src_dims dst_index : list Z) : list Z :=
  zip_with (λ d i, if negb (d =? 1) then i else 0) src_dims dst_index.

(** [LaunchGeneral<..., IndexType>].  Strides, indices and offsets are values of
    the index type: one that does not fit stops the model. *)
Definition LaunchGeneral (T : IndexType) (src0_dims src1_dims dst_dims : list Z)
    (src0 src1 : list A) (dst : list B) (dst_elem_cnt : Z) : outcome (list B) :=
  let n := length dst_dims in
  let src0_stride := InitStrides 8 src0_dims n in
  let src1_stride := InitStrides 8 src1_dims n in
  let bits := match T with Int32 => 32 | Int64 => 64 end in
  let* _ := CHECK (forallb (fits bits) (src0_stride ++ src1_stride ++ InitStrides 8 dst_dims n)) in
  let* helper := InitFastIntegerMath Host T 8 dst_dims n in
  ofold (λ dst offset,
           let dst_index := CalcOffsetToNdIndex Host helper offset n in
           let src0_offset := NdIndexToOffset src0_stride (src_index src0_dims dst_index) n in
           let src1_offset := NdIndexToOffset src1_stride (src_index src1_dims dst_index) n in
           let* _ := CHECK (fits bits src0_offset && fits bits src1_offset) in
           store src0 src1 dst offset src0_offset src1_offset)
        (range_list 0 dst_elem_cnt) dst.

Definition LaunchGeneralDispatchIndexType (src0_dims src1_dims dst_dims : list Z)
    (src0 src1 : list A) (dst : list B) : outcome (list B) :=
  let dst_elem_cnt := i64 (GetElementCount dst_dims) in
  if dst_elem_cnt <? (2 ^ 31 - 1) / 2
  then LaunchGeneral Int32 src0_dims src1_dims dst_dims src0 src1 dst dst_elem_cnt
  else LaunchGeneral Int64 src0_dims src1_dims dst_dims src0 src1 dst dst_elem_cnt.

(** [simplified_src_dims[i] == d], an entry that exists. *)
Definition dim_is (dims : list Z) (i : nat) (d : Z) : bool := bool_decide (dims !! i = Some d).
Definition same_dim (x y : list Z) (i : nat) : bool := bool_decide (x !! i = y !! i).

(** [DispatchLaunch], with the addresses of the three buffers. *)
Definition DispatchLaunch (src0_dims src1_dims : list Z) (src0_ptr src1_ptr dst_ptr : Z)
    (src0 src1 : list A) (dst : list B) (broadcast0 : Z) : outcome (list B) :=
  let* r := SimplifyBroadcastDims src0_dims src1_dims broadcast0 in
  let '(s0, s1, sd) := r in
  let n := length sd in
  let* _ := CheckInplace src0_ptr dst_ptr s0 sd in
  let* _ := CheckInplace src1_ptr dst_ptr s1 sd in
  if IsDimsEquals s0 s1 then LaunchElementwise s0 src0 src1 dst
  else if Nat.eqb n 1 && dim_is s0 0 1 then
    let* v := at_ src0 0 in let* cnt := at_ s1 0 in LaunchBinaryLhsScalar v cnt src1 dst
  else if Nat.eqb n 1 && dim_is s1 0 1 then
    let* v := at_ src1 0 in let* cnt := at_ s0 0 in LaunchBinaryRhsScalar v cnt src0 dst
  else if Nat.eqb n 2 && dim_is s0 0 1 && same_dim s0 s1 1 then LaunchRowWithMatrix s0 s1 src0 src1 dst
  else if Nat.eqb n 2 && dim_is s1 0 1 && same_dim s0 s1 1 then LaunchMatrixWithRow s0 s1 src0 src1 dst
  else if Nat.eqb n 2 && dim_is s0 1 1 && same_dim s0 s1 0 then LaunchColWithMatrix s0 s1 src0 src1 dst
  else if Nat.eqb n 2 && dim_is s1 1 1 && same_dim s0 s1 0 then LaunchMatrixWithCol s0 s1 src0 src1 dst
  else LaunchGeneralDispatchIndexType s0 s1 sd src0 src1 dst.

(** The overloads with a scalar operand. *)
Definition Launch_scalar_lhs (src0 : A) (src1_dims : list Z) (src1 : list A) (dst : list B)
    : outcome (list B) :=
  LaunchBinaryLhsScalar src0 (GetElementCount src1_dims) src1 dst.
Definition Launch_scalar_rhs (src0_dims : list Z) (src0 : list A) (src1 : A) (dst : list B)
    : outcome (list B) :=
  LaunchBinaryRhsScalar src1 (GetElementCount src0_dims) src0 dst.

End Kernels.

(** ** The reference: broadcasting over the unsimplified shapes *)

(** Left padding with ones to [n] axes. *)
Definition padded (n : nat) (dims : list Z) : list Z := replicate (n - length dims) 1 ++ dims.

Definition broadcast_dims (src0_dims src1_dims : list Z) : list Z :=
  let n := Nat.max (length src0_dims) (length src1_dims) in
  zip_with Z.max (padded n src0_dims) (padded n src1_dims).

(** An operand dimension agrees with the result's or is one. *)
Definition broadcastable (dims dst_dims : list Z) : Prop :=
  Forall2 (λ d e, d = e ∨ d = 1) dims dst_dims.

(** The row-major offsets an operand is read at, in the row-major order of the
    result. *)
Definition read_offsets (dims dst_dims : list Z) : list Z :=
  (λ idx, offset_of (src_index dims idx) dims) <$> all_indices dst_dims.

Example broadcast_row : DispatchLaunch Z.add [2; 1; 3] [3] 0 1 2 [0; 1; 2; 3; 4; 5] [10; 20; 30]
  (replicate 6 0) 99 = Ret [10; 21; 32; 13; 24; 35].
Proof. reflexivity. Qed.

(** ** Strided walks *)

(** The offsets of a row-major walk over (extent, stride) axes. *)
Fixpoint swalk (axes : list (Z * Z)) : list Z :=
  match axes with
  | [] => [0]
  | (n, s) :: axes => i ← range_list 0 n; (λ o, i * s + o) <$> swalk axes
  end.

Lemma swalk_tail (pre xs ys : list (Z * Z)) : swalk xs = swalk ys → swalk (pre ++ xs) = swalk (pre ++ ys).
Proof. intros H. induction pre as [|[n s] pre IH]; [done|]. cbn [app swalk]. by rewrite IH. Qed.

(** Two axes of which the outer one steps over the whole inner one are one axis. *)
Lemma swalk_merge (n1 n2 s : Z) (post : list (Z * Z)) : 0 ≤ n1 → 0 ≤ n2 →
  swalk ((n1, s * n2) :: (n2, s) :: post) = swalk ((n1 * n2, s) :: post).
Proof.
  intros H1 H2. cbn [swalk]. rewrite range_list_mul, bind_bind_assoc by done.
  apply bind_ext_all. intros i. rewrite fmap_bind_assoc, bind_fmap_assoc. apply bind_ext_all. intros j.
  rewrite <- list_fmap_compose. apply list_fmap_ext. intros _ o _. simpl. lia.
Qed.

Lemma swalk_unit (s : Z) (post : list (Z * Z)) : swalk ((1, s) :: post) = swalk post.
Proof.
  cbn [swalk]. change (range_list 0 1) with [0]. rewrite bind_singleton.
  rewrite <- (list_fmap_id (swalk post)) at 2. apply list_fmap_ext. intros _ o _. simpl. lia.
Qed.

(** The strides an operand of dimensions [snd] is read with along a result of
    dimensions [fst]. *)
Fixpoint strided (l : list (Z * Z)) : list (Z * Z) :=
  match l with
  | [] => []
  | (D, a) :: l => (D, if a =? 1 then 0 else prodZ (map snd l)) :: strided l
  end.

Lemma strided_tail (pre xs ys : list (Z * Z)) :
  prodZ (map snd xs) = prodZ (map snd ys) → swalk (strided xs) = swalk (strided ys) →
  swalk (strided (pre ++ xs)) = swalk (strided (pre ++ ys)).
Proof.
  intros Hp H. induction pre as [|[D a] pre IH]; [done|]. cbn [app strided swalk]. rewrite IH.
  by rewrite !map_app, !prodZ_app, Hp.
Qed.

Lemma read_offsets_swalk (dims dst_dims : list Z) : length dims = length dst_dims →
  read_offsets dims dst_dims = swalk (strided (zip dst_dims dims)).
Proof.
  unfold read_offsets. revert dims. induction dst_dims as [|D Ds IH]; intros [|a dims] Hl; try done.
  cbn [all_indices zip zip_with strided swalk]. rewrite fmap_bind_assoc. apply bind_ext_all. intros i.
  rewrite <- IH by (simpl in Hl; lia). rewrite <- !list_fmap_compose.
  apply list_fmap_ext. intros _ idx _. cbn [compose src_index zip_with offset_of]. unfold compose. rewrite snd_zip by (simpl in Hl; lia).
  fold (src_index dims idx). destruct (a =? 1); cbn [negb]; lia.
Qed.

Lemma all_indices_lookup (dims idx : list Z) : Forall (λ d, 0 ≤ d) dims → index_in idx dims →
  all_indices dims !! Z.to_nat (offset_of idx dims) = Some idx.
Proof.
  intros Hd Hin. pose proof (all_indices_complete dims idx Hin) as [j Hj]%list_elem_of_lookup_1.
  pose proof (all_indices_offsets dims Hd) as Ho.
  apply (f_equal (.!! j)) in Ho. rewrite list_lookup_fmap, Hj in Ho. simpl in Ho.
  unfold range_list in Ho. rewrite list_lookup_fmap in Ho.
  destruct (seq 0 _ !! j) as [j'|] eqn:Es; [|done]. apply lookup_seq in Es as [-> _].
  cbn in Ho. injection Ho as Ho. rewrite Ho. by replace (Z.to_nat _) with j by lia.
Qed.

Lemma read_offsets_lookup (dims dst_dims idx : list Z) :
  Forall (λ d, 0 ≤ d) dst_dims → index_in idx dst_dims →
  read_offsets dims dst_dims !!! Z.to_nat (offset_of idx dst_dims) = offset_of (src_index dims idx) dims.
Proof.
  intros Hd Hin. apply list_lookup_total_correct. unfold read_offsets.
  by rewrite list_lookup_fmap, all_indices_lookup.
Qed.

Lemma src_index_in (dims dst_dims idx : list Z) :
  broadcastable dims dst_dims → Forall (λ d, 0 < d) dst_dims → index_in idx dst_dims →
  index_in (src_index dims idx) dims.
Proof.
  unfold broadcastable. intros Hb. revert idx.
  induction Hb as [|d e dims Ds Hde Hb IH]; intros idx Hp Hin; inversion Hin as [|i ? idx' ? Hi Hrest];
    subst; [constructor|].
  apply Forall_cons in Hp as [He Hp]. cbn [src_index zip_with]. constructor; [|by apply IH].
  destruct (Z.eqb_spec d 1); simpl; lia.
Qed.

(** ** Merging axes does not change what is read where *)

Definition op_axes (f : axis4 → Z) (axes : list axis4) : list (Z * Z) := map (λ x, (bc_dim x, f x)) axes.

Definition good_for (f : axis4 → Z) (x : axis4) : Prop := f x = bc_dim x ∨ f x = 1.

(** An axis of three operands that passed the checks. *)
Definition good_axis (x : axis4) : Prop :=
  0 < bc_dim x ∧ good_for a_dim x ∧ good_for b_dim x ∧ good_for c_dim x.

(** The operands of a merged axis. *)
Class Operand (f : axis4 → Z) : Prop := {
  operand_merge p x : f (merge_axis p x) = f p * f x;
  operand_flag p x : flags_of p = flags_of x → (f p =? 1) = (f x =? 1);
  operand_good x : good_axis x → good_for f x;
}.

#[local] Instance operand_a : Operand a_dim.
Proof. constructor; [done|intros p x [= H _ _]; exact H|by intros x (_ & H & _)]. Qed.
#[local] Instance operand_b : Operand b_dim.
Proof. constructor; [done|intros p x [= _ H _]; exact H|by intros x (_ & _ & H & _)]. Qed.
#[local] Instance operand_c : Operand c_dim.
Proof. constructor; [done|intros p x [= _ _ H]; exact H|by intros x (_ & _ & _ & H)]. Qed.

Lemma op_axes_snd (f : axis4 → Z) (axes : list axis4) : map snd (op_axes f axes) = map f axes.
Proof. unfold op_axes. by rewrite map_map. Qed.

Lemma op_walk_merge (f : axis4 → Z) `{!Operand f} (pre post : list axis4) (p x : axis4) :
  good_axis p → good_axis x → flags_of p = flags_of x →
  swalk (strided (op_axes f (pre ++ p :: x :: post))) =
  swalk (strided (op_axes f (pre ++ merge_axis p x :: post))).
Proof.
  intros Hp Hx Hf. unfold op_axes. rewrite !map_app. apply strided_tail.
  { cbn [map snd]. rewrite !prodZ_cons, (operand_merge (f:=f)). lia. }
  cbn [map]. cbn [strided map snd]. rewrite (operand_merge (f:=f)), prodZ_cons.
  pose proof (operand_flag (f:=f) p x Hf) as Hfl. rewrite <- Hfl.
  pose proof (operand_good (f:=f) p Hp) as Gp. pose proof (operand_good (f:=f) x Hx) as Gx. unfold good_for in *.
  destruct Hp as [Hp _], Hx as [Hx _]. set (P := prodZ _).
  destruct (Z.eqb_spec (f p) 1) as [E|E].
  - assert (f x = 1) as E' by (by apply Z.eqb_eq).
    rewrite E, E'. cbn [Z.mul Z.eqb Pos.mul Pos.eqb].
    rewrite <- (swalk_merge (bc_dim p) (bc_dim x) 0) by lia. by rewrite Z.mul_0_l.
  - assert (f x ≠ 1) as E' by (by apply Z.eqb_neq). destruct Gp as [Gp|?]; [|done]. destruct Gx as [Gx|?]; [|done].
    destruct (Z.eqb_spec (f p * f x) 1); [nia|].
    rewrite <- (swalk_merge (bc_dim p) (bc_dim x) P) by lia. rewrite Gx. do 3 f_equal. lia.
Qed.

Lemma op_walk_unit (f : axis4 → Z) `{!Operand f} (pre post : list axis4) (x : axis4) :
  good_axis x → bc_dim x = 1 →
  swalk (strided (op_axes f (pre ++ x :: post))) = swalk (strided (op_axes f (pre ++ post))).
Proof.
  intros Hx E. unfold op_axes. rewrite !map_app.
  assert (f x = 1) as Ef by (destruct (operand_good (f:=f) x Hx); lia).
  apply strided_tail; cbn [map snd].
  - rewrite prodZ_cons, Ef. lia.
  - cbn [strided]. rewrite E. apply swalk_unit.
Qed.

Lemma merge_good (p x : axis4) : good_axis p → good_axis x → flags_of p = flags_of x →
  good_axis (merge_axis p x).
Proof.
  intros Hp Hx Hf. unfold good_axis. cbn [bc_dim merge_axis].
  split; [destruct Hp as [? _], Hx as [? _]; nia|].
  assert (G : ∀ f, Operand f → good_for f (merge_axis p x)).
  { intros f Hop. pose proof (operand_flag (f:=f) p x Hf) as Hfl. unfold good_for. rewrite (operand_merge (f:=f)).
    cbn [bc_dim merge_axis]. destruct (operand_good (f:=f) p Hp) as [Gp|Gp], (operand_good (f:=f) x Hx) as [Gx|Gx];
      rewrite ?Gp, ?Gx in *; first [left; lia | right; lia]. }
  split_and!; apply G; apply _.
Qed.

(** The loop over the axes: what is left to visit is read the same way. *)
Definition settled (st : list axis4 * flags) : Prop :=
  Forall good_axis st.1 ∧ Forall (λ x, bc_dim x ≠ 1) st.1 ∧
  match st.1 with [] => True | p :: _ => st.2 = flags_of p end.

Lemma simplify_axis_step (st : list axis4 * flags) (x : axis4) :
  settled st → good_axis x →
  settled (simplify_axis st x) ∧
  (∀ f `{!Operand f} post,
     swalk (strided (op_axes f (rev (simplify_axis st x).1 ++ post))) =
     swalk (strided (op_axes f (rev st.1 ++ x :: post)))) ∧
  prodZ (map bc_dim (simplify_axis st x).1) = prodZ (map bc_dim st.1) * bc_dim x ∧
  (length (simplify_axis st x).1 ≤ S (length st.1))%nat.
Proof.
  destruct st as [acc prev]. intros (Hg & Hn & Hp) Hx. unfold simplify_axis. simpl in Hg, Hn, Hp.
  destruct (Z.eqb_spec (bc_dim x) 1) as [E|E].
  { split_and!; [done| | |simpl; lia].
    - intros f Hf post. symmetry. by apply op_walk_unit.
    - simpl. lia. }
  destruct acc as [|p acc].
  { split; [split_and!; [by apply Forall_singleton..|done]|]. split_and!; [done| |simpl; lia].
    simpl. rewrite prodZ_singleton, prodZ_nil. lia. }
  apply Forall_cons in Hg as [Hgp Hg]. apply Forall_cons in Hn as [Hnp Hn]. subst prev.
  unfold flags_eqb. case_bool_decide as Hfl.
  - pose proof (merge_good p x Hgp Hx Hfl) as Hm. split; [|split_and!].
    + split_and!; simpl; [by constructor| |].
      * constructor; [|done]. simpl. destruct Hgp as [? _], Hx as [? _]. nia.
      * unfold flags_of in *. simpl. injection Hfl as H1 H2 H3.
        pose proof (λ f (Hf : Operand f), operand_good (f:=f) _ Hgp) as Gp.
        pose proof (λ f (Hf : Operand f), operand_good (f:=f) _ Hx) as Gx.
        pose proof (Gp a_dim _). pose proof (Gp b_dim _). pose proof (Gp c_dim _).
        pose proof (Gx a_dim _). pose proof (Gx b_dim _). pose proof (Gx c_dim _).
        assert (R : ∀ f, good_for f p → good_for f x → (f p =? 1) = (f x =? 1) →
                         (f p =? 1) = (f p * f x =? 1)).
        { unfold good_for. intros f Fp Fx Fe. destruct Hgp as [? _], Hx as [? _].
          destruct (Z.eqb_spec (f p) 1), (Z.eqb_spec (f x) 1), (Z.eqb_spec (f p * f x) 1); nia || done. }
        by rewrite (R a_dim), (R b_dim), (R c_dim).
    + intros f Hf post. simpl. rewrite <- !app_assoc. symmetry. simpl. by apply op_walk_merge.
    + simpl. rewrite !prodZ_cons. lia.
    + simpl. lia.
  - split; [split_and!; [by repeat (apply Forall_cons; split)..|done]|]. split_and!.
    + intros f Hf post. simpl. by rewrite <- !app_assoc.
    + simpl. rewrite !prodZ_cons. lia.
    + simpl. lia.
Qed.

Lemma simplify_loop (axes : list axis4) (st : list axis4 * flags) :
  settled st → Forall good_axis axes →
  let st' := foldl simplify_axis st axes in
  settled st' ∧
  (∀ f `{!Operand f}, swalk (strided (op_axes f (rev st'.1))) =
                      swalk (strided (op_axes f (rev st.1 ++ axes)))) ∧
  prodZ (map bc_dim st'.1) = prodZ (map bc_dim st.1) * prodZ (map bc_dim axes) ∧
  (length st'.1 ≤ length st.1 + length axes)%nat.
Proof.
  revert st. induction axes as [|x axes IH]; intros st Hs Hg; cbv zeta.
  { split_and!; [done|intros; by rewrite app_nil_r| |simpl; lia]. simpl. rewrite prodZ_nil. lia. }
  apply Forall_cons in Hg as [Hx Hg]. cbn [foldl].
  destruct (simplify_axis_step st x Hs Hx) as (H1 & H2 & H3 & H4).
  destruct (IH (simplify_axis st x) H1 Hg) as (K1 & K2 & K3 & K4). split_and!; [done| | |simpl; lia].
  - intros f Hf. rewrite (K2 f Hf). apply (H2 f Hf).
  - rewrite K3, H3. cbn [map]. rewrite prodZ_cons. lia.
Qed.

(** ** Reading the padded shapes *)

Lemma range_list_nat (n : nat) : range_list 0 (Z.of_nat n) = map Z.of_nat (seq 0 n).
Proof. unfold range_list. rewrite Z.sub_0_r, Nat2Z.id. apply map_ext. intros. lia. Qed.

Lemma range_list_snoc (n : nat) :
  range_list 0 (Z.of_nat (S n)) = range_list 0 (Z.of_nat n) ++ [Z.of_nat n].
Proof. rewrite !range_list_nat, seq_S, map_app. done. Qed.

(** A loop that reads entry [i] of a list and folds it in. *)
Lemma ofold_read {X S : Type} (step : S → X → S) (h : S → Z → outcome S)
    (l : list X) (s : S) :
  (∀ k x s, l !! k = Some x → h s (Z.of_nat k) = Ret (step s x)) →
  ofold h (range_list 0 (Z.of_nat (length l))) s = Ret (foldl step s l).
Proof.
  induction l as [|x l IH] using rev_ind; intros Hh; [done|].
  rewrite length_app, Nat.add_1_r, range_list_snoc, ofold_app, IH, foldl_app.
  - cbn [obind ofold foldl]. rewrite (Hh (length l) x); [done|].
    by rewrite lookup_app_r, Nat.sub_diag by lia.
  - intros k y s' Hk. apply Hh. by apply lookup_app_l_Some.
Qed.

Lemma omap_read {X : Type} (g : Z → outcome X) (l : list X) :
  (∀ k x, l !! k = Some x → g (Z.of_nat k) = Ret x) →
  omap_list g (range_list 0 (Z.of_nat (length l))) = Ret l.
Proof.
  intros H. rewrite range_list_nat. revert g H. induction l as [|x l IH]; intros g H; [done|].
  cbn [length seq map omap_list]. rewrite (H 0%nat x) by done. cbn [obind].
  rewrite <- seq_shift, map_map.
  assert (E : ∀ f : nat → Z, map f (seq 0 (length l)) = map (λ z, f (Z.to_nat z)) (map Z.of_nat (seq 0 (length l)))).
  { intros f. rewrite map_map. apply map_ext. intros a. by rewrite Nat2Z.id. }
  assert (O : ∀ (f : Z → Z) zs, omap_list g (map f zs) = omap_list (λ z, g (f z)) zs).
  { intros f zs. induction zs as [|z zs IHz]; [done|]. cbn [map omap_list]. by rewrite IHz. }
  rewrite E, O, (IH (λ z, g (Z.of_nat (S (Z.to_nat z))))); [done|].
  intros k y Hk. rewrite Nat2Z.id. by apply (H (S k)).
Qed.

Lemma padded_length (n : nat) (dims : list Z) : (length dims ≤ n)%nat → length (padded n dims) = n.
Proof. intros. unfold padded. rewrite length_app, length_replicate. lia. Qed.

Lemma padded_lookup (n : nat) (dims : list Z) (k : nat) (d : Z) :
  (length dims ≤ n)%nat → padded n dims !! k = Some d →
  (if Z.of_nat k <? Z.of_nat n - Z.of_nat (length dims) then Ret 1
   else at_ dims (Z.of_nat k - (Z.of_nat n - Z.of_nat (length dims)))) = Ret d.
Proof.
  intros Hl. unfold padded. intros Hk.
  destruct (Z.ltb_spec (Z.of_nat k) (Z.of_nat n - Z.of_nat (length dims))) as [Hlt|Hge].
  - rewrite lookup_app_l in Hk by (rewrite length_replicate; lia).
    by apply lookup_replicate in Hk as [-> _].
  - rewrite lookup_app_r, length_replicate in Hk by (rewrite length_replicate; lia).
    apply at_Ret. split; [lia|]. rewrite <- Hk. f_equal. lia.
Qed.

Lemma GetDim_padded (n : nat) (dims : list Z) (k : nat) (d : Z) :
  (length dims ≤ n)%nat → Z.of_nat n < 2 ^ 64 → padded n dims !! k = Some d →
  GetDim (Z.of_nat n) dims (Z.of_nat k) = Ret d.
Proof.
  intros Hl Hn Hk. unfold GetDim. rewrite u64_small by (unfold is_u64, u64_modulus; lia).
  by apply padded_lookup.
Qed.

Lemma padded_prod (n : nat) (dims : list Z) : prodZ (padded n dims) = prodZ dims.
Proof.
  unfold padded. rewrite prodZ_app. replace (prodZ (replicate _ 1)) with 1; [lia|].
  generalize (n - length dims)%nat as k. induction k as [|k IH]; [done|].
  cbn [replicate]. rewrite prodZ_cons. lia.
Qed.

Lemma padded_pos (n : nat) (dims : list Z) : Forall (λ d, 0 < d) dims → Forall (λ d, 0 < d) (padded n dims).
Proof. intros. apply Forall_app. split; [by apply Forall_replicate|done]. Qed.

(** The axes of two padded operands and of their result. *)
Definition axes_of (p0 p1 : list Z) : list axis4 :=
  zip_with (λ a b, mkAxis4 (Z.max a b) a b (Z.max a b)) p0 p1.

Lemma axes_of_lookup (p0 p1 : list Z) (k : nat) (x : axis4) :
  axes_of p0 p1 !! k = Some x →
  ∃ a b, p0 !! k = Some a ∧ p1 !! k = Some b ∧ x = mkAxis4 (Z.max a b) a b (Z.max a b).
Proof. unfold axes_of. intros (a & b & -> & H0 & H1)%lookup_zip_with_Some. eauto. Qed.

Definition compatible (p0 p1 : list Z) : Prop := Forall2 (λ a b, a = b ∨ a = 1 ∨ b = 1) p0 p1.

Lemma axes_of_good (p0 p1 : list Z) : compatible p0 p1 →
  Forall (λ d, 0 < d) p0 → Forall (λ d, 0 < d) p1 → Forall good_axis (axes_of p0 p1).
Proof.
  unfold compatible, axes_of. induction 1 as [|a b p0 p1 Hab _ IH]; intros H0 H1; [constructor|].
  apply Forall_cons in H0 as [Ha H0]. apply Forall_cons in H1 as [Hb H1].
  cbn [zip_with]. constructor; [|by apply IH].
  unfold good_axis, good_for; cbn [a_dim b_dim c_dim bc_dim]. lia.
Qed.

Lemma check_axis_good (x : axis4) : good_axis x → check_axis x = Ret tt.
Proof.
  intros (H0 & Ha & Hb & Hc). unfold check_axis, good_for in *.
  destruct (Z.ltb_spec 0 (bc_dim x)); [|lia]. cbn [CHECK obind].
  assert (R : ∀ u, u = bc_dim x ∨ u = 1 → (u =? bc_dim x) || (u =? 1) = true) by (intros; lia).
  rewrite !R by done. done.
Qed.

(** ** What the simplification returns *)

Lemma prodZ_ge_1 (l : list Z) : Forall (λ d, 0 < d) l → 1 ≤ prodZ l.
Proof. intros H. pose proof (prodZ_pos l H). lia. Qed.

Lemma GetElementCount_prod (dims : list Z) : Forall (λ d, 0 < d) dims → prodZ dims < 2 ^ 64 →
  GetElementCount dims = prodZ dims.
Proof.
  unfold GetElementCount. intros Hp.
  assert (H : ∀ c, 0 < c → c * prodZ dims < 2 ^ 64 → foldl (λ c d, u64 (c * d)) c dims = c * prodZ dims).
  { induction Hp as [|d dims Hd Hds IH]; intros c Hc Hlt; cbn [foldl].
    - rewrite prodZ_nil. lia.
    - rewrite prodZ_cons in Hlt. pose proof (prodZ_ge_1 dims Hds).
      assert (c * d < 2 ^ 64) by nia.
      rewrite u64_small by (unfold is_u64, u64_modulus; nia). rewrite IH by nia. rewrite prodZ_cons. lia. }
  intros Hlt. rewrite H by lia. lia.
Qed.

Lemma prodZ_one (l : list Z) : Forall (λ d, 0 < d) l → prodZ l = 1 → Forall (λ d, d = 1) l.
Proof.
  induction 1 as [|d l Hd Hl IH]; intros H; [constructor|]. rewrite prodZ_cons in H.
  pose proof (prodZ_ge_1 l Hl). assert (d = 1) by nia. constructor; [done|]. apply IH. nia.
Qed.

Lemma read_offsets_full (D : list Z) : Forall (λ d, 0 < d) D → read_offsets D D = range_list 0 (prodZ D).
Proof.
  intros HD. rewrite <- all_indices_offsets by (eapply Forall_impl; [exact HD|simpl; lia]).
  unfold read_offsets. apply list_fmap_ext. intros k idx Hk.
  apply list_elem_of_lookup_2, all_indices_in in Hk. clear k.
  f_equal. unfold src_index. induction Hk as [|i d idx ds Hi _ IH]; [done|].
  apply Forall_cons in HD as [_ HD]. cbn [zip_with]. f_equal; [|by apply IH].
  destruct (Z.eqb_spec d 1); simpl; lia.
Qed.

Lemma read_offsets_ones (p D : list Z) : Forall (λ d, d = 1) p → length p = length D →
  Forall (λ d, 0 ≤ d) D → read_offsets p D = (λ _, 0) <$> range_list 0 (prodZ D).
Proof.
  intros Hp Hl HD. rewrite <- all_indices_offsets by done. unfold read_offsets.
  rewrite <- list_fmap_compose. apply list_fmap_ext. intros _ idx _. unfold compose.
  clear HD Hl. revert idx. induction Hp as [|d p -> Hp IH]; intros [|i idx]; try done.
  cbn [src_index zip_with offset_of]. rewrite IH. simpl. lia.
Qed.

Lemma zip_max_ones (p q : list Z) : Forall (λ d, d = 1) p → Forall (λ d, 0 < d) q → length p = length q →
  zip_with Z.max p q = q.
Proof.
  intros Hp. revert q. induction Hp as [|d p -> _ IH]; intros [|e q] Hq Hl; try done.
  apply Forall_cons in Hq as [He Hq]. cbn [zip_with]. f_equal; [lia|]. apply IH; [done|]. simpl in Hl. lia.
Qed.

Lemma zip_max_comm (p q : list Z) : zip_with Z.max p q = zip_with Z.max q p.
Proof. revert q. induction p as [|d p IH]; intros [|e q]; try done. cbn [zip_with]. by rewrite IH, Z.max_comm. Qed.

Lemma compatible_comm (p q : list Z) : compatible p q → compatible q p.
Proof.
  unfold compatible. induction 1 as [|a b p q Hab _ IH]; [constructor|].
  constructor; [|done]. destruct Hab as [->|[?|?]]; auto.
Qed.

Lemma compatible_left (p q : list Z) : compatible p q → Forall (λ d, 0 < d) p → Forall (λ d, 0 < d) q →
  broadcastable p (zip_with Z.max p q).
Proof.
  unfold compatible, broadcastable. induction 1 as [|a b p q Hab _ IH]; intros Hp Hq; [constructor|].
  apply Forall_cons in Hp as [Ha Hp]. apply Forall_cons in Hq as [Hb Hq].
  cbn [zip_with]. constructor; [lia|by apply IH].
Qed.

(** Simplified dimensions [s0, s1, sd] that read two padded operands like the
    original ones. *)
Record simplified (p0 p1 s0 s1 sd : list Z) : Prop := {
  si_len0 : length s0 = length sd;
  si_len1 : length s1 = length sd;
  si_rank : (1 ≤ length sd ≤ Nat.max 1 (length p0))%nat;
  si_max : sd = zip_with Z.max s0 s1;
  si_compat : compatible s0 s1;
  si_pos0 : Forall (λ d, 0 < d) s0;
  si_pos1 : Forall (λ d, 0 < d) s1;
  si_prod : prodZ sd = prodZ (zip_with Z.max p0 p1);
  si_read0 : read_offsets s0 sd = read_offsets p0 (zip_with Z.max p0 p1);
  si_read1 : read_offsets s1 sd = read_offsets p1 (zip_with Z.max p0 p1);
}.

Lemma simplified_swap (p0 p1 s0 s1 sd : list Z) : length p0 = length p1 →
  simplified p0 p1 s0 s1 sd → simplified p1 p0 s1 s0 sd.
Proof.
  intros Hl H. destruct H as [H1 H2 H3 H4 H5 H6 H7 H8 H9 H10].
  rewrite zip_max_comm in H8, H9, H10. rewrite Hl in H3.
  constructor; [done..| |by apply compatible_comm|done|done|done|done|done].
  by rewrite zip_max_comm.
Qed.

Lemma zip_max_pos (p q : list Z) : Forall (λ d, 0 < d) p → Forall (λ d, 0 < d) q →
  Forall (λ d, 0 < d) (zip_with Z.max p q).
Proof.
  intros Hp. revert q. induction Hp as [|d p Hd _ IH]; intros [|e q] Hq; try constructor.
  - apply Forall_cons in Hq as [He _]. lia.
  - apply IH. by apply Forall_cons in Hq as [_ Hq].
Qed.

(** A scalar operand. *)
Lemma simplified_scalar (p0 p1 : list Z) : length p0 = length p1 →
  Forall (λ d, d = 1) p0 → Forall (λ d, 0 < d) p1 →
  simplified p0 p1 [1] [prodZ p1] [prodZ p1].
Proof.
  intros Hl H0 H1. pose proof (prodZ_ge_1 p1 H1) as Hp.
  assert (Hnn : Forall (λ d, 0 ≤ d) p1) by (eapply Forall_impl; [exact H1|simpl; lia]).
  rewrite <- (zip_max_ones p0 p1) in Hp by done.
  constructor; rewrite ?zip_max_ones, ?prodZ_singleton by done; try done.
  - simpl. lia.
  - simpl. f_equal. rewrite zip_max_ones in Hp by done. lia.
  - constructor; [tauto|constructor].
  - by apply Forall_singleton.
  - apply Forall_singleton. rewrite zip_max_ones in Hp by done. lia.
  - rewrite !read_offsets_ones; rewrite ?prodZ_singleton; try done; [by apply Forall_singleton|].
    apply Forall_singleton. rewrite zip_max_ones in Hp by done. lia.
  - rewrite !read_offsets_full; rewrite ?prodZ_singleton; try done.
    apply Forall_singleton. rewrite zip_max_ones in Hp by done. lia.
Qed.

Lemma axes_dims (p0 p1 : list Z) : length p0 = length p1 →
  map a_dim (axes_of p0 p1) = p0 ∧ map b_dim (axes_of p0 p1) = p1 ∧
  map c_dim (axes_of p0 p1) = zip_with Z.max p0 p1 ∧ map bc_dim (axes_of p0 p1) = zip_with Z.max p0 p1.
Proof.
  unfold axes_of. revert p1. induction p0 as [|a p0 IH]; intros [|b p1] Hl; try done.
  destruct (IH p1) as (H1 & H2 & H3 & H4); [simpl in Hl; lia|].
  cbn [zip_with map a_dim b_dim c_dim bc_dim]. by rewrite H1, H2, H3, H4.
Qed.

(** Merged axes keep the three dimension lists consistent. *)
Definition twin (x : axis4) : Prop := bc_dim x = c_dim x ∧ c_dim x = Z.max (a_dim x) (b_dim x).

Lemma simplify_twin (axes : list axis4) (st : list axis4 * flags) :
  settled st → Forall good_axis axes → Forall twin st.1 → Forall twin axes →
  Forall twin (foldl simplify_axis st axes).1.
Proof.
  revert st. induction axes as [|x axes IH]; intros st Hs Hg Ht Hta; [done|].
  apply Forall_cons in Hg as [Hx Hg]. apply Forall_cons in Hta as [Htx Hta]. cbn [foldl].
  apply IH; [by apply simplify_axis_step|done| |done].
  destruct st as [acc prev]. destruct Hs as (Hga & _ & Hp). unfold simplify_axis. simpl in *.
  destruct (bc_dim x =? 1); [done|]. destruct acc as [|p acc]; [by apply Forall_singleton|]. subst prev.
  unfold flags_eqb. case_bool_decide as Hf; [|by repeat (apply Forall_cons; split); apply Forall_cons in Ht as [??]].
  apply Forall_cons in Ht as [Htp Ht]. apply Forall_cons in Hga as [Hgp _].
  apply Forall_cons; split; [|done]. unfold twin in *. cbn [bc_dim a_dim b_dim c_dim merge_axis].
  unfold flags_of in Hf. injection Hf as F1 F2 F3. destruct Hgp as (P0 & P1 & P2 & P3), Hx as (X0 & X1 & X2 & X3).
  unfold good_for in *. destruct Htp as [Tp1 Tp2], Htx as [Tx1 Tx2]. rewrite Tp1, Tx1 in *.
  split; [done|]. rewrite Tp2, Tx2 in *.
  destruct (Z.eqb_spec (a_dim p) 1) as [E1|E1]; symmetry in F1; [apply Z.eqb_eq in F1|apply Z.eqb_neq in F1];
  destruct (Z.eqb_spec (b_dim p) 1) as [E2|E2]; symmetry in F2; [apply Z.eqb_eq in F2|apply Z.eqb_neq in F2| apply Z.eqb_eq in F2|apply Z.eqb_neq in F2]; nia.
Qed.

Lemma op_axes_zip (f : axis4 → Z) (axes : list axis4) : op_axes f axes = zip (map bc_dim axes) (map f axes).
Proof. induction axes as [|x axes IH]; [done|]. cbn. f_equal. exact IH. Qed.

Lemma twin_lists (axes : list axis4) : Forall twin axes →
  map c_dim axes = zip_with Z.max (map a_dim axes) (map b_dim axes) ∧ map bc_dim axes = map c_dim axes ∧
  forallb (λ x, bc_dim x =? c_dim x) axes = true.
Proof.
  induction 1 as [|x axes [H1 H2] _ (IH1 & IH2 & IH3)]; [done|]. cbn [map zip_with forallb].
  rewrite H1, Z.eqb_refl, IH3. split_and!; [by rewrite <- H2, IH1|by rewrite IH2|done].
Qed.

Lemma good_lists (axes : list axis4) : Forall good_axis axes → Forall twin axes →
  compatible (map a_dim axes) (map b_dim axes) ∧
  Forall (λ d, 0 < d) (map a_dim axes) ∧ Forall (λ d, 0 < d) (map b_dim axes).
Proof.
  intros Hg. induction Hg as [|x axes (X0 & X1 & X2 & X3) _ IH]; intros Ht; [by repeat constructor|].
  apply Forall_cons in Ht as [[T1 T2] Ht]. destruct (IH Ht) as (I1 & I2 & I3). unfold good_for in *.
  cbn [map]. split_and!; constructor; try done; lia.
Qed.

(** Axes that read like the original ones are simplified dimensions. *)
Lemma simplified_axes (p0 p1 : list Z) (axes : list axis4) : length p0 = length p1 →
  axes ≠ [] → (length axes ≤ length p0)%nat → Forall good_axis axes → Forall twin axes →
  (∀ f `{!Operand f}, swalk (strided (op_axes f axes)) = swalk (strided (op_axes f (axes_of p0 p1)))) →
  prodZ (map bc_dim axes) = prodZ (zip_with Z.max p0 p1) →
  simplified p0 p1 (map a_dim axes) (map b_dim axes) (map c_dim axes).
Proof.
  intros Hl Hne Hlen Hg Ht Hw Hp. destruct (twin_lists axes Ht) as (Hc & Hbc & _).
  destruct (good_lists axes Hg Ht) as (Gc & G0 & G1).
  destruct (axes_dims p0 p1 Hl) as (A0 & A1 & _ & A3).
  constructor; rewrite ?length_map; try done.
  - destruct axes; [done|]. simpl in *. lia.
  - by rewrite <- Hbc.
  - rewrite !read_offsets_swalk by (rewrite ?length_map, ?length_zip_with; lia).
    pose proof (Hw a_dim _) as W. by rewrite !op_axes_zip, A3, A0, Hbc in W.
  - rewrite !read_offsets_swalk by (rewrite ?length_map, ?length_zip_with; lia).
    pose proof (Hw b_dim _) as W. by rewrite !op_axes_zip, A3, A1, Hbc in W.
Qed.

Lemma broadcast_le (p q : list Z) : Forall (λ d, 0 < d) p → Forall (λ d, 0 < d) q → length p = length q →
  prodZ p ≤ prodZ (zip_with Z.max p q).
Proof.
  intros Hp. revert q. induction Hp as [|d p Hd Hp IH]; intros [|e q] Hq Hl; try done.
  apply Forall_cons in Hq as [He Hq]. cbn [zip_with]. rewrite !prodZ_cons.
  pose proof (prodZ_ge_1 p Hp). specialize (IH q Hq ltac:(simpl in Hl; lia)). nia.
Qed.

Section Simplify.
Context (src0_dims src1_dims : list Z).
#[local] Abbreviation n := (Nat.max (length src0_dims) (length src1_dims)).
#[local] Abbreviation p0 := (padded n src0_dims).
#[local] Abbreviation p1 := (padded n src1_dims).
Context (Hcompat : compatible p0 p1).
Context (Hpos0 : Forall (λ d, 0 < d) src0_dims) (Hpos1 : Forall (λ d, 0 < d) src1_dims).
Context (Hsize : prodZ (broadcast_dims src0_dims src1_dims) < 2 ^ 63) (Hrank : Z.of_nat n < 2 ^ 63).

Lemma operand_counts :
  GetElementCount src0_dims = prodZ src0_dims ∧ GetElementCount src1_dims = prodZ src1_dims ∧
  1 ≤ prodZ src0_dims < 2 ^ 63 ∧ 1 ≤ prodZ src1_dims < 2 ^ 63.
Proof.
  assert (H0 : prodZ p0 ≤ prodZ (zip_with Z.max p0 p1))
    by (apply broadcast_le; [by apply padded_pos..|rewrite !padded_length; lia]).
  assert (H1 : prodZ p1 ≤ prodZ (zip_with Z.max p1 p0))
    by (apply broadcast_le; [by apply padded_pos..|rewrite !padded_length; lia]).
  rewrite zip_max_comm in H1. unfold broadcast_dims in Hsize. rewrite padded_prod in H0, H1.
  pose proof (prodZ_ge_1 _ Hpos0). pose proof (prodZ_ge_1 _ Hpos1).
  split_and!; try (apply GetElementCount_prod; done || lia); lia.
Qed.

Lemma dst_dims_read :
  omap_list (dst_dim_at (Z.of_nat n) src0_dims src1_dims) (range_list 0 (Z.of_nat n)) =
  Ret (zip_with Z.max p0 p1).
Proof.
  assert (Hl : length (zip_with Z.max p0 p1) = n) by (rewrite length_zip_with, !padded_length; lia).
  rewrite <- Hl at 2. apply omap_read. intros k x (a & b & -> & Ha & Hb)%lookup_zip_with_Some.
  unfold dst_dim_at. rewrite (padded_lookup n src0_dims k a), (padded_lookup n src1_dims k b) by (done || lia).
  cbn [obind]. f_equal.
  assert (Hbound : ∀ dims d, Forall (λ d, 0 < d) dims → (length dims ≤ n)%nat → prodZ dims < 2 ^ 63 →
    padded n dims !! k = Some d → 0 < d < 2 ^ 63).
  { intros dims d Hd Hn Hlt Hk. pose proof (padded_pos n dims Hd) as Hp.
    assert (0 < d) by (by eapply (Forall_lookup_1 (λ d, 0 < d))).
    rewrite <- (padded_prod n) in Hlt. rewrite <- (take_drop_middle _ _ _ Hk), prodZ_app, prodZ_cons in Hlt.
    pose proof (prodZ_ge_1 (take k (padded n dims)) (Forall_take _ _ _ Hp)).
    pose proof (prodZ_ge_1 (drop (S k) (padded n dims)) (Forall_drop _ _ _ Hp)).
    split; [done|]. nia. }
  destruct operand_counts as (_ & _ & C0 & C1).
  pose proof (Hbound src0_dims a Hpos0 ltac:(lia) ltac:(lia) Ha).
  pose proof (Hbound src1_dims b Hpos1 ltac:(lia) ltac:(lia) Hb).
  rewrite !u64_small by (unfold is_u64, u64_modulus; lia). apply i64_small. unfold is_i64. lia.
Qed.

Lemma simplify3_read (broadcast0 : Z) :
  SimplifyBroadcastDims3 src0_dims src1_dims (zip_with Z.max p0 p1) broadcast0 =
  match (foldl simplify_axis ([], (false, false, false)) (axes_of p0 p1)).1 with
  | [] => Ret [mkAxis4 broadcast0 1 1 1]
  | acc => Ret (rev acc)
  end.
Proof.
  unfold SimplifyBroadcastDims3. rewrite <- Nat2Z.inj_max.
  assert (Hl : length (axes_of p0 p1) = n) by (unfold axes_of; rewrite length_zip_with, !padded_length; lia).
  replace (range_list 0 (Z.of_nat n)) with (range_list 0 (Z.of_nat (length (axes_of p0 p1))))
    by (by rewrite Hl).
  rewrite (ofold_read simplify_axis); [done|].
  intros k x st Hk.
  assert (Hx : good_axis x).
  { eapply Forall_lookup_1; [|exact Hk]. apply axes_of_good; [done|by apply padded_pos..]. }
  apply axes_of_lookup in Hk as (a & b & Ha & Hb & ->). unfold read_axis.
  rewrite (GetDim_padded n src0_dims k a), (GetDim_padded n src1_dims k b) by (done || lia). cbn [obind].
  assert (Hc : padded n (zip_with Z.max p0 p1) !! k = Some (Z.max a b)).
  { unfold padded at 1. rewrite length_zip_with, !padded_length, Nat.min_id, Nat.sub_diag by lia.
    cbn [replicate app]. by rewrite lookup_zip_with, Ha, Hb. }
  rewrite (GetDim_padded n _ k (Z.max a b)) by
    (done || lia || (rewrite length_zip_with, !padded_length; lia)). cbn [obind].
  replace (Z.max (Z.max a b) (Z.max a b)) with (Z.max a b) by lia. by rewrite check_axis_good.
Qed.

(** The simplification returns dimensions that read the operands as the padded
    shapes do, whatever the uninitialised entry held. *)
Lemma SimplifyBroadcastDims_spec (broadcast0 : Z) :
  ∃ s0 s1 sd, SimplifyBroadcastDims src0_dims src1_dims broadcast0 = Ret (s0, s1, sd) ∧
    simplified p0 p1 s0 s1 sd.
Proof.
  destruct operand_counts as (E0 & E1 & C0 & C1). unfold SimplifyBroadcastDims. rewrite E0, E1.
  assert (Hl : length p0 = length p1) by (rewrite !padded_length; lia).
  destruct (Z.eqb_spec (prodZ src0_dims) 1) as [O0|O0]; cbn [orb];
    [|destruct (Z.eqb_spec (prodZ src1_dims) 1) as [O1|O1]].
  - eexists _, _, _. split; [done|]. rewrite O0, Z.max_r, !i64_small by (unfold is_i64; lia).
    rewrite <- (padded_prod n src1_dims). apply simplified_scalar; [done| |by apply padded_pos].
    apply prodZ_one; [by apply padded_pos|by rewrite padded_prod].
  - eexists _, _, _. split; [done|]. rewrite O1, Z.max_l, !i64_small by (unfold is_i64; lia).
    apply simplified_swap; [done|].
    rewrite <- (padded_prod n src0_dims). apply simplified_scalar; [done| |by apply padded_pos].
    apply prodZ_one; [by apply padded_pos|by rewrite padded_prod].
  - rewrite <- Nat2Z.inj_max, dst_dims_read. cbn [obind]. rewrite simplify3_read.
    assert (Hg : Forall good_axis (axes_of p0 p1)) by (apply axes_of_good; [done|by apply padded_pos..]).
    assert (Ht : Forall twin (axes_of p0 p1)).
    { apply Forall_lookup. intros k x (a & b & _ & _ & ->)%axes_of_lookup. split; simpl; lia. }
    destruct (axes_dims p0 p1 Hl) as (A0 & A1 & _ & A3).
    destruct (simplify_loop (axes_of p0 p1) ([], (false, false, false))) as ((S1 & S2 & _) & W & P & L);
      [by repeat constructor|done|].
    pose proof (simplify_twin (axes_of p0 p1) ([], (false, false, false))) as T.
    specialize (T ltac:(by repeat constructor) Hg (Forall_nil_2 _) Ht).
    set (st := foldl _ _ _) in *. simpl in P. rewrite A3, prodZ_nil, Z.mul_1_l in P.
    destruct st.1 as [|x acc] eqn:Est.
    { exfalso. simpl in P. rewrite prodZ_nil in P.
      pose proof (broadcast_le p0 p1) as B0. rewrite padded_prod in B0.
      specialize (B0 ltac:(by apply padded_pos) ltac:(by apply padded_pos) Hl). lia. }
    assert (Hne : rev st.1 ≠ []) by (rewrite Est; simpl; by destruct (rev acc)).
    cbn [obind]. rewrite <- Est in *. clear x acc Est.
    assert (Tr : Forall twin (rev st.1)) by (by apply Forall_rev).
    destruct (twin_lists _ Tr) as (_ & _ & Hch). rewrite Hch. cbn [CHECK obind].
    eexists _, _, _. split; [done|]. apply simplified_axes; try done.
    + rewrite length_rev. etransitivity; [exact L|]. simpl. unfold axes_of. rewrite length_zip_with. lia.
    + by apply Forall_rev.
    + by rewrite map_rev, prodZ_rev.
Qed.
End Simplify.
