(* ===== verification/BroadcastKernels.v ===== *)
(** * The CPU broadcast kernels compute the broadcast

    Each kernel that [DispatchLaunch] can choose runs the same assignments as the
    general loop over the index tuples of the simplified result, and that loop is,
    by the lemmas of [Broadcast], the loop over the unsimplified shapes. *)
From S2P Require Import Prelude Shape NdIndex CopyNd FastMath Broadcast.

Section Kernels.
Context {A B : Type} (functor : A → A → B) (src0 src1 : list A).

(** The assignments in the order of the result's elements, from the offsets each
    operand is read at. *)
Definition stores (offs0 offs1 : list Z) (n : Z) (dst : list B) : outcome (list B) :=
  ofold (λ d k, store functor src0 src1 d k (offs0 !!! Z.to_nat k) (offs1 !!! Z.to_nat k))
        (range_list 0 n) dst.

(** The same over index tuples. *)
Definition index_stores (s0 s1 sd : list Z) (dst : list B) : outcome (list B) :=
  ofold (λ d idx, store functor src0 src1 d (offset_of idx sd)
                    (offset_of (src_index s0 idx) s0) (offset_of (src_index s1 idx) s1))
        (all_indices sd) dst.

Lemma stores_index (s0 s1 sd : list Z) (dst : list B) : Forall (λ d, 0 ≤ d) sd →
  stores (read_offsets s0 sd) (read_offsets s1 sd) (prodZ sd) dst = index_stores s0 s1 sd dst.
Proof.
  intros Hd. unfold stores, index_stores. rewrite <- all_indices_offsets, ofold_fmap by done.
  apply ofold_ext_in. intros d idx Hin%all_indices_in. by rewrite !read_offsets_lookup.
Qed.

Lemma src_index_full (D idx : list Z) : index_in idx D → src_index D idx = idx.
Proof.
  unfold src_index. induction 1 as [|i d idx D Hi _ IH]; [done|]. cbn [zip_with]. rewrite IH.
  f_equal. destruct (Z.eqb_spec d 1); simpl; lia.
Qed.

Lemma zip_max_same (l : list Z) : zip_with Z.max l l = l.
Proof. induction l as [|d l IH]; [done|]. cbn [zip_with]. by rewrite IH, Z.max_id. Qed.

(** The result dimensions of at most two axes. *)
Lemma all_indices_1 (n : Z) : all_indices [n] = (λ i, [i]) <$> range_list 0 n.
Proof.
  cbn [all_indices]. induction (range_list 0 n) as [|i l IH]; [done|].
  rewrite bind_cons, IH. done.
Qed.

Lemma all_indices_2 (r c : Z) :
  all_indices [r; c] = (i ← range_list 0 r; (λ j, [i; j]) <$> range_list 0 c).
Proof.
  change (all_indices [r; c]) with (i ← range_list 0 r; (cons i) <$> all_indices [c]).
  apply bind_ext_all. intros i. by rewrite all_indices_1, <- list_fmap_compose.
Qed.

Lemma offset_of_1 (i n : Z) : offset_of [i] [n] = i.
Proof. cbn [offset_of]. rewrite prodZ_nil. lia. Qed.

Lemma offset_of_2 (i j r c : Z) : offset_of [i; j] [r; c] = i * c + j.
Proof. cbn [offset_of]. rewrite prodZ_nil, prodZ_singleton. lia. Qed.

(** Two-axis kernels: nested loops over rows and columns. *)
Lemma index_stores_2 (a0 a1 b0 b1 r c : Z) (dst : list B) :
  index_stores [a0; a1] [b0; b1] [r; c] dst =
  ofold (λ d i, ofold (λ d j, store functor src0 src1 d (i * c + j)
                    (offset_of (src_index [a0; a1] [i; j]) [a0; a1])
                    (offset_of (src_index [b0; b1] [i; j]) [b0; b1])) (range_list 0 c) d)
        (range_list 0 r) dst.
Proof.
  unfold index_stores. rewrite all_indices_2, ofold_bind. apply ofold_ext_in. intros d i _.
  rewrite ofold_fmap. apply ofold_ext_in. intros d' j _. by rewrite offset_of_2.
Qed.

Lemma src_index_2 (a0 a1 i j : Z) :
  src_index [a0; a1] [i; j] = [if negb (a0 =? 1) then i else 0; if negb (a1 =? 1) then j else 0].
Proof. done. Qed.

Lemma index_in_1 (i n : Z) : 0 ≤ i < n → index_in [i] [n].
Proof. intros. constructor; [done|constructor]. Qed.

Lemma index_in_2 (i j r c : Z) : 0 ≤ i < r → 0 ≤ j < c → index_in [i; j] [r; c].
Proof. intros. constructor; [done|]. by apply index_in_1. Qed.

Lemma in_range (n i : Z) : i ∈ range_list 0 n → 0 ≤ i < n.
Proof. intros H%range_list_elem. lia. Qed.

Lemma LaunchElementwise_index (s : list Z) (dst : list B) :
  Forall (λ d, 0 < d) s → prodZ s < 2 ^ 63 →
  LaunchElementwise functor s src0 src1 dst = index_stores s s s dst.
Proof.
  intros Hs Hp. unfold LaunchElementwise. rewrite GetElementCount_prod by (done || lia).
  pose proof (prodZ_ge_1 s Hs). rewrite i64_small by (unfold is_i64; lia).
  rewrite <- all_indices_offsets by (eapply Forall_impl; [exact Hs|simpl; lia]).
  unfold index_stores. rewrite ofold_fmap. apply ofold_ext_in. intros d idx Hin%all_indices_in.
  by rewrite !src_index_full.
Qed.

Lemma lhs_scalar_index (n : Z) (v : A) (dst : list B) : at_ src0 0 = Ret v → 0 < n →
  LaunchBinaryLhsScalar functor v n src1 dst = index_stores [1] [n] [n] dst.
Proof.
  intros Hv Hn. unfold LaunchBinaryLhsScalar, index_stores. rewrite all_indices_1, ofold_fmap.
  apply ofold_ext_in. intros d i Hi%in_range. rewrite (src_index_full [n]) by (by apply index_in_1).
  unfold store. cbn [src_index zip_with]. rewrite !offset_of_1. simpl. by rewrite Hv.
Qed.

Lemma rhs_scalar_index (n : Z) (v : A) (dst : list B) : at_ src1 0 = Ret v → 0 < n →
  LaunchBinaryRhsScalar functor v n src0 dst = index_stores [n] [1] [n] dst.
Proof.
  intros Hv Hn. unfold LaunchBinaryRhsScalar, index_stores. rewrite all_indices_1, ofold_fmap.
  apply ofold_ext_in. intros d i Hi%in_range. rewrite (src_index_full [n]) by (by apply index_in_1).
  unfold store. cbn [src_index zip_with]. rewrite !offset_of_1. simpl. by rewrite Hv.
Qed.

(** The row and column kernels at their index form: a coordinate of an operand is
    pinned to zero exactly where its dimension is one. *)
Ltac two_axes :=
  rewrite index_stores_2; apply ofold_ext_in; intros d i Hi%in_range;
  apply ofold_ext_in; intros d' j Hj%in_range;
  rewrite !src_index_2, !offset_of_2;
  repeat match goal with |- context [?x =? 1] => destruct (Z.eqb_spec x 1); simpl end;
  f_equal; lia.

Lemma row_with_matrix_index (r c : Z) (dst : list B) :
  LaunchRowWithMatrix functor [1; c] [r; c] src0 src1 dst = index_stores [1; c] [r; c] [r; c] dst.
Proof. unfold LaunchRowWithMatrix. cbn [at_ Z.ltb Z.compare Z.to_nat lookup list_lookup obind]. two_axes. Qed.

Lemma matrix_with_row_index (r c : Z) (dst : list B) :
  LaunchMatrixWithRow functor [r; c] [1; c] src0 src1 dst = index_stores [r; c] [1; c] [r; c] dst.
Proof. unfold LaunchMatrixWithRow. cbn [at_ Z.ltb Z.compare Z.to_nat lookup list_lookup obind]. two_axes. Qed.

Lemma col_with_matrix_index (r c : Z) (dst : list B) :
  LaunchColWithMatrix functor [r; 1] [r; c] src0 src1 dst = index_stores [r; 1] [r; c] [r; c] dst.
Proof. unfold LaunchColWithMatrix. cbn [at_ Z.ltb Z.compare Z.to_nat lookup list_lookup obind]. two_axes. Qed.

Lemma matrix_with_col_index (r c : Z) (dst : list B) :
  LaunchMatrixWithCol functor [r; c] [r; 1] src0 src1 dst = index_stores [r; c] [r; 1] [r; c] dst.
Proof. unfold LaunchMatrixWithCol. cbn [at_ Z.ltb Z.compare Z.to_nat lookup list_lookup obind]. two_axes. Qed.


(** *** The general kernel *)

Lemma row_major_bound (dims : list Z) : Forall (λ d, 0 < d) dims →
  Forall (λ s, 1 ≤ s ≤ prodZ dims) (row_major dims).
Proof.
  intros Hd. unfold row_major. apply Forall_map, Forall_forall. intros i Hi%elem_of_seq.
  pose proof (prodZ_ge_1 _ (Forall_drop _ (S i) _ Hd)). split; [done|].
  rewrite <- (take_drop (S i) dims) at 2. rewrite prodZ_app.
  pose proof (prodZ_ge_1 _ (Forall_take _ (S i) _ Hd)). nia.
Qed.

Lemma strides_fit (bits : Z) (s : list Z) : (1 ≤ length s ≤ 8)%nat → Forall (λ d, 0 < d) s →
  prodZ s < 2 ^ (bits - 1) → forallb (fits bits) (InitStrides 8 s (length s)) = true.
Proof.
  intros Hn Hs Hp. rewrite InitStrides_row_major by done. apply forallb_forall. intros x Hx%list_elem_of_In.
  pose proof (prodZ_ge_1 s Hs).
  assert (1 ≤ x ≤ prodZ s) as Hb.
  { apply elem_of_app in Hx as [Hx|Hx].
    - by apply (proj1 (Forall_forall _ _) (row_major_bound s Hs)).
    - apply elem_of_replicate in Hx as [-> _]. lia. }
  apply fits_range with (b := prodZ s + 1); lia.
Qed.

(** Dimensions the general kernel is launched on. *)
Record launchable (s0 s1 sd : list Z) : Prop := {
  la_rank : (1 ≤ length sd ≤ 8)%nat;
  la_len0 : length s0 = length sd;
  la_len1 : length s1 = length sd;
  la_pos0 : Forall (λ d, 0 < d) s0;
  la_pos1 : Forall (λ d, 0 < d) s1;
  la_compat : compatible s0 s1;
  la_max : sd = zip_with Z.max s0 s1;
  la_size : prodZ sd < 2 ^ 32;
}.

Lemma launchable_sizes (s0 s1 sd : list Z) : launchable s0 s1 sd →
  Forall (λ d, 0 < d) sd ∧ 1 ≤ prodZ s0 ≤ prodZ sd ∧ 1 ≤ prodZ s1 ≤ prodZ sd ∧
  broadcastable s0 sd ∧ broadcastable s1 sd.
Proof.
  intros [_ L0 L1 P0 P1 C -> _]. assert (length s0 = length s1) by lia.
  split_and!; try (by apply prodZ_ge_1).
  - by apply zip_max_pos.
  - by apply broadcast_le.
  - rewrite zip_max_comm. by apply broadcast_le.
  - by apply compatible_left.
  - rewrite zip_max_comm. apply compatible_left; [by apply compatible_comm|done..].
Qed.

Lemma operand_offset (s sd idx : list Z) (bits : Z) : (1 ≤ length sd ≤ 8)%nat → length s = length sd →
  Forall (λ d, 0 < d) sd → broadcastable s sd → index_in idx sd → prodZ s < 2 ^ (bits - 1) →
  NdIndexToOffset (InitStrides 8 s (length sd)) (src_index s idx) (length sd) = offset_of (src_index s idx) s ∧
  fits bits (offset_of (src_index s idx) s) = true.
Proof.
  intros Hn Hl Hp Hb Hin Hsz. pose proof (src_index_in s sd idx Hb Hp Hin) as Hsi. split.
  - rewrite <- Hl. apply NdIndexToOffset_eq; [lia|]. by apply Forall2_length in Hsi.
  - pose proof (offset_of_range _ _ Hsi). apply fits_range with (b := prodZ s); lia.
Qed.

Lemma LaunchGeneral_index (T : IndexType) (s0 s1 sd : list Z) (dst : list B) :
  launchable s0 s1 sd → (T = Int32 → prodZ sd < 2 ^ 31) →
  LaunchGeneral functor T s0 s1 sd src0 src1 dst (prodZ sd) = index_stores s0 s1 sd dst.
Proof.
  intros HL HT. destruct (launchable_sizes _ _ _ HL) as (Pd & S0 & S1 & B0 & B1).
  destruct HL as [Hn L0 L1 P0 P1 _ _ Hsz]. unfold LaunchGeneral.
  set (bits := match T with Int32 => 32 | Int64 => 64 end).
  assert (Hbits : prodZ sd < 2 ^ (bits - 1)) by (subst bits; destruct T; simpl; [by apply HT|lia]).
  rewrite !forallb_app. rewrite <- L0 at 1. rewrite <- L1 at 1.
  rewrite !strides_fit by (done || lia). cbn [andb CHECK obind].
  destruct (InitFastIntegerMath_exact Host T 8 sd Hn) as (hs & -> & Hhs).
  { eapply Forall_impl; [apply row_major_bound, Pd|]. intros st Hst. simpl in Hst.
    split; [destruct T; simpl; [specialize (HT eq_refl)|]; lia|]. intros _. left. lia. }
  cbn [obind].
  rewrite <- all_indices_offsets by (eapply Forall_impl; [exact Pd|simpl; lia]).
  rewrite ofold_fmap. unfold index_stores. apply ofold_ext_in. intros d idx Hin%all_indices_in.
  assert (Hlim : prodZ sd ≤ limit T) by (destruct T; simpl; [specialize (HT eq_refl)|]; lia).
  rewrite (CalcOffsetToNdIndex_spec Host T 8) by done.
  destruct (operand_offset s0 sd idx bits) as [-> ->]; [done..|lia|].
  destruct (operand_offset s1 sd idx bits) as [-> ->]; [done..|lia|]. done.
Qed.

Lemma LaunchGeneralDispatch_index (s0 s1 sd : list Z) (dst : list B) : launchable s0 s1 sd →
  LaunchGeneralDispatchIndexType functor s0 s1 sd src0 src1 dst = index_stores s0 s1 sd dst.
Proof.
  intros HL. destruct (launchable_sizes _ _ _ HL) as (Pd & _). pose proof (prodZ_ge_1 sd Pd).
  pose proof (la_size _ _ _ HL). unfold LaunchGeneralDispatchIndexType.
  rewrite GetElementCount_prod by (done || lia). rewrite i64_small by (unfold is_i64; lia).
  change ((2 ^ 31 - 1) / 2) with 1073741823.
  destruct (Z.ltb_spec (prodZ sd) 1073741823); apply LaunchGeneral_index; done || lia.
Qed.


(** *** Whichever kernel is chosen *)

Lemma dims_1 (l : list Z) : length l = 1%nat → ∃ a, l = [a].
Proof. destruct l as [|a [|b l]]; try done. eauto. Qed.

Lemma dims_2 (l : list Z) : length l = 2%nat → ∃ a b, l = [a; b].
Proof. destruct l as [|a [|b [|c l]]]; try done. eauto. Qed.

Definition launch_simplified (s0 s1 sd : list Z) (dst : list B) : outcome (list B) :=
  let n := length sd in
  if IsDimsEquals s0 s1 then LaunchElementwise functor s0 src0 src1 dst
  else if Nat.eqb n 1 && dim_is s0 0 1 then
    let* v := at_ src0 0 in let* cnt := at_ s1 0 in LaunchBinaryLhsScalar functor v cnt src1 dst
  else if Nat.eqb n 1 && dim_is s1 0 1 then
    let* v := at_ src1 0 in let* cnt := at_ s0 0 in LaunchBinaryRhsScalar functor v cnt src0 dst
  else if Nat.eqb n 2 && dim_is s0 0 1 && same_dim s0 s1 1 then
    LaunchRowWithMatrix functor s0 s1 src0 src1 dst
  else if Nat.eqb n 2 && dim_is s1 0 1 && same_dim s0 s1 1 then
    LaunchMatrixWithRow functor s0 s1 src0 src1 dst
  else if Nat.eqb n 2 && dim_is s0 1 1 && same_dim s0 s1 0 then
    LaunchColWithMatrix functor s0 s1 src0 src1 dst
  else if Nat.eqb n 2 && dim_is s1 1 1 && same_dim s0 s1 0 then
    LaunchMatrixWithCol functor s0 s1 src0 src1 dst
  else LaunchGeneralDispatchIndexType functor s0 s1 sd src0 src1 dst.

Ltac kernel_guard H :=
  repeat match type of H with
  | _ && _ = true => apply andb_true_iff in H as [H ?]
  end;
  repeat match goal with
  | K : dim_is _ _ _ = true |- _ => apply bool_decide_eq_true in K
  | K : same_dim _ _ _ = true |- _ => apply bool_decide_eq_true in K
  end; apply Nat.eqb_eq in H.

Lemma at_head (l : list A) : (1 ≤ length l)%nat → ∃ v, at_ l 0 = Ret v.
Proof. destruct l as [|v l]; simpl; [lia|]. intros _. by exists v. Qed.

Lemma launch_simplified_index (s0 s1 sd : list Z) (dst : list B) :
  launchable s0 s1 sd → (1 ≤ length src0)%nat → (1 ≤ length src1)%nat →
  launch_simplified s0 s1 sd dst = index_stores s0 s1 sd dst.
Proof.
  intros HL H0 H1. pose proof HL as [Hn L0 L1 P0 P1 C Hmax Hsz]. unfold launch_simplified.
  destruct (launchable_sizes _ _ _ HL) as (_ & S0 & S1 & _).
  unfold IsDimsEquals. case_bool_decide as Heq.
  { subst s1. rewrite zip_max_same in Hmax. subst sd. apply LaunchElementwise_index; [done|lia]. }
  destruct (Nat.eqb (length sd) 1 && dim_is s0 0 1) eqn:G1.
  { kernel_guard G1. destruct (dims_1 s0) as [a ->]; [lia|]. destruct (dims_1 s1) as [b ->]; [lia|].
    simplify_eq/=. destruct (at_head src0 H0) as [v Ev]. rewrite Ev. cbn [obind at_ Z.ltb Z.compare Z.to_nat lookup list_lookup].
    apply Forall_inv in P1. rewrite Z.max_r by lia. by apply lhs_scalar_index. }
  destruct (Nat.eqb (length sd) 1 && dim_is s1 0 1) eqn:G2.
  { kernel_guard G2. destruct (dims_1 s0) as [a ->]; [lia|]. destruct (dims_1 s1) as [b ->]; [lia|].
    simplify_eq/=. destruct (at_head src1 H1) as [v Ev]. rewrite Ev. cbn [obind at_ Z.ltb Z.compare Z.to_nat lookup list_lookup].
    apply Forall_inv in P0. rewrite Z.max_l by lia. by apply rhs_scalar_index. }
  assert (Two : length sd = 2%nat → ∃ a0 a1 b0 b1, s0 = [a0; a1] ∧ s1 = [b0; b1] ∧
    0 < a0 ∧ 0 < a1 ∧ 0 < b0 ∧ 0 < b1 ∧ sd = [Z.max a0 b0; Z.max a1 b1]).
  { intros H2. destruct (dims_2 s0) as (a0 & a1 & ->); [lia|]. destruct (dims_2 s1) as (b0 & b1 & ->); [lia|].
    apply Forall_cons in P0 as [? P0]. apply Forall_inv in P0.
    apply Forall_cons in P1 as [? P1]. apply Forall_inv in P1. by exists a0, a1, b0, b1. }
  destruct (Nat.eqb (length sd) 2 && dim_is s0 0 1 && same_dim s0 s1 1) eqn:G3.
  { kernel_guard G3. destruct (Two G3) as (a0 & a1 & b0 & b1 & -> & -> & ? & ? & ? & ? & ->). simplify_eq/=.
    rewrite Z.max_id, Z.max_r by lia. apply row_with_matrix_index. }
  destruct (Nat.eqb (length sd) 2 && dim_is s1 0 1 && same_dim s0 s1 1) eqn:G4.
  { kernel_guard G4. destruct (Two G4) as (a0 & a1 & b0 & b1 & -> & -> & ? & ? & ? & ? & ->). simplify_eq/=.
    rewrite Z.max_id, Z.max_l by lia. apply matrix_with_row_index. }
  destruct (Nat.eqb (length sd) 2 && dim_is s0 1 1 && same_dim s0 s1 0) eqn:G5.
  { kernel_guard G5. destruct (Two G5) as (a0 & a1 & b0 & b1 & -> & -> & ? & ? & ? & ? & ->). simplify_eq/=.
    rewrite Z.max_id, Z.max_r by lia. apply col_with_matrix_index. }
  destruct (Nat.eqb (length sd) 2 && dim_is s1 1 1 && same_dim s0 s1 0) eqn:G6.
  { kernel_guard G6. destruct (Two G6) as (a0 & a1 & b0 & b1 & -> & -> & ? & ? & ? & ? & ->). simplify_eq/=.
    rewrite Z.max_id, Z.max_l by lia. apply matrix_with_col_index. }
  by apply LaunchGeneralDispatch_index.
Qed.

(** *** What the assignments leave in the destination *)

Lemma write_at_spec (dst : list B) (k : nat) (v : B) : (k < length dst)%nat →
  write_at dst (Z.of_nat k) v = Ret (<[k := v]> dst).
Proof.
  intros Hk. unfold write_at. destruct (Z.leb_spec 0 (Z.of_nat k)); [|lia].
  destruct (Z.ltb_spec (Z.of_nat k) (Z.of_nat (length dst))); [|lia]. simpl. by rewrite Nat2Z.id.
Qed.

Definition in_bounds (offs : list Z) (l : list A) : Prop :=
  Forall (λ o, 0 ≤ o < Z.of_nat (length l)) offs.

Lemma stores_spec (offs0 offs1 : list Z) (n : nat) (dst : list B) :
  (n ≤ length offs0)%nat → (n ≤ length offs1)%nat → (n ≤ length dst)%nat →
  in_bounds offs0 src0 → in_bounds offs1 src1 →
  ∃ dst', stores offs0 offs1 (Z.of_nat n) dst = Ret dst' ∧ length dst' = length dst ∧
    (∀ k, (k < n)%nat → ∃ x y, src0 !! Z.to_nat (offs0 !!! k) = Some x ∧
       src1 !! Z.to_nat (offs1 !!! k) = Some y ∧ dst' !! k = Some (functor x y)) ∧
    (∀ k, (n ≤ k)%nat → dst' !! k = dst !! k).
Proof.
  intros H0 H1 Hd B0 B1. unfold stores. induction n as [|n IH].
  { exists dst. split_and!; try done. intros k Hk. lia. }
  destruct IH as (d & E & L & Hin & Hout); [lia..|].
  rewrite range_list_snoc, ofold_app, E. cbn [obind ofold]. rewrite Nat2Z.id.
  assert (Rd : ∀ (l : list A) offs, (S n ≤ length offs)%nat → in_bounds offs l →
    ∃ x, at_ l (offs !!! n) = Ret x ∧ l !! Z.to_nat (offs !!! n) = Some x).
  { intros l offs Ho Hb. destruct (lookup_lt_is_Some_2 offs n) as [o Eo]; [lia|].
    rewrite (list_lookup_total_correct _ _ _ Eo).
    pose proof (Forall_lookup_1 _ _ _ _ Hb Eo) as Hr. simpl in Hr.
    destruct (lookup_lt_is_Some_2 l (Z.to_nat o)) as [x Ex]; [lia|].
    exists x. split; [apply at_Ret; split; [lia|done]|done]. }
  destruct (Rd src0 offs0 H0 B0) as (x & Ex & Lx). destruct (Rd src1 offs1 H1 B1) as (y & Ey & Ly).
  unfold store. rewrite Ex, Ey. cbn [obind]. rewrite write_at_spec by lia. cbn [obind].
  eexists. split; [done|]. split_and!.
  - by rewrite length_insert.
  - intros k Hk. destruct (decide (k = n)) as [->|].
    + exists x, y. split_and!; [done..|]. by rewrite list_lookup_insert_eq by lia.
    + rewrite list_lookup_insert_ne by done. apply Hin. lia.
  - intros k Hk. rewrite list_lookup_insert_ne by lia. apply Hout. lia.
Qed.

End Kernels.

(** ** The primitive *)

Lemma read_offsets_bounds {A : Type} (p D : list Z) (l : list A) : broadcastable p D →
  Forall (λ d, 0 < d) D → prodZ p ≤ Z.of_nat (length l) → in_bounds (read_offsets p D) l.
Proof.
  intros Hb Hd Hl. unfold in_bounds, read_offsets. apply Forall_fmap, Forall_forall.
  intros idx Hin%all_indices_in. unfold compose. pose proof (src_index_in p D idx Hb Hd Hin) as Hi.
  pose proof (offset_of_range _ _ Hi). lia.
Qed.

Lemma length_read_offsets (p D : list Z) : Forall (λ d, 0 ≤ d) D →
  length (read_offsets p D) = Z.to_nat (prodZ D).
Proof.
  intros Hd. unfold read_offsets. rewrite length_fmap.
  pose proof (f_equal length (all_indices_offsets D Hd)) as H. rewrite length_fmap in H. rewrite H.
  unfold range_list. rewrite length_map, length_seq. f_equal. lia.
Qed.

Lemma DispatchLaunch_stores {A B : Type} (functor : A → A → B) (src0_dims src1_dims : list Z)
    (src0_ptr src1_ptr dst_ptr broadcast0 : Z) (src0 src1 : list A) (dst : list B) :
  let n := Nat.max (length src0_dims) (length src1_dims) in
  let D := broadcast_dims src0_dims src1_dims in
  compatible (padded n src0_dims) (padded n src1_dims) →
  Forall (λ d, 0 < d) src0_dims → Forall (λ d, 0 < d) src1_dims →
  (n ≤ 8)%nat → prodZ D < 2 ^ 32 → src0_ptr ≠ dst_ptr → src1_ptr ≠ dst_ptr →
  (1 ≤ length src0)%nat → (1 ≤ length src1)%nat →
  DispatchLaunch functor src0_dims src1_dims src0_ptr src1_ptr dst_ptr src0 src1 dst broadcast0 =
  stores functor src0 src1 (read_offsets (padded n src0_dims) D) (read_offsets (padded n src1_dims) D)
    (prodZ D) dst.
Proof.
  intros n D Hc P0 P1 Hn HD N0 N1 L0 L1.
  destruct (SimplifyBroadcastDims_spec src0_dims src1_dims Hc P0 P1 ltac:(fold D; lia) ltac:(fold n; lia) broadcast0)
    as (s0 & s1 & sd & E & HS).
  unfold DispatchLaunch. rewrite E. cbn [obind]. unfold CheckInplace.
  destruct (Z.eqb_spec src0_ptr dst_ptr); [done|]. destruct (Z.eqb_spec src1_ptr dst_ptr); [done|].
  cbn [obind]. fold (launch_simplified functor src0 src1 s0 s1 sd dst).
  assert (HL : launchable s0 s1 sd).
  { destruct HS as [S1 S2 S3 S4 S5 S6 S7 S8 S9 S10]. constructor; try done.
    - fold n in S3. rewrite padded_length in S3 by lia. lia.
    - rewrite S8. exact HD. }
  rewrite launch_simplified_index by done. destruct (launchable_sizes _ _ _ HL) as (Pd & _).
  rewrite <- stores_index by (eapply Forall_impl; [exact Pd|simpl; lia]).
  rewrite (si_read0 _ _ _ _ _ HS), (si_read1 _ _ _ _ _ HS), (si_prod _ _ _ _ _ HS). done.
Qed.

(** C20 The CPU broadcast primitive computes the broadcast of its functor: for
    positive, broadcast-compatible shapes of at most eight axes and fewer than
    2^32 result elements, buffers that hold them and a destination apart from the
    sources, [DispatchLaunch] returns whichever of its eight kernels the merged
    axes select, every element of the result at index [idx] is the functor of the
    operands' elements at [idx] with zero on their broadcast axes, and nothing
    beyond the result is written. *)
Theorem binary_broadcast_correct {A B : Type} (functor : A → A → B) (src0_dims src1_dims : list Z)
    (src0_ptr src1_ptr dst_ptr broadcast0 : Z) (src0 src1 : list A) (dst : list B) :
  let n := Nat.max (length src0_dims) (length src1_dims) in
  let p0 := padded n src0_dims in
  let p1 := padded n src1_dims in
  let D := broadcast_dims src0_dims src1_dims in
  compatible p0 p1 →
  Forall (λ d, 0 < d) src0_dims → Forall (λ d, 0 < d) src1_dims →
  (n ≤ 8)%nat → prodZ D < 2 ^ 32 → src0_ptr ≠ dst_ptr → src1_ptr ≠ dst_ptr →
  prodZ src0_dims ≤ Z.of_nat (length src0) → prodZ src1_dims ≤ Z.of_nat (length src1) →
  prodZ D ≤ Z.of_nat (length dst) →
  ∃ dst',
    DispatchLaunch functor src0_dims src1_dims src0_ptr src1_ptr dst_ptr src0 src1 dst broadcast0 = Ret dst' ∧
    length dst' = length dst ∧
    (∀ idx, index_in idx D → ∃ x y,
       src0 !! Z.to_nat (offset_of (src_index p0 idx) p0) = Some x ∧
       src1 !! Z.to_nat (offset_of (src_index p1 idx) p1) = Some y ∧
       dst' !! Z.to_nat (offset_of idx D) = Some (functor x y)) ∧
    (∀ k, (Z.to_nat (prodZ D) ≤ k)%nat → dst' !! k = dst !! k).
Proof.
  intros n p0 p1 D Hc P0 P1 Hn HD N0 N1 L0 L1 Ld.
  pose proof (prodZ_ge_1 _ P0). pose proof (prodZ_ge_1 _ P1).
  rewrite DispatchLaunch_stores by (done || lia). fold n p0 p1 D.
  assert (Pp0 : Forall (λ d, 0 < d) p0) by (by apply padded_pos).
  assert (Pp1 : Forall (λ d, 0 < d) p1) by (by apply padded_pos).
  assert (PD : Forall (λ d, 0 < d) D) by (by apply zip_max_pos).
  assert (ND : Forall (λ d, 0 ≤ d) D) by (eapply Forall_impl; [exact PD|simpl; lia]).
  pose proof (prodZ_ge_1 _ PD).
  destruct (stores_spec functor src0 src1 (read_offsets p0 D) (read_offsets p1 D) (Z.to_nat (prodZ D)) dst)
    as (d' & E & Hl & Hin & Hout).
  - rewrite length_read_offsets by done. done.
  - rewrite length_read_offsets by done. done.
  - lia.
  - apply read_offsets_bounds; [by apply compatible_left|done|]. unfold p0. by rewrite padded_prod.
  - apply read_offsets_bounds; [|done|unfold p1; by rewrite padded_prod].
    unfold D, broadcast_dims. rewrite zip_max_comm. apply compatible_left; [by apply compatible_comm|done..].
  - rewrite Z2Nat.id in E by lia. exists d'. split_and!; [done..| |done].
    intros idx Hidx. pose proof (offset_of_range idx D Hidx).
    destruct (Hin (Z.to_nat (offset_of idx D))) as (x & y & Hx & Hy & Hd); [lia|].
    rewrite !read_offsets_lookup in Hx, Hy by done. by exists x, y.
Qed.

Lemma binary_broadcast_correct_witness :
  ∃ d, DispatchLaunch Z.add [2; 1; 3] [2; 1] 0 1 2 [0; 1; 2; 3; 4; 5] [10; 20] (replicate 12 0) 99 = Ret d ∧
    d !! 4%nat = Some 21.
Proof.
  destruct (binary_broadcast_correct Z.add [2; 1; 3] [2; 1] 0 1 2 99 [0; 1; 2; 3; 4; 5] [10; 20] (replicate 12 0))
    as (d & E & _ & H & _).
  - repeat constructor; simpl; lia.
  - repeat constructor; lia.
  - repeat constructor; lia.
  - simpl. lia.
  - vm_compute. reflexivity.
  - lia.
  - lia.
  - vm_compute. discriminate.
  - vm_compute. discriminate.
  - vm_compute. discriminate.
  - exists d. split; [exact E|]. destruct (H [0; 1; 1]) as (x & y & Hx & Hy & Hd).
    + repeat constructor; vm_compute; done.
    + vm_compute in Hx, Hy, Hd. injection Hx as <-. injection Hy as <-. exact Hd.
Defined.
