(* ===== verification/Permute.v ===== *)
(** * The permute primitive (CPU)

    Models [oneflow/core/ep/common/primitive/permute.h] (coalescing of axes and
    choice of the width of a move), [permute_impl.h] (dispatch) and the kernel and
    factory of [oneflow/core/ep/cpu/primitive/permute.cpp] (the oneDNN variant calls
    a library and is not modelled).  Buffers are lists of elements; a move of
    [movement_size] bytes moves [movement_size / elem_size] of them.  Axis numbers
    are naturals, sizes are integers; the local arrays of the code are written
    before they are read when [permutation] is a permutation.

    The theorem is that the primitive transposes: merging consecutive axes,
    dropping axes of extent one and moving several elements at once change the
    order of the moves, not what goes where. *)
From S2P Require Import Prelude Shape NdIndex CopyNd FastMath Broadcast.

(** ** Simplification *)

(** [for (size = max; size > elem_size; size /= 2)]: 16 is halved at most five
    times. *)
Fixpoint permute_movement_loop (fuel : nat) (size elem_size last_dim_size src dst : Z) : Z :=
  match fuel with
  | O => elem_size
  | S fuel =>
      if elem_size <? size then
        if (last_dim_size mod size =? 0) && (src mod size =? 0) && (dst mod size =? 0) then size
        else permute_movement_loop fuel (size / 2) elem_size last_dim_size src dst
      else elem_size
  end.

Definition PermuteMovementSize (elem_size : Z) (src_dims : list Z) (permutation : list nat)
    (src dst : Z) : outcome Z :=
  let* _ := CHECK (0 <? elem_size) in
  let* _ := CHECK (Z.land elem_size (elem_size - 1) =? 0) in
  let* _ := CHECK (16 mod elem_size =? 0) in
  let n := length src_dims in
  if bool_decide (permutation !! (n - 1)%nat = Some (n - 1)%nat) then
    let last_dim_size := default 0 (src_dims !! (n - 1)%nat) * elem_size in
    Ret (permute_movement_loop 5 16 elem_size last_dim_size src dst)
  else Ret elem_size.

Definition dim (dims : list Z) (i : nat) : Z := default 0 (dims !! i).

(** The two nested [while] loops: a run of consecutive axes of [permutation] is
    multiplied into the entry of its first axis [start], the others become one;
    [prev] is the last entry consumed. *)
Fixpoint coalesce (dims : list Z) (start prev : nat) (rest : list nat) (c : list Z) : list Z :=
  match rest with
  | [] => c
  | p :: rest =>
      if Nat.eqb p (S prev) then
        coalesce dims start p rest (<[p := 1]> (<[start := dim c start * dim dims p]> c))
      else coalesce dims p p rest (<[p := dim dims p]> c)
  end.

Definition coalesced_dims (dims : list Z) (permutation : list nat) : list Z :=
  match permutation with
  | [] => replicate (length dims) 0
  | p :: rest => coalesce dims p p rest (<[p := dim dims p]> (replicate (length dims) 0))
  end.

(** The second loop: [const int src_dim = coalesced_dims[i]] truncates to 32 bits;
    axes of extent one have no number in the simplified shape. *)
Definition map_axis (st : list Z * list Z) (coalesced_dim : Z) : list Z * list Z :=
  let '(mapping, simplified) := st in
  let src_dim := i32 coalesced_dim in
  if src_dim =? 1 then (mapping ++ [-1], simplified)
  else (mapping ++ [Z.of_nat (length simplified)], simplified ++ [src_dim]).

Definition SimplifyPermutation (dims : list Z) (permutation : list nat)
    : outcome (list Z * list nat) :=
  let* _ := CHECK (negb (Nat.eqb (length dims) 0)) in
  let '(mapping, simplified) := foldl map_axis ([], []) (coalesced_dims dims permutation) in
  match simplified with
  | [] => Ret ([1], [0%nat])
  | _ => Ret (simplified,
              omap (λ p, let mapped := dim mapping p in
                         if 0 <=? mapped then Some (Z.to_nat mapped) else None) permutation)
  end.

(** Divide the last extent by the elements moved at once. *)
Definition shrink_last (k : Z) (dims : list Z) : list Z :=
  alter (λ d, Z.quot d k) (length dims - 1)%nat dims.

Definition SimplifyPermutationMovement (dims : list Z) (permutation : list nat) (elem_size src dst : Z)
    : outcome (list Z * list nat * Z) :=
  let* pre := PermuteMovementSize elem_size dims permutation src dst in
  let tmp_dims := shrink_last (pre / elem_size) dims in
  let* sp := SimplifyPermutation tmp_dims permutation in
  let* movement_size := PermuteMovementSize pre sp.1 sp.2 src dst in
  Ret (shrink_last (movement_size / pre) sp.1, sp.2, movement_size).

(** ** Kernel and dispatch *)

Section Kernel.
Context {B : Type}.

(** [src_index[permutation[dim]] = dst_index[dim]]. *)
Definition scatter (permutation : list nat) (dst_index : list Z) : list Z :=
  foldl (λ s pi, <[pi.1 := pi.2]> s) (replicate (length permutation) 0) (zip permutation dst_index).

(** [PermuteKernel] with [MakePermuteParams]; [k] elements per move.  Values of
    the index type that do not fit stop the model. *)
Definition PermuteKernel (bits k : Z) (dims : list Z) (permutation : list nat) (count : Z)
    (src dst : list B) : outcome (list B) :=
  let n := length dims in
  let dst_dims := map (dim dims) permutation in
  let src_stride := InitStrides n dims n in
  let dst_stride := InitStrides n dst_dims n in
  let* _ := CHECK (forallb (fits bits) (src_stride ++ dst_stride ++ [count])) in
  ofold (λ d i,
           let dst_index := OffsetToNdIndex dst_stride i in
           let src_index := scatter permutation dst_index in
           let src_offset := NdIndexToOffset src_stride src_index n in
           let* _ := CHECK (fits bits src_offset) in
           copy_unit k src d (i, src_offset))
        (range_list 0 count) dst.

Definition PermuteDispatchIndexType (k : Z) (dims : list Z) (permutation : list nat)
    (src dst : list B) : outcome (list B) :=
  let count := foldl (λ c e, u64 (c * e)) 1 dims in
  if count <? 2 ^ 31 - 1 then PermuteKernel 32 k dims permutation count src dst
  else PermuteKernel 64 k dims permutation count src dst.

Definition PermuteDispatchMovementSize (movement_size elem_size : Z) (dims : list Z)
    (permutation : list nat) (src dst : list B) : outcome (list B) :=
  let* _ := CHECK (bool_decide (movement_size ∈ [1; 2; 4; 8; 16])) in
  PermuteDispatchIndexType (movement_size / elem_size) dims permutation src dst.

Definition PermuteLaunchWithSimplified (movement_size elem_size : Z) (dims : list Z)
    (permutation : list nat) (src dst : list B) : outcome (list B) :=
  let* _ := CHECK (Nat.leb 1 (length dims) && Nat.leb (length dims) 8) in
  PermuteDispatchMovementSize movement_size elem_size dims permutation src dst.

(** [SimplifyThenLaunch], that is [PermuteImpl::Launch]. *)
Definition PermuteLaunch (elem_size : Z) (dims : list Z) (permutation : list nat)
    (src_ptr dst_ptr : Z) (src dst : list B) : outcome (list B) :=
  let* _ := CHECK (Nat.leb (length dims) kMaxNumDims) in
  let* _ := CHECK (Nat.ltb 0 (length dims)) in
  let* r := SimplifyPermutationMovement dims permutation elem_size src_ptr dst_ptr in
  let '(simplified, perm, movement_size) := r in
  PermuteLaunchWithSimplified movement_size elem_size simplified perm src dst.

End Kernel.

(** [PermuteFactoryImpl::New], without oneDNN. *)
Definition PermuteFactory_New (max_num_dims : nat) : bool := Nat.leb max_num_dims kMaxNumDims.

Example permute_transpose :
  PermuteLaunch 4 [2; 3] [1%nat; 0%nat] 0 0 [1; 2; 3; 4; 5; 6] (replicate 6 0) = Ret [1; 4; 2; 5; 3; 6].
Proof. reflexivity. Qed.

Example permute_merged :
  PermuteLaunch 4 [2; 3; 4; 1] [2%nat; 0%nat; 1%nat; 3%nat] 0 0 (range_list 0 24) (replicate 24 0) =
  PermuteLaunch 4 [6; 4] [1%nat; 0%nat] 0 0 (range_list 0 24) (replicate 24 0).
Proof. vm_compute. reflexivity. Qed.

(** Merging axes truncates: two axes whose product is 2^32 are coalesced into an
    [int] of value 0, and moving the last axis of a [65536, 65536, 2] tensor to the
    front moves nothing at all and reports success. *)
Theorem permute_coalesced_truncation {B : Type} (src dst : list B) :
  SimplifyPermutation [65536; 65536; 2] [2%nat; 0%nat; 1%nat] = Ret ([0; 2], [1%nat; 0%nat]) ∧
  PermuteLaunch 4 [65536; 65536; 2] [2%nat; 0%nat; 1%nat] 0 0 src dst = Ret dst.
Proof. split; reflexivity. Qed.

(** ** The offsets a transposition reads *)

(** The (extent, source stride) axes of the destination's row-major order. *)
Definition perm_axes (dims : list Z) (permutation : list nat) : list (Z * Z) :=
  map (λ p, (dim dims p, prodZ (drop (S p) dims))) permutation.

(** Source offsets in the order of the destination. *)
Definition perm_walk (dims : list Z) (permutation : list nat) : list Z :=
  swalk (perm_axes dims permutation).

(** Offset of an index tuple along strided axes. *)
Fixpoint strided_offset (axes : list (Z * Z)) (idx : list Z) : Z :=
  match axes, idx with
  | (_, s) :: axes, i :: idx => i * s + strided_offset axes idx
  | _, _ => 0
  end.

Lemma swalk_indices (axes : list (Z * Z)) :
  swalk axes = strided_offset axes <$> all_indices (map fst axes).
Proof.
  induction axes as [|[n s] axes IH]; [done|]. cbn [swalk map fst all_indices].
  rewrite fmap_bind_assoc. apply bind_ext_all. intros i. by rewrite IH, <- !list_fmap_compose.
Qed.

(** *** The kernel *)

Lemma scatter_fold (ps : list nat) (idx s : list Z) (n : nat) :
  length ps = length idx → NoDup ps → Forall (λ p, (p < n)%nat) ps → length s = n →
  let r := foldl (λ s pi, <[pi.1 := pi.2]> s) s (zip ps idx) in
  length r = n ∧
  (∀ k p i, ps !! k = Some p → idx !! k = Some i → r !! p = Some i) ∧
  (∀ p, p ∉ ps → r !! p = s !! p).
Proof.
  revert idx s. induction ps as [|p ps IH]; intros [|i idx] s Hl Hnd Hlt Hs; try done; cbv zeta.
  apply NoDup_cons in Hnd as [Hni Hnd]. apply Forall_cons in Hlt as [Hp Hlt]. cbn [zip zip_with foldl fst snd].
  destruct (IH idx (<[p := i]> s)) as (R1 & R2 & R3); [simpl in Hl; lia|done|done|by rewrite length_insert|].
  split_and!; [done| |].
  - intros [|k] q j Hq Hj; simpl in Hq, Hj; simplify_eq.
    + rewrite R3 by done. by apply list_lookup_insert_eq.
    + by apply (R2 k).
  - intros q Hq. rewrite not_elem_of_cons in Hq. destruct Hq as [Hne Hq].
    rewrite R3 by done. by apply list_lookup_insert_ne.
Qed.

Lemma permutation_facts (perm : list nat) (n : nat) : perm ≡ₚ seq 0 n →
  NoDup perm ∧ length perm = n ∧ Forall (λ p, (p < n)%nat) perm.
Proof.
  intros Hp. split_and!.
  - rewrite Hp. apply NoDup_seq.
  - by rewrite Hp, length_seq.
  - rewrite Hp. apply Forall_forall. intros p ?%elem_of_seq. lia.
Qed.

(** The scattered index has the strided offset of the destination index. *)
Lemma scatter_offset (dims : list Z) (perm : list nat) (idx : list Z) :
  perm ≡ₚ seq 0 (length dims) → length idx = length dims →
  length (scatter perm idx) = length dims ∧
  offset_of (scatter perm idx) dims = strided_offset (perm_axes dims perm) idx.
Proof.
  intros Hp Hl. destruct (permutation_facts _ _ Hp) as (Hnd & Hlen & Hlt).
  unfold scatter. destruct (scatter_fold perm idx (replicate (length perm) 0) (length dims))
    as (R1 & R2 & _); [lia|done|done|rewrite length_replicate; lia|].
  set (r := foldl _ _ _) in *. split; [done|].
  rewrite <- offset_of_sum by done.
  rewrite <- (sumZ_perm (map (λ i, default 0 (r !! i) * default 0 (row_major dims !! i)) perm))
    by (apply Permutation_map, Hp).
  assert (Hr : ∀ k p i, perm !! k = Some p → idx !! k = Some i → r !! p = Some i) by exact R2.
  clear R2. assert (Hin : ∀ p, p ∈ perm → (p < length dims)%nat) by (by apply Forall_forall).
  clear Hp Hnd Hlt R1. clearbody r. rewrite <- Hlen in Hl. clear Hlen.
  revert idx Hl Hr. induction perm as [|p perm IH]; intros [|i idx] Hl Hr; try done.
  cbn [map perm_axes strided_offset]. rewrite sumZ_cons. fold (perm_axes dims perm).
  rewrite (Hr 0%nat p i) by done. rewrite row_major_lookup by (apply Hin; left). simpl.
  rewrite (IH (λ p Hp, Hin p (list_elem_of_further _ _ _ Hp)) idx); [lia|simpl in Hl; lia|].
  intros k q j Hq Hj. by apply (Hr (S k)).
Qed.

Lemma perm_dims_prod (dims : list Z) (perm : list nat) : perm ≡ₚ seq 0 (length dims) →
  prodZ (map (dim dims) perm) = prodZ dims.
Proof.
  intros Hp. assert (R : ∀ l k : list Z, l ≡ₚ k → prodZ l = prodZ k).
  { induction 1; rewrite ?prodZ_cons; lia || congruence. }
  rewrite (R _ (map (dim dims) (seq 0 (length dims)))) by (by apply Permutation_map). clear Hp.
  f_equal. apply list_eq. intros i. rewrite list_lookup_fmap.
  destruct (decide (i < length dims)%nat) as [Hi|Hi].
  - rewrite lookup_seq_lt by done. simpl. unfold dim.
    destruct (lookup_lt_is_Some_2 dims i Hi) as [d Hd]. by rewrite Hd.
  - rewrite lookup_seq_ge, (lookup_ge_None_2 dims) by lia. done.
Qed.

Lemma perm_dims_pos (dims : list Z) (perm : list nat) : perm ≡ₚ seq 0 (length dims) →
  Forall (λ d, 0 < d) dims → Forall (λ d, 0 < d) (map (dim dims) perm).
Proof.
  intros Hp Hd. destruct (permutation_facts _ _ Hp) as (_ & _ & Hlt).
  apply Forall_map. eapply Forall_impl; [exact Hlt|]. intros p Hp'. unfold dim.
  destruct (lookup_lt_is_Some_2 dims p Hp') as [d Ed]. rewrite Ed. simpl. by eapply (Forall_lookup_1 (λ d, 0 < d)).
Qed.

Lemma fst_perm_axes (dims : list Z) (perm : list nat) : map fst (perm_axes dims perm) = map (dim dims) perm.
Proof. unfold perm_axes. by rewrite map_map. Qed.

(** The moves of the kernel, as pairs of units. *)
Definition perm_moves (dims : list Z) (perm : list nat) : list (Z * Z) :=
  zip (range_list 0 (prodZ dims)) (perm_walk dims perm).

Lemma perm_moves_indices (dims : list Z) (perm : list nat) : perm ≡ₚ seq 0 (length dims) →
  Forall (λ d, 0 < d) dims →
  perm_moves dims perm =
  (λ idx, (offset_of idx (map (dim dims) perm), strided_offset (perm_axes dims perm) idx))
    <$> all_indices (map (dim dims) perm).
Proof.
  intros Hp Hd. unfold perm_moves, perm_walk. rewrite swalk_indices, fst_perm_axes.
  rewrite <- (perm_dims_prod dims perm Hp).
  rewrite <- all_indices_offsets
    by (eapply Forall_impl; [by apply perm_dims_pos|simpl; lia]).
  generalize (all_indices (map (dim dims) perm)). intros l. induction l as [|idx l IH]; [done|].
  cbn. f_equal. exact IH.
Qed.

Lemma strided_offset_bound (dims : list Z) (perm : list nat) (idx : list Z) :
  perm ≡ₚ seq 0 (length dims) → Forall (λ d, 0 < d) dims → index_in idx (map (dim dims) perm) →
  0 ≤ strided_offset (perm_axes dims perm) idx < prodZ dims.
Proof.
  intros Hp Hd Hin. destruct (permutation_facts _ _ Hp) as (Hnd & Hlen & Hlt).
  assert (Hl : length idx = length dims) by (apply Forall2_length in Hin; rewrite length_map in Hin; lia).
  destruct (scatter_offset dims perm idx Hp Hl) as [Hsl <-]. apply offset_of_range.
  apply Forall2_same_length_lookup. split; [done|]. intros q i d Hi Hq.
  unfold scatter in Hi.
  destruct (scatter_fold perm idx (replicate (length perm) 0) (length dims)) as (_ & R2 & _);
    [lia|done|done|rewrite length_replicate; lia|].
  assert (Hqp : q ∈ perm) by (rewrite Hp; apply elem_of_seq; apply lookup_lt_Some in Hq; lia).
  apply list_elem_of_lookup in Hqp as [k Hk].
  destruct (lookup_lt_is_Some_2 idx k) as [j Hj]; [apply lookup_lt_Some in Hk; lia|].
  rewrite (R2 k q j Hk Hj) in Hi. injection Hi as <-.
  assert (Hdk : map (dim dims) perm !! k = Some d)
    by (rewrite list_lookup_fmap, Hk; simpl; unfold dim; by rewrite Hq).
  exact (Forall2_lookup_lr _ _ _ _ _ _ Hin Hj Hdk).
Qed.

Lemma PermuteKernel_moves {B : Type} (bits k : Z) (dims : list Z) (perm : list nat) (src dst : list B) :
  dims ≠ [] → perm ≡ₚ seq 0 (length dims) → Forall (λ d, 0 < d) dims → prodZ dims < 2 ^ (bits - 1) →
  PermuteKernel bits k dims perm (prodZ dims) src dst = ofold (copy_unit k src) (perm_moves dims perm) dst.
Proof.
  intros Hne Hp Hd Hb. destruct (permutation_facts _ _ Hp) as (Hnd & Hlen & Hlt).
  assert (Hn : (1 ≤ length dims)%nat) by (destruct dims; simpl; [done|lia]).
  pose proof (perm_dims_pos dims perm Hp Hd) as Hdp. pose proof (prodZ_ge_1 dims Hd) as H1.
  assert (Hdl : length (map (dim dims) perm) = length dims) by (by rewrite length_map).
  unfold PermuteKernel. rewrite !forallb_app.
  assert (Hfit : ∀ s, length s = length dims → Forall (λ d, 0 < d) s → prodZ s = prodZ dims →
    forallb (fits bits) (InitStrides (length dims) s (length dims)) = true).
  { intros s Hs Hpos He. rewrite <- Hs. rewrite InitStrides_row_major, Nat.sub_diag by lia.
    simpl. rewrite app_nil_r. apply forallb_forall. intros x Hx%list_elem_of_In.
    unfold row_major in Hx. apply list_elem_of_In, in_map_iff in Hx as (i & <- & _).
    pose proof (prodZ_drop_bound s (S i) Hpos). apply fits_range with (b := prodZ dims + 1); lia. }
  rewrite !Hfit by (done || by apply perm_dims_prod). cbn [andb forallb].
  rewrite fits_range with (b := prodZ dims + 1) by lia. cbn [andb CHECK obind].
  rewrite perm_moves_indices, ofold_fmap by done.
  rewrite <- (perm_dims_prod dims perm Hp).
  rewrite <- all_indices_offsets by (eapply Forall_impl; [exact Hdp|simpl; lia]).
  rewrite ofold_fmap. apply ofold_ext_in. intros d idx Hin%all_indices_in.
  assert (HO : OffsetToNdIndex (InitStrides (length dims) (map (dim dims) perm) (length dims))
                 (offset_of idx (map (dim dims) perm)) = idx).
  { rewrite <- Hdl. apply OffsetToNdIndex_offset_of; [|done]. intros E. rewrite E in Hdl. simpl in Hdl. lia. }
  rewrite HO.
  assert (Hil : length idx = length dims) by (apply Forall2_length in Hin; lia).
  destruct (scatter_offset dims perm idx Hp Hil) as [Hsl Hso].
  rewrite NdIndexToOffset_eq, Hso by (done || lia).
  pose proof (strided_offset_bound dims perm idx Hp Hd Hin).
  rewrite fits_range with (b := prodZ dims) by lia. done.
Qed.

(** *** Moving [k] elements at once *)

Definition expand (k : Z) (l : list Z) : list Z := o ← l; (λ r, o * k + r) <$> range_list 0 k.

Lemma units_as_elements {B : Type} (k : Z) (src : list B) (xs ys : list Z) (dst : list B) :
  length xs = length ys →
  ofold (copy_unit k src) (zip xs ys) dst = ofold (copy_byte src) (zip (expand k xs) (expand k ys)) dst.
Proof.
  intros Hl. replace (zip (expand k xs) (expand k ys))
    with (p ← zip xs ys; (λ r, (p.1 * k + r, p.2 * k + r)) <$> range_list 0 k).
  - rewrite ofold_bind. apply ofold_ext_in. intros d p _. unfold copy_unit. by rewrite ofold_fmap.
  - unfold expand. revert ys Hl. induction xs as [|x xs IH]; intros [|y ys] Hl; try done.
    cbn [zip zip_with]. rewrite !bind_cons. cbn [fst snd].
    rewrite IH by (simpl in Hl; lia). rewrite zip_with_app by (by rewrite !length_fmap). f_equal.
    generalize (range_list 0 k). intros l. induction l as [|r l IHl]; [done|]. cbn. f_equal. exact IHl.
Qed.

Lemma expand_range (n k : Z) : 0 ≤ n → 0 ≤ k → expand k (range_list 0 n) = range_list 0 (n * k).
Proof. intros. unfold expand. by rewrite range_list_mul. Qed.

Lemma expand_expand (j k : Z) (l : list Z) : 0 ≤ j → 0 ≤ k → expand k (expand j l) = expand (j * k) l.
Proof.
  intros Hj Hk. unfold expand. rewrite bind_bind_assoc. apply bind_ext_all. intros o.
  rewrite range_list_mul, bind_fmap_assoc, fmap_bind_assoc by done. apply bind_ext_all. intros r.
  rewrite <- list_fmap_compose. apply list_fmap_ext. intros _ i _. unfold compose. lia.
Qed.

Lemma swalk_scale (k : Z) (axes : list (Z * Z)) :
  swalk (map (λ x, (x.1, x.2 * k)) axes ++ [(k, 1)]) = expand k (swalk axes).
Proof.
  induction axes as [|[n s] axes IH].
  - unfold expand. cbn [map app swalk]. rewrite bind_singleton.
    induction (range_list 0 k) as [|i l IHl]; [done|]. rewrite bind_cons, IHl. cbn. f_equal. lia.
  - cbn [map app swalk fst snd]. rewrite IH. unfold expand. rewrite bind_bind_assoc.
    apply bind_ext_all. intros i. rewrite fmap_bind_assoc, bind_fmap_assoc. apply bind_ext_all. intros o.
    rewrite <- list_fmap_compose. apply list_fmap_ext. intros _ r _. unfold compose. lia.
Qed.

Lemma perm_last (perm : list nat) (n : nat) : perm ≡ₚ seq 0 (S n) → perm !! n = Some n →
  ∃ perm', perm = perm' ++ [n] ∧ Forall (λ p, (p < n)%nat) perm'.
Proof.
  intros Hp Hn. destruct (permutation_facts _ _ Hp) as (Hnd & Hlen & Hlt).
  exists (take n perm). assert (E : perm = take n perm ++ [n]).
  { rewrite <- (take_drop_middle perm n n Hn) at 1. by rewrite drop_ge by lia. }
  split; [done|]. apply Forall_forall. intros p Hp'.
  assert (p < S n)%nat by (apply (proj1 (Forall_forall _ _) Hlt); rewrite E; apply elem_of_app; by left).
  assert (p ≠ n); [|lia]. intros ->. rewrite E in Hnd. apply NoDup_app in Hnd as (_ & Hd & _).
  apply (Hd n Hp'). by left.
Qed.

(** A last axis that stays last can be moved [k] elements at a time. *)
Lemma perm_walk_shrink (dims : list Z) (perm : list nat) (k : Z) :
  perm ≡ₚ seq 0 (length dims) → perm !! (length dims - 1)%nat = Some (length dims - 1)%nat →
  0 < k → (k | dim dims (length dims - 1)) → dims ≠ [] → Forall (λ d, 0 < d) dims →
  perm_walk dims perm = expand k (perm_walk (shrink_last k dims) perm) ∧
  Forall (λ d, 0 < d) (shrink_last k dims) ∧ prodZ (shrink_last k dims) * k = prodZ dims.
Proof.
  intros Hp Hlast Hk [d Hd] Hne Hpos.
  destruct (exists_last Hne) as (ds & x & ->). rewrite length_app in *. simpl in Hp, Hlast, Hd.
  rewrite Nat.add_sub in *. unfold dim in Hd. rewrite lookup_app_r, Nat.sub_diag in Hd by lia.
  simpl in Hd. subst x. rewrite Nat.add_1_r in Hp.
  destruct (perm_last perm (length ds) Hp Hlast) as (perm' & -> & Hlt).
  apply Forall_app in Hpos as [Hpos Hx%Forall_inv]. assert (0 < d) by nia.
  unfold shrink_last. rewrite length_app, Nat.add_sub.
  assert (Ealt : alter (λ e, Z.quot e k) (length ds) (ds ++ [d * k]) = ds ++ [d]).
  { rewrite alter_app_r_alt, Nat.sub_diag by lia. simpl. by rewrite Z.quot_mul by lia. }
  rewrite Ealt. split_and!.
  - unfold perm_walk, perm_axes. rewrite !map_app. cbn [map].
    assert (Hl1 : ∀ y, dim (ds ++ [y]) (length ds) = y).
    { intros y. unfold dim. by rewrite lookup_app_r, Nat.sub_diag by lia. }
    rewrite !Hl1. rewrite !drop_ge by (rewrite length_app; simpl; lia). rewrite prodZ_nil.
    rewrite <- swalk_scale, map_app, <- app_assoc. cbn [map app fst snd].
    rewrite map_map. cbn [fst snd].
    transitivity (swalk (map (λ p, (dim (ds ++ [d * k]) p, prodZ (drop (S p) (ds ++ [d * k])))) perm' ++
      [(d, 1 * k); (k, 1)])).
    { apply swalk_tail. symmetry. apply swalk_merge; lia. }
    f_equal. f_equal. apply map_ext_in. intros p Hin%list_elem_of_In.
    assert (p < length ds)%nat by (by apply (proj1 (Forall_forall _ _) Hlt)).
    rewrite !drop_app_le by lia. unfold dim. rewrite !lookup_app_l by lia.
    rewrite !prodZ_app, !prodZ_singleton. f_equal. lia.
  - apply Forall_app. split; [done|]. by apply Forall_singleton.
  - rewrite !prodZ_app, !prodZ_singleton. lia.
Qed.
