(* ===== verification/PermuteSpec.v ===== *)
(** * Coalescing axes does not change a transposition

    The coalesced and compressed shape of [SimplifyPermutation] walks the source in
    the same order as the original one; with the kernel lemmas of [Permute] this
    gives the correctness of the primitive. *)
From S2P Require Import Prelude Shape NdIndex CopyNd FastMath Broadcast Permute.

Section Coalesce.
Context (dims : list Z).

(** The product of the axes that continue the run at [prev]. *)
Fixpoint tailrun (prev : nat) (rest : list nat) : Z :=
  match rest with
  | p :: rest => if Nat.eqb p (S prev) then dim dims p * tailrun p rest else 1
  | [] => 1
  end.

Lemma dim_insert (c : list Z) (i j : nat) (x : Z) : (i < length c)%nat →
  dim (<[i := x]> c) j = if decide (i = j) then x else dim c j.
Proof.
  intros Hi. unfold dim. destruct (decide (i = j)) as [->|Hne].
  - by rewrite list_lookup_insert_eq.
  - by rewrite list_lookup_insert_ne.
Qed.

(** What the loop leaves in each entry. *)
Lemma coalesce_spec (rest : list nat) (start prev : nat) (c : list Z) :
  NoDup (start :: rest) → Forall (λ p, (p < length c)%nat) (start :: rest) → prev ∉ rest →
  let r := coalesce dims start prev rest c in
  length r = length c ∧
  dim r start = dim c start * tailrun prev rest ∧
  (∀ q, q ∉ start :: rest → dim r q = dim c q) ∧
  (∀ l1 a b l2, prev :: rest = l1 ++ a :: b :: l2 →
     dim r b = if Nat.eqb b (S a) then 1 else dim dims b * tailrun b l2).
Proof.
  revert start prev c. induction rest as [|p rest IH]; intros start prev c Hnd Hlt Hpr; cbv zeta.
  { cbn [coalesce tailrun]. split_and!; [done|lia|done|].
    intros l1 a b l2 E%(f_equal length). rewrite length_app in E. simpl in E. lia. }
  apply NoDup_cons in Hnd as [Hs Hnd]. apply Forall_cons in Hlt as [Hls Hlt].
  apply Forall_cons in Hlt as Hlt2. destruct Hlt2 as [Hlp Hlr].
  apply not_elem_of_cons in Hs as [Hsp Hsr]. apply not_elem_of_cons in Hpr as [Hpp Hpr].
  cbn [coalesce tailrun]. pose proof Hnd as Hnd'. apply NoDup_cons in Hnd' as [Hnp Hnr].
  destruct (Nat.eqb_spec p (S prev)) as [Hp|Hp].
  - destruct (IH start p (<[p := 1]> (<[start := dim c start * dim dims p]> c))) as (R1 & R2 & R3 & R4).
    { by apply NoDup_cons. } { rewrite !length_insert. by apply Forall_cons. } { done. }
    rewrite !length_insert in *. split_and!; [done| | |].
    + rewrite R2, !dim_insert by (rewrite ?length_insert; done).
      rewrite decide_False, decide_True by congruence. lia.
    + intros q Hq. rewrite !not_elem_of_cons in Hq. rewrite R3 by (rewrite not_elem_of_cons; tauto).
      rewrite !dim_insert by (rewrite ?length_insert; done). rewrite !decide_False by (intros ->; tauto). done.
    + intros [|x l1] a b l2 E; simplify_eq/=; [|by eapply R4].
      rewrite Nat.eqb_refl. rewrite R3 by (rewrite not_elem_of_cons; split; [congruence|done]).
      rewrite dim_insert by (rewrite ?length_insert; done). by rewrite decide_True.
  - destruct (IH p p (<[p := dim dims p]> c)) as (R1 & R2 & R3 & R4).
    { done. } { by rewrite length_insert. } { done. }
    rewrite !length_insert in *. split_and!; [done| | |].
    + rewrite R3 by (rewrite not_elem_of_cons; tauto). rewrite dim_insert by done.
      rewrite decide_False by (by intros ->). lia.
    + intros q Hq. rewrite !not_elem_of_cons in Hq. rewrite R3 by (rewrite not_elem_of_cons; tauto).
      rewrite dim_insert by done. rewrite decide_False by (intros ->; tauto). done.
    + intros [|x l1] a b l2 E; simplify_eq/=; [|by eapply R4].
      destruct (Nat.eqb_spec b (S a)); [done|]. rewrite R2, dim_insert by done. by rewrite decide_True.
Qed.
End Coalesce.

(** An element occurs at one place of a list without duplicates. *)
Lemma NoDup_split_unique {A : Type} (l1 l2 k1 k2 : list A) (x : A) : NoDup (l1 ++ x :: l2) →
  l1 ++ x :: l2 = k1 ++ x :: k2 → l1 = k1 ∧ l2 = k2.
Proof.
  revert k1. induction l1 as [|a l1 IH]; intros [|b k1] Hnd E; simplify_eq/=; try done.
  - apply NoDup_cons in Hnd as [Hni _]. destruct Hni. apply elem_of_app. right. left.
  - apply NoDup_cons in Hnd as [Hni _]. destruct Hni. apply elem_of_app. right. left.
  - apply NoDup_cons in Hnd as [_ Hnd]. by destruct (IH k1 Hnd) as [-> ->].
Qed.

Section Walk.
Context (dims : list Z) (perm : list nat).
Context (Hperm : perm ≡ₚ seq 0 (length dims)).
#[local] Abbreviation c := (coalesced_dims dims perm).
#[local] Abbreviation n := (length dims).

Lemma coalesced_entries :
  length c = n ∧
  (∀ p rest, perm = p :: rest → dim c p = dim dims p * tailrun dims p rest) ∧
  (∀ l1 a b l2, perm = l1 ++ a :: b :: l2 →
     dim c b = if Nat.eqb b (S a) then 1 else dim dims b * tailrun dims b l2).
Proof.
  destruct (permutation_facts _ _ Hperm) as (Hnd & Hlen & Hlt). unfold coalesced_dims.
  destruct perm as [|p rest]; [split_and!; [by rewrite length_replicate|done|by intros []]|].
  destruct (coalesce_spec dims rest p p (<[p := dim dims p]> (replicate n 0))) as (R1 & R2 & _ & R4).
  - done.
  - by rewrite length_insert, length_replicate.
  - by apply NoDup_cons in Hnd as [? _].
  - rewrite length_insert, length_replicate in R1. split_and!; [done| |by apply R4].
    intros p' rest' [= <- <-]. rewrite R2, dim_insert.
    + by rewrite decide_True.
    + rewrite length_replicate. by apply Forall_cons in Hlt as [? _].
Qed.

Lemma drop_dim (l : list Z) (q : nat) : (q < length l)%nat →
  prodZ (drop q l) = dim l q * prodZ (drop (S q) l).
Proof.
  intros Hq. destruct (lookup_lt_is_Some_2 l q Hq) as [d Hd]. rewrite (drop_S _ _ _ Hd), prodZ_cons.
  unfold dim. by rewrite Hd.
Qed.

(** The axes behind an entry: coalescing moved the rest of its run forward. *)
Lemma suffix_products (pre rest : list nat) (q : nat) : perm = pre ++ q :: rest →
  prodZ (drop (S q) dims) = tailrun dims q rest * prodZ (drop (S q) c).
Proof.
  destruct (permutation_facts _ _ Hperm) as (Hnd & Hlen & Hlt).
  destruct coalesced_entries as (Hcl & Hfirst & Hnext).
  remember (n - q)%nat as k eqn:Hk. revert q pre rest Hk.
  induction k as [k IH] using lt_wf_ind. intros q pre rest Hk E.
  assert (Hq : (q < n)%nat) by (apply (proj1 (Forall_forall _ _) Hlt); rewrite E; apply elem_of_app; right; left).
  destruct (decide (S q = n)) as [Hend|Hend].
  { rewrite !drop_ge by lia. rewrite prodZ_nil. destruct rest as [|p rest]; [simpl; lia|]. simpl.
    destruct (Nat.eqb_spec p (S q)) as [->|]; [|lia]. exfalso.
    assert (S q < n)%nat; [|lia]. apply (proj1 (Forall_forall _ _) Hlt). rewrite E.
    apply elem_of_app. right. right. left. }
  assert (Hin : S q ∈ perm) by (rewrite Hperm; apply elem_of_seq; lia).
  apply list_elem_of_split in Hin as (pre' & rest' & E').
  rewrite !(drop_dim _ (S q)) by lia. rewrite (IH (n - S q)%nat ltac:(lia) (S q) pre' rest' eq_refl E').
  assert (Hsucc : ∀ l, perm = l ++ q :: S q :: rest' → rest = S q :: rest').
  { intros l El. rewrite E in El. rewrite E in Hnd. by destruct (NoDup_split_unique _ _ _ _ _ Hnd El). }
  assert (Hstart : rest ≠ S q :: rest' → dim c (S q) = dim dims (S q) * tailrun dims (S q) rest').
  { intros Hns. destruct pre' as [|a pre' _] using rev_ind; [by rewrite (Hfirst _ _ E')|].
    rewrite <- app_assoc in E'. simpl in E'. rewrite (Hnext _ _ _ _ E').
    destruct (Nat.eqb_spec (S q) (S a)) as [[= <-]|]; [|done]. destruct Hns. by eapply Hsucc. }
  destruct rest as [|p rest]; cbn [tailrun]; [rewrite Hstart by done; lia|].
  destruct (Nat.eqb_spec p (S q)) as [->|Hne]; [|rewrite Hstart by congruence; lia].
  assert (rest = rest') as ->.
  { rewrite E in E', Hnd. change (pre ++ q :: S q :: rest) with (pre ++ [q] ++ S q :: rest) in E', Hnd.
    rewrite app_assoc in E', Hnd. by destruct (NoDup_split_unique _ _ _ _ _ Hnd E'). }
  rewrite (Hnext pre q (S q) rest' E), Nat.eqb_refl. lia.
Qed.

Lemma perm_axes_cons (ds : list Z) (q : nat) (rest : list nat) :
  perm_axes ds (q :: rest) = (dim ds q, prodZ (drop (S q) ds)) :: perm_axes ds rest.
Proof. done. Qed.

Lemma tailrun_pos (q : nat) (rest : list nat) : Forall (λ d, 0 < d) dims →
  Forall (λ p, (p < n)%nat) rest → 0 < tailrun dims q rest.
Proof.
  intros Hd. revert q. induction rest as [|p rest IH]; intros q Hlt; cbn [tailrun]; [done|].
  apply Forall_cons in Hlt as [Hp Hlt]. destruct (Nat.eqb p (S q)); [|done].
  assert (0 < dim dims p); [|specialize (IH p Hlt); nia]. unfold dim.
  destruct (lookup_lt_is_Some_2 dims p Hp) as [d Hd']. rewrite Hd'. by eapply (Forall_lookup_1 (λ d, 0 < d)).
Qed.

(** From an entry on, the walk of the original axes is the walk of the coalesced
    ones, the whole rest of the run being at the entry. *)
Lemma walk_suffix (pre rest : list nat) (q : nat) : Forall (λ d, 0 < d) dims → perm = pre ++ q :: rest →
  swalk (perm_axes dims (q :: rest)) =
  swalk ((dim dims q * tailrun dims q rest, prodZ (drop (S q) c)) :: perm_axes c rest).
Proof.
  intros Hd. revert pre q. destruct (permutation_facts _ _ Hperm) as (Hnd & Hlen & Hlt).
  destruct coalesced_entries as (Hcl & _ & Hnext).
  induction rest as [|p rest IH]; intros pre q E; rewrite perm_axes_cons, (suffix_products _ _ _ E).
  { cbn [tailrun perm_axes map]. by rewrite Z.mul_1_l, Z.mul_1_r. }
  assert (E1 : perm = (pre ++ [q]) ++ p :: rest) by (by rewrite E, <- app_assoc).
  assert (Hlt' : Forall (λ p, (p < n)%nat) (q :: p :: rest)) by (rewrite E in Hlt; by apply Forall_app in Hlt as [_ ?]).
  apply Forall_cons in Hlt' as [Hq Hlt']. apply Forall_cons in Hlt' as [Hp Hlt'].
  assert (Hdim : ∀ i, (i < n)%nat → 0 < dim dims i).
  { intros i Hi. unfold dim. destruct (lookup_lt_is_Some_2 dims i Hi) as [d Hd']. rewrite Hd'.
    by eapply (Forall_lookup_1 (λ d, 0 < d)). }
  pose proof (tailrun_pos p rest Hd Hlt') as Htp. pose proof (Hdim p Hp). pose proof (Hdim q Hq).
  specialize (IH (pre ++ [q]) p E1). specialize (Hnext pre q p rest E).
  transitivity (swalk ([(dim dims q, tailrun dims q (p :: rest) * prodZ (drop (S q) c))] ++
    (dim dims p * tailrun dims p rest, prodZ (drop (S p) c)) :: perm_axes c rest)).
  { rewrite <- (swalk_tail [_] _ _ IH). done. }
  cbn [tailrun app]. rewrite (perm_axes_cons c p rest), Hnext. destruct (Nat.eqb_spec p (S q)) as [->|Hne].
  - assert (Hc : prodZ (drop (S q) c) = prodZ (drop (S (S q)) c))
      by (rewrite (drop_dim c (S q)) by lia; rewrite Hnext; lia).
    rewrite Hc, (Z.mul_comm _ (prodZ _)), swalk_merge by nia.
    symmetry. apply (swalk_tail [_]). apply swalk_unit.
  - by rewrite Z.mul_1_l, Z.mul_1_r.
Qed.

Lemma coalesced_walk : Forall (λ d, 0 < d) dims → perm_walk dims perm = perm_walk c perm.
Proof.
  intros Hd. unfold perm_walk. destruct coalesced_entries as (_ & Hfirst & _).
  assert (Hc : perm = [] ∨ ∃ p rest, perm = p :: rest) by (destruct perm; eauto).
  destruct Hc as [E|(p & rest & E)].
  - transitivity (swalk []); [by rewrite E|]. unfold perm_axes. by rewrite E.
  - pose proof (walk_suffix [] rest p Hd E) as HW. rewrite <- (Hfirst _ _ E), <- perm_axes_cons, <- E in HW.
    exact HW.
Qed.

Lemma coalesced_product : Forall (λ d, 0 < d) dims → dims ≠ [] →
  prodZ c = prodZ dims ∧ Forall (λ d, 0 < d) c.
Proof.
  intros Hd Hne. destruct (permutation_facts _ _ Hperm) as (Hnd & Hlen & Hlt).
  destruct coalesced_entries as (Hcl & Hfirst & Hnext).
  assert (Hn : (0 < n)%nat) by (destruct dims; simpl; [done|lia]).
  assert (Hentry : ∀ q, q ∈ perm → ∃ pre rest, perm = pre ++ q :: rest ∧
    (dim c q = 1 ∧ q ≠ 0%nat ∨ dim c q = dim dims q * tailrun dims q rest)).
  { intros q Hq. apply list_elem_of_split in Hq as (pre & rest & E). exists pre, rest. split; [done|].
    destruct pre as [|a pre _] using rev_ind; [right; by apply Hfirst|].
    rewrite <- app_assoc in E. simpl in E. rewrite (Hnext _ _ _ _ E).
    destruct (Nat.eqb_spec q (S a)); [left; split; [done|lia]|by right]. }
  assert (Hdim : ∀ i, (i < n)%nat → 0 < dim dims i).
  { intros i Hi. unfold dim. destruct (lookup_lt_is_Some_2 dims i Hi) as [d Hd']. rewrite Hd'.
    by eapply (Forall_lookup_1 (λ d, 0 < d)). }
  split.
  - destruct (Hentry 0%nat) as (pre & rest & E & [[_ ?]|H0]); [rewrite Hperm; apply elem_of_seq; lia|done|].
    change (prodZ (drop 0 c) = prodZ (drop 0 dims)). rewrite (drop_dim c 0), (drop_dim dims 0) by lia.
    rewrite (suffix_products _ _ _ E), H0. lia.
  - apply Forall_lookup. intros q d Hq. assert (Hqn : (q < n)%nat) by (apply lookup_lt_Some in Hq; lia).
    destruct (Hentry q) as (pre & rest & E & HE); [rewrite Hperm; apply elem_of_seq; lia|].
    assert (dim c q = d) as <- by (unfold dim; by rewrite Hq).
    destruct HE as [[-> _]| ->]; [done|]. specialize (Hdim q Hqn).
    assert (0 < tailrun dims q rest); [|nia]. apply tailrun_pos; [done|].
    rewrite E in Hlt. apply Forall_app in Hlt as [_ Hlt]. by apply Forall_cons in Hlt as [_ ?].
Qed.
End Walk.

(** ** Dropping the axes of extent one *)

(** Smaller axes make smaller runs. *)
Lemma tailrun_mono (dims dims' : list Z) (n q : nat) (rest : list nat) :
  (∀ i, (i < n)%nat → 0 < dim dims' i ≤ dim dims i) → Forall (λ p, (p < n)%nat) rest →
  0 < tailrun dims' q rest ≤ tailrun dims q rest.
Proof.
  intros Hle. revert q. induction rest as [|p rest IH]; intros q Hlt; cbn [tailrun]; [lia|].
  apply Forall_cons in Hlt as [Hp Hlt]. destruct (Nat.eqb p (S q)); [|lia].
  pose proof (Hle p Hp). specialize (IH p Hlt). nia.
Qed.

Lemma coalesced_mono (dims dims' : list Z) (perm : list nat) : perm ≡ₚ seq 0 (length dims) → length dims' = length dims →
  (∀ i, (i < length dims)%nat → 0 < dim dims' i ≤ dim dims i) →
  ∀ i, (i < length dims)%nat → dim (coalesced_dims dims' perm) i ≤ dim (coalesced_dims dims perm) i.
Proof.
  intros Hp Hl Hle i Hi. destruct (permutation_facts _ _ Hp) as (_ & _ & Hlt).
  destruct (coalesced_entries dims perm Hp) as (_ & F & X).
  destruct (coalesced_entries dims' perm) as (_ & F' & X'); [by rewrite Hl|].
  assert (Hin : i ∈ perm) by (rewrite Hp; apply elem_of_seq; lia). apply list_elem_of_split in Hin as (pre & rest & E).
  assert (Hrest : Forall (λ p, (p < length dims)%nat) rest).
  { rewrite E in Hlt. apply Forall_app in Hlt as [_ Hlt]. by apply Forall_cons in Hlt as [_ ?]. }
  pose proof (tailrun_mono dims dims' _ i rest Hle Hrest). pose proof (Hle i Hi).
  destruct pre as [|a pre _] using rev_ind; [rewrite (F _ _ E), (F' _ _ E); nia|].
  rewrite <- app_assoc in E. cbn [app] in E. rewrite (X _ _ _ _ E), (X' _ _ _ _ E). destruct (Nat.eqb i (S a)); [lia|nia].
Qed.

(** The runs of axes that [permutation] keeps together have fewer than 2^31 elements, so
    that they are not truncated. *)
Definition runs_fit (dims : list Z) (permutation : list nat) : Prop :=
  Forall (λ d, d < 2 ^ 31) (coalesced_dims dims permutation).

Lemma runs_fit_small (dims : list Z) (perm : list nat) : dims ≠ [] → perm ≡ₚ seq 0 (length dims) →
  Forall (λ d, 0 < d) dims → prodZ dims < 2 ^ 31 → runs_fit dims perm.
Proof.
  intros Hne Hp Hd Hsz. destruct (coalesced_product dims perm Hp Hd Hne) as [Hcp Hcpos].
  apply Forall_lookup. intros i d Hi. rewrite <- (take_drop_middle _ i d Hi), prodZ_app, prodZ_cons in Hcp.
  pose proof (Forall_lookup_1 _ _ _ _ Hcpos Hi) as H0. simpl in H0.
  pose proof (prodZ_ge_1 _ (Forall_take _ i _ Hcpos)). pose proof (prodZ_ge_1 _ (Forall_drop _ (S i) _ Hcpos)). nia.
Qed.

Section Compress.
Context (c : list Z) (Hc : Forall (λ d, 0 < d < 2 ^ 31) c).

#[local] Abbreviation keep l := (filter (λ d, d ≠ 1) l).

Definition axis_number (p : nat) : option nat :=
  if bool_decide (dim c p = 1) then None else Some (length (keep (take p c))).

Lemma map_axis_fold (l : list Z) : Forall (λ d, 0 < d < 2 ^ 31) l →
  let r := foldl map_axis ([], []) l in
  r.2 = keep l ∧ length r.1 = length l ∧
  ∀ i d, l !! i = Some d →
    r.1 !! i = Some (if bool_decide (d = 1) then -1 else Z.of_nat (length (keep (take i l)))).
Proof.
  induction l as [|x l IH] using rev_ind; intros Hl; cbv zeta; [done|].
  apply Forall_app in Hl as [Hl Hx%Forall_inv]. destruct (IH Hl) as (R1 & R2 & R3). rewrite foldl_app.
  destruct (foldl map_axis ([], []) l) as [mp sm]. simpl in *. subst sm. unfold map_axis.
  rewrite i32_small by lia. rewrite filter_app, length_app. simpl.
  assert (Hlook : ∀ v i d, (l ++ [x]) !! i = Some d →
    v = (if bool_decide (x = 1) then -1 else Z.of_nat (length (keep l))) →
    (mp ++ [v]) !! i = Some (if bool_decide (d = 1) then -1 else Z.of_nat (length (keep (take i (l ++ [x])))))).
  { intros v i d Hd Hv. destruct (decide (i < length l)%nat) as [Hi|Hi].
    - rewrite lookup_app_l in Hd by done. rewrite lookup_app_l, take_app_le by lia. by apply R3.
    - apply lookup_lt_Some in Hd as Hi'. rewrite length_app in Hi'. simpl in Hi'.
      assert (i = length l) as -> by lia. rewrite lookup_app_r, Nat.sub_diag in Hd by lia. simplify_eq/=.
      rewrite lookup_app_r, R2, Nat.sub_diag, take_app_length by lia. done. }
  destruct (Z.eqb_spec x 1) as [->|Hne]; simpl.
  - rewrite filter_cons_False, filter_nil, app_nil_r by auto. rewrite length_app. simpl.
    split_and!; [done|lia|]. intros i d Hd. by apply Hlook.
  - rewrite filter_cons_True, filter_nil by done. rewrite length_app. simpl. split_and!; [done|lia|].
    intros i d Hd. apply Hlook; [done|]. by rewrite bool_decide_false.
Qed.

Lemma mapped_number (p : nat) : (p < length c)%nat →
  (let mapped := dim (foldl map_axis ([], []) c).1 p in
   if 0 <=? mapped then Some (Z.to_nat mapped) else None) = axis_number p.
Proof.
  intros Hp. destruct (map_axis_fold c Hc) as (_ & _ & R3).
  destruct (lookup_lt_is_Some_2 c p Hp) as [d Hd]. unfold axis_number, dim. rewrite (R3 p d Hd), Hd. simpl.
  destruct (bool_decide (d = 1)); [done|]. destruct (Z.leb_spec 0 (Z.of_nat (length (keep (take p c))))); [|lia].
  by rewrite Nat2Z.id.
Qed.

Lemma keep_prod (l : list Z) : prodZ (keep l) = prodZ l.
Proof.
  induction l as [|d l IH]; [done|]. rewrite filter_cons. destruct (decide (d ≠ 1)) as [|H].
  - by rewrite !prodZ_cons, IH.
  - apply dec_stable in H. subst d. rewrite prodZ_cons, IH. lia.
Qed.

Lemma keep_split (p : nat) (d : Z) : c !! p = Some d → d ≠ 1 →
  dim (keep c) (length (keep (take p c))) = d ∧
  prodZ (drop (S (length (keep (take p c)))) (keep c)) = prodZ (drop (S p) c).
Proof.
  intros Hd Hne.
  assert (E : keep c = keep (take p c) ++ d :: keep (drop (S p) c)).
  { rewrite <- (take_drop_middle c p d Hd) at 1. by rewrite filter_app, filter_cons_True. }
  split.
  - unfold dim. rewrite E at 1. by rewrite lookup_app_r, Nat.sub_diag by lia.
  - rewrite E, drop_app_ge by lia.
    replace (S (length (keep (take p c))) - length (keep (take p c)))%nat with 1%nat by lia.
    simpl. rewrite drop_0. apply keep_prod.
Qed.

Lemma compressed_walk (l : list nat) : Forall (λ p, (p < length c)%nat) l →
  swalk (perm_axes c l) = swalk (perm_axes (keep c) (omap axis_number l)).
Proof.
  induction 1 as [|p l Hp _ IH]; [done|]. rewrite perm_axes_cons. cbn [omap list_omap].
  destruct (lookup_lt_is_Some_2 c p Hp) as [d Hd]. assert (Ed : dim c p = d) by (unfold dim; by rewrite Hd).
  unfold axis_number at 1. rewrite Ed. case_bool_decide as H1.
  - rewrite H1, swalk_unit. exact IH.
  - destruct (keep_split p d Hd H1) as [E1 E2]. cbn [perm_axes map]. rewrite E1, E2.
    apply (swalk_tail [_]). exact IH.
Qed.

Lemma compressed_numbers (k : nat) : (k ≤ length c)%nat →
  omap axis_number (seq 0 k) = seq 0 (length (keep (take k c))).
Proof.
  induction k as [|k IH]; intros Hk; [done|]. rewrite seq_S, omap_app, IH by lia. simpl.
  destruct (lookup_lt_is_Some_2 c k Hk) as [d Hd]. rewrite (take_S_r _ _ _ Hd), filter_app, length_app.
  unfold axis_number, dim. rewrite Hd. simpl. case_bool_decide as H1.
  - rewrite filter_cons_False, filter_nil by (by intros []). simpl. by rewrite app_nil_r, Nat.add_0_r.
  - rewrite filter_cons_True, filter_nil by done. simpl. by rewrite Nat.add_1_r, seq_S.
Qed.
End Compress.

(** Simplifying a permutation keeps its walk. *)
Lemma SimplifyPermutation_walk (dims : list Z) (perm : list nat) :
  dims ≠ [] → perm ≡ₚ seq 0 (length dims) → Forall (λ d, 0 < d) dims → runs_fit dims perm →
  ∃ s p, SimplifyPermutation dims perm = Ret (s, p) ∧ s ≠ [] ∧ p ≡ₚ seq 0 (length s) ∧
    Forall (λ d, 0 < d) s ∧ prodZ s = prodZ dims ∧ (length s ≤ length dims)%nat ∧
    perm_walk s p = perm_walk dims perm.
Proof.
  intros Hne Hp Hd Hsz. destruct (permutation_facts _ _ Hp) as (Hnd & Hlen & Hlt).
  destruct (coalesced_entries dims perm Hp) as (Hcl & _).
  destruct (coalesced_product dims perm Hp Hd Hne) as [Hcp Hcpos].
  set (c := coalesced_dims dims perm) in *.
  assert (Hc : Forall (λ d, 0 < d < 2 ^ 31) c).
  { apply Forall_lookup. intros i d Hi. split; [exact (Forall_lookup_1 _ _ _ _ Hcpos Hi)|exact (Forall_lookup_1 _ _ _ _ Hsz Hi)]. }
  destruct (map_axis_fold c Hc) as (R1 & _ & _).
  pose proof (mapped_number c Hc) as Hmap. unfold SimplifyPermutation. fold c.
  replace (negb (Nat.eqb (length dims) 0)) with true by (by destruct dims). cbn [CHECK obind].
  destruct (foldl map_axis ([], []) c) as [mapping sm]. simpl in R1, Hmap. subst sm.
  assert (Hom : ∀ l, Forall (λ p, (p < length c)%nat) l →
    omap (λ p, if 0 <=? dim mapping p then Some (Z.to_nat (dim mapping p)) else None) l =
    omap (axis_number c) l).
  { induction 1 as [|p l Hp' _ IH]; [done|]. unfold omap in *. cbn [list_omap].
    rewrite Hmap by done. by rewrite IH. }
  assert (Hpp : omap (axis_number c) perm ≡ₚ seq 0 (length (filter (λ d, d ≠ 1) c))).
  { rewrite Hp, <- Hcl, compressed_numbers by done. by rewrite take_ge. }
  assert (Hwalk : perm_walk (filter (λ d, d ≠ 1) c) (omap (axis_number c) perm) = perm_walk dims perm).
  { rewrite (coalesced_walk dims perm Hp Hd). unfold perm_walk. symmetry. apply compressed_walk. by rewrite Hcl. }
  rewrite Hom by (by rewrite Hcl). destruct (filter (λ d, d ≠ 1) c) as [|x s] eqn:Es.
  - eexists _, _. split; [done|]. simpl in Hpp. apply Permutation_nil_r in Hpp.
    rewrite Hpp in Hwalk. rewrite <- Hwalk. pose proof (keep_prod c) as Hk. rewrite Es, prodZ_nil in Hk.
    split_and!; [done|done|by apply Forall_singleton|rewrite prodZ_singleton; lia| |done].
    destruct dims; simpl; [done|lia].
  - eexists _, _. split; [done|]. rewrite <- Es in *. split_and!; [by rewrite Es|done| | | |done].
    + apply Forall_forall. intros d [_ Hd']%list_elem_of_filter. by apply (proj1 (Forall_forall _ _) Hcpos).
    + by rewrite keep_prod.
    + rewrite <- Hcl. apply length_filter.
Qed.

(** ** The width of a move *)

Lemma permute_movement_loop_spec (fuel : nat) (size elem last src dst : Z) :
  let m := permute_movement_loop fuel size elem last src dst in
  m = elem ∨ (elem < m ∧ last mod m = 0 ∧ ∃ j : nat, m = size / 2 ^ Z.of_nat j).
Proof.
  revert size. induction fuel as [|fuel IH]; intros size; simpl; [by left|].
  destruct (Z.ltb_spec elem size); [|by left].
  destruct ((last mod size =? 0) && (src mod size =? 0) && (dst mod size =? 0)) eqn:E.
  - right. apply andb_true_iff in E as [[E%Z.eqb_eq _]%andb_true_iff _]. split_and!; [done|done|].
    exists 0%nat. by rewrite Z.div_1_r.
  - destruct (IH (size / 2)) as [?|(? & ? & j & Hj)]; [by left|right].
    split_and!; [done|done|]. exists (S j). rewrite Hj, Z.div_div by lia.
    by rewrite Nat2Z.inj_succ, Z.pow_succ_r by lia.
Qed.

Lemma expand_1 (l : list Z) : expand 1 l = l.
Proof.
  unfold expand. change (range_list 0 1) with [0]. induction l as [|o l IH]; [done|].
  rewrite bind_cons, IH. cbn. f_equal. lia.
Qed.

Lemma shrink_last_1 (dims : list Z) : shrink_last 1 dims = dims.
Proof.
  unfold shrink_last. apply list_alter_id. intros d. apply Z.quot_1_r.
Qed.

(** A chosen width divides the moved row, so that the walk can be taken in units
    of it. *)
Lemma PermuteMovementSize_walk (elem : Z) (dims : list Z) (perm : list nat) (src dst : Z) :
  elem ∈ unit_sizes → dims ≠ [] → perm ≡ₚ seq 0 (length dims) → Forall (λ d, 0 < d) dims →
  ∃ m, PermuteMovementSize elem dims perm src dst = Ret m ∧ m ∈ unit_sizes ∧ 0 < m / elem ∧
    m = m / elem * elem ∧
    perm_walk dims perm = expand (m / elem) (perm_walk (shrink_last (m / elem) dims) perm) ∧
    Forall (λ d, 0 < d) (shrink_last (m / elem) dims) ∧ prodZ (shrink_last (m / elem) dims) * (m / elem) = prodZ dims.
Proof.
  intros He Hne Hp Hd. pose proof (unit_sizes_pos elem He) as Hpos. unfold PermuteMovementSize.
  assert (Hchk : (0 <? elem) = true ∧ (Z.land elem (elem - 1) =? 0) = true ∧ (16 mod elem =? 0) = true).
  { unfold unit_sizes in He. rewrite !elem_of_cons, elem_of_nil in He.
    destruct He as [->|[->|[->|[->|[->|[]]]]]]; done. }
  destruct Hchk as (-> & -> & ->). cbn [CHECK obind].
  assert (Hsame : ∃ m, Ret elem = Ret m ∧ m ∈ unit_sizes ∧ 0 < m / elem ∧ m = m / elem * elem ∧
    perm_walk dims perm = expand (m / elem) (perm_walk (shrink_last (m / elem) dims) perm) ∧
    Forall (λ d, 0 < d) (shrink_last (m / elem) dims) ∧ prodZ (shrink_last (m / elem) dims) * (m / elem) = prodZ dims).
  { exists elem. rewrite Z.div_same, expand_1, shrink_last_1 by lia. split_and!; try done; lia. }
  case_bool_decide as Hlast; [|exact Hsame].
  set (last := default 0 _ * elem).
  destruct (permute_movement_loop_spec 5 16 elem last src dst) as [->|(Hgt & Hmod & j & Hj)]; [exact Hsame|].
  set (m := permute_movement_loop _ _ _ _ _ _) in *.
  assert (Hm : m ∈ unit_sizes) by (rewrite Hj; apply sixteen_halved; rewrite <- Hj; lia).
  destruct (unit_sizes_divide elem m He Hm Hgt) as [k Hk]. exists m. split; [done|].
  assert (Hdiv : m / elem = k) by (rewrite Hk; apply Z.div_mul; lia). rewrite Hdiv.
  assert (0 < k) by nia. split; [done|]. split; [done|]. split; [done|].
  apply perm_walk_shrink; try done.
  apply Z.mod_divide in Hmod; [|lia]. destruct Hmod as [q Hq]. exists q. unfold last in Hq. unfold dim. nia.
Qed.

(** ** The primitive *)

Lemma length_perm_walk (dims : list Z) (perm : list nat) : perm ≡ₚ seq 0 (length dims) →
  Forall (λ d, 0 < d) dims → length (perm_walk dims perm) = length (range_list 0 (prodZ dims)).
Proof.
  intros Hp Hd. unfold perm_walk. rewrite swalk_indices, length_fmap, fst_perm_axes.
  rewrite <- (perm_dims_prod dims perm Hp).
  rewrite <- all_indices_offsets by (eapply Forall_impl; [by apply perm_dims_pos|simpl; lia]).
  by rewrite length_fmap.
Qed.

Lemma PermuteDispatch_moves {B : Type} (k : Z) (dims : list Z) (perm : list nat) (src dst : list B) :
  dims ≠ [] → perm ≡ₚ seq 0 (length dims) → Forall (λ d, 0 < d) dims → prodZ dims < 2 ^ 63 → 0 ≤ k →
  PermuteDispatchIndexType k dims perm src dst =
  ofold (copy_byte src) (zip (range_list 0 (prodZ dims * k)) (expand k (perm_walk dims perm))) dst.
Proof.
  intros Hne Hp Hd Hsz Hk. unfold PermuteDispatchIndexType.
  pose proof (GetElementCount_prod dims Hd ltac:(lia)) as Hcnt. unfold GetElementCount in Hcnt. rewrite Hcnt.
  pose proof (prodZ_ge_1 dims Hd).
  assert (Hunits : ofold (copy_unit k src) (perm_moves dims perm) dst =
    ofold (copy_byte src) (zip (range_list 0 (prodZ dims * k)) (expand k (perm_walk dims perm))) dst).
  { unfold perm_moves. rewrite units_as_elements by (symmetry; by apply length_perm_walk).
    by rewrite expand_range by lia. }
  rewrite <- Hunits. destruct (Z.ltb_spec (prodZ dims) (2 ^ 31 - 1)); apply PermuteKernel_moves; done || lia.
Qed.

Lemma length_shrink_last (k : Z) (dims : list Z) : length (shrink_last k dims) = length dims.
Proof. unfold shrink_last. apply length_alter. Qed.

Lemma runs_fit_shrink (k : Z) (dims : list Z) (perm : list nat) : perm ≡ₚ seq 0 (length dims) → 0 < k →
  Forall (λ d, 0 < d) (shrink_last k dims) → runs_fit dims perm → runs_fit (shrink_last k dims) perm.
Proof.
  intros Hp Hk Hpos Hrf. apply Forall_lookup. intros i d Hi.
  destruct (coalesced_entries (shrink_last k dims) perm) as (Hcl & _); [by rewrite length_shrink_last|].
  destruct (coalesced_entries dims perm Hp) as (Hcl0 & _). rewrite length_shrink_last in Hcl.
  assert (Hil : (i < length dims)%nat) by (apply lookup_lt_Some in Hi; lia).
  assert (Hm : dim (coalesced_dims (shrink_last k dims) perm) i ≤ dim (coalesced_dims dims perm) i).
  { apply coalesced_mono; [done|apply length_shrink_last| |done]. intros j Hj.
    destruct (lookup_lt_is_Some_2 (shrink_last k dims) j) as [x Hx]; [by rewrite length_shrink_last|].
    pose proof (Forall_lookup_1 _ _ _ _ Hpos Hx) as Hx0. simpl in Hx0. unfold dim. rewrite Hx. cbn [default].
    unfold shrink_last in Hx. destruct (decide (j = (length dims - 1)%nat)) as [->|Hne].
    - rewrite list_lookup_alter_eq in Hx. apply fmap_Some in Hx as (y & Hy & ->). rewrite Hy. cbn.
      split; [done|]. pose proof (Z.quot_rem y k ltac:(lia)) as HQ. pose proof (Z.rem_bound_pos y k) as HR.
      destruct (Z.le_gt_cases 0 y); [nia|]. pose proof (Z.quot_opp_l y k ltac:(lia)). pose proof (Z.quot_pos (- y) k ltac:(lia) Hk). lia.
    - rewrite list_lookup_alter_ne in Hx by done. rewrite Hx. cbn. lia. }
  unfold dim in Hm. rewrite Hi in Hm. destruct (lookup_lt_is_Some_2 (coalesced_dims dims perm) i) as [y Hy]; [lia|].
  rewrite Hy in Hm. cbn in Hm. pose proof (Forall_lookup_1 _ _ _ _ Hrf Hy). simpl in *. lia.
Qed.

Lemma PermuteLaunch_moves {B : Type} (elem : Z) (dims : list Z) (perm : list nat) (sp dp : Z) (src dst : list B) :
  (1 ≤ length dims ≤ 8)%nat → elem ∈ unit_sizes → perm ≡ₚ seq 0 (length dims) →
  Forall (λ d, 0 < d) dims → prodZ dims < 2 ^ 63 → runs_fit dims perm →
  PermuteLaunch elem dims perm sp dp src dst = ofold (copy_byte src) (perm_moves dims perm) dst.
Proof.
  intros Hn He Hp Hd Hsz Hrf. assert (Hne : dims ≠ []) by (by intros ->; simpl in Hn; lia).
  unfold PermuteLaunch, kMaxNumDims. rewrite (proj2 (Nat.leb_le _ _)) by lia.
  rewrite (proj2 (Nat.ltb_lt _ _)) by lia. cbn [CHECK obind].
  unfold SimplifyPermutationMovement.
  destruct (PermuteMovementSize_walk elem dims perm sp dp) as (m & -> & Hm & Hk & Hmk & Hw & Hpos & Hprod); [done..|].
  cbn [obind]. set (k := m / elem) in *. pose proof (prodZ_ge_1 _ Hpos).
  destruct (SimplifyPermutation_walk (shrink_last k dims) perm)
    as (s & p & -> & Hsne & Hpp & Hsp & Hsprod & Hsl & Hsw).
  { unfold shrink_last. intros E. apply (f_equal length) in E. rewrite length_alter in E. simpl in E. lia. }
  { by rewrite length_shrink_last. } { done. } { by apply runs_fit_shrink. }
  rewrite length_shrink_last in Hsl. cbn [obind fst snd].
  destruct (PermuteMovementSize_walk m s p sp dp) as (m2 & -> & Hm2 & Hk2 & Hmk2 & Hw2 & Hpos2 & Hprod2); [done..|].
  cbn [obind]. set (k2 := m2 / m) in *. pose proof (prodZ_ge_1 _ Hpos2).
  pose proof (unit_sizes_pos elem He). pose proof (unit_sizes_pos m Hm).
  assert (Hs1 : (1 ≤ length s)%nat) by (destruct s; simpl; [done|lia]).
  unfold PermuteLaunchWithSimplified, PermuteDispatchMovementSize. rewrite length_shrink_last.
  rewrite (proj2 (Nat.leb_le 1 (length s))), (proj2 (Nat.leb_le (length s) 8)) by lia. cbn [andb CHECK obind].
  rewrite bool_decide_true by exact Hm2. cbn [CHECK obind].
  assert (Hkk : m2 / elem = k2 * k) by (rewrite Hmk2, Hmk, Z.mul_assoc; apply Z.div_mul; lia).
  rewrite Hkk, PermuteDispatch_moves; [|by intros E; apply (f_equal length) in E; rewrite length_shrink_last in E; simpl in E; lia
    |by rewrite length_shrink_last|done|nia|nia].
  rewrite <- expand_expand by lia. rewrite <- Hw2, Hsw, <- Hw.
  replace (prodZ (shrink_last k2 s) * (k2 * k)) with (prodZ dims) by nia. done.
Qed.

(** C19 The permute primitive transposes, with 32-bit and with 64-bit indices: for a
    permutation of at most eight axes of positive extent, fewer than 2^63 elements of 1, 2,
    4, 8 or 16 bytes, provided every run of axes that the permutation keeps together has
    fewer than 2^31 elements, and whatever the addresses of the buffers are, the launch
    returns, the element at index [idx] of the destination is the element of the source
    whose coordinate on axis [permutation[d]] is [idx[d]], and nothing beyond the tensor is
    written. *)
Theorem permute_correct {B : Type} (elem : Z) (dims : list Z) (perm : list nat) (sp dp : Z) (src dst : list B) :
  (1 ≤ length dims ≤ 8)%nat → elem ∈ unit_sizes → perm ≡ₚ seq 0 (length dims) →
  Forall (λ d, 0 < d) dims → prodZ dims < 2 ^ 63 → runs_fit dims perm →
  prodZ dims ≤ Z.of_nat (length src) → prodZ dims ≤ Z.of_nat (length dst) →
  ∃ dst', PermuteLaunch elem dims perm sp dp src dst = Ret dst' ∧ length dst' = length dst ∧
    (∀ idx, index_in idx (map (dim dims) perm) →
       dst' !! Z.to_nat (offset_of idx (map (dim dims) perm)) =
       src !! Z.to_nat (offset_of (scatter perm idx) dims)) ∧
    (∀ k, (Z.to_nat (prodZ dims) ≤ k)%nat → dst' !! k = dst !! k).
Proof.
  intros Hn He Hp Hd Hsz Hrf Hs Hdst. rewrite PermuteLaunch_moves by done.
  assert (Hfst : (perm_moves dims perm).*1 = range_list 0 (prodZ dims)).
  { unfold perm_moves. apply fst_zip. by rewrite length_perm_walk. }
  assert (Hnd : NoDup (range_list 0 (prodZ dims))).
  { unfold range_list. apply NoDup_fmap_2_strong; [|apply NoDup_seq]. intros. lia. }
  destruct (copies_correct src (perm_moves dims perm) dst) as (d' & E & Hl & Hin & Hout).
  - rewrite perm_moves_indices by done. apply Forall_fmap, Forall_forall. intros idx Hidx%all_indices_in.
    unfold compose; cbn [fst snd]. pose proof (offset_of_range _ _ Hidx) as H1. rewrite perm_dims_prod in H1 by done.
    pose proof (strided_offset_bound dims perm idx Hp Hd Hidx). lia.
  - by rewrite Hfst.
  - exists d'. split_and!; [done..| |].
    + intros idx Hidx. destruct (permutation_facts _ _ Hp) as (_ & Hlen & _).
      assert (Hil : length idx = length dims) by (apply Forall2_length in Hidx; rewrite length_map in Hidx; lia).
      destruct (scatter_offset dims perm idx Hp Hil) as [_ ->].
      apply (Hin (offset_of idx (map (dim dims) perm), strided_offset (perm_axes dims perm) idx)).
      rewrite perm_moves_indices by done. apply list_elem_of_fmap. exists idx. split; [done|].
      by apply all_indices_complete.
    + intros k Hk. specialize (Hout (Z.of_nat k) ltac:(lia)). rewrite Nat2Z.id in Hout. apply Hout.
      rewrite Hfst. intros Hr%range_list_elem. lia.
Qed.

Lemma permute_correct_witness :
  ∃ d, PermuteLaunch 4 [2; 1; 3; 4] [2%nat; 0%nat; 1%nat; 3%nat] 16 32 (range_list 0 24) (replicate 24 0) = Ret d ∧
    d !! 7%nat = Some 15.
Proof.
  destruct (permute_correct 4 [2; 1; 3; 4] [2%nat; 0%nat; 1%nat; 3%nat] 16 32 (range_list 0 24) (replicate 24 0))
    as (d & E & _ & H & _).
  - simpl. lia.
  - unfold unit_sizes. rewrite !elem_of_cons. auto.
  - exact (Permutation_middle [0%nat; 1%nat] [3%nat] 2%nat).
  - repeat constructor; lia.
  - vm_compute. reflexivity.
  - apply (bool_decide_unpack _). vm_compute. exact I.
  - vm_compute. discriminate.
  - vm_compute. discriminate.
  - exists d. split; [exact E|]. specialize (H [0; 1; 0; 3]). vm_compute in H. apply H.
    repeat constructor; done.
Defined.
