(* ===== verification/BroadcastUnary.v ===== *)
(** * Broadcasting strided element-wise unary operations (CPU)

    Models the strided [SimplifyBroadcastDims] and [InferPermutable] of
    [oneflow/core/ep/common/primitive/util.h] and the CPU primitive
    [oneflow/core/ep/cpu/primitive/broadcast_elementwise_unary.cpp].  Axes are sorted
    by the stride of the destination, merged, and one of four kernels runs: a scalar
    fill, a one-dimensional strided loop, the permute primitive, or a general loop.
    [std::sort] may order equal strides as it likes, so the sorted orders are
    arguments of the model.  Values of both element types are one type [A]; the
    functor and whether it is the identity on one type are arguments.

    The merging loop compares strides with those of the preceding axis of the
    sorted list, also when that axis was skipped because its extent is one, and the
    permutation handed to the permute primitive is the inverse of the one it needs:
    two theorems exhibit the consequences; [BroadcastUnarySpec] shows that the
    primitive is correct otherwise. *)
From Stdlib Require Import Sorted.
From S2P Require Import Prelude Shape NdIndex CopyNd FastMath Broadcast BroadcastKernels Permute PermuteSpec.

(** ** Simplification *)

(** [new_{src,dst}_{dims,strides}[i]]. *)
Record saxis := mkSaxis { src_d : Z; src_s : Z; dst_d : Z; dst_s : Z }.

#[export] Instance saxis_eq_dec : EqDecision saxis.
Proof. solve_decision. Defined.

(** Dimension completion and permutation: the axes in the order [order] of the
    sorted destination strides. *)
Definition expanded_axis (src_dims src_strides dst_dims dst_strides : list Z) (idx : nat) : outcome saxis :=
  let num_src_padding_dims := Z.of_nat (length dst_dims) - Z.of_nat (length src_dims) in
  let i := Z.of_nat idx in
  let* dd := at_ dst_dims i in
  let* ds := at_ dst_strides i in
  if i <? num_src_padding_dims then Ret (mkSaxis 1 0 dd ds)
  else
    let* sd := at_ src_dims (i - num_src_padding_dims) in
    let* ss := at_ src_strides (i - num_src_padding_dims) in
    Ret (mkSaxis sd ss dd ds).

(** The merging loop.  State: the simplified axes, last first; the flag
    [prev_broadcast_src]; the axis at [i - 1]. *)
Definition merge_state : Type := list saxis * bool * option saxis.

Definition merge_saxis (p x : saxis) : saxis :=
  mkSaxis (src_d p * src_d x) (src_s x) (dst_d p * dst_d x) (dst_s x).

Definition merge_step (st : merge_state) (x : saxis) : merge_state :=
  let '(acc, prev_broadcast_src, before) := st in
  let broadcast_src := src_d x =? 1 in
  if dst_d x =? 1 then (acc, prev_broadcast_src, Some x)
  else match acc, before with
       | p :: acc', Some y =>
           if eqb prev_broadcast_src broadcast_src && (src_s y =? src_s x * src_d x)
              && (dst_s y =? dst_s x * dst_d x)
           then (merge_saxis p x :: acc', prev_broadcast_src, Some x)
           else (x :: acc, broadcast_src, Some x)
       | _, _ => (x :: acc, broadcast_src, Some x)
       end.

Definition merge_axes (axes : list saxis) : list saxis :=
  match (foldl merge_step ([], false, None) axes).1.1 with
  | [] => [mkSaxis 1 1 1 1]
  | acc => rev acc
  end.

Definition SimplifyBroadcastDimsStrided (src_dims src_strides dst_dims dst_strides : list Z)
    (order : list nat) : outcome (list saxis) :=
  let* axes := omap_list (expanded_axis src_dims src_strides dst_dims dst_strides) order in
  Ret (merge_axes axes).

(** What [std::sort] by descending strides may return: [order] lists the axes. *)
Definition sorted_order (strides : list Z) (order : list nat) : Prop :=
  order ≡ₚ seq 0 (length strides) ∧ StronglySorted (λ a b, dim strides b ≤ dim strides a) order.

(** Each entry is the next one's stride times extent, the last is one. *)
Fixpoint dense (strides dims : list Z) : bool :=
  match strides, dims with
  | [], [] => true
  | [s], [_] => s =? 1
  | s :: ((s' :: _) as strides), _ :: ((d' :: _) as dims) => (s =? s' * d') && dense strides dims
  | _, _ => false
  end.

(** [InferPermutable]; [src_order] is the sorted order of the source strides.  The
    result is [permutation_list] and [permutation_src_dims]. *)
Definition InferPermutable (identity : bool) (axes : list saxis) (src_order : list nat)
    : option (list nat * list Z) :=
  let dims := map src_d axes in
  if negb identity then None
  else if negb (bool_decide (map src_d axes = map dst_d axes)) then None
  else if negb (dense (map (dim (map src_s axes)) src_order) (map (dim dims) src_order)) then None
  else if negb (dense (map dst_s axes) (map dst_d axes)) then None
  else Some (src_order, map (dim dims) src_order).

(** ** Kernels *)

Section Kernels.
Context {A : Type} (functor : A → A).

Definition IsContiguous (dims strides : list Z) : bool := dense strides dims.

Definition LaunchScalarFill (dst src : list A) (count stride : Z) : outcome (list A) :=
  let* v := at_ src 0 in
  ofold (λ dst i, write_at dst (i * stride) (functor v)) (range_list 0 count) dst.

Definition LaunchTensorFill (dst src : list A) (count dst_stride src_stride : Z) : outcome (list A) :=
  ofold (λ dst i, let* x := at_ src (i * src_stride) in write_at dst (i * dst_stride) (functor x))
        (range_list 0 count) dst.

(** [IndexToOffsetWithStrideCalculator::NdIndexToOffset(index, n)]. *)
Definition stride_offset (strides index : list Z) : Z :=
  foldl Z.add 0 (zip_with Z.mul index strides).

Definition LaunchGeneralUnary (dst src : list A) (axes : list saxis) : outcome (list A) :=
  let dst_dims := map dst_d axes in
  let n := length axes in
  let contiguous_output := IsContiguous dst_dims (map dst_s axes) in
  let elem_cnt := i64 (GetElementCount dst_dims) in
  let* helper := InitFastIntegerMath Host Int64 8 dst_dims n in
  ofold (λ dst offset,
           let dst_index := CalcOffsetToNdIndex Host helper offset n in
           let src_offset := stride_offset (map src_s axes) (src_index (map src_d axes) dst_index) in
           let dst_offset := if contiguous_output then offset
                             else stride_offset (map dst_s axes) dst_index in
           let* x := at_ src src_offset in
           write_at dst dst_offset (functor x))
        (range_list 0 elem_cnt) dst.

(** [Launch] with strides. *)
Definition LaunchStrided (identity same_type : bool) (elem_size : Z)
    (src_dims src_strides : list Z) (src_ptr : Z) (src : list A)
    (dst_dims dst_strides : list Z) (dst_ptr : Z) (dst : list A)
    (order src_order : list nat) : outcome (list A) :=
  let* _ := CHECK (Nat.ltb 0 (length src_dims)) in
  let* _ := CHECK (Nat.ltb 0 (length dst_dims)) in
  let* axes := SimplifyBroadcastDimsStrided src_dims src_strides dst_dims dst_strides order in
  let permutable := InferPermutable identity axes src_order in
  let permute := PermuteFactory_New (length axes) in
  let* _ := CheckInplace src_ptr dst_ptr (map src_d axes) (map dst_d axes) in
  let* _ := CheckInplace src_ptr dst_ptr (map src_s axes) (map dst_s axes) in
  match axes with
  | [x] => if src_d x =? 1 then LaunchScalarFill dst src (dst_d x) (dst_s x)
           else LaunchTensorFill dst src (src_d x) (dst_s x) (src_s x)
  | _ =>
      match permutable with
      | Some (permutation_list, permutation_src_dims) =>
          if same_type && permute
          then PermuteLaunch elem_size permutation_src_dims permutation_list src_ptr dst_ptr src dst
          else LaunchGeneralUnary dst src axes
      | None => LaunchGeneralUnary dst src axes
      end
  end.

(** [Launch] without strides: both tensors are contiguous. *)
Definition LaunchContiguous (identity same_type : bool) (elem_size : Z)
    (src_dims : list Z) (src_ptr : Z) (src : list A) (dst_dims : list Z) (dst_ptr : Z) (dst : list A)
    (order src_order : list nat) : outcome (list A) :=
  let* _ := CHECK (Nat.ltb 0 (length src_dims)) in
  let* _ := CHECK (Nat.ltb 0 (length dst_dims)) in
  let src_strides := take (length src_dims) (InitStrides 8 src_dims (length src_dims)) in
  let dst_strides := take (length dst_dims) (InitStrides 8 dst_dims (length dst_dims)) in
  LaunchStrided identity same_type elem_size src_dims src_strides src_ptr src
    dst_dims dst_strides dst_ptr dst order src_order.
End Kernels.

(** ** The two defects *)

(** Merging across a skipped axis: casting a [2, 1, 3] view with strides
    [12, 3, 1] (the middle row of each matrix of a [2, 4, 3] tensor, say) into a
    contiguous tensor reads the six elements at offsets 0 to 5, although the
    second matrix starts at offset 12: the strides of the last axis are compared
    with those of the axis of extent one, which was skipped. *)
Theorem strided_merge_across_unit_axis :
  sorted_order [3; 3; 1] [0%nat; 1%nat; 2%nat] ∧
  SimplifyBroadcastDimsStrided [2; 1; 3] [12; 3; 1] [2; 1; 3] [3; 3; 1] [0%nat; 1%nat; 2%nat] =
    Ret [mkSaxis 6 1 6 1] ∧
  LaunchStrided id false false 4 [2; 1; 3] [12; 3; 1] 0 (range_list 0 24) [2; 1; 3] [3; 3; 1] 1 (replicate 6 (-1))
    [0%nat; 1%nat; 2%nat] [0%nat] = Ret [0; 1; 2; 3; 4; 5].
Proof.
  split_and!; [|reflexivity|reflexivity]. split; [done|].
  repeat constructor; unfold dim; simpl; lia.
Qed.

(** The permutation is inverted: copying a [2, 3, 4, 5] view of a contiguous
    [3, 5, 2, 4] tensor (its axes permuted by [2, 0, 3, 1]) with the identity goes
    through the permute primitive with the permutation that sorts the source
    strides instead of its inverse, and puts source element 4 where element 8
    belongs. *)
Theorem strided_copy_inverts_permutation :
  sorted_order [60; 20; 5; 1] [0%nat; 1%nat; 2%nat; 3%nat] ∧
  sorted_order [4; 40; 1; 8] [1%nat; 3%nat; 0%nat; 2%nat] ∧
  ∃ d, LaunchStrided id true true 4 [2; 3; 4; 5] [4; 40; 1; 8] 0 (range_list 0 120)
         [2; 3; 4; 5] [60; 20; 5; 1] 1 (replicate 120 (-1))
         [0%nat; 1%nat; 2%nat; 3%nat] [1%nat; 3%nat; 0%nat; 2%nat] = Ret d ∧
    d !! 1%nat = Some 4 ∧
    stride_offset [60; 20; 5; 1] [0; 0; 0; 1] = 1 ∧ stride_offset [4; 40; 1; 8] [0; 0; 0; 1] = 8.
Proof.
  split_and!.
  - split; [done|]. repeat constructor; unfold dim; simpl; lia.
  - split.
    + simpl. change ([1%nat; 3%nat] ++ 0%nat :: [2%nat] ≡ₚ [0%nat; 1%nat; 2%nat; 3%nat]).
      rewrite <- (Permutation_middle [1%nat; 3%nat]). simpl. do 2 constructor. apply Permutation_swap.
    + repeat constructor; unfold dim; simpl; lia.
  - eexists. split; [vm_compute; reflexivity|]. done.
Qed.
