(* ===== verification/BroadcastUnarySpec.v ===== *)
(** * Correctness of the strided unary primitive

    The primitive assigns to every element of the destination view the functor of the
    source element at the same index, zero on the broadcast axes, and touches nothing else,
    whichever kernel it chooses.  Four side conditions keep away the defects shown in
    [BroadcastUnary], [FastMath] and [Permute]: [units_ok] (no two axes are merged because of
    the strides of a skipped axis of extent one), [involutive] (the permutation handed to
    the permute primitive is its own inverse), [runs_fit] (each run of axes it keeps together
    has fewer than 2^31 elements) and [divisors_ok] (no stride that the general kernel
    divides by is a power of two of 2^32 or more). *)
From Stdlib Require Import Sorted.
From S2P Require Import Prelude Shape NdIndex CopyNd FastMath Broadcast BroadcastKernels.
From S2P Require Import Permute PermuteSpec BroadcastUnary.

(** ** Walks over pairs of strides *)

(** The stride the source is read with. *)
Definition eff (x : saxis) : Z := if src_d x =? 1 then 0 else src_s x.

(** (destination, source) offsets in row-major order of the axes. *)
Fixpoint pwalk (axes : list saxis) : list (Z * Z) :=
  match axes with
  | [] => [(0, 0)]
  | x :: axes => i ← range_list 0 (dst_d x); (λ p, (i * dst_s x + p.1, i * eff x + p.2)) <$> pwalk axes
  end.

Definition good_saxis (x : saxis) : Prop := 0 < dst_d x ∧ (src_d x = dst_d x ∨ src_d x = 1).

Lemma pwalk_tail (pre xs ys : list saxis) : pwalk xs = pwalk ys → pwalk (pre ++ xs) = pwalk (pre ++ ys).
Proof. intros H. induction pre as [|x pre IH]; [done|]. cbn [app pwalk]. by rewrite IH. Qed.

Lemma pwalk_unit (x : saxis) (post : list saxis) : dst_d x = 1 → pwalk (x :: post) = pwalk post.
Proof.
  intros Hx. cbn [pwalk]. rewrite Hx. change (range_list 0 1) with [0]. rewrite bind_singleton.
  rewrite <- (list_fmap_id (pwalk post)) at 2. apply list_fmap_ext. intros _ [a b] _. simpl. f_equal; lia.
Qed.

Lemma pwalk_merge (p x : saxis) (post : list saxis) : good_saxis p → good_saxis x →
  dst_d p ≠ 1 → dst_d x ≠ 1 → (src_d p =? 1) = (src_d x =? 1) →
  src_d x = 1 ∨ src_s p = src_s x * src_d x → dst_s p = dst_s x * dst_d x →
  pwalk (p :: x :: post) = pwalk (merge_saxis p x :: post).
Proof.
  intros [Hp Gp] [Hx Gx] Np Nx Hf Hs Hd. cbn [pwalk]. cbn [merge_saxis dst_d dst_s].
  rewrite range_list_mul, bind_bind_assoc by lia. apply bind_ext_all. intros i.
  rewrite fmap_bind_assoc, bind_fmap_assoc. apply bind_ext_all. intros j.
  rewrite <- list_fmap_compose. apply list_fmap_ext. intros _ [a b] _. unfold compose. cbn [fst snd].
  assert (He : i * eff p + j * eff x = (i * dst_d x + j) * eff (merge_saxis p x)).
  { unfold eff. cbn [merge_saxis src_d src_s]. rewrite Hf. destruct (Z.eqb_spec (src_d x) 1) as [E|E].
    - apply Z.eqb_eq in Hf. rewrite Hf, E. simpl. lia.
    - apply Z.eqb_neq in Hf. destruct Gp as [Gp|?]; [|done]. destruct Gx as [Gx|?]; [|done].
      destruct (Z.eqb_spec (src_d p * src_d x) 1); [nia|]. destruct Hs as [|Hs]; [done|]. rewrite Hs, Gx. lia. }
  f_equal; [rewrite Hd; lia|]. rewrite <- He. lia.
Qed.

(** Axes can be walked in any order. *)
Lemma bind_perm_ext {X Y : Type} (f g : X → list Y) (l : list X) :
  (∀ x, f x ≡ₚ g x) → (l ≫= f) ≡ₚ (l ≫= g).
Proof. intros H. induction l as [|x l IH]; [done|]. rewrite !bind_cons. by rewrite H, IH. Qed.

Lemma bind_swap {X Y W : Type} (f : X → Y → list W) (l : list X) (k : list Y) :
  (x ← l; y ← k; f x y) ≡ₚ (y ← k; x ← l; f x y).
Proof.
  induction l as [|x l IH].
  - induction k as [|y k IHk]; [done|]. rewrite bind_cons. exact IHk.
  - rewrite bind_cons, IH. clear IH. induction k as [|y k IHk]; [done|].
    rewrite !bind_cons. rewrite <- IHk. rewrite !app_assoc. apply Permutation_app_tail.
    rewrite <- !app_assoc. apply Permutation_app_head. apply Permutation_app_comm.
Qed.

Lemma pwalk_perm (xs ys : list saxis) : xs ≡ₚ ys → pwalk xs ≡ₚ pwalk ys.
Proof.
  induction 1 as [|x xs ys _ IH|x y xs|xs ys zs _ IH1 _ IH2]; [done| | |by rewrite IH1].
  - cbn [pwalk]. apply bind_perm_ext. intros i. by rewrite IH.
  - cbn [pwalk].
    assert (R : ∀ u v : saxis, pwalk (u :: v :: xs) =
      (i ← range_list 0 (dst_d u); j ← range_list 0 (dst_d v);
       (λ p, (i * dst_s u + (j * dst_s v + p.1), i * eff u + (j * eff v + p.2))) <$> pwalk xs)).
    { intros u v. cbn [pwalk]. apply bind_ext_all. intros i. rewrite fmap_bind_assoc. apply bind_ext_all. intros j.
      by rewrite <- list_fmap_compose. }
    change (pwalk (y :: x :: xs) ≡ₚ pwalk (x :: y :: xs)). rewrite !R, bind_swap.
    apply bind_perm_ext. intros j. apply bind_perm_ext. intros i. apply reflexive_eq.
    apply list_fmap_ext. intros _ p _. f_equal; lia.
Qed.

(** ** The merging loop *)

(** The loop joins [x] to the axis before it when the strides of [before] fit. *)
Definition joins (before x : saxis) : Prop := src_s before = src_s x * src_d x ∧ dst_s before = dst_s x * dst_d x.
(** [x] walks on where the axis [p] stops. *)
Definition walks_on (p x : saxis) : Prop := dst_s p = dst_s x * dst_d x ∧ (src_d x = 1 ∨ src_s p = src_s x * src_d x).

(** Skipped axes of extent one do no harm: an axis that is joined because of the strides of
    the (possibly skipped) axis [before] it walks on from the last axis [p] that was kept. *)
Fixpoint harmless (p before : saxis) (axes : list saxis) : Prop :=
  match axes with
  | [] => True
  | x :: axes =>
      if dst_d x =? 1 then harmless p x axes
      else ((src_d p =? 1) = (src_d x =? 1) → joins before x → walks_on p x) ∧ harmless x x axes
  end.
Fixpoint units_ok (axes : list saxis) : Prop :=
  match axes with
  | [] => True
  | x :: axes => if dst_d x =? 1 then units_ok axes else harmless x x axes
  end.

#[global] Instance harmless_dec (axes : list saxis) : ∀ p before, Decision (harmless p before axes).
Proof.
  induction axes as [|x axes IH]; intros p before; cbn [harmless]; [apply _|].
  destruct (dst_d x =? 1); [apply IH|]. unfold joins, walks_on. apply _.
Defined.
#[global] Instance units_ok_dec (axes : list saxis) : Decision (units_ok axes).
Proof. induction axes as [|x axes IH]; cbn [units_ok]; [apply _|]. destruct (dst_d x =? 1); apply _. Defined.

(** Without axes of extent one there is nothing to ask. *)
Lemma units_ok_no_units (axes : list saxis) : Forall (λ x, dst_d x ≠ 1) axes → units_ok axes.
Proof.
  assert (H : ∀ axes p, Forall (λ x, dst_d x ≠ 1) axes → harmless p p axes).
  { clear axes. induction axes as [|x axes IH]; intros p Hf; [done|]. apply Forall_cons in Hf as [Hx Hf]. cbn [harmless].
    rewrite (proj2 (Z.eqb_neq _ _) Hx). split; [intros _ [? ?]; split; auto|by apply IH]. }
  destruct axes as [|x axes]; [done|]. intros [Hx Hf]%Forall_cons. cbn [units_ok]. rewrite (proj2 (Z.eqb_neq _ _) Hx). by apply H.
Qed.

(** The state of the loop before the axes [rest]; [p] is the last axis that was kept. *)
Definition merge_inv (st : merge_state) (rest : list saxis) : Prop :=
  let '(acc, flag, before) := st in
  Forall good_saxis acc ∧ Forall (λ x, dst_d x ≠ 1) acc ∧
  match acc with
  | [] => units_ok rest
  | m :: _ => ∃ p y, before = Some y ∧ flag = (src_d m =? 1) ∧ (src_d p =? 1) = flag ∧
      src_s m = src_s p ∧ dst_s m = dst_s p ∧ harmless p y rest
  end.

Lemma merge_step_inv (st : merge_state) (x : saxis) (rest : list saxis) : merge_inv st (x :: rest) → good_saxis x →
  merge_inv (merge_step st x) rest ∧
  (∀ post, pwalk (rev (merge_step st x).1.1 ++ post) = pwalk (rev st.1.1 ++ x :: post)) ∧
  (length (merge_step st x).1.1 ≤ S (length st.1.1))%nat.
Proof.
  destruct st as [[acc flag] before]. intros (Hg & Hn & Hh) Hx. unfold merge_step. cbn [fst snd] in *.
  destruct (Z.eqb_spec (dst_d x) 1) as [E|E].
  { split; [|split; [intros post; symmetry; apply pwalk_tail; by apply pwalk_unit|simpl; lia]].
    split_and!; [done..|]. destruct acc as [|m acc].
    - cbn [units_ok] in Hh. by rewrite (proj2 (Z.eqb_eq _ _) E) in Hh.
    - destruct Hh as (p & y & Hy & Hf & Hp & H1 & H2 & Hh). cbn [harmless] in Hh. rewrite (proj2 (Z.eqb_eq _ _) E) in Hh. by exists p, x. }
  assert (Hpush : harmless x x rest → merge_inv (x :: acc, src_d x =? 1, Some x) rest ∧
    (∀ post, pwalk (rev (x :: acc) ++ post) = pwalk (rev acc ++ x :: post)) ∧
    (length (x :: acc) ≤ S (length acc))%nat).
  { intros Hr. split; [|split; [|simpl; lia]].
    - split_and!; [by apply Forall_cons|by apply Forall_cons|by exists x, x].
    - intros post. simpl. by rewrite <- app_assoc. }
  destruct acc as [|m acc]; [apply Hpush; cbn [units_ok] in Hh; by rewrite (proj2 (Z.eqb_neq _ _) E) in Hh|].
  destruct Hh as (p & y & -> & Hf & Hp & H1 & H2 & Hh). cbn [harmless] in Hh. rewrite (proj2 (Z.eqb_neq _ _) E) in Hh. destruct Hh as [Hjoin Hr].
  destruct (eqb flag (src_d x =? 1) && (src_s y =? src_s x * src_d x) && (dst_s y =? dst_s x * dst_d x)) eqn:G;
    [|by apply Hpush].
  apply andb_true_iff in G as [[G1%eqb_prop G2%Z.eqb_eq]%andb_true_iff G3%Z.eqb_eq].
  destruct Hjoin as [W1 W2]; [congruence|by split|].
  apply Forall_cons in Hg as [Hgp Hg]. apply Forall_cons in Hn as [Hnp Hn].
  destruct Hgp as [Pp Gp]. destruct Hx as [Px Gx].
  assert (Hflag : (src_d m =? 1) = (src_d x =? 1)) by congruence.
  assert (Hmerged : (src_d m * src_d x =? 1) = (src_d x =? 1)).
  { destruct (Z.eqb_spec (src_d x) 1) as [Ex|Ex].
    - apply Z.eqb_eq in Hflag. by rewrite Ex, Hflag.
    - apply Z.eqb_neq in Hflag. apply Z.eqb_neq. destruct Gp, Gx; nia. }
  split; [split_and!|split; [|simpl; lia]].
  - apply Forall_cons. split; [|done]. split; [simpl; nia|]. cbn [merge_saxis src_d dst_d].
    destruct (Z.eqb_spec (src_d m) 1) as [Ep|Ep].
    + symmetry in Hflag. apply Z.eqb_eq in Hflag. rewrite Ep, Hflag. by right.
    + symmetry in Hflag. apply Z.eqb_neq in Hflag. left. destruct Gp, Gx; congruence.
  - apply Forall_cons. split; [|done]. simpl. nia.
  - exists x, x. cbn [merge_saxis src_d src_s dst_s]. rewrite Hmerged. by split_and!.
  - intros post. simpl. rewrite <- !app_assoc. symmetry. apply pwalk_tail. simpl.
    apply pwalk_merge; try done; try congruence.
Qed.

Lemma merge_loop (axes : list saxis) (st : merge_state) :
  merge_inv st axes → Forall good_saxis axes →
  let st' := foldl merge_step st axes in
  merge_inv st' [] ∧ pwalk (rev st'.1.1) = pwalk (rev st.1.1 ++ axes) ∧
  (length st'.1.1 ≤ length st.1.1 + length axes)%nat.
Proof.
  revert st. induction axes as [|x axes IH]; intros st Hi Hg; cbv zeta.
  { rewrite app_nil_r. split_and!; [done..|simpl; lia]. }
  apply Forall_cons in Hg as [Hx Hg]. cbn [foldl].
  destruct (merge_step_inv st x axes Hi Hx) as (I1 & I3 & I4).
  destruct (IH (merge_step st x) I1 Hg) as (J1 & J2 & J3). split_and!; [done| |simpl; lia].
  by rewrite J2, I3.
Qed.

(** Merged axes walk like the sorted ones. *)
Lemma merge_axes_walk (axes : list saxis) : Forall good_saxis axes → units_ok axes →
  pwalk (merge_axes axes) = pwalk axes ∧ merge_axes axes ≠ [] ∧
  (length (merge_axes axes) ≤ Nat.max 1 (length axes))%nat ∧ Forall good_saxis (merge_axes axes).
Proof.
  intros Hg Hu. unfold merge_axes.
  destruct (merge_loop axes ([], false, None)) as (J1 & J2 & J3); [by split_and!|done|].
  cbn [fst snd rev app length] in J2, J3.
  set (st := foldl merge_step _ axes) in *. clearbody st. destruct st as [[acc flag] before].
  cbn [fst snd length] in *.
  destruct acc as [|p acc].
  - rewrite <- J2. split_and!; [done|done|cbn [length]; lia|].
    apply Forall_singleton. split; simpl; [lia|by left].
  - split_and!; [done| | |].
    + simpl. by destruct (rev acc).
    + rewrite List.length_rev. cbn [length] in *. lia.
    + apply (List.Forall_rev (l := p :: acc)). by destruct J1 as (? & _).
Qed.

(** ** The kernels as moves *)

Section Moves.
Context {A : Type} (functor : A → A).

(** [dst[p.1] = functor(src[p.2])]. *)
Lemma move_copy (src dst : list A) (d s : Z) :
  (let* x := at_ src s in write_at dst d (functor x)) = copy_byte (functor <$> src) dst (d, s).
Proof.
  unfold copy_byte, write_at, at_. cbn [fst snd]. destruct (Z.ltb_spec s 0) as [Hs|Hs]; [done|].
  rewrite list_lookup_fmap. destruct (src !! Z.to_nat s) as [x|]; [|done]. cbn.
  destruct (Z.leb_spec 0 d), (Z.ltb_spec d 0); try lia; [|done]. simpl.
  destruct (Z.ltb_spec d (Z.of_nat (length dst))).
  - destruct (lookup_lt_is_Some_2 dst (Z.to_nat d)) as [y ->]; [lia|done].
  - rewrite lookup_ge_None_2; [done|lia].
Qed.

(** Offsets of an index, from the strides. *)
Fixpoint pair_offset (axes : list saxis) (idx : list Z) : Z * Z :=
  match axes, idx with
  | x :: axes, i :: idx => let p := pair_offset axes idx in (i * dst_s x + p.1, i * eff x + p.2)
  | _, _ => (0, 0)
  end.

Lemma pwalk_indices (axes : list saxis) :
  pwalk axes = pair_offset axes <$> all_indices (map dst_d axes).
Proof.
  induction axes as [|x axes IH]; [done|]. cbn [pwalk map all_indices].
  rewrite fmap_bind_assoc. apply bind_ext_all. intros i. by rewrite IH, <- !list_fmap_compose.
Qed.

Lemma foldl_add (l : list Z) (a : Z) : foldl Z.add a l = a + foldl Z.add 0 l.
Proof. revert a. induction l as [|x l IH]; intros a; cbn [foldl]; [lia|]. rewrite IH, (IH (0 + x)). lia. Qed.

Lemma stride_offset_cons (s i : Z) (strides index : list Z) :
  stride_offset (s :: strides) (i :: index) = i * s + stride_offset strides index.
Proof. unfold stride_offset. cbn [zip_with foldl]. rewrite foldl_add. lia. Qed.

Lemma pair_offset_strides (axes : list saxis) (idx : list Z) : length idx = length axes →
  pair_offset axes idx =
  (stride_offset (map dst_s axes) idx, stride_offset (map src_s axes) (src_index (map src_d axes) idx)).
Proof.
  revert idx. induction axes as [|x axes IH]; intros [|i idx] Hl; try done.
  cbn [pair_offset map]. rewrite IH by (simpl in Hl; lia). unfold src_index. cbn [zip_with].
  rewrite !stride_offset_cons. cbn [fst snd]. f_equal. f_equal. unfold eff. destruct (src_d x =? 1); simpl; lia.
Qed.

(** Dense strides are the row-major ones. *)
Lemma dense_offset (strides dims idx : list Z) : dense strides dims = true → index_in idx dims →
  stride_offset strides idx = offset_of idx dims ∧
  (match strides with [] => True | s :: _ => s = prodZ (tail dims) end).
Proof.
  revert dims idx. induction strides as [|s strides IH]; intros [|d dims] idx Hd Hi; try done.
  { apply Forall2_nil_inv_r in Hi as ->. done. }
  { by destruct strides. }
  apply Forall2_cons_inv_r in Hi as (i & idx' & Hi & Hidx & ->). cbn [tail offset_of].
  rewrite stride_offset_cons. destruct strides as [|s' strides], dims as [|d' dims]; try done.
  - apply Z.eqb_eq in Hd as ->. apply Forall2_nil_inv_r in Hidx as ->. done.
  - cbn [dense] in Hd. apply andb_true_iff in Hd as [Hs%Z.eqb_eq Hd].
    destruct (IH (d' :: dims) idx' Hd Hidx) as [-> ->]. cbn [tail] in Hs. rewrite prodZ_cons.
    split; [|lia]. rewrite Hs. lia.
Qed.

(** The strides that the general kernel divides by; see [fast_ok]. *)
Definition divisors_ok (axes : list saxis) : Prop :=
  Forall (λ s, s < 2 ^ 32 ∨ s ≠ 2 ^ Z.log2 s) (row_major (map dst_d axes)).

Lemma general_moves (src dst : list A) (axes : list saxis) :
  (1 ≤ length axes ≤ 8)%nat → Forall good_saxis axes → prodZ (map dst_d axes) < 2 ^ 63 → divisors_ok axes →
  LaunchGeneralUnary functor dst src axes = ofold (copy_byte (functor <$> src)) (pwalk axes) dst.
Proof.
  intros Hn Hg Hsz Hdiv. unfold LaunchGeneralUnary. unfold divisors_ok in Hdiv. set (D := map dst_d axes) in *.
  assert (Hpos : Forall (λ d, 0 < d) D) by (apply Forall_map; eapply Forall_impl; [exact Hg|]; intros x [? _]; done).
  assert (HlD : length D = length axes) by apply length_map. pose proof (prodZ_ge_1 D Hpos).
  rewrite GetElementCount_prod by (done || lia). rewrite i64_small by (unfold is_i64; lia).
  destruct (InitFastIntegerMath_exact Host Int64 8 D) as (hs & Ehs & Hhs); [lia| |].
  { eapply Forall_impl; [apply Forall_and; exact (conj (row_major_bound _ Hpos) Hdiv)|]. intros st [Hst Hp]. simpl in Hst.
    split; [simpl; lia|]. intros _. exact Hp. }
  rewrite HlD in Ehs. rewrite Ehs. cbn [obind]. rewrite pwalk_indices. fold D. rewrite ofold_fmap.
  rewrite <- all_indices_offsets, ofold_fmap by (eapply Forall_impl; [exact Hpos|simpl; lia]).
  apply ofold_ext_in. intros d idx Hin%all_indices_in.
  assert (Hli : length idx = length axes) by (apply Forall2_length in Hin; lia).
  rewrite <- HlD, (CalcOffsetToNdIndex_spec Host Int64 8) by (done || simpl; lia).
  rewrite pair_offset_strides, <- move_copy by done.
  destruct (IsContiguous D (map dst_s axes)) eqn:Ec; [|done].
  by destruct (dense_offset _ _ _ Ec Hin) as [-> _].
Qed.

Lemma pwalk_1 (x : saxis) : pwalk [x] = (λ i, (i * dst_s x, i * eff x)) <$> range_list 0 (dst_d x).
Proof.
  cbn [pwalk]. induction (range_list 0 (dst_d x)) as [|i l IH]; [done|]. rewrite bind_cons, IH. simpl.
  by rewrite !Z.add_0_r.
Qed.

Lemma one_axis_moves (src dst : list A) (x : saxis) : good_saxis x → (1 ≤ length src)%nat →
  (if src_d x =? 1 then LaunchScalarFill functor dst src (dst_d x) (dst_s x)
   else LaunchTensorFill functor dst src (src_d x) (dst_s x) (src_s x)) =
  ofold (copy_byte (functor <$> src)) (pwalk [x]) dst.
Proof.
  intros [Hp Hx] Hsrc. rewrite pwalk_1, ofold_fmap. unfold eff. destruct (Z.eqb_spec (src_d x) 1) as [E|E].
  - unfold LaunchScalarFill. destruct (at_head src Hsrc) as [v Ev]. rewrite Ev. cbn [obind].
    apply ofold_ext_in. intros d i _. by rewrite Z.mul_0_r, <- move_copy, Ev.
  - destruct Hx as [->|?]; [|done]. unfold LaunchTensorFill. apply ofold_ext_in. intros d i _.
    by rewrite <- move_copy.
Qed.
End Moves.

Lemma first_index (dims : list Z) : Forall (λ d, 0 < d) dims → ∃ idx, index_in idx dims.
Proof.
  induction 1 as [|d dims Hd _ [idx IH]]; [by exists []; constructor|]. exists (0 :: idx). constructor; [lia|done].
Qed.

(** ** The permute path *)

(** [std::sort] of the source strides has to give a permutation that is its own inverse. *)
Definition involutive (order : list nat) : Prop := Forall (λ d, (order !! d) ≫= (λ k, order !! k) = Some d) (seq 0 (length order)).

Lemma involutive_lookup (order : list nat) (n d : nat) : order ≡ₚ seq 0 n → involutive order → (d < n)%nat →
  ∃ k, order !! d = Some k ∧ order !! k = Some d ∧ (k < n)%nat.
Proof.
  intros Hp Hi Hd. destruct (permutation_facts _ _ Hp) as (_ & Hlen & Hlt).
  unfold involutive in Hi. rewrite Forall_forall in Hi. specialize (Hi d ltac:(apply elem_of_seq; lia)).
  destruct (order !! d) as [k|] eqn:E; [|done]. exists k. split_and!; [done|done|]. by apply (Forall_lookup_1 _ _ _ _ Hlt E).
Qed.

Lemma dense_lookup (strides dims : list Z) (k : nat) (s : Z) : dense strides dims = true → strides !! k = Some s →
  length strides = length dims ∧ s = prodZ (drop (S k) dims).
Proof.
  revert dims k s. induction strides as [|x strides IH]; intros dims k s Hd Hk; [done|].
  destruct strides as [|y strides], dims as [|d dims]; [done| | |].
  - destruct dims; [|done]. apply Z.eqb_eq in Hd as ->. destruct k; [|done]. by injection Hk as <-.
  - done.
  - destruct dims as [|d' dims]; [done|]. cbn [dense] in Hd. apply andb_true_iff in Hd as [Hs%Z.eqb_eq Hd].
    destruct (IH (d' :: dims) 0%nat y Hd eq_refl) as [Hl Hy]. split; [cbn [length] in *; lia|].
    destruct k as [|k]; [|by destruct (IH (d' :: dims) k s Hd Hk)]. injection Hk as <-. cbn [drop] in *.
    rewrite prodZ_cons, Hs, Hy, drop_0. lia.
Qed.

(** The source offset of an index along the axes of an inverted permutation. *)
Lemma involutive_offset (axes : list saxis) (order : list nat) (idx : list Z) :
  order ≡ₚ seq 0 (length axes) → involutive order →
  dense (map (dim (map src_s axes)) order) (map (dim (map src_d axes)) order) = true →
  map src_d axes = map dst_d axes → index_in idx (map dst_d axes) →
  let pdims := map (dim (map src_d axes)) order in
  map (dim pdims) order = map dst_d axes ∧
  strided_offset (perm_axes pdims order) idx = stride_offset (map src_s axes) (src_index (map src_d axes) idx).
Proof.
  intros Hp Hi Hd Heq Hin. cbv zeta. destruct (permutation_facts _ _ Hp) as (_ & Hlen & _).
  set (pdims := map (dim (map src_d axes)) order) in *.
  assert (Hax : ∀ d x, axes !! d = Some x → ∃ k, order !! d = Some k ∧ dim pdims k = src_d x ∧ prodZ (drop (S k) pdims) = src_s x).
  { intros d x Hx. destruct (involutive_lookup order (length axes) d Hp Hi) as (k & E1 & E2 & _); [by eapply lookup_lt_Some|].
    exists k. split; [done|]. unfold pdims, dim. rewrite list_lookup_fmap, E2. cbn. rewrite list_lookup_fmap, Hx. split; [done|].
    destruct (dense_lookup _ _ k (src_s x) Hd) as [_ ->]; [|done].
    rewrite list_lookup_fmap, E2. cbn. unfold dim. by rewrite list_lookup_fmap, Hx. }
  assert (Hdims : map (dim pdims) order = map dst_d axes).
  { rewrite <- Heq. apply list_eq. intros d. rewrite !list_lookup_fmap. destruct (axes !! d) as [x|] eqn:Ex.
    - destruct (Hax d x Ex) as (k & -> & E & _). cbn. by rewrite E.
    - rewrite (lookup_ge_None_2 order); [done|]. apply lookup_ge_None in Ex. lia. }
  split; [done|]. clear Hi Hd Hp Hdims. clearbody pdims.
  assert (Hlx : length idx = length axes) by (apply Forall2_length in Hin; by rewrite length_map in Hin).
  revert order idx Hlen Hax Hin Hlx Heq. induction axes as [|x axes IH]; intros [|o order] [|i idx] Hlen Hax Hin Hlx Heq; try done.
  cbn [map] in *. injection Heq as Ex Heq. apply Forall2_cons in Hin as [Hi0 Hin]. rewrite perm_axes_cons. cbn [strided_offset].
  unfold src_index. cbn [zip_with]. rewrite stride_offset_cons. fold (src_index (map src_d axes) idx).
  destruct (Hax 0%nat x eq_refl) as (k & [= <-] & _ & ->).
  rewrite IH; [|simpl in Hlen; lia|intros d y Hy; by apply (Hax (S d))|done|simpl in Hlx; lia|done].
  f_equal. destruct (Z.eqb_spec (src_d x) 1); [|done]. assert (i = 0) as -> by lia. done.
Qed.

Lemma permute_moves {A : Type} (elem : Z) (axes : list saxis) (order : list nat) (pdims : list Z) (sp dp : Z) (src dst : list A) :
  (1 ≤ length axes ≤ 8)%nat → Forall good_saxis axes → prodZ (map dst_d axes) < 2 ^ 63 → order ≡ₚ seq 0 (length axes) →
  InferPermutable true axes order = Some (order, pdims) → involutive order → runs_fit pdims order → elem ∈ unit_sizes →
  PermuteLaunch elem pdims order sp dp src dst = ofold (copy_byte src) (pwalk axes) dst.
Proof.
  intros Hn Hg Hsz Hp HI Hinv Hrf He. unfold InferPermutable in HI. cbn [negb] in HI.
  destruct (bool_decide _) eqn:E1 in HI; [apply bool_decide_eq_true in E1|done]. cbn [negb] in HI.
  destruct (dense _ _) eqn:E2 in HI; [|done]. cbn [negb] in HI. destruct (dense _ _) eqn:E3 in HI; [|done]. injection HI as <-.
  set (pdims := map (dim (map src_d axes)) order) in *. destruct (permutation_facts _ _ Hp) as (_ & Hlen & _).
  assert (Hlp : length pdims = length axes) by (unfold pdims; by rewrite length_map).
  assert (Hp' : order ≡ₚ seq 0 (length (map src_d axes))) by (by rewrite length_map).
  assert (Hpos : Forall (λ d, 0 < d) (map src_d axes)).
  { rewrite E1. apply Forall_map. eapply Forall_impl; [exact Hg|]. intros x Hx. apply Hx. }
  assert (Hpp : Forall (λ d, 0 < d) pdims) by (by apply perm_dims_pos).
  rewrite PermuteLaunch_moves by (rewrite ?Hlp; try done; unfold pdims; rewrite perm_dims_prod by done; by rewrite E1).
  f_equal. rewrite perm_moves_indices by (by rewrite ?Hlp). rewrite pwalk_indices.
  assert (Hdims : map (dim pdims) order = map dst_d axes).
  { destruct (first_index (map dst_d axes)) as [idx Hidx]; [by rewrite <- E1|].
    by destruct (involutive_offset axes order idx Hp Hinv E2 E1 Hidx). }
  rewrite Hdims. apply list_fmap_ext. intros k idx Hk.
  assert (Hin : index_in idx (map dst_d axes)) by (apply all_indices_in, list_elem_of_lookup; eauto).
  destruct (involutive_offset axes order idx Hp Hinv E2 E1 Hin) as [_ HO]. fold pdims in HO. rewrite HO.
  rewrite pair_offset_strides by (apply Forall2_length in Hin; by rewrite length_map in Hin).
  by destruct (dense_offset _ _ _ E3 Hin) as [-> _].
Qed.

(** ** The primitive *)

(** What the kernel chosen for the simplified [axes] needs. *)
Definition launch_ok (identity same_type : bool) (elem_size : Z) (axes : list saxis) (src_order : list nat) : Prop :=
  match axes with
  | [_] => True
  | _ =>
      match InferPermutable identity axes src_order with
      | Some (permutation, dims) =>
          if same_type then involutive permutation ∧ runs_fit dims permutation ∧ elem_size ∈ unit_sizes else divisors_ok axes
      | None => divisors_ok axes
      end
  end.

(** The axes before sorting, in the order of the dimensions. *)
Definition raw_axes (src_dims src_strides dst_dims dst_strides : list Z) : list saxis :=
  let pad := (length dst_dims - length src_dims)%nat in
  zip_with (λ a b, mkSaxis a.1 a.2 b.1 b.2)
    (zip (replicate pad 1 ++ src_dims) (replicate pad 0 ++ src_strides)) (zip dst_dims dst_strides).

Section Expand.
Context (src_dims src_strides dst_dims dst_strides : list Z).
Context (Hs : length src_strides = length src_dims) (Hd : length dst_strides = length dst_dims).
Context (Hle : (length src_dims ≤ length dst_dims)%nat).
#[local] Abbreviation axes := (raw_axes src_dims src_strides dst_dims dst_strides).

Lemma length_raw_axes : length axes = length dst_dims.
Proof.
  unfold raw_axes. rewrite length_zip_with, !length_zip_with, !length_app, !length_replicate. lia.
Qed.

Lemma expanded_axis_raw (i : nat) (x : saxis) : axes !! i = Some x →
  expanded_axis src_dims src_strides dst_dims dst_strides i = Ret x.
Proof.
  unfold raw_axes. intros (a & b & -> & Ha & Hb)%lookup_zip_with_Some.
  apply lookup_zip_with_Some in Ha as (sd & ss & -> & Hsd & Hss).
  apply lookup_zip_with_Some in Hb as (dd & ds & -> & Hdd & Hds). unfold expanded_axis.
  rewrite (at_nat _ _ _ Hdd), (at_nat _ _ _ Hds). cbn [obind fst snd].
  destruct (Z.ltb_spec (Z.of_nat i) (Z.of_nat (length dst_dims) - Z.of_nat (length src_dims))) as [Hi|Hi].
  - rewrite lookup_app_l in Hsd, Hss by (rewrite length_replicate; lia).
    apply lookup_replicate in Hsd as [-> _]. by apply lookup_replicate in Hss as [-> _].
  - rewrite lookup_app_r in Hsd, Hss by (rewrite length_replicate; lia). rewrite length_replicate in Hsd, Hss.
    replace (Z.of_nat i - (Z.of_nat (length dst_dims) - Z.of_nat (length src_dims)))
      with (Z.of_nat (i - (length dst_dims - length src_dims))) by lia.
    by rewrite (at_nat _ _ _ Hsd), (at_nat _ _ _ Hss).
Qed.

(** Sorting permutes the axes. *)
Lemma expanded_order (order : list nat) : order ≡ₚ seq 0 (length dst_dims) →
  ∃ xs, omap_list (expanded_axis src_dims src_strides dst_dims dst_strides) order = Ret xs ∧ xs ≡ₚ axes.
Proof.
  intros Ho.
  assert (Hlt : Forall (λ i, (i < length axes)%nat) order).
  { rewrite Ho, length_raw_axes. apply Forall_forall. intros i Hi%elem_of_seq. lia. }
  exists (omap (λ i, axes !! i) order). split.
  - clear Ho. induction Hlt as [|i order Hi _ IH]; [done|]. destruct (lookup_lt_is_Some_2 axes i Hi) as [x Hx].
    cbn [omap_list]. rewrite (expanded_axis_raw i x Hx). cbn [obind]. rewrite IH. cbn [obind].
    by cbn [omap list_omap]; rewrite Hx.
  - rewrite Ho, <- length_raw_axes. clear. apply reflexive_eq.
    induction axes as [|x l IH] using rev_ind; [done|].
    rewrite length_app, Nat.add_1_r, seq_S, omap_app. cbn [omap list_omap Nat.add].
    rewrite lookup_app_r, Nat.sub_diag by lia. simpl. f_equal. rewrite <- IH at 2.
    assert (G : ∀ k, Forall (λ i, (i < length l)%nat) k → omap (λ i, (l ++ [x]) !! i) k = omap (λ i, l !! i) k).
    { induction 1 as [|i k Hi _ IHk]; [done|]. unfold omap in *. cbn [list_omap].
      rewrite lookup_app_l by done. by rewrite IHk. }
    apply G, Forall_forall. intros i Hi%elem_of_seq. lia.
Qed.
End Expand.

(** What the caller provides: axes of positive extent that agree or are broadcast,
    at most eight, fewer than 2^63 elements. *)
Record unary_args (src_dims src_strides dst_dims dst_strides : list Z) : Prop := {
  ua_rank : (1 ≤ length src_dims ≤ length dst_dims ∧ length dst_dims ≤ 8)%nat;
  ua_src_strides : length src_strides = length src_dims;
  ua_dst_strides : length dst_strides = length dst_dims;
  ua_axes : Forall good_saxis (raw_axes src_dims src_strides dst_dims dst_strides);
  ua_size : prodZ dst_dims < 2 ^ 63;
}.

Lemma map_zip_with_l {X Y V W : Type} (f : V → W) (h : X → W) (g : X → Y → V) (a : list X) (b : list Y) :
  (∀ x y, f (g x y) = h x) → length a = length b → map f (zip_with g a b) = map h a.
Proof.
  intros Hf. revert b. induction a as [|x a IH]; intros [|y b] Hl; try done.
  simpl. rewrite Hf. f_equal. apply IH. simpl in Hl. lia.
Qed.

Lemma map_zip_with_r {X Y V W : Type} (f : V → W) (h : Y → W) (g : X → Y → V) (a : list X) (b : list Y) :
  (∀ x y, f (g x y) = h y) → length a = length b → map f (zip_with g a b) = map h b.
Proof.
  intros Hf. revert b. induction a as [|x a IH]; intros [|y b] Hl; try done.
  simpl. rewrite Hf. f_equal. apply IH. simpl in Hl. lia.
Qed.

Lemma raw_axes_dst (src_dims src_strides dst_dims dst_strides : list Z) :
  unary_args src_dims src_strides dst_dims dst_strides →
  let axes := raw_axes src_dims src_strides dst_dims dst_strides in
  map dst_d axes = dst_dims ∧ map dst_s axes = dst_strides ∧
  map src_d axes = replicate (length dst_dims - length src_dims) 1 ++ src_dims ∧
  map src_s axes = replicate (length dst_dims - length src_dims) 0 ++ src_strides.
Proof.
  intros [[[H1 H2] H3] Hs Hd _ _]. cbv zeta. unfold raw_axes.
  set (a := zip _ _). set (b := zip dst_dims _).
  assert (Hl : length a = length b).
  { subst a b. rewrite !length_zip_with, !length_app, !length_replicate. lia. }
  split_and!.
  - rewrite (map_zip_with_r _ fst) by done. apply fst_zip. lia.
  - rewrite (map_zip_with_r _ snd) by done. apply snd_zip. lia.
  - rewrite (map_zip_with_l _ fst) by done. apply fst_zip. rewrite !length_app, !length_replicate. lia.
  - rewrite (map_zip_with_l _ snd) by done. apply snd_zip. rewrite !length_app, !length_replicate. lia.
Qed.

Lemma ua_dst_pos (src_dims src_strides dst_dims dst_strides : list Z) :
  unary_args src_dims src_strides dst_dims dst_strides → Forall (λ d, 0 < d) dst_dims.
Proof.
  intros Hua. destruct (raw_axes_dst _ _ _ _ Hua) as (<- & _).
  apply Forall_map. eapply Forall_impl; [exact (ua_axes _ _ _ _ Hua)|]. intros x Hx. apply Hx.
Qed.

(** Padding axes contribute nothing to the source offset. *)
Lemma padded_offset (pad : nat) (dims strides idx : list Z) : (pad ≤ length idx)%nat →
  stride_offset (replicate pad 0 ++ strides) (src_index (replicate pad 1 ++ dims) idx) =
  stride_offset strides (src_index dims (drop pad idx)).
Proof.
  revert idx. induction pad as [|pad IH]; intros [|i idx] Hl; simpl in Hl; try lia; try done.
  unfold src_index. cbn [replicate app zip_with drop]. rewrite stride_offset_cons.
  fold (src_index (replicate pad 1 ++ dims) idx).
  rewrite IH by lia. by rewrite Z.mul_0_r, Z.add_0_l.
Qed.

Lemma raw_walk (src_dims src_strides dst_dims dst_strides : list Z) :
  unary_args src_dims src_strides dst_dims dst_strides →
  pwalk (raw_axes src_dims src_strides dst_dims dst_strides) =
  (λ idx, (stride_offset dst_strides idx,
           stride_offset src_strides (src_index src_dims (drop (length dst_dims - length src_dims) idx))))
  <$> all_indices dst_dims.
Proof.
  intros Hua. pose proof (raw_axes_dst _ _ _ _ Hua) as (E1 & E2 & E3 & E4).
  rewrite pwalk_indices, E1. apply list_fmap_ext. intros k idx Hk.
  assert (Hin : index_in idx dst_dims) by (apply all_indices_in, list_elem_of_lookup; eauto).
  apply Forall2_length in Hin. destruct Hua as [[[? ?] ?] Hs Hd _ _].
  rewrite pair_offset_strides by (rewrite length_raw_axes by done; done).
  rewrite E2, E3, E4, padded_offset by lia. done.
Qed.

Lemma length_pwalk (axes : list saxis) : Forall good_saxis axes →
  Z.of_nat (length (pwalk axes)) = prodZ (map dst_d axes).
Proof.
  intros Hg.
  assert (Hpos : Forall (λ d, 0 < d) (map dst_d axes))
    by (apply Forall_map; eapply Forall_impl; [exact Hg|]; intros x Hx; apply Hx).
  pose proof (prodZ_ge_1 _ Hpos). rewrite pwalk_indices, length_fmap.
  rewrite <- (length_fmap (λ idx, offset_of idx (map dst_d axes))), all_indices_offsets
    by (eapply Forall_impl; [exact Hpos|simpl; lia]).
  unfold range_list. rewrite length_map, length_seq. lia.
Qed.

(** The launch is a sequence of moves over the view. *)
Lemma LaunchStrided_moves {A : Type} (functor : A → A) (identity same_type : bool) (elem_size : Z)
    (src_dims src_strides : list Z) (src_ptr : Z) (src : list A)
    (dst_dims dst_strides : list Z) (dst_ptr : Z) (dst : list A) (order src_order : list nat) (xs : list saxis) :
  unary_args src_dims src_strides dst_dims dst_strides →
  sorted_order dst_strides order → omap_list (expanded_axis src_dims src_strides dst_dims dst_strides) order = Ret xs →
  units_ok xs → sorted_order (map src_s (merge_axes xs)) src_order → launch_ok identity same_type elem_size (merge_axes xs) src_order →
  (identity = true → ∀ x, functor x = x) → src_ptr ≠ dst_ptr → (1 ≤ length src)%nat →
  ∃ ps, LaunchStrided functor identity same_type elem_size src_dims src_strides src_ptr src
          dst_dims dst_strides dst_ptr dst order src_order = ofold (copy_byte (functor <$> src)) ps dst ∧
    ps ≡ₚ pwalk (raw_axes src_dims src_strides dst_dims dst_strides).
Proof.
  intros Hua [Ho _] Exs Hu [Hso _] Hlo Hid Hptr Hsrc. pose proof (raw_axes_dst _ _ _ _ Hua) as (E1 & _).
  destruct Hua as [[[H1 H2] H3] Hs Hd Hg Hsz]. rewrite Hd in Ho.
  destruct (expanded_order src_dims src_strides dst_dims dst_strides Hs Hd H2 order Ho) as (xs' & Exs' & Hxs).
  rewrite Exs in Exs'. injection Exs' as <-.
  assert (Hgx : Forall good_saxis xs) by (by rewrite Hxs).
  destruct (merge_axes_walk xs Hgx Hu) as (W1 & W2 & W3 & W4).
  assert (Hlen : (length xs ≤ 8)%nat) by (rewrite Hxs, length_raw_axes; lia).
  exists (pwalk (merge_axes xs)). split; [|rewrite W1; by apply pwalk_perm].
  unfold LaunchStrided, SimplifyBroadcastDimsStrided. rewrite !(proj2 (Nat.ltb_lt _ _)) by lia.
  rewrite Exs. cbn [CHECK obind]. set (axes := merge_axes xs) in *.
  assert (Hci : ∀ a b, CheckInplace src_ptr dst_ptr a b = Ret tt).
  { intros a b. unfold CheckInplace. by rewrite (proj2 (Z.eqb_neq _ _)). }
  rewrite !Hci. cbn [obind]. rewrite length_map in Hso.
  assert (Hprod : prodZ (map dst_d axes) < 2 ^ 63).
  { rewrite <- length_pwalk by done. subst axes. rewrite W1, (pwalk_perm _ _ Hxs), length_pwalk by done. by rewrite E1. }
  assert (Hn : (1 ≤ length axes ≤ 8)%nat) by (assert (length axes ≠ 0%nat) by (by destruct axes); lia).
  assert (Hgen : divisors_ok axes → LaunchGeneralUnary functor dst src axes = ofold (copy_byte (functor <$> src)) (pwalk axes) dst)
    by (by apply general_moves).
  assert (Hone : ∀ x, axes = [x] → (if src_d x =? 1 then LaunchScalarFill functor dst src (dst_d x) (dst_s x)
    else LaunchTensorFill functor dst src (src_d x) (dst_s x) (src_s x)) =
    ofold (copy_byte (functor <$> src)) (pwalk axes) dst).
  { intros x Ex. rewrite Ex in *. apply one_axis_moves; [by apply Forall_inv in W4|done]. }
  assert (Hmany : match InferPermutable identity axes src_order with
      | Some (p, ds) => if same_type then involutive p ∧ runs_fit ds p ∧ elem_size ∈ unit_sizes else divisors_ok axes
      | None => divisors_ok axes end →
    match InferPermutable identity axes src_order with
    | Some (l, ds) => if same_type && PermuteFactory_New (length axes)
                      then PermuteLaunch elem_size ds l src_ptr dst_ptr src dst
                      else LaunchGeneralUnary functor dst src axes
    | None => LaunchGeneralUnary functor dst src axes end = ofold (copy_byte (functor <$> src)) (pwalk axes) dst).
  { unfold PermuteFactory_New, kMaxNumDims. rewrite (proj2 (Nat.leb_le _ _)) by lia. rewrite andb_true_r.
    destruct (InferPermutable identity axes src_order) as [[p ds]|] eqn:EI; [|exact Hgen].
    destruct same_type; [|exact Hgen]. intros (Hinv & Hrf & He).
    assert (identity = true) as -> by (by destruct identity).
    assert (p = src_order) as ->.
    { unfold InferPermutable in EI. repeat (case_match; try done). by injection EI. }
    assert (functor <$> src = src) as ->.
    { rewrite <- (list_fmap_id src) at 2. apply list_fmap_ext. intros _ x _. by apply Hid. }
    by apply permute_moves. }
  unfold launch_ok in Hlo. clearbody axes. destruct axes as [|x [|y l]]; [done|by apply Hone|by apply Hmany].
Qed.

(** C35 The strided unary primitive is correct, also for the identity and its permute path:
    for axes of positive extent that agree or are broadcast, at most eight, fewer than 2^63
    elements, buffers apart, and distinct places for the elements of the destination view,
    provided no axis is merged wrongly because of a skipped axis of extent one, and the
    kernel that is chosen finds what it needs (for the permute primitive a permutation
    that is its own inverse and whose runs of axes have fewer than 2^31 elements; for the
    general kernel no stride to divide by that is a power of two of 2^32 or more), the
    launch returns, each element of the destination view is the functor of the source
    element at the same index, zero on broadcast axes, and no other element of the
    destination buffer changes; whatever order equal strides are sorted in. *)
Theorem strided_unary_correct {A : Type} (functor : A → A) (identity same_type : bool) (elem_size : Z)
    (src_dims src_strides : list Z) (src_ptr : Z) (src : list A)
    (dst_dims dst_strides : list Z) (dst_ptr : Z) (dst : list A) (order src_order : list nat) (xs : list saxis) :
  unary_args src_dims src_strides dst_dims dst_strides →
  sorted_order dst_strides order → omap_list (expanded_axis src_dims src_strides dst_dims dst_strides) order = Ret xs →
  units_ok xs → sorted_order (map src_s (merge_axes xs)) src_order → launch_ok identity same_type elem_size (merge_axes xs) src_order →
  (identity = true → ∀ x, functor x = x) → src_ptr ≠ dst_ptr →
  let dst_offset idx := stride_offset dst_strides idx in
  let src_offset idx :=
    stride_offset src_strides (src_index src_dims (drop (length dst_dims - length src_dims) idx)) in
  (∀ idx, index_in idx dst_dims →
     0 ≤ dst_offset idx < Z.of_nat (length dst) ∧ 0 ≤ src_offset idx < Z.of_nat (length src)) →
  NoDup (dst_offset <$> all_indices dst_dims) →
  ∃ dst', LaunchStrided functor identity same_type elem_size src_dims src_strides src_ptr src
            dst_dims dst_strides dst_ptr dst order src_order = Ret dst' ∧
    length dst' = length dst ∧
    (∀ idx, index_in idx dst_dims →
       dst' !! Z.to_nat (dst_offset idx) = functor <$> src !! Z.to_nat (src_offset idx)) ∧
    (∀ k, (∀ idx, index_in idx dst_dims → dst_offset idx ≠ Z.of_nat k) → dst' !! k = dst !! k).
Proof.
  intros Hua Ho Exs Hu Hso Hlo Hid Hptr dst_offset src_offset Hb Hnd.
  destruct (LaunchStrided_moves functor identity same_type elem_size src_dims src_strides src_ptr src
    dst_dims dst_strides dst_ptr dst order src_order xs) as (ps & -> & Hps); [done..| |].
  { destruct (first_index dst_dims) as [idx Hidx]; [by apply (ua_dst_pos _ _ _ _ Hua)|].
    destruct (Hb idx Hidx). lia. }
  pose proof (raw_walk _ _ _ _ Hua) as Hraw. fold dst_offset src_offset in Hraw. rewrite Hraw in Hps.
  destruct (copies_correct (functor <$> src) ps dst) as (d' & E & Hl & Hin & Hout).
  - rewrite Hps, length_fmap. apply Forall_fmap, Forall_forall. intros idx Hidx%all_indices_in. by apply Hb.
  - rewrite Hps, <- list_fmap_compose. exact Hnd.
  - exists d'. split_and!; [done|done| |].
    + intros idx Hidx. rewrite <- list_lookup_fmap. apply (Hin (dst_offset idx, src_offset idx)).
      rewrite Hps. apply list_elem_of_fmap. exists idx. split; [done|]. by apply all_indices_complete.
    + intros k Hk. specialize (Hout (Z.of_nat k) ltac:(lia)). rewrite Nat2Z.id in Hout. apply Hout.
      rewrite Hps, <- list_fmap_compose. intros (idx & E' & Hidx%all_indices_in)%list_elem_of_fmap.
      by apply (Hk idx Hidx).
Qed.

(** Copying a transposed view with the permute primitive. *)
Lemma strided_unary_correct_witness :
  ∃ d, LaunchStrided id true true 4 [2; 3] [1; 2] 0 (range_list 0 6) [2; 3] [3; 1] 1 (replicate 6 9)
         [0%nat; 1%nat] [1%nat; 0%nat] = Ret d ∧ d !! 1%nat = Some 2.
Proof.
  destruct (strided_unary_correct id true true 4 [2; 3] [1; 2] 0 (range_list 0 6)
    [2; 3] [3; 1] 1 (replicate 6 9) [0%nat; 1%nat] [1%nat; 0%nat] [mkSaxis 2 1 2 3; mkSaxis 3 2 3 1]) as (d & E & _ & H & _).
  - split; simpl; try lia; try done.
    repeat constructor; simpl; lia.
  - split; [done|]. repeat constructor; unfold dim; simpl; lia.
  - reflexivity.
  - apply (bool_decide_unpack _). vm_compute. exact I.
  - split; [apply Permutation_swap|]. repeat constructor; unfold dim; simpl; lia.
  - cbn. split_and!; apply (bool_decide_unpack _); vm_compute; exact I.
  - done.
  - lia.
  - intros idx Hidx%all_indices_complete. revert idx Hidx. apply Forall_forall.
    apply (bool_decide_unpack _). vm_compute. exact I.
  - apply (bool_decide_unpack _). vm_compute. exact I.
  - exists d. split; [exact E|]. specialize (H [0; 1]). vm_compute in H. apply H. repeat constructor; done.
Defined.
