(* ===== verification/MemReuse.v ===== *)
(** * Offsets for registers that share one memory block

    Models [IsLifetimeExcluded] of [oneflow/core/job/memory_share_strategy.cpp] and
    the allocation algorithms of [oneflow/core/job/intra_job_mem_sharing_util.h] and
    [.cpp]: [SuitableThan], [MemReusedAlgorithmAllocateByOrder] with its compact and
    its non-compact insertion, the four orders the registers are placed in, and
    [SelectAlgorithmGenMemBlockOffset4Regsts].  Registers are placed one by one; two
    registers whose lifetimes overlap ("excluded" registers) must not overlap in
    memory.  Compact insertion looks for the gap that fits best and, where none is
    large enough, moves everything behind the gap.

    A [RegstDescProto*] is a number.  [std::sort] may order equal registers as it
    likes and starts from the order of a hash map, so the sorted order is an argument
    of the model that the comparison of the algorithm has to accept.  [int64_t] sums
    and differences wrap ([i64]), [size_t] ones too ([u64]). *)
From stdpp Require Import sorting.
From S2P Require Import Prelude.

(** ** Lifetimes *)

(** [first]: the born time; [second]: the die time. *)
Abbreviation lifetime := (Z * Z)%type.

Definition IsLifetimeExcluded (a b : lifetime) : bool := (a.1 <? b.2) && (b.1 <? a.2).

(** ** [MemReusedAlgorithmAllocateByOrder] *)

Record MemBlockResultInfo := mkResult { mem_block_size : Z; regst_desc2offset : gmap nat Z }.

Definition kMaxInt64 : Z := 2 ^ 63 - 1.

Definition SuitableThan (a b : Z) : bool :=
  let a := if 0 <=? a then kMaxInt64 - a else a in
  let b := if 0 <=? b then kMaxInt64 - b else b in
  b <? a.

(** The comparison of [sorted_registers]. *)
Definition offset_before (order2offset : list Z) (a b : nat) : bool :=
  if order2offset !!! a =? order2offset !!! b then Nat.ltb a b
  else order2offset !!! a <? order2offset !!! b.

(** [std::set::insert]. *)
Fixpoint set_insert (before : nat → nat → bool) (x : nat) (l : list nat) : list nat :=
  match l with
  | [] => [x]
  | y :: l' => if before x y then x :: l else if before y x then y :: set_insert before x l' else l
  end.

(** State of the outer loop. *)
Record placement := mkPlacement {
  order2offset : list Z;
  sorted_registers : list nat;
  buffer_size : Z;
}.

Section Allocate.
Context (order2size : list Z) (order2lifetime : list lifetime).

Definition size_of (i : nat) : Z := order2size !!! i.
Definition end_of (offs : list Z) (i : nat) : Z := i64 (offs !!! i + size_of i).
Definition excluded (i j : nat) : bool := IsLifetimeExcluded (order2lifetime !!! i) (order2lifetime !!! j).

(** [gap_head], [suitable_diff_gap] and [inserting_offset]. *)
Definition gap_state : Type := Z * Z * Z.

Definition try_gap (diff_gap : Z) (st : gap_state) : gap_state :=
  let '(gap_head, suitable_diff_gap, inserting_offset) := st in
  if SuitableThan diff_gap suitable_diff_gap then (gap_head, diff_gap, gap_head) else st.

Definition gap_step (offs : list Z) (i : nat) (st : gap_state) (curr : nat) : gap_state :=
  let '(gap_head, _, _) := st in
  if excluded i curr then
    if gap_head <? offs !!! curr then
      let '(_, s, o) := try_gap (i64 (i64 (offs !!! curr - gap_head) - size_of i)) st in
      (end_of offs curr, s, o)
    else let '(_, s, o) := st in (Z.max gap_head (end_of offs curr), s, o)
  else st.

(** Registers from [gap_end] on move backward, from the last to the first. *)
Fixpoint move_back (rev_sorted : list nat) (gap_end suitable_diff_gap : Z) (offs : list Z) : list Z :=
  match rev_sorted with
  | [] => offs
  | p :: rest =>
      if offs !!! p <? gap_end then offs
      else move_back rest gap_end suitable_diff_gap (<[p := i64 (offs !!! p - suitable_diff_gap)]> offs)
  end.

(** Returns [inserting_offset], the moved offsets and [buffer_size]. *)
Definition insert_compact (st : placement) (i : nat) : Z * list Z * Z :=
  let offs := order2offset st in
  let '(gap_head, suitable, off) := foldl (gap_step offs i) (0, - 1 - size_of i, 0) (sorted_registers st) in
  let '(_, suitable, off) :=
    try_gap (i64 (u64 (u64 (buffer_size st - gap_head) - size_of i))) (gap_head, suitable, off) in
  if suitable <? 0 then
    let gap_end := i64 (i64 (suitable + size_of i) + off) in
    (off, move_back (rev (sorted_registers st)) gap_end suitable offs, u64 (buffer_size st - suitable))
  else (off, offs, buffer_size st).

(** The loop over [sorted_registers], with its break: [inserting_offset] and
    [inserting_end]. *)
Fixpoint first_fit (offs : list Z) (i : nat) (sorted : list nat) (off fin : Z) : Z * Z :=
  match sorted with
  | [] => (off, fin)
  | curr :: rest =>
      if fin <=? offs !!! curr then (off, fin)
      else if excluded i curr && (off <? end_of offs curr)
           then first_fit offs i rest (end_of offs curr) (i64 (end_of offs curr + size_of i))
           else first_fit offs i rest off fin
  end.

Definition insert_first_fit (st : placement) (i : nat) : Z * list Z * Z :=
  let '(off, fin) := first_fit (order2offset st) i (sorted_registers st) 0 (i64 (0 + size_of i)) in
  (off, order2offset st, if buffer_size st <? u64 fin then u64 fin else buffer_size st).

Definition place (compact_insert : bool) (st : placement) (i : nat) : placement :=
  let '(off, offs, buffer) := if compact_insert then insert_compact st i else insert_first_fit st i in
  let offs := <[i := off]> offs in
  mkPlacement offs (set_insert (offset_before offs) i (sorted_registers st)) buffer.

Definition place_all (compact_insert : bool) (n : nat) : placement :=
  foldl (place compact_insert) (mkPlacement (replicate n 0) [] 1) (seq 0 n).
End Allocate.

(** [HashMap::at]. *)
Definition map_at {A : Type} (m : gmap nat A) (k : nat) : outcome A :=
  match m !! k with Some x => Ret x | None => Crash end.

Definition MemReusedAlgorithmAllocateByOrder (compact_insert : bool) (order : list nat)
    (regst_desc2size : gmap nat Z) (regst2lifetime : gmap nat lifetime) (result : MemBlockResultInfo)
    : outcome MemBlockResultInfo :=
  let* sizes := omap_list (λ r, let* s := map_at regst_desc2size r in Ret (i64 s)) order in
  let* lifetimes := omap_list (map_at regst2lifetime) order in
  let st := place_all sizes lifetimes compact_insert (length order) in
  Ret (mkResult (buffer_size st)
         (foldl (λ m p, <[p.1 := p.2]> m) (regst_desc2offset result) (zip order (order2offset st)))).

(** ** The orders *)

Inductive MemAllocAlgoType := kMemSizeFirstAlgo | kLifetimeFirstAlgo | kTimeLineAlgo | kMemVolumeFirstAlgo.

#[export] Instance MemAllocAlgoType_eq_dec : EqDecision MemAllocAlgoType.
Proof. solve_decision. Defined.

(** Larger keys first, then by the tie break. *)
Definition key_before (l r : Z) (tie : bool) : bool := if l =? r then tie else r <? l.

Section Orders.
Context (regst2lifetime : gmap nat lifetime) (mem_reused_regst2size : gmap nat Z).

Definition life (r : nat) : lifetime := default (0, 0) (regst2lifetime !! r).
Definition bytes (r : nat) : Z := default 0 (mem_reused_regst2size !! r).

(** [ComputeMemoryVolume]: the difference of two [int32_t] times a [size_t]. *)
Definition ComputeMemoryVolume (r : nat) : Z := u64 (bytes r * u64 ((life r).2 - (life r).1)) / 1000.

Definition algo_before (algo : MemAllocAlgoType) (l r : nat) : bool :=
  match algo with
  | kMemSizeFirstAlgo => key_before (bytes l) (bytes r) ((life l).1 <? (life r).1)
  | kLifetimeFirstAlgo =>
      key_before ((life l).2 - (life l).1) ((life r).2 - (life r).1) ((life l).1 <? (life r).1)
  | kTimeLineAlgo => key_before (life l).1 (life r).1 ((life r).2 <? (life l).2)
  | kMemVolumeFirstAlgo => key_before (ComputeMemoryVolume l) (ComputeMemoryVolume r) (bytes r <? bytes l)
  end.

(** What [std::sort] may make of the keys of [regst2lifetime]. *)
Definition sort_result (algo : MemAllocAlgoType) (order : list nat) : Prop :=
  order ≡ₚ (map_to_list regst2lifetime).*1 ∧ StronglySorted (λ a b, algo_before algo b a = false) order.

(** [sorted algo]: the order of the algorithm. *)
Definition SelectAlgorithmGenMemBlockOffset4Regsts (sorted : MemAllocAlgoType → list nat)
    (algo_id : MemAllocAlgoType) (compact_insert : bool) (result : MemBlockResultInfo)
    : outcome MemBlockResultInfo :=
  let* _ := CHECK (mem_block_size result =? 0) in
  let* _ := CHECK (bool_decide (regst_desc2offset result = ∅)) in
  let* result := MemReusedAlgorithmAllocateByOrder compact_insert (sorted algo_id)
                   mem_reused_regst2size regst2lifetime result in
  let* _ := CHECK (0 <? mem_block_size result) in
  let* _ := CHECK (negb (bool_decide (regst_desc2offset result = ∅))) in
  Ret result.
End Orders.

(** Three registers, the second of which dies before the third is born. *)
Example shares_memory :
  order2offset (place_all [4; 8; 8] [(0, 3); (0, 1); (1, 3)] true 3) = [0; 4; 4] ∧
  buffer_size (place_all [4; 8; 8] [(0, 3); (0, 1); (1, 3)] true 3) = 12.
Proof. done. Qed.

(** ** Placing one register *)

Lemma StronglySorted_impl_in {A : Type} (R S : A → A → Prop) (l : list A) :
  (∀ a b, a ∈ l → b ∈ l → R a b → S a b) → StronglySorted R l → StronglySorted S l.
Proof.
  intros H. induction 1 as [|a l Hl IH Ha]; [constructor|]. constructor.
  - apply IH. intros. apply H; set_solver.
  - apply Forall_forall. intros b Hb. apply H; [set_solver..|]. by apply (proj1 (Forall_forall _ _) Ha).
Qed.

Lemma StronglySorted_rev {A : Type} (R : A → A → Prop) (l : list A) :
  StronglySorted R l → StronglySorted (λ a b, R b a) (rev l).
Proof.
  induction 1 as [|a l Hl IH Ha]; [constructor|]. simpl. apply StronglySorted_app_2; [|done|repeat constructor].
  intros x y Hx Hy. apply list_elem_of_singleton in Hy as ->. apply (proj1 (Forall_forall _ _) Ha).
  by rewrite <- Permutation_rev in Hx.
Qed.

Section Place.
Context (order2size : list Z) (order2lifetime : list lifetime).
#[local] Abbreviation size := (size_of order2size).
#[local] Abbreviation excl := (excluded order2lifetime).

(** Two registers do not overlap in memory. *)
Definition apart (offs : list Z) (a b : nat) : Prop :=
  offs !!! a + size a ≤ offs !!! b ∨ offs !!! b + size b ≤ offs !!! a.

(** Offsets never decrease along [sorted_registers]. *)
Definition offset_sorted (offs : list Z) (sorted : list nat) : Prop :=
  StronglySorted (λ a b, offs !!! a ≤ offs !!! b) sorted.

Record placed (offs : list Z) (sorted : list nat) (buffer : Z) : Prop := {
  pl_sizes : Forall (λ a, 0 ≤ size a) sorted;
  pl_in : Forall (λ a, (a < length offs)%nat) sorted;
  pl_nodup : NoDup sorted;
  pl_sorted : offset_sorted offs sorted;
  pl_block : Forall (λ a, 0 ≤ offs !!! a ∧ offs !!! a + size a ≤ buffer) sorted;
  pl_apart : ∀ a b, a ∈ sorted → b ∈ sorted → a ≠ b → excl a b = true → apart offs a b;
  pl_buffer : 1 ≤ buffer;
}.

(** [i] fits into the gap from [off] to [gap_end], which is [d] longer than [i]. *)
Definition gap_ok (offs : list Z) (sorted : list nat) (buffer : Z) (i : nat) (d off : Z) : Prop :=
  ∃ gap_end, d = gap_end - off - size i ∧ 0 ≤ off ≤ gap_end ∧ gap_end ≤ buffer ∧
    ∀ p, p ∈ sorted → excl i p = true → offs !!! p + size p ≤ off ∨ gap_end ≤ offs !!! p.

(** What the search for a gap knows after a prefix of the registers. *)
Definition searching (offs : list Z) (pre sorted : list nat) (buffer : Z) (i : nat) (st : gap_state) : Prop :=
  let '(head, d, off) := st in
  0 ≤ head ≤ buffer ∧
  (∀ p, p ∈ pre → excl i p = true → offs !!! p + size p ≤ head) ∧
  (d = -1 - size i ∨ gap_ok offs sorted buffer i d off).

Lemma SuitableThan_first (d n : Z) : 0 ≤ n → - n ≤ d ≤ kMaxInt64 → SuitableThan d (-1 - n) = true.
Proof.
  intros Hn Hd. unfold SuitableThan, kMaxInt64 in *. apply Z.ltb_lt.
  destruct (Z.leb_spec 0 d), (Z.leb_spec 0 (-1 - n)); lia.
Qed.

Section Search.
Context (offs : list Z) (sorted : list nat) (buffer : Z) (i : nat).
Context (Hp : placed offs sorted buffer) (Hi : 0 ≤ size i) (Hmax : buffer + size i < 2 ^ 63).

Lemma placed_bounds (a : nat) : a ∈ sorted → 0 ≤ size a ∧ 0 ≤ offs !!! a ∧ offs !!! a + size a ≤ buffer.
Proof.
  intros Ha. split; [exact (proj1 (Forall_forall _ _) (pl_sizes _ _ _ Hp) a Ha)|].
  exact (proj1 (Forall_forall _ _) (pl_block _ _ _ Hp) a Ha).
Qed.

Lemma end_exact (a : nat) : a ∈ sorted → end_of order2size offs a = offs !!! a + size a.
Proof.
  intros Ha. destruct (placed_bounds a Ha). unfold end_of. apply i64_small. unfold is_i64. lia.
Qed.

Lemma gap_step_searching (pre post : list nat) (curr : nat) (st : gap_state) :
  sorted = pre ++ curr :: post → searching offs pre sorted buffer i st →
  searching offs (pre ++ [curr]) sorted buffer i (gap_step order2size order2lifetime offs i st curr).
Proof.
  intros Hs. destruct st as [[head d] off]. intros (Hh & Hpre & Hd). unfold gap_step.
  assert (Hc : curr ∈ sorted) by (rewrite Hs; set_solver).
  destruct (placed_bounds curr Hc) as (Hsz & Hb1 & Hb2).
  destruct (excl i curr) eqn:Ex.
  2:{ split_and!; [lia|lia| |done]. intros p [Hq|Hq]%elem_of_app Hex; [by apply Hpre|].
      apply list_elem_of_singleton in Hq as ->. congruence. }
  rewrite end_exact by done.
  assert (Hprev : ∀ h, head ≤ h → offs !!! curr + size curr ≤ h →
    ∀ p, p ∈ pre ++ [curr] → excl i p = true → offs !!! p + size p ≤ h).
  { intros h H1 H2 p [Hq|Hq]%elem_of_app Hex; [specialize (Hpre p Hq Hex); lia|].
    by apply list_elem_of_singleton in Hq as ->. }
  destruct (Z.ltb_spec head (offs !!! curr)) as [Hlt|Hge].
  - rewrite (i64_small (offs !!! curr - head)), i64_small by (unfold is_i64; lia).
    assert (Hgap : gap_ok offs sorted buffer i (offs !!! curr - head - size i) head).
    { exists (offs !!! curr). split_and!; [lia..|]. intros p Hps Hex. rewrite Hs in Hps.
      apply elem_of_app in Hps as [Hps|Hps]; [left; by apply Hpre|right].
      pose proof (pl_sorted _ _ _ Hp) as Hsort. rewrite Hs in Hsort.
      apply elem_of_cons in Hps as [->|Hps]; [lia|].
      apply StronglySorted_app_1_r, StronglySorted_cons in Hsort as [Hall _]. by apply (proj1 (Forall_forall _ _) Hall). }
    unfold try_gap. destruct (SuitableThan _ d).
    + split_and!; [lia|lia| |by right]. apply Hprev; lia.
    + split_and!; [lia|lia| |done]. apply Hprev; lia.
  - split_and!; [lia|lia| |done]. apply Hprev; lia.
Qed.

Lemma search_gap (pre post : list nat) (st : gap_state) :
  sorted = pre ++ post → searching offs pre sorted buffer i st →
  searching offs sorted sorted buffer i (foldl (gap_step order2size order2lifetime offs i) st post).
Proof.
  revert pre st. induction post as [|c post IH]; intros pre st Hs Hst.
  { rewrite app_nil_r in Hs. by subst pre. }
  cbn [foldl]. apply (IH (pre ++ [c])); [by rewrite <- app_assoc|]. by eapply gap_step_searching.
Qed.

(** The gap that is chosen, the end of the block included. *)
Lemma chosen_gap (head d off : Z) : searching offs sorted sorted buffer i (head, d, off) →
  let '(_, d', off') := try_gap (i64 (u64 (u64 (buffer - head) - size i))) (head, d, off) in
  gap_ok offs sorted buffer i d' off'.
Proof.
  intros (Hh & Hall & Hd). pose proof (pl_buffer _ _ _ Hp) as Hb.
  assert (E : i64 (u64 (u64 (buffer - head) - size i)) = buffer - head - size i).
  { rewrite (u64_small (buffer - head)) by (unfold is_u64, u64_modulus; lia).
    rewrite i64_u64. apply i64_small. unfold is_i64. lia. }
  assert (Hlast : gap_ok offs sorted buffer i (buffer - head - size i) head).
  { exists buffer. split_and!; [lia..|]. intros p Hps Hex. left. by apply Hall. }
  rewrite E. unfold try_gap. destruct (SuitableThan _ d) eqn:Es; [done|]. destruct Hd as [->|Hd]; [|done].
  rewrite SuitableThan_first in Es; [done|done|unfold kMaxInt64; lia].
Qed.

(** What moving registers backward does. *)
Lemma move_back_spec (l : list nat) (gap_end d : Z) (o : list Z) :
  d < 0 → buffer - d < 2 ^ 63 → NoDup l → Forall (λ a, (a < length o)%nat) l →
  Forall (λ a, 0 ≤ o !!! a ≤ buffer) l → StronglySorted (λ a b, o !!! b ≤ o !!! a) l →
  let o' := move_back l gap_end d o in
  length o' = length o ∧
  ∀ a, o' !!! a = if bool_decide (a ∈ l) && (gap_end <=? o !!! a) then o !!! a - d else o !!! a.
Proof.
  intros Hd Hb. revert o. induction l as [|p l IH]; intros o Hnd Hlt Hbd Hs; cbv zeta; cbn [move_back].
  { split; [done|]. intros a. rewrite bool_decide_false by set_solver. done. }
  apply NoDup_cons in Hnd as [Hpl Hnd]. apply Forall_cons in Hlt as [Hlp Hlt].
  apply Forall_cons in Hbd as [Hbp Hbd]. apply StronglySorted_cons in Hs as [Hall Hs].
  destruct (Z.ltb_spec (o !!! p) gap_end) as [Hlow|Hhigh].
  { split; [done|]. intros a. case_bool_decide as Ha; [|done]. destruct (Z.leb_spec gap_end (o !!! a)); [|done].
    apply elem_of_cons in Ha as [->|Ha]; [lia|]. pose proof (proj1 (Forall_forall _ _) Hall a Ha). simpl in *. lia. }
  rewrite i64_small by (unfold is_i64; lia). set (o1 := <[p := o !!! p - d]> o).
  assert (Hsame : ∀ a, a ≠ p → o1 !!! a = o !!! a) by (intros; by apply list_lookup_total_insert_ne).
  assert (Hat : o1 !!! p = o !!! p - d) by (by apply list_lookup_total_insert_eq).
  assert (Hl1 : ∀ P : Z → Prop, Forall (λ a, P (o !!! a)) l → Forall (λ a, P (o1 !!! a)) l).
  { intros P HP. apply Forall_forall. intros a Ha. rewrite Hsame by (by intros ->).
    by apply (proj1 (Forall_forall _ _) HP). }
  destruct (IH o1) as [L1 L2].
  - done.
  - subst o1. by rewrite length_insert.
  - by apply (Hl1 (λ z, 0 ≤ z ≤ buffer)).
  - eapply StronglySorted_impl_in; [|exact Hs]. intros a b Ha Hb' Hab. by rewrite !Hsame by (by intros ->).
  - split; [subst o1; by rewrite L1, length_insert|]. intros a. rewrite L2.
    destruct (decide (a = p)) as [->|Hne].
    + rewrite Hat, (bool_decide_false (p ∈ l)) by done. rewrite bool_decide_true by set_solver. simpl.
      by rewrite (proj2 (Z.leb_le _ _)).
    + rewrite !Hsame by done. rewrite (bool_decide_ext (a ∈ p :: l) (a ∈ l)); [done|]. set_solver.
Qed.

(** What an insertion delivers: the others stay placed, [i] fits. *)
Definition inserted (r : Z * list Z * Z) : Prop :=
  let '(off, offs', buffer') := r in
  placed offs' sorted buffer' ∧ length offs' = length offs ∧ buffer ≤ buffer' ≤ buffer + size i ∧
  0 ≤ off ∧ off + size i ≤ buffer' ∧
  ∀ p, p ∈ sorted → excl i p = true → off + size i ≤ offs' !!! p ∨ offs' !!! p + size p ≤ off.

(** Moving everything from [gap_end] on keeps the placement. *)
Lemma moved_placed (offs' : list Z) (gap_end d : Z) : d < 0 → length offs' = length offs →
  (∀ a, a ∈ sorted → offs' !!! a = if gap_end <=? offs !!! a then offs !!! a - d else offs !!! a) →
  placed offs' sorted (buffer - d).
Proof.
  intros Hd Hl Ho. destruct Hp as [P1 P2 P3 P4 P5 P6 P7]. split; [done|by rewrite Hl|done| | | |lia].
  - eapply StronglySorted_impl_in; [|exact P4]. intros a b Ha Hb Hab. simpl in Hab. rewrite !Ho by done.
    destruct (Z.leb_spec gap_end (offs !!! a)), (Z.leb_spec gap_end (offs !!! b)); lia.
  - apply Forall_forall. intros a Ha. rewrite Ho by done.
    pose proof (proj1 (Forall_forall _ _) P5 a Ha). simpl in *. destruct (gap_end <=? offs !!! a); lia.
  - intros a b Ha Hb Hne Hex. unfold apart. rewrite !Ho by done.
    pose proof (proj1 (Forall_forall _ _) P1 a Ha). pose proof (proj1 (Forall_forall _ _) P1 b Hb). simpl in *.
    destruct (P6 a b Ha Hb Hne Hex); [left|right];
      destruct (Z.leb_spec gap_end (offs !!! a)), (Z.leb_spec gap_end (offs !!! b)); lia.
Qed.

Lemma insert_compact_spec :
  inserted (insert_compact order2size order2lifetime (mkPlacement offs sorted buffer) i).
Proof.
  unfold insert_compact. cbn [order2offset sorted_registers MemReuse.buffer_size].
  pose proof (pl_buffer _ _ _ Hp) as Hb1.
  pose proof (search_gap [] sorted (0, - 1 - size i, 0) eq_refl) as Hs.
  destruct (foldl _ _ sorted) as [[head d] off].
  assert (Hst : searching offs sorted sorted buffer i (head, d, off)).
  { apply Hs. split_and!; [lia|lia| |by left]. intros p Hp'. by apply elem_of_nil in Hp'. }
  pose proof (chosen_gap head d off Hst) as Hg. clear Hs Hst.
  destruct (try_gap _ _) as [[h' d'] off']. destruct Hg as (gap_end & Hd & Ho & Hge & Hall).
  destruct (Z.ltb_spec d' 0) as [Hneg|Hpos].
  - rewrite (i64_small (d' + size i)), i64_small by (unfold is_i64; lia).
    replace (d' + size i + off') with gap_end by lia.
    destruct (move_back_spec (rev sorted) gap_end d' offs) as [L1 L2]; [done|lia| | | | |].
    { rewrite <- Permutation_rev. apply (pl_nodup _ _ _ Hp). }
    { apply List.Forall_rev, (pl_in _ _ _ Hp). }
    { rewrite <- Permutation_rev. apply Forall_forall. intros a Ha. destruct (placed_bounds a Ha). lia. }
    { by apply StronglySorted_rev, (pl_sorted _ _ _ Hp). }
    set (offs' := move_back _ _ _ _) in *.
    assert (Ho' : ∀ a, a ∈ sorted → offs' !!! a = if gap_end <=? offs !!! a then offs !!! a - d' else offs !!! a).
    { intros a Ha. rewrite L2. rewrite bool_decide_true; [done|]. by rewrite <- Permutation_rev. }
    rewrite u64_small by (unfold is_u64, u64_modulus; lia).
    split_and!; [by eapply moved_placed|done|lia..|].
    intros p Hps Hex. rewrite Ho' by done. destruct (Hall p Hps Hex).
    + destruct (Z.leb_spec gap_end (offs !!! p)); lia.
    + rewrite (proj2 (Z.leb_le _ _)) by done. lia.
  - split_and!; [done|done|lia..|]. intros p Hps Hex. destruct (Hall p Hps Hex); lia.
Qed.

(** First fit: [off] is behind every excluded register seen so far. *)
Lemma first_fit_spec (pre post : list nat) (off : Z) :
  sorted = pre ++ post → 0 ≤ off ≤ buffer →
  (∀ p, p ∈ pre → excl i p = true → off + size i ≤ offs !!! p ∨ offs !!! p + size p ≤ off) →
  let '(off', fin) := first_fit order2size order2lifetime offs i post off (off + size i) in
  fin = off' + size i ∧ 0 ≤ off' ≤ buffer ∧
  ∀ p, p ∈ sorted → excl i p = true → off' + size i ≤ offs !!! p ∨ offs !!! p + size p ≤ off'.
Proof.
  revert pre off. induction post as [|c post IH]; intros pre off Hs Ho Hpre; cbn [first_fit].
  { split_and!; [done|lia|lia|]. intros p Hps. apply Hpre. rewrite Hs, app_nil_r in Hps. done. }
  assert (Hc : c ∈ sorted) by (rewrite Hs; set_solver). destruct (placed_bounds c Hc) as (Z1 & Z2 & Z3).
  rewrite end_exact by done.
  destruct (Z.leb_spec (off + size i) (offs !!! c)) as [Hle|Hgt].
  { split_and!; [done|lia|lia|]. intros p Hps Hex. rewrite Hs in Hps.
    apply elem_of_app in Hps as [Hps|Hps]; [by apply Hpre|left].
    pose proof (pl_sorted _ _ _ Hp) as Hsort. rewrite Hs in Hsort.
    apply elem_of_cons in Hps as [->|Hps]; [lia|].
    apply StronglySorted_app_1_r, StronglySorted_cons in Hsort as [Hall _].
    pose proof (proj1 (Forall_forall _ _) Hall p Hps). simpl in *. lia. }
  assert (Hs' : sorted = (pre ++ [c]) ++ post) by (by rewrite <- app_assoc).
  destruct (excl i c) eqn:Ex; cbn [andb]; [destruct (Z.ltb_spec off (offs !!! c + size c)) as [Hlt|Hge]|].
  - rewrite i64_small by (unfold is_i64; lia). apply (IH (pre ++ [c])); [done|lia|].
    intros p [Hq|Hq]%elem_of_app Hex; [|apply list_elem_of_singleton in Hq as ->; lia].
    right. destruct (Hpre p Hq Hex); [|lia].
    pose proof (pl_sorted _ _ _ Hp) as Hsort. rewrite Hs in Hsort.
    pose proof (StronglySorted_app_1_elem_of _ _ _ p c Hsort Hq ltac:(set_solver)). simpl in *. lia.
  - apply (IH (pre ++ [c])); [done|lia|].
    intros p [Hq|Hq]%elem_of_app Hex; [by apply Hpre|]. apply list_elem_of_singleton in Hq as ->. lia.
  - apply (IH (pre ++ [c])); [done|lia|].
    intros p [Hq|Hq]%elem_of_app Hex; [by apply Hpre|]. apply list_elem_of_singleton in Hq as ->. congruence.
Qed.

Lemma insert_first_fit_spec :
  inserted (insert_first_fit order2size order2lifetime (mkPlacement offs sorted buffer) i).
Proof.
  unfold insert_first_fit. cbn [order2offset sorted_registers MemReuse.buffer_size].
  pose proof (pl_buffer _ _ _ Hp) as Hb1. rewrite i64_small by (unfold is_i64; lia).
  pose proof (first_fit_spec [] sorted 0 eq_refl ltac:(lia)) as Hs.
  destruct (first_fit _ _ _ _ _ _ _) as [off fin].
  destruct Hs as (-> & Ho & Hall); [intros p Hp'; by apply elem_of_nil in Hp'|].
  rewrite u64_small by (unfold is_u64, u64_modulus; lia).
  assert (Hgrow : ∀ b, buffer ≤ b → placed offs sorted b).
  { intros b Hb. destruct Hp as [P1 P2 P3 P4 P5 P6 P7]. split; try done; [|lia].
    eapply Forall_impl; [exact P5|]. simpl. lia. }
  destruct (Z.ltb_spec buffer (off + size i)); (split_and!; [apply Hgrow; lia|done|lia..|done]).
Qed.

Lemma insert_spec (compact : bool) :
  inserted (if compact then insert_compact order2size order2lifetime (mkPlacement offs sorted buffer) i
            else insert_first_fit order2size order2lifetime (mkPlacement offs sorted buffer) i).
Proof. destruct compact; [apply insert_compact_spec|apply insert_first_fit_spec]. Qed.
End Search.

(** *** The set of placed registers *)

Lemma offset_before_total (offs : list Z) (a b : nat) : a ≠ b →
  offset_before offs a b = false → offset_before offs b a = true ∧ offs !!! b ≤ offs !!! a.
Proof.
  intros Hne. unfold offset_before. rewrite (Z.eqb_sym (offs !!! b)).
  destruct (Z.eqb_spec (offs !!! a) (offs !!! b)) as [E|E].
  - intros H%Nat.ltb_ge. split; [apply Nat.ltb_lt; lia|lia].
  - intros H%Z.ltb_ge. split; [apply Z.ltb_lt; lia|lia].
Qed.

Lemma offset_before_le (offs : list Z) (a b : nat) : offset_before offs a b = true → offs !!! a ≤ offs !!! b.
Proof.
  unfold offset_before. destruct (Z.eqb_spec (offs !!! a) (offs !!! b)); [lia|]. intros H%Z.ltb_lt. lia.
Qed.

Lemma sorted_insert_spec (offs : list Z) (x : nat) (l : list nat) : x ∉ l → offset_sorted offs l →
  set_insert (offset_before offs) x l ≡ₚ x :: l ∧ offset_sorted offs (set_insert (offset_before offs) x l).
Proof.
  intros Hx Hs. induction Hs as [|y l Hl IH Hy]; [by repeat constructor|]. cbn [set_insert].
  apply not_elem_of_cons in Hx as [Hne Hx]. destruct (IH Hx) as [Hperm Hsort].
  destruct (offset_before offs x y) eqn:E.
  - apply offset_before_le in E. split; [done|]. constructor; [by constructor|].
    apply Forall_cons. split; [done|]. eapply Forall_impl; [exact Hy|]. simpl. lia.
  - apply offset_before_total in E as [-> Hle]; [|done]. split.
    + rewrite Hperm. apply Permutation_swap.
    + constructor; [done|]. rewrite Hperm. by apply Forall_cons.
Qed.

Lemma excluded_sym (a b : nat) : excl a b = excl b a.
Proof. unfold excluded, IsLifetimeExcluded. apply andb_comm. Qed.

Lemma place_spec (compact : bool) (offs : list Z) (sorted : list nat) (buffer : Z) (i : nat) :
  placed offs sorted buffer → 0 ≤ size i → buffer + size i < 2 ^ 63 → (i < length offs)%nat → i ∉ sorted →
  let st := place order2size order2lifetime compact (mkPlacement offs sorted buffer) i in
  placed (order2offset st) (sorted_registers st) (buffer_size st) ∧
  length (order2offset st) = length offs ∧ sorted_registers st ≡ₚ i :: sorted ∧
  buffer_size st ≤ buffer + size i.
Proof.
  intros Hp Hi Hmax Hlt Hni. cbv zeta. unfold place. pose proof (insert_spec offs sorted buffer i Hp Hi Hmax compact) as Hin.
  destruct (if compact then _ else _) as [[off offs1] b1]. destruct Hin as (Hp1 & Hl1 & Hb & H0 & H1 & Hex).
  cbn [sorted_registers order2offset buffer_size]. set (offs2 := <[i := off]> offs1).
  assert (Hold : ∀ a, a ∈ sorted → offs2 !!! a = offs1 !!! a).
  { intros a Ha. apply list_lookup_total_insert_ne. by intros <-. }
  assert (Hnew : offs2 !!! i = off) by (apply list_lookup_total_insert_eq; lia).
  destruct Hp1 as [P1 P2 P3 P4 P5 P6 P7].
  destruct (sorted_insert_spec offs2 i sorted Hni) as [Hperm Hsort].
  { eapply StronglySorted_impl_in; [|exact P4]. intros a b Ha Hb'. by rewrite !Hold. }
  assert (Hlen : length offs2 = length offs) by (subst offs2; rewrite length_insert; done).
  split_and!; [|done|done|lia]. split.
  - rewrite Hperm. by apply Forall_cons.
  - rewrite Hperm, Hlen, <- Hl1. apply Forall_cons. split; [lia|done].
  - rewrite Hperm. by apply NoDup_cons.
  - done.
  - rewrite Hperm. apply Forall_cons. rewrite Hnew. split; [lia|].
    apply Forall_forall. intros a Ha. rewrite Hold by done. by apply (proj1 (Forall_forall _ _) P5).
  - intros a b. rewrite Hperm, !elem_of_cons. unfold apart.
    intros [->|Ha] [->|Hb'] Hne Hx; [done| | |].
    + rewrite Hnew, Hold by done. by apply Hex.
    + rewrite Hnew, Hold by done. rewrite excluded_sym in Hx. destruct (Hex a Ha Hx); [by right|by left].
    + rewrite !Hold by done. by apply P6.
  - done.
Qed.

(** All registers. *)
Lemma place_loop (compact : bool) (ids : list nat) (offs : list Z) (sorted : list nat) (buffer : Z) :
  placed offs sorted buffer → NoDup ids → Forall (λ i, 0 ≤ size i ∧ (i < length offs)%nat ∧ i ∉ sorted) ids →
  buffer + sumZ (map size ids) < 2 ^ 63 →
  let st := foldl (place order2size order2lifetime compact) (mkPlacement offs sorted buffer) ids in
  placed (order2offset st) (sorted_registers st) (buffer_size st) ∧
  length (order2offset st) = length offs ∧ sorted_registers st ≡ₚ ids ++ sorted ∧
  buffer_size st ≤ buffer + sumZ (map size ids).
Proof.
  revert offs sorted buffer. induction ids as [|i ids IH]; intros offs sorted buffer Hp Hnd Hall Hmax; cbv zeta.
  { cbn [foldl order2offset sorted_registers buffer_size map]. rewrite sumZ_nil. split_and!; [done..|lia]. }
  apply NoDup_cons in Hnd as [Hni Hnd]. apply Forall_cons in Hall as [(H0 & Hlt & Hs) Hall].
  cbn [map foldl] in *. rewrite sumZ_cons in *.
  assert (Hpos : 0 ≤ sumZ (map size ids)).
  { clear -Hall. induction Hall as [|j l (Hj & _) _ IHl]; [done|]. cbn [map]. rewrite sumZ_cons. lia. }
  destruct (place_spec compact offs sorted buffer i Hp H0 ltac:(lia) Hlt Hs) as (Q1 & Q2 & Q3 & Q4).
  destruct (place _ _ _ _ i) as [offs1 sorted1 buffer1]. cbn [order2offset sorted_registers buffer_size] in *.
  destruct (IH offs1 sorted1 buffer1 Q1 Hnd) as (R1 & R2 & R3 & R4).
  - rewrite Forall_forall in Hall |- *. intros j Hj. destruct (Hall j Hj) as (J1 & J2 & J3).
    rewrite Q2, Q3, not_elem_of_cons. split_and!; [done|done| |done]. by intros ->.
  - lia.
  - split_and!; [done|congruence| |lia]. rewrite R3, Q3. symmetry. apply Permutation_middle.
Qed.

Lemma place_all_spec (compact : bool) (n : nat) :
  length order2size = n → Forall (λ s, 0 ≤ s) order2size → 1 + sumZ order2size < 2 ^ 63 →
  let st := place_all order2size order2lifetime compact n in
  placed (order2offset st) (sorted_registers st) (buffer_size st) ∧
  length (order2offset st) = n ∧ sorted_registers st ≡ₚ seq 0 n ∧ buffer_size st ≤ 1 + sumZ order2size.
Proof.
  intros Hn Hpos Hmax. unfold place_all.
  assert (Hsum : map size (seq 0 n) = order2size).
  { apply list_eq. intros k. rewrite list_lookup_fmap. destruct (decide (k < n)%nat) as [Hk|Hk].
    - rewrite lookup_seq_lt by done. cbn. destruct (lookup_lt_is_Some_2 order2size k) as [x Hx]; [lia|].
      unfold size_of. rewrite Hx. f_equal. by apply list_lookup_total_correct.
    - rewrite lookup_seq_ge by lia. rewrite lookup_ge_None_2 by lia. done. }
  destruct (place_loop compact (seq 0 n) (replicate n 0) [] 1) as (R1 & R2 & R3 & R4).
  - split; [by constructor|by constructor|apply NoDup_nil_2|constructor|by constructor| |lia].
    intros a b Ha. by apply elem_of_nil in Ha.
  - apply NoDup_seq.
  - apply Forall_forall. intros i Hi%elem_of_seq. rewrite length_replicate. split_and!; [|lia|by apply not_elem_of_nil].
    unfold size_of. destruct (lookup_lt_is_Some_2 order2size i) as [x Hx]; [lia|].
    rewrite (list_lookup_total_correct _ _ _ Hx). by apply (Forall_lookup_1 _ _ _ _ Hpos Hx).
  - by rewrite Hsum.
  - rewrite length_replicate in R2. rewrite app_nil_r in R3. rewrite Hsum in R4. done.
Qed.
End Place.

(** ** The result *)

Lemma foldl_insert_lookup {A : Type} (ks : list nat) (vs : list A) (m : gmap nat A) :
  NoDup ks → length vs = length ks →
  let m' := foldl (λ m p, <[p.1 := p.2]> m) m (zip ks vs) in
  (∀ i k v, ks !! i = Some k → vs !! i = Some v → m' !! k = Some v) ∧
  (∀ k, k ∉ ks → m' !! k = m !! k).
Proof.
  revert vs m. induction ks as [|k ks IH]; intros [|v vs] m Hnd Hl; cbv zeta; try done.
  apply NoDup_cons in Hnd as [Hk Hnd]. cbn [zip_with foldl fst snd].
  destruct (IH vs (<[k := v]> m) Hnd ltac:(simpl in Hl; lia)) as [I1 I2]. split.
  - intros [|i] k' v' Hk' Hv'; simplify_eq/=; [|by eapply I1]. rewrite I2 by done. apply lookup_insert_eq.
  - intros k' Hk'. apply not_elem_of_cons in Hk' as [Hne Hk']. rewrite I2 by done. by apply lookup_insert_ne.
Qed.

(** A block whose registers lie inside it and do not overlap while both are alive. *)
Record block_ok (regst2lifetime : gmap nat lifetime) (regst2size : gmap nat Z) (res : MemBlockResultInfo) : Prop := {
  bo_dom : dom (regst_desc2offset res) = dom regst2lifetime;
  bo_in : ∀ r off, regst_desc2offset res !! r = Some off →
    0 ≤ off ∧ off + bytes regst2size r ≤ mem_block_size res;
  bo_apart : ∀ r1 r2 off1 off2, r1 ≠ r2 →
    regst_desc2offset res !! r1 = Some off1 → regst_desc2offset res !! r2 = Some off2 →
    IsLifetimeExcluded (life regst2lifetime r1) (life regst2lifetime r2) = true →
    off1 + bytes regst2size r1 ≤ off2 ∨ off2 + bytes regst2size r2 ≤ off1;
}.

(** What the callers provide: a size for every register, and sizes whose sum is an
    [int64_t]. *)
Record sizes_ok (regst2lifetime : gmap nat lifetime) (regst2size : gmap nat Z) : Prop := {
  so_sizes : ∀ r l, regst2lifetime !! r = Some l → ∃ s, regst2size !! r = Some s ∧ 0 ≤ s;
  so_total : 1 + sumZ (map (bytes regst2size) (map_to_list regst2lifetime).*1) < 2 ^ 63;
}.

Section Result.
Context (regst2lifetime : gmap nat lifetime) (regst2size : gmap nat Z).
Context (Hsz : sizes_ok regst2lifetime regst2size).
#[local] Abbreviation bytes_ := (bytes regst2size).
#[local] Abbreviation life_ := (life regst2lifetime).

Lemma keys_lookup (r : nat) : r ∈ (map_to_list regst2lifetime).*1 ↔ ∃ l, regst2lifetime !! r = Some l.
Proof.
  rewrite list_elem_of_fmap. split.
  - intros ([r' l] & -> & H%elem_of_map_to_list). by exists l.
  - intros [l H]. exists (r, l). split; [done|]. by apply elem_of_map_to_list.
Qed.

Context (order : list nat) (Ho : order ≡ₚ (map_to_list regst2lifetime).*1).

Lemma order_in (r : nat) : r ∈ order → regst2lifetime !! r = Some (life_ r) ∧ regst2size !! r = Some (bytes_ r) ∧
  0 ≤ bytes_ r ∧ 1 + bytes_ r < 2 ^ 63.
Proof.
  intros Hr. pose proof Hr as [l Hl]%(elem_of_Permutation_proper _ _ _ Ho)%keys_lookup.
  destruct (so_sizes _ _ Hsz r l Hl) as (s & Hs & Hpos).
  assert (Eb : bytes_ r = s) by (unfold bytes; by rewrite Hs). rewrite Eb, Hs, Hl.
  split_and!; [unfold life; by simplify_option_eq|done|done|].
  pose proof (so_total _ _ Hsz) as Htot.
  rewrite Ho in Hr. apply list_elem_of_split in Hr as (l1 & l2 & E). rewrite E, map_app, sumZ_app in Htot.
  cbn [map] in Htot. rewrite sumZ_cons, Eb in Htot.
  assert (Hnn : ∀ k, (∀ x, x ∈ k → x ∈ (map_to_list regst2lifetime).*1) → 0 ≤ sumZ (map bytes_ k)).
  { induction k as [|x k IH]; intros Hk; [done|]. cbn [map]. rewrite sumZ_cons.
    assert (0 ≤ bytes_ x).
    { destruct (proj1 (keys_lookup x)) as [lx Hx]; [apply Hk; set_solver|].
      destruct (so_sizes _ _ Hsz x lx Hx) as (sx & Hsx & ?). unfold bytes. by rewrite Hsx. }
    specialize (IH ltac:(set_solver)). lia. }
  pose proof (Hnn l1 ltac:(rewrite E; set_solver)). pose proof (Hnn l2 ltac:(rewrite E; set_solver)).
  lia.
Qed.

Lemma AllocateByOrder_spec (compact : bool) (size0 : Z) :
  ∃ res, MemReusedAlgorithmAllocateByOrder compact order regst2size regst2lifetime (mkResult size0 ∅) = Ret res ∧
    block_ok regst2lifetime regst2size res ∧
    1 ≤ mem_block_size res ≤ 1 + sumZ (map bytes_ (map_to_list regst2lifetime).*1).
Proof.
  assert (Hnd : NoDup order) by (rewrite Ho; apply NoDup_fst_map_to_list).
  unfold MemReusedAlgorithmAllocateByOrder.
  assert (E1 : omap_list (λ r, let* s := map_at regst2size r in Ret (i64 s)) order = Ret (map bytes_ order)).
  { apply omap_list_Ret, Forall_forall. intros r Hr. destruct (order_in r Hr) as (_ & Hs & ? & ?).
    unfold map_at. rewrite Hs. cbn [obind]. by rewrite i64_small by (unfold is_i64; lia). }
  assert (E2 : omap_list (map_at regst2lifetime) order = Ret (map life_ order)).
  { apply omap_list_Ret, Forall_forall. intros r Hr. destruct (order_in r Hr) as (Hl & _).
    unfold map_at. by rewrite Hl. }
  rewrite E1, E2. cbn [obind]. eexists. split; [done|].
  destruct (place_all_spec (map bytes_ order) (map life_ order) compact (length order)) as (Q1 & Q2 & Q3 & Q4).
  { by rewrite length_map. }
  { apply Forall_map, Forall_forall. intros r Hr. by destruct (order_in r Hr) as (_ & _ & ? & _). }
  { rewrite (sumZ_perm _ _ (Permutation_map bytes_ Ho)). apply (so_total _ _ Hsz). }
  set (st := place_all _ _ _ _) in *. clearbody st. cbn [mem_block_size regst_desc2offset].
  destruct (foldl_insert_lookup order (order2offset st) ∅ Hnd Q2) as [L1 L2]. cbv zeta in L1, L2.
  set (m := foldl _ _ _) in *. clearbody m.
  assert (Hat : ∀ r off, m !! r = Some off → ∃ i, order !! i = Some r ∧ order2offset st !! i = Some off ∧
    i ∈ sorted_registers st ∧ size_of (map bytes_ order) i = bytes_ r ∧ map life_ order !!! i = life_ r ∧
    order2offset st !!! i = off).
  { intros r off Hr. destruct (decide (r ∈ order)) as [Hin|Hin]; [|by rewrite L2, lookup_empty in Hr].
    apply list_elem_of_lookup in Hin as [i Hi]. exists i. pose proof (lookup_lt_Some _ _ _ Hi) as Hlt.
    destruct (lookup_lt_is_Some_2 (order2offset st) i) as [o Hoff]; [lia|].
    pose proof (L1 i r o Hi Hoff) as Hm. rewrite Hr in Hm. injection Hm as <-.
    split_and!; [done|done| | | |].
    - rewrite Q3. apply elem_of_seq. lia.
    - unfold size_of. apply list_lookup_total_correct. by rewrite list_lookup_fmap, Hi.
    - apply list_lookup_total_correct. by rewrite list_lookup_fmap, Hi.
    - by apply list_lookup_total_correct. }
  split; [split|].
  - apply set_eq. intros r. rewrite !elem_of_dom. split.
    + intros [off Hr]. destruct (Hat r off Hr) as (i & Hi & _). apply list_elem_of_lookup_2 in Hi.
      exists (life_ r). by apply order_in.
    + intros [l Hl]. assert (Hin : r ∈ order) by (rewrite Ho; apply keys_lookup; by exists l).
      apply list_elem_of_lookup in Hin as [i Hi]. pose proof (lookup_lt_Some _ _ _ Hi) as Hlt.
      destruct (lookup_lt_is_Some_2 (order2offset st) i) as [o Hoff]; [lia|]. exists o. by eapply L1.
  - cbn [regst_desc2offset mem_block_size]. intros r off Hr. destruct (Hat r off Hr) as (i & _ & _ & Hs & <- & _ & <-).
    by apply (placed_bounds (map bytes_ order) (map life_ order) _ _ _ Q1).
  - cbn [regst_desc2offset]. intros r1 r2 o1 o2 Hne H1 H2 Hex.
    destruct (Hat r1 o1 H1) as (i & Hi & _ & Hs1 & <- & El1 & <-).
    destruct (Hat r2 o2 H2) as (j & Hj & _ & Hs2 & <- & El2 & <-).
    apply (pl_apart _ _ _ _ _ Q1 i j Hs1 Hs2); [by intros ->; simplify_eq|].
    unfold excluded. by rewrite El1, El2.
  - cbn [mem_block_size]. split; [apply (pl_buffer _ _ _ _ _ Q1)|].
    by rewrite <- (sumZ_perm _ _ (Permutation_map bytes_ Ho)).
Qed.
End Result.

Lemma select_ok (regst2lifetime : gmap nat lifetime) (regst2size : gmap nat Z)
    (sorted : MemAllocAlgoType → list nat) (algo_id : MemAllocAlgoType) (compact_insert : bool) :
  sizes_ok regst2lifetime regst2size → regst2lifetime ≠ ∅ →
  sort_result regst2lifetime regst2size algo_id (sorted algo_id) →
  ∃ res, SelectAlgorithmGenMemBlockOffset4Regsts regst2lifetime regst2size sorted algo_id compact_insert
           (mkResult 0 ∅) = Ret res ∧
    block_ok regst2lifetime regst2size res ∧
    1 ≤ mem_block_size res ≤ 1 + sumZ (map (bytes regst2size) (map_to_list regst2lifetime).*1).
Proof.
  intros Hsz Hne [Ho _]. destruct (AllocateByOrder_spec _ _ Hsz _ Ho compact_insert 0) as (res & E & Hok & Hb).
  exists res. split; [|done]. unfold SelectAlgorithmGenMemBlockOffset4Regsts.
  cbn [mem_block_size regst_desc2offset Z.eqb CHECK obind].
  rewrite (bool_decide_true (∅ = ∅)), E by done. cbn [CHECK obind].
  rewrite (proj2 (Z.ltb_lt _ _)) by lia. cbn [CHECK obind].
  rewrite bool_decide_false; [done|]. intros Em. apply Hne. apply (dom_empty_iff_L (D := gset nat)).
  rewrite <- (bo_dom _ _ _ Hok), Em. apply dom_empty_L.
Qed.

(** C24 Sharing a block is safe: whichever of the four orders is used, with compact
    insertion or without, and however equal registers are sorted, the allocation
    returns; every register gets an offset with which it lies inside the block, two
    registers that are alive at the same time never overlap, and the block is no
    larger than all the registers side by side. *)
Theorem shared_block_disjoint (regst2lifetime : gmap nat lifetime) (regst2size : gmap nat Z)
    (sorted : MemAllocAlgoType → list nat) (algo_id : MemAllocAlgoType) (compact_insert : bool) :
  sizes_ok regst2lifetime regst2size → regst2lifetime ≠ ∅ →
  sort_result regst2lifetime regst2size algo_id (sorted algo_id) →
  ∃ res, SelectAlgorithmGenMemBlockOffset4Regsts regst2lifetime regst2size sorted algo_id compact_insert
           (mkResult 0 ∅) = Ret res ∧
    block_ok regst2lifetime regst2size res ∧
    1 ≤ mem_block_size res ≤ 1 + sumZ (map (bytes regst2size) (map_to_list regst2lifetime).*1).
Proof. intros Hsz Hne Ho. by apply select_ok. Qed.

Lemma shared_block_disjoint_witness :
  ∃ res, SelectAlgorithmGenMemBlockOffset4Regsts {[1%nat := (0, 3); 2%nat := (0, 1); 3%nat := (1, 3)]}
           {[1%nat := 4; 2%nat := 8; 3%nat := 8]} (λ _, [2%nat; 3%nat; 1%nat]) kMemSizeFirstAlgo true
           (mkResult 0 ∅) = Ret res ∧ mem_block_size res ≤ 21.
Proof.
  destruct (shared_block_disjoint {[1%nat := (0, 3); 2%nat := (0, 1); 3%nat := (1, 3)]}
    {[1%nat := 4; 2%nat := 8; 3%nat := 8]} (λ _, [2%nat; 3%nat; 1%nat]) kMemSizeFirstAlgo true)
    as (res & E & _ & Hb).
  - split; [|done]. intros r l Hr.
    apply lookup_insert_Some in Hr as [[<- _]|[_ Hr]]; [by exists 4|].
    apply lookup_insert_Some in Hr as [[<- _]|[_ Hr]]; [by exists 8|].
    apply lookup_singleton_Some in Hr as [<- _]. by exists 8.
  - intros H%(f_equal (λ m, m !! 1%nat)). done.
  - split; [|by repeat constructor].
    apply reflexive_eq. vm_compute. reflexivity.
  - exists res. split; [exact E|]. vm_compute in Hb. destruct Hb as [_ Hb]. exact Hb.
Defined.
