(* ===== verification/MemLifetime.v ===== *)
(** * Lifetimes of the registers of a memory chain

    Models [GenRegstAllocFreeTimeLineAndRegstLifetimes] of
    [oneflow/core/job/intra_job_mem_sharing_util.cpp].  The tasks of a memory chain
    run in a fixed order; a register is born at the task that produces it and dies
    after the last task that consumes it, or after the last task of the chain if a
    consumer is elsewhere.  A register that is computed in place shares the memory
    of the register its chain of hints leads to, whose life it prolongs.

    [RegstDescProto*] pointers are numbers, the messages they point to are in a map.
    The loops over hash maps accumulate a maximum or fill a list whose order does not
    matter; they run in the order of [map_to_list]. *)
From S2P Require Import Prelude MemReuse.

(** ** Register descriptions *)

(** The fields of [RegstDescProto] that memory sharing reads and writes; [-1] in
    [mem_block_id] and [mem_block_offset] is "not set". *)
Record RegstDescProto := mkRegstDescProto {
  regst_desc_id : Z;
  producer_task_id : Z;
  consumer_task_id : list Z;
  register_num : Z;
  hint_inplace_consumed_regst_desc_id : option Z;
  inplace_consumed_regst_desc_id : option Z;
  mem_block_id : Z;
  mem_block_offset : Z;
  mem_block_total_actor_count : Z;
  alloc_before_actor : Z;
  free_after_actor : Z;
}.

Abbreviation protos := (gmap nat RegstDescProto).

Definition set_alloc_before_actor (total i : Z) (p : RegstDescProto) : RegstDescProto :=
  mkRegstDescProto (regst_desc_id p) (producer_task_id p) (consumer_task_id p) (register_num p)
    (hint_inplace_consumed_regst_desc_id p) (inplace_consumed_regst_desc_id p)
    (mem_block_id p) (mem_block_offset p) total i (free_after_actor p).

Definition set_free_after_actor (i : Z) (p : RegstDescProto) : RegstDescProto :=
  mkRegstDescProto (regst_desc_id p) (producer_task_id p) (consumer_task_id p) (register_num p)
    (hint_inplace_consumed_regst_desc_id p) (inplace_consumed_regst_desc_id p)
    (mem_block_id p) (mem_block_offset p) (mem_block_total_actor_count p) (alloc_before_actor p) i.

(** ** Lambdas *)

(** [task_id2sorted_id]. *)
Definition index_task (m : gmap Z Z) (p : nat * Z) : outcome (gmap Z Z) :=
  let* _ := CHECK (bool_decide (m !! p.2 = None)) in
  Ret (<[p.2 := Z.of_nat p.1]> m).

Definition index_tasks (sorted_tasks : list Z) : outcome (gmap Z Z) :=
  ofold index_task (zip (seq 0 (length sorted_tasks)) sorted_tasks) ∅.

Definition zmap_at {A : Type} (m : gmap Z A) (k : Z) : outcome A :=
  match m !! k with Some x => Ret x | None => Crash end.

Definition FindLastFreeIndexInSortedTasks (n : nat) (task_id2sorted_id : gmap Z Z) (p : RegstDescProto)
    : outcome Z :=
  let* free_index := zmap_at task_id2sorted_id (producer_task_id p) in
  Ret (foldl (λ free_index c, Z.max free_index (default (Z.of_nat n - 1) (task_id2sorted_id !! c)))
         free_index (consumer_task_id p)).

(** Follows the hints while they lead to a reusable register.  Each step goes to
    the register of an earlier task, so the number of tasks bounds the walk; a cycle
    of hints would not return. *)
Fixpoint TryFindFirstInplacedRegstDesc (fuel : nat) (ps : protos) (regst_desc_id2reuse_regst_desc : gmap Z nat)
    (consumer_regst : nat) (inplaced_regst : option nat) : outcome (option nat) :=
  match fuel with
  | O => Crash
  | S fuel =>
      let* p := map_at ps consumer_regst in
      match hint_inplace_consumed_regst_desc_id p with
      | Some hint =>
          if hint =? -1 then Ret inplaced_regst
          else match regst_desc_id2reuse_regst_desc !! hint with
               | Some r => TryFindFirstInplacedRegstDesc fuel ps regst_desc_id2reuse_regst_desc r (Some r)
               | None => Ret inplaced_regst
               end
      | None => Ret inplaced_regst
      end
  end.

(** ** The function *)

Section Timeline.
Context (sorted_tasks : list Z) (regst_desc_id2reuse_regst_desc : gmap Z nat).
Context (mem_reused_regst2size : gmap nat Z).

(** [consumer2inplaced_regst], [alloc_regsts_timeline], [regst_desc_id2free_index]. *)
Record timeline := mkTimeline {
  consumer2inplaced_regst : gmap nat nat;
  alloc_regsts_timeline : list (list nat);
  regst_desc_id2free_index : gmap Z Z;
}.

Definition push_at (l : list (list nat)) (i : Z) (r : nat) : outcome (list (list nat)) :=
  let* x := at_ l i in Ret (<[Z.to_nat i := x ++ [r]]> l).

Definition schedule_regst (ps : protos) (tasks : gmap Z Z) (t : timeline) (regst_desc : nat) : outcome timeline :=
  let* inplaced := TryFindFirstInplacedRegstDesc (S (length sorted_tasks)) ps
                     regst_desc_id2reuse_regst_desc regst_desc None in
  match inplaced with
  | Some inplaced_regst_desc =>
      let* _ := CHECK (bool_decide (consumer2inplaced_regst t !! regst_desc = None)) in
      Ret (mkTimeline (<[regst_desc := inplaced_regst_desc]> (consumer2inplaced_regst t))
             (alloc_regsts_timeline t) (regst_desc_id2free_index t))
  | None =>
      let* p := map_at ps regst_desc in
      let* i := zmap_at tasks (producer_task_id p) in
      let* alloc := push_at (alloc_regsts_timeline t) i regst_desc in
      let* free := FindLastFreeIndexInSortedTasks (length sorted_tasks) tasks p in
      let* _ := CHECK (bool_decide (regst_desc_id2free_index t !! regst_desc_id p = None)) in
      Ret (mkTimeline (consumer2inplaced_regst t) alloc
             (<[regst_desc_id p := free]> (regst_desc_id2free_index t)))
  end.

(** An in-place consumer prolongs the life of the register it is computed in. *)
Definition extend_life (ps : protos) (tasks : gmap Z Z) (free_index : gmap Z Z) (pair : nat * nat)
    : outcome (gmap Z Z) :=
  let* consumer := map_at ps pair.1 in
  let* inplaced := map_at ps pair.2 in
  let* _ := CHECK (bool_decide (is_Some (free_index !! regst_desc_id inplaced))) in
  let* old := zmap_at free_index (regst_desc_id inplaced) in
  let* new := FindLastFreeIndexInSortedTasks (length sorted_tasks) tasks consumer in
  Ret (<[regst_desc_id inplaced := Z.max old new]> free_index).

Definition free_regst (free : list (list nat)) (pair : Z * Z) : outcome (list (list nat)) :=
  let* r := zmap_at regst_desc_id2reuse_regst_desc pair.1 in
  push_at free pair.2 r.

(** State of the simulated run. *)
Record run_state := mkRun {
  regst2lifetime : gmap nat lifetime;
  remain_regsts : gset nat;
  remain_memory : Z;
  peak_memory : Z;
  run_protos : protos;
}.

Definition alloc_one (i : Z) (s : run_state) (r : nat) : outcome run_state :=
  let* _ := CHECK (bool_decide (r ∉ remain_regsts s)) in
  let* sz := map_at mem_reused_regst2size r in
  Ret (mkRun (<[r := (i32 i, (default (0, 0) (regst2lifetime s !! r)).2)]> (regst2lifetime s))
         ({[r]} ∪ remain_regsts s) (u64 (remain_memory s + sz)) (peak_memory s)
         (alter (set_alloc_before_actor (Z.of_nat (length sorted_tasks)) i) r (run_protos s))).

Definition free_one (i : Z) (s : run_state) (r : nat) : outcome run_state :=
  let* _ := CHECK (bool_decide (r ∈ remain_regsts s)) in
  let* sz := map_at mem_reused_regst2size r in
  Ret (mkRun (<[r := ((default (0, 0) (regst2lifetime s !! r)).1, i32 (i + 1))]> (regst2lifetime s))
         (remain_regsts s ∖ {[r]}) (u64 (remain_memory s - sz)) (peak_memory s)
         (alter (set_free_after_actor i) r (run_protos s))).

Definition run_task (alloc free : list (list nat)) (s : run_state) (i : nat) : outcome run_state :=
  let* a := at_ alloc (Z.of_nat i) in
  let* f := at_ free (Z.of_nat i) in
  let* s := ofold (alloc_one (Z.of_nat i)) a s in
  let s := mkRun (regst2lifetime s) (remain_regsts s) (remain_memory s)
             (if peak_memory s <? remain_memory s then remain_memory s else peak_memory s) (run_protos s) in
  ofold (free_one (Z.of_nat i)) f s.

(** Returns the lifetimes, the in-place consumers, the peak and the updated
    messages. *)
Definition GenRegstAllocFreeTimeLineAndRegstLifetimes (mem_reused_regsts : list nat) (ps : protos)
    : outcome (gmap nat lifetime * gmap nat nat * Z * protos) :=
  let n := length sorted_tasks in
  let* tasks := index_tasks sorted_tasks in
  let* t := ofold (schedule_regst ps tasks) mem_reused_regsts (mkTimeline ∅ (replicate n []) ∅) in
  let* free_index := ofold (extend_life ps tasks) (map_to_list (consumer2inplaced_regst t))
                       (regst_desc_id2free_index t) in
  let* free := ofold free_regst (map_to_list free_index) (replicate n []) in
  let* s := ofold (run_task (alloc_regsts_timeline t) free) (seq 0 n) (mkRun ∅ ∅ 0 0 ps) in
  let* _ := CHECK (bool_decide (remain_regsts s = ∅)) in
  Ret (regst2lifetime s, consumer2inplaced_regst t, peak_memory s, run_protos s).
End Timeline.
