(* ===== verification/MemLifetimeSpec.v ===== *)
(** * What the lifetimes cover

    On a well-formed memory chain the computation of the lifetimes returns; a
    register that is not computed in place lives from its producer to the last use
    of itself or of a register computed in it; and the peak is the most memory that
    is alive at once. *)
From S2P Require Import Prelude MemReuse MemLifetime.

Section Chain.
Context (sorted_tasks : list Z) (reused : list nat) (id2reuse : gmap Z nat) (sizes : gmap nat Z) (ps : protos).
#[local] Abbreviation n := (length sorted_tasks).

(** ** The chain *)

(** Position of a task. *)
Definition pos (t : Z) : option Z := (λ p, Z.of_nat p.1) <$> list_find (λ x, x = t) sorted_tasks.

Definition born (r : nat) : Z := default 0 (ps !! r ≫= λ p, pos (producer_task_id p)).

(** The last task that uses a register itself. *)
Definition last_use (r : nat) : Z :=
  match ps !! r with
  | Some p => foldl (λ f c, Z.max f (default (Z.of_nat n - 1) (pos c))) (born r) (consumer_task_id p)
  | None => 0
  end.

(** The reusable register a register is computed in, if any. *)
Definition hinted (r : nat) : option nat :=
  ps !! r ≫= λ p, hint_inplace_consumed_regst_desc_id p ≫= λ h, if h =? -1 then None else id2reuse !! h.

(** A memory chain as [GenMemChainTasksAndRegsts] builds it. *)
Record chain_ok : Prop := {
  ck_tasks : NoDup sorted_tasks;
  ck_count : Z.of_nat n < 2 ^ 31;
  ck_reused : NoDup reused;
  ck_proto : ∀ r, r ∈ reused → ∃ p, ps !! r = Some p ∧ producer_task_id p ∈ sorted_tasks;
  ck_ids : ∀ r p, r ∈ reused → ps !! r = Some p → id2reuse !! regst_desc_id p = Some r;
  ck_reuse : ∀ id r, id2reuse !! id = Some r → r ∈ reused ∧ regst_desc_id <$> ps !! r = Some id;
  (** a register is computed in place of one that an earlier task produced *)
  ck_hint : ∀ c r, c ∈ reused → hinted c = Some r → born r < born c;
  ck_sizes : ∀ r, r ∈ reused → ∃ s, sizes !! r = Some s ∧ 0 ≤ s;
  ck_total : 1 + sumZ (map (bytes sizes) reused) < 2 ^ 63;
}.

Context (Hck : chain_ok).

(** ** Positions *)

Lemma pos_bound (t i : Z) : pos t = Some i → 0 ≤ i < Z.of_nat n.
Proof.
  unfold pos. intros ([j x] & Hf & ->)%fmap_Some. apply list_find_Some in Hf as (Hj & _).
  apply lookup_lt_Some in Hj. simpl. lia.
Qed.

Lemma pos_Some (t : Z) : t ∈ sorted_tasks → ∃ i, pos t = Some i.
Proof.
  intros Ht. unfold pos. destruct (list_find _ sorted_tasks) as [p|] eqn:E; [by eexists|].
  apply list_find_None in E. by destruct (proj1 (Forall_forall _ _) E t Ht).
Qed.

Lemma index_tasks_loop (l : list Z) (k : nat) (m : gmap Z Z) : NoDup l → (∀ t, t ∈ l → m !! t = None) →
  ∃ m', ofold index_task (zip (seq k (length l)) l) m = Ret m' ∧
    ∀ t, m' !! t = match list_find (λ x, x = t) l with Some (i, _) => Some (Z.of_nat (k + i)) | None => m !! t end.
Proof.
  revert k m. induction l as [|x l IH]; intros k m Hnd Hm.
  { exists m. split; [done|]. by intros t. }
  apply NoDup_cons in Hnd as [Hx Hnd]. cbn [length seq zip_with ofold]. unfold index_task at 1. cbn [fst snd].
  rewrite bool_decide_true by (apply Hm; set_solver). cbn [CHECK obind].
  destruct (IH (S k) (<[x := Z.of_nat k]> m) Hnd) as (m' & E & Hm').
  { intros t Ht. rewrite lookup_insert_ne by (by intros ->). apply Hm. set_solver. }
  exists m'. split; [exact E|]. intros t. rewrite Hm'. cbn [list_find]. destruct (decide (x = t)) as [->|Hne].
  - replace (list_find (λ x, x = t) l) with (@None (nat * Z)).
    + rewrite lookup_insert_eq. do 2 f_equal. lia.
    + symmetry. apply list_find_None, Forall_forall. by intros y Hy ->.
  - rewrite lookup_insert_ne by done. destruct (list_find (λ x, x = t) l) as [[i y]|]; [|done].
    cbn. do 2 f_equal. lia.
Qed.

Lemma index_tasks_spec : ∃ m, index_tasks sorted_tasks = Ret m ∧ ∀ t, m !! t = pos t.
Proof.
  destruct (index_tasks_loop sorted_tasks 0 ∅) as (m & E & Hm); [apply (ck_tasks Hck)|done|].
  exists m. split; [exact E|]. intros t. rewrite Hm. unfold pos.
  destruct (list_find _ _) as [[i x]|]; [done|]. by rewrite lookup_empty.
Qed.

(** ** In-place registers *)

Lemma proto_of (r : nat) : r ∈ reused → ∃ p, ps !! r = Some p ∧ pos (producer_task_id p) = Some (born r).
Proof.
  intros Hr. destruct (ck_proto Hck r Hr) as (p & Hp & Ht). exists p. split; [done|].
  destruct (pos_Some _ Ht) as [i Hi]. unfold born. rewrite Hp. cbn. by rewrite Hi.
Qed.

Lemma born_bound (r : nat) : r ∈ reused → 0 ≤ born r < Z.of_nat n.
Proof. intros Hr. destruct (proto_of r Hr) as (p & _ & Hp). by apply pos_bound in Hp. Qed.

Lemma hinted_reused (c r : nat) : hinted c = Some r → r ∈ reused.
Proof.
  unfold hinted. intros (p & _ & (h & _ & Hh)%bind_Some)%bind_Some.
  destruct (h =? -1); [done|]. by apply (ck_reuse Hck) in Hh as [? _].
Qed.

(** One step of the walk. *)
Lemma find_step (fuel : nat) (c : nat) (acc : option nat) : c ∈ reused →
  TryFindFirstInplacedRegstDesc (S fuel) ps id2reuse c acc =
  match hinted c with
  | Some r => TryFindFirstInplacedRegstDesc fuel ps id2reuse r (Some r)
  | None => Ret acc
  end.
Proof.
  intros Hc. destruct (proto_of c Hc) as (p & Hp & _). cbn [TryFindFirstInplacedRegstDesc].
  unfold map_at, hinted. rewrite Hp. cbn [obind mbind option_bind].
  destruct (hint_inplace_consumed_regst_desc_id p) as [h|]; [|done]. cbn [mbind option_bind].
  destruct (h =? -1); [done|]. by destruct (id2reuse !! h).
Qed.

Lemma find_root (fuel : nat) (c : nat) (acc : option nat) : c ∈ reused → born c < Z.of_nat fuel →
  ∃ o, TryFindFirstInplacedRegstDesc fuel ps id2reuse c acc = Ret o ∧
    match hinted c with
    | None => o = acc
    | Some _ => ∃ r, o = Some r ∧ r ∈ reused ∧ hinted r = None ∧ born r < born c
    end.
Proof.
  revert c acc. induction fuel as [|fuel IH]; intros c acc Hc Hb; [pose proof (born_bound c Hc); lia|].
  rewrite find_step by done. destruct (hinted c) as [r|] eqn:Hh; [|by exists acc].
  pose proof (hinted_reused c r Hh) as Hr. pose proof (ck_hint Hck c r Hc Hh) as Hlt.
  destruct (IH r (Some r) Hr) as (o & E & Ho); [lia|]. exists o. split; [done|].
  destruct (hinted r) as [r'|] eqn:Hh'.
  - destruct Ho as (r2 & -> & H1 & H2 & H3). exists r2. split_and!; [done..|lia].
  - subst o. by exists r.
Qed.

(** The register whose memory a register is computed in. *)
Definition root (c : nat) : option nat :=
  match TryFindFirstInplacedRegstDesc (S n) ps id2reuse c None with Ret o => o | _ => None end.

Lemma root_spec (c : nat) : c ∈ reused →
  TryFindFirstInplacedRegstDesc (S n) ps id2reuse c None = Ret (root c) ∧
  (∀ r, root c = Some r → r ∈ reused ∧ root r = None ∧ born r < born c).
Proof.
  intros Hc. pose proof (born_bound c Hc) as Hb.
  destruct (find_root (S n) c None Hc ltac:(lia)) as (o & E & Ho).
  assert (Er : root c = o) by (unfold root; by rewrite E). rewrite Er. split; [done|].
  intros r ->. destruct (hinted c) as [r0|] eqn:Hh; [|done].
  destruct Ho as (r2 & [= <-] & H1 & H2 & H3). split_and!; [done| |done].
  unfold root. rewrite find_step by done. by rewrite H2.
Qed.

(** ** Scheduling *)

Context (tasks : gmap Z Z) (Htasks : ∀ t, tasks !! t = pos t).

Lemma foldl_max_mono (f : Z → Z) (l : list Z) (a : Z) : a ≤ foldl (λ m c, Z.max m (f c)) a l.
Proof. revert a. induction l as [|c l IH]; intros a; cbn [foldl]; [lia|]. specialize (IH (Z.max a (f c))). lia. Qed.

Lemma FindLast_spec (r : nat) (p : RegstDescProto) : r ∈ reused → ps !! r = Some p →
  FindLastFreeIndexInSortedTasks n tasks p = Ret (last_use r) ∧ born r ≤ last_use r < Z.of_nat n.
Proof.
  intros Hr Hp. destruct (proto_of r Hr) as (p' & Hp' & Hpos). rewrite Hp in Hp'. injection Hp' as <-.
  pose proof (born_bound r Hr) as Hb. unfold FindLastFreeIndexInSortedTasks, last_use, zmap_at.
  rewrite Hp, Htasks, Hpos. cbn [obind].
  assert (G : ∀ l a, 0 ≤ a < Z.of_nat n →
    foldl (λ f c, Z.max f (default (Z.of_nat n - 1) (tasks !! c))) a l =
    foldl (λ f c, Z.max f (default (Z.of_nat n - 1) (pos c))) a l ∧
    foldl (λ f c, Z.max f (default (Z.of_nat n - 1) (pos c))) a l < Z.of_nat n).
  { induction l as [|c l IH]; intros a Ha; cbn [foldl]; [split; [done|lia]|]. rewrite Htasks. apply IH.
    destruct (pos c) as [i|] eqn:E; cbn; [apply pos_bound in E|]; lia. }
  destruct (G (consumer_task_id p) (born r) Hb) as [-> ?]. split_and!; [done| |done]. apply foldl_max_mono.
Qed.

Lemma push_at_spec (l : list (list nat)) (i : Z) (x : list nat) (r : nat) : 0 ≤ i →
  l !! Z.to_nat i = Some x → push_at l i r = Ret (<[Z.to_nat i := x ++ [r]]> l).
Proof. intros Hi H. unfold push_at. by rewrite (proj2 (at_Ret _ _ _) (conj Hi H)). Qed.

Record scheduled (pre : list nat) (t : timeline) : Prop := {
  sc_inplace : ∀ c, consumer2inplaced_regst t !! c = if bool_decide (c ∈ pre) then root c else None;
  sc_length : length (alloc_regsts_timeline t) = n;
  sc_alloc : ∀ i, (i < n)%nat →
    alloc_regsts_timeline t !! i = Some (filter (λ r, root r = None ∧ born r = Z.of_nat i) pre);
  sc_free : ∀ id, regst_desc_id2free_index t !! id =
    id2reuse !! id ≫= λ r, if bool_decide (r ∈ pre ∧ root r = None) then Some (last_use r) else None;
}.

Lemma schedule_step (pre : list nat) (t : timeline) (r : nat) : scheduled pre t → r ∈ reused → r ∉ pre →
  ∃ t', schedule_regst sorted_tasks id2reuse ps tasks t r = Ret t' ∧ scheduled (pre ++ [r]) t'.
Proof.
  intros [S1 S2 S3 S4] Hr Hni. destruct (root_spec r Hr) as [Hroot _]. unfold schedule_regst. rewrite Hroot.
  cbn [obind].
  assert (Hin : ∀ c, (c ∈ pre ++ [r]) ↔ c = r ∨ c ∈ pre) by (intros; set_solver).
  destruct (root r) as [r0|] eqn:Er.
  - rewrite bool_decide_true by (rewrite S1; by rewrite bool_decide_false). cbn [CHECK obind].
    eexists. split; [done|]. split; cbn [consumer2inplaced_regst alloc_regsts_timeline regst_desc_id2free_index].
    + intros c. destruct (decide (c = r)) as [->|Hne].
      * rewrite lookup_insert_eq, bool_decide_true by set_solver. done.
      * rewrite lookup_insert_ne, S1 by done. by rewrite (bool_decide_ext (c ∈ pre ++ [r]) (c ∈ pre)) by set_solver.
    + done.
    + intros i Hi. rewrite S3 by done. f_equal. rewrite filter_app, filter_cons_False, filter_nil, app_nil_r; [done|].
      intros [? _]. congruence.
    + intros id. rewrite S4. destruct (id2reuse !! id) as [r1|]; [|done]. cbn.
      rewrite (bool_decide_ext (r1 ∈ pre ++ [r] ∧ root r1 = None) (r1 ∈ pre ∧ root r1 = None)); [done|].
      rewrite Hin. split; [|by intros [? ?]; auto]. intros [[->|?] ?]; [congruence|done].
  - destruct (proto_of r Hr) as (p & Hp & Hpos). unfold map_at, zmap_at. rewrite Hp. cbn [obind].
    rewrite Htasks, Hpos. cbn [obind]. pose proof (born_bound r Hr) as Hb.
    pose proof (S3 (Z.to_nat (born r)) ltac:(lia)) as Ha.
    rewrite (push_at_spec _ _ _ _ (proj1 Hb) Ha). cbn [obind].
    destruct (FindLast_spec r p Hr Hp) as [-> _]. cbn [obind].
    pose proof (ck_ids Hck r p Hr Hp) as Hid.
    rewrite bool_decide_true.
    2:{ rewrite S4, Hid. cbn. rewrite bool_decide_false; [done|]. by intros [? _]. }
    cbn [CHECK obind]. eexists. split; [done|].
    split; cbn [consumer2inplaced_regst alloc_regsts_timeline regst_desc_id2free_index].
    + intros c. rewrite S1. destruct (decide (c = r)) as [->|Hne].
      * rewrite bool_decide_false by done. by rewrite bool_decide_true by set_solver.
      * by rewrite (bool_decide_ext (c ∈ pre ++ [r]) (c ∈ pre)) by set_solver.
    + by rewrite length_insert.
    + intros i Hi. rewrite filter_app. destruct (decide (i = Z.to_nat (born r))) as [->|Hne].
      * rewrite list_lookup_insert_eq by lia. do 2 f_equal. rewrite filter_cons_True, filter_nil; [done|]. split; [done|lia].
      * rewrite list_lookup_insert_ne, S3 by done. rewrite filter_cons_False, filter_nil, app_nil_r; [done|].
        intros [_ ?]. lia.
    + intros id. destruct (decide (id = regst_desc_id p)) as [->|Hne].
      * rewrite lookup_insert_eq, Hid. cbn. rewrite bool_decide_true; [done|]. set_solver.
      * rewrite lookup_insert_ne, S4 by done. destruct (id2reuse !! id) as [r1|] eqn:E1; [|done]. cbn.
        rewrite (bool_decide_ext (r1 ∈ pre ++ [r] ∧ root r1 = None) (r1 ∈ pre ∧ root r1 = None)); [done|].
        rewrite Hin. split; [|by intros [? ?]; auto]. intros [[->|?] ?]; [|done].
        apply (ck_reuse Hck) in E1 as [_ E1]. rewrite Hp in E1. by injection E1.
Qed.

Lemma schedule_all : ∃ t, ofold (schedule_regst sorted_tasks id2reuse ps tasks) reused
    (mkTimeline ∅ (replicate n []) ∅) = Ret t ∧ scheduled reused t.
Proof.
  assert (G : ∀ post pre t, reused = pre ++ post → scheduled pre t →
    ∃ t', ofold (schedule_regst sorted_tasks id2reuse ps tasks) post t = Ret t' ∧ scheduled reused t').
  { induction post as [|r post IH]; intros pre t E Ht.
    - exists t. rewrite app_nil_r in E. by subst pre.
    - pose proof (ck_reused Hck) as Hnd. rewrite E in Hnd. apply NoDup_app in Hnd as (_ & Hnd & _).
      destruct (schedule_step pre t r Ht) as (t1 & E1 & Ht1).
      + rewrite E. set_solver.
      + intros Hr. apply (Hnd r Hr). set_solver.
      + cbn [ofold]. rewrite E1. cbn [obind]. apply (IH (pre ++ [r])); [by rewrite <- app_assoc|done]. }
  apply (G reused []); [done|]. split; cbn [consumer2inplaced_regst alloc_regsts_timeline regst_desc_id2free_index].
  - intros c. rewrite bool_decide_false by (by apply not_elem_of_nil). apply lookup_empty.
  - apply length_replicate.
  - intros i Hi. by rewrite lookup_replicate_2.
  - intros id. rewrite lookup_empty. destruct (id2reuse !! id); [|done]. cbn.
    rewrite bool_decide_false; [done|]. intros [H _]. by apply elem_of_nil in H.
Qed.

(** ** Prolonging lives *)

(** [v] is the last use of [r] or of one of the registers [seen] in its place. *)
Definition last_of (seen : list (nat * nat)) (r : nat) (v : Z) : Prop :=
  last_use r ≤ v ∧ (∀ c, (c, r) ∈ seen → last_use c ≤ v) ∧
  (v = last_use r ∨ ∃ c, (c, r) ∈ seen ∧ v = last_use c).

Record prolonged (seen : list (nat * nat)) (free : gmap Z Z) : Prop := {
  pr_value : ∀ r p, r ∈ reused → root r = None → ps !! r = Some p →
    ∃ v, free !! regst_desc_id p = Some v ∧ last_of seen r v;
  pr_dom : ∀ id, is_Some (free !! id) → ∃ r, id2reuse !! id = Some r ∧ root r = None;
}.

Lemma extend_step (seen : list (nat * nat)) (free : gmap Z Z) (c r : nat) :
  prolonged seen free → c ∈ reused → root c = Some r →
  ∃ free', extend_life sorted_tasks ps tasks free (c, r) = Ret free' ∧ prolonged (seen ++ [(c, r)]) free'.
Proof.
  intros [P1 P2] Hc Hrt. destruct (root_spec c Hc) as [_ H]. destruct (H r Hrt) as (Hr & Hrr & _). clear H.
  destruct (proto_of c Hc) as (pc & Hpc & _). destruct (proto_of r Hr) as (pr & Hpr & _).
  destruct (P1 r pr Hr Hrr Hpr) as (v & Hv & L1 & L2 & L3).
  unfold extend_life, map_at, zmap_at. cbn [fst snd]. rewrite Hpc, Hpr. cbn [obind].
  rewrite bool_decide_true, Hv by (by eexists). cbn [CHECK obind].
  destruct (FindLast_spec c pc Hc Hpc) as [-> _]. cbn [obind]. eexists. split; [done|]. split.
  - intros r1 p1 Hr1 Hroot1 Hp1. destruct (decide (regst_desc_id p1 = regst_desc_id pr)) as [E|Hne].
    + pose proof (ck_ids Hck r1 p1 Hr1 Hp1) as I1. pose proof (ck_ids Hck r pr Hr Hpr) as I2.
      rewrite E, I2 in I1. injection I1 as <-. rewrite Hpr in Hp1. injection Hp1 as <-.
      rewrite lookup_insert_eq. eexists. split; [done|]. split_and!; [lia| |].
      * intros c1 [H1|H1]%elem_of_app; [specialize (L2 c1 H1); lia|].
        apply list_elem_of_singleton in H1. injection H1 as ->. lia.
      * destruct (Z.max_spec v (last_use c)) as [[? ->]|[? ->]].
        -- right. exists c. split; [set_solver|done].
        -- destruct L3 as [->|(c1 & H1 & ->)]; [by left|right]. exists c1. split; [set_solver|done].
    + rewrite lookup_insert_ne by done. destruct (P1 r1 p1 Hr1 Hroot1 Hp1) as (v1 & Hv1 & M1 & M2 & M3).
      exists v1. split; [done|]. split_and!; [done| |].
      * intros c1 [H1|H1]%elem_of_app; [by apply M2|]. apply list_elem_of_singleton in H1. injection H1 as -> ->.
        congruence.
      * destruct M3 as [->|(c1 & H1 & ->)]; [by left|right]. exists c1. split; [set_solver|done].
  - intros id Hid. destruct (decide (id = regst_desc_id pr)) as [->|Hne].
    + exists r. split; [by apply (ck_ids Hck)|done].
    + rewrite lookup_insert_ne in Hid by done. by apply P2.
Qed.

Lemma extend_all (t : timeline) : scheduled reused t →
  ∃ free, ofold (extend_life sorted_tasks ps tasks) (map_to_list (consumer2inplaced_regst t))
    (regst_desc_id2free_index t) = Ret free ∧ prolonged (map_to_list (consumer2inplaced_regst t)) free.
Proof.
  intros [S1 S2 S3 S4]. set (pairs := map_to_list _).
  assert (Hpairs : ∀ c r, (c, r) ∈ pairs → c ∈ reused ∧ root c = Some r).
  { intros c r H%elem_of_map_to_list. rewrite S1 in H. by case_bool_decide. }
  assert (G : ∀ post pre free, pairs = pre ++ post → prolonged pre free →
    ∃ free', ofold (extend_life sorted_tasks ps tasks) post free = Ret free' ∧ prolonged pairs free').
  { induction post as [|[c r] post IH]; intros pre free E Hf.
    - exists free. rewrite app_nil_r in E. by subst pre.
    - destruct (Hpairs c r) as [Hc Hr]; [rewrite E; set_solver|].
      destruct (extend_step pre free c r Hf Hc Hr) as (f1 & E1 & Hf1). cbn [ofold]. rewrite E1. cbn [obind].
      apply (IH (pre ++ [(c, r)])); [by rewrite <- app_assoc|done]. }
  apply (G pairs []); [done|]. split.
  - intros r p Hr Hroot Hp. exists (last_use r). split.
    + rewrite S4, (ck_ids Hck r p Hr Hp). cbn. by rewrite bool_decide_true.
    + split_and!; [done| |by left]. intros c H. by apply elem_of_nil in H.
  - intros id [v Hv]. rewrite S4 in Hv. apply bind_Some in Hv as (r & Hr & Hv). exists r. split; [done|].
    case_bool_decide as H; [|done]. by destruct H.
Qed.

(** ** Freeing *)

Record freed (seen : list (Z * Z)) (l : list (list nat)) : Prop := {
  fr_length : length l = n;
  fr_in : ∀ i x, l !! i = Some x → NoDup x ∧
    ∀ r, r ∈ x ↔ ∃ id, (id, Z.of_nat i) ∈ seen ∧ id2reuse !! id = Some r;
}.

Lemma free_all (free : gmap Z Z) :
  (∀ id v, free !! id = Some v → 0 ≤ v < Z.of_nat n ∧ is_Some (id2reuse !! id)) →
  ∃ l, ofold (free_regst id2reuse) (map_to_list free) (replicate n []) = Ret l ∧ freed (map_to_list free) l.
Proof.
  intros Hfree. set (pairs := map_to_list free).
  assert (Hnd : NoDup pairs) by apply NoDup_map_to_list.
  assert (G : ∀ post pre l, pairs = pre ++ post → freed pre l →
    ∃ l', ofold (free_regst id2reuse) post l = Ret l' ∧ freed pairs l').
  { induction post as [|[id v] post IH]; intros pre l E [F1 F2].
    { exists l. rewrite app_nil_r in E. by subst pre. }
    assert (Hin : (id, v) ∈ pairs) by (rewrite E; set_solver).
    apply elem_of_map_to_list in Hin as Hl. destruct (Hfree id v Hl) as [Hv [r Hr]].
    destruct (lookup_lt_is_Some_2 l (Z.to_nat v)) as [x Hx]; [lia|].
    cbn [ofold]. unfold free_regst at 1, zmap_at. cbn [fst snd]. rewrite Hr. cbn [obind].
    rewrite (push_at_spec _ _ _ _ (proj1 Hv) Hx). cbn [obind].
    apply (IH (pre ++ [(id, v)])); [by rewrite <- app_assoc|]. split; [by rewrite length_insert|].
    intros i y Hy. destruct (decide (i = Z.to_nat v)) as [->|Hne].
    - rewrite list_lookup_insert_eq in Hy by (apply lookup_lt_Some in Hx; lia). injection Hy as <-.
      destruct (F2 _ _ Hx) as [N1 N2]. rewrite Z2Nat.id in N2 |- * by lia. split.
      + apply NoDup_app. split_and!; [done| |apply NoDup_singleton].
        intros r1 Hr1 Hr2. apply list_elem_of_singleton in Hr2 as ->. apply N2 in Hr1 as (id1 & Hi1 & Hr1).
        apply (ck_reuse Hck) in Hr1 as [_ Q1]. apply (ck_reuse Hck) in Hr as [_ Q2]. rewrite Q1 in Q2.
        injection Q2 as ->. rewrite E in Hnd. apply NoDup_app in Hnd as (_ & Hd & _).
        apply (Hd _ Hi1). set_solver.
      + intros r1. rewrite elem_of_app, N2, list_elem_of_singleton. split.
        * intros [(id1 & H1 & H2)| ->]; [exists id1|exists id]; (split; [set_solver|done]).
        * intros (id1 & H1 & H2). apply elem_of_app in H1 as [H1|H1]; [left; by exists id1|right].
          apply list_elem_of_singleton in H1. injection H1 as ->. congruence.
    - rewrite list_lookup_insert_ne in Hy by done. destruct (F2 _ _ Hy) as [N1 N2]. split; [done|].
      intros r1. rewrite N2. split; intros (id1 & H1 & H2); exists id1; (split; [|done]); [set_solver|].
      apply elem_of_app in H1 as [H1|H1]; [done|]. apply list_elem_of_singleton in H1. injection H1 as _ H1. lia. }
  apply (G pairs []); [done|]. split; [apply length_replicate|].
  intros i x [-> _]%lookup_replicate. split; [apply NoDup_nil_2|]. intros r. split.
  - intros H. by apply elem_of_nil in H.
  - intros (id & H & _). by apply elem_of_nil in H.
Qed.

(** ** The simulated run *)

(** The messages apart from the fields that the run sets. *)
Definition core (p : RegstDescProto) : RegstDescProto := set_free_after_actor 0 (set_alloc_before_actor 0 0 p).

Lemma core_alter (f : RegstDescProto → RegstDescProto) (r : nat) (m : protos) :
  (∀ p, core (f p) = core p) → core <$> alter f r m = core <$> m.
Proof.
  intros Hf. apply map_eq. intros k. rewrite !lookup_fmap. destruct (decide (k = r)) as [->|Hne].
  - rewrite lookup_alter_eq. destruct (m !! r); [|done]. cbn. by rewrite Hf.
  - by rewrite lookup_alter_ne.
Qed.

(** Bytes of a set of registers. *)
Definition mem_of (X : gset nat) : Z := sumZ (map (bytes sizes) (elements X)).

Lemma mem_of_insert (r : nat) (X : gset nat) : r ∉ X → mem_of ({[r]} ∪ X) = bytes sizes r + mem_of X.
Proof.
  intros Hr. unfold mem_of. rewrite (sumZ_perm _ (map (bytes sizes) (r :: elements X))).
  - done.
  - apply Permutation_map. by apply elements_union_singleton.
Qed.

Lemma mem_of_remove (r : nat) (X : gset nat) : r ∈ X → mem_of X = bytes sizes r + mem_of (X ∖ {[r]}).
Proof.
  intros Hr. rewrite <- mem_of_insert by set_solver. f_equal. apply set_eq. intros x.
  destruct (decide (x = r)); set_solver.
Qed.

Lemma mem_of_bound (X : gset nat) : (∀ r, r ∈ X → r ∈ reused) → 0 ≤ mem_of X < 2 ^ 63 - 1.
Proof.
  intros HX. unfold mem_of.
  assert (Hsub : ∃ k, reused ≡ₚ elements X ++ k).
  { assert (Hs : elements X ⊆+ reused).
    { apply NoDup_submseteq; [apply NoDup_elements|]. intros r Hr%elem_of_elements. by apply HX. }
    by apply submseteq_Permutation in Hs. }
  destruct Hsub as [k Hk]. pose proof (ck_total Hck) as Ht.
  rewrite (sumZ_perm _ _ (Permutation_map (bytes sizes) Hk)), map_app, sumZ_app in Ht.
  assert (Hnn : ∀ l, (∀ r, r ∈ l → r ∈ reused) → 0 ≤ sumZ (map (bytes sizes) l)).
  { induction l as [|r l IH]; intros Hl; [done|]. cbn [map]. rewrite sumZ_cons.
    destruct (ck_sizes Hck r) as (sz & Hsz & ?); [apply Hl; set_solver|].
    assert (bytes sizes r = sz) by (unfold bytes; by rewrite Hsz). specialize (IH ltac:(set_solver)). lia. }
  pose proof (Hnn (elements X) ltac:(intros r Hr%elem_of_elements; by apply HX)).
  pose proof (Hnn k ltac:(intros r Hr; rewrite Hk; set_solver)). lia.
Qed.

(** What holds of the run at any time, besides who is alive. *)
Record running (s : run_state) : Prop := {
  rn_reused : ∀ r, r ∈ remain_regsts s → r ∈ reused;
  rn_memory : remain_memory s = mem_of (remain_regsts s);
  rn_protos : core <$> run_protos s = core <$> ps;
}.

Lemma size_at (r : nat) : r ∈ reused → map_at sizes r = Ret (bytes sizes r) ∧ 0 ≤ bytes sizes r.
Proof.
  intros Hr. destruct (ck_sizes Hck r Hr) as (sz & Hsz & ?). unfold map_at, bytes. by rewrite Hsz.
Qed.

Lemma alloc_list (i : Z) (l : list nat) (s : run_state) : running s → NoDup l → 0 ≤ i < 2 ^ 31 →
  (∀ r, r ∈ l → r ∈ reused ∧ r ∉ remain_regsts s ∧ regst2lifetime s !! r = None) →
  ∃ s', ofold (alloc_one sorted_tasks sizes i) l s = Ret s' ∧ running s' ∧ peak_memory s' = peak_memory s ∧
    (∀ r, r ∈ remain_regsts s' ↔ r ∈ l ∨ r ∈ remain_regsts s) ∧
    (∀ r, regst2lifetime s' !! r = if bool_decide (r ∈ l) then Some (i, 0) else regst2lifetime s !! r).
Proof.
  intros Hrun Hnd Hi Hl. revert s Hrun Hl. induction l as [|r l IH]; intros s [R1 R2 R3] Hl.
  { exists s. split_and!; [done|done|done| |].
    - intros r. split; [by right|]. intros [H|H]; [by apply elem_of_nil in H|done].
    - intros r. by rewrite bool_decide_false by (by apply not_elem_of_nil). }
  apply NoDup_cons in Hnd as [Hr Hnd]. destruct (Hl r) as (Hre & Hnr & Hlt); [set_solver|].
  destruct (size_at r Hre) as [Hat Hpos]. cbn [ofold]. unfold alloc_one at 1.
  rewrite bool_decide_true, Hat by done. cbn [CHECK obind]. rewrite Hlt. cbn [default snd].
  assert (Hsub : ∀ x, x ∈ {[r]} ∪ remain_regsts s → x ∈ reused).
  { intros x [->%elem_of_singleton|Hx]%elem_of_union; [done|by apply R1]. }
  pose proof (mem_of_bound _ Hsub) as Hb. rewrite mem_of_insert in Hb by done.
  rewrite R2, u64_small, i32_small by (unfold is_u64, u64_modulus; lia).
  destruct (IH Hnd (mkRun (<[r := (i, 0)]> (regst2lifetime s)) ({[r]} ∪ remain_regsts s)
    (mem_of (remain_regsts s) + bytes sizes r) (peak_memory s)
    (alter (set_alloc_before_actor (Z.of_nat n) i) r (run_protos s)))) as (s' & E & Q1 & Q2 & Q3 & Q4);
    cbn [regst2lifetime remain_regsts remain_memory peak_memory run_protos] in *.
  - split; cbn [regst2lifetime remain_regsts remain_memory peak_memory run_protos]; [done| |].
    + rewrite mem_of_insert by done. lia.
    + by rewrite core_alter.
  - intros x Hx. destruct (Hl x) as (? & ? & ?); [set_solver|]. assert (x ≠ r) by (by intros ->).
    rewrite lookup_insert_ne by done. set_solver.
  - exists s'. split_and!; [done..| |].
    + intros x. rewrite Q3. set_solver.
    + intros x. rewrite Q4. destruct (decide (x = r)) as [->|Hne].
      * rewrite bool_decide_false, bool_decide_true by set_solver. apply lookup_insert_eq.
      * rewrite lookup_insert_ne by done. by rewrite (bool_decide_ext (x ∈ r :: l) (x ∈ l)) by set_solver.
Qed.

Lemma free_list (i : Z) (l : list nat) (s : run_state) : running s → NoDup l → 0 ≤ i < 2 ^ 31 - 1 →
  (∀ r, r ∈ l → r ∈ remain_regsts s) →
  ∃ s', ofold (free_one sizes i) l s = Ret s' ∧ running s' ∧ peak_memory s' = peak_memory s ∧
    (∀ r, r ∈ remain_regsts s' ↔ r ∈ remain_regsts s ∧ r ∉ l) ∧
    (∀ r, regst2lifetime s' !! r =
       if bool_decide (r ∈ l) then Some ((default (0, 0) (regst2lifetime s !! r)).1, i + 1)
       else regst2lifetime s !! r).
Proof.
  intros Hrun Hnd Hi Hl. revert s Hrun Hl. induction l as [|r l IH]; intros s [R1 R2 R3] Hl.
  { exists s. split_and!; [done|done|done| |].
    - intros r. split; [|by intros [? _]]. intros H. split; [done|apply not_elem_of_nil].
    - intros r. by rewrite bool_decide_false by (by apply not_elem_of_nil). }
  apply NoDup_cons in Hnd as [Hr Hnd]. pose proof (Hl r ltac:(set_solver)) as Hin.
  destruct (size_at r (R1 r Hin)) as [Hat Hpos]. cbn [ofold]. unfold free_one at 1.
  rewrite bool_decide_true, Hat by done. cbn [CHECK obind].
  pose proof (mem_of_remove r _ Hin) as Hm.
  assert (Hsub : ∀ x, x ∈ remain_regsts s ∖ {[r]} → x ∈ reused) by (intros x [? _]%elem_of_difference; by apply R1).
  pose proof (mem_of_bound _ Hsub) as Hb.
  rewrite R2, u64_small, i32_small by (unfold is_u64, u64_modulus; lia).
  destruct (IH Hnd (mkRun (<[r := ((default (0, 0) (regst2lifetime s !! r)).1, i + 1)]> (regst2lifetime s))
    (remain_regsts s ∖ {[r]}) (mem_of (remain_regsts s) - bytes sizes r) (peak_memory s)
    (alter (set_free_after_actor i) r (run_protos s)))) as (s' & E & Q1 & Q2 & Q3 & Q4);
    cbn [regst2lifetime remain_regsts remain_memory peak_memory run_protos] in *.
  - split; cbn [regst2lifetime remain_regsts remain_memory peak_memory run_protos]; [done|lia|].
    by rewrite core_alter.
  - intros x Hx. assert (x ≠ r) by (by intros ->). set_solver.
  - exists s'. split_and!; [done..| |].
    + intros x. rewrite Q3. set_solver.
    + intros x. rewrite Q4. destruct (decide (x = r)) as [->|Hne].
      * rewrite bool_decide_false, bool_decide_true by set_solver. apply lookup_insert_eq.
      * rewrite lookup_insert_ne by done. by rewrite (bool_decide_ext (x ∈ r :: l) (x ∈ l)) by set_solver.
Qed.

Section Run.
Context (alloc free : list (list nat)) (F : nat → Z).
Context (Halloc : ∀ i, (i < n)%nat → alloc !! i = Some (filter (λ r, root r = None ∧ born r = Z.of_nat i) reused)).
Context (Hlen : length free = n).
Context (Hfree : ∀ i x, free !! i = Some x →
  NoDup x ∧ ∀ r, r ∈ x ↔ r ∈ reused ∧ root r = None ∧ F r = Z.of_nat i).
Context (HF : ∀ r, r ∈ reused → root r = None → born r ≤ F r < Z.of_nat n).

Definition alive (t : Z) (r : nat) : Prop := r ∈ reused ∧ root r = None ∧ born r ≤ t ≤ F r.

Record run_at (i : nat) (s : run_state) : Prop := {
  ra_running : running s;
  ra_remain : ∀ r, r ∈ remain_regsts s ↔ r ∈ reused ∧ root r = None ∧ born r < Z.of_nat i ≤ F r;
  ra_lifetime : ∀ r, regst2lifetime s !! r =
    if bool_decide (r ∈ reused ∧ root r = None ∧ born r < Z.of_nat i)
    then Some (born r, if F r <? Z.of_nat i then F r + 1 else 0) else None;
  ra_peak : ∀ t X, 0 ≤ t < Z.of_nat i → (∀ r, r ∈ X ↔ alive t r) → mem_of X ≤ peak_memory s;
  ra_peak_pos : 0 ≤ peak_memory s;
}.

Lemma run_task_step (i : nat) (s : run_state) : (i < n)%nat → run_at i s →
  ∃ s', run_task sorted_tasks sizes alloc free s i = Ret s' ∧ run_at (S i) s'.
Proof.
  intros Hi [A1 A2 A3 A4 A5]. pose proof (ck_count Hck) as Hn. unfold run_task.
  rewrite (at_nat _ _ _ (Halloc i Hi)). cbn [obind].
  destruct (lookup_lt_is_Some_2 free i) as [f Hf]; [lia|]. rewrite (at_nat _ _ _ Hf). cbn [obind].
  destruct (Hfree i f Hf) as [Nf Inf]. set (a := filter _ reused).
  assert (Ina : ∀ r, r ∈ a ↔ r ∈ reused ∧ root r = None ∧ born r = Z.of_nat i).
  { intros r. unfold a. rewrite list_elem_of_filter. tauto. }
  destruct (alloc_list (Z.of_nat i) a s A1) as (s1 & E1 & R1 & P1 & M1 & L1).
  { apply NoDup_filter, (ck_reused Hck). }
  { lia. }
  { intros r (Hr & Hroot & Hb)%Ina. split_and!; [done| |].
    - rewrite A2. lia.
    - rewrite A3. rewrite bool_decide_false; [done|]. lia. }
  rewrite E1. cbn [obind].
  assert (Halive : ∀ r, r ∈ remain_regsts s1 ↔ alive (Z.of_nat i) r).
  { intros r. rewrite M1, Ina, A2. unfold alive. split.
    - intros [(?&?&?)|(?&?&?)]; [|split_and!; [done..|lia|lia]].
      destruct (HF r); [done..|]. split_and!; [done..|lia|lia].
    - intros (H1&H2&H3). destruct (decide (born r = Z.of_nat i)); [by left|right]. split_and!; [done..|lia|lia]. }
  set (peak := if _ <? _ then _ else _).
  destruct R1 as [R1a R1b R1c].
  assert (Hpk : peak_memory s1 ≤ peak ∧ remain_memory s1 ≤ peak).
  { unfold peak. destruct (Z.ltb_spec (peak_memory s1) (remain_memory s1)); lia. }
  destruct (free_list (Z.of_nat i) f (mkRun (regst2lifetime s1) (remain_regsts s1) (remain_memory s1) peak
    (run_protos s1))) as (s2 & E2 & R2 & P2 & M2 & L2);
    cbn [regst2lifetime remain_regsts remain_memory peak_memory run_protos] in *; [done|done|lia| |].
  { intros r (?&?&?)%Inf. apply Halive. destruct (HF r); [done..|]. unfold alive. split_and!; [done..|lia|lia]. }
  exists s2. split; [done|]. split; [done| | | |].
  - intros r. rewrite M2, Halive, Inf. unfold alive. destruct (decide (root r = None)); [|naive_solver].
    destruct (decide (r ∈ reused)); [|naive_solver]. split.
    + intros [(_&_&?) Hnf]. split_and!; [done..|lia|].
      assert (F r ≠ Z.of_nat i) by (intros ?; by apply Hnf). lia.
    + intros (_&_&?&?). split; [split_and!; [done..|lia|lia]|]. intros (_&_&?). lia.
  - intros r. rewrite L2. case_bool_decide as Hrf.
    + apply Inf in Hrf as (Hr & Hroot & HFr). destruct (HF r Hr Hroot).
      rewrite bool_decide_true by (split_and!; [done..|lia]). rewrite L1.
      assert (Ei : (F r <? Z.of_nat (S i)) = true) by (apply Z.ltb_lt; lia). rewrite Ei, HFr.
      case_bool_decide as Ha; [apply Ina in Ha as (_&_&->); done|].
      rewrite A3, bool_decide_true; [done|]. split_and!; [done..|].
      assert (born r ≠ Z.of_nat i) by (intros ?; apply Ha; by apply Ina). lia.
    + rewrite L1. case_bool_decide as Ha.
      * apply Ina in Ha as (Hr & Hroot & Hb). rewrite bool_decide_true by (split_and!; [done..|lia]).
        destruct (HF r Hr Hroot). assert (F r ≠ Z.of_nat i) by (intros ?; apply Hrf; by apply Inf).
        rewrite (proj2 (Z.ltb_ge _ _)) by lia. by rewrite Hb.
      * rewrite A3. destruct (decide (r ∈ reused)) as [Hr|]; [|by rewrite !bool_decide_false by naive_solver].
        destruct (decide (root r = None)) as [Hroot|]; [|by rewrite !bool_decide_false by naive_solver].
        assert (born r ≠ Z.of_nat i) by (intros ?; apply Ha; by apply Ina).
        assert (F r ≠ Z.of_nat i) by (intros ?; apply Hrf; by apply Inf).
        destruct (decide (born r < Z.of_nat i)) as [Hlt|Hge].
        -- rewrite !bool_decide_true by (split_and!; [done..|lia]). do 2 f_equal.
           destruct (Z.ltb_spec (F r) (Z.of_nat i)), (Z.ltb_spec (F r) (Z.of_nat (S i))); (lia || done).
        -- rewrite !bool_decide_false by (intros (_&_&?); lia). done.
  - intros t X Ht HX. rewrite P2. destruct (decide (t < Z.of_nat i)) as [Hlt|Hge].
    + specialize (A4 t X ltac:(lia) HX). lia.
    + replace t with (Z.of_nat i) in HX by lia.
      assert (HeX : X = remain_regsts s1) by (apply set_eq; intros r; by rewrite HX, Halive).
      rewrite HeX, <- R1b. lia.
  - rewrite P2. lia.
Qed.

Lemma run_all : ∃ s, ofold (run_task sorted_tasks sizes alloc free) (seq 0 n) (mkRun ∅ ∅ 0 0 ps) = Ret s ∧
  run_at n s.
Proof.
  assert (G : ∀ k i s, (i + k = n)%nat → run_at i s →
    ∃ s', ofold (run_task sorted_tasks sizes alloc free) (seq i k) s = Ret s' ∧ run_at n s').
  { induction k as [|k IH]; intros i s E Hs; [exists s; by replace n with i by lia|].
    destruct (run_task_step i s ltac:(lia) Hs) as (s1 & E1 & Hs1). cbn [seq ofold]. rewrite E1. cbn [obind].
    apply IH; [lia|done]. }
  apply (G n 0%nat); [lia|]. split; cbn [regst2lifetime remain_regsts remain_memory peak_memory run_protos].
  - split; cbn [remain_regsts remain_memory run_protos]; [set_solver| |done].
    unfold mem_of. by rewrite elements_empty.
  - intros r. split; [set_solver|]. intros (Hr&_&?). pose proof (born_bound r Hr). lia.
  - intros r. rewrite lookup_empty. rewrite bool_decide_false; [done|]. intros (Hr&_&?).
    pose proof (born_bound r Hr). lia.
  - lia.
  - lia.
Qed.
End Run.
End Chain.

(** ** The function *)

Section Result.
Context (sorted_tasks : list Z) (reused : list nat) (id2reuse : gmap Z nat) (sizes : gmap nat Z) (ps : protos).
Context (Hck : chain_ok sorted_tasks reused id2reuse sizes ps).
#[local] Abbreviation root_ := (root sorted_tasks id2reuse ps).
#[local] Abbreviation born_ := (born sorted_tasks ps).
#[local] Abbreviation last_use_ := (last_use sorted_tasks ps).

(** The last use of a register or of one that is computed in its memory. *)
Definition last_shared_use (r : nat) (v : Z) : Prop :=
  last_use_ r ≤ v ∧ (∀ c, c ∈ reused → root_ c = Some r → last_use_ c ≤ v) ∧
  (v = last_use_ r ∨ ∃ c, c ∈ reused ∧ root_ c = Some r ∧ v = last_use_ c).

Lemma Gen_spec : ∃ lt inplaced peak ps' F,
  GenRegstAllocFreeTimeLineAndRegstLifetimes sorted_tasks id2reuse sizes reused ps = Ret (lt, inplaced, peak, ps') ∧
  (∀ c, inplaced !! c = if bool_decide (c ∈ reused) then root_ c else None) ∧
  (∀ r, lt !! r = if bool_decide (r ∈ reused ∧ root_ r = None) then Some (born_ r, F r + 1) else None) ∧
  (∀ r, r ∈ reused → root_ r = None → last_shared_use r (F r) ∧ born_ r ≤ F r < Z.of_nat (length sorted_tasks)) ∧
  (∀ t X, 0 ≤ t < Z.of_nat (length sorted_tasks) →
     (∀ r, r ∈ X ↔ r ∈ reused ∧ root_ r = None ∧ born_ r ≤ t ≤ F r) → mem_of sizes X ≤ peak) ∧
  core <$> ps' = core <$> ps.
Proof.
  destruct (index_tasks_spec _ _ _ _ _ Hck) as (tasks & Et & Htasks).
  destruct (schedule_all _ _ _ _ _ Hck tasks Htasks) as (t & Es & Ht).
  destruct (extend_all _ _ _ _ _ Hck tasks Htasks t Ht) as (free & Ee & [P1 P2]).
  set (F := λ r, default 0 (ps !! r ≫= λ p, free !! regst_desc_id p)).
  assert (HF : ∀ r p, r ∈ reused → root_ r = None → ps !! r = Some p →
    free !! regst_desc_id p = Some (F r) ∧ last_shared_use r (F r) ∧
    born_ r ≤ F r < Z.of_nat (length sorted_tasks)).
  { intros r p Hr Hroot Hp. destruct (P1 r p Hr Hroot Hp) as (v & Hv & L1 & L2 & L3).
    assert (EF : F r = v) by (unfold F; rewrite Hp; cbn; by rewrite Hv). rewrite EF. split; [done|].
    assert (Hseen : ∀ c, (c, r) ∈ map_to_list (consumer2inplaced_regst t) ↔ c ∈ reused ∧ root_ c = Some r).
    { intros c. rewrite elem_of_map_to_list, (sc_inplace _ _ _ _ _ Ht). case_bool_decide; naive_solver. }
    destruct (FindLast_spec _ _ _ _ _ Hck tasks Htasks r p Hr Hp) as [_ Hl]. split.
    - split_and!; [done| |].
      + intros c Hc Hrc. apply L2. by apply Hseen.
      + destruct L3 as [->|(c & Hc%Hseen & ->)]; [by left|right]. exists c. naive_solver.
    - split; [lia|]. destruct L3 as [->|(c & [Hc Hrc]%Hseen & ->)]; [lia|].
      destruct (proto_of _ _ _ _ _ Hck c Hc) as (pc & Hpc & _).
      destruct (FindLast_spec _ _ _ _ _ Hck tasks Htasks c pc Hc Hpc) as [_ ?]. lia. }
  assert (Hid : ∀ id v, free !! id = Some v → ∃ r p, id2reuse !! id = Some r ∧ r ∈ reused ∧ root_ r = None ∧
    ps !! r = Some p ∧ regst_desc_id p = id ∧ v = F r).
  { intros id v Hv. destruct (P2 id) as (r & Hr & Hroot); [by eexists|].
    destruct (ck_reuse _ _ _ _ _ Hck id r Hr) as [Hin (p & Hp & Ep)%fmap_Some].
    exists r, p. split_and!; [done..|]. destruct (HF r p Hin Hroot Hp) as [H1 _]. rewrite <- Ep, Hv in H1. by injection H1. }
  destruct (free_all _ _ _ _ _ Hck tasks Htasks free) as (l & El & [Fl Fin]).
  { intros id v Hv. destruct (Hid id v Hv) as (r & p & H1 & H2 & H3 & H4 & H5 & ->).
    destruct (HF r p H2 H3 H4) as (_ & _ & Hb). pose proof (born_bound _ _ _ _ _ Hck r H2). split; [lia|by eexists]. }
  destruct (run_all _ _ _ _ _ Hck tasks Htasks (alloc_regsts_timeline t) l F) as (s & Er & [A1 A2 A3 A4 A5]).
  { apply (sc_alloc _ _ _ _ _ Ht). }
  { done. }
  { intros i x Hx. destruct (Fin i x Hx) as [N1 N2]. split; [done|]. intros r. rewrite N2. split.
    - intros (id & Hin%elem_of_map_to_list & Hr). destruct (Hid id _ Hin) as (r' & p & H1 & H2 & H3 & H4 & H5 & H6).
      rewrite Hr in H1. injection H1 as <-. done.
    - intros (Hr & Hroot & HFr). destruct (proto_of _ _ _ _ _ Hck r Hr) as (p & Hp & _).
      exists (regst_desc_id p). split; [|by apply (ck_ids _ _ _ _ _ Hck)]. apply elem_of_map_to_list.
      rewrite <- HFr. by apply HF. }
  { intros r Hr Hroot. destruct (proto_of _ _ _ _ _ Hck r Hr) as (p & Hp & _). by apply (HF r p). }
  assert (Hrem : remain_regsts s = ∅).
  { apply set_eq. intros r. rewrite A2. split; [|set_solver]. intros (Hr & Hroot & H).
    destruct (proto_of _ _ _ _ _ Hck r Hr) as (p & Hp & _). destruct (HF r p Hr Hroot Hp) as (_ & _ & ?). lia. }
  exists (regst2lifetime s), (consumer2inplaced_regst t), (peak_memory s), (run_protos s), F. split_and!.
  - unfold GenRegstAllocFreeTimeLineAndRegstLifetimes. rewrite Et. cbn [obind]. rewrite Es. cbn [obind].
    rewrite Ee. cbn [obind]. rewrite El. cbn [obind]. rewrite Er. cbn [obind].
    by rewrite bool_decide_true.
  - apply (sc_inplace _ _ _ _ _ Ht).
  - intros r. rewrite A3. destruct (decide (r ∈ reused)) as [Hr|]; [|by rewrite !bool_decide_false by tauto].
    destruct (decide (root_ r = None)) as [Hroot|]; [|by rewrite !bool_decide_false by tauto].
    destruct (proto_of _ _ _ _ _ Hck r Hr) as (p & Hp & _). destruct (HF r p Hr Hroot Hp) as (_ & _ & Hb).
    rewrite bool_decide_true by (split_and!; [done..|lia]). rewrite bool_decide_true by done.
    destruct (Z.ltb_spec (F r) (Z.of_nat (length sorted_tasks))); [done|lia].
  - intros r Hr Hroot. destruct (proto_of _ _ _ _ _ Hck r Hr) as (p & Hp & _). by apply (HF r p).
  - done.
  - apply A1.
Qed.
End Result.
