(* ===== verification/MemStrategy.v ===== *)
(** * Compressing a shared memory block

    Models [MemoryShareStrategy] of [oneflow/core/job/memory_share_strategy.h] and
    [.cpp].  The strategy takes the offsets that [MemReuse] found, reads from them
    which register lies left of which, and keeps the "left of" relation without its
    redundant pairs; offsets are the longest paths of that relation.  It then takes
    out one register after another and puts it back where the block gets smallest.

    The fields that [StealCompactPosition] sets once ([register_size_],
    [excluded_registers_], [index2register_], [register2index_]) are arguments; the
    others are the state [positions].  Loops over hash sets run in the order of
    [elements].  [std::sort] is an argument: it may order equal elements as it likes.
    [int64_t] sums are exact: they are bounded by the sum of all sizes, and signed
    overflow is undefined.  Recursion is bounded by the number of registers: the
    functions mark a register before they descend, or follow a relation along which
    offsets decrease; running out of fuel is a crash. *)
From stdpp Require Import sorting.
From S2P Require Import Prelude MemReuse.

Definition kMaxIterStep : Z := 100.

(** ** State *)

Record positions := mkPositions {
  register_offset_ : list Z;
  left_registers_ : list (gset nat);
  backup_registers_ : list (gset nat);
  backup_register_behind_i_ : gset nat;
  should_visit_ : list Z;
  order_ : list nat;
}.

Definition set_offset (x : list Z) (s : positions) : positions :=
  mkPositions x (left_registers_ s) (backup_registers_ s) (backup_register_behind_i_ s) (should_visit_ s) (order_ s).
Definition set_left (x : list (gset nat)) (s : positions) : positions :=
  mkPositions (register_offset_ s) x (backup_registers_ s) (backup_register_behind_i_ s) (should_visit_ s) (order_ s).
Definition set_backup (x : list (gset nat)) (y : gset nat) (s : positions) : positions :=
  mkPositions (register_offset_ s) (left_registers_ s) x y (should_visit_ s) (order_ s).
Definition set_visit (x : list Z) (s : positions) : positions :=
  mkPositions (register_offset_ s) (left_registers_ s) (backup_registers_ s) (backup_register_behind_i_ s) x (order_ s).
Definition set_order (x : list nat) (s : positions) : positions :=
  mkPositions (register_offset_ s) (left_registers_ s) (backup_registers_ s) (backup_register_behind_i_ s)
    (should_visit_ s) x.

(** [HashSet::insert] and [erase] in an entry of a vector of sets. *)
Definition add_to (l : list (gset nat)) (j k : nat) : list (gset nat) := <[j := {[k]} ∪ l !!! j]> l.
Definition del_from (l : list (gset nat)) (j k : nat) : list (gset nat) := <[j := l !!! j ∖ {[k]}]> l.

Section Strategy.
Context (std_sort : (nat → nat → bool) → list nat → list nat).
Context (register_size_ : list Z) (excluded_registers_ : list (gset nat)).

Definition total_register_num_ : nat := length register_size_.
#[local] Abbreviation n := total_register_num_.

Definition Exclude (i j : nat) : bool := bool_decide (j ∈ excluded_registers_ !!! i).

(** ** Offsets from the relation *)

(** The offset of [i] and all offsets; an initial value [x] is stored as [-x - 1]. *)
Fixpoint ComputeOffset4CompactRelationship (fuel : nat) (left : list (gset nat)) (offs : list Z) (i : nat)
    : outcome (Z * list Z) :=
  match fuel with
  | O => Crash
  | S fuel =>
      if offs !!! i <? 0 then
        let offs := <[i := - (offs !!! i) - 1]> offs in
        let* offs := ofold (λ offs j,
          let* (x, offs) := ComputeOffset4CompactRelationship fuel left offs j in
          Ret (<[i := Z.max (offs !!! i) (x + register_size_ !!! j)]> offs)) (elements (left !!! i)) offs in
        Ret (offs !!! i, offs)
      else Ret (offs !!! i, offs)
  end.

Definition cost_step (left : list (gset nat)) (acc : Z * list Z) (i : nat) : outcome (Z * list Z) :=
  let* (x, offs) := ComputeOffset4CompactRelationship (S n) left acc.2 i in
  Ret (Z.max acc.1 (x + register_size_ !!! i), offs).

Definition ComputeOptimalCost4CompactRelationship (s : positions) : outcome (Z * positions) :=
  let* (mem_block_size, offs) := ofold (cost_step (left_registers_ s)) (seq 0 n) (0, register_offset_ s) in
  Ret (mem_block_size, set_offset offs s).

Definition ComputeOptimalCostFrom0 (s : positions) : outcome (Z * positions) :=
  ComputeOptimalCost4CompactRelationship (set_offset (replicate n (-1)) s).

(** Registers excluded with [i] keep their offset if they end before [x_i], and
    start behind [i] otherwise. *)
Definition occupy (x_i e_i : Z) (register_offset_backup offs : list Z) (k : nat) : list Z :=
  if x_i <? register_offset_backup !!! k + register_size_ !!! k then <[k := - e_i - 1]> offs
  else <[k := register_offset_backup !!! k]> offs.

Definition ComputeOptimalCostWithOccupation (i : nat) (x_i : Z) (register_offset_backup : list Z)
    (s : positions) : outcome (Z * positions) :=
  let e_i := x_i + register_size_ !!! i in
  let offs := foldl (occupy x_i e_i register_offset_backup) (replicate n (-1))
                (elements (excluded_registers_ !!! i)) in
  ComputeOptimalCost4CompactRelationship (set_offset (<[i := x_i]> offs) s).

(** ** The relation from offsets *)

Fixpoint EliminateRedundantRelationship (fuel : nat) (left : list (gset nat)) (visit : list Z) (i : nat)
    : outcome (list Z) :=
  match fuel with
  | O => Crash
  | S fuel =>
      if visit !!! i =? 0 then Ret visit
      else ofold (λ visit k, let* visit := EliminateRedundantRelationship fuel left visit k in
                             Ret (<[k := 0]> visit)) (elements (left !!! i)) visit
  end.

(** 1: left of [j] and excluded with it; 2: left of [j] and not excluded. *)
Definition mark_left (offs : list Z) (j k : nat) : Z :=
  if offs !!! k <? offs !!! j then (if Exclude k j then 1 else 2) else 0.

Definition ResetCompactPosition (s : positions) (j : nat) : outcome positions :=
  let left := <[j := ∅]> (left_registers_ s) in
  let visit := map (mark_left (register_offset_ s) j) (seq 0 n) in
  let* visit := ofold (λ visit i, if visit !!! i =? 1
                                  then EliminateRedundantRelationship (S n) left visit i else Ret visit)
                  (seq 0 n) visit in
  let left := foldl (λ left i, if visit !!! i =? 1 then add_to left j i else left) left (seq 0 n) in
  Ret (set_visit (replicate n 0) (set_left left s)).

(** ** Taking a register out and putting it back *)

Fixpoint EliminateRedundantRelationshipIgnore (fuel : nat) (left : list (gset nat)) (i : nat)
    (visit : list Z) (j : nat) : outcome (list Z) :=
  match fuel with
  | O => Crash
  | S fuel =>
      if Nat.eqb i j then Ret visit
      else if 0 <? visit !!! j then
        ofold (λ visit k, let* visit := EliminateRedundantRelationshipIgnore fuel left i visit k in
                          Ret (<[k := 0]> visit)) (elements (left !!! j)) (<[j := - (visit !!! j)]> visit)
      else Ret visit
  end.

(** [if (left_registers_[j].insert(k).second) { backup_registers_[j].insert(k); }] *)
Definition relate (visit : list Z) (j : nat) (p : list (gset nat) * list (gset nat)) (k : nat)
    : list (gset nat) * list (gset nat) :=
  if visit !!! k =? -1 then
    if bool_decide (k ∈ p.1 !!! j) then p else (add_to p.1 j k, add_to p.2 j k)
  else p.

Definition eliminate_from (i : nat) (s : positions) (j : nat) : outcome positions :=
  let offs := register_offset_ s in
  if offs !!! i <? offs !!! j then
    let visit := map (mark_left offs j) (seq 0 n) in
    let* visit := ofold (λ visit k, if visit !!! k =? 1
                     then EliminateRedundantRelationshipIgnore (S n) (left_registers_ s) i visit k
                     else Ret visit) (elements (excluded_registers_ !!! j)) visit in
    let '(lefts, backup) := foldl (relate visit j) (left_registers_ s, backup_registers_ s)
                             (elements (excluded_registers_ !!! j)) in
    let s := set_visit visit s in
    if bool_decide (i ∈ lefts !!! j)
    then Ret (set_backup backup ({[j]} ∪ backup_register_behind_i_ s) (set_left (del_from lefts j i) s))
    else Ret (set_backup backup (backup_register_behind_i_ s) (set_left lefts s))
  else Ret s.

Definition EliminateRegister (s : positions) (i : nat) : outcome positions :=
  let s := set_backup (<[i := left_registers_ s !!! i]> (backup_registers_ s)) (backup_register_behind_i_ s) s in
  let* s := ofold (eliminate_from i) (elements (excluded_registers_ !!! i)) s in
  Ret (set_left (<[i := ∅]> (left_registers_ s)) s).

Definition ClearBackup (s : positions) : positions :=
  set_backup (map (λ _, ∅) (backup_registers_ s)) ∅ s.

Definition RecoverFromBackup (s : positions) (i : nat) : positions :=
  let left := foldl (λ left j, if Nat.eqb i j then <[i := backup_registers_ s !!! i]> left
                               else foldl (λ left k, del_from left j k) left (elements (backup_registers_ s !!! j)))
                (left_registers_ s) (seq 0 n) in
  let left := foldl (λ left j, add_to left j i) left (elements (backup_register_behind_i_ s)) in
  ClearBackup (set_left left s).

Definition InsertRegister (s : positions) (i : nat) (x_i : Z) (original_register_offset : list Z)
    : outcome positions :=
  let* (_, s) := ComputeOptimalCostWithOccupation i x_i original_register_offset s in
  let offs := register_offset_ s in
  let s := set_order (std_sort (λ k j, offs !!! k <? offs !!! j) (order_ s)) s in
  ofold (λ s j, if register_offset_ s !!! i <=? register_offset_ s !!! j
                then ResetCompactPosition s j else Ret s) (order_ s) s.

(** [Maybe<void> CheckConflict()]. *)
Definition no_conflict (offs : list Z) (i j : nat) : bool :=
  (offs !!! i + register_size_ !!! i <=? offs !!! j) || (offs !!! j + register_size_ !!! j <=? offs !!! i).

Definition CheckConflict (index2register_ : list nat) (s : positions) : outcome unit :=
  let offs := register_offset_ s in
  let* _ := CHECK_OR_RETURN (Nat.eqb (length index2register_) (length offs)) CheckFailedError in
  ofold (λ _ i,
    let* _ := CHECK_OR_RETURN (0 <=? offs !!! i) CheckFailedError in
    ofold (λ _ j, CHECK_OR_RETURN (no_conflict offs i j) CheckFailedError)
      (elements (excluded_registers_ !!! i)) tt) (seq 0 n) tt.

(** [CHECK_JUST]. *)
Definition CHECK_JUST {A : Type} (m : outcome A) : outcome A :=
  match m with Ret x => Ret x | _ => Crash end.

(** ** The search *)

(** The loop over [all_x_i]: [min_cost], [min_x_i]. *)
Fixpoint try_positions (i : nat) (cost_without_i : Z) (backup : list Z) (xs : list Z) (min_cost min_x_i : Z)
    (s : positions) : outcome (Z * Z * positions) :=
  match xs with
  | [] => Ret (min_cost, min_x_i, s)
  | x_i :: xs =>
      let* (cost_insert_i, s) := ComputeOptimalCostWithOccupation i x_i backup s in
      if cost_insert_i <? min_cost then
        if cost_insert_i <=? cost_without_i then Ret (cost_insert_i, x_i, s)
        else try_positions i cost_without_i backup xs cost_insert_i x_i s
      else try_positions i cost_without_i backup xs min_cost min_x_i s
  end.

Definition all_x_i (i : nat) (backup : list Z) : gset Z :=
  foldl (λ X j, {[backup !!! j + register_size_ !!! j]} ∪ ({[backup !!! j]} ∪ X)) ∅
    (elements (excluded_registers_ !!! i)).

(** One pass of the inner loop: [optimal_cost], [step_no_decrease]. *)
Definition adjust_register (st : Z * Z * positions) (i : nat) : outcome (Z * Z * positions) :=
  let '(optimal_cost, step_no_decrease, s) := st in
  let* s := EliminateRegister s i in
  let* (cost_without_i, s) := ComputeOptimalCostFrom0 s in
  let* (optimal_cost, min_x_i, s) :=
    if cost_without_i <? optimal_cost then
      let backup := register_offset_ s in
      let* (_, min_x_i, s) := try_positions i cost_without_i backup (elements (all_x_i i backup)) optimal_cost (-1) s in
      if 0 <=? min_x_i then
        let* s := InsertRegister s i min_x_i backup in
        let* (optimal_cost, s) := ComputeOptimalCostFrom0 s in
        Ret (optimal_cost, min_x_i, s)
      else Ret (optimal_cost, min_x_i, s)
    else Ret (optimal_cost, -1, s) in
  if 0 <=? min_x_i then Ret (optimal_cost, 0, ClearBackup s)
  else
    let* (_, s) := ComputeOptimalCostFrom0 (RecoverFromBackup s i) in
    Ret (optimal_cost, step_no_decrease + 1, s).

(** The inner loop with its break, which follows a failed adjustment. *)
Fixpoint adjust_all (ids : list nat) (st : Z * Z * positions) : outcome (Z * Z * positions) :=
  match ids with
  | [] => Ret st
  | i :: ids =>
      let* st := adjust_register st i in
      if (0 <? st.1.2) && (Z.of_nat n <=? st.1.2) then Ret st else adjust_all ids st
  end.

Fixpoint iterate (max_iteration_step : nat) (st : Z * Z * positions) : outcome (Z * Z * positions) :=
  match max_iteration_step with
  | O => Ret st
  | S m =>
      let* st := adjust_all (seq 0 n) st in
      if Z.of_nat n <=? st.1.2 then Ret st else iterate m st
  end.

Definition ComputeOptimalAdjustedCost (max_iteration_step_ : Z) (index2register_ : list nat) (s : positions)
    : outcome (Z * positions) :=
  let* (optimal_cost, s) := ComputeOptimalCostFrom0 s in
  let s := set_backup (replicate n ∅) (backup_register_behind_i_ s) s in
  let* st := iterate (Z.to_nat max_iteration_step_) (optimal_cost, 0, s) in
  let* _ := CHECK_JUST (CheckConflict index2register_ st.2) in
  Ret (st.1.1, st.2).
End Strategy.

(** ** Entry points *)

Section Entry.
Context (std_sort : (nat → nat → bool) → list nat → list nat).

(** The pairs of registers that are alive at the same time. *)
Definition exclude_pair (lifetimes : list lifetime) (j : nat) (ex : list (gset nat)) (i : nat) : list (gset nat) :=
  if IsLifetimeExcluded (lifetimes !!! j) (lifetimes !!! i) then add_to (add_to ex j i) i j else ex.

Definition init_excluded (lifetimes : list lifetime) : list (gset nat) :=
  let n := length lifetimes in
  foldl (λ ex j, foldl (exclude_pair lifetimes j) ex (seq (S j) (n - S j))) (replicate n ∅) (seq 0 n).

(** What [StealCompactPosition] leaves in the object. *)
Record compact := mkCompact {
  index2register_ : list nat;
  register2index_ : gmap nat nat;
  c_register_size_ : list Z;
  c_excluded_registers_ : list (gset nat);
  c_positions : positions;
}.

Definition StealCompactPosition (regst_desc2offset : gmap nat Z) (mem_reused_regst2size : gmap nat Z)
    (register2lifetime : gmap nat lifetime) : outcome compact :=
  let keys := (map_to_list register2lifetime).*1 in
  let* _ := omap_list (map_at regst_desc2offset) keys in
  let index2register := std_sort (λ i j, default 0 (regst_desc2offset !! i) <? default 0 (regst_desc2offset !! j)) keys in
  let n := length index2register in
  let* sizes := omap_list (map_at mem_reused_regst2size) index2register in
  let register2index := foldl (λ m p, <[p.1 := p.2]> m) ∅ (zip index2register (seq 0 n)) in
  let* offsets := omap_list (map_at regst_desc2offset) index2register in
  let* lifetimes := omap_list (map_at register2lifetime) index2register in
  let excluded := init_excluded lifetimes in
  let s := mkPositions offsets (replicate n ∅) [] ∅ (replicate n 0) (seq 0 n) in
  let* s := ofold (ResetCompactPosition sizes excluded) (seq 0 n) s in
  Ret (mkCompact index2register register2index sizes excluded s).

(** [register2index_[r]] of an unknown register is 0. *)
Definition UpdateOffset (max_iteration_step_ : Z) (c : compact) (mem_block_size : Z) (regst_desc2offset : gmap nat Z)
    : outcome (Z * gmap nat Z) :=
  let* (optimal_cost, s) := ComputeOptimalAdjustedCost std_sort (c_register_size_ c) (c_excluded_registers_ c)
                              max_iteration_step_ (index2register_ c) (c_positions c) in
  if optimal_cost <? mem_block_size
  then Ret (optimal_cost, map_imap (λ r _, Some (register_offset_ s !!! default 0%nat (register2index_ c !! r)))
                            regst_desc2offset)
  else Ret (mem_block_size, regst_desc2offset).

(** [((mem_block_size - lower_bound) * 100) / lower_bound] of [size_t]s, read as an
    [int32_t]. *)
Definition UpdateMaxIteration (mem_block_size lower_bound : Z) : Z :=
  let step := if 0 <? lower_bound
              then i32 (u64 (u64 (mem_block_size - lower_bound) * 100) / lower_bound) else 0 in
  if step <? 0 then kMaxIterStep else step.

Definition AdaptivelyUpdateOffset (mem_reused_regst2size : gmap nat Z) (register2lifetime : gmap nat lifetime)
    (lower_bound mem_block_size : Z) (regst_desc2offset : gmap nat Z) : outcome (Z * gmap nat Z) :=
  if lower_bound <? mem_block_size then
    let max_iteration_step_ := UpdateMaxIteration mem_block_size lower_bound in
    if 0 <? max_iteration_step_ then
      let* c := StealCompactPosition regst_desc2offset mem_reused_regst2size register2lifetime in
      UpdateOffset max_iteration_step_ c mem_block_size regst_desc2offset
    else Ret (mem_block_size, regst_desc2offset)
  else Ret (mem_block_size, regst_desc2offset).

(** Offsets 0, 1, 2, ... in the order of the map. *)
Definition GenerateCompactPosition (mem_reused_regst2size : gmap nat Z) (register2lifetime : gmap nat lifetime)
    : outcome compact :=
  let keys := (map_to_list register2lifetime).*1 in
  StealCompactPosition (foldl (λ m p, <[p.1 := Z.of_nat p.2]> m) ∅ (zip keys (seq 0 (length keys))))
    mem_reused_regst2size register2lifetime.

Definition GenerateOffset (mem_reused_regst2size : gmap nat Z) (register2lifetime : gmap nat lifetime)
    (mem_block_size : Z) (regst_desc2offset : gmap nat Z) : outcome (Z * gmap nat Z) :=
  let* c := GenerateCompactPosition mem_reused_regst2size register2lifetime in
  UpdateOffset kMaxIterStep c mem_block_size regst_desc2offset.
End Entry.

(** A stable insertion sort stands for [std::sort] in the examples. *)
Fixpoint insert_by (before : nat → nat → bool) (x : nat) (l : list nat) : list nat :=
  match l with
  | [] => [x]
  | y :: l' => if before x y then x :: l else y :: insert_by before x l'
  end.
Definition sort_by (before : nat → nat → bool) (l : list nat) : list nat := foldl (λ l x, insert_by before x l) [] l.

Example compress :
  ∃ offs, AdaptivelyUpdateOffset sort_by {[1%nat := 4; 2%nat := 4; 3%nat := 8; 4%nat := 8]}
    {[1%nat := (0, 2); 2%nat := (1, 3); 3%nat := (2, 4); 4%nat := (3, 5)]} 16 20
    {[1%nat := 0; 2%nat := 4; 3%nat := 8; 4%nat := 0]} = Ret (16, offs).
Proof. eexists. vm_compute. reflexivity. Qed.
