(* ===== verification/MemStrategySpec.v ===== *)
(** * Compressing a block keeps it free of conflicts

    The strategy of [MemStrategy] keeps a relation "left of" between the registers
    that are alive at the same time.  It is acyclic, and any two such registers are
    ordered by its transitive closure; offsets are the longest paths, so registers
    alive at the same time do not overlap.  Reading the relation off offsets, taking
    a register out, putting it back elsewhere and restoring the old relation keep
    this, if every register has at least one byte: the final check never fails and
    all recursion is bounded by the number of registers.  That taking a register out
    loses no ordering is a property of intervals: two registers that were ordered
    only through the removed one both meet it in time. *)
From stdpp Require Import sorting relations.
From S2P Require Import Prelude MemReuse MemStrategy.

(** ** Relations, ranks and maxima *)

Definition edge (L : list (gset nat)) (a b : nat) : Prop := a ∈ L !!! b.

Lemma tc_mono {A : Type} (R S : relation A) (x y : A) : (∀ a b, R a b → S a b) → tc R x y → tc S x y.
Proof. intros H. induction 1; [apply tc_once; auto|eapply tc_l; eauto]. Qed.

Lemma rtc_mono {A : Type} (R S : relation A) (x y : A) : (∀ a b, R a b → S a b) → rtc R x y → rtc S x y.
Proof. intros H. induction 1; [apply rtc_refl|eapply rtc_l; eauto]. Qed.

Lemma filter_length_lt {A : Type} (P Q : A → Prop) `{∀ x, Decision (P x), ∀ x, Decision (Q x)} (l : list A) (a : A) :
  (∀ x, P x → Q x) → a ∈ l → Q a → ¬ P a → (length (filter P l) < length (filter Q l))%nat.
Proof.
  intros HPQ Ha HQ HP.
  assert (Hle : ∀ k, (length (filter P k) ≤ length (filter Q k))%nat).
  { induction k as [|x k IH]; [done|]. rewrite !filter_cons. repeat case_decide; simpl; try lia. naive_solver. }
  induction Ha as [a l|a x l _ IH]; rewrite !filter_cons.
  - rewrite decide_False, decide_True by done. specialize (Hle l). simpl. lia.
  - specialize (IH HQ HP). repeat case_decide; simpl; try lia. naive_solver.
Qed.

Section Maxima.
Context {A : Type} (g : A → Z).

Definition max_over (b : Z) (l : list A) : Z := foldl (λ m j, Z.max m (g j)) b l.

Lemma max_over_spec (b : Z) (l : list A) :
  b ≤ max_over b l ∧ (∀ j, j ∈ l → g j ≤ max_over b l) ∧
  (max_over b l = b ∨ ∃ j, j ∈ l ∧ max_over b l = g j).
Proof.
  unfold max_over. revert b. induction l as [|x l IH]; intros b; cbn [foldl].
  { split_and!; [lia|set_solver|by left]. }
  destruct (IH (Z.max b (g x))) as (H1 & H2 & H3). split_and!; [lia| |].
  - intros j [->|Hj]%elem_of_cons; [lia|auto].
  - destruct H3 as [H3|(j & Hj & H3)]; [|right; exists j; split; [set_solver|done]].
    rewrite H3. destruct (Z.max_spec b (g x)) as [[_ ->]|[_ ->]]; [right; exists x; split; [set_solver|done]|by left].
Qed.
End Maxima.

Lemma max_over_ext {A : Type} (g h : A → Z) (b : Z) (l : list A) :
  (∀ j, j ∈ l → g j = h j) → max_over g b l = max_over h b l.
Proof.
  unfold max_over. revert b. induction l as [|x l IH]; intros b H; [done|]. cbn [foldl].
  rewrite (H x) by set_solver. apply IH. set_solver.
Qed.

Section Spec.
Context (sz : list Z) (ex : list (gset nat)).
#[local] Abbreviation n := (length sz).

(** The number of registers with a smaller key bounds descending recursion. *)
Definition rank (f : nat → Z) (i : nat) : nat := length (filter (λ k, f k < f i) (seq 0 n)).

Lemma rank_lt (f : nat → Z) (a b : nat) : (a < n)%nat → f a < f b → (rank f a < rank f b)%nat.
Proof.
  intros Ha Hab. apply (filter_length_lt _ _ _ a); [intros; lia|apply elem_of_seq; lia|done|lia].
Qed.

Lemma rank_le (f : nat → Z) (i : nat) : (rank f i < S n)%nat.
Proof.
  unfold rank. pose proof (length_filter (λ k, f k < f i) (seq 0 n)) as H. rewrite length_seq in H. lia.
Qed.

(** ** Offsets are longest paths *)

Section Longest.
Context (L : list (gset nat)) (f : nat → Z) (init : list Z).
Context (Hdesc : ∀ a b, a ∈ L !!! b → (a < n)%nat ∧ f a < f b).

(** The value that an entry of [init] stands for: itself, or, if it is [-x - 1], at
    least [x] and at least the end of everything on its left. *)
Fixpoint longest (fuel : nat) (i : nat) : Z :=
  match fuel with
  | O => 0
  | S fuel =>
      if init !!! i <? 0
      then max_over (λ j, longest fuel j + sz !!! j) (- (init !!! i) - 1) (elements (L !!! i))
      else init !!! i
  end.

Lemma longest_enough (fuel1 fuel2 i : nat) :
  (rank f i < fuel1)%nat → (rank f i < fuel2)%nat → longest fuel1 i = longest fuel2 i.
Proof.
  revert fuel2 i. induction fuel1 as [|fuel1 IH]; intros [|fuel2] i H1 H2; [lia..|]. cbn [longest].
  destruct (init !!! i <? 0); [|done]. apply max_over_ext. intros j Hj%elem_of_elements.
  destruct (Hdesc j i Hj) as [Hjn Hf]. pose proof (rank_lt f j i Hjn Hf).
  f_equal. apply IH; lia.
Qed.

Definition path_end (i : nat) : Z := longest (S n) i.

Lemma path_end_eq (i : nat) :
  path_end i = if init !!! i <? 0
               then max_over (λ j, path_end j + sz !!! j) (- (init !!! i) - 1) (elements (L !!! i))
               else init !!! i.
Proof.
  unfold path_end at 1. cbn [longest]. destruct (init !!! i <? 0); [|done].
  apply max_over_ext. intros j Hj%elem_of_elements. destruct (Hdesc j i Hj) as [Hjn Hf].
  f_equal. pose proof (rank_lt f j i Hjn Hf). pose proof (rank_le f i). apply longest_enough; lia.
Qed.

Lemma path_end_fixed (i : nat) : 0 ≤ init !!! i → path_end i = init !!! i.
Proof. intros H. rewrite path_end_eq. by rewrite (proj2 (Z.ltb_ge _ _)). Qed.

Lemma path_end_free (i : nat) : init !!! i < 0 →
  - (init !!! i) - 1 ≤ path_end i ∧ (∀ j, j ∈ L !!! i → path_end j + sz !!! j ≤ path_end i) ∧
  (path_end i = - (init !!! i) - 1 ∨ ∃ j, j ∈ L !!! i ∧ path_end i = path_end j + sz !!! j).
Proof.
  intros H. rewrite (path_end_eq i), (proj2 (Z.ltb_lt _ _)) by done.
  destruct (max_over_spec (λ j, path_end j + sz !!! j) (- (init !!! i) - 1) (elements (L !!! i))) as (H1 & H2 & H3).
  split_and!; [done| |].
  - intros j Hj. by apply H2, elem_of_elements.
  - destruct H3 as [H3|(j & Hj%elem_of_elements & H3)]; [by left|right; eauto].
Qed.

Lemma path_end_nonneg (i : nat) : 0 ≤ path_end i.
Proof.
  destruct (Z_lt_le_dec (init !!! i) 0) as [H|H]; [pose proof (path_end_free i H) as (? & _); lia|].
  by rewrite path_end_fixed.
Qed.
(** The recursion leaves every entry as it was or at its final value. *)
Definition settled (i : nat) (o : list Z) : Prop :=
  length o = n ∧ ∀ k, (k < n)%nat → f k ≤ f i → o !!! k = init !!! k ∨ o !!! k = path_end k.

Lemma fold_left_of (rec : list Z → nat → outcome (Z * list Z)) (i : nat) (o : list Z) (js : list nat) :
  (i < n)%nat → (∀ j, j ∈ js → j ∈ L !!! i) →
  (∀ o j, j ∈ L !!! i → settled j o → ∃ o', rec o j = Ret (path_end j, o') ∧ length o' = n ∧
     ∀ k, o' !!! k = o !!! k ∨ ((k < n)%nat ∧ f k ≤ f j ∧ o' !!! k = path_end k)) →
  (∀ j, j ∈ L !!! i → settled j o) → length o = n →
  ∃ o', ofold (λ o j, let* (x, o) := rec o j in Ret (<[i := Z.max (o !!! i) (x + sz !!! j)]> o)) js o = Ret o' ∧
    length o' = n ∧ o' !!! i = max_over (λ j, path_end j + sz !!! j) (o !!! i) js ∧
    ∀ k, k ≠ i → o' !!! k = o !!! k ∨ ((k < n)%nat ∧ f k ≤ f i ∧ o' !!! k = path_end k).
Proof.
  intros Hi Hjs Hrec. revert o. induction js as [|j js IH]; intros o Hset Hlen.
  { exists o. split_and!; auto. }
  assert (Hj : j ∈ L !!! i) by (apply Hjs; set_solver). destruct (Hdesc j i Hj) as [Hjn Hf].
  destruct (Hrec o j Hj (Hset j Hj)) as (o1 & E1 & Hl1 & H1).
  cbn [ofold]. rewrite E1. cbn [obind].
  assert (Ei : o1 !!! i = o !!! i) by (destruct (H1 i) as [->|(_ & ? & _)]; [done|lia]).
  rewrite Ei. set (o2 := <[i := _]> o1).
  assert (H2 : ∀ k, k ≠ i → o2 !!! k = o !!! k ∨ ((k < n)%nat ∧ f k ≤ f i ∧ o2 !!! k = path_end k)).
  { intros k Hk. unfold o2. rewrite list_lookup_total_insert_ne by done.
    destruct (H1 k) as [->|(? & ? & ->)]; [by left|right; split_and!; [done|lia|done]]. }
  destruct (IH ltac:(set_solver) o2) as (o' & E & Hl & Hmax & Hk).
  - intros m Hm. destruct (Hset m Hm) as [_ Hs]. split; [unfold o2; by rewrite length_insert|].
    intros k Hkn Hkm. destruct (Hdesc m i Hm) as [_ Hfm].
    destruct (H2 k) as [->|(_ & _ & ->)]; [intros ->; lia|auto|auto].
  - unfold o2. by rewrite length_insert.
  - exists o'. split_and!; [done|done| |].
    + rewrite Hmax. unfold o2. rewrite list_lookup_total_insert_eq by lia. done.
    + intros k Hki. destruct (Hk k Hki) as [->|?]; [by apply H2|by right].
Qed.

Lemma compute_spec (fuel : nat) (o : list Z) (i : nat) :
  (i < n)%nat → (rank f i < fuel)%nat → settled i o →
  ∃ o', ComputeOffset4CompactRelationship sz fuel L o i = Ret (path_end i, o') ∧ length o' = n ∧
    o' !!! i = path_end i ∧
    ∀ k, o' !!! k = o !!! k ∨ ((k < n)%nat ∧ f k ≤ f i ∧ o' !!! k = path_end k).
Proof.
  revert o i. induction fuel as [|fuel IH]; intros o i Hi Hr [Hlen Hset]; [lia|].
  cbn [ComputeOffset4CompactRelationship]. pose proof (path_end_nonneg i) as Hnn.
  destruct (Hset i Hi ltac:(lia)) as [Eo|Eo]; cycle 1.
  { rewrite Eo, (proj2 (Z.ltb_ge _ _)) by done. exists o. split_and!; auto. }
  destruct (Z.ltb_spec (o !!! i) 0) as [Hneg|Hpos]; cycle 1.
  { rewrite Eo in Hpos. rewrite path_end_fixed, <- Eo by done. exists o. split_and!; auto. }
  set (o1 := <[i := - (o !!! i) - 1]> o).
  destruct (fold_left_of (λ o j, ComputeOffset4CompactRelationship sz fuel L o j) i o1 (elements (L !!! i)))
    as (o2 & E & Hl2 & Hmax & H2).
  - done.
  - intros j. by rewrite elem_of_elements.
  - intros o0 j Hj Hs. destruct (Hdesc j i Hj) as [Hjn Hf]. pose proof (rank_lt f j i Hjn Hf).
    destruct (IH o0 j Hjn ltac:(lia) Hs) as (o' & E & Hl & _ & H'). by exists o'.
  - intros j Hj. destruct (Hdesc j i Hj) as [_ Hf]. split; [unfold o1; by rewrite length_insert|].
    intros k Hk Hkj. unfold o1. rewrite list_lookup_total_insert_ne by (intros ->; lia). apply Hset; [done|lia].
  - unfold o1. by rewrite length_insert.
  - rewrite E. cbn [obind].
    assert (Ei : o2 !!! i = path_end i).
    { rewrite Hmax. unfold o1. rewrite list_lookup_total_insert_eq, (path_end_eq i), <- Eo by lia.
      by rewrite (proj2 (Z.ltb_lt _ _)). }
    exists o2. rewrite Ei. split_and!; [done|done|done|]. intros k. destruct (decide (k = i)) as [->|Hk].
    + right. split_and!; [done|lia|done].
    + destruct (H2 k Hk) as [Ek|?]; [left|by right]. rewrite Ek. unfold o1. by rewrite list_lookup_total_insert_ne.
Qed.

Definition cost_of (W : nat → Z) : Z := max_over (λ i, W i + sz !!! i) 0 (seq 0 n).

Lemma cost_run : length init = n →
  ofold (cost_step sz L) (seq 0 n) (0, init) = Ret (cost_of path_end, map path_end (seq 0 n)).
Proof.
  intros Hlen. unfold cost_of.
  assert (H : ∀ ids c o, (∀ i, i ∈ ids → (i < n)%nat) → length o = n →
    (∀ k, (k < n)%nat → (o !!! k = init !!! k ∧ k ∈ ids) ∨ o !!! k = path_end k) →
    ∃ o', ofold (cost_step sz L) ids (c, o) = Ret (max_over (λ i, path_end i + sz !!! i) c ids, o') ∧ length o' = n ∧
      ∀ k, (k < n)%nat → o' !!! k = path_end k).
  { induction ids as [|i ids IH]; intros c o His Hl Ho.
    { exists o. split_and!; [done|done|]. intros k Hk. destruct (Ho k Hk) as [[_ ?%elem_of_nil]|]; done. }
    assert (Hi : (i < n)%nat) by (apply His; set_solver).
    destruct (compute_spec (S n) o i Hi (rank_le f i)) as (o1 & E & Hl1 & Ei & H1).
    { split; [done|]. intros k Hk _. destruct (Ho k Hk) as [[? _]|]; auto. }
    cbn [ofold]. unfold cost_step at 1. cbn [fst snd]. unfold total_register_num_. rewrite E. cbn [obind].
    destruct (IH (Z.max c (path_end i + sz !!! i)) o1) as (o' & E' & Hl' & Hk); [set_solver|done| |].
    - intros k Hk. destruct (decide (k = i)) as [->|Hne]; [by right|].
      destruct (H1 k) as [->|(_ & _ & ->)]; [|by right].
      destruct (Ho k Hk) as [[? Hin]|?]; [left|by right]. split; [done|set_solver].
    - exists o'. by rewrite E'. }
  destruct (H (seq 0 n) 0 init) as (o & E & Hl & Ho).
  - intros i. rewrite elem_of_seq. lia.
  - done.
  - intros k Hk. left. split; [done|]. apply elem_of_seq. lia.
  - rewrite E. do 2 f_equal. apply list_eq. intros k. destruct (decide (k < n)%nat) as [Hk|Hk].
    + rewrite list_lookup_fmap, lookup_seq_lt by done. cbn [fmap option_fmap option_map Nat.add].
      rewrite <- (Ho k Hk). apply list_lookup_lookup_total_lt. lia.
    + rewrite !lookup_ge_None_2; [done|rewrite length_map, length_seq; lia|lia].
Qed.
End Longest.
(** ** The relation *)

Context (Hex : ∀ i j, j ∈ ex !!! i → (i < n)%nat ∧ (j < n)%nat ∧ i ∈ ex !!! j ∧ i ≠ j).

Definition edges_ok (L : list (gset nat)) (O : nat → Z) : Prop :=
  length L = n ∧ ∀ a b, a ∈ L !!! b → a ∈ ex !!! b ∧ O a < O b.

(** Registers alive at the same time are ordered. *)
Definition total (L : list (gset nat)) : Prop :=
  ∀ a b, a ∈ ex !!! b → tc (edge L) a b ∨ tc (edge L) b a.

Definition covered (L : list (gset nat)) (O : nat → Z) (b : nat) : Prop :=
  ∀ a, a ∈ ex !!! b → O a < O b → tc (edge L) a b.

Lemma edges_desc (L : list (gset nat)) (O : nat → Z) : edges_ok L O →
  ∀ a b, a ∈ L !!! b → (a < n)%nat ∧ O a < O b.
Proof. intros [_ H] a b Hab. destruct (H a b Hab) as [Hx ?]. split; [|done]. by apply (Hex b a). Qed.

Lemma tc_lt (L : list (gset nat)) (O : nat → Z) (a b : nat) : edges_ok L O → tc (edge L) a b → O a < O b.
Proof. intros [_ H]. induction 1 as [a b Hab|a m b Ham _ IH]; [by apply H|]. apply H in Ham as [_ ?]. lia. Qed.

Lemma rtc_le (L : list (gset nat)) (O : nat → Z) (a b : nat) : edges_ok L O → rtc (edge L) a b → O a ≤ O b.
Proof. intros HL [->|Hab]%rtc_tc; [lia|]. apply (tc_lt L O) in Hab; [lia|done]. Qed.

(** A path depends on the entries of its end and of what lies left of it. *)
Lemma tc_keep (L L' : list (gset nat)) (O : nat → Z) (a b : nat) :
  edges_ok L O → L' !!! b = L !!! b → (∀ m, O m < O b → L' !!! m = L !!! m) →
  tc (edge L) a b → tc (edge L') a b.
Proof.
  intros HL Hb Hm Hab. induction Hab as [a b Hab|a m b Ham Hmb IH].
  - apply tc_once. unfold edge. by rewrite Hb.
  - apply tc_l with m; [|by apply IH]. unfold edge. rewrite Hm; [done|]. by eapply tc_lt.
Qed.

Lemma total_covered (L : list (gset nat)) (O : nat → Z) : edges_ok L O → total L → ∀ b, covered L O b.
Proof.
  intros HL Ht b a Hab Hlt. destruct (Ht a b Hab) as [?|Hba]; [done|]. apply (tc_lt L O) in Hba; [lia|done].
Qed.

Lemma covered_total (L : list (gset nat)) (O : nat → Z) :
  (∀ a b, a ∈ ex !!! b → O a ≠ O b) → (∀ b, covered L O b) → total L.
Proof.
  intros Hne Hc a b Hab. destruct (Z.lt_trichotomy (O a) (O b)) as [?|[?|?]].
  - left. by apply Hc.
  - by destruct (Hne a b Hab).
  - right. apply Hc; [|done]. by apply (Hex b a).
Qed.

(** ** Reading the relation off the offsets *)

Lemma insert_total_cases {A : Type} `{Inhabited A} (l : list A) (k m : nat) (x : A) :
  <[k := x]> l !!! m = l !!! m ∨ (m = k ∧ <[k := x]> l !!! m = x).
Proof.
  destruct (decide (m = k)) as [->|Hne]; [|left; by rewrite list_lookup_total_insert_ne].
  destruct (decide (k < length l)%nat); [right; by rewrite list_lookup_total_insert_eq|left].
  by rewrite list_insert_ge by lia.
Qed.

Lemma map_seq_total {A : Type} `{Inhabited A} (g : nat → A) (m k : nat) : (k < m)%nat → map g (seq 0 m) !!! k = g k.
Proof. intros Hk. apply list_lookup_total_correct. by rewrite list_lookup_fmap, lookup_seq_lt. Qed.

Lemma redundant_spec (L : list (gset nat)) (O : nat → Z) (fuel : nat) (visit : list Z) (i : nat) :
  edges_ok L O → (rank O i < fuel)%nat →
  ∃ visit', EliminateRedundantRelationship fuel L visit i = Ret visit' ∧
    ∀ k, visit' !!! k = visit !!! k ∨ (visit' !!! k = 0 ∧ tc (edge L) k i).
Proof.
  intros HL. revert visit i. induction fuel as [|fuel IH]; intros visit i Hr; [lia|].
  cbn [EliminateRedundantRelationship]. destruct (visit !!! i =? 0); [by exists visit; auto|].
  assert (H : ∀ ks v, (∀ k, k ∈ ks → k ∈ L !!! i) →
    ∃ v', ofold (λ v k, let* v := EliminateRedundantRelationship fuel L v k in Ret (<[k := 0]> v)) ks v = Ret v' ∧
      ∀ k, v' !!! k = v !!! k ∨ (v' !!! k = 0 ∧ tc (edge L) k i)).
  { induction ks as [|x ks IHks]; intros v Hks; [by exists v; auto|].
    assert (Hx : x ∈ L !!! i) by (apply Hks; set_solver). destruct (edges_desc L O HL x i Hx) as [Hxn Hlt].
    pose proof (rank_lt O x i Hxn Hlt). destruct (IH v x ltac:(lia)) as (v1 & E1 & H1).
    cbn [ofold]. rewrite E1. cbn [obind]. destruct (IHks (<[x := 0]> v1) ltac:(set_solver)) as (v2 & E2 & H2).
    exists v2. split; [done|]. intros k. destruct (H2 k) as [->|?]; [|by right].
    destruct (insert_total_cases v1 x k 0) as [->|[-> ->]]; [|right; split; [done|by apply tc_once]].
    destruct (H1 k) as [->|[-> Hk]]; [by left|right; split; [done|]]. by eapply tc_r. }
  apply H. intros k. by rewrite elem_of_elements.
Qed.

Lemma mark_left_cases (offs : list Z) (j k : nat) :
  (mark_left ex offs j k = 1 ↔ offs !!! k < offs !!! j ∧ k ∈ ex !!! j).
Proof.
  unfold mark_left, Exclude. destruct (Z.ltb_spec (offs !!! k) (offs !!! j)); [|split; [done|lia]].
  case_bool_decide as Hx.
  - split; [|done]. intros _. split; [done|]. by apply (Hex k j).
  - split; [done|]. intros [_ Hk]. destruct Hx. by apply (Hex j k).
Qed.

Lemma roots_spec (L : list (gset nat)) (offs : list Z) (j : nat) :
  let O := λ k, offs !!! k in
  edges_ok L O →
  ∃ visit, ofold (λ visit i, if visit !!! i =? 1 then EliminateRedundantRelationship (S n) L visit i else Ret visit)
             (seq 0 n) (map (mark_left ex offs j) (seq 0 n)) = Ret visit ∧
    ∀ k, (k < n)%nat → visit !!! k = mark_left ex offs j k ∨
      (visit !!! k = 0 ∧ ∃ i, i ∈ ex !!! j ∧ O i < O j ∧ tc (edge L) k i).
Proof.
  intros O HL.
  assert (H : ∀ ids v, (∀ i, i ∈ ids → (i < n)%nat) →
    (∀ k, (k < n)%nat → v !!! k = mark_left ex offs j k ∨
      (v !!! k = 0 ∧ ∃ i, i ∈ ex !!! j ∧ O i < O j ∧ tc (edge L) k i)) →
    ∃ v', ofold (λ visit i, if visit !!! i =? 1 then EliminateRedundantRelationship (S n) L visit i else Ret visit)
            ids v = Ret v' ∧ ∀ k, (k < n)%nat → v' !!! k = mark_left ex offs j k ∨
      (v' !!! k = 0 ∧ ∃ i, i ∈ ex !!! j ∧ O i < O j ∧ tc (edge L) k i)).
  { induction ids as [|i ids IH]; intros v Hids Hv; [by exists v|]. cbn [ofold].
    destruct (Z.eqb_spec (v !!! i) 1) as [Ei|_]; [|apply IH; [set_solver|done]].
    destruct (redundant_spec L O (S n) v i HL (rank_le O i)) as (v1 & E1 & H1). rewrite E1. cbn [obind].
    apply IH; [set_solver|]. intros k Hk. destruct (H1 k) as [->|[-> Htc]]; [auto|]. right. split; [done|].
    exists i. destruct (Hv i ltac:(set_solver)) as [Em|[E0 _]]; [|lia].
    rewrite Ei in Em. symmetry in Em. apply mark_left_cases in Em as [??]. done. }
  apply H.
  - intros i. rewrite elem_of_seq. lia.
  - intros k Hk. left. by apply map_seq_total.
Qed.

Lemma add_marked_spec (visit : list Z) (L : list (gset nat)) (j : nat) (ids : list nat) : (j < length L)%nat →
  ∃ X, foldl (λ L i, if visit !!! i =? 1 then add_to L j i else L) L ids = <[j := X]> L ∧
    ∀ k, k ∈ X ↔ k ∈ L !!! j ∨ (k ∈ ids ∧ visit !!! k = 1).
Proof.
  intros Hj. revert L Hj. induction ids as [|i ids IH]; intros L Hj; cbn [foldl].
  { exists (L !!! j). split; [|set_solver]. symmetry. apply list_insert_id. by apply list_lookup_lookup_total_lt. }
  destruct (Z.eqb_spec (visit !!! i) 1) as [Ei|Ei].
  - destruct (IH (add_to L j i)) as (X & E & HX); [unfold add_to; by rewrite length_insert|].
    exists X. rewrite E. unfold add_to in *. rewrite list_insert_insert_eq. split; [done|]. intros k.
    rewrite HX, list_lookup_total_insert_eq by done. set_solver.
  - destruct (IH L Hj) as (X & E & HX). exists X. split; [done|]. intros k. rewrite HX. set_solver.
Qed.

(** Resetting [j] orders it behind everything that is alive with it and has a
    smaller offset. *)
Lemma Reset_spec (s : positions) (j : nat) :
  let O := λ k, register_offset_ s !!! k in
  edges_ok (left_registers_ s) O → (j < n)%nat →
  ∃ X, let L' := <[j := X]> (left_registers_ s) in
    ResetCompactPosition sz ex s j = Ret (set_visit (replicate n 0) (set_left L' s)) ∧
    edges_ok L' O ∧ covered L' O j ∧ ∀ b, b ≠ j → O b ≤ O j → covered (left_registers_ s) O b → covered L' O b.
Proof.
  intros O HL Hj. unfold ResetCompactPosition, total_register_num_. set (L := left_registers_ s) in *.
  destruct HL as [Hlen HL]. assert (HL0 : edges_ok (<[j := ∅]> L) O).
  { split; [by rewrite length_insert|]. intros a b Hab.
    destruct (insert_total_cases L j b ∅) as [E|[_ E]]; rewrite E in Hab; [by apply HL|set_solver]. }
  destruct (roots_spec (<[j := ∅]> L) (register_offset_ s) j HL0) as (visit & E & Hv). fold L. rewrite E. cbn [obind].
  destruct (add_marked_spec visit (<[j := ∅]> L) j (seq 0 n)) as (X & EX & HX); [rewrite length_insert; lia|].
  rewrite EX, list_insert_insert_eq. exists X. cbv zeta. split; [done|].
  assert (HXj : ∀ k, k ∈ X → k ∈ ex !!! j ∧ O k < O j).
  { intros k [Hk|[Hk Ek]]%HX; [rewrite list_lookup_total_insert_eq in Hk by lia; set_solver|].
    apply elem_of_seq in Hk. destruct (Hv k ltac:(lia)) as [Em|[E0 _]]; [|lia].
    rewrite Ek in Em. symmetry in Em. apply mark_left_cases in Em as [??]. done. }
  assert (HL' : edges_ok (<[j := X]> L) O).
  { split; [by rewrite length_insert|]. intros a b Hab.
    destruct (insert_total_cases L j b X) as [Eb|[-> Eb]]; rewrite Eb in Hab; [by apply HL|by apply HXj]. }
  split_and!; [done| |].
  - intros a. remember (Z.to_nat (O j - O a)) as d eqn:Ed. revert a Ed.
    induction d as [d IH] using lt_wf_ind. intros a -> Ha Hlt.
    destruct (Hex j a Ha) as (_ & Han & _). destruct (Hv a Han) as [Em|(_ & i & Hi & Hij & Htc)].
    + apply tc_once. unfold edge. rewrite list_lookup_total_insert_eq by lia. apply HX. right.
      split; [apply elem_of_seq; lia|]. rewrite Em. by apply mark_left_cases.
    + pose proof (tc_lt _ O a i HL0 Htc) as Hai. apply tc_trans with i.
      * apply (tc_keep (<[j := ∅]> L) _ O); [done| | |done].
        -- rewrite !list_lookup_total_insert_ne; [done|intros ->; lia..].
        -- intros m Hm. rewrite !list_lookup_total_insert_ne; [done|intros ->; unfold O in *; lia..].
      * eapply IH; [|done|done|done]. unfold O in *; lia.
  - intros b Hb Hbj Hcov a Ha Hab. apply (tc_keep L _ O); [done| | |by apply Hcov].
    + by rewrite list_lookup_total_insert_ne.
    + intros m Hm. rewrite list_lookup_total_insert_ne; [done|intros ->; lia].
Qed.
(** Nothing but the relation and the marks changes. *)
Definition same_rest (s s' : positions) : Prop :=
  register_offset_ s' = register_offset_ s ∧ backup_registers_ s' = backup_registers_ s ∧
  backup_register_behind_i_ s' = backup_register_behind_i_ s ∧ order_ s' = order_ s.

(** Resetting all registers from offset [x] on, from left to right. *)
Lemma resets_spec (g : positions → nat → bool) (offs : list Z) (x : Z) (ids : list nat) (s : positions) :
  let O := λ k, offs !!! k in
  (∀ s j, register_offset_ s = offs → g s j = (x <=? O j)) → register_offset_ s = offs →
  NoDup ids → (∀ i, i ∈ ids → (i < n)%nat) → StronglySorted (λ a b, O a ≤ O b) ids →
  edges_ok (left_registers_ s) O →
  (∀ b, (b < n)%nat → (b ∈ ids ∧ x ≤ O b) ∨
        (covered (left_registers_ s) O b ∧ ∀ j, j ∈ ids → x ≤ O j → b ≠ j ∧ O b ≤ O j)) →
  ∃ s', ofold (λ s j, if g s j then ResetCompactPosition sz ex s j else Ret s) ids s = Ret s' ∧
    same_rest s s' ∧ edges_ok (left_registers_ s') O ∧ ∀ b, covered (left_registers_ s') O b.
Proof.
  intros O Hg. revert s. induction ids as [|j ids IH]; intros s Hoff Hnd Hin Hs HL Hcov.
  { exists s. split_and!; [done|by split_and!|done|]. intros b a Hab. destruct (Hex b a Hab) as [Hb _].
    destruct (Hcov b Hb) as [[?%elem_of_nil _]|[Hc _]]; [done|by apply Hc]. }
  apply NoDup_cons in Hnd as [Hj Hnd]. apply StronglySorted_inv in Hs as [Hs Hsj].
  assert (Hjn : (j < n)%nat) by (apply Hin; set_solver). cbn [ofold]. rewrite Hg by done.
  rewrite Forall_forall in Hsj. destruct (Z.leb_spec x (O j)) as [Hx|Hx].
  - destruct (Reset_spec s j) as (X & E & HL' & Hcj & Hkeep); [by rewrite Hoff|done|].
    rewrite E. cbn [obind]. set (s1 := set_visit _ _). rewrite Hoff in HL', Hcj, Hkeep.
    destruct (IH s1) as (s' & E' & (R1 & R2 & R3 & R4) & HL2 & Hc); [done|done|set_solver|done|done| |].
    + intros b Hbn. destruct (decide (b = j)) as [->|Hbj].
      { right. split; [done|]. intros j' Hj' _. split; [by intros ->|by apply Hsj]. }
      destruct (Hcov b Hbn) as [[Hb Hxb]|[Hcb Hb]]; [left; split; [set_solver|done]|right].
      split; [|intros j' Hj'; apply Hb; set_solver]. apply Hkeep; [done| |done]. apply Hb; [set_solver|done].
    + exists s'. split_and!; [done|by split_and!|done|done].
  - apply IH; [done|done|set_solver|done|done|]. intros b Hbn. destruct (Hcov b Hbn) as [[Hb Hxb]|[Hcb Hb]].
    + left. split; [|done]. apply elem_of_cons in Hb as [->|?]; [lia|done].
    + right. split; [done|]. intros j' Hj'. apply Hb. set_solver.
Qed.

(** ** Taking a register out *)

Section Eliminate.
Context (i : nat) (Hi : (i < n)%nat).

Definition edge_avoid (L : list (gset nat)) (a b : nat) : Prop := a ∈ L !!! b ∧ a ≠ i ∧ b ≠ i.

Lemma avoid_edge (L : list (gset nat)) (a b : nat) : tc (edge_avoid L) a b → tc (edge L) a b.
Proof. apply tc_mono. by intros ? ? (? & _). Qed.

Section Ignore.
Context (L : list (gset nat)) (O : nat → Z) (j : nat) (HL : edges_ok L O).

(** [r] is alive with [j] and left of it. *)
Definition root_of (r : nat) : Prop := r ∈ ex !!! j ∧ O r < O j ∧ r ≠ i.

(** Marks are negated once, and cleared where a path that avoids [i] leads on to
    another register left of [j]. *)
Definition fades (v v' : list Z) : Prop :=
  length v' = length v ∧
  ∀ m, v' !!! m = v !!! m ∨ (0 < v !!! m ∧ v' !!! m = - (v !!! m) ∧ m ≠ i) ∨
       (v' !!! m = 0 ∧ (m ≠ i → ∃ r, root_of r ∧ tc (edge_avoid L) m r)).

Lemma fades_trans (v1 v2 v3 : list Z) : fades v1 v2 → fades v2 v3 → fades v1 v3.
Proof.
  intros [E1 H1] [E2 H2]. split; [congruence|]. intros m.
  destruct (H2 m) as [->|[(? & -> & ?)|?]]; [apply H1| |by auto].
  destruct (H1 m) as [E|[(? & E & ?)|[E ?]]]; rewrite E in *; [auto|lia|lia].
Qed.

Lemma fades_le (v v' : list Z) (m : nat) : fades v v' → v !!! m ≤ 0 → v' !!! m ≤ 0.
Proof. intros [_ H] Hm. destruct (H m) as [->|[(? & -> & _)|[-> _]]]; lia. Qed.

Lemma fades_refl (v : list Z) : fades v v.
Proof. split; auto. Qed.

Lemma ignore_spec (fuel : nat) (v : list Z) (k : nat) : (rank O k < fuel)%nat → (k < n)%nat → length v = n →
  (k ≠ i → ∃ r, root_of r ∧ rtc (edge_avoid L) k r) →
  ∃ v', EliminateRedundantRelationshipIgnore fuel L i v k = Ret v' ∧ fades v v' ∧ (k ≠ i → v' !!! k ≤ 0).
Proof.
  revert v k. induction fuel as [|fuel IH]; intros v k Hr Hk Hlen Hroot; [lia|].
  cbn [EliminateRedundantRelationshipIgnore]. destruct (Nat.eqb_spec i k) as [<-|Hne].
  { exists v. split_and!; [done|apply fades_refl|done]. }
  destruct (Z.ltb_spec 0 (v !!! k)) as [Hpos|Hneg]; [|exists v; split_and!; [done|apply fades_refl|done]].
  destruct (Hroot ltac:(done)) as (r & Hr1 & Hr2).
  assert (H : ∀ ks v, (∀ m, m ∈ ks → m ∈ L !!! k) → length v = n →
    ∃ v', ofold (λ v m, let* v := EliminateRedundantRelationshipIgnore fuel L i v m in Ret (<[m := 0]> v)) ks v = Ret v' ∧
      fades v v').
  { clear v Hlen Hpos. induction ks as [|m ks IHks]; intros v Hks Hlen; [exists v; split; [done|apply fades_refl]|].
    assert (Hm : m ∈ L !!! k) by (apply Hks; set_solver). destruct (edges_desc L O HL m k Hm) as [Hmn Hlt].
    pose proof (rank_lt O m k Hmn Hlt).
    assert (Hmr : m ≠ i → tc (edge_avoid L) m r).
    { intros Hmi. eapply tc_rtc_r; [apply tc_once|exact Hr2]. by split_and!. }
    destruct (IH v m ltac:(lia) Hmn Hlen) as (v1 & E1 & F1 & _).
    { intros Hmi. exists r. split; [done|]. by apply tc_rtc, Hmr. }
    cbn [ofold]. rewrite E1. cbn [obind].
    destruct (IHks (<[m := 0]> v1)) as (v2 & E2 & F2); [set_solver|rewrite length_insert; by rewrite (proj1 F1)|].
    exists v2. split; [done|]. eapply fades_trans; [exact F1|]. eapply fades_trans; [|exact F2].
    split; [by rewrite length_insert|]. intros m'.
    destruct (insert_total_cases v1 m m' 0) as [->|[-> ->]]; [by left|]. right; right. split; [done|].
    intros Hmi. exists r. auto. }
  destruct (H (elements (L !!! k)) (<[k := - (v !!! k)]> v)) as (v' & E & F).
  { intros m. by rewrite elem_of_elements. }
  { by rewrite length_insert. }
  exists v'. split; [done|].
  assert (Hk' : <[k := - (v !!! k)]> v !!! k ≤ 0) by (rewrite list_lookup_total_insert_eq; lia).
  split; [|intros _; by eapply fades_le]. eapply fades_trans; [|exact F].
  split; [by rewrite length_insert|]. intros m.
  destruct (insert_total_cases v k m (- (v !!! k))) as [->|[-> ->]]; [by left|]. right; left. by split_and!.
Qed.
End Ignore.
Lemma visit_all (offs : list Z) (L : list (gset nat)) (j : nat) :
  let O := λ k, offs !!! k in let marks := map (mark_left ex offs j) (seq 0 n) in
  edges_ok L O →
  ∃ v, ofold (λ v k, if v !!! k =? 1 then EliminateRedundantRelationshipIgnore (S n) L i v k else Ret v)
         (elements (ex !!! j)) marks = Ret v ∧
    fades L O j marks v ∧ ∀ k, k ∈ ex !!! j → k ≠ i → O k < O j → v !!! k ≤ 0.
Proof.
  intros O marks HL.
  assert (Hmark : ∀ k, k ∈ ex !!! j → O k < O j → marks !!! k = 1).
  { intros k Hk Hlt. unfold marks. rewrite map_seq_total by apply (Hex j k Hk). by apply mark_left_cases. }
  assert (H : ∀ ks v, (∀ k, k ∈ ks → k ∈ ex !!! j) → fades L O j marks v →
    ∃ v', ofold (λ v k, if v !!! k =? 1 then EliminateRedundantRelationshipIgnore (S n) L i v k else Ret v) ks v = Ret v' ∧
      fades L O j v v' ∧ ∀ k, k ∈ ks → k ≠ i → O k < O j → v' !!! k ≤ 0).
  { induction ks as [|k ks IH]; intros v Hks Hf.
    { exists v. split_and!; [done|apply fades_refl|set_solver]. }
    assert (Hk : k ∈ ex !!! j) by (apply Hks; set_solver). destruct (Hex j k Hk) as (_ & Hkn & _ & Hkj).
    assert (Hstep : ∃ v1, (if v !!! k =? 1 then EliminateRedundantRelationshipIgnore (S n) L i v k else Ret v) = Ret v1 ∧
      fades L O j v v1 ∧ (k ≠ i → O k < O j → v1 !!! k ≤ 0)).
    { destruct (Z.eqb_spec (v !!! k) 1) as [E1|E1].
      - destruct (ignore_spec L O j HL (S n) v k (rank_le O k) Hkn) as (v1 & E & F & Hle).
        + rewrite (proj1 Hf). unfold marks. by rewrite length_map, length_seq.
        + intros Hki. exists k. split; [|apply rtc_refl]. split_and!; [done| |done].
          destruct Hf as [_ Hf]. destruct (Hf k) as [E|[(? & E & _)|[E _]]]; [|lia|lia].
          rewrite E1 in E. unfold marks in E. rewrite map_seq_total in E by done. symmetry in E.
          by apply mark_left_cases in E as [? _].
        + exists v1. split_and!; auto.
      - exists v. split_and!; [done|apply fades_refl|]. intros Hki Hlt. pose proof (Hmark k Hk Hlt) as Em.
        destruct Hf as [_ Hf]. destruct (Hf k) as [E|[(? & E & _)|[E _]]]; rewrite ?Em in E; lia. }
    destruct Hstep as (v1 & E1 & F1 & Hle1). cbn [ofold]. rewrite E1. cbn [obind].
    destruct (IH v1) as (v' & E' & F' & Hle); [set_solver|by eapply fades_trans|].
    exists v'. split_and!; [done|by eapply fades_trans|].
    intros m [->|Hm]%elem_of_cons Hmi Hlt; [|by apply Hle]. eapply fades_le; [exact F'|auto]. }
  destruct (H (elements (ex !!! j)) marks) as (v & E & F & Hle).
  - intros k. by rewrite elem_of_elements.
  - apply fades_refl.
  - exists v. split_and!; [done|done|]. intros k Hk. apply Hle. by apply elem_of_elements.
Qed.

Lemma relate_spec (visit : list Z) (j : nat) (ids : list nat) (L B : list (gset nat)) :
  (j < length L)%nat → (j < length B)%nat →
  ∃ N : gset nat, (∀ k, k ∈ N ↔ k ∈ ids ∧ visit !!! k = -1) ∧
    foldl (relate visit j) (L, B) ids = (<[j := L !!! j ∪ N]> L, <[j := B !!! j ∪ (N ∖ L !!! j)]> B).
Proof.
  revert L B. induction ids as [|k ids IH]; intros L B HL HB; cbn [foldl].
  { exists ∅. split; [set_solver|]. f_equal; symmetry; apply list_insert_id.
    - rewrite list_lookup_lookup_total_lt by done. f_equal. set_solver.
    - rewrite list_lookup_lookup_total_lt by done. f_equal. set_solver. }
  unfold relate at 2. cbn [fst snd]. destruct (Z.eqb_spec (visit !!! k) (-1)) as [Ek|Ek].
  2: { destruct (IH L B HL HB) as (N & HN & E). exists N. split; [|done]. intros m. rewrite HN. set_solver. }
  case_bool_decide as Hk.
  - destruct (IH L B HL HB) as (N & HN & E). exists ({[k]} ∪ N). split; [intros m; set_solver|]. rewrite E.
    do 2 f_equal; set_solver.
  - destruct (IH (add_to L j k) (add_to B j k)) as (N & HN & E); [unfold add_to; by rewrite length_insert..|].
    exists ({[k]} ∪ N). split; [intros m; set_solver|]. rewrite E. unfold add_to.
    rewrite !list_insert_insert_eq, !list_lookup_total_insert_eq by done. f_equal; f_equal; [set_solver|].
    apply set_eq. intros m. destruct (decide (m = k)); set_solver.
Qed.

Lemma eliminate_from_spec (s : positions) (j : nat) :
  let O := λ k, register_offset_ s !!! k in let L := left_registers_ s in
  edges_ok L O → length (backup_registers_ s) = n → j ∈ ex !!! i → O i < O j →
  ∃ N v, (∀ k, k ∈ N → root_of O j k) ∧
    let L' := <[j := (L !!! j ∪ N) ∖ {[i]}]> L in
    eliminate_from sz ex i s j = Ret (set_visit v (set_left L' (set_backup
        (<[j := backup_registers_ s !!! j ∪ (N ∖ L !!! j)]> (backup_registers_ s))
        (if decide (i ∈ L !!! j) then {[j]} ∪ backup_register_behind_i_ s else backup_register_behind_i_ s) s))) ∧
    ∀ a, a ∈ ex !!! j → a ≠ i → O a < O j → tc (edge_avoid L') a j.
Proof.
  intros O L HL HB Hj Hlt. destruct (Hex i j Hj) as (_ & Hjn & _ & Hij).
  unfold eliminate_from, total_register_num_. rewrite (proj2 (Z.ltb_lt _ _)) by done.
  destruct (visit_all (register_offset_ s) L j HL) as (v & E & F & Hle). fold L. rewrite E. cbn [obind].
  destruct (relate_spec v j (elements (ex !!! j)) L (backup_registers_ s)) as (N & HN & EN);
    [by rewrite (proj1 HL)|by rewrite HB|].
  rewrite EN. exists N, v. rewrite list_lookup_total_insert_eq by (by rewrite (proj1 HL)).
  assert (HNr : ∀ k, k ∈ N → root_of O j k).
  { intros k [Hk%elem_of_elements Ek]%HN. destruct (Hex j k Hk) as (_ & Hkn & _). destruct F as [_ F].
    assert (Em : map (mark_left ex (register_offset_ s) j) (seq 0 n) !!! k = mark_left ex (register_offset_ s) j k)
      by by apply map_seq_total.
    assert (Hm : mark_left ex (register_offset_ s) j k = 1 ∨ mark_left ex (register_offset_ s) j k = 0).
    { unfold mark_left, Exclude. rewrite bool_decide_true by by apply (Hex j k). destruct (_ <? _); auto. }
    destruct (F k) as [E1|[(_ & E1 & Hki)|[E1 _]]]; rewrite ?Em in *; [lia| |lia].
    split_and!; [done| |done]. destruct Hm as [Hm|]; [|lia]. by apply mark_left_cases in Hm as [? _]. }
  split; [done|]. cbv zeta. split.
  - case_bool_decide as Hin.
    + rewrite decide_True by (apply elem_of_union in Hin as [?|?%HNr]; [done|by destruct H as (_ & _ & ?)]).
      unfold del_from. rewrite list_insert_insert_eq, list_lookup_total_insert_eq by (by rewrite (proj1 HL)). done.
    + rewrite decide_False by set_solver. replace ((L !!! j ∪ N) ∖ {[i]}) with (L !!! j ∪ N) by set_solver. done.
  - set (L' := <[j := (L !!! j ∪ N) ∖ {[i]}]> L).
    assert (Hgrow : ∀ a b, edge_avoid L a b → edge_avoid L' a b).
    { intros a b (Hab & Ha & Hb). split_and!; [|done|done]. unfold L'.
      destruct (insert_total_cases L j b ((L !!! j ∪ N) ∖ {[i]})) as [->|[-> ->]]; [done|set_solver]. }
    intros a. remember (Z.to_nat (O j - O a)) as d eqn:Ed. revert a Ed.
    induction d as [d IH] using lt_wf_ind. intros a -> Ha Hai Haj.
    destruct (Hex j a Ha) as (_ & Han & _). destruct F as [_ F].
    pose proof (Hle a Ha Hai Haj) as Hva.
    assert (Em : map (mark_left ex (register_offset_ s) j) (seq 0 n) !!! a = 1).
    { rewrite map_seq_total by done. by apply mark_left_cases. }
    destruct (F a) as [E1|[(_ & E1 & _)|[E1 Hr]]]; rewrite ?Em in *; [lia| |].
    + apply tc_once. split_and!; [|done|by intros ->]. unfold L'.
      rewrite list_lookup_total_insert_eq by (by rewrite (proj1 HL)).
      assert (a ∈ N) by (apply HN; split; [by apply elem_of_elements|done]). set_solver.
    + destruct (Hr Hai) as (r & (Hr1 & Hr2 & Hr3) & Htc). apply tc_trans with r.
      * eapply tc_mono; [|exact Htc]. exact Hgrow.
      * pose proof (tc_lt L O a r HL (avoid_edge _ _ _ Htc)). eapply IH; [|done|done|done|done]. lia.
Qed.
(** What the loop over the registers alive with [i] leaves; [D] are those visited. *)
Record eliminated (s : positions) (D : list nat) (s' : positions) : Prop := {
  el_off : register_offset_ s' = register_offset_ s;
  el_order : order_ s' = order_ s;
  el_backup : length (backup_registers_ s') = n;
  el_edges : edges_ok (left_registers_ s') (λ k, register_offset_ s !!! k);
  el_i : left_registers_ s' !!! i = left_registers_ s !!! i ∧ backup_registers_ s' !!! i = left_registers_ s !!! i;
  el_done : ∀ m, m ∈ D → register_offset_ s !!! i < register_offset_ s !!! m →
    ∃ N : gset nat, (∀ k, k ∈ N → root_of (λ k, register_offset_ s !!! k) m k) ∧
      left_registers_ s' !!! m = (left_registers_ s !!! m ∪ N) ∖ {[i]} ∧
      backup_registers_ s' !!! m = N ∖ left_registers_ s !!! m ∧
      ∀ a, a ∈ ex !!! m → a ≠ i → register_offset_ s !!! a < register_offset_ s !!! m →
        tc (edge_avoid (left_registers_ s')) a m;
  el_rest : ∀ m, m ≠ i → ¬ (m ∈ D ∧ register_offset_ s !!! i < register_offset_ s !!! m) →
    left_registers_ s' !!! m = left_registers_ s !!! m ∧ backup_registers_ s' !!! m = ∅;
  el_behind : ∀ m, m ∈ backup_register_behind_i_ s' ↔ m ∈ D ∧ i ∈ left_registers_ s !!! m;
}.

Lemma eliminated_step (s : positions) (D : list nat) (s' : positions) (j : nat) :
  edges_ok (left_registers_ s) (λ k, register_offset_ s !!! k) →
  eliminated s D s' → j ∉ D → j ∈ ex !!! i →
  ∃ s'', eliminate_from sz ex i s' j = Ret s'' ∧ eliminated s (j :: D) s''.
Proof.
  intros HL H HjD Hj. destruct (Hex i j Hj) as (_ & Hjn & _ & Hij). set (O := λ k, register_offset_ s !!! k) in *.
  destruct H as [H1 H2 H3 H4 H5 H6 H7 H8].
  destruct (Z_lt_le_dec (O i) (O j)) as [Hlt|Hle].
  - destruct (eliminate_from_spec s' j) as (N & v & HN & E & Hcov); rewrite ?H1; [done|done|done|done|].
    rewrite H1 in HN, Hcov. destruct (H7 j) as [Ej EBj]; [done|tauto|]. rewrite Ej, EBj in *.
    rewrite E. eexists. split; [done|].
    set (L' := <[j := _]> (left_registers_ s')) in *.
    assert (ELj : L' !!! j = (left_registers_ s !!! j ∪ N) ∖ {[i]}).
    { unfold L'. rewrite list_lookup_total_insert_eq; [done|by rewrite (proj1 H4)]. }
    assert (ELm : ∀ m, m ≠ j → L' !!! m = left_registers_ s' !!! m).
    { intros m Hm. unfold L'. by rewrite list_lookup_total_insert_ne. }
    assert (Hgrow : ∀ a b, edge_avoid (left_registers_ s') a b → edge_avoid L' a b).
    { intros a b (Hab & Ha & Hb). split_and!; [|done|done].
      destruct (decide (b = j)) as [->|Hne]; [rewrite ELj; rewrite Ej in Hab; set_solver|by rewrite ELm]. }
    split; cbn [set_visit set_left set_backup register_offset_ order_ backup_registers_ left_registers_
                backup_register_behind_i_].
    + done.
    + done.
    + by rewrite length_insert.
    + split; [unfold L'; by rewrite length_insert, (proj1 H4)|]. intros a b Hab.
      destruct (decide (b = j)) as [->|Hne]; [|rewrite ELm in Hab by done; by apply H4].
      rewrite ELj in Hab. apply elem_of_difference in Hab as [[Hab|Hab]%elem_of_union _].
      * by apply HL.
      * destruct (HN a Hab) as (? & ? & _). done.
    + rewrite ELm, list_lookup_total_insert_ne by done. done.
    + intros m Hm Hmi. destruct (decide (m = j)) as [->|Hne].
      * exists N. split_and!; [done|done| |done]. rewrite list_lookup_total_insert_eq by lia. set_solver.
      * apply elem_of_cons in Hm as [->|Hm]; [done|]. destruct (H6 m Hm Hmi) as (N' & F1 & F2 & F3 & F4).
        exists N'. rewrite ELm, list_lookup_total_insert_ne by done. split_and!; [done|done|done|].
        intros a Ha Hai Ham. eapply tc_mono; [exact Hgrow|]. by apply F4.
    + intros m Hmi Hm. assert (Hne : m ≠ j) by (intros ->; apply Hm; split; [set_solver|done]).
      rewrite ELm, list_lookup_total_insert_ne by done. apply H7; [done|]. set_solver.
    + intros m. case_decide as Hd; rewrite ?elem_of_union, ?elem_of_singleton, H8, elem_of_cons; [set_solver|].
      split; [tauto|]. intros [[->|?] ?]; [done|tauto].
  - exists s'. unfold eliminate_from. rewrite H1, (proj2 (Z.ltb_ge _ _)) by done. split; [done|].
    split; try done.
    + intros m [->|Hm]%elem_of_cons Hmi; [unfold O in *; lia|by apply H6].
    + intros m Hmi Hm. apply H7; [done|]. set_solver.
    + intros m. rewrite H8, elem_of_cons. split; [tauto|]. intros [[->|?] Hin]; [|done].
      destruct (proj2 HL i j Hin). lia.
Qed.

Lemma eliminated_all (s : positions) :
  edges_ok (left_registers_ s) (λ k, register_offset_ s !!! k) →
  backup_registers_ s = replicate n ∅ → backup_register_behind_i_ s = ∅ →
  ∃ D s', (∀ m, m ∈ D ↔ m ∈ ex !!! i) ∧ eliminated s D s' ∧
    EliminateRegister sz ex s i = Ret (set_left (<[i := ∅]> (left_registers_ s')) s').
Proof.
  intros HL HB Hb. unfold EliminateRegister. set (s0 := set_backup _ _ s).
  assert (H0 : eliminated s [] s0).
  { assert (HBn : length (replicate n (∅ : gset nat)) = n) by apply length_replicate.
    unfold s0. rewrite HB, Hb. split; cbn [set_backup register_offset_ order_ backup_registers_ left_registers_
                backup_register_behind_i_]; try done.
    - by rewrite length_insert.
    - rewrite list_lookup_total_insert_eq by lia. done.
    - intros m Hm. by apply elem_of_nil in Hm.
    - intros m Hmi _. split; [done|]. rewrite list_lookup_total_insert_ne by done.
      destruct (decide (m < n)%nat); [by apply lookup_total_replicate_2|].
      rewrite list_lookup_total_alt, lookup_ge_None_2; [done|lia].
    - intros m. set_solver. }
  assert (H : ∀ js D s', NoDup js → (∀ j, j ∈ js → j ∉ D ∧ j ∈ ex !!! i) → eliminated s D s' →
    ∃ D' s'', ofold (eliminate_from sz ex i) js s' = Ret s'' ∧ eliminated s D' s'' ∧ ∀ m, m ∈ D' ↔ m ∈ D ∨ m ∈ js).
  { induction js as [|j js IH]; intros D s' Hnd Hjs He.
    { exists D, s'. split_and!; [done|done|set_solver]. }
    apply NoDup_cons in Hnd as [Hj Hnd]. destruct (Hjs j ltac:(set_solver)) as [HjD Hjx].
    destruct (eliminated_step s D s' j HL He HjD Hjx) as (s1 & E1 & He1). cbn [ofold]. rewrite E1. cbn [obind].
    destruct (IH (j :: D) s1 Hnd) as (D' & s2 & E2 & He2 & HD).
    - intros k Hk. split; [|by apply Hjs; set_solver]. destruct (Hjs k ltac:(set_solver)). set_solver.
    - done.
    - exists D', s2. split_and!; [done|done|]. intros m. rewrite HD. set_solver. }
  destruct (H (elements (ex !!! i)) [] s0) as (D & s' & E & He & HD).
  - apply NoDup_elements.
  - intros j Hj%elem_of_elements. split; [set_solver|done].
  - done.
  - exists D, s'. rewrite E. cbn [obind]. split_and!; [|done|done]. intros m. rewrite HD. set_solver.
Qed.
(** *** Nothing is lost

    Registers that were ordered through [i] only are ordered through two others that
    are alive with each other and with [i]. *)

Lemma tc_split (L : list (gset nat)) (a b : nat) : tc (edge L) a b → a ≠ i → b ≠ i →
  tc (edge_avoid L) a b ∨ (tc (edge L) a i ∧ tc (edge L) i b).
Proof.
  induction 1 as [a b Hab|a m b Ham Hmb IH]; intros Ha Hb; [left; by apply tc_once|].
  destruct (decide (m = i)) as [->|Hm]; [right; split; [by apply tc_once|done]|].
  destruct (IH Hm Hb) as [?|[Hmi Hib]]; [left|right]; [by eapply tc_l|]. split; [by eapply tc_l|done].
Qed.

Lemma rtc_avoid (L : list (gset nat)) (O : nat → Z) (x y : nat) : edges_ok L O →
  rtc (edge L) x y → O y < O i ∨ O i < O x → rtc (edge_avoid L) x y.
Proof.
  intros HL. induction 1 as [x|x m y Hxm Hmy IH]; intros Ho; [apply rtc_refl|].
  pose proof (rtc_le L O m y HL Hmy). destruct (proj2 HL x m Hxm) as [_ ?].
  apply rtc_l with m; [|apply IH; lia]. split_and!; [done|intros ->; lia..].
Qed.

Section Crossing.
Context (P Q : nat → Prop) `{∀ x, Decision (P x)}.
Context (Hcross : ∀ x y, x ∈ ex !!! y → ¬ P x → P y → Q y).
Context (L : list (gset nat)) (O : nat → Z) (HL : edges_ok L O).

Lemma cross_forward (x b : nat) : tc (edge L) x b → ¬ P x → P b →
  ∃ c, tc (edge L) x c ∧ rtc (edge L) c b ∧ Q c.
Proof using Hcross HL H.
  induction 1 as [x b Hxb|x m b Hxm Hmb IH]; intros Hx Hb.
  - exists b. split_and!; [by apply tc_once|apply rtc_refl|]. eapply Hcross; [|exact Hx|exact Hb]. by apply HL.
  - destruct (decide (P m)) as [Hm|Hm].
    + exists m. split_and!; [by apply tc_once|by apply tc_rtc|]. eapply Hcross; [|exact Hx|exact Hm]. by apply HL.
    + destruct (IH Hm Hb) as (c & ? & ? & ?). exists c. split_and!; [by eapply tc_l|done|done].
Qed.

Lemma cross_backward (a y : nat) : tc (edge L) a y → P a → ¬ P y →
  ∃ c, rtc (edge L) a c ∧ tc (edge L) c y ∧ Q c.
Proof using Hcross HL H Hex.
  assert (Hq : ∀ a b, edge L a b → P a → ¬ P b → Q a).
  { intros a' b' Hab Ha Hb. eapply Hcross; [|exact Hb|exact Ha]. apply (Hex b' a'). by apply HL. }
  induction 1 as [a y Hay|a m y Ham Hmy IH]; intros Ha Hy.
  - exists a. split_and!; [apply rtc_refl|by apply tc_once|by eapply Hq].
  - destruct (decide (P m)) as [Hm|Hm].
    + destruct (IH Hm Hy) as (c & ? & ? & ?). exists c. split_and!; [by eapply rtc_l|done|done].
    + exists a. split_and!; [apply rtc_refl|by eapply tc_l|by eapply Hq].
Qed.
End Crossing.

Context (lf : nat → lifetime) (Hlf : ∀ x, (x < n)%nat → (lf x).1 < (lf x).2).
Context (Hexl : ∀ x y, (x < n)%nat → (y < n)%nat → x ≠ y →
  (y ∈ ex !!! x ↔ IsLifetimeExcluded (lf x) (lf y) = true)).

Lemma excluded_iff (x y : nat) : (x < n)%nat → (y < n)%nat → x ≠ y →
  (y ∈ ex !!! x ↔ (lf x).1 < (lf y).2 ∧ (lf y).1 < (lf x).2).
Proof. intros. rewrite Hexl by done. unfold IsLifetimeExcluded. by rewrite andb_true_iff, !Z.ltb_lt. Qed.

Lemma excluded_times (x y : nat) : x ∈ ex !!! y → (lf x).1 < (lf y).2 ∧ (lf y).1 < (lf x).2.
Proof. intros H. destruct (Hex y x H) as (? & ? & ? & ?). by apply excluded_iff. Qed.

Section Lost.
Context (L L1 : list (gset nat)) (O : nat → Z) (HL : edges_ok L O).
Context (Hgrow : ∀ a b, edge_avoid L a b → edge L1 a b).
Context (Hcov : ∀ m a, m ∈ ex !!! i → O i < O m → a ∈ ex !!! m → a ≠ i → O a < O m → tc (edge L1) a m).

Lemma reorder (P Q : nat → Prop) `{∀ x, Decision (P x)} (a b : nat) :
  (∀ x y, x ∈ ex !!! y → ¬ P x → P y → Q y) →
  (∀ x y, (x < n)%nat → (y < n)%nat → x ≠ y → Q x → Q y → x ∈ ex !!! y) →
  (∀ x, (x < n)%nat → x ≠ i → Q x → x ∈ ex !!! i) →
  P a → P b → ¬ P i → tc (edge L) a i → tc (edge L) i b → tc (edge L1) a b.
Proof.
  intros Hcross HQ HQi Ha Hb Hpi Hai Hib.
  destruct (cross_forward P Q Hcross L O HL i b Hib Hpi Hb) as (c & Hic & Hcb & Qc).
  destruct (cross_backward P Q Hcross L O HL a i Hai Ha Hpi) as (a' & Haa & Ha'i & Qa).
  pose proof (tc_lt L O _ _ HL Hic). pose proof (tc_lt L O _ _ HL Ha'i).
  assert (Hn : ∀ x y, tc (edge L) x y → (x < n)%nat ∧ (y < n)%nat).
  { induction 1 as [x y Hxy|x m y Hxm _ [_ ?]].
    - apply HL in Hxy as [Hx _]. by destruct (Hex y x Hx) as (? & ? & _).
    - apply HL in Hxm as [Hx _]. by destruct (Hex m x Hx) as (? & ? & _). }
  destruct (Hn i c Hic) as [_ Hcn]. destruct (Hn a' i Ha'i) as [Han _].
  assert (Hci : c ≠ i) by (intros ->; lia). assert (Hac : a' ≠ c) by (intros ->; lia).
  assert (Hai' : a' ≠ i) by (intros ->; lia).
  eapply tc_rtc_l; [|eapply tc_rtc_r].
  - eapply rtc_mono; [|apply (rtc_avoid L O a a' HL Haa); lia]. exact Hgrow.
  - apply Hcov with (m := c); [by apply HQi|done|by apply HQ|done|lia].
  - eapply rtc_mono; [|apply (rtc_avoid L O c b HL Hcb); lia]. exact Hgrow.
Qed.

Lemma order_kept (a b : nat) : a ∈ ex !!! b → a ≠ i → b ≠ i → tc (edge L) a b → tc (edge L1) a b.
Proof.
  intros Hab Ha Hb Htc. destruct (tc_split L a b Htc Ha Hb) as [Hav|[Hai Hib]].
  { eapply tc_mono; [|exact Hav]. exact Hgrow. }
  pose proof (tc_lt L O _ _ HL Hib). pose proof (tc_lt L O _ _ HL Hai).
  destruct (decide (b ∈ ex !!! i)) as [Hbi|Hbi]; [apply Hcov; (done || lia)|].
  destruct (Hex b a Hab) as (Hbn & Han & _). pose proof (excluded_times a b Hab) as [T1 T2].
  pose proof (Hlf i Hi). pose proof (Hlf b Hbn). rewrite excluded_iff in Hbi by done.
  destruct (Z_lt_le_dec (lf b).1 (lf i).2) as [Hr|Hr].
  - (* [b] dies before [i] is born *)
    apply (reorder (λ y, (lf y).1 < (lf i).1) (λ y, (lf y).1 < (lf i).1 < (lf y).2)); try done; try lia.
    + intros x y Hxy Hx Hy. pose proof (excluded_times x y Hxy). lia.
    + intros x y Hx Hy Hne Qx Qy. apply excluded_iff; [done|done|done|lia].
    + intros x Hx Hne Qx. apply excluded_iff; [done|done|done|lia].
  - apply (reorder (λ y, (lf i).2 < (lf y).2) (λ y, (lf y).1 < (lf i).2 < (lf y).2)); try done; try lia.
    + intros x y Hxy Hx Hy. pose proof (excluded_times x y Hxy). lia.
    + intros x y Hx Hy Hne Qx Qy. apply excluded_iff; [done|done|done|lia].
    + intros x Hx Hne Qx. apply excluded_iff; [done|done|done|lia].
Qed.
End Lost.
(** *** Restoring the relation *)

Lemma list_eq_total {A : Type} `{Inhabited A} (l k : list A) :
  length l = length k → (∀ m, (m < length l)%nat → l !!! m = k !!! m) → l = k.
Proof.
  intros Hlen Hm. apply list_eq. intros m. destruct (decide (m < length l)%nat) as [Hlt|Hge].
  - rewrite !list_lookup_lookup_total_lt by lia. f_equal. by apply Hm.
  - rewrite !lookup_ge_None_2 by lia. done.
Qed.

Lemma del_all (L : list (gset nat)) (j : nat) (ks : list nat) : (j < length L)%nat →
  foldl (λ L k, del_from L j k) L ks = <[j := L !!! j ∖ list_to_set ks]> L.
Proof.
  revert L. induction ks as [|k ks IH]; intros L Hj; cbn [foldl].
  - symmetry. apply list_insert_id. rewrite list_lookup_lookup_total_lt by done. f_equal. set_solver.
  - rewrite IH by (unfold del_from; by rewrite length_insert). unfold del_from.
    rewrite list_insert_insert_eq, list_lookup_total_insert_eq by done. f_equal. set_solver.
Qed.

Lemma recover_fold (B L : list (gset nat)) (ids : list nat) :
  NoDup ids → (∀ j, j ∈ ids → (j < length L)%nat) →
  let R := foldl (λ L j, if Nat.eqb i j then <[i := B !!! i]> L
                         else foldl (λ L k, del_from L j k) L (elements (B !!! j))) L ids in
  length R = length L ∧
  ∀ m, R !!! m = if decide (m ∈ ids) then (if decide (m = i) then B !!! i else L !!! m ∖ B !!! m) else L !!! m.
Proof.
  revert L. induction ids as [|j ids IH]; intros L Hnd Hids; cbn [foldl]; [done|].
  apply NoDup_cons in Hnd as [Hj Hnd]. assert (Hjl : (j < length L)%nat) by (apply Hids, elem_of_cons; by left).
  set (L1 := if Nat.eqb i j then _ else _).
  assert (E1 : L1 = <[j := if decide (j = i) then B !!! i else L !!! j ∖ B !!! j]> L).
  { unfold L1. destruct (Nat.eqb_spec i j) as [<-|Hne]; [by rewrite decide_True|].
    rewrite del_all, decide_False by (done || by intros ->). f_equal. by rewrite list_to_set_elements_L. }
  assert (Hl1 : length L1 = length L) by (rewrite E1; by rewrite length_insert).
  destruct (IH L1 Hnd) as [Hl Hm]; [intros k Hk; rewrite Hl1; apply Hids, elem_of_cons; by right|]. cbv zeta in *.
  split; [by rewrite Hl|]. intros m. rewrite Hm.
  destruct (decide (m = j)) as [->|Hne].
  - rewrite decide_False, E1, list_lookup_total_insert_eq by done. by rewrite (decide_True (P := j ∈ j :: ids)) by (apply elem_of_cons; by left).
  - assert (Em : L1 !!! m = L !!! m) by (rewrite E1; by rewrite list_lookup_total_insert_ne). rewrite Em.
    destruct (decide (m ∈ ids)) as [Hin|Hin]; [by rewrite (decide_True (P := m ∈ j :: ids)) by (apply elem_of_cons; by right)|].
    rewrite (decide_False (P := m ∈ j :: ids)); [done|]. by intros [?|?]%elem_of_cons.
Qed.

Lemma add_behind (L : list (gset nat)) (js : list nat) : (∀ j, j ∈ js → (j < length L)%nat) →
  let R := foldl (λ L j, add_to L j i) L js in
  length R = length L ∧ ∀ m x, x ∈ R !!! m ↔ x ∈ L !!! m ∨ (x = i ∧ m ∈ js).
Proof.
  revert L. induction js as [|j js IH]; intros L Hjs; cbn [foldl]; [split; [done|]; set_solver|].
  assert (Hj : (j < length L)%nat) by (apply Hjs; set_solver).
  destruct (IH (add_to L j i)) as [Hl Hm].
  { intros k Hk. unfold add_to. rewrite length_insert. apply Hjs. set_solver. }
  cbv zeta in *. split; [rewrite Hl; unfold add_to; by rewrite length_insert|]. intros m x. rewrite Hm. unfold add_to.
  destruct (decide (m = j)) as [->|Hne].
  - rewrite list_lookup_total_insert_eq by done. set_solver.
  - rewrite list_lookup_total_insert_ne by done. set_solver.
Qed.

Definition no_backup (s : positions) : Prop :=
  backup_registers_ s = replicate n ∅ ∧ backup_register_behind_i_ s = ∅.

Lemma ClearBackup_spec (s : positions) : length (backup_registers_ s) = n → no_backup (ClearBackup s).
Proof.
  intros Hlen. split; [|done]. cbn [ClearBackup set_backup backup_registers_]. rewrite <- Hlen.
  generalize (backup_registers_ s). clear. induction l as [|x l IH]; [done|]. cbn [map length replicate]. by rewrite IH.
Qed.

Lemma Recover_spec (s : positions) (D : list nat) (s' s2 : positions) :
  edges_ok (left_registers_ s) (λ k, register_offset_ s !!! k) → eliminated s D s' → (∀ m, m ∈ D ↔ m ∈ ex !!! i) →
  left_registers_ s2 = <[i := ∅]> (left_registers_ s') → backup_registers_ s2 = backup_registers_ s' →
  backup_register_behind_i_ s2 = backup_register_behind_i_ s' →
  left_registers_ (RecoverFromBackup sz s2 i) = left_registers_ s ∧ no_backup (RecoverFromBackup sz s2 i) ∧
  order_ (RecoverFromBackup sz s2 i) = order_ s2.
Proof.
  intros HL He HD EL EB Eb. split; [|split; [|done]]; cycle 1.
  { apply ClearBackup_spec. cbn [set_left backup_registers_]. rewrite EB. apply (el_backup _ _ _ He). }
  assert (Hl2 : length (left_registers_ s2) = n) by (rewrite EL, length_insert; apply (el_edges _ _ _ He)).
  unfold RecoverFromBackup, total_register_num_. cbn [ClearBackup set_backup set_left left_registers_].
  destruct (recover_fold (backup_registers_ s2) (left_registers_ s2) (seq 0 n)) as [Hlr Hr].
  { apply NoDup_seq. }
  { intros j. rewrite elem_of_seq, Hl2. lia. }
  cbv zeta in Hlr, Hr. set (R := foldl _ (left_registers_ s2) (seq 0 n)) in *. clearbody R.
  destruct (add_behind R (elements (backup_register_behind_i_ s2))) as [Hla Ha].
  { intros j Hj%elem_of_elements. rewrite Eb, (el_behind _ _ _ He), HD in Hj. rewrite Hlr, Hl2.
    destruct Hj as [Hj _]. by apply (Hex i j). }
  cbv zeta in Hla, Ha. apply list_eq_total; [rewrite Hla, Hlr, Hl2; symmetry; apply HL|].
  intros m Hm. rewrite Hla, Hlr, Hl2 in Hm. apply set_eq. intros x.
  rewrite Ha, Hr, decide_True, elem_of_elements, Eb, (el_behind _ _ _ He), HD, EB by (apply elem_of_seq; lia).
  assert (Hin : i ∈ left_registers_ s !!! m → m ∈ ex !!! i ∧ register_offset_ s !!! i < register_offset_ s !!! m).
  { intros Hin. destruct (proj2 HL i m Hin) as [Hx ?]. split; [|done]. by apply (Hex m i). }
  destruct (decide (m = i)) as [->|Hne].
  - rewrite (proj2 (el_i _ _ _ He)). split; [|auto]. intros [?|[-> [_ ?]]]; done.
  - rewrite EL, list_lookup_total_insert_ne by done.
    destruct (decide (m ∈ D ∧ register_offset_ s !!! i < register_offset_ s !!! m)) as [[HmD Hlt]|Hnot].
    + destruct (el_done _ _ _ He m HmD Hlt) as (N & HN & E1 & E2 & _). rewrite E1, E2.
      rewrite !elem_of_difference, elem_of_union, elem_of_singleton. clear - Hin.
      destruct (decide (x ∈ left_registers_ s !!! m)); destruct (decide (x = i)) as [->|]; tauto.
    + destruct (el_rest _ _ _ He m Hne Hnot) as [E1 E2]. rewrite E1, E2, elem_of_difference, elem_of_empty.
      split; [|tauto]. intros [[? _]|[-> [_ ?]]]; done.
Qed.

(** Taking [i] out leaves the others ordered, and can be undone. *)
Lemma EliminateRegister_spec (s : positions) :
  let O := λ k, register_offset_ s !!! k in
  edges_ok (left_registers_ s) O → total (left_registers_ s) → no_backup s →
  ∃ s1, EliminateRegister sz ex s i = Ret s1 ∧ register_offset_ s1 = register_offset_ s ∧ order_ s1 = order_ s ∧
    length (backup_registers_ s1) = n ∧ edges_ok (left_registers_ s1) O ∧
    (∀ b, i ∉ left_registers_ s1 !!! b) ∧ left_registers_ s1 !!! i = ∅ ∧
    (∀ a b, a ∈ ex !!! b → a ≠ i → b ≠ i → tc (edge (left_registers_ s1)) a b ∨ tc (edge (left_registers_ s1)) b a) ∧
    ∀ s2, left_registers_ s2 = left_registers_ s1 → backup_registers_ s2 = backup_registers_ s1 →
      backup_register_behind_i_ s2 = backup_register_behind_i_ s1 →
      left_registers_ (RecoverFromBackup sz s2 i) = left_registers_ s ∧ no_backup (RecoverFromBackup sz s2 i) ∧
      order_ (RecoverFromBackup sz s2 i) = order_ s2.
Proof.
  intros O HL Ht [HB Hb]. destruct (eliminated_all s HL HB Hb) as (D & s' & HD & He & E).
  eexists. split; [exact E|]. cbn [set_left register_offset_ order_ backup_registers_ left_registers_
    backup_register_behind_i_].
  set (L1 := <[i := ∅]> (left_registers_ s')).
  assert (Hl : length (left_registers_ s') = n) by apply (el_edges _ _ _ He).
  assert (Hi1 : L1 !!! i = ∅) by (unfold L1; by rewrite list_lookup_total_insert_eq by lia).
  assert (Hm1 : ∀ m, m ≠ i → L1 !!! m = left_registers_ s' !!! m).
  { intros m Hm. unfold L1. by rewrite list_lookup_total_insert_ne. }
  assert (HL1 : edges_ok L1 O).
  { split; [unfold L1; by rewrite length_insert|]. intros a b Hab.
    destruct (decide (b = i)) as [->|Hb']; [rewrite Hi1 in Hab; set_solver|]. rewrite Hm1 in Hab by done.
    by apply (el_edges _ _ _ He). }
  assert (Hnot : ∀ b, i ∉ L1 !!! b).
  { intros b Hb'. destruct (decide (b = i)) as [->|Hne]; [rewrite Hi1 in Hb'; set_solver|]. rewrite Hm1 in Hb' by done.
    destruct (decide (b ∈ D ∧ O i < O b)) as [[HbD Hlt]|Hno].
    - destruct (el_done _ _ _ He b HbD Hlt) as (N & _ & E1 & _). rewrite E1 in Hb'. set_solver.
    - destruct (el_rest _ _ _ He b Hne Hno) as [E1 _]. rewrite E1 in Hb'. destruct (proj2 HL i b Hb') as [Hx ?].
      apply Hno. split; [|done]. apply HD. by apply (Hex b i). }
  assert (Hav : ∀ a b, edge_avoid (left_registers_ s') a b → edge L1 a b).
  { intros a b (Hab & _ & Hb'). unfold edge. by rewrite Hm1. }
  assert (Hgrow : ∀ a b, edge_avoid (left_registers_ s) a b → edge L1 a b).
  { intros a b (Hab & Ha & Hb'). unfold edge. rewrite Hm1 by done.
    destruct (decide (b ∈ D ∧ O i < O b)) as [[HbD Hlt]|Hno].
    - destruct (el_done _ _ _ He b HbD Hlt) as (N & _ & E1 & _). rewrite E1. set_solver.
    - destruct (el_rest _ _ _ He b Hb' Hno) as [E1 _]. by rewrite E1. }
  assert (Hcov : ∀ m a, m ∈ ex !!! i → O i < O m → a ∈ ex !!! m → a ≠ i → O a < O m → tc (edge L1) a m).
  { intros m a Hm Hlt Ha Hai Ham. apply HD in Hm. destruct (el_done _ _ _ He m Hm Hlt) as (_ & _ & _ & _ & Hc).
    eapply tc_mono; [exact Hav|]. by apply Hc. }
  split_and!; [apply (el_off _ _ _ He)|apply (el_order _ _ _ He)|apply (el_backup _ _ _ He)|done|done|done| |].
  - intros a b Hab Ha Hb'. destruct (Ht a b Hab) as [Htc|Htc]; [left|right].
    + by eapply (order_kept (left_registers_ s)).
    + eapply (order_kept (left_registers_ s)); try done. by apply (Hex b a).
  - intros s2 E2 E3 E4. by eapply Recover_spec.
Qed.
End Eliminate.
(** ** Offsets that follow the relation *)

Context (Hpos : ∀ i, (i < n)%nat → 0 < sz !!! i).

(** Registers alive at the same time do not overlap. *)
Definition layout (O : nat → Z) : Prop :=
  ∀ a b, a ∈ ex !!! b → O a + sz !!! a ≤ O b ∨ O b + sz !!! b ≤ O a.

(** Nothing starts before the end of what lies left of it. *)
Definition follows (L : list (gset nat)) (O : nat → Z) : Prop := ∀ a b, a ∈ L !!! b → O a + sz !!! a ≤ O b.

Lemma edge_bounds (L : list (gset nat)) (f : nat → Z) (a b : nat) : edges_ok L f → a ∈ L !!! b →
  (a < n)%nat ∧ (b < n)%nat ∧ a ∈ ex !!! b.
Proof. intros [_ H] Hab. destruct (H a b Hab) as [Hx _]. by destruct (Hex b a Hx) as (? & ? & _). Qed.

Lemma follows_edges (L : list (gset nat)) (f O : nat → Z) : edges_ok L f → follows L O → edges_ok L O.
Proof.
  intros HL HF. split; [apply HL|]. intros a b Hab. destruct (edge_bounds L f a b HL Hab) as (Ha & _ & Hx).
  split; [done|]. specialize (HF a b Hab). specialize (Hpos a Ha). lia.
Qed.

Lemma follows_tc (L : list (gset nat)) (f O : nat → Z) (a b : nat) : edges_ok L f → follows L O →
  tc (edge L) a b → O a + sz !!! a ≤ O b.
Proof.
  intros HL HF. induction 1 as [a b Hab|a m b Ham _ IH]; [by apply HF|].
  pose proof (HF a m Ham). destruct (edge_bounds L f a m HL Ham) as (_ & Hm & _). specialize (Hpos m Hm). lia.
Qed.

Lemma follows_layout (L : list (gset nat)) (f O : nat → Z) : edges_ok L f → follows L O → total L → layout O.
Proof.
  intros HL HF Ht a b Hab. destruct (Ht a b Hab); [left|right]; by eapply follows_tc.
Qed.

Lemma layout_ne (O : nat → Z) (a b : nat) : layout O → a ∈ ex !!! b → O a ≠ O b.
Proof.
  intros Hl Hab. destruct (Hex b a Hab) as (Hb & Ha & _). pose proof (Hpos a Ha). pose proof (Hpos b Hb).
  destruct (Hl a b Hab); lia.
Qed.

(** A list of offsets, as a function. *)
Definition at_offsets (W : nat → Z) (k : nat) : Z := map W (seq 0 n) !!! k.

Lemma at_offsets_eq (W : nat → Z) (k : nat) : (k < n)%nat → at_offsets W k = W k.
Proof. apply map_seq_total. Qed.

Lemma follows_at (L : list (gset nat)) (f W : nat → Z) : edges_ok L f → follows L W → follows L (at_offsets W).
Proof.
  intros HL HF a b Hab. destruct (edge_bounds L f a b HL Hab) as (Ha & Hb & _). rewrite !at_offsets_eq by done. auto.
Qed.

Definition from0 (L : list (gset nat)) : nat → Z := path_end L (replicate n (-1)).

Lemma from0_follows (L : list (gset nat)) (f : nat → Z) : edges_ok L f → follows L (from0 L).
Proof.
  intros HL a b Hab. destruct (edge_bounds L f a b HL Hab) as (_ & Hb & _).
  apply (path_end_free L f _ (edges_desc L f HL)); [|done]. rewrite lookup_total_replicate_2 by done. lia.
Qed.

Lemma from0_run (s : positions) (f : nat → Z) : edges_ok (left_registers_ s) f →
  ComputeOptimalCostFrom0 sz s = Ret (cost_of (from0 (left_registers_ s)),
                                      set_offset (map (from0 (left_registers_ s)) (seq 0 n)) s).
Proof.
  intros HL. unfold ComputeOptimalCostFrom0, ComputeOptimalCost4CompactRelationship, total_register_num_.
  cbn [set_offset left_registers_ register_offset_].
  rewrite (cost_run _ f _ (edges_desc _ f HL)) by apply length_replicate. done.
Qed.

(** ** Putting a register at [x] *)

Section Occupy.
Context (L : list (gset nat)) (B : list Z) (i : nat) (x : Z).
Context (Hi : (i < n)%nat) (Hx : 0 ≤ x) (HB : ∀ k, (k < n)%nat → 0 ≤ B !!! k).
Context (HL : edges_ok L (λ k, B !!! k)) (HF : follows L (λ k, B !!! k)).
Context (Hni : ∀ b, i ∉ L !!! b) (Hnil : L !!! i = ∅).
Context (Htot : ∀ a b, a ∈ ex !!! b → a ≠ i → b ≠ i → tc (edge L) a b ∨ tc (edge L) b a).

Definition occupied : list Z :=
  <[i := x]> (foldl (occupy sz x (x + sz !!! i) B) (replicate n (-1)) (elements (ex !!! i))).

Lemma occupy_fold (ks : list nat) (o : list Z) : NoDup ks →
  let r := foldl (occupy sz x (x + sz !!! i) B) o ks in
  length r = length o ∧
  ∀ k, (k < length o)%nat →
    r !!! k = if decide (k ∈ ks)
              then (if x <? B !!! k + sz !!! k then - (x + sz !!! i) - 1 else B !!! k) else o !!! k.
Proof.
  revert o. induction ks as [|m ks IH]; intros o Hnd; cbn [foldl]; [done|].
  apply NoDup_cons in Hnd as [Hm Hnd].
  assert (E1 : occupy sz x (x + sz !!! i) B o m =
    <[m := if x <? B !!! m + sz !!! m then - (x + sz !!! i) - 1 else B !!! m]> o) by (unfold occupy; by case_match).
  rewrite E1. destruct (IH (<[m := if x <? B !!! m + sz !!! m then - (x + sz !!! i) - 1 else B !!! m]> o) Hnd) as [Hl Hr]. cbv zeta in *.
  rewrite length_insert in Hl, Hr. split; [exact Hl|]. intros k Hk. rewrite Hr by done.
  destruct (decide (k = m)) as [->|Hne].
  - rewrite decide_False, list_lookup_total_insert_eq by done. by rewrite decide_True by (apply elem_of_cons; by left).
  - rewrite list_lookup_total_insert_ne by done. destruct (decide (k ∈ ks)) as [Hin|Hin].
    + by rewrite decide_True by (apply elem_of_cons; by right).
    + rewrite decide_False; [done|]. by intros [?|?]%elem_of_cons.
Qed.

Lemma occupied_spec :
  length occupied = n ∧ occupied !!! i = x ∧
  (∀ k, k ∈ ex !!! i →
     occupied !!! k = if x <? B !!! k + sz !!! k then - (x + sz !!! i) - 1 else B !!! k) ∧
  ∀ k, (k < n)%nat → k ∉ ex !!! i → k ≠ i → occupied !!! k = -1.
Proof.
  destruct (occupy_fold (elements (ex !!! i)) (replicate n (-1)) (NoDup_elements _)) as [Hl Hr]. cbv zeta in Hl, Hr.
  rewrite length_replicate in Hl, Hr. unfold occupied. split_and!.
  - by rewrite length_insert.
  - by rewrite list_lookup_total_insert_eq by lia.
  - intros k Hk. destruct (Hex i k Hk) as (_ & Hkn & _ & Hne). rewrite list_lookup_total_insert_ne by done.
    rewrite Hr by done. by rewrite decide_True by by apply elem_of_elements.
  - intros k Hkn Hk Hne. rewrite list_lookup_total_insert_ne by done.
    rewrite Hr, decide_False by (done || by rewrite elem_of_elements). by apply lookup_total_replicate_2.
Qed.

Definition occ : nat → Z := path_end L occupied.

Lemma occupation_run (s : positions) : left_registers_ s = L →
  ComputeOptimalCostWithOccupation sz ex i x B s = Ret (cost_of occ, set_offset (map occ (seq 0 n)) s).
Proof.
  intros EL. unfold ComputeOptimalCostWithOccupation, ComputeOptimalCost4CompactRelationship, total_register_num_.
  cbn [set_offset left_registers_ register_offset_]. fold occupied. rewrite EL.
  rewrite (cost_run _ _ _ (edges_desc _ _ HL)) by apply occupied_spec. done.
Qed.

(** What ends before [x] stays where it is. *)
Lemma occ_before (k : nat) : (k < n)%nat → k ≠ i → B !!! k + sz !!! k ≤ x → occ k ≤ B !!! k.
Proof.
  remember (Z.to_nat (B !!! k)) as d eqn:Ed. revert k Ed.
  induction d as [d IH] using lt_wf_ind. intros k -> Hk Hki Hend. destruct occupied_spec as (_ & _ & H1 & H2).
  unfold occ. destruct (decide (k ∈ ex !!! i)) as [Hin|Hin].
  - assert (E : occupied !!! k = B !!! k) by (rewrite H1 by done; by rewrite (proj2 (Z.ltb_ge _ _))).
    rewrite (path_end_fixed L (λ k, B !!! k) occupied (edges_desc _ _ HL)); rewrite E; [lia|by apply HB].
  - destruct (path_end_free L (λ k, B !!! k) occupied (edges_desc _ _ HL) k) as (_ & _ & H3); [rewrite H2; done|].
    destruct H3 as [->|(j & Hj & ->)]; [rewrite H2 by done; specialize (HB k Hk); lia|].
    destruct (edge_bounds L _ j k HL Hj) as (Hjn & _ & Hjx). pose proof (HF j k Hj) as Hjk. cbv beta in Hjk.
    pose proof (Hpos j Hjn). pose proof (HB j Hjn). pose proof (Hpos k Hk).
    assert (occ j ≤ B !!! j); [|unfold occ in *; lia].
    eapply IH; [|done|done|intros ->; by apply (Hni k)|lia]. lia.
Qed.

Lemma occ_at : occ i = x.
Proof.
  destruct occupied_spec as (_ & E & _). unfold occ.
  rewrite (path_end_fixed L (λ k, B !!! k) occupied (edges_desc _ _ HL)); by rewrite E.
Qed.

Lemma occ_around (k : nat) : k ∈ ex !!! i → occ k + sz !!! k ≤ x ∨ x + sz !!! i ≤ occ k.
Proof.
  intros Hk. destruct (Hex i k Hk) as (_ & Hkn & _ & Hne). destruct occupied_spec as (_ & _ & H1 & _).
  specialize (H1 k Hk). pose proof (Hpos i Hi). destruct (Z.ltb_spec x (B !!! k + sz !!! k)) as [Hlt|Hge].
  - right. destruct (path_end_free L (λ k, B !!! k) occupied (edges_desc _ _ HL) k) as (H2 & _); [lia|].
    unfold occ. lia.
  - left. pose proof (occ_before k Hkn ltac:(done) Hge). lia.
Qed.

Lemma occ_follows : follows L occ.
Proof.
  intros a b Hab. destruct (edge_bounds L _ a b HL Hab) as (Ha & Hb & Hxab).
  assert (Hbi : b ≠ i) by (intros ->; rewrite Hnil in Hab; by apply not_elem_of_empty in Hab).
  assert (Hai : a ≠ i) by (intros ->; by apply (Hni b)).
  destruct (Z_lt_le_dec (occupied !!! b) 0) as [Hneg|Hnn].
  { unfold occ. by apply (path_end_free L (λ k, B !!! k) occupied (edges_desc _ _ HL)). }
  destruct occupied_spec as (_ & _ & H1 & H2). pose proof (Hpos i Hi).
  destruct (decide (b ∈ ex !!! i)) as [Hin|Hin]; [|rewrite H2 in Hnn by done; lia].
  specialize (H1 b Hin). pose proof (HF a b Hab) as Hf. cbv beta in Hf. pose proof (Hpos b Hb).
  destruct (Z.ltb_spec x (B !!! b + sz !!! b)) as [Hlt|Hge]; [lia|].
  pose proof (occ_before a Ha Hai ltac:(lia)).
  assert (Eb : occ b = B !!! b).
  { unfold occ. rewrite (path_end_fixed L (λ k, B !!! k) occupied (edges_desc _ _ HL)) by done. done. }
  lia.
Qed.

Lemma occ_layout : layout occ.
Proof.
  intros a b Hab. destruct (decide (a = i)) as [->|Ha].
  { rewrite occ_at. destruct (occ_around b); [by apply (Hex b i)|right|left]; done. }
  destruct (decide (b = i)) as [->|Hb]; [rewrite occ_at; by apply occ_around|].
  destruct (Htot a b Hab Ha Hb); [left|right]; by (eapply follows_tc; [exact HL|apply occ_follows|]).
Qed.
End Occupy.
(** ** The search *)

(** [std::sort] by a key. *)
Definition sorts (std_sort : (nat → nat → bool) → list nat → list nat) : Prop :=
  ∀ (key : nat → Z) l, std_sort (λ x y, key x <? key y) l ≡ₚ l ∧
    StronglySorted (λ x y, key x ≤ key y) (std_sort (λ x y, key x <? key y) l).

Context (std_sort : (nat → nat → bool) → list nat → list nat) (Hsort : sorts std_sort).
Context (lf : nat → lifetime) (Hlf : ∀ x, (x < n)%nat → (lf x).1 < (lf x).2).
Context (Hexl : ∀ x y, (x < n)%nat → (y < n)%nat → x ≠ y →
  (y ∈ ex !!! x ↔ IsLifetimeExcluded (lf x) (lf y) = true)).

(** The relation orders the registers and the offsets and the cost are those it
    gives. *)
Record good (s : positions) (cost : Z) : Prop := {
  gd_off : register_offset_ s = map (from0 (left_registers_ s)) (seq 0 n);
  gd_cost : cost = cost_of (from0 (left_registers_ s));
  gd_edges : edges_ok (left_registers_ s) (λ k, register_offset_ s !!! k);
  gd_total : total (left_registers_ s);
  gd_backup : no_backup s;
  gd_order : order_ s ≡ₚ seq 0 n;
}.

Lemma from0_edges (L : list (gset nat)) (f : nat → Z) : edges_ok L f → edges_ok L (at_offsets (from0 L)).
Proof.
  intros HL. eapply follows_edges; [exact HL|]. eapply follows_at; [exact HL|]. by eapply from0_follows.
Qed.

Lemma from0_good (s : positions) (f : nat → Z) :
  edges_ok (left_registers_ s) f → total (left_registers_ s) → no_backup s → order_ s ≡ₚ seq 0 n →
  let c := cost_of (from0 (left_registers_ s)) in
  ComputeOptimalCostFrom0 sz s = Ret (c, set_offset (map (from0 (left_registers_ s)) (seq 0 n)) s) ∧
  good (set_offset (map (from0 (left_registers_ s)) (seq 0 n)) s) c.
Proof.
  intros HL Ht Hb Ho c. split; [by apply (from0_run s f)|]. split; try done. by apply (from0_edges _ f).
Qed.

(** Putting [i] back at [x] orders all registers again. *)
Lemma InsertRegister_spec (s : positions) (B : list Z) (i : nat) (x : Z) :
  let L := left_registers_ s in
  (i < n)%nat → 0 ≤ x → (∀ k, (k < n)%nat → 0 ≤ B !!! k) →
  edges_ok L (λ k, B !!! k) → follows L (λ k, B !!! k) → (∀ b, i ∉ L !!! b) → L !!! i = ∅ →
  (∀ a b, a ∈ ex !!! b → a ≠ i → b ≠ i → tc (edge L) a b ∨ tc (edge L) b a) → order_ s ≡ₚ seq 0 n →
  ∃ s' f, InsertRegister std_sort sz ex s i x B = Ret s' ∧
    edges_ok (left_registers_ s') f ∧ total (left_registers_ s') ∧ order_ s' ≡ₚ seq 0 n ∧
    backup_registers_ s' = backup_registers_ s.
Proof.
  intros L Hi Hx HB HL HF Hni Hnil Htot Ho. unfold InsertRegister.
  rewrite (occupation_run L B i x Hi HL s eq_refl). cbn [obind].
  set (W := occ L B i x). set (s1 := set_offset (map W (seq 0 n)) s). set (O := at_offsets W).
  change (λ k j, register_offset_ s1 !!! k <? register_offset_ s1 !!! j) with (λ k j, O k <? O j).
  destruct (Hsort O (order_ s1)) as [Hperm Hsorted]. set (ids := std_sort (λ k j, O k <? O j) (order_ s1)) in *.
  clearbody ids. assert (Hids : ids ≡ₚ seq 0 n) by (by rewrite Hperm).
  assert (Hidn : ∀ k, k ∈ ids ↔ (k < n)%nat) by (intros k; rewrite Hids, elem_of_seq; lia).
  assert (HFW : follows L O) by (eapply follows_at; [exact HL|]; by apply occ_follows).
  assert (HLW : edges_ok L O) by (by eapply follows_edges).
  assert (HOi : O i = x) by (unfold O; rewrite at_offsets_eq by done; by apply occ_at).
  assert (Hlay : layout O).
  { intros a b Hab. destruct (Hex b a Hab) as (Hbn & Han & _). unfold O. rewrite !at_offsets_eq by done.
    by apply occ_layout. }
  set (s2 := set_order ids s1). change (order_ s2) with ids.
  destruct (resets_spec (λ s j, register_offset_ s !!! i <=? register_offset_ s !!! j) (map W (seq 0 n)) x ids s2)
    as (s' & E & (_ & R2 & _ & R4) & HL' & Hcov); try done.
  - intros s0 j E0. rewrite E0. change (map W (seq 0 n) !!! i) with (O i). by rewrite HOi.
  - rewrite Hids. apply NoDup_seq.
  - intros k. by rewrite Hidn.
  - change (λ k, map W (seq 0 n) !!! k) with O. change (left_registers_ s2) with L.
    intros b Hbn. destruct (Z_lt_le_dec (O b) x) as [Hlt|Hge]; [right|left; by rewrite Hidn].
    split; [|intros j _ Hxj; change (x ≤ O j) in Hxj; split; [intros ->; lia|change (O b ≤ O j); lia]].
    intros a Hab Hlt'. destruct (Htot a b Hab) as [?|Hba]; [intros ->; lia..|done|].
    apply (tc_lt L O) in Hba; [lia|done].
  - exists s', O. split_and!; [done|done| |by rewrite R4|done].
    eapply covered_total; [|exact Hcov]. intros a b Hab. by apply layout_ne.
Qed.

Lemma try_positions_spec (L : list (gset nat)) (B : list Z) (i : nat) (cost_without_i : Z) (xs : list Z)
    (min_cost min_x : Z) (s : positions) : (i < n)%nat → edges_ok L (λ k, B !!! k) → left_registers_ s = L →
  ∃ c x offs, try_positions sz ex i cost_without_i B xs min_cost min_x s = Ret (c, x, set_offset offs s) ∧
    (x = min_x ∨ x ∈ xs).
Proof.
  intros Hi HL. revert min_cost min_x s. induction xs as [|y xs IH]; intros min_cost min_x s EL; cbn [try_positions].
  { exists min_cost, min_x, (register_offset_ s). split; [|by left]. by destruct s. }
  rewrite (occupation_run L B i y Hi HL s EL). cbn [obind]. set (s1 := set_offset _ s).
  destruct (_ <? min_cost); [destruct (_ <=? cost_without_i)|].
  - eexists _, y, _. split; [reflexivity|]. right. apply elem_of_cons. by left.
  - destruct (IH (cost_of (occ L B i y)) y s1 EL) as (c & x & o & E & Hxs). exists c, x, o. split; [done|].
    right. apply elem_of_cons. destruct Hxs; auto.
  - destruct (IH min_cost min_x s1 EL) as (c & x & o & E & Hxs). exists c, x, o. split; [done|].
    destruct Hxs; [by left|right]. apply elem_of_cons. by right.
Qed.

Lemma all_x_i_nonneg (i : nat) (B : list Z) (x : Z) : (∀ k, (k < n)%nat → 0 ≤ B !!! k) →
  x ∈ elements (all_x_i sz ex i B) → 0 ≤ x.
Proof.
  intros HB Hx%elem_of_elements. unfold all_x_i in Hx.
  assert (H : ∀ (ks : list nat) (X : gset Z), (∀ k, k ∈ ks → (k < n)%nat) → (∀ y, y ∈ X → 0 ≤ y) →
    ∀ y, y ∈ foldl (λ X j, {[B !!! j + sz !!! j]} ∪ ({[B !!! j]} ∪ X)) X ks → 0 ≤ y).
  { induction ks as [|k ks IH]; intros X Hks HX y; cbn [foldl]; [apply HX|]. apply IH.
    - intros m Hm. apply Hks, elem_of_cons. by right.
    - assert (Hk : (k < n)%nat) by (apply Hks, elem_of_cons; by left). pose proof (HB k Hk). pose proof (Hpos k Hk).
      intros z [->%elem_of_singleton|[->%elem_of_singleton|Hz]%elem_of_union]%elem_of_union; [lia|lia|by apply HX]. }
  eapply (H (elements (ex !!! i)) ∅); [| |exact Hx].
  - intros k Hk%elem_of_elements. by apply (Hex i k).
  - intros y Hy. by apply elem_of_empty in Hy.
Qed.

Lemma adjust_register_good (cost step : Z) (s : positions) (i : nat) : (i < n)%nat → good s cost →
  ∃ cost' step' s', adjust_register std_sort sz ex (cost, step, s) i = Ret (cost', step', s') ∧ good s' cost'.
Proof.
  intros Hi [G1 G2 G3 G4 G5 G6]. unfold adjust_register.
  destruct (EliminateRegister_spec i Hi lf Hlf Hexl s G3 G4 G5)
    as (s1 & E1 & Eo & Eord & Elen & HL1 & Hni & Hnil & Htot & Hrec).
  rewrite E1. cbn [obind]. rewrite (from0_run s1 _ HL1). cbn [obind].
  set (L1 := left_registers_ s1) in *. set (B := map (from0 L1) (seq 0 n)). set (s2 := set_offset B s1).
  pose proof (from0_edges L1 _ HL1) as HLB.
  assert (HB : ∀ k, (k < n)%nat → 0 ≤ B !!! k).
  { intros k Hk. unfold B. rewrite map_seq_total by done. apply (path_end_nonneg L1 _ _ (edges_desc L1 _ HL1)). }
  (* the relation is restored when no better place is found *)
  assert (Hback : ∀ offs, ∃ cost' step' s',
    (let* (_, s) := ComputeOptimalCostFrom0 sz (RecoverFromBackup sz (set_offset offs s2) i) in
     Ret (cost, step + 1, s)) = Ret (cost', step', s') ∧ good s' cost').
  { intros offs. destruct (Hrec (set_offset offs s2)) as (R1 & R2 & R3); [done..|].
    set (r := RecoverFromBackup sz (set_offset offs s2) i) in *.
    destruct (from0_good r (λ k, register_offset_ s !!! k)) as [E Hgood]; rewrite ?R1; [done|done|done|by rewrite R3, <- G6, <- Eord|].
    rewrite R1 in E, Hgood. rewrite E. cbn [obind]. rewrite <- G2 in Hgood. eexists _, _, _. split; [reflexivity|]. done. }
  destruct (_ <? cost); cbn [obind].
  2: { rewrite (proj2 (Z.leb_gt 0 (-1))) by lia. apply (Hback B). }
  change (register_offset_ s2) with B.
  destruct (try_positions_spec L1 B i (cost_of (from0 L1)) (elements (all_x_i sz ex i B)) cost (-1) s2 Hi HLB eq_refl)
    as (c & x & offs & Et & Hx). rewrite Et. cbn [obind].
  destruct (Z.leb_spec 0 x) as [Hx0|Hneg]; cbn [obind].
  2: { rewrite (proj2 (Z.leb_gt 0 x)) by lia. apply Hback. }
  destruct (InsertRegister_spec (set_offset offs s2) B i x) as (s3 & f & E3 & HL3 & Ht3 & Ho3 & HB3); try done.
  { eapply follows_at; [exact HL1|]. by eapply from0_follows. }
  { change (order_ s1 ≡ₚ seq 0 n). by rewrite Eord. }
  rewrite E3. cbn [obind]. rewrite (from0_run s3 f HL3). cbn [obind]. rewrite (proj2 (Z.leb_le 0 x)) by done.
  eexists _, _, _. split; [reflexivity|]. split; try done.
  - by apply (from0_edges _ f).
  - apply ClearBackup_spec. cbn [set_offset backup_registers_]. rewrite HB3. exact Elen.
Qed.

Lemma adjust_all_good (ids : list nat) (st : Z * Z * positions) : (∀ i, i ∈ ids → (i < n)%nat) → good st.2 st.1.1 →
  ∃ st', adjust_all std_sort sz ex ids st = Ret st' ∧ good st'.2 st'.1.1.
Proof.
  revert st. induction ids as [|i ids IH]; intros [[cost step] s] Hids Hg; cbn [adjust_all]; [by eexists|].
  destruct (adjust_register_good cost step s i) as (c & k & s' & E & Hg'); [apply Hids, elem_of_cons; by left|done|].
  rewrite E. cbn [obind]. destruct (_ && _); [by eexists|]. apply IH; [|done]. intros m Hm. apply Hids, elem_of_cons. by right.
Qed.

Lemma iterate_good (m : nat) (st : Z * Z * positions) : good st.2 st.1.1 →
  ∃ st', iterate std_sort sz ex m st = Ret st' ∧ good st'.2 st'.1.1.
Proof.
  revert st. induction m as [|m IH]; intros st Hg; cbn [iterate]; [by eexists|].
  destruct (adjust_all_good (seq 0 n) st) as (st1 & E & Hg1); [intros i; rewrite elem_of_seq; lia|done|].
  unfold total_register_num_. rewrite E. cbn [obind]. destruct (_ <=? _); [by eexists|by apply IH].
Qed.

Lemma good_facts (s : positions) (cost : Z) : good s cost → length (register_offset_ s) = n ∧
  layout (λ k, register_offset_ s !!! k) ∧
  ∀ k, (k < n)%nat → 0 ≤ register_offset_ s !!! k ∧ register_offset_ s !!! k + sz !!! k ≤ cost.
Proof.
  intros [G1 G2 G3 G4 _ _]. split_and!; [rewrite G1; by rewrite length_map, length_seq| |].
  - eapply follows_layout; [exact G3| |done]. rewrite G1. eapply follows_at; [exact G3|]. by eapply from0_follows.
  - intros k Hk. rewrite G1, map_seq_total, G2 by done. split.
    + apply (path_end_nonneg _ _ _ (edges_desc _ _ G3)).
    + unfold cost_of. apply (max_over_spec (λ i, from0 (left_registers_ s) i + sz !!! i)). apply elem_of_seq. lia.
Qed.

Lemma ofold_check {A : Type} (f : unit → A → outcome unit) (l : list A) :
  (∀ x, x ∈ l → f tt x = Ret tt) → ofold f l tt = Ret tt.
Proof.
  induction l as [|x l IH]; intros H; [done|]. cbn [ofold]. rewrite H by (apply elem_of_cons; by left). cbn [obind].
  apply IH. intros y Hy. apply H, elem_of_cons. by right.
Qed.

(** The final check passes. *)
Lemma CheckConflict_passes (index2register : list nat) (s : positions) (cost : Z) : length index2register = n →
  good s cost → CheckConflict sz ex index2register s = Ret tt.
Proof.
  intros Hlen Hg. destruct (good_facts s cost Hg) as (Hoff & Hlay & Hin). unfold CheckConflict, total_register_num_.
  rewrite Hlen, Hoff, Nat.eqb_refl. cbn [CHECK_OR_RETURN obind]. apply ofold_check. intros i Hi%elem_of_seq.
  destruct (Hin i ltac:(lia)) as [H0 _]. rewrite (proj2 (Z.leb_le _ _)) by done. cbn [CHECK_OR_RETURN obind].
  apply ofold_check. intros j Hj%elem_of_elements. unfold no_conflict.
  destruct (Hlay j i Hj) as [H1|H1]; apply Z.leb_le in H1; rewrite H1; [by rewrite orb_true_r|done].
Qed.

Lemma AdjustedCost_spec (steps : Z) (index2register : list nat) (s : positions) (f : nat → Z) :
  edges_ok (left_registers_ s) f → total (left_registers_ s) → backup_register_behind_i_ s = ∅ →
  order_ s ≡ₚ seq 0 n → length index2register = n →
  ∃ cost s', ComputeOptimalAdjustedCost std_sort sz ex steps index2register s = Ret (cost, s') ∧ good s' cost.
Proof.
  intros HL Ht Hb Ho Hlen. unfold ComputeOptimalAdjustedCost. rewrite (from0_run s f HL). cbn [obind].
  unfold total_register_num_. set (s1 := set_backup _ _ _).
  destruct (iterate_good (Z.to_nat steps) (cost_of (from0 (left_registers_ s)), 0, s1)) as ([[c k] s'] & E & Hg).
  { cbn [fst snd]. split; try done. by apply (from0_edges _ f). }
  rewrite E. cbn [obind fst snd] in *. rewrite (CheckConflict_passes index2register s' c Hlen Hg).
  cbn [CHECK_JUST obind]. by exists c, s'.
Qed.
End Spec.
