(* ===== verification/MemCompress.v ===== *)
(** * Compression returns a smaller block without conflicts

    The entry points of [MemStrategy] ([StealCompactPosition], [UpdateOffset],
    [AdaptivelyUpdateOffset], [GenerateOffset]) on top of the search that
    [MemStrategySpec] shows correct: if every register has at least one byte they
    return, and what they return is a block whose registers do not overlap.  With an
    empty register compression can end in a failed check; an example shows it. *)
From stdpp Require Import sorting relations.
From S2P Require Import Prelude MemReuse MemStrategy MemStrategySpec.

(** ** The registers that are alive at the same time *)

Lemma IsLifetimeExcluded_sym (a b : lifetime) : IsLifetimeExcluded a b = IsLifetimeExcluded b a.
Proof. apply andb_comm. Qed.

Lemma add_to_spec (l : list (gset nat)) (j k m x : nat) : (j < length l)%nat →
  x ∈ add_to l j k !!! m ↔ x ∈ l !!! m ∨ (m = j ∧ x = k).
Proof.
  intros Hj. unfold add_to. destruct (decide (m = j)) as [->|Hne].
  - rewrite list_lookup_total_insert_eq by done. set_solver.
  - rewrite list_lookup_total_insert_ne by done. naive_solver.
Qed.

Section Excluded.
Context (lifetimes : list lifetime).
#[local] Abbreviation n := (length lifetimes).

(** [a] and [b] are the pair that was visited with [j] first and [i] second. *)
Definition pair_of (j i a b : nat) : Prop :=
  IsLifetimeExcluded (lifetimes !!! j) (lifetimes !!! i) = true ∧ ((a = j ∧ b = i) ∨ (a = i ∧ b = j)).

Lemma exclude_inner (j : nat) (ids : list nat) (ex : list (gset nat)) :
  (j < length ex)%nat → (∀ i, i ∈ ids → (i < length ex)%nat) →
  let r := foldl (exclude_pair lifetimes j) ex ids in
  length r = length ex ∧ ∀ a b, b ∈ r !!! a ↔ b ∈ ex !!! a ∨ ∃ i, i ∈ ids ∧ pair_of j i a b.
Proof.
  intros Hj. revert ex Hj. induction ids as [|i ids IH]; intros ex Hj Hids; cbn [foldl].
  { split; [done|]. intros a b. split; [by left|]. intros [?|(i & Hi%elem_of_nil & _)]; done. }
  assert (Hi : (i < length ex)%nat) by (apply Hids, elem_of_cons; by left).
  set (ex1 := exclude_pair lifetimes j ex i).
  assert (H1 : length ex1 = length ex ∧ ∀ a b, b ∈ ex1 !!! a ↔ b ∈ ex !!! a ∨ pair_of j i a b).
  { unfold ex1, exclude_pair, pair_of. destruct (IsLifetimeExcluded _ _) eqn:E; [|naive_solver].
    split; [unfold add_to; by rewrite !length_insert|]. intros a b.
    rewrite add_to_spec, add_to_spec; [naive_solver|done|unfold add_to; by rewrite length_insert]. }
  destruct H1 as [Hl1 H1]. destruct (IH ex1) as [Hl Hr]; [lia| |].
  { intros k Hk. rewrite Hl1. apply Hids, elem_of_cons. by right. }
  cbv zeta in *. split; [lia|]. intros a b. rewrite Hr, H1. split.
  - intros [[?|?]|(k & Hk & ?)]; [by left|right; exists i|right; exists k]; (split; [|done]); apply elem_of_cons; auto.
  - intros [?|(k & [->|Hk]%elem_of_cons & ?)]; [by left; left|by left; right|]. right. by exists k.
Qed.

Lemma init_excluded_spec : length (init_excluded lifetimes) = n ∧
  ∀ a b, b ∈ init_excluded lifetimes !!! a ↔
    (a < n)%nat ∧ (b < n)%nat ∧ a ≠ b ∧ IsLifetimeExcluded (lifetimes !!! a) (lifetimes !!! b) = true.
Proof.
  assert (H : ∀ js ex, (∀ j, j ∈ js → (j < n)%nat) → length ex = n →
    let r := foldl (λ ex j, foldl (exclude_pair lifetimes j) ex (seq (S j) (n - S j))) ex js in
    length r = n ∧ ∀ a b, b ∈ r !!! a ↔
      b ∈ ex !!! a ∨ ∃ j i, j ∈ js ∧ (j < i < n)%nat ∧ pair_of j i a b).
  { induction js as [|j js IH]; intros ex Hjs Hl; cbn [foldl].
    { split; [done|]. intros a b. split; [by left|]. intros [?|(j & i & Hj%elem_of_nil & _)]; done. }
    assert (Hj : (j < n)%nat) by (apply Hjs, elem_of_cons; by left).
    destruct (exclude_inner j (seq (S j) (n - S j)) ex) as [Hl1 H1].
    { lia. }
    { intros i. rewrite elem_of_seq. lia. }
    cbv zeta in *. set (ex1 := foldl (exclude_pair lifetimes j) ex (seq (S j) (n - S j))) in *.
    destruct (IH ex1) as [Hl2 H2]; [intros k Hk; apply Hjs, elem_of_cons; by right|lia|]. split; [done|].
    intros a b. rewrite H2, H1. split.
    - intros [[?|(i & Hi%elem_of_seq & ?)]|(k & i & Hk & ? & ?)]; [by left|right; exists j, i|right; exists k, i];
        (split_and!; [apply elem_of_cons; auto|lia..|done]).
    - intros [?|(k & i & [->|Hk]%elem_of_cons & ? & ?)]; [by left; left|left; right|right].
      + exists i. split; [apply elem_of_seq; lia|done].
      + exists k, i. split; [done|by split]. }
  unfold init_excluded. destruct (H (seq 0 n) (replicate n ∅)) as [Hl Hr].
  { intros j. rewrite elem_of_seq. lia. }
  { apply length_replicate. }
  cbv zeta in *. split; [done|]. intros a b. rewrite Hr. split.
  - intros [Hin|(j & i & _ & Hji & E & [[-> ->]|[-> ->]])].
    + destruct (decide (a < n)%nat).
      * rewrite lookup_total_replicate_2 in Hin by done. by apply elem_of_empty in Hin.
      * rewrite list_lookup_total_alt, lookup_ge_None_2 in Hin by (rewrite length_replicate; lia).
        by apply elem_of_empty in Hin.
    + split_and!; [lia..|done].
    + rewrite IsLifetimeExcluded_sym in E. split_and!; [lia..|done].
  - intros (Ha & Hb & Hne & E). right. destruct (decide (a < b)%nat).
    + exists a, b. split_and!; [apply elem_of_seq; lia|lia|lia|]. split; [done|by left].
    + exists b, a. split_and!; [apply elem_of_seq; lia|lia|lia|]. split; [by rewrite IsLifetimeExcluded_sym|by right].
Qed.
End Excluded.

(** ** Stealing a position *)

Lemma StronglySorted_lookup_le {A : Type} (R : relation A) (l : list A) (i j : nat) (x y : A) :
  StronglySorted R l → (i < j)%nat → l !! i = Some x → l !! j = Some y → R x y.
Proof.
  intros Hs. revert i j. induction Hs as [|z l Hl IH Hz]; intros [|i] [|j] Hij Hx Hy; simplify_eq/=; try lia.
  - by apply (proj1 (Forall_forall _ _) Hz), (list_elem_of_lookup_2 _ j).
  - by apply (IH i j); [lia| |].
Qed.

Lemma seq_StronglySorted (k m : nat) : StronglySorted lt (seq k m).
Proof.
  revert k. induction m as [|m IH]; intros k; constructor; [apply IH|].
  apply Forall_forall. intros x. rewrite elem_of_seq. lia.
Qed.

Section Compress.
Context (std_sort : (nat → nat → bool) → list nat → list nat) (Hsort : sorts std_sort).
Context (sizes : gmap nat Z) (lt : gmap nat lifetime).

(** Every register has at least one byte and lives for at least one step. *)
Definition nonempty_registers : Prop :=
  ∀ r l, lt !! r = Some l → l.1 < l.2 ∧ ∃ z, sizes !! r = Some z ∧ 0 < z.

Context (Hreg : nonempty_registers).

(** What [StealCompactPosition] leaves: the registers in some order, with their
    sizes and the pairs of them that are alive at the same time, and a relation that
    orders these pairs. *)
Record stolen (c : compact) : Prop := {
  st_nodup : NoDup (index2register_ c);
  st_keys : ∀ r, r ∈ index2register_ c ↔ ∃ l, lt !! r = Some l;
  st_index : ∀ k r, index2register_ c !! k = Some r → register2index_ c !! r = Some k;
  st_sizes : c_register_size_ c = map (bytes sizes) (index2register_ c);
  st_excluded : c_excluded_registers_ c = init_excluded (map (life lt) (index2register_ c));
  st_relation : ∃ f, edges_ok (c_register_size_ c) (c_excluded_registers_ c) (left_registers_ (c_positions c)) f;
  st_total : total (c_excluded_registers_ c) (left_registers_ (c_positions c));
  st_behind : backup_register_behind_i_ (c_positions c) = ∅;
  st_order : order_ (c_positions c) = seq 0 (length (index2register_ c));
}.

Lemma excluded_facts (index : list nat) :
  let ex := init_excluded (map (life lt) index) in let sz := map (bytes sizes) index in
  let lf := λ k, map (life lt) index !!! k in
  (∀ i j, j ∈ ex !!! i → (i < length sz)%nat ∧ (j < length sz)%nat ∧ i ∈ ex !!! j ∧ i ≠ j) ∧
  (∀ x y, (x < length sz)%nat → (y < length sz)%nat → x ≠ y →
     (y ∈ ex !!! x ↔ IsLifetimeExcluded (lf x) (lf y) = true)).
Proof.
  cbv zeta. destruct (init_excluded_spec (map (life lt) index)) as [_ H]. rewrite !length_map in *. split.
  - intros i j Hij. pose proof (proj1 (H i j) Hij) as (? & ? & ? & E). split_and!; [done|done| |done]. apply H.
    rewrite IsLifetimeExcluded_sym in E. by split_and!.
  - intros x y Hx Hy Hne. rewrite H. tauto.
Qed.

Lemma index_facts (index : list nat) : (∀ r, r ∈ index → ∃ l, lt !! r = Some l) →
  (∀ i, (i < length (map (bytes sizes) index))%nat → 0 < map (bytes sizes) index !!! i) ∧
  (∀ x, (x < length (map (bytes sizes) index))%nat →
     (map (life lt) index !!! x).1 < (map (life lt) index !!! x).2).
Proof.
  intros Hk. assert (H : ∀ i, (i < length (map (bytes sizes) index))%nat → ∃ r l z, index !! i = Some r ∧
    lt !! r = Some l ∧ sizes !! r = Some z ∧ l.1 < l.2 ∧ 0 < z).
  { intros i Hi. rewrite length_map in Hi. destruct (lookup_lt_is_Some_2 index i Hi) as [r Hr].
    destruct (Hk r) as [l Hl]; [by eapply list_elem_of_lookup_2|]. destruct (Hreg r l Hl) as [? (z & ? & ?)].
    by exists r, l, z. }
  split; intros i Hi; destruct (H i Hi) as (r & l & z & Hr & Hl & Hz & ? & ?).
  - rewrite (list_lookup_total_correct _ _ z); [done|]. rewrite list_lookup_fmap, Hr. cbn. unfold bytes. by rewrite Hz.
  - rewrite (list_lookup_total_correct _ _ l); [done|]. rewrite list_lookup_fmap, Hr. cbn. unfold life. by rewrite Hl.
Qed.

Lemma Steal_spec (offs : gmap nat Z) :
  (∀ r l, lt !! r = Some l → ∃ o, offs !! r = Some o ∧ 0 ≤ o) →
  (∀ r1 r2 o1 o2, r1 ≠ r2 → offs !! r1 = Some o1 → offs !! r2 = Some o2 → is_Some (lt !! r1) → is_Some (lt !! r2) →
     IsLifetimeExcluded (life lt r1) (life lt r2) = true → o1 ≠ o2) →
  ∃ c, StealCompactPosition std_sort offs sizes lt = Ret c ∧ stolen c.
Proof.
  intros Hoffs Hne. unfold StealCompactPosition. set (keys := (map_to_list lt).*1).
  assert (Hkeys : ∀ r, r ∈ keys ↔ ∃ l, lt !! r = Some l) by apply keys_lookup.
  set (key := λ r, default 0 (offs !! r)).
  change (λ i j, default 0 (offs !! i) <? default 0 (offs !! j)) with (λ i j, key i <? key j).
  destruct (Hsort key keys) as [Hperm Hsorted]. set (index := std_sort (λ i j, key i <? key j) keys) in *. clearbody index.
  assert (Hin : ∀ r, r ∈ index ↔ ∃ l, lt !! r = Some l) by (intros r; by rewrite Hperm, Hkeys).
  assert (Hnd : NoDup index) by (rewrite Hperm; apply NoDup_fst_map_to_list).
  assert (Hat : ∀ l, (∀ r, r ∈ l → ∃ x, lt !! r = Some x) → omap_list (map_at offs) l = Ret (map key l)).
  { intros l Hl. apply omap_list_Ret, Forall_forall. intros r Hr. destruct (Hl r Hr) as [x Hx].
    destruct (Hoffs r x Hx) as (o & Ho & _). unfold map_at, key. by rewrite Ho. }
  rewrite (Hat keys) by (intros r; by rewrite Hkeys). cbn [obind].
  assert (Esz : omap_list (map_at sizes) index = Ret (map (bytes sizes) index)).
  { apply omap_list_Ret, Forall_forall. intros r [l Hl]%Hin. destruct (Hreg r l Hl) as [_ (z & Hz & _)].
    unfold map_at, bytes. by rewrite Hz. }
  assert (Elf : omap_list (map_at lt) index = Ret (map (life lt) index)).
  { apply omap_list_Ret, Forall_forall. intros r [l Hl]%Hin. unfold map_at, life. by rewrite Hl. }
  rewrite Esz, (Hat index), Elf by (intros r; by rewrite Hin). cbn [obind].
  destruct (excluded_facts index) as [Hex Hexl]. destruct (index_facts index) as [Hpos Hlf]; [intros r; by rewrite Hin|].
  cbv zeta in Hex, Hexl. set (sz := map (bytes sizes) index) in *. set (ex := init_excluded (map (life lt) index)) in *.
  assert (Hn : length sz = length index) by apply length_map.
  set (O := λ k, map key index !!! k).
  assert (HO : ∀ k r, index !! k = Some r → O k = key r).
  { intros k r Hr. apply list_lookup_total_correct. by rewrite list_lookup_fmap, Hr. }
  assert (HOnn : ∀ k, 0 ≤ O k).
  { intros k. destruct (lookup_lt_is_Some (map key index) k) as [_ _]. unfold O. rewrite list_lookup_total_alt.
    destruct (map key index !! k) as [o|] eqn:E; [|cbn; done].
    rewrite list_lookup_fmap in E. destruct (index !! k) as [r|] eqn:Er; [|done]. injection E as <-.
    apply list_elem_of_lookup_2 in Er. apply Hin in Er as [l Hl]. destruct (Hoffs r l Hl) as (o & Ho & ?).
    unfold key. by rewrite Ho. }
  destruct (resets_spec sz ex Hex (λ _ _, true) (map key index) 0 (seq 0 (length index))
    (mkPositions (map key index) (replicate (length index) ∅) [] ∅ (replicate (length index) 0) (seq 0 (length index))))
    as (s & E & (R1 & R2 & R3 & R4) & HL & Hcov).
  - intros s j _. symmetry. by apply Z.leb_le, HOnn.
  - done.
  - apply NoDup_seq.
  - intros i. rewrite elem_of_seq. lia.
  - apply (StronglySorted_impl_in Nat.lt); [|apply seq_StronglySorted]. intros a b Ha%elem_of_seq Hb%elem_of_seq Hab.
    destruct (lookup_lt_is_Some_2 index a) as [ra Hra]; [lia|]. destruct (lookup_lt_is_Some_2 index b) as [rb Hrb]; [lia|].
    change (O a ≤ O b). rewrite (HO a ra), (HO b rb) by done. by eapply (StronglySorted_lookup_le _ _ a b ra rb Hsorted).
  - split; [cbn [left_registers_]; by rewrite length_replicate|]. cbn [left_registers_]. intros a b Hab.
    destruct (decide (b < length index)%nat).
    + rewrite lookup_total_replicate_2 in Hab by done. by apply elem_of_empty in Hab.
    + rewrite list_lookup_total_alt, lookup_ge_None_2 in Hab by (rewrite length_replicate; lia).
      by apply elem_of_empty in Hab.
  - intros b Hb. left. split; [apply elem_of_seq; lia|apply HOnn].
  - change (ofold (ResetCompactPosition sz ex) (seq 0 (length index))
      (mkPositions (map key index) (replicate (length index) ∅) [] ∅ (replicate (length index) 0)
        (seq 0 (length index))) = Ret s) in E.
    rewrite E. cbn [obind]. eexists. split; [reflexivity|].
    destruct (foldl_insert_lookup index (seq 0 (length index)) ∅ Hnd) as [L1 _]; [by rewrite length_seq|].
    split; cbn [index2register_ register2index_ c_register_size_ c_excluded_registers_ c_positions]; try done.
    + intros k r Hr. apply (L1 k); [done|]. apply lookup_seq_lt. by eapply lookup_lt_Some.
    + by eexists.
    + eapply covered_total; [exact Hex| |exact Hcov]. intros a b Hab.
      destruct (init_excluded_spec (map (life lt) index)) as [_ Hspec]. apply Hspec in Hab as (Hb & Ha & Hab & El).
      rewrite length_map in Ha, Hb.
      destruct (lookup_lt_is_Some_2 index a Ha) as [ra Hra]. destruct (lookup_lt_is_Some_2 index b Hb) as [rb Hrb].
      change (O a ≠ O b). rewrite (HO a ra), (HO b rb) by done.
      destruct (proj1 (Hin ra)) as [la Hla]; [by eapply list_elem_of_lookup_2|].
      destruct (proj1 (Hin rb)) as [lb Hlb]; [by eapply list_elem_of_lookup_2|].
      destruct (Hoffs ra la Hla) as (oa & Hoa & _). destruct (Hoffs rb lb Hlb) as (ob & Hob & _).
      unfold key. rewrite Hoa, Hob. cbn. apply (Hne ra rb); try done.
      * intros ->. apply Hab. by eapply NoDup_lookup.
      * rewrite IsLifetimeExcluded_sym. erewrite !list_lookup_total_correct in El by (by rewrite list_lookup_fmap, ?Hra, ?Hrb).
        done.
Qed.
(** ** The entry points *)

(** The offsets are replaced by those of a smaller block without conflicts, or kept. *)
Lemma UpdateOffset_spec (steps size : Z) (c : compact) (offs : gmap nat Z) : stolen c → dom offs = dom lt →
  ∃ size' offs', UpdateOffset std_sort steps c size offs = Ret (size', offs') ∧
    ((size' = size ∧ offs' = offs) ∨ (size' < size ∧ block_ok lt sizes (mkResult size' offs'))).
Proof.
  intros [S1 S2 S3 S4 S5 [f S6] S7 S8 S9] Hdom. unfold UpdateOffset.
  set (index := index2register_ c) in *. destruct (excluded_facts index) as [Hex Hexl].
  destruct (index_facts index) as [Hpos Hlf]; [intros r; by rewrite S2|]. cbv zeta in Hex, Hexl.
  rewrite <- S4, <- S5 in Hex. rewrite <- S4, <- S5 in Hexl. rewrite <- S4 in Hpos, Hlf.
  set (sz := c_register_size_ c) in *. set (ex := c_excluded_registers_ c) in *.
  assert (Hn : length sz = length index) by (rewrite S4; apply length_map).
  destruct (AdjustedCost_spec sz ex Hex Hpos std_sort Hsort _ Hlf Hexl steps index (c_positions c) f S6 S7 S8)
    as (cost & s & E & Hg); [by rewrite S9, Hn|done|]. rewrite E. cbn [obind].
  destruct (good_facts sz ex Hex Hpos s cost Hg) as (Hlen & Hlay & Hin).
  destruct (Z.ltb_spec cost size) as [Hlt|Hge]; [|by eexists _, _; split; [|left]].
  eexists _, _. split; [reflexivity|]. right. split; [done|].
  set (offs' := map_imap _ offs).
  assert (Hat : ∀ r o, offs' !! r = Some o → ∃ k, index !! k = Some r ∧ o = register_offset_ s !!! k ∧
    (k < length sz)%nat ∧ sz !!! k = bytes sizes r ∧ map (life lt) index !!! k = life lt r).
  { intros r o Hr. unfold offs' in Hr. rewrite map_lookup_imap in Hr. apply bind_Some in Hr as (o0 & Hr0 & Hr).
    assert (Hrl : r ∈ index).
    { apply S2. apply (elem_of_dom (D := gset nat)). rewrite <- Hdom. apply elem_of_dom. by eexists. }
    apply list_elem_of_lookup in Hrl as [k Hk]. rewrite (S3 k r Hk) in Hr. injection Hr as <-.
    exists k. split_and!; [done|done|rewrite Hn; by eapply lookup_lt_Some| |].
    - rewrite S4. apply list_lookup_total_correct. by rewrite list_lookup_fmap, Hk.
    - apply list_lookup_total_correct. by rewrite list_lookup_fmap, Hk. }
  split; cbn [regst_desc2offset mem_block_size].
  - rewrite <- Hdom. apply set_eq. intros r. rewrite !elem_of_dom. unfold offs'. rewrite map_lookup_imap.
    destruct (offs !! r); cbn; split; intros [? ?]; (done || by eexists).
  - intros r o Hr. destruct (Hat r o Hr) as (k & _ & -> & Hk & <- & _). by apply Hin.
  - intros r1 r2 o1 o2 Hne H1 H2 Hexc.
    destruct (Hat r1 o1 H1) as (k1 & K1 & -> & L1 & <- & E1). destruct (Hat r2 o2 H2) as (k2 & K2 & -> & L2 & <- & E2).
    apply Hlay. apply Hexl; [done|done|by intros ->; simplify_eq|]. by rewrite E1, E2, IsLifetimeExcluded_sym.
Qed.

Lemma compress_ok (lower_bound size : Z) (offs : gmap nat Z) : block_ok lt sizes (mkResult size offs) →
  ∃ size' offs', AdaptivelyUpdateOffset std_sort sizes lt lower_bound size offs = Ret (size', offs') ∧
    size' ≤ size ∧ block_ok lt sizes (mkResult size' offs').
Proof.
  intros Hok. unfold AdaptivelyUpdateOffset.
  destruct (lower_bound <? size); [|by exists size, offs; split_and!; [|lia|]].
  destruct (0 <? UpdateMaxIteration size lower_bound); [|by exists size, offs; split_and!; [|lia|]].
  pose proof (bo_dom _ _ _ Hok) as Hdom. cbn [regst_desc2offset] in Hdom.
  destruct (Steal_spec offs) as (c & E & Hc).
  - intros r l Hl. assert (Hr : is_Some (offs !! r)).
    { apply (elem_of_dom (D := gset nat)). rewrite Hdom. apply elem_of_dom. by eexists. }
    destruct Hr as [o Ho]. exists o. split; [done|]. by destruct (bo_in _ _ _ Hok r o Ho).
  - intros r1 r2 o1 o2 Hne H1 H2 [l1 L1] [l2 L2] Hexc.
    destruct (Hreg r1 l1 L1) as [_ (z1 & Z1 & ?)]. destruct (Hreg r2 l2 L2) as [_ (z2 & Z2 & ?)].
    pose proof (bo_apart _ _ _ Hok r1 r2 o1 o2 Hne H1 H2 Hexc) as Hap. unfold bytes in Hap. rewrite Z1, Z2 in Hap.
    cbn in Hap. lia.
  - rewrite E. cbn [obind]. destruct (UpdateOffset_spec (UpdateMaxIteration size lower_bound) size c offs Hc Hdom)
      as (size' & offs' & EU & Hres). exists size', offs'. split; [done|].
    destruct Hres as [[-> ->]|[? ?]]; (split; [lia|done]).
Qed.

Lemma generate_ok (size : Z) (offs : gmap nat Z) : dom offs = dom lt →
  ∃ size' offs', GenerateOffset std_sort sizes lt size offs = Ret (size', offs') ∧
    ((size' = size ∧ offs' = offs) ∨ (size' < size ∧ block_ok lt sizes (mkResult size' offs'))).
Proof.
  intros Hdom. unfold GenerateOffset, GenerateCompactPosition. set (keys := (map_to_list lt).*1).
  assert (Hnd : NoDup keys) by apply NoDup_fst_map_to_list.
  set (vals := map Z.of_nat (seq 0 (length keys))).
  assert (Em : foldl (λ m p, <[p.1 := Z.of_nat p.2]> m) ∅ (zip keys (seq 0 (length keys)))
               = foldl (λ m p, <[p.1 := p.2]> m) (∅ : gmap nat Z) (zip keys vals)).
  { unfold vals. generalize (∅ : gmap nat Z) (seq 0 (length keys)). clear. induction keys as [|k ks IH]; intros m [|i ids]; try done.
    cbn [zip_with foldl map fst snd]. apply IH. }
  rewrite Em. destruct (foldl_insert_lookup keys vals ∅ Hnd) as [L1 _].
  { unfold vals. by rewrite length_map, length_seq. }
  cbv zeta in L1. set (m := foldl _ ∅ (zip keys vals)) in *.
  assert (Hm : ∀ r, is_Some (lt !! r) → ∃ k, keys !! k = Some r ∧ m !! r = Some (Z.of_nat k)).
  { intros r [l Hl]. assert (Hr : r ∈ keys) by (apply keys_lookup; by eexists).
    apply list_elem_of_lookup in Hr as [k Hk]. exists k. split; [done|]. apply (L1 k); [done|].
    unfold vals. rewrite list_lookup_fmap, lookup_seq_lt; [done|]. by eapply lookup_lt_Some. }
  destruct (Steal_spec m) as (c & E & Hc).
  - intros r l Hl. destruct (Hm r) as (k & _ & Ho); [by eexists|]. exists (Z.of_nat k). split; [done|lia].
  - intros r1 r2 o1 o2 Hne H1 H2 I1 I2 _. destruct (Hm r1 I1) as (k1 & K1 & E1). destruct (Hm r2 I2) as (k2 & K2 & E2).
    rewrite E1 in H1. rewrite E2 in H2. injection H1 as <-. injection H2 as <-.
    intros Ek%Nat2Z.inj. apply Hne. congruence.
  - rewrite E. cbn [obind]. by apply UpdateOffset_spec.
Qed.
End Compress.

(** C10 Compressing a block is safe and always succeeds: if every register has at least
    one byte and lives for at least one step, the search of the memory share
    strategy returns, its final check for conflicts passes, and the result is a block
    that is no larger and in which registers that are alive at the same time still
    do not overlap; whatever the lower bound and however [std::sort] orders equal
    keys. *)
Theorem compression_safe (std_sort : (nat → nat → bool) → list nat → list nat) (sizes : gmap nat Z)
    (lt : gmap nat lifetime) (lower_bound size : Z) (offs : gmap nat Z) :
  sorts std_sort → nonempty_registers sizes lt → block_ok lt sizes (mkResult size offs) →
  ∃ size' offs', AdaptivelyUpdateOffset std_sort sizes lt lower_bound size offs = Ret (size', offs') ∧
    size' ≤ size ∧ block_ok lt sizes (mkResult size' offs').
Proof. intros Hs Hr Hb. by apply compress_ok. Qed.

Lemma insert_by_spec (key : nat → Z) (x : nat) (l : list nat) : StronglySorted (λ a b, key a ≤ key b) l →
  insert_by (λ a b, key a <? key b) x l ≡ₚ x :: l ∧
  StronglySorted (λ a b, key a ≤ key b) (insert_by (λ a b, key a <? key b) x l).
Proof.
  induction 1 as [|y l Hl [IHp IHs] Hy]; cbn [insert_by]; [by repeat constructor|].
  rewrite Forall_forall in Hy. destruct (Z.ltb_spec (key x) (key y)) as [Hlt|Hge].
  - split; [done|]. constructor; [by constructor; [|apply Forall_forall]|]. apply Forall_forall.
    intros z [->|Hz]%elem_of_cons; [lia|]. specialize (Hy z Hz). lia.
  - split; [rewrite IHp; apply Permutation_swap|]. constructor; [done|]. apply Forall_forall. intros z Hz.
    rewrite IHp in Hz. apply elem_of_cons in Hz as [->|Hz]; [done|by apply Hy].
Qed.

Lemma sort_by_sorts : sorts sort_by.
Proof.
  intros key l. unfold sort_by.
  assert (H : ∀ l acc, StronglySorted (λ a b, key a ≤ key b) acc →
    foldl (λ l x, insert_by (λ a b, key a <? key b) x l) acc l ≡ₚ l ++ acc ∧
    StronglySorted (λ a b, key a ≤ key b) (foldl (λ l x, insert_by (λ a b, key a <? key b) x l) acc l)).
  { clear l. induction l as [|x l IH]; intros acc Hacc; [done|]. cbn [foldl].
    destruct (insert_by_spec key x acc Hacc) as [Hp Hs]. destruct (IH _ Hs) as [Hp' Hs']. split; [|done].
    rewrite Hp', Hp. symmetry. apply Permutation_middle. }
  destruct (H l []) as [Hp Hs]; [constructor|]. rewrite app_nil_r in Hp. done.
Qed.

Lemma compression_safe_witness :
  ∃ size' offs', AdaptivelyUpdateOffset sort_by {[1%nat := 4; 2%nat := 4; 3%nat := 8; 4%nat := 8]}
    {[1%nat := (0, 2); 2%nat := (1, 3); 3%nat := (2, 4); 4%nat := (3, 5)]} 16 20
    {[1%nat := 0; 2%nat := 4; 3%nat := 8; 4%nat := 0]} = Ret (size', offs') ∧ size' ≤ 20.
Proof.
  destruct (compression_safe sort_by {[1%nat := 4; 2%nat := 4; 3%nat := 8; 4%nat := 8]}
    {[1%nat := (0, 2); 2%nat := (1, 3); 3%nat := (2, 4); 4%nat := (3, 5)]} 16 20
    {[1%nat := 0; 2%nat := 4; 3%nat := 8; 4%nat := 0]}) as (size' & offs' & E & Hle & _).
  - apply sort_by_sorts.
  - intros r l Hr.
    assert (Hl : map_Forall (λ r l, l.1 < l.2 ∧ 0 < default 0
        ((({[1%nat := 4; 2%nat := 4; 3%nat := 8; 4%nat := 8]}) : gmap nat Z) !! r))
      ({[1%nat := (0, 2); 2%nat := (1, 3); 3%nat := (2, 4); 4%nat := (3, 5)]} : gmap nat lifetime))
      by (apply (bool_decide_unpack _); vm_compute; exact I).
    destruct (Hl r l Hr) as [H1 H2]. split; [exact H1|].
    destruct ((({[1%nat := 4; 2%nat := 4; 3%nat := 8; 4%nat := 8]}) : gmap nat Z) !! r) as [z|]; [|discriminate H2].
    by exists z.
  - split; cbn [regst_desc2offset mem_block_size].
    + vm_compute. reflexivity.
    + intros r o Hr.
      assert (Hl : map_Forall (λ r o, 0 ≤ o ∧ o + bytes {[1%nat := 4; 2%nat := 4; 3%nat := 8; 4%nat := 8]} r ≤ 20)
        ({[1%nat := 0; 2%nat := 4; 3%nat := 8; 4%nat := 0]} : gmap nat Z))
        by (apply (bool_decide_unpack _); vm_compute; exact I).
      by apply Hl.
    + intros r1 r2 o1 o2 Hne H1 H2.
      assert (Hl : map_Forall (λ r1 o1, map_Forall (λ r2 o2, r1 ≠ r2 →
          IsLifetimeExcluded (life {[1%nat := (0, 2); 2%nat := (1, 3); 3%nat := (2, 4); 4%nat := (3, 5)]} r1)
            (life {[1%nat := (0, 2); 2%nat := (1, 3); 3%nat := (2, 4); 4%nat := (3, 5)]} r2) = true →
          o1 + bytes {[1%nat := 4; 2%nat := 4; 3%nat := 8; 4%nat := 8]} r1 ≤ o2 ∨
          o2 + bytes {[1%nat := 4; 2%nat := 4; 3%nat := 8; 4%nat := 8]} r2 ≤ o1)
          ({[1%nat := 0; 2%nat := 4; 3%nat := 8; 4%nat := 0]} : gmap nat Z))
        ({[1%nat := 0; 2%nat := 4; 3%nat := 8; 4%nat := 0]} : gmap nat Z))
        by (apply (bool_decide_unpack _); vm_compute; exact I).
      exact (Hl r1 o1 H1 r2 o2 H2 Hne).
  - exists size', offs'. split; [exact E|exact Hle].
Defined.

(** ** An empty register *)

Definition empty_sizes : gmap nat Z :=
  {[1%nat := 5; 2%nat := 5; 3%nat := 2; 4%nat := 0; 5%nat := 0; 6%nat := 3; 7%nat := 2; 8%nat := 1]}.
Definition empty_lifetimes : gmap nat lifetime :=
  {[1%nat := (5, 7); 2%nat := (0, 3); 3%nat := (2, 5); 4%nat := (0, 3); 5%nat := (0, 7); 6%nat := (4, 6);
    7%nat := (4, 6); 8%nat := (0, 1)]}.
Definition empty_offsets : gmap nat Z :=
  {[1%nat := 0; 2%nat := 0; 3%nat := 8; 4%nat := 6; 5%nat := 12; 6%nat := 5; 7%nat := 10; 8%nat := 5]}.

(** The search up to the final check, and what the check says. *)
Definition checked_search : outcome (outcome unit) :=
  let* c := StealCompactPosition sort_by empty_offsets empty_sizes empty_lifetimes in
  let* (cost, s) := ComputeOptimalCostFrom0 (c_register_size_ c) (c_positions c) in
  let s := set_backup (replicate (length (index2register_ c)) ∅) (backup_register_behind_i_ s) s in
  let* st := iterate sort_by (c_register_size_ c) (c_excluded_registers_ c)
               (Z.to_nat (UpdateMaxIteration 12 10)) (cost, 0, s) in
  Ret (CheckConflict (c_register_size_ c) (c_excluded_registers_ c) (index2register_ c) st.2).

(** A register without bytes breaks compression: for eight registers, two of them
    empty, whose size-first compact allocation is a correct block of 12 bytes (10 are
    in use at once), the search moves two registers that are alive at the same time on
    top of each other; the final check reports the overlap and the process aborts. *)
Theorem compression_aborts_on_empty_register :
  SelectAlgorithmGenMemBlockOffset4Regsts empty_lifetimes empty_sizes
    (λ _, [2; 1; 6; 3; 7; 8; 4; 5]%nat) kMemSizeFirstAlgo true (mkResult 0 ∅) = Ret (mkResult 12 empty_offsets) ∧
  checked_search = Ret (Fail CheckFailedError) ∧
  AdaptivelyUpdateOffset sort_by empty_sizes empty_lifetimes 10 12 empty_offsets = Crash.
Proof. split_and!; vm_compute; reflexivity. Qed.
