(* ===== verification/MemShare.v ===== *)
(** * Memory blocks for the registers of a plan

    Models steps 1 to 3 of [IntraJobMemSharingUtil::InferMemBlockId4MemReusedRegst]
    of [oneflow/core/job/intra_job_mem_sharing_util.cpp], with the configuration
    ([CountMemAllocAlgoNum], [InitAlgo2Result]): for every memory chain the lifetimes
    are computed ([MemLifetime]), every enabled algorithm allocates a block
    ([MemReuse]), the smallest is chosen and, if configured, compressed
    ([MemStrategy]); the chosen offsets and a fresh block id are written into the
    register descriptions, in-place registers get those of the register they are
    computed in.  The hash maps over chains are visited in the order of the list of
    chains.  The algorithms, which run on a thread pool and write to results of
    their own, run one after the other. *)
From stdpp Require Import sorting.
From S2P Require Import Prelude Ids MemReuse MemLifetime MemLifetimeSpec MemStrategy.

(** ** Configuration *)

Record MemConf := mkMemConf {
  use_mem_size_first_algo : bool;
  use_lifetime_first_algo : bool;
  use_time_line_algo : bool;
  use_mem_volume_first_algo : bool;
  use_compact_insert : bool;
  use_non_compact_insert : bool;
  enable_compress_memory : bool;
}.

Definition count_of (b : bool) : Z := if b then 1 else 0.

Definition CountMemAllocAlgoNum (conf : MemConf) : outcome Z :=
  let alloc_algo_num := count_of (use_mem_size_first_algo conf) + count_of (use_lifetime_first_algo conf)
                        + count_of (use_time_line_algo conf) + count_of (use_mem_volume_first_algo conf) in
  let* _ := CHECK (0 <=? alloc_algo_num) in
  let compact_insert_num := count_of (use_compact_insert conf) + count_of (use_non_compact_insert conf) in
  let* _ := CHECK (0 <=? compact_insert_num) in
  Ret (alloc_algo_num * compact_insert_num).

(** The keys of [algo2result], in the order they are inserted. *)
Definition InitAlgo2Result (conf : MemConf) : list (MemAllocAlgoType * bool) :=
  let compact_insert_algorithms := (if use_compact_insert conf then [true] else []) ++
                                   (if use_non_compact_insert conf then [false] else []) in
  compact_insert ← compact_insert_algorithms;
    (if use_mem_size_first_algo conf then [(kMemSizeFirstAlgo, compact_insert)] else []) ++
    (if use_lifetime_first_algo conf then [(kLifetimeFirstAlgo, compact_insert)] else []) ++
    (if use_time_line_algo conf then [(kTimeLineAlgo, compact_insert)] else []) ++
    (if use_mem_volume_first_algo conf then [(kMemVolumeFirstAlgo, compact_insert)] else []).

(** ** Chains *)

(** [mem_chain2sorted_tasks], [mem_chain2mem_reused_regsts] and
    [mem_chain2regst_desc_id2reuse_regst_desc] of one chain. *)
Record MemChain := mkMemChain {
  chain_tasks : list Z;
  chain_reused : list nat;
  chain_id2reuse : gmap Z nat;
}.

(** What steps 1 and 2 compute of a chain: [regst2lifetime],
    [consumer2inplaced_regst], [peak_memory] and the results of the algorithms. *)
Record ChainInfo := mkChainInfo {
  info_lifetime : gmap nat lifetime;
  info_inplaced : gmap nat nat;
  info_peak : Z;
}.

Definition set_mem_block (id off : Z) (p : RegstDescProto) : RegstDescProto :=
  mkRegstDescProto (regst_desc_id p) (producer_task_id p) (consumer_task_id p) (register_num p)
    (hint_inplace_consumed_regst_desc_id p) (inplace_consumed_regst_desc_id p)
    id off (mem_block_total_actor_count p) (alloc_before_actor p) (free_after_actor p).

Definition set_inplace (hint : Z) (p : RegstDescProto) : RegstDescProto :=
  mkRegstDescProto (regst_desc_id p) (producer_task_id p) (consumer_task_id p) (register_num p)
    (hint_inplace_consumed_regst_desc_id p) (Some hint)
    (mem_block_id p) (mem_block_offset p) (mem_block_total_actor_count p) (alloc_before_actor p)
    (free_after_actor p).

Section Infer.
Context (conf : MemConf) (my_rank : Z) (sizes : gmap nat Z).
(** The orders that [std::sort] gives: of the registers of a chain by an algorithm,
    and of the registers of the compression by their offsets. *)
Context (sorted : gmap nat lifetime → MemAllocAlgoType → list nat).
Context (std_sort : (nat → nat → bool) → list nat → list nat).
(** The order in which the results of a chain are visited. *)
Context (algos : list (MemAllocAlgoType * bool)).

(** Step 1. *)
Definition chain_lifetimes (ps : protos) (c : MemChain) : outcome (protos * ChainInfo) :=
  let* (lt, inplaced, peak, ps) := GenRegstAllocFreeTimeLineAndRegstLifetimes (chain_tasks c) (chain_id2reuse c)
                                     sizes (chain_reused c) ps in
  Ret (ps, mkChainInfo lt inplaced peak).

(** Step 2. *)
Definition chain_results (info : ChainInfo) : outcome (list MemBlockResultInfo) :=
  omap_list (λ p, SelectAlgorithmGenMemBlockOffset4Regsts (info_lifetime info) sizes (sorted (info_lifetime info))
                    p.1 p.2 (mkResult 0 ∅)) algos.

(** Step 3: the smallest result, the first of equal ones. *)
Definition better (best : option MemBlockResultInfo) (r : MemBlockResultInfo) : option MemBlockResultInfo :=
  match best with
  | None => Some r
  | Some b => if mem_block_size r <? mem_block_size b then Some r else best
  end.

Definition choose_best (info : ChainInfo) (results : list MemBlockResultInfo) : outcome MemBlockResultInfo :=
  match foldl better None results with
  | None => Crash
  | Some best =>
      if enable_compress_memory conf then
        let* (size, offsets) := AdaptivelyUpdateOffset std_sort sizes (info_lifetime info) (info_peak info)
                                  (mem_block_size best) (regst_desc2offset best) in
        Ret (mkResult size offsets)
      else Ret best
  end.

Definition set_block (id : Z) (ps : protos) (pair : nat * Z) : outcome protos :=
  let* p := map_at ps pair.1 in
  let* _ := CHECK (mem_block_id p =? -1) in
  Ret (<[pair.1 := set_mem_block id pair.2 p]> ps).

Definition set_inplace_block (id : Z) (ps : protos) (pair : nat * nat) : outcome protos :=
  let* consumer := map_at ps pair.1 in
  let* _ := CHECK (mem_block_id consumer =? -1) in
  let* inplaced := map_at ps pair.2 in
  let* _ := CHECK (mem_block_id inplaced =? id) in
  let* _ := CHECK (negb (mem_block_offset inplaced =? -1)) in
  Ret (<[pair.1 := set_mem_block (mem_block_id inplaced) (mem_block_offset inplaced) consumer]> ps).

Definition check_inplace (c : MemChain) (ps : protos) (pair : nat * nat) : outcome protos :=
  let* consumer := map_at ps pair.1 in
  let* inplaced := map_at ps pair.2 in
  let* _ := CHECK (bool_decide (inplace_consumed_regst_desc_id consumer = None)) in
  match hint_inplace_consumed_regst_desc_id consumer with
  | None => Crash
  | Some hint =>
      match chain_id2reuse c !! hint with
      | None => Crash
      | Some r =>
          let* in_regst_desc := map_at ps r in
          let* _ := CHECK (mem_block_id consumer =? mem_block_id in_regst_desc) in
          let* _ := CHECK (mem_block_offset consumer =? mem_block_offset in_regst_desc) in
          let* _ := CHECK (mem_block_offset in_regst_desc =? mem_block_offset inplaced) in
          let* _ := CHECK (register_num consumer =? register_num in_regst_desc) in
          Ret (<[pair.1 := set_inplace hint consumer]> ps)
      end
  end.

Definition assign_block (st : protos * IDMgr) (x : MemChain * ChainInfo * list MemBlockResultInfo)
    : outcome (protos * IDMgr) :=
  let '(c, info, results) := x in
  let* best := choose_best info results in
  let* (mem_block_id, ids) := NewMemBlockId my_rank st.2 in
  let* _ := CHECK (Nat.eqb (length (chain_reused c))
                     (size (regst_desc2offset best) + size (info_inplaced info))) in
  let* ps := ofold (set_block mem_block_id) (map_to_list (regst_desc2offset best)) st.1 in
  let* ps := ofold (set_inplace_block mem_block_id) (map_to_list (info_inplaced info)) ps in
  let* ps := ofold (check_inplace c) (map_to_list (info_inplaced info)) ps in
  Ret (ps, ids).

(** The three steps, over all chains. *)
Definition infer_lifetimes (st : protos * list (MemChain * ChainInfo)) (c : MemChain)
    : outcome (protos * list (MemChain * ChainInfo)) :=
  let* (ps, info) := chain_lifetimes st.1 c in Ret (ps, st.2 ++ [(c, info)]).

Definition InferMemBlockId4MemReusedRegst (chains : list MemChain) (ps : protos) (ids : IDMgr)
    : outcome (protos * IDMgr) :=
  let* (ps, infos) := ofold infer_lifetimes chains (ps, []) in
  let* _ := CountMemAllocAlgoNum conf in
  let* results := omap_list (λ x, let* r := chain_results x.2 in Ret (x.1, x.2, r)) infos in
  ofold assign_block results (ps, ids).
End Infer.
