(* ===== verification/MemShareSpec.v ===== *)
(** * Registers in use at the same time do not overlap

    The end-to-end theorem of memory sharing: after
    [InferMemBlockId4MemReusedRegst], two registers of a chain that are in use at
    the same task, and are not computed in each other's memory on purpose, occupy
    disjoint parts of one block, and registers of different chains are in different
    blocks. *)
From stdpp Require Import sorting.
From S2P Require Import Prelude Ids MemReuse MemLifetime MemLifetimeSpec MemStrategy MemStrategySpec MemCompress MemShare.

(** ** Messages that differ in the computed fields only *)

Lemma core_fields (p p' : RegstDescProto) : core p = core p' →
  regst_desc_id p = regst_desc_id p' ∧ producer_task_id p = producer_task_id p' ∧
  consumer_task_id p = consumer_task_id p' ∧ register_num p = register_num p' ∧
  hint_inplace_consumed_regst_desc_id p = hint_inplace_consumed_regst_desc_id p' ∧
  inplace_consumed_regst_desc_id p = inplace_consumed_regst_desc_id p' ∧
  mem_block_id p = mem_block_id p' ∧ mem_block_offset p = mem_block_offset p'.
Proof. destruct p, p'. intros [=]. by simplify_eq/=. Qed.

Section Core.
Context (sorted_tasks : list Z) (id2reuse : gmap Z nat) (ps ps' : protos).
Context (Hcore : core <$> ps = core <$> ps').

Lemma core_lookup (r : nat) (p : RegstDescProto) : ps !! r = Some p → ∃ p', ps' !! r = Some p' ∧ core p = core p'.
Proof.
  intros Hp. pose proof (f_equal (λ m, m !! r) Hcore) as H. cbn in H. rewrite !lookup_fmap, Hp in H.
  destruct (ps' !! r) as [p'|]; [|done]. apply (inj Some) in H. by exists p'.
Qed.

Lemma core_none (r : nat) : ps !! r = None → ps' !! r = None.
Proof.
  intros Hp. pose proof (f_equal (λ m, m !! r) Hcore) as H. cbn in H. rewrite !lookup_fmap, Hp in H.
  by destruct (ps' !! r).
Qed.

Lemma born_core (r : nat) : born sorted_tasks ps r = born sorted_tasks ps' r.
Proof.
  unfold born. destruct (ps !! r) as [p|] eqn:E; [|by rewrite (core_none r E)].
  destruct (core_lookup r p E) as (p' & -> & (_ & Hp & _)%core_fields). cbn. by rewrite Hp.
Qed.

Lemma last_use_core (r : nat) : last_use sorted_tasks ps r = last_use sorted_tasks ps' r.
Proof.
  unfold last_use. rewrite born_core. destruct (ps !! r) as [p|] eqn:E; [|by rewrite (core_none r E)].
  destruct (core_lookup r p E) as (p' & -> & (_ & _ & Hp & _)%core_fields). by rewrite Hp.
Qed.

Lemma hinted_core (r : nat) : hinted id2reuse ps r = hinted id2reuse ps' r.
Proof.
  unfold hinted. destruct (ps !! r) as [p|] eqn:E; [|by rewrite (core_none r E)].
  destruct (core_lookup r p E) as (p' & -> & (_ & _ & _ & _ & Hp & _)%core_fields). cbn. by rewrite Hp.
Qed.

Lemma find_core (fuel c : nat) (acc : option nat) :
  TryFindFirstInplacedRegstDesc fuel ps id2reuse c acc = TryFindFirstInplacedRegstDesc fuel ps' id2reuse c acc.
Proof.
  revert c acc. induction fuel as [|fuel IH]; intros c acc; [done|]. cbn [TryFindFirstInplacedRegstDesc].
  unfold map_at. destruct (ps !! c) as [p|] eqn:E; [|by rewrite (core_none c E)].
  destruct (core_lookup c p E) as (p' & -> & (_ & _ & _ & _ & Hh & _)%core_fields). cbn [obind].
  rewrite Hh. destruct (hint_inplace_consumed_regst_desc_id p') as [h|]; [|done].
  destruct (h =? -1); [done|]. destruct (id2reuse !! h); [apply IH|done].
Qed.

Lemma root_core (r : nat) : root sorted_tasks id2reuse ps r = root sorted_tasks id2reuse ps' r.
Proof. unfold root. by rewrite find_core. Qed.
End Core.

Lemma chain_ok_core (tasks : list Z) (reused : list nat) (id2reuse : gmap Z nat) (sizes : gmap nat Z)
    (ps ps' : protos) : core <$> ps = core <$> ps' →
  chain_ok tasks reused id2reuse sizes ps → chain_ok tasks reused id2reuse sizes ps'.
Proof.
  intros Hc [C1 C2 C3 C4 C5 C6 C7 C8 C9]. split; try done.
  - intros r Hr. destruct (C4 r Hr) as (p & Hp & Ht). destruct (core_lookup _ _ Hc r p Hp) as (p' & Hp' & E).
    exists p'. split; [done|]. apply core_fields in E. intuition congruence.
  - intros r p Hr Hp. destruct (core_lookup _ _ (symmetry Hc) r p Hp) as (p' & Hp' & E).
    apply core_fields in E. specialize (C5 r p' Hr Hp'). intuition congruence.
  - intros id r Hid. destruct (C6 id r Hid) as [Hr (p & Hp & ->)%fmap_Some]. split; [done|].
    destruct (core_lookup _ _ Hc r p Hp) as (p' & -> & E). apply core_fields in E. cbn. intuition congruence.
  - intros c r Hin Hh. rewrite <- (hinted_core _ _ _ Hc) in Hh. rewrite <- !(born_core _ _ _ Hc). by apply C7.
Qed.

Lemma list_nonempty_in {A : Type} (l : list A) : l ≠ [] → ∃ x, x ∈ l.
Proof. destruct l as [|x l]; [done|]. intros _. exists x. left. Qed.

(** ** One chain *)

Section Chain.
Context (sizes : gmap nat Z) (c : MemChain) (ps : protos).
Context (Hck : chain_ok (chain_tasks c) (chain_reused c) (chain_id2reuse c) sizes ps).
#[local] Abbreviation root_ := (root (chain_tasks c) (chain_id2reuse c) ps).
#[local] Abbreviation born_ := (born (chain_tasks c) ps).
#[local] Abbreviation last_use_ := (last_use (chain_tasks c) ps).
#[local] Abbreviation reused := (chain_reused c).

(** The register whose memory [r] uses. *)
Definition base (r : nat) : nat := default r (root_ r).

Lemma base_spec (r : nat) : r ∈ reused → base r ∈ reused ∧ root_ (base r) = None ∧ born_ (base r) ≤ born_ r.
Proof.
  intros Hr. destruct (root_spec _ _ _ _ _ Hck r Hr) as [_ H]. unfold base.
  destruct (root_ r) as [r0|] eqn:E; cbn; [|split_and!; [done..|lia]].
  destruct (H r0 eq_refl) as (? & ? & ?). split_and!; [done..|lia].
Qed.

(** The walk along the hints does not depend on the fuel. *)
Lemma find_base (r : nat) : r ∈ reused → ∀ fuel acc, born_ r < Z.of_nat fuel →
  TryFindFirstInplacedRegstDesc fuel ps (chain_id2reuse c) r acc =
  Ret (match hinted (chain_id2reuse c) ps r with Some h => Some (base h) | None => acc end).
Proof.
  remember (Z.to_nat (born_ r)) as k eqn:Hk. revert r Hk.
  induction (lt_wf k) as [k _ IH]. intros r -> Hr [|fuel] acc Hf.
  { pose proof (born_bound _ _ _ _ _ Hck r Hr). lia. }
  rewrite (find_step _ _ _ _ _ Hck) by done.
  destruct (hinted (chain_id2reuse c) ps r) as [h|] eqn:Hh; [|done].
  pose proof (hinted_reused _ _ _ _ _ Hck r h Hh) as Hhr. pose proof (ck_hint _ _ _ _ _ Hck r h Hr Hh) as Hlt.
  pose proof (born_bound _ _ _ _ _ Hck h Hhr) as Hb.
  assert (IHh := IH (Z.to_nat (born_ h)) ltac:(lia) h eq_refl Hhr).
  rewrite IHh by lia. f_equal. unfold base at 2, root. rewrite IHh by lia.
  by destruct (hinted (chain_id2reuse c) ps h).
Qed.

Lemma base_hinted (r r0 : nat) : r ∈ reused → root_ r = Some r0 →
  ∃ h, hinted (chain_id2reuse c) ps r = Some h ∧ h ∈ reused ∧ base h = base r.
Proof.
  intros Hr Hroot. pose proof (born_bound _ _ _ _ _ Hck r Hr) as Hb. unfold root in Hroot.
  rewrite find_base in Hroot by (done || lia).
  destruct (hinted (chain_id2reuse c) ps r) as [h|] eqn:Hh; [|done]. exists h. split; [done|].
  split; [by apply (hinted_reused _ _ _ _ _ Hck r)|].
  unfold base at 2, root. rewrite find_base by (done || lia). by rewrite Hh.
Qed.

(** What steps 1 and 2 know of the chain. *)
Record info_ok (info : ChainInfo) (F : nat → Z) : Prop := {
  io_inplaced : ∀ x, info_inplaced info !! x = if bool_decide (x ∈ reused) then root_ x else None;
  io_life : ∀ r, info_lifetime info !! r =
    if bool_decide (r ∈ reused ∧ root_ r = None) then Some (born_ r, F r + 1) else None;
  io_last : ∀ r, r ∈ reused → last_use_ r ≤ F (base r);
}.

Lemma chain_lifetimes_ok (ps0 : protos) : core <$> ps0 = core <$> ps →
  ∃ ps1 info F, chain_lifetimes sizes ps0 c = Ret (ps1, info) ∧ core <$> ps1 = core <$> ps ∧ info_ok info F.
Proof.
  intros Hcore. pose proof (chain_ok_core _ _ _ _ _ _ (symmetry Hcore) Hck) as Hck0.
  destruct (Gen_spec _ _ _ _ _ Hck0) as (lt & inplaced & peak & ps1 & F & E & H1 & H2 & H3 & _ & H5).
  exists ps1, (mkChainInfo lt inplaced peak), F. split; [unfold chain_lifetimes; by rewrite E|].
  split; [congruence|]. split; cbn [info_inplaced info_lifetime].
  - intros x. rewrite H1. by rewrite (root_core _ _ _ _ Hcore).
  - intros r. rewrite H2, (born_core _ _ _ Hcore). by rewrite (root_core _ _ _ _ Hcore).
  - intros r Hr. destruct (base_spec r Hr) as (Hb & Hroot & _).
    rewrite <- (root_core _ _ _ _ Hcore) in Hroot. destruct (H3 (base r) Hb Hroot) as [(L1 & L2 & _) _].
    rewrite <- !(last_use_core _ _ _ Hcore). unfold base in *. destruct (root_ r) as [r0|] eqn:Er; cbn in *; [|done].
    apply L2; [done|]. by rewrite (root_core _ _ _ _ Hcore).
Qed.

Context (info : ChainInfo) (F : nat → Z) (Hinfo : info_ok info F).
#[local] Abbreviation lt := (info_lifetime info).

Lemma lifetime_keys : (map_to_list lt).*1 ≡ₚ filter (λ r, root_ r = None) reused.
Proof.
  apply NoDup_Permutation; [apply NoDup_fst_map_to_list|apply NoDup_filter, (ck_reused _ _ _ _ _ Hck)|].
  intros r. rewrite keys_lookup, list_elem_of_filter, (io_life _ _ Hinfo).
  case_bool_decide; [|naive_solver]. split; [naive_solver|by eexists].
Qed.

Lemma chain_sizes_ok : sizes_ok lt sizes ∧ (reused ≠ [] → lt ≠ ∅).
Proof.
  assert (Hpart : reused ≡ₚ filter (λ r, root_ r = None) reused ++ filter (λ r, ¬ root_ r = None) reused).
  { clear. induction reused as [|r l IH]; [done|]. rewrite !filter_cons.
    destruct (decide (root_ r = None)), (decide (¬ root_ r = None)); try done; [by rewrite IH at 1|].
    rewrite IH at 1. apply Permutation_middle. }
  split; [split|].
  - intros r l Hl. rewrite (io_life _ _ Hinfo) in Hl. case_bool_decide as H; [|done].
    apply (ck_sizes _ _ _ _ _ Hck). by destruct H.
  - pose proof (ck_total _ _ _ _ _ Hck) as Ht.
    rewrite (sumZ_perm _ _ (Permutation_map (bytes sizes) Hpart)), map_app, sumZ_app in Ht.
    rewrite (sumZ_perm _ _ (Permutation_map (bytes sizes) lifetime_keys)).
    assert (0 ≤ sumZ (map (bytes sizes) (filter (λ r, ¬ root_ r = None) reused))); [|lia].
    assert (Hall : ∀ r, r ∈ filter (λ r, ¬ root_ r = None) reused → 0 ≤ bytes sizes r).
    { intros r [_ Hr]%list_elem_of_filter. by apply (size_at _ _ _ _ _ Hck). }
    clear -Hall. induction (filter _ reused) as [|r l IH]; [done|]. cbn [map]. rewrite sumZ_cons.
    specialize (IH ltac:(intros; apply Hall; set_solver)). specialize (Hall r ltac:(set_solver)). lia.
  - intros Hne Hempty. destruct (list_nonempty_in reused Hne) as [r Hr].
    destruct (base_spec r Hr) as (Hb & Hroot & _).
    pose proof (io_life _ _ Hinfo (base r)) as Hl. rewrite Hempty, lookup_empty, bool_decide_true in Hl by done. done.
Qed.

Lemma better_ok (P : MemBlockResultInfo → Prop) (rs : list MemBlockResultInfo) (b : MemBlockResultInfo) :
  Forall P rs → P b → ∃ b', foldl better (Some b) rs = Some b' ∧ P b'.
Proof.
  intros Hrs. revert b. induction Hrs as [|r rs Hr _ IH]; intros b Hb; [by exists b|].
  cbn [foldl better]. destruct (mem_block_size r <? mem_block_size b); by apply IH.
Qed.

Lemma chain_nonempty : (∀ r z, sizes !! r = Some z → 0 < z) → nonempty_registers sizes lt.
Proof.
  intros Hpos r l Hl. rewrite (io_life _ _ Hinfo) in Hl. case_bool_decide as Hr; [|done]. injection Hl as <-.
  destruct Hr as [Hr Hroot]. destruct (ck_sizes _ _ _ _ _ Hck r Hr) as (z & Hz & _). cbn [fst snd].
  split; [|exists z; split; [done|by eapply Hpos]].
  pose proof (io_last _ _ Hinfo r Hr) as Hlast. unfold base in Hlast. rewrite Hroot in Hlast. cbn in Hlast.
  destruct (ck_proto _ _ _ _ _ Hck r Hr) as (p & Hp & _).
  assert (born_ r ≤ last_use_ r); [|lia]. unfold last_use. rewrite Hp. apply foldl_max_mono.
Qed.

(** What compression needs: a sort that sorts, and no empty register. *)
Definition can_compress (conf : MemConf) (std_sort : (nat → nat → bool) → list nat → list nat) : Prop :=
  enable_compress_memory conf = true → sorts std_sort ∧ ∀ r z, sizes !! r = Some z → 0 < z.

(** Step 2 and the choice of the best result. *)
Lemma chain_results_ok (conf : MemConf) (sorted : gmap nat lifetime → MemAllocAlgoType → list nat) std_sort algos :
  reused ≠ [] → algos ≠ [] → (∀ a, sort_result lt sizes a (sorted lt a)) → can_compress conf std_sort →
  ∃ rs best, chain_results sizes sorted algos info = Ret rs ∧
    choose_best conf sizes std_sort info rs = Ret best ∧ block_ok lt sizes best.
Proof.
  intros Hne Halg Hsort Hconf. destruct chain_sizes_ok as [Hsz Hlt]. specialize (Hlt Hne).
  assert (Hsel : ∀ a b, ∃ res, SelectAlgorithmGenMemBlockOffset4Regsts lt sizes (sorted lt) a b (mkResult 0 ∅) = Ret res ∧
    block_ok lt sizes res).
  { intros a b. destruct (select_ok lt sizes (sorted lt) a b Hsz Hlt (Hsort a)) as (res & E & Hok & _). by exists res. }
  assert (Hrs : ∃ rs, chain_results sizes sorted algos info = Ret rs ∧ Forall (block_ok lt sizes) rs ∧
    length rs = length algos).
  { unfold chain_results. clear Halg. induction algos as [|[a b] l IH]; [by exists []|].
    destruct (Hsel a b) as (r & Er & Hr). destruct IH as (rs & E & Hrs & Hl).
    exists (r :: rs). cbn [omap_list fst snd]. rewrite Er. cbn [obind]. rewrite E. cbn [obind length].
    split_and!; [done|by apply Forall_cons|by rewrite Hl]. }
  destruct Hrs as (rs & E & Hall & Hl). exists rs.
  destruct rs as [|r rs]; [by destruct algos|]. apply Forall_cons in Hall as [Hr Hall].
  destruct (better_ok (block_ok lt sizes) rs r Hall Hr) as ([bs bo] & Eb & Hb).
  unfold choose_best. cbn [foldl better]. rewrite Eb. unfold can_compress in Hconf.
  destruct (enable_compress_memory conf); [|by exists (mkResult bs bo)].
  destruct Hconf as [Hs Hpos]; [done|].
  destruct (compress_ok std_sort Hs sizes lt (chain_nonempty Hpos) (info_peak info) bs bo Hb) as (z & o & Ec & _ & Hok).
  cbn [mem_block_size regst_desc2offset]. rewrite Ec. cbn [obind]. by exists (mkResult z o).
Qed.

(** *** Writing the block *)

(** Loops that update the entries of distinct keys. *)
Lemma ofold_keyed {V : Type} (f : protos → nat * V → outcome protos)
    (g : nat → V → RegstDescProto → RegstDescProto) (l : list (nat * V)) (q : protos) :
  NoDup l.*1 →
  (∀ pre k v post q', l = pre ++ (k, v) :: post →
     (∀ r, r ∉ pre.*1 → q' !! r = q !! r) → (∀ k v, (k, v) ∈ pre → q' !! k = g k v <$> q !! k) →
     ∃ p, q !! k = Some p ∧ f q' (k, v) = Ret (<[k := g k v p]> q')) →
  ∃ q', ofold f l q = Ret q' ∧ (∀ r, r ∉ l.*1 → q' !! r = q !! r) ∧
    (∀ k v, (k, v) ∈ l → q' !! k = g k v <$> q !! k).
Proof.
  intros Hnd Hstep.
  assert (G : ∀ post pre q', l = pre ++ post →
    (∀ r, r ∉ pre.*1 → q' !! r = q !! r) → (∀ k v, (k, v) ∈ pre → q' !! k = g k v <$> q !! k) →
    ∃ q'', ofold f post q' = Ret q'' ∧ (∀ r, r ∉ l.*1 → q'' !! r = q !! r) ∧
      (∀ k v, (k, v) ∈ l → q'' !! k = g k v <$> q !! k)).
  { induction post as [|[k v] post IH]; intros pre q' E H1 H2.
    { exists q'. rewrite app_nil_r in E. by subst pre. }
    destruct (Hstep pre k v post q' E H1 H2) as (p & Hp & Ef). cbn [ofold]. rewrite Ef. cbn [obind].
    assert (Hk : k ∉ pre.*1).
    { rewrite E, fmap_app in Hnd. apply NoDup_app in Hnd as (_ & Hd & _). intros Hk. apply (Hd k Hk).
      rewrite fmap_cons. left. }
    apply (IH (pre ++ [(k, v)])); [by rewrite <- app_assoc| |].
    - intros r Hr. rewrite fmap_app, elem_of_app in Hr. rewrite lookup_insert_ne.
      + apply H1. tauto.
      + intros <-. apply Hr. right. left.
    - intros k1 v1 [Hin|Hin]%elem_of_app.
      + rewrite lookup_insert_ne; [by apply H2|]. intros <-. apply Hk. apply list_elem_of_fmap. by exists (k, v1).
      + apply list_elem_of_singleton in Hin. injection Hin as -> ->. by rewrite lookup_insert_eq, Hp. }
  apply (G l []); [done|done|]. intros k v H. by apply elem_of_nil in H.
Qed.

(** The registers of the chain are as step 1 left them. *)
Definition untouched (q : protos) : Prop :=
  ∀ r, r ∈ reused → ∃ p p0, q !! r = Some p ∧ ps !! r = Some p0 ∧ core p = core p0 ∧
    mem_block_id p0 = -1 ∧ inplace_consumed_regst_desc_id p0 = None ∧ register_num p0 = 1.

(** Register [r] has its place in block [id]. *)
Definition in_block (best : MemBlockResultInfo) (id : Z) (q : protos) (r : nat) : Prop :=
  ∃ p, q !! r = Some p ∧ mem_block_id p = id ∧ regst_desc2offset best !! base r = Some (mem_block_offset p).

Context (best : MemBlockResultInfo) (Hbest : block_ok lt sizes best).

Lemma best_in (r : nat) : is_Some (regst_desc2offset best !! r) ↔ r ∈ reused ∧ root_ r = None.
Proof.
  rewrite <- elem_of_dom, (bo_dom _ _ _ Hbest), elem_of_dom, (io_life _ _ Hinfo).
  case_bool_decide as H; [|by split; [intros []|]]. by split.
Qed.

Lemma inplaced_in (x r : nat) : (x, r) ∈ map_to_list (info_inplaced info) ↔ x ∈ reused ∧ root_ x = Some r.
Proof. rewrite elem_of_map_to_list, (io_inplaced _ _ Hinfo). case_bool_decide; naive_solver. Qed.

Lemma sizes_add_up : length reused = (size (regst_desc2offset best) + size (info_inplaced info))%nat.
Proof.
  rewrite <- !(size_dom (D := gset nat)).
  rewrite <- size_union.
  - rewrite <- (size_list_to_set (C := gset nat) reused) by apply (ck_reused _ _ _ _ _ Hck).
    f_equal. apply set_eq. intros r. rewrite elem_of_list_to_set, elem_of_union, !elem_of_dom, best_in.
    rewrite (io_inplaced _ _ Hinfo). split.
    + intros Hr. rewrite bool_decide_true by done. destruct (root_ r) as [r0|] eqn:E; [right; by eexists|by left].
    + intros [[? _]|[r0 Hr]]; [done|]. by case_bool_decide.
  - intros r. rewrite !elem_of_dom, best_in, (io_inplaced _ _ Hinfo). intros [_ Hroot] [r0 Hr].
    case_bool_decide; congruence.
Qed.

Lemma write_blocks (id : Z) (q : protos) : untouched q →
  ∃ q', ofold (set_block id) (map_to_list (regst_desc2offset best)) q = Ret q' ∧
    (∀ r, ¬ (r ∈ reused ∧ root_ r = None) → q' !! r = q !! r) ∧
    (∀ r off, regst_desc2offset best !! r = Some off → q' !! r = set_mem_block id off <$> q !! r).
Proof.
  intros Hun. destruct (ofold_keyed (set_block id) (λ _ off, set_mem_block id off)
    (map_to_list (regst_desc2offset best)) q) as (q' & E & H1 & H2).
  - apply NoDup_fst_map_to_list.
  - intros pre k v post q1 El Hout _.
    assert (Hkv : regst_desc2offset best !! k = Some v).
    { apply elem_of_map_to_list. rewrite El. set_solver. }
    destruct (proj1 (best_in k)) as [Hk _]; [by eexists|]. destruct (Hun k Hk) as (p & p0 & Hp & _ & Hc & Hid & _).
    exists p. split; [done|]. unfold set_block, map_at. cbn [fst snd]. rewrite Hout, Hp.
    + cbn [obind]. apply core_fields in Hc. destruct Hc as (_ & _ & _ & _ & _ & _ & -> & _). by rewrite Hid.
    + pose proof (NoDup_fst_map_to_list (regst_desc2offset best)) as Hnd. rewrite El, fmap_app in Hnd.
      apply NoDup_app in Hnd as (_ & Hd & _). intros Hin. apply (Hd k Hin). rewrite fmap_cons. left.
  - exists q'. split_and!; [done| |].
    + intros r Hr. apply H1. intros ([r' off] & -> & Hin%elem_of_map_to_list)%list_elem_of_fmap.
      apply Hr, best_in. by eexists.
    + intros r off Hr. apply H2. by apply elem_of_map_to_list.
Qed.

(** A register that has its place and waits for the in-place check. *)
Definition placed_in (id : Z) (q : protos) (r : nat) : Prop :=
  ∃ p p0, q !! r = Some p ∧ ps !! r = Some p0 ∧ mem_block_id p = id ∧
    regst_desc2offset best !! base r = Some (mem_block_offset p) ∧
    hint_inplace_consumed_regst_desc_id p = hint_inplace_consumed_regst_desc_id p0 ∧
    inplace_consumed_regst_desc_id p = None ∧ register_num p = 1.

Lemma inplaced_fresh (pre post : list (nat * nat)) (x r : nat) :
  map_to_list (info_inplaced info) = pre ++ (x, r) :: post → x ∉ pre.*1.
Proof.
  intros El. pose proof (NoDup_fst_map_to_list (info_inplaced info)) as Hnd. rewrite El, fmap_app in Hnd.
  apply NoDup_app in Hnd as (_ & Hd & _). intros Hin. apply (Hd x Hin). rewrite fmap_cons. left.
Qed.

Lemma inplaced_keys (x : nat) : x ∈ (map_to_list (info_inplaced info)).*1 ↔ x ∈ reused ∧ root_ x ≠ None.
Proof.
  rewrite list_elem_of_fmap. split.
  - intros ([x' r] & -> & [H1 H2]%inplaced_in). split; [done|]. cbn. congruence.
  - intros [Hx Hr]. destruct (root_ x) as [r|] eqn:E; [|done]. exists (x, r). split; [done|]. by apply inplaced_in.
Qed.

Lemma write_inplaced (id : Z) (q : protos) : untouched q → id ≠ -1 →
  ∃ q', (let* q1 := ofold (set_block id) (map_to_list (regst_desc2offset best)) q in
         ofold (set_inplace_block id) (map_to_list (info_inplaced info)) q1) = Ret q' ∧
    (∀ r, r ∉ reused → q' !! r = q !! r) ∧ (∀ r, r ∈ reused → placed_in id q' r).
Proof.
  intros Hun Hid. destruct (write_blocks id q Hun) as (q1 & E1 & Hout1 & Hin1). rewrite E1. cbn [obind].
  assert (Hroot : ∀ r, r ∈ reused → root_ r = None → placed_in id q1 r).
  { intros r Hr Hn. destruct (proj2 (best_in r)) as [off Hoff]; [done|].
    destruct (Hun r Hr) as (p & p0 & Hp & Hp0 & Hc & _ & Hi & Hrn).
    exists (set_mem_block id off p), p0. rewrite (Hin1 r off Hoff), Hp. apply core_fields in Hc.
    unfold base. rewrite Hn. cbn. intuition congruence. }
  set (off_of := λ r, default 0 (mem_block_offset <$> q1 !! r)).
  destruct (ofold_keyed (set_inplace_block id) (λ _ r, set_mem_block id (off_of r))
    (map_to_list (info_inplaced info)) q1) as (q2 & E2 & Hout2 & Hin2).
  - apply NoDup_fst_map_to_list.
  - intros pre x r post q' El Hout _.
    assert (Hxr : (x, r) ∈ map_to_list (info_inplaced info)) by (rewrite El; set_solver).
    apply inplaced_in in Hxr as [Hx Hr]. destruct (root_spec _ _ _ _ _ Hck x Hx) as [_ Hsp].
    destruct (Hsp r Hr) as (Hrr & Hrn & _). destruct (Hun x Hx) as (p & p0 & Hp & _ & Hc & Hm & _).
    apply core_fields in Hc. destruct Hc as (_ & _ & _ & _ & _ & _ & Hm' & _).
    destruct (Hroot r Hrr Hrn) as (pr & _ & Hpr & _ & Hprid & Hproff & _).
    assert (Hx1 : q1 !! x = Some p) by (rewrite Hout1; [done|]; intros [_ ?]; congruence).
    exists p. split; [done|]. unfold set_inplace_block, map_at. cbn [fst snd].
    rewrite (Hout x) by (by eapply inplaced_fresh). rewrite Hx1. cbn [obind]. rewrite Hm', Hm. cbn [CHECK obind Z.eqb].
    rewrite (Hout r), Hpr.
    2:{ intros Hin. assert (Hk : r ∈ (map_to_list (info_inplaced info)).*1) by (rewrite El, fmap_app; set_solver).
        apply inplaced_keys in Hk as [_ Hk]. done. }
    cbn [obind]. rewrite Hprid, Z.eqb_refl. cbn [CHECK obind].
    pose proof (bo_in _ _ _ Hbest _ _ Hproff) as [Hpos _].
    rewrite (proj2 (Z.eqb_neq _ _)) by lia. cbn [negb CHECK obind]. unfold off_of. by rewrite Hpr.
  - exists q2. split_and!; [done| |].
    + intros r Hr. rewrite Hout2; [apply Hout1; tauto|]. rewrite inplaced_keys. tauto.
    + intros r Hr. destruct (root_ r) as [r0|] eqn:Er.
      * destruct (root_spec _ _ _ _ _ Hck r Hr) as [_ Hsp]. destruct (Hsp r0 Er) as (Hr0 & Hn0 & _).
        destruct (Hroot r0 Hr0 Hn0) as (pr & _ & Hpr & _ & _ & Hproff & _).
        destruct (Hun r Hr) as (p & p0 & Hp & Hp0 & Hc & _ & Hi & Hrn). apply core_fields in Hc.
        exists (set_mem_block id (off_of r0) p), p0.
        rewrite (Hin2 r r0) by (by apply inplaced_in). rewrite Hout1, Hp by (intros [_ ?]; congruence).
        assert (Eo : off_of r0 = mem_block_offset pr) by (unfold off_of; by rewrite Hpr).
        unfold base in *. rewrite Hn0 in Hproff. rewrite Er. cbn in *. rewrite Eo. intuition congruence.
      * destruct (Hroot r Hr Er) as (p & p0 & Hp & H). exists p, p0. rewrite Hout2; [done|].
        rewrite inplaced_keys. intros [_ ?]. done.
Qed.

Lemma check_all (id : Z) (q : protos) : (∀ r, r ∈ reused → placed_in id q r) →
  ∃ q', ofold (check_inplace c) (map_to_list (info_inplaced info)) q = Ret q' ∧
    (∀ r, r ∉ reused → q' !! r = q !! r) ∧ (∀ r, r ∈ reused → in_block best id q' r).
Proof.
  intros Hpl. set (g := λ (_ _ : nat) p, set_inplace (default 0 (hint_inplace_consumed_regst_desc_id p)) p).
  assert (Hsame : ∀ (q' : protos) pre, (∀ r, r ∉ pre.*1 → q' !! r = q !! r) → (∀ k v, (k, v) ∈ pre → q' !! k = g k v <$> q !! k) →
    ∀ r p, q !! r = Some p → ∃ p', q' !! r = Some p' ∧ mem_block_id p' = mem_block_id p ∧
      mem_block_offset p' = mem_block_offset p ∧ register_num p' = register_num p).
  { intros q' pre H1 H2 r p Hp. destruct (decide (r ∈ pre.*1)) as [Hin|Hin].
    - apply list_elem_of_fmap in Hin as ([k v] & -> & Hin). cbn [fst] in *. rewrite (H2 k v Hin), Hp. by eexists.
    - rewrite H1 by done. by exists p. }
  destruct (ofold_keyed (check_inplace c) g (map_to_list (info_inplaced info)) q) as (q' & E & H1 & H2).
  - apply NoDup_fst_map_to_list.
  - intros pre x r post q1 El Hout Hin.
    assert (Hxr : (x, r) ∈ map_to_list (info_inplaced info)) by (rewrite El; set_solver).
    apply inplaced_in in Hxr as [Hx Hr]. destruct (root_spec _ _ _ _ _ Hck x Hx) as [_ Hsp].
    destruct (Hsp r Hr) as (Hrr & Hrn & _).
    destruct (Hpl x Hx) as (p & p0 & Hp & Hp0 & P1 & P2 & P3 & P4 & P5).
    destruct (Hpl r Hrr) as (pr & _ & Hpr & _ & R1 & R2 & _).
    destruct (base_hinted x r Hx Hr) as (h & Hh & Hhr & Hbase).
    destruct (Hpl h Hhr) as (ph & _ & Hph & _ & Q1 & Q2 & _ & _ & Q5).
    destruct (Hsame q1 pre Hout Hin r pr Hpr) as (pr' & Hpr' & S1 & S2 & S3).
    destruct (Hsame q1 pre Hout Hin h ph Hph) as (ph' & Hph' & T1 & T2 & T3).
    exists p. split; [done|]. unfold check_inplace, map_at. cbn [fst snd].
    rewrite (Hout x), Hp by (by eapply inplaced_fresh). cbn [obind]. rewrite Hpr'. cbn [obind].
    rewrite P4, bool_decide_true by done. cbn [CHECK obind].
    unfold hinted in Hh. rewrite Hp0 in Hh. cbn [mbind option_bind] in Hh.
    apply bind_Some in Hh as (hint & Hhint & Hh).
    destruct (hint =? -1); [done|]. rewrite P3, Hhint, Hh, Hph'. cbn [obind].
    assert (Hb : base r = base x) by (unfold base; by rewrite Hr, Hrn).
    rewrite T1, T2, T3, S2. rewrite Hbase in Q2. rewrite Hb in R2. rewrite Q2 in P2, R2.
    injection P2 as P2. injection R2 as R2. rewrite P1, Q1, P5, Q5, <- P2, <- R2, !Z.eqb_refl. cbn [CHECK obind].
    unfold g. by rewrite P3, Hhint.
  - exists q'. split_and!; [done| |].
    + intros r Hr. apply H1. rewrite inplaced_keys. tauto.
    + intros r Hr. destruct (Hpl r Hr) as (p & p0 & Hp & Hp0 & P1 & P2 & _).
      destruct (Hsame q' _ H1 H2 r p Hp) as (p' & Hp' & S1 & S2 & _).
      exists p'. split_and!; [done|congruence|]. by rewrite S2.
Qed.
End Chain.

(** ** All chains *)

(** The layout of a chain in a block of its own. *)
Definition chain_placed (sizes : gmap nat Z) (ps : protos) (c : MemChain) (q : protos) (id : Z) : Prop :=
  (∀ r, r ∈ chain_reused c → ∃ p, q !! r = Some p ∧ mem_block_id p = id) ∧
  ∀ r1 r2 p1 p2 t, r1 ∈ chain_reused c → r2 ∈ chain_reused c → base c ps r1 ≠ base c ps r2 →
    q !! r1 = Some p1 → q !! r2 = Some p2 →
    born (chain_tasks c) ps r1 ≤ t ≤ last_use (chain_tasks c) ps r1 →
    born (chain_tasks c) ps r2 ≤ t ≤ last_use (chain_tasks c) ps r2 →
    bytes sizes r1 ≤ bytes sizes (base c ps r1) → bytes sizes r2 ≤ bytes sizes (base c ps r2) →
    mem_block_offset p1 + bytes sizes r1 ≤ mem_block_offset p2 ∨
    mem_block_offset p2 + bytes sizes r2 ≤ mem_block_offset p1.

Lemma in_block_placed (sizes : gmap nat Z) (ps : protos) (c : MemChain) (info : ChainInfo) (F : nat → Z)
    (best : MemBlockResultInfo) (q : protos) (id : Z) :
  chain_ok (chain_tasks c) (chain_reused c) (chain_id2reuse c) sizes ps → info_ok c ps info F →
  block_ok (info_lifetime info) sizes best → (∀ r, r ∈ chain_reused c → in_block c ps best id q r) →
  chain_placed sizes ps c q id.
Proof.
  intros Hck Hinfo Hbest Hin. split.
  { intros r Hr. destruct (Hin r Hr) as (p & Hp & Hid & _). by exists p. }
  intros r1 r2 p1 p2 t H1 H2 Hne Hp1 Hp2 Ht1 Ht2 Hs1 Hs2.
  destruct (Hin r1 H1) as (p & Hp & _ & Ho1). rewrite Hp1 in Hp. injection Hp as <-.
  destruct (Hin r2 H2) as (p & Hp & _ & Ho2). rewrite Hp2 in Hp. injection Hp as <-.
  destruct (base_spec sizes c ps Hck r1 H1) as (B1 & N1 & L1).
  destruct (base_spec sizes c ps Hck r2 H2) as (B2 & N2 & L2).
  pose proof (io_last _ _ _ _ Hinfo r1 H1) as F1. pose proof (io_last _ _ _ _ Hinfo r2 H2) as F2.
  assert (Hl : ∀ r, r ∈ chain_reused c → root (chain_tasks c) (chain_id2reuse c) ps r = None →
    life (info_lifetime info) r = (born (chain_tasks c) ps r, F r + 1)).
  { intros r Hr Hn. unfold life. by rewrite (io_life _ _ _ _ Hinfo), bool_decide_true. }
  destruct (bo_apart _ _ _ Hbest _ _ _ _ Hne Ho1 Ho2); [|lia|lia].
  rewrite !Hl by done. unfold IsLifetimeExcluded. cbn [fst snd]. apply andb_true_iff. split; apply Z.ltb_lt; lia.
Qed.

Lemma NewMemBlockId_spec (my_rank : Z) (m : IDMgr) : 0 ≤ my_rank < 2 ^ 15 → 0 ≤ mem_block_id_count m < 2 ^ 48 →
  ∃ m', NewMemBlockId my_rank m = Ret (my_rank * 2 ^ 48 + mem_block_id_count m, m') ∧
    mem_block_id_count m' = mem_block_id_count m + 1.
Proof.
  intros Hr Hm. unfold NewMemBlockId, AddCurrentRankOffset.
  change (Z.shiftl 1 kIdLimitShift) with (2 ^ 48). change kIdLimitShift with 48.
  rewrite (proj2 (Z.leb_le _ _)), (proj2 (Z.ltb_lt _ _)) by lia. cbn [CHECK obind].
  rewrite Z.shiftl_mul_pow2 by lia. rewrite (i64_small (my_rank * 2 ^ 48)), i64_small by (unfold is_i64; lia).
  by eexists.
Qed.

Section All.
Context (conf : MemConf) (my_rank : Z) (sizes : gmap nat Z).
Context (sorted : gmap nat lifetime → MemAllocAlgoType → list nat).
Context (std_sort : (nat → nat → bool) → list nat → list nat).
Context (algos : list (MemAllocAlgoType * bool)) (ps : protos).

(** A chain as it comes from [GenMemChainTasksAndRegsts]: well-formed, with
    registers that have no block yet. *)
Record fresh_chain (c : MemChain) : Prop := {
  fc_ok : chain_ok (chain_tasks c) (chain_reused c) (chain_id2reuse c) sizes ps;
  fc_some : chain_reused c ≠ [];
  fc_fresh : ∀ r p, r ∈ chain_reused c → ps !! r = Some p →
    mem_block_id p = -1 ∧ inplace_consumed_regst_desc_id p = None ∧ register_num p = 1;
}.

Lemma infer_lifetimes_all (chains : list MemChain) (q : protos) (acc : list (MemChain * ChainInfo)) :
  Forall fresh_chain chains → core <$> q = core <$> ps →
  ∃ q' infos, ofold (infer_lifetimes sizes) chains (q, acc) = Ret (q', acc ++ infos) ∧ core <$> q' = core <$> ps ∧
    Forall2 (λ c x, x.1 = c ∧ ∃ F, info_ok c ps x.2 F) chains infos.
Proof.
  intros Hall. revert q acc. induction Hall as [|c chains Hc _ IH]; intros q acc Hq.
  { exists q, []. rewrite app_nil_r. by split_and!. }
  destruct (chain_lifetimes_ok sizes c ps (fc_ok c Hc) q Hq) as (q1 & info & F & E & Hq1 & Hi).
  destruct (IH q1 (acc ++ [(c, info)]) Hq1) as (q2 & infos & E2 & Hq2 & Hall2).
  exists q2, ((c, info) :: infos). cbn [ofold]. unfold infer_lifetimes at 1. cbn [fst snd]. rewrite E. cbn [obind].
  rewrite E2, <- app_assoc. split_and!; [done|done|]. constructor; [|done]. split; [done|]. by exists F.
Qed.

(** What step 3 needs of a chain. *)
Definition ready_chain (c : MemChain) (x : MemChain * ChainInfo * list MemBlockResultInfo) : Prop :=
  x.1.1 = c ∧ ∃ F best, info_ok c ps x.1.2 F ∧ choose_best conf sizes std_sort x.1.2 x.2 = Ret best ∧
    block_ok (info_lifetime x.1.2) sizes best.

Lemma assign_one (c : MemChain) x (q : protos) (ids : IDMgr) : fresh_chain c → ready_chain c x →
  untouched c ps q → 0 ≤ my_rank < 2 ^ 15 → 0 ≤ mem_block_id_count ids < 2 ^ 48 →
  ∃ q' ids', assign_block conf my_rank sizes std_sort (q, ids) x = Ret (q', ids') ∧
    mem_block_id_count ids' = mem_block_id_count ids + 1 ∧
    (∀ r, r ∉ chain_reused c → q' !! r = q !! r) ∧
    chain_placed sizes ps c q' (my_rank * 2 ^ 48 + mem_block_id_count ids).
Proof.
  destruct x as [[c' info] rs]. intros Hc (E & F & best & Hi & Eb & Hb) Hun Hr Hids. cbn [fst snd] in *. subst c'.
  destruct (NewMemBlockId_spec my_rank ids Hr Hids) as (ids' & En & Hcnt).
  set (id := my_rank * 2 ^ 48 + mem_block_id_count ids) in *.
  destruct (write_inplaced sizes c ps (fc_ok c Hc) info F Hi best Hb id q Hun ltac:(lia)) as (q1 & E1 & O1 & P1).
  destruct (check_all sizes c ps (fc_ok c Hc) info F Hi best Hb id q1 P1) as (q2 & E2 & O2 & P2).
  exists q2, ids'. split_and!; [|done| |].
  - unfold assign_block. rewrite Eb. cbn [obind fst snd]. rewrite En. cbn [obind].
    rewrite <- (sizes_add_up sizes c ps (fc_ok c Hc) info F Hi best Hb), Nat.eqb_refl. cbn [CHECK obind].
    apply obind_Ret in E1 as (qa & Ea & E1). rewrite Ea. cbn [obind]. rewrite E1. cbn [obind]. by rewrite E2.
  - intros r Hr'. by rewrite O2, O1.
  - by eapply in_block_placed; [exact (fc_ok c Hc)| |..].
Qed.

Lemma chain_placed_ext (c : MemChain) (q q' : protos) (id : Z) :
  (∀ r, r ∈ chain_reused c → q' !! r = q !! r) → chain_placed sizes ps c q id → chain_placed sizes ps c q' id.
Proof.
  intros Hq [H1 H2]. split.
  - intros r Hr. rewrite Hq by done. by apply H1.
  - intros r1 r2 p1 p2 t Hr1 Hr2. rewrite !Hq by done. by apply H2.
Qed.

Lemma assign_all (chains : list MemChain) xs (q : protos) (ids : IDMgr) :
  Forall fresh_chain chains → Forall2 ready_chain chains xs → NoDup (chains ≫= chain_reused) →
  Forall (λ c, untouched c ps q) chains → 0 ≤ my_rank < 2 ^ 15 →
  0 ≤ mem_block_id_count ids → mem_block_id_count ids + Z.of_nat (length chains) ≤ 2 ^ 48 →
  ∃ q' ids', ofold (assign_block conf my_rank sizes std_sort) xs (q, ids) = Ret (q', ids') ∧
    (∀ r, r ∉ chains ≫= chain_reused → q' !! r = q !! r) ∧
    (∀ k c, chains !! k = Some c →
       chain_placed sizes ps c q' (my_rank * 2 ^ 48 + (mem_block_id_count ids + Z.of_nat k))).
Proof.
  intros Hall. revert xs q ids. induction Hall as [|c chains Hc _ IH]; intros xs q ids Hx Hnd Hun Hr H0 H1.
  { apply Forall2_nil_inv_l in Hx as ->. by exists q, ids. }
  apply Forall2_cons_inv_l in Hx as (x & xs' & Hcx & Hx & ->). rewrite bind_cons in Hnd |- *.
  apply NoDup_app in Hnd as (_ & Hd & Hnd). apply Forall_cons in Hun as [Hun Huns]. cbn [length] in H1.
  destruct (assign_one c x q ids Hc Hcx Hun Hr ltac:(lia)) as (q1 & ids1 & E1 & Hcnt & O1 & P1).
  destruct (IH xs' q1 ids1 Hx Hnd) as (q2 & ids2 & E2 & O2 & P2); [|done|lia|lia|].
  { apply Forall_forall. intros c' Hc' r Hr'. destruct (proj1 (Forall_forall _ _) Huns c' Hc' r Hr') as (p & p0 & Hp & H).
    exists p, p0. rewrite O1; [done|]. intros Hin. apply (Hd r Hin). apply list_elem_of_bind. by exists c'. }
  exists q2, ids2. cbn [ofold]. rewrite E1. cbn [obind]. split_and!; [done| |].
  - intros r Hr'. rewrite elem_of_app in Hr'. rewrite O2, O1; tauto.
  - intros [|k] c' Hk; simplify_eq/=.
    + rewrite Z.add_0_r. apply (chain_placed_ext _ q1); [|done]. intros r Hr'. apply O2. by apply Hd.
    + replace (mem_block_id_count ids + Z.of_nat (S k)) with (mem_block_id_count ids1 + Z.of_nat k) by lia.
      by apply P2.
Qed.
End All.

(** ** The theorem *)

Lemma untouched_core (c : MemChain) (ps q : protos) (sizes : gmap nat Z) :
  fresh_chain sizes ps c → core <$> q = core <$> ps → untouched c ps q.
Proof.
  intros Hc Hq r Hr. destruct (ck_proto _ _ _ _ _ (fc_ok _ _ _ Hc) r Hr) as (p0 & Hp0 & _).
  destruct (core_lookup _ _ (symmetry Hq) r p0 Hp0) as (p & Hp & E).
  destruct (fc_fresh _ _ _ Hc r p0 Hr Hp0) as (F1 & F2 & F3).
  exists p, p0. split_and!; try done.
Qed.

Lemma CountMemAllocAlgoNum_spec (conf : MemConf) :
  CountMemAllocAlgoNum conf = Ret (Z.of_nat (length (InitAlgo2Result conf))).
Proof. by destruct conf as [[] [] [] [] [] [] ?]. Qed.

Lemma results_all (conf : MemConf) (sizes : gmap nat Z) (sorted : gmap nat lifetime → MemAllocAlgoType → list nat)
    std_sort algos (ps : protos) (chains : list MemChain) (infos : list (MemChain * ChainInfo)) :
  Forall (fresh_chain sizes ps) chains → Forall2 (λ c x, x.1 = c ∧ ∃ F, info_ok c ps x.2 F) chains infos →
  algos ≠ [] → (∀ lt a, sort_result lt sizes a (sorted lt a)) → can_compress sizes conf std_sort →
  ∃ xs, omap_list (λ x, let* r := chain_results sizes sorted algos x.2 in Ret (x.1, x.2, r)) infos = Ret xs ∧
    Forall2 (ready_chain conf sizes std_sort ps) chains xs.
Proof.
  intros Hall Hinfos Ha Hs Hc. induction Hinfos as [|c [c' info] chains infos [E (F & HF)] _ IH]; [by exists []|].
  apply Forall_cons in Hall as [Hfc Hall]. destruct (IH Hall) as (xs & Exs & Hxs). cbn [fst snd] in *. subst c'.
  destruct (chain_results_ok sizes c ps (fc_ok _ _ _ Hfc) info F HF conf sorted std_sort algos
    (fc_some _ _ _ Hfc) Ha (Hs _) Hc) as (rs & best & Er & Eb & Hb).
  exists ((c, info, rs) :: xs). cbn [omap_list fst snd]. rewrite Er. cbn [obind]. rewrite Exs. cbn [obind].
  split; [done|]. constructor; [|done]. split; [done|]. exists F, best. done.
Qed.

(** C9 Memory sharing is safe: on well-formed chains with registers that have no
    block yet, with at least one algorithm enabled, and with no empty register if
    compression is enabled, the inference returns; the registers of the k-th chain all get the k-th fresh block
    id; and two registers of a chain that are in use at the same task, and are not
    computed in the same memory on purpose, get disjoint ranges of their block,
    whatever the algorithms, the order of hash maps and of equal elements in sorts. *)
Theorem memory_sharing_safe (conf : MemConf) (my_rank : Z) (sizes : gmap nat Z)
    (sorted : gmap nat lifetime → MemAllocAlgoType → list nat) (std_sort : (nat → nat → bool) → list nat → list nat)
    (algos : list (MemAllocAlgoType * bool)) (chains : list MemChain) (ps : protos) (ids : IDMgr) :
  Forall (fresh_chain sizes ps) chains → NoDup (chains ≫= chain_reused) →
  algos ≡ₚ InitAlgo2Result conf → InitAlgo2Result conf ≠ [] → can_compress sizes conf std_sort →
  (∀ lt a, sort_result lt sizes a (sorted lt a)) → 0 ≤ my_rank < 2 ^ 15 →
  0 ≤ mem_block_id_count ids → mem_block_id_count ids + Z.of_nat (length chains) ≤ 2 ^ 48 →
  ∃ ps' ids', InferMemBlockId4MemReusedRegst conf my_rank sizes sorted std_sort algos chains ps ids = Ret (ps', ids') ∧
    ∀ k c, chains !! k = Some c →
      chain_placed sizes ps c ps' (my_rank * 2 ^ 48 + (mem_block_id_count ids + Z.of_nat k)).
Proof.
  intros Hall Hnd Hp Hne Hc Hs Hr H0 H1. unfold InferMemBlockId4MemReusedRegst.
  destruct (infer_lifetimes_all sizes ps chains ps [] Hall eq_refl) as (q & infos & E & Hq & Hinfos).
  rewrite E. cbn [obind app]. rewrite CountMemAllocAlgoNum_spec. cbn [obind].
  destruct (results_all conf sizes sorted std_sort algos ps chains infos Hall Hinfos) as (xs & Ex & Hxs);
    [|done|done|].
  { intros ->. apply Permutation_nil_l in Hp. congruence. }
  rewrite Ex. cbn [obind].
  destruct (assign_all conf my_rank sizes std_sort ps chains xs q ids Hall Hxs Hnd) as (q' & ids' & E' & _ & P);
    [|done|done|done|].
  { eapply Forall_impl; [exact Hall|]. intros c Hfc. by eapply untouched_core. }
  by exists q', ids'.
Qed.

(** *** A concrete plan *)

(** Sorting by an algorithm's comparison. *)
Definition not_after (lt : gmap nat lifetime) (sizes : gmap nat Z) (a : MemAllocAlgoType) (x y : nat) : Prop :=
  algo_before lt sizes a y x = false.

#[export] Instance not_after_dec lt sizes a : RelDecision (not_after lt sizes a).
Proof. intros x y. unfold not_after, Decision. apply (_ : Decision (_ = false)). Defined.

Definition sort_regsts (sizes : gmap nat Z) (lt : gmap nat lifetime) (a : MemAllocAlgoType) : list nat :=
  merge_sort (not_after lt sizes a) (map_to_list lt).*1.

Lemma key_before_false (l r : Z) (tie : bool) : key_before l r tie = false ↔ l < r ∨ (l = r ∧ tie = false).
Proof.
  unfold key_before. destruct (Z.eqb_spec l r); [destruct tie; intuition (done || lia)|].
  destruct (Z.ltb_spec r l); intuition (done || lia).
Qed.

#[export] Instance not_after_trans lt sizes a : Transitive (not_after lt sizes a).
Proof.
  intros x y z. unfold not_after. destruct a; cbn [algo_before]; rewrite !key_before_false, !Z.ltb_ge; lia.
Qed.

#[export] Instance not_after_total lt sizes a : Total (not_after lt sizes a).
Proof.
  intros x y. unfold not_after. destruct a; cbn [algo_before]; rewrite !key_before_false, !Z.ltb_ge; lia.
Qed.

Lemma sort_regsts_ok (sizes : gmap nat Z) (lt : gmap nat lifetime) (a : MemAllocAlgoType) :
  sort_result lt sizes a (sort_regsts sizes lt a).
Proof. split; [apply merge_sort_Permutation|]. apply (StronglySorted_merge_sort _). Qed.

(** Three tasks; the third register is computed in place of the second. *)
Definition demo_proto (id task : Z) (consumers : list Z) (hint : option Z) : RegstDescProto :=
  mkRegstDescProto id task consumers 1 hint None (-1) (-1) 0 0 0.
Definition demo_protos : protos :=
  {[1%nat := demo_proto 101 10 [20] None; 2%nat := demo_proto 102 20 [30] None;
    3%nat := demo_proto 103 30 [99] (Some 102)]}.
Definition demo_chain : MemChain :=
  mkMemChain [10; 20; 30] [1%nat; 2%nat; 3%nat] {[101 := 1%nat; 102 := 2%nat; 103 := 3%nat]}.
Definition demo_sizes : gmap nat Z := {[1%nat := 4; 2%nat := 8; 3%nat := 8]}.
Definition demo_conf : MemConf := mkMemConf true false false false true true true.
Definition demo_ids : IDMgr := mkIDMgr 0 5 0 new_TaskIdGenerator.

Lemma demo_fresh : fresh_chain demo_sizes demo_protos demo_chain.
Proof.
  assert (Hin : ∀ r, r ∈ [1%nat; 2%nat; 3%nat] → r = 1%nat ∨ r = 2%nat ∨ r = 3%nat) by set_solver.
  split; [split|done|].
  - apply (bool_decide_unpack _). vm_compute. exact I.
  - done.
  - apply (bool_decide_unpack _). vm_compute. exact I.
  - intros r [->|[->| ->]]%Hin; eexists; (split; [reflexivity|]); apply (bool_decide_unpack _); vm_compute; exact I.
  - intros r p [->|[->| ->]]%Hin Hp; vm_compute in Hp; injection Hp as <-; reflexivity.
  - intros id r. unfold demo_chain. cbn [chain_id2reuse].
    intros [[<- <-]|[_ [[<- <-]|[_ [<- <-]%lookup_singleton_Some]]%lookup_insert_Some]]%lookup_insert_Some;
      (split; [set_solver|reflexivity]).
  - intros c r [->|[->| ->]]%Hin Hh; vm_compute in Hh; [done|done|]. injection Hh as <-. vm_compute. done.
  - intros r [->|[->| ->]]%Hin; eexists; (split; [reflexivity|lia]).
  - vm_compute. done.
  - intros r p [->|[->| ->]]%Hin Hp; vm_compute in Hp; injection Hp as <-; done.
Qed.

Lemma memory_sharing_safe_witness :
  ∃ ps' ids' p1 p2,
    InferMemBlockId4MemReusedRegst demo_conf 3 demo_sizes (sort_regsts demo_sizes) sort_by
      [(kMemSizeFirstAlgo, true); (kMemSizeFirstAlgo, false)] [demo_chain] demo_protos demo_ids = Ret (ps', ids') ∧
    ps' !! 1%nat = Some p1 ∧ ps' !! 2%nat = Some p2 ∧ mem_block_id p1 = 3 * 2 ^ 48 + 5 ∧
    (mem_block_offset p1 + 4 ≤ mem_block_offset p2 ∨ mem_block_offset p2 + 8 ≤ mem_block_offset p1).
Proof.
  destruct (memory_sharing_safe demo_conf 3 demo_sizes (sort_regsts demo_sizes) sort_by
    [(kMemSizeFirstAlgo, true); (kMemSizeFirstAlgo, false)] [demo_chain] demo_protos demo_ids)
    as (ps' & ids' & E & H).
  - apply Forall_singleton, demo_fresh.
  - apply (bool_decide_unpack _). vm_compute. exact I.
  - reflexivity.
  - done.
  - intros _. split; [apply sort_by_sorts|]. intros r z Hz.
    assert (Hall : map_Forall (λ _ z, 0 < z) demo_sizes) by (apply (bool_decide_unpack _); vm_compute; exact I).
    exact (Hall r z Hz).
  - apply sort_regsts_ok.
  - lia.
  - vm_compute. discriminate.
  - vm_compute. discriminate.
  - destruct (H 0%nat demo_chain eq_refl) as [Hid Hap].
    assert (In1 : 1%nat ∈ chain_reused demo_chain) by by apply (list_elem_of_lookup_2 _ 0).
    assert (In2 : 2%nat ∈ chain_reused demo_chain) by by apply (list_elem_of_lookup_2 _ 1).
    destruct (Hid 1%nat In1) as (p1 & Hp1 & I1). destruct (Hid 2%nat In2) as (p2 & Hp2 & _).
    exists ps', ids', p1, p2. clear H Hid.
    split_and!; [exact E|exact Hp1|exact Hp2|by rewrite I1|].
    clear E. apply (Hap 1%nat 2%nat p1 p2 1); try done; vm_compute; try done; split; discriminate.
Defined.
