(* ===== verification/Digraph.v ===== *)
(** * Counting edges of a graph

    A graph is given by the list of the targets of every node.  The lemmas count the edges
    that lead from a list of nodes to a node; the searches of the autograd engine and of
    the graph library share them. *)
From S2P Require Import Prelude.

(** ** Occurrences *)

Definition occ (q : Z) (l : list Z) : nat := length (filter (λ x, x = q) l).

Lemma occ_cons (q x : Z) (l : list Z) : occ q (x :: l) = ((if decide (x = q) then 1 else 0) + occ q l)%nat.
Proof. unfold occ. rewrite filter_cons. by destruct (decide (x = q)). Qed.

Lemma occ_elem (q : Z) (l : list Z) : q ∈ l ↔ (0 < occ q l)%nat.
Proof.
  induction l as [|x l IH]; [split; [by intros ?%elem_of_nil|cbn; lia]|]. rewrite occ_cons, elem_of_cons, IH.
  destruct (decide (x = q)) as [->|Hne]; [split; [lia|by left]|]. split; [intros [->|]; [done|lia]|intros; right; lia].
Qed.

Lemma occ_le (q : Z) (l : list Z) : (occ q l ≤ length l)%nat.
Proof. apply length_filter. Qed.

Lemma occ_app (q : Z) (l k : list Z) : occ q (l ++ k) = (occ q l + occ q k)%nat.
Proof. unfold occ. by rewrite filter_app, length_app. Qed.

(** A property of the edges of a concrete graph is decided. *)
Lemma each_edge (l : list Z) (f : Z → list Z) (P : Z → Z → Prop) : Forall (λ n, Forall (P n) (f n)) l → ∀ n q, n ∈ l → q ∈ f n → P n q.
Proof. rewrite Forall_forall. intros H n q Hn. specialize (H n Hn). rewrite Forall_forall in H. apply H. Qed.
Ltac check_edges := apply each_edge, (bool_decide_unpack _); vm_compute; done.

(** ** Edges that leave a list of nodes *)

Section Edges.
Context (next : Z → list Z).

Definition edges_into (l : list Z) (q : Z) : nat := foldr (λ n k, occ q (next n) + k)%nat 0%nat l.
Definition edges_from (l : list Z) : nat := foldr (λ n k, length (next n) + k)%nat 0%nat l.

Lemma into_perm (l k : list Z) (q : Z) : l ≡ₚ k → edges_into l q = edges_into k q.
Proof. unfold edges_into. induction 1; cbn; lia. Qed.

Lemma into_cons (n : Z) (l : list Z) (q : Z) : edges_into (n :: l) q = (occ q (next n) + edges_into l q)%nat.
Proof. done. Qed.

Lemma into_app (l k : list Z) (q : Z) : edges_into (l ++ k) q = (edges_into l q + edges_into k q)%nat.
Proof. induction l as [|n l IH]; [done|]. rewrite <- app_comm_cons, !into_cons, IH. lia. Qed.

Lemma into_elem (l : list Z) (q : Z) : (0 < edges_into l q)%nat ↔ ∃ n, n ∈ l ∧ q ∈ next n.
Proof.
  induction l as [|n l IH]; [split; [cbn; lia|by intros (? & ?%elem_of_nil & _)]|]. rewrite into_cons. split.
  - intros H. destruct (decide (q ∈ next n)) as [Hq|Hq]; [exists n; split; [left|done]|].
    rewrite occ_elem in Hq. destruct (proj1 IH ltac:(lia)) as (x & Hx & Hqx). exists x. split; [by right|done].
  - intros (x & Hx & Hq). apply elem_of_cons in Hx as [->|Hx]; [apply occ_elem in Hq; lia|].
    pose proof (proj2 IH (ex_intro _ x (conj Hx Hq))). lia.
Qed.

Lemma edges_from_cons (n : Z) (l : list Z) : edges_from (n :: l) = (length (next n) + edges_from l)%nat.
Proof. done. Qed.

Lemma into_le (l : list Z) (q : Z) : (edges_into l q ≤ edges_from l)%nat.
Proof. induction l as [|n l IH]; [done|]. pose proof (occ_le q (next n)). rewrite into_cons, edges_from_cons. lia. Qed.

Lemma edge_total_perm (l k : list Z) : l ≡ₚ k → edges_from l = edges_from k.
Proof. unfold edges_from. induction 1; cbn; lia. Qed.

Lemma edge_total_app (l k : list Z) : edges_from (l ++ k) = (edges_from l + edges_from k)%nat.
Proof. induction l as [|n l IH]; [done|]. rewrite <- app_comm_cons, !edges_from_cons, IH. lia. Qed.
End Edges.
