(* ===== verification/Autograd.v ===== *)
(** * The autograd engine

    Models [oneflow/core/autograd/autograd_engine.cpp], [autograd_meta.cpp] and
    [framework/tensor_arg.cpp].  An operator on tensors that require a gradient adds a
    [FunctionNode] to a graph; the node points to the nodes of its inputs
    ([next_functions]) and to the [AutogradMeta] objects of its inputs and outputs.  A
    backward pass pushes gradients into the metas of the outputs, counts for every
    node the edges that lead to it and runs the nodes whose edges are all done.

    Nodes, metas and tensors are shared objects: numbers that index the stores of a
    [heap].  Tensor data is a type [T]; addition is an argument, as is [sync_grad], the
    conditional boxing of an accumulated gradient (its result, or nothing where the
    source does not box).  A [TensorTuple] with null pointers is a list of options.
    [backward_fn_->body], the hooks and [status] are values of the objects, as in the
    source.  Dereferencing a null pointer is an abort. *)
From S2P Require Import Prelude Shape.

Record BackwardFunction (T : Type) := mkBackward {
  body : list (option T) → list (option T) → bool → outcome (list (option T));
  status : bool
}.
Arguments mkBackward {T}. Arguments body {T}. Arguments status {T}.

Record AutogradMeta (T : Type) := mkMeta {
  is_leaf_ : bool;
  requires_grad_ : bool;
  retain_grad_ : bool;
  acc_grad_ : option T;
  acc_tensor_ : option T;        (* of current_grad_ *)
  hooks_ : list (T → option T);
  post_grad_accumulation_hooks_ : list (T → option T)
}.
Arguments mkMeta {T}. Arguments is_leaf_ {T}. Arguments requires_grad_ {T}. Arguments retain_grad_ {T}.
Arguments acc_grad_ {T}. Arguments acc_tensor_ {T}. Arguments hooks_ {T}. Arguments post_grad_accumulation_hooks_ {T}.

Record FunctionNode (T : Type) := mkNode {
  next_functions_ : list Z;
  input_meta_data_ : list (option Z);
  output_meta_data_ : list Z;
  output_zeros_ : list T;        (* TensorInfo::zeros of output_tensor_infos_ *)
  backward_fn_ : option (BackwardFunction T);
  node_hooks_ : list (list (option T) → list (option T) → option (list (option T)))
}.
Arguments mkNode {T}. Arguments next_functions_ {T}. Arguments input_meta_data_ {T}. Arguments output_meta_data_ {T}.
Arguments output_zeros_ {T}. Arguments backward_fn_ {T}. Arguments node_hooks_ {T}.

Record Tensor := mkTensor { autograd_meta_ : Z; grad_fn_node_ : option Z; grad_fn_output_index_ : Z }.

Record heap (T : Type) := mkHeap { nodes : gmap Z (FunctionNode T); metas : gmap Z (AutogradMeta T); tensors : gmap Z Tensor }.
Arguments mkHeap {T}. Arguments nodes {T}. Arguments metas {T}. Arguments tensors {T}.

Record ExecInfo := mkInfo { dependencies : Z; need_execute : bool; capture_indices : option (list (Z * Z)) }.

Record GraphTask (T : Type) := mkTask {
  retain_graph_ : bool;
  create_graph_ : bool;
  roots_ : list Z;
  grad_fn2exec_info_ : gmap Z ExecInfo;
  captured_grads_ : option (list (option T))
}.
Arguments mkTask {T}. Arguments retain_graph_ {T}. Arguments create_graph_ {T}. Arguments roots_ {T}.
Arguments grad_fn2exec_info_ {T}. Arguments captured_grads_ {T}.

Definition deref {A : Type} (m : gmap Z A) (p : Z) : outcome A := match m !! p with Some a => Ret a | None => Crash end.

(** [JUST(VectorAt(v, i))]. *)
Definition VectorAt {A : Type} (l : list A) (i : nat) : outcome A := match l !! i with Some a => Ret a | None => Fail IndexError end.

Section Engine.
Context {T : Type} (Add : T → T → T) (sync_grad : Z → T → option T).

Definition set_metas (h : heap T) (m : gmap Z (AutogradMeta T)) : heap T := mkHeap (nodes h) m (tensors h).
Definition set_nodes (h : heap T) (n : gmap Z (FunctionNode T)) : heap T := mkHeap n (metas h) (tensors h).

Definition set_acc (a : AutogradMeta T) (g : option T) : AutogradMeta T :=
  mkMeta (is_leaf_ a) (requires_grad_ a) (retain_grad_ a) g (acc_tensor_ a) (hooks_ a) (post_grad_accumulation_hooks_ a).
Definition set_current (a : AutogradMeta T) (g : option T) : AutogradMeta T :=
  mkMeta (is_leaf_ a) (requires_grad_ a) (retain_grad_ a) (acc_grad_ a) g (hooks_ a) (post_grad_accumulation_hooks_ a).

(** ** Gradients of a tensor *)

Definition Empty (a : AutogradMeta T) : bool := match acc_tensor_ a with None => true | Some _ => false end.
Definition Release (a : AutogradMeta T) : AutogradMeta T := set_current a None.
Definition PushPartialTensor (partial_tensor : T) (a : AutogradMeta T) : AutogradMeta T :=
  match acc_tensor_ a with
  | None => set_current a (Some partial_tensor)
  | Some t => set_current a (Some (Add partial_tensor t))
  end.
Definition GetAccTensor (a : AutogradMeta T) : outcome T :=
  match acc_tensor_ a with None => Fail CheckFailedError | Some t => Ret t end.

Definition run_hook (res : T) (hook : T → option T) : T := default res (hook res).
Definition current_grad_value (a : AutogradMeta T) : outcome T :=
  let* res := GetAccTensor a in Ret (foldl run_hook res (hooks_ a)).

Definition CopyOrAccGrad (a : AutogradMeta T) : outcome (AutogradMeta T) :=
  let* current_grad := current_grad_value a in
  let acc := match acc_grad_ a with Some acc => Add acc current_grad | None => current_grad end in
  Ret (set_acc a (Some (foldl run_hook acc (post_grad_accumulation_hooks_ a)))).

(** ** One node *)

(** A step on the meta [m]. *)
Definition upd_meta (f : AutogradMeta T → outcome (AutogradMeta T)) (h : heap T) (m : Z) : outcome (heap T) :=
  let* a := deref (metas h) m in
  let* a := f a in
  Ret (set_metas h (<[m := a]> (metas h))).

Definition acc_retain (a : AutogradMeta T) : outcome (AutogradMeta T) :=
  if retain_grad_ a then CopyOrAccGrad a else Ret a.
Definition AccGrad4RetainGradTensor (h : heap T) (node : FunctionNode T) : outcome (heap T) :=
  ofold (upd_meta acc_retain) (output_meta_data_ node) h.

Definition acc_leaf (m : Z) (a : AutogradMeta T) : outcome (AutogradMeta T) :=
  if is_leaf_ a && requires_grad_ a then
    let* a := CopyOrAccGrad a in
    match acc_grad_ a with
    | None => Crash
    | Some g => Ret (match sync_grad m g with Some g' => set_acc a (Some g') | None => a end)
    end
  else Ret a.
Definition AccGrad4LeafTensor (h : heap T) (node : FunctionNode T) : outcome (heap T) :=
  ofold (λ h m, upd_meta (acc_leaf m) h m) (output_meta_data_ node) h.

Definition ReleaseOutTensorArgs (h : heap T) (node : FunctionNode T) : outcome (heap T) :=
  ofold (upd_meta (λ a, Ret (Release a))) (output_meta_data_ node) h.

Definition ReleaseData (h : heap T) (n : Z) : outcome (heap T) :=
  let* node := deref (nodes h) n in
  match backward_fn_ node with
  | Some f =>
      if status f then
        Ret (set_nodes h (<[n := mkNode (next_functions_ node) (input_meta_data_ node) (output_meta_data_ node)
                                   (output_zeros_ node) None (node_hooks_ node)]> (nodes h)))
      else Ret h
  | None => Ret h
  end.

Definition IsReadyToRun (h : heap T) (out_meta_datas : list Z) : outcome bool :=
  let* l := omap_list (deref (metas h)) out_meta_datas in Ret (existsb (λ a, negb (Empty a)) l).

(** The gradient of output [i]: zeros where none arrived. *)
Definition output_grad (h : heap T) (node : FunctionNode T) (i : nat) : outcome (option T) :=
  let* m := VectorAt (output_meta_data_ node) i in
  let* a := deref (metas h) m in
  if Empty a then
    if requires_grad_ a then match output_zeros_ node !! i with Some z => Ret (Some z) | None => Crash end else Ret None
  else let* g := current_grad_value a in Ret (Some g).

Definition run_node_hook (output_grads input_grads : list (option T))
    (hook : list (option T) → list (option T) → option (list (option T))) : outcome (list (option T)) :=
  match hook input_grads output_grads with
  | None => Ret input_grads
  | Some new => let* _ := CHECK_OR_RETURN (Nat.eqb (length new) (length input_grads)) CheckFailedError in Ret new
  end.

Definition push_input_grad (node : FunctionNode T) (input_grads : list (option T)) (h : heap T) (i : nat) : outcome (heap T) :=
  let* g := VectorAt input_grads i in
  match g, input_meta_data_ node !! i with
  | Some g, Some (Some m) => upd_meta (λ a, Ret (PushPartialTensor g a)) h m
  | Some _, Some None => Fail CheckFailedError
  | None, Some None => Ret h
  | None, Some (Some _) => Fail CheckFailedError
  | _, None => Crash
  end.

Definition node_Apply (create_graph : bool) (h : heap T) (n : Z) : outcome (bool * heap T) :=
  let* node := deref (nodes h) n in
  match backward_fn_ node with
  | None => Fail CheckFailedError
  | Some f =>
      let* ready := IsReadyToRun h (output_meta_data_ node) in
      if negb ready then Ret (false, h) else
      let* output_grads := omap_list (output_grad h node) (seq 0 (length (output_meta_data_ node))) in
      let* input_grads := body f output_grads (replicate (length (input_meta_data_ node)) None) create_graph in
      let* input_grads := ofold (run_node_hook output_grads) (node_hooks_ node) input_grads in
      let* h := ofold (push_input_grad node input_grads) (seq 0 (length (input_meta_data_ node))) h in
      Ret (true, h)
  end.

(** ** The graph task *)

Definition no_info : ExecInfo := mkInfo 0 false None.
(** [grad_fn2exec_info_[node]] adds a default entry. *)
Definition info_of (e : gmap Z ExecInfo) (n : Z) : ExecInfo := default no_info (e !! n).

Definition new_GraphTask (h : heap T) (outputs : list Tensor) (retain_graph create_graph : bool) : outcome (GraphTask T) :=
  let* roots := omap_list (λ t, match grad_fn_node_ t with Some n => Ret n | None => Crash end) outputs in
  Ret (mkTask retain_graph create_graph roots ∅ None).

Definition set_info (t : GraphTask T) (e : gmap Z ExecInfo) : GraphTask T :=
  mkTask (retain_graph_ t) (create_graph_ t) (roots_ t) e (captured_grads_ t).

Definition edge_count (h : heap T) : nat := sum_list (map (λ kv, length (next_functions_ kv.2)) (map_to_list (nodes h))).

Definition mark_root (st : list Z * gmap Z ExecInfo) (n : Z) : list Z * gmap Z ExecInfo :=
  let '(stack, e) := st in
  (n :: stack, <[n := mkInfo (dependencies (info_of e n)) true (capture_indices (info_of e n))]> e).

Definition count_edge (seen : gset Z) (st : list Z * gmap Z ExecInfo) (next_node : Z) : list Z * gmap Z ExecInfo :=
  let '(stack, e) := st in
  let i := info_of e next_node in
  let e := <[next_node := mkInfo (i32 (dependencies i + 1)) true (capture_indices i)]> e in
  (if bool_decide (next_node ∈ seen) then stack else next_node :: stack, e).

Fixpoint dependencies_loop (fuel : nat) (h : heap T) (seen : gset Z) (stack : list Z) (e : gmap Z ExecInfo)
    : outcome (gmap Z ExecInfo) :=
  match stack with
  | [] => Ret e
  | n :: stack =>
      match fuel with
      | O => Crash
      | S fuel =>
          if bool_decide (n ∈ seen) then dependencies_loop fuel h seen stack e else
          let seen := {[n]} ∪ seen in
          let* node := deref (nodes h) n in
          let '(stack, e) := foldl (count_edge seen) (stack, e) (next_functions_ node) in
          dependencies_loop fuel h seen stack e
      end
  end.

Definition ComputeDependencies (h : heap T) (t : GraphTask T) : outcome (GraphTask T) :=
  let '(stack, e) := foldl mark_root ([], grad_fn2exec_info_ t) (roots_ t) in
  let* e := dependencies_loop (length (roots_ t) + edge_count h) h ∅ stack e in
  Ret (set_info t e).

(** *** With pruning *)

Definition capture_input (allow_unused : bool) (st : gmap Z ExecInfo) (it : nat * Tensor) : outcome (gmap Z ExecInfo) :=
  let '(idx, input) := it in
  match grad_fn_node_ input with
  | None => if allow_unused then Ret st else Fail RuntimeError
  | Some n =>
      let i := info_of st n in
      let captures := default [] (capture_indices i) ++ [(grad_fn_output_index_ input, Z.of_nat idx)] in
      Ret (<[n := mkInfo (dependencies i) true (Some captures)]> st)
  end.

(** A frame of the depth-first search: a node and the index of its next function. *)
Definition set_need (h : heap T) (e : gmap Z ExecInfo) (n : Z) (fns : list Z) : gmap Z ExecInfo :=
  foldl (λ e fn, let i := info_of e n in
                 <[n := mkInfo (dependencies i) (need_execute i || need_execute (info_of e fn)) (capture_indices i)]> e) e fns.

Fixpoint prune_loop (fuel : nat) (h : heap T) (seen : gset Z) (stack : list (Z * nat)) (e : gmap Z ExecInfo)
    : outcome (gmap Z ExecInfo) :=
  match stack with
  | [] => Ret e
  | (n, idx) :: rest =>
      match fuel with
      | O => Crash
      | S fuel =>
          if bool_decide (n ∈ seen) then prune_loop fuel h seen rest e else
          let* node := deref (nodes h) n in
          match next_functions_ node !! idx with
          | Some next =>
              let i := info_of e next in
              let e := <[next := mkInfo (i32 (dependencies i + 1)) (need_execute i) (capture_indices i)]> e in
              let stack := (n, S idx) :: rest in
              prune_loop fuel h seen (if bool_decide (next ∈ seen) then stack else (next, 0%nat) :: stack) e
          | None => prune_loop fuel h ({[n]} ∪ seen) rest (set_need h e n (next_functions_ node))
          end
      end
  end.

Definition ComputeDependenciesAndPruneNode (h : heap T) (t : GraphTask T) (inputs : list Tensor) (allow_unused : bool)
    : outcome (GraphTask T) :=
  let* e := ofold (capture_input allow_unused) (zip (seq 0 (length inputs)) inputs) (grad_fn2exec_info_ t) in
  let stack := reverse (map (λ n, (n, 0%nat)) (roots_ t)) in
  let* e := prune_loop (2 * length (roots_ t) + 3 * edge_count h) h ∅ stack e in
  Ret (mkTask (retain_graph_ t) (create_graph_ t) (roots_ t) e (Some (replicate (length inputs) None))).

(** *** Execution *)

Definition capture (h : heap T) (node : FunctionNode T) (st : list (option T)) (io : Z * Z) : outcome (list (option T)) :=
  let* m := VectorAt (output_meta_data_ node) (Z.to_nat io.1) in
  let* a := deref (metas h) m in
  let* g := current_grad_value a in
  let* _ := VectorAt st (Z.to_nat io.2) in
  Ret (<[Z.to_nat io.2 := Some g]> st).

Definition release_next (st : list Z * gmap Z ExecInfo) (next_node : Z) : list Z * gmap Z ExecInfo :=
  let '(queue, e) := st in
  let i := info_of e next_node in
  let d := i32 (dependencies i - 1) in
  let e := <[next_node := mkInfo d (need_execute i) (capture_indices i)]> e in
  (if d =? 0 then queue ++ [next_node] else queue, e).

(** One round for the node [n] taken from the queue. *)
Definition run_node (save_grad_for_leaf : bool) (t : GraphTask T) (h : heap T) (queue : list Z) (n : Z)
    : outcome (GraphTask T * heap T * list Z) :=
  let info := info_of (grad_fn2exec_info_ t) n in
  let* node := deref (nodes h) n in
  if negb (need_execute info) then let* h := ReleaseOutTensorArgs h node in Ret (t, h, queue) else
  let* (applied, h) := node_Apply (create_graph_ t) h n in
  if negb applied then Ret (t, h, queue) else
  let* captured :=
    match capture_indices info with
    | None => Ret (captured_grads_ t)
    | Some l =>
        match captured_grads_ t with
        | None => Fail CheckFailedError
        | Some c => let* c := ofold (capture h node) l c in Ret (Some c)
        end
    end in
  let* h := if save_grad_for_leaf then AccGrad4LeafTensor h node else Ret h in
  let* h := AccGrad4RetainGradTensor h node in
  let* h := ReleaseOutTensorArgs h node in
  let* h := if retain_graph_ t then Ret h else ReleaseData h n in
  let '(queue, e) := foldl release_next (queue, grad_fn2exec_info_ t) (next_functions_ node) in
  Ret (mkTask (retain_graph_ t) (create_graph_ t) (roots_ t) e captured, h, queue).

Fixpoint task_loop (fuel : nat) (save_grad_for_leaf : bool) (t : GraphTask T) (h : heap T) (queue : list Z)
    : outcome (GraphTask T * heap T) :=
  match queue with
  | [] => Ret (t, h)
  | n :: queue =>
      match fuel with
      | O => Crash
      | S fuel =>
          let* (t, h, queue) := run_node save_grad_for_leaf t h queue n in
          task_loop fuel save_grad_for_leaf t h queue
      end
  end.

Definition task_Apply (save_grad_for_leaf : bool) (t : GraphTask T) (h : heap T) : outcome (GraphTask T * heap T) :=
  let queue := filter (λ n, dependencies (info_of (grad_fn2exec_info_ t) n) = 0) (roots_ t) in
  task_loop (length (roots_ t) + edge_count h) save_grad_for_leaf t h queue.

(** ** The engine *)

Definition push_out_grad (h : heap T) (og : Tensor * T) : outcome (heap T) :=
  upd_meta (λ a, Ret (PushPartialTensor og.2 a)) h (autograd_meta_ og.1).

Definition RunBackwardAndSaveGrads4LeafTensor (h : heap T) (outputs : list Tensor) (out_grads : list T)
    (retain_graph create_graph : bool) : outcome (heap T) :=
  let* _ := CHECK (Nat.leb (length outputs) (length out_grads)) in
  let* h := ofold push_out_grad (zip outputs out_grads) h in
  let* t := new_GraphTask h outputs retain_graph create_graph in
  let* t := ComputeDependencies h t in
  let* (_, h) := task_Apply true t h in
  Ret h.

Definition RunBackwardAndReturnInputsTensorGrad (h : heap T) (outputs inputs : list Tensor) (out_grads : list T)
    (retain_graph create_graph allow_unused : bool) : outcome (heap T * option (list (option T))) :=
  let* _ := CHECK (Nat.leb (length outputs) (length out_grads)) in
  let* h := ofold push_out_grad (zip outputs out_grads) h in
  let* t := new_GraphTask h outputs retain_graph create_graph in
  let* t := ComputeDependenciesAndPruneNode h t inputs allow_unused in
  let* (t, h) := task_Apply false t h in
  Ret (h, captured_grads_ t).
(** ** Building the graph *)

(** [TensorInfo(tensor).zeros()]. *)
Context (zeros_of : Z → T).

(** The meta of an input that requires a gradient, and the node it comes from.  A null
    node would be dereferenced by every traversal. *)
Definition input_link (h : heap T) (x : Z) : outcome (option (Z * Z)) :=
  let* t := deref (tensors h) x in
  let* a := deref (metas h) (autograd_meta_ t) in
  if requires_grad_ a then
    match grad_fn_node_ t with Some n => Ret (Some (autograd_meta_ t, n)) | None => Crash end
  else Ret None.

(** A new meta for an output. *)
Definition new_output (st : heap T * list Z) (x : Z) : outcome (heap T * list Z) :=
  let '(h, out) := st in
  let* t := deref (tensors h) x in
  let* a := deref (metas h) (autograd_meta_ t) in
  let m := Z.of_nat (size (metas h)) in
  let a := mkMeta (is_leaf_ a) (requires_grad_ a) false None None [] [] in
  Ret (mkHeap (nodes h) (<[m := a]> (metas h)) (<[x := mkTensor m (grad_fn_node_ t) (grad_fn_output_index_ t)]> (tensors h)),
       out ++ [m]).

Definition GraphFunctionNode_New (f : BackwardFunction T) (h : heap T) (inputs outputs : list Z) : outcome (Z * heap T) :=
  let* links := omap_list (input_link h) inputs in
  let* (h, out) := ofold new_output outputs (h, []) in
  let n := Z.of_nat (size (nodes h)) in
  let node := mkNode (omap (fmap snd) links) (map (fmap fst) links) out (map zeros_of outputs) (Some f) [] in
  Ret (n, set_nodes h (<[n := node]> (nodes h))).

Definition set_grad_fn (n : Z) (h : heap T) (ix : nat * Z) : outcome (heap T) :=
  let* t := deref (tensors h) ix.2 in
  Ret (mkHeap (nodes h) (metas h) (<[ix.2 := mkTensor (autograd_meta_ t) (Some n) (Z.of_nat ix.1)]> (tensors h))).

Definition accumulate_fn : BackwardFunction T := mkBackward (λ _ in_grads _, Ret in_grads) false.

Definition AddAccumulateFunctionNode (h : heap T) (x : Z) : outcome (heap T) :=
  let* (n, h) := GraphFunctionNode_New accumulate_fn h [] [x] in
  set_grad_fn n h (0%nat, x).

Definition add_accumulate (h : heap T) (x : Z) : outcome (heap T) :=
  let* t := deref (tensors h) x in
  let* a := deref (metas h) (autograd_meta_ t) in
  if is_leaf_ a && requires_grad_ a then
    match grad_fn_node_ t with None => AddAccumulateFunctionNode h x | Some _ => Ret h end
  else Ret h.

Definition AddNode (f : BackwardFunction T) (h : heap T) (inputs outputs : list Z) : outcome (Z * heap T) :=
  let* h := ofold add_accumulate inputs h in
  let* (n, h) := GraphFunctionNode_New f h inputs outputs in
  let* h := ofold (set_grad_fn n) (zip (seq 0 (length outputs)) outputs) h in
  Ret (n, h).
End Engine.

(** [z = x * y], [z] summed twice: the gradients of the two leaves. *)
Module Demo.
Definition mul_fn (x y : Z) : BackwardFunction Z :=
  mkBackward (λ outs _ _, match outs with
                          | [Some g] => Ret [Some (g * y); Some (g * x)]
                          | _ => Fail RuntimeError
                          end) true.
Definition add_fn : BackwardFunction Z :=
  mkBackward (λ outs _ _, match outs with [Some g] => Ret [Some g; Some g] | _ => Fail RuntimeError end) false.
Definition leaf : AutogradMeta Z := mkMeta true true false None None [] [].
Definition inner : AutogradMeta Z := mkMeta false true false None None [] [].
(** Tensors 0 and 1 are leaves, 2 and 3 results. *)
Definition start : heap Z :=
  mkHeap ∅ {[0 := leaf; 1 := leaf; 2 := inner; 3 := inner]}
    {[0 := mkTensor 0 None 0; 1 := mkTensor 1 None 0; 2 := mkTensor 2 None 0; 3 := mkTensor 3 None 0]}.
Definition graph : outcome (heap Z) :=
  let* (_, h) := AddNode (λ _, 0) (mul_fn 5 7) start [0; 1] [2] in
  let* (_, h) := AddNode (λ _, 0) add_fn h [2; 2] [3] in
  Ret h.
Definition backward (h : heap Z) (roots : list Z) (retain : bool) : outcome (heap Z) :=
  let* outputs := omap_list (deref (tensors h)) roots in
  RunBackwardAndSaveGrads4LeafTensor Z.add (λ _ _, None) h outputs (map (λ _, 1) roots) retain false.
Definition grad_of (h : heap Z) (x : Z) : option Z :=
  match tensors h !! x with
  | Some t => match metas h !! autograd_meta_ t with Some a => acc_grad_ a | None => None end
  | None => None
  end.
End Demo.

Example product_gradients :
  (let* h := Demo.graph in let* h := Demo.backward h [3] false in Ret (Demo.grad_of h 0, Demo.grad_of h 1)) = Ret (Some 14, Some 10).
Proof. vm_compute. reflexivity. Qed.
