(* ===== verification/AutogradDeps.v ===== *)
(** * Counting the edges of the backward graph

    [ComputeDependencies] returns, visits exactly the nodes that the roots reach, and
    counts for every node the edges that lead to it from such nodes. *)
From stdpp Require Import relations.
From S2P Require Import Prelude Shape Digraph Autograd.

(** The nodes that node [n] points to. *)
Definition next_of {T : Type} (h : heap T) (n : Z) : list Z := match nodes h !! n with Some nd => next_functions_ nd | None => [] end.
Abbreviation into h := (edges_into (next_of h)).
Abbreviation edge_total h := (edges_from (next_of h)).

Section Deps.
Context {T : Type} (h : heap T).

Definition all_nodes : list Z := map fst (map_to_list (nodes h)).

Lemma edge_count_total : edge_count h = edge_total h all_nodes.
Proof.
  unfold edge_count, all_nodes, edge_total.
  assert (Hl : Forall (λ kv, nodes h !! kv.1 = Some kv.2) (map_to_list (nodes h))).
  { apply Forall_forall. intros [k v] Hin. by apply elem_of_map_to_list in Hin. }
  induction Hl as [|[k v] l Hk _ IH]; [done|]. cbn in *. rewrite IH. unfold next_of. by rewrite Hk.
Qed.

Lemma edge_total_bound (l : list Z) : NoDup l → (∀ n, n ∈ l → is_Some (nodes h !! n)) → (edge_total h l ≤ edge_count h)%nat.
Proof.
  intros Hnd Hin. rewrite edge_count_total.
  assert (Hs : l ⊆+ all_nodes).
  { apply NoDup_submseteq; [done|]. intros n Hn. destruct (Hin n Hn) as [nd Hnd']. apply list_elem_of_fmap.
    exists (n, nd). split; [done|]. by apply elem_of_map_to_list. }
  apply submseteq_Permutation in Hs as [k Hk]. rewrite (edge_total_perm _ _ _ Hk), edge_total_app. lia.
Qed.

(** ** One node *)

Lemma info_of_insert (e : gmap Z ExecInfo) (n q : Z) (i : ExecInfo) :
  info_of (<[n := i]> e) q = if decide (n = q) then i else info_of e q.
Proof.
  unfold info_of. destruct (decide (n = q)) as [->|Hne]; [by rewrite lookup_insert_eq|by rewrite lookup_insert_ne].
Qed.

Lemma count_edges (seen : gset Z) (l stack : list Z) (e : gmap Z ExecInfo) :
  (∀ q, 0 ≤ dependencies (info_of e q) ∧ dependencies (info_of e q) + Z.of_nat (occ q l) < 2 ^ 31) →
  let '(stack', e') := foldl (count_edge seen) (stack, e) l in
  (∀ q, q ∈ stack' ↔ q ∈ stack ∨ q ∈ l ∧ q ∉ seen) ∧ (length stack' ≤ length stack + length l)%nat ∧
  ∀ q, dependencies (info_of e' q) = dependencies (info_of e q) + Z.of_nat (occ q l) ∧
       need_execute (info_of e' q) = need_execute (info_of e q) || bool_decide (q ∈ l) ∧
       capture_indices (info_of e' q) = capture_indices (info_of e q).
Proof.
  revert stack e. induction l as [|x l IH]; intros stack e Hb; cbn [foldl].
  { split; [|split; [cbn; lia|]].
    - intros q. split; [by left|]. intros [|[?%elem_of_nil _]]; done.
    - intros q. cbn. rewrite bool_decide_eq_false_2 by apply not_elem_of_nil. rewrite orb_false_r. split_and!; [lia|done|done]. }
  unfold count_edge at 2. set (i := info_of e x). set (e1 := <[x := _]> e).
  assert (Hi : i32 (dependencies i + 1) = dependencies i + 1).
  { apply i32_small. destruct (Hb x) as [H1 H2]. rewrite occ_cons, decide_True in H2 by done. fold i in H1, H2. lia. }
  specialize (IH (if bool_decide (x ∈ seen) then stack else x :: stack) e1).
  destruct (foldl (count_edge seen) _ l) as [stack' e'] eqn:E. destruct IH as (H1 & H2 & H3).
  { intros q. unfold e1. rewrite info_of_insert. specialize (Hb q). rewrite occ_cons in Hb.
    destruct (decide (x = q)) as [->|]; cbn [dependencies]; [rewrite Hi; fold i in Hb|]; lia. }
  split_and!.
  - intros q. rewrite H1, elem_of_cons. destruct (bool_decide_reflect (x ∈ seen)) as [Hx|Hx].
    + split; [tauto|]. intros [|[[->|] ?]]; tauto.
    + rewrite elem_of_cons. destruct (decide (q = x)) as [->|]; tauto.
  - destruct (bool_decide (x ∈ seen)); cbn in *; lia.
  - intros q. destruct (H3 q) as (D & N & C). rewrite D, N, C. unfold e1. rewrite info_of_insert, occ_cons.
    destruct (decide (x = q)) as [->|Hne]; cbn [dependencies need_execute capture_indices].
    + rewrite Hi. fold i. rewrite (bool_decide_eq_true_2 (q ∈ q :: l)) by left. rewrite orb_true_r. split_and!; [lia|done|done].
    + split_and!; [lia| |done]. f_equal. apply bool_decide_ext. rewrite elem_of_cons. naive_solver.
Qed.

(** The edges of a node that has run are released. *)
Lemma release_edges (D : Z → nat) (l queue : list Z) (e : gmap Z ExecInfo) :
  (∀ q, dependencies (info_of e q) = Z.of_nat (D q + occ q l) ∧ Z.of_nat (D q + occ q l) < 2 ^ 31) →
  NoDup queue → (∀ x, x ∈ l → x ∉ queue) →
  let '(queue', e') := foldl release_next (queue, e) l in
  NoDup queue' ∧ (∀ q, q ∈ queue' ↔ q ∈ queue ∨ q ∈ l ∧ D q = 0%nat) ∧
  ∀ q, dependencies (info_of e' q) = Z.of_nat (D q) ∧ need_execute (info_of e' q) = need_execute (info_of e q) ∧
       capture_indices (info_of e' q) = capture_indices (info_of e q).
Proof.
  revert queue e. induction l as [|x l IH]; intros queue e Hb Hnd Hq; cbn [foldl].
  { split; [done|]. split.
    - intros q. split; [by left|]. intros [|[?%elem_of_nil _]]; done.
    - intros q. destruct (Hb q) as [-> _]. cbn. by rewrite Nat.add_0_r. }
  assert (Hd : i32 (dependencies (info_of e x) - 1) = Z.of_nat (D x + occ x l)).
  { destruct (Hb x) as [H1 H2]. rewrite occ_cons, decide_True in H1, H2 by done. rewrite i32_small; lia. }
  unfold release_next at 2. rewrite Hd. set (e1 := <[x := _]> e). set (queue1 := if _ =? 0 then _ else _).
  assert (H1 : ∀ q, q ∈ queue1 ↔ q ∈ queue ∨ q = x ∧ (D x + occ x l = 0)%nat).
  { intros q. unfold queue1. destruct (Z.eqb_spec (Z.of_nat (D x + occ x l)) 0) as [H0|H0].
    - rewrite elem_of_app, list_elem_of_singleton. split; [intros [|]; [tauto|right; split; [done|lia]]|tauto].
    - split; [tauto|]. intros [|[_ ?]]; [done|lia]. }
  specialize (IH queue1 e1). destruct (foldl release_next _ l) as [queue' e']. destruct IH as (Hn & Hin & Hinfo).
  - intros q. unfold e1. rewrite info_of_insert. destruct (Hb q) as [H2 H3]. rewrite occ_cons in H2, H3.
    destruct (decide (x = q)) as [->|]; cbn [dependencies]; lia.
  - unfold queue1. case_match; [|done]. apply NoDup_app. split_and!; [done| |apply NoDup_singleton].
    intros y Hy ->%list_elem_of_singleton. by apply (Hq x); [left|].
  - intros y Hy Hy1. apply H1 in Hy1 as [Hy1|[-> H0]]; [by apply (Hq y); [right|]|]. apply occ_elem in Hy. lia.
  - split; [done|]. split.
    + intros q. rewrite Hin, H1, elem_of_cons. destruct (decide (q = x)) as [->|]; [|tauto].
      destruct (decide (x ∈ l)) as [Hx|Hx]; [|pose proof Hx as H0; rewrite occ_elem in H0; intuition lia].
      split; [intros [[|[_ ?]]|]; intuition lia|intuition].
    + intros q. destruct (Hinfo q) as (-> & -> & ->). unfold e1. rewrite info_of_insert. by destruct (decide (x = q)) as [->|].
Qed.

(** ** The search *)

Definition edge (n q : Z) : Prop := q ∈ next_of h n.
Definition reach (roots : list Z) (q : Z) : Prop := ∃ r, r ∈ roots ∧ rtc edge r q.

Context (Hclosed : ∀ n q, edge n q → is_Some (nodes h !! q)) (Hsmall : Z.of_nat (edge_count h) < 2 ^ 31).

(** [done]: the nodes that are seen, in any order. *)
Record searching (roots done stack : list Z) (e : gmap Z ExecInfo) : Prop := mkSearching {
  s_nodup : NoDup done;
  s_exist : ∀ q, q ∈ done ++ stack → is_Some (nodes h !! q);
  s_reach : ∀ q, q ∈ done ++ stack → reach roots q;
  s_roots : ∀ q, q ∈ roots → q ∈ done ++ stack;
  s_next : ∀ n q, n ∈ done → edge n q → q ∈ done ++ stack;
  s_deps : ∀ q, dependencies (info_of e q) = Z.of_nat (into h done q);
  s_need : ∀ q, q ∈ done ++ stack → need_execute (info_of e q) = true;
  s_capture : ∀ q, capture_indices (info_of e q) = None
}.

Lemma searching_pop (roots done stack : list Z) (e : gmap Z ExecInfo) (n : Z) :
  searching roots done (n :: stack) e → n ∈ done → searching roots done stack e.
Proof.
  intros [H1 H2 H3 H4 H5 H6 H7 H8] Hn.
  assert (Hsub : ∀ q, q ∈ done ++ n :: stack ↔ q ∈ done ++ stack).
  { intros q. rewrite !elem_of_app, elem_of_cons. naive_solver. }
  split; try done; intros; [apply H2|apply H3|apply Hsub, H4|apply Hsub; eapply H5|apply H7]; try done; by apply Hsub.
Qed.

Lemma searching_visit (roots done stack stack' : list Z) (e e' : gmap Z ExecInfo) (n : Z) (seen : gset Z) :
  (∀ q, q ∈ seen ↔ q ∈ n :: done) → searching roots done (n :: stack) e → n ∉ done →
  foldl (count_edge seen) (stack, e) (next_of h n) = (stack', e') →
  searching roots (n :: done) stack' e' ∧ (length stack' ≤ length stack + length (next_of h n))%nat.
Proof.
  intros Hseen [H1 H2 H3 H4 H5 H6 H7 H8] Hn E.
  assert (Hnd : NoDup (n :: done)) by (by constructor).
  assert (Hex : ∀ q, q ∈ n :: done → is_Some (nodes h !! q)).
  { intros q Hq. apply H2. rewrite elem_of_app, elem_of_cons in *. naive_solver. }
  pose proof (edge_total_bound (n :: done) Hnd Hex) as Htot.
  pose proof (count_edges seen (next_of h n) stack e) as HC. rewrite E in HC. destruct HC as (Hst & Hlen & Hinfo).
  { intros q. rewrite H6. pose proof (into_le (next_of h) (n :: done) q) as Hle. rewrite into_cons in Hle. lia. }
  split; [|done].
  assert (Hsub : ∀ q, q ∈ (n :: done) ++ stack' ↔ q ∈ done ++ n :: stack ∨ q ∈ next_of h n).
  { intros q. rewrite elem_of_app, Hst, Hseen, elem_of_app, !elem_of_cons. destruct (decide (q = n)), (decide (q ∈ done)); tauto. }
  assert (Hold : n ∈ done ++ n :: stack) by (apply elem_of_app; right; left).
  split; try done.
  - intros q [Hq|Hq]%Hsub; [by apply H2|by apply (Hclosed n)].
  - intros q [Hq|Hq]%Hsub; [by apply H3|]. destruct (H3 n Hold) as (r & Hr & Hrt). exists r. split; [done|].
    by eapply rtc_r.
  - intros q Hq. apply Hsub. left. by apply H4.
  - intros x q Hx Hq. apply Hsub. apply elem_of_cons in Hx as [->|Hx]; [by right|left; by eapply H5].
  - intros q. destruct (Hinfo q) as (-> & _ & _). rewrite H6, into_cons. lia.
  - intros q Hq. destruct (Hinfo q) as (_ & -> & _). apply Hsub in Hq as [Hq|Hq]; [by rewrite H7|].
    rewrite bool_decide_eq_true_2 by done. apply orb_true_r.
  - intros q. destruct (Hinfo q) as (_ & _ & ->). apply H8.
Qed.

(** The nodes that are reached and their counts. *)
Definition counted (roots R : list Z) (e : gmap Z ExecInfo) : Prop :=
  NoDup R ∧ (∀ q, q ∈ R ↔ reach roots q) ∧
  (∀ q, dependencies (info_of e q) = Z.of_nat (into h R q)) ∧
  (∀ q, q ∈ R → need_execute (info_of e q) = true) ∧ ∀ q, capture_indices (info_of e q) = None.

Lemma searching_done (roots done : list Z) (e : gmap Z ExecInfo) : searching roots done [] e → counted roots done e.
Proof.
  intros [H1 H2 H3 H4 H5 H6 H7 H8]. rewrite app_nil_r in *. split_and!; try done. intros q. split; [apply H3|].
  intros (r & Hr & Hrt). apply H4 in Hr. clear -Hr Hrt H5. induction Hrt; [done|]. apply IHHrt. by eapply H5.
Qed.

Lemma dependencies_loop_ok (fuel : nat) (roots done stack : list Z) (e : gmap Z ExecInfo) (seen : gset Z) :
  (∀ q, q ∈ seen ↔ q ∈ done) → searching roots done stack e →
  (length stack + (edge_count h - edge_total h done) ≤ fuel)%nat →
  ∃ e' R, dependencies_loop fuel h seen stack e = Ret e' ∧ counted roots R e'.
Proof.
  revert done stack e seen. induction fuel as [|fuel IH]; intros done stack e seen Hseen HS Hf.
  - destruct stack as [|n stack]; [|cbn in Hf; lia]. exists e, done. split; [done|by apply searching_done].
  - destruct stack as [|n stack]; [exists e, done; split; [done|by apply searching_done]|].
    cbn [dependencies_loop length] in *. destruct (bool_decide_reflect (n ∈ seen)) as [Hn|Hn].
    + apply (IH done); [done| |lia]. eapply searching_pop; [exact HS|]. by apply Hseen.
    + destruct (s_exist _ _ _ _ HS n) as [nd Hnd]; [apply elem_of_app; right; left|].
      unfold deref. rewrite Hnd. cbn [obind].
      assert (En : next_functions_ nd = next_of h n) by (unfold next_of; by rewrite Hnd). rewrite En.
      destruct (foldl (count_edge ({[n]} ∪ seen)) (stack, e) (next_of h n)) as [stack' e'] eqn:E.
      assert (Hn' : n ∉ done) by (by rewrite <- Hseen).
      assert (Hseen' : ∀ q, q ∈ {[n]} ∪ seen ↔ q ∈ n :: done) by (intros q; rewrite elem_of_union, elem_of_singleton, elem_of_cons, Hseen; done).
      destruct (searching_visit roots done stack stack' e e' n _ Hseen' HS Hn' E) as [HS' Hlen].
      apply (IH (n :: done)); [done|done|].
      assert (Htot : (edge_total h (n :: done) ≤ edge_count h)%nat).
      { apply edge_total_bound; [apply (s_nodup _ _ _ _ HS')|]. intros q Hq. apply (s_exist _ _ _ _ HS'), elem_of_app. by left. }
      unfold edges_from in *. cbn [foldr] in *. lia.
Qed.

Lemma mark_roots (roots stack : list Z) (e : gmap Z ExecInfo) :
  let '(stack', e') := foldl mark_root (stack, e) roots in
  (∀ q, q ∈ stack' ↔ q ∈ stack ∨ q ∈ roots) ∧ (length stack' = length stack + length roots)%nat ∧
  ∀ q, dependencies (info_of e' q) = dependencies (info_of e q) ∧
       need_execute (info_of e' q) = need_execute (info_of e q) || bool_decide (q ∈ roots) ∧
       capture_indices (info_of e' q) = capture_indices (info_of e q).
Proof.
  revert stack e. induction roots as [|r roots IH]; intros stack e; cbn [foldl].
  { split; [|split; [cbn; lia|]].
    - intros q. split; [by left|]. intros [|?%elem_of_nil]; done.
    - intros q. rewrite bool_decide_eq_false_2 by apply not_elem_of_nil. by rewrite orb_false_r. }
  cbn [mark_root]. set (e1 := <[r := _]> e). specialize (IH (r :: stack) e1).
  destruct (foldl mark_root (r :: stack, e1) roots) as [stack' e']. destruct IH as (H1 & H2 & H3). split_and!.
  - intros q. rewrite H1, !elem_of_cons. tauto.
  - cbn in *. lia.
  - intros q. destruct (H3 q) as (-> & -> & ->). unfold e1. rewrite info_of_insert. destruct (decide (r = q)) as [->|Hne]; cbn.
    + rewrite (bool_decide_eq_true_2 (q ∈ q :: roots)) by left. by rewrite orb_true_r.
    + split_and!; [done| |done]. f_equal. apply bool_decide_ext. rewrite elem_of_cons. naive_solver.
Qed.

Lemma ComputeDependencies_ok (t : GraphTask T) : grad_fn2exec_info_ t = ∅ →
  (∀ r, r ∈ roots_ t → is_Some (nodes h !! r)) →
  ∃ e R, ComputeDependencies h t = Ret (set_info t e) ∧ counted (roots_ t) R e.
Proof.
  intros He Hr. unfold ComputeDependencies. rewrite He. pose proof (mark_roots (roots_ t) [] ∅) as HM.
  destruct (foldl mark_root ([], ∅) (roots_ t)) as [stack e]. destruct HM as (H1 & H2 & H3).
  assert (H1' : ∀ q, q ∈ stack ↔ q ∈ roots_ t) by (intros q; rewrite H1; split; [intros [?%elem_of_nil|]; done|by right]).
  destruct (dependencies_loop_ok (length (roots_ t) + edge_count h) (roots_ t) [] stack e ∅) as (e' & R & E & HC).
  - intros q. split; [by intros ?%not_elem_of_empty|by intros ?%elem_of_nil].
  - split.
    + constructor.
    + intros q Hq. apply Hr. by apply H1'.
    + intros q Hq. exists q. split; [by apply H1'|done].
    + intros q Hq. by apply H1'.
    + by intros n q ?%elem_of_nil.
    + intros q. destruct (H3 q) as (-> & _ & _). unfold info_of. by rewrite lookup_empty.
    + intros q Hq. destruct (H3 q) as (_ & -> & _). rewrite bool_decide_eq_true_2 by (by apply H1'). apply orb_true_r.
    + intros q. destruct (H3 q) as (_ & _ & ->). unfold info_of. by rewrite lookup_empty.
  - cbn in H2. rewrite H2. cbn. lia.
  - exists e', R. by rewrite E.
Qed.
End Deps.

Lemma dependencies_loop_nodes {T : Type} (h k : heap T) : nodes h = nodes k → ∀ fuel seen stack e,
  dependencies_loop fuel h seen stack e = dependencies_loop fuel k seen stack e.
Proof.
  intros E. induction fuel as [|fuel IH]; intros seen [|n stack] e; try done. cbn [dependencies_loop]. rewrite E, IH.
  case_match; [done|]. destruct (deref (nodes k) n); [|done|done]. cbn [obind]. destruct (foldl _ _ _). apply IH.
Qed.

(** Only the nodes matter. *)
Lemma ComputeDependencies_nodes {T : Type} (h k : heap T) (t : GraphTask T) :
  nodes h = nodes k → ComputeDependencies h t = ComputeDependencies k t.
Proof.
  intros E. unfold ComputeDependencies, edge_count. rewrite E. destruct (foldl _ _ _). by rewrite (dependencies_loop_nodes h k E).
Qed.
