(* ===== verification/AutogradSpec.v ===== *)
(** * The invariant of a backward pass

    What a node sends and what happens to the metas of its outputs; the invariant
    [running] of the queue, for passes with and without pruned nodes, and its
    preservation by every round. *)
From stdpp Require Import relations.
From S2P Require Import Prelude Shape Digraph Autograd AutogradDeps.

(** ** Updating many metas *)

Lemma upd_metas {T : Type} (f : Z → AutogradMeta T → outcome (AutogradMeta T)) (F : Z → AutogradMeta T → AutogradMeta T)
    (l : list Z) (h : heap T) :
  NoDup l → (∀ m, m ∈ l → ∃ a, metas h !! m = Some a ∧ f m a = Ret (F m a)) →
  ∃ h', ofold (λ h m, upd_meta (f m) h m) l h = Ret h' ∧ nodes h' = nodes h ∧ tensors h' = tensors h ∧
    (∀ m, m ∈ l → metas h' !! m = F m <$> metas h !! m) ∧ ∀ m, m ∉ l → metas h' !! m = metas h !! m.
Proof.
  intros Hnd. revert h. induction Hnd as [|x l Hx _ IH]; intros h Hf.
  { exists h. split_and!; try done. by intros m ?%elem_of_nil. }
  destruct (Hf x (list_elem_of_here _ _)) as (a & Ha & Ef). cbn [ofold]. unfold upd_meta at 1, deref. rewrite Ha. cbn [obind].
  rewrite Ef. cbn [obind]. set (h1 := set_metas h (<[x := F x a]> (metas h))).
  destruct (IH h1) as (h' & E & En & Et & Hin & Hout).
  { intros m Hm. destruct (Hf m (list_elem_of_further _ _ _ Hm)) as (b & Hb & Eb). exists b. split; [|done].
    cbn. rewrite lookup_insert_ne; [done|]. by intros ->. }
  exists h'. split_and!; [done|by rewrite En|by rewrite Et| |].
  - intros m Hm. destruct (decide (m ∈ l)) as [Hml|Hml].
    + rewrite Hin by done. cbn. rewrite lookup_insert_ne; [done|]. by intros ->.
    + apply elem_of_cons in Hm as [->|]; [|done]. rewrite Hout by done. cbn. by rewrite lookup_insert_eq, Ha.
  - intros m Hm. apply not_elem_of_cons in Hm as [Hne Hm]. rewrite Hout by done. cbn. by rewrite lookup_insert_ne.
Qed.

Section Spec.
Context {T : Type} (Add : T → T → T) (sync_grad : Z → T → option T) (h0 : heap T) (create_graph save : bool).

(** ** What a node sends *)

Definition hooked (a : AutogradMeta T) (t : T) : T := foldl run_hook t (hooks_ a).

(** The gradients of the outputs that the node's function is given. *)
Definition out_grad (G : Z → option T) (m : Z) (z : T) : option T :=
  match metas h0 !! m with
  | None => None
  | Some a => match G m with Some t => Some (hooked a t) | None => if requires_grad_ a then Some z else None end
  end.
Definition out_vec (G : Z → option T) (nd : FunctionNode T) : list (option T) :=
  zip_with (out_grad G) (output_meta_data_ nd) (output_zeros_ nd).

(** The function and the hooks of the node. *)
Definition node_grads (nd : FunctionNode T) (outs : list (option T)) : outcome (list (option T)) :=
  match backward_fn_ nd with
  | None => Fail CheckFailedError
  | Some f =>
      let* ins := body f outs (replicate (length (input_meta_data_ nd)) None) create_graph in
      ofold (run_node_hook outs) (node_hooks_ nd) ins
  end.

Definition sent (ins : list (option T)) (ms : list (option Z)) (m : Z) : list T :=
  omap (λ gm, if decide (gm.2 = Some m) then gm.1 else None) (zip ins ms).

(** What node [n] adds to the gradient of the tensor with meta [m]. *)
Definition contrib (G : Z → option T) (m n : Z) : list T :=
  match nodes h0 !! n with
  | None => []
  | Some nd => match node_grads nd (out_vec G nd) with Ret ins => sent ins (input_meta_data_ nd) m | _ => [] end
  end.

Definition push (acc : option T) (g : T) : option T := match acc with None => Some g | Some t => Some (Add g t) end.
(** The sum of a list of gradients, in the order they arrive. *)
Definition accumulate (l : list T) : option T := foldl push None l.

Lemma accumulate_none (l : list T) : accumulate l = None ↔ l = [].
Proof.
  destruct l as [|x l]; [done|]. split; [|done]. unfold accumulate. cbn [foldl push].
  assert (H : ∀ t, foldl push (Some t) l ≠ None) by (induction l; intros t; cbn; [done|]; apply IHl). by intros E%H.
Qed.

(** What happens to the meta of an output once its node has run. *)
Definition settle (m : Z) (a : AutogradMeta T) (g : option T) : AutogradMeta T :=
  match g with
  | None => set_current a None
  | Some t =>
      let bump acc := foldl run_hook (match acc with Some x => Add x (hooked a t) | None => hooked a t end)
                        (post_grad_accumulation_hooks_ a) in
      let acc1 := if save && (is_leaf_ a && requires_grad_ a)
                  then let x := bump (acc_grad_ a) in Some (default x (sync_grad m x)) else acc_grad_ a in
      let acc2 := if retain_grad_ a then Some (bump acc1) else acc1 in
      set_acc (set_current a None) acc2
  end.

(** Metas whose gradient the pass stores. *)
Definition wanted (a : AutogradMeta T) : bool := save && (is_leaf_ a && requires_grad_ a) || retain_grad_ a.

Definition acc_saved (m : Z) (a : AutogradMeta T) : outcome (AutogradMeta T) := if save then acc_leaf Add sync_grad m a else Ret a.
Definition leafF (m : Z) (a : AutogradMeta T) : AutogradMeta T := match acc_saved m a with Ret a => a | _ => a end.
Definition retainF (m : Z) (a : AutogradMeta T) : AutogradMeta T := match acc_retain Add a with Ret a => a | _ => a end.

Lemma settle_steps (m : Z) (a : AutogradMeta T) (g : option T) : (wanted a = true → g ≠ None) →
  let a1 := set_current a g in
  acc_saved m a1 = Ret (leafF m a1) ∧ acc_retain Add (leafF m a1) = Ret (retainF m (leafF m a1)) ∧
  Release (retainF m (leafF m a1)) = settle m a g.
Proof.
  intros Hw. cbv zeta. unfold wanted in Hw. unfold leafF, retainF, acc_saved, acc_leaf, acc_retain, CopyOrAccGrad, current_grad_value, GetAccTensor.
  cbn [is_leaf_ requires_grad_ set_current acc_tensor_]. destruct g as [t|].
  - cbn [obind]. unfold settle. destruct save; cbn [andb]; [destruct (is_leaf_ a && requires_grad_ a) eqn:El|].
    + cbn [acc_grad_ set_acc set_current hooks_ post_grad_accumulation_hooks_]. fold (hooked a t). cbv zeta.
      set (x := foldl run_hook _ (post_grad_accumulation_hooks_ a)).
      destruct (sync_grad m x) as [y|]; cbn [retain_grad_ set_acc set_current acc_tensor_ default from_option id];
        destruct (retain_grad_ a) eqn:Er; done.
    + cbn [retain_grad_ set_current acc_tensor_]. destruct (retain_grad_ a) eqn:Er; done.
    + cbn [retain_grad_ set_current acc_tensor_]. destruct (retain_grad_ a) eqn:Er; done.
  - unfold settle. destruct save; cbn [andb] in *; [destruct (is_leaf_ a && requires_grad_ a); [by destruct Hw|]|]; cbn [retain_grad_ set_current orb] in *;
      (destruct (retain_grad_ a); [by destruct Hw|]); done.
Qed.

(** ** Running one node *)

Lemma sent_snoc (ins : list (option T)) (ms : list (option Z)) (g : option T) (mo : option Z) (m : Z) : length ins = length ms →
  sent (ins ++ [g]) (ms ++ [mo]) m = sent ins ms m ++ sent [g] [mo] m.
Proof. intros Hl. unfold sent. rewrite zip_with_app by done. by rewrite omap_app. Qed.

Definition grads_fit (ins : list (option T)) (ms : list (option Z)) : Prop := Forall2 (λ g m, is_Some g ↔ is_Some m) ins ms.

(** The gradients of the inputs reach their metas. *)
Lemma push_inputs (nd : FunctionNode T) (ins : list (option T)) (k : nat) (h : heap T) :
  grads_fit ins (input_meta_data_ nd) → (∀ m, Some m ∈ input_meta_data_ nd → is_Some (metas h !! m)) →
  (k ≤ length (input_meta_data_ nd))%nat →
  ∃ h', ofold (push_input_grad Add nd ins) (seq 0 k) h = Ret h' ∧ nodes h' = nodes h ∧ tensors h' = tensors h ∧
    ∀ m, metas h' !! m = (λ a, set_current a (foldl push (acc_tensor_ a) (sent (take k ins) (take k (input_meta_data_ nd)) m))) <$> metas h !! m.
Proof.
  intros Hfit Hex. pose proof (Forall2_length _ _ _ Hfit) as Hlen. induction k as [|k IH]; intros Hk.
  { exists h. split_and!; try done. intros m. cbn. destruct (metas h !! m) as [[]|]; done. }
  destruct (IH ltac:(lia)) as (h1 & E & En & Et & Hm). rewrite seq_S, ofold_app, E. cbn [obind ofold plus].
  destruct (lookup_lt_is_Some_2 (input_meta_data_ nd) k) as [mo Hmo]; [lia|].
  destruct (lookup_lt_is_Some_2 ins k) as [g Hg]; [lia|].
  pose proof (Forall2_lookup_lr _ _ _ _ _ _ Hfit Hg Hmo) as Hgm.
  assert (Hs : ∀ m, sent (take (S k) ins) (take (S k) (input_meta_data_ nd)) m =
    sent (take k ins) (take k (input_meta_data_ nd)) m ++ sent [g] [mo] m).
  { intros m. rewrite (take_S_r _ _ _ Hg), (take_S_r _ _ _ Hmo). apply sent_snoc. rewrite !length_take. lia. }
  unfold push_input_grad at 1, VectorAt. rewrite Hg, Hmo. cbn [obind]. destruct g as [g|], mo as [x|];
    [|by destruct (proj1 Hgm (mk_is_Some _ _ eq_refl))|by destruct (proj2 Hgm (mk_is_Some _ _ eq_refl))|].
  - assert (Hx : is_Some (metas h !! x)) by (apply Hex; by eapply list_elem_of_lookup_2).
    destruct Hx as [a Ha]. unfold upd_meta, deref. rewrite Hm, Ha. cbn [fmap option_fmap option_map obind].
    eexists. split; [done|]. cbn [nodes tensors metas set_metas]. split_and!; [done|done|]. intros m. rewrite Hs.
    destruct (decide (x = m)) as [->|Hne].
    + rewrite lookup_insert_eq, Ha. cbn [fmap option_fmap option_map]. f_equal. rewrite foldl_app.
      unfold sent at 2. cbn. rewrite decide_True by done. cbn. unfold PushPartialTensor, push.
      cbn [acc_tensor_ set_current]. by destruct (foldl _ (acc_tensor_ a) _).
    + rewrite lookup_insert_ne, Hm by done. unfold sent at 3. cbn. rewrite decide_False by congruence. by rewrite app_nil_r.
  - exists h1. split_and!; try done. intros m. rewrite Hm, Hs. unfold sent at 3. cbn. rewrite decide_False by done. by rewrite app_nil_r.
Qed.

(** The state of the metas: [G] holds the gradients that have arrived, [X] the nodes
    that have run, [K] the nodes that were skipped. *)
Definition outs_of (n : Z) : list Z := match nodes h0 !! n with Some nd => output_meta_data_ nd | None => [] end.
Definition owned (X : list Z) (m : Z) : bool := existsb (λ n, bool_decide (m ∈ outs_of n)) X.
Definition meta_in (X K : list Z) (G : Z → option T) (m : Z) (a : AutogradMeta T) : AutogradMeta T :=
  if owned X m then settle m a (G m) else if owned K m then set_current a None else set_current a (G m).
Definition metas_in (X K : list Z) (G : Z → option T) (h : heap T) : Prop :=
  ∀ m, metas h !! m = meta_in X K G m <$> metas h0 !! m.

Lemma owned_elem (X : list Z) (m : Z) : owned X m = true ↔ ∃ n, n ∈ X ∧ m ∈ outs_of n.
Proof.
  unfold owned. rewrite existsb_exists. split; intros (n & Hn & Hm); exists n.
  - rewrite bool_decide_eq_true in Hm. split; [by apply list_elem_of_In|done].
  - split; [by apply list_elem_of_In|by apply bool_decide_eq_true].
Qed.

Lemma not_owned (X : list Z) (m : Z) : owned X m = false ↔ ∀ n, n ∈ X → m ∉ outs_of n.
Proof.
  rewrite <- not_true_iff_false, owned_elem. split; [intros H n Hn Hm; apply H; by exists n|]. intros H (n & Hn & Hm). by apply (H n).
Qed.

Lemma owned_app (X Y : list Z) (m : Z) : owned (X ++ Y) m = owned X m || owned Y m.
Proof. unfold owned. by rewrite existsb_app. Qed.

Lemma meta_in_fresh (X K : list Z) (G : Z → option T) (m : Z) (a : AutogradMeta T) :
  owned (X ++ K) m = false → meta_in X K G m a = set_current a (G m).
Proof. rewrite owned_app. intros [H1 H2]%orb_false_iff. unfold meta_in. by rewrite H1, H2. Qed.

(** A well formed graph: a node points to earlier nodes, the metas of its inputs are
    outputs of the nodes it points to, and a meta belongs to one node. *)
Record graph_wf : Prop := mkWf {
  w_next : ∀ n nd, nodes h0 !! n = Some nd →
    Forall2 (λ m q, q < n ∧ m ∈ outs_of q) (omap id (input_meta_data_ nd)) (next_functions_ nd);
  w_outs : ∀ n, NoDup (outs_of n) ∧ ∀ m, m ∈ outs_of n → is_Some (metas h0 !! m);
  w_zeros : ∀ n nd, nodes h0 !! n = Some nd → length (output_zeros_ nd) = length (output_meta_data_ nd);
  w_unique : ∀ n k m, m ∈ outs_of n → m ∈ outs_of k → n = k
}.
Context (Hwf : graph_wf).

(** The functions of the nodes return a gradient for each input that needs one. *)
Definition well_behaved : Prop := ∀ n nd G, nodes h0 !! n = Some nd →
  (∃ m, m ∈ output_meta_data_ nd ∧ G m ≠ None) → ∃ ins, node_grads nd (out_vec G nd) = Ret ins ∧ grads_fit ins (input_meta_data_ nd).
Context (Hbody : well_behaved).

Lemma output_grads_ok (X K : list Z) (G : Z → option T) (h : heap T) (n : Z) (nd : FunctionNode T) :
  nodes h0 !! n = Some nd → metas_in X K G h → (∀ m, m ∈ output_meta_data_ nd → owned (X ++ K) m = false) →
  omap_list (output_grad h nd) (seq 0 (length (output_meta_data_ nd))) = Ret (out_vec G nd).
Proof.
  intros En Hm Ho. pose proof (w_zeros Hwf n nd En) as Hz. pose proof (w_outs Hwf n) as [_ Hex]. unfold outs_of in Hex. rewrite En in Hex.
  set (f := λ i, match out_vec G nd !! i with Some g => g | None => None end).
  rewrite (omap_list_Ret _ f).
  - f_equal. apply list_eq. intros i. unfold f. rewrite list_lookup_fmap.
    destruct (decide (i < length (output_meta_data_ nd))%nat) as [Hi|Hi].
    + rewrite lookup_seq_lt by done. cbn. assert (Hs : is_Some (out_vec G nd !! i)).
      { apply lookup_lt_is_Some. unfold out_vec. rewrite length_zip_with. lia. }
      by destruct Hs as [g ->].
    + rewrite lookup_seq_ge by lia. symmetry. apply lookup_ge_None. unfold out_vec. rewrite length_zip_with. lia.
  - apply Forall_forall. intros i Hi. apply elem_of_seq in Hi. unfold f, out_vec. rewrite lookup_zip_with.
    destruct (lookup_lt_is_Some_2 (output_meta_data_ nd) i) as [m Em]; [lia|].
    destruct (lookup_lt_is_Some_2 (output_zeros_ nd) i) as [z Ez]; [lia|].
    assert (Hin : m ∈ output_meta_data_ nd) by (by eapply list_elem_of_lookup_2). destruct (Hex m Hin) as [a Ea].
    unfold output_grad, VectorAt, deref. rewrite Em, Ez. cbn [obind mbind option_bind]. rewrite Hm, Ea.
    cbn [fmap option_fmap option_map]. rewrite meta_in_fresh by by apply Ho. cbn [obind]. unfold out_grad. rewrite Ea.
    unfold Empty, current_grad_value, GetAccTensor. cbn [acc_tensor_ set_current requires_grad_ hooks_]. by destruct (G m), (requires_grad_ a).
Qed.

Lemma ready_ok (X K : list Z) (G : Z → option T) (h : heap T) (n : Z) :
  metas_in X K G h → (∀ m, m ∈ outs_of n → owned (X ++ K) m = false) → (∃ m, m ∈ outs_of n ∧ G m ≠ None) →
  IsReadyToRun h (outs_of n) = Ret true.
Proof.
  intros Hm Ho (m & Hin & Hg). pose proof (w_outs Hwf n) as [_ Hex]. unfold IsReadyToRun.
  set (f := λ m, match metas h !! m with Some a => a | None => mkMeta true true true None None [] [] end).
  assert (Hf : ∀ m, m ∈ outs_of n → deref (metas h) m = Ret (f m) ∧ acc_tensor_ (f m) = G m).
  { intros k Hk. destruct (Hex k Hk) as [a Ea]. unfold deref, f. rewrite Hm, Ea. cbn [fmap option_fmap option_map]. by rewrite meta_in_fresh by by apply Ho. }
  rewrite (omap_list_Ret _ f) by (apply Forall_forall; intros k Hk; by apply Hf). cbn [obind]. f_equal.
  apply existsb_exists. exists (f m). split; [by apply in_map, list_elem_of_In|].
  unfold Empty. rewrite (proj2 (Hf m Hin)). by destruct (G m).
Qed.

Lemma sent_nil (ins : list (option T)) (ms : list (option Z)) (m : Z) : Some m ∉ ms → sent ins ms m = [].
Proof.
  unfold sent. revert ms. induction ins as [|g ins IH]; intros [|mo ms] Hm; try done. cbn.
  apply not_elem_of_cons in Hm as [Hne Hm]. rewrite decide_False by (cbn; congruence). by apply IH.
Qed.

Lemma sent_some (ins : list (option T)) (ms : list (option Z)) (m : Z) : grads_fit ins ms → Some m ∈ ms → sent ins ms m ≠ [].
Proof.
  unfold sent. induction 1 as [|g mo ins ms Hgm _ IH]; [by intros ?%elem_of_nil|]. cbn. intros [<-|Hm]%elem_of_cons.
  - rewrite decide_True by done. cbn. destruct g as [g|]; [done|]. by destruct (proj2 Hgm (mk_is_Some _ _ eq_refl)).
  - case_decide; [|by apply IH]. destruct g; [done|by apply IH].
Qed.

(** The gradients after the node [nd] has sent its own. *)
Definition after (G : Z → option T) (ins : list (option T)) (nd : FunctionNode T) (m : Z) : option T :=
  foldl push (G m) (sent ins (input_meta_data_ nd) m).

Lemma settle_idle (m : Z) (a : AutogradMeta T) (g : option T) : acc_tensor_ (settle m a g) = None.
Proof. by destruct g. Qed.

Lemma set_current_same (a : AutogradMeta T) : set_current a (acc_tensor_ a) = a.
Proof. by destruct a. Qed.

Lemma meta_in_idle (X K : list Z) (G : Z → option T) (m : Z) (a : AutogradMeta T) :
  owned (X ++ K) m = true → acc_tensor_ (meta_in X K G m a) = None.
Proof. rewrite owned_app. unfold meta_in. destruct (owned X m); [intros _; apply settle_idle|]. cbn. by intros ->. Qed.

Lemma Apply_ok (X K : list Z) (G : Z → option T) (h : heap T) (n : Z) (nd : FunctionNode T) (ins : list (option T)) :
  nodes h0 !! n = Some nd → nodes h !! n = Some nd → metas_in X K G h → (∀ m, m ∈ outs_of n → owned (X ++ K) m = false) →
  (∃ m, m ∈ outs_of n ∧ G m ≠ None) → node_grads nd (out_vec G nd) = Ret ins → grads_fit ins (input_meta_data_ nd) →
  (∀ m, Some m ∈ input_meta_data_ nd → owned (X ++ K) m = false ∧ is_Some (metas h0 !! m)) →
  ∃ h1, node_Apply Add create_graph h n = Ret (true, h1) ∧ nodes h1 = nodes h ∧ tensors h1 = tensors h ∧ metas_in X K (after G ins nd) h1.
Proof.
  intros E0 En Hm Ho Hready Hins Hfit Hin. unfold node_Apply, deref at 1. rewrite En. cbn [obind].
  pose proof (ready_ok X K G h n Hm Ho Hready) as Hr. unfold outs_of in Hr, Ho. rewrite E0 in Hr, Ho. unfold node_grads in Hins.
  destruct (backward_fn_ nd) as [f|] eqn:Ef; [|done]. rewrite Hr. cbn [obind negb].
  rewrite (output_grads_ok X K G h n nd E0 Hm Ho). cbn [obind]. destruct (body f _ _ _) as [g| |]; [|done|done]. cbn [obind] in *. rewrite Hins.
  cbn [obind]. destruct (push_inputs nd ins (length (input_meta_data_ nd)) h Hfit) as (h1 & E1 & En1 & Et1 & Hm1); [|done|].
  { intros m Hmin. rewrite Hm. destruct (Hin m Hmin) as [_ [a ->]]. by eexists. }
  rewrite E1. cbn [obind]. exists h1. split_and!; try done. intros m. rewrite Hm1, Hm.
  rewrite (take_ge (input_meta_data_ nd)), (take_ge ins) by (rewrite ?(Forall2_length _ _ _ Hfit); lia).
  rewrite <- option_fmap_compose. apply option_fmap_ext. intros a. unfold compose. destruct (owned (X ++ K) m) eqn:Eo.
  - assert (Hs : sent ins (input_meta_data_ nd) m = []) by (apply sent_nil; intros Hmin; by rewrite (proj1 (Hin m Hmin)) in Eo).
    rewrite meta_in_idle, Hs by done. cbn [foldl]. rewrite <- (meta_in_idle X K G m a Eo), set_current_same. unfold meta_in, after. by rewrite Hs.
  - by rewrite !meta_in_fresh by done.
Qed.

Lemma settle_ok (X K : list Z) (G : Z → option T) (h : heap T) (n : Z) (nd : FunctionNode T) :
  nodes h0 !! n = Some nd → metas_in X K G h → (∀ m, m ∈ outs_of n → owned (X ++ K) m = false) →
  (∀ m a, m ∈ outs_of n → metas h0 !! m = Some a → wanted a = true → G m ≠ None) →
  ∃ h', (let* h1 := if save then AccGrad4LeafTensor Add sync_grad h nd else Ret h in
         let* h2 := AccGrad4RetainGradTensor Add h1 nd in ReleaseOutTensorArgs h2 nd) = Ret h' ∧
        nodes h' = nodes h ∧ tensors h' = tensors h ∧ metas_in (X ++ [n]) K G h'.
Proof.
  intros E0 Hm Ho Hw. pose proof (w_outs Hwf n) as [Hnd Hex].
  assert (Eo : output_meta_data_ nd = outs_of n) by (unfold outs_of; by rewrite E0).
  assert (Hsteps : ∀ m, m ∈ outs_of n → ∃ a, metas h0 !! m = Some a ∧ metas h !! m = Some (set_current a (G m)) ∧ (wanted a = true → G m ≠ None)).
  { intros m Hmin. destruct (Hex m Hmin) as [a Ea]. exists a. split; [done|]. split; [|intros; by eapply Hw].
    rewrite Hm, Ea. cbn [fmap option_fmap option_map]. by rewrite meta_in_fresh by by apply Ho. }
  destruct (upd_metas acc_saved leafF (outs_of n) h Hnd) as (h1 & E1 & N1 & T1 & I1 & O1).
  { intros m Hmin. destruct (Hsteps m Hmin) as (a & _ & E & Hwa). exists (set_current a (G m)). split; [done|]. by apply settle_steps. }
  assert (E1' : (if save then AccGrad4LeafTensor Add sync_grad h nd else Ret h) = Ret h1).
  { unfold AccGrad4LeafTensor. rewrite Eo. unfold acc_saved in E1. destruct save; [done|]. rewrite <- E1. clear -Hsteps.
    revert h Hsteps. induction (outs_of n) as [|m l IH]; intros h Hsteps; [done|]. cbn [ofold]. unfold upd_meta at 1, deref.
    destruct (Hsteps m (list_elem_of_here _ _)) as (a & _ & E & _). rewrite E. cbn [obind]. rewrite insert_id by done.
    replace (set_metas h (metas h)) with h by (by destruct h). apply IH. intros k Hk. apply Hsteps. by right. }
  rewrite E1'. cbn [obind]. unfold AccGrad4RetainGradTensor, ReleaseOutTensorArgs. rewrite Eo.
  destruct (upd_metas (λ _, acc_retain Add) retainF (outs_of n) h1 Hnd) as (h2 & E2 & N2 & T2 & I2 & O2).
  { intros m Hmin. destruct (Hsteps m Hmin) as (a & _ & E & Hwa). rewrite I1, E by done. eexists. split; [done|]. by apply settle_steps. }
  cbv beta in E2. change (ofold (λ h m, upd_meta (acc_retain Add) h m)) with (ofold (upd_meta (acc_retain Add))) in E2. rewrite E2. cbn [obind].
  destruct (upd_metas (λ _ a, Ret (Release a)) (λ _, Release) (outs_of n) h2 Hnd) as (h3 & E3 & N3 & T3 & I3 & O3).
  { intros m Hmin. destruct (Hsteps m Hmin) as (a & _ & E & Hwa). rewrite I2, I1, E by done. by eexists. }
  exists h3. split; [exact E3|]. split_and!; [congruence|congruence|]. intros m. destruct (decide (m ∈ outs_of n)) as [Hmin|Hmin].
  - destruct (Hsteps m Hmin) as (a & Ea & E & Hwa). rewrite I3, I2, I1, E, Ea by done. cbn [fmap option_fmap option_map]. f_equal.
    unfold meta_in. rewrite (proj2 (owned_elem _ _)); [by apply settle_steps|]. exists n. split; [|done]. apply elem_of_app. right. left.
  - rewrite O3, O2, O1, Hm by done. apply option_fmap_ext. intros a. unfold meta_in. rewrite owned_app, (proj2 (not_owned [n] m)), orb_false_r; [done|].
    by intros k ->%list_elem_of_singleton.
Qed.

(** A node that is skipped loses what it received. *)
Lemma skip_ok (X K : list Z) (G : Z → option T) (h : heap T) (n : Z) (nd : FunctionNode T) :
  nodes h0 !! n = Some nd → metas_in X K G h → (∀ m, m ∈ outs_of n → owned X m = false) →
  ∃ h', ReleaseOutTensorArgs h nd = Ret h' ∧ nodes h' = nodes h ∧ tensors h' = tensors h ∧ metas_in X (K ++ [n]) G h'.
Proof.
  intros E0 Hm Ho. pose proof (w_outs Hwf n) as [Hnd Hex].
  assert (Eo : output_meta_data_ nd = outs_of n) by (unfold outs_of; by rewrite E0). unfold ReleaseOutTensorArgs. rewrite Eo.
  destruct (upd_metas (λ _ a, Ret (Release a)) (λ _, Release) (outs_of n) h Hnd) as (h3 & E3 & N3 & T3 & I3 & O3).
  { intros m Hmin. destruct (Hex m Hmin) as [a Ea]. rewrite Hm, Ea. by eexists. }
  exists h3. split; [exact E3|]. split_and!; [done|done|]. intros m. destruct (decide (m ∈ outs_of n)) as [Hmin|Hmin].
  - rewrite I3, Hm by done. rewrite <- option_fmap_compose. apply option_fmap_ext. intros a. unfold compose, meta_in. rewrite (Ho m Hmin).
    rewrite (proj2 (owned_elem (K ++ [n]) m)); [|exists n; split; [apply elem_of_app; right; left|done]]. by destruct (owned K m).
  - rewrite O3, Hm by done. apply option_fmap_ext. intros a. unfold meta_in. rewrite (owned_app K), (proj2 (not_owned [n] m)), orb_false_r; [done|].
    by intros k ->%list_elem_of_singleton.
Qed.

(** ** A pass *)

Context (outputs : list Tensor) (out_grads : list T) (N P : list Z) (retain : bool).
(** The gradients to capture: outputs of a node and the positions they are stored at. *)
Context (caps : Z → list (Z * Z)) (captured0 : option (list (option T))).

(** The gradients that the caller gives for the meta [m]. *)
Definition init (m : Z) : list T := omap (λ og, if decide (autograd_meta_ og.1 = m) then Some og.2 else None) (zip outputs out_grads).

Definition released (nd : FunctionNode T) : FunctionNode T :=
  match backward_fn_ nd with
  | Some f => if status f then mkNode (next_functions_ nd) (input_meta_data_ nd) (output_meta_data_ nd) (output_zeros_ nd) None (node_hooks_ nd) else nd
  | None => nd
  end.
Definition node_in (X : list Z) (n : Z) (nd : FunctionNode T) : FunctionNode T :=
  if bool_decide (n ∈ X) && negb retain then released nd else nd.

(** A tensor that receives a gradient. *)
Definition hit (m : Z) : Prop :=
  m ∈ map autograd_meta_ outputs ∨ ∃ p nd, p ∈ N ∧ nodes h0 !! p = Some nd ∧ Some m ∈ input_meta_data_ nd.

(** What is captured of node [n]. *)
Definition cap_value (G : Z → option T) (n : Z) (io : Z * Z) : option T :=
  match outs_of n !! Z.to_nat io.1 with
  | Some m => match metas h0 !! m with Some a => hooked a <$> G m | None => None end
  | None => None
  end.
Definition cap_node (G : Z → option T) (c : option (list (option T))) (n : Z) : option (list (option T)) :=
  foldl (λ c io, <[Z.to_nat io.2 := cap_value G n io]> <$> c) c (caps n).
Definition captured_in (X : list Z) (G : Z → option T) : option (list (option T)) := foldl (cap_node G) captured0 X.

(** The nodes to run are [N]: [X] have run in this order, [U] have not.  The nodes [P]
    are pruned: [K] were taken from the queue, [V] were not. *)
Record running (X U K V Q : list Z) (t : GraphTask T) (h : heap T) (G : Z → option T) : Prop := mkRunning {
  r_split : X ++ U ≡ₚ N;
  r_pruned : K ++ V ≡ₚ P;
  r_nodes : ∀ n, nodes h !! n = node_in X n <$> nodes h0 !! n;
  r_tensors : tensors h = tensors h0;
  r_metas : metas_in X K G h;
  r_sums : ∀ m, G m = accumulate (init m ++ (X ≫= contrib G m));
  r_done : ∀ n, n ∈ X → ∃ nd ins, nodes h0 !! n = Some nd ∧ node_grads nd (out_vec G nd) = Ret ins ∧ grads_fit ins (input_meta_data_ nd);
  r_past : ∀ n, n ∈ X ++ K → into h0 (U ++ P) n = 0%nat;
  r_queue : NoDup Q ∧ ∀ q, q ∈ Q ↔ q ∈ U ++ V ∧ into h0 (U ++ P) q = 0%nat;
  r_deps : ∀ q, dependencies (info_of (grad_fn2exec_info_ t) q) = Z.of_nat (into h0 (U ++ P) q);
  r_need : ∀ q, q ∈ N ++ P → need_execute (info_of (grad_fn2exec_info_ t) q) = bool_decide (q ∈ N);
  r_capture : ∀ q, q ∈ N → capture_indices (info_of (grad_fn2exec_info_ t) q) = match caps q with [] => None | l => Some l end;
  r_captured : captured_grads_ t = captured_in X G;
  r_flags : create_graph_ t = create_graph ∧ retain_graph_ t = retain
}.

Context (HR : NoDup (N ++ P)) (Hclosed : ∀ n q, n ∈ N → q ∈ next_of h0 n → q ∈ N ++ P) (Hexist : ∀ n, n ∈ N ++ P → is_Some (nodes h0 !! n)).
Context (Hneeded : ∀ q, q ∈ N → into h0 P q = 0%nat).
Context (Hroots : ∀ n, n ∈ N → ∃ m, m ∈ outs_of n ∧ hit m).
Context (Hwanted : ∀ n m a, n ∈ N → m ∈ outs_of n → metas h0 !! m = Some a → wanted a = true → hit m).
Context (Hcaps : ∀ n io, n ∈ N → io ∈ caps n → ∃ m c, outs_of n !! Z.to_nat io.1 = Some m ∧ hit m ∧ captured0 = Some c ∧ (Z.to_nat io.2 < length c)%nat).
Context (Hlen : (length outputs ≤ length out_grads)%nat) (Hsmall : Z.of_nat (edge_count h0) < 2 ^ 31).

(** The input metas of a node belong to the nodes it points to. *)
Lemma input_owner (n m : Z) (nd : FunctionNode T) : nodes h0 !! n = Some nd → Some m ∈ input_meta_data_ nd →
  ∃ q, q ∈ next_of h0 n ∧ q < n ∧ m ∈ outs_of q.
Proof.
  intros En Hm. pose proof (w_next Hwf n nd En) as HF. assert (Hm' : m ∈ omap id (input_meta_data_ nd)) by (apply list_elem_of_omap; by exists (Some m)).
  apply list_elem_of_lookup in Hm' as [i Hi]. destruct (Forall2_lookup_l _ _ _ _ _ HF Hi) as (q & Hq & Hlt & Ho).
  exists q. split_and!; try done. unfold next_of. rewrite En. by eapply list_elem_of_lookup_2.
Qed.

Lemma init_hit (m : Z) : m ∈ map autograd_meta_ outputs → init m ≠ [].
Proof.
  unfold init. clear -Hlen. revert out_grads Hlen. induction outputs as [|o os IH]; intros [|g gs] Hl Hm; cbn in *; try lia; [by apply elem_of_nil in Hm..|].
  apply elem_of_cons in Hm as [->|Hm]; [by rewrite decide_True|]. case_decide; [done|]. apply IH; [lia|done].
Qed.

Lemma hit_arrived (X U K V Q : list Z) (t : GraphTask T) (h : heap T) (G : Z → option T) (n m : Z) :
  running X U K V Q t h G → into h0 (U ++ P) n = 0%nat → m ∈ outs_of n → hit m → G m ≠ None.
Proof.
  intros HI Hn Hm Hhit. rewrite (r_sums _ _ _ _ _ _ _ _ HI), accumulate_none. intros [Hi Hx]%app_nil.
  destruct Hhit as [Hr|(p & pd & Hp & Ep & Hpm)]; [by apply (init_hit m)|].
  destruct (input_owner p m pd Ep Hpm) as (q & Hq & _ & Hoq). rewrite (w_unique Hwf q n m Hoq Hm) in Hq.
  assert (HpX : p ∈ X).
  { rewrite <- (r_split _ _ _ _ _ _ _ _ HI) in Hp. apply elem_of_app in Hp as [|Hp]; [done|]. rewrite into_app in Hn.
    assert (0 < into h0 U n)%nat by (apply into_elem; by exists p). lia. }
  destruct (r_done _ _ _ _ _ _ _ _ HI p HpX) as (pd' & ins & Ep' & Hg & Hfit). rewrite Ep in Ep'. injection Ep' as <-.
  apply (sent_some ins _ m Hfit Hpm). destruct (sent ins (input_meta_data_ pd) m) as [|x l] eqn:Es; [done|]. exfalso.
  apply (not_elem_of_nil (A := T) x). rewrite <- Hx. apply list_elem_of_bind. exists p. split; [|done]. unfold contrib. rewrite Ep, Hg, Es. left.
Qed.

Lemma out_vec_agree (G G' : Z → option T) (nd : FunctionNode T) :
  (∀ m, m ∈ output_meta_data_ nd → G' m = G m) → out_vec G' nd = out_vec G nd.
Proof.
  unfold out_vec. revert G G'. generalize (output_zeros_ nd). induction (output_meta_data_ nd) as [|m ms IH]; intros [|z zs] G G' HG; try done.
  cbn. f_equal; [unfold out_grad; by rewrite (HG m (list_elem_of_here _ _))|]. apply IH. intros k Hk. apply HG. by right.
Qed.

(** A node with no edges left from nodes that have not run. *)
Lemma runnable (X U K V Q : list Z) (t : GraphTask T) (h : heap T) (G : Z → option T) (n : Z) :
  running X U K V Q t h G → n ∈ U → into h0 (U ++ P) n = 0%nat →
  n ∉ X ++ K ∧ (∀ m, m ∈ outs_of n → owned (X ++ K) m = false) ∧
  ∀ nd m, nodes h0 !! n = Some nd → Some m ∈ input_meta_data_ nd → owned (X ++ K) m = false ∧ m ∉ outs_of n ∧ is_Some (metas h0 !! m).
Proof.
  intros HI Hn Hi. pose proof HR as HR'. rewrite <- (r_split _ _ _ _ _ _ _ _ HI), <- (r_pruned _ _ _ _ _ _ _ _ HI) in HR'.
  assert (HX : n ∉ X ++ K).
  { apply NoDup_app in HR' as (HXU & Hd & _). apply NoDup_app in HXU as (_ & HXU & _). intros [HX|HK]%elem_of_app; [by apply (HXU n)|].
    apply (Hd n); apply elem_of_app; [by right|by left]. }
  split; [done|]. split.
  - intros m Hm. apply not_owned. intros k Hk Hmk. by rewrite (w_unique Hwf k n m Hmk Hm) in Hk.
  - intros nd m En Hm. destruct (input_owner n m nd En Hm) as (q & Hq & Hlt & Ho). split_and!; [| |by apply (proj2 (w_outs Hwf q))].
    + apply not_owned. intros k Hk Hmk. rewrite (w_unique Hwf k q m Hmk Ho) in Hk.
      pose proof (r_past _ _ _ _ _ _ _ _ HI q Hk) as H0. assert (0 < into h0 (U ++ P) q)%nat; [|lia]. apply into_elem. exists n. split; [apply elem_of_app; by left|done].
    + intros Hmn. rewrite (w_unique Hwf n q m Hmn Ho) in Hlt. lia.
Qed.

Lemma bind_ext_in {A B : Type} (f g : A → list B) (l : list A) : (∀ x, x ∈ l → f x = g x) → l ≫= f = l ≫= g.
Proof.
  induction l as [|x l IH]; intros H; [done|]. cbn. rewrite (H x (list_elem_of_here _ _)). f_equal. apply IH. intros y Hy. apply H. by right.
Qed.

(** A node that runs leaves the gradients of the nodes that ran before alone. *)
Lemma after_old (X U K V Q : list Z) (t : GraphTask T) (h : heap T) (G : Z → option T) (n : Z) (nd : FunctionNode T) (ins : list (option T)) :
  running X U K V Q t h G → n ∈ U → into h0 (U ++ P) n = 0%nat → nodes h0 !! n = Some nd →
  ∀ k m, k ∈ X ++ [n] → m ∈ outs_of k → after G ins nd m = G m.
Proof.
  intros HI Hn Hi En k m Hk Hm. destruct (runnable _ _ _ _ _ _ _ _ _ HI Hn Hi) as (_ & _ & Hin). unfold after. rewrite sent_nil; [done|]. intros Hs.
  destruct (Hin nd m En Hs) as (Ho & Hself & _). apply elem_of_app in Hk as [Hk|Hk]; [|apply list_elem_of_singleton in Hk as ->; done].
  rewrite not_owned in Ho. apply (Ho k); [apply elem_of_app; by left|done].
Qed.

(** The gradients that have arrived, after one more node. *)
Lemma sums_step (X U K V Q : list Z) (t : GraphTask T) (h : heap T) (G : Z → option T) (n : Z) (nd : FunctionNode T) (ins : list (option T)) :
  running X U K V Q t h G → n ∈ U → into h0 (U ++ P) n = 0%nat → nodes h0 !! n = Some nd →
  node_grads nd (out_vec G nd) = Ret ins → grads_fit ins (input_meta_data_ nd) →
  (∀ m, after G ins nd m = accumulate (init m ++ ((X ++ [n]) ≫= contrib (after G ins nd) m))) ∧
  ∀ k, k ∈ X ++ [n] → ∃ kd ins', nodes h0 !! k = Some kd ∧ node_grads kd (out_vec (after G ins nd) kd) = Ret ins' ∧ grads_fit ins' (input_meta_data_ kd).
Proof.
  intros HI Hn Hi En Hg Hfit.
  assert (Hold : ∀ k kd, k ∈ X ++ [n] → nodes h0 !! k = Some kd → out_vec (after G ins nd) kd = out_vec G kd).
  { intros k kd Hk Ek. apply out_vec_agree. intros m Hm. eapply after_old; [exact HI|done|done|done|exact Hk|]. unfold outs_of. by rewrite Ek. }
  split.
  - intros m. rewrite bind_app. cbn [mbind list_bind]. rewrite app_nil_r, app_assoc. unfold accumulate at 1. rewrite foldl_app.
    unfold after at 1. f_equal.
    + rewrite (r_sums _ _ _ _ _ _ _ _ HI). unfold accumulate. f_equal. f_equal. apply bind_ext_in. intros k Hk.
      unfold contrib. destruct (nodes h0 !! k) as [kd|] eqn:Ek; [|done]. rewrite (Hold k kd); [done|apply elem_of_app; by left|done].
    + unfold contrib. rewrite En, (Hold n nd), Hg; [done|apply elem_of_app; right; left|done].
  - intros k Hk. apply elem_of_app in Hk as [Hk|Hk]; [|apply list_elem_of_singleton in Hk as ->].
    + destruct (r_done _ _ _ _ _ _ _ _ HI k Hk) as (kd & ins' & Ek & Hg' & Hf'). exists kd, ins'.
      rewrite (Hold k kd); [done|apply elem_of_app; by left|done].
    + exists nd, ins. rewrite (Hold n nd); [done|apply elem_of_app; right; left|done].
Qed.

Lemma release_ok (X : list Z) (h : heap T) (n : Z) (nd : FunctionNode T) : nodes h0 !! n = Some nd → n ∉ X →
  (∀ k, nodes h !! k = node_in X k <$> nodes h0 !! k) →
  ∃ h', (if retain then Ret h else ReleaseData h n) = Ret h' ∧ metas h' = metas h ∧ tensors h' = tensors h ∧
        ∀ k, nodes h' !! k = node_in (X ++ [n]) k <$> nodes h0 !! k.
Proof.
  intros En HX Hk.
  assert (Hin : ∀ k, k ≠ n → bool_decide (k ∈ X ++ [n]) = bool_decide (k ∈ X)).
  { intros k Hne. apply bool_decide_ext. rewrite elem_of_app, list_elem_of_singleton. tauto. }
  assert (Hnode : nodes h !! n = Some nd) by (rewrite Hk, En; unfold node_in; by rewrite bool_decide_eq_false_2).
  assert (Hnew : bool_decide (n ∈ X ++ [n]) = true) by (apply bool_decide_eq_true, elem_of_app; right; left).
  assert (Hgen : ∀ h', (∀ k, k ≠ n → nodes h' !! k = nodes h !! k) → nodes h' !! n = Some (if retain then nd else released nd) →
    ∀ k, nodes h' !! k = node_in (X ++ [n]) k <$> nodes h0 !! k).
  { intros h' Hne Heq k. destruct (decide (k = n)) as [->|Hkn].
    - rewrite Heq, En. cbn [fmap option_fmap option_map]. f_equal. unfold node_in. rewrite Hnew. by destruct retain.
    - rewrite Hne, Hk by done. unfold node_in. by rewrite Hin. }
  clear Hk. destruct retain.
  { exists h. split_and!; try done. by apply Hgen. }
  unfold ReleaseData, deref. rewrite Hnode. cbn [obind]. unfold released in Hgen. destruct (backward_fn_ nd) as [f|]; [destruct (status f)|].
  - eexists. split; [done|]. split; [done|]. split; [done|]. apply Hgen; cbn [nodes set_nodes].
    + intros k Hne. by rewrite lookup_insert_ne.
    + by rewrite lookup_insert_eq.
  - exists h. split_and!; try done. by apply Hgen.
  - exists h. split_and!; try done. by apply Hgen.
Qed.


Lemma pending_edges (X U K V Q : list Z) (t : GraphTask T) (h : heap T) (G : Z → option T) :
  running X U K V Q t h G → (edge_total h0 (U ++ P) ≤ edge_count h0)%nat.
Proof.
  intros HI. pose proof HR as HR'. rewrite <- (r_split _ _ _ _ _ _ _ _ HI), <- app_assoc in HR'. apply NoDup_app in HR' as (_ & _ & HU).
  apply edge_total_bound; [done|]. intros n Hn. apply Hexist. rewrite <- (r_split _ _ _ _ _ _ _ _ HI). rewrite <- app_assoc. apply elem_of_app. by right.
Qed.

(** The queue after the edges of [n] are released. *)
Lemma requeue (X U U' K V Q : list Z) (t : GraphTask T) (h : heap T) (G : Z → option T) (n : Z) :
  running X U K V (n :: Q) t h G → n ∈ U → U ≡ₚ n :: U' →
  ∀ q, (q ∈ Q ∨ q ∈ next_of h0 n ∧ into h0 (U' ++ P) q = 0%nat) ↔ q ∈ U' ++ V ∧ into h0 (U' ++ P) q = 0%nat.
Proof.
  intros HI HnU HU q. destruct (r_queue _ _ _ _ _ _ _ _ HI) as [HQnd HQ]. apply NoDup_cons in HQnd as [HnQ _].
  assert (Hinto : ∀ q, into h0 (U ++ P) q = (into h0 (U' ++ P) q + occ q (next_of h0 n))%nat).
  { intros k. rewrite !into_app, (into_perm _ _ _ _ HU), into_cons. lia. }
  assert (HUq : q ∈ U ++ V ↔ q = n ∨ q ∈ U' ++ V) by (by rewrite HU, <- app_comm_cons, elem_of_cons).
  assert (HnU' : n ∉ U' ++ V).
  { pose proof HR as HR'. rewrite <- (r_split _ _ _ _ _ _ _ _ HI), <- (r_pruned _ _ _ _ _ _ _ _ HI), HU in HR'. rewrite <- app_assoc in HR'.
    apply NoDup_app in HR' as (_ & _ & HR'). rewrite <- app_comm_cons in HR'. apply NoDup_cons in HR' as [Hn' _].
    intros [|]%elem_of_app; apply Hn'; rewrite !elem_of_app; tauto. }
  pose proof (HQ n) as HQn. specialize (HQ q). rewrite elem_of_cons, Hinto in HQ. pose proof (occ_elem q (next_of h0 n)) as Hocc. split.
  - intros [Hq|[Hq H0]].
    + destruct (proj1 HQ (or_intror Hq)) as [Hq1 Hq2]. split; [|lia]. apply HUq in Hq1 as [->|]; done.
    + split; [|done]. assert (HqR : q ∈ N ++ P).
      { apply (Hclosed n); [|done]. rewrite <- (r_split _ _ _ _ _ _ _ _ HI). apply elem_of_app. by right. }
      assert (Hpast : q ∉ X ++ K) by (intros Hx%(r_past _ _ _ _ _ _ _ _ HI); rewrite Hinto in Hx; apply Hocc in Hq; lia).
      rewrite <- (r_split _ _ _ _ _ _ _ _ HI), <- (r_pruned _ _ _ _ _ _ _ _ HI) in HqR. rewrite elem_of_app, (elem_of_app X U), (elem_of_app K V) in HqR. rewrite elem_of_app in Hpast. rewrite !elem_of_app in HUq.
      assert (HqUV : q ∈ U ∨ q ∈ V) by tauto. rewrite elem_of_app. destruct (proj1 HUq HqUV) as [->|HqUV']; [exfalso|done].
      destruct (proj1 HQn (list_elem_of_here _ _)) as [_ H1].
      rewrite Hinto in H1. apply Hocc in Hq. lia.
  - intros [Hq H0]. destruct (decide (q ∈ next_of h0 n)) as [Hqn|Hqn]; [by right|left]. rewrite Hocc in Hqn.
    destruct (proj2 HQ) as [->|]; [|done|done]. split; [apply HUq; by right|lia].
Qed.

(** *** Capturing *)

Lemma cap_value_agree (G G' : Z → option T) (n : Z) (io : Z * Z) : (∀ m, m ∈ outs_of n → G' m = G m) → cap_value G' n io = cap_value G n io.
Proof.
  intros HG. unfold cap_value. destruct (outs_of n !! Z.to_nat io.1) as [m|] eqn:Em; [|done]. rewrite HG; [done|]. by eapply list_elem_of_lookup_2.
Qed.

Lemma cap_node_agree (G G' : Z → option T) (c : option (list (option T))) (n : Z) : (∀ m, m ∈ outs_of n → G' m = G m) → cap_node G' c n = cap_node G c n.
Proof.
  intros HG. unfold cap_node. revert c. induction (caps n) as [|io l IH]; intros c; [done|]. cbn [foldl]. by rewrite (cap_value_agree G G' n io HG), IH.
Qed.

Lemma captured_agree (X : list Z) (G G' : Z → option T) : (∀ n m, n ∈ X → m ∈ outs_of n → G' m = G m) → captured_in X G' = captured_in X G.
Proof.
  unfold captured_in. generalize captured0. induction X as [|n X IH]; intros c HG; [done|]. cbn [foldl]. rewrite (cap_node_agree G G').
  - apply IH. intros k m Hk. apply HG. by right.
  - intros m. apply HG. left.
Qed.

Lemma cap_fold_length (G : Z → option T) (n : Z) (l : list (Z * Z)) (c : list (option T)) :
  ∃ c', foldl (λ c io, <[Z.to_nat io.2 := cap_value G n io]> <$> c) (Some c) l = Some c' ∧ length c' = length c.
Proof.
  revert c. induction l as [|io l IH]; intros c; [by exists c|]. cbn [foldl fmap option_fmap option_map].
  destruct (IH (<[Z.to_nat io.2 := cap_value G n io]> c)) as (c' & E & Hl). exists c'. split; [done|]. by rewrite Hl, length_insert.
Qed.

Lemma captured_length (X : list Z) (G : Z → option T) (c : list (option T)) : captured0 = Some c →
  ∃ c', captured_in X G = Some c' ∧ length c' = length c.
Proof.
  unfold captured_in. intros E. rewrite E. clear E. revert c. induction X as [|n X IH]; intros c; [by exists c|]. cbn [foldl]. unfold cap_node at 2.
  destruct (cap_fold_length G n (caps n) c) as (c1 & -> & Hl1). destruct (IH c1) as (c' & E & Hl). exists c'. split; [done|congruence].
Qed.

Lemma capture_ok (X K : list Z) (G : Z → option T) (h : heap T) (n : Z) (nd : FunctionNode T) (l : list (Z * Z)) (c : list (option T)) :
  nodes h0 !! n = Some nd → metas_in X K G h → (∀ m, m ∈ outs_of n → owned (X ++ K) m = false) →
  (∀ io, io ∈ l → ∃ m, outs_of n !! Z.to_nat io.1 = Some m ∧ G m ≠ None ∧ (Z.to_nat io.2 < length c)%nat) →
  ∃ c', ofold (capture h nd) l c = Ret c' ∧ foldl (λ c io, <[Z.to_nat io.2 := cap_value G n io]> <$> c) (Some c) l = Some c'.
Proof.
  intros En Hm Ho. revert c. assert (Eouts : output_meta_data_ nd = outs_of n) by (unfold outs_of; by rewrite En).
  induction l as [|io l IH]; intros c Hl; [by exists c|]. cbn [ofold foldl fmap option_fmap option_map].
  destruct (Hl io (list_elem_of_here _ _)) as (m & Em & HG & Hlt). assert (Hin : m ∈ outs_of n) by (by eapply list_elem_of_lookup_2).
  destruct (proj2 (w_outs Hwf n) m Hin) as [a Ea]. unfold capture at 1, VectorAt, deref. rewrite Eouts, Em. cbn [obind]. rewrite Hm, Ea.
  cbn [fmap option_fmap option_map]. rewrite meta_in_fresh by by apply Ho. cbn [obind]. unfold current_grad_value, GetAccTensor.
  cbn [acc_tensor_ set_current hooks_]. destruct (G m) as [g|] eqn:Eg; [|done]. cbn [obind].
  destruct (lookup_lt_is_Some_2 c (Z.to_nat io.2) Hlt) as [x Ex]. rewrite Ex. cbn [obind].
  assert (Ev : cap_value G n io = Some (hooked a g)) by (unfold cap_value; by rewrite Em, Ea, Eg). rewrite Ev. apply IH.
  intros io' Hio. destruct (Hl io' (list_elem_of_further _ _ _ Hio)) as (m' & ? & ? & ?). exists m'. by rewrite length_insert.
Qed.

(** The gradients that the round of node [n] captures. *)
Lemma capture_step (X U K V Q : list Z) (t : GraphTask T) (h h1 : heap T) (G G' : Z → option T) (n : Z) (nd : FunctionNode T) :
  running X U K V Q t h G → n ∈ N → into h0 (U ++ P) n = 0%nat → nodes h0 !! n = Some nd → metas_in X K G' h1 →
  (∀ m, m ∈ outs_of n → owned (X ++ K) m = false) → (∀ k m, k ∈ X ++ [n] → m ∈ outs_of k → G' m = G m) →
  match match caps n with [] => None | l => Some l end with
  | None => Ret (captured_grads_ t)
  | Some l => match captured_grads_ t with None => Fail CheckFailedError | Some c => let* c := ofold (capture h1 nd) l c in Ret (Some c) end
  end = Ret (captured_in (X ++ [n]) G').
Proof.
  intros HI Hn Hi En Hm Ho HG. unfold captured_in. rewrite foldl_app. cbn [foldl]. fold (captured_in X G').
  rewrite (captured_agree X G G') by (intros k m Hk; apply HG, elem_of_app; by left). rewrite (r_captured _ _ _ _ _ _ _ _ HI). unfold cap_node.
  destruct (caps n) as [|io0 l0] eqn:Ec; [done|]. rewrite <- Ec. destruct (Hcaps n io0 Hn) as (m0 & c0 & _ & _ & E0 & _); [rewrite Ec; left|].
  destruct (captured_length X G c0 E0) as (c & -> & Hlc). destruct (capture_ok X K G' h1 n nd (caps n) c En Hm Ho) as (c' & -> & ->); [|done].
  intros io Hio. destruct (Hcaps n io Hn Hio) as (m & c1 & Em & Hhit & E1 & Hlt). exists m. split; [done|]. rewrite E0 in E1. injection E1 as <-.
  assert (Hmn : m ∈ outs_of n) by (by eapply list_elem_of_lookup_2). split; [|lia]. rewrite (HG n m); [|apply elem_of_app; right; left|done].
  by eapply hit_arrived.
Qed.

(** *** One round *)

Lemma run_needed (X U K V Q : list Z) (t : GraphTask T) (h : heap T) (G : Z → option T) (n : Z) :
  running X U K V (n :: Q) t h G → n ∈ N →
  ∃ t' h' Q' G' U', run_node Add sync_grad save t h Q n = Ret (t', h', Q') ∧ running (X ++ [n]) U' K V Q' t' h' G' ∧ U ≡ₚ n :: U'.
Proof.
  intros HI HnN. destruct (r_queue _ _ _ _ _ _ _ _ HI) as [HQnd HQ]. destruct (proj1 (HQ n) (list_elem_of_here _ _)) as [Hn Hi].
  apply NoDup_cons in HQnd as [HnQ HQnd]. assert (HnU : n ∈ U).
  { apply elem_of_app in Hn as [|Hn]; [done|]. pose proof HR as HR'. apply NoDup_app in HR' as (_ & Hd & _). exfalso. apply (Hd n HnN).
    rewrite <- (r_pruned _ _ _ _ _ _ _ _ HI). apply elem_of_app. by right. }
  clear Hn. rename HnU into Hn. destruct (runnable _ _ _ _ _ _ _ _ _ HI Hn Hi) as (HX & Hout & Hin).
  destruct (proj1 (elem_of_Permutation _ _) Hn) as [U' HU]. destruct (Hexist n) as [nd En]; [apply elem_of_app; by left|].
  assert (HnX : n ∉ X) by (intros ?; apply HX, elem_of_app; by left).
  assert (Hnode : nodes h !! n = Some nd) by (rewrite (r_nodes _ _ _ _ _ _ _ _ HI), En; unfold node_in; by rewrite bool_decide_eq_false_2).
  destruct (Hroots n HnN) as (m & Hm & Hhit). pose proof (hit_arrived _ _ _ _ _ _ _ _ n m HI Hi Hm Hhit) as Hgm.
  assert (Eouts : outs_of n = output_meta_data_ nd) by (unfold outs_of; by rewrite En).
  destruct (Hbody n nd G En) as (ins & Hg & Hfit); [exists m; by rewrite <- Eouts|].
  destruct (Apply_ok X K G h n nd ins En Hnode (r_metas _ _ _ _ _ _ _ _ HI) Hout (ex_intro _ m (conj Hm Hgm)) Hg Hfit) as (h1 & E1 & N1 & T1 & M1).
  { intros k Hk. by destruct (Hin nd k En Hk) as (? & _ & ?). }
  destruct (sums_step _ _ _ _ _ _ _ _ n nd ins HI Hn Hi En Hg Hfit) as [Hsum Hdone].
  pose proof (after_old _ _ _ _ _ _ _ _ n nd ins HI Hn Hi En) as Hold. set (G' := after G ins nd) in *.
  pose proof (capture_step X U K V (n :: Q) t h h1 G G' n nd HI HnN Hi En M1 Hout Hold) as Ecap.
  destruct (settle_ok X K G' h1 n nd En M1 Hout) as (h2 & E2 & N2 & T2 & M2).
  { intros k a Hk Ek Hw. rewrite (Hold n k); [|apply elem_of_app; right; left|done]. by eapply hit_arrived, Hwanted. }
  destruct (release_ok X h2 n nd En HnX) as (h3 & E3 & M3 & T3 & N3); [by rewrite N2, N1; apply (r_nodes _ _ _ _ _ _ _ _ HI)|].
  assert (Enext : next_functions_ nd = next_of h0 n) by (unfold next_of; by rewrite En).
  assert (Hinto : ∀ q, into h0 (U ++ P) q = (into h0 (U' ++ P) q + occ q (next_of h0 n))%nat).
  { intros q. rewrite !into_app, (into_perm _ _ _ _ HU), into_cons. lia. }
  pose proof (release_edges (into h0 (U' ++ P)) (next_of h0 n) Q (grad_fn2exec_info_ t)) as HE.
  destruct (foldl release_next (Q, grad_fn2exec_info_ t) (next_of h0 n)) as [Q' e'] eqn:Ee. destruct HE as (HQ'nd & HQ' & Hinfo).
  { intros q. rewrite <- Hinto. split; [apply (r_deps _ _ _ _ _ _ _ _ HI)|]. pose proof (into_le (next_of h0) (U ++ P) q). pose proof (pending_edges _ _ _ _ _ _ _ _ HI). lia. }
  { done. }
  { intros x Hx HxQ. destruct (proj1 (HQ x) (list_elem_of_further _ _ _ HxQ)) as [_ H0]. apply occ_elem in Hx. rewrite Hinto in H0. lia. }
  destruct (r_flags _ _ _ _ _ _ _ _ HI) as [Fc Fr].
  eexists _, h3, Q', G', U'. split; [|split; [|exact HU]].
  - unfold run_node. rewrite (r_need _ _ _ _ _ _ _ _ HI n) by (apply elem_of_app; by left). rewrite bool_decide_eq_true_2 by done.
    rewrite (r_capture _ _ _ _ _ _ _ _ HI) by done. rewrite Fc, Fr. cbn [negb]. unfold deref at 1. rewrite Hnode. cbn [obind].
    rewrite E1. cbn [obind negb]. rewrite Ecap. cbn [obind].
    destruct (if save then AccGrad4LeafTensor Add sync_grad h1 nd else Ret h1) as [x1| |]; [|done|done]. cbn [obind] in *.
    destruct (AccGrad4RetainGradTensor Add x1 nd) as [x2| |]; [|done|done]. cbn [obind] in *. rewrite E2. cbn [obind]. rewrite E3. cbn [obind].
    rewrite Enext, Ee. reflexivity.
  - split; cbn [grad_fn2exec_info_ create_graph_ retain_graph_ captured_grads_].
    + rewrite <- app_assoc. cbn. by rewrite <- HU, (r_split _ _ _ _ _ _ _ _ HI).
    + apply (r_pruned _ _ _ _ _ _ _ _ HI).
    + done.
    + rewrite T3, T2, T1. apply (r_tensors _ _ _ _ _ _ _ _ HI).
    + intros k. rewrite M3. apply M2.
    + done.
    + done.
    + intros k Hk. assert (Hk' : k ∈ X ++ K ∨ k = n) by (rewrite !elem_of_app, list_elem_of_singleton in Hk; rewrite elem_of_app; tauto).
      destruct Hk' as [Hk'| ->]; [pose proof (r_past _ _ _ _ _ _ _ _ HI k Hk') as H0; rewrite Hinto in H0; lia|]. rewrite Hinto in Hi. lia.
    + split; [done|]. intros q. rewrite HQ'. apply (requeue X U U' K V Q t h G n HI Hn HU q).
    + intros q. apply Hinfo.
    + intros q Hq. rewrite (proj1 (proj2 (Hinfo q))). by apply (r_need _ _ _ _ _ _ _ _ HI).
    + intros q Hq. rewrite (proj2 (proj2 (Hinfo q))). by apply (r_capture _ _ _ _ _ _ _ _ HI).
    + done.
    + done.
Qed.

Lemma run_pruned (X U K V Q : list Z) (t : GraphTask T) (h : heap T) (G : Z → option T) (n : Z) :
  running X U K V (n :: Q) t h G → n ∉ N →
  ∃ h' V', run_node Add sync_grad save t h Q n = Ret (t, h', Q) ∧ running X U (K ++ [n]) V' Q t h' G ∧ V ≡ₚ n :: V'.
Proof.
  intros HI HnN. destruct (r_queue _ _ _ _ _ _ _ _ HI) as [HQnd HQ]. destruct (proj1 (HQ n) (list_elem_of_here _ _)) as [Hn Hi].
  apply NoDup_cons in HQnd as [HnQ HQnd].
  assert (HnV : n ∈ V).
  { apply elem_of_app in Hn as [Hn|]; [|done]. destruct HnN. rewrite <- (r_split _ _ _ _ _ _ _ _ HI). apply elem_of_app. by right. }
  destruct (proj1 (elem_of_Permutation _ _) HnV) as [V' HV].
  assert (HnP : n ∈ P) by (rewrite <- (r_pruned _ _ _ _ _ _ _ _ HI); apply elem_of_app; by right).
  destruct (Hexist n) as [nd En]; [apply elem_of_app; by right|].
  assert (HXN : ∀ k, k ∈ X → k ∈ N) by (intros k Hk; rewrite <- (r_split _ _ _ _ _ _ _ _ HI); apply elem_of_app; by left).
  assert (HX : n ∉ X) by (intros ?%HXN; done).
  assert (Hnode : nodes h !! n = Some nd) by (rewrite (r_nodes _ _ _ _ _ _ _ _ HI), En; unfold node_in; by rewrite bool_decide_eq_false_2).
  destruct (skip_ok X K G h n nd En (r_metas _ _ _ _ _ _ _ _ HI)) as (h' & E & N1 & T1 & M1).
  { intros m Hm. apply not_owned. intros k Hk Hmk. by rewrite (w_unique Hwf k n m Hmk Hm) in Hk. }
  exists h', V'. split; [|split; [|done]].
  - unfold run_node. rewrite (r_need _ _ _ _ _ _ _ _ HI n) by (apply elem_of_app; by right). rewrite bool_decide_eq_false_2 by done.
    unfold deref. rewrite Hnode. cbn [obind negb]. by rewrite E.
  - assert (HnV' : n ∉ U ++ V').
    { pose proof HR as HR'. rewrite <- (r_split _ _ _ _ _ _ _ _ HI), <- (r_pruned _ _ _ _ _ _ _ _ HI), HV in HR'.
      apply NoDup_app in HR' as (_ & Hd & HR'). apply NoDup_app in HR' as (_ & _ & HR'). apply NoDup_cons in HR' as [HV' _].
      intros [HU'|]%elem_of_app; [|done]. apply (Hd n); apply elem_of_app; right; [done|left]. }
    split; try apply HI.
    + rewrite <- app_assoc. cbn. by rewrite <- HV, (r_pruned _ _ _ _ _ _ _ _ HI).
    + rewrite N1. apply (r_nodes _ _ _ _ _ _ _ _ HI).
    + rewrite T1. apply (r_tensors _ _ _ _ _ _ _ _ HI).
    + done.
    + intros k Hk. assert (Hk' : k ∈ X ++ K ∨ k = n) by (rewrite !elem_of_app, list_elem_of_singleton in Hk; rewrite elem_of_app; tauto).
      destruct Hk' as [Hk'| ->]; [by apply (r_past _ _ _ _ _ _ _ _ HI)|done].
    + split; [done|]. intros q. specialize (HQ q). rewrite HV in HQ. rewrite elem_of_cons in HQ.
      assert (Hq : q ∈ U ++ n :: V' ↔ q = n ∨ q ∈ U ++ V') by (rewrite !elem_of_app, elem_of_cons; tauto). rewrite Hq in HQ.
      destruct (decide (q = n)) as [->|Hne]; [|tauto]. split; [done|]. by intros [? _].
Qed.

Lemma max_elem (l : list Z) : l ≠ [] → ∃ x, x ∈ l ∧ ∀ y, y ∈ l → y ≤ x.
Proof.
  induction l as [|x l IH]; [done|]. intros _. destruct l as [|y l].
  - exists x. split; [left|]. by intros y ->%list_elem_of_singleton.
  - destruct IH as (z & Hz & Hmax); [done|]. exists (Z.max x z). split.
    + apply elem_of_cons. destruct (Z.max_spec x z) as [[_ ->]|[_ ->]]; [by right|by left].
    + intros w [->|Hw]%elem_of_cons; [lia|]. specialize (Hmax w Hw). lia.
Qed.

Lemma next_lower (n q : Z) : q ∈ next_of h0 n → q < n.
Proof.
  unfold next_of. destruct (nodes h0 !! n) as [nd|] eqn:En; [|by intros ?%elem_of_nil]. intros [i Hi]%list_elem_of_lookup.
  destruct (Forall2_lookup_r _ _ _ _ _ (w_next Hwf n nd En) Hi) as (m & _ & Hlt & _). done.
Qed.

(** As long as nodes are left, one of them can run. *)
Lemma progress (X U K V : list Z) (t : GraphTask T) (h : heap T) (G : Z → option T) : running X U K V [] t h G → U = [].
Proof.
  intros HI. destruct U as [|u U]; [done|]. destruct (max_elem (u :: U)) as (x & Hx & Hmax); [done|]. exfalso.
  apply (not_elem_of_nil x), (r_queue _ _ _ _ _ _ _ _ HI). split; [apply elem_of_app; by left|]. rewrite into_app.
  rewrite (Hneeded x); [|rewrite <- (r_split _ _ _ _ _ _ _ _ HI); apply elem_of_app; by right].
  destruct (into h0 (u :: U) x) as [|k] eqn:E; [done|].
  destruct (proj1 (into_elem (next_of h0) (u :: U) x)) as (n & Hn & Hq); [lia|]. specialize (Hmax n Hn). apply next_lower in Hq. lia.
Qed.

Lemma task_loop_ok (fuel : nat) (X U K V Q : list Z) (t : GraphTask T) (h : heap T) (G : Z → option T) :
  running X U K V Q t h G → (length U + length V ≤ fuel)%nat →
  ∃ t' h' G' X' K' V', task_loop Add sync_grad fuel save t h Q = Ret (t', h') ∧ running X' [] K' V' [] t' h' G'.
Proof.
  revert X U K V Q t h G. induction fuel as [|fuel IH]; intros X U K V Q t h G HI Hf; (destruct Q as [|n Q];
    [pose proof (progress _ _ _ _ _ _ _ HI) as ->; by exists t, h, G, X, K, V|]).
  - destruct U as [|u U], V as [|v V]; try (cbn in Hf; lia). destruct (proj1 (proj2 (r_queue _ _ _ _ _ _ _ _ HI) n) (list_elem_of_here _ _)) as [?%elem_of_nil _]. done.
  - cbn [task_loop]. destruct (decide (n ∈ N)) as [HnN|HnN].
    + destruct (run_needed _ _ _ _ _ _ _ _ _ HI HnN) as (t' & h' & Q' & G' & U' & E & HI' & HU). rewrite E. cbn [obind].
      apply (IH _ _ _ _ _ _ _ _ HI'). apply Permutation_length in HU. cbn in HU. lia.
    + destruct (run_pruned _ _ _ _ _ _ _ _ _ HI HnN) as (h' & V' & E & HI' & HV). rewrite E. cbn [obind].
      apply (IH _ _ _ _ _ _ _ _ HI'). apply Permutation_length in HV. cbn in HV. lia.
Qed.

(** Metas that belong to no node of the pass receive nothing. *)
Lemma unowned_none (X K V : list Z) (t : GraphTask T) (h : heap T) (G : Z → option T) (m : Z) :
  running X [] K V [] t h G → (∀ o, o ∈ outputs → ∃ n, n ∈ N ++ P ∧ autograd_meta_ o ∈ outs_of n) → owned (N ++ P) m = false → G m = None.
Proof.
  intros HI Ho Hm. assert (HX : ∀ n, n ∈ X ↔ n ∈ N) by (intros n; rewrite <- (r_split _ _ _ _ _ _ _ _ HI), app_nil_r; done).
  rewrite not_owned in Hm. rewrite (r_sums _ _ _ _ _ _ _ _ HI). apply accumulate_none. apply app_nil. split.
  - destruct (init m) as [|g l] eqn:Ei; [done|]. assert (Hg : g ∈ init m) by (rewrite Ei; left). unfold init in Hg.
    apply list_elem_of_omap in Hg as ([o g'] & Hz & Hd). cbn in Hd. case_decide as Heq; [|done]. apply elem_of_zip_l in Hz.
    destruct (Ho o Hz) as (n & Hn & Hon). rewrite Heq in Hon. by destruct (Hm n Hn).
  - destruct (X ≫= contrib G m) as [|g l] eqn:Ec; [done|]. assert (Hg : g ∈ X ≫= contrib G m) by (rewrite Ec; left).
    apply list_elem_of_bind in Hg as (p & Hg & Hp). unfold contrib in Hg. destruct (nodes h0 !! p) as [nd|] eqn:Ep; [|by apply elem_of_nil in Hg].
    destruct (decide (Some m ∈ input_meta_data_ nd)) as [Hin|Hin].
    + destruct (input_owner p m nd Ep Hin) as (q & Hq & _ & Hmq). apply HX in Hp. by destruct (Hm q (Hclosed p q Hp Hq)).
    + destruct (node_grads nd (out_vec G nd)) as [ins| |]; [|by apply elem_of_nil in Hg..]. rewrite sent_nil in Hg by done. by apply elem_of_nil in Hg.
Qed.
End Spec.
