(* ===== verification/AutogradPrune.v ===== *)
(** * Counting and pruning

    [ComputeDependenciesAndPruneNode] searches depth first.  It returns, counts the edges
    that lead to every node the roots reach, and marks a node for execution exactly when
    it leads to a node whose gradient is to be captured. *)
From stdpp Require Import relations sorting.
From S2P Require Import Prelude Shape Digraph Autograd AutogradDeps.

Section Prune.
Context {T : Type} (h : heap T) (e0 : gmap Z ExecInfo).

(** A node from which a captured node is reached. *)
Definition leads (q : Z) : Prop := ∃ k, rtc (edge h) q k ∧ need_execute (info_of e0 k) = true.

Lemma leads_step (n : Z) : leads n ↔ need_execute (info_of e0 n) = true ∨ ∃ q, q ∈ next_of h n ∧ leads q.
Proof.
  split.
  - intros (k & Hr & Hk). inversion Hr as [|? q ? Hq Hr' E1 E2]; subst; [by left|]. right. exists q. split; [done|]. by exists k.
  - intros [Hn|(q & Hq & k & Hr & Hk)]; [by exists n|]. exists k. split; [|done]. by eapply rtc_l.
Qed.

(** ** Frames *)

Definition frame_into (q : Z) (f : Z * nat) : nat := occ q (take f.2 (next_of h f.1)).
Definition path_into (path : list (Z * nat)) (q : Z) : nat := foldr (λ f k, frame_into q f + k)%nat 0%nat path.
Definition path_edges (path : list (Z * nat)) : nat := foldr (λ f k, f.2 + k)%nat 0%nat path.

Lemma path_into_le (path : list (Z * nat)) (q : Z) : (path_into path q ≤ path_edges path)%nat.
Proof.
  induction path as [|[n i] path IH]; [done|]. cbn [path_into path_edges foldr]. fold (path_into path q) (path_edges path). unfold frame_into. cbn [fst snd].
  pose proof (occ_le q (take i (next_of h n))). rewrite length_take in *. lia.
Qed.

Lemma path_edges_le (path : list (Z * nat)) : (∀ f, f ∈ path → (f.2 ≤ length (next_of h f.1))%nat) →
  (path_edges path ≤ edge_total h (map fst path))%nat.
Proof.
  induction path as [|[n i] path IH]; intros Hf; [done|]. cbn [path_edges foldr map fst edge_total]. fold (path_edges path) (edge_total h (map fst path)).
  pose proof (Hf (n, i) (list_elem_of_here _ _)). cbn in *. assert (path_edges path ≤ edge_total h (map fst path))%nat; [|lia].
  apply IH. intros f Hin. apply Hf. by right.
Qed.

Lemma frame_next (n q : Z) (i : nat) : next_of h n !! i = Some q →
  ∀ x, frame_into x (n, S i) = (frame_into x (n, i) + (if decide (q = x) then 1 else 0))%nat.
Proof. intros Hq x. unfold frame_into. cbn [fst snd]. rewrite (take_S_r _ _ _ Hq), occ_app, occ_cons. cbn. lia. Qed.

(** ** The marks of a node *)

Lemma set_need_ok (n : Z) (fns : list Z) (e : gmap Z ExecInfo) : n ∉ fns →
  ∀ q, dependencies (info_of (set_need h e n fns) q) = dependencies (info_of e q) ∧
       capture_indices (info_of (set_need h e n fns) q) = capture_indices (info_of e q) ∧
       need_execute (info_of (set_need h e n fns) q) =
         if decide (n = q) then need_execute (info_of e q) || existsb (λ k, need_execute (info_of e k)) fns else need_execute (info_of e q).
Proof.
  unfold set_need. revert e. induction fns as [|k fns IH]; intros e Hn q.
  { cbn. split_and!; [done|done|]. case_decide; [by rewrite orb_false_r|done]. }
  apply not_elem_of_cons in Hn as [Hne Hn]. cbn [foldl existsb]. set (e1 := <[n := _]> e).
  assert (Hinfo : ∀ x, info_of e1 x = if decide (n = x) then mkInfo (dependencies (info_of e n)) (need_execute (info_of e n) || need_execute (info_of e k))
      (capture_indices (info_of e n)) else info_of e x) by (intros x; unfold e1; apply info_of_insert).
  destruct (IH e1 Hn q) as (-> & -> & ->). rewrite !Hinfo.
  assert (Hex : existsb (λ k, need_execute (info_of e1 k)) fns = existsb (λ k, need_execute (info_of e k)) fns).
  { clear -Hinfo Hn. induction fns as [|y fns IH]; [done|]. apply not_elem_of_cons in Hn as [Hne Hn]. cbn [existsb].
    rewrite Hinfo, decide_False by done. by rewrite IH. }
  rewrite Hex. destruct (decide (n = q)) as [->|]; [|done]. cbn [dependencies capture_indices need_execute]. by rewrite orb_assoc.
Qed.

(** ** The search *)

Context (Hclosed : ∀ n q, edge h n q → is_Some (nodes h !! q)) (Hlower : ∀ n q, q ∈ next_of h n → q < n).
Context (Hsmall : Z.of_nat (edge_count h) < 2 ^ 31).

Record pruning (roots seen : list Z) (path : list (Z * nat)) (pend : list Z) (e : gmap Z ExecInfo) : Prop := mkPruning {
  d_nodup : NoDup (seen ++ map fst path);
  d_sorted : StronglySorted (λ f g, f.1 < g.1) path;
  d_exist : ∀ q, q ∈ seen ++ map fst path ++ pend → is_Some (nodes h !! q);
  d_reach : ∀ q, q ∈ seen ++ map fst path ++ pend → reach h roots q;
  d_roots : ∀ q, q ∈ roots → q ∈ seen ++ map fst path ++ pend;
  d_idx : ∀ f, f ∈ path → (f.2 ≤ length (next_of h f.1))%nat;
  d_next : ∀ n q, n ∈ seen → q ∈ next_of h n → q ∈ seen;
  d_path : ∀ f q, f ∈ path → q ∈ take f.2 (next_of h f.1) → q ∈ seen ++ map fst path;
  d_deps : ∀ q, dependencies (info_of e q) = Z.of_nat (into h seen q + path_into path q);
  d_seen : ∀ q, q ∈ seen → need_execute (info_of e q) = true ↔ leads q;
  d_other : ∀ q, q ∉ seen → need_execute (info_of e q) = need_execute (info_of e0 q);
  d_capture : ∀ q, capture_indices (info_of e q) = capture_indices (info_of e0 q)
}.

Lemma frames_bound (seen : list Z) (path : list (Z * nat)) : NoDup (seen ++ map fst path) →
  (∀ q, q ∈ seen ++ map fst path → is_Some (nodes h !! q)) → (∀ f, f ∈ path → (f.2 ≤ length (next_of h f.1))%nat) →
  (edge_total h seen + path_edges path ≤ edge_count h)%nat.
Proof.
  intros Hnd Hex Hf. pose proof (path_edges_le path Hf). pose proof (edge_total_bound h (seen ++ map fst path) Hnd Hex) as Hb.
  rewrite edge_total_app in Hb. lia.
Qed.

Lemma pruning_bound (roots seen : list Z) (path : list (Z * nat)) (pend : list Z) (e : gmap Z ExecInfo) (n q : Z) (i : nat) :
  pruning roots seen ((n, i) :: path) pend e → next_of h n !! i = Some q →
  (edge_total h seen + path_edges ((n, i) :: path) < edge_count h)%nat.
Proof.
  intros [D1 D2 D3 D4 D5 D6 D7 D8 D9 D10 D11 D12] Hq. apply lookup_lt_Some in Hq. pose proof (frames_bound seen ((n, S i) :: path) D1) as Hb.
  cbn [path_edges foldr fst snd] in *. fold (path_edges path) in *. assert (edge_total h seen + (S i + path_edges path) ≤ edge_count h)%nat; [|lia]. apply Hb.
  - intros x Hx. apply D3. rewrite app_assoc. apply elem_of_app. by left.
  - intros f [->|Hf]%elem_of_cons; [cbn; lia|]. apply D6. by right.
Qed.

Lemma pruning_start (roots seen : list Z) (pend : list Z) (e : gmap Z ExecInfo) (r : Z) :
  pruning roots seen [] (r :: pend) e → r ∉ seen → pruning roots seen [(r, 0%nat)] pend e.
Proof.
  intros [D1 D2 D3 D4 D5 D6 D7 D8 D9 D10 D11 D12] Hr. cbn [map app fst] in *. split; cbn [map app fst]; try done.
  - rewrite app_nil_r in D1. apply NoDup_app. split_and!; [done| |apply NoDup_singleton]. by intros x Hx ->%list_elem_of_singleton.
  - repeat constructor.
  - intros f ->%list_elem_of_singleton. cbn. lia.
  - intros f q ->%list_elem_of_singleton. cbn. by intros ?%elem_of_nil.
Qed.

Lemma pruning_pop (roots seen : list Z) (pend : list Z) (e : gmap Z ExecInfo) (r : Z) :
  pruning roots seen [] (r :: pend) e → r ∈ seen → pruning roots seen [] pend e.
Proof.
  intros [D1 D2 D3 D4 D5 D6 D7 D8 D9 D10 D11 D12] Hr. cbn [map app] in *.
  assert (Hsub : ∀ q, q ∈ seen ++ r :: pend ↔ q ∈ seen ++ pend) by (intros q; rewrite !elem_of_app, elem_of_cons; naive_solver).
  split; cbn [map app]; try done; intros q Hq; [apply D3|apply D4|apply Hsub, D5]; try done; by apply Hsub.
Qed.

(** An edge is followed. *)
Lemma pruning_edge (roots seen : list Z) (path : list (Z * nat)) (pend : list Z) (e : gmap Z ExecInfo) (n q : Z) (i : nat) :
  pruning roots seen ((n, i) :: path) pend e → next_of h n !! i = Some q →
  let e' := <[q := mkInfo (i32 (dependencies (info_of e q) + 1)) (need_execute (info_of e q)) (capture_indices (info_of e q))]> e in
  pruning roots seen (if decide (q ∈ seen) then (n, S i) :: path else (q, 0%nat) :: (n, S i) :: path) pend e'.
Proof.
  intros HI Hq. pose proof (pruning_bound _ _ _ _ _ _ _ _ HI Hq) as Hb. destruct HI as [D1 D2 D3 D4 D5 D6 D7 D8 D9 D10 D11 D12]. cbv zeta.
  assert (Hqn : q ∈ next_of h n) by (by eapply list_elem_of_lookup_2). pose proof (Hlower n q Hqn) as Hlt.
  assert (Hi : (S i ≤ length (next_of h n))%nat) by (apply lookup_lt_Some in Hq; lia).
  set (path' := if decide (q ∈ seen) then _ else _).
  assert (Hnodes : ∀ x, x ∈ seen ++ map fst path' ↔ x ∈ seen ++ map fst ((n, i) :: path) ∨ x = q).
  { intros x. unfold path'. case_decide; cbn [map fst]; rewrite !elem_of_app, ?elem_of_cons; [naive_solver|tauto]. }
  assert (Hinto : ∀ x, path_into path' x = (path_into ((n, i) :: path) x + (if decide (q = x) then 1 else 0))%nat).
  { intros x. unfold path'. change (frame_into x (q, 0%nat)) with 0%nat in *. case_decide; cbn [path_into foldr];
      change (frame_into x (q, 0%nat)) with 0%nat; rewrite (frame_next n q i Hq x); lia. }
  assert (Hinfo : ∀ x, dependencies (info_of (<[q := mkInfo (i32 (dependencies (info_of e q) + 1)) (need_execute (info_of e q)) (capture_indices (info_of e q))]> e) x)
      = Z.of_nat (into h seen x + path_into path' x) ∧
    need_execute (info_of (<[q := mkInfo (i32 (dependencies (info_of e q) + 1)) (need_execute (info_of e q)) (capture_indices (info_of e q))]> e) x) = need_execute (info_of e x) ∧
    capture_indices (info_of (<[q := mkInfo (i32 (dependencies (info_of e q) + 1)) (need_execute (info_of e q)) (capture_indices (info_of e q))]> e) x) = capture_indices (info_of e x)).
  { intros x. rewrite info_of_insert, Hinto. destruct (decide (q = x)) as [<-|]; cbn [dependencies need_execute capture_indices]; [|rewrite D9; split_and!; [lia|done|done]].
    split_and!; [|done|done]. rewrite D9, i32_small; [lia|]. pose proof (into_le (next_of h) seen q). pose proof (path_into_le ((n, i) :: path) q). lia. }
  assert (Hlow : Forall (λ g, n < g.1) path) by (by inversion D2).
  assert (Hsub : ∀ x, x ∈ seen ++ map fst path' ++ pend ↔ x ∈ seen ++ map fst ((n, i) :: path) ++ pend ∨ x = q).
  { intros x. rewrite !app_assoc, elem_of_app, Hnodes, (elem_of_app (seen ++ _)). tauto. }
  assert (Hnq : n ∈ seen ++ map fst ((n, i) :: path) ++ pend) by (rewrite !elem_of_app; right; left; left).
  split.
  - unfold path'. case_decide; [done|]. cbn [map fst] in *. apply NoDup_app in D1 as (H1 & H2 & H3). apply NoDup_app. split_and!; [done| |].
    + intros x Hx [->|Hx']%elem_of_cons; [done|]. by apply (H2 x).
    + constructor; [|done]. intros [->|(g & -> & Hg)%list_elem_of_fmap]%elem_of_cons; [lia|]. rewrite Forall_forall in Hlow. specialize (Hlow g Hg). lia.
  - unfold path'. assert (Hs : StronglySorted (λ f g : Z * nat, f.1 < g.1) ((n, S i) :: path)) by (inversion D2; by constructor). case_decide; [done|].
    constructor; [done|]. constructor; [done|]. eapply Forall_impl; [exact Hlow|]. cbn. intros; lia.
  - intros x [Hx| ->]%Hsub; [by apply D3|]. by apply (Hclosed n).
  - intros x [Hx| ->]%Hsub; [by apply D4|]. destruct (D4 n Hnq) as (r & Hr & Hrt). exists r. split; [done|]. by eapply rtc_r.
  - intros x Hx. apply Hsub. left. by apply D5.
  - intros f Hf. assert (Hf' : f = (n, S i) ∨ f = (q, 0%nat) ∨ f ∈ path) by (unfold path' in Hf; case_decide; rewrite ?elem_of_cons in Hf; tauto).
    destruct Hf' as [->|[->|Hf']]; cbn; [done|lia|]. apply D6. by right.
  - done.
  - intros f x Hf Hx. apply Hnodes. assert (Hf' : f = (n, S i) ∨ f = (q, 0%nat) ∨ f ∈ path) by (unfold path' in Hf; case_decide; rewrite ?elem_of_cons in Hf; tauto).
    destruct Hf' as [->|[->|Hf']]; cbn in Hx; [|by apply elem_of_nil in Hx|left; eapply D8; [by right|done]].
    rewrite (take_S_r _ _ _ Hq), elem_of_app, list_elem_of_singleton in Hx. destruct Hx as [Hx| ->]; [left; by eapply D8; [left|]|by right].
  - intros x. apply Hinfo.
  - intros x Hx. rewrite (proj1 (proj2 (Hinfo x))). by apply D10.
  - intros x Hx. rewrite (proj1 (proj2 (Hinfo x))). by apply D11.
  - intros x. rewrite (proj2 (proj2 (Hinfo x))). apply D12.
Qed.

(** A node is finished. *)
Lemma pruning_finish (roots seen : list Z) (path : list (Z * nat)) (pend : list Z) (e : gmap Z ExecInfo) (n : Z) (i : nat) :
  pruning roots seen ((n, i) :: path) pend e → next_of h n !! i = None → pruning roots (n :: seen) path pend (set_need h e n (next_of h n)).
Proof.
  intros [D1 D2 D3 D4 D5 D6 D7 D8 D9 D10 D11 D12] Hi. cbn [map fst] in *. apply lookup_ge_None in Hi.
  assert (Ei : i = length (next_of h n)) by (pose proof (D6 (n, i) (list_elem_of_here _ _)) as H6; cbn in H6; lia). subst i. clear Hi.
  assert (Hself : n ∉ next_of h n) by (intros Hn%Hlower; lia). pose proof (set_need_ok n (next_of h n) e Hself) as Hset.
  assert (Hlow : Forall (λ g, n < g.1) path) by (by inversion D2).
  assert (Hnext : ∀ q, q ∈ next_of h n → q ∈ seen).
  { intros q Hq. assert (Hin : q ∈ seen ++ n :: map fst path) by (apply (D8 (n, length (next_of h n)) q (list_elem_of_here _ _)); cbn; by rewrite take_ge).
    apply Hlower in Hq. apply elem_of_app in Hin as [|[->|(g & -> & Hg)%list_elem_of_fmap]%elem_of_cons]; [done|lia|].
    rewrite Forall_forall in Hlow. specialize (Hlow g Hg). lia. }
  assert (Hn : n ∉ seen) by (apply NoDup_app in D1 as (_ & H2 & _); intros Hn; apply (H2 n Hn); left).
  assert (Hsub : ∀ q l, q ∈ (n :: seen) ++ map fst path ++ l ↔ q ∈ seen ++ (n :: map fst path) ++ l).
  { intros q l. rewrite <- !app_comm_cons, !elem_of_app, !elem_of_cons, !elem_of_app. tauto. }
  split.
  - cbn [app]. by rewrite Permutation_middle.
  - by inversion D2.
  - intros q Hq%Hsub. by apply D3.
  - intros q Hq%Hsub. by apply D4.
  - intros q Hq. by apply Hsub, D5.
  - intros f Hf. apply D6. by right.
  - intros k q [->|Hk]%elem_of_cons Hq; right; [by apply Hnext|by eapply D7].
  - intros f q Hf Hq. pose proof (D8 f q ltac:(by right) Hq) as Hin. specialize (Hsub q []). rewrite !app_nil_r in Hsub. by apply Hsub.
  - intros q. destruct (Hset q) as (-> & _ & _). rewrite D9, into_cons. cbn [path_into foldr]. unfold frame_into at 1. cbn [fst snd]. rewrite take_ge by done.
    fold (path_into path q). lia.
  - intros q Hq. destruct (Hset q) as (_ & _ & ->). destruct (decide (n = q)) as [<-|Hne].
    + rewrite leads_step, orb_true_iff, existsb_exists, D11 by done. split; (intros [|(k & Hk & Hl)]; [by left|right; exists k]).
      * rewrite <- list_elem_of_In in Hk. split; [done|]. apply D10; [by apply Hnext|done].
      * split; [by apply list_elem_of_In|]. apply D10; [by apply Hnext|done].
    + apply D10. apply elem_of_cons in Hq as [->|]; done.
  - intros q Hq. apply not_elem_of_cons in Hq as [Hne Hq]. destruct (Hset q) as (_ & _ & ->). rewrite decide_False by done. by apply D11.
  - intros q. destruct (Hset q) as (_ & -> & _). apply D12.
Qed.

(** The nodes that are reached, their counts and marks. *)
Definition pruned (roots R : list Z) (e : gmap Z ExecInfo) : Prop :=
  NoDup R ∧ (∀ q, q ∈ R ↔ reach h roots q) ∧
  (∀ q, dependencies (info_of e q) = Z.of_nat (into h R q)) ∧
  (∀ q, q ∈ R → need_execute (info_of e q) = true ↔ leads q) ∧
  ∀ q, capture_indices (info_of e q) = capture_indices (info_of e0 q).

Lemma pruning_done (roots seen : list Z) (e : gmap Z ExecInfo) : pruning roots seen [] [] e → pruned roots seen e.
Proof.
  intros [D1 D2 D3 D4 D5 D6 D7 D8 D9 D10 D11 D12]. cbn [map app] in *. rewrite app_nil_r in *. split_and!; try done.
  - intros q. split; [apply D4|]. intros (r & Hr & Hrt). apply D5 in Hr. clear -Hr Hrt D7. induction Hrt; [done|]. apply IHHrt. by eapply D7.
  - intros q. rewrite D9. cbn. by rewrite Nat.add_0_r.
Qed.

Lemma prune_loop_ok (fuel : nat) (roots seen : list Z) (path : list (Z * nat)) (pend : list Z) (e : gmap Z ExecInfo) (sset : gset Z) :
  (∀ q, q ∈ sset ↔ q ∈ seen) → pruning roots seen path pend e →
  (length path + length pend + 2 * (edge_count h - (edge_total h seen + path_edges path)) ≤ fuel)%nat →
  ∃ e' R, prune_loop fuel h sset (path ++ map (λ n, (n, 0%nat)) pend) e = Ret e' ∧ pruned roots R e'.
Proof.
  revert seen path pend e sset. induction fuel as [|fuel IH]; intros seen path pend e sset Hs HI Hf.
  { destruct path, pend; try (cbn in Hf; lia). exists e, seen. split; [done|by apply pruning_done]. }
  assert (Hstep : ∀ n i path pend, pruning roots seen ((n, i) :: path) pend e →
    (length ((n, i) :: path) + length pend + 2 * (edge_count h - (edge_total h seen + path_edges ((n, i) :: path))) ≤ S fuel)%nat →
    ∃ e' R, prune_loop (S fuel) h sset (((n, i) :: path) ++ map (λ n, (n, 0%nat)) pend) e = Ret e' ∧ pruned roots R e').
  { clear HI Hf path pend. intros n i path pend HI Hf. pose proof (d_nodup _ _ _ _ _ HI) as Hnd. cbn [map fst] in Hnd.
    assert (Hn : n ∉ seen) by (apply NoDup_app in Hnd as (_ & H2 & _); intros Hn; apply (H2 n Hn); left).
    destruct (d_exist _ _ _ _ _ HI n) as [nd End]; [rewrite !elem_of_app; right; left; left|]. cbn [app prune_loop].
    rewrite bool_decide_eq_false_2 by (by rewrite Hs). unfold deref. rewrite End. cbn [obind].
    assert (Enext : next_functions_ nd = next_of h n) by (unfold next_of; by rewrite End). rewrite Enext.
    destruct (next_of h n !! i) as [q|] eqn:Eq.
    - pose proof (pruning_edge _ _ _ _ _ _ _ _ HI Eq) as HI'. cbv zeta in HI'. pose proof (pruning_bound _ _ _ _ _ _ _ _ HI Eq) as Hb.
      rewrite (bool_decide_ext _ (q ∈ seen)) by apply Hs. cbn [path_edges foldr length fst snd] in *. fold (path_edges path) in *.
      destruct (decide (q ∈ seen)) as [Hq|Hq].
      + rewrite bool_decide_eq_true_2 by done. apply (IH seen ((n, S i) :: path)); [done|done|]. cbn [path_edges foldr length fst snd]. fold (path_edges path). lia.
      + rewrite bool_decide_eq_false_2 by done. apply (IH seen ((q, 0%nat) :: (n, S i) :: path)); [done|done|].
        cbn [path_edges foldr length fst snd]. fold (path_edges path). lia.
    - pose proof (pruning_finish _ _ _ _ _ _ _ HI Eq) as HI'. apply (IH (n :: seen) path); [|done|].
      + intros q. rewrite elem_of_union, elem_of_singleton, elem_of_cons, Hs. done.
      + pose proof (d_idx _ _ _ _ _ HI (n, i) (list_elem_of_here _ _)) as Hi. apply lookup_ge_None in Eq. unfold edges_from in *.
        cbn [path_edges foldr length fst snd] in *. fold (path_edges path) in *. lia. }
  destruct path as [|[n i] path]; [|by apply Hstep]. destruct pend as [|r pend].
  { exists e, seen. split; [done|by apply pruning_done]. }
  destruct (decide (r ∈ seen)) as [Hr|Hr].
  - cbn [app map prune_loop]. rewrite bool_decide_eq_true_2 by (by apply Hs). apply (IH seen []); [done|by eapply pruning_pop|cbn in *; lia].
  - apply (Hstep r 0%nat []); [by apply pruning_start|]. cbn in *. lia.
Qed.
End Prune.

(** ** The gradients to capture *)

(** Outputs of node [q] among [inputs], with their positions. *)
Definition caps_of (l : list (nat * Tensor)) (q : Z) : list (Z * Z) :=
  omap (λ it, if decide (grad_fn_node_ it.2 = Some q) then Some (grad_fn_output_index_ it.2, Z.of_nat it.1) else None) l.
Definition caps (inputs : list Tensor) : Z → list (Z * Z) := caps_of (zip (seq 0 (length inputs)) inputs).

Lemma caps_elem (inputs : list Tensor) (q : Z) (io : Z * Z) : io ∈ caps inputs q ↔
  ∃ i x, inputs !! i = Some x ∧ grad_fn_node_ x = Some q ∧ io = (grad_fn_output_index_ x, Z.of_nat i).
Proof.
  unfold caps, caps_of. rewrite list_elem_of_omap. split.
  - intros ([i x] & Hz & E). cbn in E. case_decide as Hg; [|done]. injection E as <-. exists i, x. split; [|done].
    apply list_elem_of_lookup in Hz as [k Hk]. rewrite lookup_zip_with in Hk. destruct (seq 0 (length inputs) !! k) as [j|] eqn:Ej; [|done].
    apply lookup_seq in Ej as [-> _]. destruct (inputs !! k) as [y|] eqn:Ey; [|done]. cbn in Hk. injection Hk as <- <-. done.
  - intros (i & x & Hx & Hg & ->). exists (i, x). cbn. rewrite decide_True by done. split; [|done]. apply list_elem_of_lookup. exists i.
    rewrite lookup_zip_with, lookup_seq_lt by (by eapply lookup_lt_Some). cbn. by rewrite Hx.
Qed.

(** The marks that stand for the captures [C]. *)
Definition marks (e : gmap Z ExecInfo) (C : Z → list (Z * Z)) : Prop :=
  ∀ q, dependencies (info_of e q) = 0 ∧ (need_execute (info_of e q) = true ↔ C q ≠ []) ∧
       capture_indices (info_of e q) = match C q with [] => None | l => Some l end.

Lemma capture_inputs_ok (allow_unused : bool) (l : list (nat * Tensor)) (e : gmap Z ExecInfo) (C : Z → list (Z * Z)) :
  marks e C → (∀ it, it ∈ l → grad_fn_node_ it.2 = None → allow_unused = true) →
  ∃ e', ofold (capture_input allow_unused) l e = Ret e' ∧ marks e' (λ q, C q ++ caps_of l q).
Proof.
  revert e C. induction l as [|[i x] l IH]; intros e C HC Hl.
  { exists e. split; [done|]. intros q. cbn. by rewrite app_nil_r. }
  cbn [ofold]. unfold capture_input at 1.
  assert (Hl' : ∀ it, it ∈ l → grad_fn_node_ it.2 = None → allow_unused = true) by (intros it Hit; apply Hl; by right).
  destruct (grad_fn_node_ x) as [n|] eqn:En.
  - cbn [obind]. match goal with |- context [ofold _ l ?e1] => destruct (IH e1 (λ q, C q ++ caps_of [(i, x)] q)) as (e' & -> & HC') end; [|done|].
    + intros q. rewrite info_of_insert. unfold caps_of. cbn [omap list_omap snd fst]. rewrite En.
      destruct (decide (n = q)) as [<-|Hne]; [rewrite decide_True by done|rewrite decide_False by congruence; rewrite app_nil_r; apply HC].
      destruct (HC n) as (H1 & H2 & H3). cbn [dependencies need_execute capture_indices]. rewrite H3. split_and!; [done| |].
      * split; [|done]. intros _. by destruct (C n).
      * by destruct (C n).
    + exists e'. split; [done|]. intros q. specialize (HC' q). cbv beta in HC'. unfold caps_of in *. rewrite <- app_assoc, <- omap_app in HC'. exact HC'.
  - pose proof (Hl (i, x) (list_elem_of_here _ _) En) as Ha. destruct allow_unused; [|done]. cbn [obind]. destruct (IH e C HC Hl') as (e' & -> & HC'). exists e'. split; [done|]. intros q.
    specialize (HC' q). unfold caps_of in *. cbn [omap list_omap snd]. rewrite En. by rewrite decide_False.
Qed.

Section Compute.
Context {T : Type} (h : heap T).
Context (Hclosed : ∀ n q, edge h n q → is_Some (nodes h !! q)) (Hlower : ∀ n q, q ∈ next_of h n → q < n).
Context (Hsmall : Z.of_nat (edge_count h) < 2 ^ 31).

Lemma ComputeDependenciesAndPruneNode_ok (t : GraphTask T) (inputs : list Tensor) (allow_unused : bool) : grad_fn2exec_info_ t = ∅ →
  (∀ r, r ∈ roots_ t → is_Some (nodes h !! r)) → (∀ x, x ∈ inputs → grad_fn_node_ x = None → allow_unused = true) →
  ∃ e e0 R, ComputeDependenciesAndPruneNode h t inputs allow_unused =
      Ret (mkTask (retain_graph_ t) (create_graph_ t) (roots_ t) e (Some (replicate (length inputs) None))) ∧
    marks e0 (caps inputs) ∧ pruned h e0 (roots_ t) R e.
Proof.
  intros He Hr Hin. unfold ComputeDependenciesAndPruneNode. rewrite He.
  destruct (capture_inputs_ok allow_unused (zip (seq 0 (length inputs)) inputs) ∅ (λ _, [])) as (e0 & -> & Hm).
  { intros q. unfold info_of. rewrite lookup_empty. done. }
  { intros [i x] Hx%elem_of_zip_r. by apply Hin. }
  cbn [obind]. replace (reverse (map (λ n, (n, 0%nat)) (roots_ t))) with ([] ++ map (λ n, (n, 0%nat)) (reverse (roots_ t))) by (cbn; apply fmap_reverse).
  destruct (prune_loop_ok h e0 Hclosed Hlower Hsmall (2 * length (roots_ t) + 3 * edge_count h) (roots_ t) [] [] (reverse (roots_ t)) e0 ∅) as (e & R & -> & HP).
  - intros q. split; [by intros ?%not_elem_of_empty|by intros ?%elem_of_nil].
  - split; cbn [map app]; try done; try (by intros ? ?%elem_of_nil); try (by intros ? ? ?%elem_of_nil).
    + constructor.
    + constructor.
    + intros q Hq. apply Hr. by apply elem_of_reverse.
    + intros q Hq. exists q. split; [by apply elem_of_reverse|done].
    + intros q Hq. by apply elem_of_reverse.
    + intros q. cbn. apply (Hm q).
  - cbn [length path_edges foldr edges_from]. rewrite length_reverse. lia.
  - exists e, e0, R. cbn [obind]. split; [done|]. split; [exact Hm|done].
Qed.
End Compute.

Lemma prune_loop_nodes {T : Type} (h k : heap T) : nodes h = nodes k → ∀ fuel seen stack e,
  prune_loop fuel h seen stack e = prune_loop fuel k seen stack e.
Proof.
  intros E. induction fuel as [|fuel IH]; intros seen [|[n i] stack] e; try done. cbn [prune_loop]. rewrite E, IH.
  case_match; [done|]. destruct (deref (nodes k) n) as [nd| |]; [|done|done]. cbn [obind]. destruct (next_functions_ nd !! i); apply IH.
Qed.

Lemma prune_nodes {T : Type} (h k : heap T) (t : GraphTask T) (inputs : list Tensor) (allow_unused : bool) :
  nodes h = nodes k → ComputeDependenciesAndPruneNode h t inputs allow_unused = ComputeDependenciesAndPruneNode k t inputs allow_unused.
Proof.
  intros E. unfold ComputeDependenciesAndPruneNode, edge_count. rewrite E. destruct (ofold _ _ _); [|done|done]. cbn [obind].
  by rewrite (prune_loop_nodes h k E).
Qed.
