(* ===== verification/AutogradBuild.v ===== *)
(** * Building the backward graph

    [AddNode] keeps the graph well formed: a node points to earlier nodes only, the metas
    of its inputs are outputs of the nodes it points to, and every meta belongs to one
    node. *)
From S2P Require Import Prelude Shape Digraph Autograd AutogradDeps AutogradSpec.

(** Stores whose keys are the numbers below their size, so that the size is fresh. *)
Definition dense_store {A : Type} (m : gmap Z A) : Prop := ∀ k, is_Some (m !! k) ↔ 0 ≤ k < Z.of_nat (size m).

Lemma dense_store_fresh {A : Type} (m : gmap Z A) : dense_store m → m !! Z.of_nat (size m) = None.
Proof. intros Hm. apply eq_None_not_Some. rewrite (Hm _). lia. Qed.

Lemma dense_store_insert {A : Type} (m : gmap Z A) (a : A) : dense_store m → dense_store (<[Z.of_nat (size m) := a]> m).
Proof.
  intros Hm k. rewrite map_size_insert_None by by apply dense_store_fresh. destruct (decide (k = Z.of_nat (size m))) as [->|Hne].
  - rewrite lookup_insert_eq. split; [lia|by eexists].
  - rewrite lookup_insert_ne by done. rewrite (Hm k). lia.
Qed.

Section Build.
Context {T : Type}.

Record heap_ok (h : heap T) : Prop := mkHeapOk {
  o_nodes : dense_store (nodes h);
  o_metas : dense_store (metas h);
  o_tensors : ∀ x t, tensors h !! x = Some t → is_Some (metas h !! autograd_meta_ t) ∧
                     ∀ n, grad_fn_node_ t = Some n → autograd_meta_ t ∈ outs_of h n;
  o_graph : graph_wf h
}.

(** ** New metas *)

Record fresh_outputs (h h' : heap T) (L out : list Z) : Prop := mkFresh {
  f_nodes : nodes h' = nodes h;
  f_metas : metas h ⊆ metas h';
  f_dense : dense_store (metas h');
  f_nodup : NoDup out;
  f_new : ∀ m, m ∈ out → Z.of_nat (size (metas h)) ≤ m ∧ is_Some (metas h' !! m);
  f_tensors : ∀ x t, tensors h' !! x = Some t → x ∈ L ∧ autograd_meta_ t ∈ out ∨ x ∉ L ∧ tensors h !! x = Some t
}.

Lemma new_output_ok (h h1 h2 : heap T) (L out out2 : list Z) (x : Z) :
  fresh_outputs h h1 L out → new_output (h1, out) x = Ret (h2, out2) → fresh_outputs h h2 (L ++ [x]) out2 ∧ length out2 = S (length out).
Proof.
  intros [F1 F2 F3 F4 F5 F6]. cbn [new_output]. unfold deref. destruct (tensors h1 !! x) as [t|] eqn:Et; [|done]. cbn [obind].
  destruct (metas h1 !! autograd_meta_ t) as [a|]; [|done]. cbn [obind]. intros [= <- <-]. set (m := Z.of_nat (size (metas h1))).
  split; [|rewrite length_app; cbn; lia].
  pose proof (dense_store_fresh _ F3) as Hm. fold m in Hm. assert (Hsz : Z.of_nat (size (metas h)) ≤ m) by (apply map_subseteq_size in F2; unfold m; lia).
  split; cbn [nodes metas tensors].
  - done.
  - etrans; [exact F2|by apply insert_subseteq].
  - by apply dense_store_insert.
  - apply NoDup_app. split_and!; [done| |apply NoDup_singleton]. intros k Hk ->%list_elem_of_singleton.
    destruct (F5 m Hk) as [_ [b Hb]]. by rewrite Hb in Hm.
  - intros k [Hk|Hk]%elem_of_app.
    + destruct (F5 k Hk) as [? Hs]. split; [done|]. rewrite lookup_insert_ne; [done|]. intros ->. rewrite Hm in Hs. by destruct Hs.
    + apply list_elem_of_singleton in Hk as ->. rewrite lookup_insert_eq. split; [done|by eexists].
  - intros y u Hy. destruct (decide (x = y)) as [->|Hne].
    + rewrite lookup_insert_eq in Hy. injection Hy as <-. left. split; apply elem_of_app; right; left.
    + rewrite lookup_insert_ne in Hy by done. rewrite !elem_of_app, list_elem_of_singleton. destruct (F6 y u Hy) as [[]|[]]; [tauto|].
      right. split; [|done]. naive_solver.
Qed.

Lemma new_outputs_ok (h h1 h2 : heap T) (outputs L out out2 : list Z) :
  fresh_outputs h h1 L out → ofold new_output outputs (h1, out) = Ret (h2, out2) →
  fresh_outputs h h2 (L ++ outputs) out2 ∧ (length out2 = length out + length outputs)%nat.
Proof.
  revert h1 L out. induction outputs as [|x outputs IH]; intros h1 L out HF E.
  { cbn in E. injection E as <- <-. rewrite app_nil_r. split; [done|cbn; lia]. }
  cbn [ofold] in E. destruct (new_output (h1, out) x) as [[h3 out3]| |] eqn:E1; [|done|done]. cbn [obind] in E.
  destruct (new_output_ok _ _ _ _ _ _ _ HF E1) as [HF1 Hl1]. destruct (IH _ _ _ HF1 E) as [HF2 Hl2].
  rewrite <- app_assoc in HF2. split; [done|]. cbn. lia.
Qed.

(** ** The outputs point to the node *)

Lemma set_grad_fns (n : Z) (ixs : list (nat * Z)) (h h' : heap T) : ofold (set_grad_fn n) ixs h = Ret h' →
  nodes h' = nodes h ∧ metas h' = metas h ∧
  ∀ x t, tensors h' !! x = Some t → ∃ t0, tensors h !! x = Some t0 ∧ autograd_meta_ t = autograd_meta_ t0 ∧
    if bool_decide (x ∈ map snd ixs) then grad_fn_node_ t = Some n else t = t0.
Proof.
  revert h. induction ixs as [|[i y] ixs IH]; intros h E.
  { cbn in E. injection E as <-. split_and!; try done. intros x t Hx. exists t. split_and!; try done. }
  cbn [ofold] in E. unfold set_grad_fn at 1, deref in E. cbn [fst snd] in E. destruct (tensors h !! y) as [ty|] eqn:Ey; [|done]. cbn [obind] in E.
  destruct (IH _ E) as (N & M & Ht). cbn [nodes metas tensors] in *. split_and!; try done. intros x t Hx.
  destruct (Ht x t Hx) as (t0 & E0 & Em & Hg). cbn [map snd fmap list_fmap]. destruct (decide (y = x)) as [->|Hne].
  - rewrite lookup_insert_eq in E0. injection E0 as <-. exists ty. split_and!; [done|done|]. rewrite bool_decide_eq_true_2 by left.
    case_match; [done|]. by subst t.
  - rewrite lookup_insert_ne in E0 by done. exists t0. split_and!; [done|done|]. rewrite (bool_decide_ext _ (x ∈ map snd ixs)); [done|].
    rewrite elem_of_cons. naive_solver.
Qed.

(** ** The node *)

Lemma input_links (h : heap T) (inputs : list Z) (links : list (option (Z * Z))) : heap_ok h →
  omap_list (input_link h) inputs = Ret links →
  Forall2 (λ m q, q < Z.of_nat (size (nodes h)) ∧ m ∈ outs_of h q) (omap id (map (fmap fst) links)) (omap (fmap snd) links).
Proof.
  intros Hok. revert links. induction inputs as [|x inputs IH]; intros links E; cbn [omap_list] in E; [by injection E as <-|].
  destruct (input_link h x) as [l| |] eqn:El; [|done|done]. cbn [obind] in E. destruct (omap_list (input_link h) inputs) as [ls| |]; [|done|done].
  injection E as <-. specialize (IH ls eq_refl). destruct l as [[m q]|]; cbn; [|done]. constructor; [|done].
  unfold input_link, deref in El. destruct (tensors h !! x) as [t|] eqn:Et; [|done]. cbn [obind] in El.
  destruct (metas h !! autograd_meta_ t) as [a|]; [|done]. cbn [obind] in El. destruct (requires_grad_ a); [|done].
  destruct (grad_fn_node_ t) as [k|] eqn:Ek; [|done]. injection El as <- <-. pose proof (proj2 (o_tensors _ Hok x t Et) k Ek) as Hm.
  split; [|done]. apply (o_nodes _ Hok). unfold outs_of in Hm. destruct (nodes h !! k); [by eexists|by apply elem_of_nil in Hm].
Qed.

Section Add.
Context (zeros_of : Z → T).

(** A node and the pointers of its outputs. *)
Definition add_core (f : BackwardFunction T) (h : heap T) (inputs outputs : list Z) : outcome (Z * heap T) :=
  let* (n, h) := GraphFunctionNode_New zeros_of f h inputs outputs in
  let* h := ofold (set_grad_fn n) (zip (seq 0 (length outputs)) outputs) h in
  Ret (n, h).

Lemma fresh_start (h : heap T) : heap_ok h → fresh_outputs h h [] [].
Proof.
  intros Hok. split; try done; [apply Hok|constructor|by intros m ?%elem_of_nil|]. intros x t Hx. right. split; [apply not_elem_of_nil|done].
Qed.

(** A graph with one more node, whose outputs are new metas. *)
Lemma graph_wf_add (h : heap T) (n : Z) (nd : FunctionNode T) (h' : heap T) :
  graph_wf h → nodes h !! n = None → nodes h' = <[n := nd]> (nodes h) → metas h ⊆ metas h' →
  Forall2 (λ m q, q < n ∧ m ∈ outs_of h q) (omap id (input_meta_data_ nd)) (next_functions_ nd) →
  NoDup (output_meta_data_ nd) → (∀ m, m ∈ output_meta_data_ nd → metas h !! m = None ∧ is_Some (metas h' !! m)) →
  length (output_zeros_ nd) = length (output_meta_data_ nd) → graph_wf h'.
Proof.
  intros [W1 W2 W3 W4] Hn En Hm HF Hnd Hnew Hz.
  assert (Houts : ∀ q, outs_of h' q = if decide (q = n) then output_meta_data_ nd else outs_of h q).
  { intros q. unfold outs_of. rewrite En. destruct (decide (q = n)) as [->|Hne]; [by rewrite lookup_insert_eq|by rewrite lookup_insert_ne]. }
  assert (Hsub : ∀ q m, m ∈ outs_of h q → m ∈ outs_of h' q).
  { intros q m Hq. rewrite Houts. destruct (decide (q = n)) as [->|]; [|done]. unfold outs_of in Hq. rewrite Hn in Hq. by apply elem_of_nil in Hq. }
  split.
  - intros k kd Ek. rewrite En in Ek. destruct (decide (k = n)) as [->|Hne].
    + rewrite lookup_insert_eq in Ek. injection Ek as <-. eapply Forall2_impl; [exact HF|]. intros m q [? ?]. split; [done|by apply Hsub].
    + rewrite lookup_insert_ne in Ek by done. eapply Forall2_impl; [by apply W1|]. intros m q [? ?]. split; [done|by apply Hsub].
  - intros k. rewrite Houts. destruct (decide (k = n)) as [->|]; [split; [done|]; intros m ?; by apply Hnew|].
    destruct (W2 k) as [? He]. split; [done|]. intros m Hk. destruct (He m Hk) as [a Ha]. exists a. by eapply lookup_weaken.
  - intros k kd Ek. rewrite En in Ek. destruct (decide (k = n)) as [->|Hne]; [rewrite lookup_insert_eq in Ek; by injection Ek as <-|].
    rewrite lookup_insert_ne in Ek by done. by eapply W3.
  - assert (Hold : ∀ k m, m ∈ outs_of h k → m ∈ output_meta_data_ nd → False).
    { intros k m Hk Hmn. destruct (Hnew m Hmn) as [HN _]. destruct (proj2 (W2 k) m Hk) as [a Ha]. congruence. }
    intros k q m. rewrite !Houts. destruct (decide (k = n)) as [->|], (decide (q = n)) as [->|]; try done.
    + intros ? ?. exfalso. by eapply Hold.
    + intros ? ?. exfalso. by eapply Hold.
    + apply W4.
Qed.

Lemma map_snd_zip_seq (l : list Z) : map snd (zip (seq 0 (length l)) l) = l.
Proof. apply snd_zip. by rewrite length_seq. Qed.

Lemma add_core_ok (f : BackwardFunction T) (h h' : heap T) (inputs outputs : list Z) (n : Z) :
  heap_ok h → add_core f h inputs outputs = Ret (n, h') → heap_ok h' ∧ nodes h !! n = None ∧ is_Some (nodes h' !! n) ∧ nodes h ⊆ nodes h'.
Proof.
  intros Hok. unfold add_core, GraphFunctionNode_New. destruct (omap_list (input_link h) inputs) as [links| |] eqn:El; [|done|done]. cbn [obind].
  destruct (ofold new_output outputs (h, [])) as [[h1 out]| |] eqn:Eo; [|done|done]. cbn [obind].
  destruct (new_outputs_ok _ _ _ _ _ _ _ (fresh_start h Hok) Eo) as [[F1 F2 F3 F4 F5 F6] Hlen]. cbn [app] in F6. rewrite F1. cbn [length plus] in Hlen.
  set (nd := mkNode _ _ _ _ _ _). set (k := Z.of_nat (size (nodes h))). cbn [fst snd].
  destruct (ofold (set_grad_fn k) _ _) as [h2| |] eqn:E2; [|done|done]. cbn [obind]. intros [= <- <-].
  destruct (set_grad_fns _ _ _ _ E2) as (N & M & HT). cbn [nodes metas tensors set_nodes] in *. rewrite map_snd_zip_seq in HT.
  pose proof (dense_store_fresh _ (o_nodes _ Hok)) as Hk. fold k in Hk.
  assert (Hgraph : graph_wf h2).
  { apply (graph_wf_add h k nd h2 (o_graph _ Hok) Hk); [by rewrite N|by rewrite M|by apply (input_links h inputs)|done| |].
    - cbn. intros m Hm. destruct (F5 m Hm) as [Hge Hs]. rewrite M. split; [|done]. apply eq_None_not_Some. rewrite (o_metas _ Hok m). lia.
    - cbn. by rewrite length_map. }
  split; [|split_and!; [done|rewrite N, lookup_insert_eq; by eexists|rewrite N; by apply insert_subseteq]]. split.
  - rewrite N. apply dense_store_insert, Hok.
  - by rewrite M.
  - intros x t Hx. destruct (HT x t Hx) as (t0 & E0 & -> & Hg). assert (Houts : outs_of h2 k = out) by (unfold outs_of; by rewrite N, lookup_insert_eq).
    destruct (F6 x t0 E0) as [[Hin Hm]|[Hin Hold]].
    + rewrite bool_decide_eq_true_2 in Hg by done. rewrite M. split; [by apply F5|]. intros q. rewrite Hg. intros [= <-]. by rewrite Houts.
    + rewrite bool_decide_eq_false_2 in Hg by done. subst t. destruct (o_tensors _ Hok x t0 Hold) as [[a Ha] Hq]. rewrite M.
      split; [exists a; by eapply lookup_weaken|]. intros q Hgq. specialize (Hq q Hgq). unfold outs_of in *. rewrite N.
      rewrite lookup_insert_ne; [done|]. intros <-. rewrite Hk in Hq. by apply elem_of_nil in Hq.
  - done.
Qed.

Lemma add_accumulate_ok (h h' : heap T) (x : Z) : heap_ok h → add_accumulate zeros_of h x = Ret h' → heap_ok h' ∧ nodes h ⊆ nodes h'.
Proof.
  intros Hok. unfold add_accumulate. destruct (deref (tensors h) x) as [t| |]; [|done|done]. cbn [obind].
  destruct (deref (metas h) _) as [a| |]; [|done|done]. cbn [obind]. destruct (is_leaf_ a && requires_grad_ a); [|by intros [= <-]].
  destruct (grad_fn_node_ t); [by intros [= <-]|]. unfold AddAccumulateFunctionNode. intros E.
  destruct (GraphFunctionNode_New zeros_of accumulate_fn h [] [x]) as [[n h1]| |] eqn:E1; [|done|done]. cbn [obind] in E.
  destruct (add_core_ok accumulate_fn h h' [] [x] n Hok) as (? & _ & _ & ?); [|done].
  unfold add_core. rewrite E1. cbn [obind length seq zip zip_with ofold]. by rewrite E.
Qed.

Lemma AddNode_ok (f : BackwardFunction T) (h h' : heap T) (inputs outputs : list Z) (n : Z) :
  heap_ok h → AddNode zeros_of f h inputs outputs = Ret (n, h') → heap_ok h' ∧ is_Some (nodes h' !! n) ∧ nodes h !! n = None.
Proof.
  intros Hok E. unfold AddNode in E. destruct (ofold (add_accumulate zeros_of) inputs h) as [h1| |] eqn:E1; [|done|done]. cbn [obind] in E.
  assert (Hok1 : heap_ok h1 ∧ nodes h ⊆ nodes h1).
  { eapply (ofold_invariant (λ s, heap_ok s ∧ nodes h ⊆ nodes s)); [|by split|exact E1]. intros s x s' _ [Hs Hsub] Ex.
    destruct (add_accumulate_ok s s' x Hs Ex) as [? ?]. split; [done|by etrans]. }
  destruct Hok1 as [Hok1 Hsub]. destruct (add_core_ok f h1 h' inputs outputs n Hok1 E) as (Hok' & Hn & Hs & _).
  split_and!; [done|done|]. by eapply lookup_weaken_None.
Qed.

(** The operators of a forward pass, each with its inputs and outputs. *)
Definition AddNodes (ops : list (BackwardFunction T * list Z * list Z)) (h : heap T) : outcome (heap T) :=
  ofold (λ h '(f, inputs, outputs), let* (_, h) := AddNode zeros_of f h inputs outputs in Ret h) ops h.

Lemma AddNodes_ok (ops : list (BackwardFunction T * list Z * list Z)) (h h' : heap T) : heap_ok h → AddNodes ops h = Ret h' → heap_ok h'.
Proof.
  intros Hok E. eapply (ofold_invariant heap_ok); [|exact Hok|exact E]. intros s [[f ins] outs] s' _ Hs Ex.
  destruct (AddNode zeros_of f s ins outs) as [[n s1]| |] eqn:E1; [|done|done]. injection Ex as <-. by eapply AddNode_ok.
Qed.

(** C31 The graph of a forward pass is well formed: whatever operators [AddNode] records
    (with the accumulation nodes it adds for leaf inputs), the stores stay dense, every
    tensor stays attached to an output of its node, edges point to earlier nodes that own
    the metas of the inputs, and every meta has one owner; so the backward graph has no
    cycle. *)
Theorem AddNodes_wf (ops : list (BackwardFunction T * list Z * list Z)) (h h' : heap T)
    (Hok : heap_ok h) (E : AddNodes ops h = Ret h') : heap_ok h' ∧ ∀ n q, q ∈ next_of h' n → q < n.
Proof. pose proof (AddNodes_ok ops h h' Hok E) as Hok'. split; [done|]. apply next_lower, Hok'. Qed.
End Add.
End Build.

(** ** The example graph *)

Module BuildDemo.
Lemma start_dense : dense_store (metas Demo.start).
Proof.
  intros k. change (size (metas Demo.start)) with 4%nat. unfold Demo.start. cbn [metas].
  destruct (decide (k = 0)) as [->|]; [by split; [|eexists]|]. destruct (decide (k = 1)) as [->|]; [by split; [|eexists]|].
  destruct (decide (k = 2)) as [->|]; [by split; [|eexists]|]. destruct (decide (k = 3)) as [->|]; [by split; [|eexists]|].
  rewrite !lookup_insert_ne, lookup_singleton_ne by congruence. split; [by intros [? ?]|lia].
Qed.

Lemma start_ok : heap_ok Demo.start.
Proof.
  split.
  - intros k. cbn. rewrite lookup_empty. split; [by intros [? ?]|]. change (size (∅ : gmap Z (FunctionNode Z))) with 0%nat. lia.
  - apply start_dense.
  - intros x t Hx. unfold Demo.start in Hx. cbn [tensors] in Hx.
    assert (Ht : t = mkTensor x None 0 ∧ 0 ≤ x < 4).
    { destruct (decide (0 = x)) as [<-|]; [by injection Hx as <-|rewrite lookup_insert_ne in Hx by done].
      destruct (decide (1 = x)) as [<-|]; [by injection Hx as <-|rewrite lookup_insert_ne in Hx by done].
      destruct (decide (2 = x)) as [<-|]; [by injection Hx as <-|rewrite lookup_insert_ne in Hx by done].
      apply lookup_singleton_Some in Hx as [<- <-]. done. }
    destruct Ht as [-> Hx']. cbn. split; [|done]. by apply start_dense.
  - split; unfold outs_of; cbn; intros n; rewrite ?lookup_empty; try done.
    + split; [constructor|]. by intros m ?%elem_of_nil.
    + by intros k m ?%elem_of_nil.
Qed.

Definition ops : list (BackwardFunction Z * list Z * list Z) := [(Demo.mul_fn 5 7, [0; 1], [2]); (Demo.add_fn, [2; 2], [3])].

Lemma AddNodes_wf_witness :
  match AddNodes (λ _, 0) ops Demo.start with Ret h' => heap_ok h' ∧ ∀ n q, q ∈ next_of h' n → q < n | _ => False end.
Proof.
  assert (Hr : is_ret (AddNodes (λ _, 0) ops Demo.start) = true) by reflexivity.
  destruct (AddNodes (λ _, 0) ops Demo.start) as [h'| |] eqn:E; [|discriminate Hr|discriminate Hr].
  exact (AddNodes_wf (λ _, 0) ops Demo.start h' start_ok E).
Defined.
End BuildDemo.
