(* ===== verification/AutogradChain.v ===== *)
(** * A backward pass returns and satisfies the chain rule

    The theorem on [RunBackwardAndSaveGrads4LeafTensor], its hypotheses as the records
    [pass_ok] and [backward_ok], and three requests that are served wrongly. *)
From stdpp Require Import relations.
From S2P Require Import Prelude Shape Digraph Autograd AutogradDeps AutogradSpec AutogradBuild.

Section Start.
Context {T : Type} (Add : T → T → T).

Lemma push_outs (l : list (Tensor * T)) (h : heap T) :
  (∀ og, og ∈ l → is_Some (metas h !! autograd_meta_ og.1)) →
  ∃ h', ofold (push_out_grad Add) l h = Ret h' ∧ nodes h' = nodes h ∧ tensors h' = tensors h ∧
    ∀ m, metas h' !! m = (λ a, set_current a (foldl (push Add) (acc_tensor_ a)
           (omap (λ og, if decide (autograd_meta_ og.1 = m) then Some og.2 else None) l))) <$> metas h !! m.
Proof.
  revert h. induction l as [|[o g] l IH]; intros h Hex.
  { exists h. split_and!; try done. intros m. cbn. destruct (metas h !! m) as [[]|]; done. }
  destruct (Hex (o, g) (list_elem_of_here _ _)) as [a Ha]. cbn [ofold]. unfold push_out_grad at 1, upd_meta, deref. cbn in Ha.
  cbn [fst snd]. rewrite Ha. cbn [obind].
  match goal with |- context [ofold _ l ?h1] => destruct (IH h1) as (h' & -> & N & E & M) end.
  { intros og Hog. cbn. destruct (decide (autograd_meta_ o = autograd_meta_ og.1)) as [<-|Hne]; [rewrite lookup_insert_eq; by eexists|].
    rewrite lookup_insert_ne by done. apply Hex. by right. }
  exists h'. split; [done|]. split; [by rewrite N|]. split; [by rewrite E|]. intros m. rewrite M. cbn [metas set_metas omap list_omap fst snd].
  destruct (decide (autograd_meta_ o = m)) as [<-|Hne].
  - rewrite lookup_insert_eq, Ha. cbn [fmap option_fmap option_map foldl]. unfold PushPartialTensor. by destruct (acc_tensor_ a).
  - by rewrite lookup_insert_ne.
Qed.
End Start.

(** ** A request the engine serves *)

Section Chain.
Context {T : Type} (Add : T → T → T) (sync_grad : Z → T → option T) (h : heap T) (create_graph retain : bool).
Context (outputs : list Tensor) (out_grads : list T).

Definition pass_roots : list Z := omap grad_fn_node_ outputs.

(** A tensor of the pass that receives a gradient: an output of the pass or an input of
    one of its nodes. *)
Definition receives (m : Z) : Prop :=
  m ∈ map autograd_meta_ outputs ∨
  ∃ p nd, reach h pass_roots p ∧ nodes h !! p = Some nd ∧ Some m ∈ input_meta_data_ nd.

Record pass_ok : Prop := mkPassOk {
  b_wf : graph_wf h;
  b_body : well_behaved h create_graph;
  b_quiet : ∀ m a, metas h !! m = Some a → acc_tensor_ a = None;
  b_outputs : ∀ o, o ∈ outputs → ∃ n, grad_fn_node_ o = Some n ∧ autograd_meta_ o ∈ outs_of h n;
  b_once : NoDup pass_roots;
  b_grads : (length outputs ≤ length out_grads)%nat;
  b_small : Z.of_nat (edge_count h) < 2 ^ 31
}.
(** Every tensor whose gradient is to be stored receives one. *)
Definition wanted_ok (save : bool) : Prop :=
  ∀ n m a, reach h pass_roots n → m ∈ outs_of h n → metas h !! m = Some a → wanted save a = true → receives m.
Definition backward_ok : Prop := pass_ok ∧ wanted_ok true.
Context (Hok : pass_ok).

Lemma outs_node (n m : Z) : m ∈ outs_of h n → is_Some (nodes h !! n).
Proof. unfold outs_of. destruct (nodes h !! n); [by eexists|by intros ?%elem_of_nil]. Qed.

Lemma edge_exists (n q : Z) : edge h n q → is_Some (nodes h !! q).
Proof.
  unfold edge, next_of. destruct (nodes h !! n) as [nd|] eqn:En; [|by intros ?%elem_of_nil]. intros [i Hi]%list_elem_of_lookup.
  destruct (Forall2_lookup_r _ _ _ _ _ (w_next _ (b_wf Hok) n nd En) Hi) as (m & _ & _ & Hm). by eapply outs_node.
Qed.

Lemma root_output (r : Z) : r ∈ pass_roots → ∃ o, o ∈ outputs ∧ grad_fn_node_ o = Some r ∧ autograd_meta_ o ∈ outs_of h r.
Proof.
  intros (o & Ho & Er)%list_elem_of_omap. exists o. destruct (b_outputs Hok o Ho) as (n & En & Hn). rewrite Er in En. by injection En as <-.
Qed.

Lemma reach_exists (n : Z) : reach h pass_roots n → is_Some (nodes h !! n).
Proof.
  intros (r & Hr & Hrt). apply rtc_inv_r in Hrt as [->|(k & _ & Hk)]; [|by eapply edge_exists].
  destruct (root_output _ Hr) as (o & _ & _ & Ho). by eapply outs_node.
Qed.

(** Each node of the pass has an output that receives a gradient. *)
Lemma reach_receives (n : Z) : reach h pass_roots n → ∃ m, m ∈ outs_of h n ∧ receives m.
Proof.
  intros (r & Hr & Hrt). apply rtc_inv_r in Hrt as [->|(k & Hk & Hkn)].
  - destruct (root_output _ Hr) as (o & Ho & _ & Hm). exists (autograd_meta_ o). split; [done|]. left. apply list_elem_of_fmap. by exists o.
  - unfold edge, next_of in Hkn. destruct (nodes h !! k) as [nd|] eqn:Ek; [|by apply elem_of_nil in Hkn].
    apply list_elem_of_lookup in Hkn as [i Hi]. destruct (Forall2_lookup_r _ _ _ _ _ (w_next _ (b_wf Hok) k nd Ek) Hi) as (m & Hm & _ & Hmn).
    exists m. split; [done|]. right. exists k, nd. split; [by exists r|]. split; [done|].
    apply list_elem_of_lookup_2, list_elem_of_omap in Hm as (x & Hx & E). cbn in E. by subst x.
Qed.

(** There are no more nodes than roots and edges. *)
Lemma reach_length (R : list Z) : NoDup R → (∀ q, q ∈ R ↔ reach h pass_roots q) → (length R ≤ length pass_roots + edge_count h)%nat.
Proof.
  intros Hnd HR. assert (Hs : R ⊆+ pass_roots ++ (R ≫= next_of h)).
  { apply NoDup_submseteq; [done|]. intros q (r & Hr & Hrt)%HR. apply elem_of_app. apply rtc_inv_r in Hrt as [->|(k & Hk & Hkq)]; [by left|].
    right. apply list_elem_of_bind. exists k. split; [done|]. apply HR. by exists r. }
  apply submseteq_length in Hs. rewrite length_app in Hs.
  assert (He : length (R ≫= next_of h) = edge_total h R).
  { clear. induction R as [|n R IH]; [done|]. cbn. rewrite length_app. unfold edges_from in *. cbn. by f_equal. }
  pose proof (edge_total_bound h R Hnd (λ n Hn, reach_exists n (proj1 (HR n) Hn))). lia.
Qed.

Lemma new_task (h1 : heap T) : new_GraphTask h1 outputs retain create_graph = Ret (mkTask retain create_graph pass_roots ∅ None).
Proof.
  unfold new_GraphTask, pass_roots. set (f := λ t, match grad_fn_node_ t with Some n => n | None => 0 end).
  rewrite (omap_list_Ret _ f).
  - cbn [obind]. f_equal. f_equal. pose proof (b_outputs Hok) as Ho. clear -Ho. induction outputs as [|o os IH]; [done|]. cbn.
    destruct (Ho o (list_elem_of_here _ _)) as (n & En & _). unfold f at 1. rewrite En. f_equal. apply IH. intros x Hx. apply Ho. by right.
  - apply Forall_forall. intros o Ho. destruct (b_outputs Hok o Ho) as (n & En & _). unfold f. by rewrite En.
Qed.

Lemma pass_roots_exist (r : Z) : r ∈ pass_roots → is_Some (nodes h !! r).
Proof. intros Hr. destruct (root_output _ Hr) as (o & _ & _ & Ho). by eapply outs_node. Qed.

Lemma reach_closed (n q : Z) : reach h pass_roots n → q ∈ next_of h n → reach h pass_roots q.
Proof. intros (r & Hr & Hrt) Hq. exists r. split; [done|]. by eapply rtc_r. Qed.

(** The gradients of the outputs have arrived. *)
Lemma outputs_pushed : ∃ h1, ofold (push_out_grad Add) (zip outputs out_grads) h = Ret h1 ∧ nodes h1 = nodes h ∧ tensors h1 = tensors h ∧
  ∀ m, metas h1 !! m = (λ a, set_current a (accumulate Add (init outputs out_grads m))) <$> metas h !! m.
Proof.
  destruct (push_outs Add (zip outputs out_grads) h) as (h1 & E & N & Et & M).
  { intros [o g] Ho%elem_of_zip_l. destruct (b_outputs Hok o Ho) as (n & _ & Hn). cbn. by apply (proj2 (w_outs _ (b_wf Hok) n)). }
  exists h1. split_and!; try done. intros m. rewrite M. destruct (metas h !! m) as [a|] eqn:Ea; [|done]. cbn. by rewrite (b_quiet Hok m a Ea).
Qed.

Lemma queue_start (R : list Z) (e : gmap Z ExecInfo) :
  (∀ q, q ∈ R ↔ reach h pass_roots q) → (∀ q, dependencies (info_of e q) = Z.of_nat (into h R q)) →
  let Q := filter (λ n, dependencies (info_of e n) = 0) pass_roots in NoDup Q ∧ ∀ q, q ∈ Q ↔ q ∈ R ∧ into h R q = 0%nat.
Proof.
  intros HR Hdeps. cbv zeta. split; [apply NoDup_filter, (b_once Hok)|]. intros q. rewrite list_elem_of_filter, Hdeps, HR. split.
  - intros [H0 Hq]. split; [by exists q|lia].
  - intros [(r & Hr & Hrt) H0]. split; [lia|]. apply rtc_inv_r in Hrt as [->|(k & Hk & Hkq)]; [done|]. exfalso.
    assert (0 < into h R q)%nat; [|lia]. apply into_elem. exists k. split; [|done]. apply HR. by exists r.
Qed.

(** The state in which the queue is first filled: [N] are the nodes to run and [P] the
    pruned ones. *)
Lemma start_running (save : bool) (N P : list Z) (caps : Z → list (Z * Z)) (captured0 : option (list (option T))) (e : gmap Z ExecInfo) (h1 : heap T) :
  (∀ q, q ∈ N ++ P ↔ reach h pass_roots q) → (∀ q, dependencies (info_of e q) = Z.of_nat (into h (N ++ P) q)) →
  (∀ q, q ∈ N ++ P → need_execute (info_of e q) = bool_decide (q ∈ N)) →
  (∀ q, q ∈ N → capture_indices (info_of e q) = match caps q with [] => None | l => Some l end) →
  nodes h1 = nodes h → tensors h1 = tensors h →
  (∀ m, metas h1 !! m = (λ a, set_current a (accumulate Add (init outputs out_grads m))) <$> metas h !! m) →
  running Add sync_grad h create_graph save outputs out_grads N P retain caps captured0 [] N [] P
    (filter (λ n, dependencies (info_of e n) = 0) pass_roots) (mkTask retain create_graph pass_roots e captured0) h1 (λ m, accumulate Add (init outputs out_grads m)).
Proof.
  intros HR Hdeps Hneed Hcap En Et M. split; cbn [grad_fn2exec_info_ create_graph_ retain_graph_ captured_grads_]; try done.
  - intros n. rewrite En. unfold node_in. rewrite bool_decide_eq_false_2 by apply not_elem_of_nil. cbn. by destruct (nodes h !! n).
  - intros m. cbn. by rewrite app_nil_r.
  - by intros n ?%elem_of_nil.
  - by intros n ?%elem_of_nil.
  - by apply queue_start.
Qed.

(** What the pass leaves behind. *)
Record passed (h' : heap T) (X : list Z) (G : Z → option T) : Prop := mkPassed {
  p_nodup : NoDup X;
  p_nodes : ∀ q, q ∈ X ↔ reach h pass_roots q;
  p_sums : ∀ m, G m = accumulate Add (init outputs out_grads m ++ (X ≫= contrib h create_graph G m));
  p_metas : ∀ m, metas h' !! m = (λ a, if owned h X m then settle Add sync_grad true m a (G m) else a) <$> metas h !! m;
  p_heap : ∀ n, nodes h' !! n = node_in retain X n <$> nodes h !! n;
  p_tensors : tensors h' = tensors h
}.

Lemma passed_quiet (h' : heap T) (X : list Z) (G : Z → option T) : passed h' X G → ∀ m a, metas h' !! m = Some a → acc_tensor_ a = None.
Proof.
  intros HP m a. rewrite (p_metas _ _ _ HP). destruct (metas h !! m) as [b|] eqn:Eb; [|done]. cbn. intros [= <-].
  destruct (owned h X m); [apply settle_idle|by eapply b_quiet].
Qed.

Lemma backward_runs : wanted_ok true → ∃ h' X G,
  RunBackwardAndSaveGrads4LeafTensor Add sync_grad h outputs out_grads retain create_graph = Ret h' ∧ passed h' X G.
Proof.
  intros Hw. unfold RunBackwardAndSaveGrads4LeafTensor, CHECK. rewrite (proj2 (Nat.leb_le _ _) (b_grads Hok)). cbn [obind].
  destruct outputs_pushed as (h1 & -> & En & Et & M). cbn [obind]. rewrite new_task. cbn [obind]. rewrite (ComputeDependencies_nodes h1 h) by done.
  destruct (ComputeDependencies_ok h edge_exists (b_small Hok) (mkTask retain create_graph pass_roots ∅ None)) as (e & R & -> & HC); [done|exact pass_roots_exist|].
  cbn [obind roots_] in *. destruct HC as (HRnd & HR & Hdeps & Hneed & Hcap).
  assert (Hhit : ∀ m, receives m ↔ hit h outputs R m).
  { intros m. unfold receives, hit. split; (intros [|(p & nd & Hp & ?)]; [by left|right; exists p, nd; by apply HR in Hp]). }
  assert (Hcl : ∀ n q, n ∈ R → q ∈ next_of h n → q ∈ R ++ []) by (intros n q Hn Hq; rewrite app_nil_r; rewrite HR in *; by eapply reach_closed).
  assert (HI := start_running true R [] (λ _, []) None e h1). rewrite app_nil_r in HI.
  assert (Hneed' : ∀ q, q ∈ R → need_execute (info_of e q) = bool_decide (q ∈ R)) by (intros q Hq; by rewrite bool_decide_eq_true_2, Hneed).
  specialize (HI HR Hdeps Hneed' (λ q _, Hcap q) En Et M).
  edestruct (λ H1 H2 H3 H4 H5, task_loop_ok Add sync_grad h create_graph true (b_wf Hok) (b_body Hok) outputs out_grads R [] retain (λ _, []) None
    H1 Hcl H2 (λ q _, eq_refl) H3 H4 (λ n io _ Hio, False_ind _ (not_elem_of_nil _ Hio))
    (b_grads Hok) (b_small Hok) (length pass_roots + edge_count h)%nat _ _ _ _ _ _ _ _ HI H5) as (t' & h' & G & X & K & V & EL & HF).
  - by rewrite app_nil_r.
  - intros n Hn. rewrite app_nil_r in Hn. by apply reach_exists, HR.
  - intros n (m & Hm & Hr%Hhit)%HR%reach_receives. by exists m.
  - intros n m a Hn Hm Ha Hwa. apply Hhit. apply HR in Hn. by eapply Hw.
  - rewrite Nat.add_0_r. by apply reach_length.
  - unfold task_Apply, set_info. cbn [roots_ grad_fn2exec_info_ retain_graph_ create_graph_ captured_grads_].
    replace (edge_count h1) with (edge_count h) by (unfold edge_count; by rewrite En). rewrite EL. cbn [obind]. exists h', X, G. split; [done|].
    pose proof HF as [r_split r_pruned r_nodes r_tensors r_metas r_sums r_done _ _ _ _ _ _ _]. rewrite app_nil_r in r_split.
    symmetry in r_pruned. apply Permutation_nil in r_pruned. apply app_nil in r_pruned as [-> ->]. split; try done.
    + by rewrite r_split.
    + intros q. by rewrite r_split.
    + intros m. rewrite r_metas. destruct (metas h !! m) as [a|] eqn:Ea; [|done]. cbn. f_equal. unfold meta_in. destruct (owned h X m) eqn:Eo; [done|].
      cbn. rewrite (unowned_none _ _ _ _ _ (b_wf Hok) _ _ _ _ _ _ _ Hcl _ _ _ _ _ _ m HF).
      * rewrite <- (b_quiet Hok m a Ea). apply set_current_same.
      * intros o Ho. destruct (b_outputs Hok o Ho) as (n & En' & Hn). exists n. split; [|done]. rewrite app_nil_r. apply HR. exists n. split; [|done].
        apply list_elem_of_omap. by exists o.
      * rewrite app_nil_r. apply not_owned. intros n Hn. rewrite <- r_split in Hn. by apply (proj1 (not_owned h X m) Eo).
Qed.
End Chain.

(** C5 A backward pass computes the chain rule: on a well formed graph of fewer than 2^31
    edges whose backward functions return and give gradients of the arity of their inputs,
    for outputs of distinct nodes with a gradient for each, when no partial gradient is left
    over from an earlier pass and every tensor whose gradient is to be stored receives one,
    [RunBackwardAndSaveGrads4LeafTensor] returns; the nodes that run are
    the nodes the outputs reach, each once; the gradient of every tensor is the sum of the
    gradients given by the caller and those sent by the nodes that use it, each node being
    given the full gradients of its outputs; leaves and tensors that retain their gradient
    accumulate it; no other meta changes and no partial gradient is left behind. *)
Theorem backward_chain_rule {T : Type} (Add : T → T → T) (sync_grad : Z → T → option T) (h : heap T) (create_graph retain : bool)
    (outputs : list Tensor) (out_grads : list T) (Hok : backward_ok h create_graph outputs out_grads) :
  ∃ h' X G, RunBackwardAndSaveGrads4LeafTensor Add sync_grad h outputs out_grads retain create_graph = Ret h' ∧
    passed Add sync_grad h create_graph retain outputs out_grads h' X G ∧ ∀ m a, metas h' !! m = Some a → acc_tensor_ a = None.
Proof.
  destruct Hok as [Hp Hw]. destruct (backward_runs Add sync_grad h create_graph retain outputs out_grads Hp Hw) as (h' & X & G & E & HP).
  exists h', X, G. split_and!; [done|done|]. by eapply passed_quiet.
Qed.

Module ChainDemo.
(** [z = x * y] and [w = z + z], with the backward pass from [w]. *)
Definition H : heap Z := match AddNodes (λ _, 0) BuildDemo.ops Demo.start with Ret h => h | _ => Demo.start end.
Definition w : Tensor := mkTensor 7 (Some 3) 0.

Lemma H_ok : heap_ok H.
Proof. apply (AddNodes_ok (λ _, 0) BuildDemo.ops Demo.start); [apply BuildDemo.start_ok|reflexivity]. Qed.

Definition acc_node (m : Z) : FunctionNode Z := mkNode [] [] [m] [0] (Some accumulate_fn) [].
Definition mul_node : FunctionNode Z := mkNode [0; 1] [Some 4; Some 5] [6] [0] (Some (Demo.mul_fn 5 7)) [].
Definition add_node : FunctionNode Z := mkNode [2; 2] [Some 6; Some 6] [7] [0] (Some Demo.add_fn) [].

Lemma H_sizes : size (nodes H) = 4%nat ∧ size (metas H) = 8%nat ∧ edge_count H = 4%nat.
Proof. vm_compute. done. Qed.
Lemma H_nodes : nodes H !! 0 = Some (acc_node 4) ∧ nodes H !! 1 = Some (acc_node 5) ∧ nodes H !! 2 = Some mul_node ∧ nodes H !! 3 = Some add_node.
Proof. vm_compute. done. Qed.
Lemma H_results : metas H !! 6 = Some Demo.inner ∧ metas H !! 7 = Some Demo.inner.
Proof. vm_compute. done. Qed.

Lemma H_no_partial : forallb (λ km, Empty km.2) (map_to_list (metas H)) = true.
Proof. vm_compute. done. Qed.

Local Opaque H.

Lemma H_node (n : Z) (nd : FunctionNode Z) : nodes H !! n = Some nd →
  n = 0 ∧ nd = acc_node 4 ∨ n = 1 ∧ nd = acc_node 5 ∨ n = 2 ∧ nd = mul_node ∨ n = 3 ∧ nd = add_node.
Proof.
  intros E. assert (Hs : is_Some (nodes H !! n)) by (by eexists). apply (o_nodes _ H_ok) in Hs. rewrite (proj1 H_sizes) in Hs.
  destruct H_nodes as (E0 & E1 & E2 & E3). assert (Hn : n = 0 ∨ n = 1 ∨ n = 2 ∨ n = 3) by lia.
  destruct Hn as [->|[->|[->| ->]]]; rewrite E in *; [injection E0 as ->|injection E1 as ->|injection E2 as ->|injection E3 as ->]; tauto.
Qed.

Lemma H_body : well_behaved H false.
Proof.
  intros n nd G E (m & Hm & Hg). destruct (H_node n nd E) as [[-> ->]|[[-> ->]|[[-> ->]|[-> ->]]]]; clear E.
  - exists []. split; [reflexivity|constructor].
  - exists []. split; [reflexivity|constructor].
  - apply list_elem_of_singleton in Hm as ->. destruct (G 6) as [g|] eqn:Eg; [|done]. exists [Some (g * 7); Some (g * 5)].
    split; [|repeat apply Forall2_cons_2; try done; split; by eexists].
    unfold out_vec, out_grad. cbn [zip_with output_meta_data_ output_zeros_ mul_node]. by rewrite (proj1 H_results), Eg.
  - apply list_elem_of_singleton in Hm as ->. destruct (G 7) as [g|] eqn:Eg; [|done]. exists [Some g; Some g].
    split; [|repeat apply Forall2_cons_2; try done; split; by eexists].
    unfold out_vec, out_grad. cbn [zip_with output_meta_data_ output_zeros_ add_node]. by rewrite (proj2 H_results), Eg.
Qed.

Lemma H_quiet (m : Z) (a : AutogradMeta Z) : metas H !! m = Some a → acc_tensor_ a = None.
Proof.
  intros E%elem_of_map_to_list%list_elem_of_In. pose proof (proj1 (forallb_forall _ _) H_no_partial _ E) as He. unfold Empty in He. cbn in He.
  by destruct (acc_tensor_ a).
Qed.

Lemma H_reach (p : Z) : p = 3 ∨ p = 2 → reach H (pass_roots [w]) p.
Proof.
  intros Hp. exists 3. split; [left|]. destruct Hp as [->| ->]; [done|]. apply rtc_once. unfold edge, next_of.
  rewrite (proj2 (proj2 (proj2 H_nodes))). left.
Qed.

Lemma request_pass : pass_ok H false [w] [1].
Proof.
  split.
  - apply (o_graph _ H_ok).
  - apply H_body.
  - apply H_quiet.
  - intros o ->%list_elem_of_singleton. exists 3. split; [done|]. unfold outs_of. rewrite (proj2 (proj2 (proj2 H_nodes))). left.
  - apply NoDup_singleton.
  - done.
  - rewrite (proj2 (proj2 H_sizes)). lia.
Qed.

(** Every output of a node of this graph receives a gradient. *)
Lemma H_receives (n m : Z) : m ∈ outs_of H n → receives H [w] m.
Proof.
  intros Hm. destruct H_nodes as (E0 & E1 & E2 & E3). destruct (outs_node H n m Hm) as [nd E]. unfold outs_of in Hm. rewrite E in Hm.
  destruct (H_node n nd E) as [[-> ->]|[[-> ->]|[[-> ->]|[-> ->]]]]; apply list_elem_of_singleton in Hm as ->; unfold receives.
  - right. exists 2, mul_node. split; [apply H_reach; by right|]. split; [done|left].
  - right. exists 2, mul_node. split; [apply H_reach; by right|]. split; [done|right; left].
  - right. exists 3, add_node. split; [apply H_reach; by left|]. split; [done|left].
  - left. left.
Qed.

Lemma request_ok : backward_ok H false [w] [1].
Proof. split; [apply request_pass|]. intros n m a _ Hm _ _. by apply (H_receives n). Qed.

Lemma backward_chain_rule_witness : ∃ h' X G,
  RunBackwardAndSaveGrads4LeafTensor Z.add (λ _ _, None) H [w] [1] false false = Ret h' ∧
  passed Z.add (λ _ _, None) H false false [w] [1] h' X G ∧ ∀ m a, metas h' !! m = Some a → acc_tensor_ a = None.
Proof. exact (backward_chain_rule Z.add (λ _ _, None) H false false [w] [1] request_ok). Defined.
End ChainDemo.

(** ** Requests that fail *)

Module SplitDemo.
(** [(y, z) = split(x)], whose function holds a saved tensor. *)
Definition split_fn : BackwardFunction Z :=
  mkBackward (λ outs _ _, match outs with [Some a; Some b] => Ret [Some (a + b)] | _ => Fail RuntimeError end) true.
Definition start : heap Z :=
  mkHeap ∅ {[0 := Demo.leaf; 1 := Demo.inner; 2 := Demo.inner]}
    {[0 := mkTensor 0 None 0; 1 := mkTensor 1 None 0; 2 := mkTensor 2 None 0]}.
Definition set_retain (x : Z) (h : heap Z) : outcome (heap Z) :=
  let* t := deref (tensors h) x in
  upd_meta (λ a, Ret (mkMeta (is_leaf_ a) (requires_grad_ a) true (acc_grad_ a) (acc_tensor_ a) (hooks_ a) (post_grad_accumulation_hooks_ a)))
    h (autograd_meta_ t).
Definition graph : outcome (heap Z) := AddNodes (λ _, 0) [(split_fn, [0], [1; 2])] start.
(** The gradient of the leaf after a pass from [roots]; [z] may retain its gradient. *)
Definition run (retain_z : bool) (roots : list Z) (retain_graph : bool) : outcome (option Z) :=
  let* h := graph in
  let* h := if retain_z then set_retain 2 h else Ret h in
  let* h := Demo.backward h roots retain_graph in
  Ret (Demo.grad_of h 0).
End SplitDemo.

(** A backward pass from two outputs of the same operator fails when the graph is not
    retained: [GraphTask::Apply] queues their node twice, the first turn releases its
    function and the second reports a second backward.  A pass from one of them, or with
    [retain_graph], succeeds. *)
Theorem backward_from_two_outputs_fails :
  SplitDemo.run false [1; 2] false = Fail CheckFailedError ∧
  SplitDemo.run false [1; 2] true = Ret (Some 2) ∧
  SplitDemo.run false [1] false = Ret (Some 1).
Proof. vm_compute. done. Qed.

(** A backward pass fails when an output of a node that runs retains its gradient but
    receives none: [CopyOrAccGrad] would skip an absent gradient, but
    [current_grad_value] returns an error for it first. *)
Theorem retained_output_without_gradient_fails :
  SplitDemo.run true [1] false = Fail CheckFailedError ∧
  SplitDemo.run true [1; 2] true = Ret (Some 2) ∧
  SplitDemo.run false [1] false = Ret (Some 1).
Proof. vm_compute. done. Qed.

Module PenaltyDemo.
(** [y = 2 * x], [u = y * a], [v = y + 1], [loss = u + v] at [x = 3], [a = 5]. *)
Definition scale_fn (k : Z) : BackwardFunction Z :=
  mkBackward (λ outs _ _, match outs with [Some g] => Ret [Some (k * g)] | _ => Fail RuntimeError end) false.
Definition start : heap Z :=
  mkHeap ∅ {[0 := Demo.leaf; 1 := Demo.leaf; 2 := Demo.inner; 3 := Demo.inner; 4 := Demo.inner; 5 := Demo.inner]}
    {[0 := mkTensor 0 None 0; 1 := mkTensor 1 None 0; 2 := mkTensor 2 None 0; 3 := mkTensor 3 None 0; 4 := mkTensor 4 None 0; 5 := mkTensor 5 None 0]}.
Definition graph : outcome (heap Z) :=
  AddNodes (λ _, 0) [(scale_fn 2, [0], [2]); (Demo.mul_fn 6 5, [2; 1], [3]); (scale_fn 1, [2], [4]); (Demo.add_fn, [3; 4], [5])] start.
(** [autograd.grad(loss, a, retain_graph=True)]. *)
Definition grad_a (h : heap Z) : outcome (heap Z * option (list (option Z))) :=
  let* loss := deref (tensors h) 5 in
  let* a := deref (tensors h) 1 in
  RunBackwardAndReturnInputsTensorGrad Z.add (λ _ _, None) h [loss] [a] [1] true false false.
(** The gradient of [x] after [loss.backward()]. *)
Definition grad_x (h : heap Z) : outcome (option Z) :=
  let* h := Demo.backward h [5] true in Ret (Demo.grad_of h 0).
End PenaltyDemo.

(** [autograd.grad] leaves a partial gradient behind, and the next backward pass adds it
    to its own: a node that is pruned does not release its edges in [GraphTask::Apply], so a
    node below it that also received a gradient from a node that ran is never queued and its
    gradient never cleared.  For [loss = y * a + (y + 1)] with [y = 2 * x] the gradient of
    [x] is 12, but 22 after the gradient of [a] was asked for. *)
Theorem grad_spoils_next_backward :
  (let* h := PenaltyDemo.graph in PenaltyDemo.grad_x h) = Ret (Some 12) ∧
  (let* h := PenaltyDemo.graph in
   let* (h, g) := PenaltyDemo.grad_a h in
   let* x := PenaltyDemo.grad_x h in Ret (g, x)) = Ret (Some [Some 6], Some 22).
Proof. vm_compute. done. Qed.
