(* ===== verification/AutogradGrad.v ===== *)
(** * The gradients that [autograd.grad] returns

    [RunBackwardAndReturnInputsTensorGrad] returns, runs exactly the nodes on a path from
    an output to an input, and captures the gradients of the inputs that the chain rule
    gives.  It also says which partial gradients stay behind. *)
From stdpp Require Import relations.
From S2P Require Import Prelude Shape Digraph Autograd AutogradDeps AutogradSpec AutogradPrune AutogradBuild AutogradChain.

Section Captured.
Context {T : Type} (h : heap T) (inputs : list Tensor).

(** The gradient of the tensor [x] among the captured ones. *)
Definition input_value (G : Z → option T) (i : nat) : option T :=
  match inputs !! i with
  | Some x => match grad_fn_node_ x with Some n => cap_value h G n (grad_fn_output_index_ x, Z.of_nat i) | None => None end
  | None => None
  end.

Lemma cap_value_input (G : Z → option T) (n : Z) (io : Z * Z) : io ∈ caps inputs n → cap_value h G n io = input_value G (Z.to_nat io.2).
Proof.
  intros (i & x & Hx & Hg & ->)%caps_elem. unfold input_value. cbn [snd]. by rewrite Nat2Z.id, Hx, Hg.
Qed.

Lemma cap_fold_lookup (G : Z → option T) (n : Z) (l : list (Z * Z)) (c c' : list (option T)) (i : nat) :
  (∀ io, io ∈ l → io ∈ caps inputs n) → foldl (λ c io, <[Z.to_nat io.2 := cap_value h G n io]> <$> c) (Some c) l = Some c' → (i < length c)%nat →
  length c' = length c ∧ c' !! i = if decide (i ∈ map (λ io, Z.to_nat io.2) l) then Some (input_value G i) else c !! i.
Proof.
  revert c. induction l as [|io l IH]; intros c Hl E Hi; [by injection E as <-|]. cbn [foldl fmap option_fmap option_map] in E.
  assert (Hi' : (i < length (<[Z.to_nat io.2 := cap_value h G n io]> c))%nat) by (by rewrite length_insert).
  destruct (IH _ (λ x Hx, Hl x (list_elem_of_further _ _ _ Hx)) E Hi') as [H1 H2]. rewrite length_insert in H1. split; [done|]. rewrite H2. cbn [map].
  destruct (decide (i ∈ map (λ io, Z.to_nat io.2) l)) as [Hin|Hin]; [by rewrite decide_True by (by right)|].
  destruct (decide (i = Z.to_nat io.2)) as [->|Hne].
  - rewrite decide_True by left. rewrite list_lookup_insert_eq by done. f_equal. apply cap_value_input, Hl. left.
  - rewrite decide_False by (by intros [|]%elem_of_cons). by rewrite list_lookup_insert_ne.
Qed.

(** What position [i] holds once the nodes [X] have run. *)
Lemma captured_lookup (G : Z → option T) (X : list Z) (c c' : list (option T)) (i : nat) (x : Tensor) :
  foldl (cap_node h (caps inputs) G) (Some c) X = Some c' → length c = length inputs → inputs !! i = Some x →
  length c' = length inputs ∧
  c' !! i = match grad_fn_node_ x with Some n => if decide (n ∈ X) then Some (input_value G i) else c !! i | None => c !! i end.
Proof.
  intros E Hlc Hx. revert c E Hlc. induction X as [|n X IH]; intros c E Hlc.
  { injection E as <-. split; [done|]. by destruct (grad_fn_node_ x). }
  cbn [foldl] in E. unfold cap_node at 2 in E. destruct (cap_fold_length h G n (caps inputs n) c) as (c1 & E1 & Hl1). rewrite E1 in E.
  destruct (IH c1 E ltac:(lia)) as [H1 H2]. split; [done|]. rewrite H2.
  destruct (cap_fold_lookup G n (caps inputs n) c c1 i (λ _ H, H) E1) as [_ H3]; [apply lookup_lt_Some in Hx; lia|]. rewrite H3.
  assert (Hmem : i ∈ map (λ io, Z.to_nat io.2) (caps inputs n) ↔ grad_fn_node_ x = Some n).
  { rewrite list_elem_of_fmap. split.
    - intros (io & Hi & (j & y & Hy & Hg & ->)%caps_elem). cbn in Hi. rewrite Nat2Z.id in Hi. subst j. by rewrite Hx in Hy; injection Hy as <-.
    - intros Hg. exists (grad_fn_output_index_ x, Z.of_nat i). cbn. rewrite Nat2Z.id. split; [done|]. apply caps_elem. by exists i, x. }
  destruct (grad_fn_node_ x) as [k|].
  - destruct (decide (k ∈ X)) as [Hk|Hk]; [by rewrite decide_True by (by right)|]. destruct (decide (k = n)) as [->|Hne].
    + rewrite decide_True by (by apply Hmem). by rewrite decide_True by left.
    + rewrite decide_False by (intros ?%Hmem; congruence). by rewrite decide_False by (by intros [|]%elem_of_cons).
  - by rewrite decide_False by (by intros ?%Hmem).
Qed.
End Captured.

Section Grad.
Context {T : Type} (Add : T → T → T) (sync_grad : Z → T → option T) (h : heap T) (create_graph retain allow_unused : bool).
Context (outputs inputs : list Tensor) (out_grads : list T).

(** A node from which the node of an input is reached. *)
Definition leads_to_input (q : Z) : Prop := ∃ x n, x ∈ inputs ∧ grad_fn_node_ x = Some n ∧ rtc (edge h) q n.

Record grad_ok : Prop := mkGradOk {
  g_pass : pass_ok h create_graph outputs out_grads;
  g_wanted : wanted_ok h outputs false;
  g_inputs : ∀ x, x ∈ inputs →
    match grad_fn_node_ x with
    | None => allow_unused = true
    | Some n => outs_of h n !! Z.to_nat (grad_fn_output_index_ x) = Some (autograd_meta_ x) ∧
                (reach h (pass_roots outputs) n → receives h outputs (autograd_meta_ x))
    end
}.

(** What [autograd.grad] returns and leaves behind; [X] are the nodes that ran. *)
Record graded (h' : heap T) (c : list (option T)) (X : list Z) (G : Z → option T) : Prop := mkGraded {
  gr_nodup : NoDup X;
  gr_nodes : ∀ q, q ∈ X ↔ reach h (pass_roots outputs) q ∧ leads_to_input q;
  gr_sums : ∀ m, G m = accumulate Add (init outputs out_grads m ++ (X ≫= contrib h create_graph G m));
  gr_captured : length c = length inputs ∧ ∀ i x, inputs !! i = Some x →
    c !! i = Some match grad_fn_node_ x, metas h !! autograd_meta_ x with
                  | Some n, Some a => if decide (n ∈ X) then hooked a <$> G (autograd_meta_ x) else None
                  | _, _ => None
                  end;
  gr_metas : ∀ m a, metas h !! m = Some a → ∃ b, metas h' !! m = Some b ∧
    if owned h X m then b = settle Add sync_grad false m a (G m) else b = set_current a (acc_tensor_ b);
  gr_left : ∀ m b, metas h' !! m = Some b → acc_tensor_ b ≠ None →
    ∃ p q, reach h (pass_roots outputs) p ∧ edge h p q ∧ m ∈ outs_of h q ∧ ¬ leads_to_input p ∧ ¬ leads_to_input q
}.

Lemma leads_input (e0 : gmap Z ExecInfo) (q : Z) : marks e0 (caps inputs) → leads h e0 q ↔ leads_to_input q.
Proof.
  intros Hm. unfold leads, leads_to_input. split.
  - intros (k & Hr & Hk). apply (proj1 (proj2 (Hm k))) in Hk. destruct (caps inputs k) as [|io l] eqn:Ec; [done|].
    assert (Hio : io ∈ caps inputs k) by (rewrite Ec; left). apply caps_elem in Hio as (i & x & Hx & Hg & _). exists x, k. split_and!; [|done|done].
    by eapply list_elem_of_lookup_2.
  - intros (x & n & Hx & Hg & Hr). exists n. split; [done|]. apply (proj1 (proj2 (Hm n))). intros E. apply list_elem_of_lookup in Hx as [i Hi].
    apply (not_elem_of_nil (grad_fn_output_index_ x, Z.of_nat i)). rewrite <- E. apply caps_elem. by exists i, x.
Qed.

(** The nodes to run and the pruned ones. *)
Lemma split_needed (e : gmap Z ExecInfo) (R : list Z) : ∃ N P, N ++ P ≡ₚ R ∧ ∀ q, q ∈ N ↔ q ∈ R ∧ need_execute (info_of e q) = true.
Proof.
  exists (filter (λ q, need_execute (info_of e q) = true) R), (filter (λ q, need_execute (info_of e q) ≠ true) R). split.
  - apply filter_app_complement.
  - intros q. rewrite list_elem_of_filter. tauto.
Qed.

Context (Hok : grad_ok).

Lemma grad_prunes : ∃ e N P,
  ComputeDependenciesAndPruneNode h (mkTask retain create_graph (pass_roots outputs) ∅ None) inputs allow_unused =
    Ret (mkTask retain create_graph (pass_roots outputs) e (Some (replicate (length inputs) None))) ∧
  NoDup (N ++ P) ∧ (∀ q, q ∈ N ++ P ↔ reach h (pass_roots outputs) q) ∧ (∀ q, q ∈ N ↔ reach h (pass_roots outputs) q ∧ leads_to_input q) ∧
  (∀ q, dependencies (info_of e q) = Z.of_nat (into h (N ++ P) q)) ∧
  (∀ q, q ∈ N ++ P → need_execute (info_of e q) = bool_decide (q ∈ N)) ∧
  ∀ q, capture_indices (info_of e q) = match caps inputs q with [] => None | l => Some l end.
Proof.
  pose proof (g_pass Hok) as Hp.
  destruct (ComputeDependenciesAndPruneNode_ok h (edge_exists h create_graph outputs out_grads Hp) (next_lower h (b_wf _ _ _ _ Hp)) (b_small _ _ _ _ Hp)
    (mkTask retain create_graph (pass_roots outputs) ∅ None) inputs allow_unused) as (e & e0 & R & E & Hm & (HRnd & HR & Hdeps & Hneed & Hcap)); [done| | |].
  - cbn. apply (pass_roots_exist h create_graph outputs out_grads Hp).
  - intros x Hx Hn. pose proof (g_inputs Hok x Hx) as Hi. by rewrite Hn in Hi.
  - destruct (split_needed e R) as (N & P & HNP & HN). exists e, N, P. cbn [roots_ retain_graph_ create_graph_] in *. split; [done|].
    split_and!.
    + by rewrite HNP.
    + intros q. by rewrite HNP.
    + intros q. rewrite HN, HR. split; (intros [Hq Hl]; split; [done|]).
      * rewrite Hneed in Hl by (by apply HR). by eapply leads_input.
      * apply Hneed; [by apply HR|]. by eapply leads_input.
    + intros q. rewrite Hdeps. f_equal. apply into_perm. by symmetry.
    + intros q Hq. rewrite HNP in Hq. destruct (need_execute (info_of e q)) eqn:Eq.
      * symmetry. apply bool_decide_eq_true, HN. done.
      * symmetry. apply bool_decide_eq_false. intros [_ Ht]%HN. congruence.
    + intros q. rewrite Hcap. apply (Hm q).
Qed.

Lemma leads_pred (p q : Z) : q ∈ next_of h p → leads_to_input q → leads_to_input p.
Proof. intros Hq (x & n & Hx & Hg & Hr). exists x, n. split_and!; [done|done|]. by eapply rtc_l. Qed.

(** The state in which the queue is empty. *)
Lemma running_graded (N P X K V : list Z) (t : GraphTask T) (h' : heap T) (G : Z → option T) :
  NoDup (N ++ P) → (∀ q, q ∈ N ++ P ↔ reach h (pass_roots outputs) q) → (∀ q, q ∈ N ↔ reach h (pass_roots outputs) q ∧ leads_to_input q) →
  (∀ n q, n ∈ N → q ∈ next_of h n → q ∈ N ++ P) → (∀ q, q ∈ P → ¬ leads_to_input q) →
  running Add sync_grad h create_graph false outputs out_grads N P retain (caps inputs) (Some (replicate (length inputs) None)) X [] K V [] t h' G →
  ∃ c, captured_grads_ t = Some c ∧ graded h' c X G.
Proof.
  intros HRnd HR HN Hcl HPN HF. pose proof (g_pass Hok) as Hp. pose proof HF as [F1 F2 F3 F4 F5 F6 F7 F8 F9 F10 F11 F12 F13 F14]. rewrite app_nil_r in F1.
  destruct (captured_length h (caps inputs) (Some (replicate (length inputs) None)) X G (replicate (length inputs) None) eq_refl) as (c & Ec & Hlc). rewrite length_replicate in Hlc.
  exists c. split; [by rewrite F13|]. assert (HX : ∀ q, q ∈ X ↔ q ∈ N) by (intros q; by rewrite F1). split.
  - rewrite F1. by apply NoDup_app in HRnd as (? & _ & _).
  - intros q. by rewrite HX, HN.
  - done.
  - split; [done|]. intros i x Hx. destruct (captured_lookup h inputs G X (replicate (length inputs) None) c i x Ec (length_replicate _ _) Hx) as [_ ->].
    rewrite lookup_replicate_2 by (by eapply lookup_lt_Some). pose proof (g_inputs Hok x (list_elem_of_lookup_2 _ _ _ Hx)) as Hi.
    destruct (grad_fn_node_ x) as [n|] eqn:Eg; [|done]. destruct Hi as [Ho _]. unfold input_value, cap_value. rewrite Hx, Eg. cbn [fst]. rewrite Ho.
    destruct (metas h !! autograd_meta_ x); by case_decide.
  - intros m a Ea. rewrite F5, Ea. eexists. split; [done|]. unfold meta_in. destruct (owned h X m); [done|]. by destruct (owned h K m).
  - intros m b Eb Hb. rewrite F5 in Eb. destruct (metas h !! m) as [a|]; [|done]. cbn in Eb. injection Eb as <-.
    destruct (owned h (X ++ K) m) eqn:Eo; [by rewrite meta_in_idle in Hb|]. rewrite meta_in_fresh in Hb by done. cbn in Hb.
    destruct (owned h (N ++ P) m) eqn:Eall.
    + apply owned_elem in Eall as (q & Hq & Hm). rewrite not_owned in Eo. assert (HqV : q ∈ V).
      { rewrite <- F1, <- F2 in Hq. pose proof (Eo q) as Hno. rewrite !elem_of_app in Hq. rewrite elem_of_app in Hno. naive_solver. }
      assert (HqP : q ∈ P) by (rewrite <- F2; apply elem_of_app; by right). destruct F9 as [_ HQ]. cbn [app] in HQ.
      destruct (into h P q) as [|k] eqn:Ei; [by destruct (not_elem_of_nil q (proj2 (HQ q) (conj HqV Ei)))|].
      destruct (proj1 (into_elem (next_of h) P q)) as (p & HpP & Hpq); [lia|]. exists p, q. split_and!; [|done|done|by apply HPN|by apply HPN].
      apply HR, elem_of_app. by right.
    + destruct Hb. apply (unowned_none _ _ _ _ _ (b_wf _ _ _ _ Hp) _ _ _ _ _ _ _ Hcl _ _ _ _ _ _ m HF); [|done]. intros o Ho.
      destruct (b_outputs _ _ _ _ Hp o Ho) as (n & Eno & Hn). exists n. split; [|done]. apply HR. exists n. split; [|done]. apply list_elem_of_omap. by exists o.
Qed.

Lemma grad_runs : ∃ h' c X G,
  RunBackwardAndReturnInputsTensorGrad Add sync_grad h outputs inputs out_grads retain create_graph allow_unused = Ret (h', Some c) ∧ graded h' c X G.
Proof.
  pose proof (g_pass Hok) as Hp. unfold RunBackwardAndReturnInputsTensorGrad, CHECK. rewrite (proj2 (Nat.leb_le _ _) (b_grads _ _ _ _ Hp)). cbn [obind].
  destruct (outputs_pushed Add h create_graph outputs out_grads Hp) as (h1 & -> & En & Et & M). cbn [obind].
  rewrite (new_task h create_graph retain outputs out_grads Hp). cbn [obind]. rewrite (prune_nodes h1 h) by done.
  destruct grad_prunes as (e & N & P & -> & HRnd & HR & HN & Hdeps & Hneed & Hcap). cbn [obind].
  assert (Hhit : ∀ n m, n ∈ N → m ∈ outs_of h n → receives h outputs m → hit h outputs N m).
  { intros n m Hn Hm [|(p & nd & Hpr & Ep & Hpm)]; [by left|]. right. exists p, nd. split_and!; try done. apply HN in Hn as [_ Hl]. apply HN. split; [done|].
    destruct (input_owner h (b_wf _ _ _ _ Hp) p m nd Ep Hpm) as (q & Hq & _ & Hmq). rewrite (w_unique _ (b_wf _ _ _ _ Hp) q n m Hmq Hm) in Hq. by eapply leads_pred. }
  assert (Hcl : ∀ n q, n ∈ N → q ∈ next_of h n → q ∈ N ++ P).
  { intros n q Hn Hq. apply HR. apply HN in Hn as [Hn _]. by eapply (reach_closed h). }
  assert (HPN : ∀ q, q ∈ P → ¬ leads_to_input q).
  { intros q Hq Hl. apply NoDup_app in HRnd as (_ & Hd & _). apply (Hd q); [|done]. apply HN. split; [|done]. apply HR, elem_of_app. by right. }
  assert (HPi : ∀ q, q ∈ N → into h P q = 0%nat).
  { intros q Hq. destruct (into h P q) as [|k] eqn:Ei; [done|]. destruct (proj1 (into_elem (next_of h) P q)) as (p & Hpp & Hpq); [lia|]. exfalso.
    apply (HPN p Hpp). eapply leads_pred; [exact Hpq|]. by apply HN. }
  assert (HI := start_running Add sync_grad h create_graph retain outputs out_grads Hp false N P (caps inputs) (Some (replicate (length inputs) None)) e h1
    HR Hdeps Hneed (λ q _, Hcap q) En Et M).
  edestruct (λ H1 H2 H3 H4 H5, task_loop_ok Add sync_grad h create_graph false (b_wf _ _ _ _ Hp) (b_body _ _ _ _ Hp) outputs out_grads N P retain (caps inputs)
    (Some (replicate (length inputs) None)) HRnd Hcl H1 HPi H2 H3 H4
    (b_grads _ _ _ _ Hp) (b_small _ _ _ _ Hp) (length (pass_roots outputs) + edge_count h)%nat _ _ _ _ _ _ _ _ HI H5) as (t' & h' & G & X & K & V & EL & HF).
  - intros n Hn. by eapply (reach_exists h), HR.
  - intros n Hn. destruct (reach_receives h create_graph outputs out_grads Hp n) as (m & Hm & Hr); [by apply HN|]. exists m. split; [done|]. by eapply Hhit.
  - intros n m a Hn Hm Ha Hw. eapply Hhit; [done|done|]. eapply (g_wanted Hok); [by apply HN|done|done|done].
  - intros n io Hn (i & x & Hx & Hg & ->)%caps_elem. assert (Hxi : x ∈ inputs) by (by eapply list_elem_of_lookup_2).
    pose proof (g_inputs Hok x Hxi) as Hi. rewrite Hg in Hi. destruct Hi as [Ho Hr]. exists (autograd_meta_ x), (replicate (length inputs) None). cbn [fst snd].
    rewrite Nat2Z.id, length_replicate. split_and!; [done| |done|by eapply lookup_lt_Some]. eapply Hhit; [done|by eapply list_elem_of_lookup_2|]. by apply Hr, HN.
  - rewrite <- length_app. by apply (reach_length h create_graph outputs out_grads Hp).
  - unfold task_Apply. cbn [roots_ grad_fn2exec_info_].
    replace (edge_count h1) with (edge_count h) by (unfold edge_count; by rewrite En). rewrite EL. cbn [obind].
    destruct (running_graded N P X K V t' h' G HRnd HR HN Hcl HPN HF) as (c & -> & HG). by exists h', c, X, G.
Qed.
End Grad.

(** C6 [autograd.grad] returns the gradients of the chain rule: on a well formed graph of
    fewer than 2^31 edges with well behaved backward functions, for outputs of distinct nodes
    with a gradient for each, when no partial gradient is left over from an earlier pass,
    every tensor that retains its gradient receives one, and every input is an output of the
    node it names (or is unused and allowed to be),
    [RunBackwardAndReturnInputsTensorGrad] returns; the nodes that run are exactly those on
    a path from an output to an input, each once; every input gets the sum of the gradients
    that flow into it (after its hooks), or nothing where no path leads to it; no leaf
    accumulates a gradient.  Partial gradients stay behind only on a pruned node that
    another pruned node points to. *)
Theorem grad_chain_rule {T : Type} (Add : T → T → T) (sync_grad : Z → T → option T) (h : heap T) (create_graph retain allow_unused : bool)
    (outputs inputs : list Tensor) (out_grads : list T) (Hok : grad_ok h create_graph allow_unused outputs inputs out_grads) :
  ∃ h' c X G, RunBackwardAndReturnInputsTensorGrad Add sync_grad h outputs inputs out_grads retain create_graph allow_unused = Ret (h', Some c) ∧
    graded Add sync_grad h create_graph outputs inputs out_grads h' c X G.
Proof. exact (grad_runs Add sync_grad h create_graph retain allow_unused outputs inputs out_grads Hok). Qed.

Module GradDemo.
(** The gradient of [w = x * y + x * y] with respect to [x]. *)
Definition x : Tensor := mkTensor 4 (Some 0) 0.

Lemma grad_request_ok : grad_ok ChainDemo.H false false [ChainDemo.w] [x] [1].
Proof.
  split.
  - apply ChainDemo.request_pass.
  - intros n m a _ Hm _ _. by apply (ChainDemo.H_receives n).
  - intros y ->%list_elem_of_singleton. cbn [grad_fn_node_ x].
    assert (Ho : outs_of ChainDemo.H 0 = [4]) by (unfold outs_of; by rewrite (proj1 ChainDemo.H_nodes)). rewrite Ho. split; [done|].
    intros _. apply (ChainDemo.H_receives 0). rewrite Ho. left.
Qed.

Lemma grad_chain_rule_witness : ∃ h' c X G,
  RunBackwardAndReturnInputsTensorGrad Z.add (λ _ _, None) ChainDemo.H [ChainDemo.w] [x] [1] false false false = Ret (h', Some c) ∧
  graded Z.add (λ _ _, None) ChainDemo.H false [ChainDemo.w] [x] [1] h' c X G.
Proof. exact (grad_chain_rule Z.add (λ _ _, None) ChainDemo.H false false false [ChainDemo.w] [x] [1] grad_request_ok). Defined.

Example gradient_of_x :
  match RunBackwardAndReturnInputsTensorGrad Z.add (λ _ _, None) ChainDemo.H [ChainDemo.w] [x] [1] false false false with
  | Ret (_, c) => c
  | _ => None
  end = Some [Some 14].
Proof. vm_compute. reflexivity. Qed.
End GradDemo.
