(* ===== verification/GraphAlgo.v ===== *)
(** * Graphs and their traversals

    Models [oneflow/core/graph/graph.h] and [graph/node.h], the template from which the
    graphs of operators, tasks and in-place relations are built.

    Nodes and edges are numbers that index the stores of a [Graph]; a pointer that may be
    null is an option.  A traversal is given its graph by functions that call a handler on
    every neighbour: here the lists of the neighbours, in the order of the calls.  A
    handler changes a state [S] that it captures and can return an error or abort.  Loops
    run on fuel; running out of it is an abort. *)
From S2P Require Import Prelude Util.

(** ** Traversals *)

Section Traversal.
Context {S : Type}.
Implicit Types (Handler : S → Z → outcome S) (s : S).

Definition bfs_push (st : list Z * gset Z) (x : Z) : list Z * gset Z :=
  let '(queue, queued_nodes) := st in
  if bool_decide (x ∈ queued_nodes) then (queue, queued_nodes) else (queue ++ [x], {[x]} ∪ queued_nodes).

Fixpoint bfs_loop (fuel : nat) (ForEachNext : Z → list Z) Handler (queue : list Z) (queued_nodes : gset Z) s : outcome S :=
  match queue with
  | [] => Ret s
  | cur_node :: queue =>
      match fuel with
      | O => Crash
      | Datatypes.S fuel =>
          let* s := Handler s cur_node in
          let '(queue, queued_nodes) := foldl bfs_push (queue, queued_nodes) (ForEachNext cur_node) in
          bfs_loop fuel ForEachNext Handler queue queued_nodes s
      end
  end.

Definition BfsForEachNode (fuel : nat) (starts : list Z) (ForEachNext : Z → list Z) Handler s : outcome S :=
  let '(queue, queued_nodes) := foldl bfs_push ([], ∅) starts in bfs_loop fuel ForEachNext Handler queue queued_nodes s.

Definition dfs_push (visited_nodes : gset Z) (stack : list Z) (next : Z) : list Z :=
  if bool_decide (next ∈ visited_nodes) then stack else next :: stack.

Fixpoint dfs_loop (fuel : nat) (ForEachNext : Z → list Z) Handler (stack : list Z) (visited_nodes : gset Z) s : outcome S :=
  match stack with
  | [] => Ret s
  | cur_node :: stack =>
      match fuel with
      | O => Crash
      | Datatypes.S fuel =>
          if bool_decide (cur_node ∈ visited_nodes) then dfs_loop fuel ForEachNext Handler stack visited_nodes s else
          let* s := Handler s cur_node in
          let visited_nodes := {[cur_node]} ∪ visited_nodes in
          dfs_loop fuel ForEachNext Handler (foldl (dfs_push visited_nodes) stack (ForEachNext cur_node)) visited_nodes s
      end
  end.

Definition DfsForEachNode (fuel : nat) (starts : list Z) (ForEachNext : Z → list Z) Handler s : outcome S :=
  dfs_loop fuel ForEachNext Handler (reverse starts) ∅ s.

(** *** Finish time first search: a stack of queues *)

Definition ffs_push (visited_nodes : gset Z) (st : list (list Z) * Z) (next : Z) : list (list Z) * Z :=
  let '(stack, next_unvisited_cnt) := st in
  if bool_decide (next ∈ visited_nodes) then st else
  match (if next_unvisited_cnt =? 0 then [] :: stack else stack) with
  | [] => st
  | top :: rest => ((top ++ [next]) :: rest, next_unvisited_cnt + 1)
  end.

Fixpoint ffs_loop (fuel : nat) (ForEachNext : Z → list Z) Handler (stack : list (list Z)) (visited_nodes handled_nodes : gset Z) s
    : outcome (gset Z * gset Z * S) :=
  match stack with
  | [] => Ret (visited_nodes, handled_nodes, s)
  | top :: rest =>
      match fuel with
      | O => Crash
      | Datatypes.S fuel =>
          match top with
          | [] => ffs_loop fuel ForEachNext Handler rest visited_nodes handled_nodes s
          | cur_node :: queue =>
              if bool_decide (cur_node ∈ handled_nodes) then ffs_loop fuel ForEachNext Handler (queue :: rest) visited_nodes handled_nodes s else
              let visited_nodes := {[cur_node]} ∪ visited_nodes in
              let '(stack, next_unvisited_cnt) := foldl (ffs_push visited_nodes) (stack, 0) (ForEachNext cur_node) in
              if next_unvisited_cnt =? 0 then
                let* s := Handler s cur_node in
                ffs_loop fuel ForEachNext Handler stack visited_nodes ({[cur_node]} ∪ handled_nodes) s
              else ffs_loop fuel ForEachNext Handler stack visited_nodes handled_nodes s
          end
      end
  end.

Definition ffs_start (fuel : nat) (ForEachNext : Z → list Z) Handler (st : gset Z * gset Z * S) (start : Z) : outcome (gset Z * gset Z * S) :=
  let '(visited_nodes, handled_nodes, s) := st in
  if bool_decide (start ∈ visited_nodes) then Ret st else ffs_loop fuel ForEachNext Handler [[start]] visited_nodes handled_nodes s.

Definition FfsForEachNode (fuel : nat) (ForEachStart : list Z) (ForEachNext : Z → list Z) Handler s : outcome S :=
  let* (_, s) := ofold (ffs_start fuel ForEachNext Handler) ForEachStart (∅, ∅, s) in Ret s.

(** *** Topological orders *)

Definition topo_start (ForEachInNode : Z → list Z) (st : list Z * gmap Z Z) (start : Z) : outcome (list Z * gmap Z Z) :=
  let '(queue, counter_in) := st in
  let* _ := CHECK (match ForEachInNode start with [] => true | _ => false end) in
  Ret (queue ++ [start], <[start := 0]> counter_in).

Definition topo_out (ForEachInNode : Z → list Z) (st : list Z * gmap Z Z) (out : Z) : list Z * gmap Z Z :=
  let '(queue, counter_in) := st in
  let count := match counter_in !! out with Some count => count | None => i32 (Z.of_nat (length (ForEachInNode out))) end in
  let count := i32 (count - 1) in
  (if count =? 0 then queue ++ [out] else queue, <[out := count]> counter_in).

Fixpoint topo_loop (fuel : nat) (on_out : list Z * gmap Z Z → Z → list Z * gmap Z Z) (ForEachOutNode : Z → list Z) Handler
    (queue : list Z) (counter_in : gmap Z Z) s : outcome S :=
  match queue with
  | [] => Ret s
  | cur_node :: queue =>
      match fuel with
      | O => Crash
      | Datatypes.S fuel =>
          let* s := Handler s cur_node in
          let '(queue, counter_in) := foldl on_out (queue, counter_in) (ForEachOutNode cur_node) in
          topo_loop fuel on_out ForEachOutNode Handler queue counter_in s
      end
  end.

Definition TopoFromStarts (fuel : nat) (starts : list Z) (ForEachInNode ForEachOutNode : Z → list Z) Handler s : outcome S :=
  let* (queue, counter_in) := ofold (topo_start ForEachInNode) starts ([], ∅) in
  topo_loop fuel (topo_out ForEachInNode) ForEachOutNode Handler queue counter_in s.

Definition topo_node (ForEachInNode : Z → list Z) (st : list Z * gmap Z Z) (node : Z) : list Z * gmap Z Z :=
  let '(queue, counter_in) := st in
  let count := i32 (Z.of_nat (length (ForEachInNode node))) in
  (if count =? 0 then queue ++ [node] else queue, <[node := count]> counter_in).

Definition topo_dec (st : list Z * gmap Z Z) (out : Z) : list Z * gmap Z Z :=
  let '(queue, counter_in) := st in
  let count := i32 (default 0 (counter_in !! out) - 1) in
  (if count =? 0 then queue ++ [out] else queue, <[out := count]> counter_in).

Definition TopoForEachNode (fuel : nat) (nodes : list Z) (ForEachInNode ForEachOutNode : Z → list Z) Handler s : outcome S :=
  let '(queue, counter_in) := foldl (topo_node ForEachInNode) ([], ∅) nodes in
  topo_loop fuel topo_dec ForEachOutNode Handler queue counter_in s.

(** The variants that look at the in-nodes of every out-node. *)
Definition dynamic_start (ForEachInNode : Z → list Z) (st : list Z * gset Z) (start : Z) : outcome (list Z * gset Z) :=
  let '(queue, has_queued) := st in
  let* _ := CHECK (match ForEachInNode start with [] => true | _ => false end) in
  Ret (queue ++ [start], {[start]} ∪ has_queued).

Definition is_ready (ForEachInNode : Z → list Z) (done : gset Z) (out : Z) : bool :=
  forallb (λ x, bool_decide (x ∈ done)) (ForEachInNode out) && negb (bool_decide (out ∈ done)).

Definition dynamic_out (ForEachInNode : Z → list Z) (st : list Z * gset Z) (out : Z) : list Z * gset Z :=
  let '(queue, has_queued) := st in
  if is_ready ForEachInNode has_queued out then (queue ++ [out], {[out]} ∪ has_queued) else st.

Fixpoint dynamic_loop (fuel : nat) (ForEachInNode ForEachOutNode : Z → list Z) Handler (queue : list Z) (has_queued : gset Z) s : outcome S :=
  match queue with
  | [] => Ret s
  | cur_node :: queue =>
      match fuel with
      | O => Crash
      | Datatypes.S fuel =>
          let* s := Handler s cur_node in
          let '(queue, has_queued) := foldl (dynamic_out ForEachInNode) (queue, has_queued) (ForEachOutNode cur_node) in
          dynamic_loop fuel ForEachInNode ForEachOutNode Handler queue has_queued s
      end
  end.

Definition TopoForEachNodeDynamic (fuel : nat) (starts : list Z) (ForEachInNode ForEachOutNode : Z → list Z) Handler s : outcome S :=
  let* (queue, has_queued) := ofold (dynamic_start ForEachInNode) starts ([], ∅) in
  dynamic_loop fuel ForEachInNode ForEachOutNode Handler queue has_queued s.

Definition dfs_topo_out (ForEachInNode : Z → list Z) (be_visited : gset Z) (stack : list Z) (out : Z) : list Z :=
  if is_ready ForEachInNode be_visited out then out :: stack else stack.

Fixpoint dfs_topo_loop (fuel : nat) (ForEachInNode ForEachOutNode : Z → list Z) Handler (stack : list Z) (be_visited : gset Z) s : outcome S :=
  match stack with
  | [] => Ret s
  | cur_node :: stack =>
      match fuel with
      | O => Crash
      | Datatypes.S fuel =>
          let* s := Handler s cur_node in
          let be_visited := {[cur_node]} ∪ be_visited in
          dfs_topo_loop fuel ForEachInNode ForEachOutNode Handler
            (foldl (dfs_topo_out ForEachInNode be_visited) stack (ForEachOutNode cur_node)) be_visited s
      end
  end.

Definition dfs_topo_start (ForEachInNode : Z → list Z) (stack : list Z) (start : Z) : outcome (list Z) :=
  let* _ := CHECK (match ForEachInNode start with [] => true | _ => false end) in Ret (start :: stack).

Definition DfsTopoForEachNode (fuel : nat) (starts : list Z) (ForEachInNode ForEachOutNode : Z → list Z) Handler s : outcome S :=
  let* stack := ofold (dfs_topo_start ForEachInNode) starts [] in
  dfs_topo_loop fuel ForEachInNode ForEachOutNode Handler stack ∅ s.
End Traversal.

(** ** Strongly connected components *)

Definition scc_insert (ret : gset Z) (node : Z) : outcome (gset Z) :=
  let* _ := CHECK (negb (bool_decide (node ∈ ret))) in Ret ({[node]} ∪ ret).

Fixpoint scc_loop (fuel : nat) (ForEachInNode : Z → list Z) (stack : list Z) (visited : gset Z) : outcome (option (gset Z)) :=
  match stack with
  | [] => Ret None
  | cur_node :: stack =>
      let ForEachUnvisitedInNode := λ node, filter (λ in_node, in_node ∉ visited) (ForEachInNode node) in
      let* ret := DfsForEachNode fuel [cur_node] ForEachUnvisitedInNode scc_insert ∅ in
      if Nat.ltb 1 (size ret) then Ret (Some ret) else scc_loop fuel ForEachInNode stack (visited ∪ ret)
  end.

Definition FindFirstNontrivialSCC (fuel : nat) (ForEachStart : list Z) (ForEachInNode ForEachOutNode : Z → list Z) : outcome (option (gset Z)) :=
  let* stack := FfsForEachNode fuel ForEachStart ForEachOutNode (λ stack node, Ret (node :: stack)) [] in
  scc_loop fuel ForEachInNode stack ∅.

(** ** Depth first, by distance to a sink *)

Section Distance.
Context {S : Type}.
(** [std::sort] of the out-nodes by decreasing distance. *)
Context (sort_desc : (Z → Z) → list Z → list Z).

Definition set_distance (ForEachOutNode : Z → list Z) (node2distance_to_sink : gmap Z Z) (node : Z) : outcome (gmap Z Z) :=
  let '(d, m) := foldl (λ '(d, m) out_node,
    (Z.max d (default 0 (m !! out_node)), match m !! out_node with Some _ => m | None => <[out_node := 0]> m end))
    (-1, node2distance_to_sink) (ForEachOutNode node) in
  Ret (<[node := d + 1]> m).

(** The comparison looks distances up with [at], which aborts for a node without one. *)
Definition sorted_outs (ForEachOutNode : Z → list Z) (node2distance_to_sink : gmap Z Z) (node : Z) : list Z :=
  sort_desc (λ n, default 0 (node2distance_to_sink !! n)) (ForEachOutNode node).
Definition distances_known (ForEachOutNode : Z → list Z) (node2distance_to_sink : gmap Z Z) (node : Z) : bool :=
  Nat.ltb (length (ForEachOutNode node)) 2 ||
  forallb (λ n, match node2distance_to_sink !! n with Some _ => true | None => false end) (ForEachOutNode node).

Definition DfsTopoForEachNodeSortByDistanceToSink (fuel : nat) (nodes starts : list Z) (ForEachInNode ForEachOutNode : Z → list Z)
    (Handler : S → Z → outcome S) (s : S) : outcome S :=
  let* _ := TopoForEachNode fuel nodes ForEachInNode ForEachOutNode (λ l n, Ret (l ++ [n])) [] in
  let* dist := TopoForEachNode fuel nodes ForEachOutNode ForEachInNode (set_distance ForEachOutNode) ∅ in
  DfsTopoForEachNode fuel starts ForEachInNode (sorted_outs ForEachOutNode dist)
    (λ s n, let* s := Handler s n in let* _ := CHECK (distances_known ForEachOutNode dist n) in Ret s) s.
End Distance.

(** ** Reachability *)

(** The words of a [BitSet] have 512 bits. *)
Definition BITSET_SIZE : Z := 512.

Definition bitset_Insert (b : list Z) (k : Z) : outcome (list Z) :=
  let* w := at_ b (k / BITSET_SIZE) in Ret (<[Z.to_nat (k / BITSET_SIZE) := Z.lor w (Z.shiftl 1 (k mod BITSET_SIZE))]> b).
Definition bitset_Contains (b : list Z) (k : Z) : outcome bool :=
  let* w := at_ b (k / BITSET_SIZE) in Ret (Z.testbit w (k mod BITSET_SIZE)).
Definition bitset_Merge (b other : list Z) : outcome (list Z) :=
  let* _ := CHECK (Nat.eqb (length b) (length other)) in Ret (zip_with Z.lor b other).
Definition bitset_Resize (b : list Z) (size : Z) : list Z :=
  let n := Z.to_nat (RoundUp size BITSET_SIZE / BITSET_SIZE) in take n (b ++ replicate n 0).

Record reach_ids := mkReach { node2id : gmap Z Z; id2ancestor : list (list Z); next_id : Z }.

Definition number_node (node_num : Z) (st : reach_ids) (node : Z) : outcome reach_ids :=
  let* b := at_ (id2ancestor st) (next_id st) in
  Ret (mkReach (match node2id st !! node with Some _ => node2id st | None => <[node := next_id st]> (node2id st) end)
         (<[Z.to_nat (next_id st) := bitset_Resize b node_num]> (id2ancestor st)) (next_id st + 1)).

Definition id_of (st : reach_ids) (node : Z) : outcome Z := match node2id st !! node with Some i => Ret i | None => Crash end.

Definition merge_in (node_id : Z) (st : reach_ids) (in_node : Z) : outcome reach_ids :=
  let* in_node_id := id_of st in_node in
  let* b := at_ (id2ancestor st) node_id in
  let* b := bitset_Insert b in_node_id in
  let anc := <[Z.to_nat node_id := b]> (id2ancestor st) in
  let* other := at_ anc in_node_id in
  let* b := bitset_Merge b other in
  Ret (mkReach (node2id st) (<[Z.to_nat node_id := b]> anc) (next_id st)).

Definition collect_ancestors (ForEachInNode : Z → list Z) (st : reach_ids) (node : Z) : outcome reach_ids :=
  let* node_id := id_of st node in
  let* _ := at_ (id2ancestor st) node_id in
  ofold (merge_in node_id) (ForEachInNode node) st.

Definition MakePredicatorIsReachable (fuel : nat) (nodes : list Z) (ForEachInNode ForEachOutNode : Z → list Z) : outcome (Z → Z → outcome bool) :=
  let node_num := Z.of_nat (length nodes) in
  let* st := TopoForEachNode fuel nodes ForEachInNode ForEachOutNode (number_node node_num) (mkReach ∅ (replicate (length nodes) []) 0) in
  let* st := TopoForEachNode fuel nodes ForEachInNode ForEachOutNode (collect_ancestors ForEachInNode) st in
  Ret (λ src dst,
    let* dst_id := id_of st dst in
    let* b := at_ (id2ancestor st) dst_id in
    let* src_id := id_of st src in
    bitset_Contains b src_id).

(** ** Connected components *)

Definition mark_component (id : Z) (node2component_id : gmap Z Z) (node : Z) : outcome (gmap Z Z) :=
  let* _ := CHECK (match node2component_id !! node with None => true | Some _ => false end) in Ret (<[node := id]> node2component_id).

Definition component_start (fuel : nat) (ForEachConnected : Z → list Z) (st : gmap Z Z * Z) (start : Z) : outcome (gmap Z Z * Z) :=
  let '(node2component_id, cur_component_id) := st in
  match node2component_id !! start with
  | Some _ => Ret st
  | None =>
      let cur_component_id := i32 (cur_component_id + 1) in
      let* m := BfsForEachNode fuel [start] ForEachConnected (mark_component cur_component_id) node2component_id in
      Ret (m, cur_component_id)
  end.

Definition add_to_component (m : gmap Z (gset Z)) (pair : Z * Z) : gmap Z (gset Z) :=
  <[pair.2 := {[pair.1]} ∪ default ∅ (m !! pair.2)]> m.

Definition ForEachConnectedComponent {S : Type} (fuel : nat) (ForEachNodeAsStart : list Z) (ForEachConnected : Z → list Z)
    (Handler : S → gset Z → outcome S) (s : S) : outcome S :=
  let* (node2component_id, _) := ofold (component_start fuel ForEachConnected) ForEachNodeAsStart (∅, 0) in
  let component_id2nodes := foldl add_to_component ∅ (map_to_list node2component_id) in
  ofold (λ s pair, Handler s pair.2) (map_to_list component_id2nodes) s.

(** ** The graph and its edges *)

Record NodeT := mkNodeT { in_edges_ : gset Z; out_edges_ : gset Z; sorted_in_edges_ : list Z; sorted_out_edges_ : list Z }.
Record EdgeT := mkEdgeT { src_node_ : option Z; dst_node_ : option Z }.
Record Graph := mkGraph { node_store : gmap Z NodeT; edge_store : gmap Z EdgeT; nodes_ : list Z; edges_ : list Z; node_ids : Z; edge_ids : Z }.

Definition the {A : Type} (m : gmap Z A) (p : Z) : outcome A := match m !! p with Some a => Ret a | None => Crash end.
Definition set_node (g : Graph) (n : Z) (x : NodeT) : Graph :=
  mkGraph (<[n := x]> (node_store g)) (edge_store g) (nodes_ g) (edges_ g) (node_ids g) (edge_ids g).
Definition set_edge (g : Graph) (e : Z) (x : EdgeT) : Graph :=
  mkGraph (node_store g) (<[e := x]> (edge_store g)) (nodes_ g) (edges_ g) (node_ids g) (edge_ids g).

Definition NewNode (g : Graph) : Graph * Z :=
  let n := node_ids g in
  (mkGraph (<[n := mkNodeT ∅ ∅ [] []]> (node_store g)) (edge_store g) (nodes_ g ++ [n]) (edges_ g) (n + 1) (edge_ids g), n).
Definition NewEdge (g : Graph) : Graph * Z :=
  let e := edge_ids g in
  (mkGraph (node_store g) (<[e := mkEdgeT None None]> (edge_store g)) (nodes_ g) (edges_ g ++ [e]) (node_ids g) (e + 1), e).

Definition Connect (g : Graph) (src_node edge dst_node : Z) : outcome Graph :=
  let* src := the (node_store g) src_node in
  let* _ := CHECK (negb (bool_decide (edge ∈ out_edges_ src))) in
  let g := set_node g src_node (mkNodeT (in_edges_ src) ({[edge]} ∪ out_edges_ src) (sorted_in_edges_ src) (sorted_out_edges_ src)) in
  let* dst := the (node_store g) dst_node in
  let* _ := CHECK (negb (bool_decide (edge ∈ in_edges_ dst))) in
  let g := set_node g dst_node (mkNodeT ({[edge]} ∪ in_edges_ dst) (out_edges_ dst) (sorted_in_edges_ dst) (sorted_out_edges_ dst)) in
  let* e := the (edge_store g) edge in
  let* _ := CHECK (match src_node_ e with None => true | Some _ => false end) in
  let* _ := CHECK (match dst_node_ e with None => true | Some _ => false end) in
  Ret (set_edge g edge (mkEdgeT (Some src_node) (Some dst_node))).

Definition DisConnect (g : Graph) (edge : Z) : outcome Graph :=
  let* e := the (edge_store g) edge in
  match src_node_ e, dst_node_ e with
  | Some src_node, Some dst_node =>
      let* src := the (node_store g) src_node in
      let* _ := CHECK (bool_decide (edge ∈ out_edges_ src)) in
      let g := set_node g src_node (mkNodeT (in_edges_ src) (out_edges_ src ∖ {[edge]}) (sorted_in_edges_ src) (sorted_out_edges_ src)) in
      let* dst := the (node_store g) dst_node in
      let* _ := CHECK (bool_decide (edge ∈ in_edges_ dst)) in
      let g := set_node g dst_node (mkNodeT (in_edges_ dst ∖ {[edge]}) (out_edges_ dst) (sorted_in_edges_ dst) (sorted_out_edges_ dst)) in
      Ret (set_edge g edge (mkEdgeT None None))
  | _, _ => Crash
  end.

Definition DeleteNode (g : Graph) (node : Z) : Graph :=
  mkGraph (delete node (node_store g)) (edge_store g) (Erase (λ n, n =? node) (nodes_ g)).1 (edges_ g) (node_ids g) (edge_ids g).

(** The neighbours of a node; every edge in its sets is connected. *)
Definition ForEachNodeOnInEdge (g : Graph) (n : Z) : list Z :=
  match node_store g !! n with
  | Some x => omap (λ e, match edge_store g !! e with Some e => src_node_ e | None => None end) (elements (in_edges_ x))
  | None => []
  end.
Definition ForEachNodeOnOutEdge (g : Graph) (n : Z) : list Z :=
  match node_store g !! n with
  | Some x => omap (λ e, match edge_store g !! e with Some e => dst_node_ e | None => None end) (elements (out_edges_ x))
  | None => []
  end.
Definition ForEachNodeOnInOutEdge (g : Graph) (n : Z) : list Z := ForEachNodeOnInEdge g n ++ ForEachNodeOnOutEdge g n.

Definition source_nodes (g : Graph) : list Z :=
  filter (λ n, (match node_store g !! n with Some x => bool_decide (in_edges_ x = ∅) | None => false end) = true) (nodes_ g).
Definition sink_nodes (g : Graph) : list Z :=
  filter (λ n, (match node_store g !! n with Some x => bool_decide (out_edges_ x = ∅) | None => false end) = true) (nodes_ g).

Definition SoleNodeOf (l : list Z) : outcome Z := match l with [n] => Ret n | _ => Crash end.
Definition SoleSourceNode (g : Graph) : outcome Z := SoleNodeOf (source_nodes g).
Definition SoleSinkNode (g : Graph) : outcome Z := SoleNodeOf (sink_nodes g).

(** The loop erases from the set it iterates over the element it stands at; advancing from
    there is undefined. *)
Definition disconnect_each (g : Graph) (edges : gset Z) : outcome Graph :=
  match elements edges with
  | [] => Ret g
  | edge :: _ => let* _ := DisConnect g edge in Crash
  end.
Definition DisconnectAllEdges (g : Graph) (node : Z) : outcome Graph :=
  let* x := the (node_store g) node in
  let* g := disconnect_each g (in_edges_ x) in
  let* x := the (node_store g) node in
  disconnect_each g (out_edges_ x).

Definition sort_node (sort : list Z → list Z) (g : Graph) (n : Z) : outcome Graph :=
  let* x := the (node_store g) n in
  Ret (set_node g n (mkNodeT (in_edges_ x) (out_edges_ x) (sort (elements (in_edges_ x))) (sort (elements (out_edges_ x))))).
Definition SortInOutEdges (sort : list Z → list Z) (g : Graph) : outcome Graph := ofold (sort_node sort) (nodes_ g) g.

Definition on_sorted (g : Graph) (edges : list Z) (end_of : EdgeT → option Z) : list Z :=
  omap (λ e, match edge_store g !! e with Some e => end_of e | None => None end) edges.
Definition ForEachNodeOnSortedInEdge (g : Graph) (n : Z) : list Z :=
  match node_store g !! n with Some x => on_sorted g (sorted_in_edges_ x) src_node_ | None => [] end.
Definition ForEachNodeOnSortedOutEdge (g : Graph) (n : Z) : list Z :=
  match node_store g !! n with Some x => on_sorted g (sorted_out_edges_ x) dst_node_ | None => [] end.

Section Methods.
Context {S : Type} (fuel : nat) (Handler : S → Z → outcome S).
Definition TopoGraph (g : Graph) (s : S) : outcome S := TopoForEachNode fuel (nodes_ g) (ForEachNodeOnInEdge g) (ForEachNodeOnOutEdge g) Handler s.
Definition ReverseTopoForEachNode (g : Graph) (s : S) : outcome S := TopoForEachNode fuel (nodes_ g) (ForEachNodeOnOutEdge g) (ForEachNodeOnInEdge g) Handler s.
Definition SortedTopoForEachNode (sort : list Z → list Z) (g : Graph) (s : S) : outcome S :=
  let* g := SortInOutEdges sort g in
  TopoForEachNode fuel (nodes_ g) (ForEachNodeOnSortedInEdge g) (ForEachNodeOnSortedOutEdge g) Handler s.
End Methods.

(** An example: the diamond [0 -> 1, 2 -> 3]. *)
Module Shapes.
Definition outs (n : Z) : list Z := if n =? 0 then [1; 2] else if (n =? 1) || (n =? 2) then [3] else [].
Definition ins (n : Z) : list Z := if n =? 3 then [1; 2] else if (n =? 1) || (n =? 2) then [0] else [].
Definition log (l : list Z) (n : Z) : outcome (list Z) := Ret (l ++ [n]).
End Shapes.

Example diamond_orders :
  TopoForEachNode 4 [3; 2; 1; 0] Shapes.ins Shapes.outs Shapes.log [] = Ret [0; 1; 2; 3] ∧
  DfsTopoForEachNode 4 [0] Shapes.ins Shapes.outs Shapes.log [] = Ret [0; 2; 1; 3] ∧
  BfsForEachNode 4 [0] Shapes.outs Shapes.log [] = Ret [0; 1; 2; 3] ∧
  FindFirstNontrivialSCC 20 [0; 1; 2; 3] Shapes.ins Shapes.outs = Ret None ∧
  (let* r := MakePredicatorIsReachable 4 [3; 2; 1; 0] Shapes.ins Shapes.outs in
   let* a := r 0 3 in let* b := r 1 2 in Ret (a, b)) = Ret (true, false).
Proof. vm_compute. done. Qed.

(** Between parallel edges the depth first topological traversal pushes the target once per
    edge and handles it once per push; the queue traversals handle it once. *)
Example parallel_edges_handled_twice :
  let outs (n : Z) := if n =? 0 then [1; 1] else [] in
  let ins (n : Z) := if n =? 1 then [0; 0] else [] in
  DfsTopoForEachNode 5 [0] ins outs Shapes.log [] = Ret [0; 1; 1] ∧ TopoForEachNode 5 [0; 1] ins outs Shapes.log [] = Ret [0; 1] ∧
  TopoForEachNodeDynamic 5 [0] ins outs Shapes.log [] = Ret [0; 1].
Proof. vm_compute. done. Qed.

(** Started from the target of the edge [2 -> 1] only, the search for components returns
    both nodes: the backward search is not restricted to nodes that the starts reach. *)
Example component_of_explicit_starts :
  let outs (n : Z) := if n =? 2 then [1] else [] in
  let ins (n : Z) := if n =? 1 then [2] else [] in
  FindFirstNontrivialSCC 5 [1] ins outs = Ret (Some {[1; 2]}) ∧ FindFirstNontrivialSCC 9 [1; 2] ins outs = Ret None.
Proof. vm_compute. done. Qed.
