(* ===== verification/GraphTopo.v ===== *)
(** * Topological orders

    [TopoForEachNode] calls its handler on the nodes of an order in which every node comes
    after its in-nodes; the order has all nodes exactly when the graph has no cycle. *)
From stdpp Require Import relations.
From S2P Require Import Prelude Util Digraph GraphAlgo.

(** The nodes of [X], each after its in-nodes. *)
Definition topo_order (ins : Z → list Z) (X : list Z) : Prop := ∀ X1 n X2, X = X1 ++ n :: X2 → ∀ m, m ∈ ins n → m ∈ X1.

Lemma topo_order_snoc (ins : Z → list Z) (X : list Z) (n : Z) : topo_order ins X → (∀ m, m ∈ ins n → m ∈ X) → topo_order ins (X ++ [n]).
Proof.
  intros HX Hn X1 k X2 E m Hm. destruct X2 as [|x X2 _] using rev_ind.
  - apply app_inj_tail in E as [-> ->]. by apply Hn.
  - rewrite app_comm_cons, app_assoc in E. apply app_inj_tail in E as [-> _]. by eapply HX.
Qed.

(** The in- and out-nodes describe the same edges, between nodes of the graph. *)
Record agree (nodes : list Z) (ins outs : Z → list Z) : Prop := mkAgree {
  a_nodup : NoDup nodes;
  a_outs : ∀ n q, n ∈ nodes → q ∈ outs n → q ∈ nodes;
  a_ins : ∀ n q, n ∈ nodes → q ∈ ins n → q ∈ nodes;
  a_occ : ∀ m n, m ∈ nodes → n ∈ nodes → occ n (outs m) = occ m (ins n)
}.

Lemma agree_sym (nodes : list Z) (ins outs : Z → list Z) : agree nodes ins outs → agree nodes outs ins.
Proof. intros [H1 H2 H3 H4]. split; try done. intros m n Hm Hn. by rewrite H4. Qed.

Lemma agree_elem (nodes : list Z) (ins outs : Z → list Z) (m n : Z) : agree nodes ins outs → m ∈ nodes → n ∈ nodes → n ∈ outs m ↔ m ∈ ins n.
Proof. intros HA Hm Hn. by rewrite !occ_elem, (a_occ _ _ _ HA m n Hm Hn). Qed.

(** A list whose elements are nodes is counted by the nodes. *)
Lemma length_by_occ (nodes l : list Z) : NoDup nodes → (∀ x, x ∈ l → x ∈ nodes) → length l = foldr (λ m k, occ m l + k)%nat 0%nat nodes.
Proof.
  intros Hnd. induction l as [|x l IH]; intros Hl.
  { assert (H0 : ∀ ns : list Z, foldr (λ m k, occ m [] + k)%nat 0%nat ns = 0%nat) by (induction ns; [done|]; cbn; done). by rewrite H0. }
  cbn [length]. rewrite IH by (intros y Hy; apply Hl; by right). specialize (Hl x (list_elem_of_here _ _)). clear IH.
  assert (Hsum : ∀ ns, NoDup ns → foldr (λ m k, occ m (x :: l) + k)%nat 0%nat ns = ((if decide (x ∈ ns) then 1 else 0) + foldr (λ m k, occ m l + k) 0 ns)%nat).
  { clear Hl Hnd. induction 1 as [|y ns Hy _ IHn]; [by case_decide as H; [apply elem_of_nil in H|]|]. cbn [foldr]. rewrite occ_cons, IHn.
    pose proof (elem_of_cons ns x y) as Hc. destruct (decide (x = y)) as [Hxy|Hne], (decide (x ∈ ns)), (decide (x ∈ y :: ns)); try lia; exfalso;
      try (subst x; done); tauto. }
  rewrite Hsum, decide_True by done. lia.
Qed.

Section Topo.
Context (nodes : list Z) (ins outs : Z → list Z) (HA : agree nodes ins outs).
Context (Hsmall : ∀ n, n ∈ nodes → Z.of_nat (length (ins n)) < 2 ^ 31).

Lemma in_degree (n : Z) : n ∈ nodes → length (ins n) = edges_into outs nodes n.
Proof.
  intros Hn. rewrite (length_by_occ nodes (ins n) (a_nodup _ _ _ HA)) by (intros x; by apply (a_ins _ _ _ HA)).
  assert (H : ∀ l, (∀ m, m ∈ l → m ∈ nodes) → foldr (λ m k, occ m (ins n) + k)%nat 0%nat l = edges_into outs l n).
  { induction l as [|m l IH]; intros Hl; [done|]. cbn [foldr]. rewrite into_cons, IH by (intros x Hx; apply Hl; by right).
    rewrite (a_occ _ _ _ HA m n); [done|apply Hl; left|done]. }
  by apply H.
Qed.

Record topo_state (X U Q : list Z) (c : gmap Z Z) : Prop := mkTopo {
  t_split : X ++ U ≡ₚ nodes;
  t_order : topo_order ins X;
  t_queue : NoDup Q ∧ ∀ q, q ∈ Q ↔ q ∈ U ∧ edges_into outs U q = 0%nat;
  t_count : ∀ q, q ∈ nodes → c !! q = Some (Z.of_nat (edges_into outs U q));
  t_done : ∀ q, q ∈ X → edges_into outs U q = 0%nat
}.

(** The counters after the edges of a node are released. *)
Lemma topo_decs (D : Z → nat) (l queue : list Z) (c : gmap Z Z) :
  (∀ q, q ∈ nodes → c !! q = Some (Z.of_nat (D q + occ q l)) ∧ Z.of_nat (D q + occ q l) < 2 ^ 31) → (∀ x, x ∈ l → x ∈ nodes) →
  NoDup queue → (∀ x, x ∈ l → x ∉ queue) →
  let '(queue', c') := foldl topo_dec (queue, c) l in
  NoDup queue' ∧ (∀ q, q ∈ queue' ↔ q ∈ queue ∨ q ∈ l ∧ D q = 0%nat) ∧ ∀ q, q ∈ nodes → c' !! q = Some (Z.of_nat (D q)).
Proof.
  revert queue c. induction l as [|x l IH]; intros queue c Hb Hl Hnd Hq; cbn [foldl].
  { split; [done|]. split.
    - intros q. split; [by left|]. intros [|[?%elem_of_nil _]]; done.
    - intros q Hin. destruct (Hb q Hin) as [-> _]. cbn. by rewrite Nat.add_0_r. }
  assert (Hx : x ∈ nodes) by (apply Hl; left).
  assert (Hd : i32 (default 0 (c !! x) - 1) = Z.of_nat (D x + occ x l)).
  { destruct (Hb x Hx) as [-> H2]. rewrite occ_cons, decide_True in * by done. cbn [default from_option id]. rewrite i32_small; lia. }
  unfold topo_dec at 2. rewrite Hd. set (c1 := <[x := _]> c). set (queue1 := if _ =? 0 then _ else _).
  assert (H1 : ∀ q, q ∈ queue1 ↔ q ∈ queue ∨ q = x ∧ (D x + occ x l = 0)%nat).
  { intros q. unfold queue1. destruct (Z.eqb_spec (Z.of_nat (D x + occ x l)) 0) as [H0|H0].
    - rewrite elem_of_app, list_elem_of_singleton. split; [intros [|]; [tauto|right; split; [done|lia]]|tauto].
    - split; [tauto|]. intros [|[_ ?]]; [done|lia]. }
  specialize (IH queue1 c1). destruct (foldl topo_dec _ l) as [queue' c']. destruct IH as (Hn & Hin & Hc).
  - intros q Hqn. unfold c1. destruct (Hb q Hqn) as [H2 H3]. rewrite occ_cons in H2, H3. destruct (decide (x = q)) as [->|Hne].
    + rewrite lookup_insert_eq. split; [done|lia].
    + rewrite lookup_insert_ne by done. done.
  - intros y Hy. apply Hl. by right.
  - unfold queue1. case_match; [|done]. apply NoDup_app. split_and!; [done| |apply NoDup_singleton].
    intros y Hy ->%list_elem_of_singleton. by apply (Hq x); [left|].
  - intros y Hy Hy1. apply H1 in Hy1 as [Hy1|[-> H0]]; [by apply (Hq y); [right|]|]. apply occ_elem in Hy. lia.
  - split; [done|]. split; [|done]. intros q. rewrite Hin, H1, elem_of_cons. destruct (decide (q = x)) as [->|]; [|tauto].
    destruct (decide (x ∈ l)) as [Hxl|Hxl]; [|pose proof Hxl as H0; rewrite occ_elem in H0; intuition lia].
    split; [intros [[|[_ ?]]|]; intuition lia|intuition].
Qed.

Lemma topo_step (X U Q : list Z) (c : gmap Z Z) (n : Z) : topo_state X U (n :: Q) c →
  ∃ U', U ≡ₚ n :: U' ∧ let '(Q', c') := foldl topo_dec (Q, c) (outs n) in topo_state (X ++ [n]) U' Q' c'.
Proof.
  intros [T1 T2 [Tq TQ] T4 T5]. apply NoDup_cons in Tq as [HnQ Tq]. destruct (proj1 (TQ n) (list_elem_of_here _ _)) as [HnU Hn0].
  destruct (proj1 (elem_of_Permutation _ _) HnU) as [U' HU]. exists U'. split; [done|].
  assert (Hin : ∀ q, q ∈ X ++ U ↔ q ∈ nodes) by (intros q; by rewrite T1).
  assert (Hnn : n ∈ nodes) by (apply Hin, elem_of_app; by right).
  assert (Hinto : ∀ q, edges_into outs U q = (edges_into outs U' q + occ q (outs n))%nat) by (intros q; rewrite (into_perm _ _ _ _ HU), into_cons; lia).
  assert (HUnd : NoDup (X ++ U)) by (rewrite T1; apply (a_nodup _ _ _ HA)).
  assert (HnU' : n ∉ U' ∧ n ∉ X).
  { rewrite HU in HUnd. apply NoDup_app in HUnd as (_ & Hd & Hu). apply NoDup_cons in Hu as [? _]. split; [done|]. intros Hx. apply (Hd n Hx). left. }
  pose proof (topo_decs (edges_into outs U') (outs n) Q c) as HD. destruct (foldl topo_dec (Q, c) (outs n)) as [Q' c'].
  destruct HD as (Hnd' & HQ' & Hc').
  { intros q Hq. rewrite <- Hinto. split; [by apply T4|]. pose proof (in_degree q Hq) as Hdeg. specialize (Hsmall q Hq).
    assert (edges_into outs U q ≤ edges_into outs nodes q)%nat; [|lia]. rewrite <- (into_perm _ _ _ _ T1), into_app. lia. }
  { intros x Hx. by apply (a_outs _ _ _ HA n). }
  { done. }
  { intros x Hx HxQ. destruct (proj1 (TQ x) (list_elem_of_further _ _ _ HxQ)) as [_ H0]. apply occ_elem in Hx. rewrite Hinto in H0. lia. }
  split.
  - rewrite <- app_assoc. cbn. by rewrite <- HU.
  - apply topo_order_snoc; [done|]. intros m Hm. assert (Hmn : m ∈ nodes) by (by apply (a_ins _ _ _ HA n)).
    apply Hin, elem_of_app in Hmn as [|HmU]; [done|]. exfalso.
    assert (0 < edges_into outs U n)%nat; [|lia]. apply into_elem. exists m. split; [done|]. apply (agree_elem nodes ins outs); try done. apply Hin, elem_of_app. by right.
  - split; [done|]. intros q. rewrite HQ'. specialize (TQ q). rewrite elem_of_cons, Hinto, HU, elem_of_cons in TQ. pose proof (occ_elem q (outs n)) as Hocc. split.
    + intros [Hq|[Hq H0]].
      * destruct (proj1 TQ (or_intror Hq)) as [[->|] ?]; [done|]. split; [done|lia].
      * split; [|done]. assert (Hqn : q ∈ nodes) by (by apply (a_outs _ _ _ HA n)). apply Hin, elem_of_app in Hqn as [HqX|HqU].
        -- specialize (T5 q HqX). rewrite Hinto in T5. apply Hocc in Hq. lia.
        -- rewrite HU in HqU. apply elem_of_cons in HqU as [->|]; [|done]. rewrite Hinto in Hn0. apply Hocc in Hq. lia.
    + intros [Hq H0]. destruct (decide (q ∈ outs n)) as [Hqn|Hqn]; [by right|left]. rewrite Hocc in Hqn.
      destruct (proj2 TQ) as [->|]; [|by destruct HnU'|done]. split; [by right|lia].
  - done.
  - intros q [Hq|Hq]%elem_of_app; [specialize (T5 q Hq); rewrite Hinto in T5; lia|]. apply list_elem_of_singleton in Hq as ->. rewrite Hinto in Hn0. lia.
Qed.

Lemma topo_init (l queue : list Z) (c : gmap Z Z) : (∀ n, n ∈ l → n ∈ nodes) →
  let '(queue', c') := foldl (topo_node ins) (queue, c) l in
  queue' = queue ++ filter (λ n, length (ins n) = 0%nat) l ∧
  ∀ q, c' !! q = if decide (q ∈ l) then Some (Z.of_nat (length (ins q))) else c !! q.
Proof.
  revert queue c. induction l as [|x l IH]; intros queue c Hl; cbn [foldl].
  { split; [by rewrite app_nil_r|]. intros q. rewrite decide_False by apply not_elem_of_nil. done. }
  assert (Hx : x ∈ nodes) by (apply Hl; left). specialize (Hsmall x Hx). unfold topo_node at 2. rewrite i32_small by lia.
  specialize (IH (if Z.of_nat (length (ins x)) =? 0 then queue ++ [x] else queue) (<[x := Z.of_nat (length (ins x))]> c)).
  destruct (foldl (topo_node ins) _ l) as [queue' c']. destruct IH as [-> Hc]; [intros n Hn; apply Hl; by right|]. split.
  - destruct (Z.eqb_spec (Z.of_nat (length (ins x))) 0) as [H0|H0].
    + rewrite filter_cons_True by lia. by rewrite <- app_assoc.
    + rewrite filter_cons_False by lia. done.
  - intros q. rewrite Hc. destruct (decide (q ∈ l)) as [Hq|Hq]; [by rewrite decide_True by (by right)|]. destruct (decide (x = q)) as [->|Hne].
    + rewrite decide_True by left. by rewrite lookup_insert_eq.
    + rewrite decide_False by (by intros [|]%elem_of_cons). by rewrite lookup_insert_ne.
Qed.

Lemma topo_begin : let '(queue, c) := foldl (topo_node ins) ([], ∅) nodes in topo_state [] nodes queue c.
Proof.
  pose proof (topo_init nodes [] ∅ (λ n Hn, Hn)) as HI. destruct (foldl (topo_node ins) ([], ∅) nodes) as [queue c]. destruct HI as [-> Hc]. cbn [app]. split.
  - done.
  - intros X1 n X2 E. by destruct X1.
  - split; [apply NoDup_filter, (a_nodup _ _ _ HA)|]. intros q. rewrite list_elem_of_filter. split; intros [H1 H2].
    + split; [done|]. by rewrite <- in_degree.
    + split; [by rewrite in_degree|done].
  - intros q Hq. rewrite Hc, decide_True by done. by rewrite in_degree.
  - by intros q ?%elem_of_nil.
Qed.

Lemma topo_loop_ok (fuel : nat) (X U Q : list Z) (c : gmap Z Z) : topo_state X U Q c → (length U ≤ fuel)%nat →
  ∃ Y U' c', topo_state (X ++ Y) U' [] c' ∧
    ∀ (S : Type) (Handler : S → Z → outcome S) (s : S), topo_loop fuel topo_dec outs Handler Q c s = ofold Handler Y s.
Proof.
  revert X U Q c. induction fuel as [|fuel IH]; intros X U Q c HI Hf.
  { destruct U; [|cbn in Hf; lia]. destruct Q as [|n Q]; [exists [], [], c; rewrite app_nil_r; done|].
    destruct (proj1 (proj2 (t_queue _ _ _ _ HI) n) (list_elem_of_here _ _)) as [?%elem_of_nil _]. done. }
  destruct Q as [|n Q]; [exists [], U, c; rewrite app_nil_r; done|].
  destruct (topo_step X U Q c n HI) as (U' & HU & HI'). destruct (foldl topo_dec (Q, c) (outs n)) as [Q' c'] eqn:E.
  destruct (IH _ _ _ _ HI') as (Y & U2 & c2 & HI2 & Hrun); [apply Permutation_length in HU; cbn in HU; lia|].
  exists (n :: Y), U2, c2. rewrite <- app_assoc in HI2. split; [done|]. intros S Handler s. cbn [topo_loop ofold]. destruct (Handler s n); [|done|done].
  cbn [obind]. rewrite E. apply Hrun.
Qed.

(** ** Cycles *)

Definition arc (m n : Z) : Prop := m ∈ nodes ∧ n ∈ outs m.
Definition acyclic : Prop := ∀ n, ¬ tc arc n n.

Lemma arc_nodes (m n : Z) : arc m n → m ∈ nodes ∧ n ∈ nodes ∧ m ∈ ins n.
Proof.
  intros [Hm Hn]. assert (Hn' : n ∈ nodes) by (by apply (a_outs _ _ _ HA m)). split_and!; [done|done|]. by apply (agree_elem nodes ins outs).
Qed.

(** In an order of all nodes every node is after its ancestors. *)
Lemma order_before (X : list Z) (m n : Z) : topo_order ins X → tc arc m n → ∀ X1 X2, X = X1 ++ n :: X2 → m ∈ X1.
Proof.
  intros HX. induction 1 as [m n Harc|m k n Harc _ IH]; intros X1 X2 E; apply arc_nodes in Harc as (_ & _ & Hin).
  - by eapply HX.
  - specialize (IH X1 X2 E). apply list_elem_of_split in IH as (Y1 & Y2 & ->). apply elem_of_app. left.
    apply (HX Y1 k (Y2 ++ n :: X2)); [|done]. by rewrite E, <- app_assoc.
Qed.

(** Where every node has an in-node, there is a cycle. *)
Lemma no_source_cycle (U : list Z) : (∀ u, u ∈ U → u ∈ nodes) → (∀ u, u ∈ U → ∃ p, p ∈ U ∧ u ∈ outs p) → acyclic → U = [].
Proof.
  intros HU Hpred Hac. destruct U as [|u U]; [done|]. exfalso. set (W := u :: U) in *. set (back := λ x p, p ∈ W ∧ x ∈ outs p).
  assert (Htc : ∀ x y, tc back x y → tc arc y x).
  { induction 1 as [x y [Hy Hx]|x y z [Hy Hx] _ IH]; [apply tc_once; split; [by apply HU|done]|]. eapply tc_r; [exact IH|]. split; [by apply HU|done]. }
  assert (Hsn : sn back u).
  { apply tc_finite_sn; [intros x Hx%Htc; by apply (Hac x)|]. exists W. intros x Hx. apply tc_rtc, rtc_inv_r in Hx as [<-|(y & _ & Hy & _)]; [left|done]. }
  assert (Hu : u ∈ W) by left. clearbody W. induction Hsn as [x _ IH]. destruct (Hpred x Hu) as (p & Hp & Hx). by apply (IH p).
Qed.

Lemma topo_exists (fuel : nat) : (length nodes ≤ fuel)%nat → ∃ X, NoDup X ∧ (∀ n, n ∈ X → n ∈ nodes) ∧ topo_order ins X ∧ (X ≡ₚ nodes ↔ acyclic) ∧
  ∀ (S : Type) (Handler : S → Z → outcome S) (s : S), TopoForEachNode fuel nodes ins outs Handler s = ofold Handler X s.
Proof.
  intros Hf. pose proof topo_begin as HB. destruct (foldl (topo_node ins) ([], ∅) nodes) as [queue c] eqn:E.
  destruct (topo_loop_ok fuel [] nodes queue c HB Hf) as (X & U & c' & [T1 T2 [_ TQ] T4 T5] & Hrun). cbn [app] in *. exists X.
  pose proof (a_nodup _ _ _ HA) as Hnd. rewrite <- T1 in Hnd. apply NoDup_app in Hnd as (HXnd & Hd & HUnd). split_and!.
  - done.
  - intros n Hn. rewrite <- T1. apply elem_of_app. by left.
  - done.
  - split.
    + intros HX n Hn. assert (Htc : ∀ a b, tc arc a b → a ∈ nodes) by (intros a b [? ? Ha|? ? ? Ha _]; apply Ha).
      assert (HnX : n ∈ X) by (rewrite HX; by eapply Htc).
      apply list_elem_of_split in HnX as (X1 & X2 & ->). pose proof (order_before _ n n T2 Hn X1 X2 eq_refl) as Hbad.
      apply NoDup_app in HXnd as (_ & Hd' & _). apply (Hd' n Hbad). left.
    + intros Hac. assert (U = []) as ->; [|by rewrite app_nil_r in T1]. apply no_source_cycle; [| |done].
      * intros u Hu. rewrite <- T1. apply elem_of_app. by right.
      * intros u Hu. apply into_elem. destruct (edges_into outs U u) eqn:Ei; [|lia]. destruct (not_elem_of_nil u). by apply TQ.
  - intros S Handler s. unfold TopoForEachNode. rewrite E. apply Hrun.
Qed.
End Topo.

(** The diamond is a graph without cycles. *)
Lemma diamond_agree : agree [3; 2; 1; 0] Shapes.ins Shapes.outs.
Proof.
  split.
  - apply (bool_decide_unpack _). vm_compute. done.
  - check_edges.
  - check_edges.
  - apply (each_edge _ (λ _, [3; 2; 1; 0])), (bool_decide_unpack _). vm_compute. done.
Qed.

Lemma diamond_acyclic : acyclic [3; 2; 1; 0] Shapes.outs.
Proof.
  assert (Hlt : ∀ a b, tc (arc [3; 2; 1; 0] Shapes.outs) a b → a < b).
  { assert (Hs : ∀ a b, arc [3; 2; 1; 0] Shapes.outs a b → a < b).
    { intros a b [Ha Hb]. revert a b Ha Hb. check_edges. }
    induction 1 as [|a b c Hab _ IH]; [by apply Hs|]. apply Hs in Hab. lia. }
  intros n Hn. apply Hlt in Hn. lia.
Qed.
