(* ===== verification/GraphReach.v ===== *)
(** * Reachability

    [MakePredicatorIsReachable] numbers the nodes topologically and collects for every node
    a bit set of its ancestors.  The predicate it returns decides whether a non-empty path
    leads from one node to another. *)
From stdpp Require Import relations.
From S2P Require Import Prelude Util Digraph GraphAlgo GraphTopo.

(** ** Bit sets *)

Definition bit (b : list Z) (k : Z) : bool :=
  match b !! Z.to_nat (k / BITSET_SIZE) with Some w => Z.testbit w (k mod BITSET_SIZE) | None => false end.

Definition fits_in (b : list Z) (k : Z) : Prop := 0 ≤ k ∧ k / BITSET_SIZE < Z.of_nat (length b).

Lemma word_at (b : list Z) (k : Z) : fits_in b k → ∃ w, b !! Z.to_nat (k / BITSET_SIZE) = Some w ∧ at_ b (k / BITSET_SIZE) = Ret w.
Proof.
  intros [H0 H1]. assert (Hk : 0 ≤ k / BITSET_SIZE) by (apply Z.div_pos; [done|unfold BITSET_SIZE; lia]).
  destruct (lookup_lt_is_Some_2 b (Z.to_nat (k / BITSET_SIZE))) as [w Hw]; [lia|]. exists w. split; [done|].
  unfold at_. destruct (Z.ltb_spec (k / BITSET_SIZE) 0); [lia|]. by rewrite Hw.
Qed.

Lemma bitset_Insert_ok (b : list Z) (k : Z) : fits_in b k →
  ∃ b', bitset_Insert b k = Ret b' ∧ length b' = length b ∧ ∀ j, 0 ≤ j → bit b' j = (bit b j || (j =? k)).
Proof.
  intros Hk. destruct (word_at b k Hk) as (w & Hw & Ea). unfold bitset_Insert. rewrite Ea. cbn [obind]. eexists. split; [done|].
  split; [apply length_insert|]. intros j Hj. destruct Hk as [Hk0 Hk1]. unfold bit.
  assert (Hb : 0 < BITSET_SIZE) by (unfold BITSET_SIZE; lia).
  pose proof (Z.div_pos k _ Hk0 Hb) as Hdk. pose proof (Z.div_pos j _ Hj Hb) as Hdj.
  destruct (decide (j / BITSET_SIZE = k / BITSET_SIZE)) as [E|E].
  - rewrite E, list_lookup_insert_eq, Hw by (by eapply lookup_lt_Some). pose proof (Z.mod_pos_bound j BITSET_SIZE Hb). pose proof (Z.mod_pos_bound k BITSET_SIZE Hb).
    rewrite Z.lor_spec, Z.shiftl_spec by lia. f_equal. destruct (Z.eqb_spec j k) as [->|Hne]; [by rewrite Z.sub_diag|].
    assert (Hm : j mod BITSET_SIZE ≠ k mod BITSET_SIZE).
    { intros Em. apply Hne. rewrite (Z.div_mod j BITSET_SIZE), (Z.div_mod k BITSET_SIZE) by lia. by rewrite E, Em. }
    destruct (decide (j mod BITSET_SIZE - k mod BITSET_SIZE < 0)); [by apply Z.testbit_neg_r|]. apply Z.bits_above_log2; [done|]. change (Z.log2 1) with 0. lia.
  - rewrite list_lookup_insert_ne by lia. destruct (Z.eqb_spec j k) as [->|]; [done|]. by rewrite orb_false_r.
Qed.

Lemma bitset_Merge_ok (b o : list Z) : length b = length o →
  ∃ b', bitset_Merge b o = Ret b' ∧ length b' = length b ∧ ∀ j, bit b' j = (bit b j || bit o j).
Proof.
  intros Hl. unfold bitset_Merge, CHECK. rewrite (proj2 (Nat.eqb_eq _ _) Hl). cbn [obind]. eexists. split; [done|].
  split; [rewrite length_zip_with; lia|]. intros j. unfold bit. rewrite lookup_zip_with.
  destruct (b !! Z.to_nat (j / BITSET_SIZE)) as [w|] eqn:Ew; cbn [mbind option_bind].
  - destruct (lookup_lt_is_Some_2 o (Z.to_nat (j / BITSET_SIZE))) as [v ->]; [apply lookup_lt_Some in Ew; lia|]. cbn. apply Z.lor_spec.
  - assert (o !! Z.to_nat (j / BITSET_SIZE) = None) as ->; [|done]. apply lookup_ge_None. apply lookup_ge_None in Ew. lia.
Qed.

Lemma bitset_Contains_ok (b : list Z) (k : Z) : fits_in b k → bitset_Contains b k = Ret (bit b k).
Proof. intros Hk. destruct (word_at b k Hk) as (w & Hw & Ea). unfold bitset_Contains, bit. by rewrite Ea, Hw. Qed.

Definition words (n : nat) : nat := Z.to_nat (RoundUp (Z.of_nat n) BITSET_SIZE / BITSET_SIZE).
Definition no_bits (n : nat) : list Z := replicate (words n) 0.

Lemma no_bits_clear (n : nat) (k : Z) : bit (no_bits n) k = false.
Proof.
  unfold bit, no_bits. destruct (replicate (words n) 0 !! _) as [w|] eqn:E; [|done]. apply lookup_replicate in E as [-> _]. apply Z.testbit_0_l.
Qed.

Lemma words_enough (n : nat) (k : Z) : Z.of_nat n < 2 ^ 62 → 0 ≤ k < Z.of_nat n → k / BITSET_SIZE < Z.of_nat (words n).
Proof.
  intros Hn Hk. unfold words, RoundUp, u64, u64_modulus, BITSET_SIZE.
  assert (E : ((Z.of_nat n + 512) mod 2 ^ 64 - 1) mod 2 ^ 64 = Z.of_nat n + 511) by (rewrite (Z.mod_small (Z.of_nat n + 512)), Z.mod_small by lia; lia).
  rewrite E. pose proof (Z.div_mod (Z.of_nat n + 511) 512 ltac:(lia)) as Hd. pose proof (Z.mod_pos_bound (Z.of_nat n + 511) 512 ltac:(lia)) as Hm.
  set (q := (Z.of_nat n + 511) / 512) in *. rewrite (Z.mod_small (q * 512)) by lia. rewrite Z.div_mul by lia.
  assert (k / 512 < q); [|lia]. apply Z.div_lt_upper_bound; lia.
Qed.

(** ** Numbering *)

Section Reach.
Context (nodes : list Z) (ins outs : Z → list Z) (HA : agree nodes ins outs) (X : list Z).
Context (HX : X ≡ₚ nodes) (Hord : topo_order ins X) (Hlarge : Z.of_nat (length nodes) < 2 ^ 62).
Notation num := (length nodes).

Lemma X_length : length X = num.
Proof. by apply Permutation_length. Qed.
Lemma X_nodup : NoDup X.
Proof. rewrite HX. apply (a_nodup _ _ _ HA). Qed.

(** The first [i] nodes of the order have their position as number. *)
Definition numbers (ids : gmap Z Z) (i : nat) : Prop := ∀ x k, ids !! x = Some k ↔ ∃ j : nat, (j < i)%nat ∧ X !! j = Some x ∧ k = Z.of_nat j.

Lemma number_step (ids : gmap Z Z) (i : nat) (x : Z) : numbers ids i → X !! i = Some x →
  ids !! x = None ∧ numbers (<[x := Z.of_nat i]> ids) (S i).
Proof.
  intros Hids Hx. assert (HN : ids !! x = None).
  { destruct (ids !! x) as [k|] eqn:E; [|done]. apply Hids in E as (j & Hj & Hxj & _). pose proof (NoDup_lookup _ _ _ _ X_nodup Hxj Hx). lia. }
  split; [done|]. intros y k. destruct (decide (x = y)) as [->|Hne].
  - rewrite lookup_insert_eq. split.
    + intros [= <-]. exists i. split; [lia|done].
    + intros (j & _ & Hy & ->). by rewrite (NoDup_lookup _ _ _ _ X_nodup Hy Hx).
  - rewrite lookup_insert_ne by done. rewrite (Hids y k). split; intros (j & Hj & Hy & ->); exists j; (split; [|done]); [lia|].
    destruct (decide (j = i)) as [->|]; [congruence|lia].
Qed.

Lemma number_all (i : nat) : (i ≤ num)%nat → ∃ ids,
  ofold (number_node (Z.of_nat num)) (take i X) (mkReach ∅ (replicate num []) 0) =
    Ret (mkReach ids (replicate i (no_bits num) ++ replicate (num - i) []) (Z.of_nat i)) ∧ numbers ids i.
Proof.
  induction i as [|i IH]; intros Hi.
  { exists ∅. rewrite Nat.sub_0_r. split; [done|]. intros x k. rewrite lookup_empty. split; [done|]. intros (j & ? & _). lia. }
  destruct (IH ltac:(lia)) as (ids & E & Hids). destruct (lookup_lt_is_Some_2 X i) as [x Hx]; [rewrite X_length; lia|].
  rewrite (take_S_r _ _ _ Hx), ofold_app, E. cbn [obind ofold]. destruct (number_step ids i x Hids Hx) as [HN Hids']. exists (<[x := Z.of_nat i]> ids).
  split; [|done]. unfold number_node. cbn [id2ancestor node2id next_id].
  assert (Hat : (replicate i (no_bits num) ++ replicate (num - i) []) !! i = Some ([] : list Z)).
  { rewrite lookup_app_r by (rewrite length_replicate; lia). rewrite length_replicate, Nat.sub_diag. apply lookup_replicate_2. lia. }
  unfold at_. destruct (Z.ltb_spec (Z.of_nat i) 0); [lia|]. rewrite Nat2Z.id, Hat, HN. cbn [obind]. do 2 f_equal; [|lia].
  replace (bitset_Resize [] (Z.of_nat num)) with (no_bits num) by (unfold bitset_Resize; cbn [app]; by rewrite take_ge by (by rewrite length_replicate)).
  rewrite insert_app_r_alt by (rewrite length_replicate; lia). rewrite length_replicate, Nat.sub_diag.
  replace (num - i)%nat with (S (num - S i)) by lia. cbn [replicate insert list_insert]. by rewrite replicate_cons_app, <- app_assoc.
Qed.

(** ** Collecting the ancestors *)

Notation ancestor := (tc (arc nodes outs)).

Record collected (anc : list (list Z)) (i : nat) (P : Z → Prop) : Prop := mkCollected {
  c_length : length anc = num;
  c_words : ∀ j b, anc !! j = Some b → length b = words num;
  c_done : ∀ j k x y b, (j < i)%nat → X !! j = Some x → X !! k = Some y → anc !! j = Some b → bit b (Z.of_nat k) = true ↔ ancestor y x;
  c_now : ∀ k y b, X !! k = Some y → anc !! i = Some b → bit b (Z.of_nat k) = true ↔ P y;
  c_rest : ∀ j b k, (i < j)%nat → anc !! j = Some b → bit b k = false
}.

Lemma X_index (x : Z) (k : nat) (b : list Z) : X !! k = Some x → length b = words num → fits_in b (Z.of_nat k).
Proof.
  intros Hk Hl. apply lookup_lt_Some in Hk. rewrite X_length in Hk. split; [lia|]. rewrite Hl. apply words_enough; [done|lia].
Qed.

Lemma merge_ok (ids : gmap Z Z) (anc : list (list Z)) (nid : Z) (i p : nat) (P : Z → Prop) (m : Z) :
  numbers ids num → collected anc i P → (i < num)%nat → (p < i)%nat → X !! p = Some m →
  ∃ anc', merge_in (Z.of_nat i) (mkReach ids anc nid) m = Ret (mkReach ids anc' nid) ∧ collected anc' i (λ y, P y ∨ y = m ∨ ancestor y m).
Proof.
  intros Hids [C1 C2 C3 C4 C5] Hi Hp Hm. unfold merge_in, id_of. cbn [node2id id2ancestor next_id].
  assert (ids !! m = Some (Z.of_nat p)) as -> by (apply Hids; exists p; split; [lia|done]). cbn [obind].
  destruct (lookup_lt_is_Some_2 anc i) as [b Eb]; [lia|]. destruct (lookup_lt_is_Some_2 anc p) as [o Eo]; [lia|].
  rewrite (at_nat anc i b Eb). cbn [obind].
  destruct (bitset_Insert_ok b (Z.of_nat p)) as (b1 & -> & L1 & B1); [by eapply X_index, C2|]. cbn [obind].
  rewrite Nat2Z.id. rewrite (at_nat (<[i := b1]> anc) p o) by (rewrite list_lookup_insert_ne by lia; done). cbn [obind].
  destruct (bitset_Merge_ok b1 o) as (b2 & -> & L2 & B2); [rewrite L1, (C2 i b Eb); symmetry; by eapply C2|]. cbn [obind].
  rewrite list_insert_insert_eq. eexists. split; [done|].
  assert (Hat : ∀ j, <[i := b2]> anc !! j = if decide (i = j) then Some b2 else anc !! j).
  { intros j. destruct (decide (i = j)) as [<-|]; [by apply list_lookup_insert_eq; lia|by apply list_lookup_insert_ne]. }
  split.
  - by rewrite length_insert.
  - intros j c. rewrite Hat. destruct (decide (i = j)); [intros [= <-]; rewrite L2, L1; by eapply C2|apply C2].
  - intros j k x y c Hj Hx Hy. rewrite Hat, decide_False by lia. intros Hc. by eapply C3.
  - intros k y c Hy. rewrite Hat, decide_True by done. intros [= <-]. rewrite B2, B1, !orb_true_iff, Z.eqb_eq by lia.
    rewrite (C4 k y b Hy Eb), (C3 p k m y o Hp Hm Hy Eo), Nat2Z.inj_iff.
    assert (Hkp : k = p ↔ y = m).
    { split; [intros ->; congruence|]. intros ->. by apply (NoDup_lookup _ _ _ _ X_nodup Hy). }
    tauto.
  - intros j c k Hj. rewrite Hat, decide_False by lia. by apply C5.
Qed.

Lemma merge_all (ids : gmap Z Z) (anc : list (list Z)) (nid : Z) (i : nat) (P : Z → Prop) (l : list Z) :
  numbers ids num → collected anc i P → (i < num)%nat → (∀ m, m ∈ l → ∃ p, (p < i)%nat ∧ X !! p = Some m) →
  ∃ anc', ofold (merge_in (Z.of_nat i)) l (mkReach ids anc nid) = Ret (mkReach ids anc' nid) ∧
          collected anc' i (λ y, P y ∨ ∃ m, m ∈ l ∧ (y = m ∨ ancestor y m)).
Proof.
  intros Hids. revert anc P. induction l as [|m l IH]; intros anc P HC Hi Hl.
  { exists anc. split; [done|]. destruct HC as [C1 C2 C3 C4 C5]. split; try done. intros k y b Hy Hb. rewrite (C4 k y b Hy Hb).
    split; [by left|]. intros [|(m & ?%elem_of_nil & _)]; done. }
  destruct (Hl m (list_elem_of_here _ _)) as (p & Hp & Hm). cbn [ofold].
  destruct (merge_ok ids anc nid i p P m Hids HC Hi Hp Hm) as (anc1 & -> & HC1). cbn [obind].
  destruct (IH anc1 _ HC1 Hi) as (anc' & -> & [C1 C2 C3 C4 C5]); [intros x Hx; apply Hl; by right|]. exists anc'. split; [done|].
  split; try done. intros k y b Hy Hb. rewrite (C4 k y b Hy Hb). split.
  - intros [[|Hm']|(x & Hx & Hr)]; [by left|right; exists m; split; [left|done]|right; exists x; split; [by right|done]].
  - intros [|(x & [->|Hx]%elem_of_cons & Hr)]; [by left; left|by left; right|right; by exists x].
Qed.

(** The last arc of a path. *)
Lemma ancestor_last (y n : Z) : n ∈ nodes → ancestor y n ↔ ∃ m, m ∈ ins n ∧ (y = m ∨ ancestor y m).
Proof.
  intros Hn. assert (Hins : ∀ m, m ∈ ins n ↔ arc nodes outs m n).
  { intros m. split.
    - intros Hm. assert (Hmn : m ∈ nodes) by (by apply (a_ins _ _ _ HA n)). split; [done|]. by apply (agree_elem nodes ins outs).
    - intros Ha. by apply (arc_nodes nodes ins outs HA m n). }
  split.
  - induction 1 as [y n Ha|y k n Ha _ IH].
    + exists y. split; [by apply Hins|by left].
    + destruct (IH Hn Hins) as (m & Hm & [->|Hkm]); exists m; (split; [done|right]); [by apply tc_once|by eapply tc_l].
  - intros (m & Hm%Hins & [->|Hym]); [by apply tc_once|by eapply tc_r].
Qed.

Lemma collect_ok (ids : gmap Z Z) (anc : list (list Z)) (nid : Z) (i : nat) (x : Z) :
  numbers ids num → collected anc i (λ _, False) → X !! i = Some x →
  ∃ anc', collect_ancestors ins (mkReach ids anc nid) x = Ret (mkReach ids anc' nid) ∧ collected anc' (S i) (λ _, False).
Proof.
  intros Hids HC Hx. assert (Hi : (i < num)%nat) by (rewrite <- X_length; by eapply lookup_lt_Some).
  assert (Hxn : x ∈ nodes) by (rewrite <- HX; by eapply list_elem_of_lookup_2).
  unfold collect_ancestors, id_of. cbn [node2id id2ancestor]. assert (ids !! x = Some (Z.of_nat i)) as -> by (apply Hids; by exists i). cbn [obind].
  destruct (lookup_lt_is_Some_2 anc i) as [b Eb]; [by rewrite (c_length _ _ _ HC)|]. rewrite (at_nat anc i b Eb). cbn [obind].
  destruct (merge_all ids anc nid i (λ _, False) (ins x) Hids HC Hi) as (anc' & -> & [C1 C2 C3 C4 C5]).
  { intros m Hm. pose proof (Hord (take i X) x (drop (S i) X)) as Ho. rewrite take_drop_middle in Ho by done. specialize (Ho eq_refl m Hm).
    apply list_elem_of_lookup in Ho as [p Hp]. rewrite lookup_take_Some in Hp. destruct Hp as [Hp Hlt]. by exists p. }
  exists anc'. split; [done|]. split; try done.
  - intros j k u y c Hj Hu Hy Hc. destruct (decide (j = i)) as [->|]; [|apply (C3 j k u y c); [lia|done..]]. rewrite Hx in Hu. injection Hu as <-.
    rewrite (C4 k y c Hy Hc), ancestor_last by done. tauto.
  - intros k y c Hy Hc. rewrite (C5 (S i) c) by (lia || done). done.
  - intros j c k Hj. apply C5. lia.
Qed.

Lemma collect_all (ids : gmap Z Z) (anc : list (list Z)) (nid : Z) (i : nat) :
  numbers ids num → collected anc 0 (λ _, False) → (i ≤ num)%nat →
  ∃ anc', ofold (collect_ancestors ins) (take i X) (mkReach ids anc nid) = Ret (mkReach ids anc' nid) ∧ collected anc' i (λ _, False).
Proof.
  intros Hids HC. induction i as [|i IH]; intros Hi; [by exists anc|]. destruct (IH ltac:(lia)) as (anc1 & E & HC1).
  destruct (lookup_lt_is_Some_2 X i) as [x Hx]; [rewrite X_length; lia|]. rewrite (take_S_r _ _ _ Hx), ofold_app, E. cbn [obind ofold].
  destruct (collect_ok ids anc1 nid i x Hids HC1 Hx) as (anc' & -> & HC'). by exists anc'.
Qed.

Lemma collected_start : collected (replicate num (no_bits num)) 0 (λ _, False).
Proof.
  split.
  - apply length_replicate.
  - intros j b Hb. apply lookup_replicate in Hb as [-> _]. apply length_replicate.
  - intros; lia.
  - intros k y b _ Hb. apply lookup_replicate in Hb as [-> _]. by rewrite no_bits_clear.
  - intros j b k _ Hb. apply lookup_replicate in Hb as [-> _]. apply no_bits_clear.
Qed.

Lemma reach_all : ∃ st, (let* st := ofold (number_node (Z.of_nat num)) X (mkReach ∅ (replicate num []) 0) in ofold (collect_ancestors ins) X st) = Ret st ∧
  numbers (node2id st) num ∧ collected (id2ancestor st) num (λ _, False).
Proof.
  destruct (number_all num (le_n _)) as (ids & E & Hids). destruct (collect_all ids _ (Z.of_nat num) num Hids collected_start (le_n _)) as (anc & E2 & HC).
  rewrite take_ge in E, E2 by (rewrite X_length; lia). rewrite Nat.sub_diag in E. cbn [replicate] in E. rewrite app_nil_r in E. rewrite E. cbn [obind].
  rewrite E2. by eexists.
Qed.
End Reach.

(** C13 The reachability predicate of a graph without cycles is exact: for any two nodes the
    predicate that [MakePredicatorIsReachable] returns answers, and answers whether a
    non-empty path leads from the first to the second. *)
Theorem is_reachable_exact (nodes : list Z) (ins outs : Z → list Z) (fuel : nat) (HA : agree nodes ins outs)
    (Hsmall : ∀ n, n ∈ nodes → Z.of_nat (length (ins n)) < 2 ^ 31) (Hlarge : Z.of_nat (length nodes) < 2 ^ 62)
    (Hac : acyclic nodes outs) (Hf : (length nodes ≤ fuel)%nat) :
  ∃ IsReachable, MakePredicatorIsReachable fuel nodes ins outs = Ret IsReachable ∧
    ∀ src dst, src ∈ nodes → dst ∈ nodes → ∃ b, IsReachable src dst = Ret b ∧ (b = true ↔ tc (arc nodes outs) src dst).
Proof.
  destruct (topo_exists nodes ins outs HA Hsmall fuel Hf) as (X & _ & _ & Hord & HX & Hrun). pose proof (proj2 HX Hac) as HXn.
  destruct (reach_all nodes ins outs HA X HXn Hord Hlarge) as (st & E & Hids & HC). unfold MakePredicatorIsReachable. rewrite Hrun.
  destruct (ofold (number_node _) X _) as [st1| |]; [|done|done]. cbn [obind] in *. rewrite Hrun, E. cbn [obind]. eexists. split; [done|].
  intros src dst Hs Hd. rewrite <- HXn in Hs, Hd. apply list_elem_of_lookup in Hs as [k Hk], Hd as [j Hj]. cbv beta. unfold id_of.
  assert (Hlt : ∀ i x, X !! i = Some x → (i < length nodes)%nat) by (intros i x Hi; rewrite <- (X_length nodes X HXn); by eapply lookup_lt_Some).
  assert (node2id st !! dst = Some (Z.of_nat j)) as -> by (apply Hids; exists j; split; [by eapply Hlt|done]).
  assert (node2id st !! src = Some (Z.of_nat k)) as -> by (apply Hids; exists k; split; [by eapply Hlt|done]). cbn [obind].
  destruct (lookup_lt_is_Some_2 (id2ancestor st) j) as [b Eb]; [rewrite (c_length _ _ _ _ _ _ HC); by eapply Hlt|].
  rewrite (at_nat _ j b Eb). cbn [obind]. rewrite bitset_Contains_ok by (eapply X_index; [done..|]; by eapply c_words). eexists. split; [done|].
  eapply c_done; [exact HC|by eapply Hlt|done|done|done].
Qed.

Lemma is_reachable_exact_witness :
  ∃ IsReachable, MakePredicatorIsReachable 4 [3; 2; 1; 0] Shapes.ins Shapes.outs = Ret IsReachable ∧
    ∀ src dst, src ∈ [3; 2; 1; 0] → dst ∈ [3; 2; 1; 0] → ∃ b, IsReachable src dst = Ret b ∧ (b = true ↔ tc (arc [3; 2; 1; 0] Shapes.outs) src dst).
Proof.
  apply (is_reachable_exact [3; 2; 1; 0] Shapes.ins Shapes.outs 4 diamond_agree).
  - apply Forall_forall, (bool_decide_unpack _). vm_compute. done.
  - done.
  - apply diamond_acyclic.
  - cbn. lia.
Defined.
