(* ===== verification/GraphSearch.v ===== *)
(** * Breadth and depth first search, connected components

    A search calls its handler exactly once on every node that its starts reach.  The
    components of a symmetric relation are its classes. *)
From stdpp Require Import relations.
From S2P Require Import Prelude Util Digraph GraphAlgo.

Definition linked (next : Z → list Z) (x y : Z) : Prop := y ∈ next x.
Definition reached (next : Z → list Z) (starts : list Z) (q : Z) : Prop := ∃ r, r ∈ starts ∧ rtc (linked next) r q.

Lemma reached_r (next : Z → list Z) (starts : list Z) (x y : Z) : reached next starts x → y ∈ next x → reached next starts y.
Proof. intros (r & Hr & Hrt) Hy. exists r. split; [done|]. by eapply rtc_r. Qed.

(** Nodes that hold the starts and are closed under [next] are the nodes that are reached. *)
Lemma reached_closed (next : Z → list Z) (starts X : list Z) : (∀ q, q ∈ starts → q ∈ X) → (∀ x y, x ∈ X → y ∈ next x → y ∈ X) →
  ∀ q, reached next starts q → q ∈ X.
Proof. intros Hs Hc q (r & Hr & Hrt). apply Hs in Hr. clear Hs. induction Hrt as [|x y z Hxy _ IH]; [done|]. apply IH. by eapply Hc. Qed.

Section Search.
Context (next : Z → list Z) (starts W : list Z) (HW : NoDup W).
Context (Hstarts : ∀ q, q ∈ starts → q ∈ W) (Hclosed : ∀ x y, x ∈ W → y ∈ next x → y ∈ W).

Lemma reached_W (q : Z) : reached next starts q → q ∈ W.
Proof. by apply reached_closed. Qed.

(** ** Breadth first *)

Lemma bfs_pushes (l queue : list Z) (queued : gset Z) (A : list Z) :
  (∀ q, q ∈ queued ↔ q ∈ A ++ queue) → NoDup (A ++ queue) →
  let '(queue', queued') := foldl bfs_push (queue, queued) l in
  (∀ q, q ∈ queued' ↔ q ∈ A ++ queue') ∧ NoDup (A ++ queue') ∧ ∀ q, q ∈ A ++ queue' ↔ q ∈ A ++ queue ∨ q ∈ l.
Proof.
  revert queue queued. induction l as [|x l IH]; intros queue queued Hq Hnd; cbn [foldl].
  { split_and!; [done|done|]. intros q. split; [by left|]. intros [|?%elem_of_nil]; done. }
  cbn [bfs_push]. destruct (bool_decide_reflect (x ∈ queued)) as [Hx|Hx].
  - specialize (IH queue queued Hq Hnd). destruct (foldl bfs_push (queue, queued) l) as [queue' queued']. destruct IH as (H1 & H2 & H3).
    split_and!; [done|done|]. intros q. rewrite H3, elem_of_cons. split; [tauto|]. intros [|[->|]]; [tauto|left; by apply Hq|tauto].
  - specialize (IH (queue ++ [x]) ({[x]} ∪ queued)). destruct (foldl bfs_push (queue ++ [x], {[x]} ∪ queued) l) as [queue' queued'].
    destruct IH as (H1 & H2 & H3).
    + intros q. rewrite elem_of_union, elem_of_singleton, Hq, app_assoc, (elem_of_app (A ++ queue)), list_elem_of_singleton. tauto.
    + rewrite app_assoc. apply NoDup_app. split_and!; [done| |apply NoDup_singleton]. intros y Hy ->%list_elem_of_singleton. by apply Hx, Hq.
    + split_and!; [done|done|]. intros q. rewrite H3, app_assoc, (elem_of_app (A ++ queue)), list_elem_of_singleton, elem_of_cons. tauto.
Qed.

Record bfs_state (A queue : list Z) (queued : gset Z) : Prop := mkBfs {
  bf_set : ∀ q, q ∈ queued ↔ q ∈ A ++ queue;
  bf_nodup : NoDup (A ++ queue);
  bf_sound : ∀ q, q ∈ A ++ queue → reached next starts q;
  bf_starts : ∀ q, q ∈ starts → q ∈ A ++ queue;
  bf_next : ∀ x y, x ∈ A → y ∈ next x → y ∈ A ++ queue
}.

Lemma bfs_step (A queue : list Z) (queued : gset Z) (n : Z) : bfs_state A (n :: queue) queued →
  let '(queue', queued') := foldl bfs_push (queue, queued) (next n) in bfs_state (A ++ [n]) queue' queued'.
Proof.
  intros [B1 B2 B3 B4 B5].
  assert (E : ∀ l : list Z, (A ++ [n]) ++ l = A ++ n :: l) by (intros l; by rewrite <- app_assoc).
  assert (Hn : n ∈ A ++ n :: queue) by (apply elem_of_app; right; left).
  pose proof (bfs_pushes (next n) queue queued (A ++ [n])) as HP. rewrite E in HP. specialize (HP B1 B2).
  destruct (foldl bfs_push (queue, queued) (next n)) as [queue' queued']. destruct HP as (H1 & H2 & H3).
  split; [done|done| | |].
  - intros q [Hq|Hq]%H3; [by apply B3|]. eapply reached_r; [by apply (B3 n)|done].
  - intros q Hq. apply H3. left. by apply B4.
  - intros x y [Hx|Hx]%elem_of_app Hy; apply H3; [left; by eapply B5|]. apply list_elem_of_singleton in Hx as ->. by right.
Qed.

Lemma bfs_loop_ok (fuel : nat) (A queue : list Z) (queued : gset Z) : bfs_state A queue queued → (length W ≤ length A + fuel)%nat →
  ∃ Y, bfs_state (A ++ Y) [] (list_to_set (A ++ Y)) ∧
    ∀ (S : Type) (Handler : S → Z → outcome S) (s : S), bfs_loop fuel next Handler queue queued s = ofold Handler Y s.
Proof.
  revert A queue queued. induction fuel as [|fuel IH]; intros A queue queued HB Hf.
  all: destruct queue as [|n queue]; [exists []; rewrite app_nil_r; split; [|done]; destruct HB; split; try done;
    intros q; rewrite elem_of_list_to_set; by rewrite app_nil_r|].
  - exfalso. assert (Hs : A ++ n :: queue ⊆+ W).
    { apply NoDup_submseteq; [apply (bf_nodup _ _ _ HB)|]. intros q Hq. by apply reached_W, (bf_sound _ _ _ HB). }
    apply submseteq_length in Hs. rewrite length_app in Hs. cbn in Hs. lia.
  - pose proof (bfs_step A queue queued n HB) as HB'. destruct (foldl bfs_push (queue, queued) (next n)) as [queue' queued'] eqn:E.
    destruct (IH _ _ _ HB') as (Y & HY & Hrun); [rewrite length_app; cbn; lia|]. rewrite <- app_assoc in HY. exists (n :: Y). split; [done|].
    intros S Handler s. cbn [bfs_loop ofold]. destruct (Handler s n); [|done|done]. cbn [obind]. rewrite E. apply Hrun.
Qed.

Lemma bfs_ok (fuel : nat) : (length W ≤ fuel)%nat → ∃ Y, NoDup Y ∧ (∀ q, q ∈ Y ↔ reached next starts q) ∧
  ∀ (S : Type) (Handler : S → Z → outcome S) (s : S), BfsForEachNode fuel starts next Handler s = ofold Handler Y s.
Proof.
  intros Hf. pose proof (bfs_pushes starts [] ∅ []) as HP. unfold BfsForEachNode. destruct (foldl bfs_push ([], ∅) starts) as [queue queued].
  destruct HP as (H1 & H2 & H3); [intros q; split; [by intros ?%not_elem_of_empty|by intros ?%elem_of_nil]|constructor|]. cbn [app] in *.
  assert (H3' : ∀ q, q ∈ queue ↔ q ∈ starts) by (intros q; rewrite H3; split; [intros [?%elem_of_nil|]; done|by right]).
  destruct (bfs_loop_ok fuel [] queue queued) as (Y & [B1 B2 B3 B4 B5] & Hrun).
  - split; cbn [app]; try done; [|intros q; by apply H3'|by intros x y ?%elem_of_nil]. intros q Hq%H3'. by exists q.
  - cbn. lia.
  - cbn [app] in *. rewrite app_nil_r in *. exists Y. split_and!; [done| |done]. intros q. split; [apply B3|]. by apply reached_closed.
Qed.

(** ** Depth first *)

Lemma dfs_pushes (visited : gset Z) (l stack : list Z) :
  (∀ q, q ∈ foldl (dfs_push visited) stack l ↔ q ∈ stack ∨ q ∈ l ∧ q ∉ visited) ∧
  (length (foldl (dfs_push visited) stack l) ≤ length stack + length l)%nat.
Proof.
  revert stack. induction l as [|x l IH]; intros stack; cbn [foldl].
  { split; [|cbn; lia]. intros q. split; [by left|]. intros [|[?%elem_of_nil _]]; done. }
  destruct (IH (dfs_push visited stack x)) as [H1 H2]. unfold dfs_push in *. destruct (bool_decide_reflect (x ∈ visited)) as [Hx|Hx].
  - split; [|cbn; lia]. intros q. rewrite H1, elem_of_cons. split; [tauto|]. intros [|[[->|] ?]]; tauto.
  - split; [|cbn in *; lia]. intros q. rewrite H1, !elem_of_cons. destruct (decide (q = x)) as [->|]; tauto.
Qed.

Record dfs_state (A stack : list Z) (visited : gset Z) : Prop := mkDfs {
  df_set : ∀ q, q ∈ visited ↔ q ∈ A;
  df_nodup : NoDup A;
  df_sound : ∀ q, q ∈ A ++ stack → reached next starts q;
  df_starts : ∀ q, q ∈ starts → q ∈ A ++ stack;
  df_next : ∀ x y, x ∈ A → y ∈ next x → y ∈ A ++ stack
}.

Lemma dfs_pop (A stack : list Z) (visited : gset Z) (n : Z) : dfs_state A (n :: stack) visited → n ∈ A → dfs_state A stack visited.
Proof.
  intros [D1 D2 D3 D4 D5] Hn. assert (Hsub : ∀ q, q ∈ A ++ n :: stack ↔ q ∈ A ++ stack) by (intros q; rewrite !elem_of_app, elem_of_cons; naive_solver).
  split; try done; intros; [apply D3|apply Hsub, D4|apply Hsub; eapply D5]; try done. by apply Hsub.
Qed.

Lemma dfs_visit (A stack : list Z) (visited : gset Z) (n : Z) : dfs_state A (n :: stack) visited → n ∉ A →
  dfs_state (A ++ [n]) (foldl (dfs_push ({[n]} ∪ visited)) stack (next n)) ({[n]} ∪ visited).
Proof.
  intros [D1 D2 D3 D4 D5] Hn. destruct (dfs_pushes ({[n]} ∪ visited) (next n) stack) as [HP _]. set (stack' := foldl _ stack (next n)) in *.
  assert (Hv : ∀ q, q ∈ {[n]} ∪ visited ↔ q ∈ A ++ [n]) by (intros q; rewrite elem_of_union, elem_of_singleton, D1, elem_of_app, list_elem_of_singleton; tauto).
  assert (Hsub : ∀ q, q ∈ (A ++ [n]) ++ stack' ↔ q ∈ A ++ n :: stack ∨ q ∈ next n).
  { intros q. rewrite elem_of_app, HP, Hv, (elem_of_app A (n :: stack)), elem_of_cons, elem_of_app, list_elem_of_singleton.
    destruct (decide (q ∈ A)), (decide (q = n)); tauto. }
  assert (Hold : n ∈ A ++ n :: stack) by (apply elem_of_app; right; left).
  split; [done| | | |].
  - apply NoDup_app. split_and!; [done| |apply NoDup_singleton]. by intros x Hx ->%list_elem_of_singleton.
  - intros q [Hq|Hq]%Hsub; [by apply D3|]. eapply reached_r; [by apply (D3 n)|done].
  - intros q Hq. apply Hsub. left. by apply D4.
  - intros x y [Hx|Hx]%elem_of_app Hy; apply Hsub; [left; by eapply D5|]. apply list_elem_of_singleton in Hx as ->. by right.
Qed.

Lemma visited_edges (A stack : list Z) (visited : gset Z) : dfs_state A stack visited → (edges_from next A ≤ edges_from next W)%nat.
Proof.
  intros HD. assert (Hs : A ⊆+ W).
  { apply NoDup_submseteq; [apply (df_nodup _ _ _ HD)|]. intros q Hq. apply reached_W, (df_sound _ _ _ HD), elem_of_app. by left. }
  apply submseteq_Permutation in Hs as [k Hk]. rewrite (edge_total_perm next _ _ Hk), edge_total_app. lia.
Qed.

Lemma dfs_loop_ok (fuel : nat) (A stack : list Z) (visited : gset Z) : dfs_state A stack visited →
  (length stack + (edges_from next W - edges_from next A) ≤ fuel)%nat →
  ∃ Y, dfs_state (A ++ Y) [] (list_to_set (A ++ Y)) ∧
    ∀ (S : Type) (Handler : S → Z → outcome S) (s : S), dfs_loop fuel next Handler stack visited s = ofold Handler Y s.
Proof.
  revert A stack visited. induction fuel as [|fuel IH]; intros A stack visited HD Hf.
  all: destruct stack as [|n stack]; [exists []; rewrite app_nil_r; split; [|done]; destruct HD; split; try done; intros q; by rewrite elem_of_list_to_set|].
  - cbn in Hf. lia.
  - cbn [length] in Hf. destruct (decide (n ∈ A)) as [Hn|Hn].
    + destruct (IH A stack visited) as (Y & HY & Hrun); [by eapply dfs_pop|lia|]. exists Y. split; [done|]. intros S Handler s. cbn [dfs_loop].
      rewrite bool_decide_eq_true_2 by (by apply (df_set _ _ _ HD)). apply Hrun.
    + pose proof (dfs_visit A stack visited n HD Hn) as HD'. pose proof (visited_edges _ _ _ HD') as Hle.
      destruct (dfs_pushes ({[n]} ∪ visited) (next n) stack) as [_ Hlen]. rewrite edge_total_app in Hle. cbn [edges_from foldr] in Hle.
      destruct (IH _ _ _ HD') as (Y & HY & Hrun); [rewrite edge_total_app; cbn [edges_from foldr]; lia|]. rewrite <- app_assoc in HY. exists (n :: Y).
      split; [done|]. intros S Handler s. cbn [dfs_loop ofold]. rewrite bool_decide_eq_false_2 by (by rewrite (df_set _ _ _ HD)).
      destruct (Handler s n); [|done|done]. cbn [obind]. apply Hrun.
Qed.

Lemma dfs_ok (fuel : nat) : (length starts + edges_from next W ≤ fuel)%nat → ∃ Y, NoDup Y ∧ (∀ q, q ∈ Y ↔ reached next starts q) ∧
  ∀ (S : Type) (Handler : S → Z → outcome S) (s : S), DfsForEachNode fuel starts next Handler s = ofold Handler Y s.
Proof.
  intros Hf. destruct (dfs_loop_ok fuel [] (reverse starts) ∅) as (Y & [B1 B2 B3 B4 B5] & Hrun).
  - split; cbn [app].
    + intros q. split; [by intros ?%not_elem_of_empty|by intros ?%elem_of_nil].
    + constructor.
    + intros q Hq. rewrite elem_of_reverse in Hq. by exists q.
    + intros q Hq. by rewrite elem_of_reverse.
    + by intros x y ?%elem_of_nil.
  - rewrite length_reverse. cbn. lia.
  - cbn [app] in *. rewrite app_nil_r in *. exists Y. split_and!; [done| |done]. intros q. split; [apply B3|]. by apply reached_closed.
Qed.
End Search.

(** ** Connected components *)

Section Components.
Context (nodes : list Z) (connected : Z → list Z) (fuel : nat).
Context (Hnd : NoDup nodes) (Hclosed : ∀ x y, x ∈ nodes → y ∈ connected x → y ∈ nodes).
Context (Hsym : ∀ x y, x ∈ nodes → y ∈ connected x → x ∈ connected y) (Hf : (length nodes ≤ fuel)%nat) (Hsmall : Z.of_nat (length nodes) < 2 ^ 31).

Notation joined := (rtc (linked connected)).

Lemma joined_nodes (x y : Z) : x ∈ nodes → joined x y → y ∈ nodes.
Proof. intros Hx. induction 1 as [|x z y Hxz _ IH]; [done|]. apply IH. by eapply Hclosed. Qed.

Lemma joined_sym (x y : Z) : x ∈ nodes → joined x y → joined y x.
Proof.
  intros Hx Hr. induction Hr as [|x z y Hxz _ IH]; [done|]. assert (Hz : z ∈ nodes) by (by eapply Hclosed).
  eapply rtc_r; [by apply IH|]. by apply Hsym.
Qed.

(** The components of [done] are marked with numbers up to [id]. *)
Record marked (m : gmap Z Z) (id : Z) (done : list Z) : Prop := mkMarked {
  m_keys : ∀ x, is_Some (m !! x) ↔ ∃ d, d ∈ done ∧ joined d x;
  m_class : ∀ x y i, m !! x = Some i → (m !! y = Some i ↔ joined x y);
  m_ids : ∀ x i, m !! x = Some i → 1 ≤ i ≤ id;
  m_count : 0 ≤ id ≤ Z.of_nat (length done)
}.

Lemma mark_all (id : Z) (Y : list Z) (m : gmap Z Z) : NoDup Y → (∀ y, y ∈ Y → m !! y = None) →
  ∃ m', ofold (mark_component id) Y m = Ret m' ∧ ∀ x, m' !! x = if decide (x ∈ Y) then Some id else m !! x.
Proof.
  intros HY. revert m. induction HY as [|y Y Hy _ IH]; intros m Hm.
  { exists m. split; [done|]. intros x. by rewrite decide_False by apply not_elem_of_nil. }
  cbn [ofold]. unfold mark_component at 1. rewrite (Hm y (list_elem_of_here _ _)). cbn [CHECK obind].
  destruct (IH (<[y := id]> m)) as (m' & -> & Hm').
  { intros x Hx. rewrite lookup_insert_ne; [apply Hm; by right|]. by intros ->. }
  exists m'. split; [done|]. intros x. rewrite Hm'. destruct (decide (x ∈ Y)) as [Hx|Hx]; [by rewrite decide_True by (by right)|].
  destruct (decide (y = x)) as [->|Hne]; [rewrite decide_True by left; by rewrite lookup_insert_eq|].
  rewrite decide_False by (by intros [|]%elem_of_cons). by rewrite lookup_insert_ne.
Qed.

Lemma component_step (m : gmap Z Z) (id : Z) (done : list Z) (x : Z) : (∀ d, d ∈ done → d ∈ nodes) → x ∈ nodes → (length done < length nodes)%nat → marked m id done →
  ∃ m' id', component_start fuel connected (m, id) x = Ret (m', id') ∧ marked m' id' (done ++ [x]).
Proof.
  intros Hdone Hx Hl [M1 M2 M3 M4]. unfold component_start. destruct (m !! x) as [i|] eqn:Ex.
  - exists m, id. split; [done|]. split; [|done|done|rewrite length_app; cbn; lia]. intros y. rewrite M1. split.
    + intros (d & Hd & Hr). exists d. split; [apply elem_of_app; by left|done].
    + intros (d & [Hd|Hd]%elem_of_app & Hr); [by exists d|]. apply list_elem_of_singleton in Hd as ->.
      destruct (proj1 (M1 x) (mk_is_Some _ _ Ex)) as (d & Hd & Hdx). exists d. split; [done|]. by etrans.
  - rewrite i32_small by lia.
    destruct (bfs_ok connected [x] nodes) with (fuel := fuel) as (Y & HY & HYin & Hrun); [by intros q ->%list_elem_of_singleton|done|done|].
    assert (HYx : ∀ y, y ∈ Y ↔ joined x y).
    { intros y. rewrite HYin. split; [by intros (r & ->%list_elem_of_singleton & Hr)|]. intros Hr. exists x. split; [left|done]. }
    assert (Hfresh : ∀ y, y ∈ Y → m !! y = None).
    { intros y Hy%HYx. destruct (m !! y) as [i|] eqn:Ey; [|done]. destruct (proj1 (M1 y) (mk_is_Some _ _ Ey)) as (d & Hd & Hdy). exfalso.
      assert (Hs : is_Some (m !! x)); [|by rewrite Ex in Hs; destruct Hs]. apply M1. exists d. split; [done|]. etrans; [exact Hdy|]. by apply joined_sym. }
    rewrite Hrun. destruct (mark_all (id + 1) Y m HY Hfresh) as (m' & -> & Hm'). cbn [obind]. exists m', (id + 1). split; [done|]. split.
    + intros y. rewrite Hm'. destruct (decide (y ∈ Y)) as [Hy|Hy].
      * split; [|by eexists]. intros _. exists x. split; [apply elem_of_app; right; left|by apply HYx].
      * rewrite M1. split; intros (d & Hd & Hr); [exists d; split; [apply elem_of_app; by left|done]|].
        apply elem_of_app in Hd as [Hd|Hd]; [by exists d|]. apply list_elem_of_singleton in Hd as ->. by destruct Hy; apply HYx.
    + intros y z i. rewrite !Hm'. destruct (decide (y ∈ Y)) as [Hy|Hy].
      * intros [= <-]. pose proof (proj1 (HYx y) Hy) as Hxy. destruct (decide (z ∈ Y)) as [Hz|Hz].
        -- split; [|done]. intros _. etrans; [by apply joined_sym|by apply HYx].
        -- split; [intros Hi%M3; lia|]. intros Hyz. destruct Hz. apply HYx. by etrans.
      * intros Hi. destruct (decide (z ∈ Y)) as [Hz|Hz]; [|by apply M2]. split; [intros [= <-]; apply M3 in Hi; lia|]. intros Hyz. destruct Hy. apply HYx.
        apply HYx in Hz. etrans; [exact Hz|]. apply joined_sym; [|done]. destruct (proj1 (M1 y) (mk_is_Some _ _ Hi)) as (d & Hd & Hdy).
        eapply joined_nodes; [by apply Hdone|done].
    + intros y i. rewrite Hm'. destruct (decide (y ∈ Y)); [intros [= <-]; lia|]. intros Hi%M3. lia.
    + rewrite length_app. cbn. lia.
Qed.

Lemma components_marked (l done : list Z) (m : gmap Z Z) (id : Z) : done ++ l = nodes → marked m id done →
  ∃ m' id', ofold (component_start fuel connected) l (m, id) = Ret (m', id') ∧ marked m' id' nodes.
Proof.
  revert done m id. induction l as [|x l IH]; intros done m id E HM; [exists m, id; rewrite app_nil_r in E; by subst|]. cbn [ofold].
  destruct (component_step m id done x) as (m1 & id1 & -> & HM1); [..|done|].
  - intros d Hd. rewrite <- E. apply elem_of_app. by left.
  - rewrite <- E. apply elem_of_app. right. left.
  - rewrite <- E, length_app. cbn. lia.
  - cbn [obind]. eapply (IH (done ++ [x])); [by rewrite <- app_assoc|done].
Qed.

(** The sets of equal marks. *)
Lemma gather_ok (l : list (Z * Z)) (c : gmap Z (gset Z)) : let c' := foldl add_to_component c l in
  ∀ i x, (∃ C, c' !! i = Some C ∧ x ∈ C) ↔ (∃ C, c !! i = Some C ∧ x ∈ C) ∨ (x, i) ∈ l.
Proof.
  revert c. induction l as [|[y j] l IH]; intros c; cbn [foldl]; intros i x; [split; [by left|intros [|?%elem_of_nil]; done]|].
  rewrite IH. unfold add_to_component at 1. cbn [fst snd]. rewrite elem_of_cons. destruct (decide (j = i)) as [->|Hne].
  - rewrite lookup_insert_eq. split.
    + intros [(C & [= <-] & [->%elem_of_singleton|HC]%elem_of_union)|]; [tauto| |tauto]. left. destruct (c !! i) as [C|]; [by exists C|by apply not_elem_of_empty in HC].
    + intros [(C & E & HC)|[[= ->]|]]; [left|left|by right]; (eexists; split; [done|]); apply elem_of_union; [right; by rewrite E|left; by apply elem_of_singleton].
  - rewrite lookup_insert_ne by done. split; [tauto|]. intros [|[[= -> ->]|]]; [tauto|done|tauto].
Qed.

Lemma gather_nonempty (l : list (Z * Z)) (c : gmap Z (gset Z)) : (∀ i C, c !! i = Some C → C ≠ ∅) →
  ∀ i C, foldl add_to_component c l !! i = Some C → C ≠ ∅.
Proof.
  revert c. induction l as [|[y j] l IH]; intros c Hc; cbn [foldl]; [done|]. apply IH. intros i C. unfold add_to_component. cbn [fst snd].
  destruct (decide (j = i)) as [->|Hne]; [rewrite lookup_insert_eq; intros [= <-]; set_solver|rewrite lookup_insert_ne by done; apply Hc].
Qed.

Lemma ofold_map {A B S : Type} (f : A → B) (Handler : S → B → outcome S) (l : list A) (s : S) :
  ofold (λ s x, Handler s (f x)) l s = ofold Handler (map f l) s.
Proof. revert s. induction l as [|x l IH]; intros s; [done|]. cbn. destruct (Handler s (f x)); [|done|done]. apply IH. Qed.

Lemma components_ok : ∃ comps : list (gset Z), NoDup comps ∧ (∀ C, C ∈ comps ↔ ∃ x, x ∈ nodes ∧ ∀ y, y ∈ C ↔ joined x y) ∧
  ∀ (S : Type) (Handler : S → gset Z → outcome S) (s : S), ForEachConnectedComponent fuel nodes connected Handler s = ofold Handler comps s.
Proof.
  destruct (components_marked nodes [] ∅ 0 eq_refl) as (m & id & E & [M1 M2 M3 M4]).
  { split; [|intros x y i; by rewrite lookup_empty|intros x i; by rewrite lookup_empty|cbn; lia]. intros x. rewrite lookup_empty.
    split; [by intros [? ?]|by intros (d & ?%elem_of_nil & _)]. }
  set (c := foldl add_to_component ∅ (map_to_list m)). exists (map snd (map_to_list c)).
  assert (Hc : ∀ i x, (∃ C, c !! i = Some C ∧ x ∈ C) ↔ m !! x = Some i).
  { intros i x. unfold c. rewrite gather_ok, elem_of_map_to_list. split; [intros [(C & EC & _)|]; [by rewrite lookup_empty in EC|done]|by right]. }
  assert (Hne : ∀ i C, c !! i = Some C → C ≠ ∅) by (apply gather_nonempty; intros i C; by rewrite lookup_empty).
  assert (Hclass : ∀ i C x, c !! i = Some C → x ∈ C → ∀ y, y ∈ C ↔ joined x y).
  { intros i C x EC Hx y. assert (Hxi : m !! x = Some i) by (apply Hc; by exists C). rewrite <- (M2 x y i Hxi), <- Hc. split; [by exists C|].
    intros (C' & EC' & Hy). rewrite EC in EC'. by injection EC' as <-. }
  split_and!.
  - apply NoDup_fmap_2_strong; [|apply NoDup_map_to_list]. intros [i C] [j D] Hi%elem_of_map_to_list Hj%elem_of_map_to_list ED. cbn in ED. subst D.
    destruct (set_choose_L C (Hne i C Hi)) as [x Hx]. assert (m !! x = Some i) by (apply Hc; by exists C). assert (m !! x = Some j) by (apply Hc; by exists C). congruence.
  - intros C. rewrite list_elem_of_fmap. split.
    + intros ([i D] & -> & Hi%elem_of_map_to_list). cbn. destruct (set_choose_L D (Hne i D Hi)) as [x Hx]. exists x. split; [|by eapply Hclass].
      assert (Hxi : m !! x = Some i) by (apply Hc; by exists D). destruct (proj1 (M1 x) (mk_is_Some _ _ Hxi)) as (d & Hd & Hdx). by eapply joined_nodes.
    + intros (x & Hx & HC). destruct (proj2 (M1 x)) as [i Hi]; [by exists x|]. destruct (proj2 (Hc i x) Hi) as (D & ED & HD). exists (i, D). cbn.
      split; [|by apply elem_of_map_to_list]. apply set_eq. intros y. by rewrite HC, (Hclass i D x ED HD).
  - intros S Handler s. unfold ForEachConnectedComponent. rewrite E. cbn [obind]. fold c. apply ofold_map.
Qed.
End Components.

(** C32 [ForEachConnectedComponent] handles the classes of the connection: for a symmetric
    connection of the nodes it never aborts and calls its handler once for every class of
    connected nodes, with exactly the nodes of the class. *)
Theorem connected_components (nodes : list Z) (connected : Z → list Z) (fuel : nat) (Hnd : NoDup nodes)
    (Hclosed : ∀ x y, x ∈ nodes → y ∈ connected x → y ∈ nodes) (Hsym : ∀ x y, x ∈ nodes → y ∈ connected x → x ∈ connected y)
    (Hf : (length nodes ≤ fuel)%nat) (Hsmall : Z.of_nat (length nodes) < 2 ^ 31) :
  ∃ comps : list (gset Z), NoDup comps ∧ (∀ C, C ∈ comps ↔ ∃ x, x ∈ nodes ∧ ∀ y, y ∈ C ↔ rtc (linked connected) x y) ∧
    ∀ (S : Type) (Handler : S → gset Z → outcome S) (s : S), ForEachConnectedComponent fuel nodes connected Handler s = ofold Handler comps s.
Proof. by apply components_ok. Qed.

(** Two classes: [0], [1], [2] in a row, and [5]. *)
Lemma connected_components_witness :
  let connected (n : Z) := if n =? 0 then [1] else if n =? 1 then [0; 2] else if n =? 2 then [1] else [] in
  ∃ comps : list (gset Z), NoDup comps ∧ (∀ C, C ∈ comps ↔ ∃ x, x ∈ [0; 1; 2; 5] ∧ ∀ y, y ∈ C ↔ rtc (linked connected) x y) ∧
    ∀ (S : Type) (Handler : S → gset Z → outcome S) (s : S), ForEachConnectedComponent 4 [0; 1; 2; 5] connected Handler s = ofold Handler comps s.
Proof.
  intros connected. apply (connected_components [0; 1; 2; 5] connected 4).
  - apply (bool_decide_unpack _). vm_compute. done.
  - check_edges.
  - check_edges.
  - cbn. lia.
  - done.
Defined.
