(* ===== verification/GraphFfs.v ===== *)
(** * Finish time first search

    [FfsForEachNode] handles every node after the nodes below it, as a depth first search
    does when it leaves a node.  The order in which it handles nodes is characterised by
    [fin_ok]: a successor of a node that is handled later reaches all nodes handled in
    between. *)
From stdpp Require Import relations sorting.
From S2P Require Import Prelude Util Digraph GraphAlgo GraphSearch.

Lemma ofold_snoc {A S : Type} (f : S → A → outcome S) (l : list A) (x : A) (s : S) :
  ofold f (l ++ [x]) s = let* s := ofold f l s in f s x.
Proof. rewrite ofold_app. destruct (ofold f l s) as [t| |]; [|done|done]. cbn. by destruct (f t x). Qed.

Section Ffs.
Context (next : Z → list Z) (W : list Z) (HW : NoDup W) (Hclosed : ∀ x y, x ∈ W → y ∈ next x → y ∈ W).
Notation path := (rtc (linked next)).

(** The nodes that are pushed together. *)
Lemma ffs_pushes (visited : gset Z) (l : list Z) (stack : list (list Z)) :
  foldl (ffs_push visited) (stack, 0) l =
    (let q := filter (λ x, x ∉ visited) l in if decide (q = []) then stack else q :: stack, Z.of_nat (length (filter (λ x, x ∉ visited) l))).
Proof.
  assert (Hgen : ∀ l q stack, q ≠ [] → foldl (ffs_push visited) (q :: stack, Z.of_nat (length q)) l =
    ((q ++ filter (λ x, x ∉ visited) l) :: stack, Z.of_nat (length (q ++ filter (λ x, x ∉ visited) l)))).
  { clear l stack. induction l as [|x l IH]; intros q stack Hq; cbn [foldl]; [by rewrite app_nil_r|]. unfold ffs_push at 2.
    destruct (bool_decide_reflect (x ∈ visited)) as [Hx|Hx].
    - rewrite filter_cons_False by tauto. by apply IH.
    - destruct (Z.eqb_spec (Z.of_nat (length q)) 0) as [E0|_]; [destruct q; [done|cbn in E0; lia]|].
      rewrite filter_cons_True by done. replace (Z.of_nat (length q) + 1) with (Z.of_nat (length (q ++ [x]))) by (rewrite length_app; cbn; lia).
      rewrite IH by (by destruct q). by rewrite <- app_assoc. }
  induction l as [|x l IH]; [done|]. cbn [foldl]. unfold ffs_push at 2. destruct (bool_decide_reflect (x ∈ visited)) as [Hx|Hx].
  - rewrite filter_cons_False by tauto. apply IH.
  - rewrite filter_cons_True by done. cbn [Z.eqb app]. change (0 + 1) with (Z.of_nat (length [x])).
    rewrite (Hgen l [x] stack) by done. cbv zeta. by rewrite decide_False by done.
Qed.

(** ** The state of the search *)

(** The order [F] in which nodes were handled; [gray] are the nodes in work. *)
Definition fin_ok (F gray : list Z) : Prop := ∀ F1 x F2, F = F1 ++ x :: F2 → ∀ y, y ∈ next x →
  y ∈ F1 ∨ (∃ A B, x :: F2 = A ++ y :: B ∧ ∀ u, u ∈ A → path y u) ∨ (y ∈ gray ∧ ∀ u, u ∈ x :: F2 → path y u).

(** Each node in work has its remaining successors in the queue above it. *)
Fixpoint chained (visited : gset Z) (top : list Z) (lower : list (Z * list Z)) : Prop :=
  match lower with
  | [] => True
  | (g, tail) :: rest => (∀ y, y ∈ top → y ∈ next g) ∧ (∀ y, y ∈ next g → y ∈ visited ∨ y ∈ top) ∧ chained visited (g :: tail) rest
  end.
(** A node in work that waits in a queue is in work at that queue or above it. *)
Fixpoint tails_ok (above gray : list Z) (lower : list (Z * list Z)) : Prop :=
  match lower with
  | [] => True
  | (g, tail) :: rest => (∀ y, y ∈ tail → y ∈ gray → y ∈ g :: above) ∧ tails_ok (g :: above) gray rest
  end.

Definition levels (lower : list (Z * list Z)) : list (list Z) := map (λ p, p.1 :: p.2) lower.

Record ffs_state (F top : list Z) (lower : list (Z * list Z)) (visited handled : gset Z) : Prop := mkFfs {
  ff_handled : ∀ q, q ∈ handled ↔ q ∈ F;
  ff_visited : ∀ q, q ∈ visited ↔ q ∈ F ++ map fst lower;
  ff_nodup : NoDup (F ++ map fst lower);
  ff_nodes : ∀ q, q ∈ F ++ concat (top :: levels lower) → q ∈ W;
  ff_chain : StronglySorted (λ g g', path g' g) (map fst lower);
  ff_top : ∀ y, y ∈ top → y ∉ map fst lower;
  ff_children : chained visited top lower;
  ff_tails : tails_ok [] (map fst lower) lower;
  ff_fin : fin_ok F (map fst lower)
}.

Lemma chained_mono (visited visited' : gset Z) (top : list Z) (lower : list (Z * list Z)) :
  visited ⊆ visited' → chained visited top lower → chained visited' top lower.
Proof.
  intros Hs. revert top. induction lower as [|[g tail] lower IH]; intros top; [done|]. intros (H1 & H2 & H3). split_and!; [done| |by apply IH].
  intros y Hy. destruct (H2 y Hy) as [|]; [left; by apply Hs|by right].
Qed.

Lemma tails_push (above gray : list Z) (lower : list (Z * list Z)) (n : Z) :
  n ∈ above → tails_ok above gray lower → tails_ok above (n :: gray) lower.
Proof.
  revert above. induction lower as [|[g tail] lower IH]; intros above Hn; [done|]. intros (H1 & H2). split.
  - intros y Hy [->|Hg]%elem_of_cons; [by right|by apply H1].
  - apply IH; [by right|done].
Qed.

Lemma tails_above (above above' gray : list Z) (lower : list (Z * list Z)) :
  (∀ y, y ∈ gray → y ∈ above → y ∈ above') → tails_ok above gray lower → tails_ok above' gray lower.
Proof.
  revert above above'. induction lower as [|[g tail] lower IH]; intros above above' Hs; [done|]. intros (H1 & H2). split.
  - intros y Hy Hg. specialize (H1 y Hy Hg). rewrite elem_of_cons in *. destruct H1; [by left|right; by apply Hs].
  - eapply IH; [|exact H2]. intros y Hg. rewrite !elem_of_cons. intros [|]; [by left|right; by apply Hs].
Qed.

Lemma tails_gray (above gray gray' : list Z) (lower : list (Z * list Z)) :
  (∀ y, y ∈ gray' → y ∈ gray) → tails_ok above gray lower → tails_ok above gray' lower.
Proof.
  intros Hs. revert above. induction lower as [|[g tail] lower IH]; intros above; [done|]. intros (H1 & H2). split; [|by apply IH].
  intros y Hy Hg. by apply H1, Hs.
Qed.

(** A handled node joins the order. *)
Lemma fin_add (F gray gray' : list Z) (n : Z) : fin_ok F gray → (∀ y, y ∈ gray → y ∈ gray' ∨ y = n) → (∀ y, y ∈ gray → path y n) →
  (∀ y, y ∈ next n → y ∈ F ∨ y = n ∨ y ∈ gray') → (∀ y, y ∈ gray' → path y n) → fin_ok (F ++ [n]) gray'.
Proof.
  intros HF Hg Hp Hn Hp' F1 x F2 E y Hy. destruct F2 as [|z F2 _] using rev_ind.
  - apply app_inj_tail in E as [-> ->]. destruct (Hn y Hy) as [|[->|Hy']]; [by left|right; left; exists [], []; split; [done|by intros u ?%elem_of_nil]|].
    right. right. split; [done|]. intros u ->%list_elem_of_singleton. by apply Hp'.
  - rewrite app_comm_cons, app_assoc in E. apply app_inj_tail in E as [-> ->].
    destruct (HF F1 x F2 eq_refl y Hy) as [|[(A & B & E & HA)|(Hyg & Hu)]]; [by left|right; left|].
    + exists A, (B ++ [z]). split; [|done]. by rewrite app_comm_cons, E, <- app_assoc.
    + destruct (Hg y Hyg) as [Hy'| ->].
      * right. right. split; [done|]. intros u. rewrite app_comm_cons. intros [Hu'|Hu']%elem_of_app; [by apply Hu|].
        apply list_elem_of_singleton in Hu' as ->. by apply Hp.
      * right. left. exists (x :: F2), []. split; [done|]. done.
Qed.

Lemma fin_gray (F gray : list Z) (n : Z) : fin_ok F gray → fin_ok F (n :: gray).
Proof.
  intros HF F1 x F2 E y Hy. destruct (HF F1 x F2 E y Hy) as [|[|[? ?]]]; [by left|by right; left|]. right. right. split; [by right|done].
Qed.
(** ** The steps *)

Lemma gray_path (visited : gset Z) (x : Z) (tl : list Z) (lower : list (Z * list Z)) : chained visited (x :: tl) lower →
  StronglySorted (λ g g', path g' g) (map fst lower) → ∀ g, g ∈ map fst lower → path g x.
Proof.
  destruct lower as [|[g tail] lower]; [by intros _ _ g ?%elem_of_nil|]. intros (H1 & _) Hs. apply StronglySorted_inv in Hs as [_ Hs]. cbn in *.
  assert (Hg : path g x) by (apply rtc_once, H1; left). intros g' [->|Hg']%elem_of_cons; [done|]. rewrite Forall_forall in Hs. etrans; [by apply Hs|done].
Qed.

Lemma ffs_pop (F tl : list Z) (lower : list (Z * list Z)) (visited handled : gset Z) (x : Z) :
  ffs_state F (x :: tl) lower visited handled → x ∈ F → ffs_state F tl lower visited handled.
Proof.
  intros [H1 H2 H3 H4 H5 H6 H7 H8 H9] Hx. split; try done.
  - intros q Hq. apply H4. rewrite elem_of_app in *. cbn in *. rewrite elem_of_cons. tauto.
  - intros y Hy. apply H6. by right.
  - destruct lower as [|[g tail] rest]; [done|]. destruct H7 as (C1 & C2 & C3). split_and!; [intros y Hy; apply C1; by right| |done].
    intros y Hy. destruct (C2 y Hy) as [|[->|]%elem_of_cons]; [by left| |by right]. left. apply H2, elem_of_app. by left.
Qed.

Lemma ffs_enter (F tl : list Z) (lower : list (Z * list Z)) (visited handled : gset Z) (x : Z) :
  ffs_state F (x :: tl) lower visited handled → x ∉ F →
  ffs_state F (filter (λ y, y ∉ {[x]} ∪ visited) (next x)) ((x, tl) :: lower) ({[x]} ∪ visited) handled.
Proof.
  intros [H1 H2 H3 H4 H5 H6 H7 H8 H9] Hx. assert (Hg : x ∉ map fst lower) by (apply H6; left).
  assert (HxW : x ∈ W) by (apply H4, elem_of_app; right; left).
  split; try done.
  - intros q. cbn. rewrite elem_of_union, elem_of_singleton, H2, !elem_of_app, elem_of_cons. tauto.
  - cbn. rewrite <- Permutation_middle. constructor; [|done]. by intros [|]%elem_of_app.
  - intros q [Hq|Hq]%elem_of_app; [apply H4, elem_of_app; by left|]. cbn in Hq. rewrite elem_of_app in Hq. destruct Hq as [[_ Hq]%list_elem_of_filter|Hq].
    + by eapply Hclosed.
    + apply H4, elem_of_app. by right.
  - cbn. constructor; [done|]. rewrite Forall_forall. by eapply gray_path.
  - intros y [Hy _]%list_elem_of_filter. cbn. rewrite elem_of_cons. intros [->|Hy']; apply Hy, elem_of_union; [left; by apply elem_of_singleton|right].
    apply H2, elem_of_app. by right.
  - cbn. split_and!; [by intros y [_ ?]%list_elem_of_filter| |eapply chained_mono; [|done]; set_solver]. intros y Hy.
    destruct (decide (y ∈ {[x]} ∪ visited)) as [|Hv]; [by left|]. right. by apply list_elem_of_filter.
  - cbn. split; [|apply tails_push; [left|]; eapply tails_above; [|done]; by intros y _ ?%elem_of_nil].
    intros y Hy [->|Hyg]%elem_of_cons; [left|]. exfalso. eapply H6; [by right|done].
  - by apply fin_gray.
Qed.

Lemma ffs_finish (F tl : list Z) (lower : list (Z * list Z)) (visited handled : gset Z) (x : Z) :
  ffs_state F (x :: tl) lower visited handled → x ∉ F → (∀ y, y ∈ next x → y ∈ {[x]} ∪ visited) →
  ffs_state (F ++ [x]) (x :: tl) lower ({[x]} ∪ visited) ({[x]} ∪ handled).
Proof.
  intros [H1 H2 H3 H4 H5 H6 H7 H8 H9] Hx Hn. assert (Hg : x ∉ map fst lower) by (apply H6; left).
  split; try done.
  - intros q. rewrite elem_of_union, elem_of_singleton, H1, elem_of_app, list_elem_of_singleton. tauto.
  - intros q. rewrite elem_of_union, elem_of_singleton, H2, <- app_assoc, !elem_of_app, list_elem_of_singleton. tauto.
  - rewrite <- app_assoc. cbn [app]. rewrite <- Permutation_middle. constructor; [|done]. by intros [|]%elem_of_app.
  - intros q. rewrite <- app_assoc, elem_of_app. cbn. intros [Hq|Hq]; [apply H4, elem_of_app; by left|].
    apply H4, elem_of_app. right. cbn. rewrite !elem_of_cons in *. tauto.
  - eapply chained_mono; [|done]. set_solver.
  - apply fin_add with (gray := map fst lower); [done|by left|by eapply gray_path| |by eapply gray_path].
    intros y Hy%Hn. rewrite elem_of_union, elem_of_singleton, H2, elem_of_app in Hy. tauto.
Qed.

Lemma ffs_leave (F tl : list Z) (lower : list (Z * list Z)) (visited handled : gset Z) (g : Z) :
  ffs_state F [] ((g, tl) :: lower) visited handled →
  (∀ y, y ∈ next g → y ∈ visited) ∧ g ∉ F ∧ ffs_state (F ++ [g]) (g :: tl) lower ({[g]} ∪ visited) ({[g]} ∪ handled).
Proof.
  intros [H1 H2 H3 H4 H5 H6 H7 H8 H9]. cbn in *. destruct H7 as (_ & C2 & C3). destruct H8 as [T1 T2].
  assert (Hn : ∀ y, y ∈ next g → y ∈ visited) by (intros y Hy; destruct (C2 y Hy) as [|?%elem_of_nil]; done).
  assert (Hg : g ∉ F ++ map fst lower ∧ NoDup (F ++ map fst lower)) by (rewrite <- Permutation_middle in H3; by apply NoDup_cons in H3).
  destruct Hg as [Hg Hnd]. apply StronglySorted_inv in H5 as [Hs Hp]. rewrite Forall_forall in Hp. cbn in *.
  rewrite elem_of_app in Hg. split_and!; [done|tauto|]. split; try done.
  - intros q. rewrite elem_of_union, elem_of_singleton, H1, elem_of_app, list_elem_of_singleton. tauto.
  - intros q. rewrite elem_of_union, elem_of_singleton, H2, <- app_assoc, !elem_of_app, list_elem_of_singleton, elem_of_cons. tauto.
  - by rewrite <- app_assoc.
  - intros q. rewrite <- app_assoc, elem_of_app. cbn. intros [Hq|Hq]; [apply H4, elem_of_app; by left|]. apply H4, elem_of_app. right.
    rewrite !elem_of_cons in *. tauto.
  - intros y [->|Hy]%elem_of_cons Hyg; [tauto|]. assert (Hy' : y ∈ [g]) by (apply T1; [done|by right]). apply list_elem_of_singleton in Hy' as ->. tauto.
  - eapply chained_mono; [|done]. set_solver.
  - eapply tails_above, tails_gray; [|intros y Hy; by right|done]. intros y Hy ->%list_elem_of_singleton. tauto.
  - apply fin_add with (gray := g :: map fst lower); [done|intros y [->|]%elem_of_cons; [by right|by left]| | |done].
    + intros y [->|]%elem_of_cons; [done|by apply Hp].
    + intros y Hy%Hn. rewrite H2, elem_of_app, elem_of_cons in Hy. tauto.
Qed.

(** ** The loop *)

Definition weight (l : list Z) : nat := edges_from next l + 3 * length l.

Lemma weight_app (l k : list Z) : weight (l ++ k) = (weight l + weight k)%nat.
Proof. unfold weight. rewrite edge_total_app, length_app. lia. Qed.
Lemma weight_cons (x : Z) (l : list Z) : weight (x :: l) = (length (next x) + 3 + weight l)%nat.
Proof. unfold weight. rewrite edges_from_cons. cbn [length]. lia. Qed.
Lemma weight_le (l : list Z) : NoDup l → (∀ q, q ∈ l → q ∈ W) → (weight l ≤ weight W)%nat.
Proof.
  intros Hl HlW. apply NoDup_submseteq in HlW; [|done]. apply submseteq_Permutation in HlW as [k Hk]. unfold weight.
  rewrite (edge_total_perm next _ _ Hk), edge_total_app, (Permutation_length Hk), length_app. lia.
Qed.

Definition ffs_run (fuel : nat) (F : list Z) (stack : list (list Z)) (visited handled : gset Z) : Prop :=
  ∃ Y visited' handled', ffs_state (F ++ Y) [] [] visited' handled' ∧ (∀ q, q ∈ concat stack → q ∈ F ++ Y) ∧
    ∀ (S : Type) (Handler : S → Z → outcome S) (s : S),
      ffs_loop fuel next Handler stack visited handled s = let* s := ofold Handler Y s in Ret (visited', handled', s).

(** A run that starts with the handling of [x]. *)
Lemma ffs_run_handle (fuel : nat) (F tl : list Z) (rest : list (list Z)) (visited handled : gset Z) (x : Z) :
  x ∉ handled → (∀ y, y ∈ next x → y ∈ {[x]} ∪ visited) →
  ffs_run fuel (F ++ [x]) ((x :: tl) :: rest) ({[x]} ∪ visited) ({[x]} ∪ handled) → ffs_run (Datatypes.S fuel) F ((x :: tl) :: rest) visited handled.
Proof.
  intros Hx Hn (Y & visited' & handled' & HF & Hin & Hrun). rewrite <- app_assoc in HF, Hin. exists (x :: Y), visited', handled'. split_and!; [done|done|].
  intros S Handler s. cbn [ffs_loop ofold]. rewrite bool_decide_eq_false_2 by done. rewrite ffs_pushes. cbv zeta.
  assert (E : filter (λ y, y ∉ {[x]} ∪ visited) (next x) = []).
  { destruct (filter _ (next x)) as [|y q] eqn:E; [done|]. assert (Hy : y ∈ y :: q) by left. rewrite <- E in Hy. apply list_elem_of_filter in Hy as [? ?%Hn]. done. }
  rewrite E. cbn [length Z.of_nat Z.eqb]. rewrite decide_True by done. destruct (Handler s x); [|done|done]. cbn [obind]. apply Hrun.
Qed.
(** A run that pushes the unvisited successors of [x]. *)
Lemma ffs_run_enter (fuel : nat) (F tl : list Z) (rest : list (list Z)) (visited handled : gset Z) (x : Z) (q : list Z) :
  x ∉ handled → q = filter (λ y, y ∉ {[x]} ∪ visited) (next x) → q ≠ [] →
  ffs_run fuel F (q :: (x :: tl) :: rest) ({[x]} ∪ visited) handled → ffs_run (Datatypes.S fuel) F ((x :: tl) :: rest) visited handled.
Proof.
  intros Hx Eq Hq (Y & visited' & handled' & HF & Hin & Hrun). exists Y, visited', handled'. split_and!; [done| |].
  - intros u Hu. apply Hin. cbn in *. apply elem_of_app. by right.
  - intros S Handler s. cbn [ffs_loop]. rewrite bool_decide_eq_false_2 by done. rewrite ffs_pushes. cbv zeta. rewrite <- Eq.
    rewrite decide_False by done. destruct (Z.eqb_spec (Z.of_nat (length q)) 0) as [E|_]; [destruct q; [done|cbn in E; lia]|]. apply Hrun.
Qed.

Lemma unvisited_none (P : Z → Prop) `{∀ x, Decision (P x)} (l : list Z) : filter P l = [] → ∀ y, y ∈ l → ¬ P y.
Proof. intros E y Hy HP. assert (Hf : y ∈ filter P l) by (by apply list_elem_of_filter). rewrite E in Hf. by apply elem_of_nil in Hf. Qed.

Lemma state_weight (F top : list Z) (lower : list (Z * list Z)) (visited handled : gset Z) :
  ffs_state F top lower visited handled → (weight (F ++ map fst lower) ≤ weight W)%nat.
Proof.
  intros HS. apply weight_le; [apply (ff_nodup _ _ _ _ _ HS)|]. intros q Hq. apply (ff_nodes _ _ _ _ _ HS). rewrite elem_of_app in *.
  destruct Hq as [|Hq]; [by left|right]. apply list_elem_of_fmap in Hq as ([g tl] & -> & Hq). cbn. apply elem_of_app. right.
  clear HS. unfold levels. apply list_elem_of_split in Hq as (l1 & l2 & ->). rewrite map_app, concat_app. apply elem_of_app. right. left.
Qed.

Lemma ffs_loop_ok (fuel : nat) (F top : list Z) (lower : list (Z * list Z)) (visited handled : gset Z) (open : bool) :
  ffs_state F top lower visited handled → (open = false → top = []) →
  let stack := if open then top :: levels lower else levels lower in
  (weight W + length lower + length (concat stack) + length stack ≤ fuel + weight (F ++ map fst lower))%nat →
  ffs_run fuel F stack visited handled.
Proof.
  revert F top lower visited handled open. induction fuel as [|fuel IH]; intros F top lower visited handled open HS Hopen stack Hf.
  all: pose proof (state_weight _ _ _ _ _ HS) as Hle; unfold stack in *; clear stack.
  all: assert (Hnh : ∀ q, q ∉ F → q ∉ handled) by (intros q; by rewrite (ff_handled _ _ _ _ _ HS)).
  { exists [], visited, handled. rewrite app_nil_r. destruct open; [cbn in *; lia|]. rewrite Hopen in HS by done.
    destruct lower; [|cbn in *; lia]. split_and!; [done|by intros q ?%elem_of_nil|done]. }
  destruct open; [destruct top as [|x tl]; [|destruct (decide (x ∈ F)) as [Hx|Hx]]|rewrite Hopen in HS by done].
  - destruct (IH F [] lower visited handled false) as (Y & visited' & handled' & HF & Hin & Hrun); [done|done|cbn in *; lia|].
    by exists Y, visited', handled'.
  - destruct (IH F tl lower visited handled true) as (Y & visited' & handled' & HF & Hin & Hrun); [by eapply ffs_pop|done|cbn in *; lia|].
    exists Y, visited', handled'. split_and!; [done| |].
    + intros q. cbn. rewrite elem_of_cons. intros [->|Hq]; [apply elem_of_app; by left|]. by apply Hin.
    + intros S Handler s. cbn [ffs_loop]. rewrite bool_decide_eq_true_2 by (by apply (ff_handled _ _ _ _ _ HS)). apply Hrun.
  - destruct (filter (λ y, y ∉ {[x]} ∪ visited) (next x)) as [|y q] eqn:Eq.
    + assert (Hn : ∀ y, y ∈ next x → y ∈ {[x]} ∪ visited) by (intros y Hy; destruct (decide (y ∈ {[x]} ∪ visited)); [done|by eapply unvisited_none in Eq]).
      pose proof (ffs_finish _ _ _ _ _ _ HS Hx Hn) as HS'. pose proof (state_weight _ _ _ _ _ HS') as Hle'. apply ffs_run_handle; [by apply Hnh|done|].
      apply (IH _ (x :: tl) lower _ _ true HS'); [done|]. rewrite <- app_assoc in *. cbn [app] in *. rewrite !weight_app, ?weight_cons in *. lia.
    + pose proof (ffs_enter _ _ _ _ _ _ HS Hx) as HS'. pose proof (state_weight _ _ _ _ _ HS') as Hle'. rewrite Eq in HS'.
      apply (ffs_run_enter fuel F tl (levels lower) visited handled x (y :: q)); [by apply Hnh|by rewrite Eq|done|]. apply (IH _ _ ((x, tl) :: lower) _ _ true HS'); [done|].
      pose proof (length_filter (λ y, y ∉ {[x]} ∪ visited) (next x)) as Hlen. rewrite Eq in Hlen.
      cbn in *. rewrite !weight_app, ?weight_cons in *. rewrite length_app. cbn in *. unfold levels in *. lia.
  - destruct lower as [|[g tl] lower].
    + exists [], visited, handled. rewrite app_nil_r. split_and!; [done|by intros q ?%elem_of_nil|done].
    + destruct (ffs_leave _ _ _ _ _ _ HS) as (Hn & Hg & HS'). apply ffs_run_handle; [by apply Hnh|intros y Hy; apply elem_of_union; right; by apply Hn|].
      apply (IH _ (g :: tl) lower _ _ true HS'); [done|]. rewrite <- app_assoc. cbn in *. unfold levels in *. lia.
Qed.

(** ** All starts *)

Lemma ffs_starts (fuel : nat) (l : list Z) (F : list Z) (visited handled : gset Z) : (weight W + 2 ≤ fuel)%nat → (∀ q, q ∈ l → q ∈ W) →
  ffs_state F [] [] visited handled →
  ∃ Y visited' handled', ffs_state (F ++ Y) [] [] visited' handled' ∧ (∀ q, q ∈ l → q ∈ F ++ Y) ∧
    ∀ (S : Type) (Handler : S → Z → outcome S) (s : S),
      ofold (ffs_start fuel next Handler) l (visited, handled, s) = let* s := ofold Handler Y s in Ret (visited', handled', s).
Proof.
  intros Hf. revert F visited handled. induction l as [|x l IH]; intros F visited handled Hl HS.
  { exists [], visited, handled. rewrite app_nil_r. split_and!; [done|by intros q ?%elem_of_nil|done]. }
  assert (Hl' : ∀ q, q ∈ l → q ∈ W) by (intros q Hq; apply Hl; by right).
  assert (Hv : ∀ q, q ∈ visited ↔ q ∈ F) by (intros q; rewrite (ff_visited _ _ _ _ _ HS); cbn; by rewrite app_nil_r).
  destruct (decide (x ∈ F)) as [Hx|Hx].
  - destruct (IH F visited handled Hl' HS) as (Y & visited' & handled' & HF & Hin & Hrun). exists Y, visited', handled'. split_and!; [done| |].
    + intros q [->|Hq]%elem_of_cons; [apply elem_of_app; by left|by apply Hin].
    + intros S Handler s. cbn [ofold ffs_start]. rewrite bool_decide_eq_true_2 by (by apply Hv). apply Hrun.
  - destruct (ffs_loop_ok fuel F [x] [] visited handled true) as (Y1 & visited1 & handled1 & HF1 & Hin1 & Hrun1).
    + destruct HS as [H1 H2 H3 H4 H5 H6 H7 H8 H9]. split; try done; [|by intros y _ ?%elem_of_nil]. intros q. rewrite elem_of_app.
      intros [Hq|Hq]; [apply H4, elem_of_app; by left|]. cbn in Hq. apply list_elem_of_singleton in Hq as ->. apply Hl. left.
    + done.
    + cbn. lia.
    + destruct (IH (F ++ Y1) visited1 handled1 Hl' HF1) as (Y & visited' & handled' & HF & Hin & Hrun). rewrite <- app_assoc in HF, Hin.
      exists (Y1 ++ Y), visited', handled'. split_and!; [done| |].
      * intros q [->|Hq]%elem_of_cons; [|by apply Hin]. rewrite app_assoc, elem_of_app. left. apply Hin1. left.
      * intros S Handler s. cbn [ofold ffs_start]. rewrite bool_decide_eq_false_2 by (by rewrite Hv). change (levels []) with (@nil (list Z)) in Hrun1.
        rewrite Hrun1, ofold_app. destruct (ofold Handler Y1 s) as [t| |]; [|done|done]. cbn [obind]. apply Hrun.
Qed.

Lemma ffs_ok (fuel : nat) (starts : list Z) : (weight W + 2 ≤ fuel)%nat → (∀ q, q ∈ starts → q ∈ W) →
  ∃ F, NoDup F ∧ (∀ q, q ∈ F → q ∈ W) ∧ (∀ q, q ∈ starts → q ∈ F) ∧ fin_ok F [] ∧
    ∀ (S : Type) (Handler : S → Z → outcome S) (s : S), FfsForEachNode fuel starts next Handler s = ofold Handler F s.
Proof.
  intros Hf Hs. destruct (ffs_starts fuel starts [] ∅ ∅) as (F & visited & handled & [H1 H2 H3 H4 H5 H6 H7 H8 H9] & Hin & Hrun); [done|done| |].
  - split; try done; cbn.
    + intros q. split; [by intros ?%not_elem_of_empty|by intros ?%elem_of_nil].
    + intros q. split; [by intros ?%not_elem_of_empty|by intros ?%elem_of_nil].
    + constructor.
    + by intros q ?%elem_of_nil.
    + constructor.
    + by intros y ?%elem_of_nil.
    + intros F1 x F2 E. by destruct F1.
  - cbn in *. rewrite app_nil_r in *. exists F. split_and!; [done|done|done|done|].
    intros S Handler s. unfold FfsForEachNode. rewrite Hrun. by destruct (ofold Handler F s).
Qed.
End Ffs.
