(* ===== verification/GraphScc.v ===== *)
(** * The first non-trivial strongly connected component

    [FindFirstNontrivialSCC] orders the nodes by a finish time first search along the
    out-edges and then searches backwards from the node that finished last.  As long as all
    components are single nodes, the backward search from a node finds its component. *)
From stdpp Require Import relations.
From S2P Require Import Prelude Util Digraph GraphAlgo GraphSearch GraphFfs.

(** A path out of a set leaves it along some edge. *)
Lemma rtc_leaves {A : Type} (R : relation A) (P : A → Prop) `{∀ x, Decision (P x)} (x y : A) :
  rtc R x y → P x → ¬ P y → ∃ a b, rtc R x a ∧ P a ∧ R a b ∧ ¬ P b.
Proof.
  induction 1 as [|x z y Hxz Hzy IH]; [done|]. intros Hx Hy. destruct (decide (P z)) as [Hz|Hz].
  - destruct (IH Hz Hy) as (a & b & Ha & HPa & Hab & Hb). exists a, b. split_and!; [by eapply rtc_l|done|done|done].
  - by exists x, z.
Qed.

Lemma insert_each (Y : list Z) (ret : gset Z) : NoDup Y → (∀ y, y ∈ Y → y ∉ ret) → ofold scc_insert Y ret = Ret (list_to_set Y ∪ ret).
Proof.
  intros HY. revert ret. induction HY as [|y Y Hy _ IH]; intros ret Hr; cbn; [f_equal; set_solver|]. unfold scc_insert at 1.
  rewrite bool_decide_eq_false_2 by (apply Hr; left). cbn. rewrite IH; [f_equal; set_solver|]. intros z Hz. specialize (Hr z). set_solver.
Qed.

Section Scc.
Context (nodes : list Z) (ins outs : Z → list Z) (fuel : nat) (Hnd : NoDup nodes).
Context (Hout : ∀ x y, x ∈ nodes → y ∈ outs x → y ∈ nodes ∧ x ∈ ins y).
Context (Hin : ∀ x y, x ∈ nodes → y ∈ ins x → y ∈ nodes ∧ x ∈ outs y).
Notation path := (rtc (linked outs)).

Definition mutual (x y : Z) : Prop := path x y ∧ path y x.
Definition alone (x : Z) : Prop := ∀ z, mutual x z → x = z.

Lemma mutual_sym (x y : Z) : mutual x y → mutual y x.
Proof. intros [H1 H2]. by split. Qed.
Lemma mutual_trans (x y z : Z) : mutual x y → mutual y z → mutual x z.
Proof. intros [H1 H2] [H3 H4]. split; by etrans. Qed.

Lemma path_nodes (x y : Z) : path x y → x ∈ nodes → y ∈ nodes.
Proof. induction 1 as [|x z y Hxz _ IH]; [done|]. intros Hx. apply IH. by eapply Hout. Qed.

(** A node that reaches one handled later is in a circle with one handled later. *)
Lemma later_mutual (F1 F2 : list Z) (u v : Z) : fin_ok outs (F1 ++ u :: F2) [] → NoDup (F1 ++ u :: F2) → (∀ q, q ∈ nodes → q ∈ F1 ++ u :: F2) → u ∈ nodes →
  path u v → v ∈ F2 → ∃ p, p ∈ F2 ∧ mutual u p.
Proof.
  intros HF HFd Hall Hu Huv Hv. assert (Hsplit : F1 ++ u :: F2 = (F1 ++ [u]) ++ F2) by (by rewrite <- app_assoc). rewrite Hsplit in *. clear Hsplit.
  apply NoDup_app in HFd as (HF1 & Hdisj & HF2).
  destruct (rtc_leaves _ (λ q, q ∈ F1 ++ [u]) _ _ Huv) as (a & b & Hua & Ha & Hab & Hb); [apply elem_of_app; right; left|by intros ?%Hdisj|].
  assert (Hb2 : b ∈ F2) by (assert (Hbn : b ∈ (F1 ++ [u]) ++ F2) by (eapply Hall, Hout; [by eapply path_nodes|done]); by apply elem_of_app in Hbn as [|]).
  exists b. split; [done|]. split; [by eapply rtc_r|]. apply list_elem_of_split in Ha as (G1 & G2 & E). rewrite E in *. rewrite <- app_assoc in HF.
  destruct (HF G1 a (G2 ++ F2) eq_refl b Hab) as [Hb1|[(A & B & EA & HA)|[?%elem_of_nil _]]]; [exfalso; apply Hb, elem_of_app; by left| |done].
  apply HA. assert (Hu2 : u ∈ a :: G2).
  { clear - E. destruct G2 as [|g G2 _] using rev_ind; [apply app_inj_tail in E as [_ ->]; left|]. rewrite app_comm_cons, app_assoc in E.
    apply app_inj_tail in E as [_ ->]. apply elem_of_cons. right. apply elem_of_app. right. left. }
  rewrite app_comm_cons in EA. apply app_eq_inv in EA as [(k & E1 & E2)|(k & E1 & E2)]; [|rewrite E1; apply elem_of_app; by left].
  destruct k as [|z k]; [rewrite app_nil_r in E1; by rewrite <- E1|]. injection E2 as -> E2. exfalso. apply Hb. apply elem_of_app. right. rewrite E1.
  apply elem_of_app. right. left.
Qed.

(** The nodes that reach [cur] and are handled before it are in a circle with it. *)
Lemma earlier_mutual (F : list Z) (cur : Z) (Vs : list Z) : fin_ok outs F [] → NoDup F → (∀ q, q ∈ nodes ↔ q ∈ F) → (∀ x, x ∈ Vs → alone x) →
  ∀ (n : nat) F1 z F2, length F2 = n → F = F1 ++ z :: F2 ++ cur :: Vs → path z cur → mutual z cur.
Proof.
  intros HF HFd Hall HVs n. induction (lt_wf n) as [n _ IH]. intros F1 z F2 Hn E Hz. subst F.
  destruct (later_mutual F1 (F2 ++ cur :: Vs) z cur) as (p & Hp & Hm); [done|done|by intros q ?%Hall| |done|apply elem_of_app; right; left|].
  { apply Hall, elem_of_app. right. left. }
  assert (Hzn : z ∉ F2 ++ cur :: Vs) by (apply NoDup_app in HFd as (_ & _ & HFd); by apply NoDup_cons in HFd as [? _]).
  apply elem_of_app in Hp as [Hp|[->|Hp]%elem_of_cons]; [|done|].
  - apply list_elem_of_split in Hp as (G1 & G2 & ->). eapply mutual_trans; [done|]. eapply (IH (length G2)) with (F1 := F1 ++ z :: G1).
    + rewrite length_app in Hn. cbn in Hn. lia.
    + reflexivity.
    + by rewrite <- !app_assoc.
    + etrans; [apply Hm|done].
  - exfalso. apply Hzn, elem_of_app. right. right. apply mutual_sym, HVs in Hm as Hmz; [|done]. by subst p.
Qed.

(** ** The backward search *)

Section Backward.
Context (F1 Vs : list Z) (cur : Z) (visited : gset Z).
Context (HF : fin_ok outs (F1 ++ cur :: Vs) []) (HFd : NoDup (F1 ++ cur :: Vs)) (Hall : ∀ q, q ∈ nodes ↔ q ∈ F1 ++ cur :: Vs).
Context (Hvs : ∀ q, q ∈ visited ↔ q ∈ Vs) (Halone : ∀ x, x ∈ Vs → alone x).
Notation back := (λ node, filter (λ in_node, in_node ∉ visited) (ins node)).

Lemma cur_node : cur ∈ nodes ∧ cur ∉ Vs.
Proof. split; [apply Hall, elem_of_app; right; left|]. apply NoDup_app in HFd as (_ & _ & HFd'). by apply NoDup_cons in HFd' as [? _]. Qed.

Lemma back_sound (z : Z) : rtc (linked back) cur z → z ∈ nodes ∧ z ∉ Vs ∧ path z cur.
Proof.
  revert z. apply (rtc_ind_r (λ z, z ∈ nodes ∧ z ∉ Vs ∧ path z cur)); [split_and!; by try apply cur_node|]. intros x z Hxz Hz (IH1 & IH2 & IH3).
  unfold linked in Hz. apply list_elem_of_filter in Hz as [Hzv Hz]. destruct (Hin x z IH1 Hz) as [Hzn Hzo].
  split_and!; [done|by rewrite <- Hvs|]. by eapply rtc_l.
Qed.

Lemma back_complete (z : Z) : mutual z cur → z ∈ nodes → rtc (linked back) cur z.
Proof.
  intros [Hz Hz']. destruct cur_node as [_ Hcv]. induction Hz as [|z y cur' Hzy Hyc IH]; [done|]. intros Hzn. destruct (Hout z y Hzn Hzy) as [Hyn Hyi].
  eapply rtc_r.
  - apply IH; try done. by eapply rtc_r.
  - apply list_elem_of_filter. split; [|done]. rewrite Hvs. intros Hzv. assert (Hzc : z = cur'); [|by subst].
    apply Halone; [done|]. split; [by eapply rtc_l|done].
Qed.

Lemma back_class (z : Z) : rtc (linked back) cur z ↔ mutual cur z.
Proof.
  split; [|intros Hm; apply back_complete; [by apply mutual_sym|eapply path_nodes; [apply Hm|apply cur_node]]].
  intros (Hz & Hzv & Hp)%back_sound. apply Hall, elem_of_app in Hz as [Hz|[->|Hz]%elem_of_cons]; [|by split|done].
  apply mutual_sym. apply list_elem_of_split in Hz as (G1 & G2 & ->).
  apply (earlier_mutual _ cur Vs HF HFd Hall Halone (length G2) G1 z G2); [done|by rewrite <- app_assoc|done].
Qed.
End Backward.

Context (Hf : (1 + edges_from ins nodes ≤ fuel)%nat).

Lemma filtered_edges (P : Z → Prop) `{∀ x, Decision (P x)} (l : list Z) : (edges_from (λ n, filter P (ins n)) l ≤ edges_from ins l)%nat.
Proof. induction l as [|x l IH]; [done|]. rewrite !edges_from_cons. pose proof (length_filter P (ins x)). lia. Qed.

Definition scc_answer (r : option (gset Z)) : Prop :=
  match r with
  | Some C => (∃ x, x ∈ nodes ∧ ∀ z, z ∈ C ↔ mutual x z) ∧ ∃ a b, a ∈ C ∧ b ∈ C ∧ a ≠ b
  | None => ∀ x y, x ∈ nodes → mutual x y → x = y
  end.

Lemma scc_loop_ok (F1 Vs : list Z) (visited : gset Z) : fin_ok outs (reverse F1 ++ Vs) [] → NoDup (reverse F1 ++ Vs) → (∀ q, q ∈ nodes ↔ q ∈ reverse F1 ++ Vs) →
  (∀ q, q ∈ visited ↔ q ∈ Vs) → (∀ x, x ∈ Vs → alone x) → ∃ r, scc_loop fuel ins F1 visited = Ret r ∧ scc_answer r.
Proof.
  revert Vs visited. induction F1 as [|cur F1 IH]; intros Vs visited HF HFd Hall Hvs Halone.
  { exists None. split; [done|]. intros x y Hx%Hall. by apply Halone. }
  rewrite reverse_cons, <- app_assoc in HF, HFd, Hall. cbn [app] in *. cbn [scc_loop].
  set (back := λ node, filter (λ in_node, in_node ∉ visited) (ins node)).
  pose proof (cur_node (reverse F1) Vs cur HFd Hall) as [Hcn Hcv].
  destruct (dfs_ok back [cur] nodes) with (fuel := fuel) as (Y & HY & HYin & Hrun).
  - by intros q ->%list_elem_of_singleton.
  - intros x y Hx [_ Hy]%list_elem_of_filter. by eapply Hin.
  - pose proof (filtered_edges (λ in_node, in_node ∉ visited) nodes). unfold back. cbn [length]. lia.
  - rewrite Hrun, insert_each, union_empty_r_L by (done || by intros y _ ?%not_elem_of_empty). cbn [obind].
    assert (HYc : ∀ z, z ∈ Y ↔ mutual cur z).
    { intros z. rewrite HYin, <- (back_class (reverse F1) Vs cur visited HF HFd Hall Hvs Halone). split; [by intros (r & ->%list_elem_of_singleton & Hr)|].
      intros Hr. exists cur. split; [left|done]. }
    rewrite size_list_to_set by done. destruct (Nat.ltb_spec 1 (length Y)) as [Hl|Hl].
    + eexists. split; [done|]. split; [exists cur; split; [done|]; intros z; by rewrite elem_of_list_to_set|].
      destruct Y as [|a [|b Y]]; [cbn in Hl; lia..|]. exists a, b. apply NoDup_cons in HY as [Hab _]. split_and!; [set_solver|set_solver|]. intros ->. apply Hab. left.
    + assert (EY : Y = [cur]).
      { assert (HcY : cur ∈ Y) by (by apply HYc). destruct Y as [|a [|b Y]]; [by apply elem_of_nil in HcY| |cbn in Hl; lia]. by apply list_elem_of_singleton in HcY as ->. }
      apply (IH (cur :: Vs)); [done|done|done| |].
      * intros q. subst Y. rewrite elem_of_union, Hvs, elem_of_list_to_set, list_elem_of_singleton, elem_of_cons. tauto.
      * intros x [->|Hx]%elem_of_cons; [|by apply Halone]. intros z Hz%HYc. subst Y. by apply list_elem_of_singleton in Hz.
Qed.

Lemma scc_ok : (edges_from outs nodes + 3 * length nodes + 2 ≤ fuel)%nat →
  ∃ r, FindFirstNontrivialSCC fuel nodes ins outs = Ret r ∧ scc_answer r.
Proof.
  intros Hf'. destruct (ffs_ok outs nodes Hnd) with (fuel := fuel) (starts := nodes) as (F & HFd & HFn & HnF & HF & Hrun); [intros x y Hx Hy; by eapply Hout|done|done|].
  unfold FindFirstNontrivialSCC. rewrite Hrun.
  assert (Hst : ∀ (l st : list Z), ofold (λ stack node, Ret (node :: stack)) l st = Ret (reverse l ++ st)).
  { induction l as [|x l IHl]; intros st; [done|]. cbn [ofold obind]. by rewrite IHl, reverse_cons, <- app_assoc. }
  rewrite Hst, app_nil_r. cbn [obind]. apply scc_loop_ok with (Vs := []); rewrite ?reverse_involutive, ?app_nil_r; try done.
  - intros q. split; [apply HnF|apply HFn].
  - intros q. split; [by intros ?%not_elem_of_empty|by intros ?%elem_of_nil].
  - by intros x ?%elem_of_nil.
Qed.
End Scc.

(** C12 [FindFirstNontrivialSCC] finds a circle exactly when there is one: for a graph whose
    in- and out-nodes mirror each other and all nodes as starts, the search ends without an
    abort; a set it returns is the strongly connected component of one of its nodes and has
    at least two nodes, and if it returns none then no two nodes reach each other. *)
Theorem find_first_scc (nodes : list Z) (ins outs : Z → list Z) (fuel : nat) (Hnd : NoDup nodes)
    (Hout : ∀ x y, x ∈ nodes → y ∈ outs x → y ∈ nodes ∧ x ∈ ins y) (Hin : ∀ x y, x ∈ nodes → y ∈ ins x → y ∈ nodes ∧ x ∈ outs y)
    (Hf : (edges_from ins nodes + edges_from outs nodes + 3 * length nodes + 2 ≤ fuel)%nat) :
  ∃ r, FindFirstNontrivialSCC fuel nodes ins outs = Ret r ∧
    match r with
    | Some C => (∃ x, x ∈ nodes ∧ ∀ z, z ∈ C ↔ mutual outs x z) ∧ ∃ a b, a ∈ C ∧ b ∈ C ∧ a ≠ b
    | None => ∀ x y, x ∈ nodes → mutual outs x y → x = y
    end.
Proof. apply scc_ok; [done|done|done|lia..]. Qed.

(** The circle [1 -> 2 -> 1] behind the node [0]. *)
Lemma find_first_scc_witness :
  let outs (n : Z) := if n =? 0 then [1] else if n =? 1 then [2] else if n =? 2 then [1] else [] in
  let ins (n : Z) := if n =? 1 then [0; 2] else if n =? 2 then [1] else [] in
  FindFirstNontrivialSCC 30 [0; 1; 2] ins outs = Ret (Some {[1; 2]}) ∧
  ∃ r, FindFirstNontrivialSCC 30 [0; 1; 2] ins outs = Ret r ∧
    match r with
    | Some C => (∃ x, x ∈ [0; 1; 2] ∧ ∀ z, z ∈ C ↔ mutual outs x z) ∧ ∃ a b, a ∈ C ∧ b ∈ C ∧ a ≠ b
    | None => ∀ x y, x ∈ [0; 1; 2] → mutual outs x y → x = y
    end.
Proof.
  intros outs ins. split; [vm_compute; done|]. apply (find_first_scc [0; 1; 2] ins outs 30).
  - apply (bool_decide_unpack _). vm_compute. done.
  - check_edges.
  - check_edges.
  - vm_compute. lia.
Defined.
