(* ===== verification/GraphStore.v ===== *)
(** * The edges of a graph are consistent

    The operations that build a graph keep the edge sets of its nodes and the ends of its
    edges in step.  So the in- and out-nodes that the traversals follow describe the same
    edges, which is what the theorems on traversals require. *)
From stdpp Require Import relations.
From S2P Require Import Prelude Util Digraph GraphAlgo GraphTopo.

Definition src_of (g : Graph) (e : Z) : option Z := match edge_store g !! e with Some e => src_node_ e | None => None end.
Definition dst_of (g : Graph) (e : Z) : option Z := match edge_store g !! e with Some e => dst_node_ e | None => None end.
Definition out_of (g : Graph) (n : Z) : gset Z := match node_store g !! n with Some x => out_edges_ x | None => ∅ end.
Definition in_of (g : Graph) (n : Z) : gset Z := match node_store g !! n with Some x => in_edges_ x | None => ∅ end.

Record graph_ok (g : Graph) : Prop := mkGraphOk {
  g_nodup : NoDup (nodes_ g);
  g_nodes : ∀ n, n ∈ nodes_ g ↔ is_Some (node_store g !! n);
  g_fresh_node : ∀ n, n ∈ nodes_ g → n < node_ids g;
  g_fresh_edge : ∀ e, is_Some (edge_store g !! e) → e < edge_ids g;
  g_out : ∀ n e, e ∈ out_of g n ↔ src_of g e = Some n;
  g_in : ∀ n e, e ∈ in_of g n ↔ dst_of g e = Some n;
  g_src : ∀ e n, src_of g e = Some n → n ∈ nodes_ g ∧ is_Some (dst_of g e);
  g_dst : ∀ e n, dst_of g e = Some n → n ∈ nodes_ g ∧ is_Some (src_of g e)
}.

(** ** The neighbours *)

Lemma occ_omap {A : Type} (f : A → option Z) (l : list A) (n : Z) : occ n (omap f l) = length (filter (λ a, f a = Some n) l).
Proof.
  unfold occ. induction l as [|a l IH]; [done|]. rewrite filter_cons. cbn [omap list_omap]. destruct (f a) as [m|] eqn:E.
  - rewrite filter_cons. destruct (decide (m = n)) as [->|Hne]; [rewrite decide_True by done; cbn; by f_equal|]. rewrite decide_False by congruence. done.
  - by rewrite decide_False by done.
Qed.

Lemma out_nodes (g : Graph) (n : Z) : ForEachNodeOnOutEdge g n = omap (dst_of g) (elements (out_of g n)).
Proof. unfold ForEachNodeOnOutEdge, out_of. destruct (node_store g !! n); [done|]. by rewrite elements_empty. Qed.
Lemma in_nodes (g : Graph) (n : Z) : ForEachNodeOnInEdge g n = omap (src_of g) (elements (in_of g n)).
Proof. unfold ForEachNodeOnInEdge, in_of. destruct (node_store g !! n); [done|]. by rewrite elements_empty. Qed.

Lemma graph_agree (g : Graph) : graph_ok g → agree (nodes_ g) (ForEachNodeOnInEdge g) (ForEachNodeOnOutEdge g).
Proof.
  intros [G1 G2 G3 G4 G5 G6 G7 G8]. split; [done| | |].
  - intros n q Hn. rewrite out_nodes, list_elem_of_omap. intros (e & _ & He). by eapply G8.
  - intros n q Hn. rewrite in_nodes, list_elem_of_omap. intros (e & _ & He). by eapply G7.
  - intros m n Hm Hn. rewrite out_nodes, in_nodes, !occ_omap. apply Permutation_length.
    apply NoDup_Permutation; [apply NoDup_filter, NoDup_elements..|]. intros e. rewrite !list_elem_of_filter, !elem_of_elements, G5, G6. tauto.
Qed.

(** ** The operations *)

Definition empty_graph : Graph := mkGraph ∅ ∅ [] [] 0 0.

Lemma empty_ok : graph_ok empty_graph.
Proof.
  assert (Hn : ∀ e, src_of empty_graph e = None ∧ dst_of empty_graph e = None) by done.
  assert (Ho : ∀ n, out_of empty_graph n = ∅ ∧ in_of empty_graph n = ∅) by done.
  split.
  - constructor.
  - intros n. split; [by intros ?%elem_of_nil|by intros [? ?]].
  - by intros n ?%elem_of_nil.
  - by intros e [? ?].
  - intros n e. rewrite (proj1 (Ho n)), (proj1 (Hn e)). split; [by intros ?%not_elem_of_empty|done].
  - intros n e. rewrite (proj2 (Ho n)), (proj2 (Hn e)). split; [by intros ?%not_elem_of_empty|done].
  - intros e n. by rewrite (proj1 (Hn e)).
  - intros e n. by rewrite (proj2 (Hn e)).
Qed.

Lemma NewNode_ok (g : Graph) : graph_ok g → graph_ok (NewNode g).1.
Proof.
  intros [G1 G2 G3 G4 G5 G6 G7 G8]. set (g' := (NewNode g).1). assert (Hn : node_ids g ∉ nodes_ g) by (intros ?%G3; lia).
  assert (Hnone : node_store g !! node_ids g = None) by (apply eq_None_not_Some; by rewrite <- G2).
  assert (Ho : ∀ n, out_of g' n = out_of g n ∧ in_of g' n = in_of g n).
  { intros n. unfold out_of, in_of, g'. cbn. destruct (decide (node_ids g = n)) as [<-|Hd]; [by rewrite lookup_insert_eq, Hnone|by rewrite lookup_insert_ne]. }
  split; try done; try exact G4.
  - cbn. apply NoDup_app. split_and!; [done| |apply NoDup_singleton]. by intros n Hn' ->%list_elem_of_singleton.
  - intros n. cbn. rewrite elem_of_app, G2, list_elem_of_singleton. destruct (decide (node_ids g = n)) as [<-|Hd].
    + rewrite lookup_insert_eq. naive_solver.
    + rewrite lookup_insert_ne by done. naive_solver.
  - intros n. cbn. intros [Hn'%G3| ->%list_elem_of_singleton]%elem_of_app; lia.
  - intros n e. rewrite (proj1 (Ho n)). apply G5.
  - intros n e. rewrite (proj2 (Ho n)). apply G6.
  - intros e n [? ?]%G7. split; [apply elem_of_app; by left|done].
  - intros e n [? ?]%G8. split; [apply elem_of_app; by left|done].
Qed.

Lemma NewEdge_ok (g : Graph) : graph_ok g → graph_ok (NewEdge g).1.
Proof.
  intros [G1 G2 G3 G4 G5 G6 G7 G8]. set (g' := (NewEdge g).1).
  assert (Hfresh : edge_store g !! edge_ids g = None) by (apply eq_None_not_Some; intros ?%G4; lia).
  assert (Hs : ∀ e, src_of g' e = src_of g e ∧ dst_of g' e = dst_of g e).
  { intros e. unfold src_of, dst_of, g'. cbn. destruct (decide (edge_ids g = e)) as [<-|Hd]; [by rewrite lookup_insert_eq, Hfresh|by rewrite lookup_insert_ne]. }
  split; try done.
  - intros e. cbn. destruct (decide (edge_ids g = e)) as [<-|Hd]; [lia|]. rewrite lookup_insert_ne by done. intros ?%G4. lia.
  - intros n e. rewrite (proj1 (Hs e)). apply G5.
  - intros n e. rewrite (proj2 (Hs e)). apply G6.
  - intros e n. rewrite (proj1 (Hs e)), (proj2 (Hs e)). apply G7.
  - intros e n. rewrite (proj1 (Hs e)), (proj2 (Hs e)). apply G8.
Qed.

(** The edge [e] leads from [a] to [b] in [g'], which is [g] otherwise. *)
Record relinked (g : Graph) (e : Z) (a b : option Z) (g' : Graph) : Prop := mkRelinked {
  r_nodes : nodes_ g' = nodes_ g ∧ node_ids g' = node_ids g ∧ edge_ids g' = edge_ids g ∧ edges_ g' = edges_ g;
  r_stored : ∀ n, is_Some (node_store g' !! n) ↔ is_Some (node_store g !! n);
  r_edges : ∀ x, is_Some (edge_store g' !! x) ↔ is_Some (edge_store g !! x);
  r_src : ∀ x, src_of g' x = if decide (x = e) then a else src_of g x;
  r_dst : ∀ x, dst_of g' x = if decide (x = e) then b else dst_of g x;
  r_out : ∀ n x, x ∈ out_of g' n ↔ if decide (x = e) then a = Some n else x ∈ out_of g n;
  r_in : ∀ n x, x ∈ in_of g' n ↔ if decide (x = e) then b = Some n else x ∈ in_of g n
}.

Lemma relinked_ok (g g' : Graph) (e : Z) (a b : option Z) : graph_ok g → (is_Some a ↔ is_Some b) → (∀ n, a = Some n → n ∈ nodes_ g) → (∀ n, b = Some n → n ∈ nodes_ g) →
  relinked g e a b g' → graph_ok g'.
Proof.
  intros [G1 G2 G3 G4 G5 G6 G7 G8] Hab Ha Hb [(R1 & R2 & R3 & _) R4 R5 R6 R7 R8 R9]. split.
  - by rewrite R1.
  - intros n. by rewrite R1, R4.
  - intros n. rewrite R1, R2. apply G3.
  - intros x. rewrite R3, R5. apply G4.
  - intros n x. rewrite R8, R6. destruct (decide (x = e)); [done|apply G5].
  - intros n x. rewrite R9, R7. destruct (decide (x = e)); [done|apply G6].
  - intros x n. rewrite R1, R6, R7. destruct (decide (x = e)) as [_|_]; [|apply G7]. intros E. split; [by apply Ha|]. apply Hab. by rewrite E.
  - intros x n. rewrite R1, R6, R7. destruct (decide (x = e)) as [_|_]; [|apply G8]. intros E. split; [by apply Hb|]. apply Hab. by rewrite E.
Qed.

(** *** What a node or an edge that is set shows *)

Lemma out_set_node (g : Graph) (k n : Z) (x : NodeT) : out_of (set_node g k x) n = if decide (n = k) then out_edges_ x else out_of g n.
Proof. unfold out_of. cbn. destruct (decide (n = k)) as [->|]; [by rewrite lookup_insert_eq|by rewrite lookup_insert_ne]. Qed.
Lemma in_set_node (g : Graph) (k n : Z) (x : NodeT) : in_of (set_node g k x) n = if decide (n = k) then in_edges_ x else in_of g n.
Proof. unfold in_of. cbn. destruct (decide (n = k)) as [->|]; [by rewrite lookup_insert_eq|by rewrite lookup_insert_ne]. Qed.
Lemma src_set_edge (g : Graph) (k e : Z) (y : EdgeT) : src_of (set_edge g k y) e = if decide (e = k) then src_node_ y else src_of g e.
Proof. unfold src_of. cbn. destruct (decide (e = k)) as [->|]; [by rewrite lookup_insert_eq|by rewrite lookup_insert_ne]. Qed.
Lemma dst_set_edge (g : Graph) (k e : Z) (y : EdgeT) : dst_of (set_edge g k y) e = if decide (e = k) then dst_node_ y else dst_of g e.
Proof. unfold dst_of. cbn. destruct (decide (e = k)) as [->|]; [by rewrite lookup_insert_eq|by rewrite lookup_insert_ne]. Qed.
Lemma stored_insert {A : Type} (m : gmap Z A) (k n : Z) (x : A) : is_Some (m !! k) → is_Some (<[k := x]> m !! n) ↔ is_Some (m !! n).
Proof. intros Hk. destruct (decide (k = n)) as [->|]; [rewrite lookup_insert_eq|by rewrite lookup_insert_ne]. split; [done|by eexists]. Qed.
Lemma the_some {A : Type} (m : gmap Z A) (n : Z) : is_Some (m !! n) → ∃ x, m !! n = Some x ∧ the m n = Ret x.
Proof. intros [x E]. exists x. unfold the. by rewrite E. Qed.
Lemma the_none {A : Type} (m : gmap Z A) (n : Z) : ¬ is_Some (m !! n) → the m n = Crash.
Proof. intros H. unfold the. destruct (m !! n); [|done]. destruct H. by eexists. Qed.

Definition connectable (g : Graph) (src e dst : Z) : Prop := src ∈ nodes_ g ∧ dst ∈ nodes_ g ∧ is_Some (edge_store g !! e) ∧ src_of g e = None.
#[global] Instance connectable_dec (g : Graph) (src e dst : Z) : Decision (connectable g src e dst) := _.

Lemma connectable_ends (g : Graph) (src e dst : Z) : graph_ok g → connectable g src e dst →
  dst_of g e = None ∧ (∀ n, e ∉ out_of g n) ∧ (∀ n, e ∉ in_of g n).
Proof.
  intros HG (_ & _ & _ & Hs). assert (Hd : dst_of g e = None).
  { destruct (dst_of g e) as [n|] eqn:E; [|done]. apply (g_dst _ HG) in E as [_ [? E]]. congruence. }
  split_and!; [done| |]; intros n; [rewrite (g_out _ HG), Hs|rewrite (g_in _ HG), Hd]; done.
Qed.

Lemma Connect_ok (g : Graph) (src e dst : Z) : graph_ok g → connectable g src e dst →
  ∃ g', Connect g src e dst = Ret g' ∧ relinked g e (Some src) (Some dst) g'.
Proof.
  intros HG HC. destruct (connectable_ends g src e dst HG HC) as (Hd & Ho & Hi). destruct HC as (Hsn & Hdn & He & Hs).
  apply (g_nodes _ HG) in Hsn, Hdn. unfold Connect. destruct (the_some _ _ Hsn) as (x & Ex & ->). cbn [obind].
  pose proof (Ho src) as Hox. unfold out_of in Hox. rewrite Ex in Hox. rewrite bool_decide_eq_false_2 by done. cbn [negb CHECK obind].
  set (g1 := set_node g src _). assert (Hd1 : is_Some (node_store g1 !! dst)) by (by apply stored_insert).
  destruct (the_some _ _ Hd1) as (y & Ey & ->). cbn [obind].
  assert (Hiy : in_edges_ y = in_of g dst).
  { transitivity (in_of g1 dst); [unfold in_of; by rewrite Ey|]. unfold g1. rewrite in_set_node. destruct (decide (dst = src)) as [->|]; [|done]. cbn. unfold in_of. by rewrite Ex. }
  assert (Hoy : out_edges_ y = out_of g1 dst) by (unfold out_of; by rewrite Ey).
  assert (Ho1 : ∀ n, out_of g1 n = if decide (n = src) then {[e]} ∪ out_of g src else out_of g n).
  { intros n. unfold g1. rewrite out_set_node. cbn. destruct (decide (n = src)); [|done]. unfold out_of. by rewrite Ex. }
  assert (Hi1 : ∀ n, in_of g1 n = in_of g n).
  { intros n. unfold g1. rewrite in_set_node. cbn. destruct (decide (n = src)) as [->|]; [|done]. unfold in_of. by rewrite Ex. }
  rewrite Hiy, Hoy. rewrite bool_decide_eq_false_2 by apply Hi. cbn [negb CHECK obind]. set (g2 := set_node g1 dst _).
  assert (He2 : is_Some (edge_store g2 !! e)) by done. destruct (the_some _ _ He2) as (z & Ez & ->). cbn [obind].
  assert (Hz : src_node_ z = None ∧ dst_node_ z = None) by (unfold src_of, dst_of in Hs, Hd; change (edge_store g !! e = Some z) in Ez; by rewrite Ez in Hs, Hd).
  destruct Hz as [-> ->]. cbn [CHECK obind]. eexists. split; [done|]. split.
  - done.
  - intros n. transitivity (is_Some (node_store g1 !! n)); by apply stored_insert.
  - intros n. by apply stored_insert.
  - intros n. by rewrite src_set_edge.
  - intros n. by rewrite dst_set_edge.
  - intros n q. change (q ∈ out_of g2 n ↔ if decide (q = e) then Some src = Some n else q ∈ out_of g n). unfold g2. rewrite out_set_node. cbn [out_edges_].
    assert (E : (if decide (n = dst) then out_of g1 dst else out_of g1 n) = out_of g1 n) by (by destruct (decide (n = dst)) as [->|]). rewrite E, Ho1.
    specialize (Ho n). destruct (decide (n = src)) as [->|], (decide (q = e)) as [->|]; set_solver.
  - intros n q. change (q ∈ in_of g2 n ↔ if decide (q = e) then Some dst = Some n else q ∈ in_of g n). unfold g2. rewrite in_set_node. cbn [in_edges_]. rewrite Hi1.
    specialize (Hi n). destruct (decide (n = dst)) as [->|], (decide (q = e)) as [->|]; set_solver.
Qed.

Lemma Connect_aborts (g : Graph) (src e dst : Z) : graph_ok g → ¬ connectable g src e dst → Connect g src e dst = Crash.
Proof.
  intros HG HC. unfold Connect. destruct (decide (is_Some (node_store g !! src))) as [Hsn|Hsn]; [|by rewrite the_none].
  destruct (the_some _ _ Hsn) as (x & Ex & ->). cbn [obind]. destruct (negb _); [|done]. cbn [CHECK obind]. set (g1 := set_node g src _).
  destruct (decide (is_Some (node_store g1 !! dst))) as [Hdn|Hdn]; [|by rewrite the_none]. destruct (the_some _ _ Hdn) as (y & Ey & ->). cbn [obind].
  destruct (negb _); [|done]. cbn [CHECK obind]. set (g2 := set_node g1 dst _).
  destruct (decide (is_Some (edge_store g2 !! e))) as [He|He]; [|by rewrite the_none]. destruct (the_some _ _ He) as (z & Ez & ->). cbn [obind].
  destruct (src_node_ z) as [a|] eqn:Ea; [done|]. exfalso. apply HC. split_and!; [by apply (g_nodes _ HG)|apply (g_nodes _ HG); by apply stored_insert in Hdn|done|].
  unfold src_of. change (edge_store g !! e) with (edge_store g2 !! e). by rewrite Ez.
Qed.

Lemma DisConnect_ok (g : Graph) (e : Z) : graph_ok g → is_Some (src_of g e) → ∃ g', DisConnect g e = Ret g' ∧ relinked g e None None g'.
Proof.
  intros HG [src Hs]. destruct (g_src _ HG _ _ Hs) as [Hsn [dst Hd]]. destruct (g_dst _ HG _ _ Hd) as [Hdn _].
  apply (g_nodes _ HG) in Hsn, Hdn. unfold DisConnect. assert (He : is_Some (edge_store g !! e)) by (unfold src_of in Hs; destruct (edge_store g !! e); [by eexists|done]).
  destruct (the_some _ _ He) as (z & Ez & ->). cbn [obind]. assert (Hz : src_node_ z = Some src ∧ dst_node_ z = Some dst) by (unfold src_of, dst_of in Hs, Hd; by rewrite Ez in Hs, Hd).
  destruct Hz as [-> ->]. destruct (the_some _ _ Hsn) as (x & Ex & ->). cbn [obind].
  assert (Hox : out_of g src = out_edges_ x) by (unfold out_of; by rewrite Ex). assert (Hix : in_of g src = in_edges_ x) by (unfold in_of; by rewrite Ex).
  rewrite <- Hox, bool_decide_eq_true_2 by (by apply (g_out _ HG)). cbn [CHECK obind].
  set (g1 := set_node g src _). assert (Hd1 : is_Some (node_store g1 !! dst)) by (by apply stored_insert).
  destruct (the_some _ _ Hd1) as (y & Ey & ->). cbn [obind].
  assert (Hiy : in_edges_ y = in_of g1 dst) by (unfold in_of; by rewrite Ey). assert (Hoy : out_edges_ y = out_of g1 dst) by (unfold out_of; by rewrite Ey).
  assert (Ho1 : ∀ n, out_of g1 n = if decide (n = src) then out_of g src ∖ {[e]} else out_of g n) by (intros n; unfold g1; by rewrite out_set_node).
  assert (Hi1 : ∀ n, in_of g1 n = in_of g n).
  { intros n. unfold g1. rewrite in_set_node. cbn. by destruct (decide (n = src)) as [->|]. }
  rewrite Hiy, Hoy, Hi1. rewrite bool_decide_eq_true_2 by (by apply (g_in _ HG)). cbn [CHECK obind]. set (g2 := set_node g1 dst _). eexists. split; [done|]. split.
  - done.
  - intros n. transitivity (is_Some (node_store g1 !! n)); by apply stored_insert.
  - intros n. by apply stored_insert.
  - intros n. by rewrite src_set_edge.
  - intros n. by rewrite dst_set_edge.
  - intros n q. change (q ∈ out_of g2 n ↔ if decide (q = e) then None = Some n else q ∈ out_of g n). unfold g2. rewrite out_set_node. cbn [out_edges_].
    assert (E : (if decide (n = dst) then out_of g1 dst else out_of g1 n) = out_of g1 n) by (by destruct (decide (n = dst)) as [->|]). rewrite E, Ho1.
    pose proof (g_out _ HG n e) as Hn. destruct (decide (n = src)) as [->|], (decide (q = e)) as [->|]; set_solver.
  - intros n q. change (q ∈ in_of g2 n ↔ if decide (q = e) then None = Some n else q ∈ in_of g n). unfold g2. rewrite in_set_node. cbn [in_edges_]. rewrite Hi1.
    pose proof (g_in _ HG n e) as Hn. destruct (decide (n = dst)) as [->|], (decide (q = e)) as [->|]; set_solver.
Qed.

Lemma DisConnect_aborts (g : Graph) (e : Z) : src_of g e = None → DisConnect g e = Crash.
Proof. unfold src_of, DisConnect, the. destruct (edge_store g !! e) as [z|]; [|done]. cbn [obind]. by intros ->. Qed.

Lemma DeleteNode_ok (g : Graph) (n : Z) : graph_ok g → in_of g n = ∅ → out_of g n = ∅ → graph_ok (DeleteNode g n).
Proof.
  intros [G1 G2 G3 G4 G5 G6 G7 G8] Hi Ho. set (g' := DeleteNode g n).
  assert (HE : nodes_ g' ≡ₚ filter (λ x, (x =? n) = false) (nodes_ g)) by apply Erase_partition.
  assert (Hn : ∀ x, x ∈ nodes_ g' ↔ x ≠ n ∧ x ∈ nodes_ g) by (intros x; by rewrite HE, list_elem_of_filter, Z.eqb_neq).
  assert (Hv : ∀ x, out_of g' x = out_of g x ∧ in_of g' x = in_of g x).
  { intros x. destruct (decide (n = x)) as [<-|Hne]; [rewrite Hi, Ho|]; unfold out_of, in_of, g', DeleteNode; cbn; [by rewrite lookup_delete_eq|by rewrite lookup_delete_ne]. }
  assert (Hsd : ∀ e, src_of g e ≠ Some n ∧ dst_of g e ≠ Some n) by (intros e; rewrite <- G5, <- G6, Hi, Ho; split; apply not_elem_of_empty).
  split; try done; try exact G4.
  - rewrite HE. by apply NoDup_filter.
  - intros x. rewrite Hn, G2. unfold g', DeleteNode. cbn. destruct (decide (n = x)) as [<-|Hne]; [rewrite lookup_delete_eq|rewrite lookup_delete_ne by done].
    + split; [tauto|by intros [? ?]].
    + naive_solver.
  - intros x [_ ?%G3]%Hn. done.
  - intros x e. rewrite (proj1 (Hv x)). apply G5.
  - intros x e. rewrite (proj2 (Hv x)). apply G6.
  - intros e x Ex. split; [|by eapply G7]. apply Hn. split; [|by eapply G7]. intros ->. by destruct (proj1 (Hsd e)).
  - intros e x Ex. split; [|by eapply G8]. apply Hn. split; [|by eapply G8]. intros ->. by destruct (proj2 (Hsd e)).
Qed.

(** ** Graphs that the operations build *)

Inductive built : Graph → Prop :=
| built_empty : built empty_graph
| built_node (g : Graph) : built g → built (NewNode g).1
| built_edge (g : Graph) : built g → built (NewEdge g).1
| built_connect (g g' : Graph) (src e dst : Z) : built g → Connect g src e dst = Ret g' → built g'
| built_disconnect (g g' : Graph) (e : Z) : built g → DisConnect g e = Ret g' → built g'
| built_delete (g : Graph) (n : Z) : built g → ForEachNodeOnInOutEdge g n = [] → built (DeleteNode g n).

Lemma no_neighbours (g : Graph) (n : Z) : graph_ok g → ForEachNodeOnInOutEdge g n = [] → in_of g n = ∅ ∧ out_of g n = ∅.
Proof.
  intros HG H. unfold ForEachNodeOnInOutEdge in H. apply app_eq_nil in H as [Hi Ho]. rewrite in_nodes in Hi. rewrite out_nodes in Ho.
  split; apply set_eq; intros e; (split; [intros He|by intros ?%not_elem_of_empty]); exfalso.
  - apply (g_in _ HG) in He as Hd. destruct (g_dst _ HG _ _ Hd) as [_ [m Hm]]. apply (not_elem_of_nil m). rewrite <- Hi. apply list_elem_of_omap. exists e.
    by rewrite elem_of_elements.
  - apply (g_out _ HG) in He as Hs. destruct (g_src _ HG _ _ Hs) as [_ [m Hm]]. apply (not_elem_of_nil m). rewrite <- Ho. apply list_elem_of_omap. exists e.
    by rewrite elem_of_elements.
Qed.

Lemma built_ok (g : Graph) : built g → graph_ok g.
Proof.
  induction 1 as [|g _ IH|g _ IH|g g' src e dst _ IH E|g g' e _ IH E|g n _ IH E].
  - apply empty_ok.
  - by apply NewNode_ok.
  - by apply NewEdge_ok.
  - assert (HC : src ∈ nodes_ g ∧ dst ∈ nodes_ g ∧ is_Some (edge_store g !! e) ∧ src_of g e = None).
    { destruct (decide (src ∈ nodes_ g ∧ dst ∈ nodes_ g ∧ is_Some (edge_store g !! e) ∧ src_of g e = None)) as [|Hn]; [done|]. by rewrite Connect_aborts in E. }
    destruct (Connect_ok g src e dst IH HC) as (g2 & E2 & HR). rewrite E in E2. injection E2 as <-. destruct HC as (Hs & Hd & _).
    apply (relinked_ok g g' e (Some src) (Some dst)); [done|split; by eexists|by intros n [= <-]..|done].
  - destruct (src_of g e) as [s|] eqn:Es; [|by rewrite DisConnect_aborts in E].
    destruct (DisConnect_ok g e IH) as (g2 & E2 & HR); [by rewrite Es|]. rewrite E in E2. injection E2 as <-.
    by apply (relinked_ok g g' e None None).
  - destruct (no_neighbours g n IH E). by apply DeleteNode_ok.
Qed.

(** C11 A graph that is built by its operations has consistent edges: [Connect] and
    [DisConnect] of a built graph either abort or change the ends of exactly one edge, the
    in- and out-nodes always mirror each other, and so the topological traversal of a built
    graph handles each node after its in-nodes, and all nodes unless there is a cycle. *)
Theorem built_graph_topo (g : Graph) (fuel : nat) (HB : built g) (Hsmall : ∀ n, n ∈ nodes_ g → Z.of_nat (length (ForEachNodeOnInEdge g n)) < 2 ^ 31)
    (Hf : (length (nodes_ g) ≤ fuel)%nat) :
  (∀ src e dst, if decide (connectable g src e dst) then ∃ g', Connect g src e dst = Ret g' ∧ relinked g e (Some src) (Some dst) g' else Connect g src e dst = Crash) ∧
  (∀ e, if src_of g e then ∃ g', DisConnect g e = Ret g' ∧ relinked g e None None g' else DisConnect g e = Crash) ∧
  agree (nodes_ g) (ForEachNodeOnInEdge g) (ForEachNodeOnOutEdge g) ∧
  ∃ X, NoDup X ∧ (∀ n, n ∈ X → n ∈ nodes_ g) ∧ topo_order (ForEachNodeOnInEdge g) X ∧ (X ≡ₚ nodes_ g ↔ acyclic (nodes_ g) (ForEachNodeOnOutEdge g)) ∧
    ∀ (S : Type) (Handler : S → Z → outcome S) (s : S), TopoGraph fuel Handler g s = ofold Handler X s.
Proof.
  pose proof (built_ok g HB) as HG. split_and!.
  - intros src e dst. destruct (decide _); [by apply Connect_ok|by apply Connect_aborts].
  - intros e. destruct (src_of g e) eqn:E; [apply DisConnect_ok; [done|by rewrite E]|by apply DisConnect_aborts].
  - by apply graph_agree.
  - apply topo_exists; [by apply graph_agree|done|done].
Qed.

(** The edge [0 -> 1], with a node [2] on its own. *)
Lemma built_graph_topo_witness :
  let g0 := (NewEdge (NewNode (NewNode (NewNode empty_graph).1).1).1).1 in
  ∃ g, Connect g0 0 0 1 = Ret g ∧
    ((∀ src e dst, if decide (connectable g src e dst) then ∃ g', Connect g src e dst = Ret g' ∧ relinked g e (Some src) (Some dst) g' else Connect g src e dst = Crash) ∧
    (∀ e, if src_of g e then ∃ g', DisConnect g e = Ret g' ∧ relinked g e None None g' else DisConnect g e = Crash) ∧
    agree (nodes_ g) (ForEachNodeOnInEdge g) (ForEachNodeOnOutEdge g) ∧
    ∃ X, NoDup X ∧ (∀ n, n ∈ X → n ∈ nodes_ g) ∧ topo_order (ForEachNodeOnInEdge g) X ∧ (X ≡ₚ nodes_ g ↔ acyclic (nodes_ g) (ForEachNodeOnOutEdge g)) ∧
      ∀ (S : Type) (Handler : S → Z → outcome S) (s : S), TopoGraph 3 Handler g s = ofold Handler X s).
Proof.
  intros g0. destruct (Connect g0 0 0 1) as [g| |] eqn:E; [|vm_compute in E; discriminate..]. exists g. split; [done|]. apply (built_graph_topo g 3).
  - apply (built_connect g0 g 0 0 1); [|done]. repeat constructor.
  - vm_compute in E. injection E as <-. apply Forall_forall, (bool_decide_unpack _). vm_compute. done.
  - vm_compute in E. injection E as <-. cbn. lia.
Defined.
