(* ===== verification/ListHook.v ===== *)
(** * Hooks of intrusive lists

    Models [ListHook] of [oneflow/core/intrusive/list_hook.h]: objects carry the pointers of
    the lists they are in.

    An address is an element of a countable type [A]; the memory is a finite map from
    addresses to hooks, so that following a pointer to no hook, or a null pointer, aborts.
    A container with elements [l] is a ring of hooks, [ring h c l]. *)
From S2P Require Import Prelude.

Record ListHook (A : Type) := mkHook { prev_ : option A; next_ : option A }.
Arguments mkHook {A}.
Arguments prev_ {A}.
Arguments next_ {A}.

Section Hooks.
Context {A : Type} `{Countable A}.
Implicit Types (h : gmap A (ListHook A)) (x y c p q : A).

(** ** Operations *)

Definition hook h x : outcome (ListHook A) := match h !! x with Some k => Ret k | None => Crash end.
Definition deref (p : option A) : outcome A := match p with Some x => Ret x | None => Crash end.

Definition hook_Clear h x : gmap A (ListHook A) := <[x := mkHook (Some x) (Some x)]> h.
Definition hook_NullptrClear h x : gmap A (ListHook A) := <[x := mkHook None None]> h.

Definition hook_empty h x : outcome bool := let* k := hook h x in Ret (bool_decide (prev_ k = Some x) || bool_decide (next_ k = Some x)).
Definition nullptr_empty h x : outcome bool := let* k := hook h x in Ret (bool_decide (prev_ k = None) && bool_decide (next_ k = None)).

Definition set_prev h x (p : option A) : outcome (gmap A (ListHook A)) := let* k := hook h x in Ret (<[x := mkHook p (next_ k)]> h).
Definition set_next h x (n : option A) : outcome (gmap A (ListHook A)) := let* k := hook h x in Ret (<[x := mkHook (prev_ k) n]> h).

Definition AppendTo h x prev : outcome (gmap A (ListHook A)) := let* h := set_next h prev (Some x) in set_prev h x (Some prev).

Definition InsertAfter h x prev : outcome (gmap A (ListHook A)) :=
  let* k := hook h prev in
  let next := next_ k in
  let* h := AppendTo h x prev in
  let* next := deref next in
  AppendTo h next x.

Definition hook_Erase h x : outcome (gmap A (ListHook A)) :=
  let* k := hook h x in
  let* next := deref (next_ k) in
  let* prev := deref (prev_ k) in
  let* h := AppendTo h next prev in
  Ret (hook_Clear h x).

(** ** What the hooks show *)

Definition nxt h x : option A := h !! x ≫= next_.
Definition prv h x : option A := h !! x ≫= prev_.
Definition link h a b : Prop := nxt h a = Some b ∧ prv h b = Some a.

Lemma link_stored h a b : link h a b → is_Some (h !! a) ∧ is_Some (h !! b).
Proof. unfold link, nxt, prv. intros [H1 H2]. split; [destruct (h !! a)|destruct (h !! b)]; try done; by eexists. Qed.

Lemma hook_views h x p n : nxt h x = Some n → prv h x = Some p → hook h x = Ret (mkHook (Some p) (Some n)).
Proof. unfold nxt, prv, hook. destruct (h !! x) as [[]|]; [|done]. cbn. by intros -> ->. Qed.

Lemma nxt_insert h x k y : nxt (<[x := k]> h) y = if decide (y = x) then next_ k else nxt h y.
Proof. unfold nxt. destruct (decide (y = x)) as [->|]; [by rewrite lookup_insert_eq|by rewrite lookup_insert_ne]. Qed.
Lemma prv_insert h x k y : prv (<[x := k]> h) y = if decide (y = x) then prev_ k else prv h y.
Proof. unfold prv. destruct (decide (y = x)) as [->|]; [by rewrite lookup_insert_eq|by rewrite lookup_insert_ne]. Qed.

(** [h'] is [h] with the pointers [N] and [P]. *)
Record shows h' h (N P : A → option A) : Prop := mkShows {
  s_nxt : ∀ y, nxt h' y = N y;
  s_prv : ∀ y, prv h' y = P y;
  s_dom : ∀ y, is_Some (h' !! y) ↔ is_Some (h !! y)
}.

Lemma stored_set h x k y : is_Some (h !! x) → is_Some (<[x := k]> h !! y) ↔ is_Some (h !! y).
Proof. intros Hx. destruct (decide (x = y)) as [->|]; [rewrite lookup_insert_eq|by rewrite lookup_insert_ne]. split; [done|by eexists]. Qed.

Lemma AppendTo_shows h x prev : is_Some (h !! x) → is_Some (h !! prev) →
  ∃ h', AppendTo h x prev = Ret h' ∧
    shows h' h (λ y, if decide (y = prev) then Some x else nxt h y) (λ y, if decide (y = x) then Some prev else prv h y).
Proof.
  intros [kx Ex] [kp Ep]. unfold AppendTo, set_next, set_prev, hook. rewrite Ep. cbn [obind]. set (h1 := <[prev := _]> h).
  assert (H1 : is_Some (h1 !! x)) by (apply stored_set; by eexists). destruct (h1 !! x) as [k1|] eqn:E1; [|by destruct H1].
  cbn [obind]. eexists. split; [done|].
  assert (En : next_ k1 = nxt h1 x ∧ prev_ k1 = prv h1 x) by (unfold nxt, prv; by rewrite E1). destruct En as [En _]. split; intros y.
  - rewrite nxt_insert. cbn. rewrite En. unfold h1. rewrite !nxt_insert. cbn. destruct (decide (y = x)) as [->|]; done.
  - rewrite prv_insert. cbn. unfold h1. rewrite prv_insert. cbn. destruct (decide (y = x)); [done|]. destruct (decide (y = prev)) as [->|]; [|done].
    unfold prv. by rewrite Ep.
  - rewrite stored_set by (rewrite E1; by eexists). apply stored_set. by eexists.
Qed.

Lemma Clear_shows h x : is_Some (h !! x) →
  shows (hook_Clear h x) h (λ y, if decide (y = x) then Some x else nxt h y) (λ y, if decide (y = x) then Some x else prv h y).
Proof. intros Hx. unfold hook_Clear. split; intros y; [by rewrite nxt_insert|by rewrite prv_insert|by apply stored_set]. Qed.

(** ** Chains of links *)

Fixpoint ll h (xs : list A) : Prop :=
  match xs with
  | a :: (b :: _) as tl => link h a b ∧ ll h tl
  | _ => True
  end.

Lemma ll_mid h (u v : list A) a : ll h (u ++ a :: v) ↔ ll h (u ++ [a]) ∧ ll h (a :: v).
Proof.
  induction u as [|x u IH]; [cbn; tauto|]. destruct u as [|y u]; [cbn; tauto|]. cbn [app ll] in *. rewrite IH. tauto.
Qed.

Lemma ll_pair h (u v : list A) a b : ll h (u ++ a :: b :: v) → link h a b.
Proof. rewrite ll_mid. intros [_ [Hl _]]. done. Qed.

Lemma ll_frame h h' (xs : list A) : (∀ y, y ∈ removelast xs → nxt h' y = nxt h y) → (∀ y, y ∈ tail xs → prv h' y = prv h y) → ll h xs → ll h' xs.
Proof.
  induction xs as [|a xs IH]; [done|]. destruct xs as [|b xs]; [done|]. intros Hn Hp [[H1 H2] Hl]. split.
  - split; [rewrite Hn by left; done|rewrite Hp by left; done].
  - apply IH; [|intros y Hy; apply Hp; by right|done]. intros y Hy. apply Hn. cbn [removelast]. by right.
Qed.

(** ** Rings *)

Definition ring h c (l : list A) : Prop := NoDup (c :: l) ∧ ll h (c :: l ++ [c]).

(** The neighbours [p] and [q] of the place between [l1] and [l2]. *)
Record gap c (l1 l2 u : list A) p q (v : list A) : Prop := mkGap {
  gp_left : c :: l1 = u ++ [p];
  gp_right : l2 ++ [c] = q :: v
}.

Lemma gap_exists c (l1 l2 : list A) : ∃ u p q v, gap c l1 l2 u p q v.
Proof.
  destruct (exists_last (l := c :: l1)) as (u & p & E); [done|]. destruct (l2 ++ [c]) as [|q v] eqn:E2; [by destruct l2|].
  exists u, p, q, v. by split.
Qed.

Lemma gap_list c (l1 m l2 u : list A) p q (v : list A) : gap c l1 l2 u p q v → c :: (l1 ++ m ++ l2) ++ [c] = u ++ p :: m ++ q :: v.
Proof. intros [E1 E2]. rewrite <- !app_assoc, E2, app_comm_cons, E1, <- app_assoc. done. Qed.

Lemma gap_left_in c (l1 l2 u : list A) p q (v : list A) : gap c l1 l2 u p q v → (p = c ∨ p ∈ l1) ∧ ∀ y, y ∈ u → y = c ∨ y ∈ l1.
Proof.
  intros [E1 _]. assert (Hin : ∀ y, y ∈ u ++ [p] → y = c ∨ y ∈ l1) by (intros y; rewrite <- E1; apply elem_of_cons).
  split; [apply Hin, elem_of_app; right; left|]. intros y Hy. apply Hin, elem_of_app. by left.
Qed.
Lemma gap_right_in c (l1 l2 u : list A) p q (v : list A) : gap c l1 l2 u p q v → (q = c ∨ q ∈ l2) ∧ ∀ y, y ∈ v → y = c ∨ y ∈ l2.
Proof.
  intros [_ E2]. assert (Hin : ∀ y, y ∈ q :: v → y = c ∨ y ∈ l2).
  { intros y. rewrite <- E2. intros [|Hy]%elem_of_app; [by right|left; by apply list_elem_of_singleton in Hy]. }
  split; [apply Hin; left|]. intros y Hy. apply Hin. by right.
Qed.

Lemma gap_distinct c (l1 l2 u : list A) p q (v : list A) : gap c l1 l2 u p q v → NoDup (c :: l1 ++ l2) → p ∉ u ∧ p ∉ l2 ∧ q ∉ l1 ∧ q ∉ v.
Proof.
  intros HG HN. pose proof (gap_left_in _ _ _ _ _ _ _ HG) as [Hp _]. pose proof (gap_right_in _ _ _ _ _ _ _ HG) as [Hq _]. destruct HG as [E1 E2].
  apply NoDup_cons in HN as [Hc HN]. apply NoDup_app in HN as (HN1 & Hd & HN2). rewrite elem_of_app in Hc.
  assert (Hu : NoDup (u ++ [p])) by (rewrite <- E1; apply NoDup_cons; tauto).
  assert (Hv : NoDup (q :: v)).
  { rewrite <- E2. apply NoDup_app. split_and!; [done| |apply NoDup_singleton]. intros x Hx ->%list_elem_of_singleton. tauto. }
  split_and!.
  - apply NoDup_app in Hu as (_ & Hu & _). intros Hpu. apply (Hu p Hpu). left.
  - intros Hpl. destruct Hp as [->|Hp]; [tauto|]. by apply (Hd p).
  - intros Hql. destruct Hq as [->|Hq]; [tauto|]. by apply (Hd q).
  - by apply NoDup_cons in Hv as [? _].
Qed.

(** Replacing the part [m] of a ring by [m'] takes new links around [m'] only. *)
Lemma ring_relink h h' c (l1 m m' l2 u : list A) p q (v : list A) : ring h c (l1 ++ m ++ l2) → gap c l1 l2 u p q v → NoDup (c :: l1 ++ m' ++ l2) →
  ll h' (p :: m' ++ [q]) → (∀ y, y = c ∨ y ∈ l1 ∨ y ∈ l2 → y ≠ p → nxt h' y = nxt h y) →
  (∀ y, y = c ∨ y ∈ l1 ∨ y ∈ l2 → y ≠ q → prv h' y = prv h y) → ring h' c (l1 ++ m' ++ l2).
Proof.
  intros [HN HL] HG HN' Hm Hn Hp. split; [done|]. rewrite (gap_list c l1 m l2 _ _ _ _ HG) in HL. rewrite (gap_list c l1 m' l2 _ _ _ _ HG).
  assert (HN0 : NoDup (c :: l1 ++ l2)).
  { eapply (sublist_NoDup _ (c :: l1 ++ m ++ l2)); [done|]. apply sublist_skip, sublist_app; [done|]. by apply sublist_inserts_l. }
  pose proof (gap_distinct _ _ _ _ _ _ _ HG HN0) as (D1 & D2 & D3 & D4).
  pose proof (gap_left_in _ _ _ _ _ _ _ HG) as [I1 I2]. pose proof (gap_right_in _ _ _ _ _ _ _ HG) as [I3 I4].
  apply ll_mid in HL as [HL1 HL2]. rewrite app_comm_cons, ll_mid in HL2. destruct HL2 as [_ HL2]. destruct HG as [E1 E2].
  apply ll_mid. split; [|rewrite app_comm_cons; apply ll_mid; split; [by rewrite <- app_comm_cons|]].
  - eapply ll_frame; [| |done].
    + rewrite removelast_last. intros y Hy. apply Hn; [naive_solver|]. by intros ->.
    + rewrite <- E1. cbn [tail]. intros y Hy. apply Hp; [tauto|]. by intros ->.
  - eapply ll_frame; [| |done].
    + rewrite <- E2, removelast_last. intros y Hy. apply Hn; [tauto|]. by intros ->.
    + cbn [tail]. intros y Hy. apply Hp; [naive_solver|]. by intros ->.
Qed.

Lemma ring_frame h h' c (l : list A) : (∀ y, y = c ∨ y ∈ l → nxt h' y = nxt h y ∧ prv h' y = prv h y) → ring h c l → ring h' c l.
Proof.
  intros Hf [HN HL]. split; [done|]. eapply ll_frame; [| |done].
  - rewrite app_comm_cons, removelast_last. intros y Hy%elem_of_cons. by apply Hf.
  - cbn [tail]. intros y [Hy|Hy]%elem_of_app; apply Hf; [by right|left; by apply list_elem_of_singleton in Hy].
Qed.

Lemma ring_gap h c (l1 l2 u : list A) p q (v : list A) : ring h c (l1 ++ l2) → gap c l1 l2 u p q v → link h p q.
Proof. intros [_ HL] HG. change l2 with ([] ++ l2) in HL. rewrite (gap_list _ _ [] _ _ _ _ _ HG) in HL. by eapply ll_pair. Qed.

Lemma ring_stored h c (l : list A) y : ring h c l → y = c ∨ y ∈ l → is_Some (h !! y).
Proof.
  intros HR Hy. assert (Hc : ∃ l1 l2 u p v, l = l1 ++ l2 ∧ gap c l1 l2 u p y v).
  { destruct Hy as [->|Hy].
    - destruct (gap_exists c l []) as (u & p & q & v & HG). pose proof (gp_right _ _ _ _ _ _ _ HG) as E. injection E as <- _.
      exists l, [], u, p, v. by rewrite app_nil_r.
    - apply list_elem_of_split in Hy as (l1 & l2 & ->). destruct (gap_exists c l1 (y :: l2)) as (u & p & q & v & HG).
      pose proof (gp_right _ _ _ _ _ _ _ HG) as E. injection E as <- _. by exists l1, (y :: l2), u, p, v. }
  destruct Hc as (l1 & l2 & u & p & v & -> & HG). eapply link_stored. by eapply ring_gap.
Qed.

(** An element of a ring points to other hooks, a container of elements too. *)
Lemma ring_not_empty h c (l : list A) x : ring h c l → x ∈ l → nxt h x ≠ Some x ∧ prv h x ≠ Some x.
Proof.
  intros HR Hx. apply list_elem_of_split in Hx as (l1 & l2 & ->). pose proof HR as [HN _].
  apply NoDup_cons in HN as [Hc HN]. apply NoDup_app in HN as (_ & Hd & HN). apply NoDup_cons in HN as [Hx2 _].
  rewrite elem_of_app, elem_of_cons in Hc. split.
  - destruct (gap_exists c (l1 ++ [x]) l2) as (u & p & q & v & HG). assert (HR' : ring h c ((l1 ++ [x]) ++ l2)) by (by rewrite <- app_assoc).
    destruct (ring_gap _ _ _ _ _ _ _ _ HR' HG) as [En _]. pose proof (gp_left _ _ _ _ _ _ _ HG) as E. rewrite app_comm_cons in E. apply app_inj_tail in E as [_ <-].
    rewrite En. pose proof (gap_right_in _ _ _ _ _ _ _ HG) as [Hq _]. intros [= ->]. naive_solver.
  - destruct (gap_exists c l1 (x :: l2)) as (u & p & q & v & HG). destruct (ring_gap _ _ _ _ _ _ _ _ HR HG) as [_ En].
    pose proof (gp_right _ _ _ _ _ _ _ HG) as E. injection E as <- _. rewrite En. pose proof (gap_left_in _ _ _ _ _ _ _ HG) as [Hp _]. intros [= ->].
    destruct Hp as [->|Hp]; [naive_solver|]. apply (Hd _ Hp). left.
Qed.
(** ** The operations on rings *)

(** [h'] differs from [h] on the hooks of [X] only, and has hooks at the same addresses. *)
Record elsewhere h h' (X : A → Prop) : Prop := mkElsewhere {
  e_same : ∀ y, ¬ X y → nxt h' y = nxt h y ∧ prv h' y = prv h y;
  e_stored : ∀ y, is_Some (h' !! y) ↔ is_Some (h !! y)
}.

Lemma elsewhere_trans h1 h2 h3 (X Y Z : A → Prop) : elsewhere h1 h2 X → elsewhere h2 h3 Y → (∀ y, X y ∨ Y y → Z y) → elsewhere h1 h3 Z.
Proof.
  intros [E1 S1] [E2 S2] HZ. split; [|intros y; by rewrite S2, S1]. intros y Hy.
  destruct (E2 y) as [-> ->]; [naive_solver|]. apply E1. naive_solver.
Qed.

Lemma insert_between h c (l1 l2 u : list A) p q (v : list A) x : ring h c (l1 ++ l2) → gap c l1 l2 u p q v → x ∉ c :: l1 ++ l2 → is_Some (h !! x) →
  ∃ h1 h', AppendTo h x p = Ret h1 ∧ AppendTo h1 q x = Ret h' ∧ ring h' c (l1 ++ x :: l2) ∧ elsewhere h h' (λ y, y ∈ x :: c :: l1 ++ l2).
Proof.
  intros HR HG Hx Hs. pose proof (gap_left_in _ _ _ _ _ _ _ HG) as [Hp _]. pose proof (gap_right_in _ _ _ _ _ _ _ HG) as [Hq _].
  assert (Hpl : p ∈ c :: l1 ++ l2) by (rewrite elem_of_cons, elem_of_app; tauto). assert (Hql : q ∈ c :: l1 ++ l2) by (rewrite elem_of_cons, elem_of_app; tauto).
  assert (Hpx : p ≠ x) by congruence. assert (Hqx : q ≠ x) by congruence.
  assert (Hps : is_Some (h !! p)) by (eapply ring_stored; [done|]; by apply elem_of_cons). assert (Hqs : is_Some (h !! q)) by (eapply ring_stored; [done|]; by apply elem_of_cons).
  destruct (AppendTo_shows h x p Hs Hps) as (h1 & E1 & [N1 P1 D1]).
  destruct (AppendTo_shows h1 q x) as (h2 & E2 & [N2 P2 D2]); [by apply D1|by apply D1|].
  exists h1, h2. split_and!; [done|done| |split; [|intros y; by rewrite D2, D1]].
  - change (x :: l2) with ([x] ++ l2). apply (ring_relink h h2 c l1 [] [x] l2 u p q v HR HG).
    + destruct HR as [HN _]. rewrite app_comm_cons. cbn [app]. rewrite app_comm_cons, <- Permutation_middle. by constructor.
    + cbn. unfold link. rewrite !N2, !P2, !N1, !P1.
      by repeat first [rewrite decide_True by done | rewrite decide_False by congruence].
    + intros y Hy Hyp. assert (y ≠ x) by (intros ->; apply Hx; rewrite elem_of_cons, elem_of_app; tauto). rewrite N2, N1. by rewrite !decide_False.
    + intros y Hy Hyq. assert (y ≠ x) by (intros ->; apply Hx; rewrite elem_of_cons, elem_of_app; tauto). rewrite P2, P1. by rewrite !decide_False.
  - intros y Hy. assert (Hyx : y ≠ x ∧ y ≠ p ∧ y ≠ q) by (split_and!; intros ->; apply Hy; [left|by right|by right]).
    rewrite N2, P2, N1, P1. rewrite !decide_False by tauto. done.
Qed.

Lemma unlink h c (l1 l2 : list A) x : ring h c (l1 ++ x :: l2) →
  ∃ p q h', nxt h x = Some q ∧ prv h x = Some p ∧ AppendTo h q p = Ret h' ∧ ring h' c (l1 ++ l2) ∧ elsewhere h h' (λ y, y ∈ c :: l1 ++ l2).
Proof.
  intros HR. destruct (gap_exists c l1 l2) as (u & p & q & v & HG). exists p, q.
  pose proof (gap_left_in _ _ _ _ _ _ _ HG) as [Hp _]. pose proof (gap_right_in _ _ _ _ _ _ _ HG) as [Hq _].
  assert (Hlinks : link h p x ∧ link h x q).
  { destruct HR as [_ HL]. change (x :: l2) with ([x] ++ l2) in HL. rewrite (gap_list c l1 [x] l2 _ _ _ _ HG) in HL. cbn [app] in HL. split; [by eapply ll_pair|].
    change (u ++ p :: x :: q :: v) with (u ++ [p] ++ x :: q :: v) in HL. rewrite app_assoc in HL. by eapply ll_pair. }
  destruct Hlinks as [[Hpx Hxp] [Hxq Hqx]].
  assert (Hps : is_Some (h !! p)) by (by apply (link_stored h p x)). assert (Hqs : is_Some (h !! q)) by (by apply (link_stored h x q)).
  destruct (AppendTo_shows h q p Hqs Hps) as (h' & E & [N1 P1 D1]). exists h'. split_and!; [done|done|done| |split; [|done]].
  - apply (ring_relink h h' c l1 [x] [] l2 u p q v HR HG).
    + destruct HR as [HN _]. eapply (sublist_NoDup _ (c :: l1 ++ x :: l2)); [done|]. apply sublist_skip, sublist_app; [done|]. by apply sublist_cons.
    + cbn. unfold link. rewrite N1, P1, !decide_True by done. done.
    + intros y _ Hy. by rewrite N1, decide_False.
    + intros y _ Hy. by rewrite P1, decide_False.
  - intros y Hy. assert (Hyp : y ≠ p ∧ y ≠ q) by (split; intros ->; apply Hy; rewrite elem_of_cons, elem_of_app; tauto).
    rewrite N1, P1, !decide_False by tauto. done.
Qed.

(** The elements of [k] follow those of [l]; the hook of their container is left over. *)
Lemma splice h c d (l k : list A) : ring h c l → ring h d k → l ≠ [] → (∀ x, x ∈ c :: l → x ∉ d :: k) →
  ∃ f e p h1 h', nxt h c = Some f ∧ prv h c = Some e ∧ prv h d = Some p ∧ AppendTo h f p = Ret h1 ∧ AppendTo h1 d e = Ret h' ∧
    ring h' d (k ++ l) ∧ elsewhere h h' (λ y, y ∈ l ++ d :: k).
Proof.
  intros HR HRd Hl Hdis. destruct l as [|f l']; [done|]. set (l := f :: l') in *. destruct (exists_last (l := l)) as (l0 & e & El); [done|]. exists f, e.
  destruct (gap_exists d k []) as (u & p & q & v & HG). pose proof (gp_right _ _ _ _ _ _ _ HG) as Eq. injection Eq as <- <-. exists p.
  pose proof (gap_left_in _ _ _ _ _ _ _ HG) as [Hp _].
  assert (HRd' : ring h d (k ++ [] ++ [])) by (by rewrite app_nil_r). destruct (ring_gap h d k [] u p d [] ltac:(by rewrite app_nil_r) HG) as [Hnp Hpd].
  assert (Hcf : nxt h c = Some f) by (destruct HR as [_ [[? _] _]]; done).
  assert (HLl : ll h (l0 ++ [e])).
  { destruct HR as [_ HL]. rewrite El in HL. assert (HL' : ll h ((c :: l0) ++ e :: [c])) by (cbn [app]; by rewrite <- app_assoc in HL).
    apply ll_mid in HL' as [HL' _]. rewrite <- app_comm_cons in HL'. destruct (l0 ++ [e]); [done|]. apply HL'. }
  assert (Hec : prv h c = Some e).
  { destruct HR as [_ HL]. rewrite El in HL. assert (Hl2 : link h e c); [|apply Hl2]. apply (ll_pair h (c :: l0) []). cbn. by rewrite <- app_assoc in HL. }
  assert (Hf : f ∈ l) by left. assert (He : e ∈ l) by (rewrite El; apply elem_of_app; right; left).
  assert (Hst : ∀ y, y ∈ c :: l → is_Some (h !! y)) by (intros y Hy; eapply ring_stored; [exact HR|]; by apply elem_of_cons).
  assert (Hstd : ∀ y, y = d ∨ y ∈ k → is_Some (h !! y)) by (intros y; by apply ring_stored).
  assert (Hx : ∀ y, y ∈ l → y ≠ d ∧ y ≠ p ∧ y ∉ k).
  { intros y Hy. specialize (Hdis y ltac:(by right)). rewrite elem_of_cons in Hdis. split_and!; [tauto|intros ->; tauto|tauto]. }
  destruct (AppendTo_shows h f p) as (h1 & E1 & [N1 P1 D1]); [apply Hst; by right|by apply Hstd|].
  destruct (AppendTo_shows h1 d e) as (h2 & E2 & [N2 P2 D2]); [apply D1, Hstd; by left|apply D1, Hst; by right|].
  exists h1, h2. split_and!; [done|done|done|done|done| |split; [|intros y; by rewrite D2, D1]].
  - rewrite <- (app_nil_r l). apply (ring_relink h h2 d k [] l [] u p d [] HRd' HG).
    + rewrite app_nil_r. destruct HR as [HN _]. destruct HRd as [HNd _]. rewrite app_comm_cons. apply NoDup_cons in HN as [_ HN]. apply NoDup_app.
      split_and!; [done| |done]. intros y Hy Hyl. by apply (Hdis y); [right|].
    + rewrite app_comm_cons. change ([d]) with ([] ++ [d]). unfold l at 1. change (p :: f :: l') with ([p] ++ f :: l'). rewrite <- app_assoc. cbn [app]. split.
      * split; [rewrite N2, N1, decide_False by (by apply not_eq_sym, Hx); by rewrite decide_True|].
        rewrite P2, P1, decide_False by (by apply Hx). by rewrite decide_True.
      * change (f :: l' ++ [d]) with (l ++ [d]). rewrite El, <- app_assoc. cbn [app]. apply ll_mid. destruct HR as [HN HL]. split.
        -- apply (ll_frame h h2); [| |exact HLl].
           ++ rewrite removelast_last. intros y Hy. assert (Hyl : y ∈ l) by (rewrite El; apply elem_of_app; by left).
              assert (Hye : y ≠ e). { intros ->. apply NoDup_cons in HN as [_ HN]. rewrite El in HN. apply NoDup_app in HN as (_ & HN & _). apply (HN e Hy). left. }
              rewrite N2, N1, !decide_False by (done || by apply Hx). done.
           ++ rewrite <- El. cbn [tail l]. intros y Hy. assert (Hyl : y ∈ l) by (by right).
              assert (Hyf : y ≠ f) by (intros ->; apply NoDup_cons in HN as [_ HN]; by apply NoDup_cons in HN as [? _]).
              rewrite P2, P1, !decide_False by (done || by apply Hx). done.
        -- split; [|done]. split; [rewrite N2; by rewrite decide_True|rewrite P2; by rewrite decide_True].
    + intros y Hy Hyp. assert (y ≠ e) by (intros ->; destruct (Hx e He) as (?&?&?); naive_solver set_solver). rewrite N2, N1, !decide_False by done. done.
    + intros y Hy Hyd. assert (y ≠ f) by (intros ->; destruct (Hx f Hf) as (?&?&?); naive_solver set_solver). rewrite P2, P1, !decide_False by done. done.
  - intros y Hy. assert (Hye : y ≠ e ∧ y ≠ f ∧ y ≠ d ∧ y ≠ p) by (rewrite elem_of_app, elem_of_cons in Hy; split_and!; intros ->; tauto).
    rewrite N2, N1, P2, P1, !decide_False by tauto. done.
Qed.
(** ** A hook that is overwritten *)

Lemma heap_ext h h' : (∀ y, nxt h y = nxt h' y) → (∀ y, prv h y = prv h' y) → (∀ y, is_Some (h !! y) ↔ is_Some (h' !! y)) → h = h'.
Proof.
  intros Hn Hp Hs. apply map_eq. intros y. specialize (Hn y). specialize (Hp y). specialize (Hs y). unfold nxt, prv in *.
  destruct (h !! y) as [[p1 n1]|], (h' !! y) as [[p2 n2]|]; cbn in *; try done; [by subst|..]; exfalso.
  - destruct (proj1 Hs) as [? ?]; [by eexists|done].
  - destruct (proj2 Hs) as [? ?]; [by eexists|done].
Qed.

Lemma AppendTo_inv h h' x prev : AppendTo h x prev = Ret h' → is_Some (h !! x) ∧ is_Some (h !! prev) ∧
  shows h' h (λ y, if decide (y = prev) then Some x else nxt h y) (λ y, if decide (y = x) then Some prev else prv h y).
Proof.
  intros E. assert (Hs : is_Some (h !! x) ∧ is_Some (h !! prev)).
  { unfold AppendTo, set_next, set_prev, hook in E. destruct (h !! prev) as [k|] eqn:Ep; [|done]. cbn [obind] in E.
    assert (Hp : is_Some (h !! prev)) by (by eexists). split; [|done]. rewrite <- (stored_set h prev (mkHook (prev_ k) (Some x)) x Hp).
    destruct (<[prev := mkHook (prev_ k) (Some x)]> h !! x); [by eexists|done]. }
  destruct Hs as [Hx Hp]. split_and!; [done|done|]. destruct (AppendTo_shows h x prev Hx Hp) as (h2 & E2 & HS). rewrite E in E2. by injection E2 as ->.
Qed.

(** Whether a hook was cleared before it is linked makes no difference. *)
Lemma AppendTo_clear h h2 h3 x p q : p ≠ x → q ≠ x → is_Some (h !! x) → AppendTo (hook_Clear h x) x p = Ret h2 → AppendTo h2 q x = Ret h3 →
  ∃ h2', AppendTo h x p = Ret h2' ∧ AppendTo h2' q x = Ret h3.
Proof.
  intros Hp Hq Hx E2 E3. pose proof (Clear_shows h x Hx) as [N0 P0 D0]. apply AppendTo_inv in E2 as (_ & Hps & [N2 P2 D2]). apply AppendTo_inv in E3 as (Hqs & _ & [N3 P3 D3]).
  destruct (AppendTo_shows h x p Hx) as (h2' & E2' & [N2' P2' D2']); [by apply D0|]. exists h2'. split; [done|].
  destruct (AppendTo_shows h2' q x) as (h3' & E3' & [N3' P3' D3']); [by apply D2', D0, D2|by apply D2'|]. rewrite E3'. f_equal. apply heap_ext; intros y.
  - rewrite N3', N3, N2', N2, N0. by repeat destruct (decide _).
  - rewrite P3', P3, P2', P2, P0. by repeat destruct (decide _).
  - by rewrite D3', D3, D2', D2, D0.
Qed.
(** ** The hooks at a place of a ring *)

Lemma gap_at c (l1 l2 u : list A) p q (v : list A) : gap c l1 l2 u p q v → p = default c (last l1) ∧ q = default c (head l2).
Proof.
  intros [E1 E2]. split.
  - destruct l1 as [|x l1 _] using rev_ind; [destruct u as [|? [|]]; [by injection E1 as <-|done..]|]. rewrite app_comm_cons in E1. apply app_inj_tail in E1 as [_ <-].
    by rewrite last_snoc.
  - destruct l2 as [|x l2]; by injection E2 as <- _.
Qed.

Lemma ring_link h c (l1 l2 : list A) : ring h c (l1 ++ l2) → link h (default c (last l1)) (default c (head l2)).
Proof.
  intros HR. destruct (gap_exists c l1 l2) as (u & p & q & v & HG). destruct (gap_at _ _ _ _ _ _ _ HG) as [<- <-]. by eapply ring_gap.
Qed.

Lemma InsertAfter_ring h c (l1 l2 : list A) x : ring h c (l1 ++ l2) → x ∉ c :: l1 ++ l2 → is_Some (h !! x) →
  ∃ h', InsertAfter h x (default c (last l1)) = Ret h' ∧ ring h' c (l1 ++ x :: l2) ∧ elsewhere h h' (λ y, y ∈ x :: c :: l1 ++ l2).
Proof.
  intros HR Hx Hs. destruct (gap_exists c l1 l2) as (u & p & q & v & HG). destruct (gap_at _ _ _ _ _ _ _ HG) as [<- _].
  destruct (insert_between _ _ _ _ _ _ _ _ x HR HG Hx Hs) as (h1 & h' & E1 & E2 & HR' & HE). exists h'. split; [|done].
  pose proof (ring_gap _ _ _ _ _ _ _ _ HR HG) as [Hn _]. unfold InsertAfter, hook, nxt in *. destruct (h !! p) as [k|]; [|done]. cbn in Hn. cbn [obind].
  rewrite E1, Hn. cbn [obind deref]. done.
Qed.
End Hooks.

(** Distinct addresses are bounded. *)
Lemma bounded_length (l : list Z) (n : Z) : NoDup l → (∀ x, x ∈ l → 0 ≤ x < n) → 0 ≤ n → Z.of_nat (length l) ≤ n.
Proof.
  intros Hl Hx Hn. assert (Hs : l ⊆+ seqZ 0 n) by (apply NoDup_submseteq; [done|]; intros x ?%Hx; apply elem_of_seqZ; lia).
  apply submseteq_length in Hs. rewrite length_seqZ in Hs. lia.
Qed.
