(* ===== verification/IntrusiveList.v ===== *)
(** * Intrusive lists and reference counts

    Models [ListHead] of [oneflow/core/intrusive/list_hook.h], [intrusive/list.h],
    [intrusive/mutexed_list.h], [intrusive/ref.h] and [intrusive/shared_ptr.h].

    The world is the memory that the lists of one hook field share: the hooks of objects
    and containers, the sizes of the containers and the reference counts of the objects.  An
    object is named by the address of its hook, so the conversions between the two are the
    identity.  A [shared_ptr] is an option; functions that move one return what is left. *)
From S2P Require Import Prelude ListHook.

Record world := mkWorld { hooks : gmap Z (ListHook Z); size_ : gmap Z Z; ref_cnt_ : gmap Z Z }.

Definition with_hooks (w : world) (h : gmap Z (ListHook Z)) : world := mkWorld h (size_ w) (ref_cnt_ w).
Definition with_size (w : world) (c n : Z) : world := mkWorld (hooks w) (<[c := n]> (size_ w)) (ref_cnt_ w).
Definition with_ref (w : world) (x n : Z) : world := mkWorld (hooks w) (size_ w) (<[x := n]> (ref_cnt_ w)).

(** ** [Ref] *)

Definition ref_cnt (w : world) (x : Z) : outcome Z := match ref_cnt_ w !! x with Some n => Ret n | None => Crash end.
Definition IncreaseRef (w : world) (x : Z) : outcome world := let* n := ref_cnt w x in Ret (with_ref w x (i32 (n + 1))).
(** Without a deleter, an object that loses its last reference is deleted. *)
Definition DecreaseRef (w : world) (p : option Z) : outcome world :=
  let* x := deref p in
  let* n := ref_cnt w x in
  if 0 <? i32 (n - 1) then Ret (with_ref w x (i32 (n - 1)))
  else Ret (mkWorld (delete x (hooks w)) (size_ w) (delete x (ref_cnt_ w))).
Definition NewAndInitRef (w : world) (x : Z) : outcome world := IncreaseRef (with_ref (with_hooks w (hook_Clear (hooks w) x)) x 0) x.

(** ** [shared_ptr] *)

Definition shared_Clear (w : world) (ptr_ : option Z) : outcome world := match ptr_ with None => Ret w | Some _ => DecreaseRef w ptr_ end.
Definition shared_Reset (w : world) (ptr_ ptr : option Z) : outcome (world * option Z) :=
  let* w := shared_Clear w ptr_ in
  match ptr with
  | None => Ret (w, None)
  | Some x => let* w := IncreaseRef w x in Ret (w, Some x)
  end.
(** The target and the source after a move. *)
Definition shared_move_assign (ptr_ rhs : option Z) : option Z * option Z := (rhs, None).
Definition shared_copy_assign (w : world) (ptr_ rhs : option Z) : outcome (world * option Z) := shared_Reset w ptr_ rhs.

(** ** [ListHead] *)

Definition head_size (w : world) (c : Z) : outcome Z := match size_ w !! c with Some n => Ret n | None => Crash end.
Definition head_Next (w : world) (x : Z) : outcome Z := let* k := hook (hooks w) x in deref (next_ k).
Definition head_Prev (w : world) (x : Z) : outcome Z := let* k := hook (hooks w) x in deref (prev_ k).

Definition head_empty (w : world) (c : Z) : outcome bool :=
  let* begin := head_Next w c in
  let* n := head_size w c in
  let* _ := CHECK (Bool.eqb (begin =? c) (n =? 0)) in
  Ret (n =? 0).

Definition add_size (w : world) (c d : Z) : outcome world := let* n := head_size w c in Ret (with_size w c (u64 (n + d))).

Definition head_InsertAfter (w : world) (c prev_elem new_elem : Z) : outcome world :=
  let* next := head_Next w prev_elem in
  let* e := hook_empty (hooks w) new_elem in
  let* _ := CHECK e in
  let* h := AppendTo (hooks w) new_elem prev_elem in
  let* h := AppendTo h next new_elem in
  add_size (with_hooks w h) c 1.

Definition head_Erase (w : world) (c elem : Z) : outcome world :=
  let* n := head_size w c in
  let* _ := CHECK (0 <? n) in
  let* _ := CHECK (negb (elem =? c)) in
  let* e := hook_empty (hooks w) elem in
  let* _ := CHECK (negb e) in
  let* h := hook_Erase (hooks w) elem in
  add_size (with_hooks w h) c (-1).

(** Take [elem] out of its ring and put it between [prev] and [next]; its own hook is only
    overwritten. *)
Definition relocate (h : gmap Z (ListHook Z)) (elem prev next : Z) : outcome (gmap Z (ListHook Z)) :=
  let* k := hook h elem in
  let* elem_next := deref (next_ k) in
  let* elem_prev := deref (prev_ k) in
  let* h := AppendTo h elem_next elem_prev in
  let* h := AppendTo h elem prev in
  AppendTo h next elem.

Definition head_MoveToDstBack (w : world) (c elem dst : Z) : outcome world :=
  let* e := hook_empty (hooks w) c in
  let* _ := CHECK (negb e) in
  let* dst_rbegin := head_Prev w dst in
  let* h := relocate (hooks w) elem dst_rbegin dst in
  let* w := add_size (with_hooks w h) c (-1) in
  add_size w dst 1.

Definition head_MoveToDstFront (w : world) (c elem dst : Z) : outcome world :=
  let* e := hook_empty (hooks w) c in
  let* _ := CHECK (negb e) in
  let* dst_begin := head_Next w dst in
  let* h := relocate (hooks w) elem dst dst_begin in
  let* w := add_size (with_hooks w h) c (-1) in
  add_size w dst 1.

Definition head_Clear (w : world) (c : Z) : world := with_size (with_hooks w (hook_Clear (hooks w) c)) c 0.

Definition head_MoveAllToDstBack (w : world) (c dst : Z) : outcome world :=
  let* e := hook_empty (hooks w) c in
  if e then Ret w else
  let* dst_last := head_Prev w dst in
  let* this_first := head_Next w c in
  let* this_last := head_Prev w c in
  let* h := AppendTo (hooks w) this_first dst_last in
  let* h := AppendTo h dst this_last in
  let* n := head_size w c in
  let* w := add_size (with_hooks w h) dst n in
  Ret (head_Clear w c).

Definition head_PushBack (w : world) (c elem : Z) : outcome world := let* last := head_Prev w c in head_InsertAfter w c last elem.
Definition head_PushFront (w : world) (c elem : Z) : outcome world := head_InsertAfter w c c elem.

Definition head_PopBack (w : world) (c : Z) : outcome (world * Z) :=
  let* e := head_empty w c in
  let* _ := CHECK (negb e) in
  let* last := head_Prev w c in
  let* w := head_Erase w c last in
  Ret (w, last).
Definition head_PopFront (w : world) (c : Z) : outcome (world * Z) :=
  let* e := head_empty w c in
  let* _ := CHECK (negb e) in
  let* first := head_Next w c in
  let* w := head_Erase w c first in
  Ret (w, first).

(** The count of [CheckSize]; the loop ends at the container. *)
Fixpoint count_hooks (fuel : nat) (w : world) (c iter hook_size : Z) : outcome Z :=
  if iter =? c then Ret hook_size else
  match fuel with
  | O => Crash
  | S fuel => let* next := head_Next w iter in count_hooks fuel w c next (u64 (hook_size + 1))
  end.
Definition head_CheckSize (fuel : nat) (w : world) (c : Z) : outcome unit :=
  let* first := head_Next w c in
  let* hook_size := count_hooks fuel w c first 0 in
  let* n := head_size w c in
  CHECK (n =? hook_size).

(** ** [List]: a list holds a reference to each of its elements *)

Definition list_Begin (w : world) (c : Z) : outcome (option Z) :=
  let* e := head_empty w c in
  if e then Ret None else let* x := head_Next w c in Ret (Some x).
Definition list_Last (w : world) (c : Z) : outcome (option Z) :=
  let* e := head_empty w c in
  if e then Ret None else let* x := head_Prev w c in Ret (Some x).
Definition list_Next (w : world) (c : Z) (ptr : option Z) : outcome (option Z) :=
  match ptr with
  | None => Ret None
  | Some x => let* next := head_Next w x in Ret (if next =? c then None else Some next)
  end.
Definition list_Prev (w : world) (c : Z) (ptr : option Z) : outcome (option Z) :=
  match ptr with
  | None => Ret None
  | Some x => let* prev := head_Prev w x in Ret (if prev =? c then None else Some prev)
  end.

Definition list_PushBack (w : world) (c x : Z) : outcome world := let* w := head_PushBack w c x in IncreaseRef w x.
Definition list_PushFront (w : world) (c x : Z) : outcome world := let* w := head_PushFront w c x in IncreaseRef w x.
Definition list_EmplaceBack (w : world) (c : Z) (ptr : option Z) : outcome world := let* x := deref ptr in head_PushBack w c x.
Definition list_EmplaceFront (w : world) (c : Z) (ptr : option Z) : outcome world := let* x := deref ptr in head_PushFront w c x.
Definition list_Erase (w : world) (c x : Z) : outcome (world * option Z) := let* w := head_Erase w c x in Ret (w, Some x).
Definition list_PopBack (w : world) (c : Z) : outcome (world * option Z) :=
  let* e := head_empty w c in
  if e then Ret (w, None) else let* (w, x) := head_PopBack w c in Ret (w, Some x).
Definition list_PopFront (w : world) (c : Z) : outcome (world * option Z) :=
  let* e := head_empty w c in
  if e then Ret (w, None) else let* (w, x) := head_PopFront w c in Ret (w, Some x).

Definition MoveFrontToDstBack (w : world) (c dst : Z) : outcome (world * Z) :=
  let* begin := head_Next w c in let* w := head_MoveToDstBack w c begin dst in Ret (w, begin).
Definition MoveBackToDstBack (w : world) (c dst : Z) : outcome (world * Z) :=
  let* begin := head_Prev w c in let* w := head_MoveToDstBack w c begin dst in Ret (w, begin).

Fixpoint list_Clear (fuel : nat) (w : world) (c : Z) : outcome world :=
  let* e := head_empty w c in
  if e then Ret w else
  match fuel with
  | O => Crash
  | S fuel =>
      let* (w, x) := head_PopFront w c in
      let* w := DecreaseRef w (Some x) in
      list_Clear fuel w c
  end.

(** ** [MutexedList]: the same under a lock *)

Definition mutexed_MoveFrom (w : world) (c src : Z) : outcome (world * bool) :=
  let* old_list_empty := head_empty w c in
  let* w := head_MoveAllToDstBack w src c in
  Ret (w, old_list_empty).
Definition mutexed_PushBack (w : world) (c x : Z) : outcome world := let* w := IncreaseRef w x in list_EmplaceBack w c (Some x).
Definition mutexed_PushFront (w : world) (c x : Z) : outcome world := let* w := IncreaseRef w x in list_EmplaceFront w c (Some x).

(** ** Examples *)

Module ListDemo.
(** Two containers 100 and 200 and the objects 1, 2, 3, each held once. *)
Definition w0 : world :=
  mkWorld (foldr (λ x h, hook_Clear h x) ∅ [100; 200; 1; 2; 3]) (<[100 := 0]> (<[200 := 0]> ∅)) (<[1 := 1]> (<[2 := 1]> (<[3 := 1]> ∅))).
End ListDemo.

Example list_demo :
  (let* w := list_PushBack ListDemo.w0 100 1 in
   let* w := list_PushBack w 100 2 in
   let* w := list_PushFront w 100 3 in
   let* w := head_MoveToDstBack w 100 1 200 in
   let* _ := head_CheckSize 5 w 100 in
   let* (w, a) := list_PopFront w 100 in
   let* (w, b) := list_PopFront w 200 in
   let* (w, c) := list_PopFront w 200 in
   let* n := head_size w 100 in
   Ret (a, b, c, n)) = Ret (Some 3, Some 1, None, 1) ∧
  (let* w := list_PushBack ListDemo.w0 100 1 in list_PushBack w 200 1) = Crash.
Proof. vm_compute. done. Qed.

(** A copy assignment of a pointer to itself drops the only reference first: the object is
    deleted and then used. *)
Example self_assignment_deletes : shared_copy_assign ListDemo.w0 (Some 1) (Some 1) = Crash.
Proof. reflexivity. Qed.

(** A move assignment over a pointer that holds an object forgets that object: its count
    stays at one and nobody holds it. *)
Example move_assignment_leaks :
  shared_move_assign (Some 1) (Some 2) = (Some 2, None) ∧ ref_cnt ListDemo.w0 1 = Ret 1.
Proof. done. Qed.

(** Moving the last element of a list to the back of the same list takes it out of the ring:
    walking forwards meets one element, although the size is two. *)
Example move_to_own_back_breaks_list :
  (let* w := list_PushBack ListDemo.w0 100 1 in
   let* w := list_PushBack w 100 2 in
   let* w := head_MoveToDstBack w 100 2 100 in
   let* n := head_size w 100 in
   Ret (n, head_CheckSize 9 w 100)) = Ret (2, Crash).
Proof. vm_compute. done. Qed.
