(* ===== verification/IntrusiveListSpec.v ===== *)
(** * Intrusive lists implement sequences

    The abstract state has the elements of every list and, for every object, the number of
    references that are held outside the lists.  Every operation on the hooks, the sizes
    and the counts has the effect of the operation on sequences; an object is deleted
    exactly when no list and no pointer has it. *)
From S2P Require Import Prelude ListHook IntrusiveList.

(** ** Several rings *)

Definition apart (L : gmap Z (list Z)) : Prop :=
  ∀ c d l k, L !! c = Some l → L !! d = Some k → c ≠ d → ∀ x, x ∈ c :: l → x ∉ d :: k.

Record rings (h : gmap Z (ListHook Z)) (L : gmap Z (list Z)) : Prop := mkRings {
  rg_ring : ∀ c l, L !! c = Some l → ring h c l;
  rg_apart : apart L
}.

Definition listed (L : gmap Z (list Z)) (x : Z) : Prop := ∃ c l, L !! c = Some l ∧ x ∈ l.

#[global] Instance listed_dec (L : gmap Z (list Z)) (x : Z) : Decision (listed L x).
Proof.
  destruct (decide (Exists (λ p : Z * list Z, x ∈ p.2) (map_to_list L))) as [H|H]; [left|right].
  - apply Exists_exists in H as ([c l] & Hp%elem_of_map_to_list & Hx). by exists c, l.
  - intros (c & l & E & Hx). apply H, Exists_exists. exists (c, l). by rewrite elem_of_map_to_list.
Defined.

Lemma apart_insert (L : gmap Z (list Z)) (c : Z) (l l' : list Z) : apart L → L !! c = Some l →
  (∀ y, y ∈ l' → y ∈ l ∨ ∀ d k, d ≠ c → L !! d = Some k → y ∉ d :: k) → apart (<[c := l']> L).
Proof.
  intros HA Hc Hl' e d k1 k2 He Hd Hne y Hy. destruct (decide (c = e)) as [<-|Hce].
  - rewrite lookup_insert_eq in He. injection He as <-. rewrite lookup_insert_ne in Hd by done. apply elem_of_cons in Hy as [->|Hy].
    + apply (HA c d l k2); [done..|left].
    + destruct (Hl' y Hy) as [Hyl|Hyn]; [apply (HA c d l k2); [done..|by right]|by apply Hyn].
  - rewrite lookup_insert_ne in He by done. destruct (decide (c = d)) as [<-|Hcd].
    + rewrite lookup_insert_eq in Hd. injection Hd as <-. intros [->|Hyl]%elem_of_cons; [by apply (HA e c k1 l He Hc Hne c Hy); left|].
      destruct (Hl' y Hyl) as [Hyl'|Hyn]; [by apply (HA e c k1 l He Hc Hne y Hy); right|by eapply Hyn].
    + rewrite lookup_insert_ne in Hd by done. by apply (HA e d k1 k2).
Qed.

(** One ring changes, the others are elsewhere. *)
Lemma rings_update (h h' : gmap Z (ListHook Z)) (L : gmap Z (list Z)) (c : Z) (l l' : list Z) (X : Z → Prop) : rings h L → L !! c = Some l → elsewhere h h' X →
  (∀ y, X y → y ∈ c :: l ∨ ∀ d k, d ≠ c → L !! d = Some k → y ∉ d :: k) → ring h' c l' → (∀ y, y ∈ l' → y ∈ l ∨ X y) → rings h' (<[c := l']> L).
Proof.
  intros [HR HA] Hc [He _] HX Hr Hl'.
  assert (HX' : ∀ y, X y → ∀ d k, d ≠ c → L !! d = Some k → y ∉ d :: k).
  { intros y Hy d k Hd Ed. destruct (HX y Hy) as [Hyl|Hyn]; [by eapply (HA c d l k)|by apply Hyn]. }
  split.
  - intros d k Hd. destruct (decide (c = d)) as [<-|Hcd]; [rewrite lookup_insert_eq in Hd; by injection Hd as <-|].
    rewrite lookup_insert_ne in Hd by done. eapply ring_frame; [|by apply HR]. intros y Hy. apply He. intros Hxy. apply (HX' y Hxy d k); [done|done|by apply elem_of_cons].
  - apply (apart_insert L c l); [done|done|]. intros y Hy. destruct (Hl' y Hy) as [|HXy]; [by left|right]. by apply HX'.
Qed.

Lemma listed_insert (L : gmap Z (list Z)) (c : Z) (l l' : list Z) (x : Z) : apart L → L !! c = Some l →
  listed (<[c := l']> L) x ↔ x ∈ l' ∨ (listed L x ∧ x ∉ l).
Proof.
  intros HA Hc. split.
  - intros (d & k & Hd & Hx). destruct (decide (c = d)) as [<-|Hcd]; [rewrite lookup_insert_eq in Hd; injection Hd as <-; by left|right].
    rewrite lookup_insert_ne in Hd by done. split; [by exists d, k|]. intros Hxl. apply (HA c d l k Hc Hd Hcd x); by right.
  - intros [Hx|[(d & k & Hd & Hx) Hn]]; [exists c, l'; by rewrite lookup_insert_eq|]. exists d, k. split; [|done]. rewrite lookup_insert_ne; [done|].
    intros <-. rewrite Hc in Hd. by injection Hd as ->.
Qed.

(** ** Hooks and sizes represent lists *)

(** [L] are the lists, [O] the objects. *)
Record shape (w : world) (L : gmap Z (list Z)) (O : Z → Prop) : Prop := mkShape {
  sh_rings : rings (hooks w) L;
  sh_size : ∀ c l, L !! c = Some l → size_ w !! c = Some (Z.of_nat (length l));
  sh_elems : ∀ x, listed L x → O x;
  sh_heads : ∀ c, is_Some (L !! c) → ¬ O c;
  sh_free : ∀ x, O x → ¬ listed L x → nxt (hooks w) x = Some x ∧ prv (hooks w) x = Some x;
  sh_addr : ∀ x, is_Some (hooks w !! x) → is_u64 x
}.

(** Memory is finite: a list has fewer than 2^64 elements. *)
Lemma list_length_small (w : world) (L : gmap Z (list Z)) (O : Z → Prop) (c : Z) (l : list Z) : shape w L O → L !! c = Some l → 0 ≤ Z.of_nat (length l) < 2 ^ 64.
Proof.
  intros HR Hc. pose proof (rg_ring _ _ (sh_rings _ _ _ HR) _ _ Hc) as Hr. pose proof Hr as [HN _].
  assert (Hb : Z.of_nat (length (c :: l)) ≤ 2 ^ 64); [|cbn [length] in Hb; lia]. apply bounded_length; [done| |done].
  intros x Hx. apply (sh_addr _ _ _ HR). eapply ring_stored; [done|]. by apply elem_of_cons.
Qed.

(** ** Reading a list *)

Section Reads.
Context (w : world) (L : gmap Z (list Z)) (O : Z → Prop) (c : Z) (l : list Z) (HR : shape w L O) (Hc : L !! c = Some l).

Lemma head_size_ok : head_size w c = Ret (Z.of_nat (length l)).
Proof. unfold head_size. by rewrite (sh_size _ _ _ HR _ _ Hc). Qed.

Lemma at_ring : ring (hooks w) c l.
Proof. by apply (rg_ring _ _ (sh_rings _ _ _ HR)). Qed.

Lemma head_Next_ok (l1 l2 u : list Z) (p q : Z) (v : list Z) : l = l1 ++ l2 → gap c l1 l2 u p q v → head_Next w p = Ret q ∧ head_Prev w q = Ret p.
Proof.
  intros El HG. pose proof at_ring as Hr. rewrite El in Hr. destruct (ring_gap _ _ _ _ _ _ _ _ Hr HG) as [Hn Hp]. unfold head_Next, head_Prev, nxt, prv in *.
  split; unfold hook; [destruct (hooks w !! p) as [k|]|destruct (hooks w !! q) as [k|]]; try done; cbn in *; [by rewrite Hn|by rewrite Hp].
Qed.

Lemma head_first (u v : list Z) (p q : Z) : gap c [] l u p q v → head_Next w c = Ret q.
Proof. intros HG. pose proof (gp_left _ _ _ _ _ _ _ HG) as E. destruct u as [|? [|]]; [injection E as <-|done..]. by apply (head_Next_ok [] l _ _ _ _ eq_refl HG). Qed.

Lemma head_last (u v : list Z) (p q : Z) : gap c l [] u p q v → head_Prev w c = Ret p.
Proof.
  intros HG. pose proof (gp_right _ _ _ _ _ _ _ HG) as E. injection E as <- <-. apply (head_Next_ok l [] _ _ _ _ (eq_sym (app_nil_r l)) HG).
Qed.

Lemma head_empty_ok : head_empty w c = Ret (bool_decide (l = [])).
Proof.
  destruct (gap_exists c [] l) as (u & p & q & v & HG). unfold head_empty. rewrite (head_first _ _ _ _ HG), head_size_ok. cbn [obind].
  pose proof (gp_right _ _ _ _ _ _ _ HG) as E. pose proof at_ring as [HN _]. destruct l as [|x l'].
  - injection E as <- _. by rewrite Z.eqb_refl.
  - injection E as <- _. assert (x ≠ c) by (intros ->; apply NoDup_cons in HN as [HN _]; apply HN; left).
    destruct (Z.eqb_spec x c) as [|_]; [done|]. destruct (Z.eqb_spec (Z.of_nat (length (x :: l'))) 0) as [E0|_]; [cbn in E0; lia|]. done.
Qed.

Lemma container_empty : hook_empty (hooks w) c = Ret (bool_decide (l = [])).
Proof.
  destruct (gap_exists c [] l) as (u & p & q & v & HG), (gap_exists c l []) as (u' & p' & q' & v' & HG').
  pose proof (head_first _ _ _ _ HG) as E1. pose proof (head_last _ _ _ _ HG') as E2. unfold head_Next, head_Prev, hook_empty in *.
  destruct (hook (hooks w) c) as [k| |]; [|done|done]. cbn [obind] in *. destruct (next_ k) as [n|], (prev_ k) as [m|]; try done. injection E1 as ->. injection E2 as ->.
  pose proof (gp_right _ _ _ _ _ _ _ HG) as E. pose proof (gp_left _ _ _ _ _ _ _ HG') as E'. pose proof at_ring as [HN _]. apply NoDup_cons in HN as [HN _]. f_equal.
  destruct l as [|x l'].
  - injection E as <- _. by rewrite (bool_decide_eq_true_2 (Some c = Some c)), orb_true_r.
  - injection E as <- _. assert (x ≠ c) by (intros ->; apply HN; left). rewrite (bool_decide_eq_false_2 (Some x = Some c)) by congruence.
    assert (p' ≠ c). { intros ->. destruct u' as [|y u']; [done|]. injection E' as _ E'. apply HN. rewrite E'. apply elem_of_app. right. left. }
    rewrite (bool_decide_eq_false_2 (Some p' = Some c)) by congruence. by rewrite bool_decide_eq_false_2.
Qed.
End Reads.

(** ** Writing *)

Lemma free_empty (h : gmap Z (ListHook Z)) (x : Z) : nxt h x = Some x → prv h x = Some x → hook_empty h x = Ret true.
Proof. intros Hn Hp. unfold hook_empty. rewrite (hook_views _ _ _ _ Hn Hp). cbn. by rewrite bool_decide_eq_true_2. Qed.

Lemma free_stored (h : gmap Z (ListHook Z)) (x y : Z) : nxt h x = Some y → is_Some (h !! x).
Proof. unfold nxt. destruct (h !! x); [by eexists|done]. Qed.

Lemma linked_not_empty (h : gmap Z (ListHook Z)) (c : Z) (l : list Z) (x : Z) : ring h c l → x ∈ l → hook_empty h x = Ret false.
Proof.
  intros HR Hx. destruct (ring_not_empty _ _ _ _ HR Hx) as [Hn Hp]. pose proof (ring_stored _ _ _ x HR (or_intror Hx)) as [k Ek].
  unfold hook_empty, hook, nxt, prv in *. rewrite Ek in *. cbn in *. by rewrite !bool_decide_eq_false_2.
Qed.

Lemma size_of (w : world) (L : gmap Z (list Z)) (O : Z → Prop) (c : Z) (l : list Z) (h : gmap Z (ListHook Z)) : shape w L O → L !! c = Some l →
  head_size (with_hooks w h) c = Ret (Z.of_nat (length l)).
Proof. intros HS Hc. unfold head_size. cbn. by rewrite (sh_size _ _ _ HS _ _ Hc). Qed.

(** A new ring for [c]: the other parts of the shape follow. *)
Lemma shape_update (w w' : world) (L : gmap Z (list Z)) (O : Z → Prop) (c : Z) (l l' : list Z) (X : Z → Prop) : shape w L O → L !! c = Some l → elsewhere (hooks w) (hooks w') X →
  (∀ y, X y → y ∈ c :: l ∨ (O y ∧ ¬ listed L y)) → ring (hooks w') c l' → (∀ y, y ∈ l' → y ∈ l ∨ X y) →
  (∀ y, y ∈ l ∨ X y → y ≠ c → y ∉ l' → nxt (hooks w') y = Some y ∧ prv (hooks w') y = Some y) →
  (∀ d, d ≠ c → is_Some (L !! d) → size_ w' !! d = size_ w !! d) → size_ w' !! c = Some (Z.of_nat (length l')) → shape w' (<[c := l']> L) O.
Proof.
  intros HS Hc HE HX Hr Hl' Hfree Hsz Hszc. pose proof HS as [S1 S2 S3 S4 S5 S6]. pose proof (rg_apart _ _ S1) as HA.
  assert (HXl : ∀ y, X y → y ∈ c :: l ∨ ∀ d k, d ≠ c → L !! d = Some k → y ∉ d :: k).
  { intros y Hy. destruct (HX y Hy) as [|[HO Hn]]; [by left|right]. intros d k _ Hd [->|Hyk]%elem_of_cons; [by apply (S4 d); [eexists|]|]. apply Hn. by exists d, k. }
  pose proof (rings_update _ _ _ _ _ _ _ S1 Hc HE HXl Hr Hl') as HR'.
  assert (HO : ∀ y, y ∈ l' → O y).
  { intros y Hy. destruct (Hl' y Hy) as [Hyl|HyX]; [apply S3; by exists c, l|]. destruct (HX y HyX) as [[->|Hyl]%elem_of_cons|[? _]]; [|apply S3; by exists c, l|done].
    destruct Hr as [HN _]. by apply NoDup_cons in HN as [? _]. }
  split; try done.
  - intros d k. destruct (decide (c = d)) as [<-|Hcd]; [rewrite lookup_insert_eq; by intros [= <-]|rewrite lookup_insert_ne by done]. intros Hd.
    rewrite Hsz by (done || by eexists). by apply S2.
  - intros x [Hx|[Hx _]]%(listed_insert L c l l' x HA Hc); [by apply HO|by apply S3].
  - intros d. destruct (decide (c = d)) as [<-|Hcd]; [intros _; apply S4; by eexists|rewrite lookup_insert_ne by done; apply S4].
  - intros x HOx Hx. rewrite (listed_insert L c l l' x HA Hc) in Hx. assert (x ≠ c) by (intros ->; by apply (S4 c); [eexists|]).
    destruct (decide (x ∈ l)) as [Hxl|Hxl]; [apply Hfree; tauto|]. assert (Hnl : ¬ listed L x) by tauto. destruct (S5 x HOx Hnl) as [Hn Hp].
    destruct (decide (x ∈ l')) as [|Hx']; [tauto|].
    destruct (bool_decide_reflect (nxt (hooks w') x = Some x ∧ prv (hooks w') x = Some x)) as [|Hbad]; [done|].
    destruct (e_same _ _ _ HE x) as [-> ->]; [|done]. intros HXx. apply Hbad. apply Hfree; tauto.
  - intros x Hx. apply S6. by apply (e_stored _ _ _ HE).
Qed.

Lemma apart_elem (L : gmap Z (list Z)) (c d : Z) (l k : list Z) (x : Z) : apart L → L !! c = Some l → L !! d = Some k → c ≠ d → x ∈ l → x ≠ d ∧ x ∉ k.
Proof. intros HA Hc Hd Hne Hx. pose proof (HA c d l k Hc Hd Hne x ltac:(by right)) as H. rewrite elem_of_cons in H. tauto. Qed.

Lemma insert_shape (w : world) (L : gmap Z (list Z)) (O : Z → Prop) (c x : Z) (l1 l2 u : list Z) (p q : Z) (v : list Z) : shape w L O → L !! c = Some (l1 ++ l2) →
  gap c l1 l2 u p q v → O x → ¬ listed L x →
  ∃ w', head_InsertAfter w c p x = Ret w' ∧ ref_cnt_ w' = ref_cnt_ w ∧ shape w' (<[c := l1 ++ x :: l2]> L) O.
Proof.
  intros HS Hc HG HOx Hx. pose proof (rg_ring _ _ (sh_rings _ _ _ HS) _ _ Hc) as HR. destruct (sh_free _ _ _ HS x HOx Hx) as [Hn Hp].
  assert (Hxc : x ∉ c :: l1 ++ l2) by (intros [->|Hxl]%elem_of_cons; [by apply (sh_heads _ _ _ HS c); [eexists|]|]; apply Hx; by exists c, (l1 ++ l2)).
  destruct (insert_between _ _ _ _ _ _ _ _ x HR HG Hxc (free_stored _ _ _ Hn)) as (h1 & h2 & E1 & E2 & HR' & HE).
  unfold head_InsertAfter. rewrite (proj1 (head_Next_ok w L O c _ HS Hc _ _ _ _ _ _ eq_refl HG)). cbn [obind]. rewrite (free_empty _ _ Hn Hp). cbn [CHECK obind].
  rewrite E1. cbn [obind]. rewrite E2. cbn [obind]. unfold add_size. rewrite (size_of _ _ _ _ _ _ HS Hc). cbn [obind].
  eexists. split; [done|]. split; [done|].
  assert (Hlen : Z.of_nat (length (l1 ++ x :: l2)) = Z.of_nat (length (l1 ++ l2)) + 1) by (rewrite !length_app; cbn [length]; lia).
  assert (Hsz : 0 ≤ Z.of_nat (length (l1 ++ x :: l2)) < 2 ^ 64).
  { pose proof HR' as [HN _]. assert (Hb : Z.of_nat (length (c :: l1 ++ x :: l2)) ≤ 2 ^ 64); [|cbn [length] in Hb; lia]. apply bounded_length; [done| |done].
    intros y Hy. apply (sh_addr _ _ _ HS), (e_stored _ _ _ HE). eapply ring_stored; [done|]. by apply elem_of_cons. }
  eapply (shape_update w _ L O c (l1 ++ l2)); [done|done|exact HE| |done| | | |].
  - intros y [->|Hy]%elem_of_cons; [by right|by left].
  - intros y. rewrite !elem_of_app, !elem_of_cons, elem_of_app. tauto.
  - intros y Hy Hyc Hyn. exfalso. apply Hyn. rewrite !elem_of_app, !elem_of_cons, elem_of_app in *. tauto.
  - intros d Hd _. cbn. by rewrite lookup_insert_ne.
  - cbn. rewrite lookup_insert_eq. f_equal. rewrite u64_small; [done|]. unfold is_u64, u64_modulus. lia.
Qed.

Lemma erase_shape (w : world) (L : gmap Z (list Z)) (O : Z → Prop) (c x : Z) (l1 l2 : list Z) : shape w L O → L !! c = Some (l1 ++ x :: l2) →
  ∃ w', head_Erase w c x = Ret w' ∧ ref_cnt_ w' = ref_cnt_ w ∧ shape w' (<[c := l1 ++ l2]> L) O.
Proof.
  intros HS Hc. pose proof (rg_ring _ _ (sh_rings _ _ _ HS) _ _ Hc) as HR. pose proof HR as [HN _].
  assert (Hx : x ∈ l1 ++ x :: l2) by (apply elem_of_app; right; left).
  assert (Hxc : x ≠ c) by (intros ->; by apply NoDup_cons in HN as [? _]).
  destruct (unlink _ _ _ _ _ HR) as (p & q & h & Hn & Hp & E & HR' & HE).
  assert (Hxr : x ∉ c :: l1 ++ l2).
  { intros [->|Hxl]%elem_of_cons; [done|]. rewrite <- Permutation_middle in HN. apply NoDup_cons in HN as [_ HN]. by apply NoDup_cons in HN as [? _]. }
  assert (Hst : is_Some (h !! x)) by (apply (e_stored _ _ _ HE); by eapply free_stored).
  pose proof (Clear_shows h x Hst) as [N1 P1 D1]. pose proof (list_length_small _ _ _ _ _ HS Hc) as Hlen.
  assert (Hl : Z.of_nat (length (l1 ++ x :: l2)) = Z.of_nat (length (l1 ++ l2)) + 1) by (rewrite !length_app; cbn [length]; lia).
  unfold head_Erase. rewrite (head_size_ok _ _ _ _ _ HS Hc). cbn [obind]. destruct (Z.ltb_spec 0 (Z.of_nat (length (l1 ++ x :: l2)))) as [_|]; [|lia].
  cbn [CHECK obind]. destruct (Z.eqb_spec x c); [done|]. cbn [negb CHECK obind]. rewrite (linked_not_empty _ _ _ _ HR Hx). cbn [negb CHECK obind].
  unfold hook_Erase. rewrite (hook_views _ _ _ _ Hn Hp). cbn [obind next_ prev_ deref]. rewrite E. cbn [obind]. unfold add_size. rewrite (size_of _ _ _ _ _ _ HS Hc). cbn [obind].
  eexists. split; [done|]. split; [done|].
  assert (HE' : elsewhere (hooks w) (hook_Clear h x) (λ y, y ∈ x :: c :: l1 ++ l2)).
  { eapply (elsewhere_trans _ h _ _ (λ y, y = x)); [exact HE| |intros y; rewrite (elem_of_cons _ y x); tauto]. split; [|done]. intros y Hy. rewrite N1, P1. by rewrite !decide_False. }
  eapply (shape_update w _ L O c (l1 ++ x :: l2)); [done|done|exact HE'| | | | | |].
  - intros y. rewrite !elem_of_cons, !elem_of_app, elem_of_cons. tauto.
  - cbn. eapply ring_frame; [|exact HR']. intros y Hy. rewrite N1, P1, !decide_False; [done|..]; intros ->; apply Hxr; by apply elem_of_cons.
  - intros y. rewrite !elem_of_app, !elem_of_cons. tauto.
  - intros y Hy Hyc Hyn. assert (y = x) as -> by (rewrite !elem_of_app, !elem_of_cons, elem_of_app in *; tauto). cbn. rewrite N1, P1, !decide_True by done. done.
  - intros d Hd _. cbn. by rewrite lookup_insert_ne.
  - cbn. rewrite lookup_insert_eq. f_equal. rewrite u64_small; [lia|]. unfold is_u64, u64_modulus. lia.
Qed.

(** Moving an element is taking it out and putting it in. *)
Lemma relocate_ok (w w1 w2 : world) (c d x p q : Z) : c ≠ d → head_Erase w c x = Ret w1 → head_Next w1 p = Ret q → p ≠ x → q ≠ x →
  head_InsertAfter w1 d p x = Ret w2 → hook_empty (hooks w) c = Ret false →
  relocate (hooks w) x p q = Ret (hooks w2) ∧ ∀ h, h = hooks w2 → (let* w := add_size (with_hooks w h) c (-1) in add_size w d 1) = Ret w2.
Proof.
  intros Hcd E1 En Hp Hq E2 Hc. unfold head_Erase in E1. destruct (head_size w c) as [n| |] eqn:En0; [|done|done]. cbn [obind] in E1. inv_ret.
  unfold hook_Erase in *. match goal with H : obind (hook (hooks w) x) _ = Ret _ |- _ => rename H into EE end. inv_ret.
  unfold add_size in E1. change (head_size (with_hooks w ?h) c) with (head_size w c) in E1. rewrite En0 in E1. cbn [obind] in E1. injection E1 as <-.
  unfold head_InsertAfter in E2. rewrite En in E2. cbn [obind] in E2. inv_ret. cbn [hooks with_size with_hooks] in *.
  match goal with H : AppendTo (hook_Clear ?h x) x p = Ret ?h2, H2 : AppendTo ?h2 q x = Ret ?h3 |- _ => rename H into A2; rename H2 into A3; set (h1 := h) in *; set (h4 := h3) in * end.
  assert (Hx : is_Some (h1 !! x)).
  { match goal with H : AppendTo (hooks w) _ _ = Ret h1, Hk : hook (hooks w) x = Ret _ |- _ => apply AppendTo_inv in H as (_ & _ & HS); apply (s_dom _ _ _ _ HS); unfold hook in Hk end.
    destruct (hooks w !! x); [by eexists|done]. }
  destruct (AppendTo_clear _ _ _ _ _ _ Hp Hq Hx A2 A3) as (h2 & B2 & B3).
  unfold add_size in E2. destruct (head_size _ d) as [m| |] eqn:Em; [|done|done]. cbn [obind] in E2. injection E2 as <-. cbn [hooks with_size with_hooks]. split.
  - unfold relocate. match goal with Hk : hook (hooks w) x = Ret _ |- _ => rewrite Hk end. cbn [obind].
    repeat match goal with Hk : deref _ = Ret _ |- _ => rewrite Hk; clear Hk end. cbn [obind].
    match goal with Hk : AppendTo (hooks w) _ _ = Ret h1 |- _ => rewrite Hk end. cbn [obind]. rewrite B2. cbn [obind]. done.
  - intros h ->. unfold add_size. change (head_size (with_hooks w h4) c) with (head_size w c). rewrite En0. cbn [obind].
    unfold head_size in *. cbn [size_ with_size with_hooks] in *. rewrite Em. done.
Qed.

Section Move.
Context (w : world) (L : gmap Z (list Z)) (O : Z → Prop) (c d x : Z) (l1 l2 k : list Z).
Context (HS : shape w L O) (Hc : L !! c = Some (l1 ++ x :: l2)) (Hd : L !! d = Some k) (Hcd : c ≠ d).

Lemma moved_fresh : x ≠ d ∧ x ∉ k ∧ O x ∧ ¬ listed (<[c := l1 ++ l2]> L) x ∧ hook_empty (hooks w) c = Ret false.
Proof.
  pose proof (rg_apart _ _ (sh_rings _ _ _ HS)) as HA. assert (Hx : x ∈ l1 ++ x :: l2) by (apply elem_of_app; right; left).
  destruct (apart_elem _ _ _ _ _ _ HA Hc Hd Hcd Hx). split_and!; [done|done|by apply (sh_elems _ _ _ HS); exists c, (l1 ++ x :: l2)| |].
  - rewrite (listed_insert L c _ _ x HA Hc). intros [Hin|[_ ?]]; [|done]. destruct (rg_ring _ _ (sh_rings _ _ _ HS) _ _ Hc) as [HN _].
    apply NoDup_cons in HN as [_ HN]. rewrite <- Permutation_middle in HN. by apply NoDup_cons in HN as [? _].
  - rewrite (container_empty _ _ _ _ _ HS Hc). by destruct l1.
Qed.

(** Take [x] out of [c] and put it into [d] between [k1] and [k2]. *)
Lemma move_between (k1 k2 u : list Z) (p q : Z) (v : list Z) : k = k1 ++ k2 → gap d k1 k2 u p q v →
  ∃ w' h, relocate (hooks w) x p q = Ret h ∧ (let* w := add_size (with_hooks w h) c (-1) in add_size w d 1) = Ret w' ∧
    ref_cnt_ w' = ref_cnt_ w ∧ shape w' (<[d := k1 ++ x :: k2]> (<[c := l1 ++ l2]> L)) O.
Proof.
  intros Ek HG. destruct moved_fresh as (Hxd & Hxk & HOx & Hnl & He). destruct (erase_shape _ _ _ _ _ _ _ HS Hc) as (w1 & E1 & R1 & HS1).
  assert (Hd1 : <[c := l1 ++ l2]> L !! d = Some (k1 ++ k2)) by (rewrite lookup_insert_ne by done; by rewrite Hd, Ek).
  destruct (insert_shape _ _ _ _ x _ _ _ _ _ _ HS1 Hd1 HG HOx Hnl) as (w2 & E2 & R2 & HS2).
  pose proof (gap_left_in _ _ _ _ _ _ _ HG) as [Hp _]. pose proof (gap_right_in _ _ _ _ _ _ _ HG) as [Hq _].
  assert (Hpx : p ≠ x ∧ q ≠ x).
  { rewrite Ek, elem_of_app in Hxk. split; intros ->; naive_solver. }
  destruct (head_Next_ok _ _ _ _ _ HS1 Hd1 _ _ _ _ _ _ eq_refl HG) as [En _].
  destruct (relocate_ok w w1 w2 c d x p q Hcd E1 En (proj1 Hpx) (proj2 Hpx) E2 He) as [Er Es]. exists w2, (hooks w2).
  split_and!; [done|by apply Es|by rewrite R2, R1|done].
Qed.

Lemma move_back_shape : ∃ w', head_MoveToDstBack w c x d = Ret w' ∧ ref_cnt_ w' = ref_cnt_ w ∧ shape w' (<[d := k ++ [x]]> (<[c := l1 ++ l2]> L)) O.
Proof.
  destruct (gap_exists d k []) as (u & p & q & v & HG). pose proof (gp_right _ _ _ _ _ _ _ HG) as E. injection E as <- <-.
  destruct (move_between k [] u p d [] (eq_sym (app_nil_r k)) HG) as (w' & h & E1 & E2 & HR & HS'). exists w'. split; [|done].
  unfold head_MoveToDstBack. destruct moved_fresh as (_ & _ & _ & _ & ->). cbn [negb CHECK obind]. rewrite (head_last _ _ _ _ _ HS Hd _ _ _ _ HG). cbn [obind].
  by rewrite E1.
Qed.

Lemma move_front_shape : ∃ w', head_MoveToDstFront w c x d = Ret w' ∧ ref_cnt_ w' = ref_cnt_ w ∧ shape w' (<[d := x :: k]> (<[c := l1 ++ l2]> L)) O.
Proof.
  destruct (gap_exists d [] k) as (u & p & q & v & HG). pose proof (gp_left _ _ _ _ _ _ _ HG) as E. destruct u as [|? [|]]; [injection E as <-|done..].
  destruct (move_between [] k [] d q v eq_refl HG) as (w' & h & E1 & E2 & HR & HS'). exists w'. split; [|done].
  unfold head_MoveToDstFront. destruct moved_fresh as (_ & _ & _ & _ & ->). cbn [negb CHECK obind]. rewrite (head_first _ _ _ _ _ HS Hd _ _ _ _ HG). cbn [obind].
  by rewrite E1.
Qed.
End Move.

Lemma head_Next_nxt (w : world) (x y : Z) : nxt (hooks w) x = Some y → head_Next w x = Ret y.
Proof. unfold head_Next, nxt, hook. destruct (hooks w !! x); [|done]. cbn. by intros ->. Qed.
Lemma head_Prev_prv (w : world) (x y : Z) : prv (hooks w) x = Some y → head_Prev w x = Ret y.
Proof. unfold head_Prev, prv, hook. destruct (hooks w !! x); [|done]. cbn. by intros ->. Qed.

(** ** Moving all elements *)

Section MoveAll.
Context (w : world) (L : gmap Z (list Z)) (O : Z → Prop) (c d : Z) (l k : list Z).
Context (HS : shape w L O) (Hc : L !! c = Some l) (Hd : L !! d = Some k) (Hcd : c ≠ d).
Notation L' := (<[d := k ++ l]> (<[c := []]> L)).

Lemma all_moved (e : Z) (m : list Z) : L' !! e = Some m → (e = d ∧ m = k ++ l) ∨ (e = c ∧ m = []) ∨ (e ≠ c ∧ e ≠ d ∧ L !! e = Some m).
Proof.
  destruct (decide (d = e)) as [<-|Hde]; [rewrite lookup_insert_eq; intros [= <-]; by left|]. rewrite lookup_insert_ne by done.
  destruct (decide (c = e)) as [<-|Hce]; [rewrite lookup_insert_eq; intros [= <-]; right; by left|]. rewrite lookup_insert_ne by done. intros HL. right. by right.
Qed.

Lemma all_moved_apart : apart L'.
Proof.
  pose proof (rg_apart _ _ (sh_rings _ _ _ HS)) as HA. apply (apart_insert _ d k); [|by rewrite lookup_insert_ne|].
  - apply (apart_insert L c l); [done|done|]. by intros y ?%elem_of_nil.
  - intros y [Hy|Hy]%elem_of_app; [by left|right]. intros e m He. destruct (decide (c = e)) as [<-|Hce].
    + rewrite lookup_insert_eq. intros [= <-] ->%list_elem_of_singleton. destruct (rg_ring _ _ (sh_rings _ _ _ HS) _ _ Hc) as [HN _]. by apply NoDup_cons in HN as [? _].
    + rewrite lookup_insert_ne by done. intros Hm. apply (HA c e l m); [done..|by right].
Qed.

Lemma all_moved_listed (x : Z) : listed L' x ↔ listed L x.
Proof.
  pose proof (rg_apart _ _ (sh_rings _ _ _ HS)) as HA. split.
  - intros (e & m & He & Hx). apply all_moved in He as [[-> ->]|[[-> ->]|(_ & _ & He)]]; [|by apply elem_of_nil in Hx|by exists e, m].
    apply elem_of_app in Hx as [Hx|Hx]; [by exists d, k|by exists c, l].
  - intros (e & m & He & Hx). destruct (decide (d = e)) as [<-|Hde].
    + exists d, (k ++ l). rewrite lookup_insert_eq. split; [done|]. rewrite Hd in He. injection He as ->. apply elem_of_app. by left.
    + destruct (decide (c = e)) as [<-|Hce].
      * exists d, (k ++ l). rewrite lookup_insert_eq. split; [done|]. rewrite Hc in He. injection He as ->. apply elem_of_app. by right.
      * exists e, m. by rewrite !lookup_insert_ne.
Qed.

Lemma all_moved_shape (w' : world) : elsewhere (hooks w) (hooks w') (λ y, y ∈ c :: l ++ d :: k) → ring (hooks w') c [] → ring (hooks w') d (k ++ l) →
  size_ w' = <[c := 0]> (<[d := Z.of_nat (length (k ++ l))]> (size_ w)) → shape w' L' O.
Proof.
  intros HE HRc HRd Hsz. pose proof HS as [[S1 HA] S2 S3 S4 S5 S6].
  assert (Hno : ∀ y, y ∈ c :: l ++ d :: k → ∀ e m, e ≠ c → e ≠ d → L !! e = Some m → y ∉ e :: m).
  { intros y Hy e m Hec Hed He. rewrite app_comm_cons, elem_of_app in Hy. destruct Hy as [Hy|Hy]; [by apply (HA c e l m)|by apply (HA d e k m)]. }
  split; [split; [|apply all_moved_apart]| | | | |].
  - intros e m [[-> ->]|[[-> ->]|(Hec & Hed & He)]]%all_moved; [done|done|]. eapply ring_frame; [|by apply S1]. intros y Hy. apply (e_same _ _ _ HE).
    intros HX. apply (Hno y HX e m); [done..|by apply elem_of_cons].
  - intros e m [[-> ->]|[[-> ->]|(Hec & Hed & He)]]%all_moved; rewrite Hsz.
    + rewrite lookup_insert_ne by done. by rewrite lookup_insert_eq.
    + by rewrite lookup_insert_eq.
    + rewrite !lookup_insert_ne by done. by apply S2.
  - intros x. rewrite all_moved_listed. apply S3.
  - intros e [m Hm]. apply S4. apply all_moved in Hm as [[-> ->]|[[-> ->]|(_ & _ & He)]]; by eexists.
  - intros x HO Hx. rewrite all_moved_listed in Hx. destruct (e_same _ _ _ HE x) as [-> ->]; [|by apply S5].
    rewrite elem_of_cons, elem_of_app, elem_of_cons. intros [->|[Hxl|[->|Hxk]]]; [by apply (S4 c); [eexists|]|apply Hx; by exists c, l|by apply (S4 d); [eexists|]|apply Hx; by exists d, k].
  - intros x Hx. apply S6. by apply (e_stored _ _ _ HE).
Qed.

Lemma move_all_shape : ∃ w', head_MoveAllToDstBack w c d = Ret w' ∧ ref_cnt_ w' = ref_cnt_ w ∧ shape w' L' O.
Proof.
  unfold head_MoveAllToDstBack. rewrite (container_empty _ _ _ _ _ HS Hc). cbn [obind]. case_bool_decide as Hl.
  { exists w. split; [done|]. split; [done|]. rewrite Hl, app_nil_r. rewrite (insert_id L c []) by (by rewrite Hc, Hl). by rewrite insert_id. }
  pose proof (sh_rings _ _ _ HS) as [HR HA]. pose proof (HR _ _ Hc) as HRc. pose proof (HR _ _ Hd) as HRd.
  destruct (splice (hooks w) c d l k HRc HRd Hl) as (f & e & p & h1 & h2 & Ef & Ee & Ep & E1 & E2 & HRd' & HE); [by apply (HA c d)|].
  rewrite (head_Prev_prv _ _ _ Ep), (head_Next_nxt _ _ _ Ef), (head_Prev_prv _ _ _ Ee). cbn [obind]. rewrite E1. cbn [obind]. rewrite E2. cbn [obind].
  unfold add_size. rewrite (head_size_ok _ _ _ _ _ HS Hc), (size_of _ _ _ _ _ _ HS Hd). cbn [obind]. eexists. split; [done|]. split; [done|].
  assert (Hc2 : is_Some (h2 !! c)) by (rewrite (e_stored _ _ _ HE); by apply (ring_stored _ _ _ c HRc); left). pose proof (Clear_shows h2 c Hc2) as [N P D].
  assert (Hcn : c ∉ d :: k ++ l).
  { intros Hx. rewrite app_comm_cons, elem_of_app in Hx. destruct Hx as [Hx|Hx]; [by apply (HA c d l k Hc Hd Hcd c); [left|]|].
    destruct HRc as [HN _]. by apply NoDup_cons in HN as [? _]. }
  apply all_moved_shape; cbn [hooks size_ head_Clear with_size with_hooks].
  - eapply (elsewhere_trans _ h2 _ _ (λ y, y = c)); [exact HE| |intros y; rewrite (elem_of_cons (l ++ d :: k)); tauto]. split; [|done].
    intros y Hy. by rewrite N, P, !decide_False.
  - split; [apply NoDup_singleton|]. cbn. unfold link. by rewrite N, P, !decide_True.
  - eapply ring_frame; [|exact HRd']. intros y Hy. rewrite N, P, !decide_False; [done|..]; intros ->; apply Hcn; by apply elem_of_cons.
  - assert (Hsz : 0 ≤ Z.of_nat (length (k ++ l)) < 2 ^ 64).
    { pose proof HRd' as [HN _]. assert (Hb : Z.of_nat (length (d :: k ++ l)) ≤ 2 ^ 64); [|cbn [length] in Hb; lia]. apply bounded_length; [done| |done].
      intros y Hy. apply (sh_addr _ _ _ HS), (e_stored _ _ _ HE). eapply ring_stored; [done|]. by apply elem_of_cons. }
    rewrite <- Nat2Z.inj_add, <- length_app, u64_small; [done|]. unfold is_u64, u64_modulus. lia.
Qed.
End MoveAll.

(** ** References *)

Lemma shape_change (w w' : world) (L : gmap Z (list Z)) (O O' : Z → Prop) : hooks w' = hooks w → size_ w' = size_ w → (∀ x, O' x ↔ O x) → shape w L O → shape w' L O'.
Proof. intros Eh Es HO [S1 S2 S3 S4 S5 S6]. split; rewrite ?Eh, ?Es; try done; intros x; rewrite ?HO; [apply S3|apply S4|apply S5]. Qed.

Lemma shape_delete (w : world) (L : gmap Z (list Z)) (O : Z → Prop) (x : Z) (R : gmap Z Z) : shape w L O → O x → ¬ listed L x →
  shape (mkWorld (delete x (hooks w)) (size_ w) R) L (λ y, O y ∧ y ≠ x).
Proof.
  intros [[S1 HA] S2 S3 S4 S5 S6] HOx Hx.
  assert (Hf : ∀ y, y ≠ x → nxt (delete x (hooks w)) y = nxt (hooks w) y ∧ prv (delete x (hooks w)) y = prv (hooks w) y) by (intros y Hy; unfold nxt, prv; by rewrite lookup_delete_ne).
  split; cbn.
  - split; [|done]. intros c l Hc. eapply ring_frame; [|by apply S1]. intros y Hy. apply Hf. intros ->. destruct Hy as [->|Hy]; [by apply (S4 c); [eexists|]|].
    apply Hx. by exists c, l.
  - done.
  - intros y Hy. split; [by apply S3|]. by intros ->.
  - intros c Hc [HOc _]. by apply (S4 c).
  - intros y [HOy Hne] Hy. destruct (Hf y Hne) as [-> ->]. by apply S5.
  - intros y Hy. apply S6. destruct (decide (x = y)) as [<-|Hne]; [by rewrite lookup_delete_eq in Hy; destruct Hy|by rewrite lookup_delete_ne in Hy].
Qed.

Definition objects (w : world) (x : Z) : Prop := is_Some (ref_cnt_ w !! x).

Lemma DecreaseRef_ok (w : world) (L : gmap Z (list Z)) (x n : Z) : shape w L (objects w) → ref_cnt_ w !! x = Some n → 0 < n < 2 ^ 31 → (n = 1 → ¬ listed L x) →
  ∃ w', DecreaseRef w (Some x) = Ret w' ∧ shape w' L (objects w') ∧ ref_cnt_ w' = (if decide (n = 1) then delete x else <[x := n - 1]>) (ref_cnt_ w).
Proof.
  intros HS Hx Hn Hl. unfold DecreaseRef, ref_cnt. cbn [deref obind]. rewrite Hx. cbn [obind]. rewrite i32_small by lia.
  destruct (Z.ltb_spec 0 (n - 1)) as [Hpos|Hpos]; eexists; (split; [done|]).
  - rewrite decide_False by lia. split; [|done]. eapply (shape_change w); [done|done| |done]. intros y. unfold objects. cbn.
    destruct (decide (x = y)) as [<-|Hne]; [rewrite lookup_insert_eq, Hx; split; by eexists|by rewrite lookup_insert_ne].
  - rewrite decide_True by lia. split; [|done]. pose proof (shape_delete w L _ x (delete x (ref_cnt_ w)) HS) as HD.
    eapply (shape_change (mkWorld (delete x (hooks w)) (size_ w) (delete x (ref_cnt_ w)))); [done|done| |apply HD; [by eexists|apply Hl; lia]].
    intros y. unfold objects. cbn. destruct (decide (x = y)) as [<-|Hne]; [rewrite lookup_delete_eq|rewrite lookup_delete_ne by done].
    + split; [by intros [? ?]|tauto].
    + split; [|tauto]. intros Hy. split; [done|congruence].
Qed.

Lemma IncreaseRef_ok (w : world) (L : gmap Z (list Z)) (x n : Z) : shape w L (objects w) → ref_cnt_ w !! x = Some n → 0 ≤ n → n + 1 < 2 ^ 31 →
  ∃ w', IncreaseRef w x = Ret w' ∧ shape w' L (objects w') ∧ ref_cnt_ w' = <[x := n + 1]> (ref_cnt_ w).
Proof.
  intros HS Hx Hn Hb. unfold IncreaseRef, ref_cnt. rewrite Hx. cbn [obind]. rewrite i32_small by lia. eexists. split; [done|]. split; [|done].
  eapply (shape_change w); [done|done| |done]. intros y. unfold objects. cbn.
  destruct (decide (x = y)) as [<-|Hne]; [rewrite lookup_insert_eq, Hx; split; by eexists|by rewrite lookup_insert_ne].
Qed.

(** ** The abstract state *)

(** [held] counts the references outside the lists. *)
Record abs := mkAbs { lists : gmap Z (list Z); held : gmap Z Z }.

Definition in_list (L : gmap Z (list Z)) (x : Z) : Z := if decide (listed L x) then 1 else 0.

Record counted (R : gmap Z Z) (L : gmap Z (list Z)) (E : gmap Z Z) : Prop := mkCounted {
  ct_ref : ∀ x, R !! x = (λ n, n + in_list L x) <$> E !! x;
  ct_live : ∀ x n, E !! x = Some n → 0 ≤ n ∧ 0 < n + in_list L x < 2 ^ 31
}.

Record rep (w : world) (a : abs) : Prop := mkRep {
  rp_shape : shape w (lists a) (objects w);
  rp_counted : counted (ref_cnt_ w) (lists a) (held a)
}.

Inductive list_op : Type :=
| opPushBack (c x : Z) | opPushFront (c x : Z) | opEmplaceBack (c x : Z) | opEmplaceFront (c x : Z)
| opErase (c x : Z) | opPopBack (c : Z) | opPopFront (c : Z)
| opMoveBack (c x d : Z) | opMoveFront (c x d : Z) | opMoveAll (c d : Z) | opClear (c : Z)
| opShare (x : Z) | opRelease (x : Z) | opMake (x : Z).

(** The code of an operation, with the pointer that it returns. *)
Definition run_op (fuel : nat) (w : world) (o : list_op) : outcome (world * option Z) :=
  match o with
  | opPushBack c x => let* w := list_PushBack w c x in Ret (w, None)
  | opPushFront c x => let* w := list_PushFront w c x in Ret (w, None)
  | opEmplaceBack c x => let* w := list_EmplaceBack w c (Some x) in Ret (w, None)
  | opEmplaceFront c x => let* w := list_EmplaceFront w c (Some x) in Ret (w, None)
  | opErase c x => list_Erase w c x
  | opPopBack c => list_PopBack w c
  | opPopFront c => list_PopFront w c
  | opMoveBack c x d => let* w := head_MoveToDstBack w c x d in Ret (w, None)
  | opMoveFront c x d => let* w := head_MoveToDstFront w c x d in Ret (w, None)
  | opMoveAll c d => let* w := head_MoveAllToDstBack w c d in Ret (w, None)
  | opClear c => let* w := list_Clear fuel w c in Ret (w, None)
  | opShare x => shared_Reset w None (Some x)
  | opRelease x => shared_Reset w (Some x) None
  | opMake x => let* w := NewAndInitRef w x in Ret (w, Some x)
  end.

Definition elems (a : abs) (c : Z) : list Z := default [] (lists a !! c).
Definition without (x : Z) (l : list Z) : list Z := filter (λ y, y ≠ x) l.
(** An element without other references goes away with its list. *)
Definition drop_ref (E : gmap Z Z) (x : Z) : gmap Z Z := if decide (E !! x = Some 0) then delete x E else E.

Definition erase_effect (a : abs) (c x : Z) : abs * option Z :=
  (mkAbs (<[c := without x (elems a c)]> (lists a)) (alter (λ n, n + 1) x (held a)), Some x).

(** What an operation means. *)
Definition effect (a : abs) (o : list_op) : abs * option Z :=
  match o with
  | opPushBack c x => (mkAbs (<[c := elems a c ++ [x]]> (lists a)) (held a), None)
  | opPushFront c x => (mkAbs (<[c := x :: elems a c]> (lists a)) (held a), None)
  | opEmplaceBack c x => (mkAbs (<[c := elems a c ++ [x]]> (lists a)) (alter (λ n, n - 1) x (held a)), None)
  | opEmplaceFront c x => (mkAbs (<[c := x :: elems a c]> (lists a)) (alter (λ n, n - 1) x (held a)), None)
  | opErase c x => erase_effect a c x
  | opPopBack c => match last (elems a c) with None => (a, None) | Some x => erase_effect a c x end
  | opPopFront c => match head (elems a c) with None => (a, None) | Some x => erase_effect a c x end
  | opMoveBack c x d => (mkAbs (<[d := elems a d ++ [x]]> (<[c := without x (elems a c)]> (lists a))) (held a), None)
  | opMoveFront c x d => (mkAbs (<[d := x :: elems a d]> (<[c := without x (elems a c)]> (lists a))) (held a), None)
  | opMoveAll c d => (mkAbs (<[d := elems a d ++ elems a c]> (<[c := []]> (lists a))) (held a), None)
  | opClear c => (mkAbs (<[c := []]> (lists a)) (foldl drop_ref (held a) (elems a c)), None)
  | opShare x => (mkAbs (lists a) (alter (λ n, n + 1) x (held a)), Some x)
  | opRelease x => (mkAbs (lists a) (if decide (held a !! x = Some 1 ∧ ¬ listed (lists a) x) then delete x (held a) else alter (λ n, n - 1) x (held a)), None)
  | opMake x => (mkAbs (lists a) (<[x := 1]> (held a)), Some x)
  end.

(** What the callers keep to. *)
Definition allowed (fuel : nat) (a : abs) (o : list_op) : Prop :=
  match o with
  | opPushBack c x | opPushFront c x => is_Some (lists a !! c) ∧ ¬ listed (lists a) x ∧ ∃ n, held a !! x = Some n ∧ n + 1 < 2 ^ 31
  | opEmplaceBack c x | opEmplaceFront c x => is_Some (lists a !! c) ∧ ¬ listed (lists a) x ∧ is_Some (held a !! x)
  | opErase c x => is_Some (lists a !! c) ∧ x ∈ elems a c
  | opPopBack c | opPopFront c => is_Some (lists a !! c)
  | opMoveBack c x d | opMoveFront c x d => is_Some (lists a !! c) ∧ is_Some (lists a !! d) ∧ c ≠ d ∧ x ∈ elems a c
  | opMoveAll c d => is_Some (lists a !! c) ∧ is_Some (lists a !! d) ∧ c ≠ d
  | opClear c => is_Some (lists a !! c) ∧ (length (elems a c) ≤ fuel)%nat
  | opShare x => ∃ n, held a !! x = Some n ∧ n + in_list (lists a) x + 1 < 2 ^ 31
  | opRelease x => ∃ n, held a !! x = Some n ∧ 0 < n
  | opMake x => held a !! x = None ∧ lists a !! x = None ∧ is_u64 x
  end.

(** ** Counting *)

Lemma in_list_iff (L L' : gmap Z (list Z)) (x : Z) : (listed L' x ↔ listed L x) → in_list L' x = in_list L x.
Proof. intros H. unfold in_list. destruct (decide (listed L x)), (decide (listed L' x)); tauto. Qed.
Lemma in_list_yes (L : gmap Z (list Z)) (x : Z) : listed L x → in_list L x = 1.
Proof. intros H. unfold in_list. by rewrite decide_True. Qed.
Lemma in_list_no (L : gmap Z (list Z)) (x : Z) : ¬ listed L x → in_list L x = 0.
Proof. intros H. unfold in_list. by rewrite decide_False. Qed.

Lemma counted_move (R : gmap Z Z) (L L' : gmap Z (list Z)) (E : gmap Z Z) : counted R L E → (∀ y, listed L' y ↔ listed L y) → counted R L' E.
Proof.
  intros [H1 H2] HL. split.
  - intros y. rewrite (in_list_iff L L' y (HL y)). apply H1.
  - intros y n Hy. rewrite (in_list_iff L L' y (HL y)). by apply H2.
Qed.

(** Only the count of [x] changes. *)
Lemma counted_one (R R' : gmap Z Z) (L L' : gmap Z (list Z)) (E E' : gmap Z Z) (x n m : Z) : counted R L E → (∀ y, y ≠ x → listed L' y ↔ listed L y) →
  E !! x = Some n → E' = <[x := m]> E → R' = <[x := m + in_list L' x]> R → 0 ≤ m → 0 < m + in_list L' x < 2 ^ 31 → counted R' L' E'.
Proof.
  intros [H1 H2] HL Hx -> -> Hm Hb. split.
  - intros y. destruct (decide (x = y)) as [<-|Hne]; [by rewrite !lookup_insert_eq|]. rewrite !lookup_insert_ne by done. rewrite (in_list_iff L L' y); [done|]. by apply HL.
  - intros y k. destruct (decide (x = y)) as [<-|Hne]; [rewrite lookup_insert_eq; by intros [= <-]|]. rewrite lookup_insert_ne by done.
    rewrite (in_list_iff L L' y); [apply H2|by apply HL].
Qed.

Lemma counted_ref (R : gmap Z Z) (L : gmap Z (list Z)) (E : gmap Z Z) (x n : Z) : counted R L E → E !! x = Some n → R !! x = Some (n + in_list L x).
Proof. intros [H _] Hx. by rewrite H, Hx. Qed.

Lemma alter_is_insert (E : gmap Z Z) (f : Z → Z) (x n : Z) : E !! x = Some n → alter f x E = <[x := f n]> E.
Proof. intros Hx. apply map_eq. intros y. destruct (decide (x = y)) as [<-|]; [by rewrite lookup_alter_eq, lookup_insert_eq, Hx|by rewrite lookup_alter_ne, lookup_insert_ne]. Qed.

Lemma listed_added (L : gmap Z (list Z)) (c x : Z) (l1 l2 : list Z) : apart L → L !! c = Some (l1 ++ l2) → ∀ y, listed (<[c := l1 ++ x :: l2]> L) y ↔ y = x ∨ listed L y.
Proof.
  intros HA Hc y. rewrite (listed_insert L c _ _ y HA Hc), !elem_of_app, elem_of_cons. destruct (decide (y ∈ l1 ++ l2)) as [Hy|Hy].
  - assert (listed L y) by (by exists c, (l1 ++ l2)). rewrite elem_of_app in Hy. tauto.
  - rewrite elem_of_app in Hy. tauto.
Qed.

Lemma listed_removed (L : gmap Z (list Z)) (c x : Z) (l1 l2 : list Z) : apart L → L !! c = Some (l1 ++ x :: l2) → x ∉ l1 ++ l2 →
  ∀ y, listed (<[c := l1 ++ l2]> L) y ↔ y ≠ x ∧ listed L y.
Proof.
  intros HA Hc Hx y. rewrite (listed_insert L c _ _ y HA Hc). rewrite !elem_of_app, elem_of_cons. rewrite elem_of_app in Hx. split.
  - intros [Hy|[Hy Hn]]; [|tauto]. split; [intros ->; tauto|]. exists c, (l1 ++ x :: l2). rewrite elem_of_app, elem_of_cons. tauto.
  - intros [Hne Hy]. destruct (decide (y ∈ l1)), (decide (y ∈ l2)); tauto.
Qed.

(** ** The operations *)

Lemma rep_apart (w : world) (a : abs) : rep w a → apart (lists a).
Proof. intros [HS _]. apply (rg_apart _ _ (sh_rings _ _ _ HS)). Qed.

Lemma elems_of (a : abs) (c : Z) : is_Some (lists a !! c) → lists a !! c = Some (elems a c).
Proof. intros [l E]. unfold elems. by rewrite E. Qed.

Lemma elems_split (w : world) (a : abs) (c x : Z) : rep w a → is_Some (lists a !! c) → x ∈ elems a c →
  ∃ l1 l2, lists a !! c = Some (l1 ++ x :: l2) ∧ x ∉ l1 ++ l2 ∧ without x (elems a c) = l1 ++ l2.
Proof.
  intros HR Hc Hx. apply elems_of in Hc. destruct (rg_ring _ _ (sh_rings _ _ _ (rp_shape _ _ HR)) _ _ Hc) as [HN _].
  apply NoDup_cons in HN as [_ HN]. apply list_elem_of_split in Hx as (l1 & l2 & E). rewrite E in *. exists l1, l2.
  assert (Hn : x ∉ l1 ++ l2) by (rewrite <- Permutation_middle in HN; by apply NoDup_cons in HN as [? _]). split_and!; [done|done|].
  unfold without. rewrite filter_app, filter_cons_False by naive_solver. rewrite <- filter_app. apply filter_all. rewrite Forall_forall. intros y Hy ->. done.
Qed.

Lemma insert_rep (w w1 : world) (a : abs) (c x : Z) (l1 l2 : list Z) : rep w a → lists a !! c = Some (l1 ++ l2) → ¬ listed (lists a) x →
  ref_cnt_ w1 = ref_cnt_ w → shape w1 (<[c := l1 ++ x :: l2]> (lists a)) (objects w) →
  (∀ n, held a !! x = Some n → n + 1 < 2 ^ 31 → ∃ w', IncreaseRef w1 x = Ret w' ∧ rep w' (mkAbs (<[c := l1 ++ x :: l2]> (lists a)) (held a))) ∧
  (is_Some (held a !! x) → rep w1 (mkAbs (<[c := l1 ++ x :: l2]> (lists a)) (alter (λ n, n - 1) x (held a)))).
Proof.
  intros HR Hc Hx E1 HS1. pose proof (rp_counted _ _ HR) as HC. pose proof (listed_added _ c x _ _ (rep_apart _ _ HR) Hc) as HL.
  assert (Hin : in_list (<[c := l1 ++ x :: l2]> (lists a)) x = 1) by (apply in_list_yes, HL; by left).
  assert (HS1' : shape w1 (<[c := l1 ++ x :: l2]> (lists a)) (objects w1)) by (eapply shape_change; [done|done| |exact HS1]; intros y; unfold objects; by rewrite E1).
  assert (HLx : ∀ y, y ≠ x → listed (<[c := l1 ++ x :: l2]> (lists a)) y ↔ listed (lists a) y) by (intros y Hy; rewrite HL; tauto).
  split.
  - intros n Hn Hb. pose proof (counted_ref _ _ _ _ _ HC Hn) as Hrx. rewrite in_list_no, Z.add_0_r in Hrx by done. destruct (ct_live _ _ _ HC _ _ Hn) as [Hn0 _].
    destruct (IncreaseRef_ok w1 _ x n HS1') as (w' & E & HS' & HR'); [by rewrite E1|done|done|]. exists w'. split; [done|]. split; [done|]. cbn.
    eapply (counted_one _ _ (lists a) _ (held a) _ x n n HC HLx Hn); [by rewrite insert_id|by rewrite HR', E1, Hin|done|lia].
  - intros [n Hn]. split; [done|]. cbn. rewrite (alter_is_insert _ _ _ _ Hn). destruct (ct_live _ _ _ HC _ _ Hn) as [Hn0 Hn1]. rewrite in_list_no in Hn1 by done.
    eapply (counted_one _ _ (lists a) _ (held a) _ x n (n - 1) HC HLx Hn); [done| |lia|lia]. rewrite E1, Hin, insert_id; [done|].
    rewrite (counted_ref _ _ _ _ _ HC Hn), in_list_no by done. f_equal. lia.
Qed.

Lemma erase_rep (w : world) (a : abs) (c x : Z) : rep w a → is_Some (lists a !! c) → x ∈ elems a c →
  ∃ w', head_Erase w c x = Ret w' ∧ rep w' (erase_effect a c x).1.
Proof.
  intros HR Hc Hx. destruct (elems_split _ _ _ _ HR Hc Hx) as (l1 & l2 & El & Hn & Ew). destruct (erase_shape _ _ _ _ _ _ _ (rp_shape _ _ HR) El) as (w' & E & ER & HS).
  exists w'. split; [done|]. pose proof (rp_counted _ _ HR) as HC. pose proof (listed_removed _ _ _ _ _ (rep_apart _ _ HR) El Hn) as HL.
  assert (Hl : listed (lists a) x) by (exists c, (l1 ++ x :: l2); rewrite elem_of_app, elem_of_cons; tauto).
  destruct (sh_elems _ _ _ (rp_shape _ _ HR) x Hl) as [r Hr]. pose proof (ct_ref _ _ _ HC x) as Hrx. rewrite Hr in Hrx. destruct (held a !! x) as [n|] eqn:Ex; [|done].
  destruct (ct_live _ _ _ HC _ _ Ex) as [Hn0 Hn1]. rewrite in_list_yes in Hn1, Hrx by done. cbn in Hrx. injection Hrx as ->.
  assert (Hno : in_list (<[c := l1 ++ l2]> (lists a)) x = 0) by (apply in_list_no; rewrite HL; tauto).
  unfold erase_effect. cbn [fst]. rewrite Ew. split; cbn.
  - eapply shape_change; [done|done| |exact HS]. intros y. unfold objects. by rewrite ER.
  - rewrite (alter_is_insert _ _ _ _ Ex). eapply (counted_one _ _ (lists a) _ (held a) _ x n (n + 1) HC); [intros y Hy; rewrite HL; tauto|done|done| |lia|lia].
    rewrite ER, Hno, Z.add_0_r, insert_id; [done|]. by rewrite Hr.
Qed.

Lemma move_rep (w w' : world) (a : abs) (c d x : Z) (l1 l2 k1 k2 : list Z) : rep w a → lists a !! c = Some (l1 ++ x :: l2) → x ∉ l1 ++ l2 → c ≠ d →
  lists a !! d = Some (k1 ++ k2) → ref_cnt_ w' = ref_cnt_ w → shape w' (<[d := k1 ++ x :: k2]> (<[c := l1 ++ l2]> (lists a))) (objects w) →
  rep w' (mkAbs (<[d := k1 ++ x :: k2]> (<[c := l1 ++ l2]> (lists a))) (held a)).
Proof.
  intros HR Hc Hx Hcd Hd ER HS. pose proof (rep_apart _ _ HR) as HA. split; cbn.
  - eapply shape_change; [done|done| |exact HS]. intros y. unfold objects. by rewrite ER.
  - rewrite ER. apply (counted_move _ (lists a)); [apply (rp_counted _ _ HR)|]. intros y.
    rewrite (listed_added _ d x k1 k2); [|apply (apart_insert _ c (l1 ++ x :: l2)); [done|done|]|by rewrite lookup_insert_ne].
    + rewrite (listed_removed _ _ _ _ _ HA Hc Hx). destruct (decide (y = x)) as [->|]; [|tauto]. split; [|by left]. intros _. exists c, (l1 ++ x :: l2).
      rewrite elem_of_app, elem_of_cons. tauto.
    + intros z. rewrite !elem_of_app, elem_of_cons. tauto.
Qed.

Lemma release_rep (w : world) (a : abs) (x n : Z) : rep w a → held a !! x = Some n → 0 < n →
  ∃ w', DecreaseRef w (Some x) = Ret w' ∧ rep w' (effect a (opRelease x)).1.
Proof.
  intros HR Hx Hn. pose proof (rp_counted _ _ HR) as HC. pose proof (counted_ref _ _ _ _ _ HC Hx) as Hr. destruct (ct_live _ _ _ HC _ _ Hx) as [_ Hb].
  destruct (DecreaseRef_ok w _ x _ (rp_shape _ _ HR) Hr Hb) as (w' & E & HS & ER).
  { intros E1 Hl. rewrite in_list_yes in E1 by done. lia. }
  exists w'. split; [done|]. split; [done|]. cbn. destruct (decide (listed (lists a) x)) as [Hl|Hl].
  - rewrite in_list_yes in * by done. rewrite decide_False in ER by lia. rewrite decide_False by tauto. rewrite (alter_is_insert _ _ _ _ Hx).
    eapply (counted_one _ _ _ _ _ _ x n (n - 1) HC); [done|done|done| |lia|rewrite in_list_yes by done; lia].
    rewrite ER, in_list_yes by done. f_equal. lia.
  - rewrite in_list_no, Z.add_0_r in * by done. destruct (decide (n = 1)) as [->|Hn1].
    + rewrite decide_True by (rewrite Hx; done). rewrite ER. split.
      * intros y. destruct (decide (x = y)) as [<-|Hne]; [by rewrite !lookup_delete_eq|rewrite !lookup_delete_ne by done; apply HC].
      * intros y k. destruct (decide (x = y)) as [<-|Hne]; [by rewrite lookup_delete_eq|rewrite lookup_delete_ne by done; apply HC].
    + rewrite decide_False by (intros [H1 _]; rewrite Hx in H1; by injection H1). rewrite (alter_is_insert _ _ _ _ Hx).
      eapply (counted_one _ _ _ _ _ _ x n (n - 1) HC); [done|done|done| |lia|rewrite in_list_no by done; lia].
      by rewrite ER, in_list_no, Z.add_0_r by done.
Qed.

Lemma share_rep (w : world) (a : abs) (x n : Z) : rep w a → held a !! x = Some n → n + in_list (lists a) x + 1 < 2 ^ 31 →
  ∃ w', IncreaseRef w x = Ret w' ∧ rep w' (effect a (opShare x)).1.
Proof.
  intros HR Hx Hb. pose proof (rp_counted _ _ HR) as HC. pose proof (counted_ref _ _ _ _ _ HC Hx) as Hr. destruct (ct_live _ _ _ HC _ _ Hx) as [Hn Hl].
  destruct (IncreaseRef_ok w _ x _ (rp_shape _ _ HR) Hr) as (w' & E & HS & ER); [lia|lia|]. exists w'. split; [done|]. split; [done|]. cbn.
  rewrite (alter_is_insert _ _ _ _ Hx). eapply (counted_one _ _ _ _ _ _ x n (n + 1) HC); [done|done|done| |lia|lia]. rewrite ER. f_equal. lia.
Qed.

Lemma make_rep (w : world) (a : abs) (x : Z) : rep w a → held a !! x = None → lists a !! x = None → is_u64 x →
  ∃ w', NewAndInitRef w x = Ret w' ∧ rep w' (effect a (opMake x)).1.
Proof.
  intros HR Hx Hc Ha. pose proof (rp_counted _ _ HR) as HC. pose proof (rp_shape _ _ HR) as [[S1 HA] S2 S3 S4 S5 S6].
  assert (Hr : ref_cnt_ w !! x = None) by (rewrite (ct_ref _ _ _ HC), Hx; done).
  assert (Hnl : ¬ listed (lists a) x) by (intros [r Hr']%S3; congruence).
  unfold NewAndInitRef. set (w1 := with_ref _ x 0). assert (HS1 : shape w1 (lists a) (objects w1)).
  { assert (Hf : ∀ y, y ≠ x → nxt (hooks w1) y = nxt (hooks w) y ∧ prv (hooks w1) y = prv (hooks w) y).
    { intros y Hy. unfold nxt, prv, w1, hook_Clear. cbn. by rewrite lookup_insert_ne. }
    assert (HO : ∀ y, objects w1 y ↔ y = x ∨ objects w y).
    { intros y. unfold objects, w1. cbn. destruct (decide (x = y)) as [<-|Hne]; [rewrite lookup_insert_eq; split; [by left|by eexists]|].
      rewrite lookup_insert_ne by done. split; [by right|by intros [->|]]. }
    split.
    - split; [|done]. intros c l Hl. eapply ring_frame; [|by apply S1]. intros y Hy. apply Hf. intros ->. destruct Hy as [->|Hy]; [congruence|]. apply Hnl. by exists c, l.
    - done.
    - intros y Hy. apply HO. right. by apply S3.
    - intros c Hcs Ho. apply HO in Ho as [->|Ho]; [rewrite Hc in Hcs; by destruct Hcs|]. by apply (S4 c).
    - intros y HOy Hy. destruct (decide (y = x)) as [->|Hne].
      + unfold nxt, prv, w1, hook_Clear. cbn. by rewrite lookup_insert_eq.
      + destruct (Hf y Hne) as [-> ->]. apply S5; [|done]. by apply HO in HOy as [|].
    - intros y. unfold w1, hook_Clear. cbn. destruct (decide (x = y)) as [<-|Hne]; [done|rewrite lookup_insert_ne by done; apply S6]. }
  destruct (IncreaseRef_ok w1 _ x 0 HS1) as (w' & E & HS & ER); [unfold w1; cbn; by rewrite lookup_insert_eq|lia|lia|].
  exists w'. split; [done|]. split; [done|]. cbn. rewrite ER. unfold w1. cbn. rewrite insert_insert_eq. split.
  - intros y. destruct (decide (x = y)) as [<-|Hne]; [rewrite !lookup_insert_eq; cbn; by rewrite in_list_no|rewrite !lookup_insert_ne by done; apply HC].
  - intros y k. destruct (decide (x = y)) as [<-|Hne]; [rewrite lookup_insert_eq; intros [= <-]; rewrite in_list_no by done; lia|rewrite lookup_insert_ne by done; apply HC].
Qed.

(** A pop from the front takes the first element. *)
Lemma pop_front_rep (w : world) (a : abs) (c x : Z) (l : list Z) : rep w a → lists a !! c = Some (x :: l) →
  ∃ w', head_PopFront w c = Ret (w', x) ∧ rep w' (erase_effect a c x).1.
Proof.
  intros HR Hc. destruct (gap_exists c [] (x :: l)) as (u & p & q & v & HG). pose proof (gp_right _ _ _ _ _ _ _ HG) as E. injection E as <- _.
  destruct (erase_rep w a c x HR) as (w' & E & HR'); [by eexists|unfold elems; rewrite Hc; left|]. exists w'. split; [|done].
  unfold head_PopFront. rewrite (head_empty_ok _ _ _ _ _ (rp_shape _ _ HR) Hc). cbn [obind negb bool_decide]. rewrite bool_decide_eq_false_2 by done. cbn [negb CHECK obind].
  rewrite (head_first _ _ _ _ _ (rp_shape _ _ HR) Hc _ _ _ _ HG). cbn [obind]. by rewrite E.
Qed.

Lemma pop_back_rep (w : world) (a : abs) (c x : Z) (l : list Z) : rep w a → lists a !! c = Some (l ++ [x]) →
  ∃ w', head_PopBack w c = Ret (w', x) ∧ rep w' (erase_effect a c x).1.
Proof.
  intros HR Hc. destruct (gap_exists c (l ++ [x]) []) as (u & p & q & v & HG). pose proof (gp_left _ _ _ _ _ _ _ HG) as E. rewrite app_comm_cons in E. apply app_inj_tail in E as [_ <-].
  destruct (erase_rep w a c x HR) as (w' & E & HR'); [by eexists|unfold elems; rewrite Hc; apply elem_of_app; right; left|]. exists w'. split; [|done].
  unfold head_PopBack. rewrite (head_empty_ok _ _ _ _ _ (rp_shape _ _ HR) Hc). cbn [obind]. rewrite bool_decide_eq_false_2 by (by destruct l). cbn [negb CHECK obind].
  rewrite (head_last _ _ _ _ _ (rp_shape _ _ HR) Hc _ _ _ _ HG). cbn [obind]. by rewrite E.
Qed.

(** Popping an element and dropping the list's reference to it. *)
Lemma dropped (w : world) (a : abs) (c x : Z) (l : list Z) : rep w a → lists a !! c = Some (x :: l) →
  (effect (erase_effect a c x).1 (opRelease x)).1 = mkAbs (<[c := l]> (lists a)) (drop_ref (held a) x).
Proof.
  intros HR Hc. destruct (elems_split w a c x HR) as (l1 & l2 & El & Hn & Ew); [by eexists|unfold elems; rewrite Hc; left|].
  assert (Hw : without x (elems a c) = l).
  { unfold elems, without. rewrite Hc. change (default [] (Some (x :: l))) with (x :: l). rewrite filter_cons_False by tauto. apply filter_all. rewrite Forall_forall. intros y Hy ->.
    destruct (rg_ring _ _ (sh_rings _ _ _ (rp_shape _ _ HR)) _ _ Hc) as [HN _]. apply NoDup_cons in HN as [_ HN]. by apply NoDup_cons in HN as [? _]. }
  unfold erase_effect, effect. cbn [fst lists held]. rewrite Hw. f_equal.
  assert (Hl : listed (lists a) x) by (exists c, (x :: l); split; [done|left]).
  destruct (sh_elems _ _ _ (rp_shape _ _ HR) x Hl) as [r Hr]. rewrite (ct_ref _ _ _ (rp_counted _ _ HR)) in Hr. destruct (held a !! x) as [n|] eqn:Ex; [|done].
  assert (Hnl : ¬ listed (<[c := l]> (lists a)) x).
  { rewrite <- Hw, Ew. rewrite (listed_removed _ c x l1 l2 (rep_apart _ _ HR) El Hn). tauto. }
  rewrite lookup_alter_eq, Ex. cbn [fmap option_fmap option_map]. unfold drop_ref. rewrite Ex.
  rewrite (alter_is_insert _ _ _ _ Ex). destruct (decide (n = 0)) as [->|Hn0].
  - rewrite !decide_True by done. apply map_eq. intros y. destruct (decide (x = y)) as [<-|]; [by rewrite !lookup_delete_eq|by rewrite !lookup_delete_ne, lookup_insert_ne].
  - rewrite (decide_False (P := Some n = Some 0)) by congruence. rewrite decide_False by (intros [H1 _]; injection H1 as H1; lia).
    apply map_eq. intros y. destruct (decide (x = y)) as [<-|].
    + rewrite lookup_alter_eq, lookup_insert_eq. cbn. rewrite Ex. f_equal. lia.
    + by rewrite lookup_alter_ne, lookup_insert_ne.
Qed.

Lemma clear_rep (fuel : nat) (w : world) (a : abs) (c : Z) (l : list Z) : rep w a → lists a !! c = Some l → (length l ≤ fuel)%nat →
  ∃ w', list_Clear fuel w c = Ret w' ∧ rep w' (mkAbs (<[c := []]> (lists a)) (foldl drop_ref (held a) l)).
Proof.
  revert w a l. induction fuel as [|fuel IH]; intros w a l HR Hc Hf.
  all: cbn [list_Clear]; rewrite (head_empty_ok _ _ _ _ _ (rp_shape _ _ HR) Hc); cbn [obind].
  all: destruct l as [|x l]; [rewrite bool_decide_eq_true_2 by done; exists w; split; [done|]; rewrite insert_id by done; by destruct a|rewrite bool_decide_eq_false_2 by done].
  - cbn in Hf. lia.
  - destruct (pop_front_rep w a c x l HR Hc) as (w1 & E1 & HR1). rewrite E1. cbn [obind].
    assert (Hl : listed (lists a) x) by (exists c, (x :: l); split; [done|left]).
    destruct (sh_elems _ _ _ (rp_shape _ _ HR) x Hl) as [r Hr]. rewrite (ct_ref _ _ _ (rp_counted _ _ HR)) in Hr. destruct (held a !! x) as [n|] eqn:Ex; [|done].
    destruct (ct_live _ _ _ (rp_counted _ _ HR) _ _ Ex) as [Hn _].
    destruct (release_rep w1 _ x (n + 1) HR1) as (w2 & E2 & HR2); [cbn; rewrite lookup_alter_eq, Ex; done|lia|]. rewrite E2. cbn [obind].
    rewrite (dropped w a c x l HR Hc) in HR2. destruct (IH w2 _ l HR2) as (w' & E & HR'); [cbn; by rewrite lookup_insert_eq|cbn in Hf; lia|].
    exists w'. split; [done|]. cbn [lists held] in HR'. by rewrite insert_insert_eq in HR'.
Qed.

(** ** Walking *)

Lemma count_hooks_ok (w : world) (L : gmap Z (list Z)) (O : Z → Prop) (c : Z) (l1 l2 : list Z) (fuel : nat) (q : Z) (v : list Z) : shape w L O → L !! c = Some (l1 ++ l2) →
  l2 ++ [c] = q :: v → (length l2 ≤ fuel)%nat → count_hooks fuel w c q (Z.of_nat (length l1)) = Ret (Z.of_nat (length (l1 ++ l2))).
Proof.
  intros HS. revert l1 fuel q v. induction l2 as [|x l2 IH]; intros l1 fuel q v Hc Eq Hf.
  - injection Eq as <- _. rewrite app_nil_r. destruct fuel; cbn; by rewrite Z.eqb_refl.
  - injection Eq as <- Ev. destruct fuel as [|fuel]; [cbn in Hf; lia|]. cbn [count_hooks].
    destruct (rg_ring _ _ (sh_rings _ _ _ HS) _ _ Hc) as [HN _]. apply NoDup_cons in HN as [HN _].
    destruct (Z.eqb_spec x c) as [->|_]; [exfalso; apply HN, elem_of_app; right; left|].
    destruct (gap_exists c (l1 ++ [x]) l2) as (u & p & q & v' & HG). pose proof (gp_left _ _ _ _ _ _ _ HG) as E. rewrite app_comm_cons in E. apply app_inj_tail in E as [_ <-].
    assert (El : l1 ++ x :: l2 = (l1 ++ [x]) ++ l2) by (by rewrite <- app_assoc).
    rewrite (proj1 (head_Next_ok w L O c _ HS Hc _ _ _ _ _ _ El HG)). cbn [obind]. pose proof (list_length_small _ _ _ _ _ HS Hc) as Hb.
    rewrite length_app in Hb. cbn [length] in Hb. rewrite u64_small by (unfold is_u64, u64_modulus; lia).
    replace (Z.of_nat (length l1) + 1) with (Z.of_nat (length (l1 ++ [x]))) by (rewrite length_app; cbn; lia). rewrite El in *.
    apply (IH _ fuel q v'); [done|apply (gp_right _ _ _ _ _ _ _ HG)|cbn in Hf; lia].
Qed.

Lemma reads_ok (w : world) (a : abs) (c : Z) (l : list Z) (fuel : nat) : rep w a → lists a !! c = Some l → (length l ≤ fuel)%nat →
  head_size w c = Ret (Z.of_nat (length l)) ∧ head_empty w c = Ret (bool_decide (l = [])) ∧ list_Begin w c = Ret (head l) ∧ list_Last w c = Ret (last l) ∧
  head_CheckSize fuel w c = Ret tt.
Proof.
  intros HR Hc Hf. pose proof (rp_shape _ _ HR) as HS. pose proof (head_empty_ok _ _ _ _ _ HS Hc) as He. pose proof (head_size_ok _ _ _ _ _ HS Hc) as Hs.
  destruct (gap_exists c [] l) as (u & p & q & v & HG). pose proof (head_first _ _ _ _ _ HS Hc _ _ _ _ HG) as Hfirst. pose proof (gp_right _ _ _ _ _ _ _ HG) as Eq.
  destruct (gap_exists c l []) as (u' & p' & q' & v' & HG'). pose proof (head_last _ _ _ _ _ HS Hc _ _ _ _ HG') as Hlast. pose proof (gp_left _ _ _ _ _ _ _ HG') as Ep.
  split_and!; [done|done| | |].
  - unfold list_Begin. rewrite He. cbn [obind]. rewrite Hfirst. destruct l as [|x l]; [done|]. injection Eq as <- _. done.
  - unfold list_Last. rewrite He. cbn [obind]. rewrite Hlast. destruct l as [|x l _] using rev_ind; [done|]. rewrite app_comm_cons in Ep. apply app_inj_tail in Ep as [_ <-].
    rewrite bool_decide_eq_false_2 by (by destruct l). by rewrite last_snoc.
  - unfold head_CheckSize. rewrite Hfirst. cbn [obind]. change 0 with (Z.of_nat (length (@nil Z))). rewrite (count_hooks_ok w _ _ c [] l fuel q v HS Hc Eq Hf). cbn [obind app].
    rewrite Hs. cbn [obind]. by rewrite Z.eqb_refl.
Qed.

(** ** Misuse *)

Lemma push_listed_aborts (w : world) (a : abs) (c x prev : Z) : rep w a → listed (lists a) x → head_InsertAfter w c prev x = Crash.
Proof.
  intros HR (d & k & Hd & Hx). unfold head_InsertAfter. rewrite (linked_not_empty _ _ _ _ (rg_ring _ _ (sh_rings _ _ _ (rp_shape _ _ HR)) _ _ Hd) Hx).
  unfold head_Next. destruct (hook (hooks w) prev) as [p| |] eqn:E; [|by unfold hook in E; destruct (hooks w !! prev)|done]. cbn [obind]. by destruct (next_ p).
Qed.

Lemma push_misuse (w : world) (a : abs) (c x : Z) : rep w a → listed (lists a) x → head_PushBack w c x = Crash ∧ head_PushFront w c x = Crash.
Proof.
  intros HR Hx. split; [|by apply (push_listed_aborts w a)]. unfold head_PushBack, head_Prev. destruct (hook (hooks w) c) as [k| |] eqn:E; [|by unfold hook in E; destruct (hooks w !! c)|done].
  cbn [obind]. destruct (prev_ k); [|done]. cbn [obind deref]. by apply (push_listed_aborts w a).
Qed.

Lemma erase_misuse (w : world) (a : abs) (c x : Z) : rep w a → is_Some (lists a !! c) → is_Some (held a !! x) → ¬ listed (lists a) x → head_Erase w c x = Crash.
Proof.
  intros HR [l Hc] Hx Hn. pose proof (rp_shape _ _ HR) as HS. unfold head_Erase. rewrite (head_size_ok _ _ _ _ _ HS Hc). cbn [obind].
  destruct (0 <? _); [|done]. cbn [CHECK obind]. destruct (negb (x =? c)); [|done]. cbn [CHECK obind].
  destruct (sh_free _ _ _ HS x) as [Hnx Hpx]; [|done|by rewrite (free_empty _ _ Hnx Hpx)]. unfold objects. rewrite (ct_ref _ _ _ (rp_counted _ _ HR)). by apply fmap_is_Some.
Qed.

(** ** Histories *)

Fixpoint run_ops (fuel : nat) (w : world) (ops : list list_op) : outcome (world * list (option Z)) :=
  match ops with
  | [] => Ret (w, [])
  | o :: ops => let* (w, r) := run_op fuel w o in let* (w, rs) := run_ops fuel w ops in Ret (w, r :: rs)
  end.
Fixpoint effects (a : abs) (ops : list list_op) : abs * list (option Z) :=
  match ops with
  | [] => (a, [])
  | o :: ops => let '(a, r) := effect a o in let '(a, rs) := effects a ops in (a, r :: rs)
  end.
Fixpoint all_allowed (fuel : nat) (a : abs) (ops : list list_op) : Prop :=
  match ops with
  | [] => True
  | o :: ops => allowed fuel a o ∧ all_allowed fuel (effect a o).1 ops
  end.

(** Empty lists in the containers [cs], and no objects. *)
Definition init_world (cs : list Z) : world := mkWorld (foldr (λ c h, hook_Clear h c) ∅ cs) (foldr (λ c m, <[c := 0]> m) ∅ cs) ∅.
Definition init_abs (cs : list Z) : abs := mkAbs (foldr (λ c m, <[c := []]> m) ∅ cs) ∅.

Lemma init_rep (cs : list Z) : Forall is_u64 cs → rep (init_world cs) (init_abs cs).
Proof.
  intros Hcs. assert (HL : ∀ c, lists (init_abs cs) !! c = (if decide (c ∈ cs) then Some [] else None) ∧ size_ (init_world cs) !! c = (if decide (c ∈ cs) then Some 0 else None) ∧
    hooks (init_world cs) !! c = (if decide (c ∈ cs) then Some (mkHook (Some c) (Some c)) else None)).
  { intros c. cbn. clear Hcs. induction cs as [|d cs IH]; [done|]. cbn [foldr]. unfold hook_Clear at 1. destruct (decide (d = c)) as [->|Hne].
    - rewrite !lookup_insert_eq. by rewrite !decide_True by left.
    - rewrite !lookup_insert_ne by done. assert (Hiff : c ∈ d :: cs ↔ c ∈ cs) by (rewrite elem_of_cons; naive_solver).
      destruct IH as (-> & -> & ->). by destruct (decide (c ∈ cs)), (decide (c ∈ d :: cs)); try tauto. }
  assert (Hnil : ∀ c l, lists (init_abs cs) !! c = Some l → l = [] ∧ c ∈ cs) by (intros c l; rewrite (proj1 (HL c)); case_decide; [by intros [= <-]|done]).
  assert (Hnl : ∀ x, ¬ listed (lists (init_abs cs)) x) by (intros x (c & l & [-> _]%Hnil & Hx); by apply elem_of_nil in Hx).
  split; [split|].
  - split.
    + intros c l [-> Hc]%Hnil. split; [apply NoDup_singleton|]. cbn [app ll]. unfold link, nxt, prv. destruct (HL c) as (_ & _ & ->). by rewrite decide_True.
    + intros c d l k [-> _]%Hnil [-> _]%Hnil Hne x ->%list_elem_of_singleton ?%list_elem_of_singleton. done.
  - intros c l [-> Hc]%Hnil. destruct (HL c) as (_ & -> & _). by rewrite decide_True.
  - by intros x ?%Hnl.
  - intros c _ [? ?]. done.
  - by intros x [? ?].
  - intros x. destruct (HL x) as (_ & _ & ->). case_decide as Hx; [|by intros [? ?]]. rewrite Forall_forall in Hcs. by intros _; apply Hcs.
  - split; [done|]. intros x n. cbn. by rewrite lookup_empty.
Qed.

Lemma push_back_rep (w : world) (a : abs) (c x : Z) (l : list Z) : rep w a → lists a !! c = Some l → ¬ listed (lists a) x → is_Some (held a !! x) →
  ∃ w1, head_PushBack w c x = Ret w1 ∧
    (∀ n, held a !! x = Some n → n + 1 < 2 ^ 31 → ∃ w', IncreaseRef w1 x = Ret w' ∧ rep w' (mkAbs (<[c := l ++ [x]]> (lists a)) (held a))) ∧
    (is_Some (held a !! x) → rep w1 (mkAbs (<[c := l ++ [x]]> (lists a)) (alter (λ n, n - 1) x (held a)))).
Proof.
  intros HR Hc Hx Hh. pose proof (rp_shape _ _ HR) as HS. assert (HO : objects w x) by (unfold objects; rewrite (ct_ref _ _ _ (rp_counted _ _ HR)); by apply fmap_is_Some).
  unfold head_PushBack. destruct (gap_exists c l []) as (u & p & q & v & HG). rewrite (head_last _ _ _ _ _ HS Hc _ _ _ _ HG). cbn [obind].
  assert (Hc' : lists a !! c = Some (l ++ [])) by (by rewrite app_nil_r). destruct (insert_shape w _ _ c x l [] u p q v HS Hc' HG HO Hx) as (w1 & E1 & R1 & HS1).
  exists w1. split; [done|]. by apply (insert_rep w w1 a c x l []).
Qed.

Lemma push_front_rep (w : world) (a : abs) (c x : Z) (l : list Z) : rep w a → lists a !! c = Some l → ¬ listed (lists a) x → is_Some (held a !! x) →
  ∃ w1, head_PushFront w c x = Ret w1 ∧
    (∀ n, held a !! x = Some n → n + 1 < 2 ^ 31 → ∃ w', IncreaseRef w1 x = Ret w' ∧ rep w' (mkAbs (<[c := x :: l]> (lists a)) (held a))) ∧
    (is_Some (held a !! x) → rep w1 (mkAbs (<[c := x :: l]> (lists a)) (alter (λ n, n - 1) x (held a)))).
Proof.
  intros HR Hc Hx Hh. pose proof (rp_shape _ _ HR) as HS. assert (HO : objects w x) by (unfold objects; rewrite (ct_ref _ _ _ (rp_counted _ _ HR)); by apply fmap_is_Some).
  unfold head_PushFront. destruct (gap_exists c [] l) as (u & p & q & v & HG). pose proof (gp_left _ _ _ _ _ _ _ HG) as E. destruct u as [|? [|]]; [injection E as <-|done..].
  destruct (insert_shape w _ _ c x [] l [] c q v HS Hc HG HO Hx) as (w1 & E1 & R1 & HS1). exists w1. split; [done|]. by apply (insert_rep w w1 a c x [] l).
Qed.

Lemma op_refines (fuel : nat) (w : world) (a : abs) (o : list_op) : rep w a → allowed fuel a o → ∃ w', run_op fuel w o = Ret (w', (effect a o).2) ∧ rep w' (effect a o).1.
Proof.
  intros HR Ho. pose proof (rp_shape _ _ HR) as HS. destruct o as [c x|c x|c x|c x|c x|c|c|c x d|c x d|c d|c|x|x|x]; cbn [run_op allowed] in *.
  - destruct Ho as (Hc & Hx & n & Hn & Hb). apply elems_of in Hc. destruct (push_back_rep w a c x _ HR Hc Hx) as (w1 & E1 & Hi & _); [by eexists|].
    destruct (Hi n Hn Hb) as (w' & E2 & HR'). unfold list_PushBack. rewrite E1. cbn [obind]. rewrite E2. by exists w'.
  - destruct Ho as (Hc & Hx & n & Hn & Hb). apply elems_of in Hc. destruct (push_front_rep w a c x _ HR Hc Hx) as (w1 & E1 & Hi & _); [by eexists|].
    destruct (Hi n Hn Hb) as (w' & E2 & HR'). unfold list_PushFront. rewrite E1. cbn [obind]. rewrite E2. by exists w'.
  - destruct Ho as (Hc & Hx & Hh). apply elems_of in Hc. destruct (push_back_rep w a c x _ HR Hc Hx Hh) as (w1 & E1 & _ & Hi).
    unfold list_EmplaceBack. cbn [deref obind]. rewrite E1. exists w1. split; [done|]. by apply Hi.
  - destruct Ho as (Hc & Hx & Hh). apply elems_of in Hc. destruct (push_front_rep w a c x _ HR Hc Hx Hh) as (w1 & E1 & _ & Hi).
    unfold list_EmplaceFront. cbn [deref obind]. rewrite E1. exists w1. split; [done|]. by apply Hi.
  - destruct Ho as [Hc Hx]. destruct (erase_rep w a c x HR Hc Hx) as (w' & E & HR'). exists w'. unfold list_Erase. by rewrite E.
  - apply elems_of in Ho. unfold list_PopBack. rewrite (head_empty_ok _ _ _ _ _ HS Ho). cbn [obind effect]. destruct (elems a c) as [|x l _] using rev_ind; [by exists w|].
    rewrite bool_decide_eq_false_2 by (by destruct l). rewrite last_snoc. destruct (pop_back_rep w a c x l HR Ho) as (w' & E & HR'). exists w'. by rewrite E.
  - apply elems_of in Ho. unfold list_PopFront. rewrite (head_empty_ok _ _ _ _ _ HS Ho). cbn [obind effect]. destruct (elems a c) as [|x l]; [by exists w|].
    rewrite bool_decide_eq_false_2 by done. cbn [head]. destruct (pop_front_rep w a c x l HR Ho) as (w' & E & HR'). exists w'. by rewrite E.
  - destruct Ho as (Hc & Hd & Hcd & Hx). destruct (elems_split w a c x HR Hc Hx) as (l1 & l2 & El & Hn & Ew). apply elems_of in Hd.
    destruct (move_back_shape w _ _ c d x l1 l2 _ HS El Hd Hcd) as (w' & E & R & HS'). exists w'. rewrite E. split; [done|]. cbn [effect fst]. rewrite Ew.
    apply (move_rep w w' a c d x l1 l2 (elems a d) []); [done|done|done|done|by rewrite app_nil_r|done|done].
  - destruct Ho as (Hc & Hd & Hcd & Hx). destruct (elems_split w a c x HR Hc Hx) as (l1 & l2 & El & Hn & Ew). apply elems_of in Hd.
    destruct (move_front_shape w _ _ c d x l1 l2 _ HS El Hd Hcd) as (w' & E & R & HS'). exists w'. rewrite E. split; [done|]. cbn [effect fst]. rewrite Ew.
    by apply (move_rep w w' a c d x l1 l2 [] (elems a d)).
  - destruct Ho as (Hc & Hd & Hcd). apply elems_of in Hc, Hd. destruct (move_all_shape w _ _ c d _ _ HS Hc Hd Hcd) as (w' & E & R & HS'). exists w'. rewrite E. split; [done|].
    split; cbn; [eapply shape_change; [done|done| |exact HS']; intros y; unfold objects; by rewrite R|]. rewrite R. apply (counted_move _ (lists a)); [apply HR|].
    by apply (all_moved_listed w _ _ c d _ _ HS Hc Hd).
  - destruct Ho as [Hc Hf]. apply elems_of in Hc. destruct (clear_rep fuel w a c _ HR Hc Hf) as (w' & E & HR'). exists w'. by rewrite E.
  - destruct Ho as (n & Hn & Hb). destruct (share_rep w a x n HR Hn Hb) as (w' & E & HR'). exists w'. cbn. by rewrite E.
  - destruct Ho as (n & Hn & Hb). destruct (release_rep w a x n HR Hn Hb) as (w' & E & HR'). exists w'. unfold shared_Reset, shared_Clear. by rewrite E.
  - destruct Ho as (Hx & Hc & Ha). destruct (make_rep w a x HR Hx Hc Ha) as (w' & E & HR'). exists w'. by rewrite E.
Qed.

Lemma ops_refine (fuel : nat) (ops : list list_op) : ∀ w a, rep w a → all_allowed fuel a ops →
  ∃ w', run_ops fuel w ops = Ret (w', (effects a ops).2) ∧ rep w' (effects a ops).1.
Proof.
  induction ops as [|o ops IH]; intros w a HR Ho; [by exists w|]. destruct Ho as [Ho Hos]. destruct (op_refines fuel w a o HR Ho) as (w1 & E1 & HR1).
  cbn [run_ops effects]. rewrite E1. cbn [obind]. destruct (effect a o) as [a1 r]. cbn in *. destruct (IH w1 a1 HR1 Hos) as (w' & E & HR'). rewrite E. cbn [obind].
  destruct (effects a1 ops) as [a2 rs]. by exists w'.
Qed.

(** C14 Intrusive lists implement sequences of counted objects: from empty lists, every history
    of allowed operations (pushing, popping, erasing, moving one or all elements between
    lists, clearing, sharing and releasing pointers, making objects) runs to its end without
    an abort, returns the elements that the operations on sequences return and leads to
    hooks, sizes and counts that represent the resulting sequences.  There, the size, the
    ends and the emptiness of every list are those of its sequence, the count of an object
    is the number of pointers to it plus one for its list, and no object that a list or a
    pointer refers to has been deleted; pushing an element of a list and erasing an element
    of no list abort. *)
Theorem intrusive_lists_implement_sequences (fuel : nat) (cs : list Z) (ops : list list_op) (Hcs : Forall is_u64 cs) (Hops : all_allowed fuel (init_abs cs) ops) :
  ∃ w, let a := (effects (init_abs cs) ops).1 in
    run_ops fuel (init_world cs) ops = Ret (w, (effects (init_abs cs) ops).2) ∧
    (∀ c l, lists a !! c = Some l → (length l ≤ fuel)%nat →
      head_size w c = Ret (Z.of_nat (length l)) ∧ head_empty w c = Ret (bool_decide (l = [])) ∧ list_Begin w c = Ret (head l) ∧ list_Last w c = Ret (last l) ∧
      head_CheckSize fuel w c = Ret tt) ∧
    (∀ x, ref_cnt_ w !! x = (λ n, n + in_list (lists a) x) <$> held a !! x) ∧
    (∀ x, listed (lists a) x → is_Some (held a !! x)) ∧
    (∀ c x, listed (lists a) x → head_PushBack w c x = Crash ∧ head_PushFront w c x = Crash) ∧
    (∀ c x, is_Some (lists a !! c) → is_Some (held a !! x) → ¬ listed (lists a) x → head_Erase w c x = Crash).
Proof.
  destruct (ops_refine fuel ops _ _ (init_rep cs Hcs) Hops) as (w & E & HR). exists w. cbn zeta. split_and!; [done| | | | |].
  - intros c l Hc Hl. by apply (reads_ok w _ c l fuel HR).
  - apply (ct_ref _ _ _ (rp_counted _ _ HR)).
  - intros x Hx. destruct (sh_elems _ _ _ (rp_shape _ _ HR) x Hx) as [r Hr]. rewrite (ct_ref _ _ _ (rp_counted _ _ HR)) in Hr. by apply fmap_Some in Hr as (n & ? & _).
  - intros c x Hx. by eapply push_misuse.
  - intros c x Hc Hx Hn. by eapply erase_misuse.
Qed.

#[global] Instance some_dec {A : Type} (o : option A) (P : A → Prop) `{∀ x, Decision (P x)} : Decision (∃ n, o = Some n ∧ P n).
Proof.
  destruct o as [n|]; [|right; by intros (n & ? & _)]. destruct (decide (P n)) as [Hn|Hn]; [left; by exists n|right]. by intros (m & [= ->] & ?).
Defined.
#[global] Instance allowed_dec (fuel : nat) (a : abs) (o : list_op) : Decision (allowed fuel a o).
Proof. destruct o; cbn [allowed]; apply _. Defined.
#[global] Instance all_allowed_dec (fuel : nat) (ops : list list_op) : ∀ a, Decision (all_allowed fuel a ops).
Proof. induction ops as [|o ops IH]; intros a; cbn [all_allowed]; apply _. Defined.

(** Object 1 moves to the second list and leaves it; object 2 is deleted with the first. *)
Lemma intrusive_lists_witness :
  let ops := [opMake 1; opMake 2; opPushBack 100 1; opEmplaceBack 100 2; opMoveFront 100 1 200; opRelease 1; opPopFront 200; opClear 100] in
  all_allowed 3 (init_abs [100; 200]) ops ∧ (effects (init_abs [100; 200]) ops).2 = [Some 1; Some 2; None; None; None; None; Some 1; None] ∧
  map_to_list (held (effects (init_abs [100; 200]) ops).1) = [(1, 1)] ∧
  ∃ w, let a := (effects (init_abs [100; 200]) ops).1 in
    run_ops 3 (init_world [100; 200]) ops = Ret (w, (effects (init_abs [100; 200]) ops).2) ∧
    (∀ c l, lists a !! c = Some l → (length l ≤ 3)%nat →
      head_size w c = Ret (Z.of_nat (length l)) ∧ head_empty w c = Ret (bool_decide (l = [])) ∧ list_Begin w c = Ret (head l) ∧ list_Last w c = Ret (last l) ∧
      head_CheckSize 3 w c = Ret tt) ∧
    (∀ x, ref_cnt_ w !! x = (λ n, n + in_list (lists a) x) <$> held a !! x) ∧
    (∀ x, listed (lists a) x → is_Some (held a !! x)) ∧
    (∀ c x, listed (lists a) x → head_PushBack w c x = Crash ∧ head_PushFront w c x = Crash) ∧
    (∀ c x, is_Some (lists a !! c) → is_Some (held a !! x) → ¬ listed (lists a) x → head_Erase w c x = Crash).
Proof.
  intros ops. assert (Ha : all_allowed 3 (init_abs [100; 200]) ops) by (apply (bool_decide_unpack _); vm_compute; done).
  split; [done|]. split; [vm_compute; done|]. split; [vm_compute; done|].
  apply (intrusive_lists_implement_sequences 3 [100; 200] ops); [repeat constructor; done|done].
Defined.
