(* ===== verification/SkipList.v ===== *)
(** * Intrusive skip lists

    Models [oneflow/core/intrusive/skiplist_hook.h] ([ListHookArray], [SkipListHook],
    [SkipListHead]).

    An element is a number; its hook of level [i] has the address [(x, i)], so pointer
    arithmetic within an array of hooks changes the level.  [head] is the number of the
    list's own array.  The key type and its comparisons are arguments.  The answers of the
    random number generator are a list of booleans ([true] for an even number, a list that
    ends answers odd).  Loops that follow pointers run on fuel; running out is an abort.
    [size_shift] is the integer logarithm that the code computes in floating point. *)
From S2P Require Import Prelude ListHook.

Section SkipLists.
Context {K : Type} (key_lt key_eq : K → K → bool).
Context (N : nat) (head : Z).

Abbreviation addr := (Z * nat)%type.
Abbreviation heap := (gmap (Z * nat) (ListHook (Z * nat))).

Record skiplist := mkSkip { hooks_ : heap; key_ : gmap Z K; skip_size_ : Z }.

Definition key_of (s : skiplist) (x : Z) : outcome K := match key_ s !! x with Some k => Ret k | None => Crash end.

(** An address that is taken for a hook of [level] has to be one. *)
Definition ThisPtr4HookPtr (a : addr) (level : nat) : outcome Z := let* _ := CHECK (Nat.eqb a.2 level) in Ret a.1.
Definition above (a : addr) : addr := (a.1, S a.2).
Definition below (a : addr) : outcome addr := match a.2 with O => Crash | S l => Ret (a.1, l) end.

(** ** [ListHookArray] *)

Definition array_NullptrClear (h : heap) (x : Z) : heap := foldr (λ i h, hook_NullptrClear h (x, i)) h (seq 0 N).
Definition array_Clear (h : heap) (x : Z) : heap := foldr (λ i h, hook_Clear h (x, i)) h (seq 0 N).

(** The loop that goes back to a hook that is in use. *)
Fixpoint climb (fuel : nat) (h : heap) (prev_hook : addr) : outcome addr :=
  let* e := nullptr_empty h prev_hook in
  if negb e then Ret prev_hook else
  match fuel with
  | O => Crash
  | S fuel =>
      let* low := below prev_hook in
      let* k := hook h low in
      let* p := deref (prev_ k) in
      climb fuel h (above p)
  end.

Fixpoint insert_levels (fuel : nat) (h : heap) (x : Z) (prev_hook : addr) (i levels : nat) : outcome heap :=
  match levels with
  | O => Ret h
  | S levels =>
      let* prev_hook := climb fuel h prev_hook in
      let* h := InsertAfter h (x, i) prev_hook in
      insert_levels fuel h x (above prev_hook) (S i) levels
  end.

Definition array_InsertAfter (fuel : nat) (h : heap) (x prev : Z) (levels : nat) : outcome heap :=
  let* e := nullptr_empty h (x, 0%nat) in
  let* _ := CHECK e in
  insert_levels fuel h x (prev, 0%nat) 0 levels.

Fixpoint erase_levels (h : heap) (x : Z) (i count : nat) : outcome heap :=
  match count with
  | O => Ret h
  | S count =>
      let* e := nullptr_empty h (x, i) in
      if e then Ret h else
      let* k := hook h (x, i) in
      let* next := deref (next_ k) in
      let* prev := deref (prev_ k) in
      let* h := AppendTo h next prev in
      erase_levels (hook_NullptrClear h (x, i)) x (S i) count
  end.
Definition array_Erase (h : heap) (x : Z) : outcome heap := erase_levels h x 0 N.

(** ** [SkipListHook] *)

Fixpoint search_level (fuel : nat) (s : skiplist) (key : K) (level : nat) (list_hook : addr) : outcome addr :=
  let* k := hook (hooks_ s) list_hook in
  let* next := deref (next_ k) in
  if bool_decide (next = (head, level)) then Ret list_hook else
  let* x := ThisPtr4HookPtr next level in
  let* key' := key_of s x in
  if negb (key_lt key' key) then Ret list_hook else
  match fuel with
  | O => Crash
  | S fuel => search_level fuel s key level next
  end.

Fixpoint search_down (fuel : nat) (s : skiplist) (key : K) (levels : nat) (list_hook : addr) : outcome addr :=
  match levels with
  | O => Ret list_hook
  | S level =>
      let* list_hook := below list_hook in
      let* list_hook := search_level fuel s key level list_hook in
      search_down fuel s key level list_hook
  end.

Definition SearchLastBottomHookLessThan (fuel : nat) (s : skiplist) (key : K) (size_shift : nat) : outcome addr :=
  let max_num_level := Nat.min size_shift N in
  search_down fuel s key max_num_level (head, max_num_level).

Definition next_of (h : heap) (a : addr) : outcome addr := let* k := hook h a in deref (next_ k).

Definition hook_Find (fuel : nat) (s : skiplist) (key : K) (size_shift : nat) : outcome (option Z) :=
  let* last_hook_less_than_key := SearchLastBottomHookLessThan fuel s key size_shift in
  let* next := next_of (hooks_ s) last_hook_less_than_key in
  if bool_decide (next = (head, 0%nat)) then Ret None else
  let* searched := ThisPtr4HookPtr next 0 in
  let* key' := key_of s searched in
  Ret (if key_eq key' key then Some searched else None).

Fixpoint count_levels (coins : list bool) (i max_num_levels num_levels : nat) : nat :=
  match coins with
  | true :: coins => if Nat.ltb i max_num_levels then count_levels coins (S i) max_num_levels (S num_levels) else num_levels
  | _ => num_levels
  end.
Definition RandomNumLevels (coins : list bool) (size_shift : nat) : nat := count_levels coins 1 (Nat.min size_shift N) 1.

Definition with_array (s : skiplist) (h : heap) : skiplist := mkSkip h (key_ s) (skip_size_ s).

Definition hook_Insert (fuel : nat) (coins : list bool) (s : skiplist) (elem : Z) (size_shift : nat) : outcome (skiplist * Z * bool) :=
  let* key := key_of s elem in
  let* prev_list_hook := SearchLastBottomHookLessThan fuel s key size_shift in
  let* next := next_of (hooks_ s) prev_list_hook in
  let* maybe_searched := if bool_decide (next = (head, 0%nat)) then Ret None else let* x := ThisPtr4HookPtr next 0 in Ret (Some x) in
  let* found := match maybe_searched with None => Ret None | Some x => let* key' := key_of s x in Ret (if key_eq key' key then Some x else None) end in
  match found with
  | Some x => Ret (s, x, false)
  | None =>
      let* prev := ThisPtr4HookPtr prev_list_hook 0 in
      let* h := array_InsertAfter fuel (hooks_ s) elem prev (RandomNumLevels coins size_shift) in
      Ret (with_array s h, elem, true)
  end.

(** ** [SkipListHead] *)

Definition size_shift (s : skiplist) : nat := Z.to_nat (Z.log2 (skip_size_ s + 1)).
Definition add_skip_size (s : skiplist) (d : Z) : skiplist := mkSkip (hooks_ s) (key_ s) (u64 (skip_size_ s + d)).

Definition skip_Init (s : skiplist) : skiplist := mkSkip (array_Clear (hooks_ s) head) (key_ s) 0.
(** A new element: its hooks are null, its key is set. *)
Definition elem_Init (s : skiplist) (x : Z) (key : K) : skiplist := mkSkip (array_NullptrClear (hooks_ s) x) (<[x := key]> (key_ s)) (skip_size_ s).

Definition skip_Begin (s : skiplist) : outcome (option Z) :=
  let* begin := next_of (hooks_ s) (head, 0%nat) in
  if bool_decide (begin = (head, 0%nat)) then Ret None else let* x := ThisPtr4HookPtr begin 0 in Ret (Some x).

Definition skip_Find (fuel : nat) (s : skiplist) (key : K) : outcome (option Z) := hook_Find fuel s key (size_shift s).

Definition skip_Erase (s : skiplist) (elem : Z) : outcome skiplist :=
  let* h := array_Erase (hooks_ s) elem in Ret (add_skip_size (with_array s h) (-1)).
Definition skip_EraseKey (fuel : nat) (s : skiplist) (key : K) : outcome (skiplist * Z) :=
  let* searched := hook_Find fuel s key (size_shift s) in
  match searched with
  | None => Crash
  | Some x => let* s := skip_Erase s x in Ret (s, x)
  end.

Definition skip_Insert (fuel : nat) (coins : list bool) (s : skiplist) (elem : Z) : outcome (skiplist * Z * bool) :=
  let* (s, ret_elem, success) := hook_Insert fuel coins s elem (size_shift s) in
  Ret (if success then add_skip_size s 1 else s, ret_elem, success).

(** [CheckEmpty] of the head. *)
Fixpoint check_empty (h : heap) (levels : list nat) : outcome unit :=
  match levels with
  | [] => Ret tt
  | i :: levels => let* e := hook_empty h (head, i) in let* _ := CHECK e in check_empty h levels
  end.

(** The elements given to the callback, in order. *)
Fixpoint skip_Clear (fuel : nat) (s : skiplist) : outcome (skiplist * list Z) :=
  let finish := let* _ := if skip_size_ s =? 0 then check_empty (hooks_ s) (seq 0 N) else Ret tt in let* _ := CHECK (skip_size_ s =? 0) in Ret (s, []) in
  if negb (0 <? skip_size_ s) then finish else
  match fuel with
  | O => Crash
  | S fuel =>
      let* begin_list_hook := next_of (hooks_ s) (head, 0%nat) in
      let* begin := ThisPtr4HookPtr begin_list_hook 0 in
      if begin =? head then finish else
      let* h := array_Erase (hooks_ s) begin in
      let* (s, l) := skip_Clear fuel (add_skip_size (with_array s h) (-1)) in
      Ret (s, begin :: l)
  end.
End SkipLists.

(** ** Example: keys in any order, three levels *)

Module SkipDemo.
Definition s0 : skiplist (K := Z) :=
  foldl (λ s p, elem_Init 3 s p.1 p.2) (skip_Init 3 0 (mkSkip ∅ ∅ 0)) [(1, 30); (2, 10); (3, 20); (4, 10)].
Definition insert (coins : list bool) (s : skiplist) (x : Z) := skip_Insert Z.ltb Z.eqb 3 0 9 coins s x.
End SkipDemo.

Example skip_demo :
  (let* (s, a, b1) := SkipDemo.insert [] SkipDemo.s0 1 in
   let* (s, a, b2) := SkipDemo.insert [] s 2 in
   let* (s, a, b3) := SkipDemo.insert [true; true] s 3 in
   let* (s, a, b4) := SkipDemo.insert [true] s 4 in
   let* f1 := skip_Find Z.ltb Z.eqb 3 0 9 s 20 in
   let* f2 := skip_Find Z.ltb Z.eqb 3 0 9 s 25 in
   let* (s, e) := skip_EraseKey Z.ltb Z.eqb 3 0 9 s 10 in
   let* (s, l) := skip_Clear 3 0 9 s in
   Ret ([b1; b2; b3; b4], a, f1, f2, e, l, skip_size_ s)) = Ret ([true; true; true; false], 2, Some 3, None, 2, [3; 1], 0).
Proof. vm_compute. done. Qed.
