(* ===== verification/SkipListSpec.v ===== *)
(** * Skip lists implement ordered sets

    Whatever levels the random numbers give to the elements, the list of every level holds
    the elements that reach it in the order of their keys, and the operations find, insert
    and remove by key. *)
From stdpp Require Import sorting.
From S2P Require Import Prelude ListHook SkipList.

Lemma count_levels_bounds (coins : list bool) (i m n : nat) : (n ≤ i)%nat → (n ≤ count_levels coins i m n ≤ n + (m - i))%nat.
Proof.
  revert i n. induction coins as [|[] coins IH]; intros i n Hn; cbn [count_levels]; [lia| |lia]. destruct (Nat.ltb_spec i m); [|lia].
  specialize (IH (S i) (S n)). lia.
Qed.

Section Spec.
Context {K : Type} (key_lt key_eq : K → K → bool) (N : nat) (head : Z).
Context (lt_irrefl : ∀ a, key_lt a a = false) (lt_trans : ∀ a b c, key_lt a b = true → key_lt b c = true → key_lt a c = true).
Context (lt_total : ∀ a b, key_lt a b = false → key_lt b a = false → a = b) (eq_spec : ∀ a b, key_eq a b = true ↔ a = b).
Context (HN : (0 < N)%nat).

Notation skip := (skiplist (K := K)).
Implicit Types (s : skip) (l a b : list Z) (ht : Z → nat).

(** The elements of level [i]. *)
Definition up ht (i : nat) l : list Z := filter (λ x, (i < ht x)%nat) l.
Definition at_level (i : nat) l : list (Z * nat) := map (λ x, (x, i)) l.
(** The last element before a place, or the head. *)
Definition lastn l : Z := default head (last l).
Definition firstn_ l : Z := default head (list.head l).

Definition less s (x : Z) (k : K) : Prop := ∃ kx, key_ s !! x = Some kx ∧ key_lt kx k = true.
Definition not_less s (x : Z) (k : K) : Prop := ∃ kx, key_ s !! x = Some kx ∧ key_lt kx k = false.
Definition before s (x y : Z) : Prop := ∃ ky, key_ s !! y = Some ky ∧ less s x ky.

Record skip_ok s l ht : Prop := mkSkipOk {
  so_sorted : StronglySorted (before s) l;
  so_keys : ∀ x, x ∈ l → is_Some (key_ s !! x);
  so_head : key_ s !! head = None;
  so_ht : ∀ x, x ∈ l → (1 ≤ ht x ≤ N)%nat;
  so_ring : ∀ i, (i < N)%nat → ring (hooks_ s) (head, i) (at_level i (up ht i l));
  so_null : ∀ x i, is_Some (key_ s !! x) → (i < N)%nat → x ∉ l ∨ (ht x ≤ i)%nat → hooks_ s !! (x, i) = Some (mkHook None None);
  so_size : skip_size_ s = Z.of_nat (length l);
  so_addr : ∀ x, x = head ∨ is_Some (key_ s !! x) → is_u64 x
}.

(** ** Levels *)

Lemma lastn_snoc l (x : Z) : lastn (l ++ [x]) = x.
Proof. unfold lastn. by rewrite last_snoc. Qed.

Lemma up_app ht i l k : up ht i (l ++ k) = up ht i l ++ up ht i k.
Proof. apply filter_app. Qed.
Lemma elem_up ht i l (x : Z) : x ∈ up ht i l ↔ (i < ht x)%nat ∧ x ∈ l.
Proof. unfold up. by rewrite list_elem_of_filter. Qed.
Lemma up_zero ht l : (∀ x, x ∈ l → (1 ≤ ht x)%nat) → up ht 0 l = l.
Proof. intros H. apply filter_all. rewrite Forall_forall. intros x ?%H. lia. Qed.
Lemma last_map (i : nat) l : default (head, i) (last (at_level i l)) = (lastn l, i).
Proof. unfold at_level, lastn. rewrite fmap_last. by destruct (last l). Qed.
Lemma head_map (i : nat) l : default (head, i) (list.head (at_level i l)) = (firstn_ l, i).
Proof. unfold at_level, firstn_. by destruct l. Qed.

Lemma level_link (h : gmap (Z * nat) (ListHook (Z * nat))) (i : nat) a b : ring h (head, i) (at_level i (a ++ b)) → link h (lastn a, i) (firstn_ b, i).
Proof. unfold at_level. rewrite map_app. intros HR%ring_link. fold (at_level i a) (at_level i b) in HR. by rewrite last_map, head_map in HR. Qed.

Lemma level_next (h : gmap (Z * nat) (ListHook (Z * nat))) (i : nat) a b : ring h (head, i) (at_level i (a ++ b)) → next_of h (lastn a, i) = Ret (firstn_ b, i).
Proof. intros [Hn _]%level_link. unfold next_of, hook, nxt in *. destruct (h !! (lastn a, i)); [|done]. cbn in *. by rewrite Hn. Qed.

(** The last element of level [i + 1] is an element of level [i]. *)
Lemma lower_level ht i l : ∃ c d, up ht i l = c ++ d ∧ lastn c = lastn (up ht (S i) l).
Proof.
  destruct (up ht (S i) l) as [|x k _] eqn:E using rev_ind; [by exists [], (up ht i l)|].
  assert (Hx : x ∈ up ht i l) by (assert (Hx : x ∈ up ht (S i) l) by (rewrite E; apply elem_of_app; right; left); rewrite elem_up in *; split; [lia|tauto]).
  apply list_elem_of_split in Hx as (c & d & Hcd). exists (c ++ [x]), d. rewrite !lastn_snoc. split; [by rewrite <- app_assoc|done].
Qed.

(** ** Order *)

Lemma sorted_split s l (k : K) : StronglySorted (before s) l → (∀ x, x ∈ l → is_Some (key_ s !! x)) →
  ∃ a b, l = a ++ b ∧ (∀ x, x ∈ a → less s x k) ∧ (∀ x, x ∈ b → not_less s x k).
Proof.
  induction l as [|x l IH]; intros Hs Hk; [exists [], []; split_and!; [done|by intros x ?%elem_of_nil..]|]. apply StronglySorted_inv in Hs as [Hs Hx].
  destruct (Hk x) as [kx Ex]; [left|]. destruct (key_lt kx k) eqn:El.
  - destruct IH as (a & b & -> & Ha & Hb); [done|intros y Hy; apply Hk; by right|]. exists (x :: a), b. split_and!; [done| |done].
    intros y [->|Hy]%elem_of_cons; [by exists kx|by apply Ha].
  - exists [], (x :: l). split_and!; [done|by intros y ?%elem_of_nil|]. intros y [->|Hy]%elem_of_cons; [by exists kx|].
    rewrite Forall_forall in Hx. destruct (Hx y Hy) as (ky & Ey & kx' & Ex' & Hlt). rewrite Ex in Ex'. injection Ex' as <-. exists ky. split; [done|].
    destruct (key_lt ky k) eqn:E; [|done]. by rewrite (lt_trans _ _ _ Hlt E) in El.
Qed.

Lemma sorted_NoDup s l : StronglySorted (before s) l → NoDup l.
Proof.
  induction 1 as [|x l Hs IH Hx]; [constructor|]. constructor; [|done]. intros Hin. rewrite Forall_forall in Hx.
  destruct (Hx x Hin) as (ky & Ey & kx & Ex & Hlt). rewrite Ey in Ex. injection Ex as <-. by rewrite lt_irrefl in Hlt.
Qed.

(** ** Searching *)

Section Search.
Context s l ht (HS : skip_ok s l ht).

Lemma level_ring i a b : (i < N)%nat → l = a ++ b → ring (hooks_ s) (head, i) (at_level i (up ht i a ++ up ht i b)).
Proof. intros Hi ->. rewrite <- up_app. by apply (so_ring _ _ _ HS). Qed.

Lemma not_head (x : Z) : x ∈ l → x ≠ head.
Proof. intros [k Hk]%(so_keys _ _ _ HS) ->. by rewrite (so_head _ _ _ HS) in Hk. Qed.

Lemma key_of_ok (x : Z) (kx : K) : key_ s !! x = Some kx → key_of s x = Ret kx.
Proof. unfold key_of. by intros ->. Qed.

Lemma search_level_ok (fuel i : nat) (k : K) (c d e : list Z) : (i < N)%nat → up ht i l = c ++ d ++ e → (∀ x, x ∈ d → less s x k) → (∀ x, x ∈ e → not_less s x k) →
  (length d ≤ fuel)%nat → search_level key_lt head fuel s k i (lastn c, i) = Ret (lastn (c ++ d), i).
Proof.
  intros Hi. revert c d. induction fuel as [|fuel IH]; intros c d El Hd He Hf.
  all: pose proof (so_ring _ _ _ HS i Hi) as HR; rewrite El in HR; pose proof (level_next _ _ _ _ HR) as Hn; unfold next_of in Hn.
  all: assert (Hin : ∀ x, x ∈ d ++ e → x ∈ l) by (intros x Hx; assert (Hu : x ∈ up ht i l) by (rewrite El; apply elem_of_app; by right); by apply elem_up in Hu as [_ Hu]).
  all: cbn [search_level]; destruct (hook (hooks_ s) (lastn c, i)) as [p| |]; [|done|done]; cbn [obind] in *; rewrite Hn; cbn [obind].
  all: destruct d as [|x d].
  1,3: cbn [app] in *; rewrite app_nil_r; destruct e as [|y e]; [by rewrite bool_decide_eq_true_2|].
  1,2: assert (y ≠ head) by (apply not_head, Hin; left); cbn [firstn_ list.head default from_option id]; rewrite bool_decide_eq_false_2 by (by intros [= ?]).
  1,2: unfold ThisPtr4HookPtr; cbn [snd fst]; rewrite Nat.eqb_refl; cbn [CHECK obind]; destruct (He y) as (ky & Ey & Hlt); [left|];
    change (firstn_ (y :: e)) with y; rewrite (key_of_ok _ _ Ey); cbn [obind]; by rewrite Hlt.
  - cbn in Hf. lia.
  - assert (x ≠ head) by (apply not_head, Hin; left). change (firstn_ ((x :: d) ++ e)) with x. rewrite bool_decide_eq_false_2 by (by intros [= ?]).
    unfold ThisPtr4HookPtr. cbn [snd fst]. rewrite Nat.eqb_refl. cbn [CHECK obind]. destruct (Hd x) as (kx & Ex & Hlt); [left|]. rewrite (key_of_ok _ _ Ex). cbn [obind].
    rewrite Hlt. cbn [negb]. rewrite <- (lastn_snoc c x) at 1. rewrite (IH (c ++ [x]) d).
    + by rewrite <- app_assoc.
    + by rewrite <- app_assoc.
    + intros y Hy. apply Hd. by right.
    + done.
    + cbn in Hf. lia.
Qed.

Lemma search_down_ok (fuel levels : nat) (k : K) a b (n : Z) : l = a ++ b → (∀ x, x ∈ a → less s x k) → (∀ x, x ∈ b → not_less s x k) → (length l ≤ fuel)%nat →
  (S levels ≤ N)%nat → (∃ c d, up ht levels a = c ++ d ∧ lastn c = n) → search_down key_lt head fuel s k (S levels) (n, S levels) = Ret (lastn a, 0%nat).
Proof.
  intros El Ha Hb Hf. revert n. induction levels as [|levels IH]; intros n HL (c & d & Ec & <-).
  all: cbn [search_down]; unfold below; cbn [snd fst obind].
  all: match goal with |- context [search_level _ _ _ _ _ ?i _] => rewrite (search_level_ok fuel i k c d (up ht i b)) end;
    [|lia|by rewrite El, up_app, Ec, <- app_assoc|intros x Hx; apply Ha; assert (Hu : x ∈ c ++ d) by (apply elem_of_app; by right); rewrite <- Ec in Hu; by apply elem_up in Hu as [_ Hu]
     |by intros x [_ Hx]%elem_up; apply Hb
     |assert (Hl : (length (c ++ d) ≤ length a)%nat) by (rewrite <- Ec; apply length_filter); rewrite El, !length_app in *; lia].
  - cbn [obind]. rewrite <- Ec, up_zero; [done|]. intros x Hx. apply (so_ht _ _ _ HS). rewrite El. apply elem_of_app. by left.
  - cbn [obind]. rewrite <- Ec. apply IH; [lia|]. apply lower_level.
Qed.

Lemma shift_pos : l ≠ [] → ∃ m, Nat.min (size_shift s) N = S m ∧ (S m ≤ N)%nat.
Proof.
  intros Hl. assert (Hs : (1 ≤ size_shift s)%nat).
  { unfold size_shift. rewrite (so_size _ _ _ HS). assert (1 ≤ Z.log2 (Z.of_nat (length l) + 1)); [|lia].
    change 1 with (Z.log2 2) at 1. apply Z.log2_le_mono. destruct l; [done|cbn; lia]. }
  exists (Nat.pred (Nat.min (size_shift s) N)). lia.
Qed.

Lemma search_ok (fuel : nat) (k : K) a b : l = a ++ b → (∀ x, x ∈ a → less s x k) → (∀ x, x ∈ b → not_less s x k) → (length l ≤ fuel)%nat →
  SearchLastBottomHookLessThan key_lt N head fuel s k (size_shift s) = Ret (lastn a, 0%nat) ∧ next_of (hooks_ s) (lastn a, 0%nat) = Ret (firstn_ b, 0%nat).
Proof.
  intros El Ha Hb Hf. split.
  - unfold SearchLastBottomHookLessThan. destruct (decide (l = [])) as [Hl|Hl].
    + assert (Hs : Nat.min (size_shift s) N = 0%nat) by (unfold size_shift; rewrite (so_size _ _ _ HS), Hl; done). rewrite Hs. cbn [search_down].
      rewrite Hl in El. symmetry in El. apply app_eq_nil in El as [-> _]. done.
    + destruct (shift_pos Hl) as (m & -> & Hm). apply (search_down_ok fuel m k a b head); [done..|]. by exists [], (up ht m a).
  - apply level_next. pose proof (level_ring 0 a b HN El) as HR. rewrite <- up_app, <- El in HR. rewrite up_zero in HR by (intros x Hx; by apply (so_ht _ _ _ HS)). by rewrite <- El.
Qed.

(** The element with the key, if there is one. *)
Lemma Find_ok (fuel : nat) (k : K) : (length l ≤ fuel)%nat →
  ∃ r, skip_Find key_lt key_eq N head fuel s k = Ret r ∧ ∀ x, r = Some x ↔ x ∈ l ∧ key_ s !! x = Some k.
Proof.
  intros Hf. destruct (sorted_split s l k (so_sorted _ _ _ HS) (so_keys _ _ _ HS)) as (a & b & El & Ha & Hb).
  destruct (search_ok fuel k a b El Ha Hb Hf) as [Es En]. unfold skip_Find, hook_Find. rewrite Es. cbn [obind]. rewrite En. cbn [obind].
  assert (Hna : ∀ x, x ∈ a → key_ s !! x ≠ Some k) by (intros x (kx & Ex & Hlt)%Ha Ek; rewrite Ex in Ek; injection Ek as ->; by rewrite lt_irrefl in Hlt).
  destruct b as [|y b].
  - rewrite bool_decide_eq_true_2 by done. exists None. split; [done|]. intros x. split; [done|]. rewrite El, app_nil_r. intros [Hx Hk]. by apply Hna in Hx.
  - change (firstn_ (y :: b)) with y. assert (Hyl : y ∈ l) by (rewrite El; apply elem_of_app; right; left).
    rewrite bool_decide_eq_false_2 by (intros [= ?]; by apply (not_head y)). unfold ThisPtr4HookPtr. cbn [snd fst Nat.eqb CHECK obind].
    destruct (Hb y) as (ky & Ey & Hlt); [left|]. rewrite (key_of_ok _ _ Ey). cbn [obind]. eexists. split; [done|]. intros x.
    assert (Hrest : ∀ z, z ∈ b → key_ s !! z ≠ Some k).
    { intros z Hz Ek. pose proof (so_sorted _ _ _ HS) as Hs. rewrite El in Hs. apply StronglySorted_app_1_r, StronglySorted_inv in Hs as [_ Hs].
      rewrite Forall_forall in Hs. destruct (Hs z Hz) as (kz & Ez & ky' & Ey' & Hyz). rewrite Ek in Ez. injection Ez as <-. rewrite Ey in Ey'. injection Ey' as <-. congruence. }
    destruct (key_eq ky k) eqn:Eq.
    + apply eq_spec in Eq as ->. split; [by intros [= <-]|]. rewrite El, elem_of_app, elem_of_cons. intros [[Hx|[->|Hx]] Hk]; [by apply Hna in Hx|done|by apply Hrest in Hx].
    + split; [done|]. rewrite El, elem_of_app, elem_of_cons. intros [[Hx|[->|Hx]] Hk]; [by apply Hna in Hx| |by apply Hrest in Hx].
      rewrite Ey in Hk. injection Hk as ->. by rewrite (proj2 (eq_spec k k) eq_refl) in Eq.
Qed.
End Search.
(** ** Inserting *)

Abbreviation hooks := (gmap (Z * nat) (ListHook (Z * nat))).

(** An address is in use, or null. *)
Definition in_use (h : hooks) (x : Z * nat) : Prop := is_Some (nxt h x).
Definition null_at (h : hooks) (x : Z * nat) : Prop := h !! x = Some (mkHook None None).

Lemma use_not_null (h : hooks) (x : Z * nat) : in_use h x → nullptr_empty h x = Ret false.
Proof.
  unfold in_use, nullptr_empty, hook, nxt. destruct (h !! x) as [[p n]|]; [|by intros [? ?]]. cbn. intros [y ->].
  by rewrite (bool_decide_eq_false_2 (Some y = None)), andb_false_r.
Qed.
Lemma null_empty (h : hooks) (x : Z * nat) : null_at h x → nullptr_empty h x = Ret true.
Proof. unfold null_at, nullptr_empty, hook. intros ->. done. Qed.

Lemma ring_use (h : hooks) (i : nat) l (x : Z) : ring h (head, i) (at_level i l) → x = head ∨ x ∈ l → in_use h (x, i).
Proof.
  intros HR Hx. destruct Hx as [->|Hx].
  - change l with ([] ++ l) in HR. apply level_link in HR as [Hn _]. unfold in_use. cbn in Hn. rewrite Hn. by eexists.
  - apply list_elem_of_split in Hx as (a & b & ->). change (a ++ x :: b) with (a ++ [x] ++ b) in HR. rewrite app_assoc in HR. apply level_link in HR as [Hn _].
    rewrite lastn_snoc in Hn. unfold in_use. rewrite Hn. by eexists.
Qed.

(** Going back on level [i] reaches the last element that has level [i + 1]. *)
Lemma climb_ok (fuel i : nat) (h : hooks) ht a b : ring h (head, i) (at_level i (a ++ b)) → in_use h (head, S i) →
  (∀ x, x ∈ a → (S i < ht x)%nat → in_use h (x, S i)) → (∀ x, x ∈ a → (ht x ≤ S i)%nat → null_at h (x, S i)) → (length a ≤ fuel)%nat →
  climb fuel h (lastn a, S i) = Ret (lastn (up ht (S i) a), S i).
Proof.
  intros HR Hh Hu Hn. revert a b HR Hu Hn. induction fuel as [|fuel IH]; intros a b HR Hu Hn Hf; destruct a as [|x a _] using rev_ind.
  1,3: cbn [climb]; change (lastn []) with head; by rewrite (use_not_null _ _ Hh).
  - rewrite length_app in Hf. cbn in Hf. lia.
  - rewrite lastn_snoc. rewrite length_app in Hf. cbn [length] in Hf. destruct (decide (S i < ht x)%nat) as [Hx|Hx].
    + cbn [climb]. rewrite (use_not_null _ _ (Hu x ltac:(apply elem_of_app; right; left) Hx)). cbn [obind negb].
      rewrite up_app. unfold up at 2. rewrite filter_cons_True by done. by rewrite lastn_snoc.
    + cbn [climb]. rewrite (null_empty _ _ (Hn x ltac:(apply elem_of_app; right; left) ltac:(lia))). cbn [obind negb]. unfold below. cbn [snd fst obind].
      rewrite <- app_assoc in HR. pose proof (level_link h i a ([x] ++ b) HR) as [_ Hp]. change (firstn_ ([x] ++ b)) with x in Hp.
      unfold prv, hook in *. destruct (h !! (x, i)) as [kx|]; [|done]. cbn [obind]. cbn in Hp. rewrite Hp. cbn [obind deref]. unfold above. cbn [fst snd].
      rewrite (IH a ([x] ++ b)); [|done|intros y Hy; apply Hu, elem_of_app; by left|intros y Hy; apply Hn, elem_of_app; by left|lia].
      rewrite up_app. unfold up at 3. rewrite filter_cons_False by done. by rewrite app_nil_r.
Qed.

Section Insert.
Context (a b : list Z) ht (elem : Z) (n : nat) (Hn : (n ≤ N)%nat) (He : elem ∉ a ++ b) (Hhead : elem ≠ head).
Context (Hht : ∀ x, x ∈ a ++ b → (1 ≤ ht x)%nat) (Known : Z → Prop) (Hknown : ∀ x, x ∈ a ++ b → Known x) (Hnohead : ¬ Known head).

(** The levels below [i] hold the new element, the others do not. *)
Record inserted (h : hooks) (i : nat) : Prop := mkInserted {
  i_done : ∀ j, (j < i)%nat → (j < N)%nat → ring h (head, j) (at_level j (up ht j a ++ elem :: up ht j b));
  i_todo : ∀ j, (i ≤ j)%nat → (j < N)%nat → ring h (head, j) (at_level j (up ht j a ++ up ht j b)) ∧ null_at h (elem, j);
  i_null : ∀ x j, Known x → x ≠ elem → (j < N)%nat → x ∉ a ++ b ∨ (ht x ≤ j)%nat → null_at h (x, j)
}.

Lemma at_level_elem (i : nat) l (y : Z * nat) : y ∈ at_level i l ↔ y.2 = i ∧ y.1 ∈ l.
Proof.
  unfold at_level. rewrite list_elem_of_fmap. split; [by intros (x & -> & Hx)|]. destruct y as [x j]. cbn. intros [-> Hx]. by exists x.
Qed.

Lemma same_hook (h h' : hooks) (X : Z * nat → Prop) (y : Z * nat) : elsewhere h h' X → ¬ X y → null_at h y → null_at h' y.
Proof.
  intros [HE HD] Hy. unfold null_at. intros Ey. destruct (HE y Hy) as [En Ep]. assert (Hst : is_Some (h' !! y)) by (apply HD; by eexists).
  destruct Hst as [[p m] E]. unfold nxt, prv in *. rewrite E, Ey in *. cbn in *. by subst.
Qed.

Lemma insert_step (h : hooks) (i : nat) : inserted h i → (i < N)%nat →
  ∃ h', InsertAfter h (elem, i) (lastn (up ht i a), i) = Ret h' ∧ inserted h' (S i).
Proof.
  intros [I1 I2 I3] Hi. destruct (I2 i ltac:(lia) Hi) as [HR Hnull]. unfold at_level in HR. rewrite map_app in HR. fold (at_level i (up ht i a)) (at_level i (up ht i b)) in HR.
  assert (Hx : (elem, i) ∉ (head, i) :: at_level i (up ht i a) ++ at_level i (up ht i b)).
  { rewrite elem_of_cons, elem_of_app, !at_level_elem, !elem_up. cbn. rewrite elem_of_app in He. intros [[= ?]|[?|?]]; tauto. }
  destruct (InsertAfter_ring h (head, i) _ _ (elem, i) HR Hx) as (h' & E & HR' & HE); [by eexists|]. rewrite last_map in E. exists h'. split; [done|].
  assert (Hout : ∀ y : Z * nat, y.2 ≠ i → y ∉ (elem, i) :: (head, i) :: at_level i (up ht i a) ++ at_level i (up ht i b)).
  { intros [x j] Hj. cbn in Hj. rewrite !elem_of_cons, elem_of_app, !at_level_elem. cbn. intros [[= ? ?]|[[= ? ?]|[[? _]|[? _]]]]; done. }
  assert (Hrings : ∀ j k, j ≠ i → ring h (head, j) (at_level j k) → ring h' (head, j) (at_level j k)).
  { intros j k Hj HRj. eapply ring_frame; [|done]. intros y Hy. apply (e_same _ _ _ HE), Hout. destruct Hy as [->|Hy]; [done|by apply at_level_elem in Hy as [-> _]]. }
  split.
  - intros j Hj HjN. destruct (decide (j = i)) as [->|Hne]; [unfold at_level; rewrite map_app; exact HR'|]. apply Hrings; [done|]. apply I1; lia.
  - intros j Hj HjN. destruct (I2 j ltac:(lia) HjN) as [HRj Hnj]. split; [apply Hrings; [lia|done]|]. eapply same_hook; [exact HE| |done]. apply Hout. cbn. lia.
  - intros x j Hxk Hxe HjN Hxj. eapply same_hook; [exact HE| |by apply I3]. destruct (decide (j = i)) as [->|Hne]; [|by apply Hout].
    rewrite !elem_of_cons, elem_of_app, !at_level_elem, !elem_up. cbn. rewrite elem_of_app in Hxj.
    intros [[= ->]|[[= ->]|[(_ & ? & ?)|(_ & ? & ?)]]]; [done|done|destruct Hxj; [tauto|lia]..].
Qed.

Lemma insert_levels_ok (fuel levels i : nat) (h : hooks) : inserted h i → (i + levels = n)%nat → (length a ≤ fuel)%nat → (0 < i)%nat →
  ∃ h', insert_levels fuel h elem (lastn (up ht (pred i) a), i) i levels = Ret h' ∧ inserted h' n.
Proof.
  revert i h. induction levels as [|levels IH]; intros i h HI Hl Hf Hi; [exists h; split; [done|]; by replace n with i by lia|].
  destruct i as [|i]; [lia|]. cbn [insert_levels pred].
  assert (Hc : climb fuel h (lastn (up ht i a), S i) = Ret (lastn (up ht (S i) a), S i)).
  { pose proof (i_done _ _ HI i ltac:(lia) ltac:(lia)) as HR. destruct (i_todo _ _ HI (S i) ltac:(lia) ltac:(lia)) as [HRS _].
    assert (Hup : up ht (S i) (up ht i a) = up ht (S i) a).
    { unfold up. rewrite list_filter_filter. apply list_filter_iff. intros x. lia. }
    rewrite (climb_ok fuel i h ht (up ht i a) (elem :: up ht i b)); [by rewrite Hup|done| | | |].
    - eapply ring_use; [exact HRS|by left].
    - intros x [Hx Hxa]%elem_up Hlt. eapply ring_use; [exact HRS|right]. apply elem_of_app. left. by apply elem_up.
    - intros x [Hx Hxa]%elem_up Hle. assert (Hxab : x ∈ a ++ b) by (apply elem_of_app; by left). apply (i_null _ _ HI); [by apply Hknown| |lia|by right].
      by intros ->.
    - etrans; [apply length_filter|done]. }
  rewrite Hc. cbn [obind]. destruct (insert_step h (S i) HI ltac:(lia)) as (h1 & E1 & HI1). rewrite E1. cbn [obind]. unfold above. cbn [fst snd].
  apply (IH (S (S i)) h1 HI1); lia.
Qed.

Lemma array_InsertAfter_ok (fuel : nat) (h : hooks) : inserted h 0 → (1 ≤ n)%nat → (length a ≤ fuel)%nat →
  ∃ h', array_InsertAfter fuel h elem (lastn a) n = Ret h' ∧ inserted h' n.
Proof.
  intros HI Hn1 Hf. unfold array_InsertAfter. destruct (i_todo _ _ HI 0 ltac:(lia) ltac:(lia)) as [HR Hnull]. rewrite (null_empty _ _ Hnull). cbn [CHECK obind].
  assert (Hm : ∃ m, n = S m) by (exists (pred n); lia). destruct Hm as [m Em]. replace (insert_levels fuel h elem (lastn a, 0%nat) 0 n) with (insert_levels fuel h elem (lastn a, 0%nat) 0 (S m)) by (by rewrite Em). cbn [insert_levels]. assert (Hua : up ht 0 a = a) by (apply up_zero; intros x Hx; apply Hht, elem_of_app; by left).
  assert (Hc : climb fuel h (lastn a, 0%nat) = Ret (lastn (up ht 0 a), 0%nat)).
  { rewrite Hua. destruct fuel; cbn [climb]; (rewrite use_not_null; [done|]); (eapply ring_use; [exact HR|]); rewrite Hua; destruct a as [|x a' _] using rev_ind; (try by left);
      right; rewrite lastn_snoc; apply elem_of_app; left; apply elem_of_app; right; left. }
  rewrite Hc. cbn [obind]. destruct (insert_step h 0 HI ltac:(lia)) as (h1 & E1 & HI1). rewrite E1. cbn [obind]. unfold above. cbn [fst snd].
  apply (insert_levels_ok fuel m 1 h1 HI1); lia.
Qed.
End Insert.
Lemma level_size s l : NoDup l → (∀ x, x ∈ l → is_Some (key_ s !! x)) → key_ s !! head = None → (∀ x, x = head ∨ is_Some (key_ s !! x) → is_u64 x) →
  0 ≤ Z.of_nat (length l) < 2 ^ 64.
Proof.
  intros HN' Hk Hh Ha. assert (Hb : Z.of_nat (length (head :: l)) ≤ 2 ^ 64); [|cbn [length] in Hb; lia]. apply bounded_length; [|intros x [->|Hx]%elem_of_cons; apply Ha; [by left|right; by apply Hk]|done].
  constructor; [|done]. intros [k Ek]%Hk. by rewrite Hh in Ek.
Qed.

Lemma levels_bounds (coins : list bool) (shift : nat) : (1 ≤ RandomNumLevels N coins shift ≤ N)%nat.
Proof. unfold RandomNumLevels. pose proof (count_levels_bounds coins 1 (Nat.min shift N) 1 ltac:(lia)). lia. Qed.

Definition same_keys s s' : Prop := key_ s' = key_ s.
Lemma before_same s s' (x y : Z) : same_keys s s' → before s x y ↔ before s' x y.
Proof. unfold same_keys, before, less. by intros ->. Qed.

Lemma sorted_same s s' l : same_keys s s' → StronglySorted (before s) l → StronglySorted (before s') l.
Proof. intros Hk. unfold before, less. by rewrite Hk. Qed.

(** The order of the list with a new element. *)
Lemma sorted_insert s a b (x : Z) (k : K) : StronglySorted (before s) (a ++ b) → key_ s !! x = Some k → (∀ y, y ∈ a → less s y k) →
  (∀ y, y ∈ b → ∃ ky, key_ s !! y = Some ky ∧ key_lt k ky = true) → StronglySorted (before s) (a ++ x :: b).
Proof.
  intros Hs Hx Ha Hb. apply StronglySorted_app in Hs as (Hab & Hsa & Hsb). apply StronglySorted_app. split_and!; [|done|].
  - intros y z Hy [->|Hz]%elem_of_cons; [|by apply Hab]. exists k. split; [done|]. by apply Ha.
  - constructor; [done|]. rewrite Forall_forall. intros y Hy. destruct (Hb y Hy) as (ky & Ey & Hlt). exists ky. split; [done|]. by exists k.
Qed.

Lemma up_other ht (x : Z) (n i : nat) l : x ∉ l → up (λ y, if decide (y = x) then n else ht y) i l = up ht i l.
Proof. intros Hx. unfold up. apply filter_ext_in. intros y Hy. rewrite decide_False; [done|]. by intros ->. Qed.

Lemma inserted_start s l ht a b (elem : Z) (k : K) : skip_ok s l ht → l = a ++ b → key_ s !! elem = Some k → elem ∉ l →
  inserted a b ht elem (λ x, is_Some (key_ s !! x)) (hooks_ s) 0.
Proof.
  intros HS El Hk He. split; [lia| |].
  - intros j _ Hj. split; [by apply (level_ring s l ht HS)|]. apply (so_null _ _ _ HS); [by eexists|done|by left].
  - intros x j Hx _ Hj Hxj. apply (so_null _ _ _ HS); [done|done|by rewrite El].
Qed.

Lemma inserted_end s ht a b (elem : Z) (k : K) (h : hooks) (n : nat) : skip_ok s (a ++ b) ht → key_ s !! elem = Some k → elem ∉ a ++ b → (1 ≤ n ≤ N)%nat →
  StronglySorted (before s) (a ++ elem :: b) → inserted a b ht elem (λ x, is_Some (key_ s !! x)) h n →
  skip_ok (add_skip_size (with_array s h) 1) (a ++ elem :: b) (λ x, if decide (x = elem) then n else ht x).
Proof.
  intros HS Hk He Hn Hs [I1 I2 I3]. rewrite elem_of_app in He. assert (Hks : ∀ x, x ∈ a ++ elem :: b → is_Some (key_ s !! x)).
  { intros x. rewrite elem_of_app, elem_of_cons. intros [Hx|[->|Hx]]; [|by eexists|]; apply (so_keys _ _ _ HS), elem_of_app; tauto. }
  split; cbn.
  - by apply (sorted_same s).
  - done.
  - apply (so_head _ _ _ HS).
  - intros x Hx. destruct (decide (x = elem)) as [->|Hne]; [done|]. apply (so_ht _ _ _ HS). rewrite elem_of_app in *. rewrite elem_of_cons in Hx. tauto.
  - intros i Hi. rewrite up_app. unfold up at 2. rewrite filter_cons. rewrite (decide_True (P := elem = elem)) by done.
    rewrite up_other by tauto. change (filter (λ x : Z, (i < (if decide (x = elem) then n else ht x))%nat) b) with (up (λ x, if decide (x = elem) then n else ht x) i b).
    rewrite up_other by tauto. destruct (decide (i < n)%nat) as [Hin|Hin]; [by apply I1|]. apply I2; lia.
  - intros x i Hx Hi Hxi. destruct (decide (x = elem)) as [->|Hne].
    + apply I2; [|done]. destruct Hxi as [Hxi|Hxi]; [|lia]. destruct Hxi. apply elem_of_app. right. left.
    + apply I3; [done..|]. destruct Hxi as [Hxi|]; [left|by right]. rewrite elem_of_app in *. rewrite elem_of_cons in Hxi. tauto.
  - rewrite (so_size _ _ _ HS). pose proof (level_size s (a ++ elem :: b) (sorted_NoDup s _ Hs) Hks (so_head _ _ _ HS) (so_addr _ _ _ HS)) as Hb.
    rewrite !length_app in *. cbn [length] in *. rewrite u64_small; [lia|]. unfold is_u64, u64_modulus. lia.
  - apply (so_addr _ _ _ HS).
Qed.

Lemma Insert_ok (fuel : nat) (coins : list bool) s l ht (elem : Z) (k : K) : skip_ok s l ht → key_ s !! elem = Some k → elem ∉ l → (length l ≤ fuel)%nat →
  ∃ s' r ok, skip_Insert key_lt key_eq N head fuel coins s elem = Ret (s', r, ok) ∧ key_ s' = key_ s ∧
    ((ok = false ∧ s' = s ∧ r ∈ l ∧ key_ s !! r = Some k) ∨
     (ok = true ∧ r = elem ∧ (∀ y, y ∈ l → key_ s !! y ≠ Some k) ∧ ∃ l' ht', skip_ok s' l' ht' ∧ l' ≡ₚ elem :: l)).
Proof.
  intros HS Hk He Hf. destruct (sorted_split s l k (so_sorted _ _ _ HS) (so_keys _ _ _ HS)) as (a & b & El & Ha & Hb).
  destruct (search_ok s l ht HS fuel k a b El Ha Hb Hf) as [Es En]. unfold skip_Insert, hook_Insert. rewrite (key_of_ok _ _ _ Hk). cbn [obind]. rewrite Es. cbn [obind]. rewrite En. cbn [obind].
  assert (Hna : ∀ x, x ∈ a → key_ s !! x ≠ Some k) by (intros x (kx & Ex & Hlt)%Ha Ek; rewrite Ex in Ek; injection Ek as ->; by rewrite lt_irrefl in Hlt).
  pose proof (so_sorted _ _ _ HS) as Hs. rewrite El in Hs.
  set (found := let* maybe_searched := if bool_decide ((firstn_ b, 0%nat) = (head, 0%nat)) then Ret None else let* x := ThisPtr4HookPtr (firstn_ b, 0%nat) 0 in Ret (Some x) in
    match maybe_searched with None => Ret None | Some x => let* key' := key_of s x in Ret (if key_eq key' k then Some x else None) end).
  assert (Hfound : (∃ y, found = Ret (Some y) ∧ y ∈ l ∧ key_ s !! y = Some k) ∨ (found = Ret None ∧ ∀ y, y ∈ b → ∃ ky, key_ s !! y = Some ky ∧ key_lt k ky = true)).
  { unfold found. destruct b as [|y b]; [right; rewrite bool_decide_eq_true_2 by done; split; [done|by intros y ?%elem_of_nil]|].
    assert (Hyl : y ∈ l) by (rewrite El; apply elem_of_app; right; left). change (firstn_ (y :: b)) with y.
    rewrite bool_decide_eq_false_2 by (intros [= ?]; by apply (not_head s l ht HS y)). unfold ThisPtr4HookPtr. cbn [snd fst Nat.eqb CHECK obind].
    destruct (Hb y) as (ky & Ey & Hlt); [left|]. rewrite (key_of_ok _ _ _ Ey). cbn [obind]. destruct (key_eq ky k) eqn:Eq; [left; exists y; apply eq_spec in Eq as ->; done|right].
    split; [done|]. assert (Hky : key_lt k ky = true).
    { destruct (key_lt k ky) eqn:E; [done|]. rewrite (lt_total _ _ Hlt E) in Eq. by rewrite (proj2 (eq_spec k k) eq_refl) in Eq. }
    intros z [->|Hz]%elem_of_cons; [by exists ky|]. apply StronglySorted_app_1_r, StronglySorted_inv in Hs as [_ Hs].
    rewrite Forall_forall in Hs. destruct (Hs z Hz) as (kz & Ez & ky' & Ey' & Hyz). rewrite Ey in Ey'. injection Ey' as <-. exists kz. split; [done|]. by eapply lt_trans. }
  match goal with |- context [obind ?m (λ maybe_searched, obind (@?g maybe_searched) ?k2)] => assert (Ef : obind m (λ maybe_searched, obind (g maybe_searched) k2) = obind found k2) by
    (unfold found; destruct (bool_decide _); [done|]; destruct (ThisPtr4HookPtr _ _); done); rewrite Ef; clear Ef end.
  destruct Hfound as [(y & Efd & Hy & Hky)|[Efd Hbk]]; rewrite Efd; cbn [obind].
  { exists s, y, false. split; [done|]. split; [done|]. by left. }
  unfold ThisPtr4HookPtr. cbn [snd fst Nat.eqb CHECK obind]. pose proof (levels_bounds coins (size_shift s)) as Hn. set (n := RandomNumLevels N coins (size_shift s)) in *.
  assert (Hab : elem ∉ a ++ b) by (by rewrite <- El). assert (HS' : skip_ok s (a ++ b) ht) by (by rewrite <- El).
  destruct (array_InsertAfter_ok a b ht elem n) with (Known := λ x, is_Some (key_ s !! x)) (fuel := fuel) (h := hooks_ s) as (h' & E & HI).
  - lia.
  - done.
  - intros ->. by rewrite (so_head _ _ _ HS) in Hk.
  - intros x Hx. by apply (so_ht _ _ _ HS').
  - apply (so_keys _ _ _ HS').
  - rewrite (so_head _ _ _ HS). by intros [? ?].
  - by apply (inserted_start s l ht a b elem k).
  - lia.
  - rewrite El, length_app in Hf. lia.
  - rewrite E. cbn [obind]. eexists _, elem, true. split; [done|]. split; [done|]. right. split; [done|]. split; [done|]. split.
    + intros y Hy. rewrite El in Hy. apply elem_of_app in Hy as [Hy|Hy]; [by apply Hna|]. destruct (Hbk y Hy) as (ky & Ey & Hlt). rewrite Ey. intros [= ->]. by rewrite lt_irrefl in Hlt.
    + exists (a ++ elem :: b), (λ x, if decide (x = elem) then n else ht x). split; [|by rewrite El, Permutation_middle].
      apply (inserted_end s ht a b elem k); [done..|by apply (sorted_insert s a b elem k)|done].
Qed.
(** ** Erasing *)

Section Erase.
Context (a b : list Z) ht (x : Z) (Hx : x ∉ a ++ b) (Hxh : x ≠ head) (Hhx : (ht x ≤ N)%nat) (Known : Z → Prop) (Hnohead : ¬ Known head).

(** The levels below [i] have lost the element, the others have not. *)
Record erased (h : hooks) (i : nat) : Prop := mkErased {
  er_done : ∀ j, (j < i)%nat → (j < N)%nat → ring h (head, j) (at_level j (up ht j a ++ up ht j b)) ∧ null_at h (x, j);
  er_todo : ∀ j, (i ≤ j)%nat → (j < N)%nat → ring h (head, j) (at_level j (up ht j (a ++ x :: b)));
  er_self : ∀ j, (i ≤ j)%nat → (j < N)%nat → (ht x ≤ j)%nat → null_at h (x, j);
  er_null : ∀ y j, Known y → y ≠ x → (j < N)%nat → y ∉ a ++ b ∨ (ht y ≤ j)%nat → null_at h (y, j)
}.

Lemma erase_step (h : hooks) (i : nat) : erased h i → (i < ht x)%nat →
  ∃ q p h', nxt h (x, i) = Some q ∧ prv h (x, i) = Some p ∧ AppendTo h q p = Ret h' ∧ erased (hook_NullptrClear h' (x, i)) (S i).
Proof.
  intros [E1 E2 E3 E4] Hi. pose proof (E2 i ltac:(lia) ltac:(lia)) as HR. rewrite up_app in HR. unfold up at 2 in HR. rewrite filter_cons_True in HR by done.
  change (filter (λ y : Z, (i < ht y)%nat) b) with (up ht i b) in HR. unfold at_level in HR. rewrite map_app in HR. cbn [map] in HR.
  fold (at_level i (up ht i a)) (at_level i (up ht i b)) in HR. destruct (unlink _ _ _ _ _ HR) as (p & q & h' & Hn & Hp & E & HR' & HE).
  exists q, p, h'. split_and!; [done|done|done|].
  assert (Hst : is_Some (h' !! (x, i))) by (apply (e_stored _ _ _ HE); unfold nxt in Hn; destruct (h !! (x, i)); [by eexists|done]).
  assert (Hout : ∀ y : Z * nat, y.2 ≠ i → y ∉ (head, i) :: at_level i (up ht i a) ++ at_level i (up ht i b)).
  { intros [z j] Hj. cbn in Hj. rewrite elem_of_cons, elem_of_app, !at_level_elem. cbn. intros [[= ? ?]|[[? _]|[? _]]]; done. }
  set (h2 := hook_NullptrClear h' (x, i)).
  assert (HE2 : ∀ y : Z * nat, y ≠ (x, i) → nxt h2 y = nxt h' y ∧ prv h2 y = prv h' y ∧ h2 !! y = h' !! y).
  { intros y Hy. unfold h2, hook_NullptrClear, nxt, prv. by rewrite lookup_insert_ne. }
  assert (Hrings : ∀ j k, j ≠ i → ring h (head, j) (at_level j k) → ring h2 (head, j) (at_level j k)).
  { intros j k Hj HRj. eapply ring_frame; [|done]. intros y Hy. assert (Hy2 : y.2 = j) by (destruct Hy as [->|Hy]; [done|by apply at_level_elem in Hy as [-> _]]).
    destruct (HE2 y) as (-> & -> & _); [by intros ->|]. apply (e_same _ _ _ HE), Hout. by rewrite Hy2. }
  assert (Hnull : ∀ y : Z * nat, y ≠ (x, i) → y ∉ (head, i) :: at_level i (up ht i a) ++ at_level i (up ht i b) → null_at h y → null_at h2 y).
  { intros y Hy Hyo Hyn. unfold null_at. destruct (HE2 y Hy) as (_ & _ & ->). by eapply same_hook. }
  rewrite elem_of_app in Hx. split.
  - intros j Hj HjN. destruct (decide (j = i)) as [->|Hne].
    + split; [|unfold h2, null_at, hook_NullptrClear; by rewrite lookup_insert_eq]. unfold at_level. rewrite map_app. fold (at_level i (up ht i a)) (at_level i (up ht i b)). eapply ring_frame; [|exact HR'].
      intros y Hy. destruct (HE2 y) as (-> & -> & _); [|done]. intros ->. rewrite elem_of_app, !at_level_elem, !elem_up in Hy. cbn in Hy.
      destruct Hy as [[= ?]|[?|?]]; tauto.
    + destruct (E1 j ltac:(lia) HjN) as [HRj Hnj]. split; [by apply Hrings|]. apply Hnull; [by intros [= ?]|by apply Hout|done].
  - intros j Hj HjN. apply Hrings; [lia|]. apply E2; [lia|done].
  - intros j Hj HjN Hxj. apply Hnull; [intros [= ?]; lia|apply Hout; cbn; lia|]. apply E3; [lia|done..].
  - intros y j Hy Hyx HjN Hyj. apply Hnull; [by intros [= ?]| |by apply E4]. destruct (decide (j = i)) as [->|Hne]; [|by apply Hout].
    rewrite elem_of_cons, elem_of_app, !at_level_elem, !elem_up. cbn. rewrite elem_of_app in Hyj. intros [[= ->]|[(_ & ? & ?)|(_ & ? & ?)]]; [done|destruct Hyj; [tauto|lia]..].
Qed.

Lemma erase_levels_ok (count i : nat) (h : hooks) : erased h i → (i + count = N)%nat → (i ≤ ht x)%nat →
  ∃ h', erase_levels h x i count = Ret h' ∧ erased h' (ht x).
Proof.
  revert i h. induction count as [|count IH]; intros i h HE Hc Hi; cbn [erase_levels].
  { exists h. split; [done|]. by replace (ht x) with i by lia. }
  destruct (decide (i = ht x)) as [->|Hne].
  - rewrite (null_empty h (x, ht x)) by (apply (er_self _ _ HE); lia). cbn [obind]. by exists h.
  - destruct (erase_step h i HE ltac:(lia)) as (q & p & h' & Hn & Hp & E & HE').
    rewrite use_not_null by (unfold in_use; rewrite Hn; by eexists). cbn [obind]. rewrite (hook_views _ _ _ _ Hn Hp). cbn [obind deref next_ prev_]. rewrite E. cbn [obind].
    by apply IH; [|lia|lia].
Qed.
End Erase.

Lemma Erase_ok s ht a b (x : Z) : skip_ok s (a ++ x :: b) ht → ∃ s', skip_Erase N s x = Ret s' ∧ key_ s' = key_ s ∧ skip_ok s' (a ++ b) ht.
Proof.
  intros HS. pose proof (so_sorted _ _ _ HS) as Hs. pose proof (sorted_NoDup _ _ Hs) as HND. assert (Hxl : x ∈ a ++ x :: b) by (apply elem_of_app; right; left).
  assert (Hx : x ∉ a ++ b) by (rewrite <- Permutation_middle in HND; by apply NoDup_cons in HND as [? _]).
  pose proof (so_ht _ _ _ HS x Hxl) as Hhx. assert (Hsub : ∀ y, y ∈ a ++ b → y ∈ a ++ x :: b) by (intros y; rewrite !elem_of_app, elem_of_cons; tauto).
  destruct (erase_levels_ok a b ht x Hx) with (Known := λ y, is_Some (key_ s !! y)) (count := N) (i := 0%nat) (h := hooks_ s) as (h' & E & [E1 E2 E3 E4]).
  - intros ->. by apply (not_head s _ ht HS head).
  - lia.
  - rewrite (so_head _ _ _ HS). by intros [? ?].
  - split; [lia|intros j _ Hj; by apply (so_ring _ _ _ HS)| |].
    + intros j _ Hj Hxj. apply (so_null _ _ _ HS); [by apply (so_keys _ _ _ HS)|done|by right].
    + intros y j Hy Hyx Hj Hyj. apply (so_null _ _ _ HS); [done|done|]. destruct Hyj as [Hyj|]; [left|by right]. rewrite elem_of_app in *. rewrite elem_of_cons. tauto.
  - done.
  - lia.
  - unfold skip_Erase, array_Erase. rewrite E. cbn [obind]. eexists. split; [done|]. split; [done|]. split; cbn.
    + apply (sorted_same s); [done|]. apply StronglySorted_app in Hs as (Hab & Hsa & Hsb). apply StronglySorted_app. apply StronglySorted_inv in Hsb as [Hsb _].
      split_and!; [|done|done]. intros y z Hy Hz. apply Hab; [done|by right].
    + intros y Hy. by apply (so_keys _ _ _ HS), Hsub.
    + apply (so_head _ _ _ HS).
    + intros y Hy. by apply (so_ht _ _ _ HS), Hsub.
    + intros i Hi. rewrite up_app. destruct (decide (i < ht x)%nat) as [Hlt|Hge]; [by apply E1|]. specialize (E2 i ltac:(lia) Hi). rewrite up_app in E2. unfold up at 2 in E2.
      by rewrite filter_cons_False in E2.
    + intros y i Hy Hi Hyi. destruct (decide (y = x)) as [->|Hne]; [|by apply E4]. destruct (decide (i < ht x)%nat) as [Hlt|Hge]; [by apply E1|apply E3; lia].
    + rewrite (so_size _ _ _ HS). pose proof (level_size s (a ++ x :: b) HND (so_keys _ _ _ HS) (so_head _ _ _ HS) (so_addr _ _ _ HS)) as Hb.
      rewrite !length_app in *. cbn [length] in *. rewrite u64_small; [lia|]. unfold is_u64, u64_modulus. lia.
    + apply (so_addr _ _ _ HS).
Qed.

(** ** The first element, and clearing *)

Lemma Begin_next s l ht : skip_ok s l ht → next_of (hooks_ s) (head, 0%nat) = Ret (firstn_ l, 0%nat).
Proof.
  intros HS. pose proof (so_ring _ _ _ HS 0 HN) as HR. rewrite up_zero in HR by (intros x Hx; by apply (so_ht _ _ _ HS)).
  change head with (lastn []) at 1. by apply level_next.
Qed.

Lemma Begin_ok s l ht : skip_ok s l ht → skip_Begin head s = Ret (list.head l).
Proof.
  intros HS. unfold skip_Begin. rewrite (Begin_next _ _ _ HS). cbn [obind]. destruct l as [|x l]; [by rewrite bool_decide_eq_true_2|].
  change (firstn_ (x :: l)) with x. rewrite bool_decide_eq_false_2; [done|]. intros [= ->]. by apply (not_head s _ ht HS head); [left|].
Qed.

Lemma check_empty_ok (h : hooks) (levels : list nat) : (∀ i, i ∈ levels → ring h (head, i) []) → check_empty head h levels = Ret tt.
Proof.
  induction levels as [|i levels IH]; intros Hr; [done|]. cbn [check_empty]. assert (HR : ring h (head, i) ([] ++ [])) by (apply Hr; left).
  destruct (ring_link _ _ _ _ HR) as [Hn Hp]. cbn in Hn, Hp. unfold hook_empty. rewrite (hook_views _ _ _ _ Hn Hp). cbn [obind prev_]. rewrite bool_decide_eq_true_2 by done.
  cbn [orb CHECK obind]. apply IH. intros j Hj. apply Hr. by right.
Qed.

Lemma Clear_ok (fuel : nat) s l ht : skip_ok s l ht → (length l ≤ fuel)%nat →
  ∃ s', skip_Clear N head fuel s = Ret (s', l) ∧ key_ s' = key_ s ∧ skip_ok s' [] ht.
Proof.
  revert s l. induction fuel as [|fuel IH]; intros s l HS Hf; destruct l as [|x l].
  1,3: exists s; split; [|done]; cbn [skip_Clear]; rewrite (so_size _ _ _ HS); cbn [Z.of_nat length Z.ltb Z.compare negb Z.eqb];
    rewrite check_empty_ok by (intros i Hi; apply elem_of_seq in Hi; apply (so_ring _ _ _ HS); lia); done.
  - cbn in Hf. lia.
  - cbn [skip_Clear]. rewrite (so_size _ _ _ HS). destruct (Z.ltb_spec 0 (Z.of_nat (length (x :: l)))) as [_|]; [|cbn in *; lia]. cbn [negb].
    rewrite (Begin_next _ _ _ HS). cbn [obind]. change (firstn_ (x :: l)) with x. unfold ThisPtr4HookPtr. cbn [snd fst Nat.eqb CHECK obind].
    destruct (Z.eqb_spec x head) as [->|_]; [exfalso; by apply (not_head s _ ht HS head); [left|]|].
    destruct (Erase_ok s ht [] l x HS) as (s1 & E1 & K1 & HS1). unfold skip_Erase in E1. destruct (array_Erase N (hooks_ s) x) as [h| |]; [|done|done].
    cbn [obind] in *. injection E1 as E1. rewrite E1. destruct (IH s1 l HS1) as (s' & E & K2 & HS'); [cbn in Hf; lia|]. rewrite E. cbn [obind].
    exists s'. split; [done|]. split; [by rewrite K2|done].
Qed.
(** ** Making elements and the empty list *)

Lemma lookup_array (g : Z * nat → ListHook (Z * nat)) (h : hooks) (x : Z) (m : nat) (y : Z * nat) :
  foldr (λ i h, <[(x, i) := g (x, i)]> h) h (seq 0 m) !! y = if decide (y.1 = x ∧ (y.2 < m)%nat) then Some (g y) else h !! y.
Proof.
  assert (Hgen : ∀ js : list nat, foldr (λ i h, <[(x, i) := g (x, i)]> h) h js !! y = if decide (y.1 = x ∧ y.2 ∈ js) then Some (g y) else h !! y).
  { induction js as [|j js IH]; [cbn; rewrite decide_False by (intros [_ ?%elem_of_nil]; done); done|]. cbn [foldr]. destruct (decide ((x, j) = y)) as [<-|Hne].
    - rewrite lookup_insert_eq, decide_True; [done|]. split; [done|left].
    - rewrite lookup_insert_ne, IH by done. destruct y as [z i]. cbn. assert (Hiff : (z = x ∧ i ∈ j :: js) ↔ (z = x ∧ i ∈ js)) by (rewrite elem_of_cons; naive_solver).
      by destruct (decide (z = x ∧ i ∈ js)), (decide (z = x ∧ i ∈ j :: js)); try tauto. }
  rewrite Hgen. destruct (decide (y.1 = x ∧ y.2 ∈ seq 0 m)) as [[H1 H2]|H1], (decide (y.1 = x ∧ (y.2 < m)%nat)) as [[H3 H4]|H3]; try done; exfalso.
  - apply H3. split; [done|]. apply elem_of_seq in H2. lia.
  - apply H1. split; [done|]. apply elem_of_seq. lia.
Qed.

Lemma Init_ok : is_u64 head → skip_ok (skip_Init N head (mkSkip ∅ ∅ 0)) [] (λ _, 0%nat).
Proof.
  intros Ha. split; cbn; try done.
  - constructor.
  - by intros x ?%elem_of_nil.
  - by intros x ?%elem_of_nil.
  - intros i Hi. split; [apply NoDup_singleton|]. assert (E : array_Clear N ∅ head !! (head, i) = Some (mkHook (Some (head, i)) (Some (head, i)))).
    { unfold array_Clear, hook_Clear. rewrite (lookup_array (λ p, mkHook (Some p) (Some p))). by rewrite decide_True. }
    cbn. unfold link, nxt, prv. by rewrite E.
  - intros x i [? ?]. done.
  - by intros x [->|[? ?]].
Qed.

Lemma elem_Init_ok s l ht (x : Z) (k : K) : skip_ok s l ht → key_ s !! x = None → x ≠ head → is_u64 x → skip_ok (elem_Init N s x k) l ht.
Proof.
  intros HS Hx Hxh Hxa. assert (Hl : ∀ y, is_Some (key_ s !! y) → y ≠ x) by (intros y [ky Ey] ->; congruence).
  assert (Hk : ∀ y ky, key_ s !! y = Some ky → <[x := k]> (key_ s) !! y = Some ky) by (intros y ky Ey; rewrite lookup_insert_ne; [done|]; apply not_eq_sym, Hl; by eexists).
  assert (Hh : ∀ y j, y ≠ x → array_NullptrClear N (hooks_ s) x !! (y, j) = hooks_ s !! (y, j)).
  { intros y j Hy. unfold array_NullptrClear, hook_NullptrClear. rewrite (lookup_array (λ _, mkHook None None)). rewrite decide_False; [done|]. by intros [? _]. }
  split; cbn.
  - pose proof (so_sorted _ _ _ HS) as Hs. clear HS. induction Hs as [|y l Hs IH Hy]; [constructor|]. constructor; [done|]. eapply Forall_impl; [exact Hy|].
    intros z (kz & Ez & ky & Ey & Hlt). exists kz. split; [by apply Hk|]. exists ky. split; [by apply Hk|done].
  - intros y Hy. destruct (so_keys _ _ _ HS y Hy) as [ky Ey]. exists ky. by apply Hk.
  - rewrite lookup_insert_ne by done. apply (so_head _ _ _ HS).
  - apply (so_ht _ _ _ HS).
  - intros i Hi. eapply ring_frame; [|by apply (so_ring _ _ _ HS)]. intros y Hy. unfold nxt, prv.
    assert (Hyx : y.1 ≠ x). { destruct Hy as [->|Hy]; [cbn; congruence|]. apply at_level_elem in Hy as [_ Hy]. apply elem_up in Hy as [_ Hy]. by apply Hl, (so_keys _ _ _ HS). }
    destruct y as [z j]. by rewrite (Hh z j Hyx).
  - intros y i Hy Hi Hyi. destruct (decide (y = x)) as [->|Hne].
    + unfold array_NullptrClear, hook_NullptrClear. rewrite (lookup_array (λ _, mkHook None None)). by rewrite decide_True.
    + rewrite Hh by done. rewrite lookup_insert_ne in Hy by done. by apply (so_null _ _ _ HS).
  - apply (so_size _ _ _ HS).
  - intros y [->|Hy]; [apply (so_addr _ _ _ HS); by left|]. destruct (decide (y = x)) as [->|Hne]; [done|]. rewrite lookup_insert_ne in Hy by done. apply (so_addr _ _ _ HS). by right.
Qed.

(** ** Histories *)

(** Skip lists with the elements [X] that calls lead to. *)
Inductive reachable : skip → gset Z → Prop :=
| reach_init : is_u64 head → reachable (skip_Init N head (mkSkip ∅ ∅ 0)) ∅
| reach_new s X (x : Z) (k : K) : reachable s X → key_ s !! x = None → x ≠ head → is_u64 x → reachable (elem_Init N s x k) X
| reach_insert s X (fuel : nat) (coins : list bool) (x r : Z) s' : reachable s X → x ∉ X → is_Some (key_ s !! x) → (size X ≤ fuel)%nat →
    skip_Insert key_lt key_eq N head fuel coins s x = Ret (s', r, true) → reachable s' ({[x]} ∪ X)
| reach_erase s X (x : Z) s' : reachable s X → x ∈ X → skip_Erase N s x = Ret s' → reachable s' (X ∖ {[x]})
| reach_clear s X (fuel : nat) (l : list Z) s' : reachable s X → (size X ≤ fuel)%nat → skip_Clear N head fuel s = Ret (s', l) → reachable s' ∅.

Lemma represented_length s l ht (X : gset Z) : skip_ok s l ht → (∀ x, x ∈ l ↔ x ∈ X) → length l = size X ∧ l ≡ₚ elements X.
Proof.
  intros HS HX. assert (HP : l ≡ₚ elements X).
  { apply NoDup_Permutation; [apply (sorted_NoDup s), (so_sorted _ _ _ HS)|apply NoDup_elements|]. intros x. by rewrite HX, elem_of_elements. }
  split; [|done]. by rewrite (Permutation_length HP).
Qed.

Lemma reachable_ok s (X : gset Z) : reachable s X → ∃ l ht, skip_ok s l ht ∧ ∀ x, x ∈ l ↔ x ∈ X.
Proof.
  induction 1 as [Ha|s X x k _ (l & ht & HS & HX) Hx Hh Hu|s X fuel coins x r s' _ (l & ht & HS & HX) Hx [k Hk] Hf E|s X x s' _ (l & ht & HS & HX) Hx E|s X fuel k s' _ (l & ht & HS & HX) Hf E].
  - exists [], (λ _, 0%nat). split; [by apply Init_ok|]. intros x. by rewrite elem_of_nil, elem_of_empty.
  - exists l, ht. split; [by apply elem_Init_ok|done].
  - destruct (represented_length _ _ _ _ HS HX) as [Hlen _].
    destruct (Insert_ok fuel coins s l ht x k HS Hk) as (s2 & r2 & ok & E2 & _ & [(-> & _)|(_ & _ & _ & l' & ht' & HS' & HP)]); [by rewrite HX|lia| |]; rewrite E in E2; injection E2.
    + by intros.
    + intros; subst. exists l', ht'. split; [done|]. intros y. rewrite HP, elem_of_cons, HX, elem_of_union, elem_of_singleton. done.
  - apply HX in Hx as Hxl. apply list_elem_of_split in Hxl as (a & b & ->). destruct (Erase_ok s ht a b x HS) as (s2 & E2 & _ & HS2). rewrite E in E2. injection E2 as <-.
    exists (a ++ b), ht. split; [done|]. intros y. rewrite elem_of_difference, elem_of_singleton, <- HX, !elem_of_app, elem_of_cons.
    pose proof (sorted_NoDup _ _ (so_sorted _ _ _ HS)) as HND. rewrite <- Permutation_middle in HND. apply NoDup_cons in HND as [Hn _]. rewrite elem_of_app in Hn. naive_solver.
  - destruct (represented_length _ _ _ _ HS HX) as [Hlen _]. destruct (Clear_ok fuel s l ht HS) as (s2 & E2 & _ & HS2); [lia|]. rewrite E in E2. injection E2 as <- _.
    exists [], ht. split; [done|]. intros x. by rewrite elem_of_nil, elem_of_empty.
Qed.
End Spec.

(** C15 Skip lists implement ordered sets: for any strict total order of the keys, any number
    of levels and any random numbers, a skip list that calls have filled with the elements
    [X] has size [|X|], finds the element with a key or none, gives the element with the
    least key first, inserts an element unless one has its key (which it then returns),
    erases elements and keys, and clears in the order of the keys; no call aborts, except
    erasing a key that no element has. *)
Theorem skip_list_is_ordered_set {K : Type} (key_lt key_eq : K → K → bool) (N : nat) (head : Z) (lt_irrefl : ∀ a, key_lt a a = false)
    (lt_trans : ∀ a b c, key_lt a b = true → key_lt b c = true → key_lt a c = true) (lt_total : ∀ a b, key_lt a b = false → key_lt b a = false → a = b)
    (eq_spec : ∀ a b, key_eq a b = true ↔ a = b) (HN : (0 < N)%nat) (s : skiplist) (X : gset Z) (fuel : nat)
    (HX : reachable key_lt key_eq N head s X) (Hf : (size X ≤ fuel)%nat) :
  skip_size_ s = Z.of_nat (size X) ∧
  (∀ k, ∃ r, skip_Find key_lt key_eq N head fuel s k = Ret r ∧ ∀ x, r = Some x ↔ x ∈ X ∧ key_ s !! x = Some k) ∧
  (∃ r, skip_Begin head s = Ret r ∧ match r with None => X = ∅ | Some x => x ∈ X ∧ ∀ y, y ∈ X → y = x ∨ before key_lt s x y end) ∧
  (∀ coins x k, key_ s !! x = Some k → x ∉ X → ∃ s' r ok, skip_Insert key_lt key_eq N head fuel coins s x = Ret (s', r, ok) ∧
    ((ok = false ∧ s' = s ∧ r ∈ X ∧ key_ s !! r = Some k) ∨
     (ok = true ∧ r = x ∧ (∀ y, y ∈ X → key_ s !! y ≠ Some k) ∧ reachable key_lt key_eq N head s' ({[x]} ∪ X)))) ∧
  (∀ x, x ∈ X → ∃ s', skip_Erase N s x = Ret s' ∧ reachable key_lt key_eq N head s' (X ∖ {[x]})) ∧
  (∀ k, match skip_Find key_lt key_eq N head fuel s k with
        | Ret (Some x) => ∃ s', skip_EraseKey key_lt key_eq N head fuel s k = Ret (s', x) ∧ skip_Erase N s x = Ret s'
        | _ => skip_EraseKey key_lt key_eq N head fuel s k = Crash
        end) ∧
  (∃ s' l, skip_Clear N head fuel s = Ret (s', l) ∧ l ≡ₚ elements X ∧ StronglySorted (before key_lt s) l ∧ reachable key_lt key_eq N head s' ∅).
Proof.
  destruct (reachable_ok key_lt key_eq N head lt_irrefl lt_trans lt_total eq_spec HN s X HX) as (l & ht & HS & Hl).
  destruct (represented_length key_lt N head lt_irrefl s l ht X HS Hl) as [Hlen HP].
  assert (Herase : ∀ x, x ∈ X → ∃ s', skip_Erase N s x = Ret s').
  { intros x Hx%Hl. apply list_elem_of_split in Hx as (a & b & ->). destruct (Erase_ok key_lt N head lt_irrefl HN s ht a b x HS) as (s' & E & _). by exists s'. }
  assert (Hfind : ∀ k, ∃ r, skip_Find key_lt key_eq N head fuel s k = Ret r ∧ ∀ x, r = Some x ↔ x ∈ X ∧ key_ s !! x = Some k).
  { intros k. destruct (Find_ok key_lt key_eq N head lt_irrefl lt_trans eq_spec HN s l ht HS fuel k) as (r & E & Hr); [lia|]. exists r. split; [done|].
    intros x. by rewrite <- Hl. }
  split_and!.
  - by rewrite (so_size _ _ _ _ _ _ HS), Hlen.
  - done.
  - exists (list.head l). split; [by apply (Begin_ok key_lt N head HN s l ht)|]. destruct l as [|x l]; cbn.
    + apply set_eq. intros x. rewrite <- Hl. by rewrite elem_of_nil, elem_of_empty.
    + split; [apply Hl; left|]. intros y Hy%Hl. apply elem_of_cons in Hy as [->|Hy]; [by left|right].
      pose proof (so_sorted _ _ _ _ _ _ HS) as Hs. apply StronglySorted_inv in Hs as [_ Hs]. rewrite Forall_forall in Hs. by apply Hs.
  - intros coins x k Hk Hx.
    destruct (Insert_ok key_lt key_eq N head lt_irrefl lt_trans lt_total eq_spec HN fuel coins s l ht x k HS Hk) as (s' & r & ok & E & HK & Hcase); [by rewrite Hl|lia|].
    exists s', r, ok. split; [done|]. destruct Hcase as [(-> & -> & Hr & Hrk)|(-> & -> & Hn & _)]; [left; split_and!; [done..|by apply Hl|done]|right].
    split_and!; [done|done|intros y Hy; apply Hn; by apply Hl|]. eapply reach_insert; [done|done|by eexists|done|exact E].
  - intros x Hx. destruct (Herase x Hx) as (s' & E). exists s'. split; [done|]. by eapply reach_erase.
  - intros k. destruct (Hfind k) as (r & E & Hr). unfold skip_EraseKey. unfold skip_Find in E. unfold skip_Find. rewrite E. cbn [obind]. destruct r as [x|]; [|done].
    destruct (Herase x) as (s' & E'); [by apply (Hr x)|]. exists s'. by rewrite E'.
  - destruct (Clear_ok key_lt N head lt_irrefl HN fuel s l ht HS) as (s' & E & _ & _); [lia|]. exists s', l. split_and!; [done|done|apply (so_sorted _ _ _ _ _ _ HS)|].
    by eapply reach_clear.
Qed.

(** One element with key 30 and one with key 10, on two and one levels. *)
Lemma skip_list_witness :
  ∃ s, reachable Z.ltb Z.eqb 3 0 s {[1; 2]} ∧ skip_Begin 0 s = Ret (Some 2) ∧
    skip_size_ s = Z.of_nat (size ({[1; 2]} : gset Z)) ∧
    (∀ k, ∃ r, skip_Find Z.ltb Z.eqb 3 0 2 s k = Ret r ∧ ∀ x, r = Some x ↔ x ∈ ({[1; 2]} : gset Z) ∧ key_ s !! x = Some k).
Proof.
  set (s0 := elem_Init 3 (elem_Init 3 (skip_Init 3 0 (mkSkip ∅ ∅ 0)) 1 30) 2 10 : skiplist).
  destruct (skip_Insert Z.ltb Z.eqb 3 0 2 [true] s0 1) as [[[s1 r1] o1]| |] eqn:E1; [|vm_compute in E1; discriminate..].
  destruct (skip_Insert Z.ltb Z.eqb 3 0 2 [] s1 2) as [[[s2 r2] o2]| |] eqn:E2; [|by vm_compute in E1; injection E1 as <- <- <-; vm_compute in E2..].
  assert (Ho : o1 = true ∧ o2 = true ∧ key_ s1 = key_ s0 ∧ skip_Begin 0 s2 = Ret (Some 2)).
  { vm_compute in E1. injection E1 as <- <- <-. vm_compute in E2. injection E2 as <- <- <-. vm_compute. done. }
  destruct Ho as (-> & -> & Hk1 & Hb). exists s2.
  assert (HR : reachable Z.ltb Z.eqb 3 0 s2 {[1; 2]}).
  { assert (E : ({[1; 2]} : gset Z) = {[2]} ∪ ({[1]} ∪ ∅)) by (by vm_compute). rewrite E. eapply (reach_insert _ _ _ _ s1 _ 2 []); [| | | |exact E2].
    - eapply (reach_insert _ _ _ _ s0 ∅ 2 [true]); [| | | |exact E1].
      + repeat apply reach_new; try done. by apply reach_init.
      + by apply not_elem_of_empty.
      + vm_compute. by eexists.
      + vm_compute. lia.
    - by intros [?%elem_of_singleton|?%not_elem_of_empty]%elem_of_union.
    - rewrite Hk1. vm_compute. by eexists.
    - vm_compute. lia. }
  split; [done|]. split; [done|].
  destruct (skip_list_is_ordered_set Z.ltb Z.eqb 3 0) with (s := s2) (X := {[1; 2]} : gset Z) (fuel := 2%nat) as (H1 & H2 & _); [..|split; [exact H1|exact H2]].
  - apply Z.ltb_irrefl.
  - intros a b c. rewrite !Z.ltb_lt. lia.
  - intros a b. rewrite !Z.ltb_ge. lia.
  - apply Z.eqb_eq.
  - lia.
  - done.
  - vm_compute. lia.
Defined.
